(* ===== verification/_CoqProject ===== *)
-Q . S2P
Prelude.v
JsRegex.v
ShellSyntax.v
ShellReading.v
WindowsShell.v
NodePath.v
ExecWrappers.v
SafeBins.v
CommandResolution.v
InlineEval.v
ShellAnalysis.v
ExecAllowlist.v
ShellItems.v
ShellScanners.v
ShellAgreement.v
OMap.v
CommandQueue.v
Supervisor.v
SessionKey.v
Routing.v
JsNumber.v
HeartbeatWake.v
CronTypes.v
CronSchedule.v
CronJobs.v
CronTimer.v
CronLoop.v
CronOps.v
CronRuns.v
Dedupe.v
QueueHelpers.v
FollowupQueue.v
SessionCleanup.v
JsValue.v
ToolPolicy.v
GroupPolicy.v
SubagentDepth.v
ToolPipeline.v
JsText.v
Fences.v
Chunking.v
MarkdownChunks.v
ReplyLimits.v
SystemEvents.v
NodePendingWork.v
ConfigPatch.v
ExecPolicy.v
ApprovalsFile.v
GatewayExec.v
EffectivePolicy.v
TranscriptRepair.v
ToolCallId.v
AuthUsage.v
AuthOrder.v
GatewayLimits.v
ExecApprovals.v
DeviceScopes.v
DevicePairing.v
Effects.v
DeliveryQueue.v
DeliveryClaims.v
