(* ===== verification/Prelude.v ===== *)
(** * A verification of the openclaw gateway core

    openclaw is a gateway, written in TypeScript, that connects chat channels to
    AI agents. This development models the parts of it that decide which work
    runs, where it runs and when, which messages survive, and who may do what, and
    proves that they do.

    ** The program's parts and how they meet

    An inbound message is checked for being a repetition (src/infra/dedupe.ts) and
    routed to an agent and a session (src/routing/resolve-route.ts, with the session
    keys of src/routing/session-key.ts). The work for a session is queued on a named
    lane (src/process/command-queue.ts), which bounds how much runs at once; messages
    that arrive while the agent of the session is busy wait in a follow-up queue
    (src/auto-reply/reply/queue). Before a transcript is sent to a provider it is
    repaired (src/agents/session-transcript-repair.ts), and the credentials that are
    tried are ordered and rested by src/agents/auth-profiles. Replies go out through
    a write-ahead queue on disk (src/infra/outbound), after they have been split into
    chunks that the network accepts (src/auto-reply/chunk.ts). Scheduled work is kept by the
    cron service (src/cron): jobs are created, patched and removed by
    src/cron/service/ops.ts, their next runs are computed by src/cron/schedule.ts and
    src/cron/service/jobs.ts, and the timer of src/cron/service/timer.ts runs those
    that are due. A job of the main session queues a system event
    (src/infra/system-events.ts) and wakes the heartbeat (src/infra/heartbeat-wake.ts);
    an isolated job runs an agent. At its edge the gateway pairs devices and checks
    their tokens (src/infra/device-pairing.ts), limits failed authentications and control plane writes (src/gateway), and
    keeps the work of nodes that are not connected (src/gateway/node-pending-work.ts). Changes of
    the configuration are written as merge patches (src/config/merge-patch.ts).

    A run of an agent is offered tools. Which ones is decided by policies
    (src/agents/tool-policy*.ts, pi-tools.policy.ts): those of the configuration, of the
    provider, of the agent, of the group and the sender the message comes from
    (src/config/group-policy.ts), of the sandbox, and of sub-agents by their depth
    (src/agents/subagent-depth.ts); each step of a pipeline removes tools.

    An agent may ask the gateway to execute a command (src/agents/
    bash-tools.exec-host-gateway.ts). The policy comes from the configuration and from
    the file of approvals (src/infra/exec-approvals.ts); the command line is analysed
    (exec-approvals-analysis.ts), each program it runs is looked up behind its wrappers
    (the wrapper resolvers, exec-command-resolution.ts) and compared with an allowlist
    and with the programs that are safe whatever they are given
    (exec-approvals-allowlist.ts and the safe-bin files). The command runs, is refused,
    or waits until an operator decides (src/gateway/exec-approval-manager.ts); a lasting
    decision extends the allowlist. The processes are supervised by
    src/process/supervisor.

    ** The files

    - [Prelude]: notations ([let!], [;;!], [??] in scope [js_scope]), results of
      functions that may throw, JavaScript numbers and strings
      (src/shared/string-coerce.ts is its module [StringCoerce]), and the lemmas
      on lists, sorting and strings that the components share.
    - [JsRegex]: the regular expressions of the source as syntax trees, with the
      matcher of the language and its relation to the language of an expression.
    - [ShellSyntax], [WindowsShell]: src/utils/shell-argv.ts and the scanners, splitters
      and quoting of src/infra/exec-approvals-analysis.ts; [ShellReading] is the
      reference they are compared with: a reader of command lines that follows POSIX, with
      expansions in braces, and the simpler one it agrees with where there are none.
    - [NodePath]: Node's [path] on POSIX, src/infra/home-dir.ts, executable-path.ts and
      the class [Host] of what a host provides.
    - [ExecWrappers], [SafeBins], [InlineEval], [CommandResolution]: the resolvers of
      wrappers and multiplexers, the profiles of safe programs with an abstract
      [getopt_long] they are compared with, the programs in arguments, and the
      executables and patterns (src/infra/dispatch-wrapper-resolution.ts,
      shell-wrapper-resolution.ts, exec-wrapper-trust-plan.ts, exec-safe-bin-*.ts,
      exec-inline-eval.ts, exec-command-resolution.ts, exec-allowlist-pattern.ts).
    - [ShellAnalysis], [ExecAllowlist]: the analysis, the rebuilt commands, and the
      evaluation against the allowlist (src/infra/exec-approvals-allowlist.ts), with the
      grounds for allowing a command as an inductive definition ([permitted]).
    - [ShellItems], [ShellScanners], [ShellAgreement]: the scanners restated on a common
      sequence of quoted items, and the agreement of the analysis with the shell.
    - [ExecPolicy], [ApprovalsFile], [GatewayExec], [EffectivePolicy]: the policies of
      src/infra/exec-approvals.ts and src/node-host/exec-policy.ts, the file of
      approvals with its normalisation and edits, the decisions of the gateway, and the
      policy that is shown (exec-approvals-effective.ts) with the commands of nodes.
    - [ToolPolicy], [GroupPolicy], [SubagentDepth], [ToolPipeline]: the catalog, the names
      and patterns and the matcher of a policy (src/agents/tool-catalog.ts,
      glob-pattern.ts, tool-policy*.ts); the admission and the policies of groups and
      senders; the depth of sub-agents through session stores; and the pipeline that the
      tools of a run, of a sandbox and of a request to the gateway pass
      (src/agents/tool-policy-pipeline.ts, pi-tools.ts, pi-tools.policy.ts,
      sandbox/tool-policy.ts, src/gateway/tool-resolution.ts).
    - [JsText], [Fences], [Chunking], [MarkdownChunks], [ReplyLimits]: positions in
      texts, src/markdown/fences.ts, src/shared/text-chunking.ts and
      src/auto-reply/chunk.ts, with the limit and mode that are configured.
      The relation [cut] is what the markdown-aware splitting promises of its chunks.
    - [SystemEvents], [NodePendingWork]: src/infra/system-events.ts with the delivery
      contexts of src/utils/delivery-context.shared.ts, and
      src/gateway/node-pending-work.ts; a call is a function on a map of queues, and
      histories of calls are compared with what they should leave.
    - [ConfigPatch]: src/config/merge-patch.ts and io.write-prepare.ts, on JSON values.
    - [OMap]: JavaScript [Map]s, which iterate in insertion order, and memo
      tables with a bound.
    - [JsNumber], [JsValue]: the conversion [Number(s)], and JSON values with the
      reading and writing of their properties.
    - [Effects]: asynchronous functions as trees of the operations they await, with
      exceptions and concurrent parts ([bind], [catch], [finally], [allSettled]); two
      program logics, the class [Facts] for what stays true ([safe]) and the class
      [Views] for what a program owns ([owns]).
    - [CommandQueue]: src/process/command-queue.ts. The queue is a transition
      system: a state [QueueState] with the lanes, the waiters and an explicit
      stack of the calls that are to run ([drainLane], [pump], the
      notifications), and a step for every entry point and every iteration of
      the pump, so that a call interleaves with the settling of tasks as in the
      event loop.
    - [Supervisor]: src/process/supervisor: the registry of records and the supervisor
      of the processes that commands start, as a transition system whose events are
      calls, timers and what the processes do.
    - [SessionKey]: src/routing/session-key.ts, account-id.ts,
      src/sessions/session-key-utils.ts.
    - [Routing]: src/routing/resolve-route.ts and the binding lists it reads;
      a reference definition of the route, by a linear scan of the bindings, is
      what the indexed and cached code is compared with.
    - [Dedupe]: src/infra/dedupe.ts, with a memory of recently noted keys as its
      specification.
    - [QueueHelpers], [FollowupQueue], [SessionCleanup]: src/utils/queue-helpers.ts,
      src/auto-reply/reply/queue/*.ts. Queues are shared objects in a heap; a drain
      is a suspended computation that holds a reference to one, and every [await] of
      it is a step.
    - [HeartbeatWake]: src/infra/heartbeat-wake.ts: requests, the timer and its
      asynchronous callback, handlers and their disposers, as a transition system.
    - [CronTypes]: src/cron/types.ts; the effects on other services are values of
      [CronEffect], listed in the order the code performs them.
    - [CronSchedule]: src/cron/parse.ts, schedule.ts, stagger.ts.
    - [CronJobs]: src/cron/service/jobs.ts and the normalizers it calls. A patch
      that throws has already changed the job: [applyJobPatch] returns the job as
      it is left together with the outcome.
    - [CronTimer]: the decisions of src/cron/service/timer.ts: which jobs run, what
      a run does to its job, retries, back-off, alerts, the delay of the timer.
    - [CronLoop]: the tick of timer.ts (its pool of workers as a step relation)
      and [start] with the catch-up of missed runs.
    - [CronOps], [CronRuns]: src/cron/service/ops.ts: the operations on the jobs in memory
      and in the file, and the manual run with its three locked sections; and these
      sections in any order, as one step each.
    - [TranscriptRepair]: src/agents/session-transcript-repair.ts and the readers of
      tool calls of tool-call-id.ts; messages are JSON values.
    - [ToolCallId]: src/agents/tool-call-id.ts: the ids of calls and results that a
      provider is sent, in both modes; SHA-256 and the clock are arguments. Ids are
      shown to be new while fewer than 998 are in use: that many numbered candidates
      are different.
    - [AuthUsage], [AuthOrder]: src/agents/auth-profiles/usage.ts, order.ts,
      profiles.ts, credential-state.ts: the windows in which a credential rests, and
      the order in which credentials are tried.
    - [GatewayLimits]: src/gateway/auth-rate-limit.ts, control-plane-rate-limit.ts
      and server/ws-connection/unauthorized-flood-guard.ts, each a function on its
      table and a clock reading.
    - [ExecApprovals]: src/gateway/exec-approval-manager.ts as a transition system
      whose steps are its calls and the timers it starts; a log records what the
      promises it hands out are resolved with.
    - [DeviceScopes], [DevicePairing]: src/shared/device-auth.ts,
      operator-scope-compat.ts, device-bootstrap-profile.ts and
      src/infra/device-pairing.ts. Every operation is a function on the contents of
      the two files; a history of operations leaves a log of approvals, issued
      tokens, revocations and removals, which is what the theorems speak of.
    - [DeliveryQueue], [DeliveryClaims]: src/infra/outbound/delivery-queue-storage.ts,
      delivery-queue-recovery.ts and the sender of deliver.ts, as programs of
      [Effects] over a disk that survives crashes. [play] executes a schedule, so
      that witnesses and counterexamples are computed.

    ** What the theorems show

    Commands: a command that the gateway runs without asking is permitted by the
    policy, and where that is the allowlist every part of the command has its grounds:
    an entry that covers the program found behind the wrappers, a safe program whose
    arguments name no file, a skill of the host, a durable approval of the exact text,
    or a shell whose inline command has its grounds in turn. For commands in plain
    text, the analysis agrees with what the shell reads; a rebuilt command is read as
    the planned arguments, literally; a plan that is not blocked sees through every
    wrapper; patterns match as globs in which a star stays within a directory. A held
    command runs only when an answer or the fallback allows it, what a lasting approval
    writes is found by the next evaluation, and the policy shown is the one enforced. What
    these theorems assume of a command, a program or a pattern is in their comments.

    Tools: a run is offered, in order, exactly the tools that every filter and policy
    admits; a sub-agent does not get the control tools unless the configuration or a
    plugin names them; the depth of a sub-agent is found whatever cycles the stores hold;
    the compiled policies of senders are those of a scan by precedence. Replies: chunks
    are within the limit and cover the text in order; a fenced block that is cut is
    closed and opened again; the binary search for a block answers as a scan. Events:
    those that wait are the last twenty since they were taken. Nodes are given all of
    their work. Configuration: a merge patch leads from its base to its target, as long as
    the target has no [null] and the base no inherited name, and what was not changed keeps
    the value of the file.

    Command queue: whatever the interleaving, queued work is never stranded while
    its lane has a free slot, a lane never exceeds its concurrency, tasks start in
    order, every promise settles exactly once, waiters are resolved, and a turn of the
    event loop terminates. Supervisor: as long as no id of a live run is given to another, a process
    that runs can be ended, and its limits of time are armed. De-duplication answers as its specification does.
    Follow-up queues: accepted messages are handed over in order and without loss, through
    failed runs and restarts, as long as none is dropped and no queue is cleared. Heartbeat: a wake that is
    owed stays pending or in a running batch with the timer armed, and batches do not
    overlap. Session keys and routing: keys resolve to the agent they were built for,
    two different conversations with a peer do not share one, the optimised route is the one of
    the reference scan, and the caches never change a result.
    Schedules: an interval job runs at the least point of its grid, staggering
    shifts the schedule by an offset inside its window, and the caches are
    transparent. Jobs: creation and patching establish validity, maintenance never
    drops a pending run, and a schedule that cannot be evaluated is disabled after
    three attempts with one notice. Runs: a one-shot job stops after its retries,
    a recurring job that fails backs off within bounds, alerts are spaced, the
    timer runs exactly the due jobs and is always armed within a minute, waiting
    for a busy session is bounded. Tick and start-up: the pool runs every due job
    once with bounded concurrency and the tick releases what it ran; missed runs
    are replayed a few at once and the rest staggered. Operations: for two hours a reserved
    run excludes other starts of its job whatever operations follow, unless the job is
    disabled or a run of it ends; and changes of the jobs leave the file equal to the
    memory and the timer armed. Transcripts: when the repair changes something, every turn
    is followed at once by the results of its calls in their order, nothing of the conversation is lost, and
    tool calls are well formed; the ids a provider is sent are its kind of ids, and
    are equal exactly when they belong to one call, so that a transcript can be
    repaired whatever ids it came with. Credentials: a failing profile recovers, a model that
    failed stays blocked until its window ends, the order is ranked as configured and
    goes round. Gateway: the failed attempts of a client whose
    attempts come one at a time are spaced by the window or the lockout, the budget of writes is bounded in
    size and in count; every approval is settled exactly once and an allow-once
    decision is used at most once. Devices: no token is accepted without an approval
    of its role and of its scopes by someone who had them, an approval grants what was
    shown, and what is issued is accepted. Deliveries: no stored message is lost over
    any interleaving, failure and crash, and claims keep drains from sending an entry
    twice.

    Where the code does not do what its comments say, a theorem or lemma states what
    it does: the refused patch that changes the job, the forced runs of a disabled job
    that overlap, the interrupted one-shot job that runs again, the slots that [add]
    and [start] move on; a drain that loses messages after an overflow; the back-off of
    credentials that never grows; results of tools that a repair leaves displaced,
    repeated or missing; tokens of several roles that no check accepts; delivered
    messages that come back into the queue, and failed best-effort messages that leave
    it; words lost between empty quotes, comments and number signs on which analysis and
    shell disagree, a safe program that names files all the same, edits of the approvals
    file that overwrite entries with other arguments or drop plain texts, invalid levels
    that are not masked in runs, and a second lasting approval that forgets the first;
    a denial that the identifier of a plugin voids, an additional entry that narrows the
    tools of sub-agents, an explanation of the sandbox that misses [apply_patch], and
    inherited names that pass an allowlist; chunks that exceed the limit by a closing
    line or by blank lines, code that loses a column of its indentation, blocks hidden by
    carriage returns; [null] settings that are not written, and a key with a dot that
    takes the reference of another setting; a process that escapes the replacement of its
    scope while it starts, a late cancellation that takes a record out of the exited
    ones, an id that is used twice and hides a process, and a very long limit that ends a
    process at once; an expansion in braces that the analysis takes for several words, a
    chain that an approval of its text lets run, and patterns that match by case; a job that
    is disabled and enabled again while it runs, and runs twice; attempts at the gateway
    that are verified in parallel; and inherited names that a merge patch cannot remove.

    ** Interfaces

    [CronEnv] holds what the scheduler calls and the repository does not contain:
    [Date.parse], the croner package, the local time zone, SHA-256 and the URL
    parser; its only law is the range of a 32-bit digest. [CronStoreIO] is the
    store file, whose law is that saved jobs are read back. The classifier of
    provider errors (src/agents/failover-error.ts) is an argument. [Host] holds the file
    system, the environment, Node's [path] of Windows and the compilation of regular
    expressions from texts; SHA-256 and the generator of identifiers are parameters of
    the approvals file, with the laws that a digest has no blanks and that an identifier
    is not empty. [Channels] holds what the plugins of channels answer; the comparison of
    strings of the locale is a parameter of [NodePendingWork]. [demoEnv] and [demoIO] are concrete instances on which the witnesses compute. [Facts] and
    [Views] are the interfaces between the programs of [Effects] and the worlds they
    run in: [delivery_facts] and [claim_views] are their instances for the delivery
    queue.

    ** Conventions, bounds and fuel

    Strings are lists of Latin-1 code units; lower-casing follows the language on
    that range. Clock readings and the timestamps computed from them are integers
    [Z]; numbers that a configuration or a file supplies are of type [num], which
    has fractions, infinities and NaN. Exceptions are [Throw] with the text of the
    error. The two staggering loops have the code's own bound of four iterations;
    [drive] of CommandQueue takes the fuel [fuelFor], which is proved to be enough;
    the loop of the transcript repair takes the number of messages, and is proved to
    end within it; the loop over the arguments of a safe program takes their number and
    the removal of redirections the length of the text, which are proved to be enough
    ([positionalTokens_fuel], [stripTrailingRedirections_done]); the walk through session
    stores takes the number of their sessions, the splitters the length of the text, and
    the search for a block the number of blocks, which the theorems on them prove to be
    enough ([pick_newline_fuel] for the inner loop of the markdown splitter); the depths
    of wrappers and of inline commands are bounds of the code itself; waiting loops take
    the list of what they observe, and are proved to
    end when the clock advances. The clock readings, the random ids and tokens, and the
    outcomes of runs that a section observes are its arguments.

    ** What is not modelled

    Log calls and diagnostics; the reading, migration and normalization of stored
    cron files (src/cron/store.ts, normalize.ts) and the run log; the isolated
    agent run and its delivery; the task ledger behind the effects
    [CompleteTaskRun] and [FailTaskRun]; sorting with [localeCompare]; the lock of
    locked.ts and that of the pairing files beyond the fact that their sections are
    atomic. A callback that a step calls at once ([onWait] of the command queue) is part of
    the step, and the writing of a temporary file in the delivery queue is one operation of
    the disk. Of the repository outside these parts: model providers and tools, channel
    adapters, plugins, configuration, command line, extensions and user interfaces.
    Of the tools: their construction and execution, the labels of the catalog, and the
    names that every object inherits. Of the splitting of replies: the chunkers of
    streamed blocks.
    Of the execution of commands: the processes themselves, the requests to the server
    of approvals, the socket and the files' reading and locking; the texts of regular
    expressions that a configuration supplies. Components that are next in line are the
    serialization of attempts at the gateway, which is a hypothesis of the theorem on
    brute force, and the normalization of stored jobs, which would discharge the law of
    [CronStoreIO]. *)

From Stdlib Require Export ZArith Lia QArith Qround.
From stdpp Require Export base list sorting strings gmap pretty.

(** The numeric libraries above open their scopes; the development reads
    arithmetic in [Z]. *)
#[global] Close Scope Q_scope.
#[global] Open Scope Z_scope.

(** ** Proof automation *)

Create HintDb jsdb.

(** Case analysis on every [if] and [match] of the goal, keeping equations. *)
Ltac case_matches := repeat (case_match; simplify_eq/=).

(** Splits a boolean hypothesis built from [&&], [||] and [negb]. *)
Ltac bool_hyps :=
  repeat match goal with
  | H : (_ && _)%bool = true |- _ => apply andb_true_iff in H as [? ?]
  | H : (_ || _)%bool = false |- _ => apply orb_false_iff in H as [? ?]
  | H : negb _ = true |- _ => apply negb_true_iff in H
  | H : negb _ = false |- _ => apply negb_false_iff in H
  end.

(** Conditions whose two sides are separated by a case split and arithmetic. *)
Ltac by_cases_lia := case_matches; bool_hyps; try (congruence || lia).

(** [(a, b) = f x] with [a] and [b] variables: replaces them by projections. *)
Ltac split_pair H :=
  match type of H with
  | (?a, ?b) = ?r =>
      let H1 := fresh in let H2 := fresh in
      assert (a = r.1) as H1 by (by rewrite <- H);
      assert (b = r.2) as H2 by (by rewrite <- H);
      clear H; subst a b
  end.

(** ** Exceptions: [throw new Error(msg)] and the values a call returns *)

Inductive result (A : Type) : Type :=
| Ok (a : A)
| Throw (message : string).
Arguments Ok {A} _.
Arguments Throw {A} _.

Definition result_bind {A B} (m : result A) (k : A → result B) : result B :=
  match m with
  | Ok a => k a
  | Throw e => Throw e
  end.

Definition is_ok {A} (m : result A) : bool :=
  match m with Ok _ => true | Throw _ => false end.

Declare Scope js_scope.
Delimit Scope js_scope with js.
Notation "'let!' x := m 'in' k" := (result_bind m (λ x, k))
  (at level 10, x pattern, m at level 100, k at level 200) : js_scope.
Notation "m ';;!' k" := (result_bind m (λ _, k))
  (at level 100, right associativity) : js_scope.
(** [a ?? b] *)
Notation "a '??' b" := (default b a) (at level 65, right associativity) : js_scope.
#[global] Open Scope js_scope.

Lemma result_bind_ok {A B} (m : result A) (k : A → result B) b :
  result_bind m k = Ok b → ∃ a, m = Ok a ∧ k a = Ok b.
Proof. destruct m; naive_solver. Qed.

(** ** JavaScript numbers read from a configuration

    Clock readings and the timestamps computed from them are integers and are
    modelled in [Z]; a number that a configuration or a caller supplies may be
    fractional, infinite or not a number. *)

Inductive num : Type :=
| Fin (q : Q)
| NaN
| Inf (negative : bool).

Definition num_of_Z (z : Z) : num := Fin (inject_Z z).

(** [Number.isFinite(n) ? n : undefined] *)
Definition finite_num (n : num) : option Q :=
  match n with Fin q => Some q | _ => None end.

(** [Math.floor] and [Math.trunc] on a finite number. *)
Definition floorQ (q : Q) : Z := Qfloor q.
Definition truncQ (q : Q) : Z :=
  if Qle_bool 0 q then Qfloor q else Qceiling q.

(** [Math.floor], [Math.max] and [<] on numbers: NaN propagates through the
    first two and compares false. *)
Definition math_floor (n : num) : num :=
  match n with Fin q => num_of_Z (floorQ q) | _ => n end.

Definition num_ltb (a b : num) : bool :=
  match a, b with
  | Fin x, Fin y => negb (Qle_bool y x)
  | NaN, _ | _, NaN => false
  | Inf s, Inf t => s && negb t
  | Inf s, Fin _ => s
  | Fin _, Inf t => negb t
  end.

Definition math_max (a b : num) : num :=
  match a, b with
  | NaN, _ | _, NaN => NaN
  | _, _ => if num_ltb a b then b else a
  end.

Lemma num_ltb_Z a b : num_ltb (num_of_Z a) (num_of_Z b) = (a <? b).
Proof.
  unfold num_of_Z, num_ltb. destruct (Qle_bool _ _) eqn:E; simpl.
  - apply Qle_bool_iff in E. rewrite <- Zle_Qle in E. lia.
  - symmetry. apply Z.ltb_lt. destruct (decide (b <= a)) as [Hle|]; [|lia].
    rewrite Zle_Qle in Hle. apply Qle_bool_iff in Hle. congruence.
Qed.

Lemma floorQ_inject z : floorQ (inject_Z z) = z.
Proof. apply Qfloor_Z. Qed.

(** ** Strings

    A string is the sequence of its code units; code units below 256 are
    represented, which is where [trim] and [toLowerCase] are computed. *)

Definition is_ws (c : Ascii.ascii) : bool :=
  let n := Ascii.N_of_ascii c in
  ((9 <=? n) && (n <=? 13) || (n =? 32) || (n =? 160))%N%bool.

Fixpoint trim_start (s : string) : string :=
  match s with
  | EmptyString => EmptyString
  | String c s' => if is_ws c then trim_start s' else s
  end.

Fixpoint trim_end (s : string) : string :=
  match s with
  | EmptyString => EmptyString
  | String c s' =>
      match trim_end s' with
      | EmptyString => if is_ws c then EmptyString else String c EmptyString
      | t => String c t
      end
  end.

(** [s.trim()] *)
Definition trim (s : string) : string := trim_end (trim_start s).

Definition lower_ascii (c : Ascii.ascii) : Ascii.ascii :=
  let n := Ascii.N_of_ascii c in
  if ((65 <=? n) && (n <=? 90))%N%bool
     || ((192 <=? n) && (n <=? 222) && negb (n =? 215))%N%bool
  then Ascii.ascii_of_N (n + 32) else c.

(** [s.toLowerCase()] *)
Fixpoint lower (s : string) : string :=
  match s with
  | EmptyString => EmptyString
  | String c s' => String (lower_ascii c) (lower s')
  end.

(** [a || b] on strings: the empty string is falsy. *)
Definition str_or (a b : string) : string :=
  match a with EmptyString => b | _ => a end.

Definition str_truthy (s : string) : bool :=
  match s with EmptyString => false | _ => true end.

(** Truthiness of a string that may be [undefined]. *)
Definition ostr_truthy (s : option string) : bool :=
  match s with Some (String _ _) => true | _ => false end.

(** [s.startsWith(p)] *)
Definition starts_with (s p : string) : bool := String.prefix p s.

(** [s.includes(t)] *)
Fixpoint includes (s t : string) : bool :=
  starts_with s t ||
  match s with EmptyString => false | String _ s' => includes s' t end.

(** [s.split(c)] for a one-character separator. *)
Fixpoint split_on (sep : Ascii.ascii) (s : string) : list string :=
  match s with
  | EmptyString => [EmptyString]
  | String c s' =>
      if Ascii.eqb c sep then EmptyString :: split_on sep s'
      else match split_on sep s' with
           | [] => [String c EmptyString]
           | w :: ws => String c w :: ws
           end
  end.

(** [parts.join(sep)] *)
Fixpoint join_with (sep : string) (parts : list string) : string :=
  match parts with
  | [] => EmptyString
  | [p] => p
  | p :: ps => String.append p (String.append sep (join_with sep ps))
  end.

(** [s.slice(n)] and [s.slice(0, n)] for [n >= 0]. *)
Fixpoint str_drop (n : nat) (s : string) : string :=
  match n, s with
  | O, _ => s
  | _, EmptyString => EmptyString
  | S n', String _ s' => str_drop n' s'
  end.

Fixpoint str_take (n : nat) (s : string) : string :=
  match n, s with
  | O, _ => EmptyString
  | _, EmptyString => EmptyString
  | S n', String c s' => String c (str_take n' s')
  end.

Lemma is_ws_lower c : is_ws (lower_ascii c) = is_ws c.
Proof. destruct c as [[] [] [] [] [] [] [] []]; vm_compute; reflexivity. Qed.

Lemma lower_ascii_idemp c : lower_ascii (lower_ascii c) = lower_ascii c.
Proof. destruct c as [[] [] [] [] [] [] [] []]; vm_compute; reflexivity. Qed.

Lemma lower_idemp s : lower (lower s) = lower s.
Proof. induction s as [|c s IH]; simpl; [done|]. by rewrite lower_ascii_idemp, IH. Qed.

Lemma lower_empty_iff s : lower s = EmptyString ↔ s = EmptyString.
Proof. destruct s; simpl; split; congruence. Qed.

Lemma lower_trim_start s : lower (trim_start s) = trim_start (lower s).
Proof.
  induction s as [|c s IH]; simpl; [done|].
  rewrite is_ws_lower. by destruct (is_ws c).
Qed.

Lemma lower_trim_end s : lower (trim_end s) = trim_end (lower s).
Proof.
  induction s as [|c s IH]; simpl; [done|].
  rewrite <- IH, is_ws_lower.
  destruct (trim_end s); simpl; [by destruct (is_ws c)|done].
Qed.

Lemma lower_trim s : lower (trim s) = trim (lower s).
Proof. unfold trim. by rewrite lower_trim_end, lower_trim_start. Qed.

Lemma trim_start_idemp s : trim_start (trim_start s) = trim_start s.
Proof. induction s as [|c s IH]; simpl; [done|]. destruct (is_ws c) eqn:E; simpl; by rewrite ?E. Qed.

Lemma trim_end_idemp s : trim_end (trim_end s) = trim_end s.
Proof.
  induction s as [|c s IH]; simpl; [done|].
  destruct (trim_end s) as [|d t] eqn:E.
  - destruct (is_ws c) eqn:Ec; simpl; by rewrite ?Ec.
  - change (match trim_end (String d t) with
            | EmptyString => if is_ws c then EmptyString else String c EmptyString
            | t0 => String c t0
            end = String c (String d t)).
    by rewrite IH.
Qed.

Lemma trim_end_nonws_head c s :
  is_ws c = false → ∃ t, trim_end (String c s) = String c t.
Proof. intros Hc. simpl. destruct (trim_end s); rewrite ?Hc; eauto. Qed.

Lemma trim_start_length s : (String.length (trim_start s) <= String.length s)%nat.
Proof. induction s as [|d s IH]; simpl; [lia|]. destruct (is_ws d); simpl; lia. Qed.

Lemma trim_start_fixed c s : trim_start (String c s) = String c s → is_ws c = false.
Proof.
  simpl. destruct (is_ws c); [|done]. intros Hs.
  pose proof (trim_start_length s) as Hlen. rewrite Hs in Hlen. simpl in Hlen. lia.
Qed.

Lemma trim_start_trim_end s :
  trim_start s = s → trim_start (trim_end s) = trim_end s.
Proof.
  destruct s as [|c s]; [done|]. intros Hc%trim_start_fixed.
  destruct (trim_end_nonws_head c s Hc) as [t Ht]. rewrite Ht. simpl. by rewrite Hc.
Qed.

Lemma trim_idemp s : trim (trim s) = trim s.
Proof.
  unfold trim. rewrite trim_start_trim_end by apply trim_start_idemp.
  apply trim_end_idemp.
Qed.

#[export] Hint Rewrite lower_idemp trim_idemp lower_trim : jsdb.

Lemma str_or_nonempty a b : b ≠ EmptyString → str_or a b ≠ EmptyString.
Proof. by destruct a. Qed.

(** ** [value?.trim() || undefined]: shared/string-coerce.ts *)

Module StringCoerce.

(** [normalizeNullableString] and [normalizeOptionalString] of a value that is
    a string or absent. *)
Definition normalizeNullableString (value : option string) : option string :=
  match value with
  | None => None
  | Some s => match trim s with EmptyString => None | t => Some t end
  end.

Definition normalizeOptionalString (value : option string) : option string :=
  normalizeNullableString value.

Definition normalizeOptionalLowercaseString (value : option string) : option string :=
  lower <$> normalizeOptionalString value.

Definition normalizeLowercaseStringOrEmpty (value : option string) : string :=
  normalizeOptionalLowercaseString value ?? EmptyString.

Lemma normalizeOptionalString_spec v t :
  normalizeOptionalString v = Some t → t ≠ EmptyString ∧ trim t = t.
Proof.
  unfold normalizeOptionalString, normalizeNullableString.
  destruct v as [s|]; [|done].
  destruct (trim s) as [|c u] eqn:E; intros; simplify_eq.
  split; [done|]. by rewrite <- E, trim_idemp.
Qed.

Lemma normalizeOptionalString_idemp v :
  normalizeOptionalString (normalizeOptionalString v) = normalizeOptionalString v.
Proof.
  destruct (normalizeOptionalString v) as [t|] eqn:E; [|done].
  apply normalizeOptionalString_spec in E as [Hne Ht].
  unfold normalizeOptionalString, normalizeNullableString. rewrite Ht. by destruct t.
Qed.

Lemma normalizeLowercaseStringOrEmpty_Some s :
  normalizeLowercaseStringOrEmpty (Some s) = lower (trim s).
Proof.
  unfold normalizeLowercaseStringOrEmpty, normalizeOptionalLowercaseString,
    normalizeOptionalString, normalizeNullableString.
  by destruct (trim s).
Qed.

Lemma normalizeLowercaseStringOrEmpty_idemp s :
  normalizeLowercaseStringOrEmpty (Some (normalizeLowercaseStringOrEmpty (Some s)))
  = normalizeLowercaseStringOrEmpty (Some s).
Proof.
  rewrite !normalizeLowercaseStringOrEmpty_Some.
  by rewrite <- lower_trim, trim_idemp, lower_idemp.
Qed.

End StringCoerce.

(** ** Lists *)

Lemma filter_filter {A} (f g : A → bool) l :
  List.filter f (List.filter g l) = List.filter (λ x, g x && f x) l.
Proof.
  induction l as [|x l IH]; [done|]. cbn. destruct (g x); cbn; [|done]. destruct (f x); by rewrite IH.
Qed.

Lemma filter_ext_Forall {A} (f g : A → bool) l :
  Forall (λ x, f x = g x) l → List.filter f l = List.filter g l.
Proof. induction 1 as [|x l Hx _ IH]; simpl; [done|]. by rewrite Hx, IH. Qed.

Lemma filter_length_le {A} (f : A → bool) l :
  (length (List.filter f l) <= length l)%nat.
Proof. induction l as [|x l IH]; simpl; [lia|]. destruct (f x); simpl; lia. Qed.

Lemma find_filter {A} (f g : A → bool) l :
  List.find f (List.filter g l) = List.find (λ x, g x && f x) l.
Proof.
  induction l as [|x l IH]; simpl; [done|].
  destruct (g x); simpl; [|done]. by destruct (f x).
Qed.

Lemma find_ext {A} (f g : A → bool) l :
  (∀ x, In x l → f x = g x) → List.find f l = List.find g l.
Proof.
  induction l as [|x l IH]; intros H; simpl; [done|].
  rewrite (H x) by (by left). rewrite IH; [done|]. intros y Hy. apply H. by right.
Qed.

Lemma filter_elem {A} (f : A → bool) l x : x ∈ List.filter f l ↔ f x = true ∧ x ∈ l.
Proof. rewrite !list_elem_of_In, filter_In. tauto. Qed.

Lemma filter_NoDup {A} (f : A → bool) l : NoDup l → NoDup (List.filter f l).
Proof.
  induction 1 as [|x l Hx _ IH]; simpl; [constructor|]. destruct (f x); [|done].
  constructor; [|done]. rewrite filter_elem. tauto.
Qed.

Lemma filter_twice {A} (f : A → bool) l : List.filter f (List.filter f l) = List.filter f l.
Proof. induction l as [|x l IH]; [done|]. simpl. destruct (f x) eqn:E; simpl; rewrite ?E, IH; done. Qed.

Lemma filter_swap {A} (f g : A → bool) l : List.filter f (List.filter g l) = List.filter g (List.filter f l).
Proof. induction l as [|x l IH]; [done|]. simpl. destruct (f x) eqn:Ef, (g x) eqn:Eg; simpl; rewrite ?Ef, ?Eg, IH; done. Qed.

Lemma filter_none {A} (f : A → bool) l : (∀ x, x ∈ l → f x = false) → List.filter f l = [].
Proof.
  induction l as [|x l IH]; intros H; [done|]. simpl. rewrite (H x) by (by left). apply IH. intros y Hy. apply H. by right.
Qed.

(** Those that fail the test followed by those that pass it. *)
Lemma filter_partition {A} (f : A → bool) l :
  List.filter (λ x, negb (f x)) l ++ List.filter f l ≡ₚ l.
Proof.
  induction l as [|x l IH]; [done|]. cbn [List.filter]. destruct (f x); cbn [negb app].
  - by rewrite <- Permutation_middle, IH.
  - by rewrite IH.
Qed.

Lemma StronglySorted_weaken {A} (R R' : A → A → Prop) l :
  (∀ a b, a ∈ l → b ∈ l → R a b → R' a b) → StronglySorted R l → StronglySorted R' l.
Proof.
  intros H Hs. induction Hs as [|x l Hs IH Hx]; constructor.
  - apply IH. intros a b Ha Hb. apply H; by right.
  - rewrite Forall_forall in Hx |- *. intros y Hy. apply H; [by left|by right|by apply Hx].
Qed.

Lemma StronglySorted_total {A} (R : A → A → Prop) l :
  (∀ a b, a ∈ l → b ∈ l → R a b) → StronglySorted R l.
Proof.
  induction l as [|x l IH]; intros H; constructor.
  - apply IH. intros a b Ha Hb. apply H; by right.
  - rewrite Forall_forall. intros y Hy. apply H; [by left|by right].
Qed.

Lemma StronglySorted_filter {A} (R : A → A → Prop) (f : A → bool) l :
  StronglySorted R l → StronglySorted R (List.filter f l).
Proof.
  induction 1 as [|x l Hs IH Hx]; simpl; [constructor|]. destruct (f x); [|done].
  constructor; [done|]. rewrite Forall_forall in Hx |- *. intros y Hy. apply filter_elem in Hy as [_ Hy]. by apply Hx.
Qed.

(** [Array.prototype.toSorted] with the comparison [le]: an insertion sort, stable
    as the language requires. *)
Section to_sorted.
Context {A : Type} (le : A → A → bool).

Fixpoint insertSorted (x : A) (l : list A) : list A :=
  match l with
  | [] => [x]
  | y :: rest => if le x y then x :: l else y :: insertSorted x rest
  end.

Definition toSorted (l : list A) : list A := foldr insertSorted [] l.

Lemma insertSorted_perm x l : insertSorted x l ≡ₚ x :: l.
Proof.
  induction l as [|y l IH]; simpl; [done|]. destruct (le x y); [done|]. by rewrite IH, Permutation_swap.
Qed.

Lemma toSorted_perm l : toSorted l ≡ₚ l.
Proof. induction l as [|x l IH]; simpl; [done|]. by rewrite insertSorted_perm, IH. Qed.

Lemma toSorted_elem l x : x ∈ toSorted l ↔ x ∈ l.
Proof. by rewrite toSorted_perm. Qed.

Lemma insertSorted_sorted (R : A → A → Prop) x l :
  (∀ a b, le a b = true → R a b) → (∀ a b, le a b = false → R b a) → Transitive R →
  StronglySorted R l → StronglySorted R (insertSorted x l).
Proof.
  intros H1 H2 Htr Hs. induction Hs as [|y l Hs IH Hy]; simpl; [repeat constructor|].
  destruct (le x y) eqn:E.
  - constructor; [by constructor|]. constructor; [by apply H1|].
    apply (Forall_impl (R y)); [done|]. intros z Hz. by transitivity y; [apply H1|].
  - constructor; [done|]. rewrite insertSorted_perm. constructor; [by apply H2|done].
Qed.

Lemma toSorted_sorted (R : A → A → Prop) l :
  (∀ a b, le a b = true → R a b) → (∀ a b, le a b = false → R b a) → Transitive R →
  StronglySorted R (toSorted l).
Proof. intros H1 H2 Htr. induction l; simpl; [constructor|by apply insertSorted_sorted]. Qed.

(** Elements that compare as equal keep their order. *)
Lemma toSorted_stable (f : A → bool) l :
  (∀ a b, f a = true → f b = true → le a b = true) → List.filter f (toSorted l) = List.filter f l.
Proof.
  intros Hf. induction l as [|x l IH]; [done|]. cbn [toSorted foldr List.filter].
  rewrite <- IH. fold (toSorted l). clear IH. induction (toSorted l) as [|y s IHs]; [done|].
  cbn [insertSorted]. destruct (le x y) eqn:E; [done|]. cbn [List.filter]. rewrite IHs.
  destruct (f x) eqn:Ex, (f y) eqn:Ey; try done. by rewrite Hf in E.
Qed.

End to_sorted.

(** ** Joining and splitting strings *)

#[global] Arguments String.append : simpl nomatch.

Lemma append_assoc a b c : (a +:+ b) +:+ c = a +:+ (b +:+ c).
Proof. induction a as [|x a IH]; simpl; [done|]. by rewrite IH. Qed.

Lemma append_nil_r a : a +:+ EmptyString = a.
Proof. induction a as [|x a IH]; simpl; [done|]. by rewrite IH. Qed.

Lemma append_inj_l a b c : a +:+ b = a +:+ c → b = c.
Proof. induction a as [|x a IH]; simpl; [done|]. intros [= ?]. auto. Qed.

Lemma lower_append a b : lower (a +:+ b) = lower a +:+ lower b.
Proof. induction a as [|x a IH]; simpl; [done|]. by rewrite IH. Qed.

Lemma append_length a b : String.length (a +:+ b) = (String.length a + String.length b)%nat.
Proof. induction a as [|c a IH]; simpl; [done|]. by rewrite IH. Qed.

(** Every character of [s] satisfies [f]. *)
Fixpoint str_all (f : Ascii.ascii → bool) (s : string) : bool :=
  match s with
  | EmptyString => true
  | String c s' => f c && str_all f s'
  end.

Lemma str_all_append f a b : str_all f (a +:+ b) = str_all f a && str_all f b.
Proof. induction a as [|x a IH]; simpl; [done|]. by rewrite IH, andb_assoc. Qed.

Lemma str_all_impl (f g : Ascii.ascii → bool) s :
  (∀ c, f c = true → g c = true) → str_all f s = true → str_all g s = true.
Proof.
  intros Hfg. induction s as [|c s IH]; simpl; [done|].
  intros [? ?]%andb_true_iff. by rewrite Hfg, IH.
Qed.

Lemma str_all_take f n s : str_all f s = true → str_all f (str_take n s) = true.
Proof.
  revert s. induction n as [|n IH]; intros [|c s]; simpl; try done.
  intros [-> ?]%andb_true_iff. by rewrite IH.
Qed.

Lemma str_take_length n s : (String.length (str_take n s) <= n)%nat.
Proof.
  revert s. induction n as [|n IH]; intros [|c s]; simpl; try lia. specialize (IH s). lia.
Qed.

Lemma str_take_all n s : (String.length s <= n)%nat → str_take n s = s.
Proof.
  revert s. induction n as [|n IH]; intros [|c s]; simpl; try done; [lia|].
  intros. by rewrite IH by lia.
Qed.

Lemma split_on_free sep s :
  str_all (λ c, negb (Ascii.eqb c sep)) s = true → split_on sep s = [s].
Proof.
  induction s as [|c s IH]; simpl; [done|].
  intros [->%negb_true_iff Hs]%andb_true_iff. by rewrite (IH Hs).
Qed.

Lemma split_on_nonnil sep s : split_on sep s ≠ [].
Proof. destruct s as [|c s]; simpl; [done|]. case_match; [done|]. by case_match. Qed.

Lemma split_on_append sep a b :
  split_on sep (a +:+ String sep b) = split_on sep a ++ split_on sep b.
Proof.
  induction a as [|c a IH]; simpl.
  - by rewrite Ascii.eqb_refl.
  - case_match; [by rewrite IH|]. rewrite IH.
    destruct (split_on sep a) eqn:E; [by apply split_on_nonnil in E|done].
Qed.

Lemma split_on_parts_free sep s :
  Forall (λ w, str_all (λ c, negb (Ascii.eqb c sep)) w = true) (split_on sep s).
Proof.
  induction s as [|c s IH]; simpl; [by repeat constructor|].
  destruct (Ascii.eqb c sep) eqn:E; [by constructor|].
  destruct IH as [|w ws Hw Hws]; constructor; simpl; rewrite ?E; auto.
Qed.

Lemma join_with_cons sep p ps :
  ps ≠ [] → join_with sep (p :: ps) = p +:+ sep +:+ join_with sep ps.
Proof. by destruct ps. Qed.

Lemma trim_start_id c s : is_ws c = false → trim_start (String c s) = String c s.
Proof. intros H. simpl. by rewrite H. Qed.

(** Characters that survive [trim] at the end of a string. *)
Lemma trim_end_append_nonempty a b :
  trim_end b ≠ EmptyString → trim_end (a +:+ b) = a +:+ trim_end b.
Proof.
  intros Hb. induction a as [|c a IH]; simpl; [done|]. rewrite IH.
  destruct (a +:+ trim_end b) eqn:E; [|done].
  destruct a; simpl in E; [done|discriminate].
Qed.

Lemma trim_end_no_ws s : str_all (λ c, negb (is_ws c)) s = true → trim_end s = s.
Proof.
  induction s as [|c s IH]; simpl; [done|]. intros [Hc%negb_true_iff Hs]%andb_true_iff.
  rewrite (IH Hs), Hc. by destruct s.
Qed.

Lemma trim_no_ws s : str_all (λ c, negb (is_ws c)) s = true → trim s = s.
Proof.
  intros H. unfold trim. destruct s as [|c s]; [done|].
  rewrite trim_start_id; [by apply trim_end_no_ws|].
  simpl in H. by apply andb_true_iff in H as [?%negb_true_iff _].
Qed.

(** A string whose ends are trimmed stays so when the middle changes. *)
Lemma trim_start_append a b :
  trim_start a = a → a ≠ EmptyString → trim_start (a +:+ b) = a +:+ b.
Proof.
  destruct a as [|c a]; [done|]. intros Hc%trim_start_fixed _. simpl. by rewrite Hc.
Qed.

Lemma trim_end_nonws a c b :
  is_ws c = false → trim_end (a +:+ String c b) = a +:+ String c (trim_end b).
Proof.
  intros Hc. assert (trim_end (String c b) = String c (trim_end b)) as Hcb.
  { simpl. destruct (trim_end b); by rewrite ?Hc. }
  rewrite trim_end_append_nonempty by (by rewrite Hcb). by rewrite Hcb.
Qed.

Lemma trim_trimmed_end s : trim_end (trim s) = trim s.
Proof. unfold trim. apply trim_end_idemp. Qed.

Lemma trim_end_trim s : trim s = s → trim_end s = s.
Proof. intros H. rewrite <- H. apply trim_trimmed_end. Qed.

(** What trimming removes is white space. *)
Lemma trim_start_split s : ∃ l, s = l +:+ trim_start s ∧ str_all is_ws l = true.
Proof.
  induction s as [|c s (l & Hs & Hl)]; [by exists EmptyString|]. cbn. destruct (is_ws c) eqn:E.
  - exists (String c l). cbn. by rewrite E, <- Hs.
  - by exists EmptyString.
Qed.

Lemma trim_end_split s : ∃ r, s = trim_end s +:+ r ∧ str_all is_ws r = true.
Proof.
  induction s as [|c s (r & Hs & Hr)]; [by exists EmptyString|]. cbn.
  destruct (trim_end s) as [|d t].
  - cbn in Hs. subst r. destruct (is_ws c) eqn:E.
    + exists (String c s). cbn. by rewrite E.
    + exists s. done.
  - exists r. cbn in Hs |- *. by rewrite <- Hs.
Qed.

(** The values [f] is defined at, in order. *)
Definition filter_map {A B} (f : A → option B) (l : list A) : list B :=
  flat_map (λ a, match f a with Some b => [b] | None => [] end) l.

(** The first separator splits a string in one way. *)
Lemma sep_free_inj sep a b x y :
  str_all (λ c, negb (Ascii.eqb c sep)) a = true →
  str_all (λ c, negb (Ascii.eqb c sep)) b = true →
  a +:+ String sep x = b +:+ String sep y → a = b ∧ x = y.
Proof.
  revert b. induction a as [|c a IH]; intros [|d b]; simpl; intros Ha Hb Heq.
  - by injection Heq.
  - injection Heq as <- _. by rewrite Ascii.eqb_refl in Hb.
  - injection Heq as -> _. by rewrite Ascii.eqb_refl in Ha.
  - injection Heq as -> Heq. apply andb_true_iff in Ha as [_ Ha], Hb as [_ Hb].
    by destruct (IH b Ha Hb Heq) as [-> ->].
Qed.

(** Splitting undoes joining. *)
Lemma split_join sep l :
  Forall (λ w, str_all (λ c, negb (Ascii.eqb c sep)) w = true) l → l ≠ [] →
  split_on sep (join_with (String sep EmptyString) l) = l.
Proof.
  induction 1 as [|w l Hw Hl IH]; [done|]. intros _.
  destruct l as [|w' l]; [by apply split_on_free|].
  rewrite join_with_cons by done.
  change (w +:+ String sep EmptyString +:+ ?x) with (w +:+ String sep x).
  by rewrite split_on_append, split_on_free, IH by done.
Qed.

(** ** A sequence of calls that share one state *)

Fixpoint callAll {A B S} (f : S → A → B * S) (s : S) (args : list A) : list B * S :=
  match args with
  | [] => ([], s)
  | a :: args' =>
      let (b, s1) := f s a in let (bs, s2) := callAll f s1 args' in (b :: bs, s2)
  end.

Lemma callAll_app {A B S} (f : S → A → B * S) st l l' :
  callAll f st (l ++ l') =
  ((callAll f st l).1 ++ (callAll f (callAll f st l).2 l').1, (callAll f (callAll f st l).2 l').2).
Proof.
  revert st. induction l as [|a l IH]; intros st; cbn; [by destruct (callAll f st l')|].
  destruct (f st a) as [b s1]. rewrite IH. by destruct (callAll f s1 l).
Qed.

Lemma callAll_length {A B S} (f : S → A → B * S) st l : length (callAll f st l).1 = length l.
Proof.
  revert st. induction l as [|a l IH]; intros st; cbn; [done|]. destruct (f st a) as [b s1].
  specialize (IH s1). destruct (callAll f s1 l). cbn in *. by rewrite IH.
Qed.

Lemma callAll_one {A B S} (f : S → A → B * S) st a : callAll f st [a] = ([(f st a).1], (f st a).2).
Proof. cbn. by destruct (f st a). Qed.

(** A memoised function returns what it memoises, when one call does so from
    every state that satisfies an invariant. *)
Lemma callAll_pure {A B S} (f : S → A → B * S) (g : A → B) (P : A → Prop) (I : S → Prop) :
  (∀ s a, P a → I s → (f s a).1 = g a ∧ I (f s a).2) →
  ∀ args s, Forall P args → I s →
    (callAll f s args).1 = map g args ∧ I (callAll f s args).2.
Proof.
  intros Hf args. induction args as [|a args IH]; intros s Hall Hs; simpl; [done|].
  inversion Hall as [|? ? Ha Hall']; subst.
  destruct (Hf s a Ha Hs) as [H1 H2]. destruct (f s a) as [b s1]. simpl in *. subst b.
  destruct (IH s1 Hall' H2) as [H3 H4]. destruct (callAll f s1 args) as [bs s2]. simpl in *.
  by subst bs.
Qed.

(** ** Sets of strings: [set.has(x)] on a list of its members *)

Definition set_has (s : list string) (x : string) : bool := existsb (String.eqb x) s.

Lemma set_has_iff l x : set_has l x = true ↔ x ∈ l.
Proof.
  unfold set_has. rewrite existsb_exists, list_elem_of_In. split.
  - intros (y & Hy & E). by apply String.eqb_eq in E as ->.
  - intros Hx. exists x. split; [done|apply String.eqb_refl].
Qed.

Lemma set_has_false l x : set_has l x = false ↔ x ∉ l.
Proof. rewrite <- set_has_iff. by destruct (set_has l x). Qed.

Lemma set_has_decide l x : set_has l x = bool_decide (x ∈ l).
Proof. apply eq_true_iff_eq. by rewrite set_has_iff, bool_decide_eq_true. Qed.
#[global] Arguments set_has : simpl never.

(** [[...new Set(l)]] *)
Fixpoint unique_from (seen l : list string) : list string :=
  match l with
  | [] => []
  | x :: l' => if set_has seen x then unique_from seen l' else x :: unique_from (x :: seen) l'
  end.
Definition unique (l : list string) : list string := unique_from [] l.

Lemma unique_from_elem seen l x : x ∈ unique_from seen l ↔ x ∈ l ∧ x ∉ seen.
Proof.
  revert seen. induction l as [|y l IH]; intros seen; cbn; [set_solver|]. destruct (set_has seen y) eqn:E.
  - apply set_has_iff in E. rewrite IH. set_solver.
  - apply set_has_false in E. rewrite !elem_of_cons, IH, elem_of_cons. destruct (decide (x = y)); set_solver.
Qed.

Lemma unique_elem l x : x ∈ unique l ↔ x ∈ l.
Proof. unfold unique. rewrite unique_from_elem. set_solver. Qed.

Definition lowered (s : string) : string := StringCoerce.normalizeLowercaseStringOrEmpty (Some s).
