(* ===== verification/JsRegex.v ===== *)
(** * Regular expressions of the language

    The regular expressions that the source writes as literals are syntax trees here,
    matched by backtracking as the language specifies: alternatives from left to
    right, repetitions as long as possible, a repetition that consumes nothing stops.
    [test] and [exec] are [RegExp.prototype.test] and [RegExp.prototype.exec]. For
    expressions without assertions, [test_anchored] relates the matcher to the
    language an expression denotes, so that proofs need not follow the backtracking. *)

From Stdlib Require Import Ascii.
From S2P Require Import Prelude.

#[local] Open Scope stdpp_scope.

(** ** Syntax *)

Inductive regex : Type :=
| REmpty
| RChar (class : Ascii.ascii → bool)
| RSeq (a b : regex)
| RAlt (a b : regex)
| RStar (a : regex)
| RGroup (index : nat) (a : regex)   (* a capturing group *)
| RNotAhead (a : regex)              (* [(?!a)] *)
| RStart                             (* [^] *)
| REnd                               (* [$], without the flag m *)
| RBound.                            (* the word boundary *)

Definition RPlus (a : regex) : regex := RSeq a (RStar a).
Definition ROpt (a : regex) : regex := RAlt a REmpty.

(** The characters of a literal, and a literal under the flag i. *)
Fixpoint RLit (s : string) : regex :=
  match s with
  | EmptyString => REmpty
  | String c s' => RSeq (RChar (Ascii.eqb c)) (RLit s')
  end.

Fixpoint RLitI (s : string) : regex :=
  match s with
  | EmptyString => REmpty
  | String c s' => RSeq (RChar (λ d, Ascii.eqb (lower_ascii c) (lower_ascii d))) (RLitI s')
  end.

Fixpoint RAny (l : list regex) : regex :=
  match l with
  | [] => RChar (λ _, false)
  | [a] => a
  | a :: l' => RAlt a (RAny l')
  end.

Fixpoint RCat (l : list regex) : regex :=
  match l with
  | [] => REmpty
  | [a] => a
  | a :: l' => RSeq a (RCat l')
  end.

(** ** Character classes *)

Definition in_range (lo hi c : Ascii.ascii) : bool :=
  ((Ascii.N_of_ascii lo <=? Ascii.N_of_ascii c) && (Ascii.N_of_ascii c <=? Ascii.N_of_ascii hi))%N.

Definition is_digit (c : Ascii.ascii) : bool := in_range "0"%char "9"%char c.
Definition is_lower (c : Ascii.ascii) : bool := in_range "a"%char "z"%char c.
Definition is_upper (c : Ascii.ascii) : bool := in_range "A"%char "Z"%char c.
Definition is_alpha (c : Ascii.ascii) : bool := is_lower c || is_upper c.
(** [\w] *)
Definition is_word (c : Ascii.ascii) : bool := is_alpha c || is_digit c || Ascii.eqb c "_"%char.

(** [[...]] of the listed characters. *)
Fixpoint one_of (s : string) (c : Ascii.ascii) : bool :=
  match s with
  | EmptyString => false
  | String d s' => Ascii.eqb d c || one_of s' c
  end.

Definition none_of (s : string) (c : Ascii.ascii) : bool := negb (one_of s c).

Definition newline : Ascii.ascii := Eval compute in Ascii.ascii_of_N 10.
Definition carriage_return : Ascii.ascii := Eval compute in Ascii.ascii_of_N 13.
Definition tab : Ascii.ascii := Eval compute in Ascii.ascii_of_N 9.
Definition is_newline (c : Ascii.ascii) : bool := Ascii.eqb c newline || Ascii.eqb c carriage_return.

(** [.] without and with the flag s. *)
Definition RDot : regex := RChar (λ c, negb (is_newline c)).
Definition RDotAll : regex := RChar (λ _, true).
(** [\s] and [\S] *)
Definition RSpace : regex := RChar is_ws.
Definition RNonSpace : regex := RChar (λ c, negb (is_ws c)).

(** ** Matching *)

Definition captures : Type := list (nat * string).

Definition capture (caps : captures) (i : nat) : option string :=
  snd <$> List.find (λ p, Nat.eqb p.1 i) caps.

(** The part of [s] before its suffix [s']. *)
Definition before (s s' : string) : string :=
  str_take (String.length s - String.length s') s.

Section matching.
Context {X : Type}.

(** [rmatch r k prev s caps]: [s] is what is left of the subject, [prev] the
    character before it, [k] what has to match afterwards. *)
Fixpoint rmatch (r : regex) (k : option Ascii.ascii → string → captures → option X)
    (prev : option Ascii.ascii) (s : string) (caps : captures) : option X :=
  match r with
  | REmpty => k prev s caps
  | RChar f =>
      match s with
      | String c s' => if f c then k (Some c) s' caps else None
      | EmptyString => None
      end
  | RSeq a b => rmatch a (rmatch b k) prev s caps
  | RAlt a b =>
      match rmatch a k prev s caps with
      | Some x => Some x
      | None => rmatch b k prev s caps
      end
  | RStar a =>
      (fix loop (fuel : nat) (prev : option Ascii.ascii) (s : string) (caps : captures) : option X :=
         match fuel with
         | O => k prev s caps
         | S fuel' =>
             match rmatch a (λ prev' s' caps',
                 if (String.length s' <? String.length s)%nat then loop fuel' prev' s' caps' else None)
                 prev s caps with
             | Some x => Some x
             | None => k prev s caps
             end
         end) (String.length s) prev s caps
  | RGroup i a => rmatch a (λ prev' s' caps', k prev' s' ((i, before s s') :: caps')) prev s caps
  | RNotAhead a =>
      (* when [a] matches, the first call is [None] or the second one is *)
      match rmatch a (λ _ _ _, k prev s caps) prev s caps with
      | Some _ => None
      | None => k prev s caps
      end
  | RStart => match prev with None => k prev s caps | Some _ => None end
  | REnd => match s with EmptyString => k prev s caps | String _ _ => None end
  | RBound =>
      let wordBefore := match prev with Some c => is_word c | None => false end in
      let wordAfter := match s with String c _ => is_word c | EmptyString => false end in
      if xorb wordBefore wordAfter then k prev s caps else None
  end.

End matching.

(** [re.exec(s)]: the captures of the first match, with the whole match as
    capture 0; [re.test(s)]. *)
Fixpoint exec_from (r : regex) (prev : option Ascii.ascii) (s : string) : option captures :=
  match rmatch r (λ _ s' caps, Some ((0%nat, before s s') :: caps)) prev s [] with
  | Some caps => Some caps
  | None =>
      match s with
      | EmptyString => None
      | String c s' => exec_from r (Some c) s'
      end
  end.

Definition exec (r : regex) (s : string) : option captures := exec_from r None s.

Definition test (r : regex) (s : string) : bool :=
  match exec r s with Some _ => true | None => false end.

(** [/^r$/] *)
Definition anchored (r : regex) : regex := RSeq RStart (RSeq r REnd).

(** ** The language of an expression *)

Fixpoint plain (r : regex) : bool :=
  match r with
  | REmpty | RChar _ => true
  | RSeq a b | RAlt a b => plain a && plain b
  | RStar a | RGroup _ a => plain a
  | RNotAhead _ | RStart | REnd | RBound => false
  end.

Inductive lang : regex → string → Prop :=
| lang_empty : lang REmpty EmptyString
| lang_char f c : f c = true → lang (RChar f) (String c EmptyString)
| lang_seq a b u v : lang a u → lang b v → lang (RSeq a b) (u +:+ v)
| lang_alt_l a b u : lang a u → lang (RAlt a b) u
| lang_alt_r a b u : lang b u → lang (RAlt a b) u
| lang_star_nil a : lang (RStar a) EmptyString
| lang_star a u v : u ≠ EmptyString → lang a u → lang (RStar a) v → lang (RStar a) (u +:+ v)
| lang_group i a u : lang a u → lang (RGroup i a) u.

Lemma append_nonempty_length a b :
  a ≠ EmptyString → (String.length b < String.length (a +:+ b))%nat.
Proof. rewrite append_length. destruct a; simpl; [done|lia]. Qed.

Section language.
Context {X : Type}.

(** A continuation that looks only at what is left of the subject. *)
Definition decides (k : option Ascii.ascii → string → captures → option X) (K : string → Prop) : Prop :=
  ∀ prev s caps, is_Some (k prev s caps) ↔ K s.

(** What the matcher of [r] followed by [K] accepts. *)
Definition followed (r : regex) (K : string → Prop) (s : string) : Prop :=
  ∃ u v, s = u +:+ v ∧ lang r u ∧ K v.

Lemma rmatch_followed (r : regex) :
  plain r = true → ∀ k K, decides k K → decides (rmatch (X := X) r k) (followed r K).
Proof.
  induction r as [|f|a IHa b IHb|a IHa b IHb|a IHa|i a IHa| | | |]; cbn [plain]; intros Hp k K Hk;
    try discriminate.
  - intros prev s caps. cbn [rmatch]. rewrite (Hk prev s caps). split.
    + intros HK. exists EmptyString, s. repeat constructor. done.
    + intros (u & v & -> & Hl & HK). by inversion Hl; subst.
  - intros prev s caps. cbn [rmatch]. split.
    + destruct s as [|c s]; [by intros [? ?]|]. destruct (f c) eqn:Ef; [|by intros [? ?]].
      intros HK%Hk. exists (String c EmptyString), s. repeat constructor; done.
    + intros (u & v & -> & Hl & HK). inversion Hl; subst. cbn. case_match; [by apply Hk|congruence].
  - apply andb_true_iff in Hp as [Ha Hb]. specialize (IHb Hb k K Hk). specialize (IHa Ha _ _ IHb).
    intros prev s caps. cbn [rmatch]. rewrite (IHa prev s caps). split.
    + intros (u & v & -> & Hu & u' & v' & -> & Hu' & HK). exists (u +:+ u'), v'.
      rewrite append_assoc. split; [done|]. split; [by constructor|done].
    + intros (u & v & -> & Hl & HK). inversion Hl; subst. rewrite append_assoc.
      eexists _, _. split; [done|]. split; [done|]. by eexists _, _.
  - apply andb_true_iff in Hp as [Ha Hb]. specialize (IHa Ha k K Hk). specialize (IHb Hb k K Hk).
    intros prev s caps. cbn [rmatch]. specialize (IHa prev s caps). specialize (IHb prev s caps).
    transitivity (followed a K s ∨ followed b K s).
    + rewrite <- IHa, <- IHb. destruct (rmatch a k prev s caps); split; eauto.
      intros [[? ?]|?]; done.
    + split.
      * intros [(u & v & ? & ? & ?)|(u & v & ? & ? & ?)]; exists u, v; split_and!; try done; by constructor.
      * intros (u & v & -> & Hl & HK). inversion Hl; subst; [left|right]; by eexists _, _.
  - intros prev s caps. cbn [rmatch]. match goal with |- context [?f (String.length s) prev s caps] => set (loop := f) end.
    assert (∀ fuel prev s caps, (String.length s <= fuel)%nat →
      is_Some (loop fuel prev s caps) ↔ followed (RStar a) K s) as Hloop; [|by apply Hloop].
    clear prev s caps. induction fuel as [|fuel IHf]; intros prev s caps Hlen.
    + cbn. rewrite (Hk prev s caps). destruct s as [|c s]; cbn in Hlen; [|lia]. split.
      * intros HK. exists EmptyString, EmptyString. repeat constructor. done.
      * intros (u & v & Heq & Hl & HK). destruct u; [|done]. cbn in Heq. by subst v.
    + cbn [loop].
      set (k' := λ prev' s' caps', if (String.length s' <? String.length s)%nat
                                   then loop fuel prev' s' caps' else None).
      set (K' := λ s', (String.length s' < String.length s)%nat ∧ followed (RStar a) K s').
      assert (decides k' K') as Hk'.
      { intros p' s' c'. unfold k', K'. destruct (Nat.ltb_spec (String.length s') (String.length s)) as [Hlt|Hge].
        - rewrite IHf by lia. tauto.
        - split; [by intros [? ?]|lia]. }
      specialize (IHa Hp _ _ Hk' prev s caps).
      transitivity (followed a K' s ∨ K s).
      * rewrite <- IHa, <- (Hk prev s caps). destruct (rmatch a k' prev s caps); split; eauto.
        intros [[? ?]|?]; done.
      * split.
        -- intros [(u & v & -> & Hu & Hlt & u' & v' & -> & Hu' & HK)|HK].
           ++ exists (u +:+ u'), v'. rewrite append_assoc. split; [done|]. split; [|done].
              apply lang_star; [|done|done]. intros ->. cbn in Hlt. lia.
           ++ exists EmptyString, s. repeat constructor. done.
        -- intros (u & v & -> & Hl & HK). inversion Hl as [| | | | | |? u0 v0 Hne Hu0 Hv0|]; subst; [by right|]. left.
           exists u0, (v0 +:+ v). split; [by rewrite append_assoc|]. split; [done|]. split.
           ++ rewrite append_assoc. by apply append_nonempty_length.
           ++ by eexists _, _.
  - intros prev s caps. cbn [rmatch].
    specialize (IHa Hp (λ prev' s' caps', k prev' s' ((i, before s s') :: caps')) K).
    assert (decides (λ prev' s' caps', k prev' s' ((i, before s s') :: caps')) K) as Hk'
      by (intros ? ? ?; apply Hk).
    rewrite (IHa Hk' prev s caps). split.
    + intros (u & v & ? & ? & ?). exists u, v. split_and!; try done. by constructor.
    + intros (u & v & -> & Hl & HK). inversion Hl; subst. by eexists _, _.
Qed.

End language.

(** [/^r$/.test(s)] holds of the strings of the language. *)
Lemma test_anchored r s : plain r = true → test (anchored r) s = true ↔ lang r s.
Proof.
  intros Hp. unfold test, exec, anchored.
  assert (∀ s prev, prev ≠ None → exec_from (RSeq RStart (RSeq r REnd)) prev s = None) as Hno.
  { clear s. induction s as [|c s IH]; intros [p|] Hprev; try done. cbn. by apply IH. }
  assert (∀ s, exec_from (RSeq RStart (RSeq r REnd)) None s =
    rmatch r (λ _ s' caps, match s' with EmptyString => Some ((0%nat, before s s') :: caps) | _ => None end) None s []) as Hex.
  { clear s. intros [|c s]; cbn [exec_from rmatch]; case_match; try done. by rewrite Hno. }
  rewrite Hex. clear Hno Hex.
  pose proof (rmatch_followed (X := captures) r Hp
    (λ _ s' caps, match s' with EmptyString => Some ((0%nat, before s s') :: caps) | _ => None end)
    (λ s', s' = EmptyString)) as H.
  assert (decides (X := captures) (λ _ s' caps, match s' with EmptyString => Some ((0%nat, before s s') :: caps) | _ => None end)
    (λ s', s' = EmptyString)) as Hd.
  { intros p [|c s'] caps; split; try done; by eauto || by intros [? ?]. }
  specialize (H Hd None s []).
  transitivity (followed r (λ s', s' = EmptyString) s).
  - rewrite <- H. rewrite is_Some_alt. by destruct (rmatch r _ None s []).
  - split; [|intros Hl; exists s, EmptyString; by rewrite append_nil_r].
    intros (u & v & -> & Hl & ->). by rewrite append_nil_r.
Qed.

Lemma lang_star_char f s : lang (RStar (RChar f)) s ↔ str_all f s = true.
Proof.
  split.
  - intros Hl. remember (RStar (RChar f)) as r eqn:Hr. revert Hr.
    induction Hl as [| | | | | |a u v Hu H1 _ H2 IH2|]; intros Heq; try done.
    injection Heq as ->. rewrite str_all_append, (IH2 eq_refl), andb_true_r.
    inversion H1 as [|g c Hg| | | | | |]; subst. cbn. by rewrite Hg.
  - induction s as [|c s IH]; cbn; [constructor|]. intros [Hc Hs]%andb_true_iff.
    change (String c s) with (String c EmptyString +:+ s). apply lang_star; [done|by constructor|by apply IH].
Qed.

Lemma lang_seq_inv a b s : lang (RSeq a b) s ↔ ∃ u v, s = u +:+ v ∧ lang a u ∧ lang b v.
Proof.
  split; [|intros (u & v & -> & Hu & Hv); by constructor].
  intros Hl. inversion Hl; subst. by eexists _, _.
Qed.

Lemma lang_char_inv f s : lang (RChar f) s ↔ ∃ c, s = String c EmptyString ∧ f c = true.
Proof.
  split; [intros Hl; inversion Hl; subst; by eexists|]. intros (c & -> & Hc). by constructor.
Qed.
