(* ===== verification/ShellSyntax.v ===== *)
(** * The syntax of shell commands

    src/utils/shell-argv.ts and the scanners of src/infra/exec-approvals-analysis.ts:
    the splitting of a command line into the parts of a chain, the segments of a
    pipeline and the words of a segment, and the quoting that puts words back into a
    command line; for the Windows shells, the rejection of what they would expand, the
    removal of wrappers, the tokenizer and its quoting. *)

From Stdlib Require Import Ascii.
From S2P Require Import Prelude JsRegex.

#[local] Open Scope stdpp_scope.

Module ShellSyntax.

(** ** Loops over the characters of a string

    [for (let i = 0; i < s.length; i += 1)]: the body reads [s[i-1]], [s[i]] and what
    follows; it goes on after skipping some characters ([i += n]), breaks, or returns
    from the function. *)

Inductive flow (S E : Type) : Type :=
| Continue (skip : nat) (st : S)
| Break (st : S)
| Return (e : E).
Arguments Continue {S E} _ _.
Arguments Break {S E} _.
Arguments Return {S E} _.

(** The characters at [i-1] and at [i+1]. *)
Definition next_char (rest : string) : option ascii :=
  match rest with String c _ => Some c | EmptyString => None end.

Definition next_is (c : ascii) (rest : string) : bool :=
  match rest with String d _ => Ascii.eqb d c | EmptyString => false end.

Section scan.
Context {S E : Type} (body : option ascii → ascii → string → S → flow S E).

Fixpoint scan (prev : option ascii) (skip : nat) (s : string) (st : S) : E + S :=
  match s with
  | EmptyString => inr st
  | String c rest =>
      match skip with
      | Datatypes.S n => scan (Some c) n rest st
      | O =>
          match body prev c rest st with
          | Continue n st' => scan (Some c) n rest st'
          | Break st' => inr st'
          | Return e => inl e
          end
      end
  end.

End scan.

(** ** Characters *)

Definition quote : ascii := Eval compute in ascii_of_nat 39.
Definition dquote : ascii := Eval compute in ascii_of_nat 34.
Definition backslash : ascii := Eval compute in ascii_of_nat 92.
Definition backtick : ascii := Eval compute in ascii_of_nat 96.
Definition dollar : ascii := "$"%char.
Definition hash : ascii := "#"%char.
Definition bar : ascii := "|"%char.
Definition ampersand : ascii := "&"%char.
Definition semicolon : ascii := ";"%char.

Definition chr (c : ascii) : string := String c EmptyString.

(** ** The words of a segment: utils/shell-argv.ts *)

Record ArgState : Type := mkArgState {
  a_tokens : list string;
  a_buf : string;
  a_inSingle : bool;
  a_inDouble : bool;
  a_escaped : bool;
}.

Definition DOUBLE_QUOTE_ESCAPES_ARGS (c : ascii) : bool :=
  Ascii.eqb c backslash || Ascii.eqb c dquote || Ascii.eqb c dollar || Ascii.eqb c backtick || is_newline c.

Definition isDoubleQuoteEscape (escapes : ascii → bool) (rest : string) : bool :=
  match rest with String c _ => escapes c | EmptyString => false end.

Definition a_pushToken (st : ArgState) : ArgState :=
  match a_buf st with
  | EmptyString => st
  | buf => mkArgState (a_tokens st ++ [buf]) EmptyString (a_inSingle st) (a_inDouble st) (a_escaped st)
  end.

Definition splitShellArgs_body (prev : option ascii) (ch : ascii) (rest : string) (st : ArgState)
    : flow ArgState False :=
  let '(mkArgState tokens buf inSingle inDouble escaped) := st in
  if escaped then Continue 0 (mkArgState tokens (buf +:+ chr ch) inSingle inDouble false)
  else if negb inSingle && negb inDouble && Ascii.eqb ch backslash then
    Continue 0 (mkArgState tokens buf inSingle inDouble true)
  else if inSingle then
    if Ascii.eqb ch quote then Continue 0 (mkArgState tokens buf false inDouble escaped)
    else Continue 0 (mkArgState tokens (buf +:+ chr ch) inSingle inDouble escaped)
  else if inDouble then
    match rest with
    | String next _ =>
        if Ascii.eqb ch backslash && DOUBLE_QUOTE_ESCAPES_ARGS next then
          Continue 1 (mkArgState tokens (buf +:+ chr next) inSingle inDouble escaped)
        else if Ascii.eqb ch dquote then Continue 0 (mkArgState tokens buf inSingle false escaped)
        else Continue 0 (mkArgState tokens (buf +:+ chr ch) inSingle inDouble escaped)
    | EmptyString =>
        if Ascii.eqb ch dquote then Continue 0 (mkArgState tokens buf inSingle false escaped)
        else Continue 0 (mkArgState tokens (buf +:+ chr ch) inSingle inDouble escaped)
    end
  else if Ascii.eqb ch quote then Continue 0 (mkArgState tokens buf true inDouble escaped)
  else if Ascii.eqb ch dquote then Continue 0 (mkArgState tokens buf inSingle true escaped)
  else if Ascii.eqb ch hash && negb (str_truthy buf) then Break st
  else if is_ws ch then Continue 0 (a_pushToken st)
  else Continue 0 (mkArgState tokens (buf +:+ chr ch) inSingle inDouble escaped).

Definition splitShellArgs (raw : string) : option (list string) :=
  match scan splitShellArgs_body None 0 raw (mkArgState [] EmptyString false false false) with
  | inl e => match e with end
  | inr st =>
      if a_escaped st || a_inSingle st || a_inDouble st then None
      else Some (a_tokens (a_pushToken st))
  end.

(** ** Helpers of the scanners: exec-approvals-analysis.ts *)

Definition DOUBLE_QUOTE_ESCAPES (c : ascii) : bool :=
  Ascii.eqb c backslash || Ascii.eqb c dquote || Ascii.eqb c dollar || Ascii.eqb c backtick.

Definition DISALLOWED_PIPELINE_TOKENS (c : ascii) : bool :=
  one_of "><()" c || Ascii.eqb c backtick || is_newline c.

(** [prev] is [undefined] exactly at index 0. *)
Definition isShellCommentStart (prev : option ascii) (ch : ascii) : bool :=
  Ascii.eqb ch hash && match prev with None => true | Some p => is_ws p end.

(** The outcome of an analysis that may refuse its input. *)
Inductive analysis (A : Type) : Type :=
| Accepted (a : A)
| Refused (reason : string).
Arguments Accepted {A} _.
Arguments Refused {A} _.

(** ** The parts of a chain: splitCommandChainWithOperators *)

Inductive ShellChainOperator : Type := AndThen | OrElse | Sequel.

Definition chainOperatorText (op : ShellChainOperator) : string :=
  match op with AndThen => "&&" | OrElse => "||" | Sequel => ";" end.

Record ShellChainPart : Type := mkPart {
  part : string;
  opToNext : option ShellChainOperator;
}.

Record ChainState : Type := mkChainState {
  c_parts : list ShellChainPart;
  c_buf : string;
  c_inSingle : bool;
  c_inDouble : bool;
  c_escaped : bool;
  c_foundChain : bool;
  c_invalidChain : bool;
}.

(** [if (!pushPart(op)) invalidChain = true; foundChain = true] *)
Definition c_operator (op : ShellChainOperator) (st : ChainState) : ChainState :=
  match trim (c_buf st) with
  | EmptyString =>
      mkChainState (c_parts st) EmptyString (c_inSingle st) (c_inDouble st) (c_escaped st) true true
  | trimmed =>
      mkChainState (c_parts st ++ [mkPart trimmed (Some op)]) EmptyString
        (c_inSingle st) (c_inDouble st) (c_escaped st) true (c_invalidChain st)
  end.

Definition c_add (text : string) (st : ChainState) : ChainState :=
  mkChainState (c_parts st) (c_buf st +:+ text) (c_inSingle st) (c_inDouble st) (c_escaped st)
    (c_foundChain st) (c_invalidChain st).

Definition c_quotes (inSingle inDouble escaped : bool) (st : ChainState) : ChainState :=
  mkChainState (c_parts st) (c_buf st) inSingle inDouble escaped (c_foundChain st) (c_invalidChain st).

Definition chain_body (prev : option ascii) (ch : ascii) (rest : string) (st : ChainState)
    : flow ChainState False :=
  let inSingle := c_inSingle st in
  let inDouble := c_inDouble st in
  if c_escaped st then Continue 0 (c_quotes inSingle inDouble false (c_add (chr ch) st))
  else if negb inSingle && negb inDouble && Ascii.eqb ch backslash then
    Continue 0 (c_quotes inSingle inDouble true (c_add (chr ch) st))
  else if inSingle then
    Continue 0 (c_add (chr ch) (if Ascii.eqb ch quote then c_quotes false inDouble false st else st))
  else if inDouble then
    match rest with
    | String next _ =>
        if Ascii.eqb ch backslash && is_newline next then
          Break (mkChainState (c_parts st) (c_buf st) inSingle inDouble false (c_foundChain st) true)
        else if Ascii.eqb ch backslash && DOUBLE_QUOTE_ESCAPES next then
          Continue 1 (c_add (String ch (chr next)) st)
        else Continue 0 (c_add (chr ch) (if Ascii.eqb ch dquote then c_quotes inSingle false false st else st))
    | EmptyString =>
        Continue 0 (c_add (chr ch) (if Ascii.eqb ch dquote then c_quotes inSingle false false st else st))
    end
  else if Ascii.eqb ch quote then Continue 0 (c_add (chr ch) (c_quotes true inDouble false st))
  else if Ascii.eqb ch dquote then Continue 0 (c_add (chr ch) (c_quotes inSingle true false st))
  else if isShellCommentStart prev ch then Break st
  else if Ascii.eqb ch ampersand && next_is ampersand rest then Continue 1 (c_operator AndThen st)
  else if Ascii.eqb ch bar && next_is bar rest then Continue 1 (c_operator OrElse st)
  else if Ascii.eqb ch semicolon then Continue 0 (c_operator Sequel st)
  else Continue 0 (c_add (chr ch) st).

Definition chain_start : ChainState := mkChainState [] EmptyString false false false false false.

Definition splitCommandChainWithOperators (command : string) : option (list ShellChainPart) :=
  match scan chain_body None 0 command chain_start with
  | inl e => match e with end
  | inr st =>
      if negb (c_foundChain st) then None
      else match trim (c_buf st) with
           | EmptyString => None
           | trimmed =>
               if c_invalidChain st then None
               else Some (c_parts st ++ [mkPart trimmed None])
           end
  end.

Definition splitCommandChain (command : string) : option (list string) :=
  map part <$> splitCommandChainWithOperators command.

(** ** The segments of a pipeline: splitShellPipeline *)

Record HeredocSpec : Type := mkHeredoc {
  delimiter : string;
  stripTabs : bool;
  quoted : bool;
}.

(** [parseHeredocDelimiter(source, start)] on the text from [start] on; the end of
    the delimiter is returned as the number of characters before it. *)
Fixpoint quotedDelimiter (q : ascii) (text : string) (delim : string) (consumed : nat)
    : option (string * nat) :=
  match text with
  | EmptyString => None
  | String ch rest =>
      if is_newline ch then None
      else if Ascii.eqb q dquote && Ascii.eqb ch backslash then
        match rest with
        | String d rest' => quotedDelimiter q rest' (delim +:+ chr d) (consumed + 2)
        | EmptyString => None
        end
      else if Ascii.eqb ch q then Some (delim, S consumed)
      else quotedDelimiter q rest (delim +:+ chr ch) (S consumed)
  end.

Fixpoint plainDelimiter (text : string) (delim : string) (consumed : nat) : string * nat :=
  match text with
  | EmptyString => (delim, consumed)
  | String ch rest =>
      if is_ws ch || one_of "|&;<>" ch then (delim, consumed)
      else plainDelimiter rest (delim +:+ chr ch) (S consumed)
  end.

Fixpoint parseHeredocDelimiter (text : string) (consumed : nat) : option (string * nat * bool) :=
  match text with
  | EmptyString => None
  | String first rest =>
      if Ascii.eqb first " "%char || Ascii.eqb first tab then parseHeredocDelimiter rest (S consumed)
      else if Ascii.eqb first quote || Ascii.eqb first dquote then
        (λ p, (p.1, p.2, true)) <$> quotedDelimiter first rest EmptyString (S consumed)
      else
        let (delim, stop) := plainDelimiter text EmptyString consumed in
        if str_truthy delim then Some (delim, stop, false) else None
  end.

(** [line.replace(/^\t+/, '')] *)
Fixpoint dropTabs (line : string) : string :=
  match line with
  | String c rest => if Ascii.eqb c tab then dropTabs rest else line
  | EmptyString => line
  end.

(** [hasUnquotedHeredocExpansionToken]: [odd] tells whether an odd number of
    backslashes precedes the position ([isEscapedInHeredocLine]). *)
Fixpoint expansionToken (odd : bool) (line : string) : bool :=
  match line with
  | EmptyString => false
  | String ch rest =>
      (negb odd && (Ascii.eqb ch backtick
        || Ascii.eqb ch dollar && (next_is "("%char rest || next_is "{"%char rest)))
      || expansionToken (Ascii.eqb ch backslash && negb odd) rest
  end.

Definition hasUnquotedHeredocExpansionToken (line : string) : bool := expansionToken false line.

Record PipeState : Type := mkPipeState {
  p_segments : list string;
  p_buf : string;
  p_inSingle : bool;
  p_inDouble : bool;
  p_escaped : bool;
  p_emptySegment : bool;
  p_pendingHeredocs : list HeredocSpec;
  p_inHeredocBody : bool;
  p_heredocLine : string;
}.

(** [buf += text; emptySegment = false] with the flags of the quotes. *)
Definition p_add (text : string) (inSingle inDouble escaped : bool) (st : PipeState) : PipeState :=
  mkPipeState (p_segments st) (p_buf st +:+ text) inSingle inDouble escaped false
    (p_pendingHeredocs st) (p_inHeredocBody st) (p_heredocLine st).

Definition p_pushPart (st : PipeState) : PipeState :=
  let segments :=
    match trim (p_buf st) with
    | EmptyString => p_segments st
    | trimmed => p_segments st ++ [trimmed]
    end in
  mkPipeState segments EmptyString (p_inSingle st) (p_inDouble st) (p_escaped st) (p_emptySegment st)
    (p_pendingHeredocs st) (p_inHeredocBody st) (p_heredocLine st).

Definition p_heredoc (pending : list HeredocSpec) (inBody : bool) (line : string) (st : PipeState) : PipeState :=
  mkPipeState (p_segments st) (p_buf st) (p_inSingle st) (p_inDouble st) (p_escaped st) (p_emptySegment st)
    pending inBody line.

Definition unsupported (token : string) : string := "unsupported shell token: " +:+ token.

(** The rest of a line break of two characters. *)
Definition crlf (ch : ascii) (rest : string) : nat :=
  if Ascii.eqb ch carriage_return && next_is newline rest then 1 else 0.

Definition heredocText (h : HeredocSpec) (line : string) : string :=
  if stripTabs h then dropTabs line else line.

Definition heredoc_body (ch : ascii) (rest : string) (st : PipeState) : flow PipeState string :=
  if is_newline ch then
    let after (pending : list HeredocSpec) :=
      Continue (crlf ch rest) (p_heredoc pending (negb (length pending =? 0)%nat) EmptyString st) in
    match p_pendingHeredocs st with
    | [] => after []
    | current :: others =>
        if String.eqb (heredocText current (p_heredocLine st)) (delimiter current) then after others
        else if negb (quoted current) && hasUnquotedHeredocExpansionToken (p_heredocLine st) then
          Return "command substitution in unquoted heredoc"
        else after (current :: others)
    end
  else Continue 0 (p_heredoc (p_pendingHeredocs st) true (p_heredocLine st +:+ chr ch) st).

(** [<<]: the operator, a dash, the delimiter. *)
Definition heredoc_start (rest : string) (st : PipeState) : flow PipeState string :=
  let afterOp := str_drop 1 rest in
  let strip := next_is "-"%char afterOp in
  let text := if strip then str_drop 1 afterOp else afterOp in
  let op := if strip then "<<-" else "<<" in
  let n := if strip then 2%nat else 1%nat in
  match parseHeredocDelimiter text 0 with
  | Some (delim, consumed, isQuoted) =>
      let st' := p_add (op +:+ str_take consumed text) false false false st in
      Continue (n + consumed)
        (p_heredoc (p_pendingHeredocs st' ++ [mkHeredoc delim strip isQuoted]) false (p_heredocLine st') st')
  | None =>
      (* the dash is not skipped: it is read again *)
      Continue 1 (p_add op false false false st)
  end.

Definition pipe_double (ch : ascii) (rest : string) (st : PipeState) : flow PipeState string :=
  let plainChar :=
    if Ascii.eqb ch dollar && next_is "("%char rest then Return (unsupported "$()")
    else if Ascii.eqb ch backtick then Return (unsupported (chr backtick))
    else if is_newline ch then Return (unsupported "newline")
    else Continue 0 (p_add (chr ch) false (negb (Ascii.eqb ch dquote)) false st) in
  match rest with
  | String next _ =>
      if Ascii.eqb ch backslash && is_newline next then Return (unsupported "newline")
      else if Ascii.eqb ch backslash && DOUBLE_QUOTE_ESCAPES next then
        Continue 1 (p_add (String ch (chr next)) false true false st)
      else plainChar
  | EmptyString => plainChar
  end.

Definition pipe_body (prev : option ascii) (ch : ascii) (rest : string) (st : PipeState)
    : flow PipeState string :=
  if p_inHeredocBody st then heredoc_body ch rest st
  else if p_escaped st then Continue 0 (p_add (chr ch) (p_inSingle st) (p_inDouble st) false st)
  else if negb (p_inSingle st) && negb (p_inDouble st) && Ascii.eqb ch backslash then
    Continue 0 (p_add (chr ch) false false true st)
  else if p_inSingle st then
    Continue 0 (p_add (chr ch) (negb (Ascii.eqb ch quote)) (p_inDouble st) false st)
  else if p_inDouble st then pipe_double ch rest st
  else if Ascii.eqb ch quote then Continue 0 (p_add (chr ch) true false false st)
  else if Ascii.eqb ch dquote then Continue 0 (p_add (chr ch) false true false st)
  else if isShellCommentStart prev ch then Break st
  else if is_newline ch && negb (length (p_pendingHeredocs st) =? 0)%nat then
    Continue (crlf ch rest) (p_heredoc (p_pendingHeredocs st) true EmptyString st)
  else if Ascii.eqb ch bar && next_is bar rest then Return (unsupported "||")
  else if Ascii.eqb ch bar && next_is ampersand rest then Return (unsupported "|&")
  else if Ascii.eqb ch bar then
    let st' := p_pushPart st in
    Continue 0 (mkPipeState (p_segments st') (p_buf st') false false false true
      (p_pendingHeredocs st') false (p_heredocLine st'))
  else if Ascii.eqb ch ampersand || Ascii.eqb ch semicolon then Return (unsupported (chr ch))
  else if Ascii.eqb ch "<"%char && next_is "<"%char rest then heredoc_start rest st
  else if DISALLOWED_PIPELINE_TOKENS ch then Return (unsupported (chr ch))
  else if Ascii.eqb ch dollar && next_is "("%char rest then Return (unsupported "$()")
  else Continue 0 (p_add (chr ch) false false false st).

Definition pipe_start : PipeState := mkPipeState [] EmptyString false false false false [] false EmptyString.

(** What follows the loop: a last line that ends a here-document, the checks, the
    last segment. *)
Definition pipe_lastLine (st : PipeState) : PipeState :=
  match p_pendingHeredocs st with
  | current :: others =>
      if p_inHeredocBody st && String.eqb (heredocText current (p_heredocLine st)) (delimiter current)
      then p_heredoc others (negb (length others =? 0)%nat) (p_heredocLine st) st
      else st
  | [] => st
  end.

Definition pipe_finish (st0 : PipeState) : analysis (list string) :=
  let st := pipe_lastLine st0 in
  if negb (length (p_pendingHeredocs st) =? 0)%nat || p_inHeredocBody st then Refused "unterminated heredoc"
  else if p_escaped st || p_inSingle st || p_inDouble st then Refused "unterminated shell quote/escape"
  else
    let segments := p_segments (p_pushPart st) in
    match segments with
    | [] => Refused "empty command"
    | _ => if p_emptySegment st then Refused "empty pipeline segment" else Accepted segments
    end.

Definition splitShellPipeline (command : string) : analysis (list string) :=
  match scan pipe_body None 0 command pipe_start with
  | inl reason => Refused reason
  | inr st => pipe_finish st
  end.

(** ** Quoting: shellEscapeSingleArg *)

Definition singleQuoteEscape : string :=
  String quote (String dquote (String quote (String dquote (chr quote)))).

(** [value.replace(/'/g, singleQuoteEscape)] *)
Fixpoint escapeQuotes (value : string) : string :=
  match value with
  | EmptyString => EmptyString
  | String c rest =>
      if Ascii.eqb c quote then singleQuoteEscape +:+ escapeQuotes rest
      else String c (escapeQuotes rest)
  end.

Definition shellEscapeSingleArg (value : string) : string :=
  String quote (escapeQuotes value +:+ chr quote).

End ShellSyntax.
