(* ===== verification/ShellReading.v ===== *)
(** * How a POSIX shell reads a command line

    The reference against which the analysis of commands is judged: token recognition
    and quoting of the Shell Command Language (POSIX.1-2017, XCU 2.2, 2.3 and 2.6.2);
    reading stops where a command substitution begins. [sh_read] reads a line without
    the parameter expansions in braces, [posix_read] with them; [posix_read_simple] and
    [posix_read_active] say when the two agree. [sh_read_command] shows that words
    quoted by [shellEscapeSingleArg] are read back literally;
    [ShellAgreement] compares it with the analysis of commands. *)

From Stdlib Require Import Ascii.
From S2P Require Import Prelude JsRegex ShellSyntax.

#[local] Open Scope stdpp_scope.

Module ShellReading.
Export ShellSyntax.

(** ** Tokens

    A character of a word is literal when it was quoted; otherwise it is active: the
    shell may expand it as a parameter or a pattern. [Par] is a character, quotes
    included, of an expansion in braces whose body is more than plain characters. [TSubst w] is the beginning of a
    command substitution inside a word that starts with [w]. *)

Inductive schar : Type := Lit (c : ascii) | Act (c : ascii) | Par (c : ascii).

Inductive stoken : Type :=
| TWord (w : list schar)
| TOp (op : string)
| TSubst (w : list schar).

Definition schar_char (c : schar) : ascii := match c with Lit c | Act c | Par c => c end.

(** The word after quote removal. *)
Definition word_value (w : list schar) : string := String.string_of_list_ascii (map schar_char w).

Inductive smode : Type := Plain | InSingle | InDouble | InComment.

Definition is_blank (c : ascii) : bool := Ascii.eqb c " "%char || Ascii.eqb c tab.

Definition is_operator_char (c : ascii) : bool := one_of "|&;<>()" c || Ascii.eqb c newline.

(** The operators of two characters that a command line may hold. *)
Definition doubled (c : ascii) (rest : string) : bool :=
  one_of "&|;<>" c && next_is c rest.

Definition flush (w : option (list schar)) (toks : list stoken) : list stoken :=
  match w with Some w => TWord w :: toks | None => toks end.

Definition extend (w : option (list schar)) (cs : list schar) : option (list schar) :=
  Some (default [] w ++ cs).

(** [w] is the word that has begun. An unfinished quotation and a lone backslash at
    the end are not read. Dollar and brace are characters as any. *)
Fixpoint sh_read (mode : smode) (w : option (list schar)) (s : string) : option (list stoken) :=
  match s with
  | EmptyString =>
      match mode with
      | Plain => Some (flush w [])
      | InComment => Some []
      | InSingle | InDouble => None
      end
  | String c s' =>
      match mode with
      | InComment => if Ascii.eqb c newline then cons (TOp (chr c)) <$> sh_read Plain None s'
                     else sh_read InComment None s'
      | InSingle => if Ascii.eqb c quote then sh_read Plain w s'
                    else sh_read InSingle (extend w [Lit c]) s'
      | InDouble =>
          if Ascii.eqb c dquote then sh_read Plain w s'
          else if Ascii.eqb c backslash then
            match s' with
            | String d s'' =>
                if DOUBLE_QUOTE_ESCAPES d then sh_read InDouble (extend w [Lit d]) s''
                else if Ascii.eqb d newline then sh_read InDouble w s''
                else sh_read InDouble (extend w [Lit c]) s'
            | EmptyString => None
            end
          else if Ascii.eqb c backtick || Ascii.eqb c dollar && next_is "("%char s' then Some [TSubst (default [] w)]
          else sh_read InDouble (extend w [if Ascii.eqb c dollar then Act c else Lit c]) s'
      | Plain =>
          if Ascii.eqb c backslash then
            match s' with
            | String d s'' => if Ascii.eqb d newline then sh_read Plain w s''
                              else sh_read Plain (extend w [Lit d]) s''
            | EmptyString => None
            end
          else if Ascii.eqb c quote then sh_read InSingle (extend w []) s'
          else if Ascii.eqb c dquote then sh_read InDouble (extend w []) s'
          else if is_blank c then flush w <$> sh_read Plain None s'
          else if Ascii.eqb c hash && match w with None => true | Some _ => false end then
            sh_read InComment None s'
          else if is_operator_char c then
            if doubled c s' then
              match s' with
              | String d s'' => (λ toks, flush w (TOp (String c (chr d)) :: toks)) <$> sh_read Plain None s''
              | EmptyString => None
              end
            else (λ toks, flush w (TOp (chr c) :: toks)) <$> sh_read Plain None s'
          else if Ascii.eqb c backtick || Ascii.eqb c dollar && next_is "("%char s' then Some [TSubst (default [] w)]
          else sh_read Plain (extend w [Act c]) s'
      end
  end.

(** ** Parameter expansions in braces

    A dollar sign and a brace begin an expansion that ends at the matching brace:
    quotations, escaped characters and expansions inside it are passed over (XCU 2.3,
    rule 5, and 2.6.2). When the body is plain, reading on character by character comes
    to the same; only what encloses the end differs otherwise. *)

Definition brace_open : ascii := "{"%char.
Definition brace_close : ascii := "}"%char.

Definition plain_body_char (c : ascii) : bool :=
  negb (Ascii.eqb c quote || Ascii.eqb c dquote || Ascii.eqb c backslash || Ascii.eqb c backtick
        || Ascii.eqb c dollar || Ascii.eqb c brace_open || is_blank c || is_operator_char c).

Fixpoint plain_body (s : string) : bool :=
  match s with
  | EmptyString => false
  | String c s' => if Ascii.eqb c brace_close then true else plain_body_char c && plain_body s'
  end.

(** An expansion in braces that is not plain begins at [c]. *)
Definition opens_brace (c : ascii) (s : string) : bool :=
  Ascii.eqb c dollar
  && match s with String d s' => Ascii.eqb d brace_open && negb (plain_body s') | EmptyString => false end.

(** What encloses the characters of an expansion, innermost first. *)
Inductive enclosure : Type := EBrace | ESingle | EDouble.

Inductive pmode : Type := Base (mode : smode) | InBraces (stack : list enclosure) (back : smode).

Fixpoint posix_read (mode : pmode) (w : option (list schar)) (s : string) : option (list stoken) :=
  match s with
  | EmptyString =>
      match mode with
      | Base Plain => Some (flush w [])
      | Base InComment => Some []
      | _ => None
      end
  | String c s' =>
      match mode with
      | InBraces stack back =>
          let go stack' := posix_read (match stack' with [] => Base back | _ => InBraces stack' back end)
                             (extend w [Par c]) s' in
          match stack with
          | [] => None
          | ESingle :: outer => if Ascii.eqb c quote then go outer else go stack
          | EDouble :: outer | EBrace :: outer =>
              let inBrace := match stack with EBrace :: _ => true | _ => false end in
              let quoted := existsb (λ e, match e with EDouble => true | _ => false end) stack
                            || match back with InDouble => true | _ => false end in
              if Ascii.eqb c backslash then
                match s' with
                | String d s'' => posix_read mode (extend w [Par c; Par d]) s''
                | EmptyString => None
                end
              else if Ascii.eqb c backtick || Ascii.eqb c dollar && next_is "("%char s' then Some [TSubst (default [] w)]
              else if Ascii.eqb c dollar && next_is brace_open s' then
                match s' with
                | String d s'' => posix_read (InBraces (EBrace :: stack) back) (extend w [Par c; Par d]) s''
                | EmptyString => None
                end
              else if inBrace then
                if Ascii.eqb c brace_close then go outer
                else if Ascii.eqb c dquote then go (EDouble :: stack)
                else if Ascii.eqb c quote && negb quoted then go (ESingle :: stack)
                else go stack
              else if Ascii.eqb c dquote then go outer else go stack
          end
      | Base mode =>
          match mode with
          | InComment => if Ascii.eqb c newline then cons (TOp (chr c)) <$> posix_read (Base Plain) None s'
                         else posix_read (Base InComment) None s'
          | InSingle => if Ascii.eqb c quote then posix_read (Base Plain) w s'
                        else posix_read (Base InSingle) (extend w [Lit c]) s'
          | InDouble =>
              if Ascii.eqb c dquote then posix_read (Base Plain) w s'
              else if Ascii.eqb c backslash then
                match s' with
                | String d s'' =>
                    if DOUBLE_QUOTE_ESCAPES d then posix_read (Base InDouble) (extend w [Lit d]) s''
                    else if Ascii.eqb d newline then posix_read (Base InDouble) w s''
                    else posix_read (Base InDouble) (extend w [Lit c]) s'
                | EmptyString => None
                end
              else if Ascii.eqb c backtick || Ascii.eqb c dollar && next_is "("%char s' then Some [TSubst (default [] w)]
              else if opens_brace c s' then
                match s' with
                | String d s'' => posix_read (InBraces [EBrace] InDouble) (extend w [Par c; Par d]) s''
                | EmptyString => None
                end
              else posix_read (Base InDouble) (extend w [if Ascii.eqb c dollar then Act c else Lit c]) s'
          | Plain =>
              if Ascii.eqb c backslash then
                match s' with
                | String d s'' => if Ascii.eqb d newline then posix_read (Base Plain) w s''
                                  else posix_read (Base Plain) (extend w [Lit d]) s''
                | EmptyString => None
                end
              else if Ascii.eqb c quote then posix_read (Base InSingle) (extend w []) s'
              else if Ascii.eqb c dquote then posix_read (Base InDouble) (extend w []) s'
              else if is_blank c then flush w <$> posix_read (Base Plain) None s'
              else if Ascii.eqb c hash && match w with None => true | Some _ => false end then
                posix_read (Base InComment) None s'
              else if is_operator_char c then
                if doubled c s' then
                  match s' with
                  | String d s'' => (λ toks, flush w (TOp (String c (chr d)) :: toks)) <$> posix_read (Base Plain) None s''
                  | EmptyString => None
                  end
                else (λ toks, flush w (TOp (chr c) :: toks)) <$> posix_read (Base Plain) None s'
              else if Ascii.eqb c backtick || Ascii.eqb c dollar && next_is "("%char s' then Some [TSubst (default [] w)]
              else if opens_brace c s' then
                match s' with
                | String d s'' => posix_read (InBraces [EBrace] Plain) (extend w [Par c; Par d]) s''
                | EmptyString => None
                end
              else posix_read (Base Plain) (extend w [Act c]) s'
          end
      end
  end.

Definition shell_reads (command : string) : option (list stoken) := posix_read (Base Plain) None command.

(** The tokens whose words satisfy [f]. *)
Definition token_all (f : schar → bool) (t : stoken) : bool :=
  match t with TWord w | TSubst w => forallb f w | TOp _ => true end.

Definition not_par (x : schar) : bool := match x with Par _ => false | _ => true end.
Definition not_active_dollar (x : schar) : bool := match x with Act c => negb (Ascii.eqb c dollar) | _ => true end.

(** No expansion in braces whose body is more than plain characters. *)
Definition plain_expansions (toks : list stoken) : bool := forallb (token_all not_par) toks.

(** ** Quoted words are read back *)

Definition literal (v : string) : list schar := map Lit (String.list_ascii_of_string v).

Lemma literal_append a b : literal (a +:+ b) = literal a ++ literal b.
Proof. unfold literal. induction a as [|c a IH]; [done|]. cbn. by rewrite IH. Qed.

Lemma word_value_literal v : word_value (literal v) = v.
Proof. unfold word_value, literal. induction v as [|c v IH]; [done|]. cbn. by rewrite IH. Qed.

(** One step of the reader for each kind of character. *)
Lemma read_single_end w s : sh_read InSingle w (String quote s) = sh_read Plain w s.
Proof. reflexivity. Qed.

Lemma read_single_char w c s :
  Ascii.eqb c quote = false → sh_read InSingle w (String c s) = sh_read InSingle (extend w [Lit c]) s.
Proof. intros H. cbn. by rewrite H. Qed.

Lemma read_plain_quote w s : sh_read Plain w (String quote s) = sh_read InSingle (extend w []) s.
Proof. reflexivity. Qed.

Lemma read_plain_dquote w s : sh_read Plain w (String dquote s) = sh_read InDouble (extend w []) s.
Proof. reflexivity. Qed.

Lemma read_double_end w s : sh_read InDouble w (String dquote s) = sh_read Plain w s.
Proof. reflexivity. Qed.

Lemma read_blank w c s : is_blank c = true → sh_read Plain w (String c s) = flush w <$> sh_read Plain None s.
Proof.
  intros H. unfold is_blank in H. apply orb_true_iff in H as [H|H]; apply Ascii.eqb_eq in H as ->; reflexivity.
Qed.

Lemma extend_extend w a b : extend (extend w a) b = extend w (a ++ b).
Proof. unfold extend. cbn [default id from_option]. by rewrite <- app_assoc. Qed.

Lemma extend_nil w a : extend (extend w a) [] = extend w a.
Proof. by rewrite extend_extend, app_nil_r. Qed.

(** A word that has begun begins the next token. *)
Definition begins (w : list schar) (toks : list stoken) : Prop :=
  ∃ w' r, toks = TWord (w ++ w') :: r ∨ toks = TSubst (w ++ w') :: r.

Lemma begins_extend w cs toks : begins (w ++ cs) toks → begins w toks.
Proof. intros (w' & r & H). exists (cs ++ w'), r. by rewrite app_assoc. Qed.

Lemma begins_all f w toks : begins w toks → forallb (token_all f) toks = true → forallb f w = true.
Proof.
  intros (w' & r & [->| ->]) H; cbn in H; apply andb_true_iff in H as [H _]; by rewrite forallb_app in H; apply andb_true_iff in H as [H _].
Qed.

Lemma begins_flush w (o : option (list stoken)) f toks :
  (∀ t, begins w (f t)) → f <$> o = Some toks → begins w toks.
Proof. destruct o as [o|]; [|done]. intros H [= <-]. apply H. Qed.

(** A word is being read. *)
Definition in_word (mode : pmode) : bool :=
  match mode with Base InComment | InBraces _ InComment => false | _ => true end.

Lemma posix_read_begins s :
  ∀ mode w toks, in_word mode = true → posix_read mode (Some w) s = Some toks → begins w toks.
Proof.
  remember (String.length s) as n eqn:Hn. revert s Hn.
  induction n as [n IH] using lt_wf_ind. intros s -> mode w toks Hm H.
  assert (∀ s' m cs tk, (String.length s' < String.length s)%nat → in_word m = true →
    posix_read m (extend (Some w) cs) s' = Some tk → begins w tk) as IH1.
  { intros s' m cs tk Hl Hm' H'. apply (begins_extend w cs). by apply (IH _ Hl s' eq_refl m (w ++ cs) tk). }
  assert (∀ s' m tk, (String.length s' < String.length s)%nat → in_word m = true →
    posix_read m (Some w) s' = Some tk → begins w tk) as IH2.
  { intros s' m tk Hl Hm' H'. by apply (IH _ Hl s' eq_refl m w tk). }
  clear IH. assert (∀ r, begins w (flush (Some w) r)) as Hflush by (intros r; exists [], r; left; cbn; by rewrite app_nil_r).
  assert (begins w [TSubst w]) as Hsub by (exists [], []; right; by rewrite app_nil_r).
  destruct s as [|c s]; cbn in H.
  { destruct mode as [[| | |]|]; try done. injection H as <-. apply (Hflush []). }
  destruct mode as [[| | |]|[|[| |] stack] back]; try done; repeat case_match; subst; try done;
    match goal with
    | H : (_ && false)%bool = true |- _ => by rewrite andb_false_r in H
    | H : posix_read _ (Some w) ?s' = Some _ |- _ => apply (IH2 s') in H; [done|cbn; lia|first [done|by destruct back]]
    | H : posix_read _ (extend _ _) ?s' = Some _ |- _ => apply (IH1 s') in H; [done|cbn; lia|first [done|by destruct back|by repeat case_match]]
    | H : _ <$> _ = Some _ |- _ => eapply begins_flush; [|exact H]; intros; apply Hflush
    | H : Some _ = Some _ |- _ => injection H as <-; exact Hsub
    end.
Qed.

(** Without such an expansion the two readers agree. *)
Lemma posix_read_simple s :
  ∀ mode w toks, posix_read (Base mode) w s = Some toks → plain_expansions toks = true → sh_read mode w s = Some toks.
Proof.
  remember (String.length s) as n eqn:Hn. revert s Hn.
  induction n as [n IH] using lt_wf_ind. intros s -> mode w toks H Hp.
  assert (∀ s' m w' tk, (String.length s' < String.length s)%nat → posix_read (Base m) w' s' = Some tk →
    plain_expansions tk = true → sh_read m w' s' = Some tk) as IH'.
  { intros s' m w' tk Hl. by apply (IH _ Hl s'). }
  clear IH. assert (∀ s' m w' f, (String.length s' < String.length s)%nat → f <$> posix_read (Base m) w' s' = Some toks →
    (∀ tk, plain_expansions (f tk) = true → plain_expansions tk = true) → f <$> sh_read m w' s' = Some toks) as IHf.
  { intros s' m w' f Hl Hf Hback. destruct (posix_read (Base m) w' s') as [tk|] eqn:E; [|done]. injection Hf as <-.
    by rewrite (IH' _ _ _ tk Hl E (Hback tk Hp)). }
  assert (∀ tk, plain_expansions (flush w tk) = true → plain_expansions tk = true) as Hfl.
  { intros tk. destruct w; [|done]. cbn. by intros [_ ?]%andb_true_iff. }
  assert (∀ c d s' m, posix_read (InBraces [EBrace] m) (extend w [Par c; Par d]) s' = Some toks → in_word (Base m) = true → False) as Hbrace.
  { intros c d s' m E Hm. apply posix_read_begins in E; [|by destruct m]. apply (begins_all not_par) in E; [|done].
    rewrite forallb_app in E. by rewrite andb_false_r in E. }
  destruct s as [|c s]; [done|]. cbn in H |- *.
  destruct mode; repeat case_match; subst; try done;
    match goal with
    | H : posix_read (InBraces _ _) _ _ = Some _ |- _ => by apply Hbrace in H
    | H : posix_read (Base _) _ ?s' = Some _ |- _ => by apply IH'; [cbn; lia|exact H|]
    | H : _ <$> _ = Some _ |- _ => eapply IHf; [cbn; lia|exact H|]; done
    end.
Qed.

Lemma sh_read_begins s :
  ∀ mode w toks, mode ≠ InComment → sh_read mode (Some w) s = Some toks → begins w toks.
Proof.
  remember (String.length s) as n eqn:Hn. revert s Hn.
  induction n as [n IH] using lt_wf_ind. intros s -> mode w toks Hm H.
  assert (∀ s' m cs tk, (String.length s' < String.length s)%nat → m ≠ InComment →
    sh_read m (extend (Some w) cs) s' = Some tk → begins w tk) as IH1.
  { intros s' m cs tk Hl Hm' H'. apply (begins_extend w cs). by apply (IH _ Hl s' eq_refl m (w ++ cs) tk). }
  assert (∀ s' m tk, (String.length s' < String.length s)%nat → m ≠ InComment →
    sh_read m (Some w) s' = Some tk → begins w tk) as IH2.
  { intros s' m tk Hl Hm' H'. by apply (IH _ Hl s' eq_refl m w tk). }
  clear IH. assert (∀ r, begins w (flush (Some w) r)) as Hflush by (intros r; exists [], r; left; cbn; by rewrite app_nil_r).
  assert (begins w [TSubst w]) as Hsub by (exists [], []; right; by rewrite app_nil_r).
  destruct s as [|c s]; cbn in H.
  { destruct mode; try done. injection H as <-. apply (Hflush []). }
  destruct mode; [| | |done]; repeat case_match; subst; try done;
    match goal with
    | H : (_ && false)%bool = true |- _ => by rewrite andb_false_r in H
    | H : sh_read _ (Some w) ?s' = Some _ |- _ => apply (IH2 s') in H; [done|cbn; lia|done]
    | H : sh_read _ (extend _ _) ?s' = Some _ |- _ => apply (IH1 s') in H; [done|cbn; lia|done]
    | H : _ <$> _ = Some _ |- _ => eapply begins_flush; [|exact H]; intros; apply Hflush
    | H : Some _ = Some _ |- _ => injection H as <-; exact Hsub
    end.
Qed.

(** And so they do when no dollar sign is active. *)
Lemma posix_read_active s :
  ∀ mode w toks, sh_read mode w s = Some toks → forallb (token_all not_active_dollar) toks = true →
  posix_read (Base mode) w s = Some toks.
Proof.
  remember (String.length s) as n eqn:Hn. revert s Hn.
  induction n as [n IH] using lt_wf_ind. intros s -> mode w toks H Hp.
  assert (∀ s' m w' tk, (String.length s' < String.length s)%nat → sh_read m w' s' = Some tk →
    forallb (token_all not_active_dollar) tk = true → posix_read (Base m) w' s' = Some tk) as IH'.
  { intros s' m w' tk Hl. by apply (IH _ Hl s'). }
  clear IH. assert (∀ s' m w' f, (String.length s' < String.length s)%nat → f <$> sh_read m w' s' = Some toks →
    (∀ tk, forallb (token_all not_active_dollar) (f tk) = true → forallb (token_all not_active_dollar) tk = true) →
    f <$> posix_read (Base m) w' s' = Some toks) as IHf.
  { intros s' m w' f Hl Hf Hback. destruct (sh_read m w' s') as [tk|] eqn:E; [|done]. injection Hf as <-.
    by rewrite (IH' _ _ _ tk Hl E (Hback tk Hp)). }
  assert (∀ tk, forallb (token_all not_active_dollar) (flush w tk) = true → forallb (token_all not_active_dollar) tk = true) as Hfl.
  { intros tk. destruct w; [|done]. cbn. by intros [_ ?]%andb_true_iff. }
  assert (∀ s' m, sh_read m (extend w [Act dollar]) s' = Some toks → m ≠ InComment → False) as Hdollar.
  { intros s' m E Hm. apply sh_read_begins in E; [|done]. apply (begins_all not_active_dollar) in E; [|done].
    rewrite forallb_app in E. by rewrite andb_false_r in E. }
  assert (∀ c s', opens_brace c s' = true → c = dollar) as Hopen.
  { intros c s' [E%Ascii.eqb_eq _]%andb_true_iff. done. }
  destruct s as [|c s]; [done|]. cbn in H |- *.
  destruct mode; repeat case_match; subst; try done;
    match goal with
    | E : opens_brace ?c ?s' = true, H : sh_read _ (extend _ [Act ?c]) _ = Some _ |- _ =>
        rewrite (Hopen _ _ E) in *; by apply Hdollar in H
    | E : opens_brace ?c ?s' = true, H : Ascii.eqb ?c dollar = false |- _ => by rewrite (Hopen _ _ E) in H
    | H : sh_read _ _ ?s' = Some _ |- posix_read _ _ _ = _ => by apply IH'; [cbn; lia|exact H|]
    | H : _ <$> _ = Some _ |- _ => eapply IHf; [cbn; lia|exact H|]; done
    end.
Qed.

Lemma sh_read_escaped v w rest :
  sh_read InSingle (extend w []) (escapeQuotes v +:+ String quote rest)
  = sh_read Plain (extend w (literal v)) rest.
Proof.
  revert w. induction v as [|c v IH]; intros w; [reflexivity|].
  cbn [escapeQuotes]. destruct (Ascii.eqb c quote) eqn:E.
  - apply Ascii.eqb_eq in E as ->. unfold singleQuoteEscape, chr. cbn [String.append].
    rewrite read_single_end, read_plain_dquote.
    change (sh_read InDouble ?w (String quote ?s)) with (sh_read InDouble (extend w [Lit quote]) s).
    rewrite read_double_end, read_plain_quote, IH, !extend_extend. reflexivity.
  - cbn [String.append]. rewrite read_single_char, extend_extend by done.
    cbn [app]. rewrite <- (extend_nil w [Lit c]), IH, extend_extend. reflexivity.
Qed.

Lemma sh_read_quoted v w rest :
  sh_read Plain w (shellEscapeSingleArg v +:+ rest) = sh_read Plain (extend w (literal v)) rest.
Proof.
  unfold shellEscapeSingleArg, chr. cbn [String.append]. rewrite append_assoc. cbn [String.append].
  by rewrite read_plain_quote, sh_read_escaped.
Qed.

(** What may follow a word without belonging to it. *)
Definition separated (rest : string) : Prop :=
  rest = EmptyString ∨ ∃ r, rest = String " "%char r.

Lemma sh_read_flush w rest :
  separated rest → sh_read Plain w rest = flush w <$> sh_read Plain None rest.
Proof.
  intros [->|[r ->]]; [done|]. rewrite !read_blank by done. by destruct (sh_read Plain None r).
Qed.

Definition quoted_command (argv : list string) : string :=
  join_with " " (map shellEscapeSingleArg argv).

Lemma sh_read_command argv rest :
  argv ≠ [] → separated rest →
  sh_read Plain None (quoted_command argv +:+ rest)
  = app (map (λ v, TWord (literal v)) argv) <$> sh_read Plain None rest.
Proof.
  unfold quoted_command. intros Hne Hrest. induction argv as [|v argv IH]; [done|].
  destruct argv as [|v' argv].
  - cbn [map join_with]. rewrite sh_read_quoted, sh_read_flush by done. cbn.
    by destruct (sh_read Plain None rest).
  - cbn [map]. rewrite join_with_cons by done. rewrite !append_assoc, sh_read_quoted.
    cbn [String.append]. rewrite read_blank by done. cbn [map] in IH.
    rewrite IH by done. by destruct (sh_read Plain None rest).
Qed.

End ShellReading.
