(* ===== verification/WindowsShell.v ===== *)
(** * Commands for the Windows shells

    The Windows side of src/infra/exec-approvals-analysis.ts: what PowerShell or
    cmd.exe would expand is rejected, PowerShell wrappers are removed, the rest is
    split into words, and words are quoted again. *)

From Stdlib Require Import Ascii.
From S2P Require Import Prelude JsRegex ShellSyntax.

#[local] Open Scope stdpp_scope.

Module WindowsShell.
Export ShellSyntax.

(** ** What cannot be analysed: findWindowsUnsupportedToken *)

Definition WINDOWS_UNSUPPORTED_TOKENS (c : ascii) : bool :=
  one_of "&|<>^()%!" c || Ascii.eqb c backtick || is_newline c.

Definition WINDOWS_ALWAYS_UNSAFE_TOKENS (c : ascii) : bool :=
  is_newline c || Ascii.eqb c "%"%char || Ascii.eqb c backtick.

(** [[A-Za-z_{(?$]] *)
Definition expandsAfterDollar (c : ascii) : bool := is_alpha c || one_of "_{(?$" c.

Fixpoint unsupportedFrom (inDouble : bool) (command : string) : option string :=
  match command with
  | EmptyString => None
  | String ch rest =>
      if Ascii.eqb ch dquote then unsupportedFrom (negb inDouble) rest
      else if Ascii.eqb ch dollar then
        match rest with
        | String next _ => if expandsAfterDollar next then Some "$" else unsupportedFrom inDouble rest
        | EmptyString => unsupportedFrom inDouble rest
        end
      else if WINDOWS_UNSUPPORTED_TOKENS ch then
        if inDouble && negb (WINDOWS_ALWAYS_UNSAFE_TOKENS ch) then unsupportedFrom inDouble rest
        else if is_newline ch then Some "newline"
        else Some (chr ch)
      else unsupportedFrom inDouble rest
  end.

Definition findWindowsUnsupportedToken (command : string) : option string := unsupportedFrom false command.

(** ** Words: tokenizeWindowsSegment *)

Record WinState : Type := mkWinState {
  w_tokens : list string;
  w_buf : string;
  w_inDouble : bool;
  w_inSingle : bool;
  w_wasQuoted : bool;
}.

Definition w_pushToken (st : WinState) : WinState :=
  if str_truthy (w_buf st) || w_wasQuoted st
  then mkWinState (w_tokens st ++ [w_buf st]) EmptyString (w_inDouble st) (w_inSingle st) false
  else mkWinState (w_tokens st) (w_buf st) (w_inDouble st) (w_inSingle st) false.

Definition windows_body (prev : option ascii) (ch : ascii) (rest : string) (st : WinState)
    : flow WinState False :=
  let '(mkWinState tokens buf inDouble inSingle wasQuoted) := st in
  if Ascii.eqb ch dquote && negb inSingle then
    Continue 0 (mkWinState tokens buf (negb inDouble) inSingle (wasQuoted || negb inDouble))
  else if Ascii.eqb ch quote && negb inDouble then
    if inSingle && next_is quote rest then
      Continue 1 (mkWinState tokens (buf +:+ chr quote) inDouble inSingle wasQuoted)
    else Continue 0 (mkWinState tokens buf inDouble (negb inSingle) (wasQuoted || negb inSingle))
  else if negb inDouble && negb inSingle && is_ws ch then Continue 0 (w_pushToken st)
  else Continue 0 (mkWinState tokens (buf +:+ chr ch) inDouble inSingle wasQuoted).

Definition tokenizeWindowsSegment (segment : string) : option (list string) :=
  match scan windows_body None 0 segment (mkWinState [] EmptyString false false false) with
  | inl e => match e with end
  | inr st =>
      if w_inDouble st || w_inSingle st then None
      else match w_tokens (w_pushToken st) with [] => None | tokens => Some tokens end
  end.

(** ** Wrappers: stripWindowsShellWrapper *)

(** Flags before the one that introduces the command, each with an optional value. *)
Definition psFlags : regex :=
  let quotedValue (q : ascii) :=
    RCat [RChar (Ascii.eqb q); RStar (RChar (λ c, negb (Ascii.eqb c q)));
          RStar (RCat [RChar (Ascii.eqb q); RChar (Ascii.eqb q); RStar (RChar (λ c, negb (Ascii.eqb c q)))]);
          RChar (Ascii.eqb q)] in
  RStar (RCat [
    RLit "-";
    RNotAhead (RAlt (RCat [RLitI "c"; ROpt (RLitI "ommand"); RBound]) (RCat [RLitI "-command"; RBound]));
    RPlus (RChar is_word);
    ROpt (RCat [RPlus RSpace; RNotAhead (RLit "-");
      RAny [quotedValue dquote; quotedValue quote; RPlus RNonSpace]]);
    RPlus RSpace]).

Definition psCommandFlag : regex := RAny [RLitI "-command"; RLitI "-c"; RLitI "--command"].

Definition psPrefix : regex :=
  RCat [RStart; RAlt (RLitI "powershell") (RLitI "pwsh"); ROpt (RLitI ".exe"); RPlus RSpace;
        psFlags; psCommandFlag; RPlus RSpace].

Definition psQuotedInvoke (q : ascii) : regex :=
  RCat [psPrefix; RChar (Ascii.eqb q); RGroup 1 (RPlus RDotAll); RChar (Ascii.eqb q); REnd].

Definition psBareInvoke : regex := RCat [psPrefix; RGroup 1 (RPlus RDotAll); REnd].

Definition psCall : regex := RCat [RStart; RLit "&"; RPlus RSpace; RGroup 1 (RPlus RDotAll); REnd].

(** [s.replace(/qq/g, q)] *)
Fixpoint undouble (q : ascii) (s : string) : string :=
  match s with
  | String c ((String d rest) as tl) =>
      if Ascii.eqb c q && Ascii.eqb d q then String q (undouble q rest) else String c (undouble q tl)
  | _ => s
  end.

(** [m[1]] of a match. *)
Definition group1 (m : option captures) : option string :=
  match m with Some caps => capture caps 1 | None => None end.

Definition stripWindowsShellWrapperOnce (command : string) : string :=
  match group1 (exec psCall command) with
  | Some inner => inner
  | None =>
  match group1 (exec (psQuotedInvoke dquote) command) with
  | Some inner => undouble dquote inner
  | None =>
  match group1 (exec (psQuotedInvoke quote) command) with
  | Some inner => undouble quote inner
  | None =>
  match group1 (exec psBareInvoke command) with
  | Some inner => inner
  | None => command
  end end end end.

Fixpoint stripLoop (depth : nat) (result : string) : string :=
  match depth with
  | O => result
  | S n =>
      let next := stripWindowsShellWrapperOnce (trim result) in
      if String.eqb next result then next else stripLoop n next
  end.

Definition stripWindowsShellWrapper (command : string) : string := stripLoop 5 command.

(** ** Quoting: windowsEscapeArg *)

Definition WINDOWS_UNSAFE_CMD_META : regex :=
  RAlt (RChar (λ c, Ascii.eqb c "%"%char || Ascii.eqb c backtick))
       (RSeq (RLit "$") (RChar expandsAfterDollar)).

Definition windowsPlainChar (c : ascii) : bool :=
  is_alpha c || is_digit c || one_of "_./:~=-" c || Ascii.eqb c backslash.

Fixpoint doubleQuotes (s : string) : string :=
  match s with
  | EmptyString => EmptyString
  | String c rest => if Ascii.eqb c dquote then String dquote (String dquote (doubleQuotes rest))
                     else String c (doubleQuotes rest)
  end.

(** [{ ok: false }] is [None]. *)
Definition windowsEscapeArg (value : string) : option string :=
  if negb (str_truthy value) then Some (String dquote (chr dquote))
  else if test WINDOWS_UNSAFE_CMD_META value then None
  else if test (anchored (RPlus (RChar windowsPlainChar))) value then Some value
  else Some (String dquote (doubleQuotes value +:+ chr dquote)).

Fixpoint windowsEscapeAll (argv : list string) : analysis (list string) :=
  match argv with
  | [] => Accepted []
  | token :: rest =>
      match windowsEscapeArg token with
      | None => Refused ("unsafe windows token: " +:+ token)
      | Some escaped =>
          match windowsEscapeAll rest with
          | Accepted parts => Accepted (escaped :: parts)
          | Refused e => Refused e
          end
      end
  end.

Definition renderWindowsQuotedArgv (argv : list string) : analysis string :=
  match windowsEscapeAll argv with
  | Accepted parts => Accepted (join_with " " parts)
  | Refused e => Refused e
  end.

End WindowsShell.
