(* ===== verification/NodePath.v ===== *)
(** * Paths, the environment and the file system of a host

    The parts of Node's [path] module that the source uses, on POSIX systems; the
    [path] module of Windows, the file system, the environment and the engine's
    compilation of regular expressions from configuration texts are parameters (class
    [Host]). src/infra/home-dir.ts and src/infra/executable-path.ts: the expansion of
    [~] and the search for executables. *)

From Stdlib Require Import Ascii.
From S2P Require Import Prelude JsRegex.

#[local] Open Scope stdpp_scope.

Module NodePath.

(** ** Strings *)

Definition slash : ascii := "/"%char.
Definition back_slash : ascii := Eval compute in ascii_of_nat 92.
Definition is_slash (c : ascii) : bool := Ascii.eqb c slash.
Definition is_win_slash (c : ascii) : bool := Ascii.eqb c slash || Ascii.eqb c back_slash.

Definition ends_with (s suffix : string) : bool :=
  (String.length suffix <=? String.length s)%nat
  && String.eqb (str_drop (String.length s - String.length suffix) s) suffix.

Fixpoint has_char (f : ascii → bool) (s : string) : bool :=
  match s with EmptyString => false | String c s' => f c || has_char f s' end.

(** [s.trim()] when it is not empty *)
Definition nonblank (s : string) : option string := if str_truthy (trim s) then Some (trim s) else None.

(** ** The path module on POSIX systems *)

Record PathModule : Type := mkPath {
  path_isAbsolute : string → bool;
  path_resolve : string → list string → string;   (* the working directory first *)
  path_join : list string → string;
  path_basename : string → string;
  path_dirname : string → string;
  path_extname : string → string;
  path_delimiter : ascii;
}.

Definition posix_isAbsolute (s : string) : bool := starts_with s "/".

(** The last component that is not empty. *)
Fixpoint last_component (is_sep : ascii → bool) (cur last s : string) : string :=
  match s with
  | EmptyString => str_or cur last
  | String c s' =>
      if is_sep c then last_component is_sep EmptyString (str_or cur last) s'
      else last_component is_sep (cur +:+ String c EmptyString) last s'
  end.

Definition after_drive (s : string) : string :=
  match s with
  | String d (String c s') => if is_alpha d && Ascii.eqb c ":"%char then s' else s
  | _ => s
  end.

Definition posix_basename (s : string) : string := last_component is_slash EmptyString EmptyString s.
Definition win32_basename (s : string) : string := last_component is_win_slash EmptyString EmptyString (after_drive s).

(** [normalizeString]: the components read so far, in reverse. *)
Fixpoint normalized (allowAboveRoot : bool) (done segments : list string) : list string :=
  match segments with
  | [] => rev done
  | seg :: rest =>
      if negb (str_truthy seg) || String.eqb seg "." then normalized allowAboveRoot done rest
      else if String.eqb seg ".." then
        match done with
        | last :: before =>
            if negb (String.eqb last "..") then normalized allowAboveRoot before rest
            else normalized allowAboveRoot (if allowAboveRoot then ".." :: done else done) rest
        | [] => normalized allowAboveRoot (if allowAboveRoot then [".."] else []) rest
        end
      else normalized allowAboveRoot (seg :: done) rest
  end.

Definition normalizeString (path : string) (allowAboveRoot : bool) : string :=
  join_with "/" (normalized allowAboveRoot [] (split_on slash path)).

Definition posix_normalize (path : string) : string :=
  if negb (str_truthy path) then "."
  else
    let absolute := posix_isAbsolute path in
    let trailing := ends_with path "/" in
    let p := normalizeString path (negb absolute) in
    if negb (str_truthy p) then if absolute then "/" else if trailing then "./" else "."
    else (if absolute then "/" else EmptyString) +:+ p +:+ (if trailing then "/" else EmptyString).

Definition posix_join (parts : list string) : string :=
  posix_normalize (join_with "/" (List.filter str_truthy parts)).

(** The arguments from the last absolute one on, the working directory before them. *)
Fixpoint resolve_parts (reversed : list string) (suffix : string) : option string * string :=
  match reversed with
  | [] => (None, suffix)
  | p :: rest =>
      if negb (str_truthy p) then resolve_parts rest suffix
      else if posix_isAbsolute p then (Some p, p +:+ "/" +:+ suffix)
      else resolve_parts rest (p +:+ "/" +:+ suffix)
  end.

Definition posix_resolve (cwd : string) (parts : list string) : string :=
  let (absolute, path) := resolve_parts (rev parts ++ [cwd]) EmptyString in
  match absolute with
  | Some _ => "/" +:+ normalizeString path false
  | None => str_or (normalizeString path true) "."
  end.

Fixpoint drop_while (f : ascii → bool) (l : list ascii) : list ascii :=
  match l with c :: l' => if f c then drop_while f l' else l | [] => [] end.

Definition posix_dirname (path : string) : string :=
  match path with
  | EmptyString => "."
  | String c rest =>
      let before :=
        drop_while (λ d, negb (is_slash d)) (drop_while is_slash (rev (String.list_ascii_of_string rest))) in
      match before with
      | [] => if is_slash c then "/" else "."
      | _ :: inner =>
          match inner with
          | [] => if is_slash c then "//" else String c EmptyString
          | _ => String c (String.string_of_list_ascii (rev inner))
          end
      end
  end.

(** Only the branches for Windows use it. *)
Definition posix_extname (path : string) : string := EmptyString.

Definition posix_path : PathModule :=
  mkPath posix_isAbsolute posix_resolve posix_join posix_basename posix_dirname posix_extname ":"%char.

(** ** The host *)

Class Process := { process_platform : string }.

Definition Env : Type := string → option string.

Class Host := {
  host_process :: Process;
  win32_path : PathModule;
  process_cwd : string;
  process_env : Env;
  os_homedir : option string;               (* nothing when it throws *)
  stat_isFile : string → bool;              (* false when it throws *)
  access_executable : string → bool;
  realpathSync : string → option string;
  compile_regexp : string → option (string → bool);   (* [new RegExp(s)], [test] *)
}.

Section host.
Context `{Host}.

Definition is_win32 : bool := String.eqb process_platform "win32".
Definition path : PathModule := if is_win32 then win32_path else posix_path.
Definition isAbsolute : string → bool := path_isAbsolute path.
Definition resolve (parts : list string) : string := path_resolve path process_cwd parts.
Definition basename : string → string := path_basename path.

(** ** The home directory: home-dir.ts *)

(** The replacement text of [String.prototype.replace], when the match is [~] at the
    start. *)
Fixpoint js_replacement (after text : string) : string :=
  match text with
  | String d rest =>
      match rest with
      | String k rest' =>
          if Ascii.eqb d "$"%char && Ascii.eqb k "$"%char then "$" +:+ js_replacement after rest'
          else if Ascii.eqb d "$"%char && Ascii.eqb k "&"%char then "~" +:+ js_replacement after rest'
          else if Ascii.eqb d "$"%char && Ascii.eqb k (ascii_of_nat 96) then js_replacement after rest'
          else if Ascii.eqb d "$"%char && Ascii.eqb k (ascii_of_nat 39) then after +:+ js_replacement after rest'
          else String d (js_replacement after rest)
      | EmptyString => text
      end
  | EmptyString => EmptyString
  end.

(** [input.replace(/^~(?=$|[\\/])/, home)] *)
Definition replaceTilde (input home : string) : string :=
  match input with
  | String t rest =>
      if Ascii.eqb t "~"%char
         && match rest with EmptyString => true | String c _ => is_win_slash c end
      then js_replacement rest home +:+ rest
      else input
  | EmptyString => input
  end.

Definition normalizeHome (value : option string) : option string :=
  match StringCoerce.normalizeOptionalString value with
  | Some trimmed => if String.eqb trimmed "undefined" || String.eqb trimmed "null" then None else Some trimmed
  | None => None
  end.

Definition first_of {A} (a b : option A) : option A := match a with Some _ => a | None => b end.

Definition resolveRawOsHomeDir (env : Env) : option string :=
  first_of (normalizeHome (env "HOME")) (first_of (normalizeHome (env "USERPROFILE")) (normalizeHome os_homedir)).

Definition homeRelative (s : string) : bool :=
  String.eqb s "~" || starts_with s "~/" || starts_with s (String "~"%char (String back_slash EmptyString)).

Definition resolveRawHomeDir (env : Env) : option string :=
  match normalizeHome (env "OPENCLAW_HOME") with
  | Some explicitHome =>
      if homeRelative explicitHome then replaceTilde explicitHome <$> resolveRawOsHomeDir env
      else Some explicitHome
  | None => resolveRawOsHomeDir env
  end.

Definition resolveEffectiveHomeDir (env : Env) : option string :=
  match resolveRawHomeDir env with
  | Some raw => if str_truthy raw then Some (resolve [raw]) else None
  | None => None
  end.

Definition expandHomePrefix (input : string) (env : option Env) : string :=
  if negb (starts_with input "~") then input
  else
    match resolveEffectiveHomeDir (default process_env env) with
    | Some home => if str_truthy home then replaceTilde input home else input
    | None => input
    end.

(** ** Executables: executable-path.ts *)

Definition isDriveLessWindowsRootedPath (value : string) : bool :=
  is_win32 && match value with String c (String d _) => Ascii.eqb c ":"%char && is_win_slash d | _ => false end.

(** [options?.cwd && options.cwd.trim() ? options.cwd.trim() : process.cwd()] *)
Definition cwdOrProcess (cwd : option string) : string :=
  match cwd ≫= nonblank with Some c => c | None => process_cwd end.

Definition resolveExecutablePathCandidate (rawExecutable : string) (cwd : option string) (env : option Env)
    (requirePathSeparator : bool) : option string :=
  let expanded := if starts_with rawExecutable "~" then expandHomePrefix rawExecutable env else rawExecutable in
  if isDriveLessWindowsRootedPath expanded then None
  else
    let hasPathSeparator := has_char is_win_slash expanded in
    if requirePathSeparator && negb hasPathSeparator then None
    else if negb hasPathSeparator then Some expanded
    else if isAbsolute expanded then Some expanded
    else Some (resolve [cwdOrProcess cwd; expanded]).

Definition env_get (env : option Env) (k : string) : option string := env ≫= λ e, e k.

Definition PATHEXT (env : option Env) : string :=
  default ".EXE;.CMD;.BAT;.COM"
    (first_of (env_get env "PATHEXT") (first_of (env_get env "Pathext")
      (first_of (process_env "PATHEXT") (process_env "Pathext")))).

Definition resolveWindowsExecutableExtensions (executable : string) (env : option Env) : list string :=
  if negb is_win32 then [EmptyString]
  else if str_truthy (path_extname path executable) then [EmptyString]
  else EmptyString :: map lowered (split_on ";"%char (PATHEXT env)).

Definition resolveWindowsExecutableExtSet (env : option Env) : list string :=
  List.filter str_truthy (map lowered (split_on ";"%char (PATHEXT env))).

Definition isExecutableFile (filePath : string) : bool :=
  if negb (stat_isFile filePath) then false
  else if is_win32 then
    let ext := lowered (path_extname path filePath) in
    if negb (str_truthy ext) then true else set_has (resolveWindowsExecutableExtSet None) ext
  else access_executable filePath.

Definition resolveExecutableFromPathEnv (executable pathEnv : string) (env : option Env) : option string :=
  let entries := List.filter str_truthy (split_on (path_delimiter path) pathEnv) in
  let extensions := resolveWindowsExecutableExtensions executable env in
  List.find isExecutableFile
    (flat_map (λ entry, map (λ ext, path_join path [entry; executable +:+ ext]) extensions) entries).

Definition resolveExecutablePath (rawExecutable : string) (cwd : option string) (env : option Env) : option string :=
  match resolveExecutablePathCandidate rawExecutable cwd env false with
  | None => None
  | Some candidate =>
      if negb (str_truthy candidate) then None
      else if has_char is_win_slash candidate then if isExecutableFile candidate then Some candidate else None
      else
        let envPath := default EmptyString
          (first_of (env_get env "PATH") (first_of (env_get env "Path") (first_of (process_env "PATH") (process_env "Path")))) in
        resolveExecutableFromPathEnv candidate envPath env
  end.

End host.

Example posix_paths :
  posix_resolve "/home/u" ["../x//./y/.."; "z"] = "/home/x/z" ∧ posix_join ["/usr/bin/"; "ls"] = "/usr/bin/ls"
  ∧ posix_dirname "/usr/bin/ls" = "/usr/bin" ∧ posix_basename "/usr/bin//" = "bin" ∧ posix_dirname "/ls" = "/".
Proof. vm_compute. auto 10. Qed.

End NodePath.
