(* ===== verification/ExecWrappers.v ===== *)
(** * Wrappers of commands

    src/infra/exec-wrapper-tokens.ts, shell-inline-command.ts,
    dispatch-wrapper-resolution.ts, shell-wrapper-resolution.ts and
    exec-wrapper-trust-plan.ts: commands such as [env], [nice] or [timeout] that run the
    command in their arguments, the multiplexers that run a shell, the inline commands
    of the shells, and the plan that says which program an argument vector runs.
    [process.platform] is a parameter. *)

From Stdlib Require Import Ascii.
From S2P Require Import Prelude JsRegex NodePath.

#[local] Open Scope stdpp_scope.

Module ExecWrappers.
Export NodePath.

(** ** Names of executables: exec-wrapper-tokens.ts *)

Definition basenameLower (token : string) : string :=
  let win := win32_basename token in
  let posix := posix_basename token in
  lowered (if (String.length win <? String.length posix)%nat then win else posix).

Definition WINDOWS_EXECUTABLE_SUFFIXES : list string := [".exe"; ".cmd"; ".bat"; ".com"].

Fixpoint stripSuffix (suffixes : list string) (value : string) : string :=
  match suffixes with
  | [] => value
  | suffix :: rest =>
      if ends_with value suffix then str_take (String.length value - String.length suffix) value
      else stripSuffix rest value
  end.

Definition stripWindowsExecutableSuffix (value : string) : string := stripSuffix WINDOWS_EXECUTABLE_SUFFIXES value.

Definition normalizeExecutableToken (token : string) : string := stripWindowsExecutableSuffix (basenameLower token).

(** ** Inline commands: shell-inline-command.ts *)

Definition POSIX_INLINE_COMMAND_FLAGS : list string := ["-lc"; "-c"; "--command"].
Definition POWERSHELL_INLINE_COMMAND_FLAGS : list string :=
  ["-c"; "-command"; "--command"; "-f"; "-file"; "-encodedcommand"; "-enc"; "-e"].

Record InlineCommandMatch : Type := mkInlineMatch {
  im_command : option string;
  im_valueTokenIndex : option nat;
}.

Definition combinedC : regex :=
  anchored (RCat [RLit "-"; RStar (RChar (none_of "-")); RLitI "c"; RStar (RChar (none_of "-"))]).

Fixpoint index_of (c : Ascii.ascii) (s : string) : nat :=
  match s with
  | EmptyString => 0
  | String d s' => if Ascii.eqb d c then 0 else S (index_of c s')
  end.

(** The value after index [i], whose token is the first of [rest]. *)
Definition nextValue (i : nat) (rest : list string) : InlineCommandMatch :=
  match rest with
  | [] => mkInlineMatch None None
  | value :: _ => mkInlineMatch (nonblank value) (Some (S i))
  end.

Fixpoint inlineFrom (flags : list string) (allowCombinedC : bool) (i : nat) (rest : list string) : InlineCommandMatch :=
  match rest with
  | [] => mkInlineMatch None None
  | raw :: rest' =>
      let token := trim raw in
      if negb (str_truthy token) then inlineFrom flags allowCombinedC (S i) rest'
      else
        let low := lowered token in
        if String.eqb low "--" then mkInlineMatch None None
        else if set_has flags low then nextValue i rest'
        else if allowCombinedC && test combinedC token then
          match nonblank (str_drop (S (index_of "c"%char low)) token) with
          | Some inline => mkInlineMatch (Some inline) (Some i)
          | None => nextValue i rest'
          end
        else inlineFrom flags allowCombinedC (S i) rest'
  end.

Definition resolveInlineCommandMatch (argv : list string) (flags : list string) (allowCombinedC : bool)
    : InlineCommandMatch := inlineFrom flags allowCombinedC 1 (tail argv).

(** ** Dispatch wrappers: dispatch-wrapper-resolution.ts *)

Definition MAX_DISPATCH_WRAPPER_DEPTH : nat := 4.

Definition ENV_OPTIONS_WITH_VALUE : list string :=
  ["-u"; "--unset"; "-c"; "--chdir"; "-s"; "--split-string"; "--default-signal"; "--ignore-signal"; "--block-signal"].
Definition ENV_INLINE_VALUE_PREFIXES : list string :=
  ["-u"; "-c"; "-s"; "--unset="; "--chdir="; "--split-string="; "--default-signal="; "--ignore-signal="; "--block-signal="].
Definition ENV_FLAG_OPTIONS : list string := ["-i"; "--ignore-environment"; "-0"; "--null"].
Definition NICE_OPTIONS_WITH_VALUE : list string := ["-n"; "--adjustment"; "--priority"].
Definition CAFFEINATE_OPTIONS_WITH_VALUE : list string := ["-t"; "-w"].
Definition STDBUF_OPTIONS_WITH_VALUE : list string := ["-i"; "--input"; "-o"; "--output"; "-e"; "--error"].
Definition TIME_FLAG_OPTIONS : list string :=
  ["-a"; "--append"; "-h"; "--help"; "-l"; "-p"; "-q"; "--quiet"; "-v"; "--verbose"; "-V"; "--version"].
Definition TIME_OPTIONS_WITH_VALUE : list string := ["-f"; "--format"; "-o"; "--output"].
Definition BSD_SCRIPT_FLAG_OPTIONS : list string := ["-a"; "-d"; "-k"; "-p"; "-q"; "-r"].
Definition BSD_SCRIPT_OPTIONS_WITH_VALUE : list string := ["-F"; "-t"].
Definition SANDBOX_EXEC_OPTIONS_WITH_VALUE : list string := ["-f"; "-p"; "-d"].
Definition TIMEOUT_FLAG_OPTIONS : list string := ["--foreground"; "--preserve-status"; "-v"; "--verbose"].
Definition TIMEOUT_OPTIONS_WITH_VALUE : list string := ["-k"; "--kill-after"; "-s"; "--signal"].
Definition XCRUN_FLAG_OPTIONS : list string :=
  ["-k"; "--kill-cache"; "-l"; "--log"; "-n"; "--no-cache"; "-r"; "--run"; "-v"; "--verbose"].

Definition isArchSelectorToken (token : string) : bool := test (anchored (RSeq (RLit "-") (RPlus (RChar is_word)))) token.
Definition isKnownArchSelectorToken (token : string) : bool :=
  set_has ["-arm64"; "-arm64e"; "-i386"; "-x86_64"; "-x86_64h"] token.
Definition isKnownArchNameToken (token : string) : bool := isKnownArchSelectorToken ("-" +:+ token).

Inductive WrapperScanDirective : Type := GoOn | ConsumeNext | Stop | Invalid.

Definition is_name_start (c : Ascii.ascii) : bool := is_alpha c || Ascii.eqb c "_"%char.

(** [/^[A-Za-z_][A-Za-z0-9_]*=.*/] *)
Definition isEnvAssignment (token : string) : bool :=
  test (RCat [RStart; RChar is_name_start; RStar (RChar is_word); RLit "="; RStar RDot]) token.

Definition hasEnvInlineValuePrefix (low : string) : bool := existsb (starts_with low) ENV_INLINE_VALUE_PREFIXES.

Section scan_wrapper.
Context {S : Type} (separators : list string) (onToken : S → string → string → WrapperScanDirective * S).

(** The arguments from [argv[idx]] on when the loop ends; nothing when it returns
    [null] or an option still expects its value. *)
Fixpoint scanTokens (st : S) (expectsOptionValue : bool) (rest : list string) : option (list string) :=
  match rest with
  | [] => if expectsOptionValue then None else Some []
  | raw :: rest' =>
      let token := trim raw in
      if negb (str_truthy token) then scanTokens st expectsOptionValue rest'
      else if expectsOptionValue then scanTokens st false rest'
      else if set_has separators token then Some rest'
      else
        match onToken st token (lowered token) with
        | (Stop, _) => Some rest
        | (Invalid, _) => None
        | (ConsumeNext, st') => scanTokens st' true rest'
        | (GoOn, st') => scanTokens st' false rest'
        end
  end.

Definition scanWrapperInvocation (st : S) (adjust : list string → option (list string)) (argv : list string)
    : option (list string) :=
  match scanTokens st false (tail argv) with
  | Some rest => match adjust rest with Some (x :: l) => Some (x :: l) | _ => None end
  | None => None
  end.

End scan_wrapper.

Definition stateless (f : string → string → WrapperScanDirective) (_ : unit) (token low : string)
    : WrapperScanDirective * unit := (f token low, tt).

(** [const [flag] = lower.split("=", 2)] *)
Definition flagOf (low : string) : string := List.hd EmptyString (split_on "="%char low).

Definition is_dash_option (token : string) : bool := starts_with token "-" && negb (String.eqb token "-").

Definition env_onToken (token low : string) : WrapperScanDirective :=
  if isEnvAssignment token then GoOn
  else if negb (is_dash_option token) then Stop
  else
    let flag := flagOf low in
    if set_has ENV_FLAG_OPTIONS flag then GoOn
    else if set_has ENV_OPTIONS_WITH_VALUE flag then if includes low "=" then GoOn else ConsumeNext
    else if hasEnvInlineValuePrefix low then GoOn
    else Invalid.

Definition unwrapEnvInvocation (argv : list string) : option (list string) :=
  scanWrapperInvocation ["--"; "-"] (stateless env_onToken) tt Some argv.

Fixpoint envModifiers (expectsOptionValue : bool) (rest : list string) : bool :=
  match rest with
  | [] => false
  | raw :: rest' =>
      let token := trim raw in
      if negb (str_truthy token) then envModifiers expectsOptionValue rest'
      else if expectsOptionValue then true
      else if String.eqb token "--" || String.eqb token "-" then false
      else if isEnvAssignment token then true
      else if negb (is_dash_option token) then false
      else
        let low := lowered token in
        let flag := flagOf low in
        if set_has ENV_FLAG_OPTIONS flag then true
        else if set_has ENV_OPTIONS_WITH_VALUE flag then
          if includes low "=" then true else envModifiers true rest'
        else true
  end.

Definition envInvocationUsesModifiers (argv : list string) : bool := envModifiers false (tail argv).

Definition dash_onToken (onFlag : string → string → WrapperScanDirective) (token low : string) : WrapperScanDirective :=
  if negb (is_dash_option token) then Stop else onFlag (flagOf low) low.

Definition unwrapDashOptionInvocation (onFlag : string → string → WrapperScanDirective)
    (adjust : list string → option (list string)) (argv : list string) : option (list string) :=
  scanWrapperInvocation ["--"] (stateless (dash_onToken onFlag)) tt adjust argv.

(** [cond ? "continue" : "consume-next"] *)
Definition inlineValue (b : bool) : WrapperScanDirective := if b then GoOn else ConsumeNext.

Definition nice_onFlag (flag low : string) : WrapperScanDirective :=
  if test (anchored (RSeq (RLit "-") (RPlus (RChar is_digit)))) low then GoOn
  else if set_has NICE_OPTIONS_WITH_VALUE flag then inlineValue (includes low "=" || negb (String.eqb low flag))
  else if starts_with low "-n" && (2 <? String.length low)%nat then GoOn
  else Invalid.

Definition unwrapNiceInvocation (argv : list string) : option (list string) :=
  unwrapDashOptionInvocation nice_onFlag Some argv.

Definition caffeinate_onFlag (flag low : string) : WrapperScanDirective :=
  if set_has ["-d"; "-i"; "-m"; "-s"; "-u"] flag then GoOn
  else if set_has CAFFEINATE_OPTIONS_WITH_VALUE flag then inlineValue (negb (String.eqb low flag) || includes low "=")
  else Invalid.

Definition unwrapCaffeinateInvocation (argv : list string) : option (list string) :=
  unwrapDashOptionInvocation caffeinate_onFlag Some argv.

Definition nohup_onToken (token low : string) : WrapperScanDirective :=
  if negb (is_dash_option token) then Stop
  else if String.eqb low "--help" || String.eqb low "--version" then GoOn else Invalid.

Definition unwrapNohupInvocation (argv : list string) : option (list string) :=
  scanWrapperInvocation ["--"] (stateless nohup_onToken) tt Some argv.

Definition sandbox_onFlag (flag low : string) : WrapperScanDirective :=
  if set_has SANDBOX_EXEC_OPTIONS_WITH_VALUE flag then inlineValue (negb (String.eqb low flag) || includes low "=")
  else Invalid.

Definition unwrapSandboxExecInvocation (argv : list string) : option (list string) :=
  unwrapDashOptionInvocation sandbox_onFlag Some argv.

Definition stdbuf_onFlag (flag low : string) : WrapperScanDirective :=
  if negb (set_has STDBUF_OPTIONS_WITH_VALUE flag) then Invalid else inlineValue (includes low "=").

Definition unwrapStdbufInvocation (argv : list string) : option (list string) :=
  unwrapDashOptionInvocation stdbuf_onFlag Some argv.

Definition time_onFlag (flag low : string) : WrapperScanDirective :=
  if set_has TIME_FLAG_OPTIONS flag then GoOn
  else if set_has TIME_OPTIONS_WITH_VALUE flag then inlineValue (includes low "=")
  else Invalid.

Definition unwrapTimeInvocation (argv : list string) : option (list string) :=
  unwrapDashOptionInvocation time_onFlag Some argv.

Definition supportsScriptPositionalCommand (platform : string) : bool :=
  String.eqb platform "darwin" || String.eqb platform "freebsd".

Definition script_onToken (token low : string) : WrapperScanDirective :=
  if negb (starts_with low "-") || String.eqb low "-" then Stop
  else
    let flag := flagOf token in
    if set_has BSD_SCRIPT_OPTIONS_WITH_VALUE flag then inlineValue (includes token "=")
    else if set_has BSD_SCRIPT_FLAG_OPTIONS flag then GoOn
    else Invalid.

(** The second argument that is not blank: the first names the transcript. *)
Fixpoint script_adjust (sawTranscript : bool) (rest : list string) : option (list string) :=
  match rest with
  | [] => None
  | raw :: rest' =>
      if negb (str_truthy (trim raw)) then script_adjust sawTranscript rest'
      else if negb sawTranscript then script_adjust true rest'
      else Some rest
  end.

Definition timeout_onFlag (flag low : string) : WrapperScanDirective :=
  if set_has TIMEOUT_FLAG_OPTIONS flag then GoOn
  else if set_has TIMEOUT_OPTIONS_WITH_VALUE flag then inlineValue (includes low "=")
  else Invalid.

Definition timeout_adjust (rest : list string) : option (list string) :=
  match rest with _ :: x :: l => Some (x :: l) | _ => None end.

Definition unwrapTimeoutInvocation (argv : list string) : option (list string) :=
  unwrapDashOptionInvocation timeout_onFlag timeout_adjust argv.

(** The state is [expectsArchName]. *)
Definition arch_onToken (expectsArchName : bool) (token low : string) : WrapperScanDirective * bool :=
  if expectsArchName then (if isKnownArchNameToken low then GoOn else Invalid, false)
  else if negb (is_dash_option token) then (Stop, false)
  else if String.eqb low "-32" || String.eqb low "-64" then (GoOn, false)
  else if String.eqb low "-arch" then (GoOn, true)
  else if set_has ["-c"; "-d"; "-e"; "-h"] low then (Invalid, false)
  else (if isArchSelectorToken token && isKnownArchSelectorToken low then GoOn else Invalid, false).

Definition unwrapArchInvocation (argv : list string) : option (list string) :=
  scanWrapperInvocation [] arch_onToken false Some argv.

Definition supportsArchDispatchWrapper (platform : string) : bool := String.eqb platform "darwin".
Definition supportsXcrunDispatchWrapper (platform : string) : bool := String.eqb platform "darwin".

Definition xcrun_onToken (token low : string) : WrapperScanDirective :=
  if negb (is_dash_option token) then Stop
  else if set_has XCRUN_FLAG_OPTIONS low then GoOn else Invalid.

Definition unwrapXcrunInvocation (argv : list string) : option (list string) :=
  scanWrapperInvocation [] (stateless xcrun_onToken) tt Some argv.

Record DispatchWrapperSpec : Type := mkSpec {
  spec_name : string;
  spec_unwrap : option (list string → string → option (list string));
  spec_transparentUsage : option (list string → string → bool);
}.

Definition always (f : list string → option (list string)) (argv : list string) (_ : string) : option (list string) := f argv.
Definition transparent (_ : list string) (_ : string) : bool := true.

Inductive UnwrapResult : Type :=
| NotWrapper
| Blocked (wrapper : string)
| Unwrapped (wrapper : string) (argv : list string).

Record DispatchWrapperTrustPlan : Type := mkDispatchPlan {
  d_argv : list string;
  d_wrappers : list string;
  d_policyBlocked : bool;
  d_blockedWrapper : option string;
}.

Section process.
Context `{Process}.

Definition unwrapScriptInvocation (argv : list string) : option (list string) :=
  if negb (supportsScriptPositionalCommand process_platform) then None
  else scanWrapperInvocation ["--"] (stateless script_onToken) tt (script_adjust false) argv.

Definition DISPATCH_WRAPPER_SPECS : list DispatchWrapperSpec :=
  [ mkSpec "arch"
      (Some (λ argv platform, if supportsArchDispatchWrapper platform then unwrapArchInvocation argv else None))
      (Some (λ _ platform, supportsArchDispatchWrapper platform));
    mkSpec "caffeinate" (Some (always unwrapCaffeinateInvocation)) (Some transparent);
    mkSpec "chrt" None None;
    mkSpec "doas" None None;
    mkSpec "env" (Some (always unwrapEnvInvocation)) (Some (λ argv _, negb (envInvocationUsesModifiers argv)));
    mkSpec "ionice" None None;
    mkSpec "nice" (Some (always unwrapNiceInvocation)) (Some transparent);
    mkSpec "nohup" (Some (always unwrapNohupInvocation)) (Some transparent);
    mkSpec "sandbox-exec" (Some (always unwrapSandboxExecInvocation)) (Some transparent);
    mkSpec "script" (Some (always unwrapScriptInvocation)) (Some transparent);
    mkSpec "setsid" None None;
    mkSpec "stdbuf" (Some (always unwrapStdbufInvocation)) (Some transparent);
    mkSpec "sudo" None None;
    mkSpec "taskset" None None;
    mkSpec "time" (Some (always unwrapTimeInvocation)) (Some transparent);
    mkSpec "timeout" (Some (always unwrapTimeoutInvocation)) (Some transparent);
    mkSpec "xcrun"
      (Some (λ argv platform, if supportsXcrunDispatchWrapper platform then unwrapXcrunInvocation argv else None))
      (Some (λ _ platform, supportsXcrunDispatchWrapper platform)) ].

(** [DISPATCH_WRAPPER_SPEC_BY_NAME.get] *)
Definition specByName (wrapper : string) : option DispatchWrapperSpec :=
  List.find (λ spec, String.eqb (spec_name spec) wrapper) DISPATCH_WRAPPER_SPECS.

Definition isDispatchWrapperExecutable (token : string) : bool :=
  match specByName (normalizeExecutableToken token) with Some _ => true | None => false end.

Definition unwrapDispatchWrapper (wrapper : string) (unwrapped : option (list string)) : UnwrapResult :=
  match unwrapped with Some argv => Unwrapped wrapper argv | None => Blocked wrapper end.

(** [argv[0]?.trim()], when it is not empty *)
Definition token0 (argv : list string) : option string :=
  match argv with raw :: _ => nonblank raw | [] => None end.

Definition unwrapKnownDispatchWrapperInvocation (argv : list string) (platform : string) : UnwrapResult :=
  match token0 argv with
  | None => NotWrapper
  | Some token =>
      let wrapper := normalizeExecutableToken token in
      match specByName wrapper with
      | None => NotWrapper
      | Some spec =>
          match spec_unwrap spec with
          | Some unwrap => unwrapDispatchWrapper wrapper (unwrap argv platform)
          | None => Blocked wrapper
          end
      end
  end.

Definition isSemanticDispatchWrapperUsage (wrapper : string) (argv : list string) (platform : string) : bool :=
  match specByName wrapper with
  | Some (mkSpec _ (Some _) usage) =>
      match usage with Some transparentUsage => negb (transparentUsage argv platform) | None => true end
  | _ => true
  end.

Definition blockedDispatchWrapperPlan (argv wrappers : list string) (blockedWrapper : string) : DispatchWrapperTrustPlan :=
  mkDispatchPlan argv wrappers true (Some blockedWrapper).

Fixpoint dispatchLoop (depth : nat) (platform : string) (current wrappers : list string)
    : DispatchWrapperTrustPlan + list string * list string :=
  match depth with
  | O => inr (current, wrappers)
  | S depth' =>
      match unwrapKnownDispatchWrapperInvocation current platform with
      | Blocked wrapper => inl (blockedDispatchWrapperPlan current wrappers wrapper)
      | NotWrapper | Unwrapped _ [] => inr (current, wrappers)
      | Unwrapped wrapper argv =>
          let wrappers' := wrappers ++ [wrapper] in
          if isSemanticDispatchWrapperUsage wrapper current platform then
            inl (blockedDispatchWrapperPlan current wrappers' wrapper)
          else dispatchLoop depth' platform argv wrappers'
      end
  end.

Definition resolveDispatchWrapperTrustPlan (argv : list string) (maxDepth : nat) (platform : string)
    : DispatchWrapperTrustPlan :=
  match dispatchLoop maxDepth platform argv [] with
  | inl plan => plan
  | inr (current, wrappers) =>
      let plan := mkDispatchPlan current wrappers false None in
      if (maxDepth <=? length wrappers)%nat then
        match unwrapKnownDispatchWrapperInvocation current platform with
        | Blocked wrapper | Unwrapped wrapper _ => blockedDispatchWrapperPlan current wrappers wrapper
        | NotWrapper => plan
        end
      else plan
  end.

Definition unwrapDispatchWrappersForResolution (argv : list string) (maxDepth : nat) (platform : string) : list string :=
  d_argv (resolveDispatchWrapperTrustPlan argv maxDepth platform).

Definition hasDispatchEnvManipulation (argv : list string) : bool :=
  match unwrapKnownDispatchWrapperInvocation argv process_platform with
  | Unwrapped wrapper _ => String.eqb wrapper "env" && envInvocationUsesModifiers argv
  | _ => false
  end.

(** ** Shells: shell-wrapper-resolution.ts *)

Definition POSIX_SHELL_WRAPPER_NAMES : list string := ["ash"; "bash"; "dash"; "fish"; "ksh"; "sh"; "zsh"].
Definition WINDOWS_CMD_WRAPPER_NAMES : list string := ["cmd"].
Definition POWERSHELL_WRAPPER_NAMES : list string := ["powershell"; "pwsh"].
Definition SHELL_MULTIPLEXER_WRAPPER_NAMES : list string := ["busybox"; "toybox"].
Definition SHELL_WRAPPER_CANONICAL : list string :=
  POSIX_SHELL_WRAPPER_NAMES ++ WINDOWS_CMD_WRAPPER_NAMES ++ POWERSHELL_WRAPPER_NAMES.

Inductive ShellWrapperKind : Type := PosixShell | CmdShell | PowerShell.

Definition SHELL_WRAPPER_SPECS : list (ShellWrapperKind * list string) :=
  [(PosixShell, POSIX_SHELL_WRAPPER_NAMES); (CmdShell, WINDOWS_CMD_WRAPPER_NAMES); (PowerShell, POWERSHELL_WRAPPER_NAMES)].

Definition findShellWrapperSpec (baseExecutable : string) : option ShellWrapperKind :=
  fst <$> List.find (λ spec, set_has (snd spec) baseExecutable) SHELL_WRAPPER_SPECS.

Definition isShellWrapperExecutable (token : string) : bool :=
  set_has SHELL_WRAPPER_CANONICAL (normalizeExecutableToken token).

Definition normalizeRawCommand (rawCommand : option string) : option string := rawCommand ≫= nonblank.

Definition unwrapKnownShellMultiplexerInvocation (argv : list string) : UnwrapResult :=
  match token0 argv with
  | None => NotWrapper
  | Some token =>
      let wrapper := normalizeExecutableToken token in
      if negb (set_has SHELL_MULTIPLEXER_WRAPPER_NAMES wrapper) then NotWrapper
      else
        let args :=
          match tail argv with
          | raw :: rest => if String.eqb (trim raw) "--" then rest else raw :: rest
          | [] => []
          end in
        match args with
        | [] => Blocked wrapper
        | raw :: _ =>
            if negb (str_truthy (trim raw)) || negb (isShellWrapperExecutable (trim raw)) then Blocked wrapper
            else Unwrapped wrapper args
        end
  end.

Definition extractPosixShellInlineCommand (argv : list string) : option string :=
  im_command (resolveInlineCommandMatch argv POSIX_INLINE_COMMAND_FLAGS true).

(** The arguments after the first [/c] or [/k]. *)
Fixpoint afterCmdFlag (argv : list string) : option (list string) :=
  match argv with
  | [] => None
  | item :: rest =>
      if String.eqb (lowered item) "/c" || String.eqb (lowered item) "/k" then Some rest else afterCmdFlag rest
  end.

Definition extractCmdInlineCommand (argv : list string) : option string :=
  match afterCmdFlag argv with
  | None | Some [] => None
  | Some tail => nonblank (join_with " " tail)
  end.

Definition extractPowerShellInlineCommand (argv : list string) : option string :=
  im_command (resolveInlineCommandMatch argv POWERSHELL_INLINE_COMMAND_FLAGS false).

Definition extractShellWrapperPayload (argv : list string) (kind : ShellWrapperKind) : option string :=
  match kind with
  | PosixShell => extractPosixShellInlineCommand argv
  | CmdShell => extractCmdInlineCommand argv
  | PowerShell => extractPowerShellInlineCommand argv
  end.

(** The wrapper whose name is [token0], with its inline command. *)
Definition shellPayload (argv : list string) (token : string) : option (ShellWrapperKind * string) :=
  match findShellWrapperSpec (normalizeExecutableToken token) with
  | Some kind => pair kind <$> extractShellWrapperPayload argv kind
  | None => None
  end.

(** [levels] is the number of depths still within [MAX_DISPATCH_WRAPPER_DEPTH]. *)
Fixpoint resolveShellWrapperSpecAndArgvInternal (levels : nat) (argv : list string)
    : option (list string * ShellWrapperKind * string) :=
  match levels with
  | O => None
  | S levels' =>
      match token0 argv with
      | None => None
      | Some token =>
          match unwrapKnownDispatchWrapperInvocation argv process_platform with
          | Blocked _ => None
          | Unwrapped _ argv' => resolveShellWrapperSpecAndArgvInternal levels' argv'
          | NotWrapper =>
              match unwrapKnownShellMultiplexerInvocation argv with
              | Blocked _ => None
              | Unwrapped _ argv' => resolveShellWrapperSpecAndArgvInternal levels' argv'
              | NotWrapper => (λ p, (argv, p.1, p.2)) <$> shellPayload argv token
              end
          end
      end
  end.

Definition DISPATCH_LEVELS : nat := S MAX_DISPATCH_WRAPPER_DEPTH.

Fixpoint envManipulationBefore (levels : nat) (argv : list string) (envManipulationSeen : bool) : bool :=
  match levels with
  | O => false
  | S levels' =>
      match token0 argv with
      | None => false
      | Some token =>
          match unwrapKnownDispatchWrapperInvocation argv process_platform with
          | Blocked _ => false
          | Unwrapped _ argv' =>
              envManipulationBefore levels' argv' (envManipulationSeen || hasDispatchEnvManipulation argv)
          | NotWrapper =>
              match unwrapKnownShellMultiplexerInvocation argv with
              | Blocked _ => false
              | Unwrapped _ argv' => envManipulationBefore levels' argv' envManipulationSeen
              | NotWrapper => match shellPayload argv token with Some _ => envManipulationSeen | None => false end
              end
          end
      end
  end.

Definition hasEnvManipulationBeforeShellWrapper (argv : list string) : bool :=
  envManipulationBefore DISPATCH_LEVELS argv false.

Record ShellWrapperCommand : Type := mkShellWrapperCommand {
  isWrapper : bool;
  wrapperCommand : option string;
}.

Definition extractShellWrapperCommandInternal (argv : list string) (rawCommand : option string) : ShellWrapperCommand :=
  match resolveShellWrapperSpecAndArgvInternal DISPATCH_LEVELS argv with
  | None => mkShellWrapperCommand false None
  | Some (_, _, payload) => mkShellWrapperCommand true (Some (default payload rawCommand))
  end.

Definition resolveShellWrapperTransportArgv (argv : list string) : option (list string) :=
  (λ r, r.1.1) <$> resolveShellWrapperSpecAndArgvInternal DISPATCH_LEVELS argv.

Definition extractShellWrapperInlineCommand (argv : list string) : option string :=
  let extracted := extractShellWrapperCommandInternal argv None in
  if isWrapper extracted then wrapperCommand extracted else None.

Definition extractShellWrapperCommand (argv : list string) (rawCommand : option string) : ShellWrapperCommand :=
  extractShellWrapperCommandInternal argv (normalizeRawCommand rawCommand).

(** ** The plan: exec-wrapper-trust-plan.ts *)

Record ExecWrapperTrustPlan : Type := mkTrustPlan {
  tp_argv : list string;
  tp_policyArgv : list string;
  tp_wrapperChain : list string;
  tp_policyBlocked : bool;
  tp_blockedWrapper : option string;
  tp_shellWrapperExecutable : bool;
  tp_shellInlineCommand : option string;
}.

Definition blockedExecWrapperTrustPlan (argv policyArgv wrapperChain : list string) (blockedWrapper : string)
    : ExecWrapperTrustPlan :=
  mkTrustPlan argv policyArgv wrapperChain true (Some blockedWrapper) false None.

Definition finalizeExecWrapperTrustPlan (argv policyArgv wrapperChain : list string) : ExecWrapperTrustPlan :=
  let rawExecutable := match argv with raw :: _ => trim raw | [] => EmptyString end in
  let shellWrapperExecutable := str_truthy rawExecutable && isShellWrapperExecutable rawExecutable in
  mkTrustPlan argv policyArgv wrapperChain false None shellWrapperExecutable
    (if shellWrapperExecutable then extractShellWrapperInlineCommand argv else None).

Record TrustState : Type := mkTrustState {
  ts_current : list string;
  ts_policyArgv : list string;
  ts_sawShellMultiplexer : bool;
  ts_wrapperChain : list string;
}.

Fixpoint trustLoop (depth maxDepth : nat) (st : TrustState) : ExecWrapperTrustPlan + TrustState :=
  match depth with
  | O => inr st
  | S depth' =>
      let '(mkTrustState current policyArgv sawShellMultiplexer wrapperChain) := st in
      let dispatchPlan :=
        resolveDispatchWrapperTrustPlan current (maxDepth - length wrapperChain) process_platform in
      if d_policyBlocked dispatchPlan then
        inl (blockedExecWrapperTrustPlan (d_argv dispatchPlan) (d_argv dispatchPlan) wrapperChain
          (default (List.hd "unknown" current) (d_blockedWrapper dispatchPlan)))
      else
        match d_wrappers dispatchPlan with
        | _ :: _ =>
            let st' := mkTrustState (d_argv dispatchPlan)
              (if sawShellMultiplexer then policyArgv else d_argv dispatchPlan)
              sawShellMultiplexer (wrapperChain ++ d_wrappers dispatchPlan) in
            if (maxDepth <=? length (ts_wrapperChain st'))%nat then inr st' else trustLoop depth' maxDepth st'
        | [] =>
            match unwrapKnownShellMultiplexerInvocation current with
            | Blocked wrapper => inl (blockedExecWrapperTrustPlan current policyArgv wrapperChain wrapper)
            | Unwrapped wrapper argv =>
                let st' := mkTrustState argv (if sawShellMultiplexer then policyArgv else current) true
                  (wrapperChain ++ [wrapper]) in
                if (maxDepth <=? length (ts_wrapperChain st'))%nat then inr st' else trustLoop depth' maxDepth st'
            | NotWrapper => inr st
            end
        end
  end.

Definition resolveExecWrapperTrustPlan (argv : list string) (maxDepth : nat) : ExecWrapperTrustPlan :=
  match trustLoop maxDepth maxDepth (mkTrustState argv argv false []) with
  | inl plan => plan
  | inr (mkTrustState current policyArgv _ wrapperChain) =>
      let plan := finalizeExecWrapperTrustPlan current policyArgv wrapperChain in
      if (maxDepth <=? length wrapperChain)%nat then
        match unwrapKnownDispatchWrapperInvocation current process_platform with
        | Blocked wrapper | Unwrapped wrapper _ =>
            blockedExecWrapperTrustPlan current policyArgv wrapperChain wrapper
        | NotWrapper =>
            match unwrapKnownShellMultiplexerInvocation current with
            | Blocked wrapper | Unwrapped wrapper _ =>
                blockedExecWrapperTrustPlan current policyArgv wrapperChain wrapper
            | NotWrapper => plan
            end
        end
      else plan
  end.

End process.

(** ** What a plan means

    A specification of unwrapping that does not mention the scanners. *)

#[local] Arguments set_has : simpl never.
#[local] Arguments lowered : simpl never.
#[local] Arguments flagOf : simpl never.
#[local] Arguments trim : simpl never.
#[local] Arguments normalizeExecutableToken : simpl never.

Section plans.
Context `{Process}.

Definition name_of (argv : list string) : option string := normalizeExecutableToken <$> token0 argv.

(** Wrappers that leave the command they run as it is. *)
Definition TRANSPARENT_WRAPPERS : list string :=
  ["arch"; "caffeinate"; "nice"; "nohup"; "sandbox-exec"; "script"; "stdbuf"; "time"; "timeout"; "xcrun"].

Definition blank_token (token : string) : Prop := trim token = EmptyString.
Definition separator_token (token : string) : Prop := trim token = "--" ∨ trim token = "-".

Inductive unwraps : list string → string → list string → Prop :=
| unwraps_env raw blanks seps argv :
    name_of [raw] = Some "env" → Forall blank_token blanks → Forall separator_token seps → (length seps <= 1)%nat →
    argv ≠ [] → unwraps (raw :: blanks ++ seps ++ argv) "env" argv
| unwraps_transparent raw wrapper dropped argv :
    name_of [raw] = Some wrapper → set_has TRANSPARENT_WRAPPERS wrapper = true →
    argv ≠ [] → unwraps (raw :: dropped ++ argv) wrapper argv
| unwraps_multiplexer raw wrapper seps shell argv :
    name_of [raw] = Some wrapper → set_has SHELL_MULTIPLEXER_WRAPPER_NAMES wrapper = true →
    Forall separator_token seps → (length seps <= 1)%nat → isShellWrapperExecutable (trim shell) = true →
    unwraps (raw :: seps ++ shell :: argv) wrapper (shell :: argv).

Inductive unwraps_all : list string → list string → list string → Prop :=
| unwraps_done argv : unwraps_all argv [] argv
| unwraps_more argv wrapper argv' wrappers argv'' :
    unwraps argv wrapper argv' → unwraps_all argv' wrappers argv'' → unwraps_all argv (wrapper :: wrappers) argv''.

(** The program is run by itself: it is no wrapper. *)
Definition runs_itself (argv : list string) : Prop :=
  ∀ name, name_of argv = Some name →
  specByName name = None ∧ set_has SHELL_MULTIPLEXER_WRAPPER_NAMES name = false.

Lemma unwraps_all_app a w1 b w2 c : unwraps_all a w1 b → unwraps_all b w2 c → unwraps_all a (w1 ++ w2) c.
Proof. induction 1; [done|]. intros. econstructor; eauto. Qed.

Lemma unwraps_suffix argv wrapper argv' : unwraps argv wrapper argv' → ∃ raw dropped, argv = raw :: dropped ++ argv' ∧ argv' ≠ [].
Proof.
  destruct 1 as [raw blanks seps argv|raw wrapper dropped argv|raw wrapper seps shell argv].
  - exists raw, (blanks ++ seps). by rewrite app_assoc.
  - by exists raw, dropped.
  - by exists raw, seps.
Qed.

(** *** The scanners drop a prefix *)

Lemma scanTokens_suffix {S} seps (f : S → string → string → WrapperScanDirective * S) st e rest r :
  scanTokens seps f st e rest = Some r → ∃ dropped, rest = dropped ++ r.
Proof.
  revert st e. induction rest as [|raw rest IH]; intros st e Hr; cbn in Hr.
  { destruct e; [done|]. injection Hr as <-. by exists []. }
  assert (∀ st e, scanTokens seps f st e rest = Some r → ∃ dropped, raw :: rest = dropped ++ r) as Hgo.
  { intros st' e' [d ->]%IH. by exists (raw :: d). }
  destruct (negb _); [by eapply Hgo|]. destruct e; [by eapply Hgo|].
  destruct (set_has seps _); [injection Hr as <-; by exists [raw]|].
  destruct (f st _ _) as [[] st']; [by eapply Hgo..| |done]. injection Hr as <-. by exists [].
Qed.

(** Adjusting the index drops more. *)
Definition drops (adjust : list string → option (list string)) : Prop :=
  ∀ rest r, adjust rest = Some r → ∃ dropped, rest = dropped ++ r.

Lemma drops_Some : drops Some.
Proof. intros rest r [= <-]. by exists []. Qed.

Lemma drops_timeout : drops timeout_adjust.
Proof. intros [|a [|b l]] r; [done..|]. intros [= <-]. by exists [a]. Qed.

Lemma drops_script saw : drops (script_adjust saw).
Proof.
  intros rest. revert saw. induction rest as [|raw rest IH]; intros saw r Hr; cbn in Hr; [done|].
  destruct (negb _); [by apply IH in Hr as [d ->]; exists (raw :: d)|].
  destruct (negb saw); [by apply IH in Hr as [d ->]; exists (raw :: d)|]. injection Hr as <-. by exists [].
Qed.

Lemma scanWrapper_suffix {S} seps (f : S → string → string → WrapperScanDirective * S) st adjust argv r :
  drops adjust → scanWrapperInvocation seps f st adjust argv = Some r → ∃ dropped, tail argv = dropped ++ r ∧ r ≠ [].
Proof.
  intros Hd Hr. unfold scanWrapperInvocation in Hr. destruct (scanTokens _ _ _ _ _) as [rest|] eqn:E; [|done].
  destruct (adjust rest) as [[|x l]|] eqn:Ea; try done. injection Hr as <-.
  apply scanTokens_suffix in E as [d1 ->]. apply Hd in Ea as [d2 ->]. exists (d1 ++ d2). by rewrite <- app_assoc.
Qed.

(** Without modifiers, [env] only drops blank arguments and a separator. *)
Lemma env_transparent rest r :
  scanTokens ["--"; "-"] (stateless env_onToken) tt false rest = Some r → envModifiers false rest = false →
  ∃ blanks seps, rest = blanks ++ seps ++ r ∧ Forall blank_token blanks ∧ Forall separator_token seps ∧ (length seps <= 1)%nat.
Proof.
  induction rest as [|raw rest IH]; intros Hr Hm; cbn -[env_onToken] in Hr, Hm.
  { injection Hr as <-. exists [], []. cbn. split_and!; [done..|lia]. }
  destruct (str_truthy (trim raw)) eqn:Et; cbn [negb] in Hr, Hm.
  2:{ destruct (IH Hr Hm) as (bs & ss & -> & Hb & Hs). exists (raw :: bs), ss. split_and!; try done; try apply Hs.
      constructor; [|done]. unfold blank_token. by destruct (trim raw). }
  assert (set_has ["--"; "-"] (trim raw) = String.eqb (trim raw) "--" || String.eqb (trim raw) "-") as Hsep
    by (unfold set_has; cbn; by rewrite orb_false_r).
  rewrite Hsep in Hr. clear Hsep. destruct (String.eqb (trim raw) "--" || String.eqb (trim raw) "-") eqn:Esep.
  { injection Hr as <-. exists [], [raw]. split_and!; [done|done| |cbn; lia]. constructor; [|done].
    apply orb_true_iff in Esep as [E|E]; apply String.eqb_eq in E; [by left|by right]. }
  unfold stateless, env_onToken in Hr. destruct (isEnvAssignment (trim raw)); [done|].
  destruct (negb (is_dash_option (trim raw))) eqn:Ed.
  { injection Hr as <-. exists [], []. split_and!; [done..|cbn; lia]. }
  destruct (set_has ENV_FLAG_OPTIONS _); [done|]. destruct (set_has ENV_OPTIONS_WITH_VALUE _); [|by destruct (hasEnvInlineValuePrefix _)].
  destruct (includes _ _); [done|].
  exfalso. clear -Hr Hm. induction rest as [|raw' rest IH]; cbn -[env_onToken] in Hr, Hm; [done|].
  destruct (negb (str_truthy (trim raw'))); [by apply IH|done].
Qed.

(** *** One step *)

Lemma name_of_cons raw rest : name_of (raw :: rest) = name_of [raw].
Proof. done. Qed.

Definition spec_drops (spec : DispatchWrapperSpec) : Prop :=
  ∀ unwrap argv platform r, spec_unwrap spec = Some unwrap → unwrap argv platform = Some r →
  ∃ dropped, tail argv = dropped ++ r ∧ r ≠ [].

Lemma specs_drop : Forall spec_drops DISPATCH_WRAPPER_SPECS.
Proof.
  pose proof drops_Some. pose proof drops_timeout. pose proof (drops_script false).
  unfold DISPATCH_WRAPPER_SPECS. repeat constructor; intros unwrap argv platform r; try done;
    intros [= <-]; cbv beta; try (by apply scanWrapper_suffix).
  - destruct (supportsArchDispatchWrapper platform); [by apply scanWrapper_suffix|done].
  - unfold always, unwrapScriptInvocation. destruct (negb _); [done|by apply scanWrapper_suffix].
  - destruct (supportsXcrunDispatchWrapper platform); [by apply scanWrapper_suffix|done].
Qed.

Lemma specByName_Some w spec :
  specByName w = Some spec → spec_name spec = w ∧ In spec DISPATCH_WRAPPER_SPECS.
Proof. intros H1. apply List.find_some in H1 as [H1 H2]. by apply String.eqb_eq in H2. Qed.

(** A specification that is transparent without conditions names a transparent wrapper. *)
Lemma transparent_names spec argv platform :
  In spec DISPATCH_WRAPPER_SPECS → spec_name spec ≠ "env" → spec_unwrap spec ≠ None →
  match spec_transparentUsage spec with Some f => f argv platform | None => false end = true →
  set_has TRANSPARENT_WRAPPERS (spec_name spec) = true.
Proof.
  intros Hin Hne Hu Ht. cbn in Hin.
  repeat (destruct Hin as [<-|Hin]; [by (vm_compute || (exfalso; (by apply Hne) || (by apply Hu)))|]). done.
Qed.

Lemma dispatch_step argv wrapper argv' :
  unwrapKnownDispatchWrapperInvocation argv process_platform = Unwrapped wrapper argv' →
  isSemanticDispatchWrapperUsage wrapper argv process_platform = false → unwraps argv wrapper argv'.
Proof.
  unfold unwrapKnownDispatchWrapperInvocation, isSemanticDispatchWrapperUsage. intros Hu Hs.
  destruct (token0 argv) as [token|] eqn:Et; [|done].
  destruct (specByName (normalizeExecutableToken token)) as [spec|] eqn:Es; [|done].
  destruct (spec_unwrap spec) as [unwrap|] eqn:Eu; [|done]. unfold unwrapDispatchWrapper in Hu.
  destruct (unwrap argv process_platform) as [r|] eqn:Er; [|done]. injection Hu as <- <-. rewrite Es in Hs.
  destruct (specByName_Some _ _ Es) as [Hname Hin].
  pose proof (proj1 (List.Forall_forall _ _) specs_drop spec Hin unwrap argv process_platform r Eu Er) as (dropped & Hd & Hne).
  destruct argv as [|raw rest]; [done|]. cbn in Hd. subst rest.
  assert (name_of [raw] = Some (normalizeExecutableToken token)) as Hn.
  { unfold name_of. change (token0 [raw]) with (token0 (raw :: dropped ++ r)). by rewrite Et. }
  destruct (decide (spec_name spec = "env")) as [He|He].
  - rewrite <- Hname, He in *. assert (unwrap = always unwrapEnvInvocation
      ∧ spec_transparentUsage spec = Some (λ argv _, negb (envInvocationUsesModifiers argv))) as [-> Hus].
    { cbn in Hin. repeat (destruct Hin as [<-|Hin]; [by (discriminate He || (injection Eu as <-))|]). done. }
    destruct spec as [nm uw us]. cbn in Eu, Hus. subst uw us.
    apply negb_false_iff in Hs. apply negb_true_iff in Hs.
    unfold always, unwrapEnvInvocation, scanWrapperInvocation in Er. cbn [tail] in Er.
    destruct (scanTokens _ _ _ _ _) as [r'|] eqn:Esc; [|done].
    assert (r' = r) as -> by (destruct r'; [done|]; by injection Er as <-).
    destruct (env_transparent _ _ Esc Hs) as (bs & ss & -> & Hb & Hse & Hle). by constructor.
  - apply unwraps_transparent; [done| |done]. rewrite <- Hname.
    apply (transparent_names spec (raw :: dropped ++ r) process_platform); [done|done|by rewrite Eu|].
    destruct spec as [nm uw us]. cbn in Eu |- *. subst uw. cbn in Hs. destruct us; [by apply negb_false_iff in Hs|done].
Qed.

Lemma multiplexer_step argv wrapper argv' :
  unwrapKnownShellMultiplexerInvocation argv = Unwrapped wrapper argv' → unwraps argv wrapper argv'.
Proof.
  unfold unwrapKnownShellMultiplexerInvocation. intros Hu. destruct (token0 argv) as [token|] eqn:Et; [|done].
  destruct (set_has SHELL_MULTIPLEXER_WRAPPER_NAMES _) eqn:Em; [|done]. cbn [negb] in Hu.
  destruct argv as [|raw rest]; [done|]. cbn [tail] in Hu.
  assert (name_of [raw] = Some (normalizeExecutableToken token)) as Hn.
  { unfold name_of. change (token0 [raw]) with (token0 (raw :: rest)). by rewrite Et. }
  assert (∀ seps args, rest = seps ++ args → Forall separator_token seps → (length seps <= 1)%nat →
    match args with
    | [] => Blocked (normalizeExecutableToken token)
    | raw :: _ =>
        if negb (str_truthy (trim raw)) || negb (isShellWrapperExecutable (trim raw)) then Blocked (normalizeExecutableToken token)
        else Unwrapped (normalizeExecutableToken token) args
    end = Unwrapped wrapper argv' → unwraps (raw :: rest) wrapper argv') as Hgo.
  { intros seps [|shell args] -> Hs Hl Hx; [done|]. destruct (negb _ || _) eqn:E; [done|]. injection Hx as <- <-.
    apply orb_false_iff in E as [_ E]. apply negb_false_iff in E. by constructor. }
  destruct rest as [|x rest]; [by apply (Hgo [] [])|]. destruct (String.eqb (trim x) "--") eqn:Ex.
  - apply (Hgo [x] rest); [done| |cbn; lia|done]. constructor; [|done]. left. by apply String.eqb_eq.
  - apply (Hgo [] (x :: rest)); [done|done|cbn; lia|done].
Qed.

(** A program that neither unwrapping recognises runs itself. *)
Lemma not_wrapper_runs_itself argv :
  unwrapKnownDispatchWrapperInvocation argv process_platform = NotWrapper →
  unwrapKnownShellMultiplexerInvocation argv = NotWrapper → runs_itself argv.
Proof.
  unfold unwrapKnownDispatchWrapperInvocation, unwrapKnownShellMultiplexerInvocation, runs_itself, name_of.
  intros Hd Hm name Hn. destruct (token0 argv) as [token|]; [|done]. injection Hn as <-. split.
  - destruct (specByName _) as [spec|]; [|done]. unfold unwrapDispatchWrapper in Hd. repeat case_match; done.
  - destruct (set_has _ _); [|done]. cbn [negb] in Hm. repeat case_match; done.
Qed.

(** *** The loops *)

Lemma dispatch_nonnil argv platform wrapper argv' :
  unwrapKnownDispatchWrapperInvocation argv platform = Unwrapped wrapper argv' → argv' ≠ [].
Proof.
  unfold unwrapKnownDispatchWrapperInvocation. intros Hu. destruct (token0 argv); [|done].
  destruct (specByName _) as [spec|] eqn:Es; [|done]. destruct (spec_unwrap spec) as [unwrap|] eqn:Eu; [|done].
  unfold unwrapDispatchWrapper in Hu. destruct (unwrap argv platform) as [r|] eqn:Er; [|done]. injection Hu as _ <-.
  destruct (specByName_Some _ _ Es) as [_ Hin].
  by destruct (proj1 (List.Forall_forall _ _) specs_drop spec Hin unwrap argv platform r Eu Er) as (? & _ & ?).
Qed.

Lemma dispatchLoop_unwraps depth current wrappers current' wrappers' :
  dispatchLoop depth process_platform current wrappers = inr (current', wrappers') →
  ∃ ws, wrappers' = wrappers ++ ws ∧ unwraps_all current ws current' ∧ (length ws <= depth)%nat
    ∧ ((length ws < depth)%nat → unwrapKnownDispatchWrapperInvocation current' process_platform = NotWrapper).
Proof.
  revert current wrappers. induction depth as [|depth IH]; intros current wrappers Hl; cbn [dispatchLoop] in Hl.
  { injection Hl as <- <-. exists []. rewrite app_nil_r. split_and!; [done|constructor|done|cbn; lia]. }
  destruct (unwrapKnownDispatchWrapperInvocation current process_platform) as [|w|w argv] eqn:Eu; [|done|].
  - injection Hl as <- <-. exists []. rewrite app_nil_r. split_and!; [done|constructor|cbn; lia|done].
  - pose proof (dispatch_nonnil _ _ _ _ Eu) as Hne. destruct argv as [|x argv]; [done|].
    destruct (isSemanticDispatchWrapperUsage w current process_platform) eqn:Es; [done|].
    destruct (IH _ _ Hl) as (ws & -> & Hun & Hlen & Hend). exists (w :: ws).
    rewrite <- app_assoc. split_and!; [done| |cbn; lia|cbn; intros; apply Hend; lia].
    econstructor; [by eapply dispatch_step|done].
Qed.

Lemma dispatch_plan_unwraps argv maxDepth plan :
  resolveDispatchWrapperTrustPlan argv maxDepth process_platform = plan → d_policyBlocked plan = false →
  unwraps_all argv (d_wrappers plan) (d_argv plan) ∧ (length (d_wrappers plan) <= maxDepth)%nat
  ∧ unwrapKnownDispatchWrapperInvocation (d_argv plan) process_platform = NotWrapper.
Proof.
  intros <-. unfold resolveDispatchWrapperTrustPlan. destruct (dispatchLoop _ _ _ _) as [plan|[current ws]] eqn:El.
  - assert (d_policyBlocked plan = true) as ->; [|done].
    revert El. generalize (@nil string). revert argv. induction maxDepth as [|n IH]; intros argv ws El; [done|].
    cbn [dispatchLoop] in El. destruct (unwrapKnownDispatchWrapperInvocation _ _) as [|w|w [|x r]]; try done.
    + by injection El as <-.
    + destruct (isSemanticDispatchWrapperUsage _ _ _); [by injection El as <-|by eapply IH].
  - destruct (dispatchLoop_unwraps _ _ _ _ _ El) as (ws' & Hws & Hun & Hlen & Hend). cbn in Hws. subst ws'.
    destruct (maxDepth <=? length ws)%nat eqn:Em.
    + destruct (unwrapKnownDispatchWrapperInvocation current process_platform) eqn:Eu; [|done|done]. done.
    + apply Nat.leb_gt in Em. intros _. cbn. auto.
Qed.

(** What has been unwrapped before the first multiplexer, and after it. *)
Definition policy_split (argv policyArgv current chain : list string) : Prop :=
  ∃ c1 c2, chain = c1 ++ c2 ∧ unwraps_all argv c1 policyArgv ∧ unwraps_all policyArgv c2 current.

Definition trust_inv (argv : list string) (maxDepth depth : nat) (st : TrustState) : Prop :=
  policy_split argv (ts_policyArgv st) (ts_current st) (ts_wrapperChain st)
  ∧ (ts_sawShellMultiplexer st = false → ts_policyArgv st = ts_current st ∧ unwraps_all argv (ts_wrapperChain st) (ts_current st))
  ∧ (length (ts_wrapperChain st) <= maxDepth <= length (ts_wrapperChain st) + depth)%nat.

Definition trust_done (argv : list string) (maxDepth : nat) (st : TrustState) : Prop :=
  policy_split argv (ts_policyArgv st) (ts_current st) (ts_wrapperChain st)
  ∧ (length (ts_wrapperChain st) <= maxDepth)%nat
  ∧ ((length (ts_wrapperChain st) < maxDepth)%nat → runs_itself (ts_current st)).

Lemma trust_inv_done argv maxDepth depth st :
  trust_inv argv maxDepth depth st → (maxDepth <= length (ts_wrapperChain st))%nat → trust_done argv maxDepth st.
Proof. intros (Hs & _ & Hl) Hm. split_and!; [done|lia|lia]. Qed.

Lemma policy_split_more argv policyArgv current chain wrappers current' :
  policy_split argv policyArgv current chain → unwraps_all current wrappers current' →
  policy_split argv policyArgv current' (chain ++ wrappers).
Proof.
  intros (c1 & c2 & -> & H1 & H2) H3. exists c1, (c2 ++ wrappers). rewrite app_assoc. split_and!; [done|done|].
  by eapply unwraps_all_app.
Qed.

Lemma policy_split_all argv current chain : unwraps_all argv chain current → policy_split argv current current chain.
Proof. intros Hu. exists chain, []. rewrite app_nil_r. split_and!; [done|done|constructor]. Qed.

Lemma trustLoop_unwraps depth maxDepth argv st st' :
  trust_inv argv maxDepth depth st → ((0 < depth)%nat → (length (ts_wrapperChain st) < maxDepth)%nat) →
  trustLoop depth maxDepth st = inr st' → trust_done argv maxDepth st'.
Proof.
  revert st. induction depth as [|depth IH]; intros st Hinv Hroom Hl; cbn [trustLoop] in Hl.
  { injection Hl as <-. eapply trust_inv_done; [done|]. destruct Hinv as (_ & _ & ?). lia. }
  specialize (Hroom ltac:(lia)). destruct st as [current policyArgv saw chain]. cbn in Hroom. destruct Hinv as (Hs & Hsaw & Hlen). cbn in Hs, Hsaw, Hlen.
  destruct (d_policyBlocked _) eqn:Eb; [done|].
  destruct (dispatch_plan_unwraps current _ _ eq_refl Eb) as (Hun & Hn & Hend).
  set (plan := resolveDispatchWrapperTrustPlan current (maxDepth - length chain) process_platform) in *. clearbody plan.
  assert (∀ st2, trust_inv argv maxDepth depth st2 →
    (if (maxDepth <=? length (ts_wrapperChain st2))%nat then inr st2 else trustLoop depth maxDepth st2) = inr st' →
    trust_done argv maxDepth st') as Hgo.
  { intros st2 Hi Hx. destruct (maxDepth <=? length (ts_wrapperChain st2))%nat eqn:E.
    - injection Hx as <-. apply Nat.leb_le in E. by eapply trust_inv_done.
    - apply Nat.leb_gt in E. by eapply IH. }
  destruct (d_wrappers plan) as [|w ws] eqn:Ew.
  - assert (d_argv plan = current) as Hcur by (by inversion Hun). rewrite Hcur in Hend.
    destruct (unwrapKnownShellMultiplexerInvocation current) as [|w|w argv'] eqn:Em; [|done|].
    + injection Hl as <-. split_and!; cbn; [done|lia|]. intros _. by apply not_wrapper_runs_itself.
    + assert (unwraps_all current [w] argv') as Hw by (econstructor; [by apply multiplexer_step|constructor]).
      apply Hgo in Hl; [done|]. split_and!; cbn; [|done|rewrite length_app; cbn; lia|rewrite length_app; cbn; lia].
      destruct saw; [by eapply policy_split_more|]. destruct (Hsaw eq_refl) as [-> Hall].
      eapply policy_split_more; [by apply policy_split_all|done].
  - apply Hgo in Hl; [done|]. cbn in Hn. split_and!; cbn.
    + destruct saw; [by eapply policy_split_more|]. destruct (Hsaw eq_refl) as [-> Hall].
      apply policy_split_all. by eapply unwraps_all_app.
    + intros ->. split; [done|]. destruct (Hsaw eq_refl) as [_ Hall]. by eapply unwraps_all_app.
    + rewrite length_app. cbn. lia.
    + rewrite length_app. cbn. lia.
Qed.

Lemma finished_plan argv policyArgv chain :
  let plan := finalizeExecWrapperTrustPlan argv policyArgv chain in
  tp_argv plan = argv ∧ tp_policyArgv plan = policyArgv ∧ tp_wrapperChain plan = chain.
Proof. done. Qed.

Lemma unblocked_plan argv maxDepth :
  let plan := resolveExecWrapperTrustPlan argv maxDepth in
  tp_policyBlocked plan = false →
  policy_split argv (tp_policyArgv plan) (tp_argv plan) (tp_wrapperChain plan)
  ∧ (length (tp_wrapperChain plan) <= maxDepth)%nat ∧ runs_itself (tp_argv plan).
Proof.
  cbn zeta. unfold resolveExecWrapperTrustPlan. destruct (trustLoop _ _ _) as [plan|st] eqn:El.
  - assert (tp_policyBlocked plan = true) as ->; [|done]. revert El.
    generalize (mkTrustState argv argv false []). generalize maxDepth at 1. intros depth.
    induction depth as [|depth IH]; intros st El; cbn [trustLoop] in El; [done|]. destruct st as [cur pol saw chain].
    destruct (d_policyBlocked _); [by injection El as <-|]. destruct (d_wrappers _).
    + destruct (unwrapKnownShellMultiplexerInvocation cur); [done|by injection El as <-|].
      destruct (_ <=? _)%nat; [done|by eapply IH].
    + destruct (_ <=? _)%nat; [done|by eapply IH].
  - apply (trustLoop_unwraps _ _ argv) in El as (Hs & Hl & Hr).
    + destruct st as [current policyArgv saw chain]. cbn in Hs, Hl, Hr.
      destruct (maxDepth <=? length chain)%nat eqn:Em.
      * destruct (unwrapKnownDispatchWrapperInvocation current process_platform) eqn:Ed; [|done..].
        destruct (unwrapKnownShellMultiplexerInvocation current) eqn:Emx; [|done..]. intros _.
        split_and!; [done|done|by apply not_wrapper_runs_itself].
      * apply Nat.leb_gt in Em. intros _. split_and!; [done|done|by apply Hr].
    + split_and!; cbn; [apply policy_split_all; constructor|split; [done|constructor]|lia|lia].
    + cbn. lia.
Qed.

(** Wrappers that the code cannot see through are never allowed. *)
Lemma opaque_wrapper_blocked argv maxDepth wrapper :
  name_of argv = Some wrapper → set_has ["chrt"; "doas"; "ionice"; "setsid"; "sudo"; "taskset"] wrapper = true →
  tp_policyBlocked (resolveExecWrapperTrustPlan argv maxDepth) = true.
Proof.
  intros Hn Hw. destruct (tp_policyBlocked _) eqn:Eb; [done|]. exfalso.
  pose proof (unblocked_plan argv maxDepth) as Hp. cbn zeta in Hp. specialize (Hp Eb) as ((c1 & c2 & _ & H1 & H2) & _ & Hr).
  pose proof (unwraps_all_app _ _ _ _ _ H1 H2) as Hall. clear H1 H2.
  unfold set_has in Hw. cbn in Hw. rewrite !orb_true_iff, !String.eqb_eq in Hw.
  inversion Hall as [|? w argv' ws ? Hu]; subst.
  - destruct (Hr wrapper) as [Hs _]; [congruence|]. destruct Hw as [->|[->|[->|[->|[->|[->|?]]]]]]; done.
  - assert (name_of argv = Some w ∧ (w = "env" ∨ set_has TRANSPARENT_WRAPPERS w = true
      ∨ set_has SHELL_MULTIPLEXER_WRAPPER_NAMES w = true)) as [Hn' Hc].
    { destruct Hu; rewrite name_of_cons; (split; [done|]); auto. }
    rewrite Hn in Hn'. injection Hn' as ->.
    destruct Hw as [->|[->|[->|[->|[->|[->|?]]]]]]; destruct Hc as [?|[?|?]]; done.
Qed.

(** C5. The execution plan of an argument vector ([resolveExecWrapperTrustPlan]), when it
    is not blocked, runs a suffix of the vector that is reached by unwrapping at most
    [maxDepth] wrappers, each of which is [env] without assignments or options, one of
    the ten wrappers known to leave their command unchanged, or a multiplexer followed by a
    shell; the program it runs is itself no wrapper and no multiplexer; and the vector to
    which policies apply is one on the way, before the first multiplexer. *)
Theorem unblocked_plan_sees_through_wrappers argv maxDepth :
  tp_policyBlocked (resolveExecWrapperTrustPlan argv maxDepth) = false →
  policy_split argv (tp_policyArgv (resolveExecWrapperTrustPlan argv maxDepth))
    (tp_argv (resolveExecWrapperTrustPlan argv maxDepth)) (tp_wrapperChain (resolveExecWrapperTrustPlan argv maxDepth))
  ∧ (length (tp_wrapperChain (resolveExecWrapperTrustPlan argv maxDepth)) <= maxDepth)%nat
  ∧ runs_itself (tp_argv (resolveExecWrapperTrustPlan argv maxDepth)).
Proof. apply unblocked_plan. Qed.

End plans.

Lemma unblocked_plan_sees_through_wrappers_witness :
  let P : Process := {| process_platform := "linux" |} in
  let argv := ["/usr/bin/env"; "--"; "nice"; "-n"; "5"; "busybox"; "sh"; "-c"; "ls"] in
  tp_argv (resolveExecWrapperTrustPlan argv 4) = ["sh"; "-c"; "ls"]
  ∧ tp_wrapperChain (resolveExecWrapperTrustPlan argv 4) = ["env"; "nice"; "busybox"]
  ∧ runs_itself (tp_argv (resolveExecWrapperTrustPlan argv 4)).
Proof.
  intros P argv. split; [vm_compute; reflexivity|]. split; [vm_compute; reflexivity|].
  apply (@unblocked_plan_sees_through_wrappers P argv 4). vm_compute. reflexivity.
Defined.

(** [env -] clears the environment, as [env -i] does, and [env -- A=b cmd] sets a
    variable; the first is unwrapped as if it were a separator. *)
Example env_dash_is_transparent :
  let P : Process := {| process_platform := "linux" |} in
  tp_policyBlocked (resolveExecWrapperTrustPlan ["env"; "-i"; "ls"] 4) = true
  ∧ resolveExecWrapperTrustPlan ["env"; "-"; "ls"] 4 = mkTrustPlan ["ls"] ["ls"] ["env"] false None false None.
Proof. vm_compute. split; reflexivity. Qed.

End ExecWrappers.
