(* ===== verification/SafeBins.v ===== *)
(** * Safe bins

    src/infra/exec-safe-bin-policy-profiles.ts, exec-safe-bin-policy-validator.ts,
    exec-safe-bin-semantics.ts, exec-safe-bin-trust.ts and [parseExecArgvToken] of
    exec-command-resolution.ts: programs that run without approval as long as their
    arguments name no file. The arguments are compared with what [getopt_long] makes of
    them. *)

From Stdlib Require Import Ascii.
From S2P Require Import Prelude JsRegex NodePath.

#[local] Open Scope stdpp_scope.

Module SafeBins.
Export NodePath.

(** ** Tokens of an argument vector: parseExecArgvToken *)

Inductive ExecArgvToken : Type :=
| TokEmpty
| TokTerminator
| TokStdin
| TokPositional (raw : string)
| TokLong (flag : string) (inlineValue : option string)
| TokShort (cluster : string) (flags : list string).

(** The text before the first [=] and the text after it. *)
Fixpoint split_eq (s : string) : option (string * string) :=
  match s with
  | EmptyString => None
  | String c s' =>
      if Ascii.eqb c "="%char then Some (EmptyString, s')
      else (λ p, (String c p.1, p.2)) <$> split_eq s'
  end.

Definition short_flag (c : ascii) : string := String "-"%char (String c EmptyString).

Definition parseExecArgvToken (raw : string) : ExecArgvToken :=
  if negb (str_truthy raw) then TokEmpty
  else if String.eqb raw "--" then TokTerminator
  else if String.eqb raw "-" then TokStdin
  else if negb (starts_with raw "-") then TokPositional raw
  else if starts_with raw "--" then
    match split_eq raw with
    | Some (flag, value) => TokLong flag (Some value)
    | None => TokLong raw None
    end
  else
    let cluster := str_drop 1 raw in
    TokShort cluster (map short_flag (String.list_ascii_of_string cluster)).

(** ** Profiles: exec-safe-bin-policy-profiles.ts *)

Record SafeBinProfile : Type := mkProfile {
  minPositional : option Z;
  maxPositional : option Z;
  allowedValueFlags : list string;
  deniedFlags : list string;
  knownLongFlags : list string;
  longFlagPrefixMap : gmap string (option string);
}.

Record SafeBinProfileFixture : Type := mkFixture {
  fx_minPositional : option num;
  fx_maxPositional : option num;
  fx_allowedValueFlags : option (list string);
  fx_deniedFlags : option (list string);
}.

Definition DEFAULT_SAFE_BINS : list string := ["cut"; "uniq"; "head"; "tail"; "tr"; "wc"].

Definition toFlagSet (flags : option (list string)) : list string :=
  match flags with None => [] | Some l => unique l end.

Definition is_long (flag : string) : bool := starts_with flag "--".

Definition collectKnownLongFlags (allowed denied : list string) : list string :=
  unique (List.filter is_long allowed ++ List.filter is_long denied).

Definition prefixStep (m : gmap string (option string)) (e : string * string) : gmap string (option string) :=
  let '(prefix, flag) := e in
  match m !! prefix with
  | None => <[prefix := Some flag]> m
  | Some existing =>
      if match existing with Some f => String.eqb f flag | None => false end then m
      else <[prefix := None]> m
  end.

(** The prefixes of at least three characters. *)
Definition flagPrefixes (flag : string) : list (string * string) :=
  if negb (is_long flag) || (String.length flag <=? 2)%nat then []
  else map (λ length, (str_take length flag, flag)) (seq 3 (String.length flag - 2)).

Definition buildLongFlagPrefixMap (known : list string) : gmap string (option string) :=
  foldl prefixStep ∅ (flat_map flagPrefixes known).

(** [undefined] limits of a compiled fixture stay absent. *)
Definition limit (n : option num) : option Z := (λ x, match x with Fin q => truncQ q | _ => 0 end) <$> n.

Definition compileSafeBinProfile (fixture : SafeBinProfileFixture) : SafeBinProfile :=
  let allowed := toFlagSet (fx_allowedValueFlags fixture) in
  let denied := toFlagSet (fx_deniedFlags fixture) in
  let known := collectKnownLongFlags allowed denied in
  mkProfile (limit (fx_minPositional fixture)) (limit (fx_maxPositional fixture)) allowed denied known
    (buildLongFlagPrefixMap known).

Definition at_most (n : Z) (allowed denied : list string) : SafeBinProfileFixture :=
  mkFixture None (Some (num_of_Z n)) (Some allowed) (Some denied).

Definition SAFE_BIN_PROFILE_FIXTURES : list (string * SafeBinProfileFixture) :=
  [ ("jq", at_most 1 ["--arg"; "--argjson"; "--argstr"]
      ["--argfile"; "--rawfile"; "--slurpfile"; "--from-file"; "--library-path"; "-L"; "-f"]);
    ("grep", at_most 0
      ["--regexp"; "--max-count"; "--after-context"; "--before-context"; "--context"; "--devices"; "--binary-files";
       "--exclude"; "--include"; "--label"; "-e"; "-m"; "-A"; "-B"; "-C"; "-D"]
      ["--file"; "--exclude-from"; "--dereference-recursive"; "--directories"; "--recursive"; "-f"; "-d"; "-r"; "-R"]);
    ("cut", at_most 0
      ["--bytes"; "--characters"; "--fields"; "--delimiter"; "--output-delimiter"; "-b"; "-c"; "-f"; "-d"] []);
    ("sort", at_most 0
      ["--key"; "--field-separator"; "--buffer-size"; "--parallel"; "--batch-size"; "-k"; "-t"; "-S"]
      ["--compress-program"; "--files0-from"; "--output"; "--random-source"; "--temporary-directory"; "-T"; "-o"]);
    ("uniq", at_most 0 ["--skip-fields"; "--skip-chars"; "--check-chars"; "--group"; "-f"; "-s"; "-w"] []);
    ("head", at_most 0 ["--lines"; "--bytes"; "-n"; "-c"] []);
    ("tail", at_most 0 ["--lines"; "--bytes"; "--sleep-interval"; "--max-unchanged-stats"; "--pid"; "-n"; "-c"] []);
    ("tr", mkFixture (Some (num_of_Z 1)) (Some (num_of_Z 2)) None None);
    ("wc", at_most 0 [] ["--files0-from"]) ].

Definition SafeBinProfiles : Type := list (string * SafeBinProfile).

Definition compileSafeBinProfiles (fixtures : list (string * SafeBinProfileFixture)) : SafeBinProfiles :=
  map (λ e, (e.1, compileSafeBinProfile e.2)) fixtures.

Definition SAFE_BIN_PROFILES : SafeBinProfiles := compileSafeBinProfiles SAFE_BIN_PROFILE_FIXTURES.

(** The last entry of a name wins, as in an object that is spread over another. *)
Fixpoint profileOf (profiles : SafeBinProfiles) (name : string) : option SafeBinProfile :=
  match profiles with
  | [] => None
  | (n, p) :: rest =>
      match profileOf rest name with
      | Some p' => Some p'
      | None => if String.eqb n name then Some p else None
      end
  end.

Definition normalizeSafeBinProfileName (raw : string) : option string :=
  if str_truthy (lowered raw) then Some (lowered raw) else None.

Definition normalizeFixtureLimit (raw : option num) : option Z :=
  match raw ≫= finite_num with
  | Some q => if 0 <=? truncQ q then Some (truncQ q) else None
  | None => None
  end.

Section profiles.
Context (localeCompare_le : string → string → bool).

Definition normalizeFixtureFlags (flags : option (list string)) : option (list string) :=
  match flags with
  | None => None
  | Some l =>
      match toSorted localeCompare_le (unique (List.filter str_truthy (map trim l))) with
      | [] => None
      | normalized => Some normalized
      end
  end.

Definition normalizeSafeBinProfileFixture (fixture : SafeBinProfileFixture) : SafeBinProfileFixture :=
  let minP := normalizeFixtureLimit (fx_minPositional fixture) in
  let maxRaw := normalizeFixtureLimit (fx_maxPositional fixture) in
  let maxP :=
    match minP, maxRaw with
    | Some a, Some b => if b <? a then Some a else Some b
    | _, _ => maxRaw
    end in
  mkFixture (num_of_Z <$> minP) (num_of_Z <$> maxP)
    (normalizeFixtureFlags (fx_allowedValueFlags fixture)) (normalizeFixtureFlags (fx_deniedFlags fixture)).

Definition normalizeSafeBinProfileFixtures (fixtures : option (list (string * SafeBinProfileFixture)))
    : list (string * SafeBinProfileFixture) :=
  omap (λ e, (λ name, (name, normalizeSafeBinProfileFixture e.2)) <$> normalizeSafeBinProfileName e.1)
    (default [] fixtures).

Definition resolveSafeBinProfiles (fixtures : option (list (string * SafeBinProfileFixture))) : SafeBinProfiles :=
  match normalizeSafeBinProfileFixtures fixtures with
  | [] => SAFE_BIN_PROFILES
  | normalized => SAFE_BIN_PROFILES ++ compileSafeBinProfiles normalized
  end.

End profiles.

(** ** The rules of single programs: exec-safe-bin-semantics.ts *)

Definition not_word (c : ascii) : bool := negb (is_word c).

Definition JQ_ENV_FILTER_PATTERN : regex :=
  RCat [RAlt RStart (RChar (λ c, negb (is_word c || one_of ".$" c))); RLit "env"; RAlt (RChar not_word) REnd].
Definition JQ_ENV_VARIABLE_PATTERN : regex := RCat [RLit "$ENV"; RBound].

(** [normalized.replace(/\.(?:exe|cmd|bat|com)$/i, "")] *)
Fixpoint dropSuffixI (suffixes : list string) (s : string) : string :=
  match suffixes with
  | [] => s
  | suffix :: rest =>
      if ends_with (lower s) suffix then str_take (String.length s - String.length suffix) s else dropSuffixI rest s
  end.

Definition normalizeSafeBinName (raw : string) : string :=
  let trimmed := lowered raw in
  if negb (str_truthy trimmed) then EmptyString
  else
    let tail := List.last (split_on slash (String.string_of_list_ascii
      (map (λ c, if Ascii.eqb c back_slash then slash else c) (String.list_ascii_of_string trimmed)))) EmptyString in
    dropSuffixI [".exe"; ".cmd"; ".bat"; ".com"] tail.

Definition ALWAYS_DENIED : list string := ["awk"; "gawk"; "mawk"; "nawk"; "sed"; "gsed"].

Definition validateSafeBinSemantics (binName : option string) (positional : list string) : bool :=
  let normalized := match binName with Some b => normalizeSafeBinName b | None => EmptyString end in
  if String.eqb normalized "jq" then
    negb (existsb (λ token, test JQ_ENV_FILTER_PATTERN token || test JQ_ENV_VARIABLE_PATTERN token) positional)
  else negb (set_has ALWAYS_DENIED normalized).

(** ** The validator: exec-safe-bin-policy-validator.ts *)

Definition isPathLikeToken (value : string) : bool :=
  let trimmed := trim value in
  if negb (str_truthy trimmed) then false
  else if String.eqb trimmed "-" then false
  else if starts_with trimmed "./" || starts_with trimmed "../" || starts_with trimmed "~" then true
  else if starts_with trimmed "/" then true
  else match trimmed with
       | String d (String c (String s _)) => is_alpha d && Ascii.eqb c ":"%char && is_win_slash s
       | _ => false
       end.

Definition hasGlobToken (value : string) : bool := has_char (one_of "*?[]") value.

Definition isSafeLiteralToken (value : string) : bool :=
  if negb (str_truthy value) || String.eqb value "-" then true
  else negb (hasGlobToken value) && negb (isPathLikeToken value).

(** The next argument, as the value of an option: [None] when [isInvalidValueToken]. *)
Definition validValue (args : list string) : option (list string) :=
  match args with
  | value :: rest => if str_truthy value && isSafeLiteralToken value then Some rest else None
  | [] => None
  end.

Section validator.
Context (profile : SafeBinProfile).

Definition resolveCanonicalLongFlag (flag : string) : option string :=
  if negb (is_long flag) || (String.length flag <=? 2)%nat then None
  else if set_has (knownLongFlags profile) flag then Some flag
  else mjoin (longFlagPrefixMap profile !! flag).

(** The arguments left after the option, [None] for index -1. *)
Definition consumeLongOptionToken (flag : string) (inlineValue : option string) (rest : list string)
    : option (list string) :=
  match resolveCanonicalLongFlag flag with
  | None => None
  | Some canonicalFlag =>
      if negb (str_truthy canonicalFlag) then None
      else if set_has (deniedFlags profile) canonicalFlag then None
      else
        let expectsValue := set_has (allowedValueFlags profile) canonicalFlag in
        match inlineValue with
        | Some value => if expectsValue && isSafeLiteralToken value then Some rest else None
        | None => if negb expectsValue then Some rest else validValue rest
        end
  end.

Fixpoint consumeShortOptionClusterToken (cluster : string) (rest : list string) : option (list string) :=
  match cluster with
  | EmptyString => None
  | String c inlineValue =>
      let flag := short_flag c in
      if set_has (deniedFlags profile) flag then None
      else if negb (set_has (allowedValueFlags profile) flag) then consumeShortOptionClusterToken inlineValue rest
      else if str_truthy inlineValue then if isSafeLiteralToken inlineValue then Some rest else None
      else validValue rest
  end.

Fixpoint restPositionals (args : list string) : option (list string) :=
  match args with
  | [] => Some []
  | rest :: args' =>
      if negb (str_truthy rest) || String.eqb rest "-" then restPositionals args'
      else if isSafeLiteralToken rest then cons rest <$> restPositionals args' else None
  end.

(** [fuel] bounds the iterations; the number of arguments is enough. *)
Fixpoint positionalTokens (fuel : nat) (args : list string) : option (list string) :=
  match fuel, args with
  | _, [] => Some []
  | O, _ => None
  | S fuel', raw :: rest =>
      match parseExecArgvToken raw with
      | TokEmpty | TokStdin => positionalTokens fuel' rest
      | TokTerminator => restPositionals rest
      | TokPositional token =>
          if isSafeLiteralToken token then cons token <$> positionalTokens fuel' rest else None
      | TokLong flag inlineValue =>
          match consumeLongOptionToken flag inlineValue rest with
          | Some next => positionalTokens fuel' next
          | None => None
          end
      | TokShort cluster _ =>
          match consumeShortOptionClusterToken cluster rest with
          | Some next => positionalTokens fuel' next
          | None => None
          end
      end
  end.

Definition collectPositionalTokens (args : list string) : option (list string) :=
  positionalTokens (length args) args.

Definition validatePositionalCount (positional : list string) : bool :=
  let n := Z.of_nat (length positional) in
  if n <? default 0 (minPositional profile) then false
  else match maxPositional profile with Some m => negb (m <? n) | None => true end.

Definition validateSafeBinArgv (args : list string) (binName : option string) : bool :=
  match collectPositionalTokens args with
  | None => false
  | Some positional => validatePositionalCount positional && validateSafeBinSemantics binName positional
  end.

End validator.

(** ** Trusted directories: exec-safe-bin-trust.ts *)

Definition DEFAULT_SAFE_BIN_TRUSTED_DIRS : list string := ["/bin"; "/usr/bin"].

Section trust.
Context `{Host}.

Definition normalizeTrustedDir (value : string) : option string := (λ t, resolve [t]) <$> nonblank value.

Definition normalizeTrustedSafeBinDirs (entries : option (list string)) : list string :=
  match entries with Some l => unique (List.filter str_truthy (map trim l)) | None => [] end.

Definition string_le (a b : string) : bool := match String.compare a b with Gt => false | _ => true end.

Definition resolveTrustedSafeBinDirs (entries : list string) : list string :=
  toSorted string_le (unique (List.filter str_truthy (omap normalizeTrustedDir entries))).

Definition buildTrustedSafeBinDirs (baseDirs extraDirs : option (list string)) : list string :=
  resolveTrustedSafeBinDirs
    (normalizeTrustedSafeBinDirs (Some (default DEFAULT_SAFE_BIN_TRUSTED_DIRS baseDirs))
     ++ normalizeTrustedSafeBinDirs (Some (default [] extraDirs))).

(** The cache of [getTrustedSafeBinDirs]: the key and the directories. *)
Definition TrustCache : Type := option (string * list string).

Definition trustKey (baseDirs extraDirs : option (list string)) : string :=
  join_with (String (ascii_of_nat 1) EmptyString)
    (resolveTrustedSafeBinDirs (normalizeTrustedSafeBinDirs
      (Some (default DEFAULT_SAFE_BIN_TRUSTED_DIRS baseDirs ++ default [] extraDirs)))).

Definition getTrustedSafeBinDirs (cache : TrustCache) (baseDirs extraDirs : option (list string)) (refresh : bool)
    : list string * TrustCache :=
  let key := trustKey baseDirs extraDirs in
  let fresh := buildTrustedSafeBinDirs baseDirs extraDirs in
  match cache with
  | Some (cachedKey, dirs) =>
      if negb refresh && String.eqb cachedKey key then (dirs, cache) else (fresh, Some (key, fresh))
  | None => (fresh, Some (key, fresh))
  end.

Definition isTrustedSafeBinPath (trustedDirs : list string) (resolvedPath : string) : bool :=
  set_has trustedDirs (path_dirname path (resolve [resolvedPath])).

End trust.

(** ** The loop over the arguments consumes them *)

Lemma validValue_shorter args next : validValue args = Some next → (length next <= length args)%nat.
Proof. unfold validValue. intros H. case_matches; cbn; lia. Qed.

Lemma consumeLong_shorter profile flag value rest next :
  consumeLongOptionToken profile flag value rest = Some next → (length next <= length rest)%nat.
Proof.
  unfold consumeLongOptionToken. intros H. repeat (case_match; try done); simplify_eq; try lia; by apply validValue_shorter.
Qed.

Lemma consumeShort_shorter profile cluster rest next :
  consumeShortOptionClusterToken profile cluster rest = Some next → (length next <= length rest)%nat.
Proof.
  induction cluster as [|c cluster IH]; intros H; [done|]. cbn in H.
  repeat (case_match; try done); simplify_eq; try lia; [by apply IH|by apply validValue_shorter].
Qed.

(** More iterations than arguments change nothing: the bound of [collectPositionalTokens] is enough. *)
Lemma positionalTokens_fuel profile fuel args :
  (length args <= fuel)%nat → positionalTokens profile fuel args = collectPositionalTokens profile args.
Proof.
  unfold collectPositionalTokens. remember (length args) as n eqn:Hn. intros Hle.
  assert (length args <= n)%nat as Hn' by lia. clear Hn. revert n args Hle Hn'.
  induction fuel as [|fuel IH]; intros [|n] [|raw rest] Hle Hn; cbn in Hn; try done; try lia. cbn [positionalTokens].
  assert (∀ next, (length next <= length rest)%nat → positionalTokens profile fuel next = positionalTokens profile n next)
    as Hnext by (intros; apply IH; lia).
  destruct (parseExecArgvToken raw) as [| | |token|flag value|cluster flags]; try (by apply Hnext); [done| | |].
  - by rewrite Hnext.
  - destruct (consumeLongOptionToken _ _ _ _) as [next|] eqn:E; [|done]. apply Hnext. by eapply consumeLong_shorter.
  - destruct (consumeShortOptionClusterToken _ _ _) as [next|] eqn:E; [|done]. apply Hnext. by eapply consumeShort_shorter.
Qed.

(** ** The map of abbreviations *)

(** What the map holds for a prefix, given the flags met so far that have it. *)
Definition combine_flag (o : option (option string)) (flag : string) : option (option string) :=
  match o with
  | None => Some (Some flag)
  | Some (Some g) => if String.eqb g flag then o else Some None
  | Some None => Some None
  end.

Lemma prefixSteps_lookup ops m p :
  foldl prefixStep m ops !! p
  = foldl combine_flag (m !! p) (filter_map (λ e, if String.eqb e.1 p then Some e.2 else None) ops).
Proof.
  revert m. induction ops as [|[q flag] ops IH]; intros m; [done|].
  cbn [foldl prefixStep]. rewrite IH. unfold filter_map. cbn [flat_map fst snd].
  destruct (String.eqb_spec q p) as [->|Hne]; cbn [app foldl].
  - f_equal. destruct (m !! p) as [[g|]|] eqn:E; cbn [combine_flag]; try (by rewrite lookup_insert_eq).
    destruct (String.eqb g flag); [done|by rewrite lookup_insert_eq].
  - f_equal. destruct (m !! q) as [[g|]|]; try (by rewrite lookup_insert_ne).
    destruct (String.eqb g flag); [done|by rewrite lookup_insert_ne].
Qed.

Lemma combine_ambiguous fl : foldl combine_flag (Some None) fl = Some None.
Proof. by induction fl. Qed.

Lemma combine_unique g fl f : foldl combine_flag (Some (Some g)) fl = Some (Some f) → g = f ∧ ∀ x, x ∈ fl → x = f.
Proof.
  revert g. induction fl as [|x fl IH]; intros g Hf; cbn in Hf.
  - injection Hf as ->. split; [done|]. intros x Hx. by apply elem_of_nil in Hx.
  - destruct (String.eqb g x) eqn:Hgx; [apply String.eqb_eq in Hgx; subst x|].
    + destruct (IH _ Hf) as [-> Hall]. split; [done|]. intros y [->|Hy]%elem_of_cons; [done|by apply Hall].
    + by rewrite combine_ambiguous in Hf.
Qed.

Lemma combine_found fl f : foldl combine_flag None fl = Some (Some f) → f ∈ fl ∧ ∀ x, x ∈ fl → x = f.
Proof.
  destruct fl as [|g fl]; [done|]. cbn. intros [-> Hall]%combine_unique. split; [by left|].
  intros x [->|Hx]%elem_of_cons; [done|by apply Hall].
Qed.

Lemma prefix_take p s : starts_with s p = true ↔ str_take (String.length p) s = p.
Proof.
  unfold starts_with. revert s. induction p as [|c p IH]; intros s; [by destruct s|].
  destruct s as [|d s]; [done|]. cbn. destruct (ascii_dec c d) as [->|Hne].
  - rewrite IH. split; [by intros ->|by intros [= ->]].
  - split; [done|]. intros [= -> _]. done.
Qed.

Lemma prefix_length p s : starts_with s p = true → (String.length p <= String.length s)%nat.
Proof.
  unfold starts_with. revert s. induction p as [|c p IH]; intros [|d s]; cbn; try done; [lia|].
  destruct (ascii_dec c d); [|done]. intros Hs%IH. lia.
Qed.

Lemma str_take_length_le n s : (n <= String.length s)%nat → String.length (str_take n s) = n.
Proof. revert s. induction n as [|n IH]; intros [|c s]; cbn; try lia. intros. rewrite IH; lia. Qed.

Lemma flagPrefixes_elem f p g :
  (p, g) ∈ flagPrefixes f ↔
  g = f ∧ is_long f = true ∧ (3 <= String.length p)%nat ∧ starts_with f p = true.
Proof.
  unfold flagPrefixes. destruct (is_long f) eqn:El; cbn [negb orb]; [|set_solver].
  destruct (String.length f <=? 2)%nat eqn:E2.
  - apply Nat.leb_le in E2. split; [set_solver|]. intros (-> & _ & Hl & Hp%prefix_length). lia.
  - apply Nat.leb_gt in E2. rewrite list_elem_of_In, in_map_iff. split.
    + intros (n & [= <- <-] & Hn). apply in_seq in Hn. rewrite prefix_take, str_take_length_le by lia. split_and!; [done|done|lia|done].
    + intros (-> & _ & Hl & Hp). exists (String.length p). pose proof (prefix_length _ _ Hp). rewrite prefix_take in Hp.
      rewrite Hp. split; [done|]. apply in_seq. lia.
Qed.

(** An abbreviation is resolved to the only known flag that it begins. *)
Lemma prefixMap_found known p f :
  buildLongFlagPrefixMap known !! p = Some (Some f) →
  f ∈ known ∧ starts_with f p = true ∧ ∀ g, g ∈ known → is_long g = true → starts_with g p = true → g = f.
Proof.
  unfold buildLongFlagPrefixMap. rewrite prefixSteps_lookup, lookup_empty. intros [Hin Hall]%combine_found.
  assert (∀ x, x ∈ filter_map (λ e, if String.eqb e.1 p then Some e.2 else None) (flat_map flagPrefixes known)
    ↔ x ∈ known ∧ is_long x = true ∧ (3 <= String.length p)%nat ∧ starts_with x p = true) as Hx.
  { intros x. unfold filter_map. rewrite list_elem_of_In, in_flat_map. split.
    - intros ([q g] & Hg & Hx). cbn in Hx. destruct (String.eqb_spec q p) as [->|]; [|done]. destruct Hx as [->|[]].
      apply in_flat_map in Hg as (y & Hy & Hg). apply list_elem_of_In, flagPrefixes_elem in Hg as (-> & Hl & Hn & Hp).
      split; [by apply list_elem_of_In|done].
    - intros (Hk & Hl & Hn & Hp). exists (p, x). split; [|cbn; rewrite String.eqb_refl; by left].
      apply in_flat_map. exists x. split; [by apply list_elem_of_In|]. apply list_elem_of_In, flagPrefixes_elem. done. }
  apply Hx in Hin as (Hk & Hl & Hn & Hp). split_and!; [done|done|]. intros g Hg Hgl Hgp. apply Hall, Hx. done.
Qed.

(** ** What a program makes of its arguments

    The reference: [getopt_long], with operands and options in any order, grouped short
    options, abbreviated long options, and values in the same argument or the next. *)

Inductive arity : Type := NoArgument | OptionalArgument | RequiredArgument.

Record tool : Type := mkTool {
  tool_short : ascii → option arity;
  tool_long : list (string * arity);
}.

Definition opts : Type := list (string * option string).

Definition resolve_long (t : tool) (flag : string) : option (string * arity) :=
  match List.find (λ e, String.eqb e.1 flag) (tool_long t) with
  | Some e => Some e
  | None => match List.filter (λ e, starts_with e.1 flag) (tool_long t) with [e] => Some e | _ => None end
  end.

(** The options of a group, and the one whose value is the next argument. *)
Fixpoint getopt_cluster (t : tool) (cluster : string) : option (opts * option string) :=
  match cluster with
  | EmptyString => Some ([], None)
  | String c rest =>
      let value := if str_truthy rest then Some rest else None in
      match tool_short t c with
      | None => None
      | Some NoArgument => (λ p, ((short_flag c, None) :: p.1, p.2)) <$> getopt_cluster t rest
      | Some OptionalArgument => Some ([(short_flag c, value)], None)
      | Some RequiredArgument =>
          match value with
          | Some v => Some ([(short_flag c, Some v)], None)
          | None => Some ([], Some (short_flag c))
          end
      end
  end.

Definition getopt_long_option (t : tool) (flag : string) (inlineValue : option string) : option (opts * option string) :=
  match resolve_long t flag with
  | None => None
  | Some (name, NoArgument) => match inlineValue with Some _ => None | None => Some ([(name, None)], None) end
  | Some (name, OptionalArgument) => Some ([(name, inlineValue)], None)
  | Some (name, RequiredArgument) =>
      match inlineValue with Some v => Some ([(name, Some v)], None) | None => Some ([], Some name) end
  end.

Definition getopt_option (t : tool) (arg : string) : option (opts * option string) :=
  if is_long arg then
    match split_eq arg with
    | Some (flag, value) => getopt_long_option t flag (Some value)
    | None => getopt_long_option t arg None
    end
  else getopt_cluster t (str_drop 1 arg).

Definition is_operand (arg : string) : bool := negb (starts_with arg "-") || String.eqb arg "-".

Fixpoint getopt (t : tool) (args : list string) : option (opts * list string) :=
  match args with
  | [] => Some ([], [])
  | arg :: rest =>
      if String.eqb arg "--" then Some ([], rest)
      else if is_operand arg then (λ p, (p.1, arg :: p.2)) <$> getopt t rest
      else
        match getopt_option t arg with
        | None => None
        | Some (os, None) => (λ p, (os ++ p.1, p.2)) <$> getopt t rest
        | Some (os, Some name) =>
            match rest with
            | [] => None
            | value :: rest' => (λ p, (os ++ (name, Some value) :: p.1, p.2)) <$> getopt t rest'
            end
        end
  end.

(** What a profile has to say of a program. *)
Record describes (profile : SafeBinProfile) (t : tool) : Prop := mk_describes {
  ds_short_allowed : ∀ c, set_has (allowedValueFlags profile) (short_flag c) = true → tool_short t c = Some RequiredArgument;
  ds_short_rest : ∀ c a, tool_short t c = Some a → set_has (allowedValueFlags profile) (short_flag c) = false →
    set_has (deniedFlags profile) (short_flag c) = false → a = NoArgument;
  ds_long_allowed : ∀ f, f ∈ knownLongFlags profile → set_has (allowedValueFlags profile) f = true →
    (f, RequiredArgument) ∈ tool_long t;
  ds_long_known : ∀ f, f ∈ knownLongFlags profile → ∃ a, (f, a) ∈ tool_long t;
  ds_long_unknown : ∀ f a c, (f, a) ∈ tool_long t → f ∉ knownLongFlags profile → c ∈ knownLongFlags profile →
    starts_with c f = false;
  ds_long_names : NoDup (tool_long t).*1;
}.

Definition harmless (profile : SafeBinProfile) (o : string * option string) : Prop :=
  set_has (deniedFlags profile) o.1 = false ∧ ∀ v, o.2 = Some v → isSafeLiteralToken v = true.

(** An operand that is not empty and not standard input. *)
Definition real_operand (arg : string) : bool := str_truthy arg && negb (String.eqb arg "-").

Section simulation.
Context (fixture : SafeBinProfileFixture) (profile : SafeBinProfile) (t : tool).
Hypothesis Hprofile : profile = compileSafeBinProfile fixture.
Hypothesis Hdesc : describes profile t.

Lemma known_flags f :
  f ∈ knownLongFlags profile ↔
  is_long f = true ∧ (set_has (allowedValueFlags profile) f = true ∨ set_has (deniedFlags profile) f = true).
Proof.
  rewrite Hprofile. cbn. unfold collectKnownLongFlags.
  rewrite unique_elem, elem_of_app, !filter_elem, !set_has_iff. tauto.
Qed.

Lemma canonical_known flag c :
  resolveCanonicalLongFlag profile flag = Some c →
  c ∈ knownLongFlags profile ∧ starts_with c flag = true
  ∧ (flag = c ∨ ((flag ∉ knownLongFlags profile) ∧ ∀ g, g ∈ knownLongFlags profile → starts_with g flag = true → g = c)).
Proof.
  unfold resolveCanonicalLongFlag. destruct (_ || _); [done|]. destruct (set_has (knownLongFlags profile) flag) eqn:Ek.
  - intros [= <-]. apply set_has_iff in Ek. split_and!; [done| |by left]. apply prefix_take.
    clear. induction flag as [|c flag IH]; [done|]. cbn. by rewrite IH.
  - apply set_has_false in Ek.
    assert (longFlagPrefixMap profile = buildLongFlagPrefixMap (knownLongFlags profile)) as -> by (by rewrite Hprofile).
    destruct (buildLongFlagPrefixMap (knownLongFlags profile) !! flag) as [[f|]|] eqn:Em; [|done..]. cbn. intros [= <-].
    apply prefixMap_found in Em as (Hf & Hp & Hall). split_and!; [done|done|]. right. split; [done|].
    intros g Hg Hgp. apply Hall; [done| |done]. by apply known_flags in Hg as [? _].
Qed.

Lemma find_long f a : (f, a) ∈ tool_long t → List.find (λ e, String.eqb e.1 f) (tool_long t) = Some (f, a).
Proof.
  pose proof (ds_long_names _ _ Hdesc) as Hnd. induction (tool_long t) as [|[g b] l IH]; [set_solver|].
  cbn in Hnd |- *. apply NoDup_cons in Hnd as [Hg Hnd]. destruct (String.eqb g f) eqn:E.
  - apply String.eqb_eq in E as ->. intros [[= <-]|Hl]%elem_of_cons; [done|]. exfalso. apply Hg.
    apply list_elem_of_fmap. by exists (f, a).
  - intros [[= -> ->]|Hl]%elem_of_cons; [by rewrite String.eqb_refl in E|by apply IH].
Qed.

(** When the program knows the option, it is the one the profile resolves to. *)
Lemma resolve_agrees flag c e :
  resolveCanonicalLongFlag profile flag = Some c → resolve_long t flag = Some e →
  e.1 = c ∧ e ∈ tool_long t.
Proof.
  intros Hc He. destruct (canonical_known _ _ Hc) as (Hk & Hp & Hor). unfold resolve_long in He.
  destruct (List.find _ _) as [[f a]|] eqn:Ef.
  - injection He as <-. apply List.find_some in Ef as [Hin Heq]. apply String.eqb_eq in Heq. cbn in Heq. subst f.
    apply list_elem_of_In in Hin. split; [|done]. destruct Hor as [->|[Hnk Hall]]; [done|]. cbn. exfalso.
    by rewrite (ds_long_unknown _ _ Hdesc flag a c Hin Hnk Hk) in Hp.
  - destruct (ds_long_known _ _ Hdesc c Hk) as [a Ha].
    assert ((c, a) ∈ List.filter (λ e, starts_with e.1 flag) (tool_long t)) as Hcf by (by apply filter_elem).
    destruct (List.filter _ _) as [|e' [|]] eqn:Efl; [done| |done]. injection He as ->.
    apply list_elem_of_singleton in Hcf as Heq. subst e. split; [done|]. by rewrite <- Efl in Hcf; apply filter_elem in Hcf as [_ ?].
Qed.

Lemma long_option flag inlineValue rest next os pending :
  consumeLongOptionToken profile flag inlineValue rest = Some next →
  getopt_long_option t flag inlineValue = Some (os, pending) →
  match pending with
  | None => next = rest ∧ Forall (harmless profile) os
  | Some name => ∃ v, rest = v :: next ∧ Forall (harmless profile) (os ++ [(name, Some v)])
  end.
Proof.
  unfold consumeLongOptionToken, getopt_long_option. intros Hc Hg.
  destruct (resolveCanonicalLongFlag profile flag) as [c|] eqn:Ec; [|done].
  destruct (resolve_long t flag) as [e|] eqn:Ee; [|done].
  destruct (resolve_agrees _ _ _ Ec Ee) as [<- He]. destruct (canonical_known _ _ Ec) as (Hk & _ & _).
  destruct (negb _); [done|]. destruct (set_has (deniedFlags profile) e.1) eqn:Ed; [done|].
  apply known_flags in Hk as Hk'. destruct Hk' as [Hl [Ha|Hd]]; [|congruence]. rewrite Ha in Hc.
  assert (e = (e.1, RequiredArgument)) as Heq.
  { pose proof (find_long _ _ (ds_long_allowed _ _ Hdesc _ Hk Ha)) as Hf1.
    destruct e as [f a]. pose proof (find_long _ _ He) as Hf2. cbn in *. rewrite Hf1 in Hf2. by injection Hf2 as <-. }
  rewrite Heq in Hg. destruct inlineValue as [v|]; cbn in Hc.
  - injection Hg as <- <-. destruct (isSafeLiteralToken v) eqn:Ev; [|done]. injection Hc as <-. split; [done|].
    constructor; [|done]. split; [done|]. cbn. by intros ? [= <-].
  - injection Hg as <- <-. destruct rest as [|v rest]; [done|]. cbn in Hc. destruct (_ && _) eqn:Ev; [|done].
    injection Hc as <-. exists v. split; [done|]. constructor; [|done]. split; [done|]. cbn. intros ? [= <-].
    by apply andb_true_iff in Ev as [_ ?].
Qed.

Lemma short_options cluster rest next os pending :
  consumeShortOptionClusterToken profile cluster rest = Some next →
  getopt_cluster t cluster = Some (os, pending) →
  match pending with
  | None => next = rest ∧ Forall (harmless profile) os
  | Some name => ∃ v, rest = v :: next ∧ Forall (harmless profile) (os ++ [(name, Some v)])
  end.
Proof.
  revert os pending. induction cluster as [|c cluster IH]; intros os pending Hc Hg; [done|]. cbn in Hc, Hg.
  destruct (set_has (deniedFlags profile) (short_flag c)) eqn:Ed; [done|].
  destruct (set_has (allowedValueFlags profile) (short_flag c)) eqn:Ea; cbn [negb] in Hc.
  - rewrite (ds_short_allowed _ _ Hdesc c Ea) in Hg. destruct (str_truthy cluster) eqn:Et.
    + injection Hg as <- <-. destruct (isSafeLiteralToken cluster) eqn:Ev; [|done]. injection Hc as <-. split; [done|].
      constructor; [|done]. split; [done|]. cbn. by intros ? [= <-].
    + injection Hg as <- <-. destruct rest as [|v rest]; [done|]. cbn in Hc. destruct (_ && _) eqn:Ev; [|done].
      injection Hc as <-. exists v. split; [done|]. constructor; [|done]. split; [done|]. cbn. intros ? [= <-].
      by apply andb_true_iff in Ev as [_ ?].
  - destruct (tool_short t c) as [a|] eqn:Es; [|done]. rewrite (ds_short_rest _ _ Hdesc c a Es Ea Ed) in Hg.
    destruct (getopt_cluster t cluster) as [[os' pending']|] eqn:Eg; [|done]. injection Hg as <- <-.
    specialize (IH os' pending' Hc eq_refl).
    assert (harmless profile (short_flag c, None)) as Hh by (split; [done|done]).
    destruct pending' as [name|].
    + destruct IH as (v & -> & Hall). exists v. split; [done|]. by constructor.
    + destruct IH as [-> Hall]. split; [done|]. by constructor.
Qed.

Lemma rest_positionals args positional :
  restPositionals args = Some positional →
  positional = List.filter real_operand args ∧ Forall (λ a, isSafeLiteralToken a = true) args.
Proof.
  revert positional. induction args as [|a args IH]; intros positional Hr; cbn in Hr; [by injection Hr as <-|].
  cbn. unfold real_operand at 1. destruct (negb (str_truthy a) || String.eqb a "-") eqn:E.
  - destruct (IH _ Hr) as [-> Hall]. assert (str_truthy a && negb (String.eqb a "-") = false) as ->.
    { apply orb_true_iff in E as [E|E]; [apply negb_true_iff in E; by rewrite E|by rewrite E, andb_false_r]. }
    split; [done|]. constructor; [|done]. unfold isSafeLiteralToken. by rewrite E.
  - destruct (isSafeLiteralToken a) eqn:Es; [|done]. destruct (restPositionals args) as [ps|] eqn:Er; [|done].
    injection Hr as <-. destruct (IH ps eq_refl) as [-> Hall]. apply orb_false_iff in E as [E1 E2].
    apply negb_false_iff in E1. rewrite E1, E2. split; [done|by constructor].
Qed.

Lemma positional_tokens fuel args positional os operands :
  positionalTokens profile fuel args = Some positional → getopt t args = Some (os, operands) →
  positional = List.filter real_operand operands ∧ Forall (λ a, isSafeLiteralToken a = true) operands
  ∧ Forall (harmless profile) os.
Proof.
  revert args positional os operands. induction fuel as [|fuel IH]; intros args positional os operands Hp Hg.
  { destruct args; [|done]. injection Hp as <-. by injection Hg as <- <-. }
  destruct args as [|arg rest]; [injection Hp as <-; by injection Hg as <- <-|]. cbn [positionalTokens getopt] in Hp, Hg.
  assert (∀ next os' positional, positionalTokens profile fuel next = Some positional → Forall (harmless profile) os' →
    (λ p, (os' ++ p.1, p.2)) <$> getopt t next = Some (os, operands) →
    positional = List.filter real_operand operands ∧ Forall (λ a, isSafeLiteralToken a = true) operands
    ∧ Forall (harmless profile) os) as Hopt.
  { intros next os' ps Hps Hos Hx. destruct (getopt t next) as [[o p]|] eqn:E; [|done]. injection Hx as <- <-.
    destruct (IH _ _ _ _ Hps E) as (-> & Hall & Ho). split_and!; [done|done|by apply Forall_app]. }
  assert (∀ positional', isSafeLiteralToken arg = true → positionalTokens profile fuel rest = Some positional' →
    positional = (if real_operand arg then [arg] else []) ++ positional' →
    (λ p, (p.1, arg :: p.2)) <$> getopt t rest = Some (os, operands) →
    positional = List.filter real_operand operands ∧ Forall (λ a, isSafeLiteralToken a = true) operands
    ∧ Forall (harmless profile) os) as Hoperand.
  { intros ps Hs Hps -> Hx. destruct (getopt t rest) as [[o p]|] eqn:E; [|done]. injection Hx as <- <-.
    destruct (IH _ _ _ _ Hps E) as (-> & Hall & Ho). cbn. split_and!; [by destruct (real_operand arg)|by constructor|done]. }
  unfold parseExecArgvToken in Hp. destruct (str_truthy arg) eqn:Et; cbn [negb] in Hp.
  2:{ destruct arg; [|done]. by apply (Hoperand positional). }
  destruct (String.eqb arg "--") eqn:Edd.
  { injection Hg as <- <-. destruct (rest_positionals _ _ Hp) as [-> Hall]. done. }
  destruct (String.eqb arg "-") eqn:Ed.
  { apply String.eqb_eq in Ed as ->. by apply (Hoperand positional). }
  unfold is_operand in Hg. rewrite Ed, orb_false_r in Hg. destruct (starts_with arg "-") eqn:Esd; cbn [negb] in Hp, Hg.
  2:{ destruct (isSafeLiteralToken arg) eqn:Es; [|done]. destruct (positionalTokens profile fuel rest) as [ps|]; [|done].
      injection Hp as <-. apply (Hoperand ps); try done. unfold real_operand. by rewrite Et, Ed. }
  unfold getopt_option, is_long in Hg. destruct (starts_with arg "--") eqn:El.
  - assert (∃ flag value, match split_eq arg with Some p => Some (p.1, Some p.2) | None => Some (arg, None) end
      = Some (flag, value)) as (flag & value & Hfv) by (destruct (split_eq arg) as [[f v]|]; by eexists _, _).
    assert (∃ next, consumeLongOptionToken profile flag value rest = Some next ∧ positionalTokens profile fuel next = Some positional)
      as (next & Hn & Hps).
    { destruct (split_eq arg) as [[f v]|]; injection Hfv as <- <-; cbn in Hp;
        (destruct (consumeLongOptionToken _ _ _ _) as [next|]; [by exists next|done]). }
    destruct (getopt_long_option t flag value) as [[os' pending]|] eqn:Eg.
    + pose proof (long_option _ _ _ _ _ _ Hn Eg) as Hl.
      assert (match split_eq arg with Some (f, v) => getopt_long_option t f (Some v) | None => getopt_long_option t arg None end
        = Some (os', pending)) as Heq by (destruct (split_eq arg) as [[f v]|]; by injection Hfv as <- <-).
      rewrite Heq in Hg. destruct pending as [name|].
      * destruct Hl as (v & -> & Hall). apply (Hopt next (os' ++ [(name, Some v)])); try done.
        destruct (getopt t next) as [[o p]|]; [|done]. cbn in Hg |- *. by rewrite <- app_assoc.
      * destruct Hl as [-> Hall]. by apply (Hopt rest os').
    + exfalso. destruct (split_eq arg) as [[f v]|]; injection Hfv as <- <-; by rewrite Eg in Hg.
  - destruct (consumeShortOptionClusterToken profile (str_drop 1 arg) rest) as [next|] eqn:Hn; [|done].
    destruct (getopt_cluster t (str_drop 1 arg)) as [[os' pending]|] eqn:Eg; [|done].
    pose proof (short_options _ _ _ _ _ Hn Eg) as Hl. destruct pending as [name|].
    + destruct Hl as (v & -> & Hall). apply (Hopt next (os' ++ [(name, Some v)])); try done.
      destruct (getopt t next) as [[o p]|]; [|done]. cbn in Hg |- *. by rewrite <- app_assoc.
    + destruct Hl as [-> Hall]. by apply (Hopt rest os').
Qed.

End simulation.

(** C6. When the validator ([validateSafeBinArgv]) accepts the arguments of a program
    that its profile describes, then in the reading of [getopt_long] (any order,
    grouped short options, abbreviated long options) no option is a denied one, no value
    of an option and no operand is a path-like word or contains a glob character, and
    the operands other than standard input are as many as the profile allows. *)
Theorem safe_bin_arguments_are_harmless fixture t args binName os operands :
  describes (compileSafeBinProfile fixture) t →
  validateSafeBinArgv (compileSafeBinProfile fixture) args binName = true →
  getopt t args = Some (os, operands) →
  Forall (harmless (compileSafeBinProfile fixture)) os
  ∧ Forall (λ a, isSafeLiteralToken a = true) operands
  ∧ default 0 (minPositional (compileSafeBinProfile fixture)) <= Z.of_nat (length (List.filter real_operand operands))
  ∧ ∀ m, maxPositional (compileSafeBinProfile fixture) = Some m →
      Z.of_nat (length (List.filter real_operand operands)) <= m.
Proof.
  intros Hd Hv Hg. unfold validateSafeBinArgv in Hv. destruct (collectPositionalTokens _ _) as [positional|] eqn:Ec; [|done].
  destruct (positional_tokens fixture _ t eq_refl Hd _ _ _ _ _ Ec Hg) as (-> & Hall & Ho).
  apply andb_true_iff in Hv as [Hv _]. unfold validatePositionalCount in Hv. cbv zeta in Hv.
  destruct (_ <? default _ _) eqn:El; [done|]. apply Z.ltb_ge in El. split_and!; [done|done|done|].
  intros m Hm. rewrite Hm in Hv. apply negb_true_iff, Z.ltb_ge in Hv. done.
Qed.

(** [head], of the GNU core utilities. *)
Definition head_tool : tool :=
  mkTool (λ c, if one_of "nc" c then Some RequiredArgument else if one_of "qvz0123456789" c then Some NoArgument else None)
    [("--bytes", RequiredArgument); ("--lines", RequiredArgument); ("--quiet", NoArgument); ("--silent", NoArgument);
     ("--verbose", NoArgument); ("--zero-terminated", NoArgument); ("--help", NoArgument); ("--version", NoArgument)].

Definition head_fixture : SafeBinProfileFixture := at_most 0 ["--lines"; "--bytes"; "-n"; "-c"] [].

Lemma head_described : describes (compileSafeBinProfile head_fixture) head_tool.
Proof.
  split.
  - intros [[] [] [] [] [] [] [] []]; vm_compute; done.
  - intros [[] [] [] [] [] [] [] []] a Ha; vm_compute in Ha |- *; congruence.
  - intros f Hf _. apply unique_elem in Hf. cbn in Hf. set_solver.
  - intros f Hf. apply unique_elem in Hf. cbn in Hf. exists RequiredArgument. set_solver.
  - intros f a c Hin Hf Hc. cbn in Hin. assert (c = "--lines" ∨ c = "--bytes") as Hc'.
    { apply unique_elem in Hc. cbn in Hc. set_solver. }
    assert (f ≠ "--lines" ∧ f ≠ "--bytes") as [H1 H2].
    { split; intros ->; apply Hf, unique_elem; cbn; set_solver. }
    repeat (apply elem_of_cons in Hin as [[= -> ->]|Hin]; [destruct Hc' as [-> | ->]; done|]). by apply elem_of_nil in Hin.
  - vm_compute. repeat (constructor; [set_solver|]). constructor.
Qed.

Lemma safe_bin_arguments_are_harmless_witness :
  validateSafeBinArgv (compileSafeBinProfile head_fixture) ["--lin"; "5"; "-qc3"; "-"] (Some "head") = true
  ∧ getopt head_tool ["--lin"; "5"; "-qc3"; "-"] = Some ([("--lines", Some "5"); ("-q", None); ("-c", Some "3")], ["-"])
  ∧ Forall (harmless (compileSafeBinProfile head_fixture)) [("--lines", Some "5"); ("-q", None); ("-c", Some "3")].
Proof.
  assert (Hv : validateSafeBinArgv (compileSafeBinProfile head_fixture) ["--lin"; "5"; "-qc3"; "-"] (Some "head") = true)
    by (vm_compute; reflexivity).
  assert (Hg : getopt head_tool ["--lin"; "5"; "-qc3"; "-"] = Some ([("--lines", Some "5"); ("-q", None); ("-c", Some "3")], ["-"]))
    by (vm_compute; reflexivity).
  split; [exact Hv|]. split; [exact Hg|].
  exact (proj1 (safe_bin_arguments_are_harmless head_fixture head_tool _ _ _ _ head_described Hv Hg)).
Defined.

(** [uniq], whose option [--group] takes a value only after an equals sign: the profile
    takes the next argument for its value, and the program reads one file and writes
    another. *)
Definition uniq_tool : tool :=
  mkTool (λ c, if one_of "fsw" c then Some RequiredArgument else if one_of "cdDiuz" c then Some NoArgument else None)
    [("--count", NoArgument); ("--repeated", NoArgument); ("--all-repeated", OptionalArgument); ("--group", OptionalArgument);
     ("--skip-fields", RequiredArgument); ("--skip-chars", RequiredArgument); ("--check-chars", RequiredArgument);
     ("--ignore-case", NoArgument); ("--unique", NoArgument); ("--zero-terminated", NoArgument); ("--help", NoArgument);
     ("--version", NoArgument)].

Lemma uniq_group_reads_and_writes_files :
  let args := ["--group"; "notes.txt"; "--group"; "package.json"] in
  option_map (λ p, validateSafeBinArgv p args (Some "uniq")) (profileOf SAFE_BIN_PROFILES "uniq") = Some true
  ∧ getopt uniq_tool args = Some ([("--group", None); ("--group", None)], ["notes.txt"; "package.json"]).
Proof. vm_compute. split; reflexivity. Qed.

End SafeBins.
