(* ===== verification/CommandResolution.v ===== *)
(** * The program a command runs, and the allowlist

    src/infra/exec-command-resolution.ts and src/infra/exec-allowlist-pattern.ts: the
    resolution of the first word of a command to an executable, after its wrappers, and
    the patterns of the allowlist that match it. *)

From Stdlib Require Import Ascii.
From S2P Require Import Prelude JsRegex NodePath ExecWrappers.

#[local] Open Scope stdpp_scope.

Module CommandResolution.
Export ExecWrappers.

Record ExecutableResolution : Type := mkExecutable {
  rawExecutable : string;
  resolvedPath : option string;
  resolvedRealPath : option string;
  executableName : string;
}.

Record CommandResolution : Type := mkResolution {
  execution : ExecutableResolution;
  policy : ExecutableResolution;
  effectiveArgv : list string;
  wrapperChain : list string;
  policyBlocked : bool;
  blockedWrapper : option string;
}.

(** A string or [undefined], tested as a condition. *)
Definition truthy (s : option string) : option string :=
  match s with Some (String c r) => Some (String c r) | _ => None end.

Fixpoint take_while (f : ascii → bool) (s : string) : string :=
  match s with
  | String c s' => if f c then String c (take_while f s') else EmptyString
  | EmptyString => EmptyString
  end.

Definition single_quote : ascii := Eval compute in ascii_of_nat 39.
Definition double_quote : ascii := Eval compute in ascii_of_nat 34.

Definition parseFirstToken (command : string) : option string :=
  match trim command with
  | EmptyString => None
  | String first rest =>
      if Ascii.eqb first double_quote || Ascii.eqb first single_quote then
        let inner := take_while (λ c, negb (Ascii.eqb c first)) rest in
        (* [indexOf] finds the quote after at least one character *)
        if has_char (Ascii.eqb first) rest && str_truthy inner then Some inner else Some rest
      else Some (take_while (λ c, negb (is_ws c)) (String first rest))
  end.

Section resolution.
Context `{Host}.

Definition tryResolveRealpath (filePath : option string) : option string := truthy filePath ≫= realpathSync.

Definition buildExecutableResolution (raw : string) (cwd : option string) (env : option Env) : ExecutableResolution :=
  let resolved := resolveExecutablePath raw cwd env in
  mkExecutable raw resolved (tryResolveRealpath resolved)
    (match truthy resolved with Some p => basename p | None => raw end).

Definition buildCommandResolution (raw : string) (policyRaw : option string) (cwd : option string) (env : option Env)
    (argv chain : list string) (blocked : bool) (blockedBy : option string) : CommandResolution :=
  let execution := buildExecutableResolution raw cwd env in
  mkResolution execution
    (match truthy policyRaw with Some p => buildExecutableResolution p cwd env | None => execution end)
    argv chain blocked blockedBy.

Definition resolveCommandResolution (command : string) (cwd : option string) (env : option Env) : option CommandResolution :=
  match truthy (parseFirstToken command) with
  | Some raw => Some (buildCommandResolution raw None cwd env [raw] [] false None)
  | None => None
  end.

Definition resolveCommandResolutionFromArgv (argv : list string) (cwd : option string) (env : option Env)
    : option CommandResolution :=
  let plan := resolveExecWrapperTrustPlan argv MAX_DISPATCH_WRAPPER_DEPTH in
  match token0 (tp_argv plan) with
  | None => None
  | Some raw =>
      Some (buildCommandResolution raw (trim <$> List.hd_error (tp_policyArgv plan)) cwd env (tp_argv plan)
        (tp_wrapperChain plan) (tp_policyBlocked plan) (tp_blockedWrapper plan))
  end.

Definition resolveExecutableCandidatePathFromResolution (resolution : option ExecutableResolution) (cwd : option string)
    : option string :=
  match resolution with
  | None => None
  | Some r =>
      match truthy (resolvedPath r) with
      | Some p => Some p
      | None =>
          match nonblank (rawExecutable r) with
          | Some raw => resolveExecutablePathCandidate raw cwd None true
          | None => None
          end
      end
  end.

Definition resolveExecutionTargetResolution (resolution : option CommandResolution) : option ExecutableResolution :=
  execution <$> resolution.
Definition resolvePolicyTargetResolution (resolution : option CommandResolution) : option ExecutableResolution :=
  policy <$> resolution.
Definition resolveExecutionTargetCandidatePath (resolution : option CommandResolution) (cwd : option string) : option string :=
  resolveExecutableCandidatePathFromResolution (execution <$> resolution) cwd.
Definition resolvePolicyTargetCandidatePath (resolution : option CommandResolution) (cwd : option string) : option string :=
  resolveExecutableCandidatePathFromResolution (policy <$> resolution) cwd.
Definition resolveApprovalAuditCandidatePath (resolution : option CommandResolution) (cwd : option string) : option string :=
  resolvePolicyTargetCandidatePath resolution cwd.

(** ** Patterns of paths: exec-allowlist-pattern.ts *)

Definition replace_char (a b : ascii) (s : string) : string :=
  String.string_of_list_ascii (map (λ c, if Ascii.eqb c a then b else c) (String.list_ascii_of_string s)).

(** [value.replace(/\\\\/g, "/")]: pairs of backslashes. *)
Fixpoint replaceBackslashPairs (s : string) : string :=
  match s with
  | String a s1 =>
      match s1 with
      | String b s2 =>
          if Ascii.eqb a back_slash && Ascii.eqb b back_slash then String slash (replaceBackslashPairs s2)
          else String a (replaceBackslashPairs s1)
      | EmptyString => s
      end
  | EmptyString => s
  end.

(** [value.replace(/^\\\\[?.]\\/, "")] *)
Definition stripDevicePrefix (s : string) : string :=
  match s with
  | String a (String b (String c (String d rest))) =>
      if Ascii.eqb a back_slash && Ascii.eqb b back_slash && one_of "?." c && Ascii.eqb d back_slash then rest else s
  | _ => s
  end.

Definition normalizeMatchTarget (value : string) : string :=
  if is_win32 then lowered (replace_char back_slash slash (stripDevicePrefix value))
  else replaceBackslashPairs value.

Definition not_slash (c : ascii) : bool := negb (Ascii.eqb c slash).

(** One character of a pattern, case-insensitive on Windows. *)
Definition globLiteral (c : ascii) : regex :=
  if is_win32 then RChar (λ d, Ascii.eqb (lower_ascii d) (lower_ascii c)) else RChar (λ d, Ascii.eqb d c).

Fixpoint globRegex (pattern : string) : regex :=
  match pattern with
  | EmptyString => REmpty
  | String c rest =>
      if Ascii.eqb c "*"%char then
        match rest with
        | String d rest' =>
            if Ascii.eqb d "*"%char then RSeq (RStar RDot) (globRegex rest')
            else RSeq (RStar (RChar not_slash)) (globRegex rest)
        | EmptyString => RSeq (RStar (RChar not_slash)) (globRegex rest)
        end
      else if Ascii.eqb c "?"%char then RSeq (RChar not_slash) (globRegex rest)
      else RSeq (globLiteral c) (globRegex rest)
  end.

(** The expression that [compileGlobRegex] builds; its cache changes no result. *)
Definition compileGlobRegex (pattern : string) : regex := anchored (globRegex pattern).

Definition matchesExecAllowlistPattern (pattern target : string) : bool :=
  let trimmed := trim pattern in
  if negb (str_truthy trimmed) then false
  else
    let expanded := if starts_with trimmed "~" then expandHomePrefix trimmed None else trimmed in
    let hasWildcard := has_char (one_of "*?") expanded in
    let real s := if is_win32 && negb hasWildcard then default s (realpathSync s) else s in
    test (compileGlobRegex (normalizeMatchTarget (real expanded))) (normalizeMatchTarget (real target)).

(** ** The allowlist: matchAllowlist *)

Record ExecAllowlistEntry : Type := mkEntry {
  ae_id : option string;
  ae_pattern : string;
  ae_allowAlways : bool;             (* [source === "allow-always"] *)
  ae_commandText : option string;
  ae_argPattern : option string;
  ae_lastUsedAt : option Z;
  ae_lastUsedCommand : option string;
  ae_lastResolvedPath : option string;
}.

Definition oneTwo : regex := RChar (one_of "12").

Definition TRAILING_SHELL_REDIRECTIONS_RE : regex :=
  RCat [RPlus RSpace;
        RAlt (RCat [oneTwo; RLit ">&"; oneTwo]) (RCat [oneTwo; RLit ">/dev/null"]);
        RStar RSpace; REnd].

(** The match reaches the end of the string, so removing it takes a prefix. *)
Definition stripRedirection (s : string) : string :=
  match exec TRAILING_SHELL_REDIRECTIONS_RE s with
  | Some caps =>
      match capture caps 0 with
      | Some m => str_take (String.length s - String.length m) s
      | None => s
      end
  | None => s
  end.

Fixpoint redirectionLoop (fuel : nat) (prev : string) : string :=
  match fuel with
  | O => prev
  | S fuel' => let next := stripRedirection prev in if String.eqb next prev then next else redirectionLoop fuel' next
  end.

Definition stripTrailingRedirections (value : string) : string := redirectionLoop (S (String.length value)) value.

Definition nul : string := String Ascii.zero EmptyString.

Definition isWindowsName (platform : string) : bool := starts_with (lowered platform) "win".

Definition matchArgPattern (argPattern : string) (argv : list string) (platform : option string) : bool :=
  let zeroStyle := includes argPattern nul in
  let args := tail argv in
  let argsString :=
    if zeroStyle then match args with [] => nul +:+ nul | _ => join_with nul args +:+ nul end
    else join_with " " args in
  match compile_regexp argPattern with
  | None => false
  | Some matches =>
      if matches argsString then true
      else
        let backslashed := replace_char slash back_slash argsString in
        let stripped := stripTrailingRedirections argsString in
        if isWindowsName (default process_platform platform)
           && (negb (String.eqb backslashed argsString) && matches backslashed) then true
        else if negb zeroStyle && (negb (String.eqb stripped argsString) && matches stripped) then true
        else false
  end.

(** The loop over the entries: the first entry that matches, or the first whose path
    matches without a pattern of arguments. *)
Fixpoint matchEntries (entries : list ExecAllowlistEntry) (target : string) (argv : option (list string))
    (platform : option string) (useArgPattern : bool) (pathOnlyMatch : option ExecAllowlistEntry)
    : option ExecAllowlistEntry :=
  match entries with
  | [] => pathOnlyMatch
  | entry :: rest =>
      let pattern := trim (ae_pattern entry) in
      let next m := matchEntries rest target argv platform useArgPattern m in
      if negb (str_truthy pattern) then next pathOnlyMatch
      else if negb (has_char (λ c, is_win_slash c || Ascii.eqb c "~"%char) pattern) then next pathOnlyMatch
      else if negb (matchesExecAllowlistPattern pattern target) then next pathOnlyMatch
      else if negb useArgPattern then Some entry
      else
        match truthy (ae_argPattern entry) with
        | None => next (first_of pathOnlyMatch (Some entry))
        | Some argPattern =>
            if match argv with Some a => matchArgPattern argPattern a platform | None => false end
            then Some entry else next pathOnlyMatch
        end
  end.

Definition is_wildcard (entry : ExecAllowlistEntry) : bool :=
  String.eqb (trim (ae_pattern entry)) "*"
  && match truthy (ae_argPattern entry) with None => true | Some _ => false end.

Definition matchAllowlist (entries : list ExecAllowlistEntry) (resolution : option ExecutableResolution)
    (argv : option (list string)) (platform : option string) : option ExecAllowlistEntry :=
  match entries with
  | [] => None
  | _ =>
      match resolution with
      | None => None
      | Some r =>
          match List.find is_wildcard entries with
          | Some e => Some e
          | None =>
              match truthy (resolvedPath r) with
              | None => None
              | Some target =>
                  matchEntries entries target argv platform (isWindowsName (default process_platform platform)) None
              end
          end
      end
  end.

End resolution.

(** ** The redirections at the end of a command are removed until none is left *)

Lemma stripRedirection_shorter s : stripRedirection s ≠ s → (String.length (stripRedirection s) < String.length s)%nat.
Proof.
  unfold stripRedirection. destruct (exec _ s) as [caps|]; [|done]. destruct (capture caps 0) as [m|]; [|done].
  intros Hne. pose proof (str_take_length (String.length s - String.length m) s).
  destruct (decide (String.length m = 0)%nat) as [H0|H0].
  - exfalso. apply Hne, str_take_all. lia.
  - destruct (String.length s) eqn:E; [|lia]. destruct s; [|done]. exfalso. apply Hne. by rewrite str_take_all.
Qed.

Lemma redirectionLoop_done fuel s :
  (String.length s < fuel)%nat → stripRedirection (redirectionLoop fuel s) = redirectionLoop fuel s.
Proof.
  revert s. induction fuel as [|fuel IH]; intros s Hlen; [lia|]. cbn [redirectionLoop].
  destruct (String.eqb _ _) eqn:E; [apply String.eqb_eq in E; by rewrite E|]. apply IH.
  apply String.eqb_neq, stripRedirection_shorter in E. lia.
Qed.

Lemma stripTrailingRedirections_done s : stripRedirection (stripTrailingRedirections s) = stripTrailingRedirections s.
Proof. apply redirectionLoop_done. lia. Qed.

(** ** What a pattern matches *)

Inductive glob (same : ascii → ascii → bool) : string → string → Prop :=
| glob_nil : glob same EmptyString EmptyString
| glob_star p seg t :
    starts_with p "*" = false → str_all not_slash seg = true → glob same p t → glob same (String "*"%char p) (seg +:+ t)
| glob_star_star p seg t :
    str_all (λ c, negb (is_newline c)) seg = true → glob same p t →
    glob same (String "*"%char (String "*"%char p)) (seg +:+ t)
| glob_question p c t : not_slash c = true → glob same p t → glob same (String "?"%char p) (String c t)
| glob_char c d p t :
    Ascii.eqb c "*"%char = false → Ascii.eqb c "?"%char = false → same d c = true → glob same p t →
    glob same (String c p) (String d t).

Lemma plain_globRegex `{Host} p : plain (globRegex p) = true.
Proof.
  remember (String.length p) as n eqn:Hn. revert p Hn. induction n as [n IH] using lt_wf_ind. intros p ->.
  destruct p as [|c p]; [done|]. assert (plain (globRegex p) = true) as Hp by (apply (IH (String.length p)); [cbn; lia|done]).
  cbn [globRegex]. destruct (Ascii.eqb c "*"%char).
  - destruct p as [|d p]; [done|]. destruct (Ascii.eqb d "*"%char); [|done]. cbn. apply (IH (String.length p)); [cbn; lia|done].
  - destruct (Ascii.eqb c "?"%char); [done|]. cbn. unfold globLiteral. by destruct is_win32.
Qed.

Definition same_char `{Host} (d c : ascii) : bool :=
  if is_win32 then Ascii.eqb (lower_ascii d) (lower_ascii c) else Ascii.eqb d c.

Lemma lang_globLiteral `{Host} c s : lang (globLiteral c) s ↔ ∃ d, s = String d EmptyString ∧ same_char d c = true.
Proof.
  unfold globLiteral, same_char. destruct is_win32; (split;
    [intros Hl; inversion Hl as [|? d Hd| | | | | |]; subst; by exists d|intros (d & -> & Hd); by constructor]).
Qed.

(** The expression compiled for a pattern denotes what the pattern matches. *)
Lemma lang_globRegex `{Host} p t : lang (globRegex p) t ↔ glob same_char p t.
Proof.
  split.
  - remember (String.length p) as n eqn:Hn. revert p t Hn. induction n as [n IH] using lt_wf_ind. intros p t ->.
    destruct p as [|c p]; intros Hl; [inversion Hl; constructor|].
    assert (∀ p' t, (String.length p' <= String.length p)%nat → lang (globRegex p') t → glob same_char p' t) as IH'.
    { intros p' t' Hlen. apply (IH (String.length p')); [cbn; lia|done]. }
    clear IH. cbn [globRegex] in Hl. destruct (Ascii.eqb c "*"%char) eqn:Es.
    + apply Ascii.eqb_eq in Es as ->.
      assert (lang (RSeq (RStar (RChar not_slash)) (globRegex p)) t → starts_with p "*" = false →
        glob same_char (String "*"%char p) t) as Hstar.
      { intros (u & v & -> & Hu%lang_star_char & Hv)%lang_seq_inv Hns. constructor; [done|done|by apply IH']. }
      destruct p as [|d p]; [by apply Hstar|]. destruct (Ascii.eqb d "*"%char) eqn:Ed.
      * apply Ascii.eqb_eq in Ed as ->. apply lang_seq_inv in Hl as (u & v & -> & Hu%lang_star_char & Hv).
        constructor; [done|]. apply IH'; [cbn; lia|done].
      * apply Hstar; [done|]. by destruct d as [[] [] [] [] [] [] [] []]; vm_compute in Ed |- *.
    + destruct (Ascii.eqb c "?"%char) eqn:Eq.
      * apply Ascii.eqb_eq in Eq as ->. apply lang_seq_inv in Hl as (u & v & -> & (d & -> & Hd)%lang_char_inv & Hv).
        constructor; [done|by apply IH'].
      * apply lang_seq_inv in Hl as (u & v & -> & (d & -> & Hd)%lang_globLiteral & Hv). constructor; [done..|by apply IH'].
  - induction 1 as [|p seg t Hns Hseg _ IH|p seg t Hseg _ IH|p c t Hc _ IH|c d p t H1 H2 Hs _ IH].
    + constructor.
    + cbn [globRegex]. change (Ascii.eqb "*" "*") with true. cbn iota.
      assert (lang (RSeq (RStar (RChar not_slash)) (globRegex p)) (seg +:+ t)) as Hl by (constructor; [by apply lang_star_char|done]).
      destruct p as [|d p]; [done|]. destruct (Ascii.eqb d "*"%char) eqn:Ed; [|done]. apply Ascii.eqb_eq in Ed as ->.
      unfold starts_with in Hns. cbn in Hns. by destruct p.
    + change (globRegex (String "*" (String "*" p))) with (RSeq (RStar RDot) (globRegex p)).
      constructor; [by apply lang_star_char|done].
    + change (String c t) with (String c EmptyString +:+ t). constructor; [by constructor|done].
    + cbn [globRegex]. rewrite H1, H2. change (String d t) with (String d EmptyString +:+ t). constructor; [|done].
      apply lang_globLiteral. by exists d.
Qed.

Lemma compileGlobRegex_glob `{Host} p t : test (compileGlobRegex p) t = true ↔ glob same_char p t.
Proof. unfold compileGlobRegex. rewrite test_anchored by apply plain_globRegex. apply lang_globRegex. Qed.

(** C12. On hosts other than Windows, a pattern that is not blank
    ([matchesExecAllowlistPattern], and the expression that [compileGlobRegex] builds)
    matches exactly the paths of the glob it writes: a star within one component, two
    stars across them, a question mark for one character other than a slash, every other
    character for itself, after the expansion of the home directory. Letters match by
    their case ([patterns_are_case_sensitive]; docs/tools/exec-approvals.md says that they
    do not). The pattern that is a star alone never gets here: [matchAllowlist] takes it
    for every program. *)
Theorem allowlist_pattern_is_a_glob `{Host} pattern target :
  is_win32 = false → str_truthy (trim pattern) = true →
  matchesExecAllowlistPattern pattern target = true
  ↔ glob Ascii.eqb
      (replaceBackslashPairs (if starts_with (trim pattern) "~" then expandHomePrefix (trim pattern) None else trim pattern))
      (replaceBackslashPairs target).
Proof.
  intros Hw Ht. unfold matchesExecAllowlistPattern, normalizeMatchTarget. rewrite Ht, Hw. cbn [negb andb]. cbv zeta.
  rewrite compileGlobRegex_glob. unfold same_char. by rewrite Hw.
Qed.

Lemma patterns_are_case_sensitive `{Host} :
  is_win32 = false →
  matchesExecAllowlistPattern "/opt/Tool" "/opt/tool" = false ∧ matchesExecAllowlistPattern "/opt/Tool" "/opt/Tool" = true.
Proof.
  intros Hw. unfold matchesExecAllowlistPattern, normalizeMatchTarget. rewrite Hw. cbn [negb andb].
  split; [apply not_true_iff_false; intros Ht|].
  - apply compileGlobRegex_glob in Ht. unfold same_char in Ht. rewrite Hw in Ht. vm_compute in Ht.
    repeat match goal with Hg : glob _ _ _ |- _ => inversion Hg; clear Hg; subst; try discriminate end.
  - apply compileGlobRegex_glob. unfold same_char. rewrite Hw.
    cbn. repeat (apply glob_char; [reflexivity..|]). apply glob_nil.
Qed.

Lemma allowlist_pattern_is_a_glob_witness :
  let posix : Host :=
    {| host_process := {| process_platform := "linux" |}; win32_path := posix_path; process_cwd := "/";
       process_env := λ _, None; os_homedir := Some "/home/me"; stat_isFile := λ _, false;
       access_executable := λ _, false; realpathSync := λ _, None; compile_regexp := λ _, None |} in
  @matchesExecAllowlistPattern posix " ~/bin/* " "/home/me/bin/run" = true
  ∧ @matchesExecAllowlistPattern posix "/usr/*/run" "/usr/local/bin/run" = false
  ∧ ¬ glob Ascii.eqb "/usr/*/run" "/usr/local/bin/run"
  ∧ glob Ascii.eqb "/usr/**/run" "/usr/local/bin/run".
Proof.
  intros posix. split; [vm_compute; reflexivity|]. split; [vm_compute; reflexivity|]. split.
  - intros Hg. pose proof (proj2 (@allowlist_pattern_is_a_glob posix "/usr/*/run" "/usr/local/bin/run" eq_refl eq_refl) Hg) as Ht.
    vm_compute in Ht. discriminate.
  - apply (@allowlist_pattern_is_a_glob posix "/usr/**/run" "/usr/local/bin/run" eq_refl eq_refl). vm_compute. reflexivity.
Defined.

End CommandResolution.
