(* ===== verification/InlineEval.v ===== *)
(** * Programs given to interpreters on the command line

    src/infra/exec-inline-eval.ts: which arguments of an interpreter or of a command
    carrier ([python -c], [find -exec], [xargs], [sed]) are a program, and which
    patterns of the allowlist name an interpreter. *)

From Stdlib Require Import Ascii.
From S2P Require Import Prelude JsRegex NodePath ExecWrappers.

#[local] Open Scope stdpp_scope.

Module InlineEval.
Export ExecWrappers.

Record InterpreterInlineEvalHit : Type := mkHit {
  hit_executable : string;
  hit_normalizedExecutable : string;
  hit_flag : string;
  hit_argv : list string;
}.

Record PrefixFlagSpec : Type := mkPrefixFlag { pf_label : string; pf_prefix : string }.

Record InterpreterFlagSpec : Type := mkFlagSpec {
  fs_names : list string;
  fs_exactFlags : list string;
  fs_rawExactFlags : list string;               (* each its own label *)
  fs_rawPrefixFlags : list PrefixFlagSpec;
  fs_prefixFlags : list PrefixFlagSpec;
  fs_scanPastDoubleDash : bool;
}.

Record PositionalInterpreterSpec : Type := mkPositionalSpec {
  ps_names : list string;
  ps_fileFlags : list string;
  ps_fileFlagPrefixes : list string;
  ps_exactValueFlags : list string;
  ps_exactOptionalValueFlags : list string;
  ps_prefixValueFlags : list string;
  ps_flag : string;
}.

Definition exactly (names flags : list string) : InterpreterFlagSpec := mkFlagSpec names flags [] [] [] false.

Definition AWKS : list string := ["awk"; "gawk"; "mawk"; "nawk"].

Definition FLAG_INTERPRETER_INLINE_EVAL_SPECS : list InterpreterFlagSpec :=
  [ exactly ["python"; "python2"; "python3"; "pypy"; "pypy3"] ["-c"];
    exactly ["node"; "nodejs"; "bun"; "deno"] ["-e"; "--eval"; "-p"; "--print"];
    mkFlagSpec AWKS ["-e"; "--source"] [] [] [mkPrefixFlag "--source" "--source="] false;
    exactly ["ruby"] ["-e"];
    exactly ["perl"] ["-e"; "-E"];
    exactly ["php"] ["-r"];
    exactly ["lua"] ["-e"];
    exactly ["osascript"] ["-e"];
    mkFlagSpec ["find"] ["-exec"; "-execdir"; "-ok"; "-okdir"] [] [] [] true;
    mkFlagSpec ["make"; "gmake"] ["-f"; "--file"; "--makefile"; "--eval"] ["-E"] [mkPrefixFlag "-E" "-E"]
      [mkPrefixFlag "-f" "-f"; mkPrefixFlag "--file" "--file="; mkPrefixFlag "--makefile" "--makefile=";
       mkPrefixFlag "--eval" "--eval="] false;
    mkFlagSpec ["sed"; "gsed"] [] ["-e"] [mkPrefixFlag "-e" "-e"] [] false ].

Definition POSITIONAL_INTERPRETER_INLINE_EVAL_SPECS : list PositionalInterpreterSpec :=
  [ mkPositionalSpec AWKS ["-f"; "--file"] ["-f"; "--file="]
      ["-f"; "--file"; "-F"; "--field-separator"; "-v"; "--assign"; "-i"; "--include"; "-l"; "--load"; "-W"] []
      ["-F"; "--field-separator="; "-v"; "--assign="; "--include="; "--load="] "<program>";
    mkPositionalSpec ["xargs"] [] []
      ["-a"; "--arg-file"; "-d"; "--delimiter"; "-E"; "-I"; "-L"; "--max-lines"; "-n"; "--max-args"; "-P"; "--max-procs";
       "-s"; "--max-chars"] ["--eof"; "--replace"]
      ["-a"; "--arg-file="; "-d"; "--delimiter="; "-E"; "--eof="; "-I"; "--replace="; "-i"; "-L"; "--max-lines="; "-l";
       "-n"; "--max-args="; "-P"; "--max-procs="; "-s"; "--max-chars="] "<command>";
    mkPositionalSpec ["sed"; "gsed"] ["-f"; "--file"] ["-f"; "--file="]
      ["-f"; "--file"; "-l"; "--line-length"] ["-i"; "--in-place"]
      ["-f"; "--file="; "--in-place="; "--line-length="] "<program>" ].

Definition INTERPRETER_ALLOWLIST_NAMES : list string :=
  flat_map fs_names FLAG_INTERPRETER_INLINE_EVAL_SPECS ++ flat_map ps_names POSITIONAL_INTERPRETER_INLINE_EVAL_SPECS.

Definition findInterpreterSpec (executable : string) : option InterpreterFlagSpec :=
  List.find (λ spec, set_has (fs_names spec) (normalizeExecutableToken executable)) FLAG_INTERPRETER_INLINE_EVAL_SPECS.

Definition findPositionalInterpreterSpec (executable : string) : option PositionalInterpreterSpec :=
  List.find (λ spec, set_has (ps_names spec) (normalizeExecutableToken executable))
    POSITIONAL_INTERPRETER_INLINE_EVAL_SPECS.

(** [token.startsWith(prefix) && token.length > prefix.length] *)
Definition longer_than (token prefix : string) : bool :=
  starts_with token prefix && (String.length prefix <? String.length token)%nat.

Definition prefixFlag (specs : list PrefixFlagSpec) (token : string) : option string :=
  pf_label <$> List.find (λ spec, longer_than token (pf_prefix spec)) specs.

(** The flag of a token, tested in the order of the source. *)
Definition tokenFlag (spec : InterpreterFlagSpec) (token : string) : option string :=
  if set_has (fs_rawExactFlags spec) token then Some token
  else
    match prefixFlag (fs_rawPrefixFlags spec) token with
    | Some label => Some label
    | None =>
        let low := lowered token in
        if set_has (fs_exactFlags spec) low then Some low else prefixFlag (fs_prefixFlags spec) low
    end.

Fixpoint flagScan (spec : InterpreterFlagSpec) (args : list string) : option string :=
  match args with
  | [] => None
  | raw :: rest =>
      let token := trim raw in
      if negb (str_truthy token) then flagScan spec rest
      else if String.eqb token "--" then if fs_scanPastDoubleDash spec then flagScan spec rest else None
      else match tokenFlag spec token with Some flag => Some flag | None => flagScan spec rest end
  end.

Fixpoint positionalScan (spec : PositionalInterpreterSpec) (args : list string) : option string :=
  match args with
  | [] => None
  | raw :: rest =>
      let token := trim raw in
      if negb (str_truthy token) then positionalScan spec rest
      else if String.eqb token "--" then
        match rest with
        | next :: _ => if str_truthy (trim next) then Some (ps_flag spec) else None
        | [] => None
        end
      else if set_has (ps_fileFlags spec) token then None
      else if existsb (longer_than token) (ps_fileFlagPrefixes spec) then None
      else if set_has (ps_exactValueFlags spec) token then
        match rest with _ :: rest' => positionalScan spec rest' | [] => None end
      else if set_has (ps_exactOptionalValueFlags spec) token then positionalScan spec rest
      else if existsb (longer_than token) (ps_prefixValueFlags spec) then positionalScan spec rest
      else if starts_with token "-" then positionalScan spec rest
      else Some (ps_flag spec)
  end.

Definition detectInterpreterInlineEvalArgv (argv : list string) : option InterpreterInlineEvalHit :=
  match token0 argv with
  | None => None
  | Some executable =>
      let hit flag := mkHit executable (normalizeExecutableToken executable) flag argv in
      match findInterpreterSpec executable ≫= λ spec, flagScan spec (tail argv) with
      | Some flag => Some (hit flag)
      | None => hit <$> (findPositionalInterpreterSpec executable ≫= λ spec, positionalScan spec (tail argv))
      end
  end.

Definition describeInterpreterInlineEval (hit : InterpreterInlineEvalHit) : string :=
  if String.eqb (hit_flag hit) "<command>" then hit_normalizedExecutable hit +:+ " inline command"
  else if String.eqb (hit_flag hit) "<program>" then hit_normalizedExecutable hit +:+ " inline program"
  else hit_normalizedExecutable hit +:+ " " +:+ hit_flag hit.

Definition drop_chars (f : ascii → bool) (s : string) : string :=
  String.string_of_list_ascii (List.filter (λ c, negb (f c)) (String.list_ascii_of_string s)).

Definition slashes (s : string) : string :=
  String.string_of_list_ascii (map (λ c, if Ascii.eqb c back_slash then slash else c) (String.list_ascii_of_string s)).

Definition isInterpreterLikeAllowlistPattern (pattern : option string) : bool :=
  let trimmed := StringCoerce.normalizeLowercaseStringOrEmpty pattern in
  if negb (str_truthy trimmed) then false
  else if set_has INTERPRETER_ALLOWLIST_NAMES (normalizeExecutableToken trimmed) then true
  else
    let basename := List.last (split_on slash (slashes trimmed)) EmptyString in
    let withoutExe := if ends_with basename ".exe" then str_take (String.length basename - 4) basename else basename in
    set_has INTERPRETER_ALLOWLIST_NAMES (drop_chars (one_of "*?[]{}()") withoutExe).

Example inline_evals :
  option_map hit_flag (detectInterpreterInlineEvalArgv ["python3.exe"; "-B"; "-c"; "1"]) = Some "-c"
  ∧ option_map hit_flag (detectInterpreterInlineEvalArgv ["awk"; "-F"; ":"; "{print}"]) = Some "<program>"
  ∧ option_map hit_flag (detectInterpreterInlineEvalArgv ["awk"; "-f"; "x.awk"]) = None
  ∧ option_map hit_flag (detectInterpreterInlineEvalArgv ["xargs"; "-n"; "1"; "rm"]) = Some "<command>"
  ∧ isInterpreterLikeAllowlistPattern (Some "/usr/bin/Python*") = true.
Proof. vm_compute. auto 10. Qed.

(** Combined short options hide a program: [perl -ne] and [node -pe] are not seen. *)
Example combined_flags_not_seen :
  detectInterpreterInlineEvalArgv ["perl"; "-ne"; "system(1)"] = None
  ∧ detectInterpreterInlineEvalArgv ["node"; "-pe"; "1"] = None ∧ detectInterpreterInlineEvalArgv ["python3"; "-Ic"; "1"] = None.
Proof. vm_compute. auto. Qed.

End InlineEval.
