(* ===== verification/ShellAnalysis.v ===== *)
(** * The analysis of commands, and commands rebuilt from it

    src/infra/exec-approvals-analysis.ts: [analyzeShellCommand] and
    [analyzeArgvCommand], which take a command apart into segments with the program each
    runs, and the builders that put an analysed command back together with its
    arguments quoted. The shell reads an enforced command as the planned argument
    vectors, every character literal. *)

From Stdlib Require Import Ascii.
From S2P Require Import Prelude JsRegex ShellSyntax WindowsShell ShellReading NodePath ExecWrappers CommandResolution.

#[local] Open Scope stdpp_scope.

Module ShellAnalysis.
Export ShellSyntax WindowsShell ShellReading CommandResolution.

Record ExecCommandSegment : Type := mkSegment {
  seg_raw : string;
  seg_argv : list string;
  seg_resolution : option CommandResolution;
}.

Record ExecCommandAnalysis : Type := mkAnalysis {
  an_ok : bool;
  an_reason : option string;
  an_segments : list ExecCommandSegment;
  an_chains : option (list (list ExecCommandSegment));
}.

Definition failedAnalysis (reason : string) : ExecCommandAnalysis := mkAnalysis false (Some reason) [] None.

Definition isWindowsPlatform (platform : option string) : bool :=
  starts_with (StringCoerce.normalizeLowercaseStringOrEmpty platform) "win".

Section analysis.
Context `{Host}.

(** ** Analysis *)

Definition parseSegment (cwd : option string) (env : option Env) (raw : string) : option ExecCommandSegment :=
  match splitShellArgs raw with
  | Some (v :: vs) => Some (mkSegment raw (v :: vs) (resolveCommandResolutionFromArgv (v :: vs) cwd env))
  | _ => None
  end.

Definition parseSegmentsFromParts (parts : list string) (cwd : option string) (env : option Env)
    : option (list ExecCommandSegment) := mapM (parseSegment cwd env) parts.

Definition analyzeWindowsShellCommand (command : string) (cwd : option string) (env : option Env) : ExecCommandAnalysis :=
  let effective := stripWindowsShellWrapper (trim command) in
  match findWindowsUnsupportedToken effective with
  | Some unsupported => failedAnalysis ("unsupported windows shell token: " +:+ unsupported)
  | None =>
      match tokenizeWindowsSegment effective with
      | Some (v :: vs) =>
          mkAnalysis true None
            [mkSegment command (v :: vs) (resolveCommandResolutionFromArgv (v :: vs) cwd env)] None
      | _ => failedAnalysis "unable to parse windows command"
      end
  end.

(** The segments of one pipeline. *)
Definition analyzePipeline (command : string) (cwd : option string) (env : option Env)
    : list ExecCommandSegment + string :=
  match splitShellPipeline command with
  | Refused reason => inr reason
  | Accepted segments =>
      match parseSegmentsFromParts segments cwd env with
      | Some segs => inl segs
      | None => inr "unable to parse shell segment"
      end
  end.

Fixpoint analyzeChain (parts : list string) (cwd : option string) (env : option Env)
    : list (list ExecCommandSegment) + string :=
  match parts with
  | [] => inl []
  | part :: rest =>
      match analyzePipeline part cwd env with
      | inr reason => inr reason
      | inl segs =>
          match analyzeChain rest cwd env with
          | inr reason => inr reason
          | inl chains => inl (segs :: chains)
          end
      end
  end.

Definition analyzeShellCommand (command : string) (cwd : option string) (env : option Env) (platform : option string)
    : ExecCommandAnalysis :=
  if isWindowsPlatform platform then analyzeWindowsShellCommand command cwd env
  else
    match splitCommandChain command with
    | Some chainParts =>
        match analyzeChain chainParts cwd env with
        | inr reason => failedAnalysis reason
        | inl chains => mkAnalysis true None (concat chains) (Some chains)
        end
    | None =>
        match analyzePipeline command cwd env with
        | inr reason => failedAnalysis reason
        | inl segments => mkAnalysis true None segments None
        end
    end.

Definition analyzeArgvCommand (argv : list string) (cwd : option string) (env : option Env) : ExecCommandAnalysis :=
  match List.filter (λ entry, str_truthy (trim entry)) argv with
  | [] => failedAnalysis "empty argv"
  | argv' => mkAnalysis true None [mkSegment (join_with " " argv') argv' (resolveCommandResolutionFromArgv argv' cwd env)] None
  end.

(** ** Planned argument vectors *)

Definition replace_head (argv : list string) (x : string) : list string :=
  match argv with _ :: rest => x :: rest | [] => [] end.

Definition resolvePlannedSegmentArgv (segment : ExecCommandSegment) : option (list string) :=
  let blocked := match seg_resolution segment with Some r => policyBlocked r | None => false end in
  if blocked then None
  else
    let baseArgv :=
      match seg_resolution segment with
      | Some r => match effectiveArgv r with [] => seg_argv segment | argv => argv end
      | None => seg_argv segment
      end in
    match baseArgv with
    | [] => None
    | _ =>
        let execution := execution <$> seg_resolution segment in
        let resolvedExecutable :=
          default EmptyString (first_of (trim <$> (execution ≫= resolvedRealPath)) (trim <$> (execution ≫= resolvedPath))) in
        Some (if str_truthy resolvedExecutable then replace_head baseArgv resolvedExecutable else baseArgv)
    end.

(** ** Rebuilding *)

Definition Rendered : Type := analysis string.

Fixpoint renderSegments (render : string → nat → Rendered) (segments : list string) (segmentCount : nat)
    : analysis (list string * nat) :=
  match segments with
  | [] => Accepted ([], segmentCount)
  | raw :: rest =>
      match render raw segmentCount with
      | Refused reason => Refused reason
      | Accepted text =>
          match renderSegments render rest (S segmentCount) with
          | Refused reason => Refused reason
          | Accepted (texts, n) => Accepted (text :: texts, n)
          end
      end
  end.

Definition operatorText (op : option ShellChainOperator) : string :=
  match op with Some op => " " +:+ chainOperatorText op +:+ " " | None => EmptyString end.

Fixpoint rebuildParts (render : string → nat → Rendered) (parts : list ShellChainPart) (segmentCount : nat)
    : analysis (string * nat) :=
  match parts with
  | [] => Accepted (EmptyString, segmentCount)
  | part :: rest =>
      match splitShellPipeline (ShellSyntax.part part) with
      | Refused reason => Refused reason
      | Accepted segments =>
          match renderSegments render segments segmentCount with
          | Refused reason => Refused reason
          | Accepted (texts, n) =>
              match rebuildParts render rest n with
              | Refused reason => Refused reason
              | Accepted (out, n') => Accepted (join_with " | " texts +:+ operatorText (opToNext part) +:+ out, n')
              end
          end
      end
  end.

Definition rebuildWindowsShellCommandFromSource (command : string) (render : string → nat → Rendered)
    : analysis (string * nat) :=
  let source := stripWindowsShellWrapper (trim command) in
  if negb (str_truthy source) then Refused "empty command"
  else
    match findWindowsUnsupportedToken source with
    | Some unsupported => Refused ("unsupported windows shell token: " +:+ unsupported)
    | None =>
        match render source 0%nat with
        | Refused reason => Refused reason
        | Accepted text => Accepted ("& " +:+ text, 1%nat)
        end
    end.

Definition rebuildShellCommandFromSource (command : string) (platform : option string) (render : string → nat → Rendered)
    : analysis (string * nat) :=
  if isWindowsPlatform platform then rebuildWindowsShellCommandFromSource command render
  else
    let source := trim command in
    if negb (str_truthy source) then Refused "empty command"
    else rebuildParts render (default [mkPart source None] (splitCommandChainWithOperators source)) 0.

Definition finalizeRebuiltShellCommand (rebuilt : analysis (string * nat)) (expectedSegmentCount : option nat)
    : analysis string :=
  match rebuilt with
  | Refused reason => Refused reason
  | Accepted (command, n) =>
      match expectedSegmentCount with
      | Some expected => if (n =? expected)%nat then Accepted command else Refused "segment count mismatch"
      | None => Accepted command
      end
  end.

Definition buildSafeShellCommand (command : string) (platform : option string) : analysis string :=
  let isWindows := isWindowsPlatform platform in
  finalizeRebuiltShellCommand
    (rebuildShellCommandFromSource command platform (λ segmentRaw _,
      match default [] (if isWindows then tokenizeWindowsSegment segmentRaw else splitShellArgs segmentRaw) with
      | [] => Refused "unable to parse shell segment"
      | argv => if isWindows then renderWindowsQuotedArgv argv else Accepted (quoted_command argv)
      end)) None.

Definition renderQuotedArgv (argv : list string) (platform : option string) : option string :=
  if isWindowsPlatform platform then
    match renderWindowsQuotedArgv argv with Accepted text => Some text | Refused _ => None end
  else Some (quoted_command argv).

Definition renderSafeBinSegmentArgv (segment : ExecCommandSegment) (platform : option string) : option string :=
  match resolvePlannedSegmentArgv segment with
  | None | Some [] => None
  | Some argv => renderQuotedArgv argv platform
  end.

Inductive ExecSegmentSatisfiedBy : Type := ByAllowlist | BySafeBins | BySkills | BySkillPrelude.

Definition safeBinsRender (segments : list ExecCommandSegment) (satisfiedBy : list (option ExecSegmentSatisfiedBy))
    (platform : option string) (raw : string) (segmentIndex : nat) : Rendered :=
  match segments !! segmentIndex, satisfiedBy !! segmentIndex with
  | Some seg, Some by_ =>
      match by_ with
      | Some BySafeBins =>
          match truthy (renderSafeBinSegmentArgv seg platform) with
          | Some text => Accepted text
          | None => Refused "segment execution plan unavailable"
          end
      | _ => Accepted (trim raw)
      end
  | _, _ => Refused "segment mapping failed"
  end.

Definition buildSafeBinsShellCommand (command : string) (segments : list ExecCommandSegment)
    (satisfiedBy : list (option ExecSegmentSatisfiedBy)) (platform : option string) : analysis string :=
  if negb (length segments =? length satisfiedBy)%nat then Refused "segment metadata mismatch"
  else
    finalizeRebuiltShellCommand
      (rebuildShellCommandFromSource command platform (safeBinsRender segments satisfiedBy platform))
      (Some (length segments)).

Definition enforcedRender (segments : list ExecCommandSegment) (platform : option string) (_ : string) (segmentIndex : nat)
    : Rendered :=
  match segments !! segmentIndex with
  | None => Refused "segment mapping failed"
  | Some seg =>
      match resolvePlannedSegmentArgv seg with
      | None => Refused "segment execution plan unavailable"
      | Some argv =>
          match truthy (renderQuotedArgv argv platform) with
          | None => Refused "unsafe windows token in argv"
          | Some text => Accepted text
          end
      end
  end.

Definition buildEnforcedShellCommand (command : string) (segments : list ExecCommandSegment) (platform : option string)
    : analysis string :=
  finalizeRebuiltShellCommand
    (rebuildShellCommandFromSource command platform (enforcedRender segments platform)) (Some (length segments)).

End analysis.

(** ** What the shell reads of an enforced command *)

(** Lists with separators between them. *)
Fixpoint between {A} (rs : list (list A)) (seps : list A) : list A :=
  match rs, seps with
  | [], _ => []
  | r :: rs', sep :: seps' => r ++ sep :: between rs' seps'
  | r :: rs', [] => r ++ between rs' []
  end.

Fixpoint joined {A} (sep : A) (rs : list (list A)) : list A :=
  match rs with
  | [] => []
  | [r] => r
  | r :: rs' => r ++ sep :: joined sep rs'
  end.

Definition op_token (op : ShellChainOperator) : stoken := TOp (chainOperatorText op).
Definition pipe_token : stoken := TOp "|".

(** A word in which every character is literal. *)
Definition literal_word (v : string) : stoken := TWord (literal v).

Definition literal_pipeline (argvs : list (list string)) : list stoken :=
  joined pipe_token (map (map literal_word) argvs).

Lemma joined_cons {A} (sep : A) r rs : rs ≠ [] → joined sep (r :: rs) = r ++ sep :: joined sep rs.
Proof. by destruct rs. Qed.

(** No dollar sign is active in literal words and operators. *)
Lemma literal_tokens_inactive groups ops :
  forallb (token_all not_active_dollar) (between (map literal_pipeline groups) (map op_token ops)) = true.
Proof.
  assert (∀ l l', forallb (token_all not_active_dollar) l = true → forallb (token_all not_active_dollar) l' = true →
    forallb (token_all not_active_dollar) (l ++ l') = true) as Happ by (intros l l' H H'; by rewrite forallb_app, H, H').
  assert (∀ argv, forallb (token_all not_active_dollar) (map literal_word argv) = true) as Hargv.
  { intros argv. apply forallb_forall. intros t (v & <- & _)%in_map_iff. unfold literal_word, literal. cbn.
    apply forallb_forall. by intros x (c & <- & _)%in_map_iff. }
  assert (∀ argvs, forallb (token_all not_active_dollar) (literal_pipeline argvs) = true) as Hpipe.
  { intros argvs. unfold literal_pipeline. induction argvs as [|argv argvs IH]; [done|]. destruct argvs; [apply Hargv|].
    cbn [map] in *. rewrite (joined_cons _ (map literal_word argv)) by done. apply Happ; [apply Hargv|exact IH]. }
  revert ops. induction groups as [|g groups IH]; intros [|op ops]; cbn [map between]; try done;
    (apply Happ; [apply Hpipe|]); [apply (IH [])|destruct op; cbn; apply IH].
Qed.

Lemma read_pipe rest : sh_read Plain None (" | " +:+ rest) = cons pipe_token <$> sh_read Plain None rest.
Proof. cbn. destruct (sh_read Plain None rest); reflexivity. Qed.

Lemma read_operator op rest :
  sh_read Plain None (operatorText (Some op) +:+ rest) = cons (op_token op) <$> sh_read Plain None rest.
Proof. destruct op; cbn; destruct (sh_read Plain None rest); reflexivity. Qed.

Lemma read_pipeline argvs rest :
  argvs ≠ [] → Forall (λ argv, argv ≠ []) argvs → separated rest →
  sh_read Plain None (join_with " | " (map quoted_command argvs) +:+ rest)
  = app (literal_pipeline argvs) <$> sh_read Plain None rest.
Proof.
  intros Hne Hall Hrest. unfold literal_pipeline. induction argvs as [|argv argvs IH]; [done|].
  apply Forall_cons in Hall as [Ha Hall]. destruct argvs as [|argv' argvs].
  - cbn [map join_with joined]. by rewrite sh_read_command.
  - cbn [map]. rewrite join_with_cons, !append_assoc by done. rewrite sh_read_command; [|done|right; by eexists].
    rewrite read_pipe. cbn [map] in IH. rewrite IH by done. rewrite (joined_cons pipe_token (map literal_word argv)) by done.
    destruct (sh_read Plain None rest); [|done]. cbn. by rewrite <- app_assoc.
Qed.

Lemma separated_operator op rest : separated (operatorText (Some op) +:+ rest).
Proof. right. by eexists. Qed.

Section enforced.
Context `{Host}.

(** The segments rendered from index [n] on, and those left. *)
Lemma renderSegments_enforced segments platform raws n texts m :
  isWindowsPlatform platform = false →
  renderSegments (enforcedRender segments platform) raws n = Accepted (texts, m) →
  m = (n + length raws)%nat ∧ ∃ segs argvs,
  drop n segments = segs ++ drop m segments ∧ mapM resolvePlannedSegmentArgv segs = Some argvs
  ∧ length argvs = length raws ∧ texts = map quoted_command argvs ∧ Forall (λ argv, argv ≠ []) argvs.
Proof.
  intros Hw. revert n texts. induction raws as [|raw raws IH]; intros n texts Hr; cbn in Hr.
  - injection Hr as <- <-. split; [cbn; lia|]. exists [], []. by split_and!.
  - unfold enforcedRender at 1 in Hr. destruct (segments !! n) as [seg|] eqn:Es; [|done].
    destruct (resolvePlannedSegmentArgv seg) as [argv|] eqn:Ea; [|done]. unfold renderQuotedArgv in Hr. rewrite Hw in Hr.
    destruct (truthy (Some (quoted_command argv))) as [text|] eqn:Et; [|done].
    destruct (renderSegments _ raws (S n)) as [[texts' m']|] eqn:Er; [|done]. injection Hr as <- <-.
    destruct (IH _ _ Er) as (-> & segs & argvs & Hd & Hm & Hl & -> & Hall). split; [cbn; lia|].
    exists (seg :: segs), (argv :: argvs).
    assert (text = quoted_command argv) as -> by (destruct (quoted_command argv); [done|]; by injection Et as <-).
    split_and!; [by rewrite (drop_S _ seg), Hd|cbn; by rewrite Ea, Hm|cbn; by rewrite Hl|done|].
    constructor; [|done]. intros ->. by cbn in Et.
Qed.

Lemma pipeline_nonempty command segs : splitShellPipeline command = Accepted segs → segs ≠ [].
Proof.
  unfold splitShellPipeline. destruct (scan _ _ _ _ _) as [?|st]; [done|]. unfold pipe_finish.
  repeat (destruct (_ || _); [done|]). destruct (p_segments _); [done|]. destruct (p_emptySegment _); [done|].
  by intros [= <-].
Qed.

Lemma mapM_app_Some {A B} (f : A → option B) l1 l2 k1 k2 :
  mapM f l1 = Some k1 → mapM f l2 = Some k2 → mapM f (l1 ++ l2) = Some (k1 ++ k2).
Proof. rewrite !mapM_Some. apply Forall2_app. Qed.

(** Parts of a chain carry an operator exactly when another part follows. *)
Fixpoint chain_shaped (parts : list ShellChainPart) : Prop :=
  match parts with
  | [] => False
  | [p] => opToNext p = None
  | p :: rest => opToNext p ≠ None ∧ chain_shaped rest
  end.

Lemma rebuildParts_enforced segments platform parts n out m :
  isWindowsPlatform platform = false → chain_shaped parts →
  rebuildParts (enforcedRender segments platform) parts n = Accepted (out, m) →
  ∃ segs groups, drop n segments = segs ++ drop m segments
  ∧ mapM resolvePlannedSegmentArgv segs = Some (concat groups) ∧ length groups = length parts
  ∧ sh_read Plain None out = Some (between (map literal_pipeline groups) (map op_token (omap opToNext parts))).
Proof.
  intros Hw. revert n out. induction parts as [|p parts IH]; intros n out Hshape Hr; [done|]. cbn [rebuildParts] in Hr.
  destruct (splitShellPipeline (part p)) as [raws|] eqn:Ep; [|done].
  destruct (renderSegments _ raws n) as [[texts k]|] eqn:Er; [|done].
  destruct (rebuildParts _ parts k) as [[out' m']|] eqn:Eo; [|done]. injection Hr as <- <-.
  destruct (renderSegments_enforced _ _ _ _ _ _ Hw Er) as (_ & segs & argvs & Hd & Hm & Hlen & -> & Hall).
  assert (argvs ≠ []) as Hne by (intros ->; apply pipeline_nonempty in Ep; by destruct raws).
  destruct parts as [|p' parts].
  - cbn in Hshape, Eo. injection Eo as <- <-. exists segs, [argvs]. rewrite Hshape. cbn [operatorText].
    split_and!; [done|cbn; by rewrite app_nil_r|done|].
    rewrite read_pipeline by (done || by left). cbn. rewrite Hshape. cbn. by rewrite !app_nil_r.
  - destruct Hshape as [Hop Hshape]. destruct (opToNext p) as [op|] eqn:Eop; [|done].
    destruct (IH _ _ Hshape Eo) as (segs' & groups & Hd' & Hm' & Hlg & Hread). exists (segs ++ segs'), (argvs :: groups).
    split_and!; [by rewrite Hd, Hd', app_assoc|cbn [concat]; by apply mapM_app_Some|cbn; by rewrite Hlg|].
    rewrite read_pipeline by (done || apply separated_operator). rewrite read_operator, Hread. cbn [omap list_omap].
    rewrite Eop. done.
Qed.

(** Parts pushed by the scanner carry an operator. *)
Definition operated (st : ChainState) : Prop := Forall (λ p, opToNext p ≠ None) (c_parts st).

Lemma operated_operator op st : operated st → operated (c_operator op st).
Proof.
  unfold operated, c_operator. intros Hst. destruct (trim (c_buf st)); [done|]. apply Forall_app. split; [done|].
  by repeat constructor.
Qed.

Lemma chain_body_operated prev c rest st :
  operated st →
  match chain_body prev c rest st with Continue _ st' | Break st' => operated st' | Return e => False end.
Proof.
  intros Hst. pose proof (λ op, operated_operator op st Hst) as Hop. unfold chain_body.
  repeat match goal with
    | |- context [match ?x with _ => _ end] =>
        lazymatch type of x with flow _ _ => fail | _ => destruct x end
    end; first [exact Hst | apply Hop].
Qed.

Lemma chain_scan_operated s prev skip st st' :
  operated st → scan chain_body prev skip s st = inr st' → operated st'.
Proof.
  revert prev skip st. induction s as [|c s IH]; intros prev skip st Hst Hs; cbn in Hs; [by injection Hs as <-|].
  destruct skip; [|by eapply IH]. pose proof (chain_body_operated prev c s st Hst) as Hb.
  destruct (chain_body prev c s st) as [n st1|st1|[]]; [by eapply IH|by injection Hs as <-].
Qed.

Lemma chain_parts_shaped command parts :
  splitCommandChainWithOperators command = Some parts → chain_shaped parts.
Proof.
  unfold splitCommandChainWithOperators. destruct (scan chain_body None 0 command chain_start) as [[]|st] eqn:Es.
  destruct (negb (c_foundChain st)); [done|]. destruct (trim (c_buf st)) as [|c t]; [done|].
  destruct (c_invalidChain st); [done|]. intros [= <-].
  apply chain_scan_operated in Es; [|constructor]. unfold operated in Es.
  induction Es as [|p ps Hp Hps IH]; [done|]. cbn [app chain_shaped].
  destruct (ps ++ [mkPart (String c t) None]) eqn:E; [by destruct ps|done].
Qed.

(** The reading of an enforced command by a shell, [groups] being the planned pipelines. *)
Definition runs_plan (command out : string) (segments : list ExecCommandSegment) (groups : list (list (list string))) : Prop :=
  mapM resolvePlannedSegmentArgv segments = Some (concat groups)
  ∧ let parts := default [mkPart (trim command) None] (splitCommandChainWithOperators (trim command)) in
    length groups = length parts
    ∧ shell_reads out = Some (between (map literal_pipeline groups) (map op_token (omap opToNext parts))).

Lemma buildEnforcedShellCommand_reads command segments platform out :
  isWindowsPlatform platform = false →
  buildEnforcedShellCommand command segments platform = Accepted out →
  ∃ groups, runs_plan command out segments groups.
Proof.
  intros Hw Hb. unfold buildEnforcedShellCommand, rebuildShellCommandFromSource in Hb. rewrite Hw in Hb.
  cbn zeta in Hb |- *. destruct (negb (str_truthy (trim command))); [done|].
  set (parts := default [mkPart (trim command) None] (splitCommandChainWithOperators (trim command))) in *.
  assert (chain_shaped parts) as Hshape.
  { unfold parts. destruct (splitCommandChainWithOperators (trim command)) as [ps|] eqn:E; [by eapply chain_parts_shaped|done]. }
  unfold finalizeRebuiltShellCommand in Hb. destruct (rebuildParts _ parts 0) as [[text n]|] eqn:Er; [|done].
  destruct (n =? length segments)%nat eqn:En; [|done]. apply Nat.eqb_eq in En as ->. injection Hb as ->.
  destruct (rebuildParts_enforced _ _ _ _ _ _ Hw Hshape Er) as (segs & groups & Hd & Hm & Hl & Hread).
  rewrite drop_0, drop_all, app_nil_r in Hd. subst segs. exists groups. split; [done|]. cbn zeta. fold parts. split; [done|].
  apply posix_read_active; [done|apply literal_tokens_inactive].
Qed.

(** C3. When a command is enforced ([buildEnforcedShellCommand]) for a POSIX shell, the
    shell reads the rebuilt line as the planned argument vectors of the segments, in
    order and all of them, joined by pipes and by the operators of the source command,
    and every character of every word is literal: nothing expands, no word is split and
    no command is substituted, whatever the arguments hold. *)
Theorem enforced_command_runs_the_plan command segments platform out :
  isWindowsPlatform platform = false →
  buildEnforcedShellCommand command segments platform = Accepted out →
  ∃ groups,
    mapM resolvePlannedSegmentArgv segments = Some (concat groups)
    ∧ let parts := default [mkPart (trim command) None] (splitCommandChainWithOperators (trim command)) in
      length groups = length parts
      ∧ shell_reads out = Some (between (map literal_pipeline groups) (map op_token (omap opToNext parts))).
Proof. apply buildEnforcedShellCommand_reads. Qed.

End enforced.

(** A host without files, for the witnesses. *)
Definition bare_host : Host :=
  {| host_process := {| process_platform := "linux" |}; win32_path := posix_path; process_cwd := "/";
     process_env := λ k, if String.eqb k "PATH" then Some "/bin" else None; os_homedir := None;
     stat_isFile := λ p, set_has ["/bin/ls"; "/bin/wc"; "/bin/rm"; "/bin/cat"] p; access_executable := λ _, true; realpathSync := λ _, None;
     compile_regexp := λ _, None |}.

Lemma enforced_command_runs_the_plan_witness :
  let command := "ls '*' | nice wc -l && rm $x" in
  let segments := an_segments (@analyzeShellCommand bare_host command None None None) in
  let out := "'/bin/ls' '*' | '/bin/wc' '-l' && '/bin/rm' '$x'" in
  buildEnforcedShellCommand command segments None = Accepted out
  ∧ ∃ groups, mapM resolvePlannedSegmentArgv segments = Some (concat groups)
    ∧ length groups = 2%nat
    ∧ shell_reads out = Some (between (map literal_pipeline groups) [op_token AndThen]).
Proof.
  assert (Hb : buildEnforcedShellCommand "ls '*' | nice wc -l && rm $x"
    (an_segments (@analyzeShellCommand bare_host "ls '*' | nice wc -l && rm $x" None None None)) None
    = Accepted "'/bin/ls' '*' | '/bin/wc' '-l' && '/bin/rm' '$x'") by (vm_compute; reflexivity).
  split; [exact Hb|].
  destruct (enforced_command_runs_the_plan _ _ None _ eq_refl Hb) as (groups & Hg & Hl & Hr).
  exists groups. split; [exact Hg|]. split; [exact Hl|exact Hr].
Defined.

End ShellAnalysis.
