(* ===== verification/ExecAllowlist.v ===== *)
(** * Evaluating a command against the allowlist

    src/infra/exec-approvals-allowlist.ts: whether every segment of an analysed command
    is permitted by an entry of the allowlist, as a safe bin, as a trusted skill, by
    the parts of an inline shell command, or as the display of a skill before the skill
    runs; and the entries that an [allow-always] decision adds. *)

From Stdlib Require Import Ascii.
From S2P Require Import Prelude JsRegex ShellSyntax WindowsShell NodePath ExecWrappers SafeBins CommandResolution InlineEval ShellAnalysis.

#[local] Open Scope stdpp_scope.

Module ExecAllowlist.
Export SafeBins InlineEval ShellAnalysis.

Definition lineContinuation : regex :=
  RSeq (RChar (λ c, Ascii.eqb c back_slash))
    (RAny [RSeq (RChar (λ c, Ascii.eqb c carriage_return)) (RChar (λ c, Ascii.eqb c newline));
           RChar (λ c, Ascii.eqb c newline); RChar (λ c, Ascii.eqb c carriage_return)]).

Definition hasShellLineContinuation (command : string) : bool := test lineContinuation command.

Definition normalizeSafeBins (entries : option (list string)) : list string :=
  match entries with Some l => unique (List.filter str_truthy (map lowered l)) | None => [] end.

(** [undefined] is the outer [None], [null] the inner one. *)
Definition resolveSafeBins (entries : option (option (list string))) : list string :=
  match entries with
  | None => normalizeSafeBins (Some DEFAULT_SAFE_BINS)
  | Some entries => normalizeSafeBins (Some (default [] entries))
  end.

Record SkillBinTrustEntry : Type := mkSkillBin { sb_name : string; sb_resolvedPath : string }.

Record ExecAllowlistContext : Type := mkContext {
  cx_allowlist : list ExecAllowlistEntry;
  cx_safeBins : list string;
  cx_safeBinProfiles : option SafeBinProfiles;
  cx_cwd : option string;
  cx_env : option Env;
  cx_platform : option string;
  cx_trustedSafeBinDirs : option (list string);
  cx_skillBins : option (list SkillBinTrustEntry);
  cx_autoAllowSkills : bool;
}.

Definition satisfiedBy : Type := option ExecSegmentSatisfiedBy.

Record ExecAllowlistEvaluation : Type := mkEvaluation {
  ev_allowlistSatisfied : bool;
  ev_allowlistMatches : list ExecAllowlistEntry;
  ev_segmentAllowlistEntries : list (option ExecAllowlistEntry);
  ev_segmentSatisfiedBy : list satisfiedBy;
}.

Record ExecAllowlistAnalysis : Type := mkAllowlistAnalysis {
  aa_analysisOk : bool;
  aa_allowlistSatisfied : bool;
  aa_allowlistMatches : list ExecAllowlistEntry;
  aa_segments : list ExecCommandSegment;
  aa_segmentAllowlistEntries : list (option ExecAllowlistEntry);
  aa_segmentSatisfiedBy : list satisfiedBy;
}.

Section allowlist.
Context `{Host}.

Definition platformOrProcess (platform : option string) : option string := Some (default process_platform platform).

(** ** Safe bins *)

Definition isSafeBinUsage (cx : ExecAllowlistContext) (argv : list string) (resolution : option ExecutableResolution) : bool :=
  if isWindowsPlatform (platformOrProcess (cx_platform cx)) then false
  else
    match cx_safeBins cx with
    | [] => false
    | safeBins =>
        match StringCoerce.normalizeOptionalLowercaseString (executableName <$> resolution) with
        | None => false
        | Some execName =>
            if negb (set_has safeBins execName) then false
            else
              match resolution ≫= λ r, truthy (resolvedPath r) with
              | None => false
              | Some target =>
                  if negb (isTrustedSafeBinPath (default (buildTrustedSafeBinDirs None None) (cx_trustedSafeBinDirs cx)) target)
                  then false
                  else
                    match profileOf (default SAFE_BIN_PROFILES (cx_safeBinProfiles cx)) execName with
                    | None => false
                    | Some profile => validateSafeBinArgv profile (tail argv) (Some execName)
                    end
              end
        end
    end.

Definition isPathScopedExecutableToken (token : string) : bool := has_char is_win_slash token.

(** ** Skills *)

Definition normalizeSkillBinName (value : option string) : option string :=
  truthy (StringCoerce.normalizeOptionalLowercaseString value).

Definition normalizeSkillBinResolvedPath (value : option string) : option string :=
  match StringCoerce.normalizeOptionalString value with
  | None => None
  | Some trimmed =>
      let resolved := resolve [trimmed] in
      Some (if is_win32 then lowered (slashes resolved) else resolved)
  end.

Definition SkillTrust : Type := gmap string (gset string).

Definition trustSkill (index : SkillTrust) (entry : SkillBinTrustEntry) : SkillTrust :=
  match normalizeSkillBinName (Some (sb_name entry)), truthy (normalizeSkillBinResolvedPath (Some (sb_resolvedPath entry))) with
  | Some name, Some p => <[name := {[p]} ∪ default ∅ (index !! name)]> index
  | _, _ => index
  end.

Definition buildSkillBinTrustIndex (entries : option (list SkillBinTrustEntry)) : SkillTrust :=
  foldl trustSkill ∅ (default [] entries).

Definition isSkillAutoAllowedSegment (segment : ExecCommandSegment) (allowSkills : bool) (trust : SkillTrust) : bool :=
  if negb allowSkills then false
  else
    match execution <$> seg_resolution segment with
    | None => false
    | Some e =>
        match truthy (resolvedPath e), nonblank (rawExecutable e) with
        | Some target, Some raw =>
            if isPathScopedExecutableToken raw then false
            else
              match normalizeSkillBinName (Some (executableName e)), truthy (normalizeSkillBinResolvedPath (Some target)) with
              | Some name, Some p => bool_decide (p ∈ default ∅ (trust !! name))
              | _, _ => false
              end
        | _, _ => false
        end
    end.

(** *** The display of a skill *)

Definition cwdTrimmed (cwd : option string) : string := default process_cwd (cwd ≫= nonblank).

Definition resolveSkillPreludePath (rawPath : string) (cwd : option string) : string :=
  let expanded := if starts_with rawPath "~" then expandHomePrefix rawPath None else rawPath in
  if isAbsolute expanded then resolve [expanded] else resolve [cwdTrimmed cwd; expanded].

(** The components after the last ones called [skills], at each such place. *)
Fixpoint afterSkills (parts : list string) : list (list string) :=
  match parts with
  | [] => []
  | p :: rest => afterSkills rest ++ (if String.eqb p "skills" then [rest] else [])
  end.

Definition skillFile (filePath : string) : option (list string) :=
  let low := lowered (slashes filePath) in
  if ends_with low "/skill.md" then Some (List.filter str_truthy (split_on slash low)) else None.

Definition isSkillMarkdownPreludePath (filePath : string) : bool :=
  match skillFile filePath with
  | None => false
  | Some parts =>
      existsb (λ after, (length after =? 1)%nat || (length after =? 2)%nat) (afterSkills parts)
  end.

Definition resolveSkillMarkdownPreludeId (filePath : string) : option string :=
  match skillFile filePath with
  | None => None
  | Some parts =>
      match List.find (λ after, (length after =? 2)%nat) (afterSkills parts) with
      | Some (skillId :: _) => nonblank skillId
      | _ => None
      end
  end.

Definition executableIs (segment : ExecCommandSegment) (name : string) : bool :=
  String.eqb (StringCoerce.normalizeLowercaseStringOrEmpty (executableName <$> (execution <$> seg_resolution segment))) name.

(** [segment.argv[1]?.trim()] when the vector has two elements *)
Definition onlyArgument (segment : ExecCommandSegment) : option string :=
  match seg_argv segment with [_; arg] => Some arg | _ => None end.

Definition isSkillPreludeReadSegment (segment : ExecCommandSegment) (cwd : option string) : bool :=
  executableIs segment "cat"
  && match onlyArgument segment ≫= nonblank with
     | Some rawPath => isSkillMarkdownPreludePath (resolveSkillPreludePath rawPath cwd)
     | None => false
     end.

Definition escapedNewline : string := String back_slash "n".
Definition lineBreak : string := String newline EmptyString.

Definition isSkillPreludeMarkerSegment (segment : ExecCommandSegment) : bool :=
  executableIs segment "printf"
  && match onlyArgument segment with
     | Some marker =>
         String.eqb marker (escapedNewline +:+ "---CMD---" +:+ escapedNewline)
         || String.eqb marker (lineBreak +:+ "---CMD---" +:+ lineBreak)
     | None => false
     end.

Definition isSkillPreludeSegment (segment : ExecCommandSegment) (cwd : option string) : bool :=
  isSkillPreludeReadSegment segment cwd || isSkillPreludeMarkerSegment segment.

Definition isSkillPreludeOnlyEvaluation (segments : list ExecCommandSegment) (cwd : option string) : bool :=
  negb (length segments =? 0)%nat && forallb (λ segment, isSkillPreludeSegment segment cwd) segments.

Definition skillPreludeId (cwd : option string) (segment : ExecCommandSegment) : option string :=
  if isSkillPreludeReadSegment segment cwd then
    match List.nth_error (seg_argv segment) 1 ≫= nonblank with
    | Some rawPath => resolveSkillMarkdownPreludeId (resolveSkillPreludePath rawPath cwd)
    | None => None
    end
  else None.

Definition resolveSkillPreludeIds (segments : list ExecCommandSegment) (cwd : option string) : gset string :=
  list_to_set (omap (skillPreludeId cwd) segments).

Definition resolveAllowlistedSkillWrapperId (segment : ExecCommandSegment) : option string :=
  let name := normalizeExecutableToken
    (default EmptyString (first_of (executableName <$> (execution <$> seg_resolution segment)) (List.hd_error (seg_argv segment)))) in
  if negb (ends_with name "-wrapper") then None
  else nonblank (str_take (String.length name - 8) name).

Definition executedSkillId (e : ExecCommandSegment * satisfiedBy) : option string :=
  let '(segment, by_) := e in
  match by_ with
  | Some BySkills =>
      truthy (Some (normalizeExecutableToken
        (default EmptyString (first_of (executableName <$> (execution <$> seg_resolution segment)) (List.hd_error (seg_argv segment))))))
  | Some ByAllowlist => resolveAllowlistedSkillWrapperId segment
  | _ => None
  end.

Definition resolveTrustedSkillExecutionIds (analysis : ExecCommandAnalysis) (evaluation : ExecAllowlistEvaluation) : gset string :=
  if negb (ev_allowlistSatisfied evaluation) then ∅
  else list_to_set (omap executedSkillId (zip (an_segments analysis) (ev_segmentSatisfiedBy evaluation))).

(** ** Scripts and positional arguments of shells *)

Definition hasSegmentExecutableMatch (segment : ExecCommandSegment) (predicate : string → bool) : bool :=
  let e := execution <$> seg_resolution segment in
  existsb (λ candidate, match candidate ≫= nonblank with Some trimmed => predicate trimmed | None => false end)
    [executableName <$> e; rawExecutable <$> e; List.hd_error (seg_argv segment)].

Definition isShellWrapperSegment (segment : ExecCommandSegment) : bool :=
  hasSegmentExecutableMatch segment isShellWrapperExecutable.

Definition SHELL_WRAPPER_OPTIONS_WITH_VALUE : list string := ["-c"; "--command"; "-o"; "-O"; "+O"].
Definition SHELL_WRAPPER_DISQUALIFYING_SCRIPT_OPTIONS : list string := ["--rcfile"; "--init-file"; "--startup-file"].
Definition POWERSHELL_WRAPPERS : list string := ["powershell"; "powershell.exe"; "pwsh"; "pwsh.exe"].

Definition hasDisqualifyingShellWrapperScriptOption (token : string) : bool :=
  existsb (λ option, String.eqb token option || starts_with token (option +:+ "=")) SHELL_WRAPPER_DISQUALIFYING_SCRIPT_OPTIONS.

Definition POWERSHELL_OPTIONS_WITH_VALUE_RE : regex :=
  anchored (RSeq (RLit "-") (RAny (map RLitI
    ["executionpolicy"; "ep"; "windowstyle"; "w"; "workingdirectory"; "wd"; "inputformat"; "outputformat"; "settingsfile";
     "configurationfile"; "version"; "v"; "psconsolefile"; "pscf"; "encodedcommand"; "en"; "enc"; "encodedarguments"; "ea"]))).

Definition combinedS : regex :=
  anchored (RCat [RLit "-"; RStar (RChar (none_of "-")); RLitI "s"; RStar (RChar (none_of "-"))]).

(** The arguments from the script on; [None] when the code returns [undefined]. *)
Fixpoint scriptFrom (isPowerShell : bool) (args : list string) : option (list string) :=
  match args with
  | [] => Some []
  | raw :: rest =>
      let token := trim raw in
      let skipValue := match rest with _ :: rest' => scriptFrom isPowerShell rest' | [] => Some [] end in
      if negb (str_truthy token) then scriptFrom isPowerShell rest
      else if String.eqb token "--" then Some rest
      else if String.eqb token "-c" || String.eqb token "--command" then None
      else if negb isPowerShell && test combinedC token then None
      else if String.eqb token "-s" || (negb isPowerShell && test combinedS token) then None
      else if hasDisqualifyingShellWrapperScriptOption token then None
      else if set_has SHELL_WRAPPER_OPTIONS_WITH_VALUE token then skipValue
      else if isPowerShell && test POWERSHELL_OPTIONS_WITH_VALUE_RE token then skipValue
      else if starts_with token "-" || starts_with token "+" then scriptFrom isPowerShell rest
      else Some args
  end.

Definition resolveShellWrapperScriptCandidatePath (segment : ExecCommandSegment) (cwd : option string) : option string :=
  if negb (isShellWrapperSegment segment) then None
  else
    match seg_argv segment with
    | first :: (_ :: _) as args =>
        let isPowerShell := set_has POWERSHELL_WRAPPERS (normalizeExecutableToken first) in
        match scriptFrom isPowerShell (tail (seg_argv segment)) with
        | Some (raw :: _) =>
            match nonblank raw with
            | None => None
            | Some scriptToken =>
                if isAbsolute scriptToken then Some scriptToken
                else
                  let expanded := if starts_with scriptToken "~" then expandHomePrefix scriptToken None else scriptToken in
                  let base := match cwd with Some c => if str_truthy (trim c) then c else process_cwd | None => process_cwd end in
                  Some (resolve [base; expanded])
            end
        | _ => None
        end
    | _ => None
    end.

Definition inlineSpace : regex := RPlus (RChar (λ c, is_ws c && negb (is_newline c))).
Definition quoteMark : regex := RChar (λ c, Ascii.eqb c double_quote).

(** [x] or [${x}], with or without double quotes *)
Definition positionalRef (bare braced : regex) : regex :=
  let ref := RSeq (RLit "$") (RAlt bare (RCat [RLit "{"; braced; RLit "}"])) in
  RAlt ref (RCat [quoteMark; ref; quoteMark]).

Definition positionalZero : regex := positionalRef (RLit "0") (RLit "0").
Definition positionalArg : regex :=
  let arg := RChar (one_of "@*123456789") in positionalRef arg arg.

Definition carrier : regex :=
  anchored (RCat
    [ROpt (RCat [RLit "exec"; inlineSpace; ROpt (RSeq (RLit "--") inlineSpace)]);
     positionalZero; RStar (RSeq inlineSpace positionalArg)]).

Definition isDirectShellPositionalCarrierInvocation (command : string) : bool :=
  let trimmed := trim command in
  if negb (str_truthy trimmed) then false else test carrier trimmed.

Definition resolveShellWrapperPositionalArgvCandidatePath (segment : ExecCommandSegment) (cwd : option string)
    (env : option Env) : option string :=
  if negb (isShellWrapperSegment segment) then None
  else if (length (seg_argv segment) <? 4)%nat then None
  else if negb (set_has POSIX_SHELL_WRAPPER_NAMES (normalizeExecutableToken (List.hd EmptyString (seg_argv segment)))) then None
  else
    let inlineMatch := resolveInlineCommandMatch (seg_argv segment) POSIX_INLINE_COMMAND_FLAGS true in
    match im_valueTokenIndex inlineMatch, truthy (im_command inlineMatch) with
    | Some index, Some command =>
        if negb (isDirectShellPositionalCarrierInvocation command) then None
        else
          match List.find str_truthy (map trim (drop (S index) (seg_argv segment))) with
          | None => None
          | Some carriedExecutable =>
              let carriedName := normalizeExecutableToken carriedExecutable in
              if isDispatchWrapperExecutable carriedName || isShellWrapperExecutable carriedName then None
              else resolveExecutionTargetCandidatePath (resolveCommandResolutionFromArgv [carriedExecutable] cwd env) cwd
          end
    | _, _ => None
    end.

(** The arguments after the first one satisfying [f]. *)
Fixpoint after_first (f : string → bool) (l : list string) : option (list string) :=
  match l with
  | [] => None
  | x :: rest => if f x then Some rest else after_first f rest
  end.

Definition scriptArgs (scriptPath : string) (argv : list string) (cwd : option string) : list string :=
  let scriptBase := lowered (basename scriptPath) in
  let resolveArgPath a := if isAbsolute a then a else resolve [cwdOrProcess cwd; a] in
  default [] (first_of
    (after_first (λ a, String.eqb (resolveArgPath a) scriptPath) argv)
    (after_first (λ a, String.eqb (lowered (basename a)) scriptBase) argv)).

Definition resolveShellWrapperScriptArgv (scriptPath : string) (argv : list string) (cwd : option string) : list string :=
  scriptPath :: scriptArgs scriptPath argv cwd.

(** ** One segment *)

Record SegmentMatchEvaluation : Type := mkMatch {
  sm_effectiveArgv : list string;
  sm_inlineCommand : option string;
  sm_match : option ExecAllowlistEntry;
}.

Definition segmentEffectiveArgv (segment : ExecCommandSegment) : list string :=
  match seg_resolution segment with
  | Some r => match effectiveArgv r with [] => seg_argv segment | argv => argv end
  | None => seg_argv segment
  end.

Definition pathResolution (p : string) : ExecutableResolution := mkExecutable p (Some p) None (basename p).

Definition withResolvedPath (r : ExecutableResolution) (p : string) : ExecutableResolution :=
  mkExecutable (rawExecutable r) (Some p) (resolvedRealPath r) (executableName r).

Definition resolveSegmentAllowlistMatch (cx : ExecAllowlistContext) (segment : ExecCommandSegment) : SegmentMatchEvaluation :=
  let argv := segmentEffectiveArgv segment in
  let allowlistSegment := mkSegment (seg_raw segment) argv (seg_resolution segment) in
  let executableResolution := resolvePolicyTargetResolution (seg_resolution segment) in
  let candidateResolution :=
    match truthy (resolvePolicyTargetCandidatePath (seg_resolution segment) (cx_cwd cx)), executableResolution with
    | Some p, Some r => Some (withResolvedPath r p)
    | _, r => r
    end in
  let inlineCommand := extractShellWrapperInlineCommand argv in
  let isCarrier := match inlineCommand with Some c => isDirectShellPositionalCarrierInvocation c | None => false end in
  let executableMatch :=
    if isCarrier then None else matchAllowlist (cx_allowlist cx) candidateResolution (Some argv) (cx_platform cx) in
  let positionalMatch :=
    match truthy (resolveShellWrapperPositionalArgvCandidatePath allowlistSegment (cx_cwd cx) (cx_env cx)) with
    | Some p => matchAllowlist (cx_allowlist cx) (Some (pathResolution p)) None (cx_platform cx)
    | None => None
    end in
  let scriptCandidate :=
    match inlineCommand with
    | None => truthy (resolveShellWrapperScriptCandidatePath allowlistSegment (cx_cwd cx))
    | Some _ => None
    end in
  let scriptMatch :=
    match scriptCandidate with
    | Some p =>
        matchAllowlist (cx_allowlist cx) (Some (pathResolution p))
          (Some (resolveShellWrapperScriptArgv p argv (cx_cwd cx))) (cx_platform cx)
    | None => None
    end in
  mkMatch argv inlineCommand (first_of executableMatch (first_of positionalMatch scriptMatch)).

Definition resolveSegmentSatisfaction (cx : ExecAllowlistContext) (match_ : option ExecAllowlistEntry)
    (segment : ExecCommandSegment) (argv : list string) (allowSkills : bool) (trust : SkillTrust) : satisfiedBy :=
  match match_ with
  | Some _ => Some ByAllowlist
  | None =>
      if isSafeBinUsage cx argv (execution <$> seg_resolution segment) then Some BySafeBins
      else if isSkillAutoAllowedSegment segment allowSkills trust then Some BySkills
      else None
  end.

(** ** Segments in order *)

Definition segmentBlocked (segment : ExecCommandSegment) : bool :=
  match seg_resolution segment with Some r => policyBlocked r | None => false end.

(** What is recorded of one segment: the satisfaction, the entry and the matches. *)
Definition evaluateSegment (cx : ExecAllowlistContext) (inline : string → option (list ExecAllowlistEntry))
    (segment : ExecCommandSegment) : satisfiedBy * option ExecAllowlistEntry * list ExecAllowlistEntry :=
  if segmentBlocked segment then (None, None, [])
  else
    let trust := buildSkillBinTrustIndex (cx_skillBins cx) in
    let allowSkills := cx_autoAllowSkills cx && negb (size trust =? 0)%nat in
    let evaluation := resolveSegmentAllowlistMatch cx segment in
    let match_ := sm_match evaluation in
    let matches := match match_ with Some e => [e] | None => [] end in
    let by_ := resolveSegmentSatisfaction cx match_ segment (sm_effectiveArgv evaluation) allowSkills trust in
    match by_ with
    | Some _ => (by_, match_, matches)
    | None =>
        match truthy (sm_inlineCommand evaluation) ≫= inline with
        | Some inlineMatches => (Some ByAllowlist, match_, matches ++ inlineMatches)
        | None => (None, match_, matches)
        end
    end.

(** [segments.every(...)]: the first segment that is not satisfied ends the loop. *)
Fixpoint evaluateEach (cx : ExecAllowlistContext) (inline : string → option (list ExecAllowlistEntry))
    (segments : list ExecCommandSegment) : ExecAllowlistEvaluation :=
  match segments with
  | [] => mkEvaluation true [] [] []
  | segment :: rest =>
      let '(by_, entry, matches) := evaluateSegment cx inline segment in
      match by_ with
      | None => mkEvaluation false matches [entry] [None]
      | Some _ =>
          let others := evaluateEach cx inline rest in
          mkEvaluation (ev_allowlistSatisfied others) (matches ++ ev_allowlistMatches others)
            (entry :: ev_segmentAllowlistEntries others) (by_ :: ev_segmentSatisfiedBy others)
      end
  end.

(** The parts of an inline command, each analysed and evaluated. *)
Fixpoint inlineParts (cx : ExecAllowlistContext) (evaluate : list ExecCommandSegment → ExecAllowlistEvaluation)
    (parts : list string) : option (list ExecAllowlistEntry) :=
  match parts with
  | [] => Some []
  | part :: rest =>
      let analysis := analyzeShellCommand part (cx_cwd cx) (cx_env cx) (cx_platform cx) in
      if negb (an_ok analysis) then None
      else
        let result := evaluate (an_segments analysis) in
        if negb (ev_allowlistSatisfied result) then None
        else app (ev_allowlistMatches result) <$> inlineParts cx evaluate rest
  end.

Definition MAX_SHELL_WRAPPER_INLINE_EVAL_DEPTH : nat := 3.

(** [levels] inline commands may still be opened: [inlineDepth + 1] has to stay below
    the maximum. *)
Fixpoint evaluateSegments (levels : nat) (cx : ExecAllowlistContext) (segments : list ExecCommandSegment)
    : ExecAllowlistEvaluation :=
  evaluateEach cx (λ inlineCommand,
    match levels with
    | O => None
    | S levels' =>
        match splitCommandChain inlineCommand with
        | Some ((_ :: _ :: _) as parts) =>
            if isWindowsPlatform (cx_platform cx) then None else inlineParts cx (evaluateSegments levels' cx) parts
        | _ => None
        end
    end) segments.

Definition INLINE_LEVELS : nat := MAX_SHELL_WRAPPER_INLINE_EVAL_DEPTH - 1.

Definition unsatisfied : ExecAllowlistEvaluation := mkEvaluation false [] [] [].

(** Groups in order; with chains, a failing group forgets what was recorded. *)
Fixpoint evaluateGroups (cx : ExecAllowlistContext) (hasChains : bool) (groups : list (list ExecCommandSegment))
    (sofar : ExecAllowlistEvaluation) : ExecAllowlistEvaluation :=
  match groups with
  | [] => mkEvaluation true (ev_allowlistMatches sofar) (ev_segmentAllowlistEntries sofar) (ev_segmentSatisfiedBy sofar)
  | group :: rest =>
      let result := evaluateSegments INLINE_LEVELS cx group in
      if negb (ev_allowlistSatisfied result) then if hasChains then unsatisfied else result
      else
        evaluateGroups cx hasChains rest
          (mkEvaluation true (ev_allowlistMatches sofar ++ ev_allowlistMatches result)
            (ev_segmentAllowlistEntries sofar ++ ev_segmentAllowlistEntries result)
            (ev_segmentSatisfiedBy sofar ++ ev_segmentSatisfiedBy result))
  end.

Definition evaluateExecAllowlist (cx : ExecAllowlistContext) (analysis : ExecCommandAnalysis) : ExecAllowlistEvaluation :=
  if negb (an_ok analysis) || (length (an_segments analysis) =? 0)%nat then unsatisfied
  else
    let hasChains := match an_chains analysis with Some _ => true | None => false end in
    evaluateGroups cx hasChains (default [an_segments analysis] (an_chains analysis)) (mkEvaluation true [] [] []).

(** ** The whole command *)

Definition analysisFailure : ExecAllowlistAnalysis := mkAllowlistAnalysis false false [] [] [] [].

Record PartEvaluation : Type := mkPartEvaluation {
  pe_analysis : ExecCommandAnalysis;
  pe_evaluation : ExecAllowlistEvaluation;
  pe_opToNext : option ShellChainOperator;
}.

Definition evaluatePart (cx : ExecAllowlistContext) (p : ShellChainPart) : option PartEvaluation :=
  let analysis := analyzeShellCommand (part p) (cx_cwd cx) (cx_env cx) (cx_platform cx) in
  if an_ok analysis then Some (mkPartEvaluation analysis (evaluateExecAllowlist cx analysis) (opToNext p)) else None.

(** One step of the loop from the last part to the first: the skills reachable from
    here, and whether this part is allowed as a prelude. *)
Definition preludeStep (cwd : option string) (p : PartEvaluation) (reachable : gset string) : bool * gset string :=
  let trusted := resolveTrustedSkillExecutionIds (pe_analysis p) (pe_evaluation p) in
  if negb (size trusted =? 0)%nat then (false, trusted ∪ reachable)
  else
    let segments := an_segments (pe_analysis p) in
    let isPreludeOnly := negb (ev_allowlistSatisfied (pe_evaluation p)) && isSkillPreludeOnlyEvaluation segments cwd in
    let ids := if isPreludeOnly then resolveSkillPreludeIds segments cwd else ∅ in
    let reaches :=
      match pe_opToNext p with
      | Some AndThen =>
          if (size ids =? 0)%nat then negb (size reachable =? 0)%nat
          else negb (size (ids ∩ reachable) =? 0)%nat
      | _ => false
      end in
    if isPreludeOnly && reaches then (true, reachable) else (false, ∅).

(** Which parts are allowed as preludes, and the skills reachable from the first. *)
Fixpoint allowedPreludes (cwd : option string) (parts : list PartEvaluation) : list bool * gset string :=
  match parts with
  | [] => ([], ∅)
  | p :: rest =>
      let (flags, reachable) := allowedPreludes cwd rest in
      let (flag, reachable') := preludeStep cwd p reachable in
      (flag :: flags, reachable')
  end.

Fixpoint finalizeParts (parts : list (PartEvaluation * bool)) (sofar : ExecAllowlistAnalysis) : ExecAllowlistAnalysis :=
  match parts with
  | [] => mkAllowlistAnalysis true true (aa_allowlistMatches sofar) (aa_segments sofar)
            (aa_segmentAllowlistEntries sofar) (aa_segmentSatisfiedBy sofar)
  | (p, prelude) :: rest =>
      let segments := an_segments (pe_analysis p) in
      let evaluation := pe_evaluation p in
      let sofar' := mkAllowlistAnalysis true false
        (aa_allowlistMatches sofar ++ ev_allowlistMatches evaluation)
        (aa_segments sofar ++ segments)
        (aa_segmentAllowlistEntries sofar
          ++ if prelude then map (λ _, None) segments else ev_segmentAllowlistEntries evaluation)
        (aa_segmentSatisfiedBy sofar
          ++ if prelude then map (λ _, Some BySkillPrelude) segments else ev_segmentSatisfiedBy evaluation) in
      if negb (ev_allowlistSatisfied evaluation) && negb prelude then sofar' else finalizeParts rest sofar'
  end.

Definition evaluateShellAllowlist (cx : ExecAllowlistContext) (command : string) : ExecAllowlistAnalysis :=
  if hasShellLineContinuation command then analysisFailure
  else
    match (if isWindowsPlatform (cx_platform cx) then None else splitCommandChainWithOperators command) with
    | None =>
        let analysis := analyzeShellCommand command (cx_cwd cx) (cx_env cx) (cx_platform cx) in
        if negb (an_ok analysis) then analysisFailure
        else
          let evaluation := evaluateExecAllowlist cx analysis in
          mkAllowlistAnalysis true (ev_allowlistSatisfied evaluation) (ev_allowlistMatches evaluation)
            (an_segments analysis) (ev_segmentAllowlistEntries evaluation) (ev_segmentSatisfiedBy evaluation)
    | Some chainParts =>
        match mapM (evaluatePart cx) chainParts with
        | None => analysisFailure
        | Some evaluations =>
            finalizeParts (zip evaluations (allowedPreludes (cx_cwd cx) evaluations).1)
              (mkAllowlistAnalysis true false [] [] [] [])
        end
    end.

(** ** Entries added by an allow-always decision *)

Record AllowAlwaysPattern : Type := mkAllowAlways { aw_pattern : string; aw_argPattern : option string }.

Definition regexSpecial (c : ascii) : bool := one_of ".*+?^${}()|[]" c || Ascii.eqb c back_slash.

Fixpoint escapeRegExpLiteral (input : string) : string :=
  match input with
  | EmptyString => EmptyString
  | String c rest =>
      if regexSpecial c then String back_slash (String c (escapeRegExpLiteral rest)) else String c (escapeRegExpLiteral rest)
  end.

Definition backslashes (s : string) : string := replace_char slash back_slash s.

Definition noArgumentsPattern : string := "^" +:+ nul +:+ nul +:+ "$".

Definition buildScriptArgPatternFromArgv (argv : list string) (scriptPath : string) (cwd platform : option string) : option string :=
  if negb (isWindowsPlatform (platformOrProcess platform)) then None
  else
    Some match map backslashes (scriptArgs scriptPath argv cwd) with
         | [] => noArgumentsPattern
         | normalized => "^" +:+ join_with nul (map escapeRegExpLiteral normalized) +:+ nul +:+ "$"
         end.

Definition buildArgPatternFromArgv (argv : list string) (platform : option string) : option string :=
  if negb (isWindowsPlatform (platformOrProcess platform)) then None
  else
    Some match map backslashes (tail argv) with
         | [] => noArgumentsPattern
         | normalized => "^" +:+ escapeRegExpLiteral (join_with nul normalized) +:+ nul +:+ "$"
         end.

Definition sameAllowAlways (a b : AllowAlwaysPattern) : bool :=
  String.eqb (aw_pattern a) (aw_pattern b) && bool_decide (aw_argPattern a = aw_argPattern b).

Definition addAllowAlwaysPattern (out : list AllowAlwaysPattern) (pattern : string) (argPattern : option string)
    : list AllowAlwaysPattern :=
  let p := mkAllowAlways pattern argPattern in
  if existsb (sameAllowAlways p) out then out else out ++ [p].

Definition argvHas (argv flags : list string) : bool := existsb (λ t, set_has flags (lowered t)) argv.

Definition isPowerShellFileInvocation (argv : list string) : bool :=
  set_has POWERSHELL_WRAPPERS (normalizeExecutableToken (List.hd EmptyString argv))
  && argvHas argv ["-file"; "-f"] && negb (argvHas argv ["-command"; "-c"; "--command"]).

Record CollectParams : Type := mkCollect {
  co_cwd : option string;
  co_env : option Env;
  co_platform : option string;
  co_strictInlineEval : bool;
}.

Fixpoint collectAllowAlwaysPatterns (levels : nat) (params : CollectParams) (segment0 : ExecCommandSegment)
    (out : list AllowAlwaysPattern) : list AllowAlwaysPattern :=
  match levels with
  | O => out
  | S levels' =>
      let trustPlan := resolveExecWrapperTrustPlan (seg_argv segment0) MAX_DISPATCH_WRAPPER_DEPTH in
      if tp_policyBlocked trustPlan then out
      else
        let segment :=
          match tp_wrapperChain trustPlan with
          | [] => segment0
          | _ => mkSegment (join_with " " (tp_argv trustPlan)) (tp_argv trustPlan)
                   (resolveCommandResolutionFromArgv (tp_argv trustPlan) (co_cwd params) (co_env params))
          end in
        match truthy (resolveExecutionTargetCandidatePath (seg_resolution segment) (co_cwd params)) with
        | None => out
        | Some candidatePath =>
            let argv := match seg_resolution segment with Some r => effectiveArgv r | None => seg_argv segment end in
            let inlineEval := match detectInterpreterInlineEvalArgv argv with Some _ => true | None => false end in
            if isInterpreterLikeAllowlistPattern (Some candidatePath)
               && (negb (co_strictInlineEval params) || inlineEval) then out
            else if negb (tp_shellWrapperExecutable trustPlan) then
              addAllowAlwaysPattern out candidatePath (buildArgPatternFromArgv (seg_argv segment) (co_platform params))
            else
              match truthy (resolveShellWrapperPositionalArgvCandidatePath segment (co_cwd params) (co_env params)) with
              | Some positional => addAllowAlwaysPattern out positional None
              | None =>
                  let inlineCommand :=
                    if isPowerShellFileInvocation (seg_argv segment) then None
                    else first_of (tp_shellInlineCommand trustPlan) (extractShellWrapperInlineCommand (seg_argv segment)) in
                  match truthy inlineCommand with
                  | None =>
                      match truthy (resolveShellWrapperScriptCandidatePath segment (co_cwd params)) with
                      | Some scriptPath =>
                          addAllowAlwaysPattern out scriptPath
                            (buildScriptArgPatternFromArgv (seg_argv segment0) scriptPath (co_cwd params) (co_platform params))
                      | None => out
                      end
                  | Some command =>
                      let nested := analyzeShellCommand command (co_cwd params) (co_env params) (co_platform params) in
                      if negb (an_ok nested) then out
                      else foldl (λ acc seg, collectAllowAlwaysPatterns levels' params seg acc) out (an_segments nested)
                  end
              end
        end
  end.

Definition resolveAllowAlwaysPatternEntries (params : CollectParams) (segments : list ExecCommandSegment)
    : list AllowAlwaysPattern :=
  foldl (λ acc seg, collectAllowAlwaysPatterns 3 params seg acc) [] segments.

Definition resolveAllowAlwaysPatterns (params : CollectParams) (segments : list ExecCommandSegment) : list string :=
  map aw_pattern (resolveAllowAlwaysPatternEntries params segments).

End allowlist.

(** ** What permits a segment *)

Section permission.
Context `{Host}.

(** The path that an entry is matched with, and the arguments it may restrict. *)
Definition entry_covers (cx : ExecAllowlistContext) (e : ExecAllowlistEntry) (target : option string)
    (argv : option (list string)) : Prop :=
  e ∈ cx_allowlist cx
  ∧ (is_wildcard e = true
     ∨ ∃ p, target = Some p ∧ str_truthy p = true ∧ matchesExecAllowlistPattern (trim (ae_pattern e)) p = true
            ∧ (isWindowsName (default process_platform (cx_platform cx)) = true →
               ∀ ap, truthy (ae_argPattern e) = Some ap → ∃ a, argv = Some a ∧ matchArgPattern ap a (cx_platform cx) = true)).

(** The programs of a segment that entries are looked up for: the program the policy
    judges, the program that a shell's positional parameters carry, the script of a
    shell. *)
Inductive judged (cx : ExecAllowlistContext) (segment : ExecCommandSegment) : option string → option (list string) → Prop :=
| judged_program r p :
    policy <$> seg_resolution segment = Some r →
    p = first_of (truthy (resolvePolicyTargetCandidatePath (seg_resolution segment) (cx_cwd cx))) (truthy (resolvedPath r)) →
    (∀ c, extractShellWrapperInlineCommand (segmentEffectiveArgv segment) = Some c →
          isDirectShellPositionalCarrierInvocation c = false) →
    judged cx segment p (Some (segmentEffectiveArgv segment))
| judged_carried p :
    resolveShellWrapperPositionalArgvCandidatePath
      (mkSegment (seg_raw segment) (segmentEffectiveArgv segment) (seg_resolution segment)) (cx_cwd cx) (cx_env cx) = Some p →
    judged cx segment (Some p) None
| judged_script p :
    extractShellWrapperInlineCommand (segmentEffectiveArgv segment) = None →
    resolveShellWrapperScriptCandidatePath
      (mkSegment (seg_raw segment) (segmentEffectiveArgv segment) (seg_resolution segment)) (cx_cwd cx) = Some p →
    judged cx segment (Some p) (Some (resolveShellWrapperScriptArgv p (segmentEffectiveArgv segment) (cx_cwd cx))).

(** A safe bin in a trusted directory whose arguments its profile accepts. *)
Definition safe_bin (cx : ExecAllowlistContext) (segment : ExecCommandSegment) : Prop :=
  ∃ name target profile,
    isWindowsPlatform (platformOrProcess (cx_platform cx)) = false
    ∧ name ∈ cx_safeBins cx
    ∧ (seg_resolution segment ≫= λ r, resolvedPath (execution r)) = Some target
    ∧ isTrustedSafeBinPath (default (buildTrustedSafeBinDirs None None) (cx_trustedSafeBinDirs cx)) target = true
    ∧ profileOf (default SAFE_BIN_PROFILES (cx_safeBinProfiles cx)) name = Some profile
    ∧ validateSafeBinArgv profile (tail (segmentEffectiveArgv segment)) (Some name) = true.

(** A program of an installed skill, named without a path and found where the skill
    has it. *)
Definition skill_program (cx : ExecAllowlistContext) (segment : ExecCommandSegment) : Prop :=
  cx_autoAllowSkills cx = true
  ∧ ∃ r entry skills name p,
      seg_resolution segment = Some r
      ∧ cx_skillBins cx = Some skills ∧ entry ∈ skills
      ∧ isPathScopedExecutableToken (trim (rawExecutable (execution r))) = false
      ∧ normalizeSkillBinName (Some (executableName (execution r))) = Some name
      ∧ normalizeSkillBinName (Some (sb_name entry)) = Some name
      ∧ normalizeSkillBinResolvedPath (resolvedPath (execution r)) = Some p
      ∧ normalizeSkillBinResolvedPath (Some (sb_resolvedPath entry)) = Some p.

(** [permitted cx levels reason segment]: the grounds for each recorded reason; an inline
    command is judged part by part, [levels] deep. *)
Inductive permitted (cx : ExecAllowlistContext) : nat → ExecSegmentSatisfiedBy → ExecCommandSegment → Prop :=
| permitted_entry levels segment e target argv :
    segmentBlocked segment = false →
    judged cx segment target argv → entry_covers cx e target argv →
    permitted cx levels ByAllowlist segment
| permitted_safe_bin levels segment :
    segmentBlocked segment = false → safe_bin cx segment → permitted cx levels BySafeBins segment
| permitted_skill levels segment :
    segmentBlocked segment = false → skill_program cx segment → permitted cx levels BySkills segment
| permitted_inline levels segment inline parts :
    segmentBlocked segment = false →
    extractShellWrapperInlineCommand (segmentEffectiveArgv segment) = Some inline →
    isWindowsPlatform (cx_platform cx) = false →
    splitCommandChain inline = Some parts → (2 <= length parts)%nat →
    (∀ part, part ∈ parts → an_ok (analyzeShellCommand part (cx_cwd cx) (cx_env cx) (cx_platform cx)) = true) →
    (∀ part inner, part ∈ parts →
       inner ∈ an_segments (analyzeShellCommand part (cx_cwd cx) (cx_env cx) (cx_platform cx)) →
       permitted_somehow cx levels inner) →
    permitted cx (S levels) ByAllowlist segment
with permitted_somehow (cx : ExecAllowlistContext) : nat → ExecCommandSegment → Prop :=
| permitted_for levels reason segment : permitted cx levels reason segment → permitted_somehow cx levels segment.

(** *** Entries *)

Definition covers (platform : option string) (target : string) (argv : option (list string)) (e : ExecAllowlistEntry) : Prop :=
  matchesExecAllowlistPattern (trim (ae_pattern e)) target = true
  ∧ (isWindowsName (default process_platform platform) = true →
     ∀ ap, truthy (ae_argPattern e) = Some ap → ∃ a, argv = Some a ∧ matchArgPattern ap a platform = true).

Lemma matchEntries_Some entries target argv platform pathOnly e :
  matchEntries entries target argv platform (isWindowsName (default process_platform platform)) pathOnly = Some e →
  pathOnly = Some e ∨ (e ∈ entries ∧ covers platform target argv e).
Proof.
  revert pathOnly. induction entries as [|x rest IH]; intros pathOnly He; [by left|]. cbn [matchEntries] in He. cbv zeta in He.
  assert (∀ m, matchEntries rest target argv platform (isWindowsName (default process_platform platform)) m = Some e →
    m = Some e ∨ (e ∈ x :: rest ∧ covers platform target argv e)) as Hnext.
  { intros m [?|[? ?]]%IH; [by left|right; split; [by constructor|done]]. }
  destruct (negb _); [by apply Hnext|]. destruct (negb _); [by apply Hnext|].
  destruct (matchesExecAllowlistPattern _ _) eqn:Em; cbn [negb] in He; [|by apply Hnext].
  destruct (isWindowsName _) eqn:Ew; cbn [negb] in He.
  - destruct (truthy (ae_argPattern x)) as [ap|] eqn:Ea.
    + destruct (match argv with Some a => _ | None => _ end) eqn:Eg; [|by apply Hnext].
      injection He as <-. right. split; [constructor|]. split; [done|]. intros _ ap' Hap. destruct argv as [a|]; [|done].
      exists a. split; [done|congruence].
    + apply Hnext in He as [He|He]; [|by right]. destruct pathOnly as [y|]; [by left|]. injection He as <-.
      right. split; [constructor|]. split; [done|]. intros _ ap' Hap. congruence.
  - injection He as <-. right. split; [constructor|]. split; [done|]. intros Hw. congruence.
Qed.

Lemma matchAllowlist_Some cx r argv e :
  matchAllowlist (cx_allowlist cx) (Some r) argv (cx_platform cx) = Some e →
  entry_covers cx e (truthy (resolvedPath r)) argv.
Proof.
  unfold matchAllowlist, entry_covers. destruct (cx_allowlist cx) as [|x l] eqn:El; [done|]. cbv zeta.
  destruct (List.find is_wildcard _) as [w|] eqn:Ew.
  - intros [= <-]. apply List.find_some in Ew as [Hin Hw]. split; [by apply list_elem_of_In|by left].
  - destruct (truthy (resolvedPath r)) as [p|] eqn:Ep; [|done].
    intros [?|[Hin [Hm Hw]]]%matchEntries_Some; [done|]. split; [done|]. right. exists p. split; [done|].
    split; [|done]. by destruct (resolvedPath r) as [[|c q]|]; [| injection Ep as <- |].
Qed.

Lemma truthy_Some o p : truthy o = Some p → o = Some p ∧ str_truthy p = true.
Proof. destruct o as [[|c s]|]; cbn; [done| |done]. by intros [= <-]. Qed.

Lemma resolveSegmentAllowlistMatch_Some cx segment e :
  sm_match (resolveSegmentAllowlistMatch cx segment) = Some e →
  ∃ target argv, judged cx segment target argv ∧ entry_covers cx e target argv.
Proof.
  unfold resolveSegmentAllowlistMatch. cbv zeta. cbn [sm_match]. unfold resolvePolicyTargetResolution.
  set (argv := segmentEffectiveArgv segment).
  match goal with |- first_of (if ?b then None else ?m) (first_of ?p ?q) = _ → _ =>
    destruct b eqn:Eb; [|destruct m as [e1|] eqn:Em] end; cbn [first_of].
  2: { intros [= <-]. set (res := policy <$> seg_resolution segment) in Em.
    destruct res as [r|] eqn:Er; subst res.
    - exists (first_of (truthy (resolvePolicyTargetCandidatePath (seg_resolution segment) (cx_cwd cx))) (truthy (resolvedPath r))), (Some argv).
      split.
      + apply judged_program with (r := r); [done|done|]. intros c Hc. fold argv in Hc. by rewrite Hc in Eb.
      + destruct (truthy (resolvePolicyTargetCandidatePath _ _)) as [p|] eqn:Ep; cbn [first_of];
          apply matchAllowlist_Some in Em; [|done]. by destruct p; [apply truthy_Some in Ep as []|].
    - destruct (truthy _); by destruct (cx_allowlist cx). }
  all: match goal with |- first_of ?m ?q = _ → _ => destruct m as [e2|] eqn:Ep; cbn [first_of] end;
    [intros [= <-]; clear Eb; try clear Em; destruct (truthy _) as [p|] eqn:Et; [|done]; apply matchAllowlist_Some in Ep; cbn [resolvedPath pathResolution] in Ep;
       apply truthy_Some in Et as [Et Hp]; destruct p as [|c p]; [done|]; cbn [truthy] in Ep;
       exists (Some (String c p)), None; split; [by apply judged_carried|done]|].
  all: destruct (extractShellWrapperInlineCommand argv) eqn:Ei; [done|];
    destruct (truthy _) as [p|] eqn:Et in |- *; [|done]; intros Eq; apply matchAllowlist_Some in Eq; cbn [resolvedPath pathResolution] in Eq;
    apply truthy_Some in Et as [Et Hp]; destruct p as [|c p]; [done|]; cbn [truthy] in Eq;
    eexists _, _; split; [by apply judged_script|done].
Qed.

Lemma isSafeBinUsage_safe_bin cx segment :
  isSafeBinUsage cx (segmentEffectiveArgv segment) (execution <$> seg_resolution segment) = true → safe_bin cx segment.
Proof.
  unfold isSafeBinUsage, safe_bin. destruct (isWindowsPlatform _) eqn:Ew; [done|].
  destruct (cx_safeBins cx) as [|b bins] eqn:Eb; [done|]. rewrite <- Eb.
  destruct (StringCoerce.normalizeOptionalLowercaseString _) as [name|]; [|done].
  destruct (set_has _ name) eqn:Eh; cbn [negb]; [|done].
  destruct (seg_resolution segment) as [r|]; [|done]. cbn [fmap option_fmap option_map mbind option_bind].
  destruct (truthy (resolvedPath (execution r))) as [target|] eqn:Et; [|done].
  destruct (isTrustedSafeBinPath _ _) eqn:Ei; cbn [negb]; [|done].
  destruct (profileOf _ _) as [profile|] eqn:Ep; [|done]. intros Hv.
  apply truthy_Some in Et as [Et _]. exists name, target, profile. split_and!; try done.
  by apply set_has_iff.
Qed.

(** The index has, for a name, the paths of the entries with this name. *)
Lemma buildSkillBinTrustIndex_elem entries name p :
  p ∈ default ∅ (buildSkillBinTrustIndex entries !! name) →
  ∃ l entry, entries = Some l ∧ entry ∈ l ∧ normalizeSkillBinName (Some (sb_name entry)) = Some name
             ∧ normalizeSkillBinResolvedPath (Some (sb_resolvedPath entry)) = Some p.
Proof.
  unfold buildSkillBinTrustIndex, SkillTrust. destruct entries as [l|]; cbn [default from_option id foldl];
    [|rewrite lookup_empty; cbn [default from_option]; set_solver].
  intros Hp. exists l. cut (∃ entry, entry ∈ l ∧ normalizeSkillBinName (Some (sb_name entry)) = Some name
    ∧ normalizeSkillBinResolvedPath (Some (sb_resolvedPath entry)) = Some p); [intros (entry & Hin & Hn & Hr); by exists entry|].
  revert Hp. induction l as [|x l IH] using rev_ind; [cbn [foldl]; rewrite lookup_empty; cbn [default from_option]; set_solver|].
  rewrite foldl_app. cbn [foldl]. intros Hp.
  assert (p ∈ default ∅ (foldl trustSkill ∅ l !! name) → ∃ entry, entry ∈ l ++ [x] ∧
    normalizeSkillBinName (Some (sb_name entry)) = Some name ∧ normalizeSkillBinResolvedPath (Some (sb_resolvedPath entry)) = Some p) as Hold.
  { intros (entry & Hin & Hrest)%IH. exists entry. split; [apply elem_of_app; by left|done]. }
  unfold trustSkill in Hp at 1. unfold SkillTrust in *. destruct (normalizeSkillBinName _) as [n|] eqn:En; [|by apply Hold].
  destruct (truthy _) as [q|] eqn:Eq; [|by apply Hold]. apply truthy_Some in Eq as [Eq _].
  destruct (decide (n = name)) as [->|Hne].
  - rewrite lookup_insert_eq in Hp. cbn in Hp. apply elem_of_union in Hp as [->%elem_of_singleton|Hp]; [|by apply Hold].
    exists x. split; [apply elem_of_app; right; by constructor|done].
  - rewrite lookup_insert_ne in Hp by done. by apply Hold.
Qed.

Lemma isSkillAutoAllowedSegment_program cx segment :
  isSkillAutoAllowedSegment segment (cx_autoAllowSkills cx && negb (size (buildSkillBinTrustIndex (cx_skillBins cx)) =? 0)%nat)
    (buildSkillBinTrustIndex (cx_skillBins cx)) = true →
  skill_program cx segment.
Proof.
  unfold isSkillAutoAllowedSegment, skill_program. destruct (cx_autoAllowSkills cx); [|done]. cbn [andb].
  destruct (negb (negb _)); [done|]. destruct (seg_resolution segment) as [r|]; [|done]. cbn [fmap option_fmap option_map].
  destruct (truthy (resolvedPath _)) as [target|] eqn:Et; [|done]. apply truthy_Some in Et as [Et _].
  destruct (nonblank _) as [raw|] eqn:Er; [|done]. destruct (isPathScopedExecutableToken raw) eqn:Es; [done|].
  destruct (normalizeSkillBinName _) as [name|] eqn:En; [|done]. destruct (truthy _) as [p|] eqn:Ep; [|done].
  apply truthy_Some in Ep as [Ep _]. intros Hin%bool_decide_eq_true.
  apply buildSkillBinTrustIndex_elem in Hin as (l & entry & Hl & Hin & Hn & Hr). split; [done|].
  exists r, entry, l, name, p. split_and!; try done; [|congruence].
  unfold nonblank in Er. cbv zeta in Er. destruct (str_truthy _); congruence.
Qed.

(** *** Segments *)

Definition inline_permitted (cx : ExecAllowlistContext) (levels : nat) (segment : ExecCommandSegment)
    (inline : string → option (list ExecAllowlistEntry)) : Prop :=
  ∀ command matches,
    extractShellWrapperInlineCommand (segmentEffectiveArgv segment) = Some command → inline command = Some matches →
    segmentBlocked segment = false → permitted cx levels ByAllowlist segment.

Lemma evaluateSegment_permitted cx levels inline segment reason entry matches :
  inline_permitted cx levels segment inline →
  evaluateSegment cx inline segment = (Some reason, entry, matches) → permitted cx levels reason segment.
Proof.
  intros Hinline. unfold evaluateSegment. destruct (segmentBlocked segment) eqn:Eb; [done|]. cbv zeta.
  unfold resolveSegmentSatisfaction. destruct (sm_match _) as [e|] eqn:Em.
  - intros [= <- _ _]. apply resolveSegmentAllowlistMatch_Some in Em as (target & argv & Hj & He). by eapply permitted_entry.
  - change (sm_effectiveArgv (resolveSegmentAllowlistMatch cx segment)) with (segmentEffectiveArgv segment).
    destruct (isSafeBinUsage _ _ _) eqn:Es.
    { intros [= <- _ _]. apply permitted_safe_bin; [done|by apply isSafeBinUsage_safe_bin]. }
    destruct (isSkillAutoAllowedSegment _ _ _) eqn:Ek.
    { intros [= <- _ _]. apply permitted_skill; [done|by apply isSkillAutoAllowedSegment_program]. }
    destruct (truthy (sm_inlineCommand _)) as [command|] eqn:Ei; [|done]. cbn [mbind option_bind].
    destruct (inline command) as [m|] eqn:En; [|done]. intros [= <- _ _]. apply truthy_Some in Ei as [Ei _].
    by eapply Hinline.
Qed.

Definition recorded (P : ExecSegmentSatisfiedBy → ExecCommandSegment → Prop) (segment : ExecCommandSegment) (by_ : satisfiedBy) : Prop :=
  ∃ reason, by_ = Some reason ∧ P reason segment.

Lemma evaluateEach_permitted cx levels inline segments :
  (∀ segment, segment ∈ segments → inline_permitted cx levels segment inline) →
  ev_allowlistSatisfied (evaluateEach cx inline segments) = true →
  Forall2 (recorded (permitted cx levels)) segments (ev_segmentSatisfiedBy (evaluateEach cx inline segments)).
Proof.
  induction segments as [|segment rest IH]; intros Hinline Hs; [constructor|]. cbn [evaluateEach] in Hs |- *.
  destruct (evaluateSegment cx inline segment) as [[by_ entry] matches] eqn:Ee. destruct by_ as [reason|]; [|done].
  cbv zeta in Hs. cbn [ev_allowlistSatisfied ev_segmentSatisfiedBy] in Hs |- *. constructor.
  - exists reason. split; [done|]. eapply evaluateSegment_permitted; [|done]. apply Hinline. by constructor.
  - apply IH; [|done]. intros s Hin. apply Hinline. by constructor.
Qed.

(** *** Inline commands *)

Lemma inlineParts_Some cx evaluate parts matches part :
  inlineParts cx evaluate parts = Some matches → part ∈ parts →
  let analysis := analyzeShellCommand part (cx_cwd cx) (cx_env cx) (cx_platform cx) in
  an_ok analysis = true ∧ ev_allowlistSatisfied (evaluate (an_segments analysis)) = true.
Proof.
  cbv zeta. revert matches. induction parts as [|p rest IH]; intros matches Hp Hin; [by apply elem_of_nil in Hin|].
  cbn [inlineParts] in Hp. cbv zeta in Hp.
  destruct (an_ok (analyzeShellCommand p _ _ _)) eqn:Eo; [|done]. cbn [negb] in Hp.
  destruct (ev_allowlistSatisfied (evaluate (an_segments (analyzeShellCommand p _ _ _)))) eqn:Es; [|done]. cbn [negb] in Hp.
  destruct (inlineParts cx evaluate rest) as [m|] eqn:Er; [|done].
  apply elem_of_cons in Hin as [->|Hin]; [done|by eapply IH].
Qed.

Lemma evaluateSegments_permitted levels cx segments :
  ev_allowlistSatisfied (evaluateSegments levels cx segments) = true →
  Forall2 (recorded (permitted cx levels)) segments (ev_segmentSatisfiedBy (evaluateSegments levels cx segments)).
Proof.
  revert segments. induction levels as [|levels IH]; intros segments; cbn [evaluateSegments]; apply evaluateEach_permitted;
    intros segment _ command matches Hc Hinline Hb; cbn beta in Hinline; [done|].
  destruct (splitCommandChain command) as [[|p [|q rest]]|] eqn:Es; try done.
  destruct (isWindowsPlatform (cx_platform cx)) eqn:Ew; [done|].
  eapply permitted_inline; [done|done|done|done|cbn; lia| |].
  - intros part Hin. by apply (inlineParts_Some _ _ _ _ _ Hinline Hin).
  - intros part inner Hin Hinner. apply (inlineParts_Some _ _ _ _ _ Hinline) in Hin as [_ Hs]. apply IH in Hs.
    apply list_elem_of_lookup_1 in Hinner as [i Hi]. eapply Forall2_lookup_l in Hs as (b & _ & reason & _ & Hp); [|done].
    by econstructor.
Qed.

Lemma evaluateGroups_permitted cx hasChains groups sofar :
  let result := evaluateGroups cx hasChains groups sofar in
  ev_allowlistSatisfied result = true →
  ∃ l, ev_segmentSatisfiedBy result = ev_segmentSatisfiedBy sofar ++ l
       ∧ Forall2 (recorded (permitted cx INLINE_LEVELS)) (concat groups) l.
Proof.
  cbv zeta. revert sofar. induction groups as [|group rest IH]; intros sofar; cbn [evaluateGroups concat].
  - intros _. exists []. split; [by rewrite app_nil_r|constructor].
  - cbv zeta. destruct (ev_allowlistSatisfied (evaluateSegments _ _ _)) eqn:Es; cbn [negb].
    + intros (l & Hl & Hall)%IH. cbn [ev_segmentSatisfiedBy] in Hl. rewrite <- app_assoc in Hl.
      eexists. split; [exact Hl|]. apply Forall2_app; [by apply evaluateSegments_permitted|done].
    + destruct hasChains; [done|]. congruence.
Qed.

(** The chains of an analysis are its segments in groups. *)
Lemma analyzeShellCommand_chains command cwd env platform groups :
  an_chains (analyzeShellCommand command cwd env platform) = Some groups →
  an_segments (analyzeShellCommand command cwd env platform) = concat groups.
Proof.
  unfold analyzeShellCommand. destruct (isWindowsPlatform _).
  - unfold analyzeWindowsShellCommand. repeat case_match; done.
  - destruct (splitCommandChain command); [|by destruct (analyzePipeline _ _ _)].
    destruct (analyzeChain _ _ _); [|done]. by intros [= <-].
Qed.

Lemma evaluateExecAllowlist_permitted cx command :
  let analysis := analyzeShellCommand command (cx_cwd cx) (cx_env cx) (cx_platform cx) in
  let evaluation := evaluateExecAllowlist cx analysis in
  ev_allowlistSatisfied evaluation = true →
  an_segments analysis ≠ []
  ∧ Forall2 (recorded (permitted cx INLINE_LEVELS)) (an_segments analysis) (ev_segmentSatisfiedBy evaluation).
Proof.
  cbv zeta. unfold evaluateExecAllowlist. destruct (negb _ || _) eqn:E; [done|].
  apply orb_false_iff in E as [_ E%Nat.eqb_neq]. cbv zeta. intros Hs. split; [by intros Hn; rewrite Hn in E|].
  destruct (an_chains _) as [groups|] eqn:Ec; cbn [default from_option id] in Hs |- *.
  - apply evaluateGroups_permitted in Hs as (l & Hl & Hall). apply analyzeShellCommand_chains in Ec. rewrite Ec.
    cbn [ev_segmentSatisfiedBy app] in Hl. by rewrite Hl.
  - apply evaluateGroups_permitted in Hs as (l & Hl & Hall). cbn [concat] in Hall. rewrite app_nil_r in Hall.
    cbn [ev_segmentSatisfiedBy app] in Hl. by rewrite Hl.
Qed.

(** *** Displays of skills *)

Definition trustedIds (p : PartEvaluation) : gset string :=
  resolveTrustedSkillExecutionIds (pe_analysis p) (pe_evaluation p).

Definition prelude_only (cwd : option string) (p : PartEvaluation) : Prop :=
  an_segments (pe_analysis p) ≠ []
  ∧ Forall (λ segment, isSkillPreludeSegment segment cwd = true) (an_segments (pe_analysis p)).

Lemma isSkillPreludeOnly_spec cwd p :
  isSkillPreludeOnlyEvaluation (an_segments (pe_analysis p)) cwd = true → prelude_only cwd p.
Proof.
  unfold isSkillPreludeOnlyEvaluation, prelude_only. intros [Hn%negb_true_iff%Nat.eqb_neq Hall]%andb_true_iff. split.
  - by intros Hnil; rewrite Hnil in Hn.
  - apply List.Forall_forall. by apply forallb_forall.
Qed.

Lemma size_zero (x : gset string) : size x = 0%nat ↔ x = ∅.
Proof. by rewrite size_empty_iff, leibniz_equiv_iff. Qed.

Lemma size_nonempty (x : gset string) : negb (size x =? 0)%nat = true ↔ x ≠ ∅.
Proof. rewrite negb_true_iff, Nat.eqb_neq. apply not_iff_compat, size_zero. Qed.

(** The run of part [j] executes skill [id], and only displays and executions of
    trusted skills come before it. *)
Definition reaches (flags : list bool) (parts : list PartEvaluation) (i j : nat) (id : string) : Prop :=
  ∃ p, parts !! j = Some p ∧ id ∈ trustedIds p
       ∧ ∀ k q, (i <= k < j)%nat → parts !! k = Some q → flags !! k = Some true ∨ trustedIds q ≠ ∅.

Lemma reaches_S flag flags p parts i j id :
  reaches flags parts i j id → reaches (flag :: flags) (p :: parts) (S i) (S j) id.
Proof.
  intros (q & Hq & Hid & Hbetween). exists q. split_and!; [done|done|]. intros [|k] r Hk Hr; [lia|]. cbn in Hr |- *.
  apply (Hbetween k r); [lia|done].
Qed.

Lemma reaches_weaken flags p parts j id :
  flags !! 0%nat = Some true ∨ trustedIds p ≠ ∅ → reaches flags (p :: parts) 1 j id → reaches flags (p :: parts) 0 j id.
Proof.
  intros H0 (q & Hq & Hid & Hbetween). exists q. split_and!; [done|done|]. intros [|k] r Hk Hr.
  - cbn in Hr. by injection Hr as <-.
  - apply (Hbetween (S k) r); [lia|done].
Qed.

Definition allowed_prelude (cwd : option string) (flags : list bool) (parts : list PartEvaluation) (i : nat) : Prop :=
  ∃ p, parts !! i = Some p ∧ prelude_only cwd p ∧ pe_opToNext p = Some AndThen
       ∧ ∃ j id, (i < j)%nat ∧ reaches flags parts i j id
                 ∧ (resolveSkillPreludeIds (an_segments (pe_analysis p)) cwd = ∅
                    ∨ id ∈ resolveSkillPreludeIds (an_segments (pe_analysis p)) cwd).

Lemma allowed_prelude_S cwd flag flags p parts i :
  allowed_prelude cwd flags parts i → allowed_prelude cwd (flag :: flags) (p :: parts) (S i).
Proof.
  intros (q & Hq & Ho & Hop & j & id & Hij & Hr & Hids). exists q. split_and!; [done|done|done|]. exists (S j), id.
  split_and!; [lia|by apply reaches_S|done].
Qed.

Lemma preludeStep_true cwd p reachable reachable' :
  preludeStep cwd p reachable = (true, reachable') →
  prelude_only cwd p ∧ pe_opToNext p = Some AndThen ∧ reachable' = reachable
  ∧ ∃ id, id ∈ reachable ∧ (resolveSkillPreludeIds (an_segments (pe_analysis p)) cwd = ∅
                             ∨ id ∈ resolveSkillPreludeIds (an_segments (pe_analysis p)) cwd).
Proof.
  unfold preludeStep. cbv zeta. destruct (negb (size (resolveTrustedSkillExecutionIds _ _) =? 0)%nat); [done|].
  destruct (negb _ && _) eqn:Eo; [|done]. cbn [andb]. apply andb_true_iff in Eo as [_ Eo%isSkillPreludeOnly_spec].
  destruct (pe_opToNext p) as [[]|]; try done. set (ids := resolveSkillPreludeIds _ _).
  destruct (size ids =? 0)%nat eqn:Ei; [apply Nat.eqb_eq, size_zero in Ei|].
  - destruct (negb _) eqn:Er; [|done]. intros [= <-]. apply size_nonempty, set_choose_L in Er as [id Hid].
    split_and!; try done. exists id. by split; [|left].
  - destruct (negb _) eqn:Er; [|done]. intros [= <-]. apply size_nonempty, set_choose_L in Er as [id Hid].
    apply elem_of_intersection in Hid as [H1 H2]. split_and!; try done. exists id. by split; [|right].
Qed.

Lemma preludeStep_false cwd p reachable reachable' id :
  preludeStep cwd p reachable = (false, reachable') → id ∈ reachable' →
  trustedIds p ≠ ∅ ∧ (id ∈ trustedIds p ∨ id ∈ reachable).
Proof.
  unfold preludeStep, trustedIds. cbv zeta. set (trusted := resolveTrustedSkillExecutionIds _ _).
  destruct (negb (size trusted =? 0)%nat) eqn:Et; [|destruct (negb _ && _ && _); intros [= <-]; set_solver].
  intros [= <-] Hid. apply size_nonempty in Et. split; [done|set_solver].
Qed.

Lemma allowedPreludes_sound cwd parts flags reachable :
  allowedPreludes cwd parts = (flags, reachable) →
  length flags = length parts
  ∧ (∀ id, id ∈ reachable → ∃ j, reaches flags parts 0 j id)
  ∧ (∀ i, flags !! i = Some true → allowed_prelude cwd flags parts i).
Proof.
  revert flags reachable. induction parts as [|p rest IH]; intros flags reachable; cbn [allowedPreludes].
  { intros [= <- <-]. split_and!; [done|set_solver|done]. }
  destruct (allowedPreludes cwd rest) as [flags0 reachable0]. destruct (IH _ _ eq_refl) as (Hlen & Hreach & Hallowed).
  destruct (preludeStep cwd p reachable0) as [flag reachable1] eqn:Es. intros [= <- <-].
  assert (∀ id, id ∈ reachable0 → flag = true ∨ trustedIds p ≠ ∅ → ∃ j, (0 < j)%nat ∧ reaches (flag :: flags0) (p :: rest) 0 j id) as Hkeep.
  { intros id (j & Hj)%Hreach H0. exists (S j). split; [lia|]. apply reaches_weaken; [|by apply reaches_S].
    destruct H0 as [->|H0]; [by left|by right]. }
  split_and!; [cbn; lia| |].
  - intros id Hid. destruct flag.
    + apply preludeStep_true in Es as (_ & _ & -> & _). destruct (Hkeep id Hid) as (j & _ & Hj); [by left|]. by exists j.
    + destruct (preludeStep_false _ _ _ _ _ Es Hid) as [Hne [Hp|H0]].
      * exists 0%nat, p. split_and!; [done|done|]. intros k q Hk. lia.
      * destruct (Hkeep id H0) as (j & _ & Hj); [by right|]. by exists j.
  - intros [|i] Hi; [|by apply allowed_prelude_S, Hallowed]. cbn in Hi. injection Hi as ->.
    apply preludeStep_true in Es as (Ho & Hop & _ & id & Hid & Hids). exists p. split_and!; [done|done|done|].
    destruct (Hkeep id Hid) as (j & Hj & Hr); [by left|]. by exists j, id.
Qed.

(** *** Whole commands *)

Definition grounds (cx : ExecAllowlistContext) (reason : ExecSegmentSatisfiedBy) (segment : ExecCommandSegment) : Prop :=
  permitted cx INLINE_LEVELS reason segment
  ∨ (reason = BySkillPrelude ∧ isSkillPreludeSegment segment (cx_cwd cx) = true).

Definition analysisOf (cx : ExecAllowlistContext) (command : string) : ExecCommandAnalysis :=
  analyzeShellCommand command (cx_cwd cx) (cx_env cx) (cx_platform cx).

(** The parts of a chain, each analysed by itself; Windows commands are one part. *)
Definition commandParts (cx : ExecAllowlistContext) (command : string) : list string :=
  if isWindowsPlatform (cx_platform cx) then [command] else default [command] (splitCommandChain command).

Lemma recorded_grounds cx segments l :
  Forall2 (recorded (permitted cx INLINE_LEVELS)) segments l → Forall2 (recorded (grounds cx)) segments l.
Proof.
  intros Hl. eapply Forall2_impl; [exact Hl|]. intros segment b (reason & Hb & Hp). exists reason. split; [done|by left].
Qed.

Lemma prelude_grounds cx segments :
  Forall (λ segment, isSkillPreludeSegment segment (cx_cwd cx) = true) segments →
  Forall2 (recorded (grounds cx)) segments (map (λ _, Some BySkillPrelude) segments).
Proof.
  induction 1 as [|segment rest Hp _ IH]; [constructor|]. cbn [map]. constructor; [|done].
  exists BySkillPrelude. split; [done|by right].
Qed.

(** A part that ends up allowed: by its evaluation, or as a display. *)
Definition part_grounds (cx : ExecAllowlistContext) (e : PartEvaluation * bool) : Prop :=
  let '(p, prelude) := e in
  (ev_allowlistSatisfied (pe_evaluation p) = true →
   Forall2 (recorded (permitted cx INLINE_LEVELS)) (an_segments (pe_analysis p)) (ev_segmentSatisfiedBy (pe_evaluation p)))
  ∧ (prelude = true → prelude_only (cx_cwd cx) p).

Lemma finalizeParts_satisfied cx parts sofar :
  Forall (part_grounds cx) parts →
  aa_allowlistSatisfied (finalizeParts parts sofar) = true →
  ∃ l, aa_segments (finalizeParts parts sofar)
         = aa_segments sofar ++ concat (map (λ e, an_segments (pe_analysis e.1)) parts)
       ∧ aa_segmentSatisfiedBy (finalizeParts parts sofar) = aa_segmentSatisfiedBy sofar ++ l
       ∧ Forall2 (recorded (grounds cx)) (concat (map (λ e, an_segments (pe_analysis e.1)) parts)) l.
Proof.
  intros Hall. revert sofar. induction Hall as [|[p prelude] rest [Hs Hp] _ IH]; intros sofar; cbn [finalizeParts map concat].
  { intros _. exists []. cbn [aa_segments aa_segmentSatisfiedBy]. rewrite !app_nil_r. by repeat constructor. }
  cbv zeta. destruct (negb _ && _) eqn:Ef; [done|]. intros (l & Hseg & Hby & Hl)%IH.
  cbn [aa_segments aa_segmentSatisfiedBy] in Hseg, Hby. rewrite <- app_assoc in Hseg, Hby. eexists. split_and!; [exact Hseg|exact Hby|].
  cbn [fst]. apply Forall2_app; [|done]. destruct prelude.
  - by apply prelude_grounds, Hp.
  - apply recorded_grounds, Hs. by destruct (ev_allowlistSatisfied _).
Qed.

Lemma evaluatePart_Some cx x p :
  evaluatePart cx x = Some p →
  pe_analysis p = analysisOf cx (part x) ∧ pe_opToNext p = opToNext x
  ∧ pe_evaluation p = evaluateExecAllowlist cx (analysisOf cx (part x)).
Proof. unfold evaluatePart. cbv zeta. destruct (an_ok _); [|done]. by intros [= <-]. Qed.

Lemma evaluated_parts cx parts evaluations :
  mapM (evaluatePart cx) parts = Some evaluations →
  map (λ p, an_segments (pe_analysis p)) evaluations = map (λ c, an_segments (analysisOf cx c)) (map part parts)
  ∧ Forall (λ p, ev_allowlistSatisfied (pe_evaluation p) = true →
      an_segments (pe_analysis p) ≠ []
      ∧ Forall2 (recorded (permitted cx INLINE_LEVELS)) (an_segments (pe_analysis p)) (ev_segmentSatisfiedBy (pe_evaluation p))) evaluations.
Proof.
  intros Hm%mapM_Some. induction Hm as [|x p xs ps Hp _ [IH1 IH2]]; [done|].
  apply evaluatePart_Some in Hp as (Ha & _ & He). cbn [map]. split; [by rewrite IH1, Ha|]. constructor; [|done].
  rewrite Ha, He. apply evaluateExecAllowlist_permitted.
Qed.

(** What [evaluateShellAllowlist] does once the command is in parts. *)
Lemma evaluated_chain cx parts evaluations flags :
  mapM (evaluatePart cx) parts = Some evaluations →
  (allowedPreludes (cx_cwd cx) evaluations).1 = flags →
  length flags = length evaluations
  ∧ Forall (part_grounds cx) (zip evaluations flags)
  ∧ map (λ e, an_segments (pe_analysis e.1)) (zip evaluations flags) = map (λ c, an_segments (analysisOf cx c)) (map part parts).
Proof.
  intros Hm Hf. destruct (evaluated_parts _ _ _ Hm) as [Hseg Hall].
  destruct (allowedPreludes _ _) as [flags' reachable] eqn:Ea. cbn [fst] in Hf. subst flags'.
  apply allowedPreludes_sound in Ea as (Hlen & _ & Hallowed). split_and!; [done| |].
  - apply Forall_lookup. intros i [p flag] Hi. apply lookup_zip_Some in Hi as [Hp Hflag]. split.
    + intros Hs. apply Forall_lookup_1 with (i := i) (x := p) in Hall; [|done]. by destruct (Hall Hs).
    + intros ->. apply Hallowed in Hflag as (q & Hq & Ho & _). congruence.
  - rewrite <- Hseg. rewrite <- (fst_zip evaluations flags) at 2 by lia. by rewrite List.map_map.
Qed.

Lemma chain_nonempty command chain : splitCommandChainWithOperators command = Some chain → chain ≠ [].
Proof.
  unfold splitCommandChainWithOperators. destruct (scan _ _ _ _ _) as [[]|st]; [destruct (negb _); [done|]].
  destruct (trim _); [done|]. destruct (c_invalidChain st); [done|]. intros [= <-]. by destruct (c_parts st).
Qed.

Lemma finalizeParts_first p prelude rest sofar :
  aa_allowlistSatisfied (finalizeParts ((p, prelude) :: rest) sofar) = true →
  ev_allowlistSatisfied (pe_evaluation p) = true ∨ prelude = true.
Proof.
  cbn [finalizeParts]. cbv zeta. destruct (ev_allowlistSatisfied _); [by left|]. destruct prelude; [by right|done].
Qed.

Lemma satisfied_parts_nonempty cx chain evaluations sofar :
  chain ≠ [] → mapM (evaluatePart cx) chain = Some evaluations →
  aa_allowlistSatisfied (finalizeParts (zip evaluations (allowedPreludes (cx_cwd cx) evaluations).1) sofar) = true →
  concat (map (λ e, an_segments (pe_analysis e.1)) (zip evaluations (allowedPreludes (cx_cwd cx) evaluations).1)) ≠ [].
Proof.
  intros Hne Hm Hs. destruct (evaluated_parts _ _ _ Hm) as [_ Hall].
  destruct (evaluated_chain _ _ _ _ Hm eq_refl) as (Hlen & Hgrounds & _). apply length_mapM in Hm.
  destruct (allowedPreludes _ _) as [flags reachable]. cbn [fst] in *.
  destruct chain as [|x chain], evaluations as [|p evaluations], flags as [|flag flags]; try done.
  cbn [zip zip_with] in *. apply finalizeParts_first in Hs. apply Forall_cons_1 in Hall as [Hp _], Hgrounds as [[_ Hg] _].
  cbn [map concat fst]. destruct Hs as [Hs|Hs]; [destruct (Hp Hs) as [Hn _]|destruct (Hg Hs) as [Hn _]];
    by destruct (an_segments (pe_analysis p)).
Qed.

Lemma evaluateShellAllowlist_grounds cx command :
  let a := evaluateShellAllowlist cx command in
  aa_allowlistSatisfied a = true →
  aa_segments a ≠ []
  ∧ aa_segments a = concat (map (λ c, an_segments (analysisOf cx c)) (commandParts cx command))
  ∧ Forall2 (recorded (grounds cx)) (aa_segments a) (aa_segmentSatisfiedBy a).
Proof.
  cbv zeta. unfold evaluateShellAllowlist, commandParts, splitCommandChain.
  destruct (hasShellLineContinuation command); [done|].
  set (parts := if isWindowsPlatform _ then None else _).
  assert ((if isWindowsPlatform (cx_platform cx) then [command]
    else default [command] (map part <$> splitCommandChainWithOperators command)) = default [command] (map part <$> parts)) as ->.
  { unfold parts. by destruct (isWindowsPlatform _). }
  destruct parts as [chain|] eqn:Ep; unfold parts in Ep; clear parts; cbn [fmap option_fmap option_map default from_option id].
  - destruct (mapM _ chain) as [evaluations|] eqn:Em; [|done].
    destruct (evaluated_chain _ _ _ _ Em eq_refl) as (Hlen & Hgrounds & Hseg). intros Hs.
    destruct (finalizeParts_satisfied _ _ _ Hgrounds Hs) as (l & -> & -> & Hl). cbn [aa_segments aa_segmentSatisfiedBy app].
    split_and!; [|by rewrite Hseg|done]. apply length_mapM in Em as Hlen'.
    assert (chain ≠ []) as Hne by (destruct (isWindowsPlatform _); [done|by eapply chain_nonempty]).
    by eapply satisfied_parts_nonempty.
  - destruct (an_ok _) eqn:Eo; [|done]. cbn [negb]. cbv zeta. cbn [aa_allowlistSatisfied aa_segments aa_segmentSatisfiedBy].
    intros [Hne Hall]%evaluateExecAllowlist_permitted. split_and!; [done| |by apply recorded_grounds].
    cbn [map concat]. by rewrite app_nil_r.
Qed.

(** C4. A command that the allowlist is said to satisfy ([evaluateShellAllowlist]) has
    segments, they are the segments of its parts in order, and for each one the recorded
    reason has grounds: an entry that covers the program it runs, a safe bin in a trusted
    directory with accepted arguments, a skill found at its own path, an inline command of
    at least two parts whose segments have grounds in turn, or the display of a skill; a
    segment whose wrapper is blocked has none. *)
Theorem allowed_command_has_grounds cx command :
  let a := evaluateShellAllowlist cx command in
  aa_allowlistSatisfied a = true →
  aa_segments a ≠ []
  ∧ aa_segments a = concat (map (λ c, an_segments (analysisOf cx c)) (commandParts cx command))
  ∧ Forall2 (recorded (grounds cx)) (aa_segments a) (aa_segmentSatisfiedBy a).
Proof. apply evaluateShellAllowlist_grounds. Qed.

Lemma finalizeParts_all evaluations flags sofar :
  aa_allowlistSatisfied (finalizeParts (zip evaluations flags) sofar) = true →
  ∀ i p, evaluations !! i = Some p → length flags = length evaluations →
  ev_allowlistSatisfied (pe_evaluation p) = true ∨ flags !! i = Some true.
Proof.
  revert flags sofar. induction evaluations as [|q rest IH]; intros [|flag flags] sofar Hs i p Hi Hlen; try done.
  cbn [zip zip_with] in Hs. destruct i as [|i].
  - cbn in Hi. injection Hi as ->. apply finalizeParts_first in Hs as [Hs| ->]; [by left|by right].
  - cbn in Hi |- *. cbn [finalizeParts] in Hs. cbv zeta in Hs. destruct (negb _ && _); [done|].
    eapply IH; [exact Hs|done|]. by injection Hlen.
Qed.

(** In an allowed chain ([evaluateShellAllowlist]), a part that the allowlist does
    not satisfy by itself only displays skills, is joined to the next part by [&&], and
    a later part executes a trusted skill, one of those displayed if any is named; every
    part up to there is again such a display or executes a trusted skill. *)
Lemma unlisted_parts_display_the_skill_they_run cx command chain evaluations i p :
  isWindowsPlatform (cx_platform cx) = false →
  splitCommandChainWithOperators command = Some chain →
  mapM (evaluatePart cx) chain = Some evaluations →
  aa_allowlistSatisfied (evaluateShellAllowlist cx command) = true →
  evaluations !! i = Some p →
  ev_allowlistSatisfied (pe_evaluation p) = true
  ∨ allowed_prelude (cx_cwd cx) (allowedPreludes (cx_cwd cx) evaluations).1 evaluations i.
Proof.
  intros Hw Hc Hm. unfold evaluateShellAllowlist. destruct (hasShellLineContinuation command); [done|].
  rewrite Hw, Hc. cbv iota. rewrite Hm. intros Hs Hi. destruct (allowedPreludes _ _) as [flags reachable] eqn:Ea. cbn [fst] in *.
  apply allowedPreludes_sound in Ea as (Hlen & _ & Hallowed).
  destruct (finalizeParts_all _ _ _ Hs i p Hi Hlen) as [Hp|Hflag]; [by left|right; by apply Hallowed].
Qed.

End permission.

(** A host with a skill's wrapper, for the witnesses. *)
Definition skill_host : Host :=
  {| host_process := {| process_platform := "linux" |}; win32_path := posix_path; process_cwd := "/";
     process_env := λ k, if String.eqb k "PATH" then Some "/bin" else None; os_homedir := None;
     stat_isFile := λ p, set_has ["/bin/cat"; "/bin/printf"; "/bin/wc"; "/bin/weather-wrapper"] p;
     access_executable := λ _, true; realpathSync := λ _, None; compile_regexp := λ _, None |}.

Definition weather_context : ExecAllowlistContext :=
  mkContext [mkEntry None "/bin/weather-*" false None None None None None] ["wc"] None None None None None None false.

Definition weather_command : string :=
  "cat /app/skills/weather/SKILL.md && printf '\n---CMD---\n' && weather-wrapper today | wc".

Lemma allowed_command_has_grounds_witness :
  let a := @evaluateShellAllowlist skill_host weather_context weather_command in
  aa_segmentSatisfiedBy a = [Some BySkillPrelude; Some BySkillPrelude; Some ByAllowlist; Some BySafeBins]
  ∧ Forall2 (recorded (@grounds skill_host weather_context)) (aa_segments a) (aa_segmentSatisfiedBy a).
Proof.
  split; [vm_compute; reflexivity|].
  apply (@allowed_command_has_grounds skill_host weather_context weather_command). vm_compute. reflexivity.
Defined.

Definition weather_chain : list ShellChainPart := default [] (splitCommandChainWithOperators weather_command).
Definition weather_parts : list PartEvaluation :=
  default [] (mapM (@evaluatePart skill_host weather_context) weather_chain).
Definition weather_part (i : nat) : PartEvaluation :=
  List.nth i weather_parts (mkPartEvaluation (failedAnalysis EmptyString) unsatisfied None).

Lemma unlisted_parts_display_the_skill_they_run_witness :
  ev_allowlistSatisfied (pe_evaluation (weather_part 0)) = false
  ∧ @allowed_prelude skill_host None (@allowedPreludes skill_host None weather_parts).1 weather_parts 0.
Proof.
  assert (Hf : ev_allowlistSatisfied (pe_evaluation (weather_part 0)) = false) by (vm_compute; reflexivity).
  assert (Hc : splitCommandChainWithOperators weather_command = Some weather_chain) by (vm_compute; reflexivity).
  assert (Hm : mapM (@evaluatePart skill_host weather_context) weather_chain = Some weather_parts) by (vm_compute; reflexivity).
  assert (Hs : aa_allowlistSatisfied (@evaluateShellAllowlist skill_host weather_context weather_command) = true)
    by (vm_compute; reflexivity).
  assert (Hp : weather_parts !! 0%nat = Some (weather_part 0)) by (vm_compute; reflexivity).
  split; [exact Hf|].
  destruct (@unlisted_parts_display_the_skill_they_run skill_host weather_context weather_command weather_chain
    weather_parts 0 (weather_part 0) eq_refl Hc Hm Hs Hp) as [Ht|Ha]; [congruence|exact Ha].
Defined.

End ExecAllowlist.
