(* ===== verification/ShellItems.v ===== *)
(** * Command lines as sequences of quoted items

    The scanners of src/infra/exec-approvals-analysis.ts and src/utils/shell-argv.ts
    and the reader of [ShellReading] all treat a quotation, an escaped character or an
    unquoted character as one unit. This file cuts a string into these items and
    restates each scanner as a function on them, for texts in which blanks are the
    only white space and no here-document begins. *)

From Stdlib Require Import Ascii.
From S2P Require Import Prelude JsRegex ShellSyntax ShellReading.

#[local] Open Scope stdpp_scope.

Module ShellItems.
Export ShellReading.

(** ** Items *)

Inductive dchar : Type := DChar (c : ascii) | DEsc (c : ascii).

Inductive item : Type :=
| IChar (c : ascii)
| IEsc (c : ascii)
| ISingle (body : string)
| IDouble (body : list dchar)
| IOpen (text : string).   (* what is never closed *)

Definition dchar_text (d : dchar) : string :=
  match d with DChar c => chr c | DEsc c => String backslash (chr c) end.

Fixpoint dtext (ds : list dchar) : string :=
  match ds with [] => EmptyString | d :: ds' => dchar_text d +:+ dtext ds' end.

Definition item_text (it : item) : string :=
  match it with
  | IChar c => chr c
  | IEsc c => String backslash (chr c)
  | ISingle b => String quote (b +:+ chr quote)
  | IDouble ds => String dquote (dtext ds +:+ chr dquote)
  | IOpen t => t
  end.

Fixpoint texts (l : list item) : string :=
  match l with [] => EmptyString | it :: l' => item_text it +:+ texts l' end.

Definition first_char (s : string) (next : option ascii) : option ascii :=
  match s with String c _ => Some c | EmptyString => next end.

(** A backslash that is not an escape is followed by another character. *)
Fixpoint dwf (next : option ascii) (ds : list dchar) : bool :=
  match ds with
  | [] => true
  | DEsc c :: ds' => DOUBLE_QUOTE_ESCAPES c && dwf next ds'
  | DChar c :: ds' =>
      negb (Ascii.eqb c dquote)
      && (if Ascii.eqb c backslash
          then match first_char (dtext ds') next with Some d => negb (DOUBLE_QUOTE_ESCAPES d) | None => true end
          else true)
      && dwf next ds'
  end.

Definition plain_char (c : ascii) : bool :=
  negb (Ascii.eqb c quote) && negb (Ascii.eqb c dquote) && negb (Ascii.eqb c backslash).

Definition no_quote (s : string) : bool := str_all (λ c, negb (Ascii.eqb c quote)) s.

Inductive itemized : string → list item → Prop :=
| it_nil : itemized EmptyString []
| it_char c s l : plain_char c = true → itemized s l → itemized (String c s) (IChar c :: l)
| it_esc c s l : itemized s l → itemized (String backslash (String c s)) (IEsc c :: l)
| it_single b s l : no_quote b = true → itemized s l →
    itemized (String quote (b +:+ String quote s)) (ISingle b :: l)
| it_double ds s l : dwf (Some dquote) ds = true → itemized s l →
    itemized (String dquote (dtext ds +:+ String dquote s)) (IDouble ds :: l)
| it_open_esc : itemized (chr backslash) [IOpen (chr backslash)]
| it_open_single b : no_quote b = true → itemized (String quote b) [IOpen (String quote b)]
| it_open_double ds : dwf None ds = true →
    itemized (String dquote (dtext ds)) [IOpen (String dquote (dtext ds))].

Definition closed (l : list item) : Prop := Forall (λ it, ∀ t, it ≠ IOpen t) l.

Lemma itemized_texts s l : itemized s l → s = texts l.
Proof.
  induction 1 as [|c s l _ _ IH|c s l _ IH|b s l _ _ IH|ds s l _ _ IH| |b|ds]; cbn; subst; try done.
  - by rewrite append_assoc.
  - by rewrite append_assoc.
  - by rewrite append_nil_r.
  - by rewrite append_nil_r.
Qed.

(** The first quote of a text. *)
Lemma split_quote s :
  no_quote s = true ∨ ∃ b r, s = b +:+ String quote r ∧ no_quote b = true.
Proof.
  induction s as [|c s IH]; [by left|]. cbn. destruct (Ascii.eqb c quote) eqn:E.
  - apply Ascii.eqb_eq in E as ->. right. by exists EmptyString, s.
  - destruct IH as [H|(b & r & -> & H)]; [by left|]. right. exists (String c b), r. cbn. by rewrite E.
Qed.

(** The end of a quotation, read up to its first active quote. *)
Lemma split_dquote s :
  (∃ ds, s = dtext ds ∧ dwf None ds = true)
  ∨ ∃ ds r, s = dtext ds +:+ String dquote r ∧ dwf (Some dquote) ds = true.
Proof.
  remember (String.length s) as n eqn:Hn. revert s Hn.
  induction n as [n IH] using lt_wf_ind. intros s ->.
  destruct s as [|c s]; [by left; exists []|].
  destruct (Ascii.eqb c dquote) eqn:Eq.
  { apply Ascii.eqb_eq in Eq as ->. right. by exists [], s. }
  destruct (Ascii.eqb c backslash) eqn:Eb.
  - apply Ascii.eqb_eq in Eb as ->. destruct s as [|d s].
    { left. by exists [DChar backslash]. }
    destruct (DOUBLE_QUOTE_ESCAPES d) eqn:Ed.
    + destruct (IH (String.length s) ltac:(cbn; lia) s eq_refl) as [(ds & -> & H)|(ds & r & -> & H)].
      * left. exists (DEsc d :: ds). cbn. by rewrite Ed.
      * right. exists (DEsc d :: ds), r. cbn. by rewrite Ed.
    + destruct (IH (String.length (String d s)) ltac:(cbn; lia) (String d s) eq_refl)
        as [(ds & Hs & H)|(ds & r & Hs & H)].
      * left. exists (DChar backslash :: ds). cbn -[DOUBLE_QUOTE_ESCAPES]. rewrite Hs, H. split; [done|].
        rewrite <- Hs. cbn -[DOUBLE_QUOTE_ESCAPES]. by rewrite Ed.
      * right. exists (DChar backslash :: ds), r. cbn -[DOUBLE_QUOTE_ESCAPES]. rewrite Hs, H. split; [done|].
        destruct (dtext ds) as [|e t]; cbn in Hs; injection Hs as -> _; cbn -[DOUBLE_QUOTE_ESCAPES].
        -- done.
        -- by rewrite Ed.
  - destruct (IH (String.length s) ltac:(cbn; lia) s eq_refl) as [(ds & -> & H)|(ds & r & -> & H)].
    + left. exists (DChar c :: ds). cbn. by rewrite Eq, Eb.
    + right. exists (DChar c :: ds), r. cbn. by rewrite Eq, Eb.
Qed.

(** Every string is itemized. *)
Lemma itemized_total s : ∃ l, itemized s l.
Proof.
  remember (String.length s) as n eqn:Hn. revert s Hn.
  induction n as [n IH] using lt_wf_ind. intros s ->.
  destruct s as [|c s]; [exists []; constructor|].
  assert (∀ r, (String.length r < String.length (String c s))%nat → ∃ l, itemized r l) as IH'.
  { intros r Hr. by apply (IH _ Hr). }
  clear IH. destruct (plain_char c) eqn:Ep.
  { destruct (IH' s) as [l Hl]; [cbn; lia|]. eexists. by constructor. }
  unfold plain_char in Ep. destruct (Ascii.eqb c quote) eqn:E1.
  { apply Ascii.eqb_eq in E1 as ->. destruct (split_quote s) as [H|(b & r & -> & H)].
    - eexists. by apply it_open_single.
    - destruct (IH' r) as [l Hl]; [cbn; rewrite append_length; cbn; lia|]. eexists. by apply it_single. }
  destruct (Ascii.eqb c dquote) eqn:E2.
  { apply Ascii.eqb_eq in E2 as ->. destruct (split_dquote s) as [(ds & -> & H)|(ds & r & -> & H)].
    - eexists. by apply it_open_double.
    - destruct (IH' r) as [l Hl]; [cbn; rewrite append_length; cbn; lia|]. eexists. by apply it_double. }
  destruct (Ascii.eqb c backslash) eqn:E3; [|done]. apply Ascii.eqb_eq in E3 as ->.
  destruct s as [|d s]; [eexists; apply it_open_esc|].
  destruct (IH' s) as [l Hl]; [cbn; lia|]. eexists. by apply it_esc.
Qed.

(** The items of a string are unique. *)
Lemma dwf_first_dquote ds ds' r r' :
  dwf (Some dquote) ds = true → dwf (Some dquote) ds' = true →
  dtext ds +:+ String dquote r = dtext ds' +:+ String dquote r' → ds = ds' ∧ r = r'.
Proof.
  revert ds'. induction ds as [|d ds IH]; intros [|d' ds'] H H' Heq.
  - by injection Heq.
  - exfalso. destruct d' as [c|c]; [|discriminate]. injection Heq as <- _. by vm_compute in H'.
  - exfalso. destruct d as [c|c]; [|discriminate]. injection Heq as -> _. by vm_compute in H.
  - destruct d as [c|c], d' as [c'|c']; cbn -[DOUBLE_QUOTE_ESCAPES] in H, H', Heq; injection Heq as Hc Heq; subst.
    + apply andb_true_iff in H as [_ H], H' as [_ H']. by destruct (IH _ H H' Heq) as [-> ->].
    + exfalso. apply andb_true_iff in H as [H _], H' as [H' _]. apply andb_true_iff in H as [_ H]. cbn -[DOUBLE_QUOTE_ESCAPES] in H.
      destruct (dtext ds) as [|e t]; cbn -[DOUBLE_QUOTE_ESCAPES] in H, Heq; injection Heq as -> _.
      * by vm_compute in H.
      * by rewrite H' in H.
    + exfalso. apply andb_true_iff in H as [H _], H' as [H' _]. apply andb_true_iff in H' as [_ H']. cbn -[DOUBLE_QUOTE_ESCAPES] in H'.
      destruct (dtext ds') as [|e t]; cbn -[DOUBLE_QUOTE_ESCAPES] in H', Heq; injection Heq as -> _.
      * by vm_compute in H'.
      * by rewrite H in H'.
    + apply andb_true_iff in H as [_ H], H' as [_ H']. by destruct (IH _ H H' Heq) as [-> ->].
Qed.

Fixpoint closes (s : string) : bool :=
  match s with
  | EmptyString => false
  | String c s' =>
      if Ascii.eqb c dquote then true
      else if Ascii.eqb c backslash then
        match s' with
        | String d s'' => if DOUBLE_QUOTE_ESCAPES d then closes s'' else closes s'
        | EmptyString => false
        end
      else closes s'
  end.

Lemma closes_dtext next ds r :
  dwf next ds = true → (next = None → r = EmptyString) →
  (∀ c, next = Some c → ∃ r', r = String c r') → closes (dtext ds +:+ r) = closes r.
Proof.
  intros H Hnone Hsome. induction ds as [|d ds IH]; [done|].
  destruct d as [c|c]; cbn -[DOUBLE_QUOTE_ESCAPES] in H |- *.
  - apply andb_true_iff in H as [H Hds]. apply andb_true_iff in H as [Hq H]. apply negb_true_iff in Hq. rewrite Hq.
    destruct (Ascii.eqb c backslash) eqn:Eb; [|by apply IH].
    specialize (IH Hds). destruct (dtext ds) as [|e t]; cbn -[DOUBLE_QUOTE_ESCAPES] in H, IH |- *.
    + destruct next as [d|]; [|by rewrite Hnone]. destruct (Hsome d eq_refl) as [r' ->].
      apply negb_true_iff in H. by rewrite H.
    + apply negb_true_iff in H. by rewrite H.
  - apply andb_true_iff in H as [Hc Hds]. by rewrite Hc, IH.
Qed.

Lemma closes_open ds : dwf None ds = true → closes (dtext ds) = false.
Proof. intros H. by rewrite <- (append_nil_r (dtext ds)), (closes_dtext None). Qed.

Lemma closes_closed ds r : dwf (Some dquote) ds = true → closes (dtext ds +:+ String dquote r) = true.
Proof. intros H. rewrite (closes_dtext (Some dquote)); [done|done|done|]. intros c [= <-]. by exists r. Qed.

Lemma no_quote_append b r : no_quote (b +:+ String quote r) = false.
Proof. unfold no_quote. rewrite str_all_append. cbn. by rewrite andb_false_r. Qed.

Lemma itemized_unique s l l' : itemized s l → itemized s l' → l = l'.
Proof.
  intros H. revert l'. induction H as [|c s l Hc _ IH|c s l _ IH|b s l Hb _ IH|ds s l Hds _ IH| |b Hb|ds Hds];
    intros l' H'; inversion H'; subst; try done;
    try (match goal with H : plain_char _ = true |- _ => by vm_compute in H end).
  - f_equal. by apply IH.
  - f_equal. by apply IH.
  - match goal with Heq : _ +:+ String quote _ = _ +:+ String quote _ |- _ =>
      destruct (sep_free_inj quote _ _ _ _ Hb ltac:(eassumption) (eq_sym Heq)) as [-> ->] || destruct (sep_free_inj quote _ _ _ _ Hb ltac:(eassumption) Heq) as [-> ->] end.
    f_equal. by apply IH.
  - match goal with H : no_quote (_ +:+ _) = true |- _ => by rewrite no_quote_append in H end.
  - match goal with Heq : dtext _ +:+ _ = dtext _ +:+ _ |- _ =>
      destruct (dwf_first_dquote _ _ _ _ Hds ltac:(eassumption) (eq_sym Heq)) as [-> ->] end.
    f_equal. by apply IH.
  - match goal with Heq : dtext ?d = _, H : dwf None ?d = true |- _ =>
      apply closes_open in H; rewrite Heq, closes_closed in H by done end. done.
  - match goal with H : no_quote (_ +:+ _) = true |- _ => by rewrite no_quote_append in H end.
  - match goal with Heq : _ = dtext ds |- _ =>
      apply closes_open in Hds; rewrite <- Heq, closes_closed in Hds by done end. done.
Qed.

(** Items can be taken apart and, when nothing is left open, put together. *)
Lemma closed_app l1 l2 : closed (l1 ++ l2) ↔ closed l1 ∧ closed l2.
Proof. apply Forall_app. Qed.

Lemma itemized_app a b l1 l2 : itemized a l1 → closed l1 → itemized b l2 → itemized (a +:+ b) (l1 ++ l2).
Proof.
  induction 1 as [|c s l Hc _ IH|c s l _ IH|q s l Hq _ IH|ds s l Hds _ IH| |q Hq|ds Hds]; intros Hcl Hb;
    try (apply Forall_cons in Hcl as [Hx Hcl]); cbn; try (rewrite append_assoc; cbn);
    try (by constructor; auto); try done.
  all: exfalso; by eapply Hx.
Qed.

Lemma texts_app l1 l2 : texts (l1 ++ l2) = texts l1 +:+ texts l2.
Proof. induction l1 as [|it l1 IH]; cbn; [done|]. by rewrite IH, append_assoc. Qed.

Lemma itemized_cut s l1 l2 : itemized s (l1 ++ l2) → itemized (texts l1) l1 ∧ itemized (texts l2) l2.
Proof.
  intros H. remember (l1 ++ l2) as l eqn:Hl. revert l1 l2 Hl.
  assert (∀ (s : string) l, itemized s l → itemized (texts l) l) as Hself.
  { intros s' l' H'. by rewrite <- (itemized_texts s' l'). }
  induction H as [|c s l Hc H IH|c s l H IH|q s l Hq H IH|ds s l Hds H IH| |q Hq|ds Hds];
    intros [|it l1] l2 Hl; cbn in Hl; subst;
    try (split; [constructor|]; eapply Hself; by constructor);
    try (injection Hl as <- Hl);
    try (destruct (IH _ _ Hl) as [H1 H2]; split; [|done]; cbn; rewrite ?append_assoc; cbn; by constructor).
  - done.
  - destruct l1, l2; try done. split; [by apply (it_open_esc)|constructor].
  - destruct l1, l2; try done. cbn. rewrite append_nil_r. split; [by apply it_open_single|constructor].
  - destruct l1, l2; try done. cbn. rewrite append_nil_r. split; [by apply it_open_double|constructor].
Qed.

(** ** Trimming *)

Lemma trim_split s : ∃ l r, s = l +:+ trim s +:+ r ∧ str_all is_ws l = true ∧ str_all is_ws r = true.
Proof.
  destruct (trim_start_split s) as (l & Hs & Hl). destruct (trim_end_split (trim_start s)) as (r & Ht & Hr).
  exists l, r. split; [|done]. rewrite Hs at 1. by rewrite Ht at 1.
Qed.

Lemma trim_end_last a c : trim_end (a +:+ chr c) = a +:+ chr c → is_ws c = false.
Proof.
  intros H. destruct (is_ws c) eqn:E; [|done]. exfalso.
  assert (∀ a, (String.length (trim_end (a +:+ chr c)) <= String.length a)%nat) as Hlen.
  { clear a H. induction a as [|d a IH]; cbn; [by rewrite E|].
    destruct (trim_end (a +:+ chr c)) as [|e t]; [destruct (is_ws d)|]; cbn in *; lia. }
  specialize (Hlen a). rewrite H, append_length in Hlen. cbn in Hlen. lia.
Qed.

Definition ws_items (s : string) : list item := map IChar (String.list_ascii_of_string s).

Lemma ws_plain c : is_ws c = true → plain_char c = true.
Proof. destruct c as [[] [] [] [] [] [] [] []]; vm_compute; done. Qed.

Lemma itemized_ws s : str_all is_ws s = true → itemized s (ws_items s).
Proof.
  induction s as [|c s IH]; cbn; [constructor|]. intros [Hc Hs]%andb_true_iff.
  constructor; [by apply ws_plain|by apply IH].
Qed.

Lemma closed_ws s : closed (ws_items s).
Proof. unfold closed, ws_items. apply Forall_map. by apply Forall_true. Qed.

Lemma trim_items s l t :
  itemized s l → itemized (trim s) t → closed t →
  ∃ a b, str_all is_ws a = true ∧ str_all is_ws b = true ∧ l = ws_items a ++ t ++ ws_items b.
Proof.
  intros Hs Ht Hcl. destruct (trim_split s) as (a & b & Heq & Ha & Hb). exists a, b. split_and!; try done.
  apply (itemized_unique s); [done|]. rewrite Heq at 1.
  apply itemized_app; [by apply itemized_ws|apply closed_ws|].
  apply itemized_app; [done|done|by apply itemized_ws].
Qed.

Definition last_char (it : item) : option ascii :=
  match it with
  | IChar c | IEsc c => Some c
  | ISingle _ => Some quote
  | IDouble _ => Some dquote
  | IOpen _ => None
  end.

Lemma item_text_last it c : last_char it = Some c → ∃ a, item_text it = a +:+ chr c.
Proof.
  destruct it as [d|d|b|ds|t]; cbn; intros [= <-].
  - by exists EmptyString.
  - by exists (chr backslash).
  - by exists (String quote b).
  - by exists (String dquote (dtext ds)).
Qed.

(** A trimmed text ends in no white space, even escaped. *)
Lemma trimmed_last s t it c :
  itemized (trim s) (t ++ [it]) → last_char it = Some c → is_ws c = false.
Proof.
  intros H Hc. apply itemized_texts in H. rewrite texts_app in H. cbn in H. rewrite append_nil_r in H.
  destruct (item_text_last it c Hc) as [a Ha]. rewrite Ha, <- append_assoc in H.
  apply (trim_end_last (texts t +:+ a)). rewrite <- H. apply trim_trimmed_end.
Qed.

Lemma trimmed_first s t c : itemized (trim s) (IChar c :: t) → is_ws c = false.
Proof.
  intros H. apply itemized_texts in H. cbn in H. apply (trim_start_fixed c (texts t)). rewrite <- H.
  pose proof (trim_idemp s) as Hi. unfold trim in Hi |- *. rewrite trim_start_trim_end; [done|]. apply trim_start_idemp.
Qed.

(** ** Plain texts

    Blanks are the only white space, and no here-document begins. *)

Definition plain_text (s : string) : bool :=
  str_all (λ c, negb (is_ws c) || is_blank c) s && negb (includes s "<<").

Lemma includes_append_l a b t : includes a t = true → includes (a +:+ b) t = true.
Proof.
  assert (∀ t a b, String.prefix t a = true → String.prefix t (a +:+ b) = true) as Hp.
  { clear. induction t as [|c t IH]; [by intros [|d a] [|e b]|]. intros [|d a] b; [done|]. cbn.
    destruct (ascii_dec c d); [by apply IH|done]. }
  induction a as [|c a IH]; cbn.
  - unfold starts_with. destruct t; [|done]. intros _. by destruct b.
  - intros [H|H]%orb_true_iff.
    + apply orb_true_iff. left. by apply (Hp t (String c a) b).
    + by rewrite IH, orb_true_r.
Qed.

Lemma includes_append_r a b t : includes b t = true → includes (a +:+ b) t = true.
Proof. intros H. induction a as [|c a IH]; cbn; [done|]. by rewrite IH, orb_true_r. Qed.

Lemma plain_text_append a b : plain_text (a +:+ b) = true → plain_text a = true ∧ plain_text b = true.
Proof.
  unfold plain_text. rewrite str_all_append. intros [[-> ->]%andb_true_iff H%negb_true_iff]%andb_true_iff. cbn.
  rewrite !negb_true_iff. split; apply not_true_iff_false; intros Hi.
  - by rewrite includes_append_l in H.
  - by rewrite includes_append_r in H.
Qed.

Lemma plain_text_cons c s : plain_text (String c s) = true → plain_text s = true.
Proof. intros H. by apply (plain_text_append (chr c) s) in H as [_ H]. Qed.

Lemma plain_text_no_newline c s : plain_text (String c s) = true → is_newline c = false.
Proof.
  unfold plain_text. cbn. intros [[H _]%andb_true_iff _]%andb_true_iff.
  destruct c as [[] [] [] [] [] [] [] []]; vm_compute in H |- *; done.
Qed.

Lemma plain_text_ws c s : plain_text (String c s) = true → is_ws c = is_blank c.
Proof.
  unfold plain_text. cbn. intros [[H _]%andb_true_iff _]%andb_true_iff.
  destruct c as [[] [] [] [] [] [] [] []]; vm_compute in H |- *; done.
Qed.

Lemma plain_text_trim s : plain_text s = true → plain_text (trim s) = true.
Proof.
  intros H. destruct (trim_split s) as (l & r & Hs & _ & _). rewrite Hs in H.
  apply plain_text_append in H as [_ H]. by apply plain_text_append in H as [H _].
Qed.

End ShellItems.
