(* ===== verification/ShellScanners.v ===== *)
(** * The scanners of commands on items

    The shell reader, [splitShellArgs], [splitShellPipeline] and
    [splitCommandChainWithOperators], each restated on the items of a plain text. *)

From Stdlib Require Import Ascii.
From S2P Require Import Prelude JsRegex ShellSyntax ShellReading ShellItems.

#[local] Open Scope stdpp_scope.

Module ShellScanners.
Export ShellItems.

#[local] Arguments DOUBLE_QUOTE_ESCAPES : simpl never.
#[local] Arguments is_ws : simpl never.
#[local] Arguments trim : simpl never.
#[local] Arguments is_newline : simpl never.
#[local] Arguments is_blank : simpl never.
#[local] Arguments one_of : simpl never.
#[local] Arguments Ascii.eqb : simpl never.

(** ** The reader on items *)

Definition next_item_is (d : ascii) (l : list item) : bool :=
  match l with IChar e :: _ => Ascii.eqb e d | _ => false end.

(** The part of a double quotation before its first command substitution. *)
Fixpoint before_subst (ds : list dchar) : option (list dchar) :=
  match ds with
  | [] => None
  | DEsc c :: ds' => cons (DEsc c) <$> before_subst ds'
  | DChar c :: ds' =>
      if Ascii.eqb c backtick
         || Ascii.eqb c dollar && match ds' with DChar e :: _ => Ascii.eqb e "("%char | _ => false end
      then Some []
      else cons (DChar c) <$> before_subst ds'
  end.

Definition dchar_schar (d : dchar) : schar :=
  match d with
  | DChar c => if Ascii.eqb c dollar then Act c else Lit c
  | DEsc c => Lit c
  end.

Fixpoint read_items (w : option (list schar)) (l : list item) : option (list stoken) :=
  match l with
  | [] => Some (flush w [])
  | IOpen t :: _ => sh_read Plain w t
  | IEsc c :: r => read_items (extend w [Lit c]) r
  | ISingle b :: r => read_items (extend w (literal b)) r
  | IDouble ds :: r =>
      match before_subst ds with
      | Some pre => Some [TSubst (default [] w ++ map dchar_schar pre)]
      | None => read_items (extend w (map dchar_schar ds)) r
      end
  | IChar c :: r =>
      if is_blank c then flush w <$> read_items None r
      else if Ascii.eqb c hash && match w with None => true | Some _ => false end then Some []
      else if is_operator_char c then
        match r with
        | IChar d :: r' =>
            if one_of "&|;<>" c && Ascii.eqb d c
            then (λ toks, flush w (TOp (String c (chr d)) :: toks)) <$> read_items None r'
            else (λ toks, flush w (TOp (chr c) :: toks)) <$> read_items None r
        | _ => (λ toks, flush w (TOp (chr c) :: toks)) <$> read_items None r
        end
      else if Ascii.eqb c backtick || Ascii.eqb c dollar && next_item_is "("%char r then Some [TSubst (default [] w)]
      else read_items (extend w [Act c]) r
  end.

Lemma next_is_items s l d : itemized s l → plain_char d = true → next_is d s = next_item_is d l.
Proof.
  intros H Hd. destruct H as [|c s l Hc H|c s l H|b s l Hb H|ds s l Hds H| |b Hb|ds Hds]; cbn; try done.
  all: destruct d as [[] [] [] [] [] [] [] []]; vm_compute in Hd |- *; done.
Qed.

Lemma read_comment s : plain_text s = true → sh_read InComment None s = Some [].
Proof.
  induction s as [|c s IH]; intros Hp; [done|]. cbn.
  pose proof (plain_text_no_newline _ _ Hp) as Hn. unfold is_newline in Hn.
  apply orb_false_iff in Hn as [-> _]. apply IH. by apply plain_text_cons in Hp.
Qed.

Lemma read_single b w r :
  no_quote b = true → sh_read InSingle (extend w []) (b +:+ String quote r) = sh_read Plain (extend w (literal b)) r.
Proof.
  intros Hb. change (extend w (literal b)) with (extend w ([] ++ literal b)). generalize (@nil schar) as a.
  induction b as [|c b IH]; intros a; [by rewrite app_nil_r|].
  cbn in Hb. apply andb_true_iff in Hb as [Hc%negb_true_iff Hb]. cbn [String.append].
  rewrite read_single_char, extend_extend, IH by done. cbn. by rewrite <- app_assoc.
Qed.

Lemma first_dtext ds r :
  next_is "("%char (dtext ds +:+ String dquote r) = match ds with DChar e :: _ => Ascii.eqb e "("%char | _ => false end.
Proof. by destruct ds as [|[c|c] ds]. Qed.

(** The characters of a double quotation, one by one. *)
Lemma read_double_esc c w s :
  DOUBLE_QUOTE_ESCAPES c = true →
  sh_read InDouble w (String backslash (String c s)) = sh_read InDouble (extend w [Lit c]) s.
Proof. intros H. cbn. by rewrite H. Qed.

Lemma read_double_char c w s :
  Ascii.eqb c dquote = false →
  (Ascii.eqb c backslash = true → ∃ d s', s = String d s' ∧ DOUBLE_QUOTE_ESCAPES d = false ∧ is_newline d = false) →
  sh_read InDouble w (String c s)
  = if Ascii.eqb c backtick || Ascii.eqb c dollar && next_is "("%char s then Some [TSubst (default [] w)]
    else sh_read InDouble (extend w [dchar_schar (DChar c)]) s.
Proof.
  intros Hq Hb. cbn. rewrite Hq. destruct (Ascii.eqb c backslash) eqn:E; [|done].
  apply Ascii.eqb_eq in E as ->. destruct (Hb eq_refl) as (d & s' & -> & -> & Hn). unfold is_newline in Hn.
  apply orb_false_iff in Hn as [-> _]. done.
Qed.

Lemma read_double ds w s :
  dwf (Some dquote) ds = true → plain_text (dtext ds +:+ String dquote s) = true →
  sh_read InDouble (extend w []) (dtext ds +:+ String dquote s)
  = match before_subst ds with
    | Some pre => Some [TSubst (default [] w ++ map dchar_schar pre)]
    | None => sh_read Plain (extend w (map dchar_schar ds)) s
    end.
Proof.
  intros H Hp. change (map dchar_schar ds) with ([] ++ map dchar_schar ds).
  assert (∀ a : list schar, sh_read InDouble (extend w a) (dtext ds +:+ String dquote s)
    = match before_subst ds with
      | Some pre => Some [TSubst (default [] w ++ a ++ map dchar_schar pre)]
      | None => sh_read Plain (extend w (a ++ map dchar_schar ds)) s
      end) as Hgen; [|apply Hgen].
  induction ds as [|d ds IH]; intros a.
  - cbn [dtext map before_subst]. by rewrite app_nil_r, <- read_double_end.
  - destruct d as [c|c]; cbn [dtext dchar_text] in *.
    + cbn -[plain_text sh_read] in H, Hp |- *. apply andb_true_iff in H as [H Hds]. apply andb_true_iff in H as [Hq%negb_true_iff Hb].
      rewrite (read_double_char c (extend w a)); [| done |].
      2:{ intros E. rewrite E in Hb. destruct (dtext ds) as [|e t]; cbn -[plain_text] in Hb, Hp |- *.
          - by vm_compute in Hb.
          - exists e, (t +:+ String dquote s). split; [done|]. split; [by apply negb_true_iff in Hb|].
            apply plain_text_cons in Hp. by apply plain_text_no_newline in Hp. }
      apply plain_text_cons in Hp. rewrite first_dtext.
      destruct (_ || _); [cbn; by rewrite app_nil_r|].
      rewrite extend_extend, IH by done. destruct (before_subst ds); cbn; by rewrite <- !app_assoc.
    + cbn -[plain_text sh_read] in H, Hp |- *. apply andb_true_iff in H as [Hc Hds].
      apply plain_text_cons, plain_text_cons in Hp.
      rewrite read_double_esc, extend_extend, IH by done. destruct (before_subst ds); cbn; by rewrite <- !app_assoc.
Qed.

Lemma read_itemized s l :
  itemized s l → plain_text s = true → ∀ w, sh_read Plain w s = read_items w l.
Proof.
  intros H. remember (String.length s) as n eqn:Hn. revert s l H Hn.
  induction n as [n IH] using lt_wf_ind. intros s l H -> Hp w.
  assert (∀ s' l', (String.length s' < String.length s)%nat → itemized s' l' → plain_text s' = true →
    ∀ w, sh_read Plain w s' = read_items w l') as IH'.
  { intros s' l' Hl Hi Hp'. by apply (IH _ Hl s' l'). }
  clear IH. destruct H as [|c s l Hc H|c s l H|b s l Hb H|ds s l Hds H| |b Hb|ds Hds]; cbn [read_items].
  - done.
  - assert (plain_text s = true) as Hp' by (by apply plain_text_cons in Hp).
    assert (∀ w, sh_read Plain w s = read_items w l) as IHs by (intros; apply IH'; [cbn; lia|done|done]).
    cbn [sh_read]. unfold plain_char in Hc. destruct (Ascii.eqb c quote) eqn:E1, (Ascii.eqb c dquote) eqn:E2, (Ascii.eqb c backslash) eqn:E3; try done.
    rewrite IHs. destruct (is_blank c); [done|].
    destruct (Ascii.eqb c hash && _); [by apply read_comment|].
    destruct (is_operator_char c) eqn:Eop.
    + unfold doubled. rewrite (next_is_items s l c) by (done || by unfold plain_char; rewrite E1, E2, E3).
      destruct H as [|d s l Hd H| | | | | |]; cbn [next_item_is]; rewrite ?andb_false_r; rewrite ?IHs; try done.
      destruct (one_of "&|;<>" c && Ascii.eqb d c); [|done].
      rewrite (IH' s l); [done|cbn; lia|done|by apply plain_text_cons in Hp'].
    + rewrite (next_is_items s l) by done. destruct (_ || _); [done|]. apply IHs.
  - pose proof (plain_text_cons _ _ Hp) as Hp'. pose proof (plain_text_no_newline _ _ Hp') as Hn.
    unfold is_newline in Hn. apply orb_false_iff in Hn as [Hn _]. cbn [sh_read].
    rewrite (Ascii.eqb_refl backslash), Hn. apply IH'; [cbn; lia|done|by apply plain_text_cons in Hp'].
  - rewrite read_plain_quote, read_single by done. apply IH'; [cbn; rewrite append_length; cbn; lia|done|].
    apply plain_text_cons, plain_text_append in Hp as [_ Hp]. by apply plain_text_cons in Hp.
  - apply plain_text_cons in Hp. rewrite read_plain_dquote, read_double by done.
    destruct (before_subst ds); [done|]. apply IH'; [cbn; rewrite append_length; cbn; lia|done|].
    apply plain_text_append in Hp as [_ Hp]. by apply plain_text_cons in Hp.
  - done.
  - done.
  - done.
Qed.

(** ** splitShellArgs on items *)

Definition dvalue (ds : list dchar) : string :=
  String.string_of_list_ascii (map (λ d, match d with DChar c | DEsc c => c end) ds).

Definition push_token (tokens : list string) (buf : string) : list string :=
  if str_truthy buf then tokens ++ [buf] else tokens.

Fixpoint args_items (tokens : list string) (buf : string) (l : list item) : option (list string) :=
  match l with
  | [] => Some (push_token tokens buf)
  | IOpen _ :: _ => None
  | IEsc c :: r => args_items tokens (buf +:+ chr c) r
  | ISingle b :: r => args_items tokens (buf +:+ b) r
  | IDouble ds :: r => args_items tokens (buf +:+ dvalue ds) r
  | IChar c :: r =>
      if Ascii.eqb c hash && negb (str_truthy buf) then Some tokens
      else if is_ws c then args_items (push_token tokens buf) EmptyString r
      else args_items tokens (buf +:+ chr c) r
  end.

Definition args_finish (r : False + ArgState) : option (list string) :=
  match r with
  | inl e => match e with end
  | inr st => if a_escaped st || a_inSingle st || a_inDouble st then None else Some (a_tokens (a_pushToken st))
  end.

Definition args_scan (p : option ascii) (s : string) (tokens : list string) (buf : string) (single double : bool) :=
  scan splitShellArgs_body p 0 s (mkArgState tokens buf single double false).

Lemma a_pushToken_eq tokens buf :
  a_pushToken (mkArgState tokens buf false false false)
  = mkArgState (push_token tokens buf) EmptyString false false false.
Proof. by destruct buf. Qed.

Lemma args_single b p s tokens buf :
  no_quote b = true →
  args_scan p (b +:+ String quote s) tokens buf true false
  = args_scan (Some quote) s tokens (buf +:+ b) false false.
Proof.
  revert p buf. induction b as [|c b IH]; intros p buf Hb.
  - by rewrite append_nil_r.
  - cbn in Hb. apply andb_true_iff in Hb as [Hc%negb_true_iff Hb]. unfold args_scan in *. cbn. rewrite Hc. cbn.
    rewrite IH, append_assoc by done. done.
Qed.

Lemma args_open_single b p tokens buf :
  no_quote b = true → args_finish (args_scan p b tokens buf true false) = None.
Proof.
  revert p buf. induction b as [|c b IH]; intros p buf Hb; [done|].
  cbn in Hb. apply andb_true_iff in Hb as [Hc%negb_true_iff Hb]. unfold args_scan in *. cbn. rewrite Hc. cbn.
  by apply IH.
Qed.

Lemma dq_escapes_args c : is_newline c = false → DOUBLE_QUOTE_ESCAPES_ARGS c = DOUBLE_QUOTE_ESCAPES c.
Proof. intros H. unfold DOUBLE_QUOTE_ESCAPES_ARGS. rewrite H. by rewrite orb_false_r. Qed.

Lemma args_double_char c p s tokens buf :
  Ascii.eqb c dquote = false →
  (Ascii.eqb c backslash = true → next_char s = None ∨ ∃ d s', s = String d s' ∧ DOUBLE_QUOTE_ESCAPES d = false ∧ is_newline d = false) →
  args_scan p (String c s) tokens buf false true = args_scan (Some c) s tokens (buf +:+ chr c) false true.
Proof.
  intros Hq Hb. unfold args_scan. cbn. destruct s as [|e t]; [by rewrite Hq|].
  destruct (Ascii.eqb c backslash) eqn:E; cbn; [|by rewrite Hq].
  destruct (Hb eq_refl) as [?|(d & s' & [= -> ->] & Hd & Hn)]; [done|].
  by rewrite dq_escapes_args, Hd, Hq.
Qed.

Lemma args_double_esc c p s tokens buf :
  DOUBLE_QUOTE_ESCAPES c = true →
  args_scan p (String backslash (String c s)) tokens buf false true
  = args_scan (Some c) s tokens (buf +:+ chr c) false true.
Proof.
  intros H. unfold args_scan. cbn. unfold DOUBLE_QUOTE_ESCAPES_ARGS, DOUBLE_QUOTE_ESCAPES in *. by rewrite H.
Qed.

(** What follows a lone backslash inside a quotation. *)
Lemma dwf_backslash ds r :
  match first_char (dtext ds) (next_char r) with Some d => negb (DOUBLE_QUOTE_ESCAPES d) | None => true end = true →
  plain_text (dtext ds +:+ r) = true →
  next_char (dtext ds +:+ r) = None
  ∨ ∃ d s', dtext ds +:+ r = String d s' ∧ DOUBLE_QUOTE_ESCAPES d = false ∧ is_newline d = false.
Proof.
  intros H Hp. pose proof plain_text_no_newline as Hn.
  destruct (dtext ds) as [|e t]; cbn -[plain_text] in H, Hp |- *.
  - destruct r as [|e r]; [by left|]. right. cbn in H. exists e, r. split; [done|].
    split; [by apply negb_true_iff in H|by apply Hn in Hp].
  - right. exists e, (t +:+ r). split; [done|]. split; [by apply negb_true_iff in H|by apply Hn in Hp].
Qed.

Lemma args_double ds p r tokens buf :
  dwf (next_char r) ds = true → plain_text (dtext ds +:+ r) = true → ∃ p',
  args_scan p (dtext ds +:+ r) tokens buf false true = args_scan p' r tokens (buf +:+ dvalue ds) false true.
Proof.
  revert p buf. induction ds as [|d ds IH]; intros p buf H Hp.
  - exists p. cbn. by rewrite append_nil_r.
  - destruct d as [c|c]; cbn -[plain_text args_scan] in H, Hp |- *.
    + apply andb_true_iff in H as [H Hds]. apply andb_true_iff in H as [Hq%negb_true_iff Hb].
      pose proof (plain_text_cons _ _ Hp) as Hp'. destruct (IH (Some c) (buf +:+ chr c) Hds Hp') as [p' Hp''].
      exists p'. rewrite args_double_char, Hp'', append_assoc; [done|done|].
      intros E. rewrite E in Hb. by apply dwf_backslash.
    + apply andb_true_iff in H as [Hc Hds]. apply plain_text_cons, plain_text_cons in Hp.
      destruct (IH (Some c) (buf +:+ chr c) Hds Hp) as [p' Hp'']. exists p'.
      by rewrite args_double_esc, Hp'', append_assoc.
Qed.

Lemma args_enter_single p r tokens buf :
  args_scan p (String quote r) tokens buf false false = args_scan (Some quote) r tokens buf true false.
Proof. reflexivity. Qed.

Lemma args_enter_double p r tokens buf :
  args_scan p (String dquote r) tokens buf false false = args_scan (Some dquote) r tokens buf false true.
Proof. reflexivity. Qed.

Lemma args_leave_double p r tokens buf :
  args_scan p (String dquote r) tokens buf false true = args_scan (Some dquote) r tokens buf false false.
Proof. unfold args_scan. cbn. by destruct r. Qed.

Lemma args_itemized s l :
  itemized s l → plain_text s = true → ∀ p tokens buf,
  args_finish (args_scan p s tokens buf false false) = args_items tokens buf l.
Proof.
  induction 1 as [|c s l Hc _ IH|c s l _ IH|b s l Hb _ IH|ds s l Hds _ IH| |b Hb|ds Hds];
    intros Hp p tokens buf; cbn [args_items].
  - unfold args_scan. cbn [scan args_finish]. by rewrite a_pushToken_eq.
  - apply plain_text_cons in Hp. unfold plain_char in Hc. unfold args_scan. cbn [scan].
    destruct (Ascii.eqb c quote) eqn:E1, (Ascii.eqb c dquote) eqn:E2, (Ascii.eqb c backslash) eqn:E3; try done.
    unfold splitShellArgs_body at 1. cbn [negb andb]. rewrite E1, E2, E3.
    destruct (Ascii.eqb c hash && negb (str_truthy buf)) eqn:Eh.
    { cbn [args_finish orb a_escaped a_inSingle a_inDouble]. apply andb_true_iff in Eh as [_ Eh]. by destruct buf. }
    destruct (is_ws c); [|by apply (IH Hp)]. rewrite a_pushToken_eq. by apply (IH Hp).
  - apply plain_text_cons, plain_text_cons in Hp. unfold args_scan. cbn. by apply (IH Hp).
  - apply plain_text_cons, plain_text_append in Hp as [_ Hp]. apply plain_text_cons in Hp.
    by rewrite args_enter_single, args_single, IH.
  - apply plain_text_cons in Hp. rewrite args_enter_double.
    destruct (args_double ds (Some dquote) (String dquote s) tokens buf Hds Hp) as [p' ->].
    apply plain_text_append in Hp as [_ Hp]. apply plain_text_cons in Hp.
    rewrite args_leave_double. by apply IH.
  - reflexivity.
  - rewrite args_enter_single. by apply args_open_single.
  - apply plain_text_cons in Hp. rewrite args_enter_double.
    rewrite <- (append_nil_r (dtext ds)) in Hp |- *.
    by destruct (args_double ds (Some dquote) EmptyString tokens buf Hds Hp) as [p' ->].
Qed.

Lemma splitShellArgs_items s l :
  itemized s l → plain_text s = true → splitShellArgs s = args_items [] EmptyString l.
Proof. intros H Hp. unfold splitShellArgs. by rewrite <- (args_itemized s l H Hp None). Qed.

(** ** splitShellPipeline on items *)

Definition nonempty (s : string) : option string :=
  match s with EmptyString => None | _ => Some s end.

(** The raw segments, or nothing when a token is refused or a quotation is open. *)
Fixpoint pipe_items (p : option ascii) (cur : list item) (l : list item) : option (list (list item)) :=
  match l with
  | [] => Some [cur]
  | IOpen _ :: _ => None
  | IChar c :: r =>
      if isShellCommentStart p c then Some [cur]
      else if Ascii.eqb c bar then
        if next_item_is bar r || next_item_is ampersand r then None
        else cons cur <$> pipe_items (Some c) [] r
      else if one_of "&;<>()" c || Ascii.eqb c backtick then None
      else if Ascii.eqb c dollar && next_item_is "("%char r then None
      else pipe_items (Some c) (cur ++ [IChar c]) r
  | IDouble ds :: r =>
      match before_subst ds with
      | Some _ => None
      | None => pipe_items (Some dquote) (cur ++ [IDouble ds]) r
      end
  | it :: r => pipe_items (last_char it) (cur ++ [it]) r
  end.

Definition pipe_end (r : string + PipeState) : analysis (list string) :=
  match r with inl reason => Refused reason | inr st => pipe_finish st end.

Definition pipe_scan (p : option ascii) (s : string) (segs : list string) (buf : string) (single double e : bool) :=
  pipe_end (scan pipe_body p 0 s (mkPipeState segs buf single double false e [] false EmptyString)).

Lemma pipe_enter_single p r segs buf e :
  pipe_scan p (String quote r) segs buf false false e = pipe_scan (Some quote) r segs (buf +:+ chr quote) true false false.
Proof. reflexivity. Qed.

Lemma pipe_enter_double p r segs buf e :
  pipe_scan p (String dquote r) segs buf false false e = pipe_scan (Some dquote) r segs (buf +:+ chr dquote) false true false.
Proof. reflexivity. Qed.

Lemma pipe_leave_double p r segs buf e :
  pipe_scan p (String dquote r) segs buf false true e = pipe_scan (Some dquote) r segs (buf +:+ chr dquote) false false false.
Proof. unfold pipe_scan. cbn. by destruct r. Qed.

Lemma pipe_escape c p r segs buf e :
  pipe_scan p (String backslash (String c r)) segs buf false false e
  = pipe_scan (Some c) r segs ((buf +:+ chr backslash) +:+ chr c) false false false.
Proof. reflexivity. Qed.

Lemma pipe_single b p r segs buf e :
  no_quote b = true →
  pipe_scan p (b +:+ String quote r) segs buf true false e
  = pipe_scan (Some quote) r segs (buf +:+ b +:+ chr quote) false false false.
Proof.
  revert p buf e. induction b as [|c b IH]; intros p buf e Hb; [reflexivity|].
  cbn in Hb. apply andb_true_iff in Hb as [Hc%negb_true_iff Hb]. unfold pipe_scan in *. cbn. rewrite Hc. cbn.
  unfold p_add. cbn. rewrite IH, append_assoc by done. done.
Qed.

Lemma pipe_open_single b p segs buf e : no_quote b = true → ∃ why, pipe_scan p b segs buf true false e = Refused why.
Proof.
  revert p buf e. induction b as [|c b IH]; intros p buf e Hb; [by eexists|].
  cbn in Hb. apply andb_true_iff in Hb as [Hc%negb_true_iff Hb]. unfold pipe_scan in *. cbn. rewrite Hc. cbn.
  unfold p_add. cbn. by apply IH.
Qed.

Lemma first_dtext_next ds r :
  next_char r = None ∨ next_char r = Some dquote →
  next_is "("%char (dtext ds +:+ r) = match ds with DChar e :: _ => Ascii.eqb e "("%char | _ => false end.
Proof. destruct ds as [|[c|c] ds]; [|done|done]. destruct r as [|c r]; [done|]. by intros [?|[= ->]]. Qed.

Lemma pipe_double_char c p s segs buf e res :
  Ascii.eqb c dquote = false → is_newline c = false →
  (Ascii.eqb c backslash = true → next_char s = None ∨ ∃ d s', s = String d s' ∧ DOUBLE_QUOTE_ESCAPES d = false ∧ is_newline d = false) →
  pipe_scan p (String c s) segs buf false true e = Accepted res →
  Ascii.eqb c backtick || Ascii.eqb c dollar && next_is "("%char s = false
  ∧ pipe_scan (Some c) s segs (buf +:+ chr c) false true false = Accepted res.
Proof.
  intros Hq Hn Hb. unfold pipe_scan. cbn [scan]. unfold pipe_body at 1. cbn -[pipe_double].
  assert (pipe_double c s (mkPipeState segs buf false true false e [] false EmptyString)
    = if Ascii.eqb c dollar && next_is "("%char s then Return (unsupported "$()")
      else if Ascii.eqb c backtick then Return (unsupported (chr backtick))
      else Continue 0 (mkPipeState segs (buf +:+ chr c) false true false false [] false EmptyString)) as ->.
  { unfold pipe_double, p_add. cbn. rewrite Hn, Hq. destruct s as [|d s]; [done|].
    destruct (Ascii.eqb c backslash) eqn:Eb; [|done]. cbn.
    destruct (Hb eq_refl) as [?|(? & ? & [= <- <-] & -> & ->)]; done. }
  destruct (Ascii.eqb c dollar && next_is "("%char s), (Ascii.eqb c backtick); cbn; done.
Qed.

Lemma pipe_double_esc c p s segs buf e :
  DOUBLE_QUOTE_ESCAPES c = true →
  pipe_scan p (String backslash (String c s)) segs buf false true e
  = pipe_scan (Some c) s segs (buf +:+ String backslash (chr c)) false true false.
Proof.
  intros H. unfold pipe_scan. cbn. unfold pipe_double. rewrite H. cbn.
  destruct (is_newline c) eqn:E; [|done]. exfalso.
  destruct c as [[] [] [] [] [] [] [] []]; vm_compute in H, E; done.
Qed.

Lemma pipe_double_items ds p r segs buf e res :
  next_char r = None ∨ next_char r = Some dquote →
  dwf (next_char r) ds = true → plain_text (dtext ds +:+ r) = true →
  pipe_scan p (dtext ds +:+ r) segs buf false true e = Accepted res →
  before_subst ds = None ∧ ∃ p' e', pipe_scan p' r segs (buf +:+ dtext ds) false true e' = Accepted res.
Proof.
  intros Hr. revert p buf e. induction ds as [|d ds IH]; intros p buf e H Hp Ha.
  - split; [done|]. exists p, e. cbn. by rewrite append_nil_r.
  - destruct d as [c|c]; cbn -[plain_text pipe_scan] in H, Hp, Ha |- *.
    + apply andb_true_iff in H as [H Hds]. apply andb_true_iff in H as [Hq%negb_true_iff Hb].
      pose proof (plain_text_no_newline _ _ Hp) as Hn. pose proof (plain_text_cons _ _ Hp) as Hp'.
      apply pipe_double_char in Ha as [Hsub Ha]; [|done|done|].
      2:{ intros E. rewrite E in Hb. by apply dwf_backslash. }
      rewrite first_dtext_next in Hsub by done. rewrite Hsub.
      destruct (IH _ _ _ Hds Hp' Ha) as (-> & p' & e' & Ha'). split; [done|]. exists p', e'. by rewrite append_assoc in Ha'.
    + apply andb_true_iff in H as [Hc Hds]. apply plain_text_cons, plain_text_cons in Hp.
      rewrite pipe_double_esc in Ha by done. destruct (IH _ _ _ Hds Hp Ha) as (-> & p' & e' & Ha').
      split; [done|]. exists p', e'. by rewrite append_assoc in Ha'.
Qed.

Lemma texts_snoc cur it : texts (cur ++ [it]) = texts cur +:+ item_text it.
Proof. rewrite texts_app. cbn. by rewrite append_nil_r. Qed.

Definition segments_of (raws : list (list item)) : list string :=
  filter_map (λ raw, nonempty (trim (texts raw))) raws.

Lemma pipe_finish_eq segs buf e res :
  pipe_finish (mkPipeState segs buf false false false e [] false EmptyString) = Accepted res →
  res = segs ++ match nonempty (trim buf) with Some t => [t] | None => [] end.
Proof.
  unfold pipe_finish, p_pushPart. cbn -[trim]. destruct (trim buf) as [|c t]; cbn.
  - rewrite app_nil_r. destruct segs; [done|]. destruct e; [done|]. congruence.
  - destruct (segs ++ [String c t]) eqn:E; [done|]. destruct e; [done|]. congruence.
Qed.

Lemma pipe_items_nonnil p cur l : pipe_items p cur l ≠ Some [].
Proof.
  revert p cur. induction l as [|[c|c|b|ds|t] l IH]; intros p cur; cbn; try done.
  - repeat case_match; try done; try apply IH. by destruct (pipe_items _ _ _).
  - by destruct (before_subst ds).
Qed.

(** Nothing has been read since a bar, or since the start. *)
Definition fresh (cur : list item) (segs : list string) (e : bool) : Prop :=
  cur = [] → e = true ∨ segs = [].

Lemma pipe_finish_fresh cur segs e res :
  fresh cur segs e →
  pipe_finish (mkPipeState segs (texts cur) false false false e [] false EmptyString) = Accepted res → cur ≠ [].
Proof.
  intros Hf H ->. destruct (Hf eq_refl) as [-> | ->]; [|done].
  unfold pipe_finish, p_pushPart in H. cbn in H. by destruct segs.
Qed.

Lemma fresh_snoc cur it segs e : fresh (cur ++ [it]) segs e.
Proof. intros H. by destruct cur. Qed.

Lemma pipe_itemized s l :
  itemized s l → plain_text s = true → ∀ p cur segs e res, fresh cur segs e →
  pipe_scan p s segs (texts cur) false false e = Accepted res →
  ∃ raws, pipe_items p cur l = Some raws ∧ res = segs ++ segments_of raws ∧ last raws ≠ Some [].
Proof.
  intros H. remember (String.length s) as n eqn:Hn. revert s l H Hn.
  induction n as [n IH] using lt_wf_ind. intros s l H -> Hp p cur segs e res Hf Ha.
  assert (∀ s' l', (String.length s' < String.length s)%nat → itemized s' l' → plain_text s' = true →
    ∀ p cur segs e res, fresh cur segs e → pipe_scan p s' segs (texts cur) false false e = Accepted res →
    ∃ raws, pipe_items p cur l' = Some raws ∧ res = segs ++ segments_of raws ∧ last raws ≠ Some []) as IH'.
  { intros s' l' Hl Hi Hp'. by apply (IH _ Hl s' l'). }
  clear IH. destruct H as [|c s l Hc H|c s l H|b s l Hb H|ds s l Hds H| |b Hb|ds Hds]; cbn [pipe_items].
  - exists [cur]. split; [done|]. pose proof (pipe_finish_fresh _ _ _ _ Hf Ha) as Hne.
    apply pipe_finish_eq in Ha as ->. unfold segments_of, filter_map. cbn. rewrite app_nil_r. split; congruence.
  - pose proof (plain_text_no_newline _ _ Hp) as Hnl. pose proof (plain_text_cons _ _ Hp) as Hp'.
    unfold plain_char in Hc. unfold pipe_scan in Ha. cbn [scan] in Ha. unfold pipe_body at 1 in Ha.
    cbn -[isShellCommentStart] in Ha.
    destruct (Ascii.eqb c quote) eqn:E1, (Ascii.eqb c dquote) eqn:E2, (Ascii.eqb c backslash) eqn:E3; try done.
    destruct (isShellCommentStart p c).
    { exists [cur]. split; [done|]. pose proof (pipe_finish_fresh _ _ _ _ Hf Ha) as Hne.
      apply pipe_finish_eq in Ha as ->. unfold segments_of, filter_map. cbn. rewrite app_nil_r. split; congruence. }
    rewrite Hnl in Ha. cbn [andb] in Ha. rewrite !(next_is_items s l) in Ha by done.
    destruct (Ascii.eqb c bar) eqn:Ebar; cbn [andb] in Ha.
    + destruct (next_item_is bar l); [done|]. destruct (next_item_is ampersand l); [done|]. cbn [orb].
      unfold p_pushPart in Ha. cbn in Ha.
      destruct (IH' s l ltac:(cbn; lia) H Hp' (Some c) [] _ true res (λ _, or_introl eq_refl) Ha) as (raws & Hraws & -> & Hlast).
      rewrite Hraws.
      exists (cur :: raws). split; [done|].
      split; [|destruct raws; [|done]; exfalso; by apply (pipe_items_nonnil (Some c) [] l)]. unfold segments_of, filter_map. cbn.
      destruct (trim (texts cur)); cbn; [done|]. by rewrite <- app_assoc.
    + destruct (Ascii.eqb c ampersand || Ascii.eqb c semicolon) eqn:Eop; [done|].
      assert (Ascii.eqb c "<"%char && next_item_is "<"%char l = false) as Elt.
      { destruct (Ascii.eqb c "<"%char && next_item_is "<"%char l) eqn:E; [|done]. exfalso.
        apply andb_true_iff in E as [Ec El]. apply Ascii.eqb_eq in Ec as ->.
        rewrite <- (next_is_items s l) in El by done. destruct s as [|d s]; [done|]. apply Ascii.eqb_eq in El as ->.
        unfold plain_text in Hp. apply andb_true_iff in Hp as [_ Hp]. by destruct s. }
      rewrite Elt in Ha. destruct (DISALLOWED_PIPELINE_TOKENS c) eqn:Ed; [done|].
      assert (one_of "&;<>()" c || Ascii.eqb c backtick = false) as ->.
      { clear -Eop Ed. destruct c as [[] [] [] [] [] [] [] []]; vm_compute in Eop, Ed |- *; done. }
      destruct (Ascii.eqb c dollar && next_item_is "("%char l); [done|].
      unfold p_add in Ha. cbn in Ha. change (chr c) with (item_text (IChar c)) in Ha. rewrite <- texts_snoc in Ha.
      by apply (IH' s l ltac:(cbn; lia) H Hp' _ _ _ _ _ (fresh_snoc _ _ _ _) Ha).
  - apply plain_text_cons, plain_text_cons in Hp. rewrite pipe_escape, append_assoc in Ha.
    change (chr backslash +:+ chr c) with (item_text (IEsc c)) in Ha. rewrite <- texts_snoc in Ha.
    by apply (IH' s l ltac:(cbn; lia) H Hp _ _ _ _ _ (fresh_snoc _ _ _ _) Ha).
  - apply plain_text_cons, plain_text_append in Hp as [_ Hp]. apply plain_text_cons in Hp.
    rewrite pipe_enter_single, pipe_single, append_assoc in Ha by done.
    change (chr quote +:+ b +:+ chr quote) with (item_text (ISingle b)) in Ha. rewrite <- texts_snoc in Ha.
    by apply (IH' s l ltac:(cbn; rewrite append_length; cbn; lia) H Hp _ _ _ _ _ (fresh_snoc _ _ _ _) Ha).
  - apply plain_text_cons in Hp. rewrite pipe_enter_double in Ha.
    apply pipe_double_items in Ha as (-> & p' & e' & Ha); [|by right|done|done].
    apply plain_text_append in Hp as [_ Hp]. apply plain_text_cons in Hp.
    rewrite pipe_leave_double, !append_assoc in Ha.
    change (chr dquote +:+ dtext ds +:+ chr dquote) with (item_text (IDouble ds)) in Ha. rewrite <- texts_snoc in Ha.
    by apply (IH' s l ltac:(cbn; rewrite append_length; cbn; lia) H Hp _ _ _ _ _ (fresh_snoc _ _ _ _) Ha).
  - done.
  - rewrite pipe_enter_single in Ha. destruct (pipe_open_single b (Some quote) segs (texts cur +:+ chr quote) false Hb) as [why Hw].
    congruence.
  - apply plain_text_cons in Hp. rewrite pipe_enter_double in Ha.
    rewrite <- (append_nil_r (dtext ds)) in Ha, Hp.
    apply pipe_double_items in Ha as (_ & p' & e' & Ha); [done|by left|done|done].
Qed.

Lemma splitShellPipeline_items s l segs :
  itemized s l → plain_text s = true → splitShellPipeline s = Accepted segs →
  segs ≠ [] ∧ ∃ raws, pipe_items None [] l = Some raws ∧ segs = segments_of raws ∧ last raws ≠ Some [].
Proof.
  intros H Hp Ha. split; [|by apply (pipe_itemized s l H Hp None [] [] false segs ltac:(by right))].
  unfold splitShellPipeline in Ha. destruct (scan _ _ _ _ _) as [?|st]; [done|]. unfold pipe_finish in Ha.
  repeat (destruct (_ || _); [done|]). destruct (p_segments _); [done|]. destruct (p_emptySegment _); [done|].
  by injection Ha as <-.
Qed.

(** ** splitCommandChainWithOperators on items *)

Fixpoint chain_items (p : option ascii) (cur : list item) (l : list item)
    : list (list item * ShellChainOperator) * list item :=
  match l with
  | [] => ([], cur)
  | IChar c :: r =>
      if isShellCommentStart p c then ([], cur)
      else if Ascii.eqb c semicolon then
        let rest := chain_items (Some c) [] r in ((cur, Sequel) :: rest.1, rest.2)
      else
        match r with
        | IChar d :: r' =>
            if Ascii.eqb c ampersand && Ascii.eqb d ampersand then
              let rest := chain_items (Some d) [] r' in ((cur, AndThen) :: rest.1, rest.2)
            else if Ascii.eqb c bar && Ascii.eqb d bar then
              let rest := chain_items (Some d) [] r' in ((cur, OrElse) :: rest.1, rest.2)
            else chain_items (Some c) (cur ++ [IChar c]) r
        | _ => chain_items (Some c) (cur ++ [IChar c]) r
        end
  | it :: r => chain_items (last_char it) (cur ++ [it]) r
  end.

Definition raw_part (x : list item * ShellChainOperator) : option ShellChainPart :=
  match nonempty (trim (texts x.1)) with
  | Some t => Some (mkPart t (Some x.2))
  | None => None
  end.

Definition is_missing {A B} (f : A → option B) (a : A) : bool :=
  match f a with Some _ => false | None => true end.

Definition chain_state (parts : list ShellChainPart) (buf : string) (single double found invalid : bool) : ChainState :=
  mkChainState parts buf single double false found invalid.

Definition chain_scan (p : option ascii) (s : string) (st : ChainState) : False + ChainState :=
  scan chain_body p 0 s st.

(** What the end of [splitCommandChainWithOperators] reads of the state. *)
Definition chain_result (r : False + ChainState) : list ShellChainPart * string * bool * bool :=
  match r with
  | inl e => match e with end
  | inr st => (c_parts st, c_buf st, c_foundChain st, c_invalidChain st)
  end.

Lemma chain_single b p r parts buf f i :
  no_quote b = true →
  chain_scan p (b +:+ String quote r) (chain_state parts buf true false f i)
  = chain_scan (Some quote) r (chain_state parts (buf +:+ b +:+ chr quote) false false f i).
Proof.
  revert p buf. induction b as [|c b IH]; intros p buf Hb; [reflexivity|].
  cbn in Hb. apply andb_true_iff in Hb as [Hc%negb_true_iff Hb]. unfold chain_scan, chain_state in *. cbn. rewrite Hc.
  unfold c_add. cbn. rewrite IH, append_assoc by done. done.
Qed.

Lemma chain_open_single b p parts buf f i :
  no_quote b = true →
  chain_result (chain_scan p b (chain_state parts buf true false f i)) = (parts, buf +:+ b, f, i).
Proof.
  revert p buf. induction b as [|c b IH]; intros p buf Hb; [by rewrite append_nil_r|].
  cbn in Hb. apply andb_true_iff in Hb as [Hc%negb_true_iff Hb]. unfold chain_scan, chain_state in *. cbn. rewrite Hc.
  unfold c_add. cbn. rewrite IH, append_assoc by done. done.
Qed.

Lemma chain_double_char c p s parts buf f i :
  Ascii.eqb c dquote = false →
  (Ascii.eqb c backslash = true → next_char s = None ∨ ∃ d s', s = String d s' ∧ DOUBLE_QUOTE_ESCAPES d = false ∧ is_newline d = false) →
  chain_scan p (String c s) (chain_state parts buf false true f i)
  = chain_scan (Some c) s (chain_state parts (buf +:+ chr c) false true f i).
Proof.
  intros Hq Hb. unfold chain_scan, chain_state. cbn [scan]. unfold chain_body at 1. cbn.
  destruct s as [|e t]; [by rewrite Hq|].
  destruct (Ascii.eqb c backslash) eqn:E; cbn; [|by rewrite Hq].
  destruct (Hb eq_refl) as [?|(d & s' & [= -> ->] & -> & ->)]; [done|]. by rewrite Hq.
Qed.

Lemma chain_double_esc c p s parts buf f i :
  DOUBLE_QUOTE_ESCAPES c = true →
  chain_scan p (String backslash (String c s)) (chain_state parts buf false true f i)
  = chain_scan (Some c) s (chain_state parts (buf +:+ String backslash (chr c)) false true f i).
Proof.
  intros H. unfold chain_scan, chain_state. cbn. rewrite H, Ascii.eqb_refl. cbn.
  destruct (is_newline c) eqn:E; [|done]. exfalso.
  destruct c as [[] [] [] [] [] [] [] []]; vm_compute in H, E; done.
Qed.

Lemma chain_double_items ds p r parts buf f i :
  dwf (next_char r) ds = true → plain_text (dtext ds +:+ r) = true → ∃ p',
  chain_scan p (dtext ds +:+ r) (chain_state parts buf false true f i)
  = chain_scan p' r (chain_state parts (buf +:+ dtext ds) false true f i).
Proof.
  revert p buf. induction ds as [|d ds IH]; intros p buf H Hp.
  - exists p. cbn. by rewrite append_nil_r.
  - destruct d as [c|c]; cbn -[plain_text chain_scan] in H, Hp |- *.
    + apply andb_true_iff in H as [H Hds]. apply andb_true_iff in H as [Hq%negb_true_iff Hb].
      pose proof (plain_text_cons _ _ Hp) as Hp'. destruct (IH (Some c) (buf +:+ chr c) Hds Hp') as [p' Hp''].
      exists p'. rewrite chain_double_char, Hp'', append_assoc; [done|done|].
      intros E. rewrite E in Hb. by apply dwf_backslash.
    + apply andb_true_iff in H as [Hc Hds]. apply plain_text_cons, plain_text_cons in Hp.
      destruct (IH (Some c) (buf +:+ String backslash (chr c)) Hds Hp) as [p' Hp'']. exists p'.
      by rewrite chain_double_esc, Hp'', append_assoc.
Qed.

Lemma chain_enter_single p r parts buf f i :
  chain_scan p (String quote r) (chain_state parts buf false false f i)
  = chain_scan (Some quote) r (chain_state parts (buf +:+ chr quote) true false f i).
Proof. reflexivity. Qed.

Lemma chain_enter_double p r parts buf f i :
  chain_scan p (String dquote r) (chain_state parts buf false false f i)
  = chain_scan (Some dquote) r (chain_state parts (buf +:+ chr dquote) false true f i).
Proof. reflexivity. Qed.

Lemma chain_leave_double p r parts buf f i :
  chain_scan p (String dquote r) (chain_state parts buf false true f i)
  = chain_scan (Some dquote) r (chain_state parts (buf +:+ chr dquote) false false f i).
Proof. unfold chain_scan. cbn. by destruct r. Qed.

Lemma chain_escape c p r parts buf f i :
  chain_scan p (String backslash (String c r)) (chain_state parts buf false false f i)
  = chain_scan (Some c) r (chain_state parts ((buf +:+ chr backslash) +:+ chr c) false false f i).
Proof. reflexivity. Qed.

Lemma c_operator_eq op parts cur f i :
  c_operator op (chain_state parts (texts cur) false false f i)
  = chain_state (parts ++ filter_map raw_part [(cur, op)]) (texts []) false false true
      (i || existsb (is_missing raw_part) [(cur, op)]).
Proof.
  unfold c_operator, chain_state, filter_map, is_missing, raw_part. cbn.
  destruct (trim (texts cur)); cbn; by rewrite ?app_nil_r, ?orb_true_r, ?orb_false_r.
Qed.

Definition chain_outcome (parts : list ShellChainPart) (f i : bool)
    (r : list (list item * ShellChainOperator) * list item) : list ShellChainPart * string * bool * bool :=
  (parts ++ filter_map raw_part r.1, texts r.2, f || match r.1 with [] => false | _ => true end,
   i || existsb (is_missing raw_part) r.1).

Lemma chain_outcome_nil parts cur f i : chain_outcome parts f i ([], cur) = (parts, texts cur, f, i).
Proof. unfold chain_outcome. cbn. by rewrite app_nil_r, !orb_false_r. Qed.

Lemma chain_outcome_cons parts x f i r :
  chain_outcome (parts ++ filter_map raw_part [x]) true (i || existsb (is_missing raw_part) [x]) r
  = chain_outcome parts f i (x :: r.1, r.2).
Proof.
  unfold chain_outcome, filter_map. cbn. by rewrite orb_true_r, app_nil_r, orb_false_r, <- app_assoc, orb_assoc.
Qed.

Lemma chain_itemized s l :
  itemized s l → plain_text s = true → ∀ p cur parts f i,
  chain_result (chain_scan p s (chain_state parts (texts cur) false false f i))
  = chain_outcome parts f i (chain_items p cur l).
Proof.
  intros H. remember (String.length s) as n eqn:Hn. revert s l H Hn.
  induction n as [n IH] using lt_wf_ind. intros s l H -> Hp p cur parts f i.
  assert (∀ s' l', (String.length s' < String.length s)%nat → itemized s' l' → plain_text s' = true →
    ∀ p cur parts f i, chain_result (chain_scan p s' (chain_state parts (texts cur) false false f i))
    = chain_outcome parts f i (chain_items p cur l')) as IH'.
  { intros s' l' Hl Hi Hp'. by apply (IH _ Hl s' l'). }
  clear IH. destruct H as [|c s l Hc H|c s l H|b s l Hb H|ds s l Hds H| |b Hb|ds Hds]; cbn [chain_items].
  - by rewrite chain_outcome_nil.
  - pose proof (plain_text_cons _ _ Hp) as Hp'.
    unfold plain_char in Hc. unfold chain_scan. cbn [scan]. unfold chain_body at 1.
    cbn -[isShellCommentStart].
    destruct (Ascii.eqb c quote) eqn:E1, (Ascii.eqb c dquote) eqn:E2, (Ascii.eqb c backslash) eqn:E3; try done.
    destruct (isShellCommentStart p c); [by rewrite chain_outcome_nil|].
    rewrite !(next_is_items s l) by done.
    assert (∀ op d s' l', (String.length s' < S (String.length s))%nat → itemized s' l' → plain_text s' = true →
      chain_result (chain_scan (Some d) s' (c_operator op (chain_state parts (texts cur) false false f i)))
      = chain_outcome parts f i ((cur, op) :: (chain_items (Some d) [] l').1, (chain_items (Some d) [] l').2)) as Hop.
    { intros op d s' l' Hl Hi Hps. rewrite c_operator_eq, (IH' s' l' Hl Hi Hps), chain_outcome_cons with (f := f). done. }
    assert (chain_result (chain_scan (Some c) s (c_add (chr c) (chain_state parts (texts cur) false false f i)))
      = chain_outcome parts f i (chain_items (Some c) (cur ++ [IChar c]) l)) as Hadd.
    { unfold c_add, chain_state. cbn. change (chr c) with (item_text (IChar c)). rewrite <- texts_snoc. by apply IH'; [cbn; lia|..]. }
    pose proof (Hop Sequel c s l ltac:(lia) H Hp') as Hseq.
    destruct H as [|d s l Hd H|d s l H|b s l Hb H|ds s l Hds H| |b Hb|ds Hds]; cbn [next_item_is]; rewrite ?andb_false_r.
    2:{ destruct (Ascii.eqb c ampersand) eqn:Ea; cbn [andb].
        { apply Ascii.eqb_eq in Ea as ->. cbn [andb]. change (Ascii.eqb ampersand semicolon) with false. cbn iota.
          change (Ascii.eqb ampersand bar) with false. cbn [andb]. destruct (Ascii.eqb d ampersand); [|exact Hadd].
          apply (Hop AndThen d s l); [cbn; lia|done|by apply plain_text_cons in Hp']. }
        destruct (Ascii.eqb c bar) eqn:Eb; cbn [andb].
        { apply Ascii.eqb_eq in Eb as ->. change (Ascii.eqb bar semicolon) with false. cbn iota.
          destruct (Ascii.eqb d bar); [|exact Hadd].
          apply (Hop OrElse d s l); [cbn; lia|done|by apply plain_text_cons in Hp']. }
        destruct (Ascii.eqb c semicolon); [exact Hseq|exact Hadd]. }
    all: destruct (Ascii.eqb c semicolon); [exact Hseq|exact Hadd].
  - apply plain_text_cons, plain_text_cons in Hp. rewrite chain_escape, append_assoc.
    change (chr backslash +:+ chr c) with (item_text (IEsc c)). rewrite <- texts_snoc. by apply IH'; [cbn; lia|..].
  - apply plain_text_cons, plain_text_append in Hp as [_ Hp]. apply plain_text_cons in Hp.
    rewrite chain_enter_single, chain_single, append_assoc by done.
    change (chr quote +:+ b +:+ chr quote) with (item_text (ISingle b)). rewrite <- texts_snoc.
    by apply IH'; [cbn; rewrite append_length; cbn; lia|..].
  - apply plain_text_cons in Hp. rewrite chain_enter_double.
    destruct (chain_double_items ds (Some dquote) (String dquote s) parts (texts cur +:+ chr dquote) f i Hds Hp) as [p' ->].
    apply plain_text_append in Hp as [_ Hp]. apply plain_text_cons in Hp.
    rewrite chain_leave_double, !append_assoc.
    change (chr dquote +:+ dtext ds +:+ chr dquote) with (item_text (IDouble ds)). rewrite <- texts_snoc.
    by apply IH'; [cbn; rewrite append_length; cbn; lia|..].
  - rewrite chain_outcome_nil, texts_snoc. reflexivity.
  - rewrite chain_enter_single, chain_open_single, append_assoc by done. rewrite chain_outcome_nil, texts_snoc. reflexivity.
  - apply plain_text_cons in Hp. rewrite chain_enter_double. rewrite <- (append_nil_r (dtext ds)) in Hp |- * at 1.
    destruct (chain_double_items ds (Some dquote) EmptyString parts (texts cur +:+ chr dquote) f i Hds Hp) as [p' ->].
    rewrite chain_outcome_nil, texts_snoc, append_assoc. reflexivity.
Qed.

Lemma splitCommandChain_items s l :
  itemized s l → plain_text s = true →
  splitCommandChainWithOperators s =
    let r := chain_items None [] l in
    match r.1 with
    | [] => None
    | _ =>
        match nonempty (trim (texts r.2)) with
        | Some t => if existsb (is_missing raw_part) r.1 then None
                    else Some (filter_map raw_part r.1 ++ [mkPart t None])
        | None => None
        end
    end.
Proof.
  intros H Hp. pose proof (chain_itemized s l H Hp None [] [] false false) as Hr.
  unfold splitCommandChainWithOperators. change (scan chain_body None 0 s chain_start)
    with (chain_scan None s (chain_state [] (texts []) false false false false)).
  destruct (chain_scan None s _) as [[]|st]. unfold chain_outcome in Hr. cbn in Hr. injection Hr as -> -> -> ->.
  cbn zeta. destruct (chain_items None [] l) as [[|x ps] last]; cbn; [done|].
  by destruct (trim (texts last)).
Qed.

End ShellScanners.
