(* ===== verification/ShellAgreement.v ===== *)
(** * The analysis agrees with the shell

    When a command line in plain text is accepted, the shell reads it as the words and
    operators that the analysis found, unless the shell refuses the line or it holds
    words that the tokenizer loses. Command lines outside these conditions on which
    the two disagree are shown at the end. *)

From Stdlib Require Import Ascii.
From S2P Require Import Prelude JsRegex ShellSyntax ShellReading ShellAnalysis ShellItems ShellScanners.

#[local] Open Scope stdpp_scope.

Module ShellAgreement.
Export ShellScanners ShellAnalysis.

#[local] Arguments is_ws : simpl never.
#[local] Arguments is_blank : simpl never.
#[local] Arguments one_of : simpl never.
#[local] Arguments Ascii.eqb : simpl never.
#[local] Arguments trim : simpl never.
#[local] Arguments isShellCommentStart : simpl never.

(** ** The words of a segment

    The words that are complete after some items, and the one that has begun. *)

Definition flush_word (w : option (list schar)) : list (list schar) :=
  match w with Some w => [w] | None => [] end.

Fixpoint progress (w : option (list schar)) (l : list item) : list (list schar) * option (list schar) :=
  match l with
  | [] => ([], w)
  | IChar c :: r =>
      if is_blank c then let x := progress None r in (flush_word w ++ x.1, x.2)
      else progress (extend w [Act c]) r
  | IEsc c :: r => progress (extend w [Lit c]) r
  | ISingle b :: r => progress (extend w (literal b)) r
  | IDouble ds :: r => progress (extend w (map dchar_schar ds)) r
  | IOpen _ :: r => progress w r
  end.

Definition item_words (l : list item) : list (list schar) :=
  (progress None l).1 ++ flush_word (progress None l).2.

(** The last character before the end of [l]. *)
Definition last_of (p : option ascii) (l : list item) : option ascii :=
  match last l with Some it => last_char it | None => p end.

Lemma last_of_cons p it l : last_of p (it :: l) = last_of (last_char it) l.
Proof.
  unfold last_of. destruct l as [|it' l]; [done|]. change (last (it :: it' :: l)) with (last (it' :: l)).
  destruct (last (it' :: l)) eqn:E; [done|]. by apply last_None in E.
Qed.

(** A segment: no operator, no comment, nothing left open, no substitution, blanks
    as the only white space. *)
Fixpoint clean (p : option ascii) (l : list item) : bool :=
  match l with
  | [] => true
  | IOpen _ :: _ => false
  | IChar c :: r =>
      negb (isShellCommentStart p c) && negb (one_of "|&;<>()" c || Ascii.eqb c backtick)
      && negb (Ascii.eqb c dollar && next_item_is "("%char r) && Bool.eqb (is_ws c) (is_blank c) && clean (Some c) r
  | IDouble ds :: r => match before_subst ds with Some _ => false | None => clean (Some dquote) r end
  | it :: r => clean (last_char it) r
  end.

(** [w] has not begun only at the start or after white space. *)
Definition synced (p : option ascii) (w : option (list schar)) : Prop :=
  w = None → match p with Some c => is_ws c = true | None => True end.

Definition starts_with_hash (l : list item) : bool := next_item_is hash l.

(** What ends a word. *)
Definition stops (rest : list item) : Prop :=
  (∀ w, read_items w rest = flush w <$> read_items None rest) ∧ next_item_is "("%char rest = false.

Lemma flush_app w toks : flush w toks = map TWord (flush_word w) ++ toks.
Proof. by destruct w. Qed.

Lemma operator_char_plain c :
  is_ws c = is_blank c → one_of "|&;<>()" c = false → is_operator_char c = false.
Proof.
  unfold is_operator_char. intros Hw ->. cbn.
  destruct (Ascii.eqb c newline) eqn:E; [|done]. apply Ascii.eqb_eq in E as ->. by vm_compute in Hw.
Qed.

Lemma next_item_app d l rest : l ≠ [] → next_item_is d (l ++ rest) = next_item_is d l.
Proof. by destruct l as [|[] l]. Qed.

Lemma read_progress raw p w rest :
  clean p raw = true → synced p w ∨ starts_with_hash raw = false → next_item_is "("%char rest = false →
  read_items w (raw ++ rest) = app (map TWord (progress w raw).1) <$> read_items (progress w raw).2 rest.
Proof.
  intros Hc Hs Hparen. revert p w Hc Hs. induction raw as [|it raw IH]; intros p w Hc Hs.
  - cbn. by destruct (read_items w rest).
  - destruct it as [c|c|b|ds|t]; cbn [app read_items progress]; cbn in Hc; try done.
    + repeat (apply andb_true_iff in Hc as [Hc ?]). apply negb_true_iff in Hc.
      repeat match goal with H : negb _ = true |- _ => apply negb_true_iff in H end.
      match goal with H : Bool.eqb _ _ = true |- _ => apply Bool.eqb_prop in H as Hws end.
      match goal with H : (_ || _)%bool = false |- _ => apply orb_false_iff in H as [Hop Hbt] end.
      destruct (is_blank c) eqn:Eb.
      { rewrite (IH (Some c) None); [|done|left; intros _; by rewrite Hws]. cbn [fst snd].
        destruct (read_items (progress None raw).2 rest); cbn; [|done]. by rewrite flush_app, map_app, app_assoc. }
      assert (Ascii.eqb c hash && match w with None => true | Some _ => false end = false) as ->.
      { destruct (Ascii.eqb c hash) eqn:Eh; [|done]. destruct w; [done|]. exfalso.
        destruct Hs as [Hs|Hs]; [|unfold starts_with_hash in Hs; cbn in Hs; congruence].
        specialize (Hs eq_refl). unfold isShellCommentStart in Hc. rewrite Eh in Hc. cbn in Hc.
        destruct p; [congruence|done]. }
      rewrite operator_char_plain by (done || congruence).
      assert (Ascii.eqb c dollar && next_item_is "("%char (raw ++ rest) = false) as ->.
      { destruct raw as [|it raw]; [cbn; by rewrite Hparen, andb_false_r|]. by rewrite next_item_app. }
      rewrite Hbt. cbn. by apply (IH (Some c)); [|left].
    + by apply (IH (Some c)); [|left].
    + by apply (IH (Some quote)); [|left].
    + destruct (before_subst ds); [done|]. by apply (IH (Some dquote)); [|left].
Qed.

Lemma read_blank_item w c rest :
  is_blank c = true → read_items w (IChar c :: rest) = flush w <$> read_items None rest.
Proof. intros H. cbn. by rewrite H. Qed.

Lemma flush_none (x : option (list stoken)) : flush None <$> x = x.
Proof. by destruct x. Qed.

(** Blanks around a segment. *)
Definition blanks (s : string) : Prop := str_all is_blank s = true.

Lemma read_leading a rest : blanks a → read_items None (ws_items a ++ rest) = read_items None rest.
Proof.
  intros H. induction a as [|c a IH]; [done|]. unfold blanks in H. cbn in H. apply andb_true_iff in H as [Hc Ha].
  change (ws_items (String c a) ++ rest) with (IChar c :: (ws_items a ++ rest)).
  by rewrite read_blank_item, flush_none, IH.
Qed.

Lemma stops_blanks b rest : blanks b → stops rest → stops (ws_items b ++ rest).
Proof.
  intros H [Hs Hp]. destruct b as [|c b]; [done|]. unfold blanks in H. cbn in H. apply andb_true_iff in H as [Hc Hb].
  split.
  - intros w. change (ws_items (String c b) ++ rest) with (IChar c :: (ws_items b ++ rest)).
    by rewrite !read_blank_item, flush_none.
  - cbn. by destruct c as [[] [] [] [] [] [] [] []]; vm_compute in Hc |- *.
Qed.

Lemma progress_leading a l : blanks a → progress None (ws_items a ++ l) = progress None l.
Proof.
  intros H. induction a as [|c a IH]; [done|]. unfold blanks in H. cbn in H. apply andb_true_iff in H as [Hc Ha].
  change (ws_items (String c a) ++ l) with (IChar c :: (ws_items a ++ l)). cbn [progress]. rewrite Hc, IH by done.
  by destruct (progress None l).
Qed.

Lemma progress_app w l1 l2 :
  progress w (l1 ++ l2)
  = ((progress w l1).1 ++ (progress (progress w l1).2 l2).1, (progress (progress w l1).2 l2).2).
Proof.
  revert w. induction l1 as [|it l1 IH]; intros w; [cbn; by destruct (progress w l2)|].
  destruct it as [c|c|q|ds|t]; cbn; rewrite ?IH; try done. destruct (is_blank c); [|done]. cbn. by rewrite app_assoc.
Qed.

Lemma words_surround a l b : blanks a → blanks b → item_words (ws_items a ++ l ++ ws_items b) = item_words l.
Proof.
  intros Ha Hb. unfold item_words. rewrite progress_leading, progress_app by done. cbn [fst snd].
  destruct b as [|c b]; [cbn; by rewrite app_nil_r|]. unfold blanks in Hb. cbn in Hb. apply andb_true_iff in Hb as [Hc Hb].
  change (ws_items (String c b)) with (IChar c :: ws_items b). cbn [progress]. rewrite Hc.
  rewrite <- (app_nil_r (ws_items b)), progress_leading by done. cbn. by rewrite !app_nil_r.
Qed.

(** ** A pipeline, cut into segments *)

Definition comment_tail (p : option ascii) (tail : list item) : Prop :=
  tail = [] ∨ ∃ r, tail = IChar hash :: r ∧ isShellCommentStart p hash = true.

Inductive piped : option ascii → list item → list (list item) → list item → Prop :=
| piped_last p raw tail :
    clean p raw = true → comment_tail (last_of p raw) tail → piped p (raw ++ tail) [raw] tail
| piped_bar p raw l raws tail :
    clean p raw = true → next_item_is bar l = false → piped (Some bar) l raws tail →
    piped p (raw ++ IChar bar :: l) (raw :: raws) tail.

Definition plain_items (l : list item) : Prop :=
  Forall (λ it, ∀ c, it = IChar c → is_ws c = is_blank c) l.

Lemma itemized_plain s l : itemized s l → plain_text s = true → plain_items l.
Proof.
  induction 1 as [|c s l Hc _ IH|c s l _ IH|b s l Hb _ IH|ds s l Hds _ IH| |b Hb|ds Hds]; intros Hp;
    try (constructor; [intros ? [=]|]); try constructor.
  - by subst; apply plain_text_ws in Hp.
  - apply IH. by apply plain_text_cons in Hp.
  - apply IH. by apply plain_text_cons, plain_text_cons in Hp.
  - apply IH. apply plain_text_cons, plain_text_append in Hp as [_ Hp]. by apply plain_text_cons in Hp.
  - apply IH. apply plain_text_cons, plain_text_append in Hp as [_ Hp]. by apply plain_text_cons in Hp.
Qed.

Lemma clean_app_next c l :
  (Ascii.eqb c dollar && next_item_is "("%char l) = false →
  ∀ raw rest, l = raw ++ rest → (Ascii.eqb c dollar && next_item_is "("%char raw) = false.
Proof.
  intros H raw rest ->. destruct raw as [|it raw]; [by rewrite andb_false_r|]. by rewrite next_item_app in H.
Qed.

Lemma pipe_items_piped l p cur raws :
  pipe_items p cur l = Some raws → plain_items l →
  ∃ raw raws' tail, raws = (cur ++ raw) :: raws' ∧ piped p l (raw :: raws') tail.
Proof.
  revert p cur raws. induction l as [|it l IH]; intros p cur raws H Hpl.
  { cbn in H. injection H as <-. exists [], [], []. rewrite app_nil_r. split; [done|].
    apply (piped_last p [] []); [done|by left]. }
  apply Forall_cons in Hpl as [Hit Hpl].
  assert (∀ raws, pipe_items (last_char it) (cur ++ [it]) l = Some raws →
    (∀ raw rest, l = raw ++ rest → clean (last_char it) raw = true → clean p (it :: raw) = true) →
    ∃ raw raws' tail, raws = (cur ++ raw) :: raws' ∧ piped p (it :: l) (raw :: raws') tail) as Hgo.
  { intros raws' H' Hcl. destruct (IH _ _ _ H' Hpl) as (raw & rs & tail & -> & Hp).
    exists (it :: raw), rs, tail. rewrite <- app_assoc. split; [done|].
    inversion Hp as [? ? ? Hc Ht|? ? l' ? ? Hc Hb Hp']; subst.
    - rewrite (app_comm_cons raw tail it). apply piped_last; [by eapply Hcl|]. by rewrite last_of_cons.
    - rewrite (app_comm_cons raw (IChar bar :: l') it). apply piped_bar; [by eapply Hcl|done|done]. }
  destruct it as [c|c|b|ds|t]; cbn [pipe_items] in H.
  - destruct (isShellCommentStart p c) eqn:Ec.
    { injection H as <-. exists [], [], (IChar c :: l). rewrite app_nil_r. split; [done|].
      apply (piped_last p [] (IChar c :: l)); [done|]. right. exists l.
      assert (c = hash) as -> by (unfold isShellCommentStart in Ec; apply andb_true_iff in Ec as [Ec _]; by apply Ascii.eqb_eq in Ec).
      done. }
    destruct (Ascii.eqb c bar) eqn:Eb.
    { apply Ascii.eqb_eq in Eb as ->. destruct (next_item_is bar l) eqn:En; [done|].
      destruct (next_item_is ampersand l) eqn:Ea; [done|]. cbn [orb] in H.
      destruct (pipe_items (Some bar) [] l) as [rs|] eqn:Er; [|done]. injection H as <-.
      destruct (IH _ _ _ Er Hpl) as (raw & rs' & tail & -> & Hp).
      exists [], (raw :: rs'), tail. rewrite app_nil_r. split; [done|]. by apply (piped_bar p []). }
    destruct (one_of "&;<>()" c || Ascii.eqb c backtick) eqn:Eo; [done|].
    destruct (Ascii.eqb c dollar && next_item_is "("%char l) eqn:Ed; [done|].
    apply (Hgo _ H). intros raw rest Hl Hcl. cbn in Hcl |- *. rewrite Ec, Hcl, (clean_app_next c l Ed raw rest Hl).
    rewrite (Hit c eq_refl), Bool.eqb_reflx, !andb_true_r. cbn.
    change (one_of "|&;<>()" c) with (Ascii.eqb bar c || one_of "&;<>()" c).
    by rewrite <- orb_assoc, (Ascii.eqb_sym bar c), Eb, Eo.
  - by apply (Hgo _ H).
  - by apply (Hgo _ H).
  - destruct (before_subst ds) eqn:Es; [done|]. apply (Hgo _ H). intros raw rest _ Hcl. cbn in Hcl |- *. by rewrite Es.
  - done.
Qed.

(** ** Words that the tokenizer keeps

    [splitShellArgs] drops empty words, and ends where a number sign follows quotes
    that hold nothing. *)

Definition unmasked_word (w : list schar) : bool :=
  match w with Act c :: _ => negb (Ascii.eqb c hash) | _ => true end.

Definition proper_word (w : list schar) : bool :=
  match w with [] => false | _ => unmasked_word w end.

Definition token_ok (t : stoken) : Prop :=
  match t with
  | TWord w => proper_word w = true
  | TSubst w => unmasked_word w = true
  | TOp _ => True
  end.

Definition unmasked (w : option (list schar)) : Prop :=
  match w with Some w => unmasked_word w = true | None => True end.

Definition value (w : option (list schar)) : string :=
  match w with Some w => word_value w | None => EmptyString end.

(** A word that has begun begins the next token. *)
Definition begins_with (x : schar) (toks : list stoken) : Prop :=
  ∃ w r, toks = TWord (x :: w) :: r ∨ toks = TSubst (x :: w) :: r.

Lemma begins_unmasked x w0 toks : begins_with x toks → Forall token_ok toks → unmasked (Some (x :: w0)).
Proof. intros (w & r & [->| ->]) H; apply Forall_cons in H as [H _]; exact H. Qed.

Lemma sh_read_begins_with s x mode w toks :
  mode ≠ InComment → sh_read mode (Some (x :: w)) s = Some toks → begins_with x toks.
Proof. intros Hm H. destruct (sh_read_begins _ _ _ _ Hm H) as (w' & r & Hr). by exists (w ++ w'), r. Qed.

Lemma read_items_begins l x : ∀ w toks, read_items (Some (x :: w)) l = Some toks → begins_with x toks.
Proof.
  assert (∀ (o : option (list stoken)) f toks, (∀ t, begins_with x (f t)) → f <$> o = Some toks → begins_with x toks) as Hf.
  { intros [o|] f tk Hall [= <-]. apply Hall. }
  induction l as [|it l IH]; intros w toks H.
  - injection H as <-. exists w, []. by left.
  - assert (∀ r, begins_with x (flush (Some (x :: w)) r)) as Hflush by (intros r; exists w, r; by left).
    assert (∀ cs toks, read_items (extend (Some (x :: w)) cs) l = Some toks → begins_with x toks) as Hext.
    { intros cs tk. apply (IH (w ++ cs) tk). }
    destruct it as [c|c|b|ds|t]; cbn [read_items] in H; try (by eapply Hext); revert H.
    + destruct (is_blank c); [by eapply Hf|]. rewrite andb_false_r. destruct (is_operator_char c).
      { destruct l as [|[d|d|b|ds|t] l]; [|destruct (_ && _)%bool| | | |]; eapply Hf; intros ?; apply Hflush. }
      destruct (_ || _)%bool; [|by eapply Hext]. intros [= <-]. exists w, []. by right.
    + destruct (before_subst ds); [|by eapply Hext]. intros [= <-]. eexists _, []. by right.
    + by eapply (sh_read_begins_with t x Plain).
Qed.

(** ** The tokenizer on a segment *)

Lemma word_value_app w cs : word_value (w ++ cs) = word_value w +:+ word_value cs.
Proof. unfold word_value. induction w as [|x w IH]; [done|]. cbn. by rewrite IH. Qed.

Lemma word_value_dchars ds : word_value (map dchar_schar ds) = dvalue ds.
Proof.
  unfold word_value, dvalue. induction ds as [|d ds IH]; [done|]. cbn. rewrite IH. f_equal.
  destruct d as [c|c]; [|done]. cbn. by destruct (Ascii.eqb c dollar).
Qed.

Lemma value_extend w cs : value (extend w cs) = value w +:+ word_value cs.
Proof. destruct w as [w|]; [apply (word_value_app w cs)|done]. Qed.

Lemma value_truthy w : str_truthy (word_value w) = match w with [] => false | _ => true end.
Proof. by destruct w. Qed.

(** What a word that has begun makes of the words that follow. *)
Lemma progress_begins x w l :
  match (progress (Some (x :: w)) l).1 with
  | [] => ∃ w', (progress (Some (x :: w)) l).2 = Some (x :: w')
  | first :: _ => ∃ w', first = x :: w'
  end.
Proof.
  revert w. induction l as [|it l IH]; intros w; [by eexists|].
  destruct it as [c|c|b|ds|t]; cbn [progress].
  - destruct (is_blank c); [by eexists|]. apply (IH (w ++ [Act c])).
  - apply (IH (w ++ [Lit c])).
  - apply (IH (w ++ literal b)).
  - apply (IH (w ++ map dchar_schar ds)).
  - apply IH.
Qed.

Lemma args_progress l p w rest tokens :
  clean p l = true → synced p w ∨ starts_with_hash l = false →
  Forall (λ w, proper_word w = true) (progress w l).1 → unmasked (progress w l).2 →
  args_items tokens (value w) (l ++ rest)
  = args_items (tokens ++ map word_value (progress w l).1) (value (progress w l).2) rest.
Proof.
  intros Hc Hs. revert p w tokens Hc Hs. induction l as [|it l IH]; intros p w tokens Hc Hs Hd Hu.
  - cbn. by rewrite app_nil_r.
  - destruct it as [c|c|b|ds|t]; cbn [app args_items progress] in *; cbn in Hc; try done.
    + repeat (apply andb_true_iff in Hc as [Hc ?]). apply negb_true_iff in Hc.
      match goal with H : Bool.eqb _ _ = true |- _ => apply Bool.eqb_prop in H as Hws end.
      assert (is_blank c = true → Ascii.eqb c hash = false) as Hbh.
      { clear. destruct c as [[] [] [] [] [] [] [] []]; vm_compute; done. }
      rewrite Hws. destruct (is_blank c) eqn:Eb.
      { rewrite Hbh by done. cbn [andb]. cbn [fst snd] in Hd, Hu. apply Forall_app in Hd as [Hw Hd].
        rewrite (IH (Some c) None); [|done|left; intros _; by rewrite Hws|done|done]. f_equal.
        destruct w as [w|]; [|done]. cbn in Hw |- *. apply Forall_cons in Hw as [Hw _]. unfold push_token.
        rewrite value_truthy. destruct w; [done|]. by rewrite <- app_assoc. }
      destruct (Ascii.eqb c hash && negb (str_truthy (value w))) eqn:Eh.
      { exfalso. apply andb_true_iff in Eh as [Eh Ev]. destruct w as [w|].
        - cbn in Ev. rewrite value_truthy in Ev. destruct w; [|done].
          apply Ascii.eqb_eq in Eh as ->. pose proof (progress_begins (Act hash) [] l) as Hb.
          change (extend (Some []) [Act hash]) with (Some [Act hash]) in Hd, Hu.
          destruct (progress (Some [Act hash]) l) as [[|first done] cur]; cbn in Hb, Hd, Hu; destruct Hb as [w' ->].
          + done.
          + apply Forall_cons in Hd as [Hd _]. done.
        - destruct Hs as [Hs|Hs]; [|unfold starts_with_hash in Hs; cbn in Hs; congruence].
          specialize (Hs eq_refl). unfold isShellCommentStart in Hc. rewrite Eh in Hc. cbn in Hc.
          destruct p; [congruence|done]. }
      rewrite <- (IH (Some c)); [|done|by left|done|done]. by rewrite value_extend.
    + rewrite <- (IH (Some c)); [|done|by left|done|done]. by rewrite value_extend.
    + rewrite <- (IH (Some quote)); [|done|by left|done|done]. by rewrite value_extend, word_value_literal.
    + destruct (before_subst ds); [done|].
      rewrite <- (IH (Some dquote)); [|done|by left|done|done]. by rewrite value_extend, word_value_dchars.
Qed.

(** ** The text of a segment, trimmed *)

Lemma trim_start_ws a s : str_all is_ws a = true → trim_start (a +:+ s) = trim_start s.
Proof. induction a as [|c a IH]; cbn; [done|]. by intros [-> Ha%IH]%andb_true_iff. Qed.

Lemma trim_end_ws b s : str_all is_ws b = true → trim_end (s +:+ b) = trim_end s.
Proof.
  intros Hb. assert (trim_end b = EmptyString) as Hb0.
  { induction b as [|c b IH]; [done|]. cbn in Hb |- *. apply andb_true_iff in Hb as [Hc Hb]. by rewrite (IH Hb), Hc. }
  induction s as [|c s IH]; cbn; [done|]. by rewrite IH.
Qed.

Lemma trim_surround a s b :
  str_all is_ws a = true → str_all is_ws b = true → trim_start s = s → trim_end s = s →
  trim (a +:+ s +:+ b) = s.
Proof.
  intros Ha Hb Hs He. unfold trim. rewrite trim_start_ws by done. destruct s as [|c s].
  - cbn. assert (trim_start b = EmptyString) as ->; [|done]. clear -Hb.
    induction b as [|c b IH]; [done|]. cbn in Hb |- *. apply andb_true_iff in Hb as [-> Hb]. by apply IH.
  - rewrite trim_start_append, trim_end_ws by done. done.
Qed.

(** An item that is not white space. *)
Definition solid (it : item) : bool := match it with IChar c => negb (is_ws c) | _ => true end.

Lemma split_leading l : ∃ a t, l = ws_items a ++ t ∧ str_all is_ws a = true
  ∧ match t with [] => True | it :: _ => solid it = true end.
Proof.
  induction l as [|it l (a & t & -> & Ha & Ht)]; [by exists EmptyString, []|].
  destruct (solid it) eqn:E; [by exists EmptyString, (it :: ws_items a ++ t)|].
  destruct it as [c|c|b|ds|x]; try done. cbn in E. apply negb_false_iff in E.
  exists (String c a), t. split; [done|]. cbn. by rewrite E.
Qed.

Lemma split_trailing l : ∃ t b, l = t ++ ws_items b ∧ str_all is_ws b = true
  ∧ match last t with None => True | Some it => solid it = true end.
Proof.
  induction l as [|it l (t & b & -> & Hb & Ht)]; [by exists [], EmptyString|].
  destruct t as [|it' t].
  - destruct (solid it) eqn:E; [by exists [it], b|].
    destruct it as [c|c|q|ds|x]; try done. cbn in E. apply negb_false_iff in E.
    exists [], (String c b). split; [done|]. cbn. by rewrite E.
  - exists (it :: it' :: t), b. by split_and!.
Qed.

Lemma texts_ws a : texts (ws_items a) = a.
Proof. induction a as [|c a IH]; [done|]. cbn. unfold ws_items in IH. by rewrite IH. Qed.

Lemma trim_start_solid it l : solid it = true → (∀ t, it ≠ IOpen t) → trim_start (texts (it :: l)) = texts (it :: l).
Proof.
  intros Hs Ho. destruct it as [c|c|b|ds|t]; cbn [texts item_text chr]; try reflexivity.
  - cbn in Hs. apply negb_true_iff in Hs. by apply trim_start_id.
  - by destruct (Ho t).
Qed.

Lemma trim_end_char s c : is_ws c = false → trim_end (s +:+ chr c) = s +:+ chr c.
Proof. intros H. unfold chr. by rewrite trim_end_nonws. Qed.

Lemma clean_closed p l : clean p l = true → closed l.
Proof.
  unfold closed. revert p. induction l as [|it l IH]; intros p H; [constructor|]. destruct it as [c|c|b|ds|t]; cbn in H.
  - repeat (apply andb_true_iff in H as [H ?]). constructor; [done|by eapply IH].
  - constructor; [done|by eapply IH].
  - constructor; [done|by eapply IH].
  - destruct (before_subst ds); [done|]. constructor; [done|by eapply IH].
  - done.
Qed.

Lemma clean_app p l1 l2 : clean p (l1 ++ l2) = true → clean p l1 = true ∧ clean (last_of p l1) l2 = true.
Proof.
  revert p. induction l1 as [|it l1 IH]; intros p H; [done|]. rewrite last_of_cons.
  destruct it as [c|c|b|ds|t]; cbn in H |- *; try by apply IH.
  - repeat (apply andb_true_iff in H as [H ?]). destruct (IH (Some c)) as [Hl1 Hl2]; [done|]. split; [|done].
    rewrite H, Hl1, !andb_true_r. cbn.
    repeat match goal with H : ?x = true |- context [?x] => rewrite H end. cbn. rewrite ?andb_true_r.
    destruct l1 as [|it l1]; [by rewrite andb_false_r|]. rewrite next_item_app in * by done. done.
  - destruct (before_subst ds); [done|]. by apply IH.
  - done.
Qed.

(** ** A segment that the analysis accepts *)

Record segment_ok (p : option ascii) (raw : list item) : Prop := mk_segment_ok {
  so_clean : clean p raw = true;
  so_prev : p = None ∨ p = Some bar;
  so_items : itemized (texts raw) raw;
  so_plain : plain_text (texts raw) = true;
  so_args : ∀ seg, nonempty (trim (texts raw)) = Some seg → ∃ v vs, splitShellArgs seg = Some (v :: vs);
}.

(** An escaped white space at the end, which trimming would cut in two. *)
Definition escaped_end (raw : list item) : Prop :=
  ∃ raw' c b, raw = raw' ++ IEsc c :: ws_items b ∧ is_ws c = true ∧ str_all is_ws b = true.

Lemma segment_synced p raw : segment_ok p raw → synced p None ∨ starts_with_hash raw = false.
Proof.
  intros [Hc [->| ->] _ _ Hargs]; [by left|]. right. destruct (starts_with_hash raw) eqn:E; [|done]. exfalso.
  destruct raw as [|[c|c|b|ds|t] raw]; try done. unfold starts_with_hash in E. cbn in E. apply Ascii.eqb_eq in E as ->.
  assert (∃ t, trim (texts (IChar hash :: raw)) = String hash t) as [t Ht].
  { unfold trim. rewrite trim_start_solid by done. by apply trim_end_nonws_head. }
  destruct (Hargs (String hash t)) as (v & vs & Hv); [by rewrite Ht|]. by vm_compute in Hv.
Qed.

Lemma clean_blanks p a : clean p (ws_items a) = true → str_all is_ws a = true → blanks a.
Proof.
  unfold blanks. revert p. induction a as [|c a IH]; intros p H Ha; [done|].
  cbn in H, Ha |- *. apply andb_true_iff in Ha as [Hc Ha]. repeat (apply andb_true_iff in H as [H ?]).
  match goal with H : Bool.eqb _ _ = true |- _ => apply Bool.eqb_prop in H as Hws end.
  rewrite <- Hws, Hc. by apply (IH (Some c)).
Qed.

Lemma last_of_ws p a :
  str_all is_ws a = true → last_of p (ws_items a) = p ∨ ∃ c, last_of p (ws_items a) = Some c ∧ is_ws c = true.
Proof.
  revert p. induction a as [|c a IH]; intros p Ha; [by left|]. cbn in Ha. apply andb_true_iff in Ha as [Hc Ha].
  change (ws_items (String c a)) with (IChar c :: ws_items a). rewrite last_of_cons. cbn [last_char]. right.
  destruct (IH (Some c) Ha) as [-> |?]; [by exists c|done].
Qed.

(** After leading blanks the tokenizer and the shell still agree where words begin. *)
Lemma synced_leading p a t :
  str_all is_ws a = true → synced p None ∨ starts_with_hash (ws_items a ++ t) = false →
  synced (last_of p (ws_items a)) None ∨ starts_with_hash t = false.
Proof.
  intros Ha Hs. destruct a as [|c a]; [exact Hs|]. left. intros _. cbn in Ha. apply andb_true_iff in Ha as [Hc Ha].
  change (ws_items (String c a)) with (IChar c :: ws_items a). rewrite last_of_cons. cbn [last_char].
  destruct (last_of_ws (Some c) a Ha) as [-> |(d & -> & Hd)]; done.
Qed.

(** The words read so far are those the tokenizer keeps. *)
Lemma progress_ok w l rest toks :
  read_items (progress w l).2 rest = Some toks →
  Forall token_ok (map TWord (progress w l).1 ++ toks) →
  Forall (λ w, proper_word w = true) (progress w l).1 ∧ unmasked (progress w l).2.
Proof.
  intros Hr H. apply Forall_app in H as [H1 H2]. split; [exact (proj1 (List.Forall_map _ _ _) H1)|].
  revert Hr. destruct (progress w l).2 as [[|x cur]|]; [done| |done]. intros Hr.
  apply (begins_unmasked x cur toks); [by apply (read_items_begins rest x cur)|done].
Qed.

Lemma fmap_Some_app {A} (pre : list A) o toks :
  app pre <$> o = Some toks → ∃ toks', o = Some toks' ∧ toks = pre ++ toks'.
Proof. destruct o as [toks'|]; [|done]. intros [= <-]. by exists toks'. Qed.

Lemma segment_escaped_end p raw rest toks :
  segment_ok p raw → escaped_end raw → read_items None (raw ++ rest) = Some toks → Forall token_ok toks → False.
Proof.
  intros Hso (raw' & c & b & -> & Hc & Hb) Hr Hok. pose proof (segment_synced _ _ Hso) as Hsync.
  destruct Hso as [Hcl _ Hit Hpl Hargs]. apply clean_app in Hcl as [Hcl _].
  assert (synced p None ∨ starts_with_hash raw' = false) as Hsync' by (destruct raw'; [by right|exact Hsync]).
  rewrite <- app_assoc in Hr. cbn [app] in Hr. rewrite (read_progress raw' p) in Hr by done.
  apply fmap_Some_app in Hr as (toks' & Hr & ->). destruct (progress_ok _ _ _ _ Hr Hok) as [Hd Hu].
  destruct (split_leading raw') as (a & t & -> & Ha & Ht). apply clean_app in Hcl as [Hcla Hclt].
  rewrite progress_leading in Hd, Hu by (by eapply clean_blanks).
  assert (trim (texts ((ws_items a ++ t) ++ IEsc c :: ws_items b)) = texts t +:+ chr backslash) as Htrim.
  { rewrite texts_app. rewrite texts_app, texts_ws, append_assoc. cbn [texts item_text]. rewrite texts_ws.
    change (String backslash (chr c) +:+ b) with (chr backslash +:+ String c b). rewrite <- append_assoc with (b := chr backslash).
    apply trim_surround; [done|cbn; by rewrite Hc| |by apply trim_end_char].
    destruct t as [|it t]; [done|]. apply trim_start_append; [|by destruct it as [?|?|?|?|[|? ?]]].
    apply trim_start_solid; [done|]. apply clean_closed in Hclt. by apply Forall_cons in Hclt as [? _]. }
  rewrite Htrim in Hargs. destruct (Hargs (texts t +:+ chr backslash)) as (v & vs & Hv).
  { by destruct (texts t). }
  rewrite (splitShellArgs_items _ (t ++ [IOpen (chr backslash)])) in Hv.
  - pose proof (args_progress t (last_of p (ws_items a)) None [IOpen (chr backslash)] []) as Hx. cbn [value] in Hx.
    rewrite Hx in Hv; [done|done| |done|done]. by apply synced_leading.
  - apply itemized_app; [|by eapply clean_closed|apply it_open_esc].
    apply itemized_cut in Hit as [Hit _]. by apply itemized_cut in Hit as [_ Hit].
  - rewrite <- Htrim. by apply plain_text_trim.
Qed.

(** A segment, read by the shell up to its end. *)
Lemma segment_read p raw rest toks :
  segment_ok p raw → next_item_is "("%char rest = false →
  read_items None (raw ++ rest) = Some toks → Forall token_ok toks →
  ¬ escaped_end raw ∧
  ∃ toks', read_items (progress None raw).2 rest = Some toks' ∧ toks = map TWord (progress None raw).1 ++ toks'.
Proof.
  intros Hso Hn Hr Hok. split; [intros He; by eapply segment_escaped_end|].
  rewrite (read_progress raw p) in Hr; [|apply Hso|by apply segment_synced|done].
  by apply fmap_Some_app in Hr as (toks' & Hr & ->); exists toks'.
Qed.

Lemma item_text_nonempty it l : (∀ t, it ≠ IOpen t) → nonempty (texts (it :: l)) = Some (texts (it :: l)).
Proof. intros H. destruct it as [c|c|b|ds|t]; try done. by destruct (H t). Qed.

(** The words that the tokenizer finds in the trimmed segment. *)
Lemma segment_words p raw :
  segment_ok p raw → ¬ escaped_end raw → Forall (λ w, proper_word w = true) (item_words raw) →
  match nonempty (trim (texts raw)) with
  | Some seg => splitShellArgs seg = Some (map word_value (item_words raw))
  | None => item_words raw = []
  end.
Proof.
  intros Hso Hne Hw. pose proof (segment_synced _ _ Hso) as Hsync. destruct Hso as [Hcl _ Hit Hpl _].
  destruct (split_leading raw) as (a & t0 & -> & Ha & Ht0).
  destruct (split_trailing t0) as (t & b & -> & Hb & Ht). apply clean_app in Hcl as [Hcla Hclt].
  apply clean_app in Hclt as [Hclt Hclb].
  assert (Hba : blanks a) by (by eapply clean_blanks). assert (Hbb : blanks b) by (by eapply clean_blanks).
  rewrite words_surround in Hw |- * by done. apply synced_leading in Hsync; [|done].
  assert (trim (texts (ws_items a ++ t ++ ws_items b)) = texts t) as Htrim.
  { rewrite !texts_app, !texts_ws. apply trim_surround; [done|done| |].
    - destruct t as [|it t]; [done|]. apply trim_start_solid; [done|]. apply clean_closed in Hclt. by apply Forall_cons in Hclt as [? _].
    - destruct t as [|it t _] using rev_ind; [done|]. rewrite last_snoc in Ht. rewrite texts_snoc.
      assert (∃ c, last_char it = Some c ∧ is_ws c = false) as (c & Hc & Hnc).
      { apply clean_closed, closed_app in Hclt as [_ Hclt]. apply Forall_cons in Hclt as [Ho _].
        destruct it as [c|c|q|ds|x]; cbn in Ht |- *; try by eexists.
        - exists c. split; [done|]. by apply negb_true_iff in Ht.
        - exists c. split; [done|]. destruct (is_ws c) eqn:E; [|done]. exfalso. apply Hne.
          exists (ws_items a ++ t), c, b. split; [|done]. by rewrite <- !app_assoc.
        - by destruct (Ho x). }
      destruct (item_text_last it c Hc) as [x ->]. rewrite <- append_assoc. by apply trim_end_char. }
  pose proof (plain_text_trim _ Hpl) as Hpt. rewrite Htrim in Hpt |- *.
  destruct t as [|it t]; [done|]. pose proof (clean_closed _ _ Hclt) as Hco.
  rewrite item_text_nonempty by (by apply Forall_cons in Hco as [? _]).
  apply itemized_cut in Hit as [_ Hit]. apply itemized_cut in Hit as [Hit _].
  rewrite (splitShellArgs_items _ _ Hit Hpt).
  assert (synced (last_of p (ws_items a)) None ∨ starts_with_hash (it :: t) = false) as Hst by (destruct Hsync; [by left|by right]).
  unfold item_words in Hw. apply Forall_app in Hw as [Hd Hc].
  pose proof (args_progress (it :: t) (last_of p (ws_items a)) None [] [] Hclt Hst Hd) as Hx. cbn [value] in Hx.
  rewrite app_nil_r in Hx. unfold item_words. rewrite Hx.
  - cbn [args_items]. unfold push_token. destruct (progress None (it :: t)).2 as [w|]; cbn [value flush_word].
    + cbn in Hc. apply Forall_cons in Hc as [Hc _]. rewrite value_truthy. destruct w; [done|]. by rewrite map_app.
    + cbn. by rewrite app_nil_r.
  - destruct (progress None (it :: t)).2 as [w|]; [|done]. cbn in Hc |- *. apply Forall_cons in Hc as [Hc _].
    destruct w; [done|]. exact Hc.
Qed.

(** ** Pipelines *)

Fixpoint raws_tokens (raws : list (list item)) : list stoken :=
  match raws with
  | [] => []
  | [raw] => map TWord (item_words raw)
  | raw :: raws' => map TWord (item_words raw) ++ pipe_token :: raws_tokens raws'
  end.

Fixpoint segments_ok (p : option ascii) (raws : list (list item)) : Prop :=
  match raws with
  | [] => True
  | raw :: raws' => segment_ok p raw ∧ segments_ok (Some bar) raws'
  end.

Lemma stops_bar l : next_item_is bar l = false →
  (∀ w, read_items w (IChar bar :: l) = (λ toks, flush w (pipe_token :: toks)) <$> read_items None l).
Proof.
  intros H w. cbn [read_items]. change (is_blank bar) with false. change (Ascii.eqb bar hash) with false. cbn [andb].
  change (is_operator_char bar) with true. cbn iota. change (one_of "&|;<>" bar) with true. cbn [andb].
  destruct l as [|[d|d|b|ds|t] l]; try done. cbn in H. by rewrite H.
Qed.

Lemma raws_tokens_cons raw raws : raws ≠ [] →
  raws_tokens (raw :: raws) = map TWord (item_words raw) ++ pipe_token :: raws_tokens raws.
Proof. by destruct raws. Qed.

Lemma piped_nonnil p l raws tail : piped p l raws tail → raws ≠ [].
Proof. by destruct 1. Qed.

(** What follows the last segment of a pipeline: the rest of the line, or a comment. *)
Definition follows (tail rest : list item) : Prop := match tail with [] => stops rest | _ => rest = [] end.

Definition read_rest (tail rest : list item) : option (list stoken) :=
  match tail with [] => read_items None rest | _ => Some [] end.

Lemma progress_blank_end w raw c : is_blank c = true → (progress w (raw ++ [IChar c])).2 = None.
Proof. intros H. rewrite progress_app. cbn. by rewrite H. Qed.

Lemma read_tail p raw tail rest :
  segment_ok p raw → ¬ escaped_end raw → comment_tail (last_of p raw) tail → follows tail rest →
  read_items (progress None raw).2 (tail ++ rest) = flush (progress None raw).2 <$> read_rest tail rest.
Proof.
  intros Hso Hne [->|(r & -> & Hc)] Hf.
  - cbn [app read_rest]. apply Hf.
  - cbn [follows read_rest] in Hf |- *. subst rest. rewrite app_nil_r.
    assert ((progress None raw).2 = None) as ->; [|done].
    destruct raw as [|it raw _] using rev_ind; [done|]. unfold last_of in Hc. rewrite last_snoc in Hc.
    unfold isShellCommentStart in Hc. cbn [andb] in Hc. rewrite Ascii.eqb_refl in Hc. cbn [andb] in Hc.
    destruct Hso as [Hcl _ _ _ _]. apply clean_app in Hcl as [_ Hcl].
    destruct it as [c|c|b|ds|t]; cbn in Hc; try (by vm_compute in Hc); try (by cbn in Hcl).
    + apply progress_blank_end. cbn in Hcl. repeat (apply andb_true_iff in Hcl as [Hcl ?]).
      match goal with H : Bool.eqb _ _ = true |- _ => apply Bool.eqb_prop in H as Hws end. congruence.
    + exfalso. apply Hne. by exists raw, c, EmptyString.
Qed.

Lemma read_piped p l raws tail rest toks :
  piped p l raws tail → last raws ≠ Some [] → segments_ok p raws → follows tail rest →
  read_items None (l ++ rest) = Some toks → Forall token_ok toks →
  Forall (λ raw, ¬ escaped_end raw) raws ∧
  ∃ toks', read_rest tail rest = Some toks' ∧ toks = raws_tokens raws ++ toks'.
Proof.
  intros H. revert toks.
  induction H as [p raw tail Hcl Htail|p raw l raws tail Hcl Hb Hp IH]; intros toks Hlast [Hso Hsos] Hf Hr Hok.
  - rewrite <- app_assoc in Hr.
    assert (next_item_is "("%char (tail ++ rest) = false) as Hn.
    { destruct Htail as [->|(r & -> & _)]; [apply Hf|done]. }
    destruct (segment_read _ _ _ _ Hso Hn Hr Hok) as (Hne & toks' & Hr' & ->).
    split; [by constructor|]. rewrite (read_tail p) in Hr' by done.
    destruct (read_rest tail rest) as [toks''|]; [|done]. cbn in Hr'. injection Hr' as <-.
    exists toks''. split; [done|]. cbn. unfold item_words. by rewrite flush_app, map_app, app_assoc.
  - rewrite <- app_assoc in Hr. cbn [app] in Hr.
    assert (last raws ≠ Some []) as Hlast' by (destruct raws; [by inversion Hp|done]).
    assert (next_item_is bar (l ++ rest) = false) as Hb'.
    { rewrite next_item_app; [done|]. intros ->. apply Hlast'.
      inversion Hp; subst; match goal with H : _ ++ _ = [] |- _ => apply app_eq_nil in H as [-> ?] end; done. }
    destruct (segment_read _ _ (IChar bar :: l ++ rest) _ Hso ltac:(done) Hr Hok) as (Hne & toks' & Hr' & ->).
    rewrite stops_bar in Hr' by done. destruct (read_items None (l ++ rest)) as [toks0|] eqn:Er; [|done].
    injection Hr' as <-. apply Forall_app in Hok as [_ Hok]. rewrite flush_app in Hok. apply Forall_app in Hok as [_ Hok].
    apply Forall_cons in Hok as [_ Hok].
    destruct (IH toks0 Hlast' Hsos Hf eq_refl Hok) as (Hnes & toks' & Ht & ->).
    split; [by constructor|]. exists toks'. split; [done|].
    rewrite raws_tokens_cons by (by eapply piped_nonnil). unfold item_words.
    by rewrite flush_app, map_app, <- !app_assoc.
Qed.

(** ** Prefixes of a text *)

Lemma itemized_prefix s l s' l' r :
  itemized s l → itemized s' l' → s = s' +:+ r →
  ∃ l0 l1 o, l = l0 ++ l1 ∧ l' = l0 ++ o ∧ (o = [] ∨ ∃ t, o = [IOpen t]).
Proof.
  intros Hl Hl'. revert s l Hl.
  assert (∀ it r' l2 l', (∃ l0 l1 o, l2 = l0 ++ l1 ∧ l' = l0 ++ o ∧ (o = [] ∨ ∃ t, o = [IOpen t])) →
    itemized r' (it :: l2) → ∀ l, itemized r' l →
    ∃ l0 l1 o, l = l0 ++ l1 ∧ it :: l' = l0 ++ o ∧ (o = [] ∨ ∃ t, o = [IOpen t])) as Hgo.
  { intros it r' l2 l2' (l0 & l1 & o & -> & -> & Ho) Hi l Hl. rewrite (itemized_unique _ _ _ Hl Hi).
    by exists (it :: l0), l1, o. }
  induction Hl' as [|c s' l' Hc _ IH|c s' l' _ IH|b s' l' Hb _ IH|ds s' l' Hds _ IH| |b Hb|ds Hds]; intros s l Hl Heq;
    cbn in Heq; rewrite ?append_assoc in Heq; cbn in Heq; subst s; try (exists [], l; eexists; split_and!; [done|done|by left + (right; eexists)]).
  all: destruct (itemized_total (s' +:+ r)) as [l2 Hl2]; eapply Hgo; [by apply (IH (s' +:+ r) l2)| |exact Hl]; by constructor.
Qed.

Lemma itemized_ws_app a s l :
  str_all is_ws a = true → itemized (a +:+ s) l → ∃ l', l = ws_items a ++ l' ∧ itemized s l'.
Proof.
  intros Ha Hl. destruct (itemized_total s) as [l' Hl']. exists l'. split; [|done].
  apply (itemized_unique _ _ _ Hl), itemized_app; [by apply itemized_ws|apply closed_ws|done].
Qed.

Lemma piped_tail p l raws tail :
  piped p l raws tail →
  ∃ pre, l = pre ++ tail ∧ comment_tail (last_of p pre) tail ∧ closed pre ∧ (pre = [] → last raws = Some []).
Proof.
  induction 1 as [p raw tail Hcl Ht|p raw l raws tail Hcl _ Hp (pre & -> & Ht & Hpre & He)].
  - exists raw. split_and!; [done|done|by eapply clean_closed|by intros ->].
  - exists (raw ++ IChar bar :: pre). split_and!.
    + by rewrite <- app_assoc.
    + destruct pre as [|it pre _] using rev_ind; unfold last_of in *.
      * by rewrite last_snoc.
      * rewrite app_comm_cons, app_assoc, last_snoc. by rewrite last_snoc in Ht.
    + apply closed_app. split; [by eapply clean_closed|]. constructor; [done|exact Hpre].
    + by destruct raw.
Qed.

(** ** A chain, cut into parts *)

Fixpoint no_comment (p : option ascii) (l : list item) : bool :=
  match l with
  | [] => true
  | IChar c :: r => negb (isShellCommentStart p c) && no_comment (Some c) r
  | it :: r => no_comment (last_char it) r
  end.

Definition op_items (op : ShellChainOperator) : list item :=
  match op with
  | AndThen => [IChar ampersand; IChar ampersand]
  | OrElse => [IChar bar; IChar bar]
  | Sequel => [IChar semicolon]
  end.

Inductive chained : list item → list (list item * ShellChainOperator) → list item → list item → Prop :=
| chained_last p raw tail :
    no_comment p raw = true → comment_tail (last_of p raw) tail → chained (raw ++ tail) [] raw tail
| chained_op p raw op l ps lst tail :
    no_comment p raw = true → chained l ps lst tail → chained (raw ++ op_items op ++ l) ((raw, op) :: ps) lst tail.

(** The same, when [cur] has been read before. *)
Definition chained_from (p : option ascii) (cur l : list item)
    (r : list (list item * ShellChainOperator) * list item) : Prop :=
  match r.1 with
  | [] => ∃ raw tail, r.2 = cur ++ raw ∧ l = raw ++ tail ∧ no_comment p raw = true ∧ comment_tail (last_of p raw) tail
  | (raw', op) :: ps => ∃ raw l' tail,
      raw' = cur ++ raw ∧ l = raw ++ op_items op ++ l' ∧ no_comment p raw = true ∧ chained l' ps r.2 tail
  end.

Lemma chained_from_nil p l r : chained_from p [] l r → ∃ tail, chained l r.1 r.2 tail.
Proof.
  destruct r as [[|[raw' op] ps] lst]; cbn.
  - intros (raw & tail & -> & -> & Hn & Ht). exists tail. by econstructor.
  - intros (raw & l' & tail & -> & -> & Hn & Hc). exists tail. by econstructor.
Qed.

Lemma chained_from_cons p cur it l r :
  chained_from (last_char it) (cur ++ [it]) l r →
  (∀ raw, no_comment (last_char it) raw = true → no_comment p (it :: raw) = true) →
  chained_from p cur (it :: l) r.
Proof.
  intros H Hn. destruct r as [[|[raw' op] ps] lst]; cbn in H |- *.
  - destruct H as (raw & tail & -> & -> & Hr & Ht). exists (it :: raw), tail.
    rewrite <- app_assoc, last_of_cons. split_and!; [done|done|by apply Hn|done].
  - destruct H as (raw & l' & tail & -> & -> & Hr & Hc). exists (it :: raw), l', tail.
    rewrite <- app_assoc. split_and!; [done|done|by apply Hn|done].
Qed.

Lemma chain_items_chained l : ∀ p cur, chained_from p cur l (chain_items p cur l).
Proof.
  remember (length l) as n eqn:Hn. revert l Hn. induction n as [n IH] using lt_wf_ind. intros l -> p cur.
  assert (∀ l' p cur, (length l' < length l)%nat → chained_from p cur l' (chain_items p cur l')) as IH'.
  { intros l' p' cur' Hl. by apply (IH _ Hl l'). }
  clear IH. assert (∀ op d l', (length l' < length l)%nat → l = op_items op ++ l' →
    chained_from p cur l ((cur, op) :: (chain_items (Some d) [] l').1, (chain_items (Some d) [] l').2)) as Hop.
  { intros op d l' Hl ->. destruct (chained_from_nil _ _ _ (IH' l' (Some d) [] Hl)) as [tail Hc].
    exists [], l', tail. by rewrite app_nil_r. }
  destruct l as [|it l].
  { exists [], []. rewrite app_nil_r. split_and!; [done..|by left]. }
  assert (∀ c, it = IChar c → isShellCommentStart p c = false →
    chained_from p cur (it :: l) (chain_items (Some c) (cur ++ [IChar c]) l)) as Hadd.
  { intros c -> Hc. apply chained_from_cons; [apply IH'; cbn; lia|]. intros raw Hr. cbn in Hr |- *. by rewrite Hc, Hr. }
  destruct it as [c|c|b|ds|t]; cbn [chain_items];
    try (apply chained_from_cons; [apply IH'; cbn; lia|done]).
  destruct (isShellCommentStart p c) eqn:Ec.
  { exists [], (IChar c :: l). rewrite app_nil_r. split_and!; [done..|]. right. exists l.
    assert (c = hash) as -> by (unfold isShellCommentStart in Ec; apply andb_true_iff in Ec as [Ec _]; by apply Ascii.eqb_eq in Ec).
    done. }
  specialize (Hadd c eq_refl Ec).
  destruct (Ascii.eqb c semicolon) eqn:Es.
  { apply Ascii.eqb_eq in Es as ->. apply Hop; [cbn; lia|done]. }
  destruct l as [|[d|d|b|ds|t] l]; try exact Hadd.
  destruct (Ascii.eqb c ampersand && Ascii.eqb d ampersand) eqn:Ea.
  { apply andb_true_iff in Ea as [Ea Ed]. apply Ascii.eqb_eq in Ea as ->, Ed as ->. apply (Hop AndThen); [cbn; lia|done]. }
  destruct (Ascii.eqb c bar && Ascii.eqb d bar) eqn:Eb; [|exact Hadd].
  apply andb_true_iff in Eb as [Eb Ed]. apply Ascii.eqb_eq in Eb as ->, Ed as ->. apply (Hop OrElse); [cbn; lia|done].
Qed.

(** ** A part of a chain *)

Definition segment_argv (seg : string) : option (list string) :=
  match splitShellArgs seg with Some (v :: vs) => Some (v :: vs) | _ => None end.

(** The words of the segments of a pipeline. *)
Definition part_argvs (s : string) : option (list (list string)) :=
  match splitShellPipeline s with Accepted segs => mapM segment_argv segs | Refused _ => None end.

(** The segments [raws] of the pipeline [s], each accepted. *)
Record accepted_raws (argvs : list (list string)) (raws : list (list item)) : Prop := mk_accepted_raws {
  ar_nonempty : segments_of raws ≠ [];
  ar_last : last raws ≠ Some [];
  ar_segments : segments_ok None raws;
  ar_argvs : mapM segment_argv (segments_of raws) = Some argvs;
}.

Lemma segments_of_cons raw raws :
  segments_of (raw :: raws) = match nonempty (trim (texts raw)) with Some s => [s] | None => [] end ++ segments_of raws.
Proof. unfold segments_of, filter_map. cbn. by destruct (trim (texts raw)). Qed.

Lemma segment_argv_Some s argv : segment_argv s = Some argv → ∃ v vs, splitShellArgs s = Some (v :: vs).
Proof. unfold segment_argv. destruct (splitShellArgs s) as [[|v vs]|]; [done|by exists v, vs|done]. Qed.

Lemma mapM_argv_cons s segs argvs :
  mapM segment_argv (s :: segs) = Some argvs →
  ∃ argv rest, segment_argv s = Some argv ∧ mapM segment_argv segs = Some rest ∧ argvs = argv :: rest.
Proof.
  intros H. apply mapM_Some in H. inversion H as [|? argv ? rest Hs Hr]; subst. exists argv, rest.
  split; [done|]. split; [|done]. by apply mapM_Some.
Qed.

Lemma piped_segments_ok p l raws tail argvs :
  piped p l raws tail → itemized (texts l) l → plain_text (texts l) = true → (p = None ∨ p = Some bar) →
  mapM segment_argv (segments_of raws) = Some argvs → segments_ok p raws.
Proof.
  intros H. revert argvs.
  assert (∀ p raw rest raws argvs, clean p raw = true → itemized (texts (raw ++ rest)) (raw ++ rest) →
    plain_text (texts (raw ++ rest)) = true → (p = None ∨ p = Some bar) →
    mapM segment_argv (segments_of (raw :: raws)) = Some argvs → segment_ok p raw) as Hgo.
  { clear. intros p raw rest raws argvs Hc Hi Hpl Hp Ha. apply itemized_cut in Hi as [Hi _].
    rewrite texts_app in Hpl. apply plain_text_append in Hpl as [Hpl _]. split; try done.
    intros seg Hseg. rewrite segments_of_cons, Hseg in Ha. cbn [app] in Ha.
    apply mapM_argv_cons in Ha as (argv & rest' & Hs & _). by eapply segment_argv_Some. }
  induction H as [p raw tail Hcl Ht|p raw l raws tail Hcl Hb Hp IH]; intros argvs Hi Hpl Hpr Ha.
  - split; [|done]. by eapply Hgo.
  - split; [by eapply Hgo|]. apply itemized_cut in Hi as [_ Hi]. apply (itemized_cut _ [IChar bar] l) in Hi as [_ Hi].
    rewrite texts_app in Hpl. apply plain_text_append in Hpl as [_ Hpl]. cbn in Hpl. apply plain_text_cons in Hpl.
    rewrite segments_of_cons in Ha. destruct (nonempty _); cbn [app] in Ha; [|by eapply IH; eauto].
    apply mapM_argv_cons in Ha as (argv & rest' & _ & Ha & _). by eapply IH; eauto.
Qed.

Lemma part_argvs_items s l argvs :
  itemized s l → plain_text s = true → part_argvs s = Some argvs →
  ∃ raws tail, piped None l raws tail ∧ accepted_raws argvs raws.
Proof.
  intros Hi Hp H. unfold part_argvs in H. destruct (splitShellPipeline s) as [segs|] eqn:E; [|done].
  destruct (splitShellPipeline_items s l segs Hi Hp E) as (Hne & raws & Hr & -> & Hlast).
  pose proof (itemized_texts s l Hi) as ->.
  destruct (pipe_items_piped l None [] raws Hr) as (raw & raws' & tail & -> & Hpd); [by eapply itemized_plain|].
  exists (raw :: raws'), tail. split; [done|]. split; try done. by eapply piped_segments_ok; eauto.
Qed.

(** A part of a chain is trimmed before it is split. *)
Lemma plain_blanks a s : str_all is_ws a = true → plain_text (a +:+ s) = true → blanks a.
Proof.
  unfold blanks. induction a as [|c a IH]; [done|]. cbn -[plain_text]. intros [Hc Ha]%andb_true_iff Hp.
  pose proof (plain_text_ws _ _ Hp) as Hw. rewrite Hc in Hw. rewrite <- Hw. apply IH; [done|by apply plain_text_cons in Hp].
Qed.

Lemma no_comment_app p a b : no_comment p (a ++ b) = no_comment p a && no_comment (last_of p a) b.
Proof.
  revert p. induction a as [|it a IH]; intros p; [done|]. rewrite last_of_cons.
  destruct it as [c|c|q|ds|t]; cbn; try apply IH. by rewrite IH, andb_assoc.
Qed.

Lemma last_of_nonnil p p' l : l ≠ [] → last_of p l = last_of p' l.
Proof. unfold last_of. destruct (last l) eqn:E; [done|]. intros H. by apply last_None in E. Qed.

Lemma nonempty_Some s t : nonempty s = Some t → s = t ∧ t ≠ EmptyString.
Proof. destruct s; [done|]. by intros [= <-]. Qed.

Lemma texts_nonnil l s : texts l = s → s ≠ EmptyString → l ≠ [].
Proof. intros <- H ->. done. Qed.

Inductive chain_part (argvs : list (list string)) (raws : list (list item)) : list item → Prop :=
| chain_part_intro a t b :
    blanks a → blanks b → t ≠ [] → (∀ p c, last_of p t = Some c → is_ws c = false) →
    piped None t raws [] → accepted_raws argvs raws →
    chain_part argvs raws (ws_items a ++ t ++ ws_items b).

Lemma part_pieces p raw s argvs :
  itemized (texts raw) raw → plain_text (texts raw) = true → no_comment p raw = true →
  nonempty (trim (texts raw)) = Some s → part_argvs s = Some argvs →
  ∃ raws, chain_part argvs raws raw.
Proof.
  intros Hi Hp Hn Hs Ha. apply nonempty_Some in Hs as [Hs Hse]. destruct (itemized_total s) as [t Ht].
  assert (plain_text s = true) as Hps by (rewrite <- Hs; by apply plain_text_trim).
  destruct (part_argvs_items s t argvs Ht Hps Ha) as (raws & tail & Hpd & Hacc).
  destruct (piped_tail _ _ _ _ Hpd) as (pre & Htp & Htail & Hcl & Hpre).
  assert (tail = []) as ->.
  { destruct Htail as [->|(r & -> & Hc)]; [done|]. exfalso.
    destruct (trim_split (texts raw)) as (a & b & Hab & Hwa & Hwb). rewrite Hs in Hab.
    rewrite Hab in Hi. apply itemized_ws_app in Hi as (l & -> & Hl); [|done].
    destruct (itemized_prefix _ _ _ _ b Hl Ht eq_refl) as (l0 & l1 & o & -> & Hto & Ho).
    assert (∃ r', l0 = pre ++ IChar hash :: r') as [r' ->].
    { rewrite Htp in Hto. apply app_eq_app in Hto as [l' [[-> Hx]|[-> Hx]]].
      - destruct Ho as [->|[u ->]]; [by destruct l'|]. by destruct l' as [|? []].
      - destruct l' as [|x l']; [|injection Hx as <- Hx; by exists l'].
        destruct Ho as [->|[u ->]]; done. }
    rewrite no_comment_app in Hn. apply andb_true_iff in Hn as [_ Hn]. rewrite <- app_assoc, no_comment_app in Hn.
    apply andb_true_iff in Hn as [_ Hn]. cbn in Hn. apply andb_true_iff in Hn as [Hn _].
    destruct pre as [|x pre]; [by apply (ar_last _ _ Hacc), Hpre|].
    rewrite (last_of_nonnil _ None) in Hn by done. by rewrite Hc in Hn. }
  rewrite app_nil_r in Htp. subst t. rewrite <- Hs in Ht.
  destruct (trim_items _ _ _ Hi Ht Hcl) as (a & b & Hwa & Hwb & Hraw). exists raws.
  rewrite Hraw, !texts_app, !texts_ws in Hp. pose proof (plain_blanks _ _ Hwa Hp) as Hba.
  apply plain_text_append in Hp as [_ Hp]. apply plain_text_append in Hp as [_ Hp].
  rewrite <- (append_nil_r b) in Hp. pose proof (plain_blanks _ _ Hwb Hp) as Hbb.
  rewrite Hraw. constructor; try done.
  - intros ->. apply itemized_texts in Ht. cbn in Ht. by rewrite Hs in Ht.
  - intros p' c Hlc. destruct pre as [|it pre _] using rev_ind; [cbn in Ht; apply itemized_texts in Ht; by rewrite Hs in Ht|].
    unfold last_of in Hlc. rewrite last_snoc in Hlc. by eapply trimmed_last.
Qed.

(** ** Reading a part of a chain *)

Definition no_double_semicolon (op : ShellChainOperator) (l : list item) : Prop :=
  op = Sequel → next_item_is semicolon l = false.

Lemma read_op op l : no_double_semicolon op l → ∀ w,
  read_items w (op_items op ++ l) = (λ toks, flush w (op_token op :: toks)) <$> read_items None l.
Proof.
  intros H w. destruct op; [reflexivity|reflexivity|]. specialize (H eq_refl). cbn [op_items app read_items].
  change (is_blank semicolon) with false. change (Ascii.eqb semicolon hash) with false. cbn [andb].
  change (is_operator_char semicolon) with true. cbn iota. change (one_of "&|;<>" semicolon) with true. cbn [andb].
  destruct l as [|[d|d|b|ds|t] l]; try done. cbn in H. by rewrite H.
Qed.

Lemma stops_op op l : no_double_semicolon op l → stops (op_items op ++ l).
Proof.
  intros H. split; [|by destruct op]. intros w. rewrite !read_op by done. by destruct (read_items None l).
Qed.

Lemma stops_nil : stops [].
Proof. by split. Qed.

Lemma stops_after_blank c b rest : blanks (String c b) → stops (ws_items (String c b) ++ rest).
Proof.
  unfold blanks. cbn. intros [Hc _]%andb_true_iff. split.
  - intros w. change (ws_items (String c b) ++ rest) with (IChar c :: (ws_items b ++ rest)).
    by rewrite !read_blank_item, flush_none.
  - cbn. by destruct c as [[] [] [] [] [] [] [] []]; vm_compute in Hc |- *.
Qed.

(** What follows a part: an operator, the end or a comment. *)
Definition ends_part (raw rest : list item) : Prop := stops rest ∨ ∃ p, comment_tail (last_of p raw) rest.

Lemma read_part argvs raws raw rest toks :
  chain_part argvs raws raw → ends_part raw rest → read_items None (raw ++ rest) = Some toks → Forall token_ok toks →
  Forall (λ raw, ¬ escaped_end raw) raws ∧
  ∃ toks', read_items None rest = Some toks' ∧ toks = raws_tokens raws ++ toks'.
Proof.
  intros [a t b Ha Hb Hne Hlast Hpd Hacc] Hend Hr Hok. rewrite <- !app_assoc, read_leading in Hr by done.
  assert (stops (ws_items b ++ rest)) as Hs.
  { destruct Hend as [Hend|(p & [->|(r & -> & Hc)])]; [by apply stops_blanks|apply stops_blanks, stops_nil; done|].
    destruct b as [|c b]; [|by apply stops_after_blank]. exfalso.
    cbn in Hc. rewrite app_nil_r in Hc. unfold last_of in Hc. rewrite last_app in Hc.
    destruct (last t) as [it|] eqn:E; [|by apply last_None in E].
    unfold isShellCommentStart in Hc. apply andb_true_iff in Hc as [_ Hc].
    specialize (Hlast None). unfold last_of in Hlast. rewrite E in Hlast.
    destruct (last_char it) as [c|] eqn:El; [by rewrite (Hlast c eq_refl) in Hc|].
    destruct it; try done. destruct (piped_tail _ _ _ _ Hpd) as (pre & Ht & _ & Hcl & _).
    rewrite app_nil_r in Ht. subst pre. apply last_Some in E as [l' ->]. apply closed_app in Hcl as [_ Hcl].
    apply Forall_cons in Hcl as [Hcl _]. by eapply Hcl. }
  destruct (read_piped _ _ _ _ (ws_items b ++ rest) toks Hpd (ar_last _ _ Hacc) (ar_segments _ _ Hacc) Hs Hr Hok)
    as (Hes & toks' & Hr' & ->). split; [done|]. cbn in Hr'. rewrite read_leading in Hr' by done. by exists toks'.
Qed.

Lemma chain_part_start argvs raws raw rest : chain_part argvs raws raw → next_item_is semicolon (raw ++ rest) = false.
Proof.
  intros [a t b Ha _ Hne _ Hpd _]. destruct a as [|c a].
  - cbn [ws_items String.list_ascii_of_string map app]. rewrite <- app_assoc, next_item_app by done.
    inversion Hpd as [? raw' tail Hcl Ht|? raw' l raws' tail Hcl]; subst;
      (destruct raw' as [|[d|d|q|ds|x] raw']; [|cbn in Hcl|..]; try done).
    1,2: cbn; repeat (apply andb_true_iff in Hcl as [Hcl ?]); destruct (Ascii.eqb d semicolon) eqn:E; [|done];
      apply Ascii.eqb_eq in E as ->; done.
  - unfold blanks in Ha. cbn in Ha |- *. apply andb_true_iff in Ha as [Hc _].
    by destruct c as [[] [] [] [] [] [] [] []]; vm_compute in Hc |- *.
Qed.

Lemma read_chained l ps lst tail prs lastp toks :
  chained l ps lst tail →
  Forall2 (λ x y, chain_part y.1 y.2 x.1) ps prs → chain_part lastp.1 lastp.2 lst →
  read_items None l = Some toks → Forall token_ok toks →
  Forall (λ y, Forall (λ raw, ¬ escaped_end raw) y.2) (prs ++ [lastp]) ∧
  toks = between (map (raws_tokens ∘ snd) (prs ++ [lastp])) (map (op_token ∘ snd) ps).
Proof.
  intros H. revert prs toks. induction H as [p raw tail Hn Ht|p raw op l ps lst tail Hn Hc IH];
    intros prs toks Hps Hlst Hr Hok.
  - inversion Hps; subst. destruct (read_part _ _ _ _ _ Hlst ltac:(right; by eexists) Hr Hok) as (Hes & toks' & Hr' & ->).
    cbn. split; [by constructor|]. f_equal. destruct Ht as [->|(r & -> & _)]; cbn in Hr'; by injection Hr' as <-.
  - inversion Hps as [|? [argvs raws] ? prs' Hp Hps']; subst. cbn in Hp.
    assert (no_double_semicolon op l) as Hsemi.
    { intros _. inversion Hc; subst.
      - by eapply chain_part_start.
      - inversion Hps'; subst. by eapply chain_part_start. }
    destruct (read_part _ _ _ _ _ Hp ltac:(left; by apply stops_op) Hr Hok) as (Hes & toks' & Hr' & ->).
    rewrite read_op in Hr' by done. destruct (read_items None l) as [toks0|] eqn:E; [|done]. injection Hr' as <-.
    apply Forall_app in Hok as [_ Hok]. apply Forall_cons in Hok as [_ Hok].
    destruct (IH prs' toks0 Hps' Hlst eq_refl Hok) as (Hess & ->). cbn. split; [by constructor|done].
Qed.

(** ** Lines that the shell does not refuse

    No operator without a command before it, no pipe or list operator at the end, and no
    word that the tokenizer would lose. The shell refuses the rest, apart from the
    condition on words. *)

Definition is_chain_op (op : string) : bool :=
  String.eqb op "|" || String.eqb op "||" || String.eqb op "&&" || String.eqb op ";".

Fixpoint well_formed (seen strict : bool) (toks : list stoken) : bool :=
  match toks with
  | [] => seen || negb strict
  | TWord w :: r => proper_word w && well_formed true false r
  | TSubst w :: r => unmasked_word w && well_formed true false r
  | TOp op :: r =>
      if is_chain_op op then seen && well_formed false (negb (String.eqb op ";")) r
      else well_formed true false r
  end.

Lemma well_formed_ok seen strict toks : well_formed seen strict toks = true → Forall token_ok toks.
Proof.
  revert seen strict. induction toks as [|[w|op|w] r IH]; intros seen strict H; cbn in H; constructor;
    try (apply andb_true_iff in H as [H1 H2]); try done; try by eapply IH.
  destruct (is_chain_op op); [apply andb_true_iff in H as [_ H]|]; by eapply IH.
Qed.

Lemma well_formed_words ws r seen strict :
  well_formed seen strict (map TWord ws ++ r) = true →
  (ws ≠ [] ∨ seen = true → well_formed true false r = true) ∧ (ws = [] → well_formed seen strict r = true).
Proof.
  revert seen strict. induction ws as [|w ws IH]; intros seen strict H; cbn in H.
  - split; [|done]. intros [?| ->]; [done|]. destruct r as [|[w|op|w] r]; try done.
  - apply andb_true_iff in H as [_ H]. split; [|done]. intros _. destruct (IH true false H) as [H1 _]. apply H1. by right.
Qed.

Lemma words_seen seen strict ws r op :
  is_chain_op op = true → well_formed seen strict (map TWord ws ++ TOp op :: r) = true →
  (seen = true ∨ ws ≠ []) ∧ well_formed false (negb (String.eqb op ";")) r = true.
Proof.
  intros Hop H. apply well_formed_words in H as [H1 H2]. cbn in H1, H2. rewrite Hop in H1, H2.
  destruct ws as [|w ws]; cbn in H1.
  - specialize (H2 eq_refl). apply andb_true_iff in H2 as [-> H2]. split; [by left|done].
  - split; [by right|]. by apply H1; left.
Qed.

(** After a pipeline comes the end of the line or the operator of a chain. *)
Definition pipeline_end (r : list stoken) : Prop := r = [] ∨ ∃ op r', r = op_token op :: r'.

Lemma pipeline_words raws r strict :
  raws ≠ [] → well_formed false strict (raws_tokens raws ++ r) = true → pipeline_end r →
  (∀ raw, raws = [raw] → item_words raw ≠ []) →
  Forall (λ raw, item_words raw ≠ []) raws ∧ well_formed true false r = true.
Proof.
  intros Hne H Hr Hone. assert (well_formed false strict (raws_tokens raws ++ r) = true ∧
    (strict = true ∨ ∀ raw, raws = [raw] → item_words raw ≠ [])) as Hgo by (split; [done|by right]).
  clear H Hone. revert strict Hgo. induction raws as [|raw raws IH]; intros strict [H Hone]; [done|].
  destruct raws as [|raw' raws].
  - cbn [raws_tokens] in H. assert (item_words raw ≠ []) as Hw.
    { destruct Hone as [->|Hone]; [|by apply Hone]. intros Hw. apply well_formed_words in H as [_ H2].
      specialize (H2 Hw). destruct Hr as [->|(op & r' & ->)]; [done|]. by destruct op. }
    split; [by constructor|]. apply well_formed_words in H as [H1 _]. by apply H1; left.
  - rewrite raws_tokens_cons, <- app_assoc in H by done. cbn [app] in H.
    apply words_seen in H as [[?|Hw] Hr']; [done| |done].
    destruct (IH ltac:(done) true ltac:(split; [exact Hr'|by left])) as [Hall Hwf]. split; [by constructor|done].
Qed.

Lemma Forall_TWord ws : Forall token_ok (map TWord ws) → Forall (λ w, proper_word w = true) ws.
Proof. intros H. exact (proj1 (List.Forall_map _ _ _) H). Qed.

Lemma raws_tokens_words raws r : Forall token_ok (raws_tokens raws ++ r) →
  Forall (λ raw, Forall (λ w, proper_word w = true) (item_words raw)) raws.
Proof.
  intros H. apply Forall_app in H as [H _]. induction raws as [|raw raws IH]; [constructor|].
  destruct raws as [|raw' raws]; [constructor; [by apply Forall_TWord|constructor]|].
  rewrite raws_tokens_cons in H by done. apply Forall_app in H as [H1 H2]. apply Forall_cons in H2 as [_ H2].
  constructor; [by apply Forall_TWord|by apply IH].
Qed.

(** The words of the accepted segments are the words that the shell reads. *)
Lemma segments_argvs p raws argvs :
  segments_ok p raws → Forall (λ raw, ¬ escaped_end raw) raws →
  Forall (λ raw, Forall (λ w, proper_word w = true) (item_words raw)) raws → Forall (λ raw, item_words raw ≠ []) raws →
  mapM segment_argv (segments_of raws) = Some argvs → argvs = map (map word_value ∘ item_words) raws.
Proof.
  revert p argvs. induction raws as [|raw raws IH]; intros p argvs Hso Hes Hpw Hne H.
  - cbn in H. by injection H as <-.
  - destruct Hso as [Hso Hsos]. apply Forall_cons in Hes as [He Hes], Hpw as [Hw Hpw], Hne as [Hn Hne].
    pose proof (segment_words p raw Hso He Hw) as Hs. rewrite segments_of_cons in H.
    destruct (nonempty (trim (texts raw))) as [seg|]; [|done]. cbn [app] in H.
    apply mapM_argv_cons in H as (argv & rest & Ha & H & ->). cbn. f_equal; [|by eapply IH].
    unfold segment_argv in Ha. rewrite Hs in Ha. destruct (map word_value (item_words raw)); [done|]. by injection Ha as <-.
Qed.

Lemma single_segment p raw argvs :
  segments_ok p [raw] → ¬ escaped_end raw → Forall (λ w, proper_word w = true) (item_words raw) →
  segments_of [raw] ≠ [] → mapM segment_argv (segments_of [raw]) = Some argvs → item_words raw ≠ [].
Proof.
  intros [Hso _] He Hw Hne H. pose proof (segment_words p raw Hso He Hw) as Hs. rewrite segments_of_cons in H, Hne.
  destruct (nonempty (trim (texts raw))) as [seg|]; [|done]. cbn [app] in H.
  apply mapM_argv_cons in H as (argv & rest & Ha & _). apply segment_argv_Some in Ha as (v & vs & Hv).
  rewrite Hs in Hv. by destruct (item_words raw).
Qed.

(** ** What the analysis says of a command *)

Inductive command_token : Type := CWord (v : string) | COp (op : string) | CSubst.

Definition token_shape (t : stoken) : command_token :=
  match t with TWord w => CWord (word_value w) | TOp op => COp op | TSubst _ => CSubst end.

Definition pipeline_tokens (argvs : list (list string)) : list command_token :=
  joined (COp "|") (map (map CWord) argvs).

Definition command_tokens (chains : list (list (list string))) (ops : list ShellChainOperator) : list command_token :=
  between (map pipeline_tokens chains) (map (λ op, COp (chainOperatorText op)) ops).

Lemma map_between {A B} (f : A → B) rs seps : map f (between rs seps) = between (map (map f) rs) (map f seps).
Proof. revert seps. induction rs as [|r rs IH]; intros [|sep seps]; cbn; rewrite ?map_app, ?IH; try done. cbn. by rewrite IH. Qed.

Lemma raws_tokens_shape raws :
  map token_shape (raws_tokens raws) = pipeline_tokens (map (map word_value ∘ item_words) raws).
Proof.
  assert (∀ ws, map token_shape (map TWord ws) = map CWord (map word_value ws)) as Hw.
  { intros ws. by rewrite !map_map. }
  unfold pipeline_tokens. induction raws as [|raw raws IH]; [done|]. destruct raws as [|raw' raws]; [apply Hw|].
  rewrite raws_tokens_cons, map_app, Hw by done. cbn [map token_shape]. rewrite IH. done.
Qed.

Definition accepted_part (y : list (list string) * list (list item)) : Prop :=
  accepted_raws y.1 y.2 ∧ Forall (λ raw, ¬ escaped_end raw) y.2.

Lemma accepted_nonnil argvs raws : accepted_raws argvs raws → raws ≠ [].
Proof. intros H ->. by apply (ar_nonempty _ _ H). Qed.

Lemma accepted_pipeline argvs raws r strict :
  accepted_part (argvs, raws) → pipeline_end r → well_formed false strict (raws_tokens raws ++ r) = true →
  argvs = map (map word_value ∘ item_words) raws ∧ well_formed true false r = true.
Proof.
  intros [Ha Hes] Hr Hwf. cbn in Ha, Hes. pose proof (raws_tokens_words _ _ (well_formed_ok _ _ _ Hwf)) as Hpw.
  destruct (pipeline_words raws r strict) as [Hne Hwf']; [by eapply accepted_nonnil|done|done| |].
  - intros raw ->. apply Forall_cons in Hes as [He _], Hpw as [Hw _]. by eapply single_segment; eauto; apply Ha.
  - split; [|done]. by eapply segments_argvs; eauto; apply Ha.
Qed.

Lemma accepted_chain parts ops strict :
  length parts = S (length ops) → Forall accepted_part parts →
  well_formed false strict (between (map (raws_tokens ∘ snd) parts) (map op_token ops)) = true →
  map token_shape (between (map (raws_tokens ∘ snd) parts) (map op_token ops)) = command_tokens (map fst parts) ops.
Proof.
  revert ops strict. induction parts as [|[argvs raws] parts IH]; intros ops strict Hlen Hacc Hwf; [done|].
  apply Forall_cons in Hacc as [Hp Hacc]. destruct ops as [|op ops].
  - destruct parts; [|done]. cbn in Hwf |- *. unfold command_tokens. cbn.
    destruct (accepted_pipeline argvs raws [] strict Hp ltac:(by left) Hwf) as [-> _]. by rewrite !app_nil_r, raws_tokens_shape.
  - cbn [map between compose snd fst] in Hwf |- *. unfold command_tokens. cbn [map between].
    destruct (accepted_pipeline argvs raws _ strict Hp ltac:(right; by eexists _, _) Hwf) as [-> Hwf'].
    rewrite map_app, raws_tokens_shape. cbn [map token_shape op_token]. f_equal. f_equal.
    assert (∃ s, well_formed false s (between (map (raws_tokens ∘ snd) parts) (map op_token ops)) = true) as [s Hs].
    { destruct op; eexists; exact Hwf'. }
    apply (IH ops s); [by injection Hlen|done|done].
Qed.

(** ** The whole command *)

Definition command_parts (command : string) : list ShellChainPart :=
  default [mkPart command None] (splitCommandChainWithOperators command).

Definition command_argvs (command : string) : option (list (list (list string))) :=
  mapM (part_argvs ∘ part) (command_parts command).

Definition command_ops (command : string) : list ShellChainOperator := omap opToNext (command_parts command).

Lemma mapM_part_cons p parts chains :
  mapM (part_argvs ∘ part) (p :: parts) = Some chains →
  ∃ argvs rest, part_argvs (part p) = Some argvs ∧ mapM (part_argvs ∘ part) parts = Some rest ∧ chains = argvs :: rest.
Proof.
  intros H. apply mapM_Some in H. inversion H as [|? argvs ? rest Hs Hr]; subst. exists argvs, rest.
  split; [done|]. split; [|done]. by apply mapM_Some.
Qed.

Lemma raw_parts ps tl chains :
  existsb (is_missing raw_part) ps = false →
  mapM (part_argvs ∘ part) (filter_map raw_part ps ++ tl) = Some chains →
  Forall (λ x, itemized (texts x.1) x.1 ∧ plain_text (texts x.1) = true ∧ ∃ p, no_comment p x.1 = true) ps →
  ∃ prs rest, Forall2 (λ x y, chain_part y.1 y.2 x.1) ps prs ∧ mapM (part_argvs ∘ part) tl = Some rest
    ∧ chains = map fst prs ++ rest ∧ omap opToNext (filter_map raw_part ps) = map snd ps.
Proof.
  revert chains. induction ps as [|x ps IH]; intros chains Hm H Hall.
  - exists [], chains. by split_and!.
  - apply Forall_cons in Hall as [(Hi & Hp & p & Hn) Hall]. cbn in Hm. apply orb_false_iff in Hm as [Hx Hm].
    unfold is_missing in Hx. destruct (raw_part x) as [y|] eqn:Ey; [|done].
    assert (filter_map raw_part (x :: ps) = y :: filter_map raw_part ps) as Hy by (unfold filter_map; cbn; by rewrite Ey).
    rewrite Hy in H |- *. unfold raw_part in Ey.
    destruct (nonempty (trim (texts x.1))) as [s|] eqn:Es; [|done]. injection Ey as <-.
    apply mapM_part_cons in H as (argvs & rest & Ha & H & ->).
    destruct (part_pieces p x.1 s argvs Hi Hp Hn Es Ha) as [raws Hc].
    destruct (IH rest Hm H Hall) as (prs & rest' & Hprs & Hrest & -> & Hops).
    exists ((argvs, raws) :: prs), rest'. split_and!; [by constructor|done|done|]. cbn. by rewrite Hops.
Qed.

Lemma chained_parts l ps lst tail :
  chained l ps lst tail → itemized (texts l) l → plain_text (texts l) = true →
  Forall (λ x, itemized (texts x.1) x.1 ∧ plain_text (texts x.1) = true ∧ ∃ p, no_comment p x.1 = true) ps
  ∧ itemized (texts lst) lst ∧ plain_text (texts lst) = true ∧ ∃ p, no_comment p lst = true.
Proof.
  induction 1 as [p raw tail Hn Ht|p raw op l ps lst tail Hn Hc IH]; intros Hi Hp;
    apply itemized_cut in Hi as [Hi Hi']; rewrite texts_app in Hp; apply plain_text_append in Hp as [Hp Hp'].
  - split; [constructor|]. split_and!; [done|done|by exists p].
  - apply itemized_cut in Hi' as [_ Hi']. rewrite texts_app in Hp'. apply plain_text_append in Hp' as [_ Hp'].
    destruct (IH Hi' Hp') as (Hall & Hrest). split; [|done]. constructor; [|done]. split_and!; [done|done|by exists p].
Qed.

Lemma command_tokens_chain l ps lst tail s rest toks command_chains :
  chained l ps lst tail → itemized (texts l) l → plain_text (texts l) = true →
  existsb (is_missing raw_part) ps = false → nonempty (trim (texts lst)) = Some s →
  mapM (part_argvs ∘ part) (filter_map raw_part ps ++ [mkPart s None]) = Some command_chains →
  rest = omap opToNext (filter_map raw_part ps ++ [mkPart s None]) →
  read_items None l = Some toks → well_formed false false toks = true →
  map token_shape toks = command_tokens command_chains rest.
Proof.
  intros Hch Hi Hp Hm Hs Hc -> Hr Hwf. destruct (chained_parts _ _ _ _ Hch Hi Hp) as (Hall & Hil & Hpl & p & Hnl).
  destruct (raw_parts _ _ _ Hm Hc Hall) as (prs & rest & Hprs & Hrest & -> & Hops).
  apply mapM_part_cons in Hrest as (argvs & rest' & Ha & Hnil & ->). cbn in Hnil. injection Hnil as <-.
  destruct (part_pieces p lst s argvs Hil Hpl Hnl Hs Ha) as [raws Hlast].
  destruct (read_chained l ps lst tail prs (argvs, raws) toks Hch Hprs Hlast Hr (well_formed_ok _ _ _ Hwf)) as [Hes ->].
  rewrite omap_app, Hops. cbn. rewrite app_nil_r.
  change (op_token ∘ snd) with (λ x : list item * ShellChainOperator, op_token x.2) in *. rewrite <- (map_map snd op_token) in Hwf |- *.
  rewrite (accepted_chain _ _ false); [by rewrite map_app| | |done].
  - rewrite length_app, length_map. cbn. rewrite Nat.add_1_r. f_equal. symmetry. by eapply Forall2_length.
  - apply Forall_app in Hes as [He1 He2]. apply Forall_app. split.
    + clear -Hprs He1. induction Hprs as [|x y ps prs Hp Hps IH]; [constructor|].
      apply Forall_cons in He1 as [He He1]. constructor; [|by apply IH]. split; [|done]. by destruct Hp.
    + constructor; [|constructor]. apply Forall_cons in He2 as [He _]. split; [|done]. by destruct Hlast.
Qed.

Lemma command_tokens_pipeline command argvs toks :
  part_argvs command = Some argvs → plain_text command = true → sh_read Plain None command = Some toks →
  well_formed false false toks = true → map token_shape toks = command_tokens [argvs] [].
Proof.
  intros Ha Hp Hr Hwf. destruct (itemized_total command) as [l Hl].
  rewrite (read_itemized _ _ Hl Hp) in Hr.
  destruct (part_argvs_items _ _ _ Hl Hp Ha) as (raws & tail & Hpd & Hacc). rewrite <- (app_nil_r l) in Hr.
  destruct (read_piped _ _ _ _ [] toks Hpd (ar_last _ _ Hacc) (ar_segments _ _ Hacc)) as (Hes & toks' & Ht & ->);
    [by destruct tail; [apply stops_nil|]|done|by eapply well_formed_ok|].
  assert (toks' = []) as -> by (destruct tail; cbn in Ht; by injection Ht as <-).
  pose proof (accepted_chain [(argvs, raws)] [] false eq_refl
    ltac:(constructor; [by split|constructor])) as Hx. by apply Hx.
Qed.

(** An accepted command in plain text is what the shell reads. *)
Lemma command_agrees command chains toks :
  command_argvs command = Some chains → plain_text command = true → sh_read Plain None command = Some toks →
  well_formed false false toks = true → map token_shape toks = command_tokens chains (command_ops command).
Proof.
  unfold command_argvs, command_ops, command_parts. intros Hc Hp Hr Hwf.
  destruct (itemized_total command) as [l Hl]. pose proof (splitCommandChain_items command l Hl Hp) as Hs.
  destruct (splitCommandChainWithOperators command) as [parts|].
  - cbn [default id from_option] in *. cbn zeta in Hs.
    destruct (chained_from_nil _ _ _ (chain_items_chained l None [])) as [tail Hch].
    destruct (chain_items None [] l) as [ps lst]. cbn [fst snd] in Hs, Hch.
    destruct ps as [|x ps]; [done|]. destruct (nonempty (trim (texts lst))) as [s|] eqn:Es; [|done].
    destruct (existsb _ (x :: ps)) eqn:Em; [done|]. injection Hs as ->.
    rewrite (read_itemized _ _ Hl Hp) in Hr.
    pose proof (itemized_texts _ _ Hl) as Ht. subst command.
    by eapply (command_tokens_chain l (x :: ps) lst tail s).
  - cbn [default id from_option] in *. apply mapM_part_cons in Hc as (argvs & rest & Ha & Hnil & ->).
    cbn in Hnil. injection Hnil as <-. by eapply command_tokens_pipeline.
Qed.

(** ** The analysis *)

Section agreement.
Context `{Host}.

Lemma parse_segments_argvs segs cwd env parsed :
  parseSegmentsFromParts segs cwd env = Some parsed → mapM segment_argv segs = Some (map seg_argv parsed).
Proof.
  unfold parseSegmentsFromParts. rewrite !mapM_Some. intros Hf. induction Hf as [|s p segs parsed Hp _ IH]; [constructor|].
  constructor; [|done]. unfold parseSegment in Hp. unfold segment_argv.
  destruct (splitShellArgs s) as [[|v vs]|]; [done| |done]. by injection Hp as <-.
Qed.

Lemma analyze_pipeline_argvs command cwd env segs :
  analyzePipeline command cwd env = inl segs → part_argvs command = Some (map seg_argv segs).
Proof.
  unfold analyzePipeline, part_argvs. destruct (splitShellPipeline command) as [raws|]; [|done].
  destruct (parseSegmentsFromParts raws cwd env) as [parsed|] eqn:E; [|done]. intros [= <-]. by eapply parse_segments_argvs.
Qed.

Lemma analyze_chain_argvs parts cwd env chains :
  analyzeChain (map part parts) cwd env = inl chains →
  mapM (part_argvs ∘ part) parts = Some (map (map seg_argv) chains).
Proof.
  revert chains. induction parts as [|p parts IH]; intros chains Ha; cbn in Ha; [by injection Ha as <-|].
  destruct (analyzePipeline (part p) cwd env) as [segs|] eqn:Es; [|done].
  destruct (analyzeChain (map part parts) cwd env) as [rest|] eqn:Er; [|done]. injection Ha as <-.
  cbn. by rewrite (analyze_pipeline_argvs _ _ _ _ Es), (IH rest eq_refl).
Qed.

(** The words that the analysis found, by the parts of the chain. *)
Definition analysed_argvs (an : ExecCommandAnalysis) : list (list (list string)) :=
  map (map seg_argv) (default [an_segments an] (an_chains an)).

Lemma analyzed_command command cwd env platform :
  isWindowsPlatform platform = false → an_ok (analyzeShellCommand command cwd env platform) = true →
  command_argvs command = Some (analysed_argvs (analyzeShellCommand command cwd env platform)).
Proof.
  intros Hw Hok. unfold analyzeShellCommand, command_argvs, command_parts, splitCommandChain in *. rewrite Hw in *.
  destruct (splitCommandChainWithOperators command) as [parts|]; cbn [fmap option_fmap option_map] in *.
  - destruct (analyzeChain (map part parts) cwd env) as [chains|] eqn:Ec; [|done]. by apply analyze_chain_argvs in Ec.
  - destruct (analyzePipeline command cwd env) as [segs|] eqn:Ec; [|done]. cbn [default id from_option].
    apply mapM_Some. constructor; [by apply analyze_pipeline_argvs in Ec|constructor].
Qed.

(** C2. When [analyzeShellCommand] accepts a command whose only white space is blanks
    and which begins no here-document, a POSIX shell that does not refuse the command, and
    that finds in it no word that the tokenizer loses and no parameter expansion in
    braces but those of plain characters, reads exactly the analysed words, in the
    analysed pipelines and chains, and begins no command substitution. *)
Theorem analysis_agrees_with_shell command cwd env platform toks :
  isWindowsPlatform platform = false →
  an_ok (analyzeShellCommand command cwd env platform) = true →
  plain_text command = true → shell_reads command = Some toks →
  plain_expansions toks = true → well_formed false false toks = true →
  map token_shape toks
  = command_tokens (analysed_argvs (analyzeShellCommand command cwd env platform)) (command_ops command).
Proof.
  intros Hw Hok Hp Hr Hx Hwf. eapply command_agrees; eauto; [by apply analyzed_command|by apply posix_read_simple].
Qed.

End agreement.

Lemma analysis_agrees_with_shell_witness :
  let command := "git log --format='%h; %s' | head -5 && echo ${HOME}/x # done" in
  ∃ toks, shell_reads command = Some toks ∧ map token_shape toks =
    [CWord "git"; CWord "log"; CWord "--format=%h; %s"; COp "|"; CWord "head"; CWord "-5"; COp "&&"; CWord "echo";
     CWord "${HOME}/x"].
Proof.
  intros command. eexists. split; [vm_compute; reflexivity|].
  rewrite (@analysis_agrees_with_shell bare_host command None None None); vm_compute; reflexivity.
Defined.

(** ** Where they disagree

    [isShellCommentStart] takes any white space of the language before a number sign for
    the start of a comment; to the shell only blanks and line breaks are. *)

Definition analysed_as (command : string) (argvs : list (list (list string))) (tokens : list command_token) : Prop :=
  let an := @analyzeShellCommand bare_host command None None None in
  an_ok an = true ∧ analysed_argvs an = argvs ∧ map token_shape <$> shell_reads command = Some tokens.

Lemma comment_after_other_space_hides_commands :
  Forall (λ n, let name := "ls" +:+ chr (ascii_of_nat n) +:+ "#" in
    analysed_as (name +:+ ";rm x") [[["ls"]]] [CWord name; COp ";"; CWord "rm"; CWord "x"]) [11; 12; 160]%nat.
Proof. repeat (constructor; [vm_compute; by auto|]). constructor. Qed.

(** Quotes that hold nothing begin a word, and a number sign after them is no comment;
    the tokenizer takes it for one, and loses empty words. *)
Lemma empty_quotes_lose_words :
  analysed_as "cat ''#x y" [[["cat"]]] [CWord "cat"; CWord "#x"; CWord "y"]
  ∧ analysed_as "rm '' x" [[["rm"; "x"]]] [CWord "rm"; CWord ""; CWord "x"]
  ∧ analysed_as "cat ''#\ #$(rm)" [[["cat"]]] [CWord "cat"; CSubst].
Proof. vm_compute. auto 10. Qed.

(** Blanks and operators inside an expansion in braces belong to its word; the analysis
    splits there, so that one word is analysed as two commands. *)
Lemma braced_expansion_is_split :
  analysed_as "echo ${x:-a b}" [[["echo"; "${x:-a"; "b}"]]] [CWord "echo"; CWord "${x:-a b}"]
  ∧ analysed_as "echo ${x:-a; rm b}" [[["echo"; "${x:-a"]]; [["rm"; "b}"]]] [CWord "echo"; CWord "${x:-a; rm b}"].
Proof. vm_compute. auto 10. Qed.

(** Empty segments of a pipeline are dropped: the shell refuses the line. *)
Lemma empty_segments_dropped :
  analysed_as "a | | b" [[["a"]; ["b"]]] [CWord "a"; COp "|"; COp "|"; CWord "b"]
  ∧ analysed_as "| a" [[["a"]]] [COp "|"; CWord "a"].
Proof. vm_compute. auto 10. Qed.

End ShellAgreement.
