(* ===== verification/OMap.v ===== *)
(** * Insertion-ordered maps

  A JavaScript [Map] iterates in insertion order: [set] on a present key keeps
  the key's place, [set] on an absent key appends, [delete] removes. Several
  components rely on that order (eviction of the oldest key, iteration during
  which entries are removed), so a [Map] is the list of its entries. The
  operations keep the keys distinct ([owf]). *)

From S2P Require Import Prelude.

Abbreviation omap K V := (list (K * V)).

Section omap.
Context {K V : Type} `{EqDecision K}.
Implicit Types (m : omap K V) (k : K) (v : V).

(** [map.get(k)] *)
Fixpoint oget m k : option V :=
  match m with
  | [] => None
  | (k', v) :: m' => if decide (k = k') then Some v else oget m' k
  end.

(** [map.set(k, v)] *)
Fixpoint oset m k v : omap K V :=
  match m with
  | [] => [(k, v)]
  | (k', v') :: m' =>
      if decide (k = k') then (k, v) :: m' else (k', v') :: oset m' k v
  end.

(** [map.delete(k)] *)
Definition odel m k : omap K V :=
  List.filter (λ e, negb (bool_decide (k = e.1))) m.

Definition okeys m : list K := m.*1.
Definition ovalues m : list V := m.*2.
(** [map.size] *)
Definition osize m : nat := length m.
(** [map.has(k)] *)
Definition ohas m k : bool := match oget m k with Some _ => true | None => false end.

Definition owf m : Prop := NoDup (okeys m).

(** In-place mutation of the object stored under [k], if any. *)
Definition oupd m k (f : V → V) : omap K V :=
  match oget m k with
  | Some v => oset m k (f v)
  | None => m
  end.

(** Mutation of every stored object, the keys kept. *)
Definition omap_values (f : V → V) m : omap K V := (λ e, (e.1, f e.2)) <$> m.

Lemma oget_In m k v : oget m k = Some v → In (k, v) m.
Proof.
  induction m as [|[k' v'] m IH]; simpl; [done|].
  case_decide; intros; simplify_eq; auto.
Qed.

Lemma oget_key m k v : oget m k = Some v → In k (okeys m).
Proof. intros H%oget_In. apply (in_map fst) in H. exact H. Qed.

Lemma oget_Forall (P : K * V → Prop) m k v : Forall P m → oget m k = Some v → P (k, v).
Proof. rewrite Forall_forall. intros HP Hk. by apply HP, list_elem_of_In, oget_In. Qed.

Lemma oget_None m k : oget m k = None ↔ ¬ In k (okeys m).
Proof.
  induction m as [|[k' v'] m IH]; simpl; [tauto|].
  case_decide; subst; [split; [done|tauto]|]. rewrite IH.
  split; [|tauto]. intros Hn [?|?]; [congruence|tauto].
Qed.

Lemma oget_In_wf m k v : owf m → In (k, v) m → oget m k = Some v.
Proof.
  unfold owf. induction m as [|[k' v'] m IH]; simpl; [done|].
  intros Hnd%NoDup_cons. destruct Hnd as [Hni Hnd]. intros [He|Hin].
  - simplify_eq. by rewrite decide_True.
  - rewrite decide_False; [by apply IH|]. intros ->. apply Hni.
    apply list_elem_of_In. by apply (in_map fst) in Hin.
Qed.

Lemma oget_oset_eq m k v : oget (oset m k v) k = Some v.
Proof.
  induction m as [|[k' v'] m IH]; simpl; [by rewrite decide_True|].
  case_decide; simpl; [by rewrite decide_True|]. by rewrite decide_False.
Qed.

Lemma oget_oset_ne m k k' v : k ≠ k' → oget (oset m k v) k' = oget m k'.
Proof.
  intros Hne. induction m as [|[k'' v''] m IH]; simpl; [by rewrite decide_False by done|].
  case_decide; subst; simpl; [by rewrite !decide_False by done|].
  by rewrite IH.
Qed.

Lemma oget_oset m k k' v :
  oget (oset m k v) k' = if decide (k = k') then Some v else oget m k'.
Proof. case_decide; subst; [apply oget_oset_eq|by apply oget_oset_ne]. Qed.

Lemma oget_odel_eq m k : oget (odel m k) k = None.
Proof.
  induction m as [|[k' v'] m IH]; simpl; [done|].
  case_bool_decide; simpl; [done|]. by rewrite decide_False.
Qed.

Lemma oget_odel_ne m k k' : k ≠ k' → oget (odel m k) k' = oget m k'.
Proof.
  intros Hne. induction m as [|[k'' v''] m IH]; simpl; [done|].
  case_bool_decide; subst; simpl; [by rewrite decide_False by done|].
  by rewrite IH.
Qed.

Lemma oget_odel m k k' :
  oget (odel m k) k' = if decide (k = k') then None else oget m k'.
Proof. case_decide; subst; [apply oget_odel_eq|by apply oget_odel_ne]. Qed.

Lemma okeys_oset_present m k v v' : oget m k = Some v' → okeys (oset m k v) = okeys m.
Proof.
  induction m as [|[k' u] m IH]; simpl; [done|].
  case_decide; intros; simplify_eq/=; [done|]. f_equal. by apply IH.
Qed.

Lemma oset_absent m k v : oget m k = None → oset m k v = m ++ [(k, v)].
Proof.
  induction m as [|[k' u] m IH]; simpl; [done|].
  case_decide; [done|]. intros. f_equal. by apply IH.
Qed.

Lemma oset_nonnil m k v : oset m k v ≠ [].
Proof. destruct m as [|[k' v'] m]; simpl; [done|]. by destruct (decide (k = k')). Qed.

Lemma oset_id m k v : oget m k = Some v → oset m k v = m.
Proof.
  induction m as [|[k' u] m IH]; simpl; [done|].
  case_decide; intros; simplify_eq/=; [done|]. f_equal. by apply IH.
Qed.

(** The values in order are those of the keys in order. *)
Lemma ovalues_okeys (d : V) m : owf m → ovalues m = map (λ k, oget m k ?? d) (okeys m).
Proof.
  intros Hm. assert (∀ l, (∀ e, In e l → oget m e.1 = Some e.2) → ovalues l = map (λ k, oget m k ?? d) (okeys l)) as H.
  { intros l. induction l as [|e l IH]; intros Hl; [done|].
    change (ovalues (e :: l)) with (e.2 :: ovalues l). change (okeys (e :: l)) with (e.1 :: okeys l).
    cbn [map]. rewrite (Hl e) by (by left). cbn. f_equal. apply IH. intros e' He'. apply Hl. by right. }
  apply H. intros [k v] Hin. by apply oget_In_wf.
Qed.

Lemma owf_nil : owf [].
Proof. constructor. Qed.

Lemma owf_oset m k v : owf m → owf (oset m k v).
Proof.
  unfold owf. intros H. destruct (oget m k) eqn:E.
  - by erewrite okeys_oset_present.
  - rewrite oset_absent by done. unfold okeys. rewrite fmap_app. simpl.
    apply NoDup_app. split; [done|]. split; [|apply NoDup_singleton].
    intros x Hx ->%list_elem_of_singleton.
    apply oget_None in E. by apply E, list_elem_of_In.
Qed.

Lemma owf_filter (f : K * V → bool) m : owf m → owf (List.filter f m).
Proof.
  unfold owf, okeys. induction m as [|[k v] m IH]; simpl; [done|].
  intros [Hni Hnd]%NoDup_cons. destruct (f (k, v)); simpl; [|by apply IH].
  constructor; [|by apply IH]. intros Hin. apply Hni.
  apply list_elem_of_fmap in Hin as ([k' v'] & -> & Hin).
  apply list_elem_of_fmap. exists (k', v'). split; [done|].
  apply list_elem_of_In in Hin. apply filter_In in Hin as [? _].
  by apply list_elem_of_In.
Qed.

Lemma owf_odel m k : owf m → owf (odel m k).
Proof. apply owf_filter. Qed.

Lemma owf_oupd m k f : owf m → owf (oupd m k f).
Proof. unfold oupd. destruct (oget m k); auto using owf_oset. Qed.

Lemma owf_tail e m : owf (e :: m) → owf m.
Proof. unfold owf, okeys. simpl. by intros [_ ?]%NoDup_cons. Qed.

Lemma oget_oupd m k k' f :
  oget (oupd m k f) k' = if decide (k = k') then f <$> oget m k' else oget m k'.
Proof.
  unfold oupd. destruct (oget m k) eqn:E.
  - rewrite oget_oset. case_decide; subst; [by rewrite E|done].
  - case_decide; subst; [by rewrite E|done].
Qed.

Lemma okeys_oupd m k f : okeys (oupd m k f) = okeys m.
Proof. unfold oupd. destruct (oget m k) eqn:E; [by erewrite okeys_oset_present|done]. Qed.

Lemma okeys_omap_values f m : okeys (omap_values f m) = okeys m.
Proof. unfold okeys, omap_values. by rewrite <- list_fmap_compose. Qed.

Lemma oget_omap_values f m k : oget (omap_values f m) k = f <$> oget m k.
Proof. induction m as [|[k' v'] m IH]; simpl; [done|]. by case_decide. Qed.

Lemma oget_filter (f : K * V → bool) m k :
  owf m → oget (List.filter f m) k =
    match oget m k with Some v => if f (k, v) then Some v else None | None => None end.
Proof.
  unfold owf. induction m as [|[k' v'] m IH]; simpl; [done|].
  intros [Hni Hnd]%NoDup_cons. specialize (IH Hnd).
  case_decide; subst.
  - destruct (f (k', v')); simpl; [by rewrite decide_True|].
    rewrite IH. destruct (oget m k') eqn:E; [|done].
    apply oget_key in E. exfalso. by apply Hni, list_elem_of_In.
  - destruct (f (k', v')); simpl; [by rewrite decide_False|done].
Qed.

Lemma oset_oset m k v v' : oset (oset m k v) k v' = oset m k v'.
Proof.
  induction m as [|[k' u] m IH]; simpl; [by rewrite decide_True|].
  case_decide; simpl; [by rewrite decide_True|]. by rewrite decide_False, IH.
Qed.

Lemma odel_twice m k : odel (odel m k) k = odel m k.
Proof. apply filter_twice. Qed.

Lemma odel_oset m k v : odel (oset m k v) k = odel m k.
Proof.
  unfold odel. induction m as [|[k' u] m IH]; simpl; [by rewrite bool_decide_eq_true_2|].
  case_decide as Hd; simpl; [|by rewrite IH]. by rewrite Hd, bool_decide_eq_true_2.
Qed.

Lemma osize_oset_absent m k v : oget m k = None → osize (oset m k v) = S (osize m).
Proof. intros H. unfold osize. rewrite oset_absent, length_app by done. simpl. lia. Qed.

Lemma osize_oset_present m k v v' : oget m k = Some v' → osize (oset m k v) = osize m.
Proof.
  intros H. unfold osize. rewrite <- (length_fmap fst m), <- (length_fmap fst (oset m k v)).
  change (length (okeys (oset m k v)) = length (okeys m)). by erewrite okeys_oset_present.
Qed.

Lemma osize_odel_le m k : (osize (odel m k) <= osize m)%nat.
Proof. apply filter_length_le. Qed.

Lemma osize_odel_present m k v : owf m → oget m k = Some v → S (osize (odel m k)) = osize m.
Proof.
  unfold owf, osize. induction m as [|[k' v'] m IH]; simpl; [done|].
  intros [Hni Hnd]%NoDup_cons. case_decide; subst.
  - intros _. rewrite bool_decide_eq_true_2 by done. simpl. f_equal.
    unfold odel. f_equal.
    assert (Forall (λ e : K * V, negb (bool_decide (k' = e.1)) = true) m) as Hall.
    { apply Forall_forall. intros [k2 v2] Hin. simpl.
      rewrite bool_decide_eq_false_2; [done|]. intros ->.
      apply Hni. apply list_elem_of_fmap. by exists (k2, v2). }
    clear -Hall. induction Hall as [|x l Hx _ IH]; simpl; [done|]. by rewrite Hx, IH.
  - intros Hg. rewrite bool_decide_eq_false_2 by done. simpl. f_equal. by apply IH.
Qed.

Lemma odel_head k v m : owf ((k, v) :: m) → odel ((k, v) :: m) k = m.
Proof.
  intros [Hni Hnd]%NoDup_cons. unfold odel. simpl.
  rewrite bool_decide_eq_true_2 by done. simpl.
  clear Hnd. induction m as [|[k' v'] m IH]; simpl; [done|].
  rewrite bool_decide_eq_false_2.
  - simpl. f_equal. apply IH. intros Hin. apply Hni. simpl. by right.
  - intros ->. apply Hni. simpl. by left.
Qed.

(** Replacing one value changes what the values contribute by that value. *)
Lemma flat_map_oset {A} (g : V → list A) m k v :
  flat_map g (ovalues (oset m k v)) ++ (from_option g [] (oget m k))
  ≡ₚ flat_map g (ovalues m) ++ g v.
Proof.
  induction m as [|[k' v'] m IH]; simpl; [by rewrite !app_nil_r|].
  case_decide; subst; simpl.
  - rewrite (Permutation_app_comm (g v' ++ _) (g v)), <- app_assoc.
    apply Permutation_app_head, Permutation_app_comm.
  - by rewrite <- !app_assoc, IH.
Qed.

Lemma flat_map_ovalues_In {A} (g : V → list A) m x :
  owf m → (In x (flat_map g (ovalues m)) ↔ ∃ k v, oget m k = Some v ∧ In x (g v)).
Proof.
  intros Hwf. rewrite in_flat_map. unfold ovalues. split.
  - intros (v & Hv & Hx). apply in_map_iff in Hv as ([k v'] & <- & Hin).
    exists k, v'. split; [by apply oget_In_wf|done].
  - intros (k & v & Hg & Hx). exists v. split; [|done].
    apply in_map_iff. exists (k, v). split; [done|]. by apply oget_In.
Qed.

Lemma ovalues_omap_values f m : ovalues (omap_values f m) = f <$> ovalues m.
Proof. unfold ovalues, omap_values. by rewrite <- !list_fmap_compose. Qed.

(** Evicting the oldest entries until at most [limit] are left
    ([pruneMapToMaxSize] of infra/map-size.ts). *)
Fixpoint evictOldest (limit : Z) m : omap K V :=
  match m with
  | [] => []
  | _ :: m' => if limit <? Z.of_nat (osize m) then evictOldest limit m' else m
  end.

(** The test on the number of entries left is the loop's condition. *)
Definition pruneMapToMaxSize m (maxSize : Z) : omap K V :=
  let limit := Z.max 0 maxSize in
  if limit <=? 0 then [] else evictOldest limit m.

Lemma evictOldest_suffix limit m : ∃ m1, m = m1 ++ evictOldest limit m.
Proof.
  induction m as [|e m IH]; [by exists []|]. cbn [evictOldest].
  case_match; [|by exists []]. destruct IH as [m1 IH]. exists (e :: m1). simpl. by f_equal.
Qed.

Lemma evictOldest_size limit m :
  0 <= limit → Z.of_nat (osize (evictOldest limit m)) <= limit.
Proof.
  intros Hl. induction m as [|e m IH]; [done|]. cbn [evictOldest].
  case_match; [done|lia].
Qed.

Lemma evictOldest_fits limit m : Z.of_nat (osize m) <= limit → evictOldest limit m = m.
Proof. destruct m as [|e m]; [done|]. intros. cbn [evictOldest]. case_match; [lia|done]. Qed.

Lemma pruneMapToMaxSize_size m n :
  0 <= n → Z.of_nat (osize (pruneMapToMaxSize m n)) <= n.
Proof.
  intros Hn. unfold pruneMapToMaxSize. case_match; [done|].
  rewrite Z.max_r by lia. by apply evictOldest_size.
Qed.

Lemma pruneMapToMaxSize_suffix m n : ∃ m1, m = m1 ++ pruneMapToMaxSize m n.
Proof.
  unfold pruneMapToMaxSize. case_match; [exists m; by rewrite app_nil_r|].
  apply evictOldest_suffix.
Qed.

Lemma owf_app_r m1 m : owf (m1 ++ m) → owf m.
Proof. unfold owf, okeys. rewrite fmap_app. by intros (_ & _ & ?)%NoDup_app. Qed.

Lemma pruneMapToMaxSize_wf m n : owf m → owf (pruneMapToMaxSize m n).
Proof.
  intros H. destruct (pruneMapToMaxSize_suffix m n) as [m1 Hm].
  apply (owf_app_r m1). by rewrite <- Hm.
Qed.

Lemma pruneMapToMaxSize_fits m n :
  0 < n → Z.of_nat (osize m) <= n → pruneMapToMaxSize m n = m.
Proof.
  intros Hn Hle. unfold pruneMapToMaxSize. case_match; [lia|].
  apply evictOldest_fits. lia.
Qed.
End omap.

#[export] Hint Resolve owf_nil owf_oset owf_odel owf_filter owf_oupd pruneMapToMaxSize_wf : jsdb.
#[export] Hint Rewrite @oget_oset_eq @oget_odel_eq @okeys_oupd @okeys_omap_values
@oget_omap_values : jsdb.

(** ** Maps that memoise a function

    A cache is sound for [f] when every entry is what [f] computes for its key. *)
Section memo.
Context {K V : Type} `{EqDecision K}.
Implicit Types (m : omap K V) (k : K) (v : V) (f : K → V).

Definition osound f m : Prop := ∀ k v, oget m k = Some v → v = f k.

Lemma osound_nil f : osound f [].
Proof. by intros k v. Qed.

Lemma osound_oset f m k : osound f m → osound f (oset m k (f k)).
Proof.
  intros H k' v. rewrite oget_oset. case_decide; subst; [by intros [= <-]|]. apply H.
Qed.

Lemma osound_odel f m k : osound f m → osound f (odel m k).
Proof. intros H k' v. rewrite oget_odel. case_decide; [done|]. apply H. Qed.

Lemma osound_tail f e m : owf (e :: m) → osound f (e :: m) → osound f m.
Proof.
  intros Hwf H k v Hk. apply H. destruct e as [k' v']. simpl. case_decide; subst; [|done].
  apply oget_In, (in_map fst) in Hk. apply NoDup_cons in Hwf as [Hn _]. destruct Hn.
  by apply list_elem_of_In.
Qed.

End memo.
#[export] Hint Resolve osound_nil osound_oset osound_odel : jsdb.
