(* ===== verification/CommandQueue.v ===== *)
(** * The in-process command queue: src/process/command-queue.ts

    Lanes hold queued entries and the ids of the tasks they run. [drainLane] and
    the completion of a task both run [pump], a loop that starts entries while the
    lane has a free slot. A started task runs synchronously up to its first
    [await] and may call back into the queue from there, so the queue is modelled
    small-step, with the call stack as part of the state: a [KPump] frame is a
    pump loop in progress, and an API call may happen while frames are on the
    stack. Continuations of awaited tasks run on an empty stack. *)

From S2P Require Import Prelude OMap.

Module CommandQueue.

(** ** Data *)

(** [QueueEntry]; [entryId] is the identity of the promise handed to the caller
    (its [resolve] and [reject]) and of the task behind it. *)
Record QueueEntry := mkEntry {
  entryId : nat;
  enqueuedAt : Z;
  warnAfterMs : Z;
  hasOnWait : bool;
}.

Record LaneState := mkLane {
  lane : string;
  queue : list QueueEntry;
  activeTaskIds : list Z;
  maxConcurrent : num;
  draining : bool;
  generation : Z;
}.

Record ActiveTaskWaiter := mkWaiter {
  waiterId : nat;
  waiterTaskIds : list Z;
}.

(** The async closure of a started task, suspended on [await entry.task()]. *)
Record Inflight := mkInflight {
  if_entry : nat;
  if_lane : string;
  if_taskId : Z;
  if_generation : Z;
}.

Inductive Reason := TaskError | CommandLaneClearedError (lane : string).
Inductive Outcome := Resolved | Rejected (why : Reason).

(** What is left to do after the code that is running returns. *)
Inductive Cont :=
| KPump (ln : string) (settle : option (nat * Outcome))
| KDrain (ln : string)
| KNotify.

Record QueueState := mkState {
  gatewayDraining : bool;
  lanes : omap string LaneState;
  activeTaskWaiters : list ActiveTaskWaiter;
  nextTaskId : Z;
  nextEntryId : nat;
  nextWaiterId : nat;
  inflight : list Inflight;
  stack : list Cont;
}.

(** What the callers of the queue observe. *)
Inductive Event :=
| EvStart (ln : string) (entry : nat) (taskId : Z)
| EvOnWait (entry : nat) (waitedMs : Z) (queuedAhead : nat)
| EvSettle (entry : nat) (o : Outcome)
| EvGatewayDrainingError
| EvWaiter (waiter : nat) (drained : bool).

(** ** Operations *)

Definition CommandLane_Main : string := "main".

Definition normalizeLane (ln : string) : string := str_or (trim ln) CommandLane_Main.

Definition getLaneDepth (st : LaneState) : nat :=
  (length (queue st) + length (activeTaskIds st))%nat.

Definition freshLane (ln : string) : LaneState :=
  mkLane ln [] [] (num_of_Z 1) false 0.

Definition set_lanes (s : QueueState) (m : omap string LaneState) : QueueState :=
  mkState (gatewayDraining s) m (activeTaskWaiters s) (nextTaskId s)
    (nextEntryId s) (nextWaiterId s) (inflight s) (stack s).

Definition set_stack (s : QueueState) (k : list Cont) : QueueState :=
  mkState (gatewayDraining s) (lanes s) (activeTaskWaiters s) (nextTaskId s)
    (nextEntryId s) (nextWaiterId s) (inflight s) k.

Definition set_waiters (s : QueueState) (w : list ActiveTaskWaiter) : QueueState :=
  mkState (gatewayDraining s) (lanes s) w (nextTaskId s)
    (nextEntryId s) (nextWaiterId s) (inflight s) (stack s).

Definition put_lane (s : QueueState) (ln : string) (st : LaneState) : QueueState :=
  set_lanes s (oset (lanes s) ln st).

(** The lane's record, and the state in which it has been created if absent. *)
Definition getLaneState (s : QueueState) (ln : string) : LaneState * QueueState :=
  match oget (lanes s) ln with
  | Some existing => (existing, s)
  | None => (freshLane ln, put_lane s ln (freshLane ln))
  end.

Definition set_draining (st : LaneState) (b : bool) : LaneState :=
  mkLane (lane st) (queue st) (activeTaskIds st) (maxConcurrent st) b (generation st).

Definition set_active (st : LaneState) (a : list Z) : LaneState :=
  mkLane (lane st) (queue st) a (maxConcurrent st) (draining st) (generation st).

Definition set_queue (st : LaneState) (q : list QueueEntry) : LaneState :=
  mkLane (lane st) q (activeTaskIds st) (maxConcurrent st) (draining st) (generation st).

Definition removeId (id : Z) (ids : list Z) : list Z :=
  List.filter (λ x, negb (x =? id)) ids.

(** [completeTask]: the lane afterwards, and whether the generation matched. *)
Definition completeTask (st : LaneState) (taskId taskGeneration : Z) : LaneState * bool :=
  if negb (taskGeneration =? generation st) then (st, false)
  else (set_active st (removeId taskId (activeTaskIds st)), true).

Definition hasPendingActiveTasks (s : QueueState) (taskIds : list Z) : bool :=
  existsb (λ st, existsb (λ id, bool_decide (id ∈ taskIds)) (activeTaskIds st))
    (ovalues (lanes s)).

Definition waiterDone (s : QueueState) (w : ActiveTaskWaiter) : bool :=
  (length (waiterTaskIds w) =? 0)%nat || negb (hasPendingActiveTasks s (waiterTaskIds w)).

Definition notifyActiveTaskWaiters (s : QueueState) : QueueState * list Event :=
  (set_waiters s (List.filter (λ w, negb (waiterDone s w)) (activeTaskWaiters s)),
   (λ w, EvWaiter (waiterId w) true) <$> List.filter (waiterDone s) (activeTaskWaiters s)).

(** [drainLane] up to the call of [pump]. *)
Definition drainLane (s : QueueState) (ln : string) : QueueState :=
  let (st, s1) := getLaneState s ln in
  if draining st then s1
  else let s2 := put_lane s1 ln (set_draining st true) in
       set_stack s2 (KPump ln None :: stack s2).

(** The condition of the loop of [pump]. *)
Definition canStart (st : LaneState) : bool :=
  num_ltb (num_of_Z (Z.of_nat (length (activeTaskIds st)))) (maxConcurrent st)
  && (0 <? length (queue st))%nat.

(** One iteration of the loop of [pump], up to the call of [entry.task()]. *)
Definition startNext (now : Z) (s : QueueState) (ln : string) (st : LaneState)
    (e : QueueEntry) (q : list QueueEntry) : QueueState * list Event :=
  let waitedMs := now - enqueuedAt e in
  let warn := if (warnAfterMs e <=? waitedMs) && hasOnWait e
              then [EvOnWait (entryId e) waitedMs (length q)] else [] in
  let taskId := nextTaskId s in
  let st' := mkLane (lane st) q (activeTaskIds st ++ [taskId]) (maxConcurrent st)
               (draining st) (generation st) in
  (mkState (gatewayDraining s) (oset (lanes s) ln st') (activeTaskWaiters s)
     (taskId + 1) (nextEntryId s) (nextWaiterId s)
     (inflight s ++ [mkInflight (entryId e) ln taskId (generation st)]) (stack s),
   warn ++ [EvStart ln (entryId e) taskId]).

(** Leaving [pump]: the [finally] block, then what follows the call. *)
Definition pumpExit (s : QueueState) (ln : string) (settle : option (nat * Outcome))
    (k : list Cont) : QueueState * list Event :=
  let s1 := set_lanes s (oupd (lanes s) ln (λ st, set_draining st false)) in
  (set_stack s1 k,
   match settle with Some (id, o) => [EvSettle id o] | None => [] end).

(** One small step of the code on top of the stack. *)
Definition runTop (now : Z) (s : QueueState) : option (QueueState * list Event) :=
  match stack s with
  | [] => None
  | KPump ln settle :: k =>
      match oget (lanes s) ln with
      | None => Some (pumpExit s ln settle k)
      | Some st =>
          if canStart st then
            match queue st with
            | [] => Some (pumpExit s ln settle k)
            | e :: q => Some (startNext now s ln st e q)
            end
          else Some (pumpExit s ln settle k)
      end
  | KDrain ln :: k => Some (drainLane (set_stack s k) ln, [])
  | KNotify :: k => Some (notifyActiveTaskWaiters (set_stack s k))
  end.

Definition markGatewayDraining (s : QueueState) : QueueState :=
  mkState true (lanes s) (activeTaskWaiters s) (nextTaskId s)
    (nextEntryId s) (nextWaiterId s) (inflight s) (stack s).

Definition setCommandLaneConcurrency (s : QueueState) (ln : string) (maxC : num)
    : QueueState :=
  let cleaned := normalizeLane ln in
  let (st, s1) := getLaneState s cleaned in
  let st' := mkLane (lane st) (queue st) (activeTaskIds st)
               (math_max (num_of_Z 1) (math_floor maxC)) (draining st) (generation st) in
  drainLane (put_lane s1 cleaned st') cleaned.

Definition enqueueCommandInLane (now : Z) (s : QueueState) (ln : string)
    (warnAfter : option Z) (onWait : bool) : QueueState * list Event :=
  if gatewayDraining s then (s, [EvGatewayDrainingError])
  else
    let cleaned := normalizeLane ln in
    let warnMs := warnAfter ?? 2000 in
    let (st, s1) := getLaneState s cleaned in
    let e := mkEntry (nextEntryId s1) now warnMs onWait in
    let s2 := put_lane s1 cleaned (set_queue st (queue st ++ [e])) in
    let s3 := mkState (gatewayDraining s2) (lanes s2) (activeTaskWaiters s2)
                (nextTaskId s2) (S (nextEntryId s2)) (nextWaiterId s2)
                (inflight s2) (stack s2) in
    (drainLane s3 cleaned, []).

Definition enqueueCommand (now : Z) (s : QueueState) (warnAfter : option Z) (onWait : bool)
    : QueueState * list Event :=
  enqueueCommandInLane now s CommandLane_Main warnAfter onWait.

Definition getQueueSize (s : QueueState) (ln : string) : nat :=
  match oget (lanes s) (normalizeLane ln) with
  | None => 0
  | Some st => getLaneDepth st
  end.

Definition getTotalQueueSize (s : QueueState) : nat :=
  foldr (λ st n, getLaneDepth st + n)%nat 0%nat (ovalues (lanes s)).

Definition getActiveTaskCount (s : QueueState) : nat :=
  foldr (λ st n, length (activeTaskIds st) + n)%nat 0%nat (ovalues (lanes s)).

Definition clearCommandLane (s : QueueState) (ln : string) : nat * QueueState * list Event :=
  let cleaned := normalizeLane ln in
  match oget (lanes s) cleaned with
  | None => (0%nat, s, [])
  | Some st =>
      (length (queue st), put_lane s cleaned (set_queue st []),
       (λ e, EvSettle (entryId e) (Rejected (CommandLaneClearedError cleaned))) <$> queue st)
  end.

Definition resetLane (st : LaneState) : LaneState :=
  mkLane (lane st) (queue st) [] (maxConcurrent st) false (generation st + 1).

(** [resetAllLanes]: the reset pass, then the drains and the notification it
    leaves to run. *)
Definition resetAllLanes (s : QueueState) : QueueState :=
  let lanesToDrain :=
    lane <$> List.filter (λ st, (0 <? length (queue st))%nat) (ovalues (lanes s)) in
  mkState false (omap_values resetLane (lanes s)) (activeTaskWaiters s) (nextTaskId s)
    (nextEntryId s) (nextWaiterId s) (inflight s)
    ((KDrain <$> lanesToDrain) ++ KNotify :: stack s).

Definition activeAtStart (s : QueueState) : list Z :=
  flat_map activeTaskIds (ovalues (lanes s)).

Definition waitForActiveTasks (s : QueueState) (timeoutMs : Z) : QueueState * list Event :=
  let ids := activeAtStart s in
  let wid := nextWaiterId s in
  let s1 := mkState (gatewayDraining s) (lanes s) (activeTaskWaiters s) (nextTaskId s)
              (nextEntryId s) (S wid) (inflight s) (stack s) in
  match ids with
  | [] => (s1, [EvWaiter wid true])
  | _ =>
      if timeoutMs <=? 0 then (s1, [EvWaiter wid false])
      else notifyActiveTaskWaiters
             (set_waiters s1 (activeTaskWaiters s1 ++ [mkWaiter wid ids]))
  end.

(** The timer of a waiter: [resolveActiveTaskWaiter(waiter, { drained: false })]. *)
Definition waiterTimeout (s : QueueState) (wid : nat) : QueueState * list Event :=
  if existsb (λ w, (waiterId w =? wid)%nat) (activeTaskWaiters s)
  then (set_waiters s (List.filter (λ w, negb (waiterId w =? wid)%nat) (activeTaskWaiters s)),
        [EvWaiter wid false])
  else (s, []).

(** The continuation of [await entry.task()]: both branches complete the task;
    a current one notifies the waiters and pumps before the promise settles. *)
Definition taskSettled (s : QueueState) (f : Inflight) (o : Outcome)
    : QueueState * list Event :=
  let s0 := mkState (gatewayDraining s) (lanes s) (activeTaskWaiters s) (nextTaskId s)
              (nextEntryId s) (nextWaiterId s)
              (List.filter (λ g, negb (if_taskId g =? if_taskId f)) (inflight s)) (stack s) in
  match oget (lanes s0) (if_lane f) with
  | None => (s0, [EvSettle (if_entry f) o])
  | Some st =>
      let (st', current) := completeTask st (if_taskId f) (if_generation f) in
      if current then
        let (s1, evs) := notifyActiveTaskWaiters (put_lane s0 (if_lane f) st') in
        (set_stack s1 (KPump (if_lane f) (Some (if_entry f, o)) :: stack s1), evs)
      else (s0, [EvSettle (if_entry f) o])
  end.

(** ** The step relation *)

Inductive Label :=
| LEnqueue (now : Z) (ln : string) (warnAfter : option Z) (onWait : bool)
| LSetConcurrency (ln : string) (maxC : num)
| LClear (ln : string)
| LReset
| LMarkDraining
| LWait (timeoutMs : Z)
| LTimeout (wid : nat)
| LSettled (f : Inflight) (o : Outcome)
| LRun (now : Z).

Inductive step (s : QueueState) : Label → QueueState → list Event → Prop :=
| step_enqueue now ln w b s' evs :
    enqueueCommandInLane now s ln w b = (s', evs) → step s (LEnqueue now ln w b) s' evs
| step_setConcurrency ln n :
    step s (LSetConcurrency ln n) (setCommandLaneConcurrency s ln n) []
| step_clear ln n s' evs :
    clearCommandLane s ln = (n, s', evs) → step s (LClear ln) s' evs
| step_reset : step s LReset (resetAllLanes s) []
| step_markDraining : step s LMarkDraining (markGatewayDraining s) []
| step_wait ms s' evs : waitForActiveTasks s ms = (s', evs) → step s (LWait ms) s' evs
| step_timeout wid s' evs :
    stack s = [] → waiterTimeout s wid = (s', evs) → step s (LTimeout wid) s' evs
| step_settled f o s' evs :
    stack s = [] → f ∈ inflight s → o = Resolved ∨ o = Rejected TaskError →
    taskSettled s f o = (s', evs) → step s (LSettled f o) s' evs
| step_run now s' evs : runTop now s = Some (s', evs) → step s (LRun now) s' evs.

(** The cases of a step, with fixed names. *)
Ltac step_inv H :=
  inversion H as
    [now ln w b s1 e1 He|ln n|ln n s1 e1 He| | |ms s1 e1 He|wid s1 e1 Hk He
    |f o s1 e1 Hk Hf Ho He|now s1 e1 He]; subst.

Definition initState : QueueState := mkState false [] [] 1 0 0 [] [].

(** A run from the initial state, its labels and its events in order. *)
Inductive run : list Label → list Event → QueueState → Prop :=
| run_init : run [] [] initState
| run_step ls evs s l s' evs' :
    run ls evs s → step s l s' evs' → run (ls ++ [l]) (evs ++ evs') s'.

(** ** The lanes as a total function

    A lane that has not been created behaves like a fresh one. *)

Definition lane_of (s : QueueState) (ln : string) : LaneState :=
  oget (lanes s) ln ?? freshLane ln.

Lemma lane_of_put s ln ln' st :
  lane_of (put_lane s ln st) ln' = if decide (ln = ln') then st else lane_of s ln'.
Proof. unfold lane_of, put_lane. simpl. rewrite oget_oset. by case_decide. Qed.

Lemma getLaneState_fst s ln : (getLaneState s ln).1 = lane_of s ln.
Proof. unfold getLaneState, lane_of. by destruct (oget (lanes s) ln). Qed.

Lemma lane_of_getLaneState s ln ln' : lane_of (getLaneState s ln).2 ln' = lane_of s ln'.
Proof.
  unfold getLaneState. destruct (oget (lanes s) ln) eqn:E; [done|]. simpl.
  rewrite lane_of_put. case_decide; subst; [|done]. unfold lane_of. by rewrite E.
Qed.

(** Two states that differ in their lanes and stack only. *)
Definition same_rest (s s' : QueueState) : Prop :=
  gatewayDraining s' = gatewayDraining s ∧ activeTaskWaiters s' = activeTaskWaiters s ∧
  nextTaskId s' = nextTaskId s ∧ nextEntryId s' = nextEntryId s ∧
  nextWaiterId s' = nextWaiterId s ∧ inflight s' = inflight s.

Lemma getLaneState_rest s ln :
  same_rest s (getLaneState s ln).2 ∧ stack (getLaneState s ln).2 = stack s.
Proof. unfold getLaneState, same_rest. destruct (oget (lanes s) ln); auto 10. Qed.

Lemma set_draining_same st b : draining st = b → set_draining st b = st.
Proof. by destruct st; simpl; intros ->. Qed.

Lemma drainLane_lane s ln ln' :
  lane_of (drainLane s ln) ln' =
    if decide (ln = ln') then set_draining (lane_of s ln) true else lane_of s ln'.
Proof.
  unfold drainLane. pose proof (lane_of_getLaneState s ln) as H1.
  pose proof (getLaneState_fst s ln) as H2. destruct (getLaneState s ln) as [st s1]. simpl in *.
  subst st. destruct (draining (lane_of s ln)) eqn:E.
  - rewrite H1. case_decide; subst; [|done]. by rewrite set_draining_same.
  - change (lane_of (set_stack ?a ?b) ?c) with (lane_of a c). rewrite lane_of_put, H1.
    by case_decide.
Qed.

Lemma drainLane_stack s ln :
  stack (drainLane s ln) =
    if draining (lane_of s ln) then stack s else KPump ln None :: stack s.
Proof.
  unfold drainLane. pose proof (getLaneState_rest s ln) as [_ H1].
  pose proof (getLaneState_fst s ln) as H2. destruct (getLaneState s ln) as [st s1]. simpl in *.
  subst st. destruct (draining (lane_of s ln)); [done|]. simpl. by rewrite H1.
Qed.

Lemma drainLane_rest s ln : same_rest s (drainLane s ln).
Proof.
  unfold drainLane. pose proof (getLaneState_rest s ln) as [H1 _].
  destruct (getLaneState s ln) as [st s1]. simpl in *.
  by destruct (draining st).
Qed.

(** ** Well-formed lane tables *)

Definition lanes_wf (s : QueueState) : Prop :=
  owf (lanes s) ∧ ∀ ln st, oget (lanes s) ln = Some st → lane st = ln.

Lemma lane_of_name s ln : lanes_wf s → lane (lane_of s ln) = ln.
Proof. intros [_ H]. unfold lane_of. destruct (oget (lanes s) ln) eqn:E; simpl; eauto. Qed.

Lemma lanes_wf_put s ln st : lanes_wf s → lane st = ln → lanes_wf (put_lane s ln st).
Proof.
  intros [Hwf Hn] Hl. split; simpl; [by apply owf_oset|].
  intros ln' st'. rewrite oget_oset. case_decide; intros; simplify_eq; eauto.
Qed.

Lemma getLaneState_wf s ln : lanes_wf s → lanes_wf (getLaneState s ln).2.
Proof.
  unfold getLaneState. destruct (oget (lanes s) ln); [done|]. intros. by apply lanes_wf_put.
Qed.

Lemma drainLane_wf s ln : lanes_wf s → lanes_wf (drainLane s ln).
Proof.
  intros Hwf. unfold drainLane. pose proof (getLaneState_wf s ln Hwf) as H1.
  pose proof (getLaneState_fst s ln) as H2. destruct (getLaneState s ln) as [st s1]. simpl in *.
  destruct (draining st); [done|].
  apply (lanes_wf_put s1 ln (set_draining st true)) in H1; [done|]. subst st.
  by apply lane_of_name.
Qed.

Lemma ovalues_In s st :
  lanes_wf s → In st (ovalues (lanes s)) → lane_of s (lane st) = st.
Proof.
  intros [Hwf Hn] Hin. unfold ovalues in Hin. apply in_map_iff in Hin as ([ln st'] & <- & Hin).
  simpl. apply oget_In_wf in Hin; [|done]. pose proof (Hn _ _ Hin) as ->.
  unfold lane_of. by rewrite Hin.
Qed.

Lemma lane_of_In s ln :
  In (lane_of s ln) (ovalues (lanes s)) ∨ lane_of s ln = freshLane ln.
Proof.
  unfold lane_of. destruct (oget (lanes s) ln) eqn:E; [left|by right].
  apply oget_In in E. by apply (in_map snd) in E.
Qed.

(** ** What each operation does to lanes, stack and the rest *)

(** [enqueueCommandInLane] and [setCommandLaneConcurrency] replace one lane and
    drain it. *)
Definition touch (s : QueueState) (ln : string) (st' : LaneState) : QueueState :=
  drainLane (put_lane (getLaneState s ln).2 ln st') ln.

Lemma touch_lane s ln st' ln' :
  lane_of (touch s ln st') ln' =
    if decide (ln = ln') then set_draining st' true else lane_of s ln'.
Proof.
  unfold touch. rewrite drainLane_lane, !lane_of_put, !lane_of_getLaneState.
  destruct (decide (ln = ln')); [by rewrite decide_True|done].
Qed.

Lemma touch_stack s ln st' :
  draining st' = draining (lane_of s ln) →
  stack (touch s ln st') =
    if draining (lane_of s ln) then stack s else KPump ln None :: stack s.
Proof.
  intros Hd. unfold touch. rewrite drainLane_stack, lane_of_put, decide_True, Hd by done.
  change (stack (put_lane ?a _ _)) with (stack a).
  by rewrite (proj2 (getLaneState_rest s ln)).
Qed.

Lemma touch_stack_mono s ln st' c :
  draining st' = draining (lane_of s ln) → c ∈ stack s → c ∈ stack (touch s ln st').
Proof.
  intros Hd Hc. rewrite touch_stack by done. destruct (draining (lane_of s ln)); [done|by right].
Qed.

Lemma touch_rest s ln st' : same_rest s (touch s ln st').
Proof.
  unfold touch. pose proof (drainLane_rest (put_lane (getLaneState s ln).2 ln st') ln) as H1.
  pose proof (proj1 (getLaneState_rest s ln)) as H2. unfold same_rest in *. simpl in *.
  destruct_and!; split_and!; congruence.
Qed.

Lemma touch_wf s ln st' : lanes_wf s → lane st' = ln → lanes_wf (touch s ln st').
Proof. intros. apply drainLane_wf, lanes_wf_put; [by apply getLaneState_wf|done]. Qed.

Definition bumpEntry (s : QueueState) : QueueState :=
  mkState (gatewayDraining s) (lanes s) (activeTaskWaiters s) (nextTaskId s)
    (S (nextEntryId s)) (nextWaiterId s) (inflight s) (stack s).

Definition pushed (now : Z) (s : QueueState) (ln : string) (w : option Z) (b : bool) : LaneState :=
  let st := lane_of s (normalizeLane ln) in
  set_queue st (queue st ++ [mkEntry (nextEntryId s) now (w ?? 2000) b]).

Lemma enqueue_cases now s ln w b s' evs :
  enqueueCommandInLane now s ln w b = (s', evs) →
  (gatewayDraining s = true ∧ s' = s ∧ evs = [EvGatewayDrainingError]) ∨
  (gatewayDraining s = false ∧ evs = [] ∧
   s' = touch (bumpEntry s) (normalizeLane ln) (pushed now s ln w b)).
Proof.
  unfold enqueueCommandInLane. destruct (gatewayDraining s) eqn:E.
  { intros; simplify_eq; by left. }
  unfold touch, pushed, bumpEntry, getLaneState, lane_of. simpl.
  destruct (oget (lanes s) (normalizeLane ln)) eqn:E2; intros; simplify_eq/=; right;
    split_and!; try done; by rewrite ?E2.
Qed.

Lemma setConcurrency_touch s ln n :
  setCommandLaneConcurrency s ln n =
    let st := lane_of s (normalizeLane ln) in
    touch s (normalizeLane ln)
      (mkLane (lane st) (queue st) (activeTaskIds st)
         (math_max (num_of_Z 1) (math_floor n)) (draining st) (generation st)).
Proof.
  unfold setCommandLaneConcurrency, touch, getLaneState, lane_of.
  by destruct (oget (lanes s) (normalizeLane ln)).
Qed.

Lemma clear_cases s ln n s' evs :
  clearCommandLane s ln = (n, s', evs) →
  (queue (lane_of s (normalizeLane ln)) = [] ∧ s' = s ∧ evs = []) ∨
  (let st := lane_of s (normalizeLane ln) in
   s' = put_lane s (normalizeLane ln) (set_queue st []) ∧
   evs = (λ e, EvSettle (entryId e) (Rejected (CommandLaneClearedError (normalizeLane ln))))
           <$> queue st).
Proof.
  unfold clearCommandLane, lane_of.
  destruct (oget (lanes s) (normalizeLane ln)); intros; simplify_eq; [by right|by left].
Qed.

Lemma resetAllLanes_lane s ln :
  lane_of (resetAllLanes s) ln =
    match oget (lanes s) ln with Some st => resetLane st | None => freshLane ln end.
Proof.
  unfold lane_of, resetAllLanes. simpl. rewrite oget_omap_values.
  by destruct (oget (lanes s) ln).
Qed.

Lemma startNext_lane now s ln st e q ln' :
  lane_of (startNext now s ln st e q).1 ln' =
    if decide (ln = ln') then
      mkLane (lane st) q (activeTaskIds st ++ [nextTaskId s]) (maxConcurrent st)
        (draining st) (generation st)
    else lane_of s ln'.
Proof. unfold startNext, lane_of. simpl. rewrite oget_oset. by case_decide. Qed.

Lemma pumpExit_lane s ln o k ln' :
  lane_of (pumpExit s ln o k).1 ln' =
    if decide (ln = ln') then set_draining (lane_of s ln) false else lane_of s ln'.
Proof.
  unfold pumpExit, lane_of. simpl. rewrite oget_oupd. case_decide; subst; [|done].
  by destruct (oget (lanes s) ln').
Qed.

(** The four things the code on top of the stack can do. *)
Lemma runTop_cases now s s' evs :
  runTop now s = Some (s', evs) →
  (∃ ln o k e q, stack s = KPump ln o :: k ∧ canStart (lane_of s ln) = true ∧
     queue (lane_of s ln) = e :: q ∧ oget (lanes s) ln = Some (lane_of s ln) ∧
     (s', evs) = startNext now s ln (lane_of s ln) e q) ∨
  (∃ ln o k, stack s = KPump ln o :: k ∧ canStart (lane_of s ln) = false ∧
     (s', evs) = pumpExit s ln o k) ∨
  (∃ ln k, stack s = KDrain ln :: k ∧ s' = drainLane (set_stack s k) ln ∧ evs = []) ∨
  (∃ k, stack s = KNotify :: k ∧ (s', evs) = notifyActiveTaskWaiters (set_stack s k)).
Proof.
  unfold runTop. destruct (stack s) as [|[ln o|ln|] k] eqn:Ek; [done| | |].
  - unfold lane_of. destruct (oget (lanes s) ln) as [st|] eqn:El; simpl.
    + destruct (canStart st) eqn:Ec.
      * destruct (queue st) as [|e q] eqn:Eq.
        { unfold canStart in Ec. rewrite Eq in Ec. by rewrite andb_false_r in Ec. }
        intros [= <- <-]. left. exists ln, o, k, e, q. rewrite El. simpl.
        by split_and!.
      * intros [= <- <-]. right. left. exists ln, o, k. rewrite El. simpl.
        by split_and!.
    + intros [= <- <-]. right. left. exists ln, o, k. rewrite El. simpl.
      by split_and!.
  - intros [= <- <-]. right. right. left. by exists ln, k.
  - intros [= <- <-]. right. right. right. by exists k.
Qed.

Lemma taskSettled_cases s f o s' evs :
  taskSettled s f o = (s', evs) →
  let rest := List.filter (λ g, negb (if_taskId g =? if_taskId f)) (inflight s) in
  let s0 := mkState (gatewayDraining s) (lanes s) (activeTaskWaiters s) (nextTaskId s)
              (nextEntryId s) (nextWaiterId s) rest (stack s) in
  let st := lane_of s (if_lane f) in
  (s' = s0 ∧ evs = [EvSettle (if_entry f) o] ∧
     (oget (lanes s) (if_lane f) = None ∨ if_generation f ≠ generation st)) ∨
  (if_generation f = generation st ∧
   let s1 := put_lane s0 (if_lane f)
               (set_active st (removeId (if_taskId f) (activeTaskIds st))) in
   s' = set_stack (notifyActiveTaskWaiters s1).1
          (KPump (if_lane f) (Some (if_entry f, o)) :: stack s) ∧
   evs = (notifyActiveTaskWaiters s1).2).
Proof.
  unfold taskSettled, lane_of, completeTask. simpl.
  destruct (oget (lanes s) (if_lane f)) as [st|] eqn:El; simpl; [|intros; simplify_eq; auto].
  destruct (Z.eqb_spec (if_generation f) (generation st)); simpl; intros; simplify_eq; auto 10.
Qed.

(** ** No lost wake-ups

    A lane that could start an entry has a pump, or a drain, on the call stack;
    the [draining] flag is set only while a pump of the lane is. *)

Definition pumping (ln : string) (k : list Cont) : Prop := ∃ o, KPump ln o ∈ k.
Definition pending (ln : string) (k : list Cont) : Prop := pumping ln k ∨ KDrain ln ∈ k.

Record ctrl_inv (s : QueueState) : Prop := {
  ci_wf : lanes_wf s;
  ci_work ln : canStart (lane_of s ln) = true → pending ln (stack s);
  ci_drain ln : draining (lane_of s ln) = true → pumping ln (stack s);
}.

Lemma pumping_cons ln c k : pumping ln k → pumping ln (c :: k).
Proof. intros [o H]. exists o. by right. Qed.
Lemma pending_cons ln c k : pending ln k → pending ln (c :: k).
Proof. intros [H|H]; [left; by apply pumping_cons|right; by right]. Qed.
Lemma pumping_here ln o k : pumping ln (KPump ln o :: k).
Proof. exists o. by left. Qed.
#[local] Hint Resolve pumping_cons pending_cons pumping_here : core.

Lemma pumping_inv_other ln ln' o k : pumping ln (KPump ln' o :: k) → ln ≠ ln' → pumping ln k.
Proof. intros [o' [?|H]%elem_of_cons] Hne; [congruence|by exists o']. Qed.
Lemma pumping_inv_drain ln ln' k : pumping ln (KDrain ln' :: k) → pumping ln k.
Proof. intros [o' [?|H]%elem_of_cons]; [congruence|by exists o']. Qed.
Lemma pumping_inv_notify ln k : pumping ln (KNotify :: k) → pumping ln k.
Proof. intros [o' [?|H]%elem_of_cons]; [congruence|by exists o']. Qed.
Lemma pending_inv_other ln ln' o k : pending ln (KPump ln' o :: k) → ln ≠ ln' → pending ln k.
Proof.
  intros [Hp|Hd] Hne; [left; by eapply pumping_inv_other|].
  apply elem_of_cons in Hd as [?|?]; [congruence|by right].
Qed.
Lemma pending_inv_drain ln ln' k : pending ln (KDrain ln' :: k) → ln ≠ ln' → pending ln k.
Proof.
  intros [Hp|Hd] Hne; [left; by eapply pumping_inv_drain|].
  apply elem_of_cons in Hd as [?|?]; [congruence|by right].
Qed.
Lemma pending_inv_notify ln k : pending ln (KNotify :: k) → pending ln k.
Proof.
  intros [Hp|Hd]; [left; by apply pumping_inv_notify|].
  apply elem_of_cons in Hd as [?|?]; [congruence|by right].
Qed.

Lemma ctrl_same_lanes s s' :
  ctrl_inv s → lanes s' = lanes s → (∀ c, c ∈ stack s → c ∈ stack s') → ctrl_inv s'.
Proof.
  intros [[Hwf Hn] Hw Hd] Hl Hs.
  assert (∀ ln, lane_of s' ln = lane_of s ln) as Heq by (intros; unfold lane_of; by rewrite Hl).
  split; [unfold lanes_wf; by rewrite Hl| |]; intros ln; rewrite Heq; intros H.
  - destruct (Hw _ H) as [[o ?]|?]; [left; exists o|right]; auto.
  - destruct (Hd _ H) as [o ?]. exists o. auto.
Qed.

Lemma touch_ctrl s ln st' :
  ctrl_inv s → lane st' = ln → draining st' = draining (lane_of s ln) →
  ctrl_inv (touch s ln st').
Proof.
  intros [Hwf Hw Hd] Hl Hdr. split; [by apply touch_wf| |]; intros ln';
    rewrite touch_lane, touch_stack by done;
    destruct (draining (lane_of s ln)) eqn:E; case_decide; subst; intros Hx; auto.
  - left. by apply Hd.
  - by left.
Qed.

Lemma drainLane_ctrl s ln k :
  ctrl_inv s → stack s = KDrain ln :: k → ctrl_inv (drainLane (set_stack s k) ln).
Proof.
  intros [Hwf Hw Hd] Hs. rewrite Hs in Hw, Hd.
  assert (∀ x, lane_of (set_stack s k) x = lane_of s x) as Heq by done.
  split; [by apply drainLane_wf| |]; intros ln';
    rewrite drainLane_lane, drainLane_stack, !Heq; simpl;
    destruct (draining (lane_of s ln)) eqn:E; case_decide; subst; intros Hx; auto.
  - left. by apply (pumping_inv_drain _ ln'), Hd.
  - apply (pending_inv_drain _ ln); auto.
  - by left.
  - apply pending_cons, (pending_inv_drain _ ln); auto.
  - by apply (pumping_inv_drain _ ln'), Hd.
  - by apply (pumping_inv_drain _ ln), Hd.
  - apply pumping_cons, (pumping_inv_drain _ ln); auto.
Qed.

Lemma startNext_ctrl now s ln o k e q :
  ctrl_inv s → stack s = KPump ln o :: k →
  ctrl_inv (startNext now s ln (lane_of s ln) e q).1.
Proof.
  intros [Hwf Hw Hd] Hs.
  assert (stack (startNext now s ln (lane_of s ln) e q).1 = stack s) as Hs' by done.
  split.
  - refine (lanes_wf_put s ln _ Hwf _). by apply lane_of_name.
  - intros ln'. rewrite startNext_lane, Hs'. case_decide; [|apply Hw].
    subst. rewrite Hs. left. auto.
  - intros ln'. rewrite startNext_lane, Hs'. case_decide; [|apply Hd].
    subst. rewrite Hs. auto.
Qed.

Lemma pumpExit_ctrl s ln o k :
  ctrl_inv s → stack s = KPump ln o :: k → canStart (lane_of s ln) = false →
  ctrl_inv (pumpExit s ln o k).1.
Proof.
  intros [[Hwf Hn] Hw Hd] Hs Hc. rewrite Hs in Hw, Hd. split.
  - split; simpl; [by apply owf_oupd|]. intros ln' st'. rewrite oget_oupd. case_decide; [|auto].
    subst. destruct (oget (lanes s) ln') eqn:E; [|done]. intros; simplify_eq/=. eauto.
  - intros ln'. rewrite pumpExit_lane. case_decide; subst; intros Hx.
    + change (canStart (lane_of s ln') = true) in Hx. congruence.
    + simpl. apply (pending_inv_other _ ln o); [by apply Hw|done].
  - intros ln'. rewrite pumpExit_lane. case_decide; subst; intros Hx; [done|].
    simpl. apply (pumping_inv_other _ ln o); [by apply Hd|done].
Qed.

Lemma notify_ctrl s : ctrl_inv s → ctrl_inv (notifyActiveTaskWaiters s).1.
Proof. intros H. by apply (ctrl_same_lanes s). Qed.

Lemma notify_run_ctrl s k :
  ctrl_inv s → stack s = KNotify :: k → ctrl_inv (notifyActiveTaskWaiters (set_stack s k)).1.
Proof.
  intros [Hwf Hw Hd] Hs. apply notify_ctrl. rewrite Hs in Hw, Hd.
  split; [done| |]; intros ln Hx; simpl.
  - by apply pending_inv_notify, Hw.
  - by apply pumping_inv_notify, Hd.
Qed.

Lemma clear_ctrl s ln st' :
  ctrl_inv s → lane st' = ln → canStart st' = false → draining st' = draining (lane_of s ln) →
  ctrl_inv (put_lane s ln st').
Proof.
  intros [Hwf Hw Hd] Hl Hc Hdr. split; [by apply lanes_wf_put| |]; intros ln';
    rewrite lane_of_put; case_decide; subst; intros Hx; simpl; auto; try congruence.
  apply Hd. congruence.
Qed.

Lemma reset_ctrl s : ctrl_inv s → ctrl_inv (resetAllLanes s).
Proof.
  intros [[Hwf Hn] Hw Hd]. split.
  - split; simpl.
    + unfold owf. by rewrite okeys_omap_values.
    + intros ln st. rewrite oget_omap_values. destruct (oget (lanes s) ln) eqn:E; [|done].
      simpl. intros; simplify_eq/=. eauto.
  - intros ln. rewrite resetAllLanes_lane. destruct (oget (lanes s) ln) as [st|] eqn:E; [|done].
    unfold canStart. simpl. intros [_ Hq]%andb_true_iff. right. simpl.
    apply elem_of_app. left. apply list_elem_of_fmap. exists ln. split; [done|].
    apply list_elem_of_fmap. exists st. split; [symmetry; eauto|].
    apply list_elem_of_In, filter_In. split; [|done].
    apply oget_In in E. by apply (in_map snd) in E.
  - intros ln. rewrite resetAllLanes_lane. by destruct (oget (lanes s) ln).
Qed.

Lemma taskSettled_ctrl s f o s' evs :
  ctrl_inv s → taskSettled s f o = (s', evs) → ctrl_inv s'.
Proof.
  intros Hi [(-> & _)|(_ & -> & _)]%taskSettled_cases; [by apply (ctrl_same_lanes s)|].
  destruct Hi as [Hwf Hw Hd].
  match goal with |- ctrl_inv (set_stack (notifyActiveTaskWaiters ?x).1 _) => set (s1 := x) end.
  assert (∀ ln, lane_of (set_stack (notifyActiveTaskWaiters s1).1
      (KPump (if_lane f) (Some (if_entry f, o)) :: stack s)) ln = lane_of s1 ln) as Heq by done.
  split; [|intros ln; rewrite Heq; unfold s1; rewrite lane_of_put; case_decide; subst;
           intros Hx; simpl; auto..].
  - refine (lanes_wf_put s (if_lane f) _ Hwf _). simpl. by apply lane_of_name.
  - by left.
Qed.

Lemma ctrl_step s l s' evs : ctrl_inv s → step s l s' evs → ctrl_inv s'.
Proof.
  intros Hi Hs. step_inv Hs.
  - apply enqueue_cases in He as [(_ & -> & _)|(_ & _ & ->)]; [done|].
    apply touch_ctrl; [by apply (ctrl_same_lanes s)| |done].
    simpl. apply lane_of_name, Hi.
  - rewrite setConcurrency_touch. simpl. apply touch_ctrl; [done| |done].
    simpl. apply lane_of_name, Hi.
  - apply clear_cases in He as [(_ & -> & _)|(-> & _)]; [done|].
    apply clear_ctrl; [done|simpl; apply lane_of_name, Hi| |done].
    unfold canStart. simpl. by rewrite andb_false_r.
  - by apply reset_ctrl.
  - by apply (ctrl_same_lanes s).
  - unfold waitForActiveTasks, notifyActiveTaskWaiters in He.
    case_match; [|case_match]; simplify_eq/=; by apply (ctrl_same_lanes s).
  - unfold waiterTimeout in He. case_match; simplify_eq; [by apply (ctrl_same_lanes s)|done].
  - by eapply taskSettled_ctrl.
  - apply runTop_cases in He as
      [(ln & o & k & e & q & Hk & _ & _ & _ & He)|[(ln & o & k & Hk & Hc & He)
      |[(ln & k & Hk & -> & _)|(k & Hk & He)]]].
    + split_pair He. by apply (startNext_ctrl now s ln o k e q Hi Hk).
    + split_pair He. by apply (pumpExit_ctrl s ln o k Hi Hk Hc).
    + by apply drainLane_ctrl.
    + split_pair He. by apply notify_run_ctrl.
Qed.

Lemma ctrl_init : ctrl_inv initState.
Proof. split; [split; [apply owf_nil|done]|done|done]. Qed.

Lemma run_ctrl ls evs s : run ls evs s → ctrl_inv s.
Proof. induction 1; [apply ctrl_init|by eapply ctrl_step]. Qed.

(** ** Slots are held by the in-flight tasks of the current generation *)

Definition current (s : QueueState) (ln : string) (f : Inflight) : bool :=
  String.eqb (if_lane f) ln && (if_generation f =? generation (lane_of s ln)).

Record slot_inv (s : QueueState) : Prop := {
  si_active ln :
    activeTaskIds (lane_of s ln) = if_taskId <$> List.filter (current s ln) (inflight s);
  si_nodup : NoDup (if_taskId <$> inflight s);
  si_next f : f ∈ inflight s → if_taskId f < nextTaskId s;
  si_gen f : f ∈ inflight s → 0 <= if_generation f <= generation (lane_of s (if_lane f));
}.

(** Two states whose lanes have the same slots. *)
Definition same_slots (s s' : QueueState) : Prop :=
  ∀ ln, activeTaskIds (lane_of s' ln) = activeTaskIds (lane_of s ln) ∧
        generation (lane_of s' ln) = generation (lane_of s ln).

Lemma current_ext s s' ln :
  same_slots s s' → current s' ln = current s ln.
Proof. intros H. unfold current. by rewrite (proj2 (H ln)). Qed.

Lemma slot_ext s s' :
  slot_inv s → same_slots s s' → inflight s' = inflight s → nextTaskId s' = nextTaskId s →
  slot_inv s'.
Proof.
  intros [Ha Hn Hx Hg] Hs Hi Ht. split; rewrite ?Hi, ?Ht; auto.
  - intros ln. by rewrite (proj1 (Hs ln)), (current_ext s s').
  - intros f Hf. rewrite (proj2 (Hs _)). auto.
Qed.

Lemma same_slots_put s ln st' :
  activeTaskIds st' = activeTaskIds (lane_of s ln) →
  generation st' = generation (lane_of s ln) → same_slots s (put_lane s ln st').
Proof. intros Ha Hg ln'. rewrite lane_of_put. by case_decide; subst. Qed.

Lemma same_slots_touch s ln st' :
  activeTaskIds st' = activeTaskIds (lane_of s ln) →
  generation st' = generation (lane_of s ln) → same_slots s (touch s ln st').
Proof. intros Ha Hg ln'. rewrite touch_lane. by case_decide; subst. Qed.

Lemma filter_remove_comm (c : Inflight → bool) i l :
  if_taskId <$> List.filter c (List.filter (λ g, negb (if_taskId g =? i)) l) =
  removeId i (if_taskId <$> List.filter c l).
Proof.
  induction l as [|g l IH]; simpl; [done|].
  destruct (Z.eqb_spec (if_taskId g) i) as [He|He]; simpl.
  - destruct (c g); simpl; [|done]. by rewrite (proj2 (Z.eqb_eq _ _) He).
  - destruct (c g); simpl; [|done]. rewrite (proj2 (Z.eqb_neq _ _) He). simpl. by f_equal.
Qed.

Lemma removeId_absent i l : i ∉ l → removeId i l = l.
Proof.
  induction l as [|x l IH]; simpl; [done|]. intros [Hne Hni]%not_elem_of_cons.
  rewrite (proj2 (Z.eqb_neq x i)) by congruence. simpl. by rewrite IH.
Qed.

Lemma inflight_unique s f g :
  slot_inv s → f ∈ inflight s → g ∈ inflight s → if_taskId f = if_taskId g → f = g.
Proof.
  intros [_ Hn _ _] Hf Hg Heq. induction (inflight s) as [|x l IH]; [by apply elem_of_nil in Hf|].
  simpl in Hn. apply NoDup_cons in Hn as [Hni Hn].
  apply elem_of_cons in Hf as [->|Hf], Hg as [->|Hg]; auto; exfalso; apply Hni;
    apply list_elem_of_fmap; eauto.
Qed.

Lemma remove_slots s f ln :
  slot_inv s → f ∈ inflight s → current s ln f = false →
  removeId (if_taskId f) (activeTaskIds (lane_of s ln)) = activeTaskIds (lane_of s ln).
Proof.
  intros Hi Hf Hc. apply removeId_absent. rewrite (si_active s Hi).
  intros (g & Hid & Hg)%list_elem_of_fmap. apply list_elem_of_In, filter_In in Hg as [Hg Hcg].
  apply list_elem_of_In in Hg. rewrite (inflight_unique s f g) in Hc by done. congruence.
Qed.

Lemma slot_remove s f s' :
  slot_inv s → f ∈ inflight s →
  (∀ ln, generation (lane_of s' ln) = generation (lane_of s ln)) →
  (∀ ln, activeTaskIds (lane_of s' ln) =
         removeId (if_taskId f) (activeTaskIds (lane_of s ln))) →
  inflight s' = List.filter (λ g, negb (if_taskId g =? if_taskId f)) (inflight s) →
  nextTaskId s' = nextTaskId s → slot_inv s'.
Proof.
  intros Hi Hf Hgen Hact Hinf Hnext.
  assert (∀ g, g ∈ inflight s' → g ∈ inflight s) as Hsub.
  { intros g. rewrite Hinf, !list_elem_of_In. by intros [? _]%filter_In. }
  destruct Hi as [Ha Hn Hx Hg]. split.
  - intros ln. rewrite Hact, Ha, Hinf, filter_remove_comm. do 2 f_equal.
    apply filter_ext_Forall, Forall_forall. intros g _. unfold current. by rewrite Hgen.
  - rewrite Hinf. clear -Hn. induction (inflight s) as [|x l IH]; simpl in *; [done|].
    apply NoDup_cons in Hn as [Hni Hn]. destruct (negb _); simpl; [|auto].
    apply NoDup_cons. split; [|auto]. intros (g & He & Hg)%list_elem_of_fmap. apply Hni.
    apply list_elem_of_fmap. exists g. split; [done|].
    apply list_elem_of_In in Hg. apply filter_In in Hg as [? _]. by apply list_elem_of_In.
  - intros g ?. rewrite Hnext. auto.
  - intros g ?. rewrite Hgen. auto.
Qed.

Lemma startNext_slot now s ln e q :
  slot_inv s → 0 <= generation (lane_of s ln) →
  slot_inv (startNext now s ln (lane_of s ln) e q).1.
Proof.
  intros [Ha Hn Hx Hg] H0.
  assert (∀ ln', generation (lane_of (startNext now s ln (lane_of s ln) e q).1 ln') =
                 generation (lane_of s ln')) as Hgen.
  { intros ln'. rewrite startNext_lane. by case_decide; subst. }
  assert (∀ ln', current (startNext now s ln (lane_of s ln) e q).1 ln' = current s ln') as Hcur.
  { intros ln'. unfold current. by rewrite Hgen. }
  split.
  - intros ln'. rewrite Hcur, startNext_lane. simpl. rewrite List.filter_app, fmap_app, <- Ha.
    simpl. unfold current at 1. simpl. case_decide; subst.
    + by rewrite String.eqb_refl, Z.eqb_refl.
    + rewrite (proj2 (String.eqb_neq _ _)) by done. simpl. by rewrite app_nil_r.
  - simpl. rewrite fmap_app. simpl. apply NoDup_app. split; [done|].
    split; [|apply NoDup_singleton].
    intros x Hin ->%list_elem_of_singleton. apply list_elem_of_fmap in Hin as (f & Heq & Hf).
    apply Hx in Hf. lia.
  - simpl. intros f [Hf|Hf%list_elem_of_singleton]%elem_of_app; [apply Hx in Hf; lia|].
    subst f. simpl. lia.
  - intros f. rewrite Hgen. simpl. intros [Hf|Hf%list_elem_of_singleton]%elem_of_app; [auto|].
    subst f. simpl. lia.
Qed.

Definition gens_nonneg (s : QueueState) : Prop := ∀ ln, 0 <= generation (lane_of s ln).

Lemma reset_slot s : slot_inv s → gens_nonneg s → slot_inv (resetAllLanes s).
Proof.
  intros [Ha Hn Hx Hg] H0.
  assert (∀ ln, resetAllLanes s = resetAllLanes s ∧ (lane_of (resetAllLanes s) ln = lane_of s ln
      ∧ activeTaskIds (lane_of s ln) = [] ∧ oget (lanes s) ln = None
    ∨ lane_of (resetAllLanes s) ln = resetLane (lane_of s ln))) as Hl.
  { intros ln. split; [done|]. rewrite resetAllLanes_lane. unfold lane_of.
    destruct (oget (lanes s) ln); [by right|by left]. }
  split; [|done|done|].
  - intros ln. change (inflight (resetAllLanes s)) with (inflight s).
    destruct (proj2 (Hl ln)) as [(He & Hact & _)|He]; rewrite He.
    + rewrite Ha. f_equal. apply filter_ext_Forall, Forall_forall.
      intros g _. unfold current. by rewrite He.
    + simpl. assert (∀ l, (∀ f, f ∈ l → f ∈ inflight s) →
        [] = if_taskId <$> List.filter (current (resetAllLanes s) ln) l) as Hgen; [|by apply Hgen].
      induction l as [|f l IH]; intros Hsub; [done|]. simpl.
      unfold current at 1. rewrite He. simpl.
      destruct (String.eqb_spec (if_lane f) ln) as [<-|]; simpl.
      * destruct (Hg f) as [_ Hle]; [apply Hsub; by left|].
        rewrite (proj2 (Z.eqb_neq _ _)) by lia. apply IH. intros. apply Hsub. by right.
      * apply IH. intros. apply Hsub. by right.
  - intros f Hf. apply Hg in Hf. destruct (proj2 (Hl (if_lane f))) as [(He & _)|He];
      rewrite He; simpl; lia.
Qed.

Lemma gens_step s l s' evs : gens_nonneg s → step s l s' evs → gens_nonneg s'.
Proof.
  intros Hi Hs ln0. specialize (Hi ln0) as H0. step_inv Hs.
  - apply enqueue_cases in He as [(_ & -> & _)|(_ & _ & ->)]; [done|].
    rewrite touch_lane. case_decide; subst; simpl; auto.
  - rewrite setConcurrency_touch. simpl. rewrite touch_lane. case_decide; subst; simpl; auto.
  - apply clear_cases in He as [(_ & -> & _)|(-> & _)]; [done|].
    rewrite lane_of_put. case_decide; subst; simpl; auto.
  - rewrite resetAllLanes_lane. unfold lane_of in H0. destruct (oget (lanes s) ln0); simpl in *; lia.
  - done.
  - unfold waitForActiveTasks, notifyActiveTaskWaiters in He.
    case_match; [|case_match]; simplify_eq/=; done.
  - unfold waiterTimeout in He. case_match; by simplify_eq.
  - apply taskSettled_cases in He as [(-> & _)|(_ & -> & _)]; [done|].
    change (lane_of (set_stack (notifyActiveTaskWaiters ?a).1 _) ?b) with (lane_of a b).
    rewrite lane_of_put. case_decide; subst; simpl; auto.
  - apply runTop_cases in He as
      [(ln & o & k & e & q & Hk & _ & _ & _ & He)|[(ln & o & k & Hk & Hc & He)
      |[(ln & k & Hk & -> & _)|(k & Hk & He)]]].
    + split_pair He. rewrite startNext_lane.
      case_decide; subst; simpl; auto.
    + split_pair He. rewrite pumpExit_lane.
      case_decide; subst; simpl; auto.
    + rewrite drainLane_lane. case_decide; subst; simpl; auto.
    + by split_pair He.
Qed.

Lemma taskSettled_slot s f o s' evs :
  slot_inv s → f ∈ inflight s → taskSettled s f o = (s', evs) → slot_inv s'.
Proof.
  intros Hi Hf [(-> & _ & Hg)|(Hg & -> & _)]%taskSettled_cases; apply (slot_remove s f); auto.
  - intros ln. symmetry. refine (remove_slots s f ln Hi Hf _). unfold current.
    destruct (String.eqb_spec (if_lane f) ln) as [<-|]; [|done]. simpl.
    destruct Hg as [Hg|Hg]; [|by apply Z.eqb_neq].
    exfalso. pose proof (si_active s Hi (if_lane f)) as Ha. pose proof (si_gen s Hi f Hf) as Hge.
    unfold lane_of in Ha, Hge. rewrite Hg in Ha, Hge. simpl in Ha, Hge.
    assert (if_taskId f ∈ (if_taskId <$> List.filter (current s (if_lane f)) (inflight s))) as Hin.
    { apply list_elem_of_fmap. exists f. split; [done|]. apply list_elem_of_In, filter_In.
      split; [by apply list_elem_of_In|]. unfold current, lane_of. rewrite Hg. simpl.
      rewrite String.eqb_refl. simpl. lia. }
    rewrite <- Ha in Hin. by apply elem_of_nil in Hin.
  - intros ln. change (lane_of (set_stack (notifyActiveTaskWaiters ?a).1 _) ?b) with (lane_of a b).
    rewrite lane_of_put. by case_decide; subst.
  - intros ln. change (lane_of (set_stack (notifyActiveTaskWaiters ?a).1 _) ?b) with (lane_of a b).
    rewrite lane_of_put. case_decide; subst; [done|]. symmetry. refine (remove_slots s f ln Hi Hf _).
    unfold current. by rewrite (proj2 (String.eqb_neq _ _)).
Qed.

Lemma slot_step s l s' evs : slot_inv s → gens_nonneg s → step s l s' evs → slot_inv s'.
Proof.
  intros Hi H0 Hs. step_inv Hs.
  - apply enqueue_cases in He as [(_ & -> & _)|(_ & _ & ->)]; [done|].
    pose proof (touch_rest (bumpEntry s) (normalizeLane ln) (pushed now s ln w b)) as Hr.
    destruct Hr as (Hr1 & Hr2 & Hr3 & Hr4 & Hr5 & Hr6); simpl in *.
    apply (slot_ext s); auto. intros ln'. by apply (same_slots_touch (bumpEntry s)).
  - rewrite setConcurrency_touch. simpl.
    match goal with |- slot_inv (touch ?a ?b ?c) => pose proof (touch_rest a b c) as Hr end.
    destruct Hr as (Hr1 & Hr2 & Hr3 & Hr4 & Hr5 & Hr6). apply (slot_ext s); auto. by apply same_slots_touch.
  - apply clear_cases in He as [(_ & -> & _)|(-> & _)]; [done|].
    apply (slot_ext s); auto. by apply same_slots_put.
  - by apply reset_slot.
  - by apply (slot_ext s).
  - unfold waitForActiveTasks, notifyActiveTaskWaiters in He.
    case_match; [|case_match]; simplify_eq/=; by apply (slot_ext s).
  - unfold waiterTimeout in He. case_match; simplify_eq; [by apply (slot_ext s)|done].
  - by eapply taskSettled_slot.
  - apply runTop_cases in He as
      [(ln & o & k & e & q & Hk & _ & _ & _ & He)|[(ln & o & k & Hk & Hc & He)
      |[(ln & k & Hk & -> & _)|(k & Hk & He)]]].
    + split_pair He. by apply (startNext_slot now s ln e q Hi (H0 ln)).
    + split_pair He. apply (slot_ext s); auto.
      intros ln'. rewrite pumpExit_lane. by case_decide; subst.
    + destruct (drainLane_rest (set_stack s k) ln) as (_ & _ & ? & _ & _ & ?).
      apply (slot_ext s); auto. intros ln'. rewrite drainLane_lane. by case_decide; subst.
    + split_pair He. by apply (slot_ext s).
Qed.

Lemma run_gens ls evs s : run ls evs s → gens_nonneg s.
Proof. induction 1; [done|by eapply gens_step]. Qed.

Lemma run_slot ls evs s : run ls evs s → slot_inv s.
Proof.
  induction 1 as [|ls evs s l s' evs' Hr IH Hs].
  - split; [done|constructor| |]; intros f Hf; by apply elem_of_nil in Hf.
  - eapply slot_step; eauto using run_gens.
Qed.

(** ** Waiters for active tasks

    Outside the drains of a reset, every registered waiter still waits for a task
    that holds a slot. *)

Definition waiters_ok (s : QueueState) : Prop :=
  ∀ w, w ∈ activeTaskWaiters s → waiterDone s w = false.

Definition waiter_inv (s : QueueState) : Prop := KNotify ∈ stack s ∨ waiters_ok s.

Lemma waiterDone_false s w :
  lanes_wf s →
  waiterDone s w = false ↔
  waiterTaskIds w ≠ [] ∧
  ∃ ln id, id ∈ activeTaskIds (lane_of s ln) ∧ id ∈ waiterTaskIds w.
Proof.
  intros Hwf. unfold waiterDone, hasPendingActiveTasks.
  rewrite orb_false_iff, negb_false_iff, existsb_exists, Nat.eqb_neq. split.
  - intros [Hl (st & Hst & (id & Hid & Hx)%existsb_exists)].
    split; [intros He; by rewrite He in Hl|]. apply bool_decide_eq_true in Hx. exists (lane st), id.
    rewrite ovalues_In by done. split; [by apply list_elem_of_In|done].
  - intros [Hne (ln & id & Hid & Hin)]. split; [by destruct (waiterTaskIds w)|].
    destruct (lane_of_In s ln) as [Hst|Hf]; [|rewrite Hf in Hid; by apply elem_of_nil in Hid].
    exists (lane_of s ln). split; [done|]. apply existsb_exists. exists id.
    split; [by apply list_elem_of_In|]. by apply bool_decide_eq_true.
Qed.

Lemma waiterDone_mono s s' w :
  lanes_wf s → lanes_wf s' →
  (∀ ln id, id ∈ activeTaskIds (lane_of s ln) → id ∈ activeTaskIds (lane_of s' ln)) →
  waiterDone s w = false → waiterDone s' w = false.
Proof.
  intros Hwf Hwf' Hsub [Hne (ln & id & Hid & Hin)]%waiterDone_false; [|done].
  apply waiterDone_false; [done|]. split; [done|]. exists ln, id. auto.
Qed.

Lemma waiter_mono s s' :
  waiter_inv s → lanes_wf s → lanes_wf s' →
  (∀ ln id, id ∈ activeTaskIds (lane_of s ln) → id ∈ activeTaskIds (lane_of s' ln)) →
  (∀ w, w ∈ activeTaskWaiters s' → w ∈ activeTaskWaiters s) →
  (KNotify ∈ stack s → KNotify ∈ stack s') → waiter_inv s'.
Proof.
  intros [Hk|Hw] Hwf Hwf' Hsub Hws Hst; [left; auto|right].
  intros w Hin. apply (waiterDone_mono s); auto.
Qed.

Lemma notify_ok s : waiters_ok (notifyActiveTaskWaiters s).1.
Proof.
  intros w Hw. unfold notifyActiveTaskWaiters in Hw. simpl in Hw.
  apply list_elem_of_In, filter_In in Hw as [_ Hw]. by apply negb_true_iff in Hw.
Qed.

Lemma waiter_step s l s' evs : waiter_inv s → ctrl_inv s → step s l s' evs → waiter_inv s'.
Proof.
  intros Hi Hc Hs. pose proof (ci_wf _ (ctrl_step _ _ _ _ Hc Hs)) as Hwf'.
  pose proof (ci_wf _ Hc) as Hwf. step_inv Hs.
  - apply enqueue_cases in He as [(_ & -> & _)|(_ & _ & ->)]; [done|].
    pose proof (touch_rest (bumpEntry s) (normalizeLane ln) (pushed now s ln w b)) as Hr.
    destruct Hr as (Hr1 & Hr2 & Hr3 & Hr4 & Hr5 & Hr6); simpl in *.
    apply (waiter_mono s); auto; [| |].
    + intros ln' id. rewrite touch_lane. by case_decide; subst.
    + intros w'. by rewrite Hr2.
    + by apply (touch_stack_mono (bumpEntry s)).
  - rewrite setConcurrency_touch in *. simpl in *.
    match goal with |- waiter_inv (touch ?a ?b ?c) =>
      pose proof (touch_rest a b c) as (_ & Hw & _) end.
    apply (waiter_mono s); auto; [| |].
    + intros ln' id. rewrite touch_lane. by case_decide; subst.
    + intros w'. by rewrite Hw.
    + by apply touch_stack_mono.
  - apply clear_cases in He as [(_ & -> & _)|(-> & _)]; [done|].
    apply (waiter_mono s); auto. intros ln' id. rewrite lane_of_put. by case_decide; subst.
  - left. simpl. apply elem_of_app. right. by left.
  - by apply (waiter_mono s).
  - unfold waitForActiveTasks in He.
    case_match; [simplify_eq; by apply (waiter_mono s)|].
    case_match; [simplify_eq; by apply (waiter_mono s)|].
    symmetry in He. split_pair He. right. apply notify_ok.
  - unfold waiterTimeout in He. case_match; simplify_eq; [|done].
    apply (waiter_mono s); auto. intros w. simpl. rewrite !list_elem_of_In.
    by intros [? _]%filter_In.
  - apply taskSettled_cases in He as [(-> & _)|(_ & -> & _)]; [by apply (waiter_mono s)|].
    right. apply (notify_ok (put_lane _ _ _)).
  - apply runTop_cases in He as
      [(ln & o & k & e & q & Hk & _ & _ & _ & He)|[(ln & o & k & Hk & Hcs & He)
      |[(ln & k & Hk & -> & _)|(k & Hk & He)]]]; try split_pair He.
    + apply (waiter_mono s); auto. intros ln' id. rewrite startNext_lane.
      case_decide; subst; [|done]. simpl. intros. apply elem_of_app. by left.
    + apply (waiter_mono s); auto.
      * intros ln' id. rewrite pumpExit_lane. by case_decide; subst.
      * rewrite Hk. simpl. intros [?|?]%elem_of_cons; [congruence|done].
    + destruct (drainLane_rest (set_stack s k) ln) as (_ & Hw & _).
      apply (waiter_mono s); auto.
      * intros ln' id. rewrite drainLane_lane. by case_decide; subst.
      * intros w. by rewrite Hw.
      * rewrite Hk, drainLane_stack. intros [?|?]%elem_of_cons; [congruence|].
        case_match; [done|by right].
    + right. apply notify_ok.
Qed.

Lemma run_waiter ls evs s : run ls evs s → waiter_inv s.
Proof.
  induction 1; [right; intros w Hw; by apply elem_of_nil in Hw|].
  eapply waiter_step; eauto using run_ctrl.
Qed.

(** ** Every promise is accounted for exactly once *)

Definition queuedIds (st : LaneState) : list nat := entryId <$> queue st.

Definition queued (s : QueueState) : list nat := flat_map queuedIds (ovalues (lanes s)).

Definition settling (k : list Cont) : list nat :=
  flat_map (λ c, match c with KPump _ (Some (id, _)) => [id] | _ => [] end) k.

Definition settled (evs : list Event) : list nat :=
  flat_map (λ e, match e with EvSettle id _ => [id] | _ => [] end) evs.

(** Where the promises are: queued, running, about to settle, settled. *)
Definition accounted (s : QueueState) (evs : list Event) : list nat :=
  queued s ++ (if_entry <$> inflight s) ++ settling (stack s) ++ settled evs.

Definition promise_inv (s : QueueState) (evs : list Event) : Prop :=
  accounted s evs ≡ₚ seq 0 (nextEntryId s).

Lemma settled_app e1 e2 : settled (e1 ++ e2) = settled e1 ++ settled e2.
Proof. apply flat_map_app. Qed.

Lemma queued_put s ln st' :
  queued (put_lane s ln st') ++ queuedIds (lane_of s ln) ≡ₚ queued s ++ queuedIds st'.
Proof.
  pose proof (flat_map_oset queuedIds (lanes s) ln st') as H. unfold lane_of.
  by destruct (oget (lanes s) ln).
Qed.

Lemma queued_put_same s ln st' :
  queue st' = queue (lane_of s ln) → queued (put_lane s ln st') ≡ₚ queued s.
Proof.
  intros Hq. pose proof (queued_put s ln st') as H. unfold queuedIds in H at 2.
  rewrite Hq in H. by apply Permutation_app_inv_r in H.
Qed.

Lemma queued_get s ln : queued (getLaneState s ln).2 ≡ₚ queued s.
Proof.
  unfold getLaneState. destruct (oget (lanes s) ln) eqn:E; [done|]. simpl.
  apply queued_put_same. unfold lane_of. by rewrite E.
Qed.

Lemma queued_drain s ln : queued (drainLane s ln) ≡ₚ queued s.
Proof.
  unfold drainLane. pose proof (queued_get s ln) as Hq. pose proof (lane_of_getLaneState s ln ln) as Hl.
  pose proof (getLaneState_fst s ln) as Hf. destruct (getLaneState s ln) as [st s1]. simpl in *.
  destruct (draining st); [done|]. rewrite <- Hq.
  apply (queued_put_same s1 ln). rewrite Hl. by subst st.
Qed.

Lemma queued_touch s ln st' :
  queued (touch s ln st') ++ queuedIds (lane_of s ln) ≡ₚ queued s ++ queuedIds st'.
Proof.
  unfold touch. rewrite queued_drain.
  rewrite <- (lane_of_getLaneState s ln ln), queued_put. by rewrite queued_get.
Qed.

Lemma settling_touch s ln st' :
  draining st' = draining (lane_of s ln) → settling (stack (touch s ln st')) = settling (stack s).
Proof. intros. rewrite touch_stack by done. by case_match. Qed.

Lemma settled_notify s : settled (notifyActiveTaskWaiters s).2 = [].
Proof. simpl. by induction (List.filter _ _). Qed.

Lemma remove_perm i l f :
  NoDup (if_taskId <$> l) → f ∈ l → if_taskId f = i →
  if_entry <$> l ≡ₚ if_entry f :: (if_entry <$> List.filter (λ g, negb (if_taskId g =? i)) l).
Proof.
  intros Hn Hf <-. induction l as [|x l IH]; [by apply elem_of_nil in Hf|]. simpl in *.
  apply NoDup_cons in Hn as [Hni Hn]. apply elem_of_cons in Hf as [->|Hf].
  - rewrite Z.eqb_refl. simpl. f_equiv.
    assert (∀ g, g ∈ l → if_taskId g ≠ if_taskId x) as Hne.
    { intros g Hg He. apply Hni, list_elem_of_fmap. eauto. }
    clear -Hne. induction l as [|g l IH]; simpl; [done|].
    rewrite (proj2 (Z.eqb_neq _ _)) by (apply Hne; by left). simpl. f_equiv. apply IH.
    intros. apply Hne. by right.
  - rewrite (proj2 (Z.eqb_neq (if_taskId x) _)).
    + simpl. rewrite (IH Hn Hf) at 1. solve_Permutation.
    + intros He. apply Hni, list_elem_of_fmap. eauto.
Qed.

Lemma queued_pumpExit s ln o k : queued (pumpExit s ln o k).1 ≡ₚ queued s.
Proof.
  unfold pumpExit, oupd. simpl. destruct (oget (lanes s) ln) eqn:E; [|done].
  apply (queued_put_same s ln). unfold lane_of. by rewrite E.
Qed.

Lemma queued_reset s : queued (resetAllLanes s) = queued s.
Proof.
  unfold queued. simpl. rewrite ovalues_omap_values.
  induction (ovalues (lanes s)) as [|st l IH]; simpl; [done|]. f_equal. apply IH.
Qed.

Lemma settling_app k1 k2 : settling (k1 ++ k2) = settling k1 ++ settling k2.
Proof. apply flat_map_app. Qed.

Lemma settling_drains l : settling (KDrain <$> l) = [].
Proof. by induction l. Qed.

Lemma settled_map (f : QueueEntry → Outcome) l :
  settled ((λ e, EvSettle (entryId e) (f e)) <$> l) = entryId <$> l.
Proof. induction l; simpl; [done|]. by f_equal. Qed.

(** A step that moves nothing. *)
Lemma promise_same s s' evs e :
  promise_inv s evs → queued s' ≡ₚ queued s → inflight s' = inflight s →
  settling (stack s') = settling (stack s) → settled e = [] →
  nextEntryId s' = nextEntryId s → promise_inv s' (evs ++ e).
Proof.
  unfold promise_inv, accounted. intros Hi Hq Hf Hk He Hn.
  by rewrite Hq, Hf, Hk, Hn, settled_app, He, app_nil_r.
Qed.

Lemma taskSettled_promise s evs f o s' e :
  promise_inv s evs → slot_inv s → f ∈ inflight s → taskSettled s f o = (s', e) →
  promise_inv s' (evs ++ e).
Proof.
  intros Hi Hsl Hf He. unfold promise_inv, accounted in *.
  pose proof (remove_perm (if_taskId f) _ f (si_nodup s Hsl) Hf eq_refl) as Hrm.
  apply taskSettled_cases in He as [(-> & -> & _)|(_ & -> & ->)]; rewrite settled_app; simpl.
  - rewrite Hrm in Hi. rewrite <- Hi. unfold queued. simpl. solve_Permutation.
  - match goal with |- queued ?a ++ _ ≡ₚ _ => assert (queued a ≡ₚ queued s) as Hq end.
    { by apply (queued_put_same s). }
    rewrite Hq. rewrite Hrm in Hi. rewrite <- Hi.
    match goal with |- context [settled (?g <$> ?l)] =>
      assert (settled (g <$> l) = []) as -> by (by induction l) end.
    solve_Permutation.
Qed.

Lemma promise_step s evs l s' e :
  promise_inv s evs → slot_inv s → step s l s' e → promise_inv s' (evs ++ e).
Proof.
  intros Hi Hsl Hs. step_inv Hs.
  - apply enqueue_cases in He as [(_ & -> & ->)|(_ & -> & ->)]; [by apply (promise_same s)|].
    pose proof (touch_rest (bumpEntry s) (normalizeLane ln) (pushed now s ln w b)) as Hr.
    destruct Hr as (Hr1 & Hr2 & Hr3 & Hr4 & Hr5 & Hr6); simpl in *. unfold promise_inv, accounted in *.
    rewrite Hr6, Hr4, (settling_touch (bumpEntry s)), app_nil_r, seq_S, <- Hi by done.
    apply (Permutation_app_inv_r (queuedIds (lane_of s (normalizeLane ln)))).
    pose proof (queued_touch (bumpEntry s) (normalizeLane ln) (pushed now s ln w b)) as Hq.
    change (lane_of (bumpEntry s)) with (lane_of s) in Hq.
    unfold pushed, queuedIds in Hq. simpl in Hq. rewrite fmap_app in Hq. simpl in Hq.
    rewrite <- app_assoc, (Permutation_app_comm _ (queuedIds _)), app_assoc.
    unfold queuedIds at 1, pushed. rewrite Hq.
    change (queued (bumpEntry s)) with (queued s). simpl. unfold queuedIds. solve_Permutation.
  - rewrite setConcurrency_touch. simpl.
    match goal with |- promise_inv (touch ?a ?b ?c) _ =>
      pose proof (touch_rest a b c) as Hr; pose proof (queued_touch a b c) as Hq end.
    destruct Hr as (Hr1 & Hr2 & Hr3 & Hr4 & Hr5 & Hr6). apply (promise_same s); auto.
    + by apply Permutation_app_inv_r in Hq.
    + by apply settling_touch.
  - apply clear_cases in He as [(_ & -> & ->)|(-> & ->)]; [by apply (promise_same s)|].
    unfold promise_inv, accounted in *. rewrite settled_app, settled_map.
    pose proof (queued_put s (normalizeLane ln)
      (set_queue (lane_of s (normalizeLane ln)) [])) as Hq.
    change (queuedIds (set_queue _ [])) with (@nil nat) in Hq. rewrite app_nil_r in Hq.
    rewrite <- Hi, <- Hq. simpl. unfold queuedIds. solve_Permutation.
  - apply (promise_same s); auto; [by rewrite queued_reset|].
    simpl. by rewrite settling_app, settling_drains.
  - by apply (promise_same s).
  - unfold waitForActiveTasks in He. case_match; [simplify_eq; by apply (promise_same s)|].
    case_match; [simplify_eq; by apply (promise_same s)|].
    symmetry in He. split_pair He. apply (promise_same s); auto. apply settled_notify.
  - unfold waiterTimeout in He. case_match; injection He as <- <-; by apply (promise_same s).
  - by eapply taskSettled_promise.
  - apply runTop_cases in He as
      [(ln & o & k & e1 & q & Hk & _ & Hq & _ & He)|[(ln & o & k & Hk & Hcs & He)
      |[(ln & k & Hk & -> & ->)|(k & Hk & He)]]]; try split_pair He.
    + unfold promise_inv, accounted in *. rewrite settled_app.
      assert (settled (startNext now s ln (lane_of s ln) e1 q).2 = []) as ->.
      { simpl. by destruct (_ && _). }
      pose proof (queued_put s ln (mkLane (lane (lane_of s ln)) q
        (activeTaskIds (lane_of s ln) ++ [nextTaskId s]) (maxConcurrent (lane_of s ln))
        (draining (lane_of s ln)) (generation (lane_of s ln)))) as Hp.
      unfold queuedIds in Hp. rewrite Hq in Hp. simpl in Hp.
      apply (Permutation_app_inv_r (entryId <$> q)). rewrite <- Hi. simpl. rewrite fmap_app.
      change (queued _) with (queued (put_lane s ln (mkLane (lane (lane_of s ln)) q
        (activeTaskIds (lane_of s ln) ++ [nextTaskId s]) (maxConcurrent (lane_of s ln))
        (draining (lane_of s ln)) (generation (lane_of s ln))))) at 1.
      transitivity ((queued s ++ (entryId <$> q)) ++ (if_entry <$> inflight s) ++
        settling (stack s) ++ settled evs); [|solve_Permutation].
      rewrite <- Hp. simpl. solve_Permutation.
    + unfold promise_inv, accounted in *. rewrite queued_pumpExit, settled_app, <- Hi, Hk.
      destruct o as [[id o]|]; simpl; solve_Permutation.
    + destruct (drainLane_rest (set_stack s k) ln) as (_ & _ & _ & ? & _ & ?).
      apply (promise_same s); auto; [exact (queued_drain (set_stack s k) ln)|].
      rewrite Hk, drainLane_stack. by case_match.
    + apply (promise_same s); auto; [by rewrite Hk|apply settled_notify].
Qed.

Lemma run_promise ls evs s : run ls evs s → promise_inv s evs.
Proof.
  induction 1; [apply perm_nil|]. eapply promise_step; eauto using run_slot.
Qed.

(** ** Entries of a lane start in the order in which they were enqueued *)

Definition started (ln : string) (evs : list Event) : list nat :=
  flat_map (λ e, match e with
                 | EvStart ln' id _ => if String.eqb ln' ln then [id] else []
                 | _ => [] end) evs.

Definition fifo_inv (s : QueueState) (evs : list Event) : Prop :=
  ∀ ln, StronglySorted lt (started ln evs ++ queuedIds (lane_of s ln)) ∧
        Forall (λ id, id < nextEntryId s)%nat (started ln evs ++ queuedIds (lane_of s ln)).

Lemma started_app ln e1 e2 : started ln (e1 ++ e2) = started ln e1 ++ started ln e2.
Proof. apply flat_map_app. Qed.

Lemma fifo_same s s' evs e :
  fifo_inv s evs → (∀ ln, started ln e = []) →
  (∀ ln, queuedIds (lane_of s' ln) = queuedIds (lane_of s ln)) →
  nextEntryId s' = nextEntryId s → fifo_inv s' (evs ++ e).
Proof.
  intros Hi He Hq Hn ln. rewrite started_app, He, app_nil_r, Hq, Hn. apply Hi.
Qed.

Lemma started_settles ln (f : QueueEntry → Outcome) l :
  started ln ((λ e, EvSettle (entryId e) (f e)) <$> l) = [].
Proof. by induction l. Qed.

Lemma started_notify ln s : started ln (notifyActiveTaskWaiters s).2 = [].
Proof.
  unfold notifyActiveTaskWaiters. cbn [snd].
  generalize (List.filter (waiterDone s) (activeTaskWaiters s)). intros l. by induction l.
Qed.

Lemma fifo_step s evs l s' e : fifo_inv s evs → step s l s' e → fifo_inv s' (evs ++ e).
Proof.
  intros Hi Hs. step_inv Hs.
  - apply enqueue_cases in He as [(_ & -> & ->)|(_ & -> & ->)]; [by apply (fifo_same s)|].
    pose proof (touch_rest (bumpEntry s) (normalizeLane ln) (pushed now s ln w b)) as Hr.
    destruct Hr as (_ & _ & _ & Hr & _). simpl in Hr.
    intros ln'. rewrite app_nil_r, touch_lane, Hr. destruct (Hi ln') as [Hss Hlt].
    assert (∀ l, Forall (λ id, id < nextEntryId s)%nat l →
                 Forall (λ id, id < S (nextEntryId s))%nat l) as Hmono.
    { intros l Hl. eapply Forall_impl; [exact Hl|]. intros; simpl in *; lia. }
    case_decide; subst; [|split; auto].
    unfold queuedIds, pushed. simpl. rewrite fmap_app, app_assoc. simpl. split.
    + apply StronglySorted_app. split_and!; [|done|repeat constructor].
      intros x y Hx ->%list_elem_of_singleton. rewrite Forall_forall in Hlt. by apply Hlt.
    + apply Forall_app. split; [by apply Hmono|]. by repeat constructor.
  - rewrite setConcurrency_touch. simpl.
    match goal with |- fifo_inv (touch ?a ?b ?c) _ =>
      destruct (touch_rest a b c) as (_ & _ & _ & Hr & _) end.
    apply (fifo_same s); auto. intros ln'. rewrite touch_lane. by case_decide; subst.
  - apply clear_cases in He as [(_ & -> & ->)|(-> & ->)]; [by apply (fifo_same s)|].
    intros ln'. rewrite started_app, lane_of_put, started_settles, app_nil_r. destruct (Hi ln') as [Hss Hlt]. case_decide; subst; [|done].
    change (queuedIds (set_queue _ [])) with (@nil nat). rewrite app_nil_r.
    apply StronglySorted_app in Hss as (_ & ? & _). by apply Forall_app in Hlt as [? _].
  - apply (fifo_same s); auto. intros ln. rewrite resetAllLanes_lane. unfold lane_of.
    by destruct (oget (lanes s) ln).
  - by apply (fifo_same s).
  - unfold waitForActiveTasks in He. case_match; [simplify_eq; by apply (fifo_same s)|].
    case_match; [simplify_eq; by apply (fifo_same s)|].
    symmetry in He. split_pair He. apply (fifo_same s); auto.
    intros ln. apply started_notify.
  - unfold waiterTimeout in He. case_match; injection He as <- <-; by apply (fifo_same s).
  - apply taskSettled_cases in He as [(-> & -> & _)|(_ & -> & ->)]; [by apply (fifo_same s)|].
    apply (fifo_same s); auto.
    + intros ln. apply (started_notify ln (put_lane _ _ _)).
    + intros ln.
      change (lane_of (set_stack (notifyActiveTaskWaiters ?a).1 _) ?b) with (lane_of a b).
      rewrite lane_of_put. by case_decide; subst.
  - apply runTop_cases in He as
      [(ln & o & k & e1 & q & Hk & _ & Hq & _ & He)|[(ln & o & k & Hk & Hcs & He)
      |[(ln & k & Hk & -> & ->)|(k & Hk & He)]]]; try split_pair He.
    + intros ln'. rewrite startNext_lane, started_app. destruct (Hi ln') as [Hss Hlt].
      assert (started ln' (startNext now s ln (lane_of s ln) e1 q).2 =
        if String.eqb ln ln' then [entryId e1] else []) as ->.
      { unfold startNext. cbn [snd]. rewrite started_app.
        destruct (_ && _); simpl; by rewrite app_nil_r. }
      destruct (String.eqb_spec ln ln') as [->|Hne].
      * rewrite decide_True by done. unfold queuedIds in *. rewrite Hq in Hss, Hlt. simpl in *.
        by rewrite <- app_assoc.
      * rewrite decide_False by done. by rewrite app_nil_r.
    + apply (fifo_same s); auto.
      * intros ln'. simpl. by destruct o as [[]|].
      * intros ln'. rewrite pumpExit_lane. by case_decide; subst.
    + destruct (drainLane_rest (set_stack s k) ln) as (_ & _ & _ & ? & _ & ?).
      apply (fifo_same s); auto. intros ln'. rewrite drainLane_lane. by case_decide; subst.
    + apply (fifo_same s); auto. intros ln. apply started_notify.
Qed.

Lemma run_fifo ls evs s : run ls evs s → fifo_inv s evs.
Proof.
  induction 1; [intros ln; split; constructor|]. by eapply fifo_step.
Qed.

(** ** Concurrency bounds *)

(** No number of running tasks from [M] on lets the lane start another one. *)
Definition caps (M : Z) (n : num) : Prop := ∀ k, M <= k → num_ltb (num_of_Z k) n = false.

(** [M] bounds every concurrency the labels ask for lane [ln]. *)
Definition label_caps (M : Z) (ln : string) (l : Label) : Prop :=
  match l with
  | LSetConcurrency ln' n =>
      normalizeLane ln' = ln → caps M (math_max (num_of_Z 1) (math_floor n))
  | _ => True
  end.

Definition cap_inv (M : Z) (ln : string) (s : QueueState) : Prop :=
  caps M (maxConcurrent (lane_of s ln)) ∧
  Z.of_nat (length (activeTaskIds (lane_of s ln))) <= M.

Lemma removeId_length i l : (length (removeId i l) <= length l)%nat.
Proof. apply filter_length_le. Qed.

Lemma cap_same M ln s s' :
  cap_inv M ln s →
  maxConcurrent (lane_of s' ln) = maxConcurrent (lane_of s ln) →
  (length (activeTaskIds (lane_of s' ln)) <= length (activeTaskIds (lane_of s ln)))%nat →
  cap_inv M ln s'.
Proof. intros [Hc Ha] Hm Hl. split; [by rewrite Hm|lia]. Qed.

Lemma cap_step M ln0 s l s' e :
  cap_inv M ln0 s → label_caps M ln0 l → step s l s' e → cap_inv M ln0 s'.
Proof.
  intros Hi Hl Hs. step_inv Hs.
  - apply enqueue_cases in He as [(_ & -> & ->)|(_ & -> & ->)]; [done|].
    apply (cap_same _ _ s); auto; rewrite touch_lane; by case_decide; subst.
  - rewrite setConcurrency_touch. simpl in *. unfold cap_inv. rewrite touch_lane.
    case_decide; subst; simpl; [|done]. split; [by apply Hl|apply Hi].
  - apply clear_cases in He as [(_ & -> & ->)|(-> & ->)]; [done|].
    apply (cap_same _ _ s); auto; rewrite lane_of_put; by case_decide; subst.
  - apply (cap_same _ _ s); auto; rewrite resetAllLanes_lane; unfold lane_of;
      destruct (oget (lanes s) ln0); simpl; auto with lia.
  - done.
  - unfold waitForActiveTasks, notifyActiveTaskWaiters in He.
    case_match; [|case_match]; simplify_eq/=; done.
  - unfold waiterTimeout in He. case_match; injection He as <- <-; done.
  - apply taskSettled_cases in He as [(-> & -> & _)|(_ & -> & ->)]; [done|].
    apply (cap_same _ _ s); auto;
      change (lane_of (set_stack (notifyActiveTaskWaiters ?a).1 _) ?b) with (lane_of a b);
      rewrite lane_of_put; case_decide; subst; try done. apply removeId_length.
  - apply runTop_cases in He as
      [(ln & o & k & e1 & q & Hk & Hcs & _ & _ & He)|[(ln & o & k & Hk & Hcs & He)
      |[(ln & k & Hk & -> & ->)|(k & Hk & He)]]]; try split_pair He.
    + destruct Hi as [Hc Ha]. unfold cap_inv. rewrite startNext_lane. case_decide; [|done].
      subst. simpl. split; [done|]. rewrite length_app. simpl.
      unfold canStart in Hcs. apply andb_true_iff in Hcs as [Hcs _].
      destruct (decide (M <= Z.of_nat (length (activeTaskIds (lane_of s ln0))))); [|lia].
      by rewrite Hc in Hcs.
    + apply (cap_same _ _ s); auto; rewrite pumpExit_lane; by case_decide; subst.
    + apply (cap_same _ _ s); auto; rewrite drainLane_lane; by case_decide; subst.
    + done.
Qed.

Lemma caps_init M : 1 <= M → caps M (num_of_Z 1).
Proof. intros HM k Hk. rewrite num_ltb_Z. lia. Qed.

Lemma run_caps M ln ls evs s :
  1 <= M → run ls evs s → Forall (label_caps M ln) ls → cap_inv M ln s.
Proof.
  intros HM. induction 1 as [|ls evs s l s' e Hr IH Hs].
  - intros _. split; [by apply caps_init|]. cbn. lia.
  - intros [Hls Hl]%Forall_app. apply Forall_cons in Hl as [Hl _].
    apply (cap_step M ln s l s' e); auto.
Qed.

(** ** The synchronous part of a turn ends *)

Definition contWeight (c : Cont) : nat := match c with KDrain _ => 2 | _ => 1 end.

(** Steps the code on the stack can still take. *)
Definition fuelFor (s : QueueState) : nat :=
  (length (queued s) + sum_list_with contWeight (stack s))%nat.

Fixpoint drive (fuel : nat) (now : Z) (s : QueueState) : QueueState * list Event :=
  match fuel with
  | O => (s, [])
  | S n =>
      match runTop now s with
      | None => (s, [])
      | Some (s1, e1) => let (s2, e2) := drive n now s1 in (s2, e1 ++ e2)
      end
  end.

Lemma runTop_fuel now s s' e : runTop now s = Some (s', e) → (S (fuelFor s') <= fuelFor s)%nat.
Proof.
  unfold fuelFor. intros He. apply runTop_cases in He as
      [(ln & o & k & e1 & q & Hk & _ & Hq & _ & He)|[(ln & o & k & Hk & Hcs & He)
      |[(ln & k & Hk & -> & ->)|(k & Hk & He)]]]; try split_pair He.
  - pose proof (queued_put s ln (mkLane (lane (lane_of s ln)) q
        (activeTaskIds (lane_of s ln) ++ [nextTaskId s]) (maxConcurrent (lane_of s ln))
        (draining (lane_of s ln)) (generation (lane_of s ln)))) as Hp.
    apply Permutation_length in Hp. rewrite !length_app in Hp. unfold queuedIds in Hp.
    rewrite Hq, fmap_cons in Hp. unfold queued, put_lane, set_lanes in Hp.
    cbn [length lanes queue] in Hp. unfold queued. simpl. rewrite Hk. simpl. lia.
  - rewrite (Permutation_length (queued_pumpExit s ln o k)), Hk. simpl. lia.
  - rewrite (Permutation_length (queued_drain (set_stack s k) ln)), drainLane_stack, Hk.
    unfold queued. simpl. case_match; simpl; lia.
  - rewrite Hk. unfold queued. simpl. lia.
Qed.

Lemma drive_done fuel now s : (fuelFor s <= fuel)%nat → stack (drive fuel now s).1 = [].
Proof.
  revert s. induction fuel as [|n IH]; intros s Hle.
  - simpl. unfold fuelFor in Hle. destruct (stack s) as [|[] k] eqn:Ek; simpl in *; [done|lia..].
  - simpl. destruct (runTop now s) as [[s1 e1]|] eqn:E.
    + apply runTop_fuel in E. specialize (IH s1). destruct (drive n now s1) as [s2 e2].
      apply IH. lia.
    + simpl. unfold runTop in E. destruct (stack s) as [|[ln o|ln|] k]; try done.
      destruct (oget (lanes s) ln); [|done]. destruct (canStart l); [|done].
      by destruct (queue l).
Qed.

Lemma drive_run fuel now ls evs s :
  run ls evs s → ∃ ls', run ls' (evs ++ (drive fuel now s).2) (drive fuel now s).1.
Proof.
  revert ls evs s. induction fuel as [|n IH]; intros ls evs s Hr; simpl.
  - exists ls. by rewrite app_nil_r.
  - destruct (runTop now s) as [[s1 e1]|] eqn:E.
    + destruct (IH (ls ++ [LRun now]) (evs ++ e1) s1) as [ls' Hr'].
      { eapply run_step; [done|by constructor]. }
      exists ls'. destruct (drive n now s1). simpl in *. by rewrite app_assoc.
    + exists ls. by rewrite app_nil_r.
Qed.

(** ** Executing runs *)

#[export] Instance Inflight_eq_dec : EqDecision Inflight.
Proof. solve_decision. Defined.

Definition exec (s : QueueState) (l : Label) : option (QueueState * list Event) :=
  match l with
  | LEnqueue now ln w b => Some (enqueueCommandInLane now s ln w b)
  | LSetConcurrency ln n => Some (setCommandLaneConcurrency s ln n, [])
  | LClear ln => let '(_, s', evs) := clearCommandLane s ln in Some (s', evs)
  | LReset => Some (resetAllLanes s, [])
  | LMarkDraining => Some (markGatewayDraining s, [])
  | LWait ms => Some (waitForActiveTasks s ms)
  | LTimeout wid => match stack s with [] => Some (waiterTimeout s wid) | _ => None end
  | LSettled f o =>
      match stack s, bool_decide (f ∈ inflight s), o with
      | [], true, (Resolved | Rejected TaskError) => Some (taskSettled s f o)
      | _, _, _ => None
      end
  | LRun now => runTop now s
  end.

Fixpoint execs (s : QueueState) (ls : list Label) : option (QueueState * list Event) :=
  match ls with
  | [] => Some (s, [])
  | l :: ls' =>
      match exec s l with
      | None => None
      | Some (s1, e1) =>
          match execs s1 ls' with Some (s2, e2) => Some (s2, e1 ++ e2) | None => None end
      end
  end.

Lemma exec_step s l s' e : exec s l = Some (s', e) → step s l s' e.
Proof.
  destruct l; simpl; intros He.
  - injection He as He. by constructor.
  - injection He as <- <-. constructor.
  - destruct (clearCommandLane s ln) as [[n s1] e1] eqn:E. injection He as <- <-.
    by econstructor.
  - injection He as <- <-. constructor.
  - injection He as <- <-. constructor.
  - injection He as He. by constructor.
  - destruct (stack s) eqn:Ek; [|done]. injection He as He. by constructor.
  - destruct (stack s) eqn:Ek; [|done]. case_bool_decide; [|done].
    destruct o as [|[]]; simplify_eq; constructor; auto.
  - by constructor.
Qed.

Lemma execs_run s ls s' e ls0 e0 :
  run ls0 e0 s → execs s ls = Some (s', e) → run (ls0 ++ ls) (e0 ++ e) s'.
Proof.
  revert s ls0 e0 e. induction ls as [|l ls IH]; intros s ls0 e0 e Hr; simpl.
  - intros [= <- <-]. by rewrite !app_nil_r.
  - destruct (exec s l) as [[s1 e1]|] eqn:E1; [|done].
    destruct (execs s1 ls) as [[s2 e2]|] eqn:E2; [|done]. intros [= <- <-].
    rewrite (assoc_L (++) e0), cons_middle, (assoc_L (++) ls0). apply (IH s1); [|done].
    eapply run_step; eauto using exec_step.
Qed.

(** The state and events of a run from the initial state. *)
Definition after (ls : list Label) : QueueState * list Event :=
  execs initState ls ?? (initState, []).

(** Two entries on the main lane; the first is running, the second waits. *)
Definition demo : list Label :=
  [LEnqueue 0 "" None false; LRun 1; LRun 1; LEnqueue 5 " main " (Some 10) true; LRun 6].

(** A restart drops the first task; the second entry runs and a drain waits for it. *)
Definition demo_restart : list Label := demo ++ [LReset; LRun 20; LRun 20; LRun 20; LRun 20; LWait 50].

Definition demo_result : QueueState * list Event := Eval vm_compute in after demo.
Definition restart_result : QueueState * list Event := Eval vm_compute in after demo_restart.
Definition cron_result : QueueState * list Event :=
  Eval vm_compute in after [LEnqueue 0 "cron" None false].

Lemma after_reachable ls r : execs initState ls = Some r → run ls r.2 r.1.
Proof. destruct r as [s e]. intros H. by apply (execs_run initState ls s e [] []); [constructor|]. Qed.

Lemma demo_reachable : run demo demo_result.2 demo_result.1.
Proof. apply after_reachable. vm_compute. reflexivity. Qed.

Lemma restart_reachable : run demo_restart restart_result.2 restart_result.1.
Proof. apply after_reachable. vm_compute. reflexivity. Qed.

Lemma cron_reachable : run [LEnqueue 0 "cron" None false] cron_result.2 cron_result.1.
Proof. apply after_reachable. vm_compute. reflexivity. Qed.

(** ** Properties *)

(** C17. No lost wake-up: whenever the queue's code is not running, a lane with a
    queued entry has every slot taken (its pump condition is false), in every
    state reached by enqueues, completions, concurrency changes, clears, restarts
    and calls made from inside tasks, in any order. *)
Theorem no_lost_wakeup ls evs s ln st :
  run ls evs s → stack s = [] → oget (lanes s) ln = Some st → queue st ≠ [] →
  num_ltb (num_of_Z (Z.of_nat (length (activeTaskIds st)))) (maxConcurrent st) = false.
Proof.
  intros Hr Hs Hl Hq. apply run_ctrl in Hr. pose proof (ci_work s Hr ln) as Hw.
  replace (lane_of s ln) with st in Hw by (unfold lane_of; by rewrite Hl).
  rewrite Hs in Hw. destruct (num_ltb _ _) eqn:En; [|done].
  destruct Hw as [[o Ho]|Ho]; [|by apply elem_of_nil in Ho..].
  unfold canStart. rewrite En. by destruct (queue st).
Qed.

Lemma no_lost_wakeup_witness :
  ∃ st, oget (lanes demo_result.1) "main" = Some st ∧
  num_ltb (num_of_Z (Z.of_nat (length (activeTaskIds st)))) (maxConcurrent st) = false.
Proof.
  eexists. split; [reflexivity|].
  apply (no_lost_wakeup demo demo_result.2 demo_result.1 "main").
  - apply demo_reachable.
  - reflexivity.
  - reflexivity.
  - discriminate.
Defined.

(** C19. Bounded concurrency: if every concurrency requested for a lane caps it at
    [M] tasks, no reachable state has more than [M] tasks of the current generation
    in the lane; a lane that is never configured runs one task at a time. *)
Theorem lane_concurrency_bounded M ln ls evs s :
  1 <= M → run ls evs s → Forall (label_caps M ln) ls →
  Z.of_nat (length (activeTaskIds (lane_of s ln))) <= M.
Proof. intros HM Hr Hl. by apply (run_caps M ln ls evs s). Qed.

Lemma lane_concurrency_bounded_witness :
  Z.of_nat (length (activeTaskIds (lane_of demo_result.1 "main"))) <= 1.
Proof.
  apply (lane_concurrency_bounded 1 "main" demo demo_result.2).
  - lia.
  - apply demo_reachable.
  - repeat constructor.
Defined.

(** First in, first out: entry ids are handed out in the order of the enqueue
    calls, and the entries a lane starts have strictly increasing ids, restarts
    and clears included. *)
Lemma lane_starts_in_fifo_order ls evs s ln :
  run ls evs s → StronglySorted lt (started ln evs ++ queuedIds (lane_of s ln)).
Proof. intros Hr. apply (run_fifo ls evs s Hr ln). Qed.

Lemma lane_starts_in_fifo_order_witness :
  started "main" restart_result.2 = [0; 1]%nat ∧
  StronglySorted lt
    (started "main" restart_result.2 ++ queuedIds (lane_of restart_result.1 "main")).
Proof.
  split; [reflexivity|]. apply (lane_starts_in_fifo_order demo_restart).
  apply restart_reachable.
Defined.

(** C20. Exactly once: the promises ever handed out are, each exactly once, queued,
    running, about to be settled by the code on the stack, or settled; no promise
    is lost or settled twice, including those of tasks made stale by a restart and
    of entries rejected by a clear. *)
Theorem promises_settle_exactly_once ls evs s :
  run ls evs s →
  queued s ++ (if_entry <$> inflight s) ++ settling (stack s) ++ settled evs
    ≡ₚ seq 0 (nextEntryId s)
  ∧ NoDup (settled evs).
Proof.
  intros Hr. apply run_promise in Hr. split; [exact Hr|].
  assert (NoDup (accounted s evs)) as Hn by (rewrite Hr; apply NoDup_seq).
  unfold accounted in Hn.
  by apply NoDup_app in Hn as (_ & _ & (_ & _ & (_ & _ & ?)%NoDup_app)%NoDup_app).
Qed.

Lemma promises_settle_exactly_once_witness :
  queued demo_result.1 = [1]%nat ∧ (if_entry <$> inflight demo_result.1) = [0]%nat ∧
  NoDup (settled demo_result.2).
Proof.
  split; [reflexivity|]. split; [reflexivity|].
  apply (promises_settle_exactly_once demo demo_result.2 demo_result.1).
  apply demo_reachable.
Defined.

(** A lane's slots are held by exactly the in-flight tasks of its current
    generation, in start order: a task interrupted by [resetAllLanes] holds no slot
    after the reset and its completion frees none. *)
Lemma slots_are_current_generation ls evs s ln :
  run ls evs s →
  activeTaskIds (lane_of s ln) = if_taskId <$> List.filter (current s ln) (inflight s)
  ∧ NoDup (if_taskId <$> inflight s).
Proof. intros Hr. apply run_slot in Hr as [Ha Hn _ _]. auto. Qed.

Lemma slots_are_current_generation_witness :
  (if_taskId <$> inflight restart_result.1) = [1; 2] ∧
  activeTaskIds (lane_of restart_result.1 "main")
    = if_taskId <$> List.filter (current restart_result.1 "main")
                                (inflight restart_result.1).
Proof.
  split; [reflexivity|].
  apply (slots_are_current_generation demo_restart restart_result.2).
  apply restart_reachable.
Defined.

(** C21. No forgotten waiter: when the queue's code is not running, every registered
    [waitForActiveTasks] waiter still has one of its tasks active; in particular
    none is left behind by completions or by a restart. *)
Theorem no_forgotten_waiter ls evs s w :
  run ls evs s → stack s = [] → w ∈ activeTaskWaiters s →
  ∃ ln id, id ∈ activeTaskIds (lane_of s ln) ∧ id ∈ waiterTaskIds w.
Proof.
  intros Hr Hs Hw. pose proof (run_ctrl _ _ _ Hr) as [Hwf _ _].
  destruct (run_waiter _ _ _ Hr) as [Hk|Hok]; [rewrite Hs in Hk; by apply elem_of_nil in Hk|].
  by apply Hok, waiterDone_false in Hw as [_ ?].
Qed.

Lemma no_forgotten_waiter_witness :
  ∃ ln id, id ∈ activeTaskIds (lane_of restart_result.1 ln) ∧ id ∈ [2].
Proof.
  apply (no_forgotten_waiter demo_restart restart_result.2 restart_result.1
           (mkWaiter 0 [2])).
  - apply restart_reachable.
  - reflexivity.
  - left.
Defined.

(** The synchronous part of a turn terminates: from any state, running the code
    on the stack for [fuelFor s] steps empties the stack, and the result is still a
    reachable state, so that C1 applies to it. *)
Lemma turn_terminates ls evs s now :
  run ls evs s →
  stack (drive (fuelFor s) now s).1 = [] ∧
  ∃ ls', run ls' (evs ++ (drive (fuelFor s) now s).2) (drive (fuelFor s) now s).1.
Proof. intros Hr. split; [by apply drive_done|by eapply drive_run]. Qed.

Lemma turn_terminates_witness :
  stack (drive (fuelFor cron_result.1) 3
           cron_result.1).1 = [] ∧
  ∃ ls', run ls' ([] ++ [EvStart "cron" 0 1])
           (drive (fuelFor cron_result.1) 3
              cron_result.1).1.
Proof.
  apply (turn_terminates [LEnqueue 0 "cron" None false] []
           cron_result.1 3).
  apply cron_reachable.
Defined.

End CommandQueue.
