(* ===== verification/Supervisor.v ===== *)
(** * Supervised processes: src/process/supervisor/registry.ts, supervisor.ts

    The supervisor starts processes, ends those that exceed their time or are cancelled,
    and keeps records of them. Its state holds the records, the runs with the variables
    that the closures of [spawn] share, and the map of the active ones; an event is a
    call, a timer that fires, or something the process does. [handle] is [None] where an
    event cannot happen: a timer that is not armed, a process that is not there. *)

From Stdlib Require Import Ascii.
From S2P Require Import Prelude OMap.

#[local] Open Scope stdpp_scope.

Module Supervisor.
Import StringCoerce.

(** ** The registry *)

Inductive RunState : Type := RunStarting | RunRunning | RunExiting | RunExited.
#[export] Instance RunState_eq : EqDecision RunState := ltac:(solve_decision).

Inductive TerminationReason : Type :=
| ManualCancel | OverallTimeout | NoOutputTimeout | SpawnError | SignalReason | ExitReason.
#[export] Instance TerminationReason_eq : EqDecision TerminationReason := ltac:(solve_decision).

(** [exitCode] and [exitSignal] are absent until the run ends, and may then be [null]. *)
Record RunRecord : Type := mkRecord {
  rr_runId : string;
  rr_sessionId : string;
  rr_backendId : string;
  rr_scopeKey : option string;
  rr_pid : option Z;
  rr_startedAtMs : Z;
  rr_lastOutputAtMs : Z;
  rr_createdAtMs : Z;
  rr_updatedAtMs : Z;
  rr_state : RunState;
  rr_terminationReason : option TerminationReason;
  rr_exitCode : option (option Z);
  rr_exitSignal : option (option string);
}.

Definition Registry : Type := omap string RunRecord.

Definition DEFAULT_MAX_EXITED_RECORDS : Z := 2000.

Definition resolveMaxExitedRecords (value : option num) : Z :=
  match value with
  | Some (Fin q) => if negb (Qle_bool 1 q) then DEFAULT_MAX_EXITED_RECORDS else Z.max 1 (floorQ q)
  | _ => DEFAULT_MAX_EXITED_RECORDS
  end.

Definition is_exited (record : RunRecord) : bool := bool_decide (rr_state record = RunExited).

(** The loop that deletes the first [remove] exited records. *)
Fixpoint remove_exited (remove : Z) (records : Registry) : Registry :=
  match records with
  | [] => []
  | (runId, record) :: rest =>
      if remove <=? 0 then records
      else if is_exited record then remove_exited (remove - 1) rest
      else (runId, record) :: remove_exited remove rest
  end.

Definition exited_count (records : Registry) : Z :=
  Z.of_nat (List.length (List.filter (λ e, is_exited e.2) records)).

Definition pruneExitedRecords (maxExitedRecords : Z) (records : Registry) : Registry :=
  let exited := exited_count records in
  if exited <=? maxExitedRecords then records else remove_exited (exited - maxExitedRecords) records.

Definition registry_add (records : Registry) (record : RunRecord) : Registry := oset records (rr_runId record) record.

Definition registry_list (records : Registry) : list RunRecord := ovalues records.

Definition listByScope (records : Registry) (scopeKey : string) : list RunRecord :=
  if negb (str_truthy (trim scopeKey)) then []
  else List.filter (λ r, bool_decide (rr_scopeKey r = Some scopeKey)) (ovalues records).

(** The patches that the supervisor gives: a process id, or a reason. *)
Inductive Patch : Type := PatchPid (pid : option Z) | PatchReason (reason : TerminationReason).

Definition patch_record (current : RunRecord) (state : RunState) (patch : Patch) (nowMs : Z) : RunRecord :=
  mkRecord (rr_runId current) (rr_sessionId current) (rr_backendId current) (rr_scopeKey current)
    (match patch with PatchPid pid => pid | _ => rr_pid current end)
    (rr_startedAtMs current) (rr_lastOutputAtMs current) (rr_createdAtMs current) nowMs state
    (match patch with PatchReason reason => Some reason | _ => rr_terminationReason current end)
    (rr_exitCode current) (rr_exitSignal current).

Definition updateState (records : Registry) (runId : string) (state : RunState) (patch : Patch) (nowMs : Z) : Registry :=
  match oget records runId with
  | None => records
  | Some current => oset records runId (patch_record current state patch nowMs)
  end.

Definition registry_touchOutput (records : Registry) (runId : string) (ts : Z) : Registry :=
  match oget records runId with
  | None => records
  | Some c =>
      oset records runId
        (mkRecord (rr_runId c) (rr_sessionId c) (rr_backendId c) (rr_scopeKey c) (rr_pid c) (rr_startedAtMs c)
           ts (rr_createdAtMs c) ts (rr_state c) (rr_terminationReason c) (rr_exitCode c) (rr_exitSignal c))
  end.

Definition finalized (c : RunRecord) (reason : TerminationReason) (exitCode : option Z) (exitSignal : option string)
    (ts : Z) : RunRecord :=
  mkRecord (rr_runId c) (rr_sessionId c) (rr_backendId c) (rr_scopeKey c) (rr_pid c) (rr_startedAtMs c)
    (rr_lastOutputAtMs c) (rr_createdAtMs c) ts RunExited
    (match rr_terminationReason c with Some r => Some r | None => Some reason end)
    (match rr_exitCode c with Some x => Some x | None => Some exitCode end)
    (match rr_exitSignal c with Some x => Some x | None => Some exitSignal end).

(** The record and whether it was the first time, and the records. *)
Definition finalize (maxExitedRecords : Z) (records : Registry) (runId : string) (reason : TerminationReason)
    (exitCode : option Z) (exitSignal : option string) (ts : Z) : option (RunRecord * bool) * Registry :=
  match oget records runId with
  | None => (None, records)
  | Some current =>
      let next := finalized current reason exitCode exitSignal ts in
      (Some (next, negb (is_exited current)), pruneExitedRecords maxExitedRecords (oset records runId next))
  end.

Definition registry_delete (records : Registry) (runId : string) : Registry := odel records runId.

(** ** Runs *)

Record RunExit : Type := mkExit {
  re_reason : TerminationReason;
  re_exitCode : option Z;
  re_exitSignal : option string;
  re_durationMs : Z;
  re_stdout : string;
  re_stderr : string;
  re_timedOut : bool;
  re_noOutputTimedOut : bool;
}.

Definition clampTimeout (value : option num) : option Z :=
  match value with
  | Some (Fin q) => if Qle_bool q 0 then None else Some (Z.max 1 (floorQ q))
  | _ => None
  end.

Definition isTimeoutReason (reason : TerminationReason) : bool :=
  match reason with OverallTimeout | NoOutputTimeout => true | _ => false end.

(** The delay of Node's [setTimeout]: one beyond 2^31 - 1 is set to 1. *)
Definition timer_delay (ms : Z) : Z := if 2147483647 <? ms then 1 else ms.

(** Where a call of [spawn] is: the adapter is being created, the process runs, the
    promise of [wait] is resolved or rejected, or [spawn] has thrown. *)
Inductive Phase : Type := Starting | Running | Settled (exit : option RunExit) | Thrown.

(** The variables of a call of [spawn]; [rl_killed]: the adapter was told to kill. *)
Record SupervisedRun : Type := mkRun {
  rl_id : string;
  rl_scopeKey : option string;
  rl_startedAtMs : Z;
  rl_overallTimeoutMs : option Z;
  rl_noOutputTimeoutMs : option Z;
  rl_captureOutput : bool;
  rl_phase : Phase;
  rl_forcedReason : option TerminationReason;
  rl_timeoutTimer : option Z;       (* when it fires *)
  rl_noOutputTimer : option Z;
  rl_stdout : string;
  rl_stderr : string;
  rl_killed : bool;
}.

Record SpawnInput : Type := mkSpawn {
  si_runId : option string;
  si_sessionId : string;
  si_backendId : string;
  si_scopeKey : option string;
  si_replaceExistingScope : bool;
  si_timeoutMs : option num;
  si_noOutputTimeoutMs : option num;
  si_captureOutput : option bool;
}.

Record ProcessSupervisor : Type := mkSupervisor {
  ps_records : Registry;
  ps_active : omap string nat;      (* the index of the run in [ps_runs] *)
  ps_runs : list SupervisedRun;
}.

Definition set_records (s : ProcessSupervisor) (records : Registry) : ProcessSupervisor :=
  mkSupervisor records (ps_active s) (ps_runs s).

Definition set_run (s : ProcessSupervisor) (i : nat) (r : SupervisedRun) : ProcessSupervisor :=
  mkSupervisor (ps_records s) (ps_active s) (<[i := r]> (ps_runs s)).

Definition with_phase (r : SupervisedRun) (phase : Phase) (timeoutTimer noOutputTimer : option Z) : SupervisedRun :=
  mkRun (rl_id r) (rl_scopeKey r) (rl_startedAtMs r) (rl_overallTimeoutMs r) (rl_noOutputTimeoutMs r)
    (rl_captureOutput r) phase (rl_forcedReason r) timeoutTimer noOutputTimer (rl_stdout r) (rl_stderr r) (rl_killed r).

Definition with_forced (r : SupervisedRun) (reason : TerminationReason) : SupervisedRun :=
  mkRun (rl_id r) (rl_scopeKey r) (rl_startedAtMs r) (rl_overallTimeoutMs r) (rl_noOutputTimeoutMs r)
    (rl_captureOutput r) (rl_phase r) (Some reason) (rl_timeoutTimer r) (rl_noOutputTimer r) (rl_stdout r) (rl_stderr r)
    (rl_killed r).

(** [cancelAdapter?.(reason)]: it is set while the process runs, and kills unless settled. *)
Definition kill_run (r : SupervisedRun) : SupervisedRun :=
  match rl_phase r with
  | Running =>
      mkRun (rl_id r) (rl_scopeKey r) (rl_startedAtMs r) (rl_overallTimeoutMs r) (rl_noOutputTimeoutMs r)
        (rl_captureOutput r) (rl_phase r) (rl_forcedReason r) (rl_timeoutTimer r) (rl_noOutputTimer r) (rl_stdout r)
        (rl_stderr r) true
  | _ => r
  end.

(** [requestCancel] with [setForcedReason]. *)
Definition requestCancel (s : ProcessSupervisor) (i : nat) (r : SupervisedRun) (reason : TerminationReason) (nowMs : Z)
    : ProcessSupervisor :=
  match rl_forcedReason r with
  | Some _ => set_run s i (kill_run r)
  | None =>
      set_run (set_records s (updateState (ps_records s) (rl_id r) RunExiting (PatchReason reason) nowMs))
        i (kill_run (with_forced r reason))
  end.

(** [cancel] *)
Definition cancel (s : ProcessSupervisor) (runId : string) (reason : TerminationReason) (nowMs : Z)
    : ProcessSupervisor :=
  match oget (ps_active s) runId with
  | None => s
  | Some i =>
      match ps_runs s !! i with
      | None => s
      | Some r =>
          requestCancel (set_records s (updateState (ps_records s) runId RunExiting (PatchReason reason) nowMs))
            i r reason nowMs
      end
  end.

Definition in_scope (s : ProcessSupervisor) (scopeKey : string) (i : nat) : bool :=
  match ps_runs s !! i with Some r => bool_decide (rl_scopeKey r = Some scopeKey) | None => false end.

(** [cancelScope]: the loop over the active runs, which calls [cancel]. *)
Definition cancelScope (s : ProcessSupervisor) (scopeKey : string) (reason : TerminationReason) (nowMs : Z)
    : ProcessSupervisor :=
  if negb (str_truthy (trim scopeKey)) then s
  else
    List.fold_left (λ s e, if in_scope s scopeKey e.2 then cancel s e.1 reason nowMs else s) (ps_active s) s.

(** [spawn] up to the creation of the adapter. *)
Definition spawn_start (s : ProcessSupervisor) (input : SpawnInput) (newId : string) (nowMs : Z) : ProcessSupervisor :=
  let runId := normalizeOptionalString (si_runId input) ?? newId in
  let scopeKey := normalizeOptionalString (si_scopeKey input) in
  let s :=
    match scopeKey with
    | Some scope => if si_replaceExistingScope input then cancelScope s scope ManualCancel nowMs else s
    | None => s
    end in
  let record := mkRecord runId (si_sessionId input) (si_backendId input) scopeKey None nowMs nowMs nowMs nowMs
                  RunStarting None None None in
  let run := mkRun runId scopeKey nowMs (clampTimeout (si_timeoutMs input)) (clampTimeout (si_noOutputTimeoutMs input))
               (match si_captureOutput input with Some false => false | _ => true end)
               Starting None None None EmptyString EmptyString false in
  mkSupervisor (registry_add (ps_records s) record) (ps_active s) (ps_runs s ++ [run]).

(** The adapter is there: the timers are armed, and the run is active. *)
Definition spawn_ready (s : ProcessSupervisor) (i : nat) (r : SupervisedRun) (pid : option Z) (nowMs : Z) : ProcessSupervisor :=
  let arm := λ ms, nowMs + timer_delay ms in
  mkSupervisor (updateState (ps_records s) (rl_id r) RunRunning (PatchPid pid) nowMs)
    (oset (ps_active s) (rl_id r) i)
    (<[i := with_phase r Running (arm <$> rl_overallTimeoutMs r) (arm <$> rl_noOutputTimeoutMs r)]> (ps_runs s)).

(** The [catch] of [spawn]. *)
Definition spawn_failed (maxExited : Z) (s : ProcessSupervisor) (i : nat) (r : SupervisedRun) (nowMs : Z) : ProcessSupervisor :=
  set_run (set_records s (finalize maxExited (ps_records s) (rl_id r) SpawnError None None nowMs).2)
    i (with_phase r Thrown (rl_timeoutTimer r) (rl_noOutputTimer r)).

Definition is_running (r : SupervisedRun) : bool := match rl_phase r with Running => true | _ => false end.

(** The listeners of the adapter, with [touchOutput]. *)
Definition on_output (s : ProcessSupervisor) (i : nat) (r : SupervisedRun) (isErr : bool) (chunk : string) (nowMs : Z)
    : ProcessSupervisor :=
  let kept := if rl_captureOutput r then chunk else EmptyString in
  let noOutputTimer :=
    match rl_noOutputTimeoutMs r with
    | Some ms => if is_running r then Some (nowMs + timer_delay ms) else rl_noOutputTimer r
    | None => rl_noOutputTimer r
    end in
  set_run (set_records s (registry_touchOutput (ps_records s) (rl_id r) nowMs)) i
    (mkRun (rl_id r) (rl_scopeKey r) (rl_startedAtMs r) (rl_overallTimeoutMs r) (rl_noOutputTimeoutMs r)
       (rl_captureOutput r) (rl_phase r) (rl_forcedReason r) (rl_timeoutTimer r) noOutputTimer
       (if isErr then rl_stdout r else rl_stdout r +:+ kept) (if isErr then rl_stderr r +:+ kept else rl_stderr r)
       (rl_killed r)).

(** What [wait] returns. *)
Definition exit_of (r : SupervisedRun) (code : option Z) (signal : option string) (nowMs : Z) : RunExit :=
  let reason :=
    match rl_forcedReason r with
    | Some reason => reason
    | None => match signal with Some _ => SignalReason | None => ExitReason end
    end in
  mkExit reason code signal (nowMs - rl_startedAtMs r) (rl_stdout r) (rl_stderr r)
    (isTimeoutReason (rl_forcedReason r ?? reason)) (bool_decide (rl_forcedReason r = Some NoOutputTimeout)).

(** The promise of the adapter's [wait] is resolved, or rejected. *)
Definition settle_run (maxExited : Z) (s : ProcessSupervisor) (i : nat) (r : SupervisedRun) (exit : option RunExit) (nowMs : Z)
    : ProcessSupervisor :=
  let records :=
    match exit with
    | Some e => (finalize maxExited (ps_records s) (rl_id r) (re_reason e) (re_exitCode e) (re_exitSignal e) nowMs).2
    | None => (finalize maxExited (ps_records s) (rl_id r) SpawnError None None nowMs).2
    end in
  mkSupervisor records (odel (ps_active s) (rl_id r)) (<[i := with_phase r (Settled exit) None None]> (ps_runs s)).

(** ** Events *)

Inductive Event : Type :=
| Spawn (input : SpawnInput) (newId : string)
| AdapterReady (i : nat) (pid : option Z)
| AdapterFailed (i : nat)
| Output (i : nat) (isErr : bool) (chunk : string)
| OverallTimer (i : nat)
| NoOutputTimer (i : nat)
| ProcessExit (i : nat) (code : option Z) (signal : option string)
| WaitFailed (i : nat)
| Cancel (runId : string) (reason : TerminationReason)
| CancelScope (scopeKey : string) (reason : TerminationReason)
| CancelRun (i : nat) (reason : TerminationReason).      (* [cancel] of the run that [spawn] returned *)

Definition fires (timer : option Z) (nowMs : Z) : bool :=
  match timer with Some t => t <=? nowMs | None => false end.

Definition spawned (r : SupervisedRun) : bool := match rl_phase r with Running | Settled _ => true | _ => false end.

Definition is_starting (r : SupervisedRun) : bool := match rl_phase r with Starting => true | _ => false end.

(** [f] of a run for which [enabled] holds. *)
Definition on_run (s : ProcessSupervisor) (i : nat) (enabled : SupervisedRun → bool) (f : SupervisedRun → ProcessSupervisor)
    : option ProcessSupervisor :=
  match ps_runs s !! i with
  | Some r => if enabled r then Some (f r) else None
  | None => None
  end.

(** A timer fires once. *)
Definition disarm (r : SupervisedRun) (overall : bool) : SupervisedRun :=
  with_phase r (rl_phase r) (if overall then None else rl_timeoutTimer r) (if overall then rl_noOutputTimer r else None).

Definition handle (maxExited : Z) (s : ProcessSupervisor) (e : Event) (nowMs : Z) : option ProcessSupervisor :=
  match e with
  | Spawn input newId => Some (spawn_start s input newId nowMs)
  | AdapterReady i pid => on_run s i is_starting (λ r, spawn_ready s i r pid nowMs)
  | AdapterFailed i => on_run s i is_starting (λ r, spawn_failed maxExited s i r nowMs)
  | Output i isErr chunk => on_run s i spawned (λ r, on_output s i r isErr chunk nowMs)
  | OverallTimer i =>
      on_run s i (λ r, fires (rl_timeoutTimer r) nowMs) (λ r, requestCancel s i (disarm r true) OverallTimeout nowMs)
  | NoOutputTimer i =>
      on_run s i (λ r, fires (rl_noOutputTimer r) nowMs) (λ r, requestCancel s i (disarm r false) NoOutputTimeout nowMs)
  | ProcessExit i code signal => on_run s i is_running (λ r, settle_run maxExited s i r (Some (exit_of r code signal nowMs)) nowMs)
  | WaitFailed i => on_run s i is_running (λ r, settle_run maxExited s i r None nowMs)
  | Cancel runId reason => Some (cancel s runId reason nowMs)
  | CancelScope scopeKey reason => Some (cancelScope s scopeKey reason nowMs)
  | CancelRun i reason => on_run s i spawned (λ r, requestCancel s i r reason nowMs)
  end.

(** A history of events with the readings of the clock. *)
Fixpoint run_events (maxExited : Z) (s : ProcessSupervisor) (events : list (Event * Z)) : option ProcessSupervisor :=
  match events with
  | [] => Some s
  | (e, nowMs) :: rest =>
      match handle maxExited s e nowMs with
      | Some s' => run_events maxExited s' rest
      | None => None
      end
  end.

Definition emptySupervisor : ProcessSupervisor := mkSupervisor [] [] [].

(** ** Reachable states *)

Definition ids_of (s : ProcessSupervisor) : list string := List.map rl_id (ps_runs s).

(** Whether a process may be there: the run was not refused, and did not end. *)
Definition alive (r : SupervisedRun) : bool := match rl_phase r with Starting | Running => true | _ => false end.

(** What callers keep to: the id of a run that is starting or running is not used for
    another. Ids of ended runs may be: exec retries a terminal that could not be opened
    with the same one. *)
Definition fresh (s : ProcessSupervisor) (e : Event) : Prop :=
  match e with
  | Spawn input newId =>
      ∀ r, r ∈ ps_runs s → alive r = true → rl_id r ≠ normalizeOptionalString (si_runId input) ?? newId
  | _ => True
  end.

Inductive reachable (maxExited : Z) : ProcessSupervisor → Prop :=
| reach_empty : reachable maxExited emptySupervisor
| reach_step s e nowMs s' :
    reachable maxExited s → fresh s e → handle maxExited s e nowMs = Some s' → reachable maxExited s'.

(** What holds of the variables of a run in each phase: timers are armed while the
    process runs and was not told to end, and only then. *)
Definition armed (timeout timer : option Z) (killed : bool) : Prop :=
  timeout = None ∨ killed = true ∨ is_Some timer.

Definition run_ok (r : SupervisedRun) : Prop :=
  match rl_phase r with
  | Starting | Thrown => rl_timeoutTimer r = None ∧ rl_noOutputTimer r = None ∧ rl_forcedReason r = None
  | Running =>
      armed (rl_overallTimeoutMs r) (rl_timeoutTimer r) (rl_killed r) ∧
      armed (rl_noOutputTimeoutMs r) (rl_noOutputTimer r) (rl_killed r) ∧
      (rl_forcedReason r ≠ None → rl_killed r = true)
  | Settled _ => rl_timeoutTimer r = None ∧ rl_noOutputTimer r = None
  end.

(** The record of a process that runs is there and is not an exited one. *)
Definition recorded (records : Registry) (id : string) : Prop :=
  ∃ record, oget records id = Some record ∧ is_exited record = false.

(** No two runs that are alive have the same id. *)
Definition distinct_ids (s : ProcessSupervisor) : Prop :=
  ∀ i j r r', ps_runs s !! i = Some r → ps_runs s !! j = Some r' → alive r = true → alive r' = true →
    rl_id r = rl_id r' → i = j.

Record supervised (s : ProcessSupervisor) : Prop := mkSupervised {
  sv_runs : Forall run_ok (ps_runs s);
  sv_distinct : distinct_ids s;
  sv_active_wf : owf (ps_active s);
  sv_active : ∀ id i, oget (ps_active s) id = Some i ↔
    ∃ r, ps_runs s !! i = Some r ∧ is_running r = true ∧ rl_id r = id;
  sv_records_wf : owf (ps_records s);
  sv_records : ∀ r, r ∈ ps_runs s → alive r = true → recorded (ps_records s) (rl_id r);
}.

(** Two runs that differ in what a cancellation changes. *)
Definition same_run (r r' : SupervisedRun) : Prop :=
  rl_id r' = rl_id r ∧ rl_phase r' = rl_phase r ∧ rl_scopeKey r' = rl_scopeKey r ∧ (rl_killed r = true → rl_killed r' = true).

Lemma ids_insert s i r r' :
  ps_runs s !! i = Some r → rl_id r' = rl_id r → List.map rl_id (<[i := r']> (ps_runs s)) = ids_of s.
Proof.
  intros Hi Hid. unfold ids_of. change (List.map rl_id ?l) with (rl_id <$> l). rewrite list_fmap_insert, Hid.
  apply list_insert_id. by rewrite list_lookup_fmap, Hi.
Qed.

Lemma recorded_update records id id' state patch nowMs :
  state ≠ RunExited → recorded records id → recorded (updateState records id' state patch nowMs) id.
Proof.
  intros Hs (record & Hr & He). unfold updateState, recorded. destruct (oget records id') as [c|] eqn:Hc; [|by exists record].
  rewrite oget_oset. case_decide; [|by exists record]. eexists. split; [done|].
  unfold is_exited. simpl. by rewrite bool_decide_false.
Qed.

Lemma recorded_touch records id id' ts : recorded records id → recorded (registry_touchOutput records id' ts) id.
Proof.
  intros (record & Hr & He). unfold registry_touchOutput, recorded.
  destruct (oget records id') as [c|] eqn:Hc; [|by exists record].
  rewrite oget_oset. case_decide; [|by exists record]. subst id'. rewrite Hr in Hc. injection Hc as <-.
  eexists. split; [done|exact He].
Qed.

(** Only exited records are removed. *)
Lemma remove_exited_keeps n records id record :
  owf records → oget records id = Some record → is_exited record = false →
  oget (remove_exited n records) id = Some record.
Proof.
  revert n. induction records as [|[k v] records IH]; intros n Hwf; [done|]. cbn [remove_exited oget].
  pose proof (owf_tail _ _ Hwf) as Hwf'. intros Hk He. destruct (n <=? 0); [done|].
  destruct (is_exited v) eqn:Hv; cbn [oget]; case_decide as Hd; simplify_eq; try congruence; by apply IH.
Qed.

Lemma remove_exited_keys n records k : k ∈ okeys (remove_exited n records) → k ∈ okeys records.
Proof.
  unfold okeys. revert n. induction records as [|[k' v] records IH]; intros n; [done|]. cbn [remove_exited].
  destruct (n <=? 0); [done|]. destruct (is_exited v); cbn; rewrite !elem_of_cons; [|intros [?|?]; [by left|]]; right; by eapply IH.
Qed.

Lemma remove_exited_owf n records : owf records → owf (remove_exited n records).
Proof.
  revert n. induction records as [|[k v] records IH]; intros n Hwf; [done|]. cbn [remove_exited].
  pose proof (owf_tail _ _ Hwf) as Hwf'. destruct (n <=? 0); [done|]. destruct (is_exited v); [by apply IH|].
  apply NoDup_cons in Hwf as [Hk _]. apply NoDup_cons. split; [|by apply IH].
  intros Hin. by apply Hk, (remove_exited_keys (n)).
Qed.

Lemma finalize_records maxExited records id reason code signal ts id' :
  owf records → id' ≠ id → recorded records id' → recorded (finalize maxExited records id reason code signal ts).2 id'.
Proof.
  intros Hwf Hne (record & Hr & He). unfold finalize. destruct (oget records id) as [c|] eqn:Hc; [|by exists record].
  unfold pruneExitedRecords. simpl. exists record. split; [|done].
  assert (oget (oset records id (finalized c reason code signal ts)) id' = Some record) as Hset by (by rewrite oget_oset_ne).
  case_match; [done|]. apply remove_exited_keeps; [by apply owf_oset|done|done].
Qed.

Lemma finalize_owf maxExited records id reason code signal ts :
  owf records → owf (finalize maxExited records id reason code signal ts).2.
Proof.
  intros Hwf. unfold finalize. destruct (oget records id); [|done]. unfold pruneExitedRecords. simpl.
  case_match; [by apply owf_oset|by apply remove_exited_owf, owf_oset].
Qed.

(** ** Changes that leave runs where they are *)

(** [s'] differs from [s] in records, timers, output and what was killed. *)
Record same_runs (s s' : ProcessSupervisor) : Prop := mkSameRuns {
  sr_active : ps_active s' = ps_active s;
  sr_ids : ids_of s' = ids_of s;
  sr_forward : ∀ j r, ps_runs s !! j = Some r → ∃ r', ps_runs s' !! j = Some r' ∧ same_run r r';
}.

Lemma same_run_refl r : same_run r r.
Proof. done. Qed.

Lemma same_runs_refl s : same_runs s s.
Proof. split; [done|done|]. intros j r Hj. by exists r. Qed.

Lemma same_runs_trans s1 s2 s3 : same_runs s1 s2 → same_runs s2 s3 → same_runs s1 s3.
Proof.
  intros [Ha1 Hi1 Hf1] [Ha2 Hi2 Hf2]. split; [congruence|congruence|].
  intros j r Hj. destruct (Hf1 _ _ Hj) as (r' & Hj' & H1 & H2 & H3 & H4).
  destruct (Hf2 _ _ Hj') as (r'' & Hj'' & G1 & G2 & G3 & G4). exists r''. split; [done|].
  unfold same_run. split_and!; try congruence. auto.
Qed.

Lemma same_runs_length s s' : same_runs s s' → List.length (ps_runs s') = List.length (ps_runs s).
Proof. intros [_ Hids _]. unfold ids_of in Hids. rewrite <- !(length_map rl_id). by rewrite Hids. Qed.

Lemma same_runs_back s s' j r' :
  same_runs s s' → ps_runs s' !! j = Some r' → ∃ r, ps_runs s !! j = Some r ∧ same_run r r'.
Proof.
  intros Hs Hj. pose proof (lookup_lt_Some _ _ _ Hj) as Hlt. rewrite (same_runs_length _ _ Hs) in Hlt.
  destruct (lookup_lt_is_Some_2 _ _ Hlt) as [r Hr]. exists r. split; [done|].
  destruct (sr_forward _ _ Hs _ _ Hr) as (r'' & Hj' & Hsame). congruence.
Qed.

(** Replacing a run by one that is the same for this purpose. *)
Lemma same_runs_insert s s' i r r' :
  ps_runs s !! i = Some r → same_run r r' → ps_active s' = ps_active s → ps_runs s' = <[i := r']> (ps_runs s) →
  same_runs s s'.
Proof.
  intros Hi Hs Ha Hr. split; [done| |].
  - unfold ids_of at 1. rewrite Hr. apply (ids_insert _ _ _ _ Hi), Hs.
  - intros j x Hj. rewrite Hr. destruct (decide (j = i)) as [->|Hne].
    + exists r'. rewrite list_lookup_insert_eq by (by apply lookup_lt_Some in Hi). split; [done|]. congruence.
    + exists x. by rewrite list_lookup_insert_ne.
Qed.

Lemma alive_same r r' : same_run r r' → alive r' = alive r ∧ is_running r' = is_running r.
Proof. intros (_ & Hp & _). unfold alive, is_running. by rewrite Hp. Qed.

Lemma supervised_same s s' :
  supervised s → same_runs s s' → Forall run_ok (ps_runs s') → owf (ps_records s') →
  (∀ id, recorded (ps_records s) id → recorded (ps_records s') id) → supervised s'.
Proof.
  intros [_ Hd Hw Ha _ Hrec] Hs Hruns Hwf Hkeep. split; [done| | | |done|].
  - intros i j x y Hx Hy. destruct (same_runs_back _ _ _ _ Hs Hx) as (x0 & Hx0 & Hsx).
    destruct (same_runs_back _ _ _ _ Hs Hy) as (y0 & Hy0 & Hsy). rewrite (proj1 (alive_same _ _ Hsx)), (proj1 (alive_same _ _ Hsy)).
    destruct Hsx as [-> _], Hsy as [-> _]. by apply Hd.
  - by rewrite (sr_active _ _ Hs).
  - intros id i. rewrite (sr_active _ _ Hs), Ha. split.
    + intros (r & Hr & Hrun & Hid). destruct (sr_forward _ _ Hs _ _ Hr) as (r' & Hr' & Hsame).
      exists r'. destruct (alive_same _ _ Hsame) as [_ ->]. destruct Hsame as [-> _]. done.
    + intros (r' & Hr' & Hrun & Hid). destruct (same_runs_back _ _ _ _ Hs Hr') as (r & Hr & Hsame).
      exists r. destruct (alive_same _ _ Hsame) as [_ Heq]. rewrite <- Heq. destruct Hsame as [Hid' _]. by rewrite <- Hid'.
  - intros r' [j Hj]%list_elem_of_lookup Hal. destruct (same_runs_back _ _ _ _ Hs Hj) as (r & Hr & Hsame).
    destruct (alive_same _ _ Hsame) as [Heq _]. rewrite Heq in Hal. destruct Hsame as [-> _].
    apply Hkeep, Hrec; [|done]. apply list_elem_of_lookup. by exists j.
Qed.

Lemma updateState_owf records id state patch nowMs : owf records → owf (updateState records id state patch nowMs).
Proof. intros Hwf. unfold updateState. destruct (oget records id); [by apply owf_oset|done]. Qed.

Lemma killed_run_ok r :
  spawned r = true → (is_running r = false → rl_timeoutTimer r = None ∧ rl_noOutputTimer r = None) → run_ok (kill_run r).
Proof.
  intros Hs Ht. unfold kill_run, run_ok, spawned, is_running in *. destruct (rl_phase r) eqn:Hp; try done.
  - simpl. rewrite ?Hp. split_and!; try done; right; by left.
  - rewrite ?Hp. by apply Ht.
Qed.

(** A cancellation of a run that was spawned. *)
Lemma requestCancel_ok s i r0 r reason nowMs :
  supervised s → ps_runs s !! i = Some r0 → same_run r0 r → spawned r0 = true →
  (is_running r = false → rl_timeoutTimer r = None ∧ rl_noOutputTimer r = None) →
  let s' := requestCancel s i r reason nowMs in
  supervised s' ∧ same_runs s s' ∧ ∃ r', ps_runs s' !! i = Some r' ∧ (is_running r0 = true → rl_killed r' = true).
Proof.
  intros Hsv Hi Hsame Hsp Ht. destruct (alive_same _ _ Hsame) as [_ Hrun].
  assert (spawned r = true) as Hsp' by (unfold spawned in *; by rewrite (proj1 (proj2 Hsame))).
  assert (∀ r1, same_run r r1 → same_run r (kill_run r1) ∧ (is_running r1 = true → rl_killed (kill_run r1) = true)) as Hkill.
  { intros r1 (H1 & H2 & H3 & H4). unfold kill_run, is_running, same_run. destruct (rl_phase r1) eqn:Hp; simpl; by rewrite ?Hp. }
  set (r1 := match rl_forcedReason r with Some _ => r | None => with_forced r reason end).
  assert (same_run r r1 ∧ spawned r1 = true ∧ is_running r1 = is_running r ∧
    rl_timeoutTimer r1 = rl_timeoutTimer r ∧ rl_noOutputTimer r1 = rl_noOutputTimer r) as (Hs1 & Hsp1 & Hr1 & Ht1 & Hn1)
    by (subst r1; by destruct (rl_forcedReason r)).
  destruct (Hkill r1 Hs1) as [Hsk Hk].
  assert (same_run r0 (kill_run r1)) as Hfinal.
  { destruct Hsame as (?&?&?&?), Hsk as (?&?&?&?). unfold same_run. split_and!; try congruence. auto. }
  assert (∀ records, owf records → (∀ id, recorded (ps_records s) id → recorded records id) →
    let s' := set_run (set_records s records) i (kill_run r1) in
    supervised s' ∧ same_runs s s' ∧ ∃ r', ps_runs s' !! i = Some r' ∧ (is_running r0 = true → rl_killed r' = true)) as Hall.
  { intros records Hwf Hkeep. cbv zeta.
    assert (same_runs s (set_run (set_records s records) i (kill_run r1))) as Hsr by (by eapply same_runs_insert).
    split_and!; [|done|].
    - apply (supervised_same s); try done. simpl. apply Forall_insert; [apply Hsv|].
      apply killed_run_ok; [done|]. rewrite Hr1, Ht1, Hn1. exact Ht.
    - exists (kill_run r1). simpl. rewrite list_lookup_insert_eq by (by apply lookup_lt_Some in Hi). split; [done|].
      intros Hrun0. apply Hk. congruence. }
  cbv zeta. unfold requestCancel. subst r1. destruct (rl_forcedReason r).
  - destruct s. apply Hall; [apply Hsv|done].
  - apply Hall; [by apply updateState_owf; apply Hsv|]. intros id. by apply recorded_update.
Qed.

(** [cancel] reaches the run that is active under the id. *)
Lemma cancel_ok s runId reason nowMs :
  supervised s →
  let s' := cancel s runId reason nowMs in
  supervised s' ∧ same_runs s s' ∧
  ∀ i, oget (ps_active s) runId = Some i → ∃ r', ps_runs s' !! i = Some r' ∧ rl_killed r' = true.
Proof.
  intros Hsv. cbv zeta. unfold cancel. destruct (oget (ps_active s) runId) as [i|] eqn:Ha.
  2:{ split_and!; [done|apply same_runs_refl|done]. }
  destruct (proj1 (sv_active _ Hsv _ _) Ha) as (r & Hr & Hrun & Hid). rewrite Hr.
  set (s1 := set_records s _).
  assert (same_runs s s1) as Hs1 by (split; [done|done|intros j x Hj; by exists x]).
  assert (supervised s1) as Hsv1.
  { apply (supervised_same s); [done|done|apply Hsv|by apply updateState_owf; apply Hsv|].
    intros id. by apply recorded_update. }
  destruct (requestCancel_ok s1 i r r reason nowMs Hsv1 Hr (same_run_refl r)) as (H1 & H2 & r' & Hr' & Hk);
    [by unfold spawned, is_running in *; destruct (rl_phase r)|by rewrite Hrun|].
  split_and!; [done|by apply (same_runs_trans s s1)|]. intros j [= <-]. exists r'. auto.
Qed.

Lemma in_scope_same s s' scope i : same_runs s s' → in_scope s' scope i = in_scope s scope i.
Proof.
  intros Hs. unfold in_scope. destruct (ps_runs s !! i) as [r|] eqn:Hr.
  - destruct (sr_forward _ _ Hs _ _ Hr) as (r' & -> & _ & _ & -> & _). done.
  - destruct (ps_runs s' !! i) as [r'|] eqn:Hr'; [|done].
    destruct (same_runs_back _ _ _ _ Hs Hr') as (r & Hr'' & _). congruence.
Qed.

Definition cancel_entry (scopeKey : string) (reason : TerminationReason) (nowMs : Z) (s : ProcessSupervisor)
    (e : string * nat) : ProcessSupervisor :=
  if in_scope s scopeKey e.2 then cancel s e.1 reason nowMs else s.

Lemma cancel_entries_ok s0 scope reason nowMs (l : list (string * nat)) s :
  supervised s → same_runs s0 s → Forall (λ e, oget (ps_active s0) e.1 = Some e.2) l →
  let s' := List.fold_left (cancel_entry scope reason nowMs) l s in
  supervised s' ∧ same_runs s s' ∧
  Forall (λ e, in_scope s0 scope e.2 = true → ∃ r', ps_runs s' !! e.2 = Some r' ∧ rl_killed r' = true) l.
Proof.
  cbv zeta. revert s. induction l as [|e l IH]; intros s Hsv Hs0 Hl.
  - split_and!; [done|apply same_runs_refl|constructor].
  - apply Forall_cons in Hl as [He Hl]. cbn [List.fold_left].
    assert (supervised (cancel_entry scope reason nowMs s e) ∧ same_runs s (cancel_entry scope reason nowMs s e) ∧
      (in_scope s0 scope e.2 = true → ∃ r', ps_runs (cancel_entry scope reason nowMs s e) !! e.2 = Some r' ∧ rl_killed r' = true))
      as (H1 & H2 & H3).
    { unfold cancel_entry. rewrite (in_scope_same s0 s) by done. destruct (in_scope s0 scope e.2).
      - destruct (cancel_ok s e.1 reason nowMs Hsv) as (G1 & G2 & G3). split_and!; [done|done|].
        intros _. apply G3. by rewrite (sr_active _ _ Hs0).
      - split_and!; [done|apply same_runs_refl|done]. }
    destruct (IH _ H1 (same_runs_trans _ _ _ Hs0 H2) Hl) as (G1 & G2 & G3).
    split_and!; [done|by eapply same_runs_trans|]. constructor; [|done].
    intros Hin. destruct (H3 Hin) as (r' & Hr' & Hk). destruct (sr_forward _ _ G2 _ _ Hr') as (r'' & Hr'' & _ & _ & _ & Hk').
    exists r''. auto.
Qed.

(** [cancelScope] reaches every process of the scope that runs. *)
Lemma cancelScope_ok s scope reason nowMs :
  supervised s →
  let s' := cancelScope s scope reason nowMs in
  supervised s' ∧ same_runs s s' ∧
  ∀ i r, trim scope ≠ EmptyString → ps_runs s !! i = Some r → is_running r = true → rl_scopeKey r = Some scope →
    ∃ r', ps_runs s' !! i = Some r' ∧ rl_killed r' = true.
Proof.
  intros Hsv. cbv zeta. unfold cancelScope. destruct (str_truthy (trim scope)) eqn:Ht; simpl negb; cbv iota.
  2:{ split_and!; [done|apply same_runs_refl|]. intros i r Hne. by destruct (trim scope). }
  change (λ s e, _) with (cancel_entry scope reason nowMs).
  assert (Forall (λ e, oget (ps_active s) e.1 = Some e.2) (ps_active s)) as Hall.
  { apply Forall_forall. intros [id i] Hin. apply oget_In_wf; [apply Hsv|by apply list_elem_of_In]. }
  destruct (cancel_entries_ok s scope reason nowMs (ps_active s) s Hsv (same_runs_refl s) Hall) as (H1 & H2 & H3).
  split_and!; [done|done|]. intros i r _ Hr Hrun Hscope.
  assert (oget (ps_active s) (rl_id r) = Some i) as Ha by (apply (sv_active _ Hsv); by exists r).
  apply oget_In, list_elem_of_In in Ha. rewrite Forall_forall in H3. apply (H3 _ Ha).
  unfold in_scope. simpl. rewrite Hr. by apply bool_decide_eq_true.
Qed.

(** ** A run that changes its phase *)

Lemma is_running_alive r : is_running r = true → alive r = true.
Proof. unfold is_running, alive. by destruct (rl_phase r). Qed.

Lemma supervised_phase s s' i r r' :
  supervised s → ps_runs s !! i = Some r → alive r = true → ps_runs s' = <[i := r']> (ps_runs s) → rl_id r' = rl_id r →
  run_ok r' → owf (ps_active s') →
  (∀ id, oget (ps_active s') id =
     if decide (id = rl_id r) then (if is_running r' then Some i else None) else oget (ps_active s) id) →
  owf (ps_records s') → (∀ id, id ≠ rl_id r → recorded (ps_records s) id → recorded (ps_records s') id) →
  (alive r' = true → recorded (ps_records s') (rl_id r)) → supervised s'.
Proof.
  intros [Hok Hd _ Ha _ Hrec] Hi Hal Hruns Hid Hr' Hw' Ha' Hwr Hkeep Hnew.
  pose proof (lookup_lt_Some _ _ _ Hi) as Hlt.
  assert (∀ j x, ps_runs s' !! j = Some x → (j = i ∧ x = r') ∨ (j ≠ i ∧ ps_runs s !! j = Some x ∧ (alive x = true → rl_id x ≠ rl_id r))) as Hcases.
  { intros j x. rewrite Hruns. destruct (decide (j = i)) as [->|Hne].
    - rewrite list_lookup_insert_eq by done. intros [= <-]. by left.
    - rewrite list_lookup_insert_ne by done. intros Hj. right. split_and!; try done.
      intros Hx Heq. apply Hne. by apply (Hd j i x r). }
  split; [| |done| |done|].
  - rewrite Hruns. by apply Forall_insert.
  - intros j k x y Hx Hy Hax Hay Heq.
    destruct (Hcases _ _ Hx) as [[-> ->]|(Hj & Hx' & Hxr)], (Hcases _ _ Hy) as [[-> ->]|(Hk & Hy' & Hyr)]; [done| | |].
    + destruct (Hyr Hay). congruence.
    + destruct (Hxr Hax). congruence.
    + by apply (Hd j k x y).
  - intros id j. rewrite Ha'. split.
    + case_decide as Hdec; [subst id|].
      * destruct (is_running r') eqn:Hrun; [|done]. intros [= <-]. exists r'. rewrite Hruns, list_lookup_insert_eq by done. done.
      * intros Hj. apply Ha in Hj as (x & Hx & Hrun & Hxid). exists x. split_and!; [|done|done].
        rewrite Hruns, list_lookup_insert_ne; [done|]. intros ->. congruence.
    + intros (x & Hx & Hrun & Hxid). destruct (Hcases _ _ Hx) as [[-> ->]|(Hne & Hj & Hxr)].
      * rewrite decide_True by congruence. by rewrite Hrun.
      * apply is_running_alive in Hrun as Hxa. rewrite decide_False by (rewrite <- Hxid; auto). apply Ha. by exists x.
  - intros x [j Hj]%list_elem_of_lookup Hxa. destruct (Hcases _ _ Hj) as [[-> ->]|(Hne & Hj' & Hxr)].
    + rewrite Hid. by apply Hnew.
    + apply Hkeep; [auto|]. apply Hrec; [|done]. apply list_elem_of_lookup. by exists j.
Qed.

Lemma is_running_phase r : is_running r = true → rl_phase r = Running.
Proof. unfold is_running. by destruct (rl_phase r). Qed.

Lemma run_ok_at s i r : supervised s → ps_runs s !! i = Some r → run_ok r.
Proof. intros Hsv Hi. exact (proj1 (Forall_lookup _ _) (sv_runs _ Hsv) i r Hi). Qed.

Lemma recorded_at s i r :
  supervised s → ps_runs s !! i = Some r → alive r = true → recorded (ps_records s) (rl_id r).
Proof. intros Hsv Hi. apply (sv_records _ Hsv). apply list_elem_of_lookup. by exists i. Qed.

Lemma active_at s i r :
  supervised s → ps_runs s !! i = Some r → alive r = true →
  oget (ps_active s) (rl_id r) = if is_running r then Some i else None.
Proof.
  intros Hsv Hi Hal. destruct (is_running r) eqn:Hrun.
  - apply (sv_active _ Hsv). by exists r.
  - destruct (oget (ps_active s) (rl_id r)) as [j|] eqn:Ha; [|done].
    apply (sv_active _ Hsv) in Ha as (x & Hx & Hxr & Hid).
    rewrite (sv_distinct _ Hsv j i x r Hx Hi (is_running_alive _ Hxr) Hal Hid) in Hx. congruence.
Qed.

Lemma inactive_at s i r :
  supervised s → ps_runs s !! i = Some r → is_running r = false → oget (ps_active s) (rl_id r) ≠ Some i.
Proof. intros Hsv Hi Hrun (x & Hx & Hxr & _)%(sv_active _ Hsv). congruence. Qed.

(** Cancellations leave the ids of the runs that are alive. *)
Lemma fresh_same s s' id :
  same_runs s s' → (∀ r, r ∈ ps_runs s → alive r = true → rl_id r ≠ id) → ∀ r, r ∈ ps_runs s' → alive r = true → rl_id r ≠ id.
Proof.
  intros Hs Hf r' [j Hj]%list_elem_of_lookup. destruct (same_runs_back _ _ _ _ Hs Hj) as (r & Hr & Hsame).
  rewrite (proj1 (alive_same _ _ Hsame)), (proj1 Hsame). apply Hf. apply list_elem_of_lookup. by exists j.
Qed.

Lemma spawn_start_ok s input newId nowMs :
  supervised s → fresh s (Spawn input newId) → supervised (spawn_start s input newId nowMs).
Proof.
  intros Hsv Hfresh. unfold spawn_start. simpl in Hfresh. set (runId := _ ?? newId) in *.
  set (s1 := match normalizeOptionalString (si_scopeKey input) with Some _ => _ | None => s end).
  assert (supervised s1 ∧ same_runs s s1) as [Hsv1 Hs1].
  { subst s1. destruct (normalizeOptionalString (si_scopeKey input)) as [scope|]; [|split; [done|apply same_runs_refl]].
    destruct (si_replaceExistingScope input); [|split; [done|apply same_runs_refl]].
    destruct (cancelScope_ok s scope ManualCancel nowMs Hsv) as (? & ? & _). done. }
  pose proof (fresh_same _ _ _ Hs1 Hfresh) as Hfresh1. clear Hfresh. rename Hfresh1 into Hfresh. clearbody s1 runId.
  clear Hs1 Hsv s.
  destruct Hsv1 as [Hok Hd Hw Ha Hwr Hrec].
  assert (∀ id record, is_exited record = false → recorded (ps_records s1) id → recorded (registry_add (ps_records s1) record) id) as Hadd.
  { intros id record He (x & Hx & Hxe). unfold registry_add, recorded. rewrite oget_oset. case_decide; eauto. }
  split; simpl.
  - apply Forall_app. split; [done|]. constructor; [by split_and!|constructor].
  - assert (∀ i r, ps_runs s1 !! i = Some r → alive r = true → rl_id r ≠ runId) as Hnew
      by (intros i r Hi; apply Hfresh, list_elem_of_lookup; by exists i).
    intros i j x y Hx Hy Hax Hay Heq. simpl in Hx, Hy. apply lookup_app_Some in Hx as [Hx|[Hli Hx]], Hy as [Hy|[Hlj Hy]].
    + by apply (Hd i j x y).
    + apply list_lookup_singleton_Some in Hy as [_ <-]. by destruct (Hnew _ _ Hx Hax).
    + apply list_lookup_singleton_Some in Hx as [_ <-]. by destruct (Hnew _ _ Hy Hay).
    + apply list_lookup_singleton_Some in Hx as [Hi _], Hy as [Hj _]. lia.
  - done.
  - intros id i. rewrite Ha. split; intros (r & Hr & Hrun & Hid); exists r; split_and!; try done.
    + by apply lookup_app_l_Some.
    + apply lookup_app_Some in Hr as [Hr|[_ Hr]]; [done|]. apply list_lookup_singleton_Some in Hr as [_ <-]. done.
  - by apply owf_oset.
  - intros r Hr Hal. apply elem_of_app in Hr as [Hr|Hr]; [by apply Hadd, Hrec|].
    apply list_elem_of_singleton in Hr. subst r. simpl. eexists. unfold registry_add. simpl. split; [apply oget_oset_eq|done].
Qed.

Lemma spawn_ready_ok s i r pid nowMs :
  supervised s → ps_runs s !! i = Some r → is_starting r = true → supervised (spawn_ready s i r pid nowMs).
Proof.
  intros Hsv Hi Hst. assert (rl_phase r = Starting) as Hp by (unfold is_starting in Hst; by destruct (rl_phase r)).
  pose proof (run_ok_at _ _ _ Hsv Hi) as Hok. unfold run_ok in Hok. rewrite Hp in Hok. destruct Hok as (_ & _ & Hf).
  eapply (supervised_phase s); [done|exact Hi|by unfold alive; rewrite Hp|reflexivity|done| | | | | |].
  - unfold run_ok. simpl. split_and!; [| |by rewrite Hf];
      [destruct (rl_overallTimeoutMs r)|destruct (rl_noOutputTimeoutMs r)]; simpl; unfold armed; eauto.
  - apply owf_oset, Hsv.
  - intros id. simpl. rewrite oget_oset. by repeat case_decide; subst.
  - apply updateState_owf, Hsv.
  - intros id _. by apply recorded_update.
  - intros _. apply recorded_update; [done|]. apply (recorded_at _ _ _ Hsv Hi). unfold alive. by rewrite Hp.
Qed.

Lemma spawn_failed_ok maxExited s i r nowMs :
  supervised s → ps_runs s !! i = Some r → is_starting r = true → supervised (spawn_failed maxExited s i r nowMs).
Proof.
  intros Hsv Hi Hst. assert (rl_phase r = Starting) as Hp by (unfold is_starting in Hst; by destruct (rl_phase r)).
  pose proof (run_ok_at _ _ _ Hsv Hi) as Hok. unfold run_ok in Hok. rewrite Hp in Hok.
  assert (alive r = true) as Hal by (unfold alive; by rewrite Hp).
  eapply (supervised_phase s); [done|exact Hi|done|reflexivity|done|exact Hok|apply Hsv| | | |done].
  - intros id. simpl. case_decide as Hd; [|done]. subst id. rewrite (active_at _ _ _ Hsv Hi Hal). unfold is_running. by rewrite Hp.
  - apply finalize_owf, Hsv.
  - intros id Hne. apply finalize_records; [apply Hsv|done].
Qed.

Lemma settle_run_ok maxExited s i r exit nowMs :
  supervised s → ps_runs s !! i = Some r → is_running r = true → supervised (settle_run maxExited s i r exit nowMs).
Proof.
  intros Hsv Hi Hrun.
  eapply (supervised_phase s); [done|exact Hi|by apply is_running_alive|reflexivity|done|by split|apply owf_odel, Hsv| | | |done].
  - intros id. simpl. rewrite oget_odel. by repeat case_decide; subst.
  - simpl. destruct exit; apply finalize_owf, Hsv.
  - intros id Hne. simpl. destruct exit; (apply finalize_records; [apply Hsv|done]).
Qed.

Lemma on_output_ok s i r isErr chunk nowMs :
  supervised s → ps_runs s !! i = Some r → spawned r = true → supervised (on_output s i r isErr chunk nowMs).
Proof.
  intros Hsv Hi Hsp. pose proof (run_ok_at _ _ _ Hsv Hi) as Hok.
  apply (supervised_same s); [done| | | |].
  - by eapply same_runs_insert; [exact Hi| |reflexivity|reflexivity].
  - simpl. apply Forall_insert; [apply Hsv|]. unfold run_ok, spawned, is_running in *. simpl.
    destruct (rl_phase r); try done.
    + destruct Hok as (H1 & H2 & H3). split_and!; [done| |done].
      destruct (rl_noOutputTimeoutMs r); [unfold armed; eauto|done].
    + destruct Hok as [H1 H2]. split; [done|]. by destruct (rl_noOutputTimeoutMs r).
  - simpl. unfold registry_touchOutput. destruct (oget (ps_records s) (rl_id r)); [apply owf_oset|]; apply Hsv.
  - intros id. apply recorded_touch.
Qed.

(** A timer is armed only while the process runs. *)
Lemma fires_running r timer nowMs :
  run_ok r → timer = rl_timeoutTimer r ∨ timer = rl_noOutputTimer r → fires timer nowMs = true → is_running r = true.
Proof.
  unfold run_ok, is_running. intros Hok Ht Hf. destruct (rl_phase r); try done; destruct Ht as [->| ->];
    repeat match goal with H : _ ∧ _ |- _ => destruct H end;
    match goal with H : ?t = None |- _ => rewrite H in Hf; done end.
Qed.

Lemma on_run_some s i enabled f s' :
  on_run s i enabled f = Some s' → ∃ r, ps_runs s !! i = Some r ∧ enabled r = true ∧ s' = f r.
Proof.
  unfold on_run. destruct (ps_runs s !! i) as [r|]; [|done]. destruct (enabled r) eqn:He; [|done].
  intros [= <-]. by exists r.
Qed.

Lemma handle_ok maxExited s e nowMs s' :
  supervised s → fresh s e → handle maxExited s e nowMs = Some s' → supervised s'.
Proof.
  intros Hsv Hfresh.
  assert (∀ i r r1 reason, ps_runs s !! i = Some r → same_run r r1 → is_running r = true →
    supervised (requestCancel s i r1 reason nowMs)) as Hcancel.
  { intros i r r1 reason Hi Hs Hrun. apply (requestCancel_ok s i r r1); try done.
    - unfold spawned. by rewrite (is_running_phase _ Hrun).
    - rewrite (proj2 (alive_same _ _ Hs)), Hrun. done. }
  destruct e; cbn [handle]; intros Hh;
    try (apply on_run_some in Hh as (r & Hi & He & ->); pose proof (run_ok_at _ _ _ Hsv Hi) as Hok); simplify_eq.
  - by apply spawn_start_ok.
  - by apply spawn_ready_ok.
  - by apply spawn_failed_ok.
  - by apply on_output_ok.
  - apply (Hcancel _ r); [done|done|]. by apply (fires_running r (rl_timeoutTimer r) nowMs); [|left|].
  - apply (Hcancel _ r); [done|done|]. by apply (fires_running r (rl_noOutputTimer r) nowMs); [|right|].
  - by apply settle_run_ok.
  - by apply settle_run_ok.
  - by apply cancel_ok.
  - by apply cancelScope_ok.
  - apply (requestCancel_ok s i r r); try done. unfold run_ok, is_running, spawned in *. intros Hrun.
    destruct (rl_phase r); try done.
Qed.

Lemma reachable_supervised maxExited s : reachable maxExited s → supervised s.
Proof.
  induction 1 as [|s e nowMs s' _ IH Hf Hh].
  - split; simpl; [constructor|by intros i j r r' Hi|apply owf_nil| |apply owf_nil|].
    + intros id i. split; [done|]. by intros (r & Hr & _).
    + intros r Hr. by apply elem_of_nil in Hr.
  - exact (handle_ok _ _ _ _ _ IH Hf Hh).
Qed.

(** C18. Whatever happens and in whatever order, as long as no run gets the id of one that
    is starting or running ([fresh]; ids of ended runs may be used again), every process
    that runs can be ended: it is registered as active and its record is kept and not
    taken for an exited one; its limits of time are armed unless it was told to end;
    cancelling its id or its scope tells it to. A process that ended has no timer left and
    is not the one registered under its id. *)
Theorem every_process_can_be_ended maxExited s i r :
  reachable maxExited s → ps_runs s !! i = Some r →
  (rl_phase r = Running →
     oget (ps_active s) (rl_id r) = Some i ∧ recorded (ps_records s) (rl_id r) ∧
     armed (rl_overallTimeoutMs r) (rl_timeoutTimer r) (rl_killed r) ∧
     armed (rl_noOutputTimeoutMs r) (rl_noOutputTimer r) (rl_killed r) ∧
     (∀ reason nowMs, ∃ r', ps_runs (cancel s (rl_id r) reason nowMs) !! i = Some r' ∧ rl_killed r' = true) ∧
     (∀ scope reason nowMs, trim scope ≠ EmptyString → rl_scopeKey r = Some scope →
        ∃ r', ps_runs (cancelScope s scope reason nowMs) !! i = Some r' ∧ rl_killed r' = true)) ∧
  ((∃ exit, rl_phase r = Settled exit) →
     rl_timeoutTimer r = None ∧ rl_noOutputTimer r = None ∧ oget (ps_active s) (rl_id r) ≠ Some i).
Proof.
  intros Hs%reachable_supervised Hi. pose proof (run_ok_at _ _ _ Hs Hi) as Hok. unfold run_ok in Hok.
  split.
  - intros Hp. rewrite Hp in Hok. destruct Hok as (H1 & H2 & _).
    assert (oget (ps_active s) (rl_id r) = Some i) as Ha
      by (apply (sv_active _ Hs); exists r; unfold is_running; by rewrite Hp).
    split_and!; try done.
    + apply (recorded_at _ _ _ Hs Hi). unfold alive. by rewrite Hp.
    + intros reason nowMs. by apply (cancel_ok s (rl_id r) reason nowMs Hs).
    + intros scope reason nowMs Hne Hscope. apply (cancelScope_ok s scope reason nowMs Hs) with (r := r); try done.
      unfold is_running. by rewrite Hp.
  - intros [exit Hp]. rewrite Hp in Hok. destruct Hok. split_and!; [done|done|].
    apply (inactive_at _ _ _ Hs Hi). unfold is_running. by rewrite Hp.
Qed.

(** ** Instances *)

Definition demoInput (runId scope : string) (timeoutMs : option Z) : SpawnInput :=
  mkSpawn (Some runId) "session" "backend" (Some scope) true (num_of_Z <$> timeoutMs) None None.

(** Whether the events are possible and their ids fresh; the state they lead to. *)
Definition freshb (s : ProcessSupervisor) (e : Event) : bool :=
  match e with
  | Spawn input newId =>
      let runId := normalizeOptionalString (si_runId input) ?? newId in
      forallb (λ r, negb (alive r && bool_decide (rl_id r = runId))) (ps_runs s)
  | _ => true
  end.

Fixpoint play (maxExited : Z) (s : ProcessSupervisor) (events : list (Event * Z)) : option ProcessSupervisor :=
  match events with
  | [] => Some s
  | (e, nowMs) :: rest =>
      if freshb s e then
        match handle maxExited s e nowMs with Some s' => play maxExited s' rest | None => None end
      else None
  end.

Lemma events_reachable maxExited events s s' :
  reachable maxExited s → play maxExited s events = Some s' → reachable maxExited s'.
Proof.
  revert s. induction events as [|[e nowMs] events IH]; intros s Hs; simpl; [by intros [= <-]|].
  destruct (freshb s e) eqn:Hf; [|done]. destruct (handle maxExited s e nowMs) as [s1|] eqn:Hh; [|done].
  apply IH. apply (reach_step _ s e nowMs); [done| |done].
  destruct e; try done. simpl in *. rewrite forallb_forall in Hf. intros r Hin%list_elem_of_In Hal.
  specialize (Hf r Hin). rewrite Hal, andb_true_l in Hf. by apply negb_true_iff, bool_decide_eq_false in Hf.
Qed.

Definition played (events : list (Event * Z)) : ProcessSupervisor := default emptySupervisor (play 2000 emptySupervisor events).

(** Three runs: the first was replaced by the second in their scope and has exited; the
    second could not start, and its id was used again. *)
Definition demoEvents : list (Event * Z) :=
  [(Spawn (demoInput "a" "chat" None) "u1", 0); (AdapterReady 0 (Some 10), 1); (Output 0 false "hello", 2);
   (Spawn (demoInput "b" "chat" (Some 5000)) "u2", 3); (ProcessExit 0 None (Some "SIGKILL"), 4);
   (AdapterFailed 1, 4); (Spawn (demoInput "b" "chat" (Some 5000)) "u3", 4); (AdapterReady 2 (Some 11), 5)].

Lemma every_process_can_be_ended_witness :
  ∃ r, ps_runs (played demoEvents) !! 2%nat = Some r ∧ rl_timeoutTimer r = Some 5005 ∧
    oget (ps_active (played demoEvents)) "b" = Some 2%nat.
Proof.
  destruct (ps_runs (played demoEvents) !! 2%nat) as [r|] eqn:Hr; [|by vm_compute in Hr].
  exists r. split; [done|].
  destruct (every_process_can_be_ended 2000 (played demoEvents) 2 r) as [Hrun _]; [|exact Hr|].
  - apply (events_reachable 2000 demoEvents emptySupervisor); [constructor|by vm_compute].
  - vm_compute in Hr. injection Hr as <-. split; [done|]. exact (proj1 (Hrun eq_refl)).
Defined.

(** ** Where the code departs from what it means to do *)

(** An id that is used again while its run still runs: the entry of the active runs is
    overwritten, so that cancelling the id or the scope reaches only the second process,
    and the end of the one takes the other out of the active runs. *)
Lemma reused_id_hides_the_first_run :
  let events := [(Spawn (demoInput "a" "chat" None) "u1", 0); (AdapterReady 0 (Some 10), 1);
                 (Spawn (mkSpawn (Some "a") "session" "backend" (Some "chat") false None None None) "u2", 2);
                 (AdapterReady 1 (Some 11), 3)] in
  let running := λ events, option_map (λ s, List.map (λ r, (is_running r, rl_killed r)) (ps_runs s))
                             (run_events 2000 emptySupervisor events) in
  running (events ++ [(Cancel "a" ManualCancel, 4); (CancelScope "chat" ManualCancel, 4)]) = Some [(true, false); (true, true)] ∧
  running (events ++ [(ProcessExit 0 (Some 0) None, 4); (Cancel "a" ManualCancel, 5)]) =
    Some [(false, false); (true, false)].
Proof. split; reflexivity. Qed.

(** A process whose adapter is still being created is not active: a replacement of its
    scope does not end it, and both run. *)
Lemma starting_process_escapes_replacement :
  let s := played [(Spawn (demoInput "a" "chat" None) "u1", 0); (Spawn (demoInput "b" "chat" None) "u2", 1);
                   (AdapterReady 0 (Some 10), 2); (AdapterReady 1 (Some 11), 3)] in
  List.map (λ r, (rl_scopeKey r, is_running r, rl_killed r)) (ps_runs s) =
    [(Some "chat", true, false); (Some "chat", true, false)].
Proof. reflexivity. Qed.

(** A cancellation of a run that has ended takes its record out of the exited ones: it
    reads as exiting from then on, and is not pruned. *)
Lemma late_cancellation_reopens_the_record :
  let s := played [(Spawn (demoInput "a" "chat" None) "u1", 0); (AdapterReady 0 (Some 10), 1);
                   (ProcessExit 0 (Some 0) None, 2); (CancelRun 0 ManualCancel, 3)] in
  rr_state <$> oget (ps_records s) "a" = Some RunExiting ∧ exited_count (ps_records s) = 0.
Proof. split; reflexivity. Qed.

(** [cancel] overwrites the reason that the record has: a run that exceeded its time and is
    cancelled before it exits is recorded as cancelled, while [wait] reports the timeout. *)
Lemma cancellation_overwrites_the_reason :
  let s := played [(Spawn (demoInput "a" "chat" (Some 10)) "u1", 0); (AdapterReady 0 (Some 10), 1);
                   (OverallTimer 0, 11); (Cancel "a" ManualCancel, 12); (ProcessExit 0 None (Some "SIGKILL"), 13)] in
  rr_terminationReason <$> oget (ps_records s) "a" = Some (Some ManualCancel) ∧
  List.map (λ r, match rl_phase r with Settled (Some e) => Some (re_reason e) | _ => None end) (ps_runs s) =
    [Some OverallTimeout].
Proof. split; reflexivity. Qed.

(** A limit beyond 2^31 - 1 milliseconds is a timer of one millisecond. *)
Lemma long_limit_fires_at_once ms :
  2147483647 < ms → clampTimeout (Some (num_of_Z ms)) = Some ms ∧ timer_delay ms = 1.
Proof.
  intros Hms. split.
  - unfold clampTimeout, num_of_Z. rewrite floorQ_inject. destruct (Qle_bool (inject_Z ms) 0) eqn:E.
    + apply Qle_bool_iff in E. change 0%Q with (inject_Z 0) in E. rewrite <- Zle_Qle in E. lia.
    + f_equal. lia.
  - unfold timer_delay. rewrite (proj2 (Z.ltb_lt _ _)) by lia. done.
Qed.

(** The records of exited runs stay within their bound. *)
Lemma remove_exited_count n records :
  0 <= n → n <= exited_count records → exited_count (remove_exited n records) = exited_count records - n.
Proof.
  unfold exited_count. revert n. induction records as [|[k v] records IH]; intros n H0 Hn; simpl in *; [lia|].
  destruct (Z.leb_spec n 0); [simpl; replace n with 0 by lia; lia|].
  destruct (is_exited v) eqn:Hv; simpl in *; rewrite ?Hv; simpl in *; rewrite IH by lia; lia.
Qed.

Lemma exited_records_are_bounded maxExited records :
  0 <= maxExited → exited_count (pruneExitedRecords maxExited records) <= maxExited.
Proof.
  intros Hm. unfold pruneExitedRecords. destruct (Z.leb_spec (exited_count records) maxExited); [done|].
  rewrite remove_exited_count; lia.
Qed.

End Supervisor.
