(* ===== verification/SessionKey.v ===== *)
(** * Session keys: src/sessions/session-key-utils.ts, src/routing/session-key.ts

    A session key is [agent:<agent id>:<rest>]. The file models how keys are
    parsed and built, the sanitisation of the agent and account ids that go into
    them (src/routing/account-id.ts, with its two memo caches), the identity
    links that merge the direct chats of one person, and the thread suffix. *)

From Stdlib Require Import Ascii.
From S2P Require Import Prelude OMap.

Module SessionKey.
Import StringCoerce.

Definition colon : Ascii.ascii := ":"%char.
Definition dash : Ascii.ascii := "-"%char.

(** ** Character classes of the id expressions *)

Definition is_digit (c : Ascii.ascii) : bool :=
  let n := Ascii.N_of_ascii c in ((48 <=? n) && (n <=? 57))%N%bool.
Definition is_lower_alpha (c : Ascii.ascii) : bool :=
  let n := Ascii.N_of_ascii c in ((97 <=? n) && (n <=? 122))%N%bool.
Definition is_upper_alpha (c : Ascii.ascii) : bool :=
  let n := Ascii.N_of_ascii c in ((65 <=? n) && (n <=? 90))%N%bool.

(** [[a-z0-9]] and [[a-z0-9_-]]; the [_i] versions ignore case. *)
Definition alnum (c : Ascii.ascii) : bool := is_digit c || is_lower_alpha c.
Definition id_char (c : Ascii.ascii) : bool :=
  alnum c || Ascii.eqb c "_" || Ascii.eqb c dash.
Definition alnum_i (c : Ascii.ascii) : bool := alnum c || is_upper_alpha c.
Definition id_char_i (c : Ascii.ascii) : bool := id_char c || is_upper_alpha c.

(** [VALID_ID_RE]: [/^[a-z0-9][a-z0-9_-]{0,63}$/i] *)
Definition VALID_ID_RE (s : string) : bool :=
  match s with
  | EmptyString => false
  | String c r => alnum_i c && (String.length r <=? 63)%nat && str_all id_char_i r
  end.

(** [s.replace(INVALID_CHARS_RE, "-")]: each maximal run of characters outside
    [[a-z0-9_-]] becomes one dash; [inRun] says that the run has been replaced. *)
Fixpoint replace_invalid (inRun : bool) (s : string) : string :=
  match s with
  | EmptyString => EmptyString
  | String c r =>
      if id_char c then String c (replace_invalid false r)
      else if inRun then replace_invalid true r
      else String dash (replace_invalid true r)
  end.

(** [s.replace(LEADING_DASH_RE, "")] and [s.replace(TRAILING_DASH_RE, "")] *)
Fixpoint strip_leading_dashes (s : string) : string :=
  match s with
  | EmptyString => EmptyString
  | String c r => if Ascii.eqb c dash then strip_leading_dashes r else s
  end.

Fixpoint strip_trailing_dashes (s : string) : string :=
  match s with
  | EmptyString => EmptyString
  | String c r =>
      match strip_trailing_dashes r with
      | EmptyString => if Ascii.eqb c dash then EmptyString else String c EmptyString
      | t => String c t
      end
  end.

(** The fallback both id normalisers share. *)
Definition slugify (normalized : string) : string :=
  str_take 64 (strip_trailing_dashes (strip_leading_dashes (replace_invalid false normalized))).

(** ** Agent ids *)

Definition DEFAULT_AGENT_ID : string := "main".
Definition DEFAULT_MAIN_KEY : string := "main".
Definition DEFAULT_ACCOUNT_ID : string := "default".

(** [(value ?? "").trim()] *)
Definition trimmed_or_empty (value : option string) : string := trim (value ?? EmptyString).

Definition normalizeAgentId (value : option string) : string :=
  let trimmed := trimmed_or_empty value in
  match trimmed with
  | EmptyString => DEFAULT_AGENT_ID
  | _ =>
      let normalized := normalizeLowercaseStringOrEmpty (Some trimmed) in
      if VALID_ID_RE trimmed then normalized
      else str_or (slugify normalized) DEFAULT_AGENT_ID
  end.

Definition isValidAgentId (value : option string) : bool :=
  let trimmed := trimmed_or_empty value in str_truthy trimmed && VALID_ID_RE trimmed.

Definition sanitizeAgentId (value : option string) : string := normalizeAgentId value.

Definition normalizeToken (value : option string) : string :=
  normalizeLowercaseStringOrEmpty value.

Definition normalizeMainKey (value : option string) : string :=
  str_or (normalizeLowercaseStringOrEmpty value) DEFAULT_MAIN_KEY.

(** ** Account ids *)

Definition BLOCKED_OBJECT_KEYS : list string := ["__proto__"; "prototype"; "constructor"].

Definition isBlockedObjectKey (key : string) : bool := bool_decide (key ∈ BLOCKED_OBJECT_KEYS).

Definition ACCOUNT_ID_CACHE_MAX : nat := 512.

Definition canonicalizeAccountId (value : string) : string :=
  let normalized := normalizeLowercaseStringOrEmpty (Some value) in
  if VALID_ID_RE value then normalized else slugify normalized.

Definition normalizeCanonicalAccountId (value : string) : option string :=
  let canonical := canonicalizeAccountId value in
  if negb (str_truthy canonical) || isBlockedObjectKey canonical then None
  else Some canonical.

(** [setNormalizeCache]: the entry is added, then the oldest is evicted when
    the cache is over its bound. *)
Definition setNormalizeCache {T} (cache : omap string T) (key : string) (value : T)
    : omap string T :=
  let cache1 := oset cache key value in
  if (osize cache1 <=? ACCOUNT_ID_CACHE_MAX)%nat then cache1
  else match okeys cache1 with
       | [] => cache1
       | oldest :: _ => odel cache1 oldest
       end.

(** What the two caches memoise, per trimmed value. *)
Definition accountIdOf (trimmed : string) : string :=
  str_or (normalizeCanonicalAccountId trimmed ?? EmptyString) DEFAULT_ACCOUNT_ID.

Definition optionalAccountIdOf (trimmed : string) : option string :=
  match normalizeCanonicalAccountId trimmed with
  | Some (String _ _ as id) => Some id
  | _ => None
  end.

(** [normalizeAccountId] with its cache: the result and the cache afterwards. *)
Definition normalizeAccountIdCached (cache : omap string string) (value : option string)
    : string * omap string string :=
  let trimmed := trimmed_or_empty value in
  match trimmed with
  | EmptyString => (DEFAULT_ACCOUNT_ID, cache)
  | _ =>
      let compute := let normalized := accountIdOf trimmed in
                     (normalized, setNormalizeCache cache trimmed normalized) in
      match oget cache trimmed with
      | Some (String _ _ as cached) => (cached, cache)
      | _ => compute
      end
  end.

Definition normalizeOptionalAccountIdCached (cache : omap string (option string))
    (value : option string) : option string * omap string (option string) :=
  let trimmed := trimmed_or_empty value in
  match trimmed with
  | EmptyString => (None, cache)
  | _ =>
      match oget cache trimmed with
      | Some cached => (cached, cache)
      | None => let normalized := optionalAccountIdOf trimmed in
                (normalized, setNormalizeCache cache trimmed normalized)
      end
  end.

(** What the functions return; [normalizeAccountId_cache_transparent] shows that
    the caches do not change it. *)
Definition normalizeAccountId (value : option string) : string :=
  match trimmed_or_empty value with
  | EmptyString => DEFAULT_ACCOUNT_ID
  | trimmed => accountIdOf trimmed
  end.

Definition normalizeOptionalAccountId (value : option string) : option string :=
  match trimmed_or_empty value with
  | EmptyString => None
  | trimmed => optionalAccountIdOf trimmed
  end.

(** ** Parsing *)

Record ParsedAgentSessionKey := mkParsed { agentId : string; rest : string }.

Definition parseAgentSessionKey (sessionKey : option string) : option ParsedAgentSessionKey :=
  match normalizeOptionalLowercaseString sessionKey with
  | None | Some EmptyString => None
  | Some raw =>
      match List.filter str_truthy (split_on colon raw) with
      | p0 :: p1 :: ((_ :: _) as ps) =>
          if negb (String.eqb p0 "agent") then None
          else
            match normalizeOptionalString (Some p1), join_with ":" ps with
            | Some (String _ _ as id), (String _ _ as rst) => Some (mkParsed id rst)
            | _, _ => None
            end
      | _ => None
      end
  end.

(** [normalizeOptionalLowercaseString(parsed?.rest)?.startsWith(p) === true] *)
Definition rest_starts_with (parsed : option ParsedAgentSessionKey) (p : string) : bool :=
  match normalizeOptionalLowercaseString (rest <$> parsed) with
  | Some r => starts_with r p
  | None => false
  end.

(** [/^cron:[^:]+:run:[^:]+$/] *)
Definition cron_run_re (s : string) : bool :=
  match split_on colon s with
  | [a; id; r; run] =>
      String.eqb a "cron" && str_truthy id && String.eqb r "run" && str_truthy run
  | _ => false
  end.

Definition isCronRunSessionKey (sessionKey : option string) : bool :=
  match parseAgentSessionKey sessionKey with
  | None => false
  | Some parsed => cron_run_re (rest parsed)
  end.

Definition isCronSessionKey (sessionKey : option string) : bool :=
  match parseAgentSessionKey sessionKey with
  | None => false
  | Some parsed => rest_starts_with (Some parsed) "cron:"
  end.

Definition isSubagentSessionKey (sessionKey : option string) : bool :=
  match normalizeOptionalString sessionKey with
  | None => false
  | Some raw =>
      if match normalizeOptionalLowercaseString (Some raw) with
         | Some r => starts_with r "subagent:" | None => false end
      then true
      else rest_starts_with (parseAgentSessionKey (Some raw)) "subagent:"
  end.

(** The number of non-overlapping occurrences of [t], which is
    [s.split(t).length - 1]; [skip] characters belong to the last one. *)
Fixpoint count_sub (skip : nat) (s t : string) : nat :=
  match s with
  | EmptyString => 0
  | String _ s' =>
      match skip with
      | S k => count_sub k s' t
      | O => if starts_with s t then S (count_sub (String.length t - 1) s' t)
             else count_sub 0 s' t
      end
  end.

Definition getSubagentDepth (sessionKey : option string) : nat :=
  match normalizeOptionalLowercaseString sessionKey with
  | None => 0
  | Some raw => count_sub 0 raw ":subagent:"
  end.

Definition isAcpSessionKey (sessionKey : option string) : bool :=
  match normalizeOptionalString sessionKey with
  | None => false
  | Some raw =>
      if starts_with (normalizeLowercaseStringOrEmpty (Some raw)) "acp:" then true
      else rest_starts_with (parseAgentSessionKey (Some raw)) "acp:"
  end.

(** [s.lastIndexOf(t)]; [None] is [-1]. *)
Fixpoint lastIndexOf (s t : string) : option nat :=
  match s with
  | EmptyString => if str_truthy t then None else Some 0%nat
  | String _ s' =>
      match lastIndexOf s' t with
      | Some n => Some (S n)
      | None => if starts_with s t then Some 0%nat else None
      end
  end.

Record ParsedThreadSessionSuffix :=
  mkSuffix { baseSessionKey : option string; threadId : option string }.

Definition threadMarker : string := ":thread:".

Definition parseThreadSessionSuffix (sessionKey : option string) : ParsedThreadSessionSuffix :=
  match normalizeOptionalString sessionKey with
  | None => mkSuffix None None
  | Some raw =>
      let lowerRaw := normalizeLowercaseStringOrEmpty (Some raw) in
      match lastIndexOf lowerRaw threadMarker with
      | None => mkSuffix (Some raw) (normalizeOptionalString None)
      | Some i =>
          mkSuffix (Some (str_take i raw))
            (normalizeOptionalString (Some (str_drop (i + String.length threadMarker) raw)))
      end
  end.

Inductive ConversationKind := KGroup | KChannel.

Record RawSessionConversationRef := mkConvRef {
  cr_channel : string; cr_kind : ConversationKind; cr_rawId : string; cr_prefix : string }.

Definition parseRawSessionConversationRef (sessionKey : option string)
    : option RawSessionConversationRef :=
  match normalizeOptionalString sessionKey with
  | None => None
  | Some raw =>
      let rawParts := List.filter str_truthy (split_on colon raw) in
      let bodyStartIndex :=
        if (3 <=? length rawParts)%nat &&
           bool_decide (normalizeOptionalLowercaseString (rawParts !! 0%nat) = Some "agent"%string)
        then 2%nat else 0%nat in
      let parts := skipn bodyStartIndex rawParts in
      if (length parts <? 3)%nat then None
      else
        match normalizeOptionalLowercaseString (parts !! 0%nat),
              normalizeOptionalLowercaseString (parts !! 1%nat) with
        | Some channel, Some k =>
            let kind := if String.eqb k "group" then Some KGroup
                        else if String.eqb k "channel" then Some KChannel else None in
            match kind,
                  normalizeOptionalString (Some (join_with ":" (skipn 2 parts))),
                  normalizeOptionalString (Some (join_with ":" (firstn (bodyStartIndex + 2) rawParts)))
            with
            | Some kd, Some rawId, Some prefix => Some (mkConvRef channel kd rawId prefix)
            | _, _, _ => None
            end
        | _, _ => None
        end
  end.

Definition resolveThreadParentSessionKey (sessionKey : option string) : option string :=
  let p := parseThreadSessionSuffix sessionKey in
  match threadId p with
  | None => None
  | Some _ => normalizeOptionalString (baseSessionKey p)
  end.

Inductive SessionKeyShape := ShapeMissing | ShapeAgent | ShapeLegacyOrAlias | ShapeMalformedAgent.

Definition classifySessionKeyShape (sessionKey : option string) : SessionKeyShape :=
  match trimmed_or_empty sessionKey with
  | EmptyString => ShapeMissing
  | raw =>
      match parseAgentSessionKey (Some raw) with
      | Some _ => ShapeAgent
      | None => if starts_with (normalizeLowercaseStringOrEmpty (Some raw)) "agent:"
                then ShapeMalformedAgent else ShapeLegacyOrAlias
      end
  end.

Definition resolveAgentIdFromSessionKey (sessionKey : option string) : string :=
  normalizeAgentId (Some ((agentId <$> parseAgentSessionKey sessionKey) ?? DEFAULT_AGENT_ID)).

Definition toAgentRequestSessionKey (storeKey : option string) : option string :=
  match trimmed_or_empty storeKey with
  | EmptyString => None
  | raw => Some ((rest <$> parseAgentSessionKey (Some raw)) ?? raw)
  end.

(** [scopedHeartbeatWakeOptions]: the session key added to the options, if any. *)
Definition scopedHeartbeatWakeSessionKey (sessionKey : string) : option string :=
  match parseAgentSessionKey (Some sessionKey) with
  | Some _ => Some sessionKey
  | None => None
  end.

(** ** Building *)

Definition buildAgentMainSessionKey (agent : string) (mainKey : option string) : string :=
  "agent:" +:+ normalizeAgentId (Some agent) +:+ ":" +:+ normalizeMainKey mainKey.

Definition toAgentStoreSessionKey (agent : string) (requestKey mainKey : option string) : string :=
  let raw := trimmed_or_empty requestKey in
  let lowered := normalizeLowercaseStringOrEmpty (Some raw) in
  if negb (str_truthy raw) || String.eqb lowered DEFAULT_MAIN_KEY
  then buildAgentMainSessionKey agent mainKey
  else match parseAgentSessionKey (Some raw) with
       | Some parsed => "agent:" +:+ agentId parsed +:+ ":" +:+ rest parsed
       | None =>
           if starts_with lowered "agent:" then lowered
           else "agent:" +:+ normalizeAgentId (Some agent) +:+ ":" +:+ lowered
       end.

Inductive ChatType := Direct | Group | Channel.
#[export] Instance ChatType_eq_dec : EqDecision ChatType.
Proof. solve_decision. Defined.

Definition ChatType_str (k : ChatType) : string :=
  match k with Direct => "direct" | Group => "group" | Channel => "channel" end.

Definition normalizeChatType (raw : option string) : option ChatType :=
  match normalizeOptionalLowercaseString raw with
  | None => None
  | Some v =>
      if String.eqb v "direct" || String.eqb v "dm" then Some Direct
      else if String.eqb v "group" then Some Group
      else if String.eqb v "channel" then Some Channel
      else None
  end.

Inductive DmScope := ScopeMain | PerPeer | PerChannelPeer | PerAccountChannelPeer.
#[export] Instance DmScope_eq_dec : EqDecision DmScope.
Proof. solve_decision. Defined.

(** [Record<string, string[]>] in the order of [Object.entries]; [None] is a
    value that is not an array. *)
Definition IdentityLinks := list (string * option (list string)).

Definition linkCandidates (channel peerId : string) : list string :=
  let rawCandidate := normalizeToken (Some peerId) in
  let ch := normalizeToken (Some channel) in
  (if str_truthy rawCandidate then [rawCandidate] else []) ++
  (if str_truthy ch then
     let scoped := normalizeToken (Some (ch +:+ ":" +:+ peerId)) in
     if str_truthy scoped then [scoped] else []
   else []).

(** The loop over the entries. *)
Fixpoint findLink (candidates : list string) (links : IdentityLinks) : option string :=
  match links with
  | [] => None
  | (canonical, ids) :: links' =>
      let canonicalName := trim canonical in
      if negb (str_truthy canonicalName) then findLink candidates links'
      else match ids with
           | None => findLink candidates links'
           | Some l =>
               if existsb (λ id, let n := normalizeToken (Some id) in
                                 str_truthy n && bool_decide (n ∈ candidates)) l
               then Some canonicalName
               else findLink candidates links'
           end
  end.

Definition resolveLinkedPeerId (identityLinks : option IdentityLinks) (channel peer : string)
    : option string :=
  match identityLinks with
  | None => None
  | Some links =>
      let peerId := trim peer in
      if negb (str_truthy peerId) then None
      else
        let candidates := linkCandidates channel peerId in
        if (length candidates =? 0)%nat then None else findLink candidates links
  end.

Record PeerKeyParams := mkPeerParams {
  pk_agentId : string;
  pk_mainKey : option string;
  pk_channel : string;
  pk_accountId : option string;
  pk_peerKind : option ChatType;
  pk_peerId : option string;
  pk_identityLinks : option IdentityLinks;
  pk_dmScope : option DmScope;
}.

(** The [channel] part of a key. *)
Definition channelPart (channel : string) : string :=
  str_or (normalizeLowercaseStringOrEmpty (Some channel)) "unknown".

(** The peer id of a direct chat, after identity links. *)
Definition directPeerId (p : PeerKeyParams) : string :=
  let peerId := trimmed_or_empty (pk_peerId p) in
  let linkedPeerId :=
    match pk_dmScope p ?? ScopeMain with
    | ScopeMain => None
    | _ => resolveLinkedPeerId (pk_identityLinks p) (pk_channel p) peerId
    end in
  let peerId :=
    match linkedPeerId with Some (String _ _ as l) => l | _ => peerId end in
  normalizeLowercaseStringOrEmpty (Some peerId).

Definition buildAgentPeerSessionKey (p : PeerKeyParams) : string :=
  let agent := normalizeAgentId (Some (pk_agentId p)) in
  match pk_peerKind p ?? Direct with
  | Direct =>
      let dmScope := pk_dmScope p ?? ScopeMain in
      let peerId := directPeerId p in
      let main := buildAgentMainSessionKey (pk_agentId p) (pk_mainKey p) in
      if negb (str_truthy peerId) then main
      else
        match dmScope with
        | PerAccountChannelPeer =>
            "agent:" +:+ agent +:+ ":" +:+ channelPart (pk_channel p) +:+ ":" +:+
              normalizeAccountId (pk_accountId p) +:+ ":direct:" +:+ peerId
        | PerChannelPeer =>
            "agent:" +:+ agent +:+ ":" +:+ channelPart (pk_channel p) +:+ ":direct:" +:+ peerId
        | PerPeer => "agent:" +:+ agent +:+ ":direct:" +:+ peerId
        | ScopeMain => main
        end
  | kind =>
      let peerId := str_or (normalizeLowercaseStringOrEmpty (pk_peerId p)) "unknown" in
      "agent:" +:+ agent +:+ ":" +:+ channelPart (pk_channel p) +:+ ":" +:+ ChatType_str kind
        +:+ ":" +:+ peerId
  end.

Definition buildGroupHistoryKey (channel : string) (accountId : option string)
    (peerKind : ConversationKind) (peerId : string) : string :=
  str_or (normalizeToken (Some channel)) "unknown" +:+ ":" +:+ normalizeAccountId accountId
    +:+ ":" +:+ (match peerKind with KGroup => "group" | KChannel => "channel" end)
    +:+ ":" +:+ str_or (normalizeLowercaseStringOrEmpty (Some peerId)) "unknown".

(** [resolveThreadSessionKeys]: the session key and the parent key. *)
Definition resolveThreadSessionKeys (base : string) (thread : option string)
    (parent : option string) (useSuffix : option bool)
    (normalizeThreadId : option (string → string)) : string * option string :=
  match trimmed_or_empty thread with
  | EmptyString => (base, None)
  | tid =>
      let normalizedThread :=
        match normalizeThreadId with
        | Some f => f tid
        | None => normalizeLowercaseStringOrEmpty (Some tid)
        end in
      (if useSuffix ?? true then base +:+ threadMarker +:+ normalizedThread else base, parent)
  end.

(** [resolveAccountEntry] and [resolveNormalizedAccountEntry] of
    routing/account-lookup.ts: the accounts in the order of [Object.keys]. *)
Definition resolveNormalizedAccountEntry {T} (accounts : option (omap string T))
    (account : string) (normalize : string → string) : option T :=
  match accounts with
  | None => None
  | Some m =>
      match oget m account with
      | Some v => Some v
      | None =>
          match List.find (λ key, String.eqb (normalize key) (normalize account)) (okeys m) with
          | Some (String _ _ as matchKey) => oget m matchKey
          | _ => None
          end
      end
  end.

Definition resolveAccountEntry {T} (accounts : option (omap string T)) (account : string)
    : option T :=
  resolveNormalizedAccountEntry accounts account
    (λ k, normalizeLowercaseStringOrEmpty (Some k)).

(** ** Characters *)

Definition not_colon (c : Ascii.ascii) : bool := negb (Ascii.eqb c colon).

Ltac by_chars c := destruct c as [[] [] [] [] [] [] [] []]; vm_compute; congruence.

Lemma lower_alnum c : alnum_i c = true → alnum (lower_ascii c) = true.
Proof. by_chars c. Qed.
Lemma lower_id_char c : id_char_i c = true → id_char (lower_ascii c) = true.
Proof. by_chars c. Qed.
Lemma alnum_id_char c : alnum c = true → id_char c = true.
Proof. by_chars c. Qed.
Lemma alnum_not_dash c : alnum c = true → Ascii.eqb c dash = false.
Proof. by_chars c. Qed.
Lemma id_char_lowered c : id_char c = true → lower_ascii c = c.
Proof. by_chars c. Qed.
Lemma id_char_not_ws c : id_char c = true → negb (is_ws c) = true.
Proof. by_chars c. Qed.
Lemma id_char_not_colon c : id_char c = true → not_colon c = true.
Proof. by_chars c. Qed.

Lemma lower_str_all f g s :
  (∀ c, f c = true → g (lower_ascii c) = true) → str_all f s = true → str_all g (lower s) = true.
Proof.
  intros Hfg. induction s as [|c s IH]; simpl; [done|].
  intros [? ?]%andb_true_iff. by rewrite Hfg, IH.
Qed.

Lemma lower_length s : String.length (lower s) = String.length s.
Proof. induction s; simpl; congruence. Qed.

(** ** Sanitised ids *)

Definition head_not_dash (s : string) : bool :=
  match s with EmptyString => true | String c _ => negb (Ascii.eqb c dash) end.

(** The ids that may appear in a key, a file name or a shell word. *)
Definition safe_id (s : string) : bool :=
  str_truthy s && (String.length s <=? 64)%nat && str_all id_char s && head_not_dash s.

Lemma replace_invalid_chars b s : str_all id_char (replace_invalid b s) = true.
Proof.
  revert b. induction s as [|c s IH]; intros b; simpl; [done|].
  destruct (id_char c) eqn:E; simpl; [by rewrite E, IH|].
  destruct b; simpl; by rewrite IH.
Qed.

Lemma replace_invalid_length b s :
  (String.length (replace_invalid b s) <= String.length s)%nat.
Proof.
  revert b. induction s as [|c s IH]; intros b; simpl; [lia|].
  case_match; simpl; [specialize (IH false); lia|].
  destruct b; simpl; specialize (IH true); lia.
Qed.

Lemma replace_invalid_id b s : str_all id_char s = true → replace_invalid b s = s.
Proof.
  revert b. induction s as [|c s IH]; intros b; simpl; [done|].
  intros [-> Hs]%andb_true_iff. by rewrite IH.
Qed.

Lemma strip_leading_chars f s : str_all f s = true → str_all f (strip_leading_dashes s) = true.
Proof.
  induction s as [|c s IH]; simpl; [done|]. intros [Hc Hs]%andb_true_iff.
  case_match; [auto|]. simpl. by rewrite Hc.
Qed.

Lemma strip_leading_length s :
  (String.length (strip_leading_dashes s) <= String.length s)%nat.
Proof. induction s as [|c s IH]; simpl; [lia|]. case_match; simpl; lia. Qed.

Lemma strip_leading_head s : head_not_dash (strip_leading_dashes s) = true.
Proof. induction s as [|c s IH]; simpl; [done|]. case_match eqn:E; [done|]. simpl. by rewrite E. Qed.

Lemma strip_leading_id s : head_not_dash s = true → strip_leading_dashes s = s.
Proof. destruct s as [|c s]; simpl; [done|]. by intros ->%negb_true_iff. Qed.

Lemma strip_trailing_chars f s : str_all f s = true → str_all f (strip_trailing_dashes s) = true.
Proof.
  induction s as [|c s IH]; simpl; [done|]. intros [Hc Hs]%andb_true_iff.
  specialize (IH Hs). destruct (strip_trailing_dashes s); [case_match; simpl; by rewrite ?Hc|].
  simpl in *. by rewrite Hc.
Qed.

Lemma strip_trailing_length s :
  (String.length (strip_trailing_dashes s) <= String.length s)%nat.
Proof.
  induction s as [|c s IH]; simpl; [lia|].
  destruct (strip_trailing_dashes s); [case_match; simpl; lia|]. simpl in *. lia.
Qed.

Lemma strip_trailing_head s : head_not_dash s = true → head_not_dash (strip_trailing_dashes s) = true.
Proof.
  destruct s as [|c s]; simpl; [done|]. intros Hc.
  destruct (strip_trailing_dashes s); [|done]. destruct (Ascii.eqb c dash) eqn:E; simpl; by rewrite ?E.
Qed.

Lemma strip_trailing_idemp s :
  strip_trailing_dashes (strip_trailing_dashes s) = strip_trailing_dashes s.
Proof.
  induction s as [|c s IH]; simpl; [done|].
  destruct (strip_trailing_dashes s) as [|d t] eqn:E.
  - destruct (Ascii.eqb c dash) eqn:Ec; simpl; by rewrite ?Ec.
  - cbn [strip_trailing_dashes]. cbn [strip_trailing_dashes] in IH. by rewrite IH.
Qed.

Lemma take_head n s : head_not_dash s = true → head_not_dash (str_take n s) = true.
Proof. by destruct n, s. Qed.

Lemma slugify_chars s : str_all id_char (slugify s) = true.
Proof.
  unfold slugify. apply str_all_take, strip_trailing_chars, strip_leading_chars.
  apply replace_invalid_chars.
Qed.

Lemma slugify_head s : head_not_dash (slugify s) = true.
Proof. apply take_head, strip_trailing_head, strip_leading_head. Qed.

Lemma slugify_length s : (String.length (slugify s) <= 64)%nat.
Proof. apply str_take_length. Qed.

Lemma slugify_safe s : str_truthy (slugify s) = true → safe_id (slugify s) = true.
Proof.
  intros Ht. unfold safe_id. rewrite Ht, slugify_chars, slugify_head, !andb_true_r.
  apply Nat.leb_le, slugify_length.
Qed.

(** Below the cut, a slug is a fixed point. *)
Lemma slugify_id s :
  safe_id s = true → strip_trailing_dashes s = s → slugify s = s.
Proof.
  unfold safe_id. rewrite !andb_true_iff, Nat.leb_le. intros (((_ & Hl) & Hc) & Hh) Ht.
  unfold slugify. rewrite replace_invalid_id, strip_leading_id, Ht by done.
  by apply str_take_all.
Qed.

Lemma slugify_short s :
  (String.length s <= 64)%nat → strip_trailing_dashes (slugify s) = slugify s.
Proof.
  intros Hl. unfold slugify. rewrite str_take_all; [apply strip_trailing_idemp|].
  pose proof (strip_trailing_length (strip_leading_dashes (replace_invalid false s))).
  pose proof (strip_leading_length (replace_invalid false s)).
  pose proof (replace_invalid_length false s). lia.
Qed.

Lemma VALID_ID_RE_safe s : VALID_ID_RE s = true → safe_id (lower s) = true.
Proof.
  destruct s as [|c s]; [done|]. unfold VALID_ID_RE, safe_id. simpl.
  rewrite !andb_true_iff, Nat.leb_le. intros [[Hc Hl] Hs].
  apply lower_alnum in Hc. rewrite lower_length, (alnum_id_char _ Hc), (alnum_not_dash _ Hc).
  rewrite (lower_str_all id_char_i id_char) by auto using lower_id_char.
  repeat split; try done. apply Nat.leb_le. lia.
Qed.

Lemma trimmed_lower s :
  normalizeLowercaseStringOrEmpty (Some (trim s)) = lower (trim s).
Proof. by rewrite normalizeLowercaseStringOrEmpty_Some, trim_idemp. Qed.

(** The two outcomes of the sanitisation. *)
Lemma normalizeAgentId_cases v :
  safe_id (normalizeAgentId v) = true ∧
  ((String.length (trimmed_or_empty v) <= 64)%nat →
   VALID_ID_RE (normalizeAgentId v) = true ∨
   strip_trailing_dashes (normalizeAgentId v) = normalizeAgentId v).
Proof.
  unfold normalizeAgentId, trimmed_or_empty. rewrite trimmed_lower.
  destruct (trim (v ?? EmptyString)) as [|c t] eqn:Et; [by split; [|left]|].
  rewrite <- Et. destruct (VALID_ID_RE _) eqn:Ev.
  - split; [by apply VALID_ID_RE_safe|]. intros _. left. rewrite Et in Ev |- *. simpl in Ev |- *.
    apply andb_true_iff in Ev as [[Hc Hl]%andb_true_iff Hs].
    rewrite lower_length, Hl, andb_true_r. unfold alnum_i. rewrite lower_alnum by done.
    simpl. apply (lower_str_all id_char_i); [|done].
    intros d Hd. unfold id_char_i. by rewrite lower_id_char.
  - assert (∀ a, a = EmptyString ∨ str_or a DEFAULT_AGENT_ID = a ∧ str_truthy a = true)
      as Hor by (intros []; simpl; auto).
    destruct (Hor (slugify (lower (trim (v ?? EmptyString))))) as [->|[-> Es]];
      [by split; [|left]|]. split.
    + by apply slugify_safe.
    + intros Hl. right. apply slugify_short. by rewrite lower_length.
Qed.

Lemma safe_id_trim s : safe_id s = true → trim s = s ∧ lower s = s.
Proof.
  unfold safe_id. rewrite !andb_true_iff. intros [[_ Hc] _]. split.
  - apply trim_no_ws. revert Hc. apply str_all_impl, id_char_not_ws.
  - induction s as [|c s IH]; simpl in *; [done|]. apply andb_true_iff in Hc as [Hc Hs].
    rewrite id_char_lowered by done. by rewrite IH.
Qed.

Lemma safe_id_fixed s :
  safe_id s = true → VALID_ID_RE s = true ∨ strip_trailing_dashes s = s →
  normalizeAgentId (Some s) = s.
Proof.
  intros Hs Hf. destruct (safe_id_trim s Hs) as [Ht Hl].
  unfold normalizeAgentId, trimmed_or_empty. simpl. rewrite trimmed_lower, Ht, Hl.
  destruct s as [|c s]; [done|]. destruct (VALID_ID_RE _) eqn:E; [done|].
  destruct Hf as [?|Hf]; [congruence|]. by rewrite slugify_id.
Qed.

(** ** Parsing what was built *)

Lemma safe_id_no_colon s : safe_id s = true → str_all not_colon s = true.
Proof.
  unfold safe_id. rewrite !andb_true_iff. intros [[_ Hc] _]. revert Hc.
  apply str_all_impl, id_char_not_colon.
Qed.

Lemma safe_id_nonempty s : safe_id s = true → str_truthy s = true.
Proof. unfold safe_id. by intros [[[? _]%andb_true_iff _]%andb_true_iff _]%andb_true_iff. Qed.

Lemma join_nonempty sep ps :
  ps ≠ [] → Forall (λ p, str_truthy p = true) ps → str_truthy (join_with sep ps) = true.
Proof.
  intros Hne Hall. destruct Hall as [|p ps Hp Hall]; [done|].
  destruct p as [|c p]; [done|]. by destruct ps.
Qed.

Lemma filter_truthy_Forall ps : Forall (λ p, str_truthy p = true) (List.filter str_truthy ps).
Proof.
  apply Forall_forall. intros x Hx%list_elem_of_In. by apply filter_In in Hx as [_ ?].
Qed.

(** The key [agent:<id>:<tail>] parses to the id and to the normalised tail. *)
Lemma parse_agent_key id tail :
  safe_id id = true →
  parseAgentSessionKey (Some ("agent:" +:+ id +:+ ":" +:+ tail)) =
    match List.filter str_truthy (split_on colon (lower (trim_end tail))) with
    | [] => None
    | ps => Some (mkParsed id (join_with ":" ps))
    end.
Proof.
  intros Hid. destruct (safe_id_trim id Hid) as [Ht Hl].
  pose proof (safe_id_nonempty id Hid) as Hne.
  set (raw := "agent:" +:+ id +:+ String colon (lower (trim_end tail))).
  unfold parseAgentSessionKey.
  assert (normalizeOptionalLowercaseString (Some ("agent:" +:+ id +:+ ":" +:+ tail)) = Some raw)
    as ->.
  { unfold normalizeOptionalLowercaseString, normalizeOptionalString, normalizeNullableString, trim.
    change (trim_start ("agent:" +:+ id +:+ ":" +:+ tail))
      with ("agent:" +:+ id +:+ String colon tail).
    rewrite <- append_assoc, trim_end_nonws, append_assoc by done.
    change (Some (lower ("agent:" +:+ id +:+ String colon (trim_end tail))) = Some raw).
    by rewrite !lower_append, Hl. }
  assert (split_on colon raw = "agent"%string :: id :: split_on colon (lower (trim_end tail))) as Hs.
  { subst raw. change ("agent:" +:+ ?x) with ("agent" +:+ String colon x).
    rewrite split_on_append, split_on_append, (split_on_free colon id);
      [done|by apply safe_id_no_colon]. }
  destruct raw eqn:Er; [done|]. rewrite Hs. cbn [List.filter str_truthy]. rewrite Hne.
  pose proof (filter_truthy_Forall (split_on colon (lower (trim_end tail)))) as Hall.
  destruct (List.filter _ _) as [|p ps] eqn:Ef; [done|].
  unfold normalizeOptionalString, normalizeNullableString. rewrite Ht.
  pose proof (join_nonempty ":" (p :: ps) ltac:(done) Hall) as Hj.
  cbn [Ascii.eqb Bool.eqb negb String.eqb]. destruct id; [done|].
  by destruct (join_with ":" (p :: ps)).
Qed.

Lemma parse_agent_key_some id tail :
  safe_id id = true →
  existsb str_truthy (split_on colon (lower (trim_end tail))) = true →
  ∃ r, parseAgentSessionKey (Some ("agent:" +:+ id +:+ ":" +:+ tail)) = Some (mkParsed id r) ∧
       str_truthy r = true.
Proof.
  intros Hid [x [Hx Ht]]%existsb_exists. rewrite parse_agent_key by done.
  pose proof (filter_truthy_Forall (split_on colon (lower (trim_end tail)))) as Hall.
  destruct (List.filter _ _) as [|p ps] eqn:Ef.
  - assert (x ∈ List.filter str_truthy (split_on colon (lower (trim_end tail)))) as Hin.
    { apply list_elem_of_In, filter_In. auto. }
    rewrite Ef in Hin. by apply not_elem_of_nil in Hin.
  - eexists. split; [done|]. by apply join_nonempty.
Qed.

(** A colon-delimited word of the tail survives. *)
Lemma tail_word a w b :
  str_all not_colon w = true → lower w = w → str_truthy w = true →
  existsb str_truthy
    (split_on colon (lower (trim_end (a +:+ String colon (w +:+ String colon b))))) = true.
Proof.
  intros Hw Hl Ht.
  replace (a +:+ String colon (w +:+ String colon b))
    with ((a +:+ String colon w) +:+ String colon b) by (by rewrite append_assoc).
  rewrite trim_end_nonws, !lower_append by done. simpl lower.
  change (lower_ascii colon) with colon. rewrite Hl, !split_on_append, !existsb_app.
  rewrite (split_on_free colon w) by done. simpl. rewrite Ht. by rewrite orb_true_r.
Qed.

Lemma head_word w b :
  str_all not_colon w = true → lower w = w → str_truthy w = true →
  existsb str_truthy (split_on colon (lower (trim_end (w +:+ String colon b)))) = true.
Proof.
  intros Hw Hl Ht. rewrite trim_end_nonws, lower_append, Hl by done. simpl lower.
  change (lower_ascii colon) with colon.
  rewrite split_on_append, existsb_app, (split_on_free colon w) by done. simpl. by rewrite Ht.
Qed.

Lemma normalizeMainKey_nonempty mk : str_truthy (normalizeMainKey mk) = true.
Proof.
  unfold normalizeMainKey. by destruct (normalizeLowercaseStringOrEmpty mk).
Qed.

Lemma normalized_lower v : lower (normalizeLowercaseStringOrEmpty v) = normalizeLowercaseStringOrEmpty v.
Proof.
  destruct v as [s|]; [|done]. by rewrite normalizeLowercaseStringOrEmpty_Some, lower_idemp.
Qed.

Lemma normalized_trim v : trim (normalizeLowercaseStringOrEmpty v) = normalizeLowercaseStringOrEmpty v.
Proof.
  destruct v as [s|]; [|done].
  by rewrite normalizeLowercaseStringOrEmpty_Some, <- lower_trim, trim_idemp.
Qed.

Lemma normalizeMainKey_lower mk : lower (normalizeMainKey mk) = normalizeMainKey mk.
Proof.
  pose proof (normalized_lower mk) as H. unfold normalizeMainKey.
  by destruct (normalizeLowercaseStringOrEmpty mk).
Qed.

Lemma normalizeMainKey_trim mk : trim_end (normalizeMainKey mk) = normalizeMainKey mk.
Proof.
  pose proof (normalized_trim mk) as H%trim_end_trim. unfold normalizeMainKey.
  by destruct (normalizeLowercaseStringOrEmpty mk).
Qed.

Lemma normalizeAgentId_safe_id v : safe_id (normalizeAgentId v) = true.
Proof. apply normalizeAgentId_cases. Qed.

Lemma parse_main_key agent mk :
  str_all not_colon (normalizeMainKey mk) = true →
  parseAgentSessionKey (Some (buildAgentMainSessionKey agent mk))
  = Some (mkParsed (normalizeAgentId (Some agent)) (normalizeMainKey mk)).
Proof.
  intros Hmk. unfold buildAgentMainSessionKey.
  rewrite parse_agent_key by apply normalizeAgentId_safe_id.
  rewrite normalizeMainKey_trim, normalizeMainKey_lower, split_on_free by done. simpl.
  by rewrite normalizeMainKey_nonempty.
Qed.

Lemma parse_peer_key p :
  str_all not_colon (normalizeMainKey (pk_mainKey p)) = true →
  ∃ r, parseAgentSessionKey (Some (buildAgentPeerSessionKey p))
       = Some (mkParsed (normalizeAgentId (Some (pk_agentId p))) r) ∧ str_truthy r = true.
Proof.
  intros Hmk. unfold buildAgentPeerSessionKey.
  assert (∃ r, parseAgentSessionKey (Some (buildAgentMainSessionKey (pk_agentId p) (pk_mainKey p)))
     = Some (mkParsed (normalizeAgentId (Some (pk_agentId p))) r) ∧ str_truthy r = true) as Hm.
  { rewrite parse_main_key by done. eauto using normalizeMainKey_nonempty. }
  pose proof (normalizeAgentId_safe_id (Some (pk_agentId p))) as Hs.
  destruct (pk_peerKind p ?? Direct); [|apply parse_agent_key_some; [done|]..].
  - destruct (str_truthy (directPeerId p)); simpl; [|exact Hm].
    destruct (pk_dmScope p ?? ScopeMain); [exact Hm|apply parse_agent_key_some; [done|]..].
    + by apply (head_word "direct").
    + by apply (tail_word _ "direct").
    + pose proof (tail_word (channelPart (pk_channel p) +:+ String colon
        (normalizeAccountId (pk_accountId p))) "direct" (directPeerId p)
        eq_refl eq_refl eq_refl) as Hw.
      rewrite append_assoc in Hw. exact Hw.
  - by apply (tail_word _ "group").
  - by apply (tail_word _ "channel").
Qed.

(** ** Injectivity of keys *)

Lemma colon_free_inj a b x y :
  str_all not_colon a = true → str_all not_colon b = true →
  a +:+ String colon x = b +:+ String colon y → a = b ∧ x = y.
Proof. apply sep_free_inj. Qed.

(** ** Thread suffixes *)

Lemma lastIndexOf_None s t :
  str_truthy t = true → includes s t = false → lastIndexOf s t = None.
Proof.
  intros Ht. induction s as [|c s IH]; cbn [includes lastIndexOf].
  - by rewrite Ht.
  - intros [H1 H2]%orb_false_iff. by rewrite (IH H2), H1.
Qed.

Lemma lastIndexOf_skip c s t :
  lastIndexOf s t = None → starts_with (String c s) t = false →
  lastIndexOf (String c s) t = None.
Proof. intros H1 H2. cbn [lastIndexOf]. by rewrite H1, H2. Qed.

Lemma lastIndexOf_append a c b t :
  lastIndexOf b t = None → starts_with (String c b) t = true →
  lastIndexOf (a +:+ String c b) t = Some (String.length a).
Proof.
  intros Hb Hs. induction a as [|d a IH].
  - cbn [String.append lastIndexOf String.length]. by rewrite Hb, Hs.
  - cbn [String.append lastIndexOf String.length]. by rewrite IH.
Qed.

Lemma take_append a b : str_take (String.length a) (a +:+ b) = a.
Proof. induction a as [|c a IH]; simpl; [by destruct b|]. by rewrite IH. Qed.

Lemma drop_append a b n : str_drop (String.length a + n) (a +:+ b) = str_drop n b.
Proof. induction a as [|c a IH]; simpl; [done|]. done. Qed.

Lemma trim_thread_key base t :
  trim_start base = base → str_truthy base = true → trim t = t →
  trim (base +:+ threadMarker +:+ t) = base +:+ threadMarker +:+ t.
Proof.
  intros Hb Hne Ht. unfold trim. rewrite trim_start_append by (by destruct base).
  change (threadMarker +:+ t) with (":thread" +:+ String colon t).
  by rewrite <- append_assoc, trim_end_nonws, (trim_end_trim t), append_assoc by done.
Qed.

Lemma lastIndexOf_thread a t :
  includes (String colon t) threadMarker = false →
  lastIndexOf (a +:+ threadMarker +:+ t) threadMarker = Some (String.length a).
Proof.
  intros Hinc.
  change (threadMarker +:+ t) with (String colon ("thread" +:+ String colon t)).
  apply lastIndexOf_append; [|by destruct t].
  pose proof (lastIndexOf_None (String colon t) threadMarker ltac:(done) Hinc) as Hc.
  do 6 (apply lastIndexOf_skip; [|done]). exact Hc.
Qed.

Lemma thread_suffix_parse base t :
  trim_start base = base → str_truthy base = true → trim t = t → lower t = t →
  str_truthy t = true → includes (String colon t) threadMarker = false →
  parseThreadSessionSuffix (Some (base +:+ threadMarker +:+ t)) = mkSuffix (Some base) (Some t).
Proof.
  intros Hbase Hne Ht Hl Htne Hinc. unfold parseThreadSessionSuffix.
  pose proof (trim_thread_key base t Hbase Hne Ht) as Htrim.
  assert (normalizeOptionalString (Some (base +:+ threadMarker +:+ t)) =
          Some (base +:+ threadMarker +:+ t)) as ->.
  { unfold normalizeOptionalString, normalizeNullableString. rewrite Htrim. by destruct base. }
  rewrite normalizeLowercaseStringOrEmpty_Some, Htrim, !lower_append, Hl.
  change (lower threadMarker) with threadMarker.
  rewrite lastIndexOf_thread, lower_length, take_append, drop_append by done.
  change (str_drop (String.length threadMarker) (threadMarker +:+ t)) with t.
  unfold normalizeOptionalString, normalizeNullableString. rewrite Ht. by destruct t.
Qed.

(** ** The account id caches *)

Section account_cache.
Context {T : Type}.
Implicit Types cache : omap string T.

(** A cache holds what [f] computes, has distinct keys and is bounded. *)
Definition cache_ok (f : string → T) cache : Prop :=
  owf cache ∧ osound f cache ∧ (osize cache <= ACCOUNT_ID_CACHE_MAX)%nat.

Lemma setNormalizeCache_ok f cache key :
  cache_ok f cache → cache_ok f (setNormalizeCache cache key (f key)).
Proof.
  intros (Hwf & Hs & Hn). unfold setNormalizeCache.
  pose proof (owf_oset cache key (f key) Hwf) as Hwf1.
  pose proof (osound_oset f cache key Hs) as Hs1.
  destruct (osize (oset cache key (f key)) <=? ACCOUNT_ID_CACHE_MAX)%nat eqn:E.
  { apply Nat.leb_le in E. by split. }
  assert (osize (oset cache key (f key)) <= S (osize cache))%nat as Hsize.
  { destruct (oget cache key) eqn:Ek;
      [by erewrite osize_oset_present; [lia|]|by rewrite osize_oset_absent]. }
  destruct (oset cache key (f key)) as [|[k v] m] eqn:Em; [done|].
  change (cache_ok f (odel ((k, v) :: m) k)).
  rewrite (odel_head k v m Hwf1). split; [by eapply owf_tail|]. split; [by eapply osound_tail|].
  unfold osize in *. simpl in Hsize. lia.
Qed.
End account_cache.

Lemma accountIdOf_nonempty t : str_truthy (accountIdOf t) = true.
Proof.
  unfold accountIdOf. by destruct (normalizeCanonicalAccountId t ?? EmptyString).
Qed.

Lemma normalizeAccountIdCached_ok cache v :
  cache_ok accountIdOf cache →
  (normalizeAccountIdCached cache v).1 = normalizeAccountId v ∧
  cache_ok accountIdOf (normalizeAccountIdCached cache v).2.
Proof.
  intros Hok. unfold normalizeAccountIdCached, normalizeAccountId.
  destruct (trimmed_or_empty v) as [|c t]; [done|].
  destruct (oget cache (String c t)) as [[|d u]|] eqn:E; simpl;
    [auto using setNormalizeCache_ok| |auto using setNormalizeCache_ok].
  split; [|done]. by apply Hok.
Qed.

Lemma normalizeOptionalAccountIdCached_ok cache v :
  cache_ok optionalAccountIdOf cache →
  (normalizeOptionalAccountIdCached cache v).1 = normalizeOptionalAccountId v ∧
  cache_ok optionalAccountIdOf (normalizeOptionalAccountIdCached cache v).2.
Proof.
  intros Hok. unfold normalizeOptionalAccountIdCached, normalizeOptionalAccountId.
  destruct (trimmed_or_empty v) as [|c t]; [done|].
  destruct (oget cache (String c t)) eqn:E; simpl; [|auto using setNormalizeCache_ok].
  split; [|done]. by apply Hok.
Qed.

(** ** Identity links *)

Lemma findLink_spec candidates links name :
  findLink candidates links = Some name →
  str_truthy name = true ∧
  ∃ key ids id, (key, Some ids) ∈ links ∧ id ∈ ids ∧ name = trim key ∧
                normalizeToken (Some id) ∈ candidates.
Proof.
  induction links as [|[canonical ids] links IH]; simpl; [done|].
  assert (findLink candidates links = Some name →
    str_truthy name = true ∧ ∃ key ids0 id, (key, Some ids0) ∈ (canonical, ids) :: links ∧
      id ∈ ids0 ∧ name = trim key ∧ normalizeToken (Some id) ∈ candidates) as IH'.
  { intros H. destruct (IH H) as (Ht & key & ids0 & id & Hin & Hrest).
    split; [done|]. exists key, ids0, id. split; [by right|done]. }
  destruct (str_truthy (trim canonical)) eqn:Et; simpl; [|done].
  destruct ids as [l|]; [|done].
  destruct (existsb _ _) eqn:Ee; [|done]. intros [= <-]. split; [done|].
  apply existsb_exists in Ee as (id & Hid & [_ Hc%bool_decide_eq_true]%andb_true_iff).
  exists canonical, l, id. split; [by left|]. split; [by apply list_elem_of_In|done].
Qed.

(** ** Properties *)

(** Whatever string configuration or a caller supplies, the agent id used in
    session keys, directory names and shell words is nonempty, at most 64
    characters long, made of [[a-z0-9_-]] only and does not begin with a dash. *)
Lemma normalizeAgentId_safe (v : option string) : safe_id (normalizeAgentId v) = true.
Proof. apply normalizeAgentId_cases. Qed.

(** Normalising twice is normalising once, for names of at most 64
    characters. (A longer name can be cut right after a dash, which a second
    pass strips.) *)
Lemma normalizeAgentId_idempotent (v : option string) :
  (String.length (trimmed_or_empty v) <= 64)%nat →
  normalizeAgentId (Some (normalizeAgentId v)) = normalizeAgentId v.
Proof.
  intros Hl. destruct (normalizeAgentId_cases v) as [Hs Hf]. apply safe_id_fixed; auto.
Qed.

Lemma normalizeAgentId_idempotent_witness :
  normalizeAgentId (Some " My Agent!") = "my-agent"%string ∧
  normalizeAgentId (Some (normalizeAgentId (Some " My Agent!")))
  = normalizeAgentId (Some " My Agent!").
Proof.
  split; [reflexivity|]. apply (normalizeAgentId_idempotent (Some " My Agent!")).
  vm_compute. lia.
Defined.

(** The bound of [normalizeAgentId_idempotent] is needed: this name is cut
    between its 64th character, a dash, and its 65th. *)
Definition longName : string :=
  "_aaaaaaaaaaaaaaaaaaaaaaaaaaaaaaaaaaaaaaaaaaaaaaaaaaaaaaaaaaaaaa-b".

Lemma normalizeAgentId_not_idempotent :
  normalizeAgentId (Some (normalizeAgentId (Some longName))) ≠ normalizeAgentId (Some longName).
Proof. vm_compute. discriminate. Qed.

(** Keys route back to the agent they were built for: for every channel, chat
    kind, peer, account, scope and identity links, the built key parses, its
    agent id is the normalised one, and resolving the agent of the key gives the
    same id when the name has at most 64 characters. *)
Lemma built_key_resolves_to_its_agent (p : PeerKeyParams) :
  str_all not_colon (normalizeMainKey (pk_mainKey p)) = true →
  (∃ r, parseAgentSessionKey (Some (buildAgentPeerSessionKey p)) =
          Some (mkParsed (normalizeAgentId (Some (pk_agentId p))) r)) ∧
  ((String.length (trim (pk_agentId p)) <= 64)%nat →
   resolveAgentIdFromSessionKey (Some (buildAgentPeerSessionKey p)) =
     normalizeAgentId (Some (pk_agentId p))).
Proof.
  intros Hmk. destruct (parse_peer_key p Hmk) as (r & Hp & _). split; [by exists r|].
  intros Hl. unfold resolveAgentIdFromSessionKey. rewrite Hp. simpl.
  destruct (normalizeAgentId_cases (Some (pk_agentId p))) as [Hs Hf].
  apply safe_id_fixed; auto.
Qed.

Definition demoPeer : PeerKeyParams :=
  mkPeerParams "Ops Bot" None "Telegram" None (Some Direct) (Some "tg:Alice") None
    (Some PerChannelPeer).

Lemma built_key_resolves_to_its_agent_witness :
  buildAgentPeerSessionKey demoPeer = "agent:ops-bot:telegram:direct:tg:alice"%string ∧
  resolveAgentIdFromSessionKey (Some (buildAgentPeerSessionKey demoPeer)) = "ops-bot"%string.
Proof.
  split; [reflexivity|].
  refine (proj2 (built_key_resolves_to_its_agent demoPeer _) _); [reflexivity|vm_compute; lia].
Defined.

(** The identity a key stands for under the scope [per-channel-peer]. *)
Definition sessionIdentity (p : PeerKeyParams) : string * string * ChatType * string :=
  (normalizeAgentId (Some (pk_agentId p)), channelPart (pk_channel p), pk_peerKind p ?? Direct,
   match pk_peerKind p ?? Direct with
   | Direct => directPeerId p
   | _ => str_or (normalizeLowercaseStringOrEmpty (pk_peerId p)) "unknown"
   end).

Lemma build_identity p :
  pk_dmScope p = Some PerChannelPeer →
  (pk_peerKind p ?? Direct = Direct → str_truthy (directPeerId p) = true) →
  buildAgentPeerSessionKey p =
    let '(a, c, k, i) := sessionIdentity p in
    "agent" +:+ String colon (a +:+ String colon (c +:+ String colon
      (ChatType_str k +:+ String colon i))).
Proof.
  intros Hs Hd. unfold buildAgentPeerSessionKey, sessionIdentity. rewrite Hs. simpl.
  destruct (pk_peerKind p ?? Direct) eqn:Ek; [|done..]. by rewrite (Hd eq_refl).
Qed.

Lemma ChatType_str_inj k k' : ChatType_str k = ChatType_str k' → k = k'.
Proof. by destruct k, k'. Qed.

(** C38. Sessions are isolated: under the scope [per-channel-peer], two requests
    whose channels have no colon, that name a peer when they are direct, and that share a
    key have the same agent, channel, chat kind and (linked) peer. A direct request without
    a peer goes to the main session of the agent, whatever its channel. *)
Theorem session_keys_isolate (p p' : PeerKeyParams) :
  pk_dmScope p = Some PerChannelPeer → pk_dmScope p' = Some PerChannelPeer →
  (pk_peerKind p ?? Direct = Direct → str_truthy (directPeerId p) = true) →
  (pk_peerKind p' ?? Direct = Direct → str_truthy (directPeerId p') = true) →
  str_all not_colon (channelPart (pk_channel p)) = true →
  str_all not_colon (channelPart (pk_channel p')) = true →
  buildAgentPeerSessionKey p = buildAgentPeerSessionKey p' →
  sessionIdentity p = sessionIdentity p'.
Proof.
  intros Hs Hs' Hd Hd' Hc Hc'. rewrite !build_identity by done.
  pose proof (safe_id_no_colon _ (normalizeAgentId_safe_id (Some (pk_agentId p)))) as Ha.
  pose proof (safe_id_no_colon _ (normalizeAgentId_safe_id (Some (pk_agentId p')))) as Ha'.
  unfold sessionIdentity. intros [_ H]%colon_free_inj; [|done..].
  apply colon_free_inj in H as [-> H]; [|done..].
  apply colon_free_inj in H as [-> H]; [|done..].
  apply colon_free_inj in H as [Hk Hi]; [|by destruct (pk_peerKind p ?? Direct)
                                         |by destruct (pk_peerKind p' ?? Direct)].
  apply ChatType_str_inj in Hk. rewrite Hk in Hi |- *. by rewrite Hi.
Qed.

Lemma session_keys_isolate_witness :
  sessionIdentity demoPeer = sessionIdentity
    (mkPeerParams "ops bot" None "telegram " None None (Some " TG:alice") None
       (Some PerChannelPeer)).
Proof. by apply session_keys_isolate. Defined.

(** Thread keys round trip: the key of a thread parses back to the session it
    was derived from and to the normalised thread id, unless the id itself
    contains a thread marker. *)
Lemma thread_key_roundtrip (base t : string) (parent : option string) :
  trim_start base = base → str_truthy base = true → str_truthy (trim t) = true →
  includes (String colon (lower (trim t))) threadMarker = false →
  let key := (resolveThreadSessionKeys base (Some t) parent None None).1 in
  parseThreadSessionSuffix (Some key) = mkSuffix (Some base) (Some (lower (trim t))).
Proof.
  intros Hb Hne Ht Hinc. unfold resolveThreadSessionKeys, trimmed_or_empty. simpl.
  assert (str_truthy (lower (trim t)) = true) as Hl by (by destruct (trim t)).
  destruct (trim t) as [|c u] eqn:Et; [done|]. rewrite <- Et in *. simpl.
  rewrite trimmed_lower. apply thread_suffix_parse; try done.
  - by rewrite <- lower_trim, trim_idemp.
  - apply lower_idemp.
Qed.

Lemma thread_key_roundtrip_witness :
  parseThreadSessionSuffix (Some "agent:main:slack:channel:c1:thread:171.22")
  = mkSuffix (Some "agent:main:slack:channel:c1"%string) (Some "171.22"%string).
Proof.
  exact (thread_key_roundtrip "agent:main:slack:channel:c1" " 171.22" None
           eq_refl eq_refl eq_refl eq_refl).
Defined.

(** The two account id caches are transparent: over any sequence of calls
    starting from empty caches the results are those of the uncached functions,
    and the caches never exceed their bound. *)
Lemma account_id_caches_transparent (vs : list (option string)) :
  (callAll normalizeAccountIdCached [] vs).1 = map normalizeAccountId vs ∧
  (osize (callAll normalizeAccountIdCached [] vs).2 <= ACCOUNT_ID_CACHE_MAX)%nat ∧
  (callAll normalizeOptionalAccountIdCached [] vs).1 = map normalizeOptionalAccountId vs ∧
  (osize (callAll normalizeOptionalAccountIdCached [] vs).2 <= ACCOUNT_ID_CACHE_MAX)%nat.
Proof.
  assert (∀ T (f : string → T), cache_ok f []) as Hnil.
  { intros T f. split; [apply owf_nil|]. split; [apply osound_nil|simpl; lia]. }
  destruct (callAll_pure _ _ (λ _, True) _ (λ s a _, normalizeAccountIdCached_ok s a)
              vs [] (Forall_true _ _ (λ _, I)) (Hnil _ _)) as [H1 H2].
  destruct (callAll_pure _ _ (λ _, True) _ (λ s a _, normalizeOptionalAccountIdCached_ok s a)
              vs [] (Forall_true _ _ (λ _, I)) (Hnil _ _)) as [H3 H4].
  repeat split; [done|apply H2|done|apply H4].
Qed.

End SessionKey.
