(* ===== verification/Routing.v ===== *)
(** * Agent routing: src/routing/resolve-route.ts, src/routing/bindings.ts

    An inbound message is routed to an agent by the bindings of the
    configuration. The code indexes the bindings of a channel and an account,
    looks the tiers up in the index in order of specificity, and memoises the
    index and the routes per configuration object. The file models all of that;
    [Reference] is the linear scan that it implements. *)

From Stdlib Require Import Ascii.
From S2P Require Import Prelude OMap SessionKey.

Module Routing.
Import StringCoerce SessionKey.

(** ** Configuration *)

Record AgentEntry := mkAgent { ae_id : option string; ae_default : bool }.

Record BindingPeer := mkBindingPeer { bp_kind : option string; bp_id : option string }.

Record BindingMatch := mkBindingMatch {
  bm_channel : option string;
  bm_accountId : option string;
  bm_peer : option BindingPeer;
  bm_guildId : option string;
  bm_teamId : option string;
  bm_roles : option (list string);
}.

Record AgentBinding := mkBinding {
  b_type : option string;
  b_agentId : option string;
  b_match : option BindingMatch;
}.

(** [OpenClawConfig], with the identities of the arrays the caches compare. *)
Record OpenClawConfig := mkConfig {
  bindingsRef : nat;
  cfg_bindings : list AgentBinding;
  agentsRef : nat;
  cfg_agents : list AgentEntry;
  sessionRef : nat;
  cfg_dmScope : option DmScope;
  cfg_identityLinks : option IdentityLinks;
}.

(** *** agents/agent-scope.ts, config/bindings.ts *)

Definition listAgentEntries (cfg : OpenClawConfig) : list AgentEntry := cfg_agents cfg.

Definition resolveDefaultAgentId (cfg : OpenClawConfig) : string :=
  let agents := listAgentEntries cfg in
  match agents with
  | [] => DEFAULT_AGENT_ID
  | a0 :: _ =>
      let entry := hd a0 (List.filter ae_default agents) in
      let chosen := trim (ae_id entry ?? EmptyString) in
      normalizeAgentId (Some (str_or chosen DEFAULT_AGENT_ID))
  end.

Definition listAgentIds (cfg : OpenClawConfig) : list string :=
  match listAgentEntries cfg with
  | [] => [DEFAULT_AGENT_ID]
  | agents =>
      let ids := foldl (λ ids entry, let id := normalizeAgentId (ae_id entry) in
                                     if bool_decide (id ∈ ids) then ids else ids ++ [id])
                   [] agents in
      match ids with [] => [DEFAULT_AGENT_ID] | _ => ids end
  end.

Definition isRouteBinding (b : AgentBinding) : bool :=
  negb (bool_decide (b_type b = Some "acp"%string)).

Definition listBindings (cfg : OpenClawConfig) : list AgentBinding :=
  List.filter isRouteBinding (cfg_bindings cfg).

(** ** Inputs and results *)

Record RoutePeer := mkPeer { rp_kind : ChatType; rp_id : string }.

Record ResolveAgentRouteInput := mkInput {
  in_channel : string;
  in_accountId : option string;
  in_peer : option RoutePeer;
  in_parentPeer : option RoutePeer;
  in_guildId : option string;
  in_teamId : option string;
  in_memberRoleIds : option (list string);
}.

Inductive MatchedBy :=
| ByPeer | ByPeerParent | ByPeerWildcard | ByGuildRoles | ByGuild | ByTeam
| ByAccount | ByChannel | ByDefault.
#[export] Instance MatchedBy_eq_dec : EqDecision MatchedBy.
Proof. solve_decision. Defined.

Inductive LastRoutePolicy := PolicyMain | PolicySession.

Record ResolvedAgentRoute := mkRoute {
  rt_agentId : string;
  rt_channel : string;
  rt_accountId : string;
  rt_sessionKey : string;
  rt_mainSessionKey : string;
  rt_lastRoutePolicy : LastRoutePolicy;
  rt_matchedBy : MatchedBy;
}.

Definition deriveLastRoutePolicy (sessionKey mainSessionKey : string) : LastRoutePolicy :=
  if String.eqb sessionKey mainSessionKey then PolicyMain else PolicySession.

Definition resolveInboundLastRouteSessionKey (route : ResolvedAgentRoute) (sessionKey : string)
    : string :=
  match rt_lastRoutePolicy route with
  | PolicyMain => rt_mainSessionKey route
  | PolicySession => sessionKey
  end.

(** [normalizeId]: a number is represented by its decimal string. *)
Definition normalizeId (value : option string) : string := trim (value ?? EmptyString).

Definition buildAgentSessionKey (agent channel : string) (accountId : option string)
    (peer : option RoutePeer) (dmScope : option DmScope) (identityLinks : option IdentityLinks)
    : string :=
  let ch := str_or (normalizeToken (Some channel)) "unknown" in
  buildAgentPeerSessionKey
    (mkPeerParams agent (Some DEFAULT_MAIN_KEY) ch accountId
       (Some ((rp_kind <$> peer) ?? Direct))
       ((λ p, str_or (normalizeId (Some (rp_id p))) "unknown") <$> peer)
       identityLinks dmScope).

(** ** The agent lookup *)

(** One iteration of the loop of [resolveAgentLookupCache]. *)
Definition addAgent (m : omap string string) (agent : AgentEntry) : omap string string :=
  match trim (ae_id agent ?? EmptyString) with
  | EmptyString => m
  | rawId => oset m (normalizeAgentId (Some rawId)) (sanitizeAgentId (Some rawId))
  end.

Record AgentLookupCache := mkAgentLookup {
  byNormalizedId : omap string string;
  fallbackDefaultAgentId : string;
}.

Definition buildAgentLookup (cfg : OpenClawConfig) : AgentLookupCache :=
  mkAgentLookup
    (foldl addAgent [] (cfg_agents cfg))
    (sanitizeAgentId (Some (resolveDefaultAgentId cfg))).

Definition pickFrom (lookup : AgentLookupCache) (agent : option string) : string :=
  match trimmed_or_empty agent with
  | EmptyString => fallbackDefaultAgentId lookup
  | trimmed =>
      if (osize (byNormalizedId lookup) =? 0)%nat then sanitizeAgentId (Some trimmed)
      else match oget (byNormalizedId lookup) (normalizeAgentId (Some trimmed)) with
           | Some (String _ _ as resolved) => resolved
           | _ => fallbackDefaultAgentId lookup
           end
  end.

Definition pickFirstExistingAgentId (cfg : OpenClawConfig) (agent : option string) : string :=
  pickFrom (buildAgentLookup cfg) agent.

(** ** Evaluated bindings *)

Inductive NormalizedPeerConstraint :=
| PeerNone
| PeerInvalid
| PeerWildcardKind (kind : ChatType)
| PeerValid (kind : ChatType) (id : string).

Record NormalizedBindingMatch := mkMatch {
  accountPattern : string;
  m_peer : NormalizedPeerConstraint;
  m_guildId : option string;
  m_teamId : option string;
  m_roles : option (list string);
}.

Record EvaluatedBinding := mkEvaluated {
  e_binding : AgentBinding;
  e_match : NormalizedBindingMatch;
  e_order : nat;
}.

Record BindingScope := mkScope {
  sc_peer : option RoutePeer;
  sc_guildId : string;
  sc_teamId : string;
  sc_memberRoleIds : list string;
}.

Definition normalizePeerConstraint (peer : option BindingPeer) : NormalizedPeerConstraint :=
  match peer with
  | None => PeerNone
  | Some p =>
      match normalizeChatType (bp_kind p), normalizeId (bp_id p) with
      | None, _ => PeerInvalid
      | Some _, EmptyString => PeerInvalid
      | Some kind, id =>
          if String.eqb id "*" then PeerWildcardKind kind else PeerValid kind id
      end
  end.

(** [value || null] *)
Definition or_null (s : string) : option string :=
  match s with EmptyString => None | _ => Some s end.

Definition normalizeBindingMatch (m : option BindingMatch) : NormalizedBindingMatch :=
  mkMatch (trim ((m ≫= bm_accountId) ?? EmptyString))
    (normalizePeerConstraint (m ≫= bm_peer))
    (or_null (normalizeId (m ≫= bm_guildId)))
    (or_null (normalizeId (m ≫= bm_teamId)))
    (match m ≫= bm_roles with
     | Some ((_ :: _) as rawRoles) => Some rawRoles
     | _ => None
     end).

Definition resolveAccountPatternKey (pattern : string) : string :=
  match trim pattern with
  | EmptyString => DEFAULT_ACCOUNT_ID
  | _ => normalizeAccountId (Some pattern)
  end.

Record EvaluatedBindingsByChannel := mkByChannel {
  bc_byAccount : omap string (list EvaluatedBinding);
  bc_byAnyAccount : list EvaluatedBinding;
}.

(** [map.get(key)] followed by a push onto the list found, or a new list. *)
Definition push_to {A} (m : omap string (list A)) (key : string) (a : A) : omap string (list A) :=
  oset m key ((oget m key ?? []) ++ [a]).

(** Where one evaluated binding goes in its channel's bucket. *)
Definition addToBucket (bucket : EvaluatedBindingsByChannel) (evaluated : EvaluatedBinding)
    : EvaluatedBindingsByChannel :=
  let pattern := accountPattern (e_match evaluated) in
  if String.eqb pattern "*"
  then mkByChannel (bc_byAccount bucket) (bc_byAnyAccount bucket ++ [evaluated])
  else mkByChannel (push_to (bc_byAccount bucket) (resolveAccountPatternKey pattern) evaluated)
         (bc_byAnyAccount bucket).

(** One iteration of the loop of [buildEvaluatedBindingsByChannel]. *)
Definition addBinding (acc : omap string EvaluatedBindingsByChannel * nat) (b : AgentBinding)
    : omap string EvaluatedBindingsByChannel * nat :=
  let (byChannel, order) := acc in
  match normalizeToken (b_match b ≫= bm_channel) with
  | EmptyString => acc
  | channel =>
      let evaluated := mkEvaluated b (normalizeBindingMatch (b_match b)) order in
      let bucket := oget byChannel channel ?? mkByChannel [] [] in
      (oset byChannel channel (addToBucket bucket evaluated), S order)
  end.

Definition buildEvaluatedBindingsByChannel (cfg : OpenClawConfig)
    : omap string EvaluatedBindingsByChannel :=
  (foldl addBinding ([], 0%nat) (listBindings cfg)).1.

(** The merge of two lists that are each in source order. *)
Fixpoint mergeLoop (accountScoped anyAccount : list EvaluatedBinding) : list EvaluatedBinding :=
  let fix inner (anyAccount : list EvaluatedBinding) : list EvaluatedBinding :=
    match accountScoped, anyAccount with
    | [], _ => anyAccount
    | _, [] => accountScoped
    | a :: acc', y :: any' =>
        if (e_order a <=? e_order y)%nat then a :: mergeLoop acc' anyAccount
        else y :: inner any'
    end in
  inner anyAccount.

Definition mergeEvaluatedBindingsInSourceOrder (accountScoped anyAccount : list EvaluatedBinding)
    : list EvaluatedBinding :=
  match accountScoped, anyAccount with
  | [], _ => anyAccount
  | _, [] => accountScoped
  | _, _ => mergeLoop accountScoped anyAccount
  end.

(** ** The index *)

Record EvaluatedBindingsIndex := mkIndex {
  ix_byPeer : omap string (list EvaluatedBinding);
  ix_byPeerWildcard : list EvaluatedBinding;
  ix_byGuildWithRoles : omap string (list EvaluatedBinding);
  ix_byGuild : omap string (list EvaluatedBinding);
  ix_byTeam : omap string (list EvaluatedBinding);
  ix_byAccount : list EvaluatedBinding;
  ix_byChannel : list EvaluatedBinding;
}.

Definition pushToIndexMap (m : omap string (list EvaluatedBinding)) (key : option string)
    (b : EvaluatedBinding) : omap string (list EvaluatedBinding) :=
  match key with
  | Some (String _ _ as k) => push_to m k b
  | _ => m
  end.

Definition peerLookupKeys (kind : ChatType) (id : string) : list string :=
  match kind with
  | Group => ["group:" +:+ id; "channel:" +:+ id]
  | Channel => ["channel:" +:+ id; "group:" +:+ id]
  | Direct => [ChatType_str kind +:+ ":" +:+ id]
  end.

(** [collectPeerIndexedBindings]: a binding is identified by its order. *)
Definition collectPeerIndexedBindings (index : EvaluatedBindingsIndex) (peer : option RoutePeer)
    : list EvaluatedBinding :=
  match peer with
  | None => []
  | Some p =>
      foldl (λ out key,
               foldl (λ out b,
                        if existsb (λ x, (e_order x =? e_order b)%nat) out then out
                        else out ++ [b])
                 out (oget (ix_byPeer index) key ?? []))
        [] (peerLookupKeys (rp_kind p) (rp_id p))
  end.

Definition addToIndex (ix : EvaluatedBindingsIndex) (b : EvaluatedBinding)
    : EvaluatedBindingsIndex :=
  let m := e_match b in
  match m_peer m with
  | PeerValid kind id =>
      mkIndex (foldl (λ mp key, pushToIndexMap mp (Some key) b) (ix_byPeer ix)
                 (peerLookupKeys kind id))
        (ix_byPeerWildcard ix) (ix_byGuildWithRoles ix) (ix_byGuild ix) (ix_byTeam ix)
        (ix_byAccount ix) (ix_byChannel ix)
  | PeerWildcardKind _ =>
      mkIndex (ix_byPeer ix) (ix_byPeerWildcard ix ++ [b]) (ix_byGuildWithRoles ix)
        (ix_byGuild ix) (ix_byTeam ix) (ix_byAccount ix) (ix_byChannel ix)
  | _ =>
      if ostr_truthy (m_guildId m) && bool_decide (is_Some (m_roles m)) then
        mkIndex (ix_byPeer ix) (ix_byPeerWildcard ix)
          (pushToIndexMap (ix_byGuildWithRoles ix) (m_guildId m) b)
          (ix_byGuild ix) (ix_byTeam ix) (ix_byAccount ix) (ix_byChannel ix)
      else if ostr_truthy (m_guildId m) && negb (bool_decide (is_Some (m_roles m))) then
        mkIndex (ix_byPeer ix) (ix_byPeerWildcard ix) (ix_byGuildWithRoles ix)
          (pushToIndexMap (ix_byGuild ix) (m_guildId m) b)
          (ix_byTeam ix) (ix_byAccount ix) (ix_byChannel ix)
      else if ostr_truthy (m_teamId m) then
        mkIndex (ix_byPeer ix) (ix_byPeerWildcard ix) (ix_byGuildWithRoles ix) (ix_byGuild ix)
          (pushToIndexMap (ix_byTeam ix) (m_teamId m) b) (ix_byAccount ix) (ix_byChannel ix)
      else if negb (String.eqb (accountPattern m) "*") then
        mkIndex (ix_byPeer ix) (ix_byPeerWildcard ix) (ix_byGuildWithRoles ix) (ix_byGuild ix)
          (ix_byTeam ix) (ix_byAccount ix ++ [b]) (ix_byChannel ix)
      else
        mkIndex (ix_byPeer ix) (ix_byPeerWildcard ix) (ix_byGuildWithRoles ix) (ix_byGuild ix)
          (ix_byTeam ix) (ix_byAccount ix) (ix_byChannel ix ++ [b])
  end.

Definition emptyIndex : EvaluatedBindingsIndex := mkIndex [] [] [] [] [] [] [].

Definition buildEvaluatedBindingsIndex (bindings : list EvaluatedBinding)
    : EvaluatedBindingsIndex :=
  foldl addToIndex emptyIndex bindings.

(** ** Matching *)

Definition hasGuildConstraint (m : NormalizedBindingMatch) : bool := ostr_truthy (m_guildId m).
Definition hasTeamConstraint (m : NormalizedBindingMatch) : bool := ostr_truthy (m_teamId m).
Definition hasRolesConstraint (m : NormalizedBindingMatch) : bool :=
  bool_decide (is_Some (m_roles m)).

Definition peerKindMatches (bindingKind scopeKind : ChatType) : bool :=
  if bool_decide (bindingKind = scopeKind) then true
  else
    let both := [bindingKind; scopeKind] in
    bool_decide (Group ∈ both) && bool_decide (Channel ∈ both).

Definition matchesBindingScope (m : NormalizedBindingMatch) (scope : BindingScope) : bool :=
  let peerOk :=
    match m_peer m with
    | PeerInvalid => false
    | PeerValid kind id =>
        match sc_peer scope with
        | None => false
        | Some p => peerKindMatches kind (rp_kind p) && String.eqb (rp_id p) id
        end
    | PeerWildcardKind kind =>
        match sc_peer scope with
        | None => false
        | Some p => peerKindMatches kind (rp_kind p)
        end
    | PeerNone => true
    end in
  let idOk constraint actual :=
    match constraint with
    | Some (String _ _ as c) => String.eqb c actual
    | _ => true
    end in
  if negb peerOk then false
  else if negb (idOk (m_guildId m) (sc_guildId scope)) then false
  else if negb (idOk (m_teamId m) (sc_teamId scope)) then false
  else match m_roles m with
       | Some roles => existsb (λ role, bool_decide (role ∈ sc_memberRoleIds scope)) roles
       | None => true
       end.

(** ** Resolution *)

(** The normalised input. *)
Record RouteQuery := mkQuery {
  q_channel : string;
  q_accountId : string;
  q_peer : option RoutePeer;
  q_parentPeer : option RoutePeer;
  q_guildId : string;
  q_teamId : string;
  q_memberRoleIds : list string;
}.

Definition normalizeRoutePeer (p : RoutePeer) : RoutePeer :=
  mkPeer (normalizeChatType (Some (ChatType_str (rp_kind p))) ?? rp_kind p)
    (normalizeId (Some (rp_id p))).

Definition queryOf (input : ResolveAgentRouteInput) : RouteQuery :=
  mkQuery (normalizeToken (Some (in_channel input)))
    (normalizeAccountId (in_accountId input))
    (normalizeRoutePeer <$> in_peer input)
    (normalizeRoutePeer <$> in_parentPeer input)
    (normalizeId (in_guildId input))
    (normalizeId (in_teamId input))
    (in_memberRoleIds input ?? []).

Record Tier := mkTier {
  t_matchedBy : MatchedBy;
  t_enabled : bool;
  t_scopePeer : option RoutePeer;
  t_candidates : list EvaluatedBinding;
  t_predicate : NormalizedBindingMatch → bool;
}.

Definition isPeerValid (m : NormalizedBindingMatch) : bool :=
  match m_peer m with PeerValid _ _ => true | _ => false end.

Definition isPeerWildcard (m : NormalizedBindingMatch) : bool :=
  match m_peer m with PeerWildcardKind _ => true | _ => false end.

(** [parentPeer && parentPeer.id ? parentPeer : null] *)
Definition nonemptyPeer (p : option RoutePeer) : option RoutePeer :=
  match p with
  | Some q => if str_truthy (rp_id q) then Some q else None
  | None => None
  end.

(** The lookup of an id in one of the index maps, guarded by [id ?]. *)
Definition indexed (m : omap string (list EvaluatedBinding)) (id : string)
    : list EvaluatedBinding :=
  if str_truthy id then oget m id ?? [] else [].

Definition tiers (ix : EvaluatedBindingsIndex) (q : RouteQuery) : list Tier :=
  let peer := q_peer q in
  let isSome {A} (o : option A) := match o with Some _ => true | None => false end in
  [mkTier ByPeer (isSome peer) peer (collectPeerIndexedBindings ix peer) isPeerValid;
   mkTier ByPeerParent (isSome (nonemptyPeer (q_parentPeer q))) (nonemptyPeer (q_parentPeer q))
     (collectPeerIndexedBindings ix (q_parentPeer q)) isPeerValid;
   mkTier ByPeerWildcard (isSome peer) peer (ix_byPeerWildcard ix) isPeerWildcard;
   mkTier ByGuildRoles (str_truthy (q_guildId q) && (0 <? length (q_memberRoleIds q))%nat) peer
     (indexed (ix_byGuildWithRoles ix) (q_guildId q))
     (λ m, hasGuildConstraint m && hasRolesConstraint m);
   mkTier ByGuild (str_truthy (q_guildId q)) peer (indexed (ix_byGuild ix) (q_guildId q))
     (λ m, hasGuildConstraint m && negb (hasRolesConstraint m));
   mkTier ByTeam (str_truthy (q_teamId q)) peer (indexed (ix_byTeam ix) (q_teamId q))
     hasTeamConstraint;
   mkTier ByAccount true peer (ix_byAccount ix) (λ m, negb (String.eqb (accountPattern m) "*"));
   mkTier ByChannel true peer (ix_byChannel ix) (λ m, String.eqb (accountPattern m) "*")].

Definition scopeFor (q : RouteQuery) (peer : option RoutePeer) : BindingScope :=
  mkScope peer (q_guildId q) (q_teamId q) (q_memberRoleIds q).

(** The loop over the tiers. *)
Fixpoint firstMatch (q : RouteQuery) (ts : list Tier) : option (MatchedBy * EvaluatedBinding) :=
  match ts with
  | [] => None
  | t :: ts' =>
      if negb (t_enabled t) then firstMatch q ts'
      else match List.find (λ c, t_predicate t (e_match c) &&
                                 matchesBindingScope (e_match c) (scopeFor q (t_scopePeer t)))
                   (t_candidates t) with
           | Some c => Some (t_matchedBy t, c)
           | None => firstMatch q ts'
           end
  end.

(** [choose], without the stores to the caches. *)
Definition choose (cfg : OpenClawConfig) (lookup : AgentLookupCache) (q : RouteQuery)
    (agent : option string) (matchedBy : MatchedBy) : ResolvedAgentRoute :=
  let resolvedAgentId := pickFrom lookup agent in
  let sessionKey := normalizeLowercaseStringOrEmpty
    (Some (buildAgentSessionKey resolvedAgentId (q_channel q) (Some (q_accountId q)) (q_peer q)
             (Some (cfg_dmScope cfg ?? ScopeMain)) (cfg_identityLinks cfg))) in
  let mainSessionKey := normalizeLowercaseStringOrEmpty
    (Some (buildAgentMainSessionKey resolvedAgentId (Some DEFAULT_MAIN_KEY))) in
  mkRoute resolvedAgentId (q_channel q) (q_accountId q) sessionKey mainSessionKey
    (deriveLastRoutePolicy sessionKey mainSessionKey) matchedBy.

(** The end of [resolveAgentRoute]: the tiers, then the default agent. *)
Definition chooseRoute (cfg : OpenClawConfig) (lookup : AgentLookupCache)
    (ix : EvaluatedBindingsIndex) (q : RouteQuery) : ResolvedAgentRoute :=
  match firstMatch q (tiers ix q) with
  | Some (matchedBy, c) => choose cfg lookup q (b_agentId (e_binding c)) matchedBy
  | None => choose cfg lookup q (Some (resolveDefaultAgentId cfg)) ByDefault
  end.

(** ** The caches of one configuration object *)

Record EvaluatedBindingsCache := mkEvalCache {
  ec_bindingsRef : nat;
  ec_byChannel : omap string EvaluatedBindingsByChannel;
  ec_byChannelAccount : omap string (list EvaluatedBinding);
  ec_byChannelAccountIndex : omap string EvaluatedBindingsIndex;
}.

Record RouteCache := mkRouteCache {
  rc_bindingsRef : nat;
  rc_agentsRef : nat;
  rc_sessionRef : nat;
  rc_byKey : omap string ResolvedAgentRoute;
}.

Record CfgCaches := mkCaches {
  c_agentLookup : option (nat * AgentLookupCache);
  c_evaluated : option EvaluatedBindingsCache;
  c_resolved : option RouteCache;
}.

Definition emptyCaches : CfgCaches := mkCaches None None None.

Definition MAX_EVALUATED_BINDINGS_CACHE_KEYS : nat := Z.to_nat 2000.
Definition MAX_RESOLVED_ROUTE_CACHE_KEYS : nat := Z.to_nat 4000.

Definition resolveAgentLookupCache (s : CfgCaches) (cfg : OpenClawConfig)
    : AgentLookupCache * CfgCaches :=
  let next := buildAgentLookup cfg in
  let rebuilt := (next, mkCaches (Some (agentsRef cfg, next)) (c_evaluated s) (c_resolved s)) in
  match c_agentLookup s with
  | Some (ref, existing) => if (ref =? agentsRef cfg)%nat then (existing, s) else rebuilt
  | None => rebuilt
  end.

Definition tab : string := String (Ascii.ascii_of_nat 9) EmptyString.

(** The list of bindings of a channel and an account, uncached. *)
Definition evaluatedBindings (byChannel : omap string EvaluatedBindingsByChannel)
    (channel account : string) : list EvaluatedBinding :=
  let channelBindings := oget byChannel channel in
  let accountScoped := (channelBindings ≫= λ b, oget (bc_byAccount b) account) ?? [] in
  let anyAccount := (bc_byAnyAccount <$> channelBindings) ?? [] in
  mergeEvaluatedBindingsInSourceOrder accountScoped anyAccount.

(** The cache of the current bindings array, created when the array changed. *)
Definition currentEvalCache (s : CfgCaches) (cfg : OpenClawConfig) : EvaluatedBindingsCache :=
  let fresh := mkEvalCache (bindingsRef cfg) (buildEvaluatedBindingsByChannel cfg) [] [] in
  match c_evaluated s with
  | Some existing => if (ec_bindingsRef existing =? bindingsRef cfg)%nat then existing else fresh
  | None => fresh
  end.

Definition getEvaluatedBindingsForChannelAccount (s : CfgCaches) (cfg : OpenClawConfig)
    (channel account : string) : list EvaluatedBinding * CfgCaches :=
  let cache := currentEvalCache s cfg in
  let cacheKey := channel +:+ tab +:+ account in
  let put c := mkCaches (c_agentLookup s) (Some c) (c_resolved s) in
  match oget (ec_byChannelAccount cache) cacheKey with
  | Some hit => (hit, put cache)
  | None =>
      let evaluated := evaluatedBindings (ec_byChannel cache) channel account in
      let index := buildEvaluatedBindingsIndex evaluated in
      let byCA := oset (ec_byChannelAccount cache) cacheKey evaluated in
      let byIx := oset (ec_byChannelAccountIndex cache) cacheKey index in
      if (osize byCA <=? MAX_EVALUATED_BINDINGS_CACHE_KEYS)%nat
      then (evaluated, put (mkEvalCache (ec_bindingsRef cache) (ec_byChannel cache) byCA byIx))
      else (evaluated, put (mkEvalCache (ec_bindingsRef cache) (ec_byChannel cache)
                              [(cacheKey, evaluated)] [(cacheKey, index)]))
  end.

Definition getEvaluatedBindingIndexForChannelAccount (s : CfgCaches) (cfg : OpenClawConfig)
    (channel account : string) : EvaluatedBindingsIndex * CfgCaches :=
  let (bindings, s1) := getEvaluatedBindingsForChannelAccount s cfg channel account in
  let cacheKey := channel +:+ tab +:+ account in
  match c_evaluated s1 with
  | Some existing =>
      match oget (ec_byChannelAccountIndex existing) cacheKey with
      | Some index => (index, s1)
      | None =>
          let built := buildEvaluatedBindingsIndex bindings in
          (built, mkCaches (c_agentLookup s1)
                    (Some (mkEvalCache (ec_bindingsRef existing) (ec_byChannel existing)
                       (ec_byChannelAccount existing)
                       (oset (ec_byChannelAccountIndex existing) cacheKey built)))
                    (c_resolved s1))
      end
  | None => (buildEvaluatedBindingsIndex bindings, s1)
  end.

(** *** The route cache *)

Definition formatRouteCachePeer (peer : option RoutePeer) : string :=
  match peer with
  | Some p => if str_truthy (rp_id p) then ChatType_str (rp_kind p) +:+ ":" +:+ rp_id p else "-"
  | None => "-"
  end.

(** [a <= b] on strings, and the order of [toSorted()]. *)
Definition string_le (a b : string) : Prop := String.leb a b = true.
#[export] Instance string_le_dec a b : Decision (string_le a b).
Proof. unfold string_le. apply _. Defined.

Definition formatRoleIdsCacheKey (roleIds : list string) : string :=
  match roleIds with
  | [] => "-"
  | [r] => r
  | [first; second] =>
      if decide (string_le first second) then first +:+ "," +:+ second
      else second +:+ "," +:+ first
  | _ => join_with "," (merge_sort string_le roleIds)
  end.

Definition DmScope_str (d : DmScope) : string :=
  match d with
  | ScopeMain => "main" | PerPeer => "per-peer" | PerChannelPeer => "per-channel-peer"
  | PerAccountChannelPeer => "per-account-channel-peer"
  end.

Definition buildResolvedRouteCacheKey (q : RouteQuery) (dmScope : DmScope) : string :=
  q_channel q +:+ tab +:+ q_accountId q +:+ tab +:+ formatRouteCachePeer (q_peer q) +:+ tab +:+
  formatRouteCachePeer (q_parentPeer q) +:+ tab +:+ str_or (q_guildId q) "-" +:+ tab +:+
  str_or (q_teamId q) "-" +:+ tab +:+ formatRoleIdsCacheKey (q_memberRoleIds q) +:+ tab +:+
  DmScope_str dmScope.

Definition resolveRouteCacheForConfig (s : CfgCaches) (cfg : OpenClawConfig) : RouteCache :=
  let fresh := mkRouteCache (bindingsRef cfg) (agentsRef cfg) (sessionRef cfg) [] in
  match c_resolved s with
  | Some existing =>
      if (rc_bindingsRef existing =? bindingsRef cfg)%nat &&
         (rc_agentsRef existing =? agentsRef cfg)%nat &&
         (rc_sessionRef existing =? sessionRef cfg)%nat
      then existing else fresh
  | None => fresh
  end.

Definition storeRoute (c : RouteCache) (key : string) (route : ResolvedAgentRoute) : RouteCache :=
  let byKey := oset (rc_byKey c) key route in
  mkRouteCache (rc_bindingsRef c) (rc_agentsRef c) (rc_sessionRef c)
    (if (osize byKey <=? MAX_RESOLVED_ROUTE_CACHE_KEYS)%nat then byKey else [(key, route)]).

(** The part of [resolveAgentRoute] that runs when no cached route is returned. *)
Definition computeRoute (s : CfgCaches) (cfg : OpenClawConfig) (q : RouteQuery)
    : ResolvedAgentRoute * CfgCaches :=
  let (_, s1) := getEvaluatedBindingsForChannelAccount s cfg (q_channel q) (q_accountId q) in
  let (ix, s2) :=
    getEvaluatedBindingIndexForChannelAccount s1 cfg (q_channel q) (q_accountId q) in
  let (lookup, s3) := resolveAgentLookupCache s2 cfg in
  (chooseRoute cfg lookup ix q, s3).

(** [resolveAgentRoute]: [verbose] is [shouldLogVerbose()]. *)
Definition resolveAgentRoute (s : CfgCaches) (cfg : OpenClawConfig) (verbose : bool)
    (input : ResolveAgentRouteInput) : ResolvedAgentRoute * CfgCaches :=
  let q := queryOf input in
  let dmScope := cfg_dmScope cfg ?? ScopeMain in
  if negb verbose && negb (bool_decide (is_Some (cfg_identityLinks cfg))) then
    let routeCache := resolveRouteCacheForConfig s cfg in
    let s0 := mkCaches (c_agentLookup s) (c_evaluated s) (Some routeCache) in
    let key := buildResolvedRouteCacheKey q dmScope in
    match oget (rc_byKey routeCache) key with
    | Some cachedRoute => (cachedRoute, s0)
    | None =>
        let (route, s1) := computeRoute s0 cfg q in
        (route, mkCaches (c_agentLookup s1) (c_evaluated s1)
                  (Some (storeRoute routeCache key route)))
    end
  else computeRoute s cfg q.

(** What [resolveAgentRoute] computes without any cache. *)
Definition routeOf (cfg : OpenClawConfig) (q : RouteQuery) : ResolvedAgentRoute :=
  chooseRoute cfg (buildAgentLookup cfg)
    (buildEvaluatedBindingsIndex
       (evaluatedBindings (buildEvaluatedBindingsByChannel cfg) (q_channel q) (q_accountId q))) q.

(** ** bindings.ts *)

Section Bindings.
(** The tables of channels/ids.ts, which it fills from the manifests of the
    bundled channel plugins. *)
Context (CHAT_CHANNEL_ALIASES : omap string string) (CHAT_CHANNEL_ID_SET : list string).

Definition normalizeChatChannelId (raw : option string) : option string :=
  match normalizeOptionalLowercaseString raw with
  | None => None
  | Some normalized =>
      let resolved := oget CHAT_CHANNEL_ALIASES normalized ?? normalized in
      if bool_decide (resolved ∈ CHAT_CHANNEL_ID_SET) then Some resolved else None
  end.

Definition normalizeBindingChannelId (raw : option string) : option string :=
  match normalizeChatChannelId raw with
  | Some (String _ _ as normalized) => Some normalized
  | _ => or_null (normalizeLowercaseStringOrEmpty raw)
  end.

Record ResolvedBindingMatch := mkResolvedMatch {
  rb_agentId : string; rb_accountId : string; rb_channelId : string }.

Definition resolveNormalizedBindingMatch (b : AgentBinding) : option ResolvedBindingMatch :=
  match b_match b with
  | None => None
  | Some m =>
      match normalizeBindingChannelId (bm_channel m) with
      | None => None
      | Some channelId =>
          let account := trim (bm_accountId m ?? EmptyString) in
          if negb (str_truthy account) || String.eqb account "*" then None
          else Some (mkResolvedMatch (normalizeAgentId (b_agentId b))
                       (normalizeAccountId (Some account)) channelId)
      end
  end.

Definition resolveDefaultAgentBoundAccountId (cfg : OpenClawConfig) (channelId : string)
    : option string :=
  match normalizeBindingChannelId (Some channelId) with
  | None => None
  | Some normalizedChannel =>
      let defaultAgentId := normalizeAgentId (Some (resolveDefaultAgentId cfg)) in
      let wanted r := String.eqb (rb_channelId r) normalizedChannel &&
                      String.eqb (rb_agentId r) defaultAgentId in
      rb_accountId <$> List.find wanted (filter_map resolveNormalizedBindingMatch (listBindings cfg))
  end.

Definition addChannelAccount (m : omap string (omap string (list string)))
    (r : ResolvedBindingMatch) : omap string (omap string (list string)) :=
  let byAgent := oget m (rb_channelId r) ?? [] in
  let l := oget byAgent (rb_agentId r) ?? [] in
  let l' := if bool_decide (rb_accountId r ∈ l) then l else l ++ [rb_accountId r] in
  oset m (rb_channelId r) (oset byAgent (rb_agentId r) l').

Definition buildChannelAccountBindings (cfg : OpenClawConfig)
    : omap string (omap string (list string)) :=
  foldl addChannelAccount []
    (filter_map resolveNormalizedBindingMatch (listBindings cfg)).

End Bindings.

Definition resolvePreferredAccountId (defaultAccountId : string) (boundAccounts : list string)
    : string :=
  match boundAccounts with
  | b :: _ => b
  | [] => defaultAccountId
  end.

(** ** The reference: a linear scan in source order *)

Module Reference.

(** The class of a binding: the one list of the index it is stored in. *)
Definition classOf (m : NormalizedBindingMatch) : MatchedBy :=
  match m_peer m with
  | PeerValid _ _ => ByPeer
  | PeerWildcardKind _ => ByPeerWildcard
  | _ =>
      if hasGuildConstraint m then if hasRolesConstraint m then ByGuildRoles else ByGuild
      else if hasTeamConstraint m then ByTeam
      else if String.eqb (accountPattern m) "*" then ByChannel else ByAccount
  end.

(** The route bindings with a channel, numbered in source order. *)
Fixpoint evaluateAll (order : nat) (bs : list AgentBinding) : list (string * EvaluatedBinding) :=
  match bs with
  | [] => []
  | b :: bs' =>
      match normalizeToken (b_match b ≫= bm_channel) with
      | EmptyString => evaluateAll order bs'
      | channel =>
          (channel, mkEvaluated b (normalizeBindingMatch (b_match b)) order)
            :: evaluateAll (S order) bs'
      end
  end.

Definition ofChannel (channel : string) (l : list (string * EvaluatedBinding))
    : list EvaluatedBinding :=
  snd <$> List.filter (λ e, String.eqb e.1 channel) l.

Definition anyAccount (e : EvaluatedBinding) : bool :=
  String.eqb (accountPattern (e_match e)) "*".
Definition forAccount (account : string) (e : EvaluatedBinding) : bool :=
  negb (anyAccount e) &&
  String.eqb (resolveAccountPatternKey (accountPattern (e_match e))) account.

(** The bindings that apply to a channel and an account, in source order. *)
Definition applicable (cfg : OpenClawConfig) (channel account : string) : list EvaluatedBinding :=
  List.filter (λ e, forAccount account e || anyAccount e)
    (ofChannel channel (evaluateAll 0 (listBindings cfg))).

(** The tiers from the most to the least specific, each with the peer it
    compares and the class of binding it admits. *)
Definition tierScopes (q : RouteQuery) : list (MatchedBy * MatchedBy * option RoutePeer) :=
  [(ByPeer, ByPeer, q_peer q);
   (ByPeerParent, ByPeer, nonemptyPeer (q_parentPeer q));
   (ByPeerWildcard, ByPeerWildcard, q_peer q);
   (ByGuildRoles, ByGuildRoles, q_peer q);
   (ByGuild, ByGuild, q_peer q);
   (ByTeam, ByTeam, q_peer q);
   (ByAccount, ByAccount, q_peer q);
   (ByChannel, ByChannel, q_peer q)].

Definition admits (q : RouteQuery) (cls : MatchedBy) (peer : option RoutePeer)
    (e : EvaluatedBinding) : bool :=
  bool_decide (classOf (e_match e) = cls) && matchesBindingScope (e_match e) (scopeFor q peer).

Fixpoint scan (q : RouteQuery) (l : list EvaluatedBinding)
    (ts : list (MatchedBy * MatchedBy * option RoutePeer)) : option (MatchedBy * EvaluatedBinding) :=
  match ts with
  | [] => None
  | (name, cls, peer) :: ts' =>
      match List.find (admits q cls peer) l with
      | Some e => Some (name, e)
      | None => scan q l ts'
      end
  end.

Definition bestMatch (cfg : OpenClawConfig) (q : RouteQuery)
    : option (MatchedBy * EvaluatedBinding) :=
  scan q (applicable cfg (q_channel q) (q_accountId q)) (tierScopes q).

End Reference.
Import Reference.

(** ** The index holds each binding under its class *)

Lemma oget_push_to {A} (m : omap string (list A)) k k' a :
  oget (push_to m k a) k' ?? [] = if decide (k = k') then (oget m k' ?? []) ++ [a]
                                  else oget m k' ?? [].
Proof. unfold push_to. rewrite oget_oset. case_decide; subst; done. Qed.

Definition hasPeerKey (key : string) (e : EvaluatedBinding) : bool :=
  match m_peer (e_match e) with
  | PeerValid kind id => existsb (String.eqb key) (peerLookupKeys kind id)
  | _ => false
  end.

Definition inClass (cls : MatchedBy) (e : EvaluatedBinding) : bool :=
  bool_decide (classOf (e_match e) = cls).

Definition guildIs (g : string) (e : EvaluatedBinding) : bool :=
  bool_decide (m_guildId (e_match e) = Some g).
Definition teamIs (g : string) (e : EvaluatedBinding) : bool :=
  bool_decide (m_teamId (e_match e) = Some g).

Record index_spec (l : list EvaluatedBinding) (ix : EvaluatedBindingsIndex) : Prop := {
  is_peer key : oget (ix_byPeer ix) key ?? [] = List.filter (hasPeerKey key) l;
  is_wild : ix_byPeerWildcard ix = List.filter (inClass ByPeerWildcard) l;
  is_roles g : str_truthy g = true → oget (ix_byGuildWithRoles ix) g ?? [] =
      List.filter (λ e, inClass ByGuildRoles e && guildIs g e) l;
  is_guild g : str_truthy g = true → oget (ix_byGuild ix) g ?? [] =
      List.filter (λ e, inClass ByGuild e && guildIs g e) l;
  is_team g : str_truthy g = true → oget (ix_byTeam ix) g ?? [] =
      List.filter (λ e, inClass ByTeam e && teamIs g e) l;
  is_account : ix_byAccount ix = List.filter (inClass ByAccount) l;
  is_channel : ix_byChannel ix = List.filter (inClass ByChannel) l;
}.

Lemma filter_snoc {A} (f : A → bool) l a :
  List.filter f (l ++ [a]) = List.filter f l ++ if f a then [a] else [].
Proof. rewrite List.filter_app. simpl. by destruct (f a). Qed.

Lemma filter_snoc_true {A} (f : A → bool) l a :
  f a = true → List.filter f (l ++ [a]) = List.filter f l ++ [a].
Proof. intros H. by rewrite filter_snoc, H. Qed.

Lemma filter_snoc_false {A} (f : A → bool) l a :
  f a = false → List.filter f (l ++ [a]) = List.filter f l.
Proof. intros H. by rewrite filter_snoc, H, app_nil_r. Qed.

(** A push into one of the maps keyed by an id. *)
Lemma pushToIndexMap_spec (f : EvaluatedBinding → bool) (keyIs : string → EvaluatedBinding → bool)
    m key l b :
  (∀ g, keyIs g b = bool_decide (key = Some g)) → f b = true → ostr_truthy key = true →
  (∀ g, str_truthy g = true → oget m g ?? [] = List.filter (λ e, f e && keyIs g e) l) →
  ∀ g, str_truthy g = true →
    oget (pushToIndexMap m key b) g ?? [] = List.filter (λ e, f e && keyIs g e) (l ++ [b]).
Proof.
  intros His Hf Hk Hm g Hg. destruct key as [[|c k]|]; [done| |done]. simpl.
  rewrite oget_push_to, filter_snoc, Hf, His, Hm by done. simpl.
  destruct (decide (String c k = g)) as [->|Hne].
  - by rewrite bool_decide_eq_true_2.
  - rewrite bool_decide_eq_false_2 by congruence. by rewrite app_nil_r.
Qed.

Lemma two_keys {A} (k1 k2 key : string) (l : list A) a :
  k1 ≠ k2 →
  (if decide (k2 = key) then (if decide (k1 = key) then l ++ [a] else l) ++ [a]
   else if decide (k1 = key) then l ++ [a] else l)
  = l ++ (if bool_decide (k1 = key) || bool_decide (k2 = key) then [a] else []).
Proof.
  intros Hne. repeat case_decide; repeat case_bool_decide; simpl; rewrite ?app_nil_r; congruence.
Qed.

Lemma byPeer_spec m kind id l b :
  m_peer (e_match b) = PeerValid kind id →
  (∀ key, oget m key ?? [] = List.filter (hasPeerKey key) l) →
  ∀ key, oget (foldl (λ mp k, pushToIndexMap mp (Some k) b) m (peerLookupKeys kind id)) key ?? []
         = List.filter (hasPeerKey key) (l ++ [b]).
Proof.
  intros Hb Hm key. rewrite filter_snoc, <- Hm. unfold hasPeerKey. rewrite Hb.
  assert (∀ k mp, str_truthy k = true → oget (pushToIndexMap mp (Some k) b) key ?? [] =
    if decide (k = key) then (oget mp key ?? []) ++ [b] else oget mp key ?? []) as Hpush.
  { intros [|c k] mp Hk; [done|]. apply oget_push_to. }
  assert (∀ k, String.eqb key k = bool_decide (k = key)) as Heqb.
  { intros k. apply Bool.eq_iff_eq_true. by rewrite String.eqb_eq, bool_decide_eq_true. }
  destruct kind; cbn [peerLookupKeys foldl existsb]; rewrite !Hpush, !Heqb by done;
    rewrite ?orb_false_r.
  - case_decide; [by rewrite bool_decide_eq_true_2|].
    by rewrite bool_decide_eq_false_2, app_nil_r.
  - apply two_keys. by destruct (decide ("group:" +:+ id = "channel:" +:+ id)).
  - apply two_keys. by destruct (decide ("channel:" +:+ id = "group:" +:+ id)).
Qed.

Lemma addToIndex_class ix b :
  addToIndex ix b =
    let m := e_match b in
    let 'mkIndex p w r g t a c := ix in
    match classOf m with
    | ByPeer =>
        match m_peer m with
        | PeerValid kind id =>
            mkIndex (foldl (λ mp key, pushToIndexMap mp (Some key) b) p (peerLookupKeys kind id))
              w r g t a c
        | _ => ix
        end
    | ByPeerWildcard => mkIndex p (w ++ [b]) r g t a c
    | ByGuildRoles => mkIndex p w (pushToIndexMap r (m_guildId m) b) g t a c
    | ByGuild => mkIndex p w r (pushToIndexMap g (m_guildId m) b) t a c
    | ByTeam => mkIndex p w r g (pushToIndexMap t (m_teamId m) b) a c
    | ByAccount => mkIndex p w r g t (a ++ [b]) c
    | _ => mkIndex p w r g t a (c ++ [b])
    end.
Proof.
  destruct ix. unfold addToIndex, classOf, hasGuildConstraint, hasRolesConstraint, hasTeamConstraint.
  cbn [ix_byPeer ix_byPeerWildcard ix_byGuildWithRoles ix_byGuild ix_byTeam ix_byAccount ix_byChannel].
  destruct (m_peer (e_match b)); try done;
    destruct (ostr_truthy (m_guildId (e_match b)));
    destruct (bool_decide (is_Some (m_roles (e_match b)))); try done;
    destruct (ostr_truthy (m_teamId (e_match b))); try done;
    by destruct (String.eqb (accountPattern (e_match b)) "*").
Qed.

Lemma classOf_guild m :
  classOf m = ByGuildRoles ∨ classOf m = ByGuild → ostr_truthy (m_guildId m) = true.
Proof.
  unfold classOf, hasGuildConstraint.
  destruct (m_peer m), (ostr_truthy (m_guildId m)); try done; intros [H|H]; revert H;
    by case_matches.
Qed.

Lemma classOf_team m : classOf m = ByTeam → ostr_truthy (m_teamId m) = true.
Proof.
  unfold classOf, hasTeamConstraint.
  destruct (m_peer m), (ostr_truthy (m_teamId m)); try done; by case_matches.
Qed.

Lemma classOf_not_others m : classOf m ≠ ByPeerParent ∧ classOf m ≠ ByDefault.
Proof. unfold classOf. by case_matches. Qed.

Section add.
Context (l : list EvaluatedBinding) (b : EvaluatedBinding) (cls : MatchedBy)
  (Hb : classOf (e_match b) = cls).

Lemma skip_class cls' :
  cls ≠ cls' → List.filter (inClass cls') (l ++ [b]) = List.filter (inClass cls') l.
Proof. intros Hne. apply filter_snoc_false. apply bool_decide_eq_false_2. congruence. Qed.

Lemma skip_keyed cls' (keyIs : string → EvaluatedBinding → bool) g :
  cls ≠ cls' → List.filter (λ e, inClass cls' e && keyIs g e) (l ++ [b]) =
               List.filter (λ e, inClass cls' e && keyIs g e) l.
Proof.
  intros Hne. apply filter_snoc_false. apply andb_false_iff. left.
  apply bool_decide_eq_false_2. congruence.
Qed.

Lemma skip_peer key :
  cls ≠ ByPeer → List.filter (hasPeerKey key) (l ++ [b]) = List.filter (hasPeerKey key) l.
Proof.
  intros Hne. apply filter_snoc_false. unfold hasPeerKey.
  unfold classOf in Hb. by destruct (m_peer (e_match b)).
Qed.

Lemma keep_class : List.filter (inClass cls) (l ++ [b]) = List.filter (inClass cls) l ++ [b].
Proof. apply filter_snoc_true. by apply bool_decide_eq_true_2. Qed.
End add.

Lemma index_spec_add l ix b :
  index_spec l ix → index_spec (l ++ [b]) (addToIndex ix b).
Proof.
  intros [H1 H2 H3 H4 H5 H6 H7]. rewrite addToIndex_class. destruct ix as [p w r g t a c].
  cbv beta iota zeta.
  cbn in H1, H2, H3, H4, H5, H6, H7. pose proof (classOf_not_others (e_match b)) as [Hn1 Hn2].
  assert (∀ cls, classOf (e_match b) = cls → inClass cls b = true) as Hin
    by (intros cls Hc; by apply bool_decide_eq_true_2).
  destruct (classOf (e_match b)) eqn:Hb; try done; clear Hn1 Hn2.
  1: destruct (m_peer (e_match b)) eqn:Hp;
     try (exfalso; revert Hb; unfold classOf; rewrite Hp; by case_matches).
  all: split; cbn [ix_byPeer ix_byPeerWildcard ix_byGuildWithRoles ix_byGuild ix_byTeam
                   ix_byAccount ix_byChannel].
  all: try (intros key; rewrite (skip_peer l b _ Hb) by done; apply H1).
  all: try (rewrite (skip_class l b _ Hb) by done; assumption).
  all: try (intros key Hk; rewrite (skip_keyed l b _ Hb) by done; auto).
  all: try (rewrite (keep_class l b _ Hb); by f_equal).
  - by apply byPeer_spec.
  - apply pushToIndexMap_spec; auto. by apply classOf_guild; left.
  - apply pushToIndexMap_spec; auto. by apply classOf_guild; right.
  - apply pushToIndexMap_spec; auto. by apply classOf_team.
Qed.

Lemma index_spec_build l : index_spec l (buildEvaluatedBindingsIndex l).
Proof.
  induction l as [|b l IH] using rev_ind; [by split|].
  unfold buildEvaluatedBindingsIndex. rewrite foldl_app. by apply index_spec_add.
Qed.

(** ** Looking the tiers up is scanning the bindings *)

Definition peerMatch (p : RoutePeer) (e : EvaluatedBinding) : bool :=
  match m_peer (e_match e) with
  | PeerValid kind id => peerKindMatches kind (rp_kind p) && String.eqb (rp_id p) id
  | _ => false
  end.

(** The two keys of a group or a channel find the same bindings. *)
Lemma hasPeerKey_match p e key :
  key ∈ peerLookupKeys (rp_kind p) (rp_id p) → hasPeerKey key e = peerMatch p e.
Proof.
  intros Hk. unfold hasPeerKey, peerMatch. destruct (m_peer (e_match e)) as [| | |kind id]; try done.
  destruct p as [k i]. cbn [rp_kind rp_id] in *.
  destruct k; cbn [peerLookupKeys] in Hk; repeat (apply elem_of_cons in Hk as [->|Hk]);
    try (by apply not_elem_of_nil in Hk); destruct kind; cbn; by rewrite ?orb_false_r.
Qed.

Definition collect_step (out : list EvaluatedBinding) (b : EvaluatedBinding)
    : list EvaluatedBinding :=
  if existsb (λ x, (e_order x =? e_order b)%nat) out then out else out ++ [b].

Lemma collect_fresh l out :
  NoDup (e_order <$> (out ++ l)) → foldl collect_step out l = out ++ l.
Proof.
  revert out. induction l as [|b l IH]; intros out Hnd; simpl; [by rewrite app_nil_r|].
  unfold collect_step at 2. destruct (existsb _ out) eqn:E.
  - apply existsb_exists in E as (x & Hx%list_elem_of_In & Ho%Nat.eqb_eq).
    rewrite fmap_app in Hnd. apply NoDup_app in Hnd as (_ & Hd & _).
    exfalso. apply (Hd (e_order x)); [by apply list_elem_of_fmap_2|]. simpl. rewrite Ho. by left.
  - rewrite (IH (out ++ [b])); [by rewrite <- app_assoc|]. by rewrite <- app_assoc.
Qed.

Lemma collect_seen l out :
  (∀ b, b ∈ l → b ∈ out) → foldl collect_step out l = out.
Proof.
  induction l as [|b l IH]; intros Hin; simpl; [done|].
  unfold collect_step at 2. assert (existsb (λ x, (e_order x =? e_order b)%nat) out = true) as ->.
  { apply existsb_exists. exists b. split; [apply list_elem_of_In, Hin; by left|apply Nat.eqb_refl]. }
  apply IH. intros c Hc. apply Hin. by right.
Qed.

Lemma NoDup_filter_orders f l :
  NoDup (e_order <$> l) → NoDup (e_order <$> List.filter f l).
Proof.
  induction l as [|b l IH]; simpl; [done|]. intros [Hn Hnd]%NoDup_cons.
  destruct (f b); simpl; [|auto]. apply NoDup_cons. split; [|auto]. intros Hin. apply Hn.
  apply list_elem_of_fmap in Hin as (x & -> & [Hx _]%list_elem_of_In%filter_In).
  by apply list_elem_of_fmap_2, list_elem_of_In.
Qed.

Lemma collectPeer_filter l p :
  NoDup (e_order <$> l) →
  collectPeerIndexedBindings (buildEvaluatedBindingsIndex l) (Some p) = List.filter (peerMatch p) l.
Proof.
  intros Hnd. pose proof (index_spec_build l) as Hix.
  assert (∀ key, key ∈ peerLookupKeys (rp_kind p) (rp_id p) →
    oget (ix_byPeer (buildEvaluatedBindingsIndex l)) key ?? [] = List.filter (peerMatch p) l) as Hk.
  { intros key Hin. rewrite (is_peer _ _ Hix). apply filter_ext_Forall, Forall_forall.
    intros e _. by apply hasPeerKey_match. }
  assert (foldl collect_step [] (List.filter (peerMatch p) l) = List.filter (peerMatch p) l) as H1
    by (by apply collect_fresh, NoDup_filter_orders).
  unfold collectPeerIndexedBindings. fold collect_step.
  assert (∀ keys, (∀ key, key ∈ keys → key ∈ peerLookupKeys (rp_kind p) (rp_id p)) →
    foldl (λ out key, foldl collect_step out
       (oget (ix_byPeer (buildEvaluatedBindingsIndex l)) key ?? [])) (List.filter (peerMatch p) l) keys
    = List.filter (peerMatch p) l) as Hrest.
  { induction keys as [|key keys IH]; intros Hin; [done|]. simpl.
    rewrite Hk by (apply Hin; by left). rewrite collect_seen by done.
    apply IH. intros k Hk'. apply Hin. by right. }
  destruct (peerLookupKeys (rp_kind p) (rp_id p)) as [|k0 keys] eqn:Ek;
    [by destruct (rp_kind p)|].
  simpl. rewrite Hk by (by left). etransitivity; [|apply (Hrest keys); intros; by right].
  f_equal. exact H1.
Qed.

(** A tier agrees with the scan of [l] when its candidates are those of [l] that
    satisfy [f], these are of the tier's class, and a binding that the scan
    admits is a candidate of an enabled tier. *)
Definition tierFind (q : RouteQuery) (t : Tier) : option EvaluatedBinding :=
  if negb (t_enabled t) then None
  else List.find (λ c, t_predicate t (e_match c) &&
                       matchesBindingScope (e_match c) (scopeFor q (t_scopePeer t)))
         (t_candidates t).

Lemma tier_scan q t f l cls :
  (t_enabled t = true → t_candidates t = List.filter f l) →
  (∀ e, f e = true → inClass cls e = true) →
  (∀ e, admits q cls (t_scopePeer t) e = true →
        t_enabled t = true ∧ f e = true ∧ t_predicate t (e_match e) = true) →
  tierFind q t = List.find (admits q cls (t_scopePeer t)) l.
Proof.
  intros Hc Hsound Hcomplete. unfold tierFind. destruct (t_enabled t); simpl.
  - rewrite (Hc eq_refl), find_filter. apply find_ext. intros e _.
    apply Bool.eq_iff_eq_true. split.
    + intros [Hf [_ Hm]%andb_true_iff]%andb_true_iff. unfold admits.
      fold (inClass cls e). by rewrite (Hsound e Hf), Hm.
    + intros Ha. destruct (Hcomplete e Ha) as (_ & -> & ->).
      by apply andb_true_iff in Ha as [_ ->].
  - symmetry. clear Hc. induction l as [|e l IH]; simpl; [done|].
    destruct (admits q cls (t_scopePeer t) e) eqn:E; [|done].
    by destruct (Hcomplete e E) as [? _].
Qed.

Lemma firstMatch_tiers q t ts :
  firstMatch q (t :: ts) =
    match tierFind q t with Some c => Some (t_matchedBy t, c) | None => firstMatch q ts end.
Proof. unfold tierFind. simpl. by destruct (t_enabled t). Qed.

(** What [matchesBindingScope] implies for the classes that are looked up by an id. *)
Lemma matches_guild m q p :
  matchesBindingScope m (scopeFor q p) = true → ostr_truthy (m_guildId m) = true →
  m_guildId m = Some (q_guildId q) ∧ str_truthy (q_guildId q) = true.
Proof.
  unfold matchesBindingScope. destruct (m_guildId m) as [[|c g]|]; try done.
  cbn [sc_guildId scopeFor negb]. intros H _. case_match; [done|].
  destruct (String.eqb (String c g) (q_guildId q)) eqn:E; [|done].
  apply String.eqb_eq in E. by rewrite <- E.
Qed.

Lemma matches_team m q p :
  matchesBindingScope m (scopeFor q p) = true → ostr_truthy (m_teamId m) = true →
  m_teamId m = Some (q_teamId q) ∧ str_truthy (q_teamId q) = true.
Proof.
  unfold matchesBindingScope. destruct (m_teamId m) as [[|c g]|]; try done.
  cbn [sc_teamId scopeFor negb]. intros H _. case_match; [done|]. case_match; [done|].
  destruct (String.eqb (String c g) (q_teamId q)) eqn:E; [|done].
  apply String.eqb_eq in E. by rewrite <- E.
Qed.

Lemma matches_roles m q p :
  matchesBindingScope m (scopeFor q p) = true → is_Some (m_roles m) → q_memberRoleIds q ≠ [].
Proof.
  unfold matchesBindingScope. intros H [roles Hr]. rewrite Hr in H.
  repeat (case_match; [done|]). cbn [sc_memberRoleIds scopeFor] in H.
  apply existsb_exists in H as (x & _ & Hx%bool_decide_eq_true) . intros Hq. rewrite Hq in Hx.
  by apply not_elem_of_nil in Hx.
Qed.

Lemma matches_peer e q p :
  matchesBindingScope (e_match e) (scopeFor q (Some p)) = true → isPeerValid (e_match e) = true →
  peerMatch p e = true.
Proof.
  unfold matchesBindingScope, isPeerValid, peerMatch.
  destruct (m_peer (e_match e)); try done. cbn [sc_peer scopeFor]. intros H _.
  destruct (_ && _); [done|discriminate H].
Qed.

Lemma matches_no_peer m q :
  classOf m = ByPeer ∨ classOf m = ByPeerWildcard →
  matchesBindingScope m (scopeFor q None) = false.
Proof.
  unfold matchesBindingScope, classOf. destruct (m_peer m); try done;
    intros [H|H]; revert H; by case_matches.
Qed.

Lemma isPeerValid_class m : isPeerValid m = bool_decide (classOf m = ByPeer).
Proof.
  unfold isPeerValid, classOf. destruct (m_peer m); symmetry;
    rewrite ?bool_decide_eq_true, ?bool_decide_eq_false; by case_matches.
Qed.

Lemma isPeerWildcard_class m : isPeerWildcard m = bool_decide (classOf m = ByPeerWildcard).
Proof.
  unfold isPeerWildcard, classOf. destruct (m_peer m); symmetry;
    rewrite ?bool_decide_eq_true, ?bool_decide_eq_false; by case_matches.
Qed.

Lemma admits_inv q cls p e :
  admits q cls p e = true →
  classOf (e_match e) = cls ∧ matchesBindingScope (e_match e) (scopeFor q p) = true.
Proof. unfold admits. by intros [?%bool_decide_eq_true ?]%andb_true_iff. Qed.

Section tier.
Context (l : list EvaluatedBinding) (q : RouteQuery).
Abbreviation ix := (buildEvaluatedBindingsIndex l).

Lemma peer_tier name enabled p cands :
  NoDup (e_order <$> l) → enabled = (match p with Some _ => true | None => false end) →
  (∀ x, p = Some x → cands = collectPeerIndexedBindings ix (Some x)) →
  tierFind q (mkTier name enabled p cands isPeerValid) = List.find (admits q ByPeer p) l.
Proof.
  intros Hnd -> Hc.
  apply (tier_scan q (mkTier name _ p _ isPeerValid)
    (match p with Some x => peerMatch x | None => λ _, false end)).
  - cbn [t_enabled t_candidates]. destruct p as [x|]; [|done]. intros _.
    rewrite (Hc x eq_refl). by apply collectPeer_filter.
  - intros e. destruct p as [x|]; [|done]. unfold peerMatch, inClass, classOf.
    by destruct (m_peer (e_match e)).
  - cbn [t_scopePeer t_enabled t_predicate]. intros e [Hcls Hm]%admits_inv.
    assert (isPeerValid (e_match e) = true) as Hv
      by (rewrite isPeerValid_class; by apply bool_decide_eq_true_2).
    destruct p as [x|]; [|by rewrite matches_no_peer in Hm by auto].
    eauto using matches_peer.
Qed.

Lemma wildcard_tier :
  tierFind q (mkTier ByPeerWildcard (match q_peer q with Some _ => true | None => false end)
                (q_peer q) (ix_byPeerWildcard ix) isPeerWildcard)
  = List.find (admits q ByPeerWildcard (q_peer q)) l.
Proof.
  apply (tier_scan q (mkTier _ _ _ _ _) (inClass ByPeerWildcard)).
  - intros _. apply index_spec_build.
  - done.
  - cbn [t_scopePeer t_enabled t_predicate]. intros e [Hcls Hm]%admits_inv.
    rewrite isPeerWildcard_class. unfold inClass.
    destruct (q_peer q); [|by rewrite matches_no_peer in Hm by auto].
    by rewrite bool_decide_eq_true_2.
Qed.

Lemma roles_tier :
  tierFind q (mkTier ByGuildRoles (str_truthy (q_guildId q) && (0 <? length (q_memberRoleIds q))%nat)
      (q_peer q) (indexed (ix_byGuildWithRoles ix) (q_guildId q))
      (λ m, hasGuildConstraint m && hasRolesConstraint m))
  = List.find (admits q ByGuildRoles (q_peer q)) l.
Proof.
  apply (tier_scan q (mkTier _ _ _ _ _) (λ e, inClass ByGuildRoles e && guildIs (q_guildId q) e)).
  - cbn [t_enabled t_candidates]. unfold indexed. intros [Hg _]%andb_true_iff. rewrite Hg.
    by apply index_spec_build.
  - intros e [? _]%andb_true_iff. done.
  - cbn [t_scopePeer t_enabled t_predicate]. intros e [Hcls Hm]%admits_inv.
    pose proof (classOf_guild (e_match e) (or_introl Hcls)) as Ht.
    destruct (matches_guild _ _ _ Hm Ht) as [Hg ->]. unfold inClass, guildIs, hasGuildConstraint.
    rewrite Ht, !bool_decide_eq_true_2 by done. simpl.
    assert (hasRolesConstraint (e_match e) = true) as Hr.
    { revert Hcls. unfold classOf. by case_matches. }
    split; [|done]. apply Nat.ltb_lt. apply bool_decide_eq_true, (matches_roles _ _ _ Hm) in Hr.
    destruct (q_memberRoleIds q); [done|simpl; lia].
Qed.

Lemma guild_tier :
  tierFind q (mkTier ByGuild (str_truthy (q_guildId q)) (q_peer q)
      (indexed (ix_byGuild ix) (q_guildId q))
      (λ m, hasGuildConstraint m && negb (hasRolesConstraint m)))
  = List.find (admits q ByGuild (q_peer q)) l.
Proof.
  apply (tier_scan q (mkTier _ _ _ _ _) (λ e, inClass ByGuild e && guildIs (q_guildId q) e)).
  - cbn [t_enabled t_candidates]. unfold indexed. intros Hg. rewrite Hg. by apply index_spec_build.
  - intros e [? _]%andb_true_iff. done.
  - cbn [t_scopePeer t_enabled t_predicate]. intros e [Hcls Hm]%admits_inv.
    pose proof (classOf_guild (e_match e) (or_intror Hcls)) as Ht.
    destruct (matches_guild _ _ _ Hm Ht) as [Hg ->]. unfold inClass, guildIs, hasGuildConstraint.
    rewrite Ht, !bool_decide_eq_true_2 by done. split; [done|]. split; [done|]. simpl.
    revert Hcls. unfold classOf. case_matches; intros; simplify_eq; done.
Qed.

Lemma team_tier :
  tierFind q (mkTier ByTeam (str_truthy (q_teamId q)) (q_peer q)
      (indexed (ix_byTeam ix) (q_teamId q)) hasTeamConstraint)
  = List.find (admits q ByTeam (q_peer q)) l.
Proof.
  apply (tier_scan q (mkTier _ _ _ _ _) (λ e, inClass ByTeam e && teamIs (q_teamId q) e)).
  - cbn [t_enabled t_candidates]. unfold indexed. intros Hg. rewrite Hg. by apply index_spec_build.
  - intros e [? _]%andb_true_iff. done.
  - cbn [t_scopePeer t_enabled t_predicate]. intros e [Hcls Hm]%admits_inv.
    pose proof (classOf_team (e_match e) Hcls) as Ht.
    destruct (matches_team _ _ _ Hm Ht) as [Hg ->]. unfold inClass, teamIs, hasTeamConstraint.
    by rewrite Ht, !bool_decide_eq_true_2.
Qed.

Lemma account_tier :
  tierFind q (mkTier ByAccount true (q_peer q) (ix_byAccount ix)
                (λ m, negb (String.eqb (accountPattern m) "*")))
  = List.find (admits q ByAccount (q_peer q)) l.
Proof.
  apply (tier_scan q (mkTier _ _ _ _ _) (inClass ByAccount)); [intros _; apply index_spec_build|done|].
  cbn [t_scopePeer t_enabled t_predicate]. intros e [Hcls _]%admits_inv. unfold inClass.
  rewrite bool_decide_eq_true_2 by done. revert Hcls. unfold classOf.
  destruct (m_peer (e_match e)); try done; case_matches; done.
Qed.

Lemma channel_tier :
  tierFind q (mkTier ByChannel true (q_peer q) (ix_byChannel ix)
                (λ m, String.eqb (accountPattern m) "*"))
  = List.find (admits q ByChannel (q_peer q)) l.
Proof.
  apply (tier_scan q (mkTier _ _ _ _ _) (inClass ByChannel)); [intros _; apply index_spec_build|done|].
  cbn [t_scopePeer t_enabled t_predicate]. intros e [Hcls _]%admits_inv. unfold inClass.
  rewrite bool_decide_eq_true_2 by done. revert Hcls. unfold classOf.
  destruct (m_peer (e_match e)); try done; case_matches; done.
Qed.

Lemma firstMatch_scan :
  NoDup (e_order <$> l) → firstMatch q (tiers ix q) = scan q l (tierScopes q).
Proof.
  intros Hnd. unfold tiers, tierScopes. rewrite !firstMatch_tiers.
  rewrite (peer_tier ByPeer _ (q_peer q)), (peer_tier ByPeerParent _ (nonemptyPeer (q_parentPeer q))),
    wildcard_tier, roles_tier, guild_tier, team_tier, account_tier, channel_tier; try done.
  - intros x Hx. f_equal. destruct (q_parentPeer q) as [y|]; [|done]. simpl in Hx.
    destruct (str_truthy (rp_id y)); [done|discriminate].
  - by intros x ->.
Qed.
End tier.

(** ** The per-channel table, and the merge *)

Lemma evaluateAll_snoc n bs b :
  evaluateAll n (bs ++ [b]) = evaluateAll n bs ++
    match normalizeToken (b_match b ≫= bm_channel) with
    | EmptyString => []
    | channel => [(channel, mkEvaluated b (normalizeBindingMatch (b_match b))
                              (n + length (evaluateAll n bs)))]
    end.
Proof.
  revert n. induction bs as [|b' bs IH]; intros n; simpl.
  - rewrite Nat.add_0_r. by case_match.
  - destruct (normalizeToken (b_match b' ≫= bm_channel)); rewrite IH; [done|].
    simpl. by rewrite Nat.add_succ_r.
Qed.

Lemma evaluateAll_orders n bs :
  (e_order <$> (evaluateAll n bs).*2) = seq n (length (evaluateAll n bs)).
Proof.
  revert n. induction bs as [|b bs IH]; intros n; simpl; [done|].
  destruct (normalizeToken (b_match b ≫= bm_channel)); [apply IH|]. simpl. by rewrite IH.
Qed.

Definition in_order (l : list EvaluatedBinding) : Prop := StronglySorted Nat.lt (e_order <$> l).

Lemma in_order_cons e l :
  in_order (e :: l) ↔ Forall (λ x, (e_order e < e_order x)%nat) l ∧ in_order l.
Proof.
  unfold in_order. simpl. split.
  - intros [Hl Ha]%StronglySorted_inv. split; [|done]. revert Ha. apply Forall_fmap.
  - intros [H1 H2]. constructor; [done|]. revert H1. apply Forall_fmap.
Qed.

Lemma seq_sorted n k : StronglySorted Nat.lt (seq n k).
Proof.
  revert n. induction k as [|k IH]; intros n; simpl; constructor; [auto|].
  apply Forall_forall. intros x [? _]%elem_of_seq. lia.
Qed.

Lemma in_order_filter f l : in_order l → in_order (List.filter f l).
Proof.
  induction l as [|e l IH]; simpl; [done|]. intros [Hall Hl]%in_order_cons.
  destruct (f e); [|auto]. apply in_order_cons. split; [|auto].
  apply Forall_forall. intros x [Hx _]%list_elem_of_In%filter_In.
  rewrite Forall_forall in Hall. by apply Hall, list_elem_of_In.
Qed.

Lemma in_order_NoDup l : in_order l → NoDup (e_order <$> l).
Proof.
  unfold in_order. generalize (e_order <$> l). clear l. intros l.
  induction 1 as [|x l Hl IH Hall]; constructor; [|done].
  intros Hin. rewrite Forall_forall in Hall. specialize (Hall x Hin). lia.
Qed.

Lemma in_order_ofChannel channel n bs : in_order (ofChannel channel (evaluateAll n bs)).
Proof.
  assert (∀ (f : string * EvaluatedBinding → bool) (l : list (string * EvaluatedBinding)),
    in_order l.*2 → in_order (List.filter f l).*2) as Hf.
  { intros f l. induction l as [|e l IH]; simpl; [done|]. intros [Hall Hl]%in_order_cons.
    destruct (f e); [|auto]. apply in_order_cons. split; [|auto].
    apply Forall_forall. intros x (y & -> & [Hy _]%list_elem_of_In%filter_In)%list_elem_of_fmap.
    rewrite Forall_forall in Hall. by apply Hall, list_elem_of_fmap_2, list_elem_of_In. }
  apply Hf. unfold in_order. rewrite evaluateAll_orders. apply seq_sorted.
Qed.

Lemma mergeLoop_nil_r l : mergeLoop l [] = l.
Proof. by destruct l. Qed.

Lemma mergeLoop_cons a xs y ys :
  mergeLoop (a :: xs) (y :: ys) =
    if (e_order a <=? e_order y)%nat then a :: mergeLoop xs (y :: ys)
    else y :: mergeLoop (a :: xs) ys.
Proof. done. Qed.

Lemma mergeLoop_min_l a xs ys :
  Forall (λ y, (e_order a < e_order y)%nat) ys → mergeLoop (a :: xs) ys = a :: mergeLoop xs ys.
Proof.
  intros H. destruct H as [|y ys Hy _]; [by rewrite !mergeLoop_nil_r|].
  rewrite mergeLoop_cons. by destruct (Nat.leb_spec (e_order a) (e_order y)); [|lia].
Qed.

Lemma mergeLoop_min_r xs y ys :
  Forall (λ x, (e_order y < e_order x)%nat) xs → mergeLoop xs (y :: ys) = y :: mergeLoop xs ys.
Proof.
  intros H. destruct H as [|x xs Hx _]; [by destruct ys|].
  rewrite mergeLoop_cons. by destruct (Nat.leb_spec (e_order x) (e_order y)); [lia|].
Qed.

Lemma Forall_filter_bool {A} (P : A → Prop) f l : Forall P l → Forall P (List.filter f l).
Proof. induction 1; simpl; [done|]. destruct (f x); auto. Qed.

Lemma merge_filters f g l :
  in_order l → (∀ e, f e = true → g e = false) →
  mergeLoop (List.filter f l) (List.filter g l) = List.filter (λ e, f e || g e) l.
Proof.
  intros Hl Hfg. induction l as [|e l IH]; [done|]. apply in_order_cons in Hl as [Hall Hl].
  cbn [List.filter]. destruct (f e) eqn:Ef; cbn [orb].
  - rewrite (Hfg e Ef), mergeLoop_min_l by by apply Forall_filter_bool. by rewrite IH.
  - destruct (g e) eqn:Eg; [|auto].
    rewrite mergeLoop_min_r by by apply Forall_filter_bool. by rewrite IH.
Qed.

Lemma merge_eq xs ys : mergeEvaluatedBindingsInSourceOrder xs ys = mergeLoop xs ys.
Proof. destruct xs as [|x xs]; [by destruct ys|]. by destruct ys. Qed.

(** What the table holds for the bindings read so far. *)
Definition table_spec (L : list (string * EvaluatedBinding))
    (m : omap string EvaluatedBindingsByChannel) : Prop :=
  ∀ c, let b := oget m c ?? mkByChannel [] [] in
    bc_byAnyAccount b = List.filter anyAccount (ofChannel c L) ∧
    ∀ a, oget (bc_byAccount b) a ?? [] = List.filter (forAccount a) (ofChannel c L).

Lemma ofChannel_snoc c L c' e :
  ofChannel c (L ++ [(c', e)]) = ofChannel c L ++ if String.eqb c' c then [e] else [].
Proof.
  unfold ofChannel. rewrite filter_snoc. simpl. destruct (String.eqb c' c).
  - by rewrite fmap_app.
  - by rewrite !app_nil_r.
Qed.

Lemma table_spec_add L m c e :
  table_spec L m →
  table_spec (L ++ [(c, e)]) (oset m c (addToBucket (oget m c ?? mkByChannel [] []) e)).
Proof.
  intros H c'. rewrite oget_oset, ofChannel_snoc. destruct (decide (c = c')) as [->|Hne].
  - rewrite String.eqb_refl. destruct (H c') as [Hany Hacc].
    change (Some ?x ?? ?y) with x. cbv zeta.
    unfold addToBucket. destruct (String.eqb _ "*") eqn:Ep; cbn [bc_byAnyAccount bc_byAccount].
    + split.
      * rewrite filter_snoc_true, Hany; [done|exact Ep].
      * intros a. rewrite filter_snoc_false, Hacc; [done|].
        unfold forAccount, anyAccount. by rewrite Ep.
    + split.
      * rewrite filter_snoc_false, Hany; [done|exact Ep].
      * intros a. rewrite oget_push_to, filter_snoc, Hacc.
        assert (forAccount a e =
          String.eqb (resolveAccountPatternKey (accountPattern (e_match e))) a) as ->
          by (unfold forAccount, anyAccount; by rewrite Ep).
        case_decide as Hd; [by rewrite (proj2 (String.eqb_eq _ _) Hd)|].
        by rewrite (proj2 (String.eqb_neq _ _) Hd), app_nil_r.
  - rewrite (proj2 (String.eqb_neq _ _) Hne), app_nil_r. apply H.
Qed.

Lemma table_spec_build bs :
  table_spec (evaluateAll 0 bs) (foldl addBinding ([], 0%nat) bs).1 ∧
  (foldl addBinding ([], 0%nat) bs).2 = length (evaluateAll 0 bs).
Proof.
  induction bs as [|b bs [IH1 IH2]] using rev_ind; [done|].
  rewrite foldl_app, evaluateAll_snoc. simpl. unfold addBinding at 1 3.
  destruct (foldl addBinding ([], 0%nat) bs) as [m n]. simpl in *. subst n.
  destruct (normalizeToken _) as [|ch u]; [by rewrite app_nil_r|]. split.
  - by apply table_spec_add.
  - rewrite length_app. simpl. lia.
Qed.

Lemma evaluatedBindings_applicable cfg channel account :
  evaluatedBindings (buildEvaluatedBindingsByChannel cfg) channel account
  = applicable cfg channel account.
Proof.
  unfold evaluatedBindings, buildEvaluatedBindingsByChannel, applicable.
  destruct (table_spec_build (listBindings cfg)) as [H _]. destruct (H channel) as [Hany Hacc].
  set (L := ofChannel channel (evaluateAll 0 (listBindings cfg))) in *.
  rewrite <- merge_filters;
    [|apply in_order_ofChannel|unfold forAccount; by intros e [?%negb_true_iff _]%andb_true_iff].
  rewrite merge_eq, <- Hany, <- Hacc. by destruct (oget _ channel).
Qed.

Lemma applicable_orders cfg channel account :
  NoDup (e_order <$> applicable cfg channel account).
Proof. apply in_order_NoDup, in_order_filter, in_order_ofChannel. Qed.

Lemma routeOf_best cfg q :
  routeOf cfg q =
    match bestMatch cfg q with
    | Some (matchedBy, c) =>
        choose cfg (buildAgentLookup cfg) q (b_agentId (e_binding c)) matchedBy
    | None => choose cfg (buildAgentLookup cfg) q (Some (resolveDefaultAgentId cfg)) ByDefault
    end.
Proof.
  unfold routeOf, chooseRoute, bestMatch. rewrite evaluatedBindings_applicable.
  by rewrite firstMatch_scan by apply applicable_orders.
Qed.

(** ** The route depends on the roles as a set *)

Definition same_but_roles (q q' : RouteQuery) : Prop :=
  q_channel q = q_channel q' ∧ q_accountId q = q_accountId q' ∧ q_peer q = q_peer q' ∧
  q_parentPeer q = q_parentPeer q' ∧ q_guildId q = q_guildId q' ∧ q_teamId q = q_teamId q'.

Lemma matches_roles_perm m q q' p :
  same_but_roles q q' → q_memberRoleIds q ≡ₚ q_memberRoleIds q' →
  matchesBindingScope m (scopeFor q p) = matchesBindingScope m (scopeFor q' p).
Proof.
  intros (_ & _ & _ & _ & Hg & Ht) Hr.
  assert (∀ roles, existsb (λ role, bool_decide (role ∈ q_memberRoleIds q)) roles =
                   existsb (λ role, bool_decide (role ∈ q_memberRoleIds q')) roles) as He.
  { intros roles. induction roles as [|r roles IH]; simpl; [done|]. rewrite IH. f_equal.
    apply bool_decide_ext. by rewrite Hr. }
  unfold matchesBindingScope, scopeFor. cbn [sc_peer sc_guildId sc_teamId sc_memberRoleIds].
  rewrite Hg, Ht. destruct (m_roles m); by rewrite ?He.
Qed.

Lemma scan_roles_perm q q' l ts :
  same_but_roles q q' → q_memberRoleIds q ≡ₚ q_memberRoleIds q' → scan q l ts = scan q' l ts.
Proof.
  intros Hs Hr. induction ts as [|[[name cls] p] ts IH]; simpl; [done|]. rewrite IH.
  rewrite (find_ext (admits q cls p) (admits q' cls p)); [done|].
  intros e _. unfold admits. by rewrite (matches_roles_perm _ q q').
Qed.

Lemma routeOf_roles_perm cfg q q' :
  same_but_roles q q' → q_memberRoleIds q ≡ₚ q_memberRoleIds q' → routeOf cfg q = routeOf cfg q'.
Proof.
  intros Hs Hr. rewrite !routeOf_best. unfold bestMatch.
  rewrite (scan_roles_perm q q') by done.
  destruct Hs as (Hc & Ha & Hp & Hpp & _). unfold tierScopes, choose. by rewrite Hc, Ha, Hp, Hpp.
Qed.

(** ** The cache key *)

Definition not_tab (c : Ascii.ascii) : bool := negb (Ascii.eqb c (Ascii.ascii_of_nat 9)).
Definition not_comma (c : Ascii.ascii) : bool := negb (Ascii.eqb c ","%char).

Definition wf_peer (p : option RoutePeer) : Prop :=
  match p with
  | None => True
  | Some x => str_truthy (rp_id x) = true ∧ str_all not_tab (rp_id x) = true
  end.

Definition wf_id (s : string) : Prop := str_all not_tab s = true ∧ s ≠ "-"%string.

(** The queries for which the key tells everything apart: peers have an id, and
    no part contains the separators or is the placeholder of an absent part. *)
Record wf_query (q : RouteQuery) : Prop := {
  wq_channel : str_all not_tab (q_channel q) = true;
  wq_account : str_all not_tab (q_accountId q) = true;
  wq_peer : wf_peer (q_peer q);
  wq_parent : wf_peer (q_parentPeer q);
  wq_guild : wf_id (q_guildId q);
  wq_team : wf_id (q_teamId q);
  wq_roles : Forall (λ r, wf_id r ∧ str_all not_comma r = true) (q_memberRoleIds q);
}.

Lemma formatPeer_tab p : wf_peer p → str_all not_tab (formatRouteCachePeer p) = true.
Proof.
  destruct p as [[k i]|]; [|done]. intros [H1 H2]. unfold formatRouteCachePeer. simpl in *.
  rewrite H1. rewrite str_all_append. destruct k; simpl; by rewrite H2.
Qed.

Lemma formatPeer_inj p p' :
  wf_peer p → wf_peer p' → formatRouteCachePeer p = formatRouteCachePeer p' → p = p'.
Proof.
  intros H H'. unfold formatRouteCachePeer.
  destruct p as [[k i]|], p' as [[k' i']|]; simpl in *.
  - destruct H as [-> _], H' as [-> _]. intros Heq.
    apply (colon_free_inj (ChatType_str k) (ChatType_str k')) in Heq as [Hk ->];
      [|by destruct k|by destruct k'].
    by rewrite (ChatType_str_inj _ _ Hk).
  - destruct H as [-> _]. by destruct k.
  - destruct H' as [-> _]. by destruct k'.
  - done.
Qed.

Lemma str_or_dash_inj a b : wf_id a → wf_id b → str_or a "-" = str_or b "-" → a = b.
Proof. intros [_ Ha] [_ Hb]. destruct a, b; simpl; congruence. Qed.

Lemma str_or_dash_tab a : wf_id a → str_all not_tab (str_or a "-") = true.
Proof. intros [Ha _]. by destruct a. Qed.

(** The roles part is the list of the roles in some order. *)
Lemma formatRoles_join l :
  l ≠ [] → ∃ l', formatRoleIdsCacheKey l = join_with "," l' ∧ l' ≡ₚ l.
Proof.
  intros Hne. unfold formatRoleIdsCacheKey. destruct l as [|a [|b [|c l]]]; [done| | |].
  - by exists [a].
  - case_decide; [by exists [a; b]|]. exists [b; a]. split; [done|]. apply perm_swap.
  - eexists. split; [done|]. apply merge_sort_Permutation.
Qed.

Lemma roles_parts l l' :
  Forall (λ r, wf_id r ∧ str_all not_comma r = true) l → l' ≡ₚ l → l' ≠ [] →
  split_on ","%char (join_with "," l') = l'.
Proof.
  intros Hl Hp Hne. apply (split_join ","%char); [|done]. rewrite Hp.
  apply (Forall_impl _ _ _ Hl). by intros r [_ Hr].
Qed.

Lemma formatRoles_inj l1 l2 :
  Forall (λ r, wf_id r ∧ str_all not_comma r = true) l1 →
  Forall (λ r, wf_id r ∧ str_all not_comma r = true) l2 →
  formatRoleIdsCacheKey l1 = formatRoleIdsCacheKey l2 → l1 ≡ₚ l2.
Proof.
  intros H1 H2.
  assert (∀ l, Forall (λ r, wf_id r ∧ str_all not_comma r = true) l → l ≠ [] →
               formatRoleIdsCacheKey l = "-"%string → False) as Hdash.
  { intros l Hl Hne Hd. destruct (formatRoles_join l Hne) as (l' & Hj & Hp).
    assert (l' ≠ []) as Hne' by (intros ->; by apply Permutation_nil_l in Hp).
    pose proof (roles_parts l l' Hl Hp Hne') as Hs. rewrite <- Hj, Hd in Hs. simpl in Hs.
    subst l'. rewrite <- Hp in Hl. apply Forall_cons in Hl as [[[_ Hx] _] _]. done. }
  intros Heq. destruct (decide (l1 = [])) as [->|Hn1], (decide (l2 = [])) as [->|Hn2].
  - done.
  - exfalso. by eapply Hdash.
  - exfalso. by eapply (Hdash l1).
  - destruct (formatRoles_join l1 Hn1) as (l1' & Hj1 & Hp1), (formatRoles_join l2 Hn2) as (l2' & Hj2 & Hp2).
    assert (l1' ≠ []) as Hm1 by (intros ->; by apply Permutation_nil_l in Hp1).
    assert (l2' ≠ []) as Hm2 by (intros ->; by apply Permutation_nil_l in Hp2).
    rewrite <- Hp1, <- Hp2, <- (roles_parts l1 l1'), <- (roles_parts l2 l2') by done.
    by rewrite <- Hj1, <- Hj2, Heq.
Qed.

Lemma join_all f sep l :
  Forall (λ r, str_all f r = true) l → str_all f sep = true → str_all f (join_with sep l) = true.
Proof.
  intros Hl Hs. induction Hl as [|r l Hr Hl IH]; [done|].
  destruct l as [|r' l]; [done|]. by rewrite join_with_cons, !str_all_append, Hr, Hs, IH.
Qed.

Lemma formatRoles_tab l :
  Forall (λ r, wf_id r ∧ str_all not_comma r = true) l →
  str_all not_tab (formatRoleIdsCacheKey l) = true.
Proof.
  intros Hl. destruct (decide (l = [])) as [->|Hne]; [done|].
  destruct (formatRoles_join l Hne) as (l' & -> & Hp). apply join_all; [|done].
  rewrite Hp. apply (Forall_impl _ _ _ Hl). by intros r [[Hr _] _].
Qed.

Lemma cache_key_faithful q q' d :
  wf_query q → wf_query q' →
  buildResolvedRouteCacheKey q d = buildResolvedRouteCacheKey q' d →
  same_but_roles q q' ∧ q_memberRoleIds q ≡ₚ q_memberRoleIds q'.
Proof.
  intros [Hc Ha Hp Hpp Hg Ht Hr] [Hc' Ha' Hp' Hpp' Hg' Ht' Hr'].
  unfold buildResolvedRouteCacheKey, tab. cbn [String.append].
  intros [H1 H]%sep_free_inj; [|done..]. apply sep_free_inj in H as [H2 H]; [|done..].
  apply sep_free_inj in H as [H3 H]; [|by apply formatPeer_tab..].
  apply sep_free_inj in H as [H4 H]; [|by apply formatPeer_tab..].
  apply sep_free_inj in H as [H5 H]; [|by apply str_or_dash_tab..].
  apply sep_free_inj in H as [H6 H]; [|by apply str_or_dash_tab..].
  apply sep_free_inj in H as [H7 _]; [|by apply formatRoles_tab..].
  split; [|by apply formatRoles_inj].
  repeat split; auto using formatPeer_inj, str_or_dash_inj.
Qed.

Lemma faithful_route cfg q q' :
  wf_query q → wf_query q' →
  buildResolvedRouteCacheKey q (cfg_dmScope cfg ?? ScopeMain) =
    buildResolvedRouteCacheKey q' (cfg_dmScope cfg ?? ScopeMain) →
  routeOf cfg q = routeOf cfg q'.
Proof. intros H H' Hk. apply routeOf_roles_perm; by eapply cache_key_faithful. Qed.

(** ** The caches are transparent *)

(** The arrays of a configuration are not mutated in place: two values of the
    configuration object that hold the same array hold the same contents. *)
Definition cfg_agree (c c' : OpenClawConfig) : Prop :=
  (bindingsRef c = bindingsRef c' → cfg_bindings c = cfg_bindings c') ∧
  (agentsRef c = agentsRef c' → cfg_agents c = cfg_agents c') ∧
  (sessionRef c = sessionRef c' →
   cfg_dmScope c = cfg_dmScope c' ∧ cfg_identityLinks c = cfg_identityLinks c').

Lemma routeOf_agree c c' q :
  cfg_agree c c' → bindingsRef c = bindingsRef c' → agentsRef c = agentsRef c' →
  sessionRef c = sessionRef c' → routeOf c q = routeOf c' q.
Proof.
  intros (Hb & Ha & Hs) H1 H2 H3. specialize (Hb H1). specialize (Ha H2). specialize (Hs H3).
  destruct c, c', Hs as [Hd Hl]. simpl in *. by subst.
Qed.

Lemma buildTable_agree c c' :
  cfg_agree c c' → bindingsRef c = bindingsRef c' →
  buildEvaluatedBindingsByChannel c = buildEvaluatedBindingsByChannel c'.
Proof.
  intros (Hb & _) H1. unfold buildEvaluatedBindingsByChannel, listBindings. by rewrite Hb.
Qed.

Lemma buildAgentLookup_agree c c' :
  cfg_agree c c' → agentsRef c = agentsRef c' → buildAgentLookup c = buildAgentLookup c'.
Proof.
  intros (_ & Ha & _) H1. unfold buildAgentLookup, resolveDefaultAgentId, listAgentEntries.
  by rewrite Ha.
Qed.

Section caches.
Context (D : OpenClawConfig → Prop) (HD : ∀ c c', D c → D c' → cfg_agree c c').

(** What a cached list and a cached index are for a channel without tabs. *)
Record eval_ok (c : OpenClawConfig) (ec : EvaluatedBindingsCache) : Prop := {
  eo_ref : ec_bindingsRef ec = bindingsRef c;
  eo_table : ec_byChannel ec = buildEvaluatedBindingsByChannel c;
  eo_list ch a l : str_all not_tab ch = true →
    oget (ec_byChannelAccount ec) (ch +:+ tab +:+ a) = Some l →
    l = evaluatedBindings (buildEvaluatedBindingsByChannel c) ch a;
  eo_index ch a ix : str_all not_tab ch = true →
    oget (ec_byChannelAccountIndex ec) (ch +:+ tab +:+ a) = Some ix →
    ix = buildEvaluatedBindingsIndex
           (evaluatedBindings (buildEvaluatedBindingsByChannel c) ch a);
}.

Record route_ok (c : OpenClawConfig) (rc : RouteCache) : Prop := {
  ro_bindings : rc_bindingsRef rc = bindingsRef c;
  ro_agents : rc_agentsRef rc = agentsRef c;
  ro_session : rc_sessionRef rc = sessionRef c;
  ro_key q r : wf_query q →
    oget (rc_byKey rc) (buildResolvedRouteCacheKey q (cfg_dmScope c ?? ScopeMain)) = Some r →
    r = routeOf c q;
}.

Record caches_ok (s : CfgCaches) : Prop := {
  co_lookup ref l : c_agentLookup s = Some (ref, l) →
    ∃ c, D c ∧ agentsRef c = ref ∧ l = buildAgentLookup c;
  co_eval ec : c_evaluated s = Some ec → ∃ c, D c ∧ eval_ok c ec;
  co_route rc : c_resolved s = Some rc → ∃ c, D c ∧ route_ok c rc;
}.

Lemma caches_ok_empty : caches_ok emptyCaches.
Proof. by split. Qed.

Lemma resolveAgentLookupCache_ok s cfg :
  D cfg → caches_ok s →
  (resolveAgentLookupCache s cfg).1 = buildAgentLookup cfg ∧
  caches_ok (resolveAgentLookupCache s cfg).2.
Proof.
  intros Hd Hok. pose proof Hok as [Hl He Hr]. unfold resolveAgentLookupCache.
  assert (caches_ok (mkCaches (Some (agentsRef cfg, buildAgentLookup cfg)) (c_evaluated s)
            (c_resolved s))) as Hnew.
  { split; [|done..]. intros ref l [= <- <-]. by exists cfg. }
  destruct (c_agentLookup s) as [[ref l]|] eqn:E; [|done].
  destruct (Nat.eqb_spec ref (agentsRef cfg)) as [->|]; [|done]. split; [|done]. simpl.
  destruct (Hl _ _ eq_refl) as (c & Hc & Href & ->). apply buildAgentLookup_agree; auto.
Qed.

Lemma eval_ok_agree c c' ec :
  D c → D c' → bindingsRef c = bindingsRef c' → eval_ok c ec → eval_ok c' ec.
Proof.
  intros Hc Hc' Href [H1 H2 H3 H4].
  pose proof (buildTable_agree c c' (HD _ _ Hc Hc') Href) as Ht.
  split; rewrite <- ?Ht; auto. congruence.
Qed.

Lemma currentEvalCache_ok s cfg :
  D cfg → caches_ok s → eval_ok cfg (currentEvalCache s cfg).
Proof.
  intros Hd [_ He _]. unfold currentEvalCache.
  assert (eval_ok cfg (mkEvalCache (bindingsRef cfg) (buildEvaluatedBindingsByChannel cfg) [] []))
    as Hfresh by by split.
  destruct (c_evaluated s) as [ec|]; [|done].
  destruct (Nat.eqb_spec (ec_bindingsRef ec) (bindingsRef cfg)) as [Href|]; [|done].
  destruct (He ec eq_refl) as (c & Hc & Hok). apply (eval_ok_agree c); try done.
  rewrite <- Href. symmetry. apply Hok.
Qed.

Lemma account_key_inj ch a ch' a' :
  str_all not_tab ch = true → str_all not_tab ch' = true →
  ch +:+ tab +:+ a = ch' +:+ tab +:+ a' → ch = ch' ∧ a = a'.
Proof. unfold tab. cbn [String.append]. apply sep_free_inj. Qed.

(** Storing what is computed for one key keeps a keyed cache right. *)
Lemma keyed_store {A} (m : omap string A) (f : string → string → A) ch a :
  str_all not_tab ch = true →
  (∀ ch' a' v, str_all not_tab ch' = true → oget m (ch' +:+ tab +:+ a') = Some v → v = f ch' a') →
  ∀ ch' a' v, str_all not_tab ch' = true →
    oget (oset m (ch +:+ tab +:+ a) (f ch a)) (ch' +:+ tab +:+ a') = Some v → v = f ch' a'.
Proof.
  intros Hch Hm ch' a' v Hch'. rewrite oget_oset. case_decide as Hd; [|by apply Hm].
  apply account_key_inj in Hd as [<- <-]; [|done..]. congruence.
Qed.

Lemma eval_ok_store cfg ec byCA byIx ch a :
  eval_ok cfg ec → str_all not_tab ch = true →
  let l := evaluatedBindings (ec_byChannel ec) ch a in
  byCA = ec_byChannelAccount ec ∧ byIx = ec_byChannelAccountIndex ec ∨ byCA = [] ∧ byIx = [] →
  eval_ok cfg (mkEvalCache (ec_bindingsRef ec) (ec_byChannel ec)
                 (oset byCA (ch +:+ tab +:+ a) l)
                 (oset byIx (ch +:+ tab +:+ a) (buildEvaluatedBindingsIndex l))).
Proof.
  intros [H1 H2 H3 H4] Hch l Hm. subst l. rewrite H2.
  split; [done|done| |]; cbn [ec_byChannelAccount ec_byChannelAccountIndex].
  - apply (keyed_store byCA (evaluatedBindings (buildEvaluatedBindingsByChannel cfg))); [done|].
    destruct Hm as [[-> _]|[-> _]]; [exact H3|done].
  - apply (keyed_store byIx (λ ch a, buildEvaluatedBindingsIndex
       (evaluatedBindings (buildEvaluatedBindingsByChannel cfg) ch a))); [done|].
    destruct Hm as [[_ ->]|[_ ->]]; [exact H4|done].
Qed.

Lemma caches_ok_eval s cfg ec :
  D cfg → caches_ok s → eval_ok cfg ec →
  caches_ok (mkCaches (c_agentLookup s) (Some ec) (c_resolved s)).
Proof.
  intros Hd [Hl He Hr] Hok. split; [done| |done]. intros ec' [= <-]. by exists cfg.
Qed.

Lemma getEvaluated_ok s cfg ch a :
  D cfg → caches_ok s → str_all not_tab ch = true →
  let r := getEvaluatedBindingsForChannelAccount s cfg ch a in
  r.1 = evaluatedBindings (buildEvaluatedBindingsByChannel cfg) ch a ∧ caches_ok r.2.
Proof.
  intros Hd Hok Hch r. subst r. unfold getEvaluatedBindingsForChannelAccount.
  pose proof (currentEvalCache_ok s cfg Hd Hok) as Hec.
  set (ec := currentEvalCache s cfg) in *. pose proof Hec as [H1 H2 H3 H4].
  destruct (oget (ec_byChannelAccount ec) (ch +:+ tab +:+ a)) as [hit|] eqn:E.
  - split; [by apply H3|by apply (caches_ok_eval _ cfg)].
  - case_match; (split; [by rewrite <- H2|]); apply (caches_ok_eval _ cfg); try done.
    + apply eval_ok_store; auto.
    + apply (eval_ok_store cfg ec [] []); auto.
Qed.

Lemma getIndex_ok s cfg ch a :
  D cfg → caches_ok s → str_all not_tab ch = true →
  let r := getEvaluatedBindingIndexForChannelAccount s cfg ch a in
  r.1 = buildEvaluatedBindingsIndex
          (evaluatedBindings (buildEvaluatedBindingsByChannel cfg) ch a) ∧ caches_ok r.2.
Proof.
  intros Hd Hok Hch r. subst r. unfold getEvaluatedBindingIndexForChannelAccount.
  destruct (getEvaluated_ok s cfg ch a Hd Hok Hch) as [Hl Hok1].
  assert (∀ ec, c_evaluated (getEvaluatedBindingsForChannelAccount s cfg ch a).2 = Some ec →
                eval_ok cfg ec) as Hcur.
  { unfold getEvaluatedBindingsForChannelAccount.
    pose proof (currentEvalCache_ok s cfg Hd Hok) as Hec.
    set (ec0 := currentEvalCache s cfg) in *. case_match; [by intros ec [= <-]|].
    case_match; intros ec [= <-]; [apply eval_ok_store; auto|].
    apply (eval_ok_store cfg ec0 [] []); auto. }
  destruct (getEvaluatedBindingsForChannelAccount s cfg ch a) as [bindings s1].
  cbn [fst snd] in *. subst bindings. destruct (c_evaluated s1) as [ec|] eqn:E; [|done].
  pose proof (Hcur ec eq_refl) as [H1 H2 H3 H4].
  destruct (oget (ec_byChannelAccountIndex ec) (ch +:+ tab +:+ a)) as [ix|] eqn:Ei.
  - split; [exact (H4 ch a ix Hch Ei)|done].
  - split; [done|]. cbn [snd]. apply (caches_ok_eval _ cfg); try done.
    split; cbn [ec_bindingsRef ec_byChannel ec_byChannelAccount ec_byChannelAccountIndex]; try done.
    by apply (keyed_store _ (λ ch a, buildEvaluatedBindingsIndex
       (evaluatedBindings (buildEvaluatedBindingsByChannel cfg) ch a))).
Qed.

Lemma computeRoute_ok s cfg q :
  D cfg → caches_ok s → str_all not_tab (q_channel q) = true →
  (computeRoute s cfg q).1 = routeOf cfg q ∧ caches_ok (computeRoute s cfg q).2.
Proof.
  intros Hd Hok Hch. unfold computeRoute.
  destruct (getEvaluated_ok s cfg (q_channel q) (q_accountId q) Hd Hok Hch) as [_ Hok1].
  destruct (getEvaluatedBindingsForChannelAccount s cfg _ _) as [l s1]. simpl in Hok1.
  destruct (getIndex_ok s1 cfg (q_channel q) (q_accountId q) Hd Hok1 Hch) as [Hix Hok2].
  destruct (getEvaluatedBindingIndexForChannelAccount s1 cfg _ _) as [ix s2]. simpl in Hix, Hok2.
  destruct (resolveAgentLookupCache_ok s2 cfg Hd Hok2) as [Hlk Hok3].
  destruct (resolveAgentLookupCache s2 cfg) as [lk s3]. simpl in *.
  by rewrite Hix, Hlk.
Qed.

Lemma resolveRouteCache_ok s cfg :
  D cfg → caches_ok s → route_ok cfg (resolveRouteCacheForConfig s cfg).
Proof.
  intros Hd [_ _ Hr]. unfold resolveRouteCacheForConfig.
  assert (route_ok cfg (mkRouteCache (bindingsRef cfg) (agentsRef cfg) (sessionRef cfg) []))
    as Hfresh by by split.
  destruct (c_resolved s) as [rc|]; [|done]. case_match eqn:E; [|done].
  apply andb_true_iff in E as [[E1 E2]%andb_true_iff E3].
  apply Nat.eqb_eq in E1, E2, E3.
  destruct (Hr rc eq_refl) as (c & Hc & [H1 H2 H3 H4]).
  assert (cfg_agree c cfg) as Hag by auto. split; try done. intros q r Hq Hk.
  rewrite <- (routeOf_agree c) by congruence. apply H4; [done|].
  destruct Hag as (_ & _ & Hs). by destruct Hs as [-> _]; [congruence|].
Qed.

Lemma storeRoute_ok cfg rc q :
  route_ok cfg rc → wf_query q →
  route_ok cfg (storeRoute rc (buildResolvedRouteCacheKey q (cfg_dmScope cfg ?? ScopeMain))
                  (routeOf cfg q)).
Proof.
  intros [H1 H2 H3 H4] Hq. unfold storeRoute.
  assert (∀ byKey, (∀ q' r, wf_query q' → oget byKey (buildResolvedRouteCacheKey q'
              (cfg_dmScope cfg ?? ScopeMain)) = Some r → r = routeOf cfg q') →
    ∀ q' r, wf_query q' →
      oget (oset byKey (buildResolvedRouteCacheKey q (cfg_dmScope cfg ?? ScopeMain))
              (routeOf cfg q)) (buildResolvedRouteCacheKey q' (cfg_dmScope cfg ?? ScopeMain))
      = Some r → r = routeOf cfg q') as Hstore.
  { intros byKey Hb q' r Hq'. rewrite oget_oset. case_decide as Hd; [|by apply Hb].
    intros [= <-]. by apply faithful_route. }
  split; [done..|]. cbn [rc_byKey]. intros q' r Hq'. case_match; [by apply Hstore|].
  by apply (Hstore []).
Qed.

Lemma resolveAgentRoute_ok s cfg verbose input :
  D cfg → caches_ok s → wf_query (queryOf input) →
  (resolveAgentRoute s cfg verbose input).1 = routeOf cfg (queryOf input) ∧
  caches_ok (resolveAgentRoute s cfg verbose input).2.
Proof.
  intros Hd Hok Hq. unfold resolveAgentRoute. case_match; [|apply computeRoute_ok; [done|done|apply Hq]].
  pose proof (resolveRouteCache_ok s cfg Hd Hok) as Hrc.
  set (rc := resolveRouteCacheForConfig s cfg) in *.
  assert (caches_ok (mkCaches (c_agentLookup s) (c_evaluated s) (Some rc))) as Hok0.
  { destruct Hok as [Hl He _]. split; [done|done|]. intros rc' [= <-]. by exists cfg. }
  destruct (oget (rc_byKey rc) _) as [r|] eqn:E; [split; [|done]; by eapply ro_key|].
  destruct (computeRoute_ok (mkCaches (c_agentLookup s) (c_evaluated s) (Some rc)) cfg
              (queryOf input) Hd Hok0 (wq_channel _ Hq)) as [Hr Hok1].
  destruct (computeRoute _ cfg _) as [route s1]. simpl in *. subst route. split; [done|].
  destruct Hok1 as [Hl He _]. split; [done|done|]. intros rc' [= <-].
  exists cfg. split; [done|]. by apply storeRoute_ok.
Qed.

End caches.

(** ** The chosen agent *)

Lemma normalizeAgentId_trim s : normalizeAgentId (Some (trim s)) = normalizeAgentId (Some s).
Proof. unfold normalizeAgentId, trimmed_or_empty. simpl. by rewrite trim_idemp. Qed.

Lemma normalizeAgentId_default o :
  normalizeAgentId (Some (o ?? EmptyString)) = normalizeAgentId o.
Proof. by destruct o. Qed.

(** An agent of the configuration, by its normalised id. *)
Definition knownAgent (cfg : OpenClawConfig) (id : string) : Prop :=
  ∃ a, a ∈ cfg_agents cfg ∧ str_truthy (trim (ae_id a ?? EmptyString)) = true ∧
       id = normalizeAgentId (ae_id a).

Lemma addAgent_eq m agent :
  str_truthy (trim (ae_id agent ?? EmptyString)) = true →
  addAgent m agent = oset m (normalizeAgentId (ae_id agent)) (normalizeAgentId (ae_id agent)).
Proof.
  intros Ht. unfold addAgent. destruct (trim _) as [|c t] eqn:E; [done|]. rewrite <- E.
  unfold sanitizeAgentId. by rewrite normalizeAgentId_trim, normalizeAgentId_default.
Qed.

Lemma lookup_known agents m :
  (∀ k v, oget m k = Some v → v = k) →
  let m' := foldl addAgent m agents in
  (∀ k v, oget m' k = Some v → v = k ∧
     (is_Some (oget m k) ∨ ∃ a, a ∈ agents ∧ str_truthy (trim (ae_id a ?? EmptyString)) = true ∧
                                k = normalizeAgentId (ae_id a))).
Proof.
  revert m. induction agents as [|a agents IH]; intros m Hm; cbn [foldl]; cbv zeta.
  { intros k v Hk. split; [by apply Hm|eauto]. }
  assert (∀ k v, oget (addAgent m a) k = Some v → v = k) as Ha.
  { intros k v. destruct (str_truthy (trim (ae_id a ?? EmptyString))) eqn:Et.
    - rewrite addAgent_eq by done. rewrite oget_oset. case_decide; [congruence|apply Hm].
    - unfold addAgent. destruct (trim _); [apply Hm|done]. }
  intros k v Hk. destruct (IH (addAgent m a) Ha k v Hk) as [-> [Hs|(b & Hb & Ht & ->)]].
  - split; [done|]. destruct (str_truthy (trim (ae_id a ?? EmptyString))) eqn:Et.
    + rewrite addAgent_eq, oget_oset in Hs by done. case_decide; subst; [|by left].
      right. exists a. split; [by left|done].
    + left. unfold addAgent in Hs. by destruct (trim _).
  - split; [done|]. right. exists b. split; [by right|done].
Qed.

(** Every agent of the list has an id of at most 64 characters. *)
Definition agents_named (cfg : OpenClawConfig) : Prop :=
  cfg_agents cfg ≠ [] ∧
  Forall (λ a, str_truthy (trim (ae_id a ?? EmptyString)) = true ∧
               (String.length (trimmed_or_empty (ae_id a)) <= 64)%nat) (cfg_agents cfg).

Lemma known_fixed cfg id :
  agents_named cfg → knownAgent cfg id → normalizeAgentId (Some id) = id.
Proof.
  intros [_ Hall] (a & Ha & _ & ->). rewrite Forall_forall in Hall.
  destruct (Hall a Ha) as [_ Hl]. destruct (normalizeAgentId_cases (ae_id a)) as [Hs Hf].
  apply safe_id_fixed; auto.
Qed.

Lemma default_known cfg : agents_named cfg → knownAgent cfg (resolveDefaultAgentId cfg).
Proof.
  intros [Hne Hall]. unfold resolveDefaultAgentId, listAgentEntries.
  destruct (cfg_agents cfg) as [|a0 agents] eqn:E; [done|]. rewrite <- E in *.
  set (e := hd a0 (List.filter ae_default (cfg_agents cfg))).
  assert (e ∈ cfg_agents cfg) as He.
  { subst e. destruct (List.filter ae_default (cfg_agents cfg)) as [|b l] eqn:Ef; simpl.
    - rewrite E. by left.
    - apply list_elem_of_In. apply (filter_In ae_default). rewrite Ef. by left. }
  rewrite Forall_forall in Hall. destruct (Hall e He) as [Ht _]. exists e.
  split; [done|]. split; [done|].
  destruct (trim (ae_id e ?? EmptyString)) as [|c t] eqn:Et; [done|]. rewrite <- Et. cbn [str_or].
  rewrite Et at 1. cbn [str_or]. rewrite <- Et.
  by rewrite normalizeAgentId_trim, normalizeAgentId_default.
Qed.

Lemma pick_known cfg agent :
  agents_named cfg → knownAgent cfg (pickFrom (buildAgentLookup cfg) agent).
Proof.
  intros Hn. pose proof (default_known cfg Hn) as Hd.
  assert (knownAgent cfg (fallbackDefaultAgentId (buildAgentLookup cfg))) as Hf.
  { simpl. unfold sanitizeAgentId. by rewrite (known_fixed cfg). }
  unfold pickFrom. destruct (trimmed_or_empty agent) as [|c t]; [done|]. case_match eqn:Es.
  - exfalso. apply Nat.eqb_eq in Es. destruct Hn as [Hne Hall].
    simpl in Es. fold addAgent in Es. destruct (cfg_agents cfg) as [|a0 agents]; [done|].
    apply Forall_cons in Hall as [[Ht _] _]. cbn [foldl] in Es.
    assert (∀ l m, m ≠ [] → foldl addAgent m l ≠ []) as Hgrow.
    { intros l. induction l as [|b l IH]; intros m Hm; simpl; [done|]. apply IH.
      unfold addAgent. destruct (trim (ae_id b ?? EmptyString)); [done|apply oset_nonnil]. }
    rewrite addAgent_eq in Es by done. apply (Hgrow agents [(normalizeAgentId (ae_id a0),
      normalizeAgentId (ae_id a0))]); [done|]. by apply nil_length_inv.
  - destruct (oget _ _) as [[|d u]|] eqn:E; try done. simpl in E. fold addAgent in E.
    destruct (lookup_known (cfg_agents cfg) [] ltac:(done) _ _ E) as [-> [[? ?]|H]]; [done|].
    exact H.
Qed.

Lemma parse_normalized key :
  parseAgentSessionKey (Some (normalizeLowercaseStringOrEmpty (Some key)))
  = parseAgentSessionKey (Some key).
Proof.
  unfold parseAgentSessionKey.
  assert (normalizeOptionalLowercaseString (Some (normalizeLowercaseStringOrEmpty (Some key)))
          = normalizeOptionalLowercaseString (Some key)) as ->; [|done].
  rewrite normalizeLowercaseStringOrEmpty_Some.
  unfold normalizeOptionalLowercaseString, normalizeOptionalString, normalizeNullableString.
  rewrite <- lower_trim, trim_idemp. destruct (trim key) as [|c t] eqn:E; [done|].
  change (lower (String c t)) with (String (lower_ascii c) (lower t)). simpl.
  by rewrite lower_ascii_idemp, lower_idemp.
Qed.

(** ** Properties *)

(** What the reference chooses. *)
Definition referenceRoute (cfg : OpenClawConfig) (q : RouteQuery) : ResolvedAgentRoute :=
  match bestMatch cfg q with
  | Some (matchedBy, c) =>
      choose cfg (buildAgentLookup cfg) q (b_agentId (e_binding c)) matchedBy
  | None => choose cfg (buildAgentLookup cfg) q (Some (resolveDefaultAgentId cfg)) ByDefault
  end.

(** C30. Routing is a linear scan: looking up the index tier by tier chooses the
    binding that a scan of the applicable bindings finds, the tiers taken from
    peer to channel and the bindings of a tier in source order, and falls back
    to the default agent exactly when the scan finds none. *)
Theorem route_refines_reference (cfg : OpenClawConfig) (q : RouteQuery) :
  routeOf cfg q = referenceRoute cfg q.
Proof. apply routeOf_best. Qed.

(** The bindings examined for a channel and an account, obtained by merging
    two lists of the per-channel table, are exactly the configured route
    bindings of the channel whose account pattern is a wildcard or names the
    account, once each and in the order of the configuration. *)
Lemma merged_bindings_in_source_order (cfg : OpenClawConfig) (channel account : string) :
  evaluatedBindings (buildEvaluatedBindingsByChannel cfg) channel account
    = applicable cfg channel account ∧
  StronglySorted Nat.lt (e_order <$> applicable cfg channel account).
Proof.
  split; [apply evaluatedBindings_applicable|]. apply in_order_filter, in_order_ofChannel.
Qed.

(** The three caches of a configuration object are transparent: over any
    sequence of calls, each of which may find other arrays in the object and may
    run with verbose logging, every call returns the uncached route, provided the
    arrays are not mutated in place and the queries are well formed (peers have
    an id; no tab, and no comma in a role). *)
Lemma route_caches_transparent
    (calls : list (OpenClawConfig * bool * ResolveAgentRouteInput)) :
  (∀ c c', c ∈ calls → c' ∈ calls → cfg_agree c.1.1 c'.1.1) →
  Forall (λ c, wf_query (queryOf c.2)) calls →
  (callAll (λ s c, resolveAgentRoute s c.1.1 c.1.2 c.2) emptyCaches calls).1
  = map (λ c, routeOf c.1.1 (queryOf c.2)) calls.
Proof.
  intros Hag Hwf. set (D := λ cfg, ∃ c, c ∈ calls ∧ cfg = c.1.1).
  assert (∀ c c', D c → D c' → cfg_agree c c') as HD.
  { intros ? ? (c & Hc & ->) (c' & Hc' & ->). auto. }
  eapply (callAll_pure _ (λ c, routeOf c.1.1 (queryOf c.2))
            (λ c, D c.1.1 ∧ wf_query (queryOf c.2)) (caches_ok D)).
  - intros s [[cfg v] input] [Hd Hq] Hok. by apply resolveAgentRoute_ok.
  - rewrite Forall_forall in Hwf |- *. intros c Hc. split; [by exists c|auto].
  - apply caches_ok_empty.
Qed.

Definition demoConfig : OpenClawConfig :=
  mkConfig 0 [mkBinding None (Some "ops"%string)
                (Some (mkBindingMatch (Some "slack"%string) (Some "*"%string)
                   (Some (mkBindingPeer (Some "channel"%string) (Some "C1"%string))) None None None));
              mkBinding None (Some "main"%string)
                (Some (mkBindingMatch (Some "slack"%string) None None None None None))]
    1 [mkAgent (Some "main"%string) true; mkAgent (Some "ops"%string) false] 2 None None.

Definition demoInput : ResolveAgentRouteInput :=
  mkInput "Slack" None (Some (mkPeer Group "C1")) None None None (Some ["b"%string; "a"%string]).

Lemma route_caches_transparent_witness :
  (callAll (λ s c, resolveAgentRoute s c.1.1 c.1.2 c.2) emptyCaches
     [(demoConfig, false, demoInput); (demoConfig, false, demoInput)]).1
  = [routeOf demoConfig (queryOf demoInput); routeOf demoConfig (queryOf demoInput)].
Proof.
  apply (route_caches_transparent [(demoConfig, false, demoInput); (demoConfig, false, demoInput)]).
  - intros c c' [->|[->|[]%not_elem_of_nil]%elem_of_cons]%elem_of_cons
      [->|[->|[]%not_elem_of_nil]%elem_of_cons]%elem_of_cons; repeat split.
  - repeat constructor; simpl; discriminate.
Defined.

(** The hypothesis on peers is needed: a peer without an id shares the cache key
    of no peer at all, and receives its session. *)
Definition noPeer : ResolveAgentRouteInput := mkInput "slack" None None None None None None.
Definition emptyPeer : ResolveAgentRouteInput :=
  mkInput "slack" None (Some (mkPeer Group "")) None None None None.

Lemma route_cache_collision :
  rt_sessionKey <$> (callAll (λ s i, resolveAgentRoute s demoConfig false i) emptyCaches
     [noPeer; emptyPeer]).1 = ["agent:main:main"; "agent:main:main"]%string ∧
  rt_sessionKey (routeOf demoConfig (queryOf emptyPeer)) = "agent:main:slack:group:unknown"%string.
Proof. split; vm_compute; reflexivity. Qed.

(** A message is never routed to an agent that does not exist: when the
    agents of the configuration have ids of at most 64 characters, the agent of
    every route is one of them, whatever agent the bindings name. *)
Lemma routed_agent_is_configured (cfg : OpenClawConfig) (q : RouteQuery) :
  agents_named cfg → knownAgent cfg (rt_agentId (routeOf cfg q)).
Proof.
  intros Hn. rewrite routeOf_best. destruct (bestMatch cfg q) as [[name c]|]; by apply pick_known.
Qed.

Lemma routed_agent_is_configured_witness :
  knownAgent demoConfig (rt_agentId (routeOf demoConfig (queryOf demoInput))).
Proof.
  apply routed_agent_is_configured. split; [done|]. repeat constructor; vm_compute; lia.
Defined.

(** The session key of a route is a key of the route's agent: it parses, and
    its agent id is the normal form of the agent's. *)
Lemma route_key_belongs_to_agent (cfg : OpenClawConfig) (q : RouteQuery) :
  let route := routeOf cfg q in
  ∃ r, parseAgentSessionKey (Some (rt_sessionKey route)) =
         Some (mkParsed (normalizeAgentId (Some (rt_agentId route))) r).
Proof.
  assert (∀ lk agent by_, let route := choose cfg lk q agent by_ in
    ∃ r, parseAgentSessionKey (Some (rt_sessionKey route)) =
         Some (mkParsed (normalizeAgentId (Some (rt_agentId route))) r)) as H.
  { intros lk agent by_. simpl. rewrite parse_normalized. unfold buildAgentSessionKey.
    edestruct parse_peer_key as (r & Hr & _); [|exists r; exact Hr]. reflexivity. }
  intros route. subst route. rewrite routeOf_best. destruct (bestMatch cfg q) as [[? ?]|]; apply H.
Qed.

End Routing.
