(* ===== verification/JsNumber.v ===== *)
(** * [Number(s)]: the numeric value of a string

    Configuration fields that should be numbers may arrive as strings. The
    value is the exact rational the literal denotes; a literal whose magnitude
    reaches 2^1024 is infinite. *)

From Stdlib Require Import Ascii.
From S2P Require Import Prelude.

Module JsNumber.

Definition digit_val (radix : Z) (c : Ascii.ascii) : option Z :=
  let n := Z.of_N (Ascii.N_of_ascii c) in
  let v := if (48 <=? n) && (n <=? 57) then Some (n - 48)
           else if (97 <=? n) && (n <=? 122) then Some (n - 87)
           else if (65 <=? n) && (n <=? 90) then Some (n - 55)
           else None in
  match v with
  | Some d => if d <? radix then Some d else None
  | None => None
  end.

(** The digits at the start of [s]: their value after [acc], how many, and the rest. *)
Fixpoint digits (radix acc : Z) (count : nat) (s : string) : Z * nat * string :=
  match s with
  | EmptyString => (acc, count, s)
  | String c r =>
      match digit_val radix c with
      | Some d => digits radix (acc * radix + d) (S count) r
      | None => (acc, count, s)
      end
  end.

(** A sign, which defaults to plus. *)
Definition sign (s : string) : bool * string :=
  match s with
  | String "-" r => (true, r)
  | String "+" r => (false, r)
  | _ => (false, s)
  end.

(** The exponent part, if [s] is one or is empty. *)
Definition exponent (s : string) : option Z :=
  match s with
  | EmptyString => Some 0
  | String ("e" | "E") r =>
      let (neg, r1) := sign r in
      match digits 10 0 0 r1 with
      | (v, S _, EmptyString) => Some (if neg then - v else v)
      | _ => None
      end
  | _ => None
  end.

Definition scale10 (m e : Z) : Q :=
  if 0 <=? e then inject_Z (m * 10 ^ e) else Qmake m (Z.to_pos (10 ^ (- e))).

(** [StrUnsignedDecimalLiteral] *)
Definition unsigned_decimal (s : string) : option Q :=
  let '(i, ni, r) := digits 10 0 0 s in
  let '(m, nf, r2) :=
    match r with
    | String "." r1 => digits 10 i 0 r1
    | _ => (i, 0%nat, r)
    end in
  if (ni + nf =? 0)%nat then None
  else scale10 m <$> ((λ e, e - Z.of_nat nf) <$> exponent r2).

(** A literal with a radix prefix. *)
Definition prefixed (radix : Z) (s : string) : num :=
  match digits radix 0 0 s with
  | (v, S _, EmptyString) => num_of_Z v
  | _ => NaN
  end.

Definition overflow (neg : bool) (q : Q) : num :=
  if Qle_bool (inject_Z (2 ^ 1024)) q then Inf neg
  else Fin (if neg then Qopp q else q).

Definition to_number (s : string) : num :=
  match trim s with
  | EmptyString => num_of_Z 0
  | String "0" (String ("x" | "X") r) => prefixed 16 r
  | String "0" (String ("o" | "O") r) => prefixed 8 r
  | String "0" (String ("b" | "B") r) => prefixed 2 r
  | t =>
      let (neg, u) := sign t in
      if String.eqb u "Infinity" then Inf neg
      else match unsigned_decimal u with
           | Some q => overflow neg q
           | None => NaN
           end
  end.

Example to_number_int : to_number " 1500 " = num_of_Z 1500.
Proof. vm_compute. reflexivity. Qed.
Example to_number_frac : to_number "-2.5e1" = num_of_Z (-25).
Proof. vm_compute. reflexivity. Qed.
Example to_number_hex : to_number "0x10" = num_of_Z 16.
Proof. vm_compute. reflexivity. Qed.
Example to_number_nan : to_number "5m" = NaN.
Proof. vm_compute. reflexivity. Qed.

(** ** Fields that hold a number, a string or something else *)

Inductive RawNumber := VNum (n : num) | VStr (s : string) | VOther.

End JsNumber.
