(* ===== verification/HeartbeatWake.v ===== *)
(** * Heartbeat wake-ups: src/infra/heartbeat-wake.ts and heartbeat-reason.ts

    A request to wake the heartbeat names a target; requests are kept, one per
    target, until a timer hands the batch to the handler. The timer's callback is
    asynchronous: a batch in progress is a record with what is left to hand over,
    and requests, new handlers and timers interleave with it. Delays are whole
    milliseconds, [None] standing for a number that is not finite. *)

From S2P Require Import Prelude OMap.

Module HeartbeatWake.
Import StringCoerce.

(** ** heartbeat-reason.ts *)

Inductive HeartbeatReasonKind :=
| KindRetry | KindInterval | KindManual | KindExecEvent | KindWake | KindCron | KindHook | KindOther.
#[export] Instance HeartbeatReasonKind_eq_dec : EqDecision HeartbeatReasonKind.
Proof. solve_decision. Defined.

Definition trimReason (reason : option string) : string :=
  normalizeOptionalString reason ?? EmptyString.

Definition normalizeHeartbeatWakeReason (reason : option string) : string :=
  str_or (trimReason reason) "requested".

Definition resolveHeartbeatReasonKind (reason : option string) : HeartbeatReasonKind :=
  let trimmed := trimReason reason in
  if String.eqb trimmed "retry" then KindRetry
  else if String.eqb trimmed "interval" then KindInterval
  else if String.eqb trimmed "manual" then KindManual
  else if String.eqb trimmed "exec-event" then KindExecEvent
  else if String.eqb trimmed "wake" then KindWake
  else if starts_with trimmed "acp:spawn:" then KindWake
  else if starts_with trimmed "cron:" then KindCron
  else if starts_with trimmed "hook:" then KindHook
  else KindOther.

Definition isHeartbeatEventDrivenReason (reason : option string) : bool :=
  match resolveHeartbeatReasonKind reason with
  | KindExecEvent | KindCron | KindWake | KindHook => true
  | _ => false
  end.

Definition isHeartbeatActionWakeReason (reason : option string) : bool :=
  match resolveHeartbeatReasonKind reason with
  | KindManual | KindExecEvent | KindHook => true
  | _ => false
  end.

(** ** heartbeat-wake.ts: the data *)

Inductive HeartbeatRunResult :=
| HeartbeatRan (durationMs : Z)
| HeartbeatSkipped (reason : string)
| HeartbeatFailed (reason : string).

Definition heartbeatBusy (r : HeartbeatRunResult) : bool :=
  match r with HeartbeatSkipped reason => String.eqb reason "requests-in-flight" | _ => false end.

Inductive WakeTimerKind := NormalTimer | RetryTimer.
#[export] Instance WakeTimerKind_eq_dec : EqDecision WakeTimerKind.
Proof. solve_decision. Defined.

Record PendingWakeReason := mkWake {
  w_reason : string;
  w_priority : Z;
  w_requestedAt : Z;
  w_agentId : option string;
  w_sessionKey : option string;
}.

(** The armed timer: its due time and kind, and the delay its closure holds. *)
Record WakeTimer := mkTimer { timerDueAt : Z; timerKind : WakeTimerKind; timerDelay : Z }.

(** A callback of the timer that awaits its handler: the whole batch, the wake
    being handled and those after it, and the delay of the timer. *)
Record Batch := mkBatch {
  b_active : nat;
  b_all : list PendingWakeReason;
  b_current : PendingWakeReason;
  b_rest : list PendingWakeReason;
  b_delay : Z;
}.

Inductive Observation :=
| Requested (key : string) (now : Z)
| Handed (handler : nat) (key : string)
| Refused (key : string).

Record State := mkState {
  heartbeatsEnabled : bool;
  handler : option nat;
  handlerGeneration : Z;
  pendingWakes : omap string PendingWakeReason;
  scheduled : bool;
  running : bool;
  timer : option WakeTimer;
  batches : omap nat Batch;
  nextBatch : nat;
  log : list Observation;
}.
Definition initState : State := mkState true None 0 [] false false None [] 0 [].

Definition DEFAULT_COALESCE_MS : Z := 250.
Definition DEFAULT_RETRY_MS : Z := 1000.
Definition PRIORITY_RETRY : Z := 0.
Definition PRIORITY_INTERVAL : Z := 1.
Definition PRIORITY_DEFAULT : Z := 2.
Definition PRIORITY_ACTION : Z := 3.

Definition resolveReasonPriority (reason : string) : Z :=
  match resolveHeartbeatReasonKind (Some reason) with
  | KindRetry => PRIORITY_RETRY
  | KindInterval => PRIORITY_INTERVAL
  | _ => if isHeartbeatActionWakeReason (Some reason) then PRIORITY_ACTION else PRIORITY_DEFAULT
  end.

Definition normalizeWakeTarget (value : option string) : option string :=
  match normalizeOptionalString value ?? EmptyString with EmptyString => None | t => Some t end.

Definition getWakeTargetKey (agentId sessionKey : option string) : string :=
  (normalizeWakeTarget agentId ?? EmptyString) +:+ "::" +:+ (normalizeWakeTarget sessionKey ?? EmptyString).

(** ** The operations *)

Definition set_pending (s : State) (m : omap string PendingWakeReason) : State :=
  mkState (heartbeatsEnabled s) (handler s) (handlerGeneration s) m (scheduled s) (running s) (timer s)
    (batches s) (nextBatch s) (log s).
Definition set_timer (s : State) (t : option WakeTimer) : State :=
  mkState (heartbeatsEnabled s) (handler s) (handlerGeneration s) (pendingWakes s) (scheduled s)
    (running s) t (batches s) (nextBatch s) (log s).
Definition set_flags (s : State) (sch run : bool) : State :=
  mkState (heartbeatsEnabled s) (handler s) (handlerGeneration s) (pendingWakes s) sch run (timer s)
    (batches s) (nextBatch s) (log s).
Definition set_handler (s : State) (h : option nat) (g : Z) : State :=
  mkState (heartbeatsEnabled s) h g (pendingWakes s) (scheduled s) (running s) (timer s)
    (batches s) (nextBatch s) (log s).
Definition set_batches (s : State) (m : omap nat Batch) : State :=
  mkState (heartbeatsEnabled s) (handler s) (handlerGeneration s) (pendingWakes s) (scheduled s)
    (running s) (timer s) m (nextBatch s) (log s).
Definition emit (s : State) (o : Observation) : State :=
  mkState (heartbeatsEnabled s) (handler s) (handlerGeneration s) (pendingWakes s) (scheduled s)
    (running s) (timer s) (batches s) (nextBatch s) (log s ++ [o]).

Definition setHeartbeatsEnabled (s : State) (enabled : bool) : State :=
  mkState enabled (handler s) (handlerGeneration s) (pendingWakes s) (scheduled s) (running s) (timer s)
    (batches s) (nextBatch s) (log s).
Definition areHeartbeatsEnabled (s : State) : bool := heartbeatsEnabled s.

(** Which of two requests for one target is kept. *)
Definition keepWake (previous next : PendingWakeReason) : PendingWakeReason :=
  if w_priority previous <? w_priority next then next
  else if (w_priority next =? w_priority previous) && (w_requestedAt previous <=? w_requestedAt next)
  then next else previous.

Definition mkPending (reason agentId sessionKey : option string) (now : Z) : PendingWakeReason :=
  let normalizedReason := normalizeHeartbeatWakeReason reason in
  mkWake normalizedReason (resolveReasonPriority normalizedReason) now
    (normalizeWakeTarget agentId) (normalizeWakeTarget sessionKey).

Definition queuePending (m : omap string PendingWakeReason) (reason agentId sessionKey : option string)
    (now : Z) : omap string PendingWakeReason :=
  let next := mkPending reason agentId sessionKey now in
  let key := getWakeTargetKey (w_agentId next) (w_sessionKey next) in
  match oget m key with
  | None => oset m key next
  | Some previous => oset m key (keepWake previous next)
  end.

Definition queuePendingWakeReason (s : State) (reason agentId sessionKey : option string) (now : Z) : State :=
  set_pending s (queuePending (pendingWakes s) reason agentId sessionKey now).

(** [schedule]; [clearTimeout] and [setTimeout] replace the armed timer. *)
Definition schedule (s : State) (coalesceMs : option Z) (kind : WakeTimerKind) (now : Z) : State :=
  let delay := Z.max 0 <$> coalesceMs ?? DEFAULT_COALESCE_MS in
  let dueAt := now + delay in
  let arm := set_timer s (Some (mkTimer dueAt kind delay)) in
  match timer s with
  | None => arm
  | Some t =>
      if bool_decide (timerKind t = RetryTimer) then s
      else if timerDueAt t <=? dueAt then s
      else arm
  end.

Definition requestHeartbeatNow (s : State) (reason : option string) (coalesceMs : option (option Z))
    (agentId sessionKey : option string) (now : Z) : State :=
  let s1 := queuePendingWakeReason s reason agentId sessionKey now in
  let s2 := emit s1 (Requested (getWakeTargetKey agentId sessionKey) now) in
  schedule s2 (coalesceMs ?? Some DEFAULT_COALESCE_MS) NormalTimer now.

Definition hasHeartbeatWakeHandler (s : State) : bool := match handler s with Some _ => true | None => false end.
Definition hasPendingHeartbeatWake (s : State) : bool :=
  negb (bool_decide (pendingWakes s = [])) || (match timer s with Some _ => true | None => false end) ||
  scheduled s.

(** ** The callback of the timer *)

Definition wakeKey (w : PendingWakeReason) : string := getWakeTargetKey (w_agentId w) (w_sessionKey w).

(** [finally]. *)
Definition endBatch (s : State) (delay now : Z) : State :=
  let s1 := set_flags s (scheduled s) false in
  if negb (bool_decide (pendingWakes s1 = [])) || scheduled s1
  then schedule s1 (Some delay) NormalTimer now else s1.

(** Hands [w] over and awaits the handler. *)
Definition handOver (s : State) (id : nat) (b : Batch) : State :=
  emit (set_batches s (oset (batches s) id b)) (Handed (b_active b) (wakeKey (b_current b))).

Definition timerFires (s : State) (now : Z) : State :=
  match timer s with
  | None => s
  | Some t =>
      let s1 := set_flags (set_timer s None) false (running s) in
      match handler s1 with
      | None => s1
      | Some active =>
          if running s1 then schedule (set_flags s1 true true) (Some (timerDelay t)) (timerKind t) now
          else
            let pendingBatch := ovalues (pendingWakes s1) in
            let s2 := set_flags (set_pending s1 []) (scheduled s1) true in
            match pendingBatch with
            | [] => endBatch s2 (timerDelay t) now
            | w :: rest =>
                let s3 := mkState (heartbeatsEnabled s2) (handler s2) (handlerGeneration s2) (pendingWakes s2)
                            (scheduled s2) (running s2) (timer s2) (batches s2) (S (nextBatch s2)) (log s2) in
                handOver s3 (nextBatch s2) (mkBatch active pendingBatch w rest (timerDelay t))
            end
      end
  end.

Definition requeue (s : State) (w : PendingWakeReason) (now : Z) : State :=
  queuePendingWakeReason s (Some (w_reason w)) (w_agentId w) (w_sessionKey w) now.

(** The handler answers. *)
Definition handlerReturns (s : State) (id : nat) (res : HeartbeatRunResult) (now : Z) : State :=
  match oget (batches s) id with
  | None => s
  | Some b =>
      let s1 := if heartbeatBusy res
                then schedule (emit (requeue s (b_current b) now) (Refused (wakeKey (b_current b))))
                       (Some DEFAULT_RETRY_MS) RetryTimer now
                else s in
      match b_rest b with
      | [] => endBatch (set_batches s1 (odel (batches s1) id)) (b_delay b) now
      | w :: rest => handOver s1 id (mkBatch (b_active b) (b_all b) w rest (b_delay b))
      end
  end.

(** The handler rejects: [catch] and [finally]. *)
Definition handlerThrows (s : State) (id : nat) (now : Z) : State :=
  match oget (batches s) id with
  | None => s
  | Some b =>
      let s1 := emit (fold_left (λ s w, requeue s w now) (b_all b) s) (Refused (wakeKey (b_current b))) in
      let s2 := schedule s1 (Some DEFAULT_RETRY_MS) RetryTimer now in
      endBatch (set_batches s2 (odel (batches s2) id)) (b_delay b) now
  end.

(** [setHeartbeatWakeHandler]; its disposer is [disposeHandler] with the
    generation and the handler of the registration. *)
Definition setHeartbeatWakeHandler (s : State) (next : option nat) (now : Z) : State :=
  let s1 := set_handler s next (handlerGeneration s + 1) in
  let s2 := match next with Some _ => set_flags (set_timer s1 None) false false | None => s1 end in
  if hasHeartbeatWakeHandler s2 && negb (bool_decide (pendingWakes s2 = []))
  then schedule s2 (Some DEFAULT_COALESCE_MS) NormalTimer now else s2.

Definition disposeHandler (s : State) (generation : Z) (next : option nat) : State :=
  if negb (handlerGeneration s =? generation) then s
  else if negb (bool_decide (handler s = next)) then s
  else set_handler s None (handlerGeneration s + 1).

(** ** The step relation *)

Inductive Input :=
| Request (reason : option string) (coalesceMs : option (option Z)) (agentId sessionKey : option string)
| SetHandler (next : option nat)
| Dispose (generation : Z) (next : option nat)
| SetEnabled (enabled : bool)
| TimerFires
| HandlerReturns (id : nat) (res : HeartbeatRunResult)
| HandlerThrows (id : nat).

Definition step (s : State) (input : Z * Input) : State :=
  let now := input.1 in
  match input.2 with
  | Request reason coalesceMs agentId sessionKey => requestHeartbeatNow s reason coalesceMs agentId sessionKey now
  | SetHandler next => setHeartbeatWakeHandler s next now
  | Dispose generation next => disposeHandler s generation next
  | SetEnabled enabled => setHeartbeatsEnabled s enabled
  | TimerFires => timerFires s now
  | HandlerReturns id res => handlerReturns s id res now
  | HandlerThrows id => handlerThrows s id now
  end.

Definition steps (s : State) (inputs : list (Z * Input)) : State := fold_left step inputs s.

(** ** What is owed

    A target is owed a wake from a request for it until it is handed over, and
    again when the handler answers that it is busy, or throws. *)
Definition owedStep (k : string) (owed : bool) (o : Observation) : bool :=
  match o with
  | Requested k' _ | Refused k' => if String.eqb k' k then true else owed
  | Handed _ k' => if String.eqb k' k then false else owed
  end.
Definition owed (k : string) (l : list Observation) : bool := fold_left (owedStep k) l false.

Definition pending (s : State) (k : string) : Prop := is_Some (oget (pendingWakes s) k).
Definition in_progress (s : State) (k : string) : Prop :=
  ∃ id b, oget (batches s) id = Some b ∧ k ∈ map wakeKey (b_rest b).

(** The invariant without its clause on the timer, which scheduling restores. *)
Record base (s : State) : Prop := {
  i_wf : owf (pendingWakes s);
  i_wfb : owf (batches s);
  i_key k w : oget (pendingWakes s) k = Some w → wakeKey w = k;
  i_all id b : oget (batches s) id = Some b → ∃ done, b_all b = done ++ b_current b :: b_rest b;
  i_fresh id b : oget (batches s) id = Some b → (id < nextBatch s)%nat;
  i_owed k : owed k (log s) = true → pending s k ∨ in_progress s k;
}.
Definition armed (s : State) : Prop := pendingWakes s ≠ [] → handler s ≠ None → timer s ≠ None.

Lemma normalizeWakeTarget_idemp v : normalizeWakeTarget (normalizeWakeTarget v) = normalizeWakeTarget v.
Proof.
  unfold normalizeWakeTarget. destruct (normalizeOptionalString v) as [t|] eqn:E; [|done]. cbn [default].
  apply normalizeOptionalString_spec in E as [Hne Ht]. destruct t as [|c t]; [done|].
  unfold normalizeOptionalString, normalizeNullableString. unfold id. rewrite Ht. done.
Qed.

Lemma mkPending_key reason agentId sessionKey now :
  wakeKey (mkPending reason agentId sessionKey now) = getWakeTargetKey agentId sessionKey.
Proof. unfold wakeKey, getWakeTargetKey. cbn [mkPending w_agentId w_sessionKey]. by rewrite !normalizeWakeTarget_idemp. Qed.

Lemma keepWake_either a b : keepWake a b = a ∨ keepWake a b = b.
Proof. unfold keepWake. destruct (_ <? _); [by right|]. destruct (_ && _); [by right|by left]. Qed.

(** Queuing a wake adds its target and changes no other. *)
Lemma queuePending_spec m reason agentId sessionKey now k :
  (∀ k w, oget m k = Some w → wakeKey w = k) →
  let key := getWakeTargetKey agentId sessionKey in
  let m' := queuePending m reason agentId sessionKey now in
  m' ≠ [] ∧ (∃ w, oget m' key = Some w ∧ wakeKey w = key) ∧ (k ≠ key → oget m' k = oget m k).
Proof.
  intros Hm key m'. unfold m', queuePending.
  change (getWakeTargetKey (w_agentId ?w) (w_sessionKey ?w)) with (wakeKey w).
  rewrite mkPending_key. fold key. set (next := mkPending reason agentId sessionKey now).
  assert (wakeKey next = key) as Hn by apply mkPending_key.
  destruct (oget m key) as [p|] eqn:E.
  - split; [apply oset_nonnil|]. split; [|intros; by rewrite oget_oset_ne].
    exists (keepWake p next). split; [apply oget_oset_eq|].
    destruct (keepWake_either p next) as [->| ->]; [by apply Hm|done].
  - split; [apply oset_nonnil|]. split; [exists next; by rewrite oget_oset_eq|intros; by rewrite oget_oset_ne].
Qed.

Lemma owed_app k l o : owed k (l ++ [o]) = owedStep k (owed k l) o.
Proof. unfold owed. by rewrite fold_left_app. Qed.

(** [schedule] arms the timer and changes nothing else. *)
Lemma schedule_spec s c kind now :
  ∃ t, schedule s c kind now = set_timer s (Some t).
Proof.
  unfold schedule. destruct (timer s) as [t|] eqn:Et; [|by eexists].
  destruct (bool_decide _); [|destruct (_ <=? _); [|by eexists]]; exists t; rewrite <- Et; by destruct s.
Qed.

(** The timer, the flags and the handler are no part of [base]. *)
Lemma base_ext s s' :
  pendingWakes s' = pendingWakes s → batches s' = batches s → nextBatch s' = nextBatch s → log s' = log s →
  base s → base s'.
Proof.
  intros E1 E2 E3 E4 [H1 H2 H3 H4 H5 H6].
  split; unfold pending, in_progress; rewrite ?E1, ?E2, ?E3, ?E4; assumption.
Qed.

Lemma base_schedule s c kind now : base s → base (schedule s c kind now).
Proof. destruct (schedule_spec s c kind now) as [t ->]. by apply base_ext. Qed.

Lemma armed_schedule s c kind now : armed (schedule s c kind now).
Proof. destruct (schedule_spec s c kind now) as [t ->]. by intros _ _. Qed.

(** A pending target stays pending when any wake is queued. *)
Lemma pending_queue s reason agentId sessionKey now k :
  base s → pending s k → pending (queuePendingWakeReason s reason agentId sessionKey now) k.
Proof.
  intros Hb [w Hw].
  destruct (queuePending_spec (pendingWakes s) reason agentId sessionKey now k (i_key s Hb)) as (_ & (w' & Hw' & _) & Ho).
  unfold pending. cbn [queuePendingWakeReason set_pending pendingWakes].
  destruct (decide (k = getWakeTargetKey agentId sessionKey)) as [->|Hne]; [by exists w'|].
  exists w. by rewrite Ho.
Qed.

Lemma pending_queued s reason agentId sessionKey now :
  base s → pending (queuePendingWakeReason s reason agentId sessionKey now) (getWakeTargetKey agentId sessionKey).
Proof.
  intros Hb. destruct (queuePending_spec (pendingWakes s) reason agentId sessionKey now EmptyString (i_key s Hb))
    as (_ & (w' & Hw' & _) & _). by exists w'.
Qed.

Lemma base_queue s reason agentId sessionKey now :
  base s → base (queuePendingWakeReason s reason agentId sessionKey now).
Proof.
  intros Hb. pose proof Hb as [H1 H2 H3 H4 H5 H6].
  set (key := getWakeTargetKey agentId sessionKey).
  split; try done.
  - cbn. unfold queuePending. destruct (oget _ _); by apply owf_oset.
  - intros k w. cbn [queuePendingWakeReason set_pending pendingWakes]. intros Hk.
    destruct (queuePending_spec (pendingWakes s) reason agentId sessionKey now k H3)
      as (_ & (w' & Hw' & Hkey) & Ho). fold key in Hw', Hkey, Ho.
    destruct (decide (k = key)) as [->|Hne]; [congruence|]. rewrite Ho in Hk by done. by apply H3.
  - intros k Hk. destruct (H6 k Hk) as [Hp|Hp]; [left|by right]. by apply pending_queue.
Qed.

(** A log entry for a target that is pending changes nothing that is owed. *)
Lemma base_owing s o key :
  base s → pending s key → (o = Refused key ∨ ∃ t, o = Requested key t) → base (emit s o).
Proof.
  intros Hb Hp Ho. pose proof Hb as [H1 H2 H3 H4 H5 H6]. split; try done.
  intros k. cbn [emit log]. rewrite owed_app. intros Hk.
  change (pending s k ∨ in_progress s k).
  destruct Ho as [->|[t ->]]; cbn [owedStep] in Hk;
    (destruct (String.eqb_spec key k) as [->|_]; [by left|by apply H6]).
Qed.

Lemma base_handOver s id b :
  owf (pendingWakes s) → owf (batches s) →
  (∀ k w, oget (pendingWakes s) k = Some w → wakeKey w = k) →
  (∀ id b, oget (batches s) id = Some b → ∃ done, b_all b = done ++ b_current b :: b_rest b) →
  (∀ id b, oget (batches s) id = Some b → (id < nextBatch s)%nat) →
  (id < nextBatch s)%nat → (∃ done, b_all b = done ++ b_current b :: b_rest b) →
  (∀ k, owed k (log s) = true → pending s k ∨
     (∃ id' b', id' ≠ id ∧ oget (batches s) id' = Some b' ∧ k ∈ map wakeKey (b_rest b')) ∨
     k ∈ map wakeKey (b_current b :: b_rest b)) →
  base (handOver s id b).
Proof.
  intros H1 H2 H3 H4 H5 Hid Hall Hpr.
  split; cbn [handOver emit set_batches pendingWakes batches nextBatch log]; try done.
  - by apply owf_oset.
  - intros id' b'. rewrite oget_oset. case_decide; [intros [= <-]; done|apply H4].
  - intros id' b'. rewrite oget_oset. case_decide; [intros [= <-]; subst; done|apply H5].
  - intros k. rewrite owed_app. cbn [owedStep]. destruct (String.eqb_spec (wakeKey (b_current b)) k) as [E|E]; [done|].
    intros Hk. destruct (Hpr k Hk) as [Hp|[(id' & b' & Hne & Hb' & Hin)|Hin]]; [by left|right|right];
      unfold in_progress; cbn [handOver emit set_batches batches].
    + exists id', b'. rewrite oget_oset_ne by done. done.
    + exists id, b. rewrite oget_oset_eq. split; [done|]. cbn [map] in Hin.
      apply elem_of_cons in Hin as [->|Hin]; done.
Qed.

Lemma base_endBatch s delay now : base s → base (endBatch s delay now).
Proof.
  intros H. unfold endBatch. destruct (_ || _); [apply base_schedule|]; by apply (base_ext s).
Qed.

Lemma armed_endBatch s delay now : armed (endBatch s delay now).
Proof.
  unfold endBatch. destruct (_ || _) eqn:E; [apply armed_schedule|].
  apply orb_false_iff in E as [E _]. apply negb_false_iff, bool_decide_eq_true in E. by intros H.
Qed.

(** A batch whose waiting wakes are all pending may go. *)
Lemma base_drop_batch s id b :
  base s → oget (batches s) id = Some b → (∀ k, k ∈ map wakeKey (b_rest b) → pending s k) →
  base (set_batches s (odel (batches s) id)).
Proof.
  intros [H1 H2 H3 H4 H5 H6] Hb Hr. split; cbn [set_batches pendingWakes batches nextBatch log]; try done.
  - by apply owf_odel.
  - intros id' b'. rewrite oget_odel. case_decide; [done|apply H4].
  - intros id' b'. rewrite oget_odel. case_decide; [done|apply H5].
  - intros k Hk. destruct (H6 k Hk) as [Hp|(id' & b' & Hb' & Hin)]; [by left|].
    destruct (decide (id' = id)) as [->|Hne]; [left; apply Hr; congruence|right].
    exists id', b'. cbn [set_batches batches]. by rewrite oget_odel_ne.
Qed.

Lemma requeue_all l s now :
  base s →
  let s' := fold_left (λ s w, requeue s w now) l s in
  base s' ∧ batches s' = batches s ∧ (∀ k, pending s k → pending s' k) ∧ (∀ w, w ∈ l → pending s' (wakeKey w)).
Proof.
  revert s. induction l as [|w l IH]; intros s Hb; cbn [fold_left].
  - split; [done|]. split; [done|]. split; [done|]. intros w Hw. by apply not_elem_of_nil in Hw.
  - destruct (IH (requeue s w now)) as (H1 & H2 & H3 & H4); [by apply base_queue|].
    split; [done|]. split; [by rewrite H2|]. split; [intros k Hk; by apply H3, pending_queue|].
    intros w' [->|Hw']%elem_of_cons; [|by apply H4]. by apply H3, pending_queued.
Qed.

Record inv (s : State) : Prop := { i_base : base s; i_armed : armed s }.

Lemma inv_init : inv initState.
Proof. split; [split; try done; apply NoDup_nil_2|by intros H]. Qed.

Lemma inv_request s reason coalesceMs agentId sessionKey now :
  inv s → inv (requestHeartbeatNow s reason coalesceMs agentId sessionKey now).
Proof.
  intros [Hb _]. split; [|apply armed_schedule]. apply base_schedule.
  apply (base_owing _ _ (getWakeTargetKey agentId sessionKey)); [by apply base_queue|by apply pending_queued|].
  right. by eexists.
Qed.

Lemma pending_values s k :
  base s → pending s k → k ∈ map wakeKey (ovalues (pendingWakes s)).
Proof.
  intros Hb [w Hw]. rewrite <- (i_key s Hb k w Hw). apply list_elem_of_fmap_2.
  apply oget_In in Hw. apply list_elem_of_In in Hw. by apply (list_elem_of_fmap_2 snd) in Hw.
Qed.

Lemma inv_timerFires s now : inv s → inv (timerFires s now).
Proof.
  intros [Hb Ha]. unfold timerFires. destruct (timer s) as [t|] eqn:Et; [|by split].
  destruct (handler s) as [active|] eqn:Eh; cbn [set_flags set_timer handler running]; rewrite Eh.
  2:{ split; [by apply (base_ext s)|intros _ H; exfalso; by apply H]. }
  destruct (running s) eqn:Er.
  { split; [|apply armed_schedule]. apply base_schedule. by apply (base_ext s). }
  cbn [set_flags set_timer set_pending pendingWakes scheduled heartbeatsEnabled handlerGeneration handler timer
    batches nextBatch log].
  destruct (ovalues (pendingWakes s)) as [|w rest] eqn:Ev.
  { split; [apply base_endBatch|apply armed_endBatch]. apply (base_ext s); try done.
    cbn. apply map_eq_nil in Ev. done. }
  split; [|by intros H]. pose proof Hb as [H1 H2 H3 H4 H5 H6].
  apply base_handOver; cbn [pendingWakes batches nextBatch log b_all b_current b_rest]; try done.
  - apply NoDup_nil_2.
  - intros id b Hid. specialize (H5 id b Hid). lia.
  - lia.
  - by exists [].
  - intros k Hk. right. destruct (H6 k Hk) as [Hp|(id & b & Hid & Hin)]; [right|left].
    + rewrite <- Ev. by apply pending_values.
    + exists id, b. split; [|done]. specialize (H5 id b Hid). lia.
Qed.

Lemma inv_handlerReturns s id res now : inv s → inv (handlerReturns s id res now).
Proof.
  intros [Hb Ha]. unfold handlerReturns. destruct (oget (batches s) id) as [b|] eqn:Eb; [|by split].
  set (s1 := if heartbeatBusy res then _ else s).
  assert (base s1 ∧ armed s1 ∧ batches s1 = batches s) as (Hb1 & Ha1 & E1).
  { unfold s1. destruct (heartbeatBusy res); [|done]. split; [|split].
    - apply base_schedule. apply (base_owing _ _ (wakeKey (b_current b))); [by apply base_queue|by apply pending_queued|by left].
    - apply armed_schedule.
    - edestruct schedule_spec as [t ->]. done. }
  clearbody s1. rewrite <- E1 in Eb. destruct (b_rest b) as [|w rest] eqn:Er.
  - split; [apply base_endBatch|apply armed_endBatch].
    apply (base_drop_batch _ _ b); [done|done|]. rewrite Er. intros k Hk. by apply elem_of_nil in Hk.
  - split; [|done]. pose proof Hb1 as [H1 H2 H3 H4 H5 H6].
    apply base_handOver; cbn [b_all b_current b_rest]; try done; [by apply (H5 id b)| |].
    + destruct (H4 id b Eb) as [done0 ->]. rewrite Er. exists (done0 ++ [b_current b]). by rewrite <- app_assoc.
    + intros k Hk. destruct (H6 k Hk) as [Hp|(id' & b' & Hb' & Hin)]; [by left|right].
      destruct (decide (id' = id)) as [->|Hne]; [right|left; by exists id', b'].
      rewrite Eb in Hb'. injection Hb' as <-. by rewrite <- Er.
Qed.

Lemma inv_handlerThrows s id now : inv s → inv (handlerThrows s id now).
Proof.
  intros [Hb Ha]. unfold handlerThrows. destruct (oget (batches s) id) as [b|] eqn:Eb; [|by split].
  split; [apply base_endBatch|apply armed_endBatch].
  destruct (requeue_all (b_all b) s now Hb) as (H1 & H2 & H3 & H4).
  set (s1 := fold_left _ _ _) in *. clearbody s1.
  destruct (i_all s Hb id b Eb) as [done0 Hall].
  assert (base (emit s1 (Refused (wakeKey (b_current b))))) as H5.
  { apply (base_owing _ _ (wakeKey (b_current b))); [done| |by left].
    apply H4. rewrite Hall. set_solver. }
  destruct (schedule_spec (emit s1 (Refused (wakeKey (b_current b)))) (Some DEFAULT_RETRY_MS) RetryTimer now) as [t ->].
  apply (base_drop_batch _ _ b); [by apply (base_ext (emit s1 (Refused (wakeKey (b_current b)))))|cbn; by rewrite H2|].
  intros k Hk. apply list_elem_of_fmap in Hk as (w & -> & Hw). apply H4. rewrite Hall. set_solver.
Qed.

Lemma inv_setHandler s next now : inv s → inv (setHeartbeatWakeHandler s next now).
Proof.
  intros [Hb Ha]. unfold setHeartbeatWakeHandler.
  set (s2 := match next with Some _ => _ | None => _ end).
  assert (base s2) as Hb2 by (unfold s2; destruct next; by apply (base_ext s)).
  clearbody s2. destruct (_ && _) eqn:E.
  - split; [by apply base_schedule|apply armed_schedule].
  - split; [done|]. intros Hp Hh. unfold hasHeartbeatWakeHandler in E.
    destruct (handler s2); [|done]. cbn in E. apply negb_false_iff, bool_decide_eq_true in E. done.
Qed.

Lemma inv_step s input : inv s → inv (step s input).
Proof.
  intros Hi. destruct input as [now [r c a k|next|g next|e| |id res|id]]; cbn [step fst snd].
  - by apply inv_request.
  - by apply inv_setHandler.
  - destruct Hi as [Hb Ha]. unfold disposeHandler. do 2 (destruct (negb _); [by split|]).
    split; [by apply (base_ext s)|by intros _ H].
  - destruct Hi as [Hb Ha]. split; [by apply (base_ext s)|done].
  - by apply inv_timerFires.
  - by apply inv_handlerReturns.
  - by apply inv_handlerThrows.
Qed.

Lemma inv_steps s inputs : inv s → inv (steps s inputs).
Proof. revert s. induction inputs as [|i l IH]; intros s Hs; [done|]. by apply IH, inv_step. Qed.

(** ** Time

    Inputs arrive in the order of their clock. *)
Fixpoint clocked (t : Z) (inputs : list (Z * Input)) : Prop :=
  match inputs with
  | [] => True
  | i :: l => t <= i.1 ∧ clocked i.1 l
  end.

Definition timely (clock : Z) (s : State) : Prop :=
  ∀ t, timer s = Some t → timerKind t = RetryTimer →
    timerDelay t = DEFAULT_RETRY_MS ∧ timerDueAt t <= clock + DEFAULT_RETRY_MS.

Lemma timely_mono t t' s : t <= t' → timely t s → timely t' s.
Proof. intros H Ht tm Htm Hk. destruct (Ht tm Htm Hk). split; [done|lia]. Qed.

Lemma timely_ext t s s' : timer s' = timer s → timely t s → timely t s'.
Proof. unfold timely. by intros ->. Qed.

Lemma timely_no_timer t s : timer s = None → timely t s.
Proof. unfold timely. intros -> tm Htm. done. Qed.

Lemma timely_schedule s c kind now :
  (kind = RetryTimer → c = Some DEFAULT_RETRY_MS) → timely now s → timely now (schedule s c kind now).
Proof.
  intros Hk Ht. unfold schedule.
  assert (timely now (set_timer s (Some (mkTimer (now + (Z.max 0 <$> c ?? DEFAULT_COALESCE_MS)) kind
    (Z.max 0 <$> c ?? DEFAULT_COALESCE_MS))))) as Harm.
  { intros tm [= <-]. cbn. intros E. rewrite (Hk E). cbn. unfold id, DEFAULT_RETRY_MS. lia. }
  destruct (timer s); [|done]. destruct (bool_decide _); [done|]. by destruct (_ <=? _).
Qed.

Lemma timely_endBatch s delay now : timely now s → timely now (endBatch s delay now).
Proof.
  intros H. unfold endBatch. destruct (_ || _); [apply timely_schedule; [done|]|]; by apply (timely_ext _ s).
Qed.

Lemma timely_step t s input : t <= input.1 → timely t s → timely input.1 (step s input).
Proof.
  intros Hle Ht. apply (timely_mono _ input.1) in Ht; [|done].
  destruct input as [now [r c a k|next|g next|e| |id res|id]]; cbn [step fst snd] in *.
  - apply timely_schedule; [done|]. by apply (timely_ext _ s).
  - unfold setHeartbeatWakeHandler. set (s2 := match next with Some _ => _ | None => _ end).
    assert (timely now s2) as H2 by (unfold s2; destruct next; [by apply timely_no_timer|by apply (timely_ext _ s)]).
    clearbody s2. destruct (_ && _); [|done]. by apply timely_schedule.
  - unfold disposeHandler. by do 2 (destruct (negb _); [done|]).
  - done.
  - unfold timerFires. destruct (timer s) as [tm|] eqn:Et; [|done].
    cbn [set_flags set_timer handler running]. destruct (handler s); [|by apply timely_no_timer].
    destruct (running s).
    { apply timely_schedule; [|by apply timely_no_timer]. intros E. by destruct (Ht tm Et E) as [-> _]. }
    destruct (ovalues _); [apply timely_endBatch|]; by apply timely_no_timer.
  - unfold handlerReturns. destruct (oget _ _) as [b|]; [|done].
    set (s1 := if heartbeatBusy res then _ else s).
    assert (timely now s1) as H1.
    { unfold s1. destruct (heartbeatBusy res); [|done]. apply timely_schedule; [done|]. by apply (timely_ext _ s). }
    clearbody s1. destruct (b_rest b); [apply timely_endBatch|]; by apply (timely_ext _ s1).
  - unfold handlerThrows. destruct (oget _ _) as [b|]; [|done].
    apply timely_endBatch. apply (timely_ext _ (schedule (emit (fold_left (λ s w, requeue s w now) (b_all b) s)
      (Refused (wakeKey (b_current b)))) (Some DEFAULT_RETRY_MS) RetryTimer now)); [done|].
    apply timely_schedule; [done|]. apply (timely_ext _ s); [|done].
    cbn [emit timer]. generalize (b_all b) as l. clear. intros l. revert s.
    induction l as [|w l IH]; intros s; [done|]. cbn [fold_left]. by rewrite IH.
Qed.

Lemma timely_steps t s inputs input :
  clocked t (inputs ++ [input]) → timely t s → timely input.1 (steps s inputs).
Proof.
  revert t s. induction inputs as [|i l IH]; intros t s Hc Ht; destruct Hc as [Hle Hc].
  - by apply (timely_mono t).
  - apply (IH i.1 (step s i)); [done|by apply (timely_step t)].
Qed.

(** ** One batch at a time *)

Definition noNewHandler (i : Z * Input) : Prop := ∀ h, i.2 ≠ SetHandler (Some h).

Definition single (s : State) : Prop :=
  (batches s = [] ∧ running s = false) ∨ (∃ id b, batches s = [(id, b)] ∧ running s = true).

Lemma single_ext s s' : batches s' = batches s → running s' = running s → single s → single s'.
Proof. unfold single. by intros -> ->. Qed.

Lemma single_schedule s c kind now : single s → single (schedule s c kind now).
Proof. destruct (schedule_spec s c kind now) as [t ->]. by apply single_ext. Qed.

Lemma single_endBatch s delay now : batches s = [] → single (endBatch s delay now).
Proof.
  intros H. assert (single (set_flags s (scheduled s) false)) by (by left).
  unfold endBatch. destruct (_ || _); [by apply single_schedule|done].
Qed.

Lemma single_step s input : noNewHandler input → single s → single (step s input).
Proof.
  intros Hq Hs. destruct input as [now [r c a k|[h|]|g next|e| |id res|id]]; cbn [step fst snd].
  - apply single_schedule. by apply (single_ext s).
  - by destruct (Hq h).
  - by apply (single_ext s).
  - unfold disposeHandler. do 2 (destruct (negb _); [done|]). by apply (single_ext s).
  - by apply (single_ext s).
  - unfold timerFires. destruct (timer s) as [tm|]; [|done].
    cbn [set_flags set_timer handler running]. destruct (handler s); [|by apply (single_ext s)].
    destruct (running s) eqn:Er; [apply single_schedule; by apply (single_ext s)|].
    destruct Hs as [[Hb _]|(id & b & _ & Hr)]; [|congruence].
    destruct (ovalues _) as [|w rest]; [by apply single_endBatch|].
    right. unfold handOver. cbn [set_pending set_flags set_timer emit set_batches batches running]. rewrite Hb. by eexists _, _.
  - unfold handlerReturns. destruct Hs as [[Hb Hr]|(id0 & b & Hb & Hr)]; rewrite Hb; [by left|].
    cbn [oget]. case_decide as E; [subst id0|right; by exists id0, b].
    set (s1 := if heartbeatBusy res then _ else s).
    assert (batches s1 = [(id, b)] ∧ running s1 = true) as [H1 H2].
    { unfold s1. destruct (heartbeatBusy res); [|done]. edestruct schedule_spec as [t ->]. done. }
    clearbody s1. destruct (b_rest b) as [|w rest].
    + apply single_endBatch. cbn [set_batches batches]. rewrite H1. apply odel_head, NoDup_singleton.
    + right. unfold handOver. cbn [emit set_batches batches running]. rewrite H1, H2. cbn [oset].
      rewrite decide_True by done. by eexists _, _.
  - unfold handlerThrows. destruct Hs as [[Hb Hr]|(id0 & b & Hb & Hr)]; rewrite Hb; [by left|].
    cbn [oget]. case_decide as E; [subst id0|right; by exists id0, b].
    apply single_endBatch. edestruct schedule_spec as [t ->]. cbn [set_batches set_timer emit batches].
    replace (batches (fold_left _ _ s)) with (batches s).
    + rewrite Hb. apply odel_head, NoDup_singleton.
    + generalize (b_all b) as l. clear. intros l. revert s. induction l as [|w l IH]; intros s; [done|].
      cbn [fold_left]. by rewrite <- IH.
Qed.

Lemma single_steps s inputs : Forall noNewHandler inputs → single s → single (steps s inputs).
Proof.
  revert s. induction inputs as [|i l IH]; intros s Hq Hs; [done|].
  apply Forall_cons in Hq as [Hi Hq]. apply IH; [done|]. by apply single_step.
Qed.

(** ** The kept request *)

(** [w] is at least as strong as [x]: a higher priority, or as high and as late. *)
Definition stronger (w x : PendingWakeReason) : Prop :=
  w_priority x < w_priority w ∨ (w_priority x = w_priority w ∧ w_requestedAt x <= w_requestedAt w).

#[local] Instance stronger_preorder : PreOrder stronger.
Proof. unfold stronger. split; [intros x; right; lia|intros x y z; lia]. Qed.

Lemma keepWake_strongest a b : stronger (keepWake a b) a ∧ stronger (keepWake a b) b.
Proof. unfold keepWake, stronger. by_cases_lia. Qed.

Definition strongest (w : PendingWakeReason) (l : list PendingWakeReason) : Prop :=
  w ∈ l ∧ ∀ x, x ∈ l → stronger w x.

Lemma strongest_snoc w l x : strongest w l → strongest (keepWake w x) (l ++ [x]).
Proof.
  intros [Hin Hs]. destruct (keepWake_strongest w x) as [H1 H2]. split.
  - destruct (keepWake_either w x) as [->| ->]; set_solver.
  - intros y [Hy| ->%list_elem_of_singleton]%elem_of_app; [|done]. exact (transitivity (R:=stronger) H1 (Hs y Hy)).
Qed.

Definition wakeOf (agentId sessionKey : option string) (r : option string * Z) : PendingWakeReason :=
  mkPending r.1 agentId sessionKey r.2.

Lemma queue_strongest agentId sessionKey reqs m l :
  (∀ w, oget m (getWakeTargetKey agentId sessionKey) = Some w → strongest w l) →
  (oget m (getWakeTargetKey agentId sessionKey) = None → l = []) →
  reqs ≠ [] →
  ∃ w, oget (fold_left (λ m r, queuePending m r.1 agentId sessionKey r.2) reqs m) (getWakeTargetKey agentId sessionKey)
       = Some w ∧ strongest w (l ++ map (wakeOf agentId sessionKey) reqs).
Proof.
  set (key := getWakeTargetKey agentId sessionKey).
  revert m l. induction reqs as [|r reqs IH]; intros m l Hs Hn Hne; [done|]. cbn [fold_left map].
  rewrite cons_middle, app_assoc. set (m' := queuePending m r.1 agentId sessionKey r.2).
  assert (∃ w, oget m' key = Some w ∧ strongest w (l ++ [wakeOf agentId sessionKey r])) as (w & Hw & Hst).
  { unfold m', queuePending.
    change (getWakeTargetKey (w_agentId ?w) (w_sessionKey ?w)) with (wakeKey w).
    rewrite mkPending_key. fold key. destruct (oget m key) as [p|] eqn:E.
    - exists (keepWake p (wakeOf agentId sessionKey r)). rewrite oget_oset_eq. split; [done|].
      by apply strongest_snoc, Hs.
    - exists (wakeOf agentId sessionKey r). rewrite oget_oset_eq. split; [done|]. rewrite (Hn eq_refl). cbn [app].
      split; [by apply list_elem_of_singleton|]. by intros x ->%list_elem_of_singleton. }
  destruct reqs as [|r' reqs'].
  - cbn. exists w. by rewrite app_nil_r.
  - apply IH; [|rewrite Hw; done|done]. intros w0. rewrite Hw. by intros [= <-].
Qed.

Lemma pending_requests agentId sessionKey reqs s :
  pendingWakes (fold_left (λ s r, requestHeartbeatNow s r.1 None agentId sessionKey r.2) reqs s) =
  fold_left (λ m r, queuePending m r.1 agentId sessionKey r.2) reqs (pendingWakes s).
Proof.
  revert s. induction reqs as [|r reqs IH]; intros s; [done|]. cbn [fold_left]. rewrite IH. f_equal.
  unfold requestHeartbeatNow. edestruct schedule_spec as [t ->]. done.
Qed.

(** ** Properties *)

(** C37. No wake is forgotten. Whatever requests, handlers, timers and answers
    follow each other, a target whose last request (or whose last refusal, by a busy
    handler or one that threw) has not been handed over yet is still pending or in
    the part of a running batch that waits; and while anything is pending and a
    handler is registered the timer is armed. *)
Theorem owed_wakes_stay_waiting inputs k :
  let s := steps initState inputs in
  (owed k (log s) = true → pending s k ∨ in_progress s k) ∧
  (pendingWakes s ≠ [] → hasHeartbeatWakeHandler s = true → ∃ t, timer s = Some t).
Proof.
  intros s. destruct (inv_steps initState inputs inv_init) as [Hb Ha]. fold s in Hb, Ha.
  split; [apply (i_owed s Hb)|]. intros Hp Hh. unfold hasHeartbeatWakeHandler in Hh.
  destruct (timer s) as [t|] eqn:Et; [by exists t|]. exfalso. apply (Ha Hp); [by intros E; rewrite E in Hh|done].
Qed.

Definition exampleWakes : list (Z * Input) :=
  [(0, SetHandler (Some 1%nat)); (10, Request (Some "manual") None (Some "main") None);
   (20, Request (Some "cron:a") (Some (Some 0)) (Some "other") None); (20, TimerFires);
   (30, HandlerReturns 0%nat (HeartbeatSkipped "requests-in-flight"))].

Lemma owed_wakes_stay_waiting_witness :
  let s := steps initState exampleWakes in
  owed "main::" (log s) = true ∧ (pending s "main::" ∨ in_progress s "main::") ∧ ∃ t, timer s = Some t.
Proof.
  intros s. split; [by vm_compute|]. split.
  - apply (owed_wakes_stay_waiting exampleWakes). by vm_compute.
  - apply (owed_wakes_stay_waiting exampleWakes EmptyString); by vm_compute.
Defined.

(** A request is served in time. After a request the timer is due no later
    than the larger of the request's delay and the retry cool-down of one second,
    at a clock that never runs backwards; and a retry cool-down that was armed is
    never cut short by a request. *)
Lemma request_wakes_in_time inputs now reason coalesceMs agentId sessionKey :
  let r := (now, Request reason coalesceMs agentId sessionKey) in
  clocked 0 (inputs ++ [r]) →
  let s0 := steps initState inputs in
  let s := step s0 r in
  let delay := match coalesceMs with Some (Some d) => Z.max 0 d | _ => DEFAULT_COALESCE_MS end in
  pending s (getWakeTargetKey agentId sessionKey) ∧
  (∃ t, timer s = Some t ∧ timerDueAt t <= now + Z.max delay DEFAULT_RETRY_MS) ∧
  (∀ t, timer s0 = Some t → timerKind t = RetryTimer → timer s = Some t).
Proof.
  intros r Hc s0 s delay.
  assert (timely now s0) as Ht by (apply (timely_steps 0 initState inputs r); [done|by apply timely_no_timer]).
  assert (base s0) as Hb by apply inv_steps, inv_init. clearbody s0.
  set (s1 := emit (queuePendingWakeReason s0 reason agentId sessionKey now) (Requested (getWakeTargetKey agentId sessionKey) now)).
  assert (s = schedule s1 (coalesceMs ?? Some DEFAULT_COALESCE_MS) NormalTimer now) as Es by done. clearbody s. subst s.
  split; [|split].
  - edestruct schedule_spec as [t ->]. apply (pending_queued s0 reason agentId sessionKey now Hb).
  - unfold schedule. change (timer s1) with (timer s0).
    assert ((Z.max 0 <$> (coalesceMs ?? Some DEFAULT_COALESCE_MS)) ?? DEFAULT_COALESCE_MS = delay) as ->
      by (by destruct coalesceMs as [[d|]|]).
    destruct (timer s0) as [t|] eqn:Et; [|eexists; split; [done|cbn; lia]].
    destruct (bool_decide _) eqn:Ek.
    { apply bool_decide_eq_true in Ek. exists t. destruct (Ht t Et Ek). split; [done|lia]. }
    destruct (_ <=? _) eqn:El; [exists t|eexists]; (split; [done|]); cbn; lia.
  - intros t Et Ek. unfold schedule. change (timer s1) with (timer s0). rewrite Et, bool_decide_true by done. done.
Qed.

Lemma request_wakes_in_time_witness :
  ∃ t, timer (step (steps initState exampleWakes) (40, Request None (Some (Some 0)) None None)) = Some t ∧
       timerKind t = RetryTimer ∧ timerDueAt t <= 40 + 1000.
Proof.
  assert (clocked 0 (exampleWakes ++ [(40, Request None (Some (Some 0)) None None)])) as Hc by (cbn; lia).
  destruct (request_wakes_in_time exampleWakes 40 None (Some (Some 0)) None None Hc) as (_ & (t & Ht & Hd) & _).
  exists t. split; [exact Ht|]. split; [|exact Hd].
  vm_compute in Ht. injection Ht as <-. reflexivity.
Defined.

(** Of the requests for one target that were made since it was last handed
    over, the kept one is the strongest: no other has a higher priority, and none as
    high was made later. *)
Lemma kept_wake_is_strongest agentId sessionKey reqs :
  reqs ≠ [] →
  let s := fold_left (λ s r, requestHeartbeatNow s r.1 None agentId sessionKey r.2) reqs initState in
  ∃ w, oget (pendingWakes s) (getWakeTargetKey agentId sessionKey) = Some w ∧
       strongest w (map (wakeOf agentId sessionKey) reqs).
Proof.
  intros Hne s.
  destruct (queue_strongest agentId sessionKey reqs [] []) as (w & Hw & Hs); [done..|].
  exists w. split; [|done]. unfold s. by rewrite pending_requests.
Qed.

Lemma kept_wake_is_strongest_witness :
  ∃ w, strongest w (map (wakeOf (Some "main") None) [(Some "manual", 0); (Some "interval", 5); (None, 9)]) ∧
       w_reason w = "manual".
Proof.
  destruct (kept_wake_is_strongest (Some "main") None [(Some "manual", 0); (Some "interval", 5); (None, 9)])
    as (w & Hw & Hs); [discriminate|].
  exists w. split; [exact Hs|]. vm_compute in Hw. injection Hw as <-. reflexivity.
Defined.

(** One batch at a time: as long as no new handler is registered, at most one
    batch of wakes is being handed over, and [running] says whether one is. *)
Lemma batches_never_overlap s inputs :
  batches s = [] → running s = false → Forall noNewHandler inputs →
  let s' := steps s inputs in
  (osize (batches s') <= 1)%nat ∧ running s' = negb (osize (batches s') =? 0)%nat.
Proof.
  intros Hb Hr Hq s'. assert (single s') as [[E1 E2]|(id & b & E1 & E2)]; [by apply single_steps; [|left]| |];
    rewrite E1, E2; cbn; by split; [lia|].
Qed.

Lemma batches_never_overlap_witness :
  let s := steps (setHeartbeatWakeHandler initState (Some 1%nat) 0) (tail exampleWakes) in
  running s = true ∧ (osize (batches s) <= 1)%nat.
Proof.
  intros s. split; [by vm_compute|].
  apply (batches_never_overlap (setHeartbeatWakeHandler initState (Some 1%nat) 0) (tail exampleWakes));
    [reflexivity|reflexivity|]. repeat constructor; discriminate.
Defined.

(** The restriction is needed. A batch that was running when a new handler was
    registered resets [running] when it ends; if the new handler is then handling a
    batch, the next timer hands it a second one at the same time. *)
Definition overlapInputs : list (Z * Input) :=
  [(0, SetHandler (Some 1%nat)); (0, Request None None (Some "a") None); (250, TimerFires);
   (300, SetHandler (Some 2%nat)); (300, Request None None (Some "b") None); (550, TimerFires);
   (560, HandlerReturns 0%nat (HeartbeatRan 310)); (600, Request None None (Some "c") None); (850, TimerFires)].

Lemma stale_batch_lets_batches_overlap :
  let s := steps initState overlapInputs in
  handler s = Some 2%nat ∧ okeys (batches s) = [1; 2]%nat ∧ Forall (λ b, b_active b = 2%nat) (ovalues (batches s)).
Proof. vm_compute. repeat constructor. Qed.

End HeartbeatWake.
