(* ===== verification/CronTypes.v ===== *)
(** * Cron jobs: src/cron/types.ts, src/cron/types-shared.ts

    The data of the scheduler. Timestamps and durations that the scheduler
    computes are integers of milliseconds (the code floors or reads a clock); a
    field that a caller or a stored file supplies keeps its raw value. A patch
    field that the code tests with [in] is an option of an option. *)

From S2P Require Import Prelude JsNumber.

Module CronTypes.
Import JsNumber.

(** [atMs] is the legacy field of a one-shot schedule: a number or a string. *)
Inductive CronSchedule :=
| SAt (at_ : option string) (atMs : option (Z + string))
| SEvery (everyMs anchorMs : RawNumber)
| SCron (expr cron tz : option string) (staggerMs : RawNumber).

Definition is_at (s : CronSchedule) : bool := match s with SAt _ _ => true | _ => false end.
Definition is_every (s : CronSchedule) : bool := match s with SEvery _ _ => true | _ => false end.
Definition is_cron (s : CronSchedule) : bool := match s with SCron _ _ _ _ => true | _ => false end.

Inductive CronWakeMode := WakeNextHeartbeat | WakeNow.
#[export] Instance CronWakeMode_eq_dec : EqDecision CronWakeMode.
Proof. solve_decision. Defined.

(** ["none"], ["announce"] or ["webhook"]; a stored job may hold another string. *)
Definition CronDeliveryMode := string.

Record CronFailureDestination := mkFailureDest {
  fd_channel : option string;
  fd_to : option string;
  fd_accountId : option string;
  fd_mode : option CronDeliveryMode;
}.

(** [threadId] is a string or a number. *)
Record CronDelivery := mkDelivery {
  d_mode : option CronDeliveryMode;
  d_channel : option string;
  d_to : option string;
  d_threadId : option (num + string);
  d_accountId : option string;
  d_bestEffort : option bool;
  d_failureDestination : option CronFailureDestination;
}.

Inductive CronRunStatus := StatusOk | StatusError | StatusSkipped.
#[export] Instance CronRunStatus_eq_dec : EqDecision CronRunStatus.
Proof. solve_decision. Defined.

Inductive CronDeliveryStatus := Delivered | NotDelivered | DeliveryUnknown | NotRequested.
#[export] Instance CronDeliveryStatus_eq_dec : EqDecision CronDeliveryStatus.
Proof. solve_decision. Defined.

(** [CronFailureAlert | false]. *)
Record CronFailureAlert := mkFailureAlert {
  fa_after : option num;
  fa_channel : option string;
  fa_to : option string;
  fa_cooldownMs : option num;
  fa_mode : option CronDeliveryMode;
  fa_accountId : option string;
}.

Inductive FailureAlertField := AlertFalse | AlertConfig (a : CronFailureAlert).

Record AgentTurn := mkAgentTurn {
  at_message : string;
  at_model : option string;
  at_fallbacks : option (list string);
  at_thinking : option string;
  at_timeoutSeconds : option num;
  at_allowUnsafeExternalContent : option bool;
  at_externalContentSource : option string;
  at_lightContext : option bool;
  at_toolsAllow : option (list string);
}.

Inductive CronPayload :=
| SystemEvent (text : string)
| AgentTurnPayload (t : AgentTurn).

Definition is_systemEvent (p : CronPayload) : bool :=
  match p with SystemEvent _ => true | _ => false end.
Definition is_agentTurn (p : CronPayload) : bool :=
  match p with AgentTurnPayload _ => true | _ => false end.

Record CronJobState := mkJobState {
  nextRunAtMs : option Z;
  runningAtMs : option Z;
  lastRunAtMs : option Z;
  lastRunStatus : option CronRunStatus;
  lastStatus : option CronRunStatus;
  lastError : option string;
  lastErrorReason : option string;
  lastDurationMs : option Z;
  consecutiveErrors : option Z;
  lastFailureAlertAtMs : option Z;
  scheduleErrorCount : option Z;
  lastDeliveryStatus : option CronDeliveryStatus;
  lastDeliveryError : option string;
  lastDelivered : option bool;
}.

Definition emptyJobState : CronJobState :=
  mkJobState None None None None None None None None None None None None None None.

Record CronJob := mkJob {
  job_id : string;
  job_agentId : option string;
  job_sessionKey : option string;
  job_name : string;
  job_description : option string;
  job_enabled : bool;
  job_deleteAfterRun : option bool;
  job_createdAtMs : Z;
  job_updatedAtMs : Z;
  job_schedule : CronSchedule;
  job_sessionTarget : string;
  job_wakeMode : CronWakeMode;
  job_payload : CronPayload;
  job_delivery : option CronDelivery;
  job_failureAlert : option FailureAlertField;
  job_state : CronJobState;
}.

(** [CronJobCreate]; [name] is [None] when it is not a string. *)
Record CronJobCreate := mkCreate {
  ci_agentId : option string;
  ci_sessionKey : option string;
  ci_name : option string;
  ci_description : option string;
  ci_enabled : option bool;
  ci_deleteAfterRun : option bool;
  ci_schedule : CronSchedule;
  ci_sessionTarget : string;
  ci_wakeMode : CronWakeMode;
  ci_payload : CronPayload;
  ci_delivery : option CronDelivery;
  ci_failureAlert : option FailureAlertField;
  ci_state : CronJobState;
}.

Record AgentTurnPatch := mkAgentTurnPatch {
  ap_message : option string;
  ap_model : option string;
  ap_fallbacks : option (list string);
  ap_thinking : option string;
  ap_timeoutSeconds : option num;
  ap_allowUnsafeExternalContent : option bool;
  ap_lightContext : option bool;
  ap_toolsAllow : option (option (list string)); (* [Some None] is [null] *)
}.

Inductive CronPayloadPatch :=
| SystemEventPatch (text : option string)
| AgentTurnPatchPayload (t : AgentTurnPatch).

(** Failure destination patch: each field tested with [in]; [mode] is raw. *)
Record FailureDestPatch := mkFailureDestPatch {
  fp_channel : option (option string);
  fp_to : option (option string);
  fp_accountId : option (option string);
  fp_mode : option (option string);
}.

(** [failureDestination] is absent, [undefined], or a patch; [null] as a patch
    without fields. *)
Record CronDeliveryPatch := mkDeliveryPatch {
  dp_mode : option string;
  dp_channel : option (option string);
  dp_to : option (option string);
  dp_threadId : option (option (num + string));
  dp_accountId : option (option string);
  dp_bestEffort : option bool;
  dp_failureDestination : option (option FailureDestPatch);
}.

Record FailureAlertPatch := mkFailureAlertPatch {
  lp_after : option (option num);
  lp_channel : option (option string);
  lp_to : option (option string);
  lp_cooldownMs : option (option num);
  lp_mode : option (option string);
  lp_accountId : option (option string);
}.

Inductive FailureAlertPatchField := PatchAlertFalse | PatchAlert (p : FailureAlertPatch).

(** Each field of [patch.state] that is present replaces the job's. *)
Record JobStatePatch := mkJobStatePatch {
  sp_nextRunAtMs : option (option Z);
  sp_runningAtMs : option (option Z);
  sp_lastRunAtMs : option (option Z);
  sp_lastRunStatus : option (option CronRunStatus);
  sp_lastStatus : option (option CronRunStatus);
  sp_lastError : option (option string);
  sp_lastErrorReason : option (option string);
  sp_lastDurationMs : option (option Z);
  sp_consecutiveErrors : option (option Z);
  sp_lastFailureAlertAtMs : option (option Z);
  sp_scheduleErrorCount : option (option Z);
  sp_lastDeliveryStatus : option (option CronDeliveryStatus);
  sp_lastDeliveryError : option (option string);
  sp_lastDelivered : option (option bool);
}.

Record CronJobPatch := mkPatch {
  p_name : option (option string);
  p_description : option (option string);
  p_enabled : option bool;
  p_deleteAfterRun : option bool;
  p_schedule : option CronSchedule;
  p_sessionTarget : option string;
  p_wakeMode : option CronWakeMode;
  p_payload : option CronPayloadPatch;
  p_delivery : option CronDeliveryPatch;
  p_failureAlert : option (option FailureAlertPatchField);
  p_state : option JobStatePatch;
  p_agentId : option (option string);
  p_sessionKey : option (option string);
}.

(** ** Field updates *)

Definition set_state (j : CronJob) (s : CronJobState) : CronJob :=
  mkJob (job_id j) (job_agentId j) (job_sessionKey j) (job_name j) (job_description j)
    (job_enabled j) (job_deleteAfterRun j) (job_createdAtMs j) (job_updatedAtMs j)
    (job_schedule j) (job_sessionTarget j) (job_wakeMode j) (job_payload j) (job_delivery j)
    (job_failureAlert j) s.

Definition set_enabled (j : CronJob) (b : bool) : CronJob :=
  mkJob (job_id j) (job_agentId j) (job_sessionKey j) (job_name j) (job_description j)
    b (job_deleteAfterRun j) (job_createdAtMs j) (job_updatedAtMs j)
    (job_schedule j) (job_sessionTarget j) (job_wakeMode j) (job_payload j) (job_delivery j)
    (job_failureAlert j) (job_state j).

Definition set_schedule (j : CronJob) (s : CronSchedule) : CronJob :=
  mkJob (job_id j) (job_agentId j) (job_sessionKey j) (job_name j) (job_description j)
    (job_enabled j) (job_deleteAfterRun j) (job_createdAtMs j) (job_updatedAtMs j)
    s (job_sessionTarget j) (job_wakeMode j) (job_payload j) (job_delivery j)
    (job_failureAlert j) (job_state j).

Definition set_updatedAtMs (j : CronJob) (t : Z) : CronJob :=
  mkJob (job_id j) (job_agentId j) (job_sessionKey j) (job_name j) (job_description j)
    (job_enabled j) (job_deleteAfterRun j) (job_createdAtMs j) t
    (job_schedule j) (job_sessionTarget j) (job_wakeMode j) (job_payload j) (job_delivery j)
    (job_failureAlert j) (job_state j).

Definition set_delivery (j : CronJob) (d : option CronDelivery) : CronJob :=
  mkJob (job_id j) (job_agentId j) (job_sessionKey j) (job_name j) (job_description j)
    (job_enabled j) (job_deleteAfterRun j) (job_createdAtMs j) (job_updatedAtMs j)
    (job_schedule j) (job_sessionTarget j) (job_wakeMode j) (job_payload j) d
    (job_failureAlert j) (job_state j).

(** Updates of the run state. *)
Definition st_nextRun (s : CronJobState) (v : option Z) : CronJobState :=
  mkJobState v (runningAtMs s) (lastRunAtMs s) (lastRunStatus s) (lastStatus s) (lastError s)
    (lastErrorReason s) (lastDurationMs s) (consecutiveErrors s) (lastFailureAlertAtMs s)
    (scheduleErrorCount s) (lastDeliveryStatus s) (lastDeliveryError s) (lastDelivered s).

Definition st_running (s : CronJobState) (v : option Z) : CronJobState :=
  mkJobState (nextRunAtMs s) v (lastRunAtMs s) (lastRunStatus s) (lastStatus s) (lastError s)
    (lastErrorReason s) (lastDurationMs s) (consecutiveErrors s) (lastFailureAlertAtMs s)
    (scheduleErrorCount s) (lastDeliveryStatus s) (lastDeliveryError s) (lastDelivered s).

Definition st_lastRun (s : CronJobState) (v : option Z) : CronJobState :=
  mkJobState (nextRunAtMs s) (runningAtMs s) v (lastRunStatus s) (lastStatus s) (lastError s)
    (lastErrorReason s) (lastDurationMs s) (consecutiveErrors s) (lastFailureAlertAtMs s)
    (scheduleErrorCount s) (lastDeliveryStatus s) (lastDeliveryError s) (lastDelivered s).

Definition st_lastError (s : CronJobState) (v : option string) : CronJobState :=
  mkJobState (nextRunAtMs s) (runningAtMs s) (lastRunAtMs s) (lastRunStatus s) (lastStatus s) v
    (lastErrorReason s) (lastDurationMs s) (consecutiveErrors s) (lastFailureAlertAtMs s)
    (scheduleErrorCount s) (lastDeliveryStatus s) (lastDeliveryError s) (lastDelivered s).

Definition st_errorCount (s : CronJobState) (v : option Z) : CronJobState :=
  mkJobState (nextRunAtMs s) (runningAtMs s) (lastRunAtMs s) (lastRunStatus s) (lastStatus s)
    (lastError s) (lastErrorReason s) (lastDurationMs s) (consecutiveErrors s)
    (lastFailureAlertAtMs s) v (lastDeliveryStatus s) (lastDeliveryError s) (lastDelivered s).

Definition st_consecutive (s : CronJobState) (errors alertAt : option Z) : CronJobState :=
  mkJobState (nextRunAtMs s) (runningAtMs s) (lastRunAtMs s) (lastRunStatus s) (lastStatus s)
    (lastError s) (lastErrorReason s) (lastDurationMs s) errors alertAt
    (scheduleErrorCount s) (lastDeliveryStatus s) (lastDeliveryError s) (lastDelivered s).

(** [job.state.nextRunAtMs = v] and the like, on the job. *)
Definition set_nextRun (j : CronJob) (v : option Z) : CronJob :=
  set_state j (st_nextRun (job_state j) v).
Definition set_running (j : CronJob) (v : option Z) : CronJob :=
  set_state j (st_running (job_state j) v).

(** ** Effects on the services the scheduler calls *)

(** The text of a system event; the notice of an automatic disable is kept
    structured because it contains characters above code unit 255. *)
Inductive EventText :=
| PlainText (s : string)
| AutoDisabledNotice (name : string) (errorCount : Z) (errText : string).

Inductive CronEffect :=
| EnqueueSystemEvent (text : EventText) (agentId sessionKey contextKey : option string)
| RequestHeartbeatNow (reason : string) (agentId sessionKey : option string)
| SendCronFailureAlert (jobId text channel : string) (to : option string)
    (mode : option CronDeliveryMode) (accountId : option string)
| EmitStarted (jobId : string) (runAtMs : Z)
| EmitFinished (jobId : string) (status : CronRunStatus) (error summary : option string)
    (delivered : option bool) (deliveryStatus : option CronDeliveryStatus)
    (deliveryError : option string) (runAtMs : Z) (durationMs nextRun : option Z)
| EmitAdded (jobId : string) (nextRun : option Z)
| EmitUpdated (jobId : string) (nextRun : option Z)
| EmitRemoved (jobId : string)
| CompleteTaskRun (runId : string) (endedAt : Z) (summary : option string)
| FailTaskRun (runId : string) (timedOut : bool) (endedAt : Z) (error summary : option string).

End CronTypes.
