(* ===== verification/CronSchedule.v ===== *)
(** * Cron schedules: src/cron/schedule.ts, parse.ts, stagger.ts

    The next and the previous run of a schedule, and the stagger window of cron
    expressions. The evaluation of cron expressions is the croner package's and
    enters as an interface. *)

From Stdlib Require Import Ascii.
From S2P Require Import Prelude OMap JsNumber CronTypes.

(** ** What the scheduler calls

    [Date.parse] (implementation-defined outside ISO formats), the croner
    package, the process time zone, SHA-256 and the [URL] parser. A croner call
    may throw; [nextRun] returns [null] or a date, whose time may be NaN. *)
Class CronEnv := {
  Date_parse : string → option Z;
  Cron : Type;
  new_Cron : string → string → result Cron;
  cron_nextRun : Cron → Z → result (option (option Z));
  cron_previousRuns : Cron → Z → result (list (option Z));
  local_timeZone : string;
  sha256_readUInt32BE : string → Z;
  URL_protocol : string → option string;
}.

(** SHA-256 digests are read as unsigned 32-bit integers. *)
Class CronEnvLaws `{CronEnv} := {
  sha256_range s : 0 <= sha256_readUInt32BE s < 2 ^ 32;
}.

Module CronSchedule.
Import StringCoerce JsNumber CronTypes.

(** ** parse.ts *)

Definition is_digit_char (c : Ascii.ascii) : bool :=
  let n := Ascii.N_of_ascii c in ((48 <=? n) && (n <=? 57))%N%bool.

(** [take_digits k s]: [s] without [k] leading digits, if it has them. *)
Fixpoint drop_digits (k : nat) (s : string) : option string :=
  match k, s with
  | O, _ => Some s
  | S k', String c r => if is_digit_char c then drop_digits k' r else None
  | S _, EmptyString => None
  end.

Definition drop_char (c : Ascii.ascii) (s : option string) : option string :=
  match s with
  | Some (String d r) => if Ascii.eqb c d then Some r else None
  | _ => None
  end.

(** [YYYY-MM-DD] at the start of [s]: what follows. *)
Definition drop_date (s : string) : option string :=
  drop_char "-" (drop_digits 4 s) ≫= λ r1,
  drop_char "-" (drop_digits 2 r1) ≫= λ r2, drop_digits 2 r2.

(** A suffix of [s] is [Z] or [+-hh:mm] (the colon optional): [ISO_TZ_RE]. *)
Definition is_tz_suffix (s : string) : bool :=
  match s with
  | String c EmptyString => Ascii.eqb c "Z" || Ascii.eqb c "z"
  | String c r =>
      (Ascii.eqb c "+" || Ascii.eqb c "-") &&
      match drop_digits 2 r with
      | Some (String d r2) =>
          let r3 := if Ascii.eqb d ":" then r2 else String d r2 in
          match drop_digits 2 r3 with Some EmptyString => true | _ => false end
      | _ => false
      end
  | EmptyString => false
  end.

Fixpoint ISO_TZ_RE (s : string) : bool :=
  is_tz_suffix s || match s with EmptyString => false | String _ r => ISO_TZ_RE r end.

Definition ISO_DATE_RE (s : string) : bool :=
  match drop_date s with Some EmptyString => true | _ => false end.

Definition ISO_DATE_TIME_RE (s : string) : bool :=
  match drop_date s with Some (String c _) => Ascii.eqb c "T" | _ => false end.

Definition normalizeUtcIso (raw : string) : string :=
  if ISO_TZ_RE raw then raw
  else if ISO_DATE_RE raw then raw +:+ "T00:00:00Z"
  else if ISO_DATE_TIME_RE raw then raw +:+ "Z"
  else raw.

(** [/^\d+$/.test(raw)] *)
Definition all_digits (s : string) : bool := str_truthy s && str_all is_digit_char s.

Section env.
Context `{CronEnv}.

Definition parseAbsoluteTimeMs (input : string) : option Z :=
  let raw := trim input in
  match raw with
  | EmptyString => None
  | _ =>
      let digits :=
        if all_digits raw then
          match to_number raw with
          | Fin q => if negb (Qle_bool q 0) then Some (floorQ q) else None
          | _ => None
          end
        else None in
      match digits with
      | Some n => Some n
      | None => Date_parse (normalizeUtcIso raw)
      end
  end.

(** ** schedule.ts *)

Definition CRON_EVAL_CACHE_MAX : nat := 512.

Definition resolveCronTimezone (tz : option string) : string :=
  match normalizeOptionalString tz ?? EmptyString with
  | EmptyString => local_timeZone
  | trimmed => trimmed
  end.

Definition nul : string := String Ascii.zero EmptyString.
Definition evalCacheKey (expr timezone : string) : string := timezone +:+ nul +:+ expr.

(** [resolveCachedCron] with its cache: the oldest entry is evicted before the
    construction, which may throw. *)
Definition resolveCachedCronM (cache : omap string Cron) (expr timezone : string)
    : result Cron * omap string Cron :=
  let key := evalCacheKey expr timezone in
  match oget cache key with
  | Some cached => (Ok cached, cache)
  | None =>
      let cache1 :=
        if (CRON_EVAL_CACHE_MAX <=? osize cache)%nat then
          match okeys cache with
          | (String _ _ as oldest) :: _ => odel cache oldest
          | _ => cache
          end
        else cache in
      match new_Cron expr timezone with
      | Ok next => (Ok next, oset cache1 key next)
      | Throw e => (Throw e, cache1)
      end
  end.

(** What it returns: [cron_cache_transparent] shows the cache does not matter. *)
Definition resolveCachedCron (expr timezone : string) : result Cron := new_Cron expr timezone.

(** [String(new Error(message))] *)
Definition ErrorText (message : string) : string := "Error: " +:+ message.

Definition resolveCronFromSchedule (expr cron tz : option string) : result (option Cron) :=
  match (match expr with Some e => Some e | None => cron end) with
  | None => Throw (ErrorText "invalid cron schedule: expr is required")
  | Some exprSource =>
      match trim exprSource with
      | EmptyString => Ok None
      | e => let! c := resolveCachedCron e (resolveCronTimezone tz) in Ok (Some c)
      end
  end.

Definition coerceFiniteScheduleNumber (value : RawNumber) : option Q :=
  match value with
  | VNum n => finite_num n
  | VStr s =>
      match trim s with
      | EmptyString => None
      | trimmed => finite_num (to_number trimmed)
      end
  | VOther => None
  end.

(** The time of a one-shot schedule, canonical or legacy. *)
Definition scheduleAtMs (at_ : option string) (atMs : option (Z + string)) : option Z :=
  match atMs with
  | Some (inl z) =>
      if 0 <? z then Some z
      else match at_ with Some s => parseAbsoluteTimeMs s | None => None end
  | Some (inr s) => parseAbsoluteTimeMs s
  | None => match at_ with Some s => parseAbsoluteTimeMs s | None => None end
  end.

(** [next?.getTime()], when finite. *)
Definition dateMs (d : option (option Z)) : option Z := match d with Some t => t | None => None end.

Definition nextSecond (nowMs : Z) : Z := nowMs / 1000 * 1000 + 1000.

(** [new Date(nowMs).setUTCHours(24, 0, 0, 0)] *)
Definition MS_PER_DAY : Z := 86400000.
Definition tomorrowUtc (nowMs : Z) : Z := (nowMs / MS_PER_DAY + 1) * MS_PER_DAY.

Definition nextCronRun (cron : Cron) (nowMs : Z) : result (option Z) :=
  let! next := cron_nextRun cron nowMs in
  match dateMs next with
  | None => Ok None
  | Some nextMs =>
      if nextMs <=? nowMs then
        let! retry := cron_nextRun cron (nextSecond nowMs) in
        match dateMs retry with
        | Some retryMs =>
            if nowMs <? retryMs then Ok (Some retryMs)
            else
              let! retry2 := cron_nextRun cron (tomorrowUtc nowMs) in
              match dateMs retry2 with
              | Some retry2Ms => if nowMs <? retry2Ms then Ok (Some retry2Ms) else Ok None
              | None => Ok None
              end
        | None =>
            let! retry2 := cron_nextRun cron (tomorrowUtc nowMs) in
            match dateMs retry2 with
            | Some retry2Ms => if nowMs <? retry2Ms then Ok (Some retry2Ms) else Ok None
            | None => Ok None
            end
        end
      else Ok (Some nextMs)
  end.

(** The [every] branch, from the coerced numbers. *)
Definition nextEveryRun (everyMs anchor nowMs : Z) : Z :=
  if nowMs <? anchor then anchor
  else
    let elapsed := nowMs - anchor in
    let steps := Z.max 1 ((elapsed + everyMs - 1) / everyMs) in
    anchor + steps * everyMs.

Definition computeNextRunAtMs (schedule : CronSchedule) (nowMs : Z) : result (option Z) :=
  match schedule with
  | SAt at_ legacy =>
      match scheduleAtMs at_ legacy with
      | None => Ok None
      | Some atMs => Ok (if nowMs <? atMs then Some atMs else None)
      end
  | SEvery everyMs anchorMs =>
      match coerceFiniteScheduleNumber everyMs with
      | None => Ok None
      | Some everyMsRaw =>
          let every := Z.max 1 (floorQ everyMsRaw) in
          let anchor := Z.max 0 (match coerceFiniteScheduleNumber anchorMs with
                                 | Some a => floorQ a | None => nowMs end) in
          Ok (Some (nextEveryRun every anchor nowMs))
      end
  | SCron expr cron tz _ =>
      let! c := resolveCronFromSchedule expr cron tz in
      match c with
      | None => Ok None
      | Some c => nextCronRun c nowMs
      end
  end.

Definition computePreviousRunAtMs (schedule : CronSchedule) (nowMs : Z) : result (option Z) :=
  match schedule with
  | SCron expr cron tz _ =>
      let! c := resolveCronFromSchedule expr cron tz in
      match c with
      | None => Ok None
      | Some c =>
          let! previousRuns := cron_previousRuns c nowMs in
          match previousRuns with
          | Some previousMs :: _ => Ok (if nowMs <=? previousMs then None else Some previousMs)
          | _ => Ok None
          end
      end
  | _ => Ok None
  end.

End env.

(** ** stagger.ts *)

Definition DEFAULT_TOP_OF_HOUR_STAGGER_MS : Z := 5 * 60 * 1000.

(** [expr.trim().split(/\s+/).filter(Boolean)] *)
Fixpoint words (word : string) (s : string) : list string :=
  match s with
  | EmptyString => if str_truthy word then [word] else []
  | String c r =>
      if is_ws c then (if str_truthy word then [word] else []) ++ words EmptyString r
      else words (word +:+ String c EmptyString) r
  end.

Definition parseCronFields (expr : string) : list string := words EmptyString (trim expr).

Definition isRecurringTopOfHourCronExpr (expr : string) : bool :=
  match parseCronFields expr with
  | [minuteField; hourField; _; _; _] => String.eqb minuteField "0" && includes hourField "*"
  | [secondField; minuteField; hourField; _; _; _] =>
      String.eqb secondField "0" && String.eqb minuteField "0" && includes hourField "*"
  | _ => false
  end.

Definition normalizeCronStaggerMs (raw : RawNumber) : option Z :=
  let numeric :=
    match raw with
    | VNum n => n
    | VStr s => if str_truthy (trim s) then to_number s else NaN
    | VOther => NaN
    end in
  (λ q, Z.max 0 (floorQ q)) <$> finite_num numeric.

Definition resolveDefaultCronStaggerMs (expr : string) : option Z :=
  if isRecurringTopOfHourCronExpr expr then Some DEFAULT_TOP_OF_HOUR_STAGGER_MS else None.

Definition resolveCronStaggerMs (expr : option string) (staggerMs : RawNumber) : Z :=
  match normalizeCronStaggerMs staggerMs with
  | Some explicit => explicit
  | None => resolveDefaultCronStaggerMs (expr ?? EmptyString) ?? 0
  end.

(** ** jobs.ts: the per-job offset *)

Definition STAGGER_OFFSET_CACHE_MAX : nat := Z.to_nat 4096.

Section stagger.
Context `{CronEnv}.

Definition stableOffset (jobId : string) (staggerMs : Z) : Z :=
  sha256_readUInt32BE jobId mod staggerMs.

(** [`${staggerMs}:${jobId}`] *)
Definition staggerCacheKey (jobId : string) (staggerMs : Z) : string :=
  pretty staggerMs +:+ ":" +:+ jobId.

(** [resolveStableCronOffsetMs] with its cache. *)
Definition resolveStableCronOffsetMsM (cache : omap string Z) (jobId : string) (staggerMs : Z)
    : Z * omap string Z :=
  if staggerMs <=? 1 then (0, cache)
  else
    let cacheKey := staggerCacheKey jobId staggerMs in
    match oget cache cacheKey with
    | Some cached => (cached, cache)
    | None =>
        let offset := stableOffset jobId staggerMs in
        let cache1 :=
          if (STAGGER_OFFSET_CACHE_MAX <=? osize cache)%nat then
            match okeys cache with first :: _ => odel cache first | [] => cache end
          else cache in
        (offset, oset cache1 cacheKey offset)
    end.

Definition resolveStableCronOffsetMs (jobId : string) (staggerMs : Z) : Z :=
  if staggerMs <=? 1 then 0 else stableOffset jobId staggerMs.

(** The loop of [computeStaggeredCronNextRunAtMs], [fuel] attempts left. *)
Fixpoint staggeredNextLoop (fuel : nat) (schedule : CronSchedule) (offsetMs nowMs cursorMs : Z)
    : result (option Z) :=
  match fuel with
  | O => Ok None
  | S fuel' =>
      let! r := computeNextRunAtMs schedule cursorMs in
      match r with
      | None => Ok None
      | Some baseNext =>
          let shifted := baseNext + offsetMs in
          if nowMs <? shifted then Ok (Some shifted)
          else staggeredNextLoop fuel' schedule offsetMs nowMs
                 (Z.max (cursorMs + 1) (baseNext + 1000))
      end
  end.

Definition computeStaggeredCronNextRunAtMs (jobId : string) (schedule : CronSchedule) (nowMs : Z)
    : result (option Z) :=
  match schedule with
  | SCron expr _ _ staggerRaw =>
      let staggerMs := resolveCronStaggerMs expr staggerRaw in
      let offsetMs := resolveStableCronOffsetMs jobId staggerMs in
      if offsetMs <=? 0 then computeNextRunAtMs schedule nowMs
      else staggeredNextLoop 4 schedule offsetMs nowMs (Z.max 0 (nowMs - offsetMs))
  | _ => computeNextRunAtMs schedule nowMs
  end.

Fixpoint staggeredPreviousLoop (fuel : nat) (schedule : CronSchedule)
    (offsetMs nowMs cursorMs : Z) : result (option Z) :=
  match fuel with
  | O => Ok None
  | S fuel' =>
      let! r := computePreviousRunAtMs schedule cursorMs in
      match r with
      | None => Ok None
      | Some basePrevious =>
          let shifted := basePrevious + offsetMs in
          if shifted <=? nowMs then Ok (Some shifted)
          else staggeredPreviousLoop fuel' schedule offsetMs nowMs (Z.max 0 (basePrevious - 1000))
      end
  end.

Definition computeStaggeredCronPreviousRunAtMs (jobId : string) (schedule : CronSchedule)
    (nowMs : Z) : result (option Z) :=
  match schedule with
  | SCron expr _ _ staggerRaw =>
      let staggerMs := resolveCronStaggerMs expr staggerRaw in
      let offsetMs := resolveStableCronOffsetMs jobId staggerMs in
      if offsetMs <=? 0 then computePreviousRunAtMs schedule nowMs
      else staggeredPreviousLoop 4 schedule offsetMs nowMs (Z.max 0 (nowMs - offsetMs))
  | _ => Ok None
  end.

End stagger.

(** ** Every-schedules *)

(** The runs of an every-schedule: [anchor], [anchor + every], ... *)
Definition on_grid (every anchor t : Z) : Prop := ∃ k, 0 <= k ∧ t = anchor + k * every.

Lemma nextEveryRun_spec every anchor now :
  1 <= every →
  let n := nextEveryRun every anchor now in
  on_grid every anchor n ∧ now <= n ∧ (anchor <= now → anchor < n) ∧
  ∀ t, on_grid every anchor t → now <= t → (anchor <= now → anchor < t) → n <= t.
Proof.
  intros He n. subst n. unfold nextEveryRun. destruct (Z.ltb_spec now anchor) as [Hlt|Hge].
  - split; [exists 0; lia|]. split; [lia|]. split; [lia|]. intros t (k & Hk & ->) _ _. nia.
  - set (q := (now - anchor + every - 1) / every).
    assert (every * q <= now - anchor + every - 1 < every * q + every) as Hq.
    { subst q. pose proof (Z.div_mod (now - anchor + every - 1) every ltac:(lia)).
      pose proof (Z.mod_pos_bound (now - anchor + every - 1) every ltac:(lia)). lia. }
    split; [exists (Z.max 1 q); lia|]. split; [nia|]. split; [intros _; nia|].
    intros t (k & Hk & ->) Ht Hgt. specialize (Hgt Hge).
    assert (1 <= k) by nia. assert (q <= k) by nia. nia.
Qed.

Lemma nextEveryRun_gap every anchor now :
  1 <= every → anchor <= now → nextEveryRun every anchor now - now <= every.
Proof.
  intros He Ha. unfold nextEveryRun. destruct (Z.ltb_spec now anchor); [lia|].
  pose proof (Z.div_mod (now - anchor + every - 1) every ltac:(lia)).
  pose proof (Z.mod_pos_bound (now - anchor + every - 1) every ltac:(lia)). nia.
Qed.

(** ** Cron expressions *)

Section cron_laws.
Context `{CronEnv}.

Lemma nextCronRun_future c now n : nextCronRun c now = Ok (Some n) → now < n.
Proof.
  unfold nextCronRun, result_bind. intros Hn.
  repeat case_match; simplify_eq; lia.
Qed.

Lemma computeNextRunAtMs_future s now n :
  is_every s = false → computeNextRunAtMs s now = Ok (Some n) → now < n.
Proof.
  destruct s as [at_ legacy|every anchor|expr cr tz stagger]; intros Hs; [|done|]; simpl.
  - intros Hn. repeat case_match; simplify_eq; lia.
  - unfold result_bind. intros Hn. repeat case_match; simplify_eq.
    by eapply nextCronRun_future.
Qed.

Lemma computePreviousRunAtMs_past s now n : computePreviousRunAtMs s now = Ok (Some n) → n < now.
Proof.
  destruct s; simpl; try done. unfold result_bind. intros Hn. repeat case_match; simplify_eq; lia.
Qed.

Lemma stableOffset_range `{!CronEnvLaws} jobId staggerMs :
  0 <= resolveStableCronOffsetMs jobId staggerMs < Z.max 1 staggerMs.
Proof.
  unfold resolveStableCronOffsetMs, stableOffset. destruct (Z.leb_spec staggerMs 1); [lia|].
  pose proof (Z.mod_pos_bound (sha256_readUInt32BE jobId) staggerMs ltac:(lia)). lia.
Qed.

(** The first attempt of the loop decides: a run after the shifted cursor is,
    shifted back, after [nowMs]. *)
Lemma staggeredNextLoop_first fuel schedule offsetMs nowMs :
  is_every schedule = false → 0 < offsetMs →
  staggeredNextLoop (S fuel) schedule offsetMs nowMs (Z.max 0 (nowMs - offsetMs)) =
    let! r := computeNextRunAtMs schedule (Z.max 0 (nowMs - offsetMs)) in
    Ok ((λ n, n + offsetMs) <$> r).
Proof.
  intros Hs Ho. simpl. destruct (computeNextRunAtMs schedule _) as [[n|]|e] eqn:E; simpl; try done.
  apply computeNextRunAtMs_future in E; [|done].
  destruct (Z.ltb_spec nowMs (n + offsetMs)); [done|lia].
Qed.

Lemma staggeredPreviousLoop_first fuel schedule offsetMs nowMs :
  0 < offsetMs <= nowMs →
  staggeredPreviousLoop (S fuel) schedule offsetMs nowMs (Z.max 0 (nowMs - offsetMs)) =
    let! r := computePreviousRunAtMs schedule (nowMs - offsetMs) in
    Ok ((λ n, n + offsetMs) <$> r).
Proof.
  intros Ho. rewrite Z.max_r by lia. simpl.
  destruct (computePreviousRunAtMs schedule _) as [[n|]|e] eqn:E; simpl; try done.
  apply computePreviousRunAtMs_past in E. destruct (Z.leb_spec (n + offsetMs) nowMs); [done|lia].
Qed.

Lemma computeStaggered_future jobId schedule nowMs n :
  is_every schedule = false →
  computeStaggeredCronNextRunAtMs jobId schedule nowMs = Ok (Some n) → nowMs < n.
Proof.
  intros Hs. unfold computeStaggeredCronNextRunAtMs.
  destruct schedule as [| |expr cr tz st] eqn:Es; try done.
  - by apply computeNextRunAtMs_future.
  - set (o := resolveStableCronOffsetMs jobId (resolveCronStaggerMs expr st)).
    destruct (Z.leb_spec o 0); [by apply computeNextRunAtMs_future|].
    rewrite staggeredNextLoop_first by done.
    destruct (computeNextRunAtMs _ _) as [[m|]|e] eqn:E; simpl; try done.
    intros [= <-]. apply computeNextRunAtMs_future in E; [|done]. lia.
Qed.

(** ** The caches *)

(** What the evaluation cache holds for the time zones without a NUL. *)
Definition nul_free (s : string) : bool := str_all (λ c, negb (Ascii.eqb c Ascii.zero)) s.

Definition eval_cache_ok (cache : omap string Cron) : Prop :=
  owf cache ∧ (osize cache <= CRON_EVAL_CACHE_MAX)%nat ∧
  (∀ k c, oget cache k = Some c → str_truthy k = true) ∧
  ∀ expr tz c, nul_free tz = true → oget cache (evalCacheKey expr tz) = Some c →
               new_Cron expr tz = Ok c.

Lemma evalCacheKey_inj e t e' t' :
  nul_free t = true → nul_free t' = true → evalCacheKey e t = evalCacheKey e' t' → e = e' ∧ t = t'.
Proof.
  unfold evalCacheKey, nul. cbn [String.append]. intros Ht Ht' [-> ->]%sep_free_inj; auto.
Qed.

Lemma evict_oldest_ok {A} (m : omap string A) (n : nat) :
  owf m → (osize m <= n)%nat → (0 < n)%nat →
  let m' := if (n <=? osize m)%nat then
              match okeys m with k :: _ => odel m k | [] => m end
            else m in
  owf m' ∧ (osize m' < n)%nat ∧ ∀ k v, oget m' k = Some v → oget m k = Some v.
Proof.
  intros Hwf Hn Hpos m'. subst m'. destruct (Nat.leb_spec n (osize m)); [|done].
  destruct m as [|[k0 v0] m]; [simpl in *; lia|].
  change (okeys ((k0, v0) :: m)) with (k0 :: okeys m). cbv match.
  rewrite odel_head by done. split; [by eapply owf_tail|].
  split; [unfold osize in *; simpl in *; lia|]. intros k v Hk.
  rewrite <- (odel_head k0 v0 m Hwf), oget_odel in Hk. by case_decide.
Qed.

Lemma osize_oset_le {A} (m : omap string A) k v : (osize (oset m k v) <= S (osize m))%nat.
Proof.
  destruct (oget m k) eqn:E; [erewrite osize_oset_present by done; lia|].
  by rewrite osize_oset_absent.
Qed.

Lemma evalCacheKey_nonempty e t : str_truthy (evalCacheKey e t) = true.
Proof. unfold evalCacheKey. by destruct t. Qed.

Lemma eval_cache_store cache expr tz c :
  eval_cache_ok cache → (osize cache < CRON_EVAL_CACHE_MAX)%nat → nul_free tz = true →
  new_Cron expr tz = Ok c → eval_cache_ok (oset cache (evalCacheKey expr tz) c).
Proof.
  intros (Hwf & _ & Hk & Hs) Hn Ht Hc. split; [by apply owf_oset|]. split.
  - pose proof (osize_oset_le cache (evalCacheKey expr tz) c). lia.
  - split.
    + intros k c'. rewrite oget_oset. case_decide; subst; [|apply Hk].
      intros _. apply evalCacheKey_nonempty.
    + intros e' t' c' Ht'. rewrite oget_oset. case_decide as Hd; [|by apply Hs].
      intros [= <-]. by apply evalCacheKey_inj in Hd as [-> ->].
Qed.

Lemma resolveCachedCronM_ok cache expr tz :
  nul_free tz = true → eval_cache_ok cache →
  (resolveCachedCronM cache expr tz).1 = resolveCachedCron expr tz ∧
  eval_cache_ok (resolveCachedCronM cache expr tz).2.
Proof.
  intros Ht Hok. pose proof Hok as (Hwf & Hn & Hk & Hs).
  unfold resolveCachedCronM, resolveCachedCron.
  destruct (oget cache (evalCacheKey expr tz)) as [c|] eqn:E.
  { split; [symmetry; by apply Hs|done]. }
  destruct (evict_oldest_ok cache CRON_EVAL_CACHE_MAX Hwf Hn ltac:(unfold CRON_EVAL_CACHE_MAX; lia))
    as (Hwf1 & Hn1 & Hsub1).
  set (c1 := if (CRON_EVAL_CACHE_MAX <=? osize cache)%nat then
               match okeys cache with (String _ _ as o) :: _ => odel cache o | _ => cache end
             else cache).
  assert (c1 = if (CRON_EVAL_CACHE_MAX <=? osize cache)%nat then
               match okeys cache with o :: _ => odel cache o | [] => cache end else cache) as Hc1.
  { subst c1. destruct cache as [|[[|a k] v] cache]; [done| |done].
    specialize (Hk EmptyString v). simpl in Hk. discriminate (Hk eq_refl). }
  rewrite <- Hc1 in Hwf1, Hn1, Hsub1. clearbody c1.
  assert (eval_cache_ok c1) as Hok1.
  { split; [done|]. split; [lia|]. split; eauto. }
  destruct (new_Cron expr tz) as [c|e] eqn:En; [|done].
  split; [done|]. by apply eval_cache_store.
Qed.


(** *** The stagger offsets *)

Definition colon_free (s : string) : bool := str_all (λ c, negb (Ascii.eqb c ":")) s.

Lemma pretty_N_go_colon_free x s : colon_free s = true → colon_free (pretty_N_go x s) = true.
Proof.
  revert s. induction (N.lt_wf_0 x) as [x _ IH]. intros s Hs.
  destruct (decide (x = 0)%N) as [->|Hx]; [done|].
  rewrite pretty_N_go_step by lia. apply IH; [apply N.div_lt; lia|].
  unfold colon_free in *. simpl. rewrite Hs, andb_true_r.
  unfold pretty_N_char. by repeat case_match.
Qed.

Lemma pretty_Z_colon_free (z : Z) : colon_free (pretty z) = true.
Proof.
  assert (∀ n : N, colon_free (pretty n) = true) as HN.
  { intros n. unfold pretty, pretty_N. case_decide; [done|]. by apply pretty_N_go_colon_free. }
  unfold pretty, pretty_Z. destruct z as [|p|p]; [done|apply HN|].
  unfold colon_free. rewrite str_all_append. apply (HN (N.pos p)).
Qed.

Lemma staggerCacheKey_inj j s j' s' :
  staggerCacheKey j s = staggerCacheKey j' s' → j = j' ∧ s = s'.
Proof.
  unfold staggerCacheKey. intros [Hs Hj]%(sep_free_inj ":"%char); [|apply pretty_Z_colon_free..].
  split; [done|]. by apply (inj pretty).
Qed.

Definition stagger_cache_ok (cache : omap string Z) : Prop :=
  owf cache ∧ (osize cache <= STAGGER_OFFSET_CACHE_MAX)%nat ∧
  ∀ jobId staggerMs o, oget cache (staggerCacheKey jobId staggerMs) = Some o →
                       o = stableOffset jobId staggerMs.

Lemma resolveStableCronOffsetMsM_ok cache jobId staggerMs :
  stagger_cache_ok cache →
  (resolveStableCronOffsetMsM cache jobId staggerMs).1 = resolveStableCronOffsetMs jobId staggerMs ∧
  stagger_cache_ok (resolveStableCronOffsetMsM cache jobId staggerMs).2.
Proof.
  intros Hok. pose proof Hok as (Hwf & Hn & Hs).
  unfold resolveStableCronOffsetMsM, resolveStableCronOffsetMs.
  destruct (staggerMs <=? 1); [done|].
  destruct (oget cache (staggerCacheKey jobId staggerMs)) as [o|] eqn:E.
  { split; [by apply Hs|done]. }
  assert (0 < STAGGER_OFFSET_CACHE_MAX)%nat as Hpos by (unfold STAGGER_OFFSET_CACHE_MAX; lia).
  destruct (evict_oldest_ok cache STAGGER_OFFSET_CACHE_MAX Hwf Hn Hpos) as (Hwf1 & Hn1 & Hsub1).
  cbv zeta in Hwf1, Hn1, Hsub1.
  set (c1 := if (STAGGER_OFFSET_CACHE_MAX <=? osize cache)%nat then _ else cache) in *.
  split; [done|]. cbn [snd]. split; [by apply owf_oset|]. split.
  - pose proof (osize_oset_le c1 (staggerCacheKey jobId staggerMs) (stableOffset jobId staggerMs)).
    lia.
  - intros j s o. rewrite oget_oset. case_decide as Hd; [|by eauto].
    apply staggerCacheKey_inj in Hd as [-> ->]. by intros [= <-].
Qed.
End cron_laws.

(** ** Properties *)

(** An every-schedule fires on its grid: the next run is the least of
    [anchor], [anchor + every], ... that is not before [now] and, once the anchor
    is reached, is after the anchor; so it is at most one period away. *)
Lemma every_next_is_least_grid_point `{CronEnv} (everyRaw anchorRaw : RawNumber) (now : Z) (q : Q) :
  coerceFiniteScheduleNumber everyRaw = Some q →
  let every := Z.max 1 (floorQ q) in
  let anchor := Z.max 0 (default now (floorQ <$> coerceFiniteScheduleNumber anchorRaw)) in
  ∃ n, computeNextRunAtMs (SEvery everyRaw anchorRaw) now = Ok (Some n) ∧
    on_grid every anchor n ∧ now <= n ∧ (anchor <= now → anchor < n ∧ n - now <= every) ∧
    ∀ t, on_grid every anchor t → now <= t → (anchor <= now → anchor < t) → n <= t.
Proof.
  intros Hq every anchor. simpl. rewrite Hq. eexists. split; [done|].
  fold every. assert (Z.max 0 (match coerceFiniteScheduleNumber anchorRaw with
    Some a => floorQ a | None => now end) = anchor) as ->
    by (subst anchor; by destruct (coerceFiniteScheduleNumber anchorRaw)).
  assert (1 <= every) as He by (subst every; lia).
  destruct (nextEveryRun_spec every anchor now He) as (H1 & H2 & H3 & H4).
  pose proof (nextEveryRun_gap every anchor now He). auto 10.
Qed.

(** An environment to evaluate on: every expression is hourly, but an
    expression whose first evaluation at noon of day 0 returns a past year. *)
Definition demoEnv : CronEnv := {|
  Date_parse := λ _, None;
  Cron := string;
  new_Cron := λ expr _, if String.eqb expr "bad" then Throw "TypeError: bad pattern" else Ok expr;
  cron_nextRun := λ c t,
    if String.eqb c "rollback" && (t =? 43200000) then Ok (Some (Some (-1000)))
    else Ok (Some (Some ((t / 3600000 + 1) * 3600000)));
  cron_previousRuns := λ _ t, Ok [Some ((t - 1) / 3600000 * 3600000)];
  local_timeZone := "UTC";
  sha256_readUInt32BE := λ s, (Z.of_nat (String.length s) * 1000) mod 2 ^ 32;
  URL_protocol := λ s, if starts_with s "https://" then Some "https:"%string else None;
|}.

Lemma every_next_is_least_grid_point_witness :
  ∃ n, @computeNextRunAtMs demoEnv (SEvery (VNum (num_of_Z 1000)) (VStr "500")) 2600 = Ok (Some n) ∧
       n = 3500.
Proof.
  destruct (@every_next_is_least_grid_point demoEnv (VNum (num_of_Z 1000)) (VStr "500") 2600
              (inject_Z 1000) eq_refl) as (n & Hn & _).
  exists n. split; [exact Hn|]. vm_compute in Hn. congruence.
Defined.

(** Staggering shifts the schedule: the staggered next run of a cron job is
    the next run of its expression after the time [offset] earlier, shifted by
    the job's offset, which depends on the job id only and lies in the stagger
    window. (The loop of four attempts always ends at its first.) *)
Lemma stagger_shifts_schedule `{CronEnvLaws} (jobId : string) (expr cron tz : option string)
    (staggerRaw : RawNumber) (now : Z) :
  let schedule := SCron expr cron tz staggerRaw in
  let staggerMs := resolveCronStaggerMs expr staggerRaw in
  let offset := resolveStableCronOffsetMs jobId staggerMs in
  0 <= offset < Z.max 1 staggerMs ∧
  computeStaggeredCronNextRunAtMs jobId schedule now =
    let! r := computeNextRunAtMs schedule (if offset =? 0 then now else Z.max 0 (now - offset)) in
    Ok ((λ n, n + offset) <$> r).
Proof.
  intros schedule staggerMs offset.
  pose proof (stableOffset_range jobId staggerMs) as Hr. split; [exact Hr|].
  unfold computeStaggeredCronNextRunAtMs, schedule. fold staggerMs. fold offset.
  destruct (Z.leb_spec offset 0) as [Hle|Hgt].
  - assert (offset = 0) as -> by (subst offset; lia). simpl (0 =? 0).
    destruct (computeNextRunAtMs _ now) as [[n|]|e]; simpl; try done. by rewrite Z.add_0_r.
  - destruct (Z.eqb_spec offset 0); [lia|]. by apply staggeredNextLoop_first.
Qed.

Lemma demoEnvLaws : @CronEnvLaws demoEnv.
Proof. split. intros s. simpl. by apply Z.mod_pos_bound. Qed.

Lemma stagger_shifts_schedule_witness :
  @computeStaggeredCronNextRunAtMs demoEnv "job-1" (SCron (Some "0 * * * *"%string) None None VOther)
    7203000 = Ok (Some 7205000) ∧
  @computeStaggeredCronNextRunAtMs demoEnv "job-1" (SCron (Some "0 * * * *"%string) None None VOther)
    7203000 = @computeStaggeredCronNextRunAtMs demoEnv "job-1"
                (SCron (Some "0 * * * *"%string) None None VOther) 7204000.
Proof.
  split; [reflexivity|].
  rewrite (proj2 (@stagger_shifts_schedule demoEnv demoEnvLaws "job-1" (Some "0 * * * *"%string)
             None None VOther 7203000)).
  rewrite (proj2 (@stagger_shifts_schedule demoEnv demoEnvLaws "job-1" (Some "0 * * * *"%string)
             None None VOther 7204000)).
  reflexivity.
Defined.

(** The schedule caches are transparent: over any sequence of calls, the
    cached evaluators are the ones croner constructs (or its exception), for time
    zones without a NUL, and the cached offsets are the hash's; both caches stay
    within their bounds. *)
Lemma schedule_caches_transparent `{CronEnv} (evals : list (string * string))
    (offsets : list (string * Z)) :
  Forall (λ c, nul_free c.2 = true) evals →
  let e := callAll (λ s c, resolveCachedCronM s c.1 c.2) [] evals in
  let o := callAll (λ s c, resolveStableCronOffsetMsM s c.1 c.2) [] offsets in
  e.1 = map (λ c, resolveCachedCron c.1 c.2) evals ∧
  (osize e.2 <= CRON_EVAL_CACHE_MAX)%nat ∧
  o.1 = map (λ c, resolveStableCronOffsetMs c.1 c.2) offsets ∧
  (osize o.2 <= STAGGER_OFFSET_CACHE_MAX)%nat.
Proof.
  intros Hev e o.
  destruct (callAll_pure (λ s c, resolveCachedCronM s c.1 c.2) (λ c, resolveCachedCron c.1 c.2)
    (λ c, nul_free c.2 = true) eval_cache_ok (λ s c, resolveCachedCronM_ok s c.1 c.2)
    evals [] Hev) as [H1 H2].
  { split; [apply owf_nil|]. split; [simpl; lia|done]. }
  destruct (callAll_pure (λ s c, resolveStableCronOffsetMsM s c.1 c.2)
    (λ c, resolveStableCronOffsetMs c.1 c.2) (λ _, True) stagger_cache_ok
    (λ s c _, resolveStableCronOffsetMsM_ok s c.1 c.2)
    offsets [] (Forall_true _ _ (λ _, I))) as [H3 H4].
  { split; [apply owf_nil|]. split; [simpl; lia|done]. }
  repeat split; [exact H1|apply H2|exact H3|apply H4].
Qed.

Lemma schedule_caches_transparent_witness :
  (@callAll _ (result string) _ (λ s c, @resolveCachedCronM demoEnv s c.1 c.2) []
     [("0 * * * *", "UTC"); ("bad", "UTC"); ("0 * * * *", "UTC")]%string).1
  = [Ok "0 * * * *"; Throw "TypeError: bad pattern"; Ok "0 * * * *"]%string.
Proof.
  exact (proj1 (@schedule_caches_transparent demoEnv
    [("0 * * * *", "UTC"); ("bad", "UTC"); ("0 * * * *", "UTC")]%string []
    ltac:(repeat constructor))).
Defined.

End CronSchedule.
