(* ===== verification/CronJobs.v ===== *)
(** * Cron jobs: src/cron/service/jobs.ts and what it validates with

    Creating, patching and validating jobs, and the maintenance of their next
    run. A function that mutates the job in place and may throw midway returns
    the job as it is then, next to the outcome ([JM]). *)

From Stdlib Require Import Ascii.
From S2P Require Import Prelude JsNumber SessionKey CronTypes CronSchedule.

Module CronJobs.
Import StringCoerce JsNumber SessionKey CronTypes CronSchedule.

(** A string between double quotes. *)
Definition quoted (s : string) : string :=
  let q := String (Ascii.ascii_of_nat 34) EmptyString in q +:+ s +:+ q.

Definition STUCK_RUN_MS : Z := 2 * 60 * 60 * 1000.

(** ** Normalisation: normalize.ts, session-target.ts, webhook-url.ts *)

Definition normalizeRequiredName (raw : option string) : result string :=
  match raw with
  | None => Throw (ErrorText "cron job name is required")
  | Some r =>
      match trim r with
      | EmptyString => Throw (ErrorText "cron job name is required")
      | name => Ok name
      end
  end.

Definition normalizeOptionalAgentId (raw : option string) : option string :=
  match normalizeOptionalString raw with
  | None => None
  | Some trimmed => Some (normalizeAgentId (Some trimmed))
  end.

Definition normalizePayloadToSystemText (payload : CronPayload) : string :=
  match payload with
  | SystemEvent text => trim text
  | AgentTurnPayload t => trim (at_message t)
  end.

Definition INVALID_CRON_SESSION_TARGET_ID_ERROR : string := "invalid cron sessionTarget session id".

Definition assertSafeCronSessionTargetId (sessionId : string) : result string :=
  let err := Throw (ErrorText INVALID_CRON_SESSION_TARGET_ID_ERROR) in
  match trim sessionId with
  | EmptyString => err
  | trimmed =>
      if includes trimmed "/" || includes trimmed "\" || includes trimmed nul
      then err else Ok trimmed
  end.

Definition isAllowedWebhookProtocol (protocol : string) : bool :=
  String.eqb protocol "http:" || String.eqb protocol "https:".

Definition normalizeOptionalThreadValue (value : option (num + string)) : option (num + string) :=
  match value with
  | None => None
  | Some (inl n) => (λ q, inl (num_of_Z (truncQ q))) <$> finite_num n
  | Some (inr s) => inr <$> normalizeOptionalString (Some s)
  end.

Section env.
Context `{CronEnv}.

Definition normalizeHttpWebhookUrl (value : option string) : option string :=
  match value with
  | None => None
  | Some v =>
      match trim v with
      | EmptyString => None
      | trimmed =>
          match URL_protocol trimmed with
          | Some protocol => if isAllowedWebhookProtocol protocol then Some trimmed else None
          | None => None
          end
      end
  end.

(** ** Schedules of a job *)

Definition hasScheduledNextRunAtMs (value : option Z) : bool :=
  match value with Some v => 0 <? v | None => false end.

(** [resolveEveryAnchorMs]; the fallback is a clock reading. *)
Definition resolveEveryAnchorMs (anchorMs : RawNumber) (fallbackAnchorMs : Z) : Z :=
  match coerceFiniteScheduleNumber anchorMs with
  | Some coerced => Z.max 0 (floorQ coerced)
  | None => Z.max 0 fallbackAnchorMs
  end.

(** [job.enabled ?? true] *)
Definition isJobEnabled (job : CronJob) : bool := job_enabled job.

Definition computeJobNextRunAtMs (job : CronJob) (nowMs : Z) : result (option Z) :=
  if negb (isJobEnabled job) then Ok None
  else
    match job_schedule job with
    | SEvery everyRaw anchorRaw =>
        match coerceFiniteScheduleNumber everyRaw with
        | None => Ok None
        | Some everyMsRaw =>
            let everyMs := Z.max 1 (floorQ everyMsRaw) in
            let grid :=
              let anchorMs := resolveEveryAnchorMs anchorRaw (job_createdAtMs job) in
              computeNextRunAtMs (SEvery (VNum (num_of_Z everyMs)) (VNum (num_of_Z anchorMs))) nowMs in
            match lastRunAtMs (job_state job) with
            | Some lastRun =>
                let nextFromLastRun := lastRun + everyMs in
                if nowMs <? nextFromLastRun then Ok (Some nextFromLastRun) else grid
            | None => grid
            end
        end
    | SAt at_ legacy =>
        let atMs := scheduleAtMs at_ legacy in
        let lastRun := lastRunAtMs (job_state job) ?? 0 in
        if bool_decide (lastStatus (job_state job) = Some StatusOk) && negb (lastRun =? 0) then
          match atMs with
          | Some a => if lastRun <? a then Ok (Some a) else Ok None
          | None => Ok None
          end
        else Ok atMs
    | SCron _ _ _ _ =>
        let! next := computeStaggeredCronNextRunAtMs (job_id job) (job_schedule job) nowMs in
        match next with
        | None => computeStaggeredCronNextRunAtMs (job_id job) (job_schedule job) (nextSecond nowMs)
        | Some n => Ok (Some n)
        end
    end.

Definition computeJobPreviousRunAtMs (job : CronJob) (nowMs : Z) : result (option Z) :=
  if negb (isJobEnabled job) || negb (is_cron (job_schedule job)) then Ok None
  else computeStaggeredCronPreviousRunAtMs (job_id job) (job_schedule job) nowMs.

(** ** Schedule errors *)

Definition MAX_SCHEDULE_ERRORS : Z := 3.

Definition recordScheduleComputeError (job : CronJob) (errText : string)
    : CronJob * list CronEffect :=
  let errorCount := (scheduleErrorCount (job_state job) ?? 0) + 1 in
  let s := st_lastError (st_nextRun (st_errorCount (job_state job) (Some errorCount)) None)
             (Some ("schedule error: " +:+ errText)) in
  let job1 := set_state job s in
  if MAX_SCHEDULE_ERRORS <=? errorCount then
    let key := "cron:" +:+ job_id job +:+ ":auto-disabled" in
    (set_enabled job1 false,
     [EnqueueSystemEvent (AutoDisabledNotice (job_name job) errorCount errText)
        (job_agentId job) (job_sessionKey job) (Some key);
      RequestHeartbeatNow key (job_agentId job) (job_sessionKey job)])
  else (job1, []).

(** [job.schedule.anchorMs !== n] *)
Definition raw_is (v : RawNumber) (n : Z) : bool :=
  match v with VNum (Fin q) => Qeq_bool q (inject_Z n) | _ => false end.

Record TickResult := mkTick { tk_job : CronJob; tk_changed : bool; tk_skip : bool }.

Definition normalizeJobTickState (job : CronJob) (nowMs : Z) : TickResult :=
  let '(job1, changed1) :=
    match job_schedule job with
    | SEvery everyRaw anchorRaw =>
        let normalizedAnchorMs := resolveEveryAnchorMs anchorRaw (job_createdAtMs job) in
        if raw_is anchorRaw normalizedAnchorMs then (job, false)
        else (set_schedule job (SEvery everyRaw (VNum (num_of_Z normalizedAnchorMs))), true)
    | _ => (job, false)
    end in
  if negb (isJobEnabled job1) then
    let had (o : option Z) := bool_decide (is_Some o) in
    mkTick (set_running (set_nextRun job1 None) None)
      (changed1 || had (nextRunAtMs (job_state job1)) || had (runningAtMs (job_state job1))) true
  else
    let '(job2, changed2) :=
      if negb (hasScheduledNextRunAtMs (nextRunAtMs (job_state job1))) &&
         bool_decide (is_Some (nextRunAtMs (job_state job1)))
      then (set_nextRun job1 None, true) else (job1, changed1) in
    match runningAtMs (job_state job2) with
    | Some runningAt =>
        if STUCK_RUN_MS <? nowMs - runningAt
        then mkTick (set_running job2 None) true false
        else mkTick job2 changed2 false
    | None => mkTick job2 changed2 false
    end.

Definition JobStep := CronJob → Z → CronJob * bool * list CronEffect.

(** One iteration of the loop of [walkSchedulableJobs]. *)
Definition walkJob (fn : JobStep) (nowMs : Z) (job : CronJob) : CronJob * bool * list CronEffect :=
  let tick := normalizeJobTickState job nowMs in
  if tk_skip tick then (tk_job tick, tk_changed tick, [])
  else
    let '(job', changed, effs) := fn (tk_job tick) nowMs in
    (job', tk_changed tick || changed, effs).

(** The jobs afterwards, whether any changed, and the effects in order. *)
Definition walkSchedulableJobs (jobs : list CronJob) (fn : JobStep) (nowMs : Z)
    : list CronJob * bool * list CronEffect :=
  let rs := map (walkJob fn nowMs) jobs in
  (map (λ r, r.1.1) rs, existsb (λ r, r.1.2) rs, flat_map (λ r, r.2) rs).

Definition recomputeJobNextRunAtMs : JobStep := λ job nowMs,
  match computeJobNextRunAtMs job nowMs with
  | Ok newNext =>
      let '(job1, changed1) :=
        if bool_decide (nextRunAtMs (job_state job) = newNext) then (job, false)
        else (set_nextRun job newNext, true) in
      match scheduleErrorCount (job_state job1) with
      | Some c =>
          if c =? 0 then (job1, changed1, [])
          else (set_state job1 (st_errorCount (job_state job1) None), true, [])
      | None => (job1, changed1, [])
      end
  | Throw err =>
      let '(job1, effs) := recordScheduleComputeError job err in (job1, true, effs)
  end.

Definition recomputeNextRunsStep : JobStep := λ job now,
  let nextRun := nextRunAtMs (job_state job) in
  let isDueOrMissing :=
    negb (hasScheduledNextRunAtMs nextRun) || (nextRun ?? 0 <=? now) in
  if isDueOrMissing then recomputeJobNextRunAtMs job now else (job, false, []).

Definition recomputeNextRuns (jobs : list CronJob) (nowMs : Z)
    : list CronJob * bool * list CronEffect :=
  walkSchedulableJobs jobs recomputeNextRunsStep nowMs.

Definition maintenanceStep (recomputeExpired : bool) : JobStep := λ job now,
  let st := job_state job in
  if negb (hasScheduledNextRunAtMs (nextRunAtMs st)) then recomputeJobNextRunAtMs job now
  else if recomputeExpired && (nextRunAtMs st ?? 0 <=? now) &&
          bool_decide (runningAtMs st = None) then
    let alreadyExecutedSlot :=
      match lastRunAtMs st with
      | Some lastRun => nextRunAtMs st ?? 0 <=? lastRun
      | None => false
      end in
    if alreadyExecutedSlot then recomputeJobNextRunAtMs job now else (job, false, [])
  else (job, false, []).

Definition recomputeNextRunsForMaintenance (jobs : list CronJob) (recomputeExpired : bool)
    (nowMs : Z) : list CronJob * bool * list CronEffect :=
  walkSchedulableJobs jobs (maintenanceStep recomputeExpired) nowMs.

Definition nextWakeAtMs (jobs : list CronJob) : option Z :=
  let enabled :=
    List.filter (λ j, job_enabled j && hasScheduledNextRunAtMs (nextRunAtMs (job_state j))) jobs in
  match enabled with
  | [] => None
  | j0 :: _ =>
      match nextRunAtMs (job_state j0) with
      | None => None
      | Some first =>
          if negb (0 <? first) then None
          else Some (foldl (λ m j, match nextRunAtMs (job_state j) with
                                   | Some next => if 0 <? next then Z.min m next else m
                                   | None => m
                                   end) first enabled)
      end
  end.

Definition findJobOrThrow (jobs : list CronJob) (id : string) : result CronJob :=
  match List.find (λ j, String.eqb (job_id j) id) jobs with
  | Some j => Ok j
  | None => Throw (ErrorText ("unknown cron job id: " +:+ id))
  end.

(** ** Validation *)

Definition isIsolatedLike (sessionTarget : string) : bool :=
  String.eqb sessionTarget "isolated" || String.eqb sessionTarget "current" ||
  starts_with sessionTarget "session:".

Definition assertSupportedJobSpec (sessionTarget : string) (payload : CronPayload) : result unit :=
  let checkId :=
    if starts_with sessionTarget "session:"
    then let! _ := assertSafeCronSessionTargetId (str_drop 8 sessionTarget) in Ok tt
    else Ok tt in
  checkId ;;!
  (if String.eqb sessionTarget "main" && negb (is_systemEvent payload)
   then Throw (ErrorText ("main cron jobs require payload.kind=" +:+ quoted "systemEvent")) else Ok tt) ;;!
  (if isIsolatedLike sessionTarget && negb (is_agentTurn payload)
   then Throw (ErrorText ("isolated/current/session cron jobs require payload.kind=" +:+ quoted "agentTurn"))
   else Ok tt).

Definition assertMainSessionAgentId (sessionTarget : string) (agent defaultAgentId : option string)
    : result unit :=
  if negb (String.eqb sessionTarget "main") then Ok tt
  else if negb (ostr_truthy agent) then Ok tt
  else if negb (String.eqb (normalizeAgentId agent) (normalizeAgentId defaultAgentId))
  then Throw (ErrorText ("cron: sessionTarget " +:+ quoted "main" +:+
    " is only valid for the default agent. Use sessionTarget " +:+ quoted "isolated" +:+
    " with payload.kind " +:+ quoted "agentTurn" +:+ " for non-default agents (agentId: " +:+
    (agent ?? EmptyString) +:+ ")"))
  else Ok tt.

Definition set_delivery_to (d : CronDelivery) (to : string) : CronDelivery :=
  mkDelivery (d_mode d) (d_channel d) (Some to) (d_threadId d) (d_accountId d) (d_bestEffort d)
    (d_failureDestination d).

Definition set_failureDestination (d : CronDelivery) (f : option CronFailureDestination)
    : CronDelivery :=
  mkDelivery (d_mode d) (d_channel d) (d_to d) (d_threadId d) (d_accountId d) (d_bestEffort d) f.

Definition failureDestinationError : string :=
  ErrorText ("cron delivery.failureDestination is only supported for sessionTarget=" +:+
             quoted "isolated" +:+ " unless delivery.mode=" +:+ quoted "webhook").

Definition mode_is (d : CronDelivery) (m : string) : bool := bool_decide (d_mode d = Some m).

(** [assertDeliverySupport]: the delivery, whose target is normalised in place. *)
Definition assertDeliverySupport (sessionTarget : string) (delivery : option CronDelivery)
    : result (option CronDelivery) :=
  match delivery with
  | None => Ok None
  | Some d =>
      if mode_is d "none" then Ok (Some d)
      else if mode_is d "webhook" then
        match normalizeHttpWebhookUrl (d_to d) with
        | None => Throw (ErrorText "cron webhook delivery requires delivery.to to be a valid http(s) URL")
        | Some target => Ok (Some (set_delivery_to d target))
        end
      else if negb (isIsolatedLike sessionTarget)
      then Throw (ErrorText ("cron channel delivery config is only supported for sessionTarget=" +:+
                             quoted "isolated"))
      else Ok (Some d)
  end.

Definition assertFailureDestinationSupport (sessionTarget : string) (delivery : option CronDelivery)
    : result (option CronDelivery) :=
  match delivery ≫= d_failureDestination, delivery with
  | Some fd, Some d =>
      if String.eqb sessionTarget "main" && negb (mode_is d "webhook")
      then Throw failureDestinationError
      else if bool_decide (fd_mode fd = Some "webhook"%string) then
        match normalizeHttpWebhookUrl (fd_to fd) with
        | None => Throw (ErrorText "cron failure destination webhook requires delivery.failureDestination.to to be a valid http(s) URL")
        | Some target =>
            Ok (Some (set_failureDestination d
              (Some (mkFailureDest (fd_channel fd) (Some target) (fd_accountId fd) (fd_mode fd)))))
        end
      else Ok (Some d)
  | _, _ => Ok delivery
  end.

(** ** Creating a job *)

Definition resolveInitialCronDelivery (input : CronJobCreate) : option CronDelivery :=
  match ci_delivery input with
  | Some d => Some d
  | None =>
      if String.eqb (ci_sessionTarget input) "isolated" && is_agentTurn (ci_payload input)
      then Some (mkDelivery (Some "announce"%string) None None None None None None)
      else None
  end.

(** The schedule a new job stores. *)
Definition initialSchedule (schedule : CronSchedule) (now : Z) : CronSchedule :=
  match schedule with
  | SEvery everyMs anchorMs =>
      SEvery everyMs (VNum (num_of_Z (resolveEveryAnchorMs anchorMs now)))
  | SCron expr cron tz staggerMs =>
      match normalizeCronStaggerMs staggerMs with
      | Some explicit => SCron expr cron tz (VNum (num_of_Z explicit))
      | None =>
          match resolveDefaultCronStaggerMs (expr ?? EmptyString) with
          | Some d => SCron expr cron tz (VNum (num_of_Z d))
          | None => schedule
          end
      end
  | SAt _ _ => schedule
  end.

Definition createJob (now : Z) (id : string) (defaultAgentId : option string)
    (input : CronJobCreate) : result CronJob :=
  let schedule := initialSchedule (ci_schedule input) now in
  let deleteAfterRun :=
    match ci_deleteAfterRun input with
    | Some b => Some b
    | None => if is_at schedule then Some true else None
    end in
  let! name := normalizeRequiredName (ci_name input) in
  let job := mkJob id (normalizeOptionalAgentId (ci_agentId input))
    (normalizeOptionalString (ci_sessionKey input)) name
    (normalizeOptionalString (ci_description input)) (ci_enabled input ?? true) deleteAfterRun
    now now schedule (ci_sessionTarget input) (ci_wakeMode input) (ci_payload input)
    (resolveInitialCronDelivery input) (ci_failureAlert input) (ci_state input) in
  let! _ := assertSupportedJobSpec (job_sessionTarget job) (job_payload job) in
  let! _ := assertMainSessionAgentId (job_sessionTarget job) (job_agentId job) defaultAgentId in
  let! d1 := assertDeliverySupport (job_sessionTarget job) (job_delivery job) in
  let! d2 := assertFailureDestinationSupport (job_sessionTarget job) d1 in
  let job1 := set_delivery job d2 in
  let! next := computeJobNextRunAtMs job1 now in
  Ok (set_nextRun job1 next).

(** ** Patching a job *)

Definition buildPayloadFromPatch (patch : CronPayloadPatch) : result CronPayload :=
  match patch with
  | SystemEventPatch text =>
      match text with
      | Some (String _ _ as t) => Ok (SystemEvent t)
      | _ => Throw (ErrorText ("cron.update payload.kind=" +:+ quoted "systemEvent" +:+
                               " requires text"))
      end
  | AgentTurnPatchPayload p =>
      match ap_message p with
      | Some (String _ _ as message) =>
          Ok (AgentTurnPayload (mkAgentTurn message (ap_model p) (ap_fallbacks p) (ap_thinking p)
                (ap_timeoutSeconds p) (ap_allowUnsafeExternalContent p) None (ap_lightContext p)
                (match ap_toolsAllow p with Some (Some l) => Some l | _ => None end)))
      | _ => Throw (ErrorText ("cron.update payload.kind=" +:+ quoted "agentTurn" +:+
                               " requires message"))
      end
  end.

(** [typeof patch === ... ? patch : existing] *)
Definition keep {A} (patch existing : option A) : option A :=
  match patch with Some a => Some a | None => existing end.

Definition mergeCronPayload (existing : CronPayload) (patch : CronPayloadPatch)
    : result CronPayload :=
  match patch, existing with
  | SystemEventPatch text, SystemEvent old => Ok (SystemEvent (text ?? old))
  | AgentTurnPatchPayload p, AgentTurnPayload t =>
      Ok (AgentTurnPayload (mkAgentTurn (ap_message p ?? at_message t)
            (keep (ap_model p) (at_model t)) (keep (ap_fallbacks p) (at_fallbacks t))
            (keep (ap_thinking p) (at_thinking t))
            (keep (ap_timeoutSeconds p) (at_timeoutSeconds t))
            (keep (ap_allowUnsafeExternalContent p) (at_allowUnsafeExternalContent t))
            (at_externalContentSource t) (keep (ap_lightContext p) (at_lightContext t))
            (match ap_toolsAllow p with
             | Some (Some l) => Some l
             | Some None => None
             | None => at_toolsAllow t
             end)))
  | _, _ => buildPayloadFromPatch patch
  end.

(** ["f" in patch ? normalize(patch.f) : existing] *)
Definition in_patch {A B} (patch : option A) (normalize : A → option B) (existing : option B)
    : option B :=
  match patch with Some a => normalize a | None => existing end.

(** [mode === "announce" || mode === "webhook" ? mode : undefined] *)
Definition alertMode (raw : option string) : option string :=
  match normalizeOptionalString raw with
  | Some m => if String.eqb m "announce" || String.eqb m "webhook" then Some m else None
  | None => None
  end.

Definition mergeFailureDestination (existingFd : option CronFailureDestination)
    (p : FailureDestPatch) : CronFailureDestination :=
  mkFailureDest
    (in_patch (fp_channel p) normalizeOptionalString (existingFd ≫= fd_channel))
    (in_patch (fp_to p) normalizeOptionalString (existingFd ≫= fd_to))
    (in_patch (fp_accountId p) normalizeOptionalString (existingFd ≫= fd_accountId))
    (in_patch (fp_mode p) alertMode (existingFd ≫= fd_mode)).

Definition mergeCronDelivery (existing : option CronDelivery) (patch : CronDeliveryPatch)
    : CronDelivery :=
  mkDelivery
    (match dp_mode patch with
     | Some m => Some (if String.eqb m "deliver" then "announce"%string else m)
     | None => Some ((existing ≫= d_mode) ?? "none"%string)
     end)
    (in_patch (dp_channel patch) normalizeOptionalString (existing ≫= d_channel))
    (in_patch (dp_to patch) normalizeOptionalString (existing ≫= d_to))
    (in_patch (dp_threadId patch) normalizeOptionalThreadValue (existing ≫= d_threadId))
    (in_patch (dp_accountId patch) normalizeOptionalString (existing ≫= d_accountId))
    (keep (dp_bestEffort patch) (existing ≫= d_bestEffort))
    (in_patch (dp_failureDestination patch)
       (λ fd, mergeFailureDestination (existing ≫= d_failureDestination) <$> fd)
       (existing ≫= d_failureDestination)).

(** [typeof after === "number" && Number.isFinite(after) ? after : 0], floored
    when positive. *)
Definition alertAfter (raw : option num) : option num :=
  match raw ≫= finite_num with
  | Some q => if negb (Qle_bool q 0) then Some (num_of_Z (floorQ q)) else None
  | None => None
  end.

Definition alertCooldown (raw : option num) : option num :=
  match raw ≫= finite_num with
  | Some q => if Qle_bool 0 q then Some (num_of_Z (floorQ q)) else None
  | None => None
  end.

Definition mergeCronFailureAlert (existing : option FailureAlertField)
    (patch : option FailureAlertPatchField) : option FailureAlertField :=
  match patch with
  | Some PatchAlertFalse => Some AlertFalse
  | None => existing
  | Some (PatchAlert p) =>
      let base := match existing with
                  | Some (AlertConfig a) => a
                  | _ => mkFailureAlert None None None None None None
                  end in
      Some (AlertConfig (mkFailureAlert
        (in_patch (lp_after p) alertAfter (fa_after base))
        (in_patch (lp_channel p) normalizeOptionalString (fa_channel base))
        (in_patch (lp_to p) normalizeOptionalString (fa_to base))
        (in_patch (lp_cooldownMs p) alertCooldown (fa_cooldownMs base))
        (in_patch (lp_mode p) alertMode (fa_mode base))
        (in_patch (lp_accountId p) normalizeOptionalString (fa_accountId base))))
  end.

Definition mergeJobState (s : CronJobState) (p : JobStatePatch) : CronJobState :=
  mkJobState (sp_nextRunAtMs p ?? nextRunAtMs s) (sp_runningAtMs p ?? runningAtMs s)
    (sp_lastRunAtMs p ?? lastRunAtMs s) (sp_lastRunStatus p ?? lastRunStatus s)
    (sp_lastStatus p ?? lastStatus s) (sp_lastError p ?? lastError s)
    (sp_lastErrorReason p ?? lastErrorReason s) (sp_lastDurationMs p ?? lastDurationMs s)
    (sp_consecutiveErrors p ?? consecutiveErrors s)
    (sp_lastFailureAlertAtMs p ?? lastFailureAlertAtMs s)
    (sp_scheduleErrorCount p ?? scheduleErrorCount s)
    (sp_lastDeliveryStatus p ?? lastDeliveryStatus s)
    (sp_lastDeliveryError p ?? lastDeliveryError s) (sp_lastDelivered p ?? lastDelivered s).

(** The schedule a patched job stores. *)
Definition patchedSchedule (old new : CronSchedule) : CronSchedule :=
  match new with
  | SCron expr cron tz staggerMs =>
      match normalizeCronStaggerMs staggerMs with
      | Some explicit => SCron expr cron tz (VNum (num_of_Z explicit))
      | None =>
          match old with
          | SCron _ _ _ oldStagger => SCron expr cron tz oldStagger
          | _ =>
              match resolveDefaultCronStaggerMs (expr ?? EmptyString) with
              | Some d => SCron expr cron tz (VNum (num_of_Z d))
              | None => new
              end
          end
      end
  | _ => new
  end.

(** A step that mutates the job and may throw: the job as it is left, and the
    outcome. *)
Definition JM := CronJob → CronJob * result unit.
Definition jm_modify (f : CronJob → CronJob) : JM := λ j, (f j, Ok tt).
Definition jm_try (f : CronJob → result CronJob) : JM := λ j,
  match f j with Ok j' => (j', Ok tt) | Throw e => (j, Throw e) end.
Definition jm_seq (a b : JM) : JM := λ j,
  match a j with (j', Ok _) => b j' | (j', Throw e) => (j', Throw e) end.
Definition jm_when {A} (o : option A) (f : A → JM) : JM :=
  match o with Some a => f a | None => λ j, (j, Ok tt) end.

Definition set_identity (j : CronJob) (agent sessionKey description : option string)
    (name : string) (deleteAfterRun : option bool) : CronJob :=
  mkJob (job_id j) agent sessionKey name description (job_enabled j) deleteAfterRun
    (job_createdAtMs j) (job_updatedAtMs j) (job_schedule j) (job_sessionTarget j)
    (job_wakeMode j) (job_payload j) (job_delivery j) (job_failureAlert j) (job_state j).

Definition set_target (j : CronJob) (target : string) (wake : CronWakeMode) : CronJob :=
  mkJob (job_id j) (job_agentId j) (job_sessionKey j) (job_name j) (job_description j)
    (job_enabled j) (job_deleteAfterRun j) (job_createdAtMs j) (job_updatedAtMs j)
    (job_schedule j) target wake (job_payload j) (job_delivery j) (job_failureAlert j)
    (job_state j).

Definition set_payload (j : CronJob) (p : CronPayload) : CronJob :=
  mkJob (job_id j) (job_agentId j) (job_sessionKey j) (job_name j) (job_description j)
    (job_enabled j) (job_deleteAfterRun j) (job_createdAtMs j) (job_updatedAtMs j)
    (job_schedule j) (job_sessionTarget j) (job_wakeMode j) p (job_delivery j)
    (job_failureAlert j) (job_state j).

Definition set_failureAlert (j : CronJob) (a : option FailureAlertField) : CronJob :=
  mkJob (job_id j) (job_agentId j) (job_sessionKey j) (job_name j) (job_description j)
    (job_enabled j) (job_deleteAfterRun j) (job_createdAtMs j) (job_updatedAtMs j)
    (job_schedule j) (job_sessionTarget j) (job_wakeMode j) (job_payload j) (job_delivery j)
    a (job_state j).

(** The checks at the end of [applyJobPatch]. *)
Definition validateJob (defaultAgentId : option string) : JM :=
  jm_seq (jm_try (λ j,
    let! _ := assertSupportedJobSpec (job_sessionTarget j) (job_payload j) in
    let! _ := assertMainSessionAgentId (job_sessionTarget j) (job_agentId j) defaultAgentId in
    Ok j))
  (jm_seq (jm_try (λ j,
    let! d := assertDeliverySupport (job_sessionTarget j) (job_delivery j) in Ok (set_delivery j d)))
  (jm_try (λ j,
    let! d := assertFailureDestinationSupport (job_sessionTarget j) (job_delivery j) in
    Ok (set_delivery j d)))).

(** A delivery that is not a webhook is refused, or dropped, for the main session. *)
Definition mainSessionDelivery : JM :=
  jm_seq (jm_try (λ j,
    if String.eqb (job_sessionTarget j) "main" &&
       negb (match job_delivery j with Some d => mode_is d "webhook" | None => false end) &&
       bool_decide (is_Some (job_delivery j ≫= d_failureDestination))
    then Throw failureDestinationError else Ok j))
  (jm_modify (λ j,
    if String.eqb (job_sessionTarget j) "main" &&
       negb (match job_delivery j with Some d => mode_is d "webhook" | None => false end)
    then set_delivery j None else j)).

Definition applyJobPatch (patch : CronJobPatch) (defaultAgentId : option string) : JM :=
  jm_seq (jm_when (p_name patch) (λ n, jm_try (λ j,
    let! name := normalizeRequiredName n in
    Ok (set_identity j (job_agentId j) (job_sessionKey j) (job_description j) name
          (job_deleteAfterRun j)))))
  (jm_seq (jm_when (p_description patch) (λ d, jm_modify (λ j,
    set_identity j (job_agentId j) (job_sessionKey j) (normalizeOptionalString d) (job_name j)
      (job_deleteAfterRun j))))
  (jm_seq (jm_when (p_enabled patch) (λ b, jm_modify (λ j, set_enabled j b)))
  (jm_seq (jm_when (p_deleteAfterRun patch) (λ b, jm_modify (λ j,
    set_identity j (job_agentId j) (job_sessionKey j) (job_description j) (job_name j) (Some b))))
  (jm_seq (jm_when (p_schedule patch) (λ s, jm_modify (λ j,
    set_schedule j (patchedSchedule (job_schedule j) s))))
  (jm_seq (jm_when (p_sessionTarget patch) (λ t, jm_modify (λ j,
    if str_truthy t then set_target j t (job_wakeMode j) else j)))
  (jm_seq (jm_when (p_wakeMode patch) (λ w, jm_modify (λ j, set_target j (job_sessionTarget j) w)))
  (jm_seq (jm_when (p_payload patch) (λ p, jm_try (λ j,
    let! payload := mergeCronPayload (job_payload j) p in Ok (set_payload j payload))))
  (jm_seq (jm_when (p_delivery patch) (λ d, jm_modify (λ j,
    set_delivery j (Some (mergeCronDelivery (job_delivery j) d)))))
  (jm_seq (jm_when (p_failureAlert patch) (λ a, jm_modify (λ j,
    set_failureAlert j (mergeCronFailureAlert (job_failureAlert j) a))))
  (jm_seq mainSessionDelivery
  (jm_seq (jm_when (p_state patch) (λ p, jm_modify (λ j, set_state j (mergeJobState (job_state j) p))))
  (jm_seq (jm_when (p_agentId patch) (λ a, jm_modify (λ j,
    set_identity j (normalizeOptionalAgentId a) (job_sessionKey j) (job_description j) (job_name j)
      (job_deleteAfterRun j))))
  (jm_seq (jm_when (p_sessionKey patch) (λ k, jm_modify (λ j,
    set_identity j (job_agentId j) (normalizeOptionalString k) (job_description j) (job_name j)
      (job_deleteAfterRun j))))
  (validateJob defaultAgentId)))))))))))))).

(** ** Due jobs *)

Definition isJobDue (job : CronJob) (nowMs : Z) (forced : bool) : bool :=
  match runningAtMs (job_state job) with
  | Some _ => false
  | None =>
      if forced then true
      else isJobEnabled job && hasScheduledNextRunAtMs (nextRunAtMs (job_state job)) &&
           (nextRunAtMs (job_state job) ?? 0 <=? nowMs)
  end.

Definition resolveJobPayloadTextForMain (job : CronJob) : option string :=
  match job_payload job with
  | SystemEvent _ =>
      let text := normalizePayloadToSystemText (job_payload job) in
      if str_truthy (trim text) then Some text else None
  | _ => None
  end.

(** ** Validity: what creating and patching establish *)

Definition safe_session_id (id : string) : Prop :=
  str_truthy id = true ∧ includes id "/" = false ∧ includes id "\" = false ∧
  includes id nul = false.

(** A webhook target: trimmed, and a URL with the http or https scheme. *)
Definition webhook_url (to : option string) : Prop :=
  ∃ u protocol, to = Some u ∧ trim u = u ∧ URL_protocol u = Some protocol ∧
                isAllowedWebhookProtocol protocol = true.

Record job_valid (defaultAgentId : option string) (j : CronJob) : Prop := {
  jv_main : job_sessionTarget j = "main"%string → is_systemEvent (job_payload j) = true ∧
    (ostr_truthy (job_agentId j) = true →
     normalizeAgentId (job_agentId j) = normalizeAgentId defaultAgentId);
  jv_isolated : isIsolatedLike (job_sessionTarget j) = true → is_agentTurn (job_payload j) = true;
  jv_session : starts_with (job_sessionTarget j) "session:" = true →
    safe_session_id (trim (str_drop 8 (job_sessionTarget j)));
  jv_delivery d : job_delivery j = Some d → mode_is d "none" = false →
    if mode_is d "webhook" then webhook_url (d_to d)
    else isIsolatedLike (job_sessionTarget j) = true;
  jv_failure d fd : job_delivery j = Some d → d_failureDestination d = Some fd →
    (job_sessionTarget j = "main"%string → mode_is d "webhook" = true) ∧
    (fd_mode fd = Some "webhook"%string → webhook_url (fd_to fd));
}.

Lemma normalizeHttpWebhookUrl_ok v u : normalizeHttpWebhookUrl v = Some u → webhook_url (Some u).
Proof.
  unfold normalizeHttpWebhookUrl. destruct v as [v|]; [|done].
  destruct (trim v) as [|c t] eqn:E; [done|].
  destruct (URL_protocol (String c t)) as [p|] eqn:Ep; [|done].
  destruct (isAllowedWebhookProtocol p) eqn:Ea; [|done]. intros [= <-].
  exists (String c t), p. rewrite <- E, trim_idemp, E. done.
Qed.

Lemma assertSafe_ok s id :
  assertSafeCronSessionTargetId s = Ok id → id = trim s ∧ safe_session_id (trim s).
Proof.
  unfold assertSafeCronSessionTargetId, safe_session_id. destruct (trim s) as [|c t]; [done|].
  destruct (includes _ "/") eqn:E1; [done|]. destruct (includes _ "\") eqn:E2; [done|].
  destruct (includes _ nul) eqn:E3; [done|]. by intros [= <-].
Qed.

Lemma assertSupported_ok target payload :
  assertSupportedJobSpec target payload = Ok tt →
  (target = "main"%string → is_systemEvent payload = true) ∧
  (isIsolatedLike target = true → is_agentTurn payload = true) ∧
  (starts_with target "session:" = true → safe_session_id (trim (str_drop 8 target))).
Proof.
  unfold assertSupportedJobSpec. intros ([] & H1 & ([] & H2 & H3)%result_bind_ok)%result_bind_ok.
  split; [|split].
  - intros ->. by destruct (is_systemEvent payload).
  - intros Hi. rewrite Hi in H3. by destruct (is_agentTurn payload).
  - intros Hs. rewrite Hs in H1. by apply result_bind_ok in H1 as (id & [_ ?]%assertSafe_ok & _).
Qed.

Lemma assertMain_ok target agent def :
  assertMainSessionAgentId target agent def = Ok tt →
  target = "main"%string → ostr_truthy agent = true → normalizeAgentId agent = normalizeAgentId def.
Proof.
  unfold assertMainSessionAgentId. intros Hr -> Ha. rewrite Ha in Hr. simpl in Hr.
  destruct (String.eqb (normalizeAgentId agent) (normalizeAgentId def)) eqn:E; [|done].
  by apply String.eqb_eq.
Qed.

(** The delivery check may only normalise the target. *)
Lemma assertDelivery_ok target d d' :
  assertDeliverySupport target d = Ok d' →
  (d = None ∧ d' = None) ∨
  ∃ x y, d = Some x ∧ d' = Some y ∧ d_mode y = d_mode x ∧
    d_failureDestination y = d_failureDestination x ∧
    (mode_is y "none" = false →
     if mode_is y "webhook" then webhook_url (d_to y) else isIsolatedLike target = true).
Proof.
  destruct d as [x|]; simpl; [|intros [= <-]; by left]. intros H1. right. exists x.
  destruct (mode_is x "none") eqn:En; [injection H1 as <-; exists x; by rewrite En|].
  destruct (mode_is x "webhook") eqn:Ew.
  - destruct (normalizeHttpWebhookUrl (d_to x)) as [u|] eqn:Eu; [|done]. injection H1 as <-.
    exists (set_delivery_to x u). do 4 (split; [done|]). intros _.
    change (mode_is (set_delivery_to x u) "webhook") with (mode_is x "webhook"). rewrite Ew.
    by eapply normalizeHttpWebhookUrl_ok.
  - destruct (isIsolatedLike target) eqn:Ei; [|done]. injection H1 as <-. exists x.
    rewrite Ew. auto.
Qed.

Lemma assertFailure_ok target d d' :
  assertFailureDestinationSupport target d = Ok d' →
  (d = None ∧ d' = None) ∨
  ∃ x y, d = Some x ∧ d' = Some y ∧ d_mode y = d_mode x ∧ d_to y = d_to x ∧
    ∀ fd, d_failureDestination y = Some fd →
      (target = "main"%string → mode_is y "webhook" = true) ∧
      (fd_mode fd = Some "webhook"%string → webhook_url (fd_to fd)).
Proof.
  unfold assertFailureDestinationSupport.
  destruct d as [x|]; simpl; [|intros [= <-]; by left]. intros H1. right. exists x.
  destruct (d_failureDestination x) as [fd|] eqn:Ef.
  - destruct (String.eqb target "main" && negb (mode_is x "webhook")) eqn:Em; [done|].
    assert (target = "main"%string → mode_is x "webhook" = true) as Hmain.
    { intros ->. by destruct (mode_is x "webhook"). }
    case_bool_decide as Hw.
    + destruct (normalizeHttpWebhookUrl (fd_to fd)) as [u|] eqn:Eu; [|done]. injection H1 as <-.
      eexists. split; [done|]. split; [done|]. split; [done|]. split; [done|].
      intros fd' [= <-]. split; [exact Hmain|]. intros _. by eapply normalizeHttpWebhookUrl_ok.
    + injection H1 as <-. exists x. do 4 (split; [done|]). intros fd' Hfd'. rewrite Ef in Hfd'.
      injection Hfd' as <-. by split; [|].
  - injection H1 as <-. exists x. do 4 (split; [done|]). congruence.
Qed.

(** All the checks together. *)
Lemma checks_valid def j d1 d2 :
  assertSupportedJobSpec (job_sessionTarget j) (job_payload j) = Ok tt →
  assertMainSessionAgentId (job_sessionTarget j) (job_agentId j) def = Ok tt →
  assertDeliverySupport (job_sessionTarget j) (job_delivery j) = Ok d1 →
  assertFailureDestinationSupport (job_sessionTarget j) d1 = Ok d2 →
  job_valid def (set_delivery j d2).
Proof.
  intros (Hm & Hi & Hs)%assertSupported_ok Hma Hd Hf.
  split; cbn [job_sessionTarget job_payload job_agentId job_delivery set_delivery].
  - intros Ht. split; [by apply Hm|]. by apply (assertMain_ok _ _ _ Hma).
  - done.
  - done.
  - intros d Hd2 Hn.
    destruct (assertFailure_ok _ _ _ Hf) as [[_ ->]|(x & y & -> & -> & Hmo & Hto & _)]; [done|].
    injection Hd2 as <-.
    destruct (assertDelivery_ok _ _ _ Hd) as [[_ ?]|(x' & y' & _ & [= <-] & _ & _ & Hc)]; [done|].
    unfold mode_is in *. rewrite Hmo, Hto in *. by apply Hc.
  - intros d fd Hd2 Hfd.
    destruct (assertFailure_ok _ _ _ Hf) as [[_ ->]|(x & y & -> & -> & _ & _ & Hc)]; [done|].
    injection Hd2 as <-. by apply Hc.
Qed.

Lemma job_valid_state def j s : job_valid def j → job_valid def (set_state j s).
Proof. by intros []. Qed.

Lemma jm_seq_ok a b j j' :
  jm_seq a b j = (j', Ok tt) → ∃ j1, a j = (j1, Ok tt) ∧ b j1 = (j', Ok tt).
Proof. unfold jm_seq. destruct (a j) as [j1 [[]|e]]; [eauto|done]. Qed.

Lemma jm_try_ok f j j' : jm_try f j = (j', Ok tt) → f j = Ok j'.
Proof. unfold jm_try. destruct (f j); congruence. Qed.

Lemma set_delivery_twice j d d' : set_delivery (set_delivery j d) d' = set_delivery j d'.
Proof. done. Qed.

Lemma validateJob_ok def j j' : validateJob def j = (j', Ok tt) → job_valid def j'.
Proof.
  intros (j1 & H1 & H2)%jm_seq_ok. apply jm_try_ok in H1. apply jm_seq_ok in H2 as (j2 & H2 & H3).
  apply jm_try_ok in H2, H3.
  apply result_bind_ok in H1 as ([] & Hs & ([] & Hm & [= <-])%result_bind_ok).
  apply result_bind_ok in H2 as (d1 & Hd & [= <-]).
  apply result_bind_ok in H3 as (d2 & Hf & [= <-]).
  rewrite set_delivery_twice. by eapply checks_valid.
Qed.

(** Steps that keep a relation between the job before and after. *)
Definition keeps (R : CronJob → CronJob → Prop) (m : JM) : Prop := ∀ j, R j (m j).1.

Section keeps.
Context (R : CronJob → CronJob → Prop) `{!PreOrder R}.

Lemma keeps_modify f : (∀ j, R j (f j)) → keeps R (jm_modify f).
Proof. intros Hk j. apply Hk. Qed.

Lemma keeps_try f : (∀ j j', f j = Ok j' → R j j') → keeps R (jm_try f).
Proof. intros H1 j. unfold jm_try. destruct (f j) eqn:E; [by apply H1|reflexivity]. Qed.

Lemma keeps_seq a b : keeps R a → keeps R b → keeps R (jm_seq a b).
Proof.
  intros Ha Hb j. unfold jm_seq. specialize (Ha j). destruct (a j) as [j1 [u|e]]; [|done].
  etransitivity; [exact Ha|apply Hb].
Qed.

Lemma keeps_when {A} (o : option A) f : (∀ a, o = Some a → keeps R (f a)) → keeps R (jm_when o f).
Proof. intros H1. destruct o; [by apply H1|]. intros j. reflexivity. Qed.

End keeps.

Definition same_identity (j j' : CronJob) : Prop := job_id j' = job_id j ∧ job_createdAtMs j' = job_createdAtMs j.

#[export] Instance same_identity_preorder : PreOrder same_identity.
Proof. split; [by intros j|]. intros a b c [H1 H2] [H3 H4]. by split; etransitivity. Qed.

(** The run in progress, unless the patch sets it; a job that is enabled afterwards was
    enabled before, unless the patch enables it. *)
Definition same_marker (patch : CronJobPatch) (j j' : CronJob) : Prop :=
  (p_state patch ≫= sp_runningAtMs = None → runningAtMs (job_state j') = runningAtMs (job_state j)) ∧
  (job_enabled j' = true → job_enabled j = true ∨ p_enabled patch = Some true).

#[export] Instance same_marker_preorder patch : PreOrder (same_marker patch).
Proof.
  split; [intros j; split; [done|by left]|]. intros a b c [H1 H2] [H3 H4]. split.
  - intros Hp. by rewrite (H3 Hp), (H1 Hp).
  - intros [Hb|Hp]%H4; [by apply H2|by right].
Qed.

(** What [applyJobPatch] does, step by step. *)
Ltac patch_steps tac :=
  unfold applyJobPatch, mainSessionDelivery, validateJob;
  repeat ((apply keeps_seq; [apply _| |]) || (apply keeps_when; [apply _|intros ? ?]));
  lazymatch goal with
  | |- keeps _ (jm_modify _) => apply keeps_modify; intros j; tac
  | |- keeps _ (jm_try _) =>
      apply keeps_try; [apply _|]; intros j j'; unfold result_bind; repeat case_match; intros; simplify_eq; tac
  end.

Lemma applyJobPatch_keeps patch def : keeps same_identity (applyJobPatch patch def).
Proof. patch_steps ltac:((by repeat case_match)). Qed.

Lemma applyJobPatch_marker patch def : keeps (same_marker patch) (applyJobPatch patch def).
Proof.
  patch_steps ltac:(try (by repeat case_match; split; auto)).
  - split; [done|]. simpl. intros ->. by right.
  - split; [|by left]. simpl. intros Hp. match goal with H : p_state patch = _ |- _ => rewrite H in Hp end.
    simpl in Hp. by rewrite Hp.
Qed.

(** ** The wake-up time *)

Definition scheduled (j : CronJob) (t : Z) : Prop :=
  job_enabled j = true ∧ nextRunAtMs (job_state j) = Some t ∧ 0 < t.

Lemma nextWakeAtMs_spec jobs :
  match nextWakeAtMs jobs with
  | Some m => (∃ j, j ∈ jobs ∧ scheduled j m) ∧ ∀ j t, j ∈ jobs → scheduled j t → m <= t
  | None => ∀ j t, j ∈ jobs → ¬ scheduled j t
  end.
Proof.
  unfold nextWakeAtMs.
  set (f := λ j, job_enabled j && hasScheduledNextRunAtMs (nextRunAtMs (job_state j))).
  assert (∀ j, j ∈ List.filter f jobs ↔ j ∈ jobs ∧ ∃ t, scheduled j t) as Hf.
  { intros j. rewrite !list_elem_of_In, filter_In. unfold f, scheduled, hasScheduledNextRunAtMs.
    destruct (nextRunAtMs (job_state j)) as [t|].
    - rewrite andb_true_iff, Z.ltb_lt. naive_solver.
    - rewrite andb_false_r. naive_solver. }
  assert (∀ l m, (∀ j, j ∈ l → ∃ t, scheduled j t) →
    let r := foldl (λ m j, match nextRunAtMs (job_state j) with
               Some next => if 0 <? next then Z.min m next else m | None => m end) m l in
    (r = m ∨ ∃ j, j ∈ l ∧ scheduled j r) ∧ r <= m ∧ ∀ j t, j ∈ l → scheduled j t → r <= t) as Hfold.
  { induction l as [|x l IH]; intros m Hall; cbn [foldl].
    - repeat split; [by left|lia|by intros j t ?%not_elem_of_nil].
    - destruct (Hall x ltac:(by left)) as (t & He & Hn & Ht). rewrite Hn.
      destruct (Z.ltb_spec 0 t); [|lia].
      destruct (IH (Z.min m t)) as (H1 & H2 & H3); [intros j Hj; apply Hall; by right|].
      split; [|split; [lia|]].
      + destruct H1 as [->|(j & Hj & Hs)]; [|right; exists j; split; [by right|done]].
        destruct (Z.le_gt_cases m t); [left; lia|]. right. exists x.
        rewrite Z.min_r by lia. split; [by left|done].
      + intros j t' [->|Hj]%elem_of_cons Hs; [|by eapply H3].
        destruct Hs as (_ & Hn' & _). rewrite Hn in Hn'. injection Hn' as <-. lia. }
  destruct (List.filter f jobs) as [|j0 l].
  { intros j t Hj Hs. apply (not_elem_of_nil j), Hf. eauto. }
  destruct (proj1 (Hf j0) ltac:(by left)) as (Hin0 & t0 & He0 & Hn0 & Ht0).
  rewrite Hn0. destruct (Z.ltb_spec 0 t0); [|lia]. cbn [negb].
  assert (∀ j, j ∈ j0 :: l → ∃ t, scheduled j t) as Hall by (intros j Hj; by apply Hf).
  destruct (Hfold (j0 :: l) t0 Hall) as (H1 & H2 & H3). split.
  - destruct H1 as [->|(j & Hj & Hs)]; [exists j0; by split|].
    exists j. split; [|done]. by apply Hf.
  - intros j t Hj Hs. apply (H3 j t); [|done]. apply Hf. eauto.
Qed.

(** ** Maintenance *)

Lemma tick_enabled j now :
  job_enabled j = true →
  let t := normalizeJobTickState j now in
  tk_skip t = false ∧ job_enabled (tk_job t) = true ∧ job_id (tk_job t) = job_id j ∧
  job_name (tk_job t) = job_name j ∧ job_agentId (tk_job t) = job_agentId j ∧
  job_sessionKey (tk_job t) = job_sessionKey j ∧
  lastRunAtMs (job_state (tk_job t)) = lastRunAtMs (job_state j) ∧
  scheduleErrorCount (job_state (tk_job t)) = scheduleErrorCount (job_state j) ∧
  (is_every (job_schedule j) = false → job_schedule (tk_job t) = job_schedule j) ∧
  nextRunAtMs (job_state (tk_job t)) =
    if hasScheduledNextRunAtMs (nextRunAtMs (job_state j)) then nextRunAtMs (job_state j) else None.
Proof.
  intros He t. subst t. unfold normalizeJobTickState.
  set (p := match job_schedule j with SEvery _ _ => _ | _ => _ end).
  assert (job_enabled p.1 = true ∧ job_id p.1 = job_id j ∧ job_name p.1 = job_name j ∧
    job_agentId p.1 = job_agentId j ∧ job_sessionKey p.1 = job_sessionKey j ∧
    job_state p.1 = job_state j ∧
    (is_every (job_schedule j) = false → job_schedule p.1 = job_schedule j))
    as (H1 & H2 & H3 & H4 & H5 & H6 & H7).
  { subst p. destruct (job_schedule j) eqn:Es; cbn [is_every]; repeat case_match; simpl;
    do 6 (split; [done|]); first [done|intros; congruence]. }
  destruct p as [j1 c1]. cbn [fst] in *. unfold isJobEnabled. rewrite H1. cbn [negb].
  rewrite H6. unfold hasScheduledNextRunAtMs.
  destruct (nextRunAtMs (job_state j)) as [n|] eqn:En.
  - destruct (0 <? n) eqn:E0; cbn [negb andb]; [|rewrite bool_decide_eq_true_2 by done];
      repeat case_match; simpl; rewrite ?H1, ?H2, ?H3, ?H4, ?H5, ?H6, ?En; auto 15.
  - rewrite bool_decide_eq_false_2 by (by intros [? ?]). cbn [negb andb].
    repeat case_match; simpl; rewrite ?H1, ?H2, ?H3, ?H4, ?H5, ?H6, ?En; auto 15.
Qed.

Lemma tick_disabled j now :
  job_enabled j = false →
  let t := normalizeJobTickState j now in
  tk_skip t = true ∧ job_enabled (tk_job t) = false ∧
  nextRunAtMs (job_state (tk_job t)) = None ∧ runningAtMs (job_state (tk_job t)) = None.
Proof.
  intros He t. subst t. unfold normalizeJobTickState.
  set (p := match job_schedule j with SEvery _ _ => _ | _ => _ end).
  assert (job_enabled p.1 = false) as H1 by (subst p; by repeat case_match).
  destruct p as [j1 c1]. cbn [fst] in *. unfold isJobEnabled. by rewrite H1.
Qed.

Lemma walk_lookup jobs fn now i j :
  jobs !! i = Some j →
  (walkSchedulableJobs jobs fn now).1.1 !! i = Some (walkJob fn now j).1.1.
Proof. intros Hi. simpl. by rewrite list_lookup_fmap, list_lookup_fmap, Hi. Qed.

(** A step that leaves the scheduled run of the job alone keeps it in the walk. *)
Lemma walk_keeps fn now j t :
  job_enabled j = true → nextRunAtMs (job_state j) = Some t → 0 < t →
  (∀ j', nextRunAtMs (job_state j') = Some t →
         lastRunAtMs (job_state j') = lastRunAtMs (job_state j) → fn j' now = (j', false, [])) →
  job_id (walkJob fn now j).1.1 = job_id j ∧ job_enabled (walkJob fn now j).1.1 = true ∧
  nextRunAtMs (job_state (walkJob fn now j).1.1) = Some t ∧ (walkJob fn now j).2 = [].
Proof.
  intros He Hn Ht Hfn.
  destruct (tick_enabled j now He) as (H1 & H2 & H3 & _ & _ & _ & H4 & _ & _ & H5).
  unfold walkJob. rewrite H1. rewrite Hn in H5. unfold hasScheduledNextRunAtMs in H5.
  destruct (Z.ltb_spec 0 t); [|lia]. by rewrite Hfn.
Qed.

(** Schedules that croner rejects. *)
Definition rejected_schedule (j : CronJob) (err : string) : Prop :=
  ∃ e cr tz st, job_schedule j = SCron (Some e) cr tz st ∧ str_truthy (trim e) = true ∧
    new_Cron (trim e) (resolveCronTimezone tz) = Throw err.

Lemma rejected_throws j err now :
  rejected_schedule j err → job_enabled j = true → computeJobNextRunAtMs j now = Throw err.
Proof.
  intros (e & cr & tz & st & Hs & Ht & Hc) He.
  unfold computeJobNextRunAtMs, isJobEnabled. rewrite He, Hs. cbn [negb].
  assert (∀ t, computeNextRunAtMs (SCron (Some e) cr tz st) t = Throw err) as Hthrow.
  { intros t. simpl. destruct (trim e) as [|c u] eqn:Ee; [done|].
    unfold resolveCronFromSchedule, resolveCachedCron. simpl. rewrite Ee. rewrite ?Ee in Hc. by rewrite Hc. }
  unfold computeStaggeredCronNextRunAtMs. case_match; [by rewrite Hthrow|].
  cbn [staggeredNextLoop]. by rewrite Hthrow.
Qed.

(** What one pass does to such a job when its next run is missing. *)
Lemma walk_rejected j err now c :
  rejected_schedule j err → job_enabled j = true → nextRunAtMs (job_state j) = None →
  scheduleErrorCount (job_state j) ?? 0 = c →
  let r := walkJob recomputeNextRunsStep now j in
  rejected_schedule r.1.1 err ∧ job_id r.1.1 = job_id j ∧ job_name r.1.1 = job_name j ∧
  job_agentId r.1.1 = job_agentId j ∧ job_sessionKey r.1.1 = job_sessionKey j ∧
  nextRunAtMs (job_state r.1.1) = None ∧ scheduleErrorCount (job_state r.1.1) = Some (c + 1) ∧
  job_enabled r.1.1 = (c + 1 <? MAX_SCHEDULE_ERRORS) ∧
  r.2 = if c + 1 <? MAX_SCHEDULE_ERRORS then [] else
        let key := "cron:" +:+ job_id j +:+ ":auto-disabled" in
        [EnqueueSystemEvent (AutoDisabledNotice (job_name j) (c + 1) err) (job_agentId j)
           (job_sessionKey j) (Some key);
         RequestHeartbeatNow key (job_agentId j) (job_sessionKey j)].
Proof.
  intros Hrej He Hn Hc r. subst r.
  destruct (tick_enabled j now He) as (H1 & H2 & H3 & H4 & H5 & H6 & _ & H7 & H8 & H9).
  unfold walkJob. rewrite H1. set (j1 := tk_job (normalizeJobTickState j now)) in *.
  rewrite Hn in H9. cbn in H9.
  assert (rejected_schedule j1 err) as Hrej1.
  { destruct Hrej as (e & cr & tz & st & Hs & Hrest). exists e, cr, tz, st.
    rewrite H8 by (by rewrite Hs). auto. }
  unfold recomputeNextRunsStep. rewrite H9. cbn [hasScheduledNextRunAtMs negb orb].
  unfold recomputeJobNextRunAtMs. rewrite (rejected_throws j1 err now Hrej1 H2).
  unfold recordScheduleComputeError. rewrite H7, Hc.
  rewrite <- H3, <- H4, <- H5, <- H6.
  destruct (Z.leb_spec MAX_SCHEDULE_ERRORS (c + 1)).
  - destruct (Z.ltb_spec (c + 1) MAX_SCHEDULE_ERRORS); [lia|]. by repeat split.
  - destruct (Z.ltb_spec (c + 1) MAX_SCHEDULE_ERRORS); [|lia]. by repeat split.
Qed.

End env.

(** ** Properties *)

(** Creation establishes validity: a job that [createJob] returns has a
    payload that fits its session target, a session id that is a safe path
    segment, an agent the main session belongs to, and webhook targets that are
    http(s) URLs; it is named, enabled by default, carries no surrounding
    whitespace in its name, and its next run is the computed one. *)
Lemma createJob_valid `{CronEnv} (now : Z) (id : string) (def : option string)
    (input : CronJobCreate) (job : CronJob) :
  createJob now id def input = Ok job →
  job_valid def job ∧ job_id job = id ∧ job_enabled job = (ci_enabled input ?? true) ∧
  str_truthy (job_name job) = true ∧ trim (job_name job) = job_name job ∧
  ∃ job0, job = set_nextRun job0 (nextRunAtMs (job_state job)) ∧
          computeJobNextRunAtMs job0 now = Ok (nextRunAtMs (job_state job)).
Proof.
  unfold createJob. intros (name & Hname & Hr)%result_bind_ok.
  apply result_bind_ok in Hr as ([] & Hs & ([] & Hm & (d1 & Hd & (d2 & Hf & (next & Hn & [= <-])%result_bind_ok)%result_bind_ok)%result_bind_ok)%result_bind_ok).
  set (j := mkJob _ _ _ _ _ _ _ _ _ _ _ _ _ _ _ _) in *.
  split; [apply job_valid_state; by eapply checks_valid|].
  split; [done|]. split; [done|]. cbn [job_name set_nextRun set_state set_delivery].
  unfold normalizeRequiredName in Hname. destruct (ci_name input) as [raw|]; [|done].
  destruct (trim raw) as [|c t] eqn:Et; [done|]. injection Hname as <-.
  split; [done|]. split; [change (trim (String c t) = String c t); rewrite <- Et; apply trim_idemp|].
  exists (set_delivery j d2). by split.
Qed.

Definition demoCreate : CronJobCreate :=
  mkCreate (Some "Ops"%string) None (Some " Nightly "%string) None None None
    (SCron (Some "0 * * * *"%string) None None VOther) "isolated" WakeNow
    (AgentTurnPayload (mkAgentTurn "report" None None None None None None None None))
    (Some (mkDelivery (Some "webhook"%string) None (Some " https://x.test/h "%string) None None None None))
    None emptyJobState.

Lemma createJob_valid_witness :
  ∃ job, @createJob demoEnv 7203000 "job-1" None demoCreate = Ok job ∧
         @job_valid demoEnv None job ∧ nextRunAtMs (job_state job) = Some 7205000.
Proof.
  destruct (@createJob demoEnv 7203000 "job-1" None demoCreate) as [job|e] eqn:E.
  - exists job. split; [done|]. split; [apply (createJob_valid _ _ _ _ _ E)|].
    vm_compute in E. by injection E as <-.
  - vm_compute in E. discriminate E.
Defined.

(** Patching preserves validity: a patch that is accepted leaves a valid job,
    whatever the job was before, with the same id and creation time. *)
Lemma applyJobPatch_valid `{CronEnv} (patch : CronJobPatch) (def : option string)
    (j j' : CronJob) :
  applyJobPatch patch def j = (j', Ok tt) →
  job_valid def j' ∧ job_id j' = job_id j ∧ job_createdAtMs j' = job_createdAtMs j.
Proof.
  intros Hp. pose proof (applyJobPatch_keeps patch def j) as Hk. rewrite Hp in Hk.
  split; [|exact Hk]. unfold applyJobPatch in Hp.
  do 14 (apply jm_seq_ok in Hp as (? & _ & Hp)). by eapply validateJob_ok.
Qed.

Definition demoJob : CronJob :=
  mkJob "job-1" None None "Nightly" None true None 0 0 (SEvery (VNum (num_of_Z 60000)) VOther)
    "main" WakeNow (SystemEvent "tick") None None emptyJobState.

Definition emptyPatch : CronJobPatch :=
  mkPatch None None None None None None None None None None None None None.

Definition demoPatch : CronJobPatch :=
  mkPatch (Some (Some "Hourly"%string)) None None None None (Some "isolated"%string) None
    (Some (AgentTurnPatchPayload (mkAgentTurnPatch (Some "go"%string) None None None None None None None)))
    None None None None None.

Lemma applyJobPatch_valid_witness :
  @job_valid demoEnv None (@applyJobPatch demoEnv demoPatch None demoJob).1 ∧
  job_name (@applyJobPatch demoEnv demoPatch None demoJob).1 = "Hourly"%string.
Proof.
  split; [|reflexivity].
  exact (proj1 (@applyJobPatch_valid demoEnv demoPatch None demoJob _ eq_refl)).
Defined.

(** A patch that is refused has already changed the job: the payload below is
    accepted before the session target it does not fit is checked. *)
Lemma refused_patch_mutates :
  let patch := mkPatch None None None None None None None
    (Some (AgentTurnPatchPayload (mkAgentTurnPatch (Some "go"%string) None None None None None None None)))
    None None None None None in
  let r := @applyJobPatch demoEnv patch None demoJob in
  is_ok r.2 = false ∧ is_agentTurn (job_payload r.1) = true ∧ ¬ @job_valid demoEnv None r.1.
Proof.
  split; [reflexivity|]. split; [reflexivity|]. intros [Hm _ _ _ _]. by destruct (Hm eq_refl).
Qed.

(** Maintenance never skips a run: a slot of an enabled job that lies in the
    future is kept by both passes, and a past-due slot that has not been executed
    (or, without [recomputeExpired], any slot) is kept by the maintenance pass, so
    that the job still runs for it. *)
Lemma maintenance_keeps_pending_runs `{CronEnv} (jobs : list CronJob) (expired : bool)
    (now t : Z) (i : nat) (j : CronJob) :
  jobs !! i = Some j → job_enabled j = true → nextRunAtMs (job_state j) = Some t → 0 < t →
  (now < t → ∃ j', (recomputeNextRuns jobs now).1.1 !! i = Some j' ∧
     job_id j' = job_id j ∧ job_enabled j' = true ∧ nextRunAtMs (job_state j') = Some t) ∧
  (expired = false ∨ now < t ∨ (∀ r, lastRunAtMs (job_state j) = Some r → r < t) →
   ∃ j', (recomputeNextRunsForMaintenance jobs expired now).1.1 !! i = Some j' ∧
     job_id j' = job_id j ∧ job_enabled j' = true ∧ nextRunAtMs (job_state j') = Some t).
Proof.
  intros Hi He Hn Ht. split; intros Hc; (eexists; split; [by apply walk_lookup|]).
  - destruct (walk_keeps recomputeNextRunsStep now j t He Hn Ht) as (H1 & H2 & H3 & _); [|done].
    intros j' Hn' _. unfold recomputeNextRunsStep. rewrite Hn'. cbn [hasScheduledNextRunAtMs default].
    destruct (Z.ltb_spec 0 t); [|lia]. simpl. by destruct (Z.leb_spec t now); [lia|].
  - destruct (walk_keeps (maintenanceStep expired) now j t He Hn Ht) as (H1 & H2 & H3 & _); [|done].
    intros j' Hn' Hl. unfold maintenanceStep. rewrite Hn', Hl. cbn [hasScheduledNextRunAtMs].
    destruct (Z.ltb_spec 0 t); [|lia]. simpl. destruct expired; simpl; [|done].
    destruct (Z.leb_spec t now); simpl; [|done]. case_bool_decide; [|done].
    destruct (lastRunAtMs (job_state j)) as [r|]; [|done].
    destruct Hc as [?|[?|Hc]]; [done|lia|]. specialize (Hc r eq_refl).
    by destruct (Z.leb_spec t r); [lia|].
Qed.

Lemma maintenance_keeps_pending_runs_witness :
  ∃ j', (@recomputeNextRunsForMaintenance demoEnv
           [set_state demoJob (st_lastRun (st_nextRun emptyJobState (Some 5000)) (Some 4000))] true 9000).1.1
        !! 0%nat = Some j' ∧ nextRunAtMs (job_state j') = Some 5000.
Proof.
  destruct (proj2 (@maintenance_keeps_pending_runs demoEnv
    [set_state demoJob (st_lastRun (st_nextRun emptyJobState (Some 5000)) (Some 4000))] true 9000 5000
    0%nat _ eq_refl eq_refl eq_refl eq_refl)) as (j' & Hj & _ & _ & Hn).
  { right. right. intros r [= <-]. reflexivity. }
  exists j'. split; [exact Hj|exact Hn].
Defined.

(** C39. A schedule that cannot be evaluated is contained: the passes never fail on
    it, the job is disabled by the third pass and not before, the user is notified
    exactly then, and later passes are silent. *)
Theorem rejected_schedule_is_disabled_once `{CronEnv} (j : CronJob) (err : string) (t1 t2 t3 t4 : Z) :
  rejected_schedule j err → job_enabled j = true → nextRunAtMs (job_state j) = None →
  scheduleErrorCount (job_state j) = None →
  let r1 := walkJob recomputeNextRunsStep t1 j in
  let r2 := walkJob recomputeNextRunsStep t2 r1.1.1 in
  let r3 := walkJob recomputeNextRunsStep t3 r2.1.1 in
  let r4 := walkJob recomputeNextRunsStep t4 r3.1.1 in
  job_enabled r1.1.1 = true ∧ job_enabled r2.1.1 = true ∧ job_enabled r3.1.1 = false ∧
  job_enabled r4.1.1 = false ∧ r1.2 = [] ∧ r2.2 = [] ∧ r4.2 = [] ∧
  let key := "cron:" +:+ job_id j +:+ ":auto-disabled" in
  r3.2 = [EnqueueSystemEvent (AutoDisabledNotice (job_name j) 3 err) (job_agentId j)
            (job_sessionKey j) (Some key);
          RequestHeartbeatNow key (job_agentId j) (job_sessionKey j)].
Proof.
  intros Hrej He Hn Hc r1 r2 r3 r4.
  destruct (walk_rejected j err t1 0 Hrej He Hn ltac:(by rewrite Hc))
    as (Hr1 & I1 & N1 & A1 & S1 & Hn1 & Hc1 & He1 & E1). fold r1 in Hr1, I1, N1, A1, S1, Hn1, Hc1, He1, E1.
  destruct (walk_rejected r1.1.1 err t2 1 Hr1 He1 Hn1 ltac:(by rewrite Hc1))
    as (Hr2 & I2 & N2 & A2 & S2 & Hn2 & Hc2 & He2 & E2). fold r2 in Hr2, I2, N2, A2, S2, Hn2, Hc2, He2, E2.
  destruct (walk_rejected r2.1.1 err t3 2 Hr2 He2 Hn2 ltac:(by rewrite Hc2))
    as (Hr3 & I3 & N3 & A3 & S3 & Hn3 & Hc3 & He3 & E3). fold r3 in Hr3, I3, N3, A3, S3, Hn3, Hc3, He3, E3.
  destruct (tick_disabled r3.1.1 t4 He3) as (Hskip & Hdis & _).
  assert (r4 = (tk_job (normalizeJobTickState r3.1.1 t4), tk_changed (normalizeJobTickState r3.1.1 t4), []))
    as -> by (subst r4; unfold walkJob; by rewrite Hskip).
  rewrite I2, I1, N2, N1, A2, A1, S2, S1 in E3. repeat split; assumption || done.
Qed.

Definition badJob : CronJob := set_schedule demoJob (SCron (Some " bad "%string) None None VOther).

Lemma rejected_schedule_is_disabled_once_witness :
  let r := walkJob (@recomputeNextRunsStep demoEnv) in
  job_enabled (r 30 (r 20 (r 10 badJob).1.1).1.1).1.1 = false.
Proof.
  destruct (@rejected_schedule_is_disabled_once demoEnv badJob "TypeError: bad pattern" 10 20 30 40)
    as (_ & _ & Hd & _); [|reflexivity|reflexivity|reflexivity|exact Hd].
  exists " bad "%string, None, None, VOther. repeat split.
Defined.

End CronJobs.
