(* ===== verification/CronTimer.v ===== *)
(** * Running cron jobs: src/cron/service/timer.ts, timeout-policy.ts, ../delivery-plan.ts

    Which jobs are due, how a job of the main session is executed, and what a
    finished run does to the job: error tracking, failure alerts, back-off,
    retry of one-shot jobs and the next run. The tick that ties these together
    is in CronLoop.v. *)

From Stdlib Require Import Ascii.
From S2P Require Import Prelude JsNumber HeartbeatWake CronTypes CronSchedule CronJobs.

Module CronTimer.
Import StringCoerce JsNumber CronTypes CronSchedule CronJobs.
Import HeartbeatWake(HeartbeatRunResult(..), heartbeatBusy).

(** ** Configuration: src/config/types.cron.ts

    The schema admits integers only for the retry attempts and delays. *)

Inductive CronRetryOn := RetryRateLimit | RetryOverloaded | RetryNetwork | RetryTimeout
                       | RetryServerError.

Record CronRetryConfig := mkRetryConfig {
  rc_maxAttempts : option Z;
  rc_backoffMs : option (list Z);
  rc_retryOn : option (list CronRetryOn);
}.

Record CronFailureAlertConfig := mkAlertConfig {
  fc_enabled : option bool;
  fc_after : option num;
  fc_cooldownMs : option num;
  fc_mode : option string;
  fc_accountId : option string;
}.

Record CronConfig := mkCronConfig {
  maxConcurrentRuns : option num;
  retry : option CronRetryConfig;
  failureAlert : option CronFailureAlertConfig;
}.

(** The part of [CronServiceDeps] that decides; [hasSendAlert] and
    [hasRunHeartbeatOnce] tell whether the optional callbacks are given. *)
Record CronServiceDeps := mkDeps {
  cronEnabled : bool;
  cronConfig : option CronConfig;
  missedJobStaggerMs : option Z;
  maxMissedJobsPerRestart : option Z;
  hasSendAlert : bool;
  hasRunHeartbeatOnce : bool;
  wakeNowHeartbeatBusyMaxWaitMs : option Z;
}.

(** ** Constants *)

Definition MAX_TIMER_DELAY_MS : Z := 60000.
Definition MIN_REFIRE_GAP_MS : Z := 2000.
Definition DEFAULT_MISSED_JOB_STAGGER_MS : Z := 5000.
Definition DEFAULT_MAX_MISSED_JOBS_PER_RESTART : Z := 5.
Definition DEFAULT_FAILURE_ALERT_AFTER : Z := 2.
Definition DEFAULT_FAILURE_ALERT_COOLDOWN_MS : Z := 60 * 60000.
Definition DEFAULT_BACKOFF_SCHEDULE_MS : list Z :=
  [30000; 60000; 5 * 60000; 15 * 60000; 60 * 60000].
Definition DEFAULT_MAX_TRANSIENT_RETRIES : Z := 3.

(** ** Timeouts: timeout-policy.ts *)

Definition DEFAULT_JOB_TIMEOUT_MS : Z := 10 * 60000.
Definition AGENT_TURN_SAFETY_TIMEOUT_MS : Z := 60 * 60000.

(** [Math.floor(timeoutSeconds * 1000)] *)
Definition secondsToMs (n : num) : num :=
  match n with Fin q => num_of_Z (floorQ (q * 1000)) | _ => n end.

Definition resolveCronJobTimeoutMs (job : CronJob) : option num :=
  match job_payload job with
  | AgentTurnPayload t =>
      match at_timeoutSeconds t with
      | None => Some (num_of_Z AGENT_TURN_SAFETY_TIMEOUT_MS)
      | Some seconds =>
          let ms := secondsToMs seconds in
          match ms with
          | NaN => Some ms
          | _ => if num_ltb (num_of_Z 0) ms then Some ms else None
          end
      end
  | SystemEvent _ => Some (num_of_Z DEFAULT_JOB_TIMEOUT_MS)
  end.

Definition timeoutErrorMessage : string := "cron: job execution timed out".

(** What a [catch] receives: an [Error], a string, or another value with its
    [String(err)]. *)
Inductive Thrown :=
| ThrownError (name message : string)
| ThrownString (s : string)
| ThrownOther (text : string).

Definition isAbortError (err : Thrown) : bool :=
  match err with
  | ThrownError name message => String.eqb name "AbortError" || String.eqb message timeoutErrorMessage
  | _ => false
  end.

(** [String(err)] *)
Definition thrownText (err : Thrown) : string :=
  match err with
  | ThrownError name message =>
      if negb (str_truthy name) then message
      else if negb (str_truthy message) then name else name +:+ ": " +:+ message
  | ThrownString s | ThrownOther s => s
  end.

Definition normalizeCronRunErrorText (err : Thrown) : string :=
  if isAbortError err then timeoutErrorMessage
  else match err with
       | ThrownString s =>
           if String.eqb s ("Error: " +:+ timeoutErrorMessage) then timeoutErrorMessage else s
       | _ => thrownText err
       end.

(** ** Back-off and transient errors *)

(** The schedules are never empty: see [resolveRetryConfig]. *)
Definition errorBackoffMs (consecutiveErrors : Z) (scheduleMs : list Z) : Z :=
  let idx := Z.min (consecutiveErrors - 1) (Z.of_nat (length scheduleMs) - 1) in
  nth (Z.to_nat (Z.max 0 idx)) scheduleMs 0.

(** [\w] *)
Definition is_word_char (c : Ascii.ascii) : bool :=
  let n := N_of_ascii c in
  ((48 <=? n) && (n <=? 57) || (65 <=? n) && (n <=? 90) || (97 <=? n) && (n <=? 122) || (n =? 95))%N.

Definition next_is_word (s : string) : bool :=
  match s with EmptyString => false | String c _ => is_word_char c end.

(** [/\bP\b/] for a pattern [P] of word characters that starts with one;
    [at_ s] is what remains of [s] after a match of [P] at its head. *)
Fixpoint word_search (at_ : string → option string) (prevWord : bool) (s : string) : bool :=
  (negb prevWord && match at_ s with Some rest => negb (next_is_word rest) | None => false end) ||
  match s with
  | EmptyString => false
  | String c s' => word_search at_ (is_word_char c) s'
  end.

Definition drop_literal (w s : string) : option string :=
  if starts_with s w then Some (str_drop (String.length w) s) else None.

(** [5\d{2}] *)
Definition drop_5xx (s : string) : option string :=
  match s with
  | String a (String b (String c rest)) =>
      if Ascii.eqb a "5" && is_digit_char b && is_digit_char c then Some rest else None
  | _ => None
  end.

Definition has_word (w s : string) : bool := word_search (drop_literal w) false s.
Definition includes_any (ws : list string) (s : string) : bool := existsb (includes s) ws.

(** The patterns but the last ignore case. *)
Definition TRANSIENT_PATTERNS (key : CronRetryOn) (error : string) : bool :=
  let e := lower error in
  match key with
  | RetryRateLimit =>
      includes_any ["rate_limit"; "rate limit"; "too many requests"; "429";
                    "resource has been exhausted"; "cloudflare"; "tokens per day"] e
  | RetryOverloaded =>
      has_word "529" e || has_word "overloaded" e || has_word "overloaded_error" e ||
      includes_any ["high demand"; "temporarily overloaded"; "temporary overloaded";
                    "capacity exceeded"] e
  | RetryNetwork =>
      includes_any ["network"; "econnreset"; "econnrefused"; "fetch failed"; "socket"] e
  | RetryTimeout => includes_any ["timeout"; "etimedout"] e
  | RetryServerError => word_search drop_5xx false error
  end.

Definition allRetryKeys : list CronRetryOn :=
  [RetryRateLimit; RetryOverloaded; RetryNetwork; RetryTimeout; RetryServerError].

Definition isTransientCronError (error : option string) (retryOn : option (list CronRetryOn)) : bool :=
  match error with
  | Some e =>
      if str_truthy e then
        let keys := match retryOn with Some (k :: ks) => k :: ks | _ => allRetryKeys end in
        existsb (λ k, TRANSIENT_PATTERNS k e) keys
      else false
  | None => false
  end.

Record RetryPolicy := mkRetryPolicy {
  maxAttempts : Z;
  backoffMs : list Z;
  retryOn : option (list CronRetryOn);
}.

Definition resolveRetryConfig (cfg : option CronConfig) : RetryPolicy :=
  let r := c ← cfg; retry c in
  mkRetryPolicy
    ((r ≫= rc_maxAttempts) ?? DEFAULT_MAX_TRANSIENT_RETRIES)
    (match r ≫= rc_backoffMs with
     | Some (b :: bs) => b :: bs
     | _ => take 3 DEFAULT_BACKOFF_SCHEDULE_MS
     end)
    (match r ≫= rc_retryOn with Some (k :: ks) => Some (k :: ks) | _ => None end).

(** ** Delivery plan: delivery-plan.ts *)

Record CronDeliveryPlan := mkPlan {
  pl_mode : string;
  pl_channel : option string;
  pl_to : option string;
  pl_threadId : option (num + string);
  pl_accountId : option string;
  pl_requested : bool;
}.

Definition normalizeChannel (value : option string) : option string :=
  match normalizeOptionalLowercaseString value with
  | Some EmptyString | None => None
  | Some trimmed => Some trimmed
  end.

Definition planMode (rawMode : option string) : option string :=
  match normalizeLowercaseStringOrEmpty <$> (Some <$> rawMode) with
  | None => None
  | Some m =>
      if String.eqb m "announce" then Some "announce"%string
      else if String.eqb m "webhook" then Some "webhook"%string
      else if String.eqb m "none" then Some "none"%string
      else if String.eqb m "deliver" then Some "announce"%string
      else None
  end.

Definition resolveCronDeliveryPlan (job : CronJob) : CronDeliveryPlan :=
  match job_delivery job with
  | Some d =>
      let resolvedMode := planMode (d_mode d) ?? "announce"%string in
      let announce := String.eqb resolvedMode "announce" in
      mkPlan resolvedMode
        (if announce then Some (normalizeChannel (d_channel d) ?? "last"%string) else None)
        (normalizeOptionalString (d_to d))
        (if announce then normalizeOptionalThreadValue (d_threadId d) else None)
        (normalizeOptionalString (d_accountId d)) announce
  | None =>
      let isIsolatedAgentTurn :=
        is_agentTurn (job_payload job) && isIsolatedLike (job_sessionTarget job) in
      mkPlan (if isIsolatedAgentTurn then "announce" else "none")
        (if isIsolatedAgentTurn then Some "last"%string else None) None None None
        isIsolatedAgentTurn
  end.

Definition resolveDeliveryStatus (job : CronJob) (delivered : option bool) : CronDeliveryStatus :=
  match delivered with
  | Some true => Delivered
  | Some false => NotDelivered
  | None => if pl_requested (resolveCronDeliveryPlan job) then DeliveryUnknown else NotRequested
  end.

(** ** Failure alerts *)

Definition normalizeCronMessageChannel (input : option string) : option string :=
  match normalizeOptionalLowercaseString input with
  | Some EmptyString | None => None
  | Some channel => Some channel
  end.

Definition normalizeTo (input : option string) : option string :=
  match input with
  | None => None
  | Some raw => let to := trim raw in if str_truthy to then Some to else None
  end.

Definition clampPositiveInt (value : option num) (fallback : Z) : Z :=
  match value ≫= finite_num with
  | None => fallback
  | Some q => let floored := floorQ q in if 1 <=? floored then floored else fallback
  end.

Definition clampNonNegativeInt (value : option num) (fallback : Z) : Z :=
  match value ≫= finite_num with
  | None => fallback
  | Some q => let floored := floorQ q in if 0 <=? floored then floored else fallback
  end.

(** [a ?? b] *)
Definition or_else {A} (a b : option A) : option A :=
  match a with Some _ => a | None => b end.

Record ResolvedAlert := mkResolvedAlert {
  ra_after : Z;
  ra_cooldownMs : Z;
  ra_channel : string;
  ra_to : option string;
  ra_mode : option string;
  ra_accountId : option string;
}.

Definition resolveFailureAlert (deps : CronServiceDeps) (job : CronJob) : option ResolvedAlert :=
  let globalConfig := cronConfig deps ≫= failureAlert in
  let resolve (jobConfig : option CronFailureAlert) :=
    let mode := or_else (jobConfig ≫= fa_mode) (globalConfig ≫= fc_mode) in
    let explicitTo := normalizeTo (jobConfig ≫= fa_to) in
    mkResolvedAlert
      (clampPositiveInt (or_else (jobConfig ≫= fa_after) (globalConfig ≫= fc_after))
         DEFAULT_FAILURE_ALERT_AFTER)
      (clampNonNegativeInt (or_else (jobConfig ≫= fa_cooldownMs) (globalConfig ≫= fc_cooldownMs))
         DEFAULT_FAILURE_ALERT_COOLDOWN_MS)
      (or_else (normalizeCronMessageChannel (jobConfig ≫= fa_channel))
         (normalizeCronMessageChannel (job_delivery job ≫= d_channel)) ?? "last"%string)
      (if bool_decide (mode = Some "webhook"%string) then explicitTo
       else or_else explicitTo (normalizeTo (job_delivery job ≫= d_to)))
      mode
      (or_else (jobConfig ≫= fa_accountId) (globalConfig ≫= fc_accountId)) in
  match job_failureAlert job with
  | Some AlertFalse => None
  | Some (AlertConfig c) => Some (resolve (Some c))
  | None =>
      if bool_decide ((globalConfig ≫= fc_enabled) = Some true) then Some (resolve None) else None
  end.

Definition newline : string := String (Ascii.ascii_of_nat 10) EmptyString.

Definition failureAlertText (job : CronJob) (error : option string) (errors : Z) : string :=
  let safeJobName := str_or (job_name job) (job_id job) in
  let truncatedError :=
    str_take 200 (str_or (trim (error ?? EmptyString)) "unknown error") in
  join_with newline
    ["Cron job " +:+ quoted safeJobName +:+ " failed " +:+ pretty errors +:+ " times";
     "Last error: " +:+ truncatedError].

Definition emitFailureAlert (deps : CronServiceDeps) (job : CronJob) (error : option string)
    (errors : Z) (alert : ResolvedAlert) : list CronEffect :=
  let text := failureAlertText job error errors in
  if hasSendAlert deps then
    [SendCronFailureAlert (job_id job) text (ra_channel alert) (ra_to alert) (ra_mode alert)
       (ra_accountId alert)]
  else
    EnqueueSystemEvent (PlainText text) (job_agentId job) None None ::
    (if bool_decide (job_wakeMode job = WakeNow)
     then [RequestHeartbeatNow ("cron:" +:+ job_id job +:+ ":failure-alert") None None] else []).


(** ** The result of a run *)

Record JobResult := mkResult {
  res_status : CronRunStatus;
  res_error : option string;
  res_delivered : option bool;
  res_startedAt : Z;
  res_endedAt : Z;
}.

Definition is_error (s : CronRunStatus) : bool :=
  match s with StatusError => true | _ => false end.

(** [now] is the clock reading taken for the cooldown. *)
Definition inCooldown (now : Z) (lastAlert : option Z) (alert : ResolvedAlert) : bool :=
  match lastAlert with
  | Some last => now - last <? Z.max 0 (ra_cooldownMs alert)
  | None => false
  end.

Definition isBestEffort (job : CronJob) : bool :=
  bool_decide ((job_delivery job ≫= d_bestEffort) = Some true).

Definition trackErrors (deps : CronServiceDeps) (now : Z) (job : CronJob) (result : JobResult)
    : CronJob * list CronEffect :=
  let s := job_state job in
  if is_error (res_status result) then
    let errors := (consecutiveErrors s ?? 0) + 1 in
    let counted := set_state job (st_consecutive s (Some errors) (lastFailureAlertAtMs s)) in
    match resolveFailureAlert deps job with
    | Some alert =>
        if (ra_after alert <=? errors) && negb (isBestEffort job) &&
           negb (inCooldown now (lastFailureAlertAtMs s) alert)
        then (set_state job (st_consecutive s (Some errors) (Some now)),
              emitFailureAlert deps counted (res_error result) errors alert)
        else (counted, [])
    | None => (counted, [])
    end
  else (set_state job (st_consecutive s (Some 0) None), []).

(** ** Active jobs: active-jobs.ts *)

Definition markCronJobActive (active : gset string) (jobId : string) : gset string :=
  if str_truthy jobId then {[jobId]} ∪ active else active.

Definition clearCronJobActive (active : gset string) (jobId : string) : gset string :=
  if str_truthy jobId then active ∖ {[jobId]} else active.

Definition isCronJobActive (active : gset string) (jobId : string) : bool :=
  if str_truthy jobId then bool_decide (jobId ∈ active) else false.

Section env.
Context `{CronEnv}.

(** src/agents/failover-error.ts, which classifies provider errors, only fills
    [lastErrorReason]. *)
Context (resolveFailoverReasonFromError : string → option string).

Definition recordRun (job : CronJob) (result : JobResult) : CronJob :=
  let s := job_state job in
  let deliveryStatus := resolveDeliveryStatus job (res_delivered result) in
  let reason :=
    if is_error (res_status result)
    then res_error result ≫= resolveFailoverReasonFromError else None in
  let deliveryError :=
    match deliveryStatus, res_error result with
    | NotDelivered, Some e => if str_truthy e then Some e else None
    | _, _ => None
    end in
  set_updatedAtMs
    (set_state job
       (mkJobState (nextRunAtMs s) None (Some (res_startedAt result)) (Some (res_status result))
          (Some (res_status result)) (res_error result) reason
          (Some (Z.max 0 (res_endedAt result - res_startedAt result)))
          (consecutiveErrors s) (lastFailureAlertAtMs s) (scheduleErrorCount s)
          (Some deliveryStatus) deliveryError (res_delivered result)))
    (res_endedAt result).

(** The next run after [endedAt], as the [try] blocks compute it: the job may be
    changed by a schedule error. *)
Definition computeNextAfter (preserveSchedule : bool) (prevLastRunAtMs : option Z)
    (job : CronJob) (endedAt : Z) : CronJob * option Z * list CronEffect :=
  let source :=
    if preserveSchedule && is_every (job_schedule job)
    then set_state job (st_lastRun (job_state job) prevLastRunAtMs) else job in
  match computeJobNextRunAtMs source endedAt with
  | Ok next => (job, next, [])
  | Throw err =>
      let '(job', effs) := recordScheduleComputeError job err in (job', None, effs)
  end.

Definition later (next : option Z) (floor : Z) : Z :=
  match next with Some n => Z.max n floor | None => floor end.

(** The last part of [applyJobResult]: the schedule of a job that is kept. *)
Definition scheduleNext (deps : CronServiceDeps) (preserveSchedule : bool)
    (prevLastRunAtMs : option Z) (job : CronJob) (result : JobResult)
    : CronJob * list CronEffect :=
  let errors := consecutiveErrors (job_state job) ?? 1 in
  if is_at (job_schedule job) then
    if is_error (res_status result) then
      let retryConfig := resolveRetryConfig (cronConfig deps) in
      if isTransientCronError (res_error result) (retryOn retryConfig) &&
         (errors <=? maxAttempts retryConfig)
      then (set_nextRun job
              (Some (res_endedAt result + errorBackoffMs errors (backoffMs retryConfig))), [])
      else (set_nextRun (set_enabled job false) None, [])
    else (set_nextRun (set_enabled job false) None, [])
  else if is_error (res_status result) && isJobEnabled job then
    let backoff := errorBackoffMs errors DEFAULT_BACKOFF_SCHEDULE_MS in
    let '(job1, normalNext, effs) :=
      computeNextAfter preserveSchedule prevLastRunAtMs job (res_endedAt result) in
    (set_nextRun job1 (Some (later normalNext (res_endedAt result + backoff))), effs)
  else if isJobEnabled job then
    let '(job1, naturalNext, effs) :=
      computeNextAfter preserveSchedule prevLastRunAtMs job (res_endedAt result) in
    if is_cron (job_schedule job)
    then (set_nextRun job1 (Some (later naturalNext (res_endedAt result + MIN_REFIRE_GAP_MS))), effs)
    else (set_nextRun job1 naturalNext, effs)
  else (set_nextRun job None, []).

Definition shouldDeleteAfter (job : CronJob) (result : JobResult) : bool :=
  is_at (job_schedule job) && bool_decide (job_deleteAfterRun job = Some true) &&
  bool_decide (res_status result = StatusOk).

(** The job afterwards, whether it is to be deleted, and the effects. *)
Definition applyJobResult (deps : CronServiceDeps) (preserveSchedule : bool) (now : Z)
    (job : CronJob) (result : JobResult) : CronJob * bool * list CronEffect :=
  let prevLastRunAtMs := lastRunAtMs (job_state job) in
  let recorded := recordRun job result in
  let '(tracked, alerts) := trackErrors deps now recorded result in
  if shouldDeleteAfter tracked result then (tracked, true, alerts)
  else
    let '(scheduled, effs) := scheduleNext deps preserveSchedule prevLastRunAtMs tracked result in
    (scheduled, false, alerts ++ effs).

(** ** Applying an outcome to the stored job *)

Record TimedCronRunOutcome := mkOutcome {
  oc_jobId : string;
  oc_taskRunId : option string;
  oc_status : CronRunStatus;
  oc_error : option string;
  oc_summary : option string;
  oc_delivered : option bool;
  oc_startedAt : Z;
  oc_endedAt : Z;
}.

Definition outcomeResult (o : TimedCronRunOutcome) : JobResult :=
  mkResult (oc_status o) (oc_error o) (oc_delivered o) (oc_startedAt o) (oc_endedAt o).

(** The error of an outcome is a string or absent. *)
Definition outcomeErrorText (error : option string) : string :=
  match error with
  | Some e => normalizeCronRunErrorText (ThrownString e)
  | None => "undefined"
  end.

Definition tryFinishCronTaskRun (o : TimedCronRunOutcome) : list CronEffect :=
  match oc_taskRunId o with
  | Some runId =>
      if negb (str_truthy runId) then []
      else if is_error (oc_status o) then
        let text := outcomeErrorText (oc_error o) in
        [FailTaskRun runId (String.eqb text timeoutErrorMessage) (oc_endedAt o) (Some text)
           (oc_summary o)]
      else [CompleteTaskRun runId (oc_endedAt o) (oc_summary o)]
  | None => []
  end.

Definition emitJobFinished (job : CronJob) (status : CronRunStatus) (error summary : option string)
    (delivered : option bool) (runAtMs : Z) : CronEffect :=
  let s := job_state job in
  EmitFinished (job_id job) status error summary delivered (lastDeliveryStatus s)
    (lastDeliveryError s) runAtMs (lastDurationMs s) (nextRunAtMs s).

(** The first job with the id is replaced. *)
Fixpoint replaceJob (jobs : list CronJob) (id : string) (job : CronJob) : list CronJob :=
  match jobs with
  | [] => []
  | j :: rest => if String.eqb (job_id j) id then job :: rest else j :: replaceJob rest id job
  end.

Definition findJob (jobs : list CronJob) (id : string) : option CronJob :=
  List.find (λ j, String.eqb (job_id j) id) jobs.

Definition removeJob (jobs : list CronJob) (id : string) : list CronJob :=
  List.filter (λ j, negb (String.eqb (job_id j) id)) jobs.

(** The jobs in memory and the set of active job ids. *)
Record CronMemory := mkMemory { mem_jobs : list CronJob; mem_active : gset string }.

Definition applyOutcomeToStoredJob (deps : CronServiceDeps) (now : Z) (mem : CronMemory)
    (o : TimedCronRunOutcome) : CronMemory * list CronEffect :=
  let active := clearCronJobActive (mem_active mem) (oc_jobId o) in
  let ledger := tryFinishCronTaskRun o in
  let jobs := mem_jobs mem in
  match findJob jobs (oc_jobId o) with
  | None => (mkMemory jobs active, ledger)
  | Some job =>
      let '(job', shouldDelete, effs) := applyJobResult deps false now job (outcomeResult o) in
      let finished :=
        emitJobFinished job' (oc_status o) (oc_error o) (oc_summary o) (oc_delivered o)
          (oc_startedAt o) in
      if shouldDelete
      then (mkMemory (removeJob (replaceJob jobs (oc_jobId o) job') (job_id job')) active,
            ledger ++ effs ++ [finished; EmitRemoved (job_id job')])
      else (mkMemory (replaceJob jobs (oc_jobId o) job') active, ledger ++ effs ++ [finished])
  end.

(** ** Which jobs run *)

Definition isErrorBackoffPending (job : CronJob) (nowMs : Z) : bool :=
  let s := job_state job in
  if is_at (job_schedule job) || negb (bool_decide (lastStatus s = Some StatusError)) then false
  else match lastRunAtMs s with
       | None => false
       | Some lastRun =>
           let errors := match consecutiveErrors s with Some n => Z.max 1 n | None => 1 end in
           nowMs <? lastRun + errorBackoffMs errors DEFAULT_BACKOFF_SCHEDULE_MS
       end.

Record RunnableOpts := mkOpts {
  skipJobIds : list string;
  skipAtIfAlreadyRan : bool;
  allowCronMissedRunByLastRun : bool;
}.

Definition tickOpts : RunnableOpts := mkOpts [] false false.

(** A cron job whose previous occurrence lies after its last run. *)
Definition missedByLastRun (job : CronJob) (nowMs : Z) : bool :=
  match computeJobPreviousRunAtMs job nowMs with
  | Ok (Some previousRunAtMs) =>
      match lastRunAtMs (job_state job) with
      | Some lastRun => lastRun <? previousRunAtMs
      | None => false
      end
  | _ => false
  end.

Definition isRunnableJob (opts : RunnableOpts) (nowMs : Z) (job : CronJob) : bool :=
  let s := job_state job in
  if negb (isJobEnabled job) then false
  else if bool_decide (job_id job ∈ skipJobIds opts) then false
  else if bool_decide (is_Some (runningAtMs s)) then false
  else if skipAtIfAlreadyRan opts && is_at (job_schedule job) &&
          bool_decide (is_Some (lastStatus s)) then
    match lastStatus s, nextRunAtMs s, lastRunAtMs s with
    | Some StatusError, Some nextRun, Some lastRun =>
        if lastRun <? nextRun then nextRun <=? nowMs else false
    | _, _, _ => false
    end
  else
    let next := nextRunAtMs s in
    let scheduled := hasScheduledNextRunAtMs next in
    if scheduled && (next ?? 0 <=? nowMs) then true
    else if scheduled && (nowMs <? next ?? 0) && isErrorBackoffPending job nowMs then false
    else if negb (allowCronMissedRunByLastRun opts) || negb (is_cron (job_schedule job)) then false
    else missedByLastRun job nowMs.

Definition collectRunnableJobs (opts : RunnableOpts) (jobs : list CronJob) (nowMs : Z)
    : list CronJob :=
  List.filter (isRunnableJob opts nowMs) jobs.

(** [job.state.runningAtMs = now; job.state.lastError = undefined], on the jobs
    of the store that [due] points to. *)
Definition markRunning (now : Z) (job : CronJob) : CronJob :=
  set_state job (st_lastError (st_running (job_state job) (Some now)) None).

(** ** The timer *)

Definition timerDelay (nextAt now : Z) : Z :=
  let delay := Z.max (nextAt - now) 0 in
  let flooredDelay := if delay =? 0 then MIN_REFIRE_GAP_MS else delay in
  Z.min flooredDelay MAX_TIMER_DELAY_MS.

(** The delay of the timer that [armTimer] leaves armed. *)
Definition armTimer (deps : CronServiceDeps) (jobs : list CronJob) (now : Z) : option Z :=
  if negb (cronEnabled deps) then None
  else match nextWakeAtMs jobs with
       | None => None
       | Some nextAt => if nextAt =? 0 then None else Some (timerDelay nextAt now)
       end.

Definition resolveRunConcurrency (deps : CronServiceDeps) : Z :=
  match (cronConfig deps ≫= maxConcurrentRuns) ≫= finite_num with
  | None => 1
  | Some q => Z.max 1 (floorQ q)
  end.

(** [createCronTaskRunId] *)
Definition createCronTaskRunId (jobId : string) (startedAt : Z) : string :=
  "cron:" +:+ jobId +:+ ":" +:+ pretty startedAt.

(** ** Executing a job

    What a run observes is an argument: the results of the heartbeats, the clock
    readings, and whether the abort signal (the execution timeout) has fired. *)

Record CoreResult := mkCore {
  cr_status : CronRunStatus;
  cr_error : option string;
  cr_summary : option string;
  cr_delivered : option bool;
}.

Definition abortResult : CoreResult :=
  mkCore StatusError (Some timeoutErrorMessage) None None.

(** One iteration of the loop that waits for a heartbeat: the abort flag at its
    start, the heartbeat, the abort flag and the clock after it. *)
Record HeartbeatTurn := mkTurn {
  turn_aborted : bool;
  turn_heartbeat : HeartbeatRunResult;
  turn_abortedAfter : bool;
  turn_now : Z;
}.

(** [None]: the loop is still waiting after the turns given. *)
Fixpoint wakeNowLoop (job : CronJob) (text : string) (maxWaitMs waitStartedAt : Z)
    (turns : list HeartbeatTurn) : option (CoreResult * list CronEffect) :=
  match turns with
  | [] => None
  | t :: rest =>
      let handOver :=
        (mkCore StatusOk None (Some text) None,
         [RequestHeartbeatNow ("cron:" +:+ job_id job) (job_agentId job) (job_sessionKey job)]) in
      if turn_aborted t then Some (abortResult, [])
      else if heartbeatBusy (turn_heartbeat t) then
        if negb (is_at (job_schedule job)) then Some handOver
        else if turn_abortedAfter t then Some (abortResult, [])
        else if maxWaitMs <? turn_now t - waitStartedAt then Some handOver
        else wakeNowLoop job text maxWaitMs waitStartedAt rest
      else
        Some (match turn_heartbeat t with
              | HeartbeatRan _ => mkCore StatusOk None (Some text) None
              | HeartbeatSkipped reason => mkCore StatusSkipped (Some reason) (Some text) None
              | HeartbeatFailed reason => mkCore StatusError (Some reason) (Some text) None
              end, [])
  end.

Definition executeMainSessionCronJob (deps : CronServiceDeps) (job : CronJob) (aborted : bool)
    (waitStartedAt : Z) (turns : list HeartbeatTurn) : option (CoreResult * list CronEffect) :=
  match resolveJobPayloadTextForMain job with
  | None =>
      Some (mkCore StatusSkipped
              (Some (if is_systemEvent (job_payload job)
                     then "main job requires non-empty systemEvent text"
                     else "main job requires payload.kind=" +:+ quoted "systemEvent")) None None, [])
  | Some text =>
      let key := "cron:" +:+ job_id job in
      let event :=
        EnqueueSystemEvent (PlainText text) (job_agentId job) (job_sessionKey job) (Some key) in
      if bool_decide (job_wakeMode job = WakeNow) && hasRunHeartbeatOnce deps then
        match wakeNowLoop job text (wakeNowHeartbeatBusyMaxWaitMs deps ?? 2 * 60000)
                waitStartedAt turns with
        | Some (r, effs) => Some (r, event :: effs)
        | None => None
        end
      else if aborted then Some (abortResult, [event])
      else Some (mkCore StatusOk None (Some text) None,
                 [event; RequestHeartbeatNow key (job_agentId job) (job_sessionKey job)])
  end.

(** [res] is what the isolated agent run returns. *)
Definition executeDetachedCronJob (job : CronJob) (aborted : bool) (res : CoreResult)
    (abortedAfter : bool) : CoreResult :=
  if negb (is_agentTurn (job_payload job)) then
    mkCore StatusSkipped (Some "isolated job requires payload.kind=agentTurn"%string) None None
  else if aborted then abortResult
  else if abortedAfter then abortResult
  else res.

(** [aborted], [abortedLater] and [abortedAfter] are the abort flag when the run
    starts, before the heartbeat request, and after the isolated run. *)
Definition executeJobCore (deps : CronServiceDeps) (job : CronJob)
    (aborted abortedLater abortedAfter : bool) (waitStartedAt : Z) (turns : list HeartbeatTurn)
    (res : CoreResult) : option (CoreResult * list CronEffect) :=
  if aborted then Some (abortResult, [])
  else if String.eqb (job_sessionTarget job) "main"
  then executeMainSessionCronJob deps job abortedLater waitStartedAt turns
  else Some (executeDetachedCronJob job abortedLater res abortedAfter, []).

(** How the race of a run against its timeout ends. *)
Inductive RunEnd :=
| CoreReturned (r : CoreResult)
| CoreThrew (err : Thrown)
| TimedOut.

(** Without a timeout the race has one contestant. *)
Definition endPossible (job : CronJob) (e : RunEnd) : bool :=
  match e, resolveCronJobTimeoutMs job with TimedOut, None => false | _, _ => true end.

(** The end of [runDueJob] and [runStartupCatchupCandidate]. *)
Definition outcomeOf (jobId : string) (taskRunId : option string) (startedAt endedAt : Z)
    (e : RunEnd) : TimedCronRunOutcome :=
  match e with
  | CoreReturned r =>
      mkOutcome jobId taskRunId (cr_status r) (cr_error r) (cr_summary r) (cr_delivered r)
        startedAt endedAt
  | CoreThrew err =>
      mkOutcome jobId taskRunId StatusError (Some (normalizeCronRunErrorText err)) None None
        startedAt endedAt
  | TimedOut =>
      mkOutcome jobId taskRunId StatusError
        (Some (normalizeCronRunErrorText (ThrownError "Error" timeoutErrorMessage))) None None
        startedAt endedAt
  end.

(** [wake] *)
Definition wake (now : bool) (text : string) : bool * list CronEffect :=
  let t := trim text in
  if negb (str_truthy t) then (false, [])
  else (true, EnqueueSystemEvent (PlainText t) None None None ::
              (if now then [RequestHeartbeatNow "wake" None None] else [])).

(** ** Lemmas *)

(** What the parts of [applyJobResult] leave alone. *)
Definition same_job (j j' : CronJob) : Prop :=
  job_id j' = job_id j ∧ job_schedule j' = job_schedule j ∧
  job_deleteAfterRun j' = job_deleteAfterRun j ∧ job_delivery j' = job_delivery j ∧
  job_failureAlert j' = job_failureAlert j ∧ job_payload j' = job_payload j ∧
  job_sessionTarget j' = job_sessionTarget j ∧ job_wakeMode j' = job_wakeMode j ∧
  job_name j' = job_name j ∧ job_agentId j' = job_agentId j.

Lemma same_job_refl j : same_job j j.
Proof. by repeat split. Qed.

Lemma same_job_trans a b c : same_job a b → same_job b c → same_job a c.
Proof. unfold same_job. intuition congruence. Qed.

Lemma recordRun_same j r : same_job j (recordRun j r).
Proof. by repeat split. Qed.

Lemma trackErrors_same deps now j r : same_job j (trackErrors deps now j r).1.
Proof. unfold trackErrors. repeat case_match; by repeat split. Qed.

Lemma trackErrors_enabled deps now j r : job_enabled (trackErrors deps now j r).1 = job_enabled j.
Proof. unfold trackErrors. by repeat case_match. Qed.

Lemma trackErrors_state deps now j r :
  let s' := job_state (trackErrors deps now j r).1 in
  runningAtMs s' = runningAtMs (job_state j) ∧ lastRunAtMs s' = lastRunAtMs (job_state j) ∧
  consecutiveErrors s' =
    Some (if is_error (res_status r) then (consecutiveErrors (job_state j) ?? 0) + 1 else 0).
Proof. unfold trackErrors. by repeat case_match. Qed.

(** What schedule errors and the choice of the next run leave alone. *)
Definition same_run (j j' : CronJob) : Prop :=
  same_job j j' ∧ runningAtMs (job_state j') = runningAtMs (job_state j) ∧
  consecutiveErrors (job_state j') = consecutiveErrors (job_state j) ∧
  lastFailureAlertAtMs (job_state j') = lastFailureAlertAtMs (job_state j) ∧
  lastRunAtMs (job_state j') = lastRunAtMs (job_state j) ∧
  (job_enabled j' = true → job_enabled j = true).

Lemma same_run_trans a b c : same_run a b → same_run b c → same_run a c.
Proof. unfold same_run, same_job. intuition congruence. Qed.

Lemma recordScheduleComputeError_same j err : same_run j (recordScheduleComputeError j err).1.
Proof. unfold recordScheduleComputeError. destruct (_ <=? _); by repeat split. Qed.

Lemma set_nextRun_same j n : same_run j (set_nextRun j n).
Proof. by repeat split. Qed.

Lemma disable_same j n : same_run j (set_nextRun (set_enabled j false) n).
Proof. by repeat split. Qed.

Lemma computeNextAfter_same ps prev j t : same_run j (computeNextAfter ps prev j t).1.1.
Proof.
  unfold computeNextAfter. destruct (computeJobNextRunAtMs _ t) as [n|err]; [by repeat split|].
  pose proof (recordScheduleComputeError_same j err) as Hr.
  by destruct (recordScheduleComputeError j err).
Qed.

Lemma scheduleNext_same deps ps prev j r : same_run j (scheduleNext deps ps prev j r).1.
Proof.
  unfold scheduleNext. pose proof (computeNextAfter_same ps prev j (res_endedAt r)) as Hc.
  destruct (computeNextAfter ps prev j (res_endedAt r)) as [[j1 n] e]. cbn [fst] in Hc.
  repeat case_match; cbn [fst];
    first [apply disable_same|apply set_nextRun_same|
           eapply same_run_trans; [exact Hc|apply set_nextRun_same]].
Qed.

Lemma applyJobResult_spec deps ps now j r :
  let a := applyJobResult deps ps now j r in
  same_job j a.1.1 ∧ runningAtMs (job_state a.1.1) = None ∧
  consecutiveErrors (job_state a.1.1) =
    Some (if is_error (res_status r) then (consecutiveErrors (job_state j) ?? 0) + 1 else 0) ∧
  (job_enabled a.1.1 = true → job_enabled j = true) ∧
  a.1.2 = shouldDeleteAfter j r.
Proof.
  unfold applyJobResult.
  pose proof (trackErrors_same deps now (recordRun j r) r) as Hs.
  pose proof (trackErrors_state deps now (recordRun j r) r) as (Hr & _ & Hc).
  pose proof (trackErrors_enabled deps now (recordRun j r) r) as He.
  destruct (trackErrors deps now (recordRun j r) r) as [t al]. cbn [fst] in *.
  assert (same_job j t) as Hjt by (eapply same_job_trans; [apply recordRun_same|done]).
  assert (shouldDeleteAfter t r = shouldDeleteAfter j r) as Hd.
  { unfold shouldDeleteAfter. destruct Hjt as (_ & -> & -> & _). done. }
  destruct (shouldDeleteAfter t r) eqn:E.
  { cbn. split; [done|]. rewrite Hr, Hc, He, <- Hd. done. }
  pose proof (scheduleNext_same deps ps (lastRunAtMs (job_state j)) t r) as (H1 & H2 & H3 & _ & _ & H5).
  destruct (scheduleNext deps ps _ t r) as [sc ef]. cbn [fst snd] in *.
  split; [by eapply same_job_trans|]. rewrite H2, H3, Hr, Hc, <- Hd. do 2 (split; [done|]).
  split; [|done]. intros Hen. specialize (H5 Hen). by rewrite He in H5.
Qed.

(** The job once the run is recorded and its error counted. *)
Definition tracked (deps : CronServiceDeps) (now : Z) (j : CronJob) (r : JobResult) : CronJob :=
  (trackErrors deps now (recordRun j r) r).1.

Lemma tracked_same deps now j r : same_job j (tracked deps now j r).
Proof. eapply same_job_trans; [apply recordRun_same|apply trackErrors_same]. Qed.

Lemma tracked_state deps now j r :
  job_enabled (tracked deps now j r) = job_enabled j ∧
  consecutiveErrors (job_state (tracked deps now j r)) =
    Some (if is_error (res_status r) then (consecutiveErrors (job_state j) ?? 0) + 1 else 0).
Proof.
  split; [exact (trackErrors_enabled deps now (recordRun j r) r)|].
  exact (proj2 (proj2 (trackErrors_state deps now (recordRun j r) r))).
Qed.

Lemma applyJobResult_kept deps ps now j r :
  shouldDeleteAfter j r = false →
  (applyJobResult deps ps now j r).1.1 =
  (scheduleNext deps ps (lastRunAtMs (job_state j)) (tracked deps now j r) r).1.
Proof.
  intros Hd. unfold applyJobResult, tracked.
  pose proof (tracked_same deps now j r) as (_ & Hs & Hdel & _). unfold tracked in Hs, Hdel.
  destruct (trackErrors deps now (recordRun j r) r) as [t al]. cbn [fst] in *.
  assert (shouldDeleteAfter t r = false) as ->.
  { revert Hd. unfold shouldDeleteAfter. by rewrite Hs, Hdel. }
  by destruct (scheduleNext deps ps _ t r).
Qed.

Lemma recurring_kept j r : is_at (job_schedule j) = false → shouldDeleteAfter j r = false.
Proof. unfold shouldDeleteAfter. by intros ->. Qed.

Lemma error_kept j r : is_error (res_status r) = true → shouldDeleteAfter j r = false.
Proof. unfold shouldDeleteAfter. destruct (res_status r); try done. intros _. apply andb_false_r. Qed.

(** *** Back-off *)

Lemma errorBackoffMs_in n l : l ≠ [] → errorBackoffMs n l ∈ l.
Proof.
  intros Hl. unfold errorBackoffMs. apply list_elem_of_In, nth_In.
  destruct l; [done|]. simpl length. lia.
Qed.

Lemma default_backoff_bounds n : 30000 <= errorBackoffMs n DEFAULT_BACKOFF_SCHEDULE_MS <= 3600000.
Proof.
  assert (errorBackoffMs n DEFAULT_BACKOFF_SCHEDULE_MS ∈ DEFAULT_BACKOFF_SCHEDULE_MS) as H1
    by by apply errorBackoffMs_in.
  revert H1. generalize (errorBackoffMs n DEFAULT_BACKOFF_SCHEDULE_MS). intros z Hz.
  unfold DEFAULT_BACKOFF_SCHEDULE_MS in Hz. set_unfold in Hz. lia.
Qed.

Lemma default_backoff_mono a b :
  a <= b → errorBackoffMs a DEFAULT_BACKOFF_SCHEDULE_MS <= errorBackoffMs b DEFAULT_BACKOFF_SCHEDULE_MS.
Proof.
  intros Hab. unfold errorBackoffMs.
  assert (∀ m n, (m <= n < 5)%nat →
    nth m DEFAULT_BACKOFF_SCHEDULE_MS 0 <= nth n DEFAULT_BACKOFF_SCHEDULE_MS 0) as Hm.
  { intros m n Hmn. do 5 (destruct m as [|m]; [do 5 (destruct n as [|n]; [simpl; lia|]); lia|]). lia. }
  apply Hm. simpl length. lia.
Qed.

Lemma retry_backoff_nonempty cfg : backoffMs (resolveRetryConfig cfg) ≠ [].
Proof. unfold resolveRetryConfig. simpl. by case_match; [case_match|]. Qed.

(** *** The next run of recurring jobs *)

Lemma computeJobNextRunAtMs_future j now n :
  is_at (job_schedule j) = false → computeJobNextRunAtMs j now = Ok (Some n) →
  now <= n ∧ (is_cron (job_schedule j) = true → now < n).
Proof.
  unfold computeJobNextRunAtMs. destruct (isJobEnabled j); cbn [negb]; [|done].
  destruct (job_schedule j) as [|everyRaw anchorRaw|expr cr tz st] eqn:Es; try done; intros _.
  - intros Hn. split; [|done].
    destruct (coerceFiniteScheduleNumber everyRaw) as [q|]; [|done].
    assert (computeNextRunAtMs (SEvery (VNum (num_of_Z (Z.max 1 (floorQ q))))
      (VNum (num_of_Z (resolveEveryAnchorMs anchorRaw (job_createdAtMs j))))) now = Ok (Some n) →
      now <= n) as Hgrid.
    { unfold computeNextRunAtMs, coerceFiniteScheduleNumber, num_of_Z, finite_num.
      cbn [default]. rewrite !floorQ_inject. intros [= <-]. apply nextEveryRun_spec. lia. }
    destruct (lastRunAtMs (job_state j)) as [l|]; [|by apply Hgrid].
    destruct (Z.ltb_spec now (l + Z.max 1 (floorQ q))); [|by apply Hgrid].
    simplify_eq. lia.
  - unfold result_bind. intros Hn.
    assert (now < n) as Hlt; [|split; [lia|done]].
    destruct (computeStaggeredCronNextRunAtMs _ _ now) as [[m|]|] eqn:E; simplify_eq.
    + eapply computeStaggered_future; [|exact E]; done.
    + apply computeStaggered_future in Hn; [|done]. unfold nextSecond in Hn.
      pose proof (Z.div_mod now 1000 ltac:(lia)). pose proof (Z.mod_pos_bound now 1000). lia.
Qed.

(** The error of the scheduler's own timeout is not a transient one. *)
Lemma own_timeout_is_permanent : isTransientCronError (Some timeoutErrorMessage) None = false.
Proof. reflexivity. Qed.

(** *** Alerts *)

Definition is_alert (e : CronEffect) : bool :=
  match e with
  | SendCronFailureAlert _ _ _ _ _ _ | EnqueueSystemEvent (PlainText _) _ _ _ => true
  | _ => false
  end.

Lemma resolveFailureAlert_same deps j j' :
  same_job j j' → resolveFailureAlert deps j' = resolveFailureAlert deps j ∧
                  isBestEffort j' = isBestEffort j.
Proof.
  intros (_ & _ & _ & Hd & Hf & _). unfold resolveFailureAlert, isBestEffort.
  by rewrite Hd, Hf.
Qed.

Lemma scheduleNext_no_alert deps ps prev j r :
  existsb is_alert (scheduleNext deps ps prev j r).2 = false.
Proof.
  assert (∀ t, existsb is_alert (computeNextAfter ps prev j t).2 = false) as Hc.
  { intros t. unfold computeNextAfter. destruct (computeJobNextRunAtMs _ t); [done|].
    unfold recordScheduleComputeError. by destruct (_ <=? _). }
  specialize (Hc (res_endedAt r)). unfold scheduleNext.
  destruct (computeNextAfter ps prev j (res_endedAt r)) as [[j1 n] e].
  by repeat case_match.
Qed.

Lemma emitFailureAlert_alert deps j e n al : existsb is_alert (emitFailureAlert deps j e n al) = true.
Proof. unfold emitFailureAlert. by repeat case_match. Qed.

(** Whether the [n]-th error in a row raises an alert. *)
Definition raises (alert : ResolvedAlert) (bestEffort : bool) (now : Z) (lastAlert : option Z)
    (n : Z) : bool :=
  (ra_after alert <=? n) && negb bestEffort && negb (inCooldown now lastAlert alert).

Lemma applyJobResult_alert deps ps now j r alert :
  is_error (res_status r) = true → resolveFailureAlert deps j = Some alert →
  let a := applyJobResult deps ps now j r in
  let raised := raises alert (isBestEffort j) now (lastFailureAlertAtMs (job_state j))
                  ((consecutiveErrors (job_state j) ?? 0) + 1) in
  existsb is_alert a.2 = raised ∧
  lastFailureAlertAtMs (job_state a.1.1) =
    if raised then Some now else lastFailureAlertAtMs (job_state j).
Proof.
  intros He Ha. unfold applyJobResult.
  destruct (resolveFailureAlert_same deps _ _ (recordRun_same j r)) as [Hres Hbest].
  pose proof (error_kept (trackErrors deps now (recordRun j r) r).1 r He) as Hd1.
  assert (let t := trackErrors deps now (recordRun j r) r in
    let raised := raises alert (isBestEffort j) now (lastFailureAlertAtMs (job_state j))
                    ((consecutiveErrors (job_state j) ?? 0) + 1) in
    existsb is_alert t.2 = raised ∧
    lastFailureAlertAtMs (job_state t.1) =
      if raised then Some now else lastFailureAlertAtMs (job_state j)) as [H1 H2].
  { unfold trackErrors. rewrite He, Hres, Ha, Hbest. unfold raises.
    cbn [recordRun job_state set_state set_updatedAtMs consecutiveErrors lastFailureAlertAtMs].
    destruct (_ && _ && _); cbn [fst snd]; [split; [apply emitFailureAlert_alert|done]|done]. }
  destruct (trackErrors deps now (recordRun j r) r) as [t al]. cbn [fst snd] in *. rewrite Hd1.
  pose proof (scheduleNext_no_alert deps ps (lastRunAtMs (job_state j)) t r) as H3.
  pose proof (scheduleNext_same deps ps (lastRunAtMs (job_state j)) t r) as (_ & _ & _ & H4 & _).
  destruct (scheduleNext deps ps _ t r) as [sc ef]. cbn [fst snd] in *.
  by rewrite existsb_app, H1, H3, orb_false_r, H4.
Qed.

(** The results of successive runs, each with the clock reading it is applied
    at; the times at which alerts are raised. *)
Fixpoint alertTimes (deps : CronServiceDeps) (j : CronJob) (rs : list (Z * JobResult)) : list Z :=
  match rs with
  | [] => []
  | (now, r) :: rest =>
      let a := applyJobResult deps false now j r in
      (if existsb is_alert a.2 then [now] else []) ++ alertTimes deps a.1.1 rest
  end.

Definition applyResults (deps : CronServiceDeps) (j : CronJob) (rs : list (Z * JobResult)) : CronJob :=
  foldl (λ j p, (applyJobResult deps false p.1 j p.2).1.1) j rs.

Definition all_errors (rs : list (Z * JobResult)) : Prop :=
  Forall (λ p, is_error (res_status p.2) = true) rs.

Lemma alertTimes_spec deps j rs alert :
  all_errors rs → resolveFailureAlert deps j = Some alert →
  let n := consecutiveErrors (job_state j) ?? 0 in
  let times := alertTimes deps j rs in
  (∀ t a, lastFailureAlertAtMs (job_state j) = Some t → times !! 0%nat = Some a →
          t + ra_cooldownMs alert <= a) ∧
  (∀ i a b, times !! i = Some a → times !! S i = Some b → a + ra_cooldownMs alert <= b) ∧
  (n + Z.of_nat (length rs) < ra_after alert → times = []) ∧
  (lastFailureAlertAtMs (job_state j) = None → n < ra_after alert → isBestEffort j = false →
   ra_after alert <= n + Z.of_nat (length rs) → times ≠ []).
Proof.
  revert j. induction rs as [|[now r] rs IH]; intros j Hall Ha; cbn [alertTimes length].
  { do 3 (split; [done|]). lia. }
  inversion Hall as [|x l He Hrest]; subst. cbn [snd] in He.
  destruct (applyJobResult_alert deps false now j r alert He Ha) as [H1 H2].
  destruct (applyJobResult_spec deps false now j r) as (Hs & _ & Hc & _).
  destruct (resolveFailureAlert_same deps _ _ Hs) as [Hr Hb]. rewrite Ha in Hr.
  destruct (IH _ Hrest Hr) as (I1 & I2 & I3 & I4). rewrite Hc, He in I3, I4. cbn [default id] in I3, I4.
  rewrite H1. set (k := (consecutiveErrors (job_state j) ?? 0) + 1) in *.
  assert (k = (consecutiveErrors (job_state j) ?? 0) + 1) as Hkn by done. clearbody k.
  set (a := (applyJobResult deps false now j r).1.1) in *.
  unfold raises, inCooldown in *.
  destruct (Z.leb_spec (ra_after alert) k) as [Hk|Hk]; cbn [andb] in *.
  2:{ split; [intros t b Ht; apply I1; congruence|]. split; [done|].
      split; [intros; apply I3; lia|]. intros Hl _ Hbe Hn. apply I4; [congruence|lia|congruence|lia]. }
  destruct (isBestEffort j) eqn:Ebe; cbn [andb negb] in *.
  { split; [intros t b Ht; apply I1; congruence|]. split; [done|]. split; [intros; lia|done]. }
  destruct (lastFailureAlertAtMs (job_state j)) as [t0|] eqn:El; cbn [negb] in *.
  - destruct (Z.ltb_spec (now - t0) (Z.max 0 (ra_cooldownMs alert))) as [Hcd|Hcd]; cbn [negb app] in *.
    + split; [intros t b [= ->]; by apply I1|]. split; [done|]. split; [intros; lia|done].
    + split; [intros t b [= ->] [= <-]; lia|]. split; [|split; [intros; lia|done]].
      intros [|i] x y; [intros [= <-]; by apply I1|by apply I2].
  - split; [done|]. split; [|split; [intros; lia|done]].
    intros [|i] x y; [intros [= <-]; by apply I1|by apply I2].
Qed.

(** *** One-shot jobs *)

Lemma one_shot_error deps now j r :
  is_at (job_schedule j) = true → is_error (res_status r) = true →
  let cfg := resolveRetryConfig (cronConfig deps) in
  let n := (consecutiveErrors (job_state j) ?? 0) + 1 in
  let j' := (applyJobResult deps false now j r).1.1 in
  if isTransientCronError (res_error r) (retryOn cfg) && (n <=? maxAttempts cfg)
  then job_enabled j' = job_enabled j ∧
       nextRunAtMs (job_state j') = Some (res_endedAt r + errorBackoffMs n (backoffMs cfg))
  else job_enabled j' = false ∧ nextRunAtMs (job_state j') = None.
Proof.
  intros Hat He. cbn zeta. rewrite applyJobResult_kept by by apply error_kept.
  destruct (tracked_same deps now j r) as (_ & Hs & _).
  destruct (tracked_state deps now j r) as [Hen Hc]. rewrite He in Hc.
  unfold scheduleNext. rewrite Hs, Hat, He, Hc. cbn [default id].
  by destruct (isTransientCronError _ _ && _).
Qed.

Lemma applyResults_app deps j rs x :
  applyResults deps j (rs ++ [x]) = (applyJobResult deps false x.1 (applyResults deps j rs) x.2).1.1.
Proof. unfold applyResults. by rewrite foldl_app. Qed.

Lemma applyResults_same deps j rs :
  all_errors rs → same_job j (applyResults deps j rs) ∧
  consecutiveErrors (job_state (applyResults deps j rs)) ?? 0 =
    (consecutiveErrors (job_state j) ?? 0) + Z.of_nat (length rs).
Proof.
  induction rs as [|[now r] rs IH] using rev_ind; intros Hall.
  { split; [apply same_job_refl|]. cbn [applyResults foldl length]. lia. }
  apply Forall_app in Hall as [Hrs Hr]. inversion Hr as [|? ? He _]; subst. cbn [snd] in He.
  destruct (IH Hrs) as [Hs Hc]. rewrite applyResults_app, length_app. cbn [fst snd length].
  destruct (applyJobResult_spec deps false now (applyResults deps j rs) r) as (Hs' & _ & Hc' & _).
  split; [by eapply same_job_trans|]. rewrite Hc', He, Hc. cbn [default id]. lia.
Qed.

Lemma applyResults_enabled deps j rs x :
  job_enabled (applyResults deps j (rs ++ [x])) = true → job_enabled (applyResults deps j rs) = true.
Proof. rewrite applyResults_app. by apply applyJobResult_spec. Qed.

(** *** Selection *)

Lemma isRunnableJob_tick now j : isRunnableJob tickOpts now j = isJobDue j now false.
Proof.
  unfold isRunnableJob, isJobDue, tickOpts. cbn [skipJobIds skipAtIfAlreadyRan allowCronMissedRunByLastRun].
  rewrite (bool_decide_eq_false_2 (_ ∈ [])) by set_solver.
  destruct (isJobEnabled j); cbn [negb andb]; [|by destruct (runningAtMs (job_state j))].
  destruct (runningAtMs (job_state j)) as [t|].
  - by rewrite bool_decide_eq_true_2 by eauto.
  - rewrite bool_decide_eq_false_2 by (by intros [? ?]).
    destruct (_ && (_ <=? now)); [done|]. by repeat case_match.
Qed.

Lemma running_not_runnable opts now j t :
  runningAtMs (job_state j) = Some t → isRunnableJob opts now j = false.
Proof.
  intros Hr. unfold isRunnableJob. rewrite Hr, (bool_decide_eq_true_2 (is_Some _)) by eauto.
  by repeat case_match.
Qed.

(** *** Replacing and removing stored jobs *)

Lemma findJob_id jobs id j : findJob jobs id = Some j → job_id j = id.
Proof. intros [_ He]%find_some. by apply String.eqb_eq. Qed.

Lemma replaceJob_spec jobs id j j' :
  NoDup (map job_id jobs) → findJob jobs id = Some j →
  ∀ x, x ∈ replaceJob jobs id j' ↔ x = j' ∨ (x ∈ jobs ∧ job_id x ≠ id).
Proof.
  intros Hnd Hf x. induction jobs as [|k jobs IH]; [done|]. simpl in Hf, Hnd |- *.
  inversion_clear Hnd as [|? ? Hk Hjs].
  destruct (String.eqb_spec (job_id k) id) as [Hid|Hid].
  - rewrite !elem_of_cons. split; [|naive_solver]. intros [->|Hx]; [by left|]. right.
    split; [by right|]. intros Hxi. apply Hk. rewrite Hid, <- Hxi.
    apply list_elem_of_fmap. eauto.
  - rewrite !elem_of_cons, IH by done. naive_solver.
Qed.

Lemma sublist_filter_bool {A} (f : A → bool) l : List.filter f l `sublist_of` l.
Proof. induction l as [|x l IH]; simpl; [done|]. destruct (f x); by constructor. Qed.

Lemma removeJob_spec jobs id x : x ∈ removeJob jobs id ↔ x ∈ jobs ∧ job_id x ≠ id.
Proof.
  unfold removeJob. rewrite !list_elem_of_In, filter_In, negb_true_iff, String.eqb_neq. done.
Qed.

Lemma replaceJob_nodup jobs id j' :
  NoDup (map job_id jobs) → job_id j' = id → NoDup (map job_id (replaceJob jobs id j')).
Proof.
  intros Hnd Hid. enough (map job_id (replaceJob jobs id j') = map job_id jobs) as -> by done.
  clear Hnd. induction jobs as [|k jobs IH]; [done|]. simpl.
  destruct (String.eqb_spec (job_id k) id); simpl; [by rewrite Hid; f_equal|by rewrite IH].
Qed.

Lemma applyOutcome_spec deps now mem o :
  NoDup (map job_id (mem_jobs mem)) →
  let mem' := (applyOutcomeToStoredJob deps now mem o).1 in
  (∀ x, job_id x ≠ oc_jobId o → x ∈ mem_jobs mem' ↔ x ∈ mem_jobs mem) ∧
  (∀ x, x ∈ mem_jobs mem' → job_id x = oc_jobId o → runningAtMs (job_state x) = None) ∧
  NoDup (map job_id (mem_jobs mem')) ∧
  isCronJobActive (mem_active mem') (oc_jobId o) = false.
Proof.
  intros Hnd. unfold applyOutcomeToStoredJob.
  assert (isCronJobActive (clearCronJobActive (mem_active mem) (oc_jobId o)) (oc_jobId o) = false) as Ha.
  { unfold isCronJobActive, clearCronJobActive. destruct (str_truthy _); [|done].
    apply bool_decide_eq_false_2. set_solver. }
  destruct (findJob (mem_jobs mem) (oc_jobId o)) as [j|] eqn:Ef; cbn [fst mem_jobs mem_active].
  2:{ split; [done|]. split; [|done]. intros x Hx Hid. exfalso.
      apply list_elem_of_In in Hx. pose proof (find_none _ _ Ef x Hx) as Hne.
      cbn beta in Hne. by rewrite Hid, String.eqb_refl in Hne. }
  destruct (applyJobResult_spec deps false now j (outcomeResult o)) as ((Hid & _) & Hrun & _).
  destruct (applyJobResult deps false now j (outcomeResult o)) as [[j' del] effs].
  cbn [fst snd] in Hid, Hrun. rewrite (findJob_id _ _ _ Ef) in Hid.
  pose proof (replaceJob_spec _ _ _ j' Hnd Ef) as Hr.
  pose proof (replaceJob_nodup _ (oc_jobId o) j' Hnd Hid) as Hnd'.
  destruct del; cbn [fst mem_jobs mem_active]; (split; [|split; [|split; [|done]]]).
  - intros x Hx. rewrite removeJob_spec, Hr, Hid. naive_solver.
  - intros x [Hx Hne]%removeJob_spec Hxi. rewrite Hid in Hne. done.
  - eapply sublist_NoDup; [exact Hnd'|]. apply (fmap_sublist job_id), sublist_filter_bool.
  - intros x Hx. rewrite Hr. naive_solver.
  - intros x [->|[_ Hne]]%Hr Hxi; done.
  - exact Hnd'.
Qed.

(** *** Waiting for the heartbeat *)

Lemma wakeNowLoop_some job text maxWait start turns :
  (∃ t, t ∈ turns ∧
    (turn_aborted t = true ∨ heartbeatBusy (turn_heartbeat t) = false ∨
     is_at (job_schedule job) = false ∨ maxWait < turn_now t - start)) →
  is_Some (wakeNowLoop job text maxWait start turns).
Proof.
  induction turns as [|t turns IH]; intros (u & Hu & Hc); [by apply elem_of_nil in Hu|]. simpl.
  destruct (turn_aborted t) eqn:E1; [by eexists|].
  destruct (heartbeatBusy (turn_heartbeat t)) eqn:E2; [|by eexists].
  destruct (is_at (job_schedule job)) eqn:E3; cbn [negb]; [|by eexists].
  destruct (turn_abortedAfter t); [by eexists|].
  destruct (Z.ltb_spec maxWait (turn_now t - start)); [by eexists|].
  apply IH. apply elem_of_cons in Hu as [->|Hu]; [|by exists u].
  destruct Hc as [?|[?|[?|?]]]; [congruence..|lia].
Qed.

Lemma wakeNowLoop_effects job text maxWait start turns r effs :
  wakeNowLoop job text maxWait start turns = Some (r, effs) →
  effs = [] ∨ (cr_status r = StatusOk ∧
    effs = [RequestHeartbeatNow ("cron:" +:+ job_id job) (job_agentId job) (job_sessionKey job)]).
Proof.
  induction turns as [|t turns IH]; [done|]. simpl. intros Hw.
  repeat case_match; simplify_eq; auto.
Qed.

End env.

(** ** Properties *)

(** A one-shot job stops: errors in a row are retried only while they are
    transient and at most [maxAttempts] times, each retry scheduled after one of
    the configured delays; after one more error, or a permanent one, the job is
    disabled with no next run, and a disabled job is never enabled again. *)
Lemma one_shot_retries_bounded `{CronEnv} (reason : string → option string)
    (deps : CronServiceDeps) (j : CronJob) (rs : list (Z * JobResult)) (now : Z) (r : JobResult) :
  is_at (job_schedule j) = true → consecutiveErrors (job_state j) ?? 0 = 0 →
  all_errors (rs ++ [(now, r)]) →
  let cfg := resolveRetryConfig (cronConfig deps) in
  let n := Z.of_nat (length rs) + 1 in
  let j' := applyResults reason deps j (rs ++ [(now, r)]) in
  let retried := isTransientCronError (res_error r) (retryOn cfg) && (n <=? maxAttempts cfg) in
  (job_enabled j' = true → retried = true ∧ job_enabled (applyResults reason deps j rs) = true) ∧
  if retried
  then job_enabled j' = job_enabled (applyResults reason deps j rs) ∧
       ∃ d, d ∈ backoffMs cfg ∧ nextRunAtMs (job_state j') = Some (res_endedAt r + d)
  else job_enabled j' = false ∧ nextRunAtMs (job_state j') = None.
Proof.
  intros Hat Hc Hall cfg n j' retried.
  apply Forall_app in Hall as [Hrs Hr]. inversion Hr as [|? ? He _]; subst. cbn [snd] in He.
  destruct (applyResults_same reason deps j rs Hrs) as [(_ & Hs & _) Hn].
  pose proof (one_shot_error reason deps now (applyResults reason deps j rs) r) as Hone.
  rewrite Hs, Hn, Hc in Hone. specialize (Hone Hat He). cbn zeta in Hone.
  pose proof (applyResults_enabled reason deps j rs (now, r)) as Hen. fold j' in Hen.
  subst j' retried. rewrite applyResults_app in *. cbn [fst snd] in *.
  replace (0 + Z.of_nat (length rs) + 1) with n in Hone by (subst n; lia). subst cfg.
  destruct (_ && (n <=? _)) eqn:E.
  - destruct Hone as [H1 H2]. split; [auto|]. split; [done|]. eexists. split; [|exact H2].
    apply errorBackoffMs_in, retry_backoff_nonempty.
  - destruct Hone as [H1 H2]. split; [congruence|done].
Qed.

Definition demoDeps : CronServiceDeps := mkDeps true None None None true false None.
Definition demoReason (e : string) : option string := if includes e "429" then Some "rate_limit"%string else None.
Definition errorAt (t : Z) (e : string) : Z * JobResult :=
  (t, mkResult StatusError (Some e) None t (t + 10)).
Definition oneShot : CronJob := set_schedule demoJob (SAt (Some "2026-01-01"%string) None).

Lemma one_shot_retries_bounded_witness :
  let rs := [errorAt 1000 "HTTP 503"; errorAt 50000 "fetch failed"; errorAt 150000 "429"] in
  job_enabled (@applyResults demoEnv demoReason demoDeps oneShot rs) = true ∧
  job_enabled (@applyResults demoEnv demoReason demoDeps oneShot (rs ++ [errorAt 900000 "429"])) = false.
Proof.
  split; [reflexivity|].
  destruct (@one_shot_retries_bounded demoEnv demoReason demoDeps oneShot
    [errorAt 1000 "HTTP 503"; errorAt 50000 "fetch failed"; errorAt 150000 "429"]
    900000 (errorAt 900000 "429").2 eq_refl eq_refl) as [_ Hd].
  { repeat constructor. }
  exact (proj1 Hd).
Defined.

(** A recurring job that fails backs off: its next run is the later of the
    scheduled one and the end of the run plus a delay between 30 seconds and one
    hour that never decreases with the number of errors in a row, also when the
    schedule cannot be evaluated, and the job is kept. *)
Lemma recurring_error_backs_off `{CronEnv} (reason : string → option string)
    (deps : CronServiceDeps) (preserve : bool) (now : Z) (j : CronJob) (r : JobResult) :
  is_at (job_schedule j) = false → job_enabled j = true → is_error (res_status r) = true →
  let n := (consecutiveErrors (job_state j) ?? 0) + 1 in
  let backoff := errorBackoffMs n DEFAULT_BACKOFF_SCHEDULE_MS in
  let natural :=
    (computeNextAfter preserve (lastRunAtMs (job_state j)) (tracked reason deps now j r)
       (res_endedAt r)).1.2 in
  let a := applyJobResult reason deps preserve now j r in
  a.1.2 = false ∧ 30000 <= backoff <= 3600000 ∧
  (∀ m, m <= n → errorBackoffMs m DEFAULT_BACKOFF_SCHEDULE_MS <= backoff) ∧
  nextRunAtMs (job_state a.1.1) = Some (later natural (res_endedAt r + backoff)).
Proof.
  intros Hs He Hr n backoff natural a. subst a.
  destruct (applyJobResult_spec reason deps preserve now j r) as (_ & _ & _ & _ & Hdel).
  split; [by rewrite Hdel, recurring_kept|]. split; [apply default_backoff_bounds|].
  split; [intros m Hm; by apply default_backoff_mono|].
  rewrite applyJobResult_kept by by apply recurring_kept.
  destruct (tracked_same reason deps now j r) as (_ & Hs' & _).
  destruct (tracked_state reason deps now j r) as [He' Hc]. rewrite Hr in Hc.
  unfold scheduleNext. unfold isJobEnabled. rewrite Hs', Hs, Hr, He', He, Hc. cbn [andb default id].
  subst natural backoff n. by destruct (computeNextAfter _ _ _ _) as [[j1 m] e].
Qed.

Lemma recurring_error_backs_off_witness :
  nextRunAtMs (job_state (@applyJobResult demoEnv demoReason demoDeps false 0 demoJob
    (mkResult StatusError (Some "boom"%string) None 60000 60500)).1.1) = Some 120000.
Proof.
  destruct (@recurring_error_backs_off demoEnv demoReason demoDeps false 0 demoJob
    (mkResult StatusError (Some "boom"%string) None 60000 60500) eq_refl eq_refl eq_refl) as (_ & _ & _ & Hn).
  exact Hn.
Defined.

(** A recurring job never re-runs in the past: after a run that did not fail,
    the next run of a cron job is at least [MIN_REFIRE_GAP_MS] after the end of
    the run and exists, and the next run of an interval job is not before it. *)
Lemma recurring_success_moves_on `{CronEnv} (reason : string → option string)
    (deps : CronServiceDeps) (preserve : bool) (now : Z) (j : CronJob) (r : JobResult) :
  is_at (job_schedule j) = false → job_enabled j = true → is_error (res_status r) = false →
  let a := applyJobResult reason deps preserve now j r in
  a.1.2 = false ∧ consecutiveErrors (job_state a.1.1) = Some 0 ∧
  (is_cron (job_schedule j) = true →
   ∃ t, nextRunAtMs (job_state a.1.1) = Some t ∧ res_endedAt r + MIN_REFIRE_GAP_MS <= t) ∧
  ∀ t, nextRunAtMs (job_state a.1.1) = Some t → res_endedAt r <= t.
Proof.
  intros Hs He Hr a. subst a.
  destruct (applyJobResult_spec reason deps preserve now j r) as (_ & _ & Hc0 & _ & Hdel).
  rewrite Hr in Hc0. split; [by rewrite Hdel, recurring_kept|]. split; [done|].
  rewrite applyJobResult_kept by by apply recurring_kept.
  destruct (tracked_same reason deps now j r) as (_ & Hs' & _).
  destruct (tracked_state reason deps now j r) as [He' _].
  unfold scheduleNext. unfold isJobEnabled. rewrite Hs', Hs, Hr, He', He. cbn [andb].
  unfold computeNextAfter. rewrite Hs'.
  set (src := if _ && _ then _ else _).
  assert (∀ n, computeJobNextRunAtMs src (res_endedAt r) = Ok (Some n) → res_endedAt r <= n) as Hfut.
  { intros n Hn. apply computeJobNextRunAtMs_future in Hn; [lia|].
    subst src. case_match; cbn [job_schedule set_state]; by rewrite Hs'. }
  destruct (computeJobNextRunAtMs src (res_endedAt r)) as [n|err].
  - destruct (is_cron (job_schedule j)); cbn; (split; [|]).
    + intros _. eexists. split; [done|]. destruct n; simpl; lia.
    + intros t [= <-]. unfold MIN_REFIRE_GAP_MS, later. destruct n; lia.
    + done.
    + intros t ->. by apply Hfut.
  - destruct (recordScheduleComputeError _ err) as [j1 e].
    destruct (is_cron (job_schedule j)); cbn; (split; [|]).
    + intros _. eexists. split; [done|]. lia.
    + intros t [= <-]. unfold MIN_REFIRE_GAP_MS. lia.
    + done.
    + done.
Qed.

Lemma recurring_success_moves_on_witness :
  let j := set_schedule demoJob (SCron (Some "0 * * * *"%string) None None VOther) in
  ∃ t, nextRunAtMs (job_state (@applyJobResult demoEnv demoReason demoDeps false 0 j
    (mkResult StatusOk None None 60000 60500)).1.1) = Some t ∧ 62500 <= t.
Proof.
  destruct (@recurring_success_moves_on demoEnv demoReason demoDeps false 0
    (set_schedule demoJob (SCron (Some "0 * * * *"%string) None None VOther))
    (mkResult StatusOk None None 60000 60500) eq_refl eq_refl eq_refl) as (_ & _ & Hn & _).
  exact (Hn eq_refl).
Defined.

(** Failure alerts: over errors in a row no alert is raised before the
    threshold; unless delivery is best effort one is raised once the threshold is
    reached; and two successive alerts are at least the cooldown apart. *)
Lemma failure_alerts_spaced `{CronEnv} (reason : string → option string)
    (deps : CronServiceDeps) (j : CronJob) (rs : list (Z * JobResult)) (alert : ResolvedAlert) :
  all_errors rs → resolveFailureAlert deps j = Some alert →
  consecutiveErrors (job_state j) ?? 0 = 0 → lastFailureAlertAtMs (job_state j) = None →
  let times := alertTimes reason deps j rs in
  (Z.of_nat (length rs) < ra_after alert → times = []) ∧
  (0 < ra_after alert <= Z.of_nat (length rs) → isBestEffort j = false → times ≠ []) ∧
  ∀ i a b, times !! i = Some a → times !! S i = Some b → a + ra_cooldownMs alert <= b.
Proof.
  intros Hall Ha Hc Hl times.
  destruct (alertTimes_spec reason deps j rs alert Hall Ha) as (_ & H1 & H2 & H3).
  rewrite Hc in H2, H3. split; [intros; apply H2; lia|]. split; [|exact H1].
  intros Hn Hb. apply H3; [done|lia|done|lia].
Qed.

Definition alertJob : CronJob :=
  mkJob "job-1" None None "Nightly" None true None 0 0 (SEvery (VNum (num_of_Z 60000)) VOther)
    "main" WakeNow (SystemEvent "tick") None
    (Some (AlertConfig (mkFailureAlert None None (Some "ops"%string) (Some (num_of_Z 100000)) None None)))
    emptyJobState.

Lemma failure_alerts_spaced_witness :
  @alertTimes demoEnv demoReason demoDeps alertJob [errorAt 1000 "a"] = [] ∧
  @alertTimes demoEnv demoReason demoDeps alertJob
    [errorAt 1000 "a"; errorAt 60000 "b"; errorAt 120000 "c"; errorAt 180000 "d"] = [60000; 180000].
Proof.
  split; [|reflexivity].
  refine (proj1 (@failure_alerts_spaced demoEnv demoReason demoDeps alertJob [errorAt 1000 "a"] _ _ eq_refl eq_refl eq_refl) _).
  - repeat constructor.
  - reflexivity.
Defined.

(** The timer runs exactly the jobs that are due, in store order, and the ones
    it picks are marked so that neither a later tick nor the catch-up at start-up
    picks them again while they run. *)
Lemma tick_selects_due_jobs_once `{CronEnv} (jobs : list CronJob) (now mark later : Z)
    (opts : RunnableOpts) :
  let due := collectRunnableJobs tickOpts jobs now in
  due = List.filter (λ j, isJobDue j now false) jobs ∧
  (∀ j, j ∈ due ↔ j ∈ jobs ∧ job_enabled j = true ∧ runningAtMs (job_state j) = None ∧
        ∃ t, nextRunAtMs (job_state j) = Some t ∧ 0 < t <= now) ∧
  collectRunnableJobs opts (map (markRunning mark) due) later = [].
Proof.
  intros due.
  assert (due = List.filter (λ j, isJobDue j now false) jobs) as Hdue.
  { apply filter_ext. intros j. apply isRunnableJob_tick. }
  split; [done|]. split.
  - intros j. rewrite Hdue, !list_elem_of_In, filter_In.
    unfold isJobDue, isJobEnabled, hasScheduledNextRunAtMs.
    destruct (runningAtMs (job_state j)); [naive_solver|].
    destruct (nextRunAtMs (job_state j)) as [t|]; cbn [default id];
      rewrite !andb_true_iff; [rewrite Z.ltb_lt, Z.leb_le|]; naive_solver.
  - unfold collectRunnableJobs. generalize due. intros l.
    induction l as [|j l IH]; simpl; [done|].
    by rewrite (running_not_runnable opts later (markRunning mark j) mark).
Qed.

(** Catch-up at start-up replays only missed work: what it picks is enabled,
    not running and not excluded; a one-shot job that has run is picked only when
    it failed and its retry is due; any other job is past its next run, or is a
    cron job with an occurrence between its last run and now whose error back-off
    is not pending. *)
Lemma startup_replays_only_missed_runs `{CronEnv} (skip : list string) (now : Z) (j : CronJob) :
  isRunnableJob (mkOpts skip true true) now j = true →
  job_enabled j = true ∧ ¬ (job_id j ∈ skip) ∧ runningAtMs (job_state j) = None ∧
  ((∃ t, nextRunAtMs (job_state j) = Some t ∧ t <= now ∧
     (is_at (job_schedule j) = true → lastStatus (job_state j) = None ∨
        lastStatus (job_state j) = Some StatusError ∧
        ∃ l, lastRunAtMs (job_state j) = Some l ∧ l < t)) ∨
   (is_cron (job_schedule j) = true ∧
    ∃ p l, computeJobPreviousRunAtMs j now = Ok (Some p) ∧ lastRunAtMs (job_state j) = Some l ∧
           l < p ∧ (hasScheduledNextRunAtMs (nextRunAtMs (job_state j)) = true →
                    isErrorBackoffPending j now = false))).
Proof.
  unfold isRunnableJob, isJobEnabled. cbn [skipJobIds skipAtIfAlreadyRan allowCronMissedRunByLastRun].
  destruct (job_enabled j); cbn [negb]; [|done].
  case_bool_decide as Hskip; [done|]. case_bool_decide as Hrun; [done|].
  intros Hr. split; [done|]. split; [done|]. split; [by apply eq_None_not_Some|].
  destruct (is_at (job_schedule j)) eqn:Hat; cbn [andb] in Hr.
  - assert (is_cron (job_schedule j) = false) as Hcr by (by destruct (job_schedule j)).
    rewrite Hcr in Hr. cbn [negb orb] in Hr. left.
    case_bool_decide as Hst.
    + destruct (lastStatus (job_state j)) as [[]|], (nextRunAtMs (job_state j)) as [t|],
        (lastRunAtMs (job_state j)) as [l|]; try done.
      destruct (Z.ltb_spec l t); [|done]. apply Z.leb_le in Hr. exists t. eauto 8.
    + apply eq_None_not_Some in Hst.
      destruct (nextRunAtMs (job_state j)) as [t|]; [cbn [default id] in Hr|by simpl in Hr].
      exists t. split; [done|]. split; [|auto].
      destruct (Z.leb_spec t now); [done|]. rewrite andb_false_r in Hr. by destruct (_ && _ && _).
  - destruct (_ && (_ <=? now)) eqn:Edue.
    + left. destruct (nextRunAtMs (job_state j)) as [t|]; [|done]. cbn [default id] in Edue.
      apply andb_true_iff in Edue as [_ Ht%Z.leb_le]. by exists t.
    + right. destruct (_ && _ && isErrorBackoffPending j now) eqn:Eb; [done|].
      destruct (is_cron (job_schedule j)); [|done]. cbn [negb orb] in Hr.
      split; [done|]. unfold missedByLastRun in Hr.
      destruct (computeJobPreviousRunAtMs j now) as [[p|]|]; try done.
      destruct (lastRunAtMs (job_state j)) as [l|]; [|done]. apply Z.ltb_lt in Hr.
      exists p, l. do 3 (split; [done|]). intros Hs. rewrite Hs in Edue, Eb. cbn [andb] in *.
      apply Z.leb_gt in Edue. destruct (Z.ltb_spec now (nextRunAtMs (job_state j) ?? 0)); [done|lia].
Qed.

Lemma startup_replays_only_missed_runs_witness :
  let retryJob := set_state oneShot
    (st_nextRun (mkJobState None None (Some 1000) (Some StatusError) (Some StatusError) None None None
                   (Some 1) None None None None None) (Some 31010)) in
  @isRunnableJob demoEnv (mkOpts [] true true) 31010 retryJob = true ∧
  @isRunnableJob demoEnv (mkOpts [] true true) 31009 retryJob = false ∧
  runningAtMs (job_state retryJob) = None.
Proof.
  intros retryJob. split; [reflexivity|]. split; [reflexivity|].
  exact (proj1 (proj2 (proj2 (@startup_replays_only_missed_runs demoEnv [] 31010 retryJob eq_refl)))).
Defined.

(** Waiting for a busy main session is bounded: when the clock advances by at
    least [delay] between two attempts, a job of the main session with a text ends
    within [maxWait / delay + 2] attempts; a recurring job never waits; and the run
    has queued its event exactly once, with at most one heartbeat request, after
    which it reports success. *)
Lemma main_session_wait_bounded (deps : CronServiceDeps) (job : CronJob) (aborted : bool)
    (text : string) (start delay : Z) (turns : list HeartbeatTurn) :
  resolveJobPayloadTextForMain job = Some text → 0 < delay → turns ≠ [] →
  let maxWait := wakeNowHeartbeatBusyMaxWaitMs deps ?? 2 * 60000 in
  (∀ i t, turns !! i = Some t → start + Z.of_nat i * delay <= turn_now t) →
  (is_at (job_schedule job) = false ∨ maxWait < (Z.of_nat (length turns) - 1) * delay) →
  let key := "cron:" +:+ job_id job in
  ∃ r effs, executeMainSessionCronJob deps job aborted start turns =
      Some (r, EnqueueSystemEvent (PlainText text) (job_agentId job) (job_sessionKey job) (Some key) :: effs) ∧
    (effs = [] ∨ cr_status r = StatusOk ∧
                 effs = [RequestHeartbeatNow key (job_agentId job) (job_sessionKey job)]).
Proof.
  intros Ht Hd Hne maxWait Hclock Hlong key. unfold executeMainSessionCronJob. rewrite Ht.
  destruct (_ && hasRunHeartbeatOnce deps).
  2:{ destruct aborted; do 2 eexists; (split; [done|]); auto. }
  fold maxWait. assert (is_Some (wakeNowLoop job text maxWait start turns)) as [[r effs] Hw].
  { apply wakeNowLoop_some. destruct Hlong as [Hrec|Hlong].
    - destruct turns as [|t turns]; [done|]. exists t. split; [by left|auto].
    - destruct (last turns) as [t|] eqn:El; [|by apply last_None in El].
      exists t. rewrite last_lookup in El. split; [by eapply list_elem_of_lookup_2|].
      do 3 right. apply Hclock in El.
      destruct turns; [done|]. cbn [length Nat.pred] in *. lia. }
  rewrite Hw. do 2 eexists. split; [done|]. by eapply wakeNowLoop_effects.
Qed.

Lemma main_session_wait_bounded_witness :
  let deps := mkDeps true None None None true true (Some 500) in
  let busy t := mkTurn false (HeartbeatSkipped "requests-in-flight") false t in
  ∃ r effs, executeMainSessionCronJob deps oneShot false 0 [busy 10; busy 260; busy 510; busy 760] =
    Some (r, effs).
Proof.
  intros deps busy.
  destruct (main_session_wait_bounded deps oneShot false "tick" 0 250
    [busy 10; busy 260; busy 510; busy 760]) as (r & effs & He & _); [reflexivity|reflexivity|done| | |].
  - intros i t Hi. do 4 (destruct i as [|i]; [injection Hi as <-; done|]). discriminate Hi.
  - right. reflexivity.
  - exists r. eexists. exact He.
Defined.

(** The timer keeps the scheduler alive and never spins: it is armed exactly
    when the scheduler is enabled and some enabled job has a next run, with a delay
    between 1 ms and one minute; it does not sleep past the earliest run by more
    than the refire gap, and never fires early unless it is the one-minute check. *)
Lemma armed_timer_bounds (deps : CronServiceDeps) (jobs : list CronJob) (now : Z) :
  match armTimer deps jobs now with
  | None => cronEnabled deps = false ∨ ∀ j t, j ∈ jobs → ¬ scheduled j t
  | Some d =>
      cronEnabled deps = true ∧ 1 <= d <= MAX_TIMER_DELAY_MS ∧
      (∃ j t, j ∈ jobs ∧ scheduled j t ∧ (t <= now + d ∨ d = MAX_TIMER_DELAY_MS)) ∧
      ∀ j t, j ∈ jobs → scheduled j t → now + d <= Z.max t (now + MIN_REFIRE_GAP_MS)
  end.
Proof.
  unfold armTimer. destruct (cronEnabled deps); cbn [negb]; [|by left].
  pose proof (nextWakeAtMs_spec jobs) as Hspec.
  destruct (nextWakeAtMs jobs) as [m|]; [|by right].
  destruct Hspec as [(j & Hj & Hs) Hmin].
  assert (0 < m) as Hm by apply Hs.
  destruct (Z.eqb_spec m 0); [lia|].
  unfold timerDelay, MIN_REFIRE_GAP_MS, MAX_TIMER_DELAY_MS.
  split; [done|]. destruct (Z.eqb_spec (Z.max (m - now) 0) 0); (split; [lia|]); split.
  - exists j, m. split; [done|]. split; [done|]. lia.
  - intros k t Hk Ht. specialize (Hmin k t Hk Ht). lia.
  - exists j, m. split; [done|]. split; [done|]. lia.
  - intros k t Hk Ht. specialize (Hmin k t Hk Ht). lia.
Qed.

End CronTimer.
