(* ===== verification/CronLoop.v ===== *)
(** * The cron tick and start-up: src/cron/service/timer.ts, start in ops.ts

    A tick collects the due jobs, runs them on a bounded pool of workers, and
    applies the outcomes to the store it reloads. At start-up the runs missed
    while the process was down are replayed, a few at once and the rest
    staggered. Each function below is one section the code runs under the store
    lock, or one step between two awaits; the clock readings it takes and the
    store it loads are arguments. *)

From S2P Require Import Prelude JsNumber CronTypes CronSchedule CronJobs CronTimer.

Module CronLoop.
Import JsNumber CronTypes CronSchedule CronJobs CronTimer.

(** ** The worker pool of a tick *)

(** A worker of the pool runs the due job at [run_index] or has returned. *)
Record Running := mkRunning {
  run_index : nat;
  run_startedAt : Z;
  run_taskRunId : option string;
}.

Record Pool := mkPool {
  pool_due : list CronJob;
  pool_cursor : nat;
  pool_workers : list (option Running);
  pool_results : list (option TimedCronRunOutcome);
  pool_active : gset string;
  pool_effects : list CronEffect;
}.

Section pool.

(** For each due job, the clock when it starts and whether the task ledger takes
    its record. *)
Context (startObs : nat → Z * bool).

(** [runDueJob] up to its first await: the job object is marked. *)
Definition startDueJob (job : CronJob) (index : nat) : Running * CronJob * CronEffect :=
  let '(startedAt, ledger) := startObs index in
  (mkRunning index startedAt
     (if ledger then Some (createCronTaskRunId (job_id job) startedAt) else None),
   set_running job (Some startedAt), EmitStarted (job_id job) startedAt).

(** One turn of the loop of worker [w], up to its next await. *)
Definition takeNext (p : Pool) (w : nat) : Pool :=
  let index := pool_cursor p in
  match pool_due p !! index with
  | None =>
      mkPool (pool_due p) (S index) (<[w := None]> (pool_workers p)) (pool_results p)
        (pool_active p) (pool_effects p)
  | Some job =>
      let '(run, job', started) := startDueJob job index in
      mkPool (<[index := job']> (pool_due p)) (S index) (<[w := Some run]> (pool_workers p))
        (pool_results p) (markCronJobActive (pool_active p) (job_id job))
        (pool_effects p ++ [started])
  end.

Definition poolConcurrency (deps : CronServiceDeps) (due : list CronJob) : nat :=
  Z.to_nat (Z.min (resolveRunConcurrency deps) (Z.max 1 (Z.of_nat (length due)))).

Definition emptyPool (due : list CronJob) (active : gset string) (concurrency : nat) : Pool :=
  mkPool due 0 (replicate concurrency None) (replicate (length due) None) active [].

(** The workers are started one after the other. *)
Definition startPool (deps : CronServiceDeps) (due : list CronJob) (active : gset string) : Pool :=
  let c := poolConcurrency deps due in
  foldl takeNext (emptyPool due active c) (seq 0 c).

(** The run of worker [w] ends: its outcome is stored and the worker goes on. *)
Definition finishRun (p : Pool) (w : nat) (endedAt : Z) (e : RunEnd) : option Pool :=
  match pool_workers p !! w with
  | Some (Some run) =>
      match pool_due p !! run_index run with
      | Some job =>
          let o := outcomeOf (job_id job) (run_taskRunId run) (run_startedAt run) endedAt e in
          Some (takeNext
                  (mkPool (pool_due p) (pool_cursor p) (pool_workers p)
                     (<[run_index run := Some o]> (pool_results p)) (pool_active p)
                     (pool_effects p)) w)
      | None => None
      end
  | _ => None
  end.

(** The runs of the workers end in any order. *)
Inductive PoolSteps : Pool → nat → Pool → Prop :=
| PoolDone p : PoolSteps p 0 p
| PoolStep p n p1 w endedAt e p2 :
    PoolSteps p n p1 → finishRun p1 w endedAt e = Some p2 → PoolSteps p (S n) p2.

(** [await Promise.all(workers)] *)
Definition poolFinished (p : Pool) : bool :=
  forallb (λ w, match w with None => true | Some _ => false end) (pool_workers p).

Definition completedResults (p : Pool) : list TimedCronRunOutcome := filter_map id (pool_results p).

(** *** The invariant of the pool *)

Definition started_id (e : CronEffect) : string :=
  match e with EmitStarted id _ => id | _ => EmptyString end.

Definition runs (p : Pool) (w : nat) (r : Running) : Prop := pool_workers p !! w = Some (Some r).

(** [ids] are the ids of the due jobs, [c] the number of workers and [k] the
    number of finished runs. *)
Record pool_ok (ids : list string) (c k : nat) (p : Pool) : Prop := {
  ok_due : map job_id (pool_due p) = ids;
  ok_workers : length (pool_workers p) = c;
  ok_results : length (pool_results p) = length ids;
  ok_started : map started_id (pool_effects p) = take (pool_cursor p) ids;
  ok_run w r : runs p w r →
    (run_index r < pool_cursor p)%nat ∧ pool_results p !! run_index r = Some None;
  ok_inj w w' r r' : runs p w r → runs p w' r' → run_index r = run_index r' → w = w';
  ok_cover i : (i < pool_cursor p)%nat → pool_results p !! i = Some None →
    ∃ w r, runs p w r ∧ run_index r = i;
  ok_rest i : (pool_cursor p <= i < length ids)%nat → pool_results p !! i = Some None;
  ok_ids i o : pool_results p !! i = Some (Some o) → ids !! i = Some (oc_jobId o);
  ok_count : length (completedResults p) = k;
}.

Lemma filter_map_insert {A} (l : list (option A)) i a :
  l !! i = Some None → length (filter_map id (<[i := Some a]> l)) = S (length (filter_map id l)).
Proof.
  revert i. induction l as [|x l IH]; intros [|i] Hi; [done|done| |]; simpl in *.
  - by injection Hi as ->.
  - unfold filter_map in *. specialize (IH i Hi). simpl in *. destruct x; simpl; lia.
Qed.

Lemma filter_map_none {A B} (l : list B) : filter_map id (map (λ _, @None A) l) = [].
Proof. by induction l. Qed.

Lemma runs_insert p w x w' r :
  <[w := x]> (pool_workers p) !! w' = Some (Some r) →
  (w' = w ∧ x = Some r) ∨ (w' ≠ w ∧ runs p w' r).
Proof.
  intros Hw. destruct (decide (w' = w)) as [->|Hne].
  - left. pose proof (lookup_lt_Some _ _ _ Hw) as Hlt. rewrite length_insert in Hlt.
    rewrite list_lookup_insert_eq in Hw by done. by injection Hw as ->.
  - right. by rewrite list_lookup_insert_ne in Hw.
Qed.

Lemma takeNext_ok ids c k p w :
  pool_ok ids c k p → pool_workers p !! w = Some None → pool_ok ids c k (takeNext p w).
Proof.
  intros Hok Hw. destruct Hok as [H1 H2 H3 H4 H5 H6 H7 H8 H9 H10].
  assert (length (pool_due p) = length ids) as Hlen by (by rewrite <- H1, length_map).
  unfold takeNext. destruct (pool_due p !! pool_cursor p) as [job|] eqn:Ej.
  - unfold startDueJob. destruct (startObs (pool_cursor p)) as [startedAt ledger].
    set (run := mkRunning _ _ _).
    assert (run_index run = pool_cursor p) as Hri by done. clearbody run.
    assert (pool_cursor p < length ids)%nat as Hlt by (rewrite <- Hlen; by eapply lookup_lt_Some).
    assert (ids !! pool_cursor p = Some (job_id job)) as Hid.
    { by rewrite <- H1, list_lookup_fmap, Ej. }
    split; cbn [pool_due pool_workers pool_results pool_effects pool_cursor pool_active] in *; try done.
    + change (map job_id) with (fmap (M := list) job_id) in *. rewrite list_fmap_insert. rewrite H1.
      by apply list_insert_id.
    + by rewrite length_insert.
    + rewrite map_app, H4. cbn [map started_id]. by rewrite (take_S_r _ _ _ Hid).
    + intros w' r [[-> [= <-]]|[Hne Hr]]%runs_insert.
      * rewrite Hri. split; [lia|]. apply H8. lia.
      * destruct (H5 w' r Hr). split; [lia|done].
    + intros w1 w2 r1 r2 [[-> [= <-]]|[Hn1 Hr1]]%runs_insert [[-> [= <-]]|[Hn2 Hr2]]%runs_insert He.
      * done.
      * destruct (H5 w2 r2 Hr2). lia.
      * destruct (H5 w1 r1 Hr1). lia.
      * by eapply H6.
    + intros i Hi Hr. destruct (decide (i = pool_cursor p)) as [->|Hne].
      * exists w, run. split; [|done]. unfold runs. cbn.
        apply list_lookup_insert_eq. by eapply lookup_lt_Some.
      * destruct (H7 i) as (w' & r' & Hr' & Hi'); [lia|done|]. exists w', r'. split; [|done].
        unfold runs in *. cbn. rewrite list_lookup_insert_ne; [done|congruence].
    + intros i Hi. apply H8. lia.
  - apply lookup_ge_None in Ej. rewrite Hlen in Ej.
    split; cbn [pool_due pool_workers pool_results pool_effects pool_cursor pool_active] in *; try done.
    + by rewrite length_insert.
    + rewrite H4, !take_ge; [done|lia|lia].
    + intros w' r [[_ ?]|[Hne Hr]]%runs_insert; [done|]. destruct (H5 w' r Hr). split; [lia|done].
    + intros w1 w2 r1 r2 [[_ ?]|[Hn1 Hr1]]%runs_insert [[_ ?]|[Hn2 Hr2]]%runs_insert He; try done.
      by eapply H6.
    + intros i Hi Hr. assert (i < length ids)%nat.
      { rewrite <- H3. by eapply lookup_lt_Some. }
      destruct (H7 i) as (w' & r' & Hr' & Hi'); [lia|done|]. exists w', r'. split; [|done].
      unfold runs in *. cbn. rewrite list_lookup_insert_ne; [done|congruence].
    + intros i Hi. apply H8. lia.
Qed.

(** The slot of a worker whose run has ended is free. *)
Lemma finish_ok ids c k p w run o :
  pool_ok ids c k p → runs p w run → ids !! run_index run = Some (oc_jobId o) →
  pool_ok ids c (S k)
    (mkPool (pool_due p) (pool_cursor p) (<[w := None]> (pool_workers p))
       (<[run_index run := Some o]> (pool_results p)) (pool_active p) (pool_effects p)).
Proof.
  intros Hok Hr Hid. destruct Hok as [H1 H2 H3 H4 H5 H6 H7 H8 H9 H10].
  destruct (H5 w run Hr) as [Hlt Hnone].
  split; cbn [pool_due pool_workers pool_results pool_effects pool_cursor pool_active] in *; try done.
  - by rewrite length_insert.
  - by rewrite length_insert.
  - intros w' r [[_ ?]|[Hne Hr']]%runs_insert; [done|]. destruct (H5 w' r Hr') as [Hl Hn].
    split; [done|]. rewrite list_lookup_insert_ne; [done|]. intros He. apply Hne.
    by apply (H6 w' w r run Hr' Hr).
  - intros w1 w2 r1 r2 [[_ ?]|[Hn1 Hr1]]%runs_insert [[_ ?]|[Hn2 Hr2]]%runs_insert He; try done.
    by eapply H6.
  - intros i Hi Hn. destruct (decide (i = run_index run)) as [->|Hne].
    { rewrite list_lookup_insert_eq in Hn; [done|]. by eapply lookup_lt_Some. }
    rewrite list_lookup_insert_ne in Hn by congruence.
    destruct (H7 i Hi Hn) as (w' & r' & Hr' & He'). exists w', r'. split; [|done].
    unfold runs in *. cbn. rewrite list_lookup_insert_ne; [done|]. intros ->. congruence.
  - intros i Hi. rewrite list_lookup_insert_ne; [by apply H8|]. lia.
  - intros i o' Ho. destruct (decide (i = run_index run)) as [->|Hne].
    + rewrite list_lookup_insert_eq in Ho by (by eapply lookup_lt_Some). by injection Ho as <-.
    + rewrite list_lookup_insert_ne in Ho by congruence. by apply H9.
  - unfold completedResults in *. cbn [pool_results]. by rewrite filter_map_insert, H10.
Qed.

Lemma takeNext_workers p w :
  ∃ x, pool_workers (takeNext p w) = <[w := x]> (pool_workers p) ∧
       pool_cursor (takeNext p w) = S (pool_cursor p) ∧
       (x = None → (length (pool_due p) <= pool_cursor p)%nat) ∧
       length (pool_due (takeNext p w)) = length (pool_due p).
Proof.
  unfold takeNext. destruct (pool_due p !! pool_cursor p) as [job|] eqn:Ej.
  - unfold startDueJob. destruct (startObs (pool_cursor p)). eexists. cbn.
    rewrite length_insert. by repeat split.
  - apply lookup_ge_None in Ej. exists None. by repeat split.
Qed.

(** No worker returns while due jobs are left. *)
Definition pool_busy (p : Pool) : Prop :=
  ∀ w, pool_workers p !! w = Some None → (length (pool_due p) <= pool_cursor p)%nat.

Lemma startPool_ok deps due active :
  pool_ok (map job_id due) (poolConcurrency deps due) 0 (startPool deps due active) ∧
  pool_busy (startPool deps due active).
Proof.
  unfold startPool. set (c := poolConcurrency deps due). set (p0 := emptyPool due active c).
  assert (∀ m, (m <= c)%nat →
    let p := foldl takeNext p0 (seq 0 m) in
    pool_ok (map job_id due) c 0 p ∧ (∀ w, (m <= w < c)%nat → pool_workers p !! w = Some None) ∧
    ∀ w, (w < m)%nat → pool_workers p !! w = Some None →
         (length (pool_due p) <= pool_cursor p)%nat) as Hm.
  { induction m as [|m IH]; intros Hle.
    - split; [|split; [|lia]].
      + subst p0. split; cbn; try done.
        * apply length_replicate.
        * by rewrite length_replicate, length_map.
        * intros w r Hr. unfold runs in Hr. cbn in Hr. by apply lookup_replicate_1 in Hr as [? _].
        * intros w w' r r' Hr. unfold runs in Hr. cbn in Hr. by apply lookup_replicate_1 in Hr as [? _].
        * lia.
        * intros i [_ Hi]. rewrite length_map in Hi. by apply lookup_replicate_2.
        * intros i o Ho. by apply lookup_replicate_1 in Ho as [? _].
        * unfold completedResults. cbn. clear. by induction due.
      + intros w Hw. apply lookup_replicate_2. lia.
    - destruct IH as (Hok & Hfree & Hbusy); [lia|].
      rewrite seq_S, foldl_app. cbn [foldl]. rewrite Nat.add_0_l.
      set (p := foldl takeNext p0 (seq 0 m)) in *.
      destruct (takeNext_workers p m) as (x & Hw & Hc & Hx & Hl).
      assert (pool_workers p !! m = Some None) as Hpm by (apply Hfree; lia).
      split; [by apply takeNext_ok|]. cbn zeta. rewrite Hw, Hc, Hl. split.
      + intros w Hwm. rewrite list_lookup_insert_ne by lia. apply Hfree. lia.
      + intros w Hwm Hwn. destruct (decide (w = m)) as [->|Hne].
        * rewrite list_lookup_insert_eq in Hwn by (by eapply lookup_lt_Some).
          injection Hwn as ->. specialize (Hx eq_refl). lia.
        * rewrite list_lookup_insert_ne in Hwn by congruence.
          assert (length (pool_due p) <= pool_cursor p)%nat by (apply (Hbusy w); [lia|done]). lia. }
  destruct (Hm c ltac:(lia)) as (Hok & _ & Hbusy). split; [done|].
  intros w Hw. apply (Hbusy w); [|done]. apply lookup_lt_Some in Hw.
  by rewrite (ok_workers _ _ _ _ Hok) in Hw.
Qed.

Lemma finishRun_ok ids c k p w endedAt e p' :
  pool_ok ids c k p → pool_busy p → finishRun p w endedAt e = Some p' →
  pool_ok ids c (S k) p' ∧ pool_busy p'.
Proof.
  intros Hok Hbusy Hf. unfold finishRun in Hf.
  destruct (pool_workers p !! w) as [[run|]|] eqn:Hw; try done.
  destruct (pool_due p !! run_index run) as [job|] eqn:Hj; [|done]. injection Hf as <-.
  set (o := outcomeOf _ _ _ _ _).
  set (p1 := mkPool (pool_due p) (pool_cursor p) (pool_workers p) (<[run_index run := Some o]> (pool_results p)) _ _).
  set (p2 := mkPool (pool_due p) (pool_cursor p) (<[w := None]> (pool_workers p))
               (<[run_index run := Some o]> (pool_results p)) (pool_active p) (pool_effects p)).
  assert (takeNext p1 w = takeNext p2 w) as ->.
  { unfold takeNext. subst p1 p2. cbn. destruct (pool_due p !! pool_cursor p); [|by rewrite list_insert_insert_eq].
    unfold startDueJob. destruct (startObs _). by rewrite list_insert_insert_eq. }
  assert (pool_ok ids c (S k) p2) as Hok2.
  { apply finish_ok; [done|done|]. rewrite <- (ok_due _ _ _ _ Hok), list_lookup_fmap, Hj.
    subst o. unfold outcomeOf. by destruct e. }
  assert (pool_workers p2 !! w = Some None) as Hfree.
  { apply list_lookup_insert_eq. by eapply lookup_lt_Some. }
  split; [by apply takeNext_ok|].
  destruct (takeNext_workers p2 w) as (x & Hw2 & Hc & Hx & Hl).
  intros w' Hw'. rewrite Hw2 in Hw'. rewrite Hl, Hc. destruct (decide (w' = w)) as [->|Hne].
  - rewrite list_lookup_insert_eq in Hw' by (by eapply lookup_lt_Some).
    injection Hw' as ->. specialize (Hx eq_refl). lia.
  - rewrite list_lookup_insert_ne in Hw' by congruence.
    subst p2. cbn in Hw' |- *. rewrite list_lookup_insert_ne in Hw' by congruence.
    specialize (Hbusy w' Hw'). lia.
Qed.

Lemma PoolSteps_ok deps due active n p :
  PoolSteps (startPool deps due active) n p →
  pool_ok (map job_id due) (poolConcurrency deps due) n p ∧ pool_busy p.
Proof.
  intros Hs. remember (startPool deps due active) as p0 eqn:E.
  induction Hs as [p|p n p1 w endedAt e p2 Hs IH Hf]; subst.
  - apply startPool_ok.
  - destruct (IH eq_refl). by eapply finishRun_ok.
Qed.

Lemma poolFinished_spec p : poolFinished p = true ↔ ∀ w r, ¬ runs p w r.
Proof.
  unfold poolFinished. rewrite forallb_forall. split.
  - intros Hall w r Hr. by specialize (Hall (Some r) (proj1 (list_elem_of_In _ _) (list_elem_of_lookup_2 _ _ _ Hr))).
  - intros Hall [r|] Hin; [|done]. apply list_elem_of_In, list_elem_of_lookup_1 in Hin as [w Hw].
    by destruct (Hall w r).
Qed.

Lemma all_some_ids (ids : list string) (l : list (option TimedCronRunOutcome)) :
  length l = length ids →
  (∀ i, (i < length ids)%nat → l !! i ≠ Some None) →
  (∀ i o, l !! i = Some (Some o) → ids !! i = Some (oc_jobId o)) →
  map oc_jobId (filter_map id l) = ids.
Proof.
  revert ids. induction l as [|x l IH]; intros [|id0 ids] Hl Hn Hi; try done.
  destruct x as [o|]; [|by destruct (Hn 0%nat ltac:(simpl; lia))].
  simpl in *. f_equal.
  - specialize (Hi 0%nat o eq_refl). by injection Hi.
  - apply IH; [lia| |].
    + intros i Hlt. apply (Hn (S i)). lia.
    + intros i o'. apply (Hi (S i)).
Qed.

Lemma finished_all ids c k p :
  pool_ok ids c k p → pool_busy p → (0 < c)%nat → poolFinished p = true →
  k = length ids ∧ map oc_jobId (completedResults p) = ids ∧ map started_id (pool_effects p) = ids.
Proof.
  intros Hok Hbusy Hc Hfin. pose proof (proj1 (poolFinished_spec p) Hfin) as Hnone.
  assert (length ids <= pool_cursor p)%nat as Hcur.
  { pose proof (ok_due _ _ _ _ Hok) as Hd. rewrite <- Hd, length_map.
    apply (Hbusy 0%nat). destruct (pool_workers p !! 0%nat) as [[r|]|] eqn:Hw; [|done|].
    - by destruct (Hnone 0%nat r).
    - apply lookup_ge_None in Hw. rewrite (ok_workers _ _ _ _ Hok) in Hw. lia. }
  assert (map oc_jobId (completedResults p) = ids) as Hids.
  { apply all_some_ids; [apply Hok| |apply Hok]. intros i Hi Hn.
    destruct (ok_cover _ _ _ _ Hok i) as (w & r & Hr & _); [lia|done|]. by eapply Hnone. }
  split; [|split; [done|]].
  - rewrite <- (ok_count _ _ _ _ Hok), <- Hids at 1. by rewrite length_map.
  - rewrite (ok_started _ _ _ _ Hok). by apply take_ge.
Qed.

End pool.

(** ** The locked sections of a tick *)

Section env.
Context `{CronEnv}.
Context (reason : string → option string).

Record TickBegin := mkTickBegin {
  tb_jobs : list CronJob;      (* the store afterwards *)
  tb_persist : bool;           (* whether it is persisted *)
  tb_due : list CronJob;       (* the jobs to run *)
  tb_effects : list CronEffect;
}.

(** The first locked section of [onTimer], on the store it has loaded. *)
Definition tickBegin (jobs : list CronJob) (dueCheckNow now : Z) : TickBegin :=
  match collectRunnableJobs tickOpts jobs dueCheckNow with
  | [] =>
      let '(jobs', changed, effs) := recomputeNextRunsForMaintenance jobs true dueCheckNow in
      mkTickBegin jobs' changed [] effs
  | due =>
      mkTickBegin
        (map (λ j, if isRunnableJob tickOpts dueCheckNow j then markRunning now j else j) jobs)
        true (map (markRunning now) due) []
  end.

(** [clock i] is the reading taken for the alert of the [i]-th outcome. *)
Fixpoint applyOutcomes (deps : CronServiceDeps) (clock : nat → Z) (i : nat) (mem : CronMemory)
    (results : list TimedCronRunOutcome) : CronMemory * list CronEffect :=
  match results with
  | [] => (mem, [])
  | o :: rest =>
      let '(mem1, e1) := applyOutcomeToStoredJob reason deps (clock i) mem o in
      let '(mem2, e2) := applyOutcomes deps clock (S i) mem1 rest in
      (mem2, e1 ++ e2)
  end.

(** The second locked section of [onTimer], on the store it has reloaded. *)
Definition tickApply (deps : CronServiceDeps) (clock : nat → Z) (maintenanceNow : Z)
    (mem : CronMemory) (results : list TimedCronRunOutcome) : CronMemory * list CronEffect :=
  match results with
  | [] => (mem, [])
  | _ =>
      let '(mem1, e1) := applyOutcomes deps clock 0 mem results in
      let '(jobs, _, e2) := recomputeNextRunsForMaintenance (mem_jobs mem1) false maintenanceNow in
      (mkMemory jobs (mem_active mem1), e1 ++ e2)
  end.

(** ** Catch-up at start-up *)

Definition nextKey (j : CronJob) : Z := nextRunAtMs (job_state j) ?? 0.

(** [toSorted] by the next run. *)
Definition sortByNext (l : list CronJob) : list CronJob := toSorted (λ a b, nextKey a <=? nextKey b) l.

Record StartupPlan := mkStartupPlan {
  sp_candidates : list CronJob;
  sp_deferredJobIds : list string;
}.

Definition maxImmediate (deps : CronServiceDeps) : nat :=
  Z.to_nat (Z.max 0 (maxMissedJobsPerRestart deps ?? DEFAULT_MAX_MISSED_JOBS_PER_RESTART)).

(** The candidates are marked in the store: jobs are told apart by their id. *)
Definition planStartupCatchup (deps : CronServiceDeps) (skip : list string) (jobs : list CronJob)
    (now : Z) : list CronJob * StartupPlan :=
  match collectRunnableJobs (mkOpts skip true true) jobs now with
  | [] => (jobs, mkStartupPlan [] [])
  | missed =>
      let sorted := sortByNext missed in
      let candidates := take (maxImmediate deps) sorted in
      let deferred := drop (maxImmediate deps) sorted in
      (map (λ j, if bool_decide (job_id j ∈ map job_id candidates) then markRunning now j else j) jobs,
       mkStartupPlan (map (markRunning now) candidates) (map job_id deferred))
  end.

Definition startupStagger (deps : CronServiceDeps) : Z :=
  Z.max 0 (missedJobStaggerMs deps ?? DEFAULT_MISSED_JOB_STAGGER_MS).

(** The loop over the deferred jobs. *)
Fixpoint deferJobs (staggerMs baseNow offset : Z) (ids : list string) (jobs : list CronJob)
    : list CronJob :=
  match ids with
  | [] => jobs
  | id :: rest =>
      match findJob jobs id with
      | Some job =>
          if isJobEnabled job
          then deferJobs staggerMs baseNow (offset + staggerMs) rest
                 (replaceJob jobs id (set_nextRun job (Some (baseNow + offset))))
          else deferJobs staggerMs baseNow offset rest jobs
      | None => deferJobs staggerMs baseNow offset rest jobs
      end
  end.

Definition applyStartupCatchupOutcomes (deps : CronServiceDeps) (clock : nat → Z)
    (baseNow maintenanceNow : Z) (mem : CronMemory) (plan : StartupPlan)
    (outcomes : list TimedCronRunOutcome) : CronMemory * list CronEffect :=
  let '(mem1, e1) := applyOutcomes deps clock 0 mem outcomes in
  let stagger := startupStagger deps in
  let jobs1 := deferJobs stagger baseNow stagger (sp_deferredJobIds plan) (mem_jobs mem1) in
  let '(jobs2, _, e2) := recomputeNextRunsForMaintenance jobs1 false maintenanceNow in
  (mkMemory jobs2 (mem_active mem1), e1 ++ e2).

(** [runStartupCatchupCandidate]: one candidate after the other; [obs] gives the
    clock at its start and end, whether the ledger takes the record, and how the
    run ends. *)
Definition runStartupCandidates (obs : nat → Z * Z * bool * RunEnd) (candidates : list CronJob)
    : list TimedCronRunOutcome * list CronEffect :=
  (imap (λ i j, let '(startedAt, endedAt, ledger, e) := obs i in
     outcomeOf (job_id j) (if ledger : bool then Some (createCronTaskRunId (job_id j) startedAt) else None)
       startedAt endedAt e) candidates,
   imap (λ i j, EmitStarted (job_id j) (obs i).1.1.1) candidates).

(** [start] clears the running markers a previous process left and excludes the
    one-shot jobs among them from the catch-up. *)
Definition clearRunningMarkers (jobs : list CronJob) : list CronJob * list string :=
  (map (λ j, match runningAtMs (job_state j) with Some _ => set_running j None | None => j end) jobs,
   filter_map (λ j, match runningAtMs (job_state j) with
                    | Some _ => if is_at (job_schedule j) then Some (job_id j) else None
                    | None => None
                    end) jobs).

(** What [start] observes. *)
Record StartObs := mkStartObs {
  so_planNow : Z;
  so_runs : nat → Z * Z * bool * RunEnd;
  so_clock : nat → Z;
  so_baseNow : Z;
  so_maintenanceNow : Z;
  so_recomputeNow : Z;
}.

Definition runMissedJobs (deps : CronServiceDeps) (obs : StartObs) (skip : list string)
    (mem : CronMemory) : CronMemory * list CronEffect :=
  let '(jobs1, plan) := planStartupCatchup deps skip (mem_jobs mem) (so_planNow obs) in
  match sp_candidates plan, sp_deferredJobIds plan with
  | [], [] => (mkMemory jobs1 (mem_active mem), [])
  | candidates, _ =>
      let '(outcomes, started) := runStartupCandidates (so_runs obs) candidates in
      let '(mem2, effs) :=
        applyStartupCatchupOutcomes deps (so_clock obs) (so_baseNow obs) (so_maintenanceNow obs)
          (mkMemory jobs1 (mem_active mem)) plan outcomes in
      (mem2, started ++ effs)
  end.

(** [start]: the store and the effects; the timer is then armed. *)
Definition start (deps : CronServiceDeps) (obs : StartObs) (mem : CronMemory)
    : CronMemory * list CronEffect :=
  if negb (cronEnabled deps) then (mem, [])
  else
    let '(jobs1, interrupted) := clearRunningMarkers (mem_jobs mem) in
    let '(mem2, e2) := runMissedJobs deps obs interrupted (mkMemory jobs1 (mem_active mem)) in
    let '(jobs3, _, e3) := recomputeNextRuns (mem_jobs mem2) (so_recomputeNow obs) in
    (mkMemory jobs3 (mem_active mem2), e2 ++ e3).

(** *** Lemmas on the sections *)

Lemma walkJob_id fn now j :
  (∀ j', job_id (fn j' now).1.1 = job_id j') → job_id (walkJob fn now j).1.1 = job_id j.
Proof.
  intros Hfn. assert (job_id (tk_job (normalizeJobTickState j now)) = job_id j) as Hk.
  { unfold normalizeJobTickState. by repeat case_match; simplify_eq. }
  unfold walkJob. destruct (tk_skip _); [done|].
  pose proof (Hfn (tk_job (normalizeJobTickState j now))) as Hf.
  destruct (fn _ now) as [[j' c] e]. cbn in *. congruence.
Qed.

Lemma walkJob_idle fn now j :
  (∀ j', runningAtMs (job_state j') = None → runningAtMs (job_state (fn j' now).1.1) = None) →
  runningAtMs (job_state j) = None → runningAtMs (job_state (walkJob fn now j).1.1) = None.
Proof.
  intros Hfn Hr.
  assert (runningAtMs (job_state (tk_job (normalizeJobTickState j now))) = None) as Hk.
  { unfold normalizeJobTickState. by repeat case_match; simplify_eq. }
  unfold walkJob. destruct (tk_skip _); [done|].
  pose proof (Hfn _ Hk) as Hf. by destruct (fn _ now) as [[j' c] e].
Qed.

Lemma recomputeJob_keeps j now :
  job_id (recomputeJobNextRunAtMs j now).1.1 = job_id j ∧
  runningAtMs (job_state (recomputeJobNextRunAtMs j now).1.1) = runningAtMs (job_state j).
Proof.
  unfold recomputeJobNextRunAtMs. destruct (computeJobNextRunAtMs j now) as [n|err].
  - by repeat case_match; simplify_eq.
  - destruct (recordScheduleComputeError_same j err) as ((Hid & _) & Hr & _).
    by destruct (recordScheduleComputeError j err).
Qed.

Lemma maintenanceStep_keeps b j now :
  job_id (maintenanceStep b j now).1.1 = job_id j ∧
  runningAtMs (job_state (maintenanceStep b j now).1.1) = runningAtMs (job_state j).
Proof. unfold maintenanceStep. repeat case_match; try done; apply recomputeJob_keeps. Qed.

Lemma maintenance_idle jobs b now id :
  (∀ x, x ∈ jobs → job_id x = id → runningAtMs (job_state x) = None) →
  ∀ x, x ∈ (recomputeNextRunsForMaintenance jobs b now).1.1 → job_id x = id →
       runningAtMs (job_state x) = None.
Proof.
  intros Hall x Hx Hid. unfold recomputeNextRunsForMaintenance, walkSchedulableJobs in Hx.
  cbn [fst] in Hx. rewrite map_map in Hx.
  apply list_elem_of_In, in_map_iff in Hx as (j & <- & Hj%list_elem_of_In).
  rewrite walkJob_id in Hid by (intros; apply maintenanceStep_keeps).
  apply walkJob_idle; [|by apply Hall].
  intros j' Hj'. destruct (maintenanceStep_keeps b j' now) as [_ ->]. done.
Qed.

(** After an outcome is applied, later outcomes do not mark its job again. *)
Lemma applyOutcomes_spec deps clock i mem results :
  NoDup (map job_id (mem_jobs mem)) →
  let mem' := (applyOutcomes deps clock i mem results).1 in
  NoDup (map job_id (mem_jobs mem')) ∧
  (∀ id x, (id ∈ map oc_jobId results ∨ ∀ y, y ∈ mem_jobs mem → job_id y = id → runningAtMs (job_state y) = None) →
     x ∈ mem_jobs mem' → job_id x = id → runningAtMs (job_state x) = None) ∧
  (∀ x, job_id x ∉ map oc_jobId results → x ∈ mem_jobs mem' ↔ x ∈ mem_jobs mem) ∧
  (∀ id, (id ∈ map oc_jobId results ∨ isCronJobActive (mem_active mem) id = false) →
     isCronJobActive (mem_active mem') id = false).
Proof.
  revert i mem. induction results as [|o rest IH]; intros i mem Hnd; simpl.
  { split; [done|]. split; [intros id x [Hn|Hall] Hx Hid; [by apply elem_of_nil in Hn|by eapply Hall]|].
    split; [done|]. intros id [Hn|?]; [by apply elem_of_nil in Hn|done]. }
  destruct (applyOutcome_spec reason deps (clock i) mem o Hnd) as (H1 & H2 & H3 & H4).
  assert (∀ id, isCronJobActive (mem_active mem) id = false →
    isCronJobActive (mem_active (applyOutcomeToStoredJob reason deps (clock i) mem o).1) id = false) as H5.
  { intros id. unfold applyOutcomeToStoredJob, isCronJobActive, clearCronJobActive.
    destruct (str_truthy id); [|done]. rewrite !bool_decide_eq_false.
    repeat case_match; cbn [fst mem_active]; set_solver. }
  destruct (applyOutcomeToStoredJob reason deps (clock i) mem o) as [mem1 e1]. cbn [fst] in *.
  destruct (IH (S i) mem1 H3) as (I1 & I2 & I3 & I4).
  destruct (applyOutcomes deps clock (S i) mem1 rest) as [mem2 e2]. cbn [fst] in *.
  split; [done|]. split; [|split].
  - intros id x Hc Hx Hid. apply (I2 id x); [|done|done].
    destruct (decide (id = oc_jobId o)) as [->|Hne].
    + right. intros y Hy Hyi. by apply H2.
    + destruct Hc as [[?|Hc]%elem_of_cons|Hc]; [done|by left|]. right.
      intros y Hy Hyi. apply Hc; [|done]. apply H1; congruence.
  - intros x Hx. apply not_elem_of_cons in Hx as [Hx1 Hx2]. by rewrite I3, H1.
  - intros id Hc. apply I4. destruct (decide (id = oc_jobId o)) as [->|Hne]; [by right|].
    destruct Hc as [[?|Hc]%elem_of_cons|Hc]; [done|by left|]. right. auto.
Qed.

(** *** Sorting by the next run *)

Lemma sortByNext_sorted l : StronglySorted (λ a b, nextKey a <= nextKey b) (sortByNext l).
Proof. apply toSorted_sorted; [intros a b; lia|intros a b; lia|intros a b c; lia]. Qed.

Lemma sorted_take_drop {A} (R : A → A → Prop) n l x y :
  StronglySorted R l → x ∈ take n l → y ∈ drop n l → R x y.
Proof.
  revert n. induction l as [|a l IH]; intros n Hs Hx Hy.
  { rewrite take_nil in Hx. by apply elem_of_nil in Hx. }
  inversion Hs as [|? ? Hl Ha]; subst. destruct n as [|n]; simpl in *; [by apply elem_of_nil in Hx|].
  apply elem_of_cons in Hx as [->|Hx]; [|by eapply IH].
  rewrite Forall_forall in Ha. apply Ha.
  apply (list_elem_of_lookup_1) in Hy as [i Hy]. rewrite lookup_drop in Hy.
  by eapply list_elem_of_lookup_2.
Qed.

(** *** Deferred jobs *)

Lemma findJob_replace jobs id j j' id' :
  findJob jobs id = Some j → job_id j' = id →
  findJob (replaceJob jobs id j') id' = if decide (id' = id) then Some j' else findJob jobs id'.
Proof.
  intros Hf Hid. induction jobs as [|k jobs IH]; [done|]. simpl in *.
  destruct (String.eqb_spec (job_id k) id) as [Hk|Hk]; simpl.
  - rewrite Hid. destruct (decide (id' = id)) as [->|Hne]; [by rewrite String.eqb_refl|].
    destruct (String.eqb_spec id id'); [congruence|].
    destruct (String.eqb_spec (job_id k) id'); [congruence|done].
  - destruct (String.eqb_spec (job_id k) id') as [<-|?]; [|by apply IH].
    by destruct (decide (job_id k = id)).
Qed.

Lemma skipped_not_runnable opts now j :
  job_id j ∈ skipJobIds opts → isRunnableJob opts now j = false.
Proof.
  intros Hin. unfold isRunnableJob. rewrite bool_decide_eq_true_2 by done. by case_match.
Qed.

Definition deferrable (jobs : list CronJob) (id : string) : bool :=
  match findJob jobs id with Some j => job_enabled j | None => false end.

Lemma deferJobs_spec stagger base offset ids jobs :
  NoDup ids →
  let jobs' := deferJobs stagger base offset ids jobs in
  (∀ id, id ∉ ids → findJob jobs' id = findJob jobs id) ∧
  ∀ i id, List.filter (deferrable jobs) ids !! i = Some id →
    ∃ j, findJob jobs id = Some j ∧
         findJob jobs' id = Some (set_nextRun j (Some (base + offset + Z.of_nat i * stagger))).
Proof.
  clear reason. revert offset jobs.
  induction ids as [|id ids IH]; intros offset jobs Hnd; [by split|].
  inversion_clear Hnd as [|? ? Hni Hnd']. simpl.
  destruct (findJob jobs id) as [j|] eqn:Ef.
  2:{ assert (deferrable jobs id = false) as -> by (unfold deferrable; by rewrite Ef).
      destruct (IH offset jobs Hnd') as [I1 I2]. split; [|done].
      intros id' Hn. apply I1. set_solver. }
  unfold isJobEnabled. destruct (job_enabled j) eqn:Een.
  2:{ assert (deferrable jobs id = false) as -> by (unfold deferrable; by rewrite Ef).
      destruct (IH offset jobs Hnd') as [I1 I2]. split; [|done].
      intros id' Hn. apply I1. set_solver. }
  assert (deferrable jobs id = true) as -> by (unfold deferrable; by rewrite Ef).
  pose proof (findJob_id _ _ _ Ef) as Hid.
  set (j' := set_nextRun j (Some (base + offset))).
  assert (∀ id', findJob (replaceJob jobs id j') id' = if decide (id' = id) then Some j' else findJob jobs id')
    as Hrep by (intros id'; by eapply findJob_replace).
  destruct (IH (offset + stagger) (replaceJob jobs id j') Hnd') as [I1 I2].
  assert (List.filter (deferrable (replaceJob jobs id j')) ids = List.filter (deferrable jobs) ids) as Hfil.
  { apply filter_ext_in. intros x Hx. unfold deferrable. rewrite Hrep.
    destruct (decide (x = id)) as [->|]; [|done]. by apply list_elem_of_In in Hx. }
  rewrite Hfil in I2. split.
  - intros id' Hn. rewrite I1 by set_solver. rewrite Hrep. destruct (decide (id' = id)); [set_solver|done].
  - intros [|i] id' Hi; simpl in Hi.
    + injection Hi as <-. exists j. split; [done|]. rewrite I1 by done. rewrite Hrep.
      destruct (decide (id = id)); [|done]. subst j'. do 3 f_equal. lia.
    + destruct (I2 i id' Hi) as (k & Hk & Hk'). rewrite Hrep in Hk.
      destruct (decide (id' = id)) as [->|Hne].
      { exfalso. apply Hni. apply list_elem_of_In, filter_In with (f := deferrable jobs), list_elem_of_In.
        by eapply list_elem_of_lookup_2. }
      exists k. split; [done|]. rewrite Hk'. do 3 f_equal. lia.
Qed.

End env.

(** ** Properties *)

Lemma resolveRunConcurrency_pos deps : 1 <= resolveRunConcurrency deps.
Proof. unfold resolveRunConcurrency. destruct (_ ≫= _); lia. Qed.

Lemma poolConcurrency_bounds deps due :
  (0 < poolConcurrency deps due)%nat ∧
  Z.of_nat (poolConcurrency deps due) <= resolveRunConcurrency deps.
Proof. unfold poolConcurrency. pose proof (resolveRunConcurrency_pos deps). lia. Qed.

(** C22. The pool of a tick runs every due job exactly once: whatever order the runs
    end in, at most [maxConcurrentRuns] run at a time and on different jobs, a run
    that ends can always be taken in, the pool is finished after exactly one end
    per due job, and then every job has been started once, in order, and has one
    outcome in its own place. *)
Theorem tick_pool_runs_each_job_once (startObs : nat → Z * bool) (deps : CronServiceDeps)
    (due : list CronJob) (active : gset string) (n : nat) (p : Pool) :
  PoolSteps startObs (startPool startObs deps due active) n p →
  Z.of_nat (length (filter_map id (pool_workers p))) <= resolveRunConcurrency deps ∧
  (∀ w w' r r', runs p w r → runs p w' r' → run_index r = run_index r' → w = w') ∧
  (∀ w r endedAt e, runs p w r → is_Some (finishRun startObs p w endedAt e)) ∧
  (poolFinished p = true ↔ n = length due) ∧
  (poolFinished p = true →
   map started_id (pool_effects p) = map job_id due ∧
   map oc_jobId (completedResults p) = map job_id due).
Proof.
  intros Hs. destruct (PoolSteps_ok startObs deps due active n p Hs) as [Hok Hbusy].
  destruct (poolConcurrency_bounds deps due) as [Hc0 Hc].
  pose proof Hok as [H1 H2 H3 H4 H5 H6 H7 H8 H9 H10].
  assert (∀ A (l : list (option A)), (length (filter_map id l) <= length l)%nat) as Hlen.
  { intros A l. induction l as [|[a|] l IH]; simpl; lia. }
  split; [|split; [exact H6|split; [|split; [split|]]]].
  - specialize (Hlen _ (pool_workers p)). lia.
  - intros w r endedAt e Hr. unfold finishRun. unfold runs in Hr. rewrite Hr.
    destruct (H5 w r Hr) as [_ Hn]. apply lookup_lt_Some in Hn. rewrite H3, <- H1, length_map in Hn.
    apply lookup_lt_is_Some in Hn as [job ->]. by eexists.
  - intros Hfin. destruct (finished_all _ _ _ _ Hok Hbusy Hc0 Hfin) as (-> & _). apply length_map.
  - intros ->. apply poolFinished_spec. intros w r Hr. destruct (H5 w r Hr) as [_ Hn].
    assert (∀ l : list (option TimedCronRunOutcome), l !! run_index r = Some None →
      (length (filter_map id l) < length l)%nat) as Hlt.
    { generalize (run_index r). intros i l. revert i.
      induction l as [|[o|] l IH]; intros [|i] Hi; simplify_eq/=.
      - specialize (IH i Hi). lia.
      - specialize (Hlen _ l). lia.
      - specialize (Hlen _ l). lia. }
    specialize (Hlt _ Hn). unfold completedResults in H10. rewrite H10, H3, length_map in Hlt. lia.
  - intros Hfin. by destruct (finished_all _ _ _ _ Hok Hbusy Hc0 Hfin) as (_ & ? & ?).
Qed.

Definition twoWorkers : CronServiceDeps :=
  mkDeps true (Some (mkCronConfig (Some (num_of_Z 2)) None None)) None None true false None.
Definition named (id : string) : CronJob :=
  mkJob id None None id None true None 0 0 (SEvery (VNum (num_of_Z 60000)) VOther)
    "main" WakeNow (SystemEvent "tick") None None
    (st_nextRun emptyJobState (Some 60000)).
Definition okEnd : RunEnd := CoreReturned (mkCore StatusOk None None None).

Lemma tick_pool_runs_each_job_once_witness :
  let obs := λ i, (60000 + Z.of_nat i, true) in
  let p0 := startPool obs twoWorkers [named "a"; named "b"; named "c"] ∅ in
  ∃ p, PoolSteps obs p0 3 p ∧ map oc_jobId (completedResults p) = ["a"; "b"; "c"].
Proof.
  intros obs p0.
  destruct (finishRun obs p0 1 60100 okEnd) as [p1|] eqn:E1; [|discriminate E1].
  destruct (finishRun obs p1 1 60200 TimedOut) as [p2|] eqn:E2;
    [|injection E1 as <-; discriminate E2].
  destruct (finishRun obs p2 0 60300 okEnd) as [p3|] eqn:E3;
    [|injection E1 as <-; injection E2 as <-; discriminate E3].
  assert (PoolSteps obs p0 3 p3) as Hs.
  { eapply PoolStep; [|exact E3]. eapply PoolStep; [|exact E2]. eapply PoolStep; [|exact E1].
    apply PoolDone. }
  exists p3. split; [exact Hs|].
  apply (tick_pool_runs_each_job_once obs twoWorkers [named "a"; named "b"; named "c"] ∅ 3 p3 Hs).
  apply (tick_pool_runs_each_job_once obs twoWorkers [named "a"; named "b"; named "c"] ∅ 3 p3 Hs).
  reflexivity.
Defined.

(** A tick releases what it ran: once the outcomes are applied to the reloaded
    store, no stored job with the id of an outcome carries a running marker, its id
    is not active, and no other job has gained a marker; so the job can run again. *)
Lemma tick_releases_jobs `{CronEnv} (reason : string → option string) (deps : CronServiceDeps)
    (clock : nat → Z) (maintenanceNow : Z) (mem : CronMemory) (results : list TimedCronRunOutcome) :
  NoDup (map job_id (mem_jobs mem)) →
  let mem' := (tickApply reason deps clock maintenanceNow mem results).1 in
  (∀ id x, id ∈ map oc_jobId results → x ∈ mem_jobs mem' → job_id x = id →
     runningAtMs (job_state x) = None) ∧
  (∀ id, id ∈ map oc_jobId results → isCronJobActive (mem_active mem') id = false) ∧
  (∀ id, (∀ y, y ∈ mem_jobs mem → job_id y = id → runningAtMs (job_state y) = None) →
     ∀ x, x ∈ mem_jobs mem' → job_id x = id → runningAtMs (job_state x) = None).
Proof.
  intros Hnd mem'.
  destruct (applyOutcomes_spec reason deps clock 0 mem results Hnd) as (_ & H2 & _ & H4).
  subst mem'. destruct results as [|o rest].
  { split; [intros id x Hx; by apply elem_of_nil in Hx|].
    split; [intros id Hx; by apply elem_of_nil in Hx|]. intros id Hall x Hx Hid. by eapply Hall. }
  unfold tickApply. destruct (applyOutcomes _ _ _ _ _ _) as [mem1 e1]. cbn [fst] in *.
  assert (∀ id, (∀ x, x ∈ mem_jobs mem1 → job_id x = id → runningAtMs (job_state x) = None) →
    ∀ x, x ∈ (recomputeNextRunsForMaintenance (mem_jobs mem1) false maintenanceNow).1.1 →
         job_id x = id → runningAtMs (job_state x) = None) as Hm.
  { intros id. apply maintenance_idle. }
  destruct (recomputeNextRunsForMaintenance _ _ _) as [[jobs c] e2]. cbn [fst mem_jobs mem_active] in *.
  split; [|split].
  - intros id x Hid Hx Hxi. apply (Hm id); [|done|done]. intros y Hy Hyi. by apply (H2 id y); [left|..].
  - intros id Hid. apply H4. by left.
  - intros id Hall x Hx Hxi. apply (Hm id); [|done|done]. intros y Hy Hyi. by apply (H2 id y); [right|..].
Qed.

Lemma tick_releases_jobs_witness :
  let mem := mkMemory [markRunning 60000 (named "a"); named "b"] {["a"]} in
  let o := mkOutcome "a" None StatusOk None None None 60000 60500 in
  isCronJobActive (mem_active (@tickApply demoEnv demoReason demoDeps (λ _, 0) 60600 mem [o]).1) "a" = false.
Proof.
  intros mem o.
  refine (proj1 (proj2 (@tick_releases_jobs demoEnv demoReason demoDeps (λ _, 0) 60600 mem [o] _)) "a"%string _).
  - apply NoDup_ListNoDup. repeat constructor; simpl; intuition discriminate.
  - apply list_elem_of_In. by left.
Defined.

(** Catch-up does not overwhelm: the missed jobs are split into at most
    [maxImmediate] candidates, the ones that were due first, all marked as running,
    and the rest; the rest get distinct slots one stagger apart, in order of their
    missed run, jobs that are gone or disabled meanwhile taking no slot. *)
Lemma startup_catchup_staggered `{CronEnv} (deps : CronServiceDeps) (skip : list string)
    (jobs later : list CronJob) (now baseNow : Z) :
  NoDup (map job_id jobs) →
  let plan := (planStartupCatchup deps skip jobs now).2 in
  let stagger := startupStagger deps in
  let ids := sp_deferredJobIds plan in
  let later' := deferJobs stagger baseNow stagger ids later in
  (∃ first rest,
    first ++ rest ≡ₚ collectRunnableJobs (mkOpts skip true true) jobs now ∧
    sp_candidates plan = map (markRunning now) first ∧ ids = map job_id rest ∧
    (length first <= maxImmediate deps)%nat ∧ (rest ≠ [] → length first = maxImmediate deps) ∧
    ∀ a b, a ∈ first → b ∈ rest → nextKey a <= nextKey b) ∧
  (∀ id, id ∉ ids → findJob later' id = findJob later id) ∧
  ∀ i id, List.filter (deferrable later) ids !! i = Some id →
    ∃ j, findJob later id = Some j ∧
      findJob later' id = Some (set_nextRun j (Some (baseNow + (Z.of_nat i + 1) * stagger))).
Proof.
  intros Hnd plan stagger ids later'.
  assert (∃ first rest,
    first ++ rest ≡ₚ collectRunnableJobs (mkOpts skip true true) jobs now ∧
    sp_candidates plan = map (markRunning now) first ∧ ids = map job_id rest ∧
    (length first <= maxImmediate deps)%nat ∧ (rest ≠ [] → length first = maxImmediate deps) ∧
    ∀ a b, a ∈ first → b ∈ rest → nextKey a <= nextKey b) as Hplan.
  { subst plan ids. unfold planStartupCatchup.
    destruct (collectRunnableJobs _ jobs now) as [|m ms] eqn:Em.
    { exists [], []. cbn. repeat split; try done; try lia. intros a b Ha. by apply elem_of_nil in Ha. }
    set (sorted := sortByNext (m :: ms)).
    exists (take (maxImmediate deps) sorted), (drop (maxImmediate deps) sorted).
    rewrite take_drop. split; [apply toSorted_perm|]. do 2 (split; [done|]).
    split; [rewrite length_take; lia|]. split.
    - intros Hr. rewrite length_take. apply Nat.min_l.
      destruct (decide (maxImmediate deps <= length sorted)%nat); [done|].
      exfalso. apply Hr, drop_ge. lia.
    - intros a b. apply (sorted_take_drop (λ a b, nextKey a <= nextKey b)), sortByNext_sorted. }
  split; [done|]. destruct Hplan as (first & rest & Hp & _ & Hids & _).
  assert (NoDup ids) as Hndi.
  { assert (NoDup (map job_id (first ++ rest))) as Hall.
    { rewrite Hp. eapply sublist_NoDup; [exact Hnd|]. apply (fmap_sublist job_id), sublist_filter_bool. }
    rewrite map_app in Hall. apply NoDup_app in Hall as (_ & _ & Hall). by rewrite Hids. }
  destruct (deferJobs_spec stagger baseNow stagger ids later Hndi) as [I1 I2].
  split; [exact I1|]. intros i id Hi. destruct (I2 i id Hi) as (j & Hj & Hj').
  exists j. split; [done|]. etransitivity; [exact Hj'|]. do 3 f_equal. lia.
Qed.

Lemma startup_catchup_staggered_witness :
  let deps := mkDeps true None (Some 7000) (Some 1) true false None in
  let jobs := [named "a"; named "b"; named "c"] in
  let plan := (@planStartupCatchup demoEnv deps [] jobs 90000).2 in
  map job_id (sp_candidates plan) = ["a"] ∧ sp_deferredJobIds plan = ["b"; "c"] ∧
  nextRunAtMs <$> (job_state <$> findJob (deferJobs 7000 100000 7000 (sp_deferredJobIds plan) jobs) "c")
    = Some (Some 114000).
Proof.
  intros deps jobs plan. split; [reflexivity|]. split; [reflexivity|].
  assert (NoDup (map job_id jobs)) as Hnd.
  { apply NoDup_ListNoDup. repeat constructor; simpl; intuition discriminate. }
  destruct (@startup_catchup_staggered demoEnv deps [] jobs jobs 90000 100000 Hnd) as (_ & _ & Hd).
  destruct (Hd 1%nat "c"%string eq_refl) as (j & Hj & Hj').
  transitivity (nextRunAtMs <$> (job_state <$>
    Some (set_nextRun j (Some (100000 + (Z.of_nat 1 + 1) * startupStagger deps))))).
  - by rewrite <- Hj'.
  - reflexivity.
Defined.

(** What the exclusion of interrupted one-shot jobs achieves: the catch-up of
    [start] does not run such a job, but its next run is kept, so that the first
    tick at or after it runs the job again. *)
Lemma interrupted_one_shot_runs_at_next_tick `{CronEnv} (reason : string → option string)
    (deps : CronServiceDeps) (obs : StartObs) (j : CronJob) (r t : Z) (at_ : option string) :
  cronEnabled deps = true → job_schedule j = SAt at_ None → job_enabled j = true →
  runningAtMs (job_state j) = Some r → nextRunAtMs (job_state j) = Some t → 0 < t →
  lastStatus (job_state j) ≠ Some StatusOk → scheduleAtMs at_ None = Some t →
  let '(mem, effs) := start reason deps obs (mkMemory [j] ∅) in
  (∀ id s, EmitStarted id s ∉ effs) ∧ map job_id (mem_jobs mem) = [job_id j] ∧
  ∀ now, t <= now → map job_id (collectRunnableJobs tickOpts (mem_jobs mem) now) = [job_id j].
Proof.
  intros Hen Hs He Hr Hn Ht Hl Hat. unfold start. rewrite Hen. cbn [negb mem_jobs clearRunningMarkers map].
  unfold clearRunningMarkers. cbn [map filter_map flat_map]. rewrite Hr, Hs. cbn [is_at app].
  unfold runMissedJobs, planStartupCatchup, collectRunnableJobs. cbn [mem_jobs List.filter].
  rewrite skipped_not_runnable by (by left).
  cbn [sp_candidates sp_deferredJobIds mem_jobs mem_active].
  set (j1 := set_running j None).
  assert (∃ j2, (recomputeNextRuns [j1] (so_recomputeNow obs)).1.1 = [j2] ∧
    (recomputeNextRuns [j1] (so_recomputeNow obs)).2 = [] ∧ job_id j2 = job_id j ∧
    job_enabled j2 = true ∧ runningAtMs (job_state j2) = None ∧
    nextRunAtMs (job_state j2) = Some t) as (j2 & Hj2 & He2 & Hid & Hen2 & Hrun2 & Hnext2).
  { unfold recomputeNextRuns, walkSchedulableJobs. cbn [map flat_map fst snd].
    assert (normalizeJobTickState j1 (so_recomputeNow obs) = mkTick j1 false false) as Htick.
    { unfold normalizeJobTickState. subst j1. cbn [job_schedule set_running set_state]. rewrite Hs.
      unfold isJobEnabled. cbn [job_enabled set_running set_state job_state st_running nextRunAtMs runningAtMs].
      rewrite He, Hn. cbn [negb hasScheduledNextRunAtMs]. by destruct (Z.ltb_spec 0 t); [|lia]. }
    unfold walkJob. rewrite Htick. cbn [tk_skip tk_job].
    unfold recomputeNextRunsStep. subst j1.
    cbn [set_running set_state job_state st_running nextRunAtMs]. rewrite Hn.
    destruct (_ || _); [|exists (set_running j None); cbn; by rewrite He, Hn].
    unfold recomputeJobNextRunAtMs, computeJobNextRunAtMs, isJobEnabled.
    cbn [job_enabled job_schedule set_running set_state job_state st_running lastRunAtMs lastStatus nextRunAtMs scheduleErrorCount].
    rewrite He, Hs, Hat, Hn. cbn [negb].
    rewrite (bool_decide_eq_false_2 (lastStatus (job_state j) = _)) by done. cbn [andb].
    rewrite bool_decide_eq_true_2 by done.
    cbn [set_running set_state job_state st_running scheduleErrorCount].
    destruct (scheduleErrorCount (job_state j)) as [c|]; [destruct (c =? 0)|];
      (eexists; split; [done|]; cbn; by rewrite He, Hn). }
  destruct (recomputeNextRuns [j1] (so_recomputeNow obs)) as [[jobs3 c3] e3].
  cbn [fst snd] in Hj2, He2. subst jobs3 e3. cbn [app mem_jobs map].
  split; [intros id s Hin; by apply elem_of_nil in Hin|]. split; [by rewrite Hid|].
  intros now Hnow. unfold collectRunnableJobs. cbn [List.filter].
  rewrite isRunnableJob_tick. unfold isJobDue, isJobEnabled. rewrite Hrun2, Hen2, Hnext2.
  cbn [hasScheduledNextRunAtMs default id].
  destruct (Z.ltb_spec 0 t); [|lia]. destruct (Z.leb_spec t now); [|lia]. cbn. by rewrite Hid.
Qed.

Definition demoObs : StartObs := mkStartObs 200000 (λ _, (0, 0, true, okEnd)) (λ _, 0) 0 0 200000.
Definition interrupted : CronJob :=
  set_state (set_schedule demoJob (SAt (Some "100000"%string) None))
    (st_running (st_nextRun emptyJobState (Some 100000)) (Some 150000)).

Lemma interrupted_one_shot_runs_at_next_tick_witness :
  let mem := (@start demoEnv demoReason demoDeps demoObs (mkMemory [interrupted] ∅)).1 in
  map job_id (@collectRunnableJobs demoEnv tickOpts (mem_jobs mem) 202000) = ["job-1"].
Proof.
  pose proof (@interrupted_one_shot_runs_at_next_tick demoEnv demoReason demoDeps demoObs interrupted
    150000 100000 (Some "100000"%string) eq_refl eq_refl eq_refl eq_refl eq_refl eq_refl
    ltac:(discriminate) eq_refl) as Hw.
  cbn zeta. destruct (@start demoEnv demoReason demoDeps demoObs (mkMemory [interrupted] ∅)) as [mem effs].
  destruct Hw as (_ & _ & Hrun). apply Hrun. vm_compute. discriminate.
Defined.

End CronLoop.
