(* ===== verification/CronOps.v ===== *)
(** * The operations of the cron service: src/cron/service/ops.ts, locked.ts, store.ts

    The service keeps the jobs in memory and in a file. Each operation runs under
    the lock of the store, so that operations take effect one after the other;
    a manual run takes the lock three times: to inspect the job, to reserve it,
    and to record its end; other operations may come in between (CronRuns.v). Reading and writing the file are an interface. *)

From S2P Require Import Prelude JsNumber CronTypes CronSchedule CronJobs CronTimer CronLoop.

(** The store file: [saveCronStore] serializes the jobs, [loadCronStore] reads
    and normalizes them (src/cron/store.ts, normalize.ts). *)
Class CronStoreIO := {
  File : Type;
  saveCronStore : list CronTypes.CronJob → File;
  loadCronStore : File → list CronTypes.CronJob;
}.

(** What the service relies on: the jobs that were saved are read back. *)
Class CronStoreLaws `{CronStoreIO} := {
  load_save jobs : loadCronStore (saveCronStore jobs) = jobs;
}.

Module CronOps.
Import JsNumber CronTypes CronSchedule CronJobs CronTimer CronLoop.

Section env.
Context `{CronEnv} `{CronStoreIO}.
Context (reason : string → option string).

Record CronServiceState := mkState {
  st_store : option (list CronJob);
  st_file : File;
  st_timer : option Z;
  st_running : bool;
  st_active : gset string;
}.

Definition jobsOf (s : CronServiceState) : list CronJob := st_store s ?? [].

Definition with_jobs (s : CronServiceState) (jobs : list CronJob) : CronServiceState :=
  mkState (Some jobs) (st_file s) (st_timer s) (st_running s) (st_active s).

(** [ensureLoaded]; [now] is the clock of the recomputation. *)
Definition ensureLoaded (forceReload skipRecompute : bool) (now : Z) (s : CronServiceState)
    : CronServiceState * list CronEffect :=
  match st_store s, forceReload with
  | Some _, false => (s, [])
  | _, _ =>
      let jobs := loadCronStore (st_file s) in
      if skipRecompute then (with_jobs s jobs, [])
      else let '(jobs', _, effs) := recomputeNextRuns jobs now in (with_jobs s jobs', effs)
  end.

Definition persist (s : CronServiceState) : CronServiceState :=
  match st_store s with
  | Some jobs => mkState (Some jobs) (saveCronStore jobs) (st_timer s) (st_running s) (st_active s)
  | None => s
  end.

Definition arm (deps : CronServiceDeps) (now : Z) (s : CronServiceState) : CronServiceState :=
  mkState (st_store s) (st_file s) (armTimer deps (jobsOf s) now) (st_running s) (st_active s).

(** [stop] *)
Definition stop (s : CronServiceState) : CronServiceState :=
  mkState (st_store s) (st_file s) None (st_running s) (st_active s).

(** [recomputeNextRunsForMaintenance] on the store in memory. *)
Definition maintain (recomputeExpired : bool) (now : Z) (s : CronServiceState)
    : CronServiceState * bool * list CronEffect :=
  match st_store s with
  | None => (s, false, [])
  | Some jobs =>
      let '(jobs', changed, effs) := recomputeNextRunsForMaintenance jobs recomputeExpired now in
      (with_jobs s jobs', changed, effs)
  end.

(** [ensureLoadedForRead], before [status], [list] and [listPage]. *)
Definition ensureLoadedForRead (now : Z) (s : CronServiceState)
    : CronServiceState * list CronEffect :=
  let '(s1, _) := ensureLoaded false true now s in
  let '(s2, changed, effs) := maintain false now s1 in
  (if changed : bool then persist s2 else s2, effs).

(** [status]: the number of jobs and the next wake. *)
Definition status (deps : CronServiceDeps) (now : Z) (s : CronServiceState)
    : CronServiceState * (nat * option Z) * list CronEffect :=
  let '(s1, effs) := ensureLoadedForRead now s in
  (s1, (length (jobsOf s1), if cronEnabled deps then nextWakeAtMs (jobsOf s1) else None), effs).

(** [list]: sorted by the next run. *)
Definition listJobs (includeDisabled : bool) (now : Z) (s : CronServiceState)
    : CronServiceState * list CronJob * list CronEffect :=
  let '(s1, effs) := ensureLoadedForRead now s in
  (s1, sortByNext (List.filter (λ j, includeDisabled || isJobEnabled j) (jobsOf s1)), effs).

(** [add]; the clock is read for the creation, the recomputation and the timer. *)
Definition add (deps : CronServiceDeps) (defaultAgentId : option string) (id : string)
    (loadNow createNow recomputeNow armNow : Z) (input : CronJobCreate) (s : CronServiceState)
    : CronServiceState * result CronJob * list CronEffect :=
  let '(s1, e1) := ensureLoaded false false loadNow s in
  match createJob createNow id defaultAgentId input with
  | Throw err => (s1, Throw err, e1)
  | Ok job =>
      let '(jobs, _, e2) := recomputeNextRuns (jobsOf s1 ++ [job]) recomputeNow in
      let s2 := arm deps armNow (persist (with_jobs s1 jobs)) in
      let job' := List.last jobs job in
      (s2, Ok job', e1 ++ e2 ++ [EmitAdded (job_id job') (nextRunAtMs (job_state job'))])
  end.

(** The anchor that [update] gives an interval schedule without one. *)
Definition anchored (patch : CronJobPatch) (now : Z) (job : CronJob) : CronJob :=
  match job_schedule job with
  | SEvery every anchor =>
      match anchor with
      | VNum (Fin _) => job
      | _ =>
          let fallback :=
            match p_schedule patch with
            | Some (SEvery _ _) => now
            | _ => job_createdAtMs job
            end in
          set_schedule job (SEvery every (VNum (num_of_Z (Z.max 0 fallback))))
      end
  | _ => job
  end.

(** The next run after an update; the evaluation of the schedule may throw. *)
Definition rescheduled (patch : CronJobPatch) (now : Z) (job : CronJob) : result CronJob :=
  let changed := bool_decide (is_Some (p_schedule patch)) || bool_decide (is_Some (p_enabled patch)) in
  if changed then
    if isJobEnabled job
    then let! next := computeJobNextRunAtMs job now in Ok (set_nextRun job next)
    else Ok (set_running (set_nextRun job None) None)
  else if isJobEnabled job && negb (hasScheduledNextRunAtMs (nextRunAtMs (job_state job)))
  then let! next := computeJobNextRunAtMs job now in Ok (set_nextRun job next)
  else Ok job.

(** [update]: the job in memory is changed in place, so a failure leaves it as it
    is at that point. *)
Definition update (deps : CronServiceDeps) (defaultAgentId : option string)
    (loadNow now armNow : Z) (id : string) (patch : CronJobPatch) (s : CronServiceState)
    : CronServiceState * result CronJob * list CronEffect :=
  let '(s1, _) := ensureLoaded false true loadNow s in
  match findJobOrThrow (jobsOf s1) id with
  | Throw err => (s1, Throw err, [])
  | Ok job =>
      match applyJobPatch patch defaultAgentId job with
      | (job1, Throw err) => (with_jobs s1 (replaceJob (jobsOf s1) id job1), Throw err, [])
      | (job1, Ok _) =>
          let job2 := set_updatedAtMs (anchored patch now job1) now in
          match rescheduled patch now job2 with
          | Throw err => (with_jobs s1 (replaceJob (jobsOf s1) id job2), Throw err, [])
          | Ok job3 =>
              let s2 := with_jobs s1 (replaceJob (jobsOf s1) id job3) in
              (arm deps armNow (persist s2), Ok job3,
               [EmitUpdated id (nextRunAtMs (job_state job3))])
          end
      end
  end.

(** [remove] *)
Definition remove (deps : CronServiceDeps) (loadNow armNow : Z) (id : string) (s : CronServiceState)
    : CronServiceState * bool * list CronEffect :=
  let '(s1, e1) := ensureLoaded false false loadNow s in
  let jobs := removeJob (jobsOf s1) id in
  let removed := negb (length jobs =? length (jobsOf s1))%nat in
  (arm deps armNow (persist (with_jobs s1 jobs)), removed,
   e1 ++ if removed then [EmitRemoved id] else []).

(** ** Manual runs *)

Inductive RunRefusal := AlreadyRunning | NotDue | InvalidSpec.

(** The clock readings of the inspection. *)
Record InspectClocks := mkInspectClocks {
  ic_maintenance : Z;
  ic_now : Z;
  ic_alert : Z;
  ic_maintenance2 : Z;
  ic_arm : Z;
}.

(** [skipInvalidPersistedManualRun]; the job is the one in memory. *)
Definition skipInvalidPersistedManualRun (deps : CronServiceDeps) (force : bool)
    (c : InspectClocks) (errorText : string) (job : CronJob) (s : CronServiceState)
    : CronServiceState * list CronEffect :=
  let endedAt := ic_now c in
  let '(job', shouldDelete, effs) :=
    applyJobResult reason deps force (ic_alert c) job
      (mkResult StatusSkipped (Some errorText) None endedAt endedAt) in
  let finished := emitJobFinished job' StatusSkipped (Some errorText) None None endedAt in
  let jobs := replaceJob (jobsOf s) (job_id job) job' in
  let s1 := with_jobs s (if shouldDelete then removeJob jobs (job_id job) else jobs) in
  let removed := if shouldDelete then [EmitRemoved (job_id job)] else [] in
  let '(s2, _, e2) := maintain true (ic_maintenance2 c) s1 in
  (arm deps (ic_arm c) (persist s2), effs ++ [finished] ++ removed ++ e2).

(** [inspectManualRunPreflight]: [Ok (Some why)] refuses the run. *)
Definition inspectManualRunPreflight (deps : CronServiceDeps) (id : string) (force : bool)
    (c : InspectClocks) (s : CronServiceState)
    : CronServiceState * result (option RunRefusal) * list CronEffect :=
  let '(s1, _) := ensureLoaded false true (ic_maintenance c) s in
  let '(s2, _, e2) := maintain false (ic_maintenance c) s1 in
  match findJobOrThrow (jobsOf s2) id with
  | Throw err => (s2, Throw err, e2)
  | Ok job =>
      match assertSupportedJobSpec (job_sessionTarget job) (job_payload job) with
      | Throw errorText =>
          let '(s3, e3) := skipInvalidPersistedManualRun deps force c errorText job s2 in
          (s3, Ok (Some InvalidSpec), e2 ++ e3)
      | Ok _ =>
          match runningAtMs (job_state job) with
          | Some _ => (s2, Ok (Some AlreadyRunning), e2)
          | None =>
              if isJobDue job (ic_now c) force then (s2, Ok None, e2)
              else (s2, Ok (Some NotDue), e2)
          end
      end
  end.

(** What [prepareManualRun] reserves. *)
Record PreparedRun := mkPrepared {
  pr_jobId : string;
  pr_taskRunId : option string;
  pr_startedAt : Z;
  pr_job : CronJob;
}.

(** The second locked section of [prepareManualRun]; [now] is the reading of the
    inspection. *)
Definition reserveManualRun (id : string) (now : Z) (ledger : bool) (s : CronServiceState)
    : CronServiceState * result (PreparedRun + RunRefusal) * list CronEffect :=
  match findJobOrThrow (jobsOf s) id with
  | Throw err => (s, Throw err, [])
  | Ok job =>
      match runningAtMs (job_state job) with
      | Some _ => (s, Ok (inr AlreadyRunning), [])
      | None =>
          let job' := markRunning now job in
          let s' := persist (with_jobs s (replaceJob (jobsOf s) id job')) in
          let taskRunId := if ledger then Some (createCronTaskRunId (job_id job) now) else None in
          (s', Ok (inl (mkPrepared (job_id job) taskRunId now job')),
           [EmitStarted (job_id job) now])
      end
  end.

(** [prepareManualRun], when nothing else takes the lock between its two
    sections. *)
Definition prepareManualRun (deps : CronServiceDeps) (id : string) (force ledger : bool)
    (c : InspectClocks) (s : CronServiceState)
    : CronServiceState * result (PreparedRun + RunRefusal) * list CronEffect :=
  match inspectManualRunPreflight deps id force c s with
  | (s1, Throw err, e1) => (s1, Throw err, e1)
  | (s1, Ok (Some why), e1) => (s1, Ok (inr why), e1)
  | (s1, Ok None, e1) =>
      let '(s2, r, e2) := reserveManualRun id (ic_now c) ledger s1 in (s2, r, e1 ++ e2)
  end.

(** [mergeManualRunSnapshotAfterReload]: the run state of the job is put back
    into the store that was reloaded. *)
Definition mergeManualRunSnapshotAfterReload (jobId : string) (snapshot : option CronJob)
    (jobs : list CronJob) : list CronJob :=
  match snapshot with
  | None => removeJob jobs jobId
  | Some job =>
      match findJob jobs jobId with
      | None => jobs
      | Some reloaded =>
          replaceJob jobs jobId
            (set_state (set_updatedAtMs (set_enabled reloaded (job_enabled job))
                          (job_updatedAtMs job)) (job_state job))
      end
  end.

(** [finishPreparedManualRun], with the end of the run. *)
Definition finishPreparedManualRun (deps : CronServiceDeps) (force : bool) (prepared : PreparedRun)
    (endedAt loadNow alertNow maintenanceNow armNow : Z) (e : RunEnd) (s : CronServiceState)
    : CronServiceState * list CronEffect :=
  let o := outcomeOf (pr_jobId prepared) (pr_taskRunId prepared) (pr_startedAt prepared) endedAt e in
  let ledger := tryFinishCronTaskRun o in
  let '(s1, _) := ensureLoaded false true loadNow s in
  match findJob (jobsOf s1) (pr_jobId prepared) with
  | None => (s1, ledger)
  | Some job =>
      let '(job', shouldDelete, effs) :=
        applyJobResult reason deps force alertNow job (outcomeResult o) in
      let finished :=
        emitJobFinished job' (oc_status o) (oc_error o) (oc_summary o) (oc_delivered o)
          (pr_startedAt prepared) in
      let removed := if shouldDelete then [EmitRemoved (job_id job')] else [] in
      let reloaded := loadCronStore (st_file s1) in
      let merged :=
        mergeManualRunSnapshotAfterReload (pr_jobId prepared)
          (if shouldDelete then None else Some job') reloaded in
      let '(s2, _, e2) := maintain true maintenanceNow (with_jobs s1 merged) in
      (arm deps armNow (persist s2), ledger ++ effs ++ [finished] ++ removed ++ e2)
  end.

(** ** The timer *)

(** [onTimer] up to the execution of the due jobs: [None] when a tick is running,
    which only re-arms the timer. *)
Definition onTimerBegin (dueCheckNow now : Z) (s : CronServiceState)
    : CronServiceState * option (list CronJob) * list CronEffect :=
  let armed := mkState (st_store s) (st_file s) (Some MAX_TIMER_DELAY_MS) true (st_active s) in
  if st_running s then (armed, None, [])
  else
    let '(s1, _) := ensureLoaded true true dueCheckNow armed in
    let tb := tickBegin (jobsOf s1) dueCheckNow now in
    let s2 := with_jobs s1 (tb_jobs tb) in
    (if tb_persist tb then persist s2 else s2, Some (tb_due tb), tb_effects tb).

(** The rest of [onTimer], with the outcomes of the pool; sweeping old session
    files is left out. *)
Definition onTimerEnd (deps : CronServiceDeps) (clock : nat → Z) (loadNow maintenanceNow armNow : Z)
    (results : list TimedCronRunOutcome) (s : CronServiceState)
    : CronServiceState * list CronEffect :=
  let '(s1, effs) :=
    match results with
    | [] => (s, [])
    | _ =>
        let '(s0, _) := ensureLoaded true true loadNow s in
        let '(mem, effs) :=
          tickApply reason deps clock maintenanceNow (mkMemory (jobsOf s0) (st_active s0)) results in
        (persist (mkState (Some (mem_jobs mem)) (st_file s0) (st_timer s0) (st_running s0)
                    (mem_active mem)), effs)
    end in
  (arm deps armNow (mkState (st_store s1) (st_file s1) (st_timer s1) false (st_active s1)), effs).

(** ** Lemmas *)

Lemma findJobOrThrow_Ok jobs id j : findJobOrThrow jobs id = Ok j ↔ findJob jobs id = Some j.
Proof.
  unfold findJobOrThrow, findJob. destruct (List.find _ jobs); split; intros Hx; by simplify_eq.
Qed.

(** Maintenance of one job. *)
Definition maintained (b : bool) (now : Z) (j : CronJob) : CronJob :=
  (walkJob (maintenanceStep b) now j).1.1.

Lemma maintained_id b now j : job_id (maintained b now j) = job_id j.
Proof. apply walkJob_id. intros j'. apply maintenanceStep_keeps. Qed.

Lemma maintenance_jobs jobs b now :
  (recomputeNextRunsForMaintenance jobs b now).1.1 = map (maintained b now) jobs.
Proof.
  unfold recomputeNextRunsForMaintenance, walkSchedulableJobs. cbn [fst]. by rewrite map_map.
Qed.

Lemma findJob_maintained jobs b now id :
  findJob (map (maintained b now) jobs) id = maintained b now <$> findJob jobs id.
Proof.
  induction jobs as [|j jobs IH]; [done|]. simpl. rewrite maintained_id.
  by destruct (String.eqb _ _).
Qed.

Lemma maintained_ids jobs b now : map job_id (map (maintained b now) jobs) = map job_id jobs.
Proof. rewrite map_map. apply map_ext. apply maintained_id. Qed.

Lemma maintain_jobs s jobs b now :
  st_store s = Some jobs →
  (maintain b now s).1.1 = with_jobs s (map (maintained b now) jobs).
Proof.
  intros Hs. unfold maintain. rewrite Hs. pose proof (maintenance_jobs jobs b now) as Hm.
  destruct (recomputeNextRunsForMaintenance jobs b now) as [[jobs' c] e]. cbn in *. by rewrite Hm.
Qed.

Lemma recomputeJob_spec j now :
  job_sessionTarget (recomputeJobNextRunAtMs j now).1.1 = job_sessionTarget j ∧
  job_payload (recomputeJobNextRunAtMs j now).1.1 = job_payload j.
Proof.
  unfold recomputeJobNextRunAtMs. destruct (computeJobNextRunAtMs j now) as [n|err].
  - by repeat case_match; simplify_eq.
  - destruct (recordScheduleComputeError_same j err) as ((_ & _ & _ & _ & _ & Hp & Ht & _) & _).
    by destruct (recordScheduleComputeError j err).
Qed.

Lemma maintained_spec b now j :
  job_sessionTarget (maintained b now j) = job_sessionTarget j ∧
  job_payload (maintained b now j) = job_payload j.
Proof.
  unfold maintained, walkJob.
  assert (job_sessionTarget (tk_job (normalizeJobTickState j now)) = job_sessionTarget j ∧
          job_payload (tk_job (normalizeJobTickState j now)) = job_payload j) as [<- <-].
  { unfold normalizeJobTickState. by repeat case_match; simplify_eq. }
  destruct (tk_skip _); [done|]. generalize (tk_job (normalizeJobTickState j now)). intros k.
  assert (job_sessionTarget (maintenanceStep b k now).1.1 = job_sessionTarget k ∧
          job_payload (maintenanceStep b k now).1.1 = job_payload k) as Hk.
  { unfold maintenanceStep. repeat case_match; try done; apply recomputeJob_spec. }
  by destruct (maintenanceStep b k now) as [[k' c] e].
Qed.

(** A recent running marker of an enabled job survives a walk over the jobs; the marker
    of a disabled job does not. *)
Lemma walkJob_running fn now j r :
  (∀ j', runningAtMs (job_state (fn j' now).1.1) = runningAtMs (job_state j')) →
  job_enabled j = true → runningAtMs (job_state j) = Some r → now - r <= STUCK_RUN_MS →
  runningAtMs (job_state (walkJob fn now j).1.1) = Some r.
Proof.
  intros Hfn He Hr Hn. unfold walkJob.
  destruct (tick_enabled j now He) as (Hskip & _).
  assert (runningAtMs (job_state (tk_job (normalizeJobTickState j now))) = Some r) as Hk.
  { unfold normalizeJobTickState. set (p := match job_schedule j with SEvery _ _ => _ | _ => _ end).
    assert (job_enabled p.1 = true ∧ job_state p.1 = job_state j) as [H1 H2].
    { subst p. destruct (job_schedule j); repeat case_match; done. }
    destruct p as [j1 c1]. cbn [fst] in *. unfold isJobEnabled. rewrite H1. cbn [negb].
    set (q := if _ && _ then _ else _).
    assert (runningAtMs (job_state q.1) = Some r) as Hq.
    { subst q. case_match; cbn; by rewrite H2. }
    destruct q as [j2 c2]. cbn [fst] in Hq. rewrite Hq.
    destruct (Z.ltb_spec STUCK_RUN_MS (now - r)); [lia|done]. }
  rewrite Hskip. specialize (Hfn (tk_job (normalizeJobTickState j now))).
  destruct (fn _ now) as [[k c] e]. cbn [fst] in *. by rewrite Hfn.
Qed.

Lemma maintained_running b now j r :
  job_enabled j = true → runningAtMs (job_state j) = Some r → now - r <= STUCK_RUN_MS →
  runningAtMs (job_state (maintained b now j)) = Some r.
Proof. apply walkJob_running. intros j'. apply maintenanceStep_keeps. Qed.

Lemma maintained_disabled b now j :
  job_enabled j = false →
  runningAtMs (job_state (maintained b now j)) = None ∧ job_enabled (maintained b now j) = false.
Proof.
  intros He. unfold maintained, walkJob. destruct (tick_disabled j now He) as (-> & ? & _ & ?). done.
Qed.

Lemma inspect_found deps id force c s jobs j :
  st_store s = Some jobs → findJob jobs id = Some j →
  is_ok (assertSupportedJobSpec (job_sessionTarget j) (job_payload j)) = true →
  let j1 := maintained false (ic_maintenance c) j in
  let s1 := with_jobs s (map (maintained false (ic_maintenance c)) jobs) in
  let r := inspectManualRunPreflight deps id force c s in
  r.1.1 = s1 ∧ findJob (jobsOf s1) id = Some j1 ∧
  r.1.2 = Ok (match runningAtMs (job_state j1) with
              | Some _ => Some AlreadyRunning
              | None => if isJobDue j1 (ic_now c) force then None else Some NotDue
              end).
Proof.
  intros Hs Hf Hok j1 s1 r. subst r. unfold inspectManualRunPreflight, ensureLoaded. rewrite Hs.
  pose proof (maintain_jobs s jobs false (ic_maintenance c) Hs) as Hm.
  destruct (maintain false (ic_maintenance c) s) as [[s2 ch] e2]. cbn [fst] in Hm. subst s2. fold s1.
  assert (findJob (jobsOf s1) id = Some j1) as Hf1.
  { change (findJob (map (maintained false (ic_maintenance c)) jobs) id = Some j1).
    by rewrite findJob_maintained, Hf. }
  apply findJobOrThrow_Ok in Hf1 as Hf2. rewrite Hf2.
  destruct (maintained_spec false (ic_maintenance c) j) as [Ht Hp]. fold j1 in Ht, Hp.
  rewrite Ht, Hp. destruct (assertSupportedJobSpec _ _); [|done].
  destruct (runningAtMs (job_state j1)); [done|]. by destruct (isJobDue j1 (ic_now c) force).
Qed.

End env.

(** ** Properties *)

#[export] Instance demoIO : CronStoreIO :=
  {| File := list CronJob; saveCronStore := λ jobs, jobs; loadCronStore := λ jobs, jobs |}.
#[export] Instance demoIOLaws : CronStoreLaws := {| load_save := λ jobs, eq_refl |}.
Definition clocksAt (t : Z) : InspectClocks := mkInspectClocks t t t t t.
Definition demoService (jobs : list CronJob) : CronServiceState := mkState (Some jobs) jobs None false ∅.

(** The guard does not hold for a disabled job: the maintenance pass that
    precedes the check clears its marker, so a second forced run of a disabled job
    is reserved while the first one is still running. *)
Lemma forced_runs_of_disabled_job_overlap `{CronEnv} `{CronStoreIO} (reason : string → option string)
    (deps : CronServiceDeps) (id : string) (c c2 : InspectClocks) (jobs : list CronJob)
    (s : CronServiceState) (j : CronJob) :
  st_store s = Some jobs → findJob jobs id = Some j → job_enabled j = false →
  is_ok (assertSupportedJobSpec (job_sessionTarget j) (job_payload j)) = true →
  let '(s1, r1, _) := prepareManualRun reason deps id true true c s in
  let '(_, r2, _) := prepareManualRun reason deps id true true c2 s1 in
  (∃ p, r1 = Ok (inl p)) ∧ ∃ p, r2 = Ok (inl p).
Proof.
  intros Hs Hf He Hok.
  assert (∀ c s jobs j, st_store s = Some jobs → findJob jobs id = Some j → job_enabled j = false →
    is_ok (assertSupportedJobSpec (job_sessionTarget j) (job_payload j)) = true →
    let r := prepareManualRun reason deps id true true c s in
    (∃ p, r.1.2 = Ok (inl p)) ∧ ∃ jobs' j', st_store r.1.1 = Some jobs' ∧ findJob jobs' id = Some j' ∧
      job_enabled j' = false ∧
      is_ok (assertSupportedJobSpec (job_sessionTarget j') (job_payload j')) = true) as Hstep.
  { clear. intros c s jobs j Hs Hf He Hok r. subst r.
    destruct (inspect_found reason deps id true c s jobs j Hs Hf Hok) as (H1 & H2 & H3).
    destruct (maintained_disabled false (ic_maintenance c) j He) as [Hr Hd]. rewrite Hr in H3.
    destruct (maintained_spec false (ic_maintenance c) j) as [Ht Hp].
    set (j1 := maintained false (ic_maintenance c) j) in *.
    assert (isJobDue j1 (ic_now c) true = true) as Hdue by (unfold isJobDue; by rewrite Hr).
    rewrite Hdue in H3. unfold prepareManualRun.
    destruct (inspectManualRunPreflight reason deps id true c s) as [[s1 r1] e1].
    cbn [fst snd] in H1, H3. subst s1 r1. unfold reserveManualRun.
    rewrite (proj2 (findJobOrThrow_Ok _ _ _) H2), Hr. cbn [fst snd].
    split; [by eexists|]. eexists _, (markRunning (ic_now c) j1). split; [done|]. split.
    - erewrite findJob_replace; [|exact H2|by apply findJob_id in H2].
      by destruct (decide (id = id)).
    - split; [done|]. cbn. by rewrite Ht, Hp. }
  destruct (Hstep c s jobs j Hs Hf He Hok) as (H1 & jobs' & j' & Hs' & Hf' & He' & Hok').
  destruct (prepareManualRun reason deps id true true c s) as [[s1 r1] e1]. cbn [fst snd] in *.
  destruct (Hstep c2 s1 jobs' j' Hs' Hf' He' Hok') as (H2 & _).
  by destruct (prepareManualRun reason deps id true true c2 s1) as [[s2 r2] e2].
Qed.

Lemma forced_runs_of_disabled_job_overlap_witness :
  let s := demoService [set_enabled (named "a") false] in
  let '(s1, r1, _) := @prepareManualRun demoEnv demoIO demoReason demoDeps "a" true true (clocksAt 1000) s in
  is_ok (@prepareManualRun demoEnv demoIO demoReason demoDeps "a" true true (clocksAt 1500) s1).1.2 = true ∧
  ∃ p, r1 = Ok (inl p).
Proof.
  pose proof (@forced_runs_of_disabled_job_overlap demoEnv demoIO demoReason demoDeps "a" (clocksAt 1000)
    (clocksAt 1500) [set_enabled (named "a") false] (demoService [set_enabled (named "a") false])
    (set_enabled (named "a") false) eq_refl eq_refl eq_refl eq_refl) as Hw.
  cbn zeta.
  destruct (@prepareManualRun demoEnv demoIO demoReason demoDeps "a" true true (clocksAt 1000)
    (demoService [set_enabled (named "a") false])) as [[s1 r1] e1].
  destruct (@prepareManualRun demoEnv demoIO demoReason demoDeps "a" true true (clocksAt 1500) s1)
    as [[s2 r2] e2].
  destruct Hw as [H1 [p ->]]. split; [reflexivity|exact H1].
Defined.

(** The operations that save the store and arm the timer, with the clock reading at which
    they do: additions, updates that succeed, removals, the end of a manual run whose job is
    still there, the end of a tick that ran jobs, and the refusal of a manual run for its
    specification. *)
Inductive Mutation `{CronEnv} `{CronStoreIO} (reason : string → option string)
    (deps : CronServiceDeps) : Z → CronServiceState → CronServiceState → Prop :=
| MAdd def id t1 t2 t3 armNow input s s' job effs :
    add deps def id t1 t2 t3 armNow input s = (s', Ok job, effs) →
    Mutation reason deps armNow s s'
| MUpdate def t1 now armNow id patch s s' job effs :
    update deps def t1 now armNow id patch s = (s', Ok job, effs) →
    Mutation reason deps armNow s s'
| MRemove t1 armNow id s s' removed effs :
    remove deps t1 armNow id s = (s', removed, effs) → Mutation reason deps armNow s s'
| MFinish force p endedAt t1 t2 t3 armNow e s s' effs :
    is_Some (findJob (jobsOf (ensureLoaded false true t1 s).1) (pr_jobId p)) →
    finishPreparedManualRun reason deps force p endedAt t1 t2 t3 armNow e s = (s', effs) →
    Mutation reason deps armNow s s'
| MTickEnd clock t1 t2 armNow results s s' effs :
    results ≠ [] → onTimerEnd reason deps clock t1 t2 armNow results s = (s', effs) →
    Mutation reason deps armNow s s'
| MInvalid id force c s s' effs :
    inspectManualRunPreflight reason deps id force c s = (s', Ok (Some InvalidSpec), effs) →
    Mutation reason deps (ic_arm c) s s'.

Lemma maintain_store `{CronEnv} `{CronStoreIO} b now jobs s :
  is_Some (st_store (maintain b now (with_jobs s jobs)).1.1).
Proof.
  unfold maintain. cbn [st_store with_jobs].
  destruct (recomputeNextRunsForMaintenance jobs b now) as [[jobs' c] e]. by eexists.
Qed.

(** A state that has been persisted and armed. *)
Definition settled `{CronStoreIO} (deps : CronServiceDeps) (now : Z) (s : CronServiceState) : Prop :=
  is_Some (st_store s) ∧ st_file s = saveCronStore (jobsOf s) ∧
  st_timer s = armTimer deps (jobsOf s) now.

Lemma arm_persist_settled `{CronStoreIO} deps now s :
  is_Some (st_store s) → settled deps now (arm deps now (persist s)).
Proof.
  intros [jobs Hs]. unfold settled, persist, arm, jobsOf. rewrite Hs. cbn. by split; [eexists|].
Qed.

(** What is in memory is what is in the file. *)
Definition synced `{CronStoreIO} (s : CronServiceState) : Prop :=
  is_Some (st_store s) ∧ st_file s = saveCronStore (jobsOf s).

(** Maintenance that reports no change has made none. *)
Lemma tick_unchanged `{CronEnv} j now : tk_changed (normalizeJobTickState j now) = false → tk_job (normalizeJobTickState j now) = j.
Proof.
  unfold normalizeJobTickState. set (p := match job_schedule j with SEvery _ _ => _ | _ => _ end).
  assert (p.2 = false → p.1 = j) as Hp by (subst p; by repeat case_match).
  destruct p as [j1 c1]. cbn [fst snd] in Hp. destruct (isJobEnabled j1); cbn [negb].
  - repeat case_match; simplify_eq; simpl; intros; simplify_eq; auto.
  - cbn [tk_changed tk_job]. intros [[Hc Hn]%orb_false_iff Hr]%orb_false_iff. rewrite <- (Hp Hc).
    apply bool_decide_eq_false, eq_None_not_Some in Hn, Hr. destruct j1 as [? ? ? ? ? ? ? ? ? ? ? ? ? ? ? []].
    simpl in Hn, Hr. by subst.
Qed.

Lemma recomputeJob_unchanged `{CronEnv} j now : (recomputeJobNextRunAtMs j now).1.2 = false → (recomputeJobNextRunAtMs j now).1.1 = j.
Proof. unfold recomputeJobNextRunAtMs. by repeat case_match; simplify_eq. Qed.

Lemma walk_unchanged `{CronEnv} fn now jobs :
  (∀ j, (fn j now).1.2 = false → (fn j now).1.1 = j) →
  (walkSchedulableJobs jobs fn now).1.2 = false → (walkSchedulableJobs jobs fn now).1.1 = jobs.
Proof.
  intros Hfn. simpl. induction jobs as [|j jobs IH]; [done|]. simpl. intros [Hj Hjs]%orb_false_iff. f_equal; [|by apply IH].
  unfold walkJob in *. destruct (tk_skip _); [by apply tick_unchanged|].
  pose proof (Hfn (tk_job (normalizeJobTickState j now))) as Hf. destruct (fn _ now) as [[j' c] e]. cbn [fst snd] in *.
  apply orb_false_iff in Hj as [Hj ->]. rewrite (Hf eq_refl). by apply tick_unchanged.
Qed.

Lemma read_synced `{CronEnv} `{CronStoreIO} now s : synced s → synced (ensureLoadedForRead now s).1.
Proof.
  intros [[jobs Hs] Hf]. unfold ensureLoadedForRead, ensureLoaded, maintain. unfold jobsOf in Hf. rewrite Hs in *.
  pose proof (walk_unchanged (maintenanceStep false) now jobs) as Hw. rewrite Hs.
  unfold recomputeNextRunsForMaintenance. destruct (walkSchedulableJobs jobs _ now) as [[jobs' c] e]. cbn [fst snd] in *.
  destruct c; [by split; [eexists|]|]. split; [by eexists|]. simpl. rewrite Hw, Hf; [done| |done].
  intros j. unfold maintenanceStep. by repeat case_match; try apply recomputeJob_unchanged.
Qed.

(** C40. Every operation of [Mutation] leaves the file with exactly the jobs in memory,
    and the timer as [armTimer] sets it from them (for the earliest next run, clamped to a
    minute; none when nothing is due or the scheduler is off). The reservation of a manual
    run saves the jobs and leaves the timer. A read ([status], [list]) saves what its
    maintenance changed, so that a file that had the jobs in memory still does. An addition
    or an update that fails writes nothing and leaves the timer. *)
Theorem operations_persist_and_arm `{CronEnv} `{CronStoreIO} (reason : string → option string)
    (deps : CronServiceDeps) :
  (∀ now s s', Mutation reason deps now s s' → settled deps now s') ∧
  (∀ id now ledger s s' p effs,
     reserveManualRun id now ledger s = (s', Ok (inl p), effs) → synced s' ∧ st_timer s' = st_timer s) ∧
  (∀ now s, synced s → synced (ensureLoadedForRead now s).1) ∧
  (∀ def id t1 t2 t3 t4 input s s' err effs,
     add deps def id t1 t2 t3 t4 input s = (s', Throw err, effs) →
     st_file s' = st_file s ∧ st_timer s' = st_timer s) ∧
  (∀ def t1 now t2 id patch s s' err effs,
     update deps def t1 now t2 id patch s = (s', Throw err, effs) →
     st_file s' = st_file s ∧ st_timer s' = st_timer s).
Proof.
  assert (∀ f sk t s, st_file (ensureLoaded f sk t s).1 = st_file s ∧
                      st_timer (ensureLoaded f sk t s).1 = st_timer s) as Hload.
  { intros f sk t s. unfold ensureLoaded. repeat case_match; by simplify_eq. }
  split; [|split; [|split; [apply read_synced|split]]].
  - intros now s s' Hm. destruct Hm as
      [def id t1 t2 t3 armNow input s s' job effs Ho|def t1 now armNow id patch s s' job effs Ho
      |t1 armNow id s s' removed effs Ho|force p endedAt t1 t2 t3 armNow e s s' effs [j Hf] Ho
      |clock t1 t2 armNow results s s' effs Hne Ho|id force c s s' effs Ho].
    + unfold add in Ho. destruct (ensureLoaded _ _ _ _) as [s1 e1].
      destruct (createJob _ _ _ _); [|done].
      destruct (recomputeNextRuns _ _) as [[jobs c] e2]. injection Ho as <- _ _.
      apply arm_persist_settled. by eexists.
    + unfold update in Ho. destruct (ensureLoaded _ _ _ _) as [s1 e1].
      destruct (findJobOrThrow _ _) as [j|]; [|done].
      destruct (applyJobPatch _ _ _) as [j1 [[]|]]; [|done].
      destruct (rescheduled _ _ _) as [j3|]; [|done]. injection Ho as <- _ _.
      apply arm_persist_settled. by eexists.
    + unfold remove in Ho. destruct (ensureLoaded _ _ _ _) as [s1 e1]. injection Ho as <- _ _.
      apply arm_persist_settled. by eexists.
    + unfold finishPreparedManualRun in Ho. destruct (ensureLoaded _ _ _ _) as [s1 e1].
      cbn [fst] in Hf. rewrite Hf in Ho.
      destruct (applyJobResult _ _ _ _ _ _) as [[j' del] ae].
      pose proof (maintain_store true t3 (mergeManualRunSnapshotAfterReload (pr_jobId p)
        (if del then None else Some j') (loadCronStore (st_file s1))) s1) as Hst.
      destruct (maintain true t3 _) as [[s2 c] e2]. injection Ho as <- _.
      by apply arm_persist_settled.
    + unfold onTimerEnd in Ho. destruct results as [|o rest]; [done|].
      destruct (ensureLoaded _ _ _ _) as [s0 e0].
      destruct (tickApply _ _ _ _ _ _) as [mem te]. injection Ho as <- _.
      unfold settled, arm, jobsOf. cbn. by split; [eexists|].
    + unfold inspectManualRunPreflight in Ho. destruct (ensureLoaded _ _ _ _) as [s1 e1].
      destruct (maintain false _ s1) as [[s2 ch] e2]. destruct (findJobOrThrow _ _) as [j|]; [|done].
      destruct (assertSupportedJobSpec _ _) as [|err]; [by repeat case_match|].
      unfold skipInvalidPersistedManualRun in Ho. destruct (applyJobResult _ _ _ _ _ _) as [[j' del] ae].
      set (jobs := if del then _ else _) in Ho. pose proof (maintain_store true (ic_maintenance2 c) jobs s2) as Hst.
      destruct (maintain true _ _) as [[s3 c3] e3]. injection Ho as <- _. by apply arm_persist_settled.
  - intros id now ledger s s' p effs Ho. unfold reserveManualRun in Ho. destruct (findJobOrThrow _ _) as [j|]; [|done].
    destruct (runningAtMs _); [done|]. injection Ho as <- _ _. split; [by split; [eexists|]|done].
  - intros def id t1 t2 t3 t4 input s s' err effs Ho. unfold add in Ho.
    pose proof (Hload false false t1 s) as Hl. destruct (ensureLoaded _ _ _ _) as [s1 e1].
    destruct (createJob _ _ _ _); [destruct (recomputeNextRuns _ _) as [[? ?] ?]; done|].
    by injection Ho as <- _ _.
  - intros def t1 now t2 id patch s s' err effs Ho. unfold update in Ho.
    pose proof (Hload false true t1 s) as Hl. destruct (ensureLoaded _ _ _ _) as [s1 e1].
    destruct (findJobOrThrow _ _) as [j|]; [|by injection Ho as <- _ _].
    destruct (applyJobPatch _ _ _) as [j1 [[]|]]; [|by injection Ho as <- _ _].
    destruct (rescheduled _ _ _) as [j3|]; [done|]. by injection Ho as <- _ _.
Qed.

Lemma operations_persist_and_arm_witness :
  let s' := (@remove demoEnv demoIO demoDeps 0 1000 "a" (demoService [named "a"; named "b"])).1.1 in
  st_timer s' = Some 59000 ∧ st_file s' = [named "b"].
Proof.
  intros s'.
  destruct (proj1 (@operations_persist_and_arm demoEnv demoIO demoReason demoDeps) 1000 _ _
    (@MRemove demoEnv demoIO demoReason demoDeps 0 1000 "a" (demoService [named "a"; named "b"]) _ _ _ eq_refl))
    as (_ & Hf & Ht).
  split; [exact Ht|exact Hf].
Defined.

(** ** Observations *)

(** [stop] during a tick does not stop the service: the end of the tick arms the
    timer again. *)
Lemma tick_end_rearms_after_stop `{CronEnv} `{CronStoreIO} reason deps clock t1 t2 armNow s :
  st_timer (onTimerEnd reason deps clock t1 t2 armNow [] (stop s)).1 = armTimer deps (jobsOf s) armNow.
Proof. reflexivity. Qed.

(** Adding a job moves on the past-due slot of another job that has not been run. *)
Lemma add_skips_pending_slot :
  let s := demoService [named "a"] in
  let s' := (@add demoEnv demoIO demoDeps None "n" 61000 61000 61000 61000 demoCreate s).1.1 in
  isJobDue (named "a") 61000 false = true ∧
  (nextRunAtMs ∘ job_state <$> findJob (jobsOf s') "a") = Some (Some 120000) ∧
  (lastRunAtMs ∘ job_state <$> findJob (jobsOf s') "a") = Some None.
Proof. vm_compute. by repeat split. Qed.

(** So does the recomputation at the end of [start], for a slot that became due
    while the catch-up was running. *)
Lemma start_skips_slot_due_during_catchup :
  let obs := mkStartObs 59000 (λ _, (0, 0, true, okEnd)) (λ _, 0) 59000 61000 61000 in
  let mem := (@start demoEnv demoReason demoDeps obs (mkMemory [named "a"] ∅)).1 in
  (nextRunAtMs ∘ job_state <$> findJob (mem_jobs mem) "a") = Some (Some 120000) ∧
  (lastRunAtMs ∘ job_state <$> findJob (mem_jobs mem) "a") = Some None.
Proof. vm_compute. by repeat split. Qed.

End CronOps.
