(* ===== verification/CronRuns.v ===== *)
(** * Manual runs of cron jobs among other operations: src/cron/service/ops.ts, timer.ts

    Every locked section of the cron service as one operation, in any order: reads,
    changes of the jobs, the inspection and the reservation of a manual run as the two
    sections that they are, ends of runs, and the sections of a timer tick. The start of
    the service, which clears every marker, is in CronLoop.v. *)

From S2P Require Import Prelude JsNumber CronTypes CronSchedule CronJobs CronTimer CronLoop CronOps.

Module CronRuns.
Import JsNumber CronTypes CronSchedule CronJobs CronTimer CronLoop CronOps.

Section env.
Context `{CronEnv} `{CronStoreIO}.
Context (reason : string → option string).

Inductive CronOp : Type :=
| OpRead (now : Z)                                                  (* status, list, listPage *)
| OpAdd (def : option string) (newId : string) (loadNow createNow recomputeNow armNow : Z) (input : CronJobCreate)
| OpUpdate (def : option string) (loadNow now armNow : Z) (jobId : string) (patch : CronJobPatch)
| OpRemove (loadNow armNow : Z) (jobId : string)
| OpInspect (jobId : string) (force : bool) (c : InspectClocks)
| OpReserve (jobId : string) (now : Z) (ledger : bool)
| OpFinish (force : bool) (prepared : PreparedRun) (endedAt loadNow alertNow maintenanceNow armNow : Z) (e : RunEnd)
| OpTickBegin (dueCheckNow now : Z)
| OpTickEnd (clock : nat → Z) (loadNow maintenanceNow armNow : Z) (results : list TimedCronRunOutcome)
| OpStop.

Definition apply_op (deps : CronServiceDeps) (op : CronOp) (s : CronServiceState) : CronServiceState :=
  match op with
  | OpRead now => (ensureLoadedForRead now s).1
  | OpAdd def newId t1 t2 t3 t4 input => (add deps def newId t1 t2 t3 t4 input s).1.1
  | OpUpdate def t1 now t2 jobId patch => (update deps def t1 now t2 jobId patch s).1.1
  | OpRemove t1 t2 jobId => (remove deps t1 t2 jobId s).1.1
  | OpInspect jobId force c => (inspectManualRunPreflight reason deps jobId force c s).1.1
  | OpReserve jobId now ledger => (reserveManualRun jobId now ledger s).1.1
  | OpFinish force p endedAt t1 t2 t3 t4 e => (finishPreparedManualRun reason deps force p endedAt t1 t2 t3 t4 e s).1
  | OpTickBegin t1 now => (onTimerBegin t1 now s).1.1
  | OpTickEnd clock t1 t2 t3 results => (onTimerEnd reason deps clock t1 t2 t3 results s).1
  | OpStop => stop s
  end.

Definition apply_ops (deps : CronServiceDeps) (ops : list CronOp) (s : CronServiceState) : CronServiceState :=
  List.fold_left (λ s op, apply_op deps op s) ops s.

(** ** What leaves a run of a job alone *)

Definition all_of (id : string) (P : CronJob → Prop) (jobs : list CronJob) : Prop :=
  ∀ j, j ∈ jobs → job_id j = id → P j.

Definition supported (j : CronJob) : Prop :=
  is_ok (assertSupportedJobSpec (job_sessionTarget j) (job_payload j)) = true.

(** While a run of [id] that was reserved at [t] is in progress: the marker is not yet
    taken for a stuck one; what ends is the run of another job; an update does not set the
    marker, nor enable the job after it was disabled; the job is not found to be one that
    cannot run, which is recorded as the end of a run. *)
Definition tame (id : string) (t : Z) (s : CronServiceState) (op : CronOp) : Prop :=
  let young := (λ now, now - t <= STUCK_RUN_MS) in
  match op with
  | OpRead now => young now
  | OpAdd _ newId t1 _ t3 _ _ => newId ≠ id ∧ young t1 ∧ young t3
  | OpUpdate _ _ _ _ jobId patch =>
      jobId = id →
      p_state patch ≫= sp_runningAtMs = None ∧
      (p_enabled patch = Some true → all_of id (λ j, isJobEnabled j = true) (jobsOf s))
  | OpRemove t1 _ _ => young t1
  | OpInspect jobId _ c =>
      young (ic_maintenance c) ∧ young (ic_maintenance2 c) ∧ (jobId = id → all_of id supported (jobsOf s))
  | OpReserve _ _ _ => True
  | OpFinish _ p _ _ _ t3 _ _ => pr_jobId p ≠ id ∧ young t3
  | OpTickBegin t1 _ => young t1
  | OpTickEnd _ _ t2 _ results => (id ∉ List.map oc_jobId results) ∧ young t2
  | OpStop => True
  end.

Fixpoint undisturbed (deps : CronServiceDeps) (id : string) (t : Z) (s : CronServiceState) (ops : list CronOp) : Prop :=
  match ops with
  | [] => True
  | op :: rest => tame id t s op ∧ undisturbed deps id t (apply_op deps op s) rest
  end.

(** ** The marker is kept *)

(** A job with the id carries the marker unless it is disabled: maintenance takes it from
    disabled jobs. *)
Definition kept (id : string) (t : Z) (j : CronJob) : Prop :=
  job_id j = id → job_enabled j = true → runningAtMs (job_state j) = Some t.

Record held (id : string) (t : Z) (s : CronServiceState) : Prop := mkHeld {
  hd_store : is_Some (st_store s);
  hd_jobs : Forall (kept id t) (jobsOf s);
  hd_file : Forall (kept id t) (loadCronStore (st_file s));
}.

Lemma kept_other id t j : job_id j ≠ id → kept id t j.
Proof. by intros Hne Hid. Qed.

Lemma kept_walk id t fn now jobs :
  (∀ j, job_id (fn j now).1.1 = job_id j ∧ runningAtMs (job_state (fn j now).1.1) = runningAtMs (job_state j)) →
  now - t <= STUCK_RUN_MS → Forall (kept id t) jobs → Forall (kept id t) (walkSchedulableJobs jobs fn now).1.1.
Proof.
  intros Hfn Hn Hall. simpl. rewrite map_map. apply Forall_map. eapply Forall_impl; [exact Hall|].
  intros j Hj Hid He. rewrite walkJob_id in Hid by apply Hfn. destruct (job_enabled j) eqn:Hen.
  - apply walkJob_running; [apply Hfn|done|by apply Hj|done].
  - exfalso. unfold walkJob in He. destruct (tick_disabled j now Hen) as (Hskip & Hd & _). rewrite Hskip in He.
    cbn [fst] in He. congruence.
Qed.

Lemma recomputeNextRuns_kept id t now jobs :
  now - t <= STUCK_RUN_MS → Forall (kept id t) jobs → Forall (kept id t) (recomputeNextRuns jobs now).1.1.
Proof.
  apply kept_walk. intros j. unfold recomputeNextRunsStep. case_match; [apply recomputeJob_keeps|done].
Qed.

Lemma maintenance_kept id t b now jobs :
  now - t <= STUCK_RUN_MS → Forall (kept id t) jobs →
  Forall (kept id t) (recomputeNextRunsForMaintenance jobs b now).1.1.
Proof. apply kept_walk. intros j. apply maintenanceStep_keeps. Qed.

Lemma replaceJob_kept id t jobs id' j :
  kept id t j → Forall (kept id t) jobs → Forall (kept id t) (replaceJob jobs id' j).
Proof. intros Hj. induction 1; simpl; [constructor|]. case_match; by constructor. Qed.

Lemma removeJob_kept id t jobs id' : Forall (kept id t) jobs → Forall (kept id t) (removeJob jobs id').
Proof. unfold removeJob. induction 1; simpl; [constructor|]. case_match; [by constructor|done]. Qed.

Lemma outcomes_kept id t deps clock i mem results :
  id ∉ List.map oc_jobId results → Forall (kept id t) (mem_jobs mem) →
  Forall (kept id t) (mem_jobs (applyOutcomes reason deps clock i mem results).1).
Proof.
  revert i mem. induction results as [|o results IH]; intros i mem Hid Hm; [done|]. simpl in *.
  apply not_elem_of_cons in Hid as [Hne Hid].
  assert (Forall (kept id t) (mem_jobs (applyOutcomeToStoredJob reason deps (clock i) mem o).1)) as Hk.
  { unfold applyOutcomeToStoredJob. destruct (findJob (mem_jobs mem) (oc_jobId o)) as [j|] eqn:Hf; [|done].
    destruct (applyJobResult_spec reason deps false (clock i) j (outcomeResult o)) as ((Hj & _) & _).
    destruct (applyJobResult _ _ _ _ _ _) as [[j' del] effs]. cbn [fst] in Hj.
    apply findJob_id in Hf. assert (kept id t j') as Hj' by (apply kept_other; congruence).
    destruct del; cbn [fst mem_jobs]; [apply removeJob_kept|]; by apply replaceJob_kept. }
  destruct (applyOutcomeToStoredJob _ _ _ _ _) as [m1 e1]. specialize (IH (S i) m1 Hid Hk).
  by destruct (applyOutcomes _ _ _ _ _ _) as [m2 e2].
Qed.

Lemma merge_kept id t jobId snapshot jobs :
  jobId ≠ id → Forall (kept id t) jobs → Forall (kept id t) (mergeManualRunSnapshotAfterReload jobId snapshot jobs).
Proof.
  intros Hne Hall. unfold mergeManualRunSnapshotAfterReload. destruct snapshot as [j|]; [|by apply removeJob_kept].
  destruct (findJob jobs jobId) as [k|] eqn:Hf; [|done]. apply replaceJob_kept; [|done].
  apply findJob_id in Hf. apply kept_other. simpl. congruence.
Qed.

(** ** Building states *)

Context `{!CronStoreLaws}.

Lemma held_jobs id t s jobs : held id t s → Forall (kept id t) jobs → held id t (with_jobs s jobs).
Proof. intros [_ _ Hf] Hj. split; [by eexists|done|done]. Qed.

Lemma held_persist id t s : held id t s → held id t (persist s).
Proof.
  intros [[jobs Hs] Hj Hf]. unfold persist. rewrite Hs. unfold jobsOf in Hj. rewrite Hs in Hj.
  split; [by eexists|done|]. simpl. by rewrite load_save.
Qed.

Lemma held_arm id t deps now s : held id t s → held id t (arm deps now s).
Proof. by intros []. Qed.

Lemma held_load id t f sk now s :
  (sk = false → now - t <= STUCK_RUN_MS) → held id t s → held id t (ensureLoaded f sk now s).1.
Proof.
  intros Hn Hs. pose proof Hs as [[jobs Hj] _ Hf]. unfold ensureLoaded. rewrite Hj. destruct f; [|done].
  destruct sk; [by apply held_jobs|]. pose proof (recomputeNextRuns_kept id t now _ (Hn eq_refl) Hf) as Hr.
  destruct (recomputeNextRuns _ _) as [[jobs' c] e]. by apply held_jobs.
Qed.

(** A store that is loaded is not loaded again. *)
Lemma load_loaded id t sk now s : held id t s → ensureLoaded false sk now s = (s, []).
Proof. intros [[jobs Hj] _ _]. unfold ensureLoaded. by rewrite Hj. Qed.

Lemma held_maintain id t b now s : now - t <= STUCK_RUN_MS → held id t s → held id t (maintain b now s).1.1.
Proof.
  intros Hn Hs. pose proof Hs as [[jobs Hj] Hjobs _]. unfold maintain, jobsOf in *. rewrite Hj in *.
  pose proof (maintenance_kept id t b now jobs Hn Hjobs) as Hm.
  destruct (recomputeNextRunsForMaintenance _ _ _) as [[jobs' c] e]. by apply held_jobs.
Qed.

(** ** The operations *)

Lemma findJob_in jobs id j : findJob jobs id = Some j → j ∈ jobs.
Proof. intros [Hin _]%find_some. by apply list_elem_of_In. Qed.

Lemma held_at id t s jobId j : held id t s → findJob (jobsOf s) jobId = Some j → kept id t j.
Proof. intros [_ Hj _] Hf. rewrite Forall_forall in Hj. by eapply Hj, findJob_in. Qed.

Lemma anchored_run patch now j :
  job_id (anchored patch now j) = job_id j ∧ job_enabled (anchored patch now j) = job_enabled j ∧
  job_state (anchored patch now j) = job_state j.
Proof. unfold anchored. by repeat case_match. Qed.

Lemma rescheduled_run patch now j j' :
  rescheduled patch now j = Ok j' →
  job_id j' = job_id j ∧ job_enabled j' = job_enabled j ∧
  (job_enabled j = true → runningAtMs (job_state j') = runningAtMs (job_state j)).
Proof.
  unfold rescheduled, result_bind, isJobEnabled. destruct (job_enabled j) eqn:He; repeat case_match; intros; simplify_eq; done.
Qed.

Lemma held_update id t deps def t1 now t2 jobId patch s :
  held id t s → tame id t s (OpUpdate def t1 now t2 jobId patch) →
  held id t (update deps def t1 now t2 jobId patch s).1.1.
Proof.
  intros Hs Ht. unfold update. rewrite (load_loaded _ _ _ _ _ Hs).
  destruct (findJobOrThrow (jobsOf s) jobId) as [j|err] eqn:Hf; [|done]. apply findJobOrThrow_Ok in Hf.
  pose proof (held_at _ _ _ _ _ Hs Hf) as Hj. pose proof (findJob_id _ _ _ Hf) as Hid.
  destruct (applyJobPatch_keeps patch def j) as [Hid1 _]. destruct (applyJobPatch_marker patch def j) as [Hrun Hen].
  assert (kept id t (applyJobPatch patch def j).1) as Hk1.
  { intros Heq He. rewrite Hid1 in Heq. destruct (Ht (eq_trans (eq_sym Hid) Heq)) as [Hp Hall]. rewrite Hrun by done.
    apply Hj; [done|]. destruct (Hen He) as [?|Hpe]; [done|].
    exact (Hall Hpe j (findJob_in _ _ _ Hf) Heq). }
  destruct (applyJobPatch patch def j) as [j1 r]. cbn [fst] in *.
  assert (∀ j', kept id t j' → held id t (with_jobs s (replaceJob (jobsOf s) jobId j'))) as Hput.
  { intros j' Hj'. apply held_jobs; [done|]. apply replaceJob_kept; [done|]. apply Hs. }
  destruct r as [[]|err]; [|by apply Hput].
  assert (kept id t (set_updatedAtMs (anchored patch now j1) now)) as Hk2.
  { destruct (anchored_run patch now j1) as (Ha & Hb & Hc). unfold kept. simpl. by rewrite Ha, Hb, Hc. }
  destruct (rescheduled patch now _) as [j3|err] eqn:Hr; cbn [fst]; [|by apply Hput].
  apply held_arm, held_persist, Hput. apply rescheduled_run in Hr as (Ha & Hb & Hc).
  intros Heq He. rewrite Ha in Heq. rewrite Hb in He. rewrite Hc by done. by apply Hk2.
Qed.

Lemma held_inspect id t deps jobId force c s :
  held id t s → tame id t s (OpInspect jobId force c) →
  held id t (inspectManualRunPreflight reason deps jobId force c s).1.1.
Proof.
  intros Hs (Hn1 & Hn2 & Hok). unfold inspectManualRunPreflight. rewrite (load_loaded _ _ _ _ _ Hs).
  pose proof (held_maintain id t false _ _ Hn1 Hs) as Hm. pose proof (hd_store _ _ _ Hs) as [jobs Hjobs].
  pose proof (maintain_jobs s jobs false (ic_maintenance c) Hjobs) as Heq.
  destruct (maintain false (ic_maintenance c) s) as [[s2 ch] e2]. cbn [fst] in Hm, Heq.
  destruct (findJobOrThrow (jobsOf s2) jobId) as [j|err] eqn:Hf; [|done]. apply findJobOrThrow_Ok in Hf.
  destruct (assertSupportedJobSpec _ _) as [[]|err] eqn:Hspec; [by repeat case_match|].
  assert (jobId ≠ id) as Hne.
  { intros ->. rewrite Heq in Hf. change (findJob (List.map (maintained false (ic_maintenance c)) jobs) id = Some j) in Hf.
    rewrite findJob_maintained in Hf. destruct (findJob jobs id) as [k|] eqn:Hk; [|done]. injection Hf as <-.
    destruct (maintained_spec false (ic_maintenance c) k) as [Ht Hp]. rewrite Ht, Hp in Hspec.
    unfold jobsOf in Hok. rewrite Hjobs in Hok.
    specialize (Hok eq_refl k (findJob_in _ _ _ Hk) (findJob_id _ _ _ Hk)). unfold supported in Hok. by rewrite Hspec in Hok. }
  unfold skipInvalidPersistedManualRun.
  destruct (applyJobResult_spec reason deps force (ic_alert c) j (mkResult StatusSkipped (Some err) None (ic_now c) (ic_now c)))
    as ((Hj & _) & _).
  destruct (applyJobResult _ _ _ _ _ _) as [[j' del] effs]. cbn [fst] in Hj. pose proof (findJob_id _ _ _ Hf) as Hid.
  assert (Forall (kept id t) (replaceJob (jobsOf s2) (job_id j) j')) as Hr.
  { apply replaceJob_kept; [apply kept_other; congruence|apply Hm]. }
  set (jobs' := if del then _ else _).
  assert (Forall (kept id t) jobs') as Hj' by (subst jobs'; destruct del; [by apply removeJob_kept|done]).
  pose proof (held_maintain id t true _ _ Hn2 (held_jobs _ _ _ _ Hm Hj')) as Hm3.
  destruct (maintain true _ _) as [[s3 c3] e3]. cbn [fst] in *. by apply held_arm, held_persist.
Qed.

Lemma held_reserve id t jobId now ledger s :
  held id t s → held id t (reserveManualRun jobId now ledger s).1.1.
Proof.
  intros Hs. unfold reserveManualRun. destruct (findJobOrThrow (jobsOf s) jobId) as [j|err] eqn:Hf; [|done].
  apply findJobOrThrow_Ok in Hf. destruct (runningAtMs (job_state j)) eqn:Hr; [done|]. cbn [fst].
  apply held_persist, held_jobs; [done|]. apply replaceJob_kept; [|apply Hs].
  intros Hid He. pose proof (held_at _ _ _ _ _ Hs Hf Hid He). congruence.
Qed.

Lemma held_finish id t deps force p endedAt t1 t2 t3 t4 e s :
  held id t s → tame id t s (OpFinish force p endedAt t1 t2 t3 t4 e) →
  held id t (finishPreparedManualRun reason deps force p endedAt t1 t2 t3 t4 e s).1.
Proof.
  intros Hs [Hne Hn]. unfold finishPreparedManualRun. rewrite (load_loaded _ _ _ _ _ Hs).
  destruct (findJob (jobsOf s) (pr_jobId p)) as [j|]; [|done].
  destruct (applyJobResult _ _ _ _ _ _) as [[j' del] effs].
  pose proof (held_maintain id t true t3 _ Hn
    (held_jobs id t s _ Hs (merge_kept id t (pr_jobId p) (if del then None else Some j') _ Hne (hd_file _ _ _ Hs)))) as Hm.
  destruct (maintain true t3 _) as [[s2 c] e2]. cbn [fst] in *. by apply held_arm, held_persist.
Qed.

(** A job that carries the marker, or is disabled, is not due. *)
Lemma kept_not_runnable id t now j : kept id t j → job_id j = id → isRunnableJob tickOpts now j = false.
Proof.
  intros Hj Hid. destruct (job_enabled j) eqn:He; [by apply (running_not_runnable _ _ _ t), Hj|].
  unfold isRunnableJob, isJobEnabled. by rewrite He.
Qed.

Lemma tickBegin_kept id t jobs t1 now :
  t1 - t <= STUCK_RUN_MS → Forall (kept id t) jobs →
  Forall (kept id t) (tb_jobs (tickBegin jobs t1 now)) ∧ id ∉ List.map job_id (tb_due (tickBegin jobs t1 now)).
Proof.
  intros Hn Hall. unfold tickBegin. destruct (collectRunnableJobs tickOpts jobs t1) as [|d ds] eqn:Hd.
  - pose proof (maintenance_kept id t true t1 jobs Hn Hall) as Hm.
    destruct (recomputeNextRunsForMaintenance _ _ _) as [[jobs' c] e]. split; [done|]. apply not_elem_of_nil.
  - rewrite <- Hd. cbn [tb_jobs tb_due]. split.
    + apply Forall_map. eapply Forall_impl; [exact Hall|]. intros j Hj. cbn beta. case_match eqn:Hr; [|done].
      apply kept_other. simpl. intros Hid. rewrite (kept_not_runnable id t) in Hr by done. done.
    + rewrite map_map. intros (j & Hid & Hj)%list_elem_of_In%in_map_iff. apply filter_In in Hj as [Hin Hr].
      apply list_elem_of_In in Hin. rewrite Forall_forall in Hall.
      rewrite (kept_not_runnable id t) in Hr; [done|by apply Hall|done].
Qed.

Lemma held_tickBegin id t t1 now s :
  held id t s → t1 - t <= STUCK_RUN_MS →
  held id t (onTimerBegin t1 now s).1.1 ∧
  ∀ due, (onTimerBegin t1 now s).1.2 = Some due → id ∉ List.map job_id due.
Proof.
  intros Hs Hn. unfold onTimerBegin. set (armed := mkState _ _ _ _ _).
  assert (held id t armed) as Ha by (by destruct Hs). destruct (st_running s); [done|].
  pose proof (held_load id t true true t1 armed ltac:(done) Ha) as Hl.
  destruct (ensureLoaded true true t1 armed) as [s1 e1]. cbn [fst] in Hl.
  destruct (tickBegin_kept id t (jobsOf s1) t1 now Hn (hd_jobs _ _ _ Hl)) as [Hk Hdue].
  cbn [fst snd]. split; [|by intros due [= <-]].
  pose proof (held_jobs id t s1 _ Hl Hk) as Hw. case_match; [by apply held_persist|done].
Qed.

Lemma held_tickEnd id t deps clock t1 t2 t3 results s :
  held id t s → tame id t s (OpTickEnd clock t1 t2 t3 results) →
  held id t (onTimerEnd reason deps clock t1 t2 t3 results s).1.
Proof.
  intros Hs [Hid Hn]. unfold onTimerEnd. destruct results as [|o rest]; [by destruct Hs|].
  pose proof (held_load id t true true t1 s ltac:(done) Hs) as Hl.
  destruct (ensureLoaded true true t1 s) as [s0 e0]. cbn [fst] in Hl. unfold tickApply.
  pose proof (outcomes_kept id t deps clock 0 (mkMemory (jobsOf s0) (st_active s0)) (o :: rest) Hid (hd_jobs _ _ _ Hl)) as Ho.
  destruct (applyOutcomes _ _ _ _ _ _) as [m1 e1]. cbn [fst] in Ho.
  pose proof (maintenance_kept id t false t2 _ Hn Ho) as Hm.
  destruct (recomputeNextRunsForMaintenance _ _ _) as [[jobs c] e2]. cbn [fst] in Hm.
  apply held_arm. split; [by eexists|done|]. simpl. by rewrite load_save.
Qed.

Lemma op_keeps id t deps op s : held id t s → tame id t s op → held id t (apply_op deps op s).
Proof.
  intros Hs Ht. destruct op as [now|def newId t1 t2 t3 t4 input|def t1 now t2 jobId patch|t1 t2 jobId|jobId force c
    |jobId now ledger|force p endedAt t1 t2 t3 t4 e|t1 now|clock t1 t2 t3 results|]; cbn [apply_op].
  - unfold ensureLoadedForRead. rewrite (load_loaded _ _ _ _ _ Hs).
    pose proof (held_maintain id t false now s Ht Hs) as Hm. destruct (maintain false now s) as [[s2 ch] e2].
    destruct ch; [by apply held_persist|done].
  - destruct Ht as (Hne & _ & Hn). unfold add. rewrite (load_loaded _ _ _ _ _ Hs).
    destruct (createJob t2 newId def input) as [job|err] eqn:Hc; [|done].
    assert (kept id t job) as Hj.
    { apply kept_other. enough (job_id job = newId) as -> by done. unfold createJob, result_bind in Hc.
      by repeat case_match; simplify_eq. }
    pose proof (recomputeNextRuns_kept id t t3 (jobsOf s ++ [job]) Hn) as Hr.
    destruct (recomputeNextRuns _ _) as [[jobs c] e2]. cbn [fst] in *. apply held_arm, held_persist, held_jobs; [done|].
    apply Hr, Forall_app. split; [apply Hs|by constructor].
  - by apply held_update.
  - unfold remove. rewrite (load_loaded _ _ _ _ _ Hs). apply held_arm, held_persist, held_jobs; [done|].
    apply removeJob_kept, Hs.
  - by apply held_inspect.
  - by apply held_reserve.
  - by apply held_finish.
  - by apply held_tickBegin.
  - by apply held_tickEnd.
  - by destruct Hs.
Qed.

Lemma ops_keep id t deps ops s : held id t s → undisturbed deps id t s ops → held id t (apply_ops deps ops s).
Proof.
  revert s. induction ops as [|op ops IH]; intros s Hs; [done|]. intros [Ht Hu]. apply IH; [by apply op_keeps|done].
Qed.

(** A reservation sets the marker, in memory and in the file. *)
Lemma reserved_held id now ledger s s' p effs :
  NoDup (List.map job_id (jobsOf s)) → reserveManualRun id now ledger s = (s', Ok (inl p), effs) → held id now s'.
Proof.
  intros Hnd. unfold reserveManualRun. destruct (findJobOrThrow (jobsOf s) id) as [j|err] eqn:Hf; [|done].
  apply findJobOrThrow_Ok in Hf. destruct (runningAtMs (job_state j)); [done|]. intros [= <- _ _].
  assert (Forall (kept id now) (replaceJob (jobsOf s) id (markRunning now j))) as Hall.
  { apply Forall_forall. intros x [->|[_ Hx]]%(replaceJob_spec reason _ _ _ _ Hnd Hf); [by intros _ _|by apply kept_other]. }
  split; [by eexists|done|]. simpl. by rewrite load_save.
Qed.

End env.

(** ** Properties *)

(** C23. A manual run excludes other runs of the job. Once a job is reserved, in memory and
    in the file, and whatever operations of the service follow in any order, the two
    sections of other manual runs among them, as long as they are [tame] (the marker is
    under two hours old when they look at it; no run of the job ends; the job is not
    enabled again after it was disabled, nor its marker patched, nor is it refused for its
    specification, which counts as an end): no tick starts the job, and while the job is
    there and enabled a manual run of it, forced or not, is refused as already running,
    even one whose inspection came before. *)
Theorem manual_run_excludes_others `{CronEnv} `{CronStoreLaws} (reason : string → option string)
    (deps : CronServiceDeps) (id : string) (now : Z) (ledger : bool) (s s1 : CronServiceState) (p : PreparedRun)
    (effs : list CronEffect) (ops : list CronOp) :
  NoDup (List.map job_id (jobsOf s)) → reserveManualRun id now ledger s = (s1, Ok (inl p), effs) →
  undisturbed reason deps id now s1 ops →
  let s2 := apply_ops reason deps ops s1 in
  (∀ t1 t2 due, t1 - now <= STUCK_RUN_MS → (onTimerBegin t1 t2 s2).1.2 = Some due → id ∉ List.map job_id due) ∧
  ∀ j, findJob (jobsOf s2) id = Some j → job_enabled j = true →
    (∀ t ledger2, (reserveManualRun id t ledger2 s2).1.2 = Ok (inr AlreadyRunning)) ∧
    (∀ force ledger2 c, ic_maintenance c - now <= STUCK_RUN_MS → supported j →
       (prepareManualRun reason deps id force ledger2 c s2).1.2 = Ok (inr AlreadyRunning)).
Proof.
  intros Hnd Hres Hu s2.
  pose proof (ops_keep reason id now deps ops s1 ltac:(by eapply reserved_held) Hu) as Hs. fold s2 in Hs.
  split; [intros t1 t2 due Hn; by apply (held_tickBegin id now)|].
  intros j Hf He. pose proof (held_at _ _ _ _ _ Hs Hf (findJob_id _ _ _ Hf) He) as Hr. split.
  - intros t ledger2. unfold reserveManualRun. by rewrite (proj2 (findJobOrThrow_Ok _ _ _) Hf), Hr.
  - intros force ledger2 c Hn Hspec. pose proof (hd_store _ _ _ Hs) as [jobs Hjobs].
    unfold jobsOf in Hf. rewrite Hjobs in Hf.
    destruct (inspect_found reason deps id force c s2 jobs j Hjobs Hf Hspec) as (_ & _ & Hi).
    rewrite (maintained_running false (ic_maintenance c) j now He Hr Hn) in Hi. unfold prepareManualRun.
    destruct (inspectManualRunPreflight reason deps id force c s2) as [[s3 r] e1]. cbn [fst snd] in Hi. by subst r.
Qed.

(** Job a is reserved; then a list, a tick that starts b and records its end, and an
    update of a. *)
Definition demoOps : list CronOp :=
  [OpRead 2000; OpTickBegin 70000 70000;
   OpTickEnd (λ _, 71000) 71000 71000 71000
     [outcomeOf "b" None 70000 71000 okEnd];
   OpUpdate None 0 72000 72000 "a" demoPatch].

Definition demoReserved : CronServiceState :=
  (@reserveManualRun demoIO "a" 1000 true (demoService [named "a"; named "b"])).1.1.
Definition demoAfter : CronServiceState := @apply_ops demoEnv demoIO demoReason demoDeps demoOps demoReserved.

Lemma manual_run_excludes_others_witness :
  (@prepareManualRun demoEnv demoIO demoReason demoDeps "a" true true (clocksAt 80000) demoAfter).1.2 =
    Ok (inr AlreadyRunning) ∧
  (List.map job_id <$> (@onTimerBegin demoEnv demoIO 200000 200000 demoAfter).1.2) = Some ["b"].
Proof.
  split; [|vm_compute; reflexivity].
  refine (proj2 (proj2 (@manual_run_excludes_others demoEnv demoIO demoIOLaws demoReason demoDeps "a" 1000 true
    (demoService [named "a"; named "b"]) demoReserved
    (mkPrepared "a" (Some (createCronTaskRunId "a" 1000)) 1000 (markRunning 1000 (named "a"))) _ demoOps _ _ _)
    (findJob (jobsOf demoAfter) "a" ?? named "a") _ _) true true (clocksAt 80000) _ _).
  - apply NoDup_ListNoDup. repeat constructor; simpl; intuition discriminate.
  - reflexivity.
  - vm_compute. repeat split; try discriminate. all: set_solver.
  - vm_compute. reflexivity.
  - vm_compute. reflexivity.
  - vm_compute. discriminate.
  - vm_compute. reflexivity.
Defined.

(** ** Where the code departs from what it means to do *)

(** Disabling a job clears its marker: enabled again, the job is reserved a second time
    while its first run is in progress. *)
Lemma re_enabled_job_runs_twice :
  let set b := OpUpdate None 0 2000 2000 "a"
    (mkPatch None None (Some b) None None None None None None None None None None) in
  let s2 := @apply_ops demoEnv demoIO demoReason demoDeps [set false; set true] demoReserved in
  (runningAtMs ∘ job_state <$> findJob (jobsOf demoReserved) "a") = Some (Some 1000) ∧
  is_ok (@prepareManualRun demoEnv demoIO demoReason demoDeps "a" true true (clocksAt 3000) s2).1.2 = true ∧
  (runningAtMs ∘ job_state <$> findJob
     (jobsOf (@prepareManualRun demoEnv demoIO demoReason demoDeps "a" true true (clocksAt 3000) s2).1.1) "a") = Some (Some 3000).
Proof. vm_compute. by repeat split. Qed.

End CronRuns.
