(* ===== verification/Dedupe.v ===== *)
(** * Time-bounded de-duplication: src/infra/dedupe.ts

    A cache of keys with the time each was last seen. Checking a key refreshes it
    and tells whether it was seen less than [ttlMs] ago; the cache keeps at most
    [maxSize] keys, the least recently seen one going first. *)

From S2P Require Import Prelude OMap.

Module Dedupe.

Record DedupeCacheOptions := mkOptions { optTtlMs : Z; optMaxSize : Z }.

Section cache.
Context (options : DedupeCacheOptions).

Definition ttlMs : Z := Z.max 0 (optTtlMs options).
Definition maxSize : Z := Z.max 0 (optMaxSize options).

Definition Cache := omap string Z.

Definition touch (cache : Cache) (key : string) (now : Z) : Cache := oset (odel cache key) key now.

Definition prune (cache : Cache) (now : Z) : Cache :=
  let cache1 :=
    if 0 <? ttlMs then List.filter (λ e, negb (e.2 <? now - ttlMs)) cache else cache in
  if maxSize <=? 0 then [] else pruneMapToMaxSize cache1 maxSize.

Definition hasUnexpired (cache : Cache) (key : string) (now : Z) (touchOnRead : bool) : Cache * bool :=
  match oget cache key with
  | None => (cache, false)
  | Some existing =>
      if (0 <? ttlMs) && (ttlMs <=? now - existing) then (odel cache key, false)
      else ((if touchOnRead then touch cache key now else cache), true)
  end.

Definition check (cache : Cache) (key : option string) (now : Z) : Cache * bool :=
  match key with
  | Some (String _ _ as k) =>
      let '(cache1, hit) := hasUnexpired cache k now true in
      if hit then (cache1, true) else (prune (touch cache1 k now) now, false)
  | _ => (cache, false)
  end.

Definition peek (cache : Cache) (key : option string) (now : Z) : Cache * bool :=
  match key with
  | Some (String _ _ as k) => hasUnexpired cache k now false
  | _ => (cache, false)
  end.

Definition delete (cache : Cache) (key : option string) : Cache :=
  match key with
  | Some (String _ _ as k) => odel cache k
  | _ => cache
  end.

Definition clear (cache : Cache) : Cache := [].

(** ** Runs of the cache *)

Inductive Op := Check (key : option string) | Peek (key : option string)
              | Delete (key : option string) | Clear.

Definition dedupeStep (cache : Cache) (op : Z * Op) : Cache * bool :=
  match op with
  | (now, Check key) => check cache key now
  | (now, Peek key) => peek cache key now
  | (now, Delete key) => (delete cache key, false)
  | (now, Clear) => (clear cache, false)
  end.

Fixpoint runOps (cache : Cache) (ops : list (Z * Op)) : Cache :=
  match ops with
  | [] => cache
  | op :: rest => runOps (dedupeStep cache op).1 rest
  end.

(** ** The reference: the keys with the time each was last checked, the latest
    first; a key is remembered while it is fresh and among the last [maxSize]. *)

Definition Seen := list (string * Z).

Definition fresh (now : Z) (e : string * Z) : bool := negb (0 <? ttlMs) || (now - e.2 <? ttlMs).

Definition forget (seen : Seen) (k : string) : Seen :=
  List.filter (λ e, negb (bool_decide (k = e.1))) seen.

Definition seenStep (seen : Seen) (op : Z * Op) : Seen :=
  match op with
  | (now, Check (Some (String _ _ as k))) => take (Z.to_nat maxSize) ((k, now) :: forget seen k)
  | (_, Delete (Some (String _ _ as k))) => forget seen k
  | (_, Clear) => []
  | _ => seen
  end.

Fixpoint seenAfter (seen : Seen) (ops : list (Z * Op)) : Seen :=
  match ops with
  | [] => seen
  | op :: rest => seenAfter (seenStep seen op) rest
  end.

(** The answer of the reference. *)
Definition remembered (seen : Seen) (op : Z * Op) : bool :=
  match op with
  | (now, Check (Some (String _ _ as k))) | (now, Peek (Some (String _ _ as k))) =>
      existsb (λ e, bool_decide (k = e.1) && fresh now e) seen
  | _ => false
  end.

(** *** The simulation

    The fresh entries of the cache, latest first, are those of the reference. *)

Definition byTime (l : Seen) : Prop := StronglySorted (λ a b : string * Z, b.2 <= a.2) l.

Record sim (now : Z) (cache : Cache) (seen : Seen) : Prop := {
  sim_wf : owf cache;
  sim_cache : byTime (rev cache);
  sim_seen : byTime seen;
  sim_past : Forall (λ e, e.2 <= now) (cache ++ seen);
  sim_bound : (length seen <= Z.to_nat maxSize)%nat;
  sim_size : (osize cache <= Z.to_nat maxSize)%nat;
  sim_fresh : List.filter (fresh now) (rev cache) = List.filter (fresh now) seen;
}.

Lemma fresh_mono now now' e : now <= now' → fresh now' e = true → fresh now e = true.
Proof. unfold fresh. intros Hle. destruct (0 <? ttlMs); cbn; [lia|done]. Qed.

Lemma filter_implied {A} (f g : A → bool) l :
  (∀ x, f x = true → g x = true) → List.filter f (List.filter g l) = List.filter f l.
Proof.
  intros H. rewrite filter_filter. apply filter_ext_Forall, Forall_forall. intros x _.
  specialize (H x). destruct (f x); [by rewrite H|by destruct (g x)].
Qed.

Lemma filter_comm {A} (f g : A → bool) l :
  List.filter f (List.filter g l) = List.filter g (List.filter f l).
Proof.
  rewrite !filter_filter. apply filter_ext_Forall, Forall_forall. intros x _. apply andb_comm.
Qed.

Lemma byTime_sublist l l' : l' `sublist_of` l → byTime l → byTime l'.
Proof.
  unfold byTime. induction 1 as [|x l1 l2 Hs IH|x l1 l2 Hs IH]; intros Hl; [done| |];
    inversion Hl as [|? ? Hl' Hx]; subst; [|by apply IH].
  constructor; [by apply IH|]. rewrite Forall_forall in *. intros y Hy. apply Hx.
  eapply elem_of_submseteq; [exact Hy|by apply sublist_submseteq].
Qed.

Lemma sublist_filter {A} (f : A → bool) l : List.filter f l `sublist_of` l.
Proof. induction l as [|x l IH]; cbn; [done|]. destruct (f x); by constructor. Qed.

Lemma byTime_filter f l : byTime l → byTime (List.filter f l).
Proof. apply byTime_sublist, sublist_filter. Qed.

Lemma byTime_take n l : byTime l → byTime (take n l).
Proof. apply byTime_sublist, sublist_take. Qed.

Lemma byTime_cons now k l : Forall (λ e, e.2 <= now) l → byTime l → byTime ((k, now) :: l).
Proof. intros Hp Hl. by constructor. Qed.

(** The fresh entries are a prefix, so cutting the tail and dropping what is not
    fresh commute. *)
Lemma fresh_take now n l :
  byTime l → List.filter (fresh now) (take n l) = take n (List.filter (fresh now) l).
Proof.
  intros Hl. revert n. induction Hl as [|x l Hl IH Hx]; intros n; [by destruct n|].
  destruct n as [|n]; [done|]. cbn [take List.filter]. rewrite IH.
  destruct (fresh now x) eqn:Ex; [done|].
  assert (List.filter (fresh now) l = []) as ->; [|by destruct n].
  clear -Hx Ex. induction Hx as [|y l Hy _ IH]; [done|]. cbn.
  destruct (fresh now y) eqn:Ey; [|done]. unfold fresh in *.
  destruct (0 <? ttlMs); cbn in *; [lia|done].
Qed.

Lemma filter_app_bool {A} (f : A → bool) l l' :
  List.filter f (l ++ l') = List.filter f l ++ List.filter f l'.
Proof. induction l as [|x l IH]; cbn; [done|]. destruct (f x); cbn; by rewrite IH. Qed.

Lemma rev_filter {A} (f : A → bool) l : rev (List.filter f l) = List.filter f (rev l).
Proof.
  induction l as [|x l IH]; [done|]. cbn. rewrite filter_app_bool, <- IH. cbn.
  destruct (f x); cbn; by rewrite ?app_nil_r.
Qed.

Lemma evictOldest_rev limit (m : Cache) :
  0 <= limit → rev (evictOldest limit m) = take (Z.to_nat limit) (rev m).
Proof.
  intros Hl. induction m as [|e m IH]; [by destruct (Z.to_nat limit)|]. cbn [evictOldest].
  destruct (Z.ltb_spec limit (Z.of_nat (osize (e :: m)))) as [Hlt|Hge].
  - rewrite IH. cbn [rev]. unfold osize in Hlt. cbn [length] in Hlt.
    rewrite take_app_le; [done|]. rewrite length_rev. lia.
  - rewrite take_ge; [done|]. rewrite length_rev. unfold osize in Hge. lia.
Qed.

Lemma pruneMapToMaxSize_rev (m : Cache) :
  rev (pruneMapToMaxSize m maxSize) = take (Z.to_nat maxSize) (rev m).
Proof.
  unfold pruneMapToMaxSize. assert (0 <= maxSize) by (unfold maxSize; lia).
  rewrite Z.max_r by lia. destruct (Z.leb_spec maxSize 0).
  - replace (Z.to_nat maxSize) with 0%nat by lia. done.
  - by apply evictOldest_rev.
Qed.

Lemma touch_rev (cache : Cache) k now :
  rev (touch cache k now) = (k, now) :: forget (rev cache) k.
Proof.
  unfold touch. rewrite oset_absent by apply oget_odel_eq.
  rewrite rev_app_distr. cbn. f_equal. apply rev_filter.
Qed.

(** *** One step *)

Lemma sim_mono now now' cache seen : now <= now' → sim now cache seen → sim now' cache seen.
Proof.
  intros Hle [H1 H2 H3 H4 H5 H7 H6]. split; try done.
  - eapply Forall_impl; [exact H4|]. intros e He. cbn in *. lia.
  - assert (∀ e, fresh now' e = true → fresh now e = true) as Hm by (intros e; by apply fresh_mono).
    rewrite <- (filter_implied (fresh now') (fresh now) (rev cache)) by exact Hm.
    by rewrite H6, filter_implied by exact Hm.
Qed.

Lemma Forall_forget (P : string * Z → Prop) k l : Forall P l → Forall P (forget l k).
Proof.
  intros Hl. rewrite Forall_forall in *. intros x Hx. apply Hl.
  apply list_elem_of_In in Hx. apply list_elem_of_In. by apply filter_In in Hx as [Hx _].
Qed.

Lemma sim_odel now cache seen k : sim now cache seen → sim now (odel cache k) (forget seen k).
Proof.
  intros [H1 H2 H3 H4 H5 H7 H6]. apply Forall_app in H4 as [H4 H4']. split.
  - by apply owf_odel.
  - unfold odel. rewrite rev_filter. by apply byTime_filter.
  - by apply byTime_filter.
  - apply Forall_app. split; by apply Forall_forget.
  - etransitivity; [apply filter_length_le|exact H5].
  - etransitivity; [apply osize_odel_le|exact H7].
  - unfold odel. rewrite rev_filter. unfold forget.
    by rewrite filter_comm, H6, filter_comm.
Qed.

Lemma sim_lookup now cache seen k :
  sim now cache seen →
  existsb (λ e, bool_decide (k = e.1) && fresh now e) seen =
  match oget cache k with Some t => fresh now (k, t) | None => false end.
Proof.
  intros [H1 H2 H3 H4 H5 H7 H6].
  assert (∀ l, existsb (λ e : string * Z, bool_decide (k = e.1) && fresh now e) l =
    existsb (λ e : string * Z, bool_decide (k = e.1)) (List.filter (fresh now) l)) as Hex.
  { induction l as [|e l IH]; [done|]. cbn. rewrite IH.
    destruct (fresh now e); cbn; by rewrite ?andb_true_r, ?andb_false_r. }
  rewrite Hex, <- H6. apply eq_true_iff_eq. rewrite existsb_exists. split.
  - intros ([k' t] & Hin & Hk%bool_decide_eq_true). cbn in Hk. subst k'.
    apply filter_In in Hin as [Hin Hf]. apply in_rev in Hin.
    by rewrite (oget_In_wf cache k t).
  - destruct (oget cache k) as [t|] eqn:E; [|done]. intros Hf. exists (k, t).
    split; [|by apply bool_decide_eq_true]. apply filter_In. split; [|done].
    apply in_rev. rewrite rev_involutive. by apply oget_In.
Qed.

Lemma forget_not_fresh now seen k :
  existsb (λ e, bool_decide (k = e.1) && fresh now e) seen = false →
  List.filter (fresh now) (forget seen k) = List.filter (fresh now) seen.
Proof.
  unfold forget. induction seen as [|e seen IH]; [done|]. cbn. intros [He Hs]%orb_false_iff.
  destruct (bool_decide (k = e.1)); cbn in *; [by rewrite He, IH|].
  by rewrite IH.
Qed.

Lemma forget_shorter f seen k :
  existsb (λ e : string * Z, bool_decide (k = e.1) && f e) seen = true →
  (length (forget seen k) < length seen)%nat.
Proof.
  intros (e & Hin & He)%existsb_exists. apply andb_true_iff in He as [Hk _].
  induction seen as [|x seen IH]; [done|]. cbn. destruct Hin as [->|Hin].
  - rewrite Hk. cbn. pose proof (filter_length_le (λ e, negb (bool_decide (k = e.1))) seen).
    unfold forget. lia.
  - specialize (IH Hin). destruct (negb _); cbn; unfold forget in *; lia.
Qed.

(** The touched cache before and after pruning. *)
Lemma sim_touch now cache seen k :
  sim now cache seen → let M := take (Z.to_nat maxSize) ((k, now) :: forget seen k) in
  (existsb (λ e, bool_decide (k = e.1) && fresh now e) seen = true → sim now (touch cache k now) M) ∧
  sim now (prune (touch cache k now) now) M.
Proof.
  intros Hs M. pose proof (sim_odel now cache seen k Hs) as [H1 H2 H3 H4 _ _ H6].
  set (L := rev (touch cache k now)).
  assert (owf (touch cache k now)) as Hwf by (by apply owf_oset).
  assert (Forall (λ e, e.2 <= now) (odel cache k) ∧ Forall (λ e, e.2 <= now) (forget seen k))
    as [Hp1 Hp2] by (by apply Forall_app).
  assert (Forall (λ e, e.2 <= now) (touch cache k now)) as Hp.
  { unfold touch. rewrite oset_absent by apply oget_odel_eq. apply Forall_app. split; [done|].
    constructor; [cbn; lia|done]. }
  assert (L = (k, now) :: rev (odel cache k)) as HL.
  { unfold L. rewrite touch_rev. unfold forget, odel. by rewrite rev_filter. }
  assert (byTime L) as Ht.
  { rewrite HL. apply byTime_cons; [|done]. by apply Forall_rev. }
  assert (byTime ((k, now) :: forget seen k)) as Ht' by (by apply byTime_cons).
  assert (List.filter (fresh now) L = List.filter (fresh now) ((k, now) :: forget seen k)) as HF.
  { rewrite HL. cbn [List.filter]. by rewrite H6. }
  assert (Forall (λ e, e.2 <= now) M) as HpM.
  { apply Forall_take. constructor; [cbn; lia|done]. }
  assert (length M <= Z.to_nat maxSize)%nat as Hlen by (unfold M; rewrite length_take; lia).
  split.
  - intros Hex. split; try done; [by apply byTime_take|by apply Forall_app| |].
    { assert (∃ t, oget cache k = Some t) as [t Ht0].
      { rewrite (sim_lookup now cache seen k Hs) in Hex. destruct (oget cache k); [eauto|done]. }
      unfold touch. rewrite osize_oset_absent by apply oget_odel_eq.
      rewrite (osize_odel_present cache k t) by (done || apply Hs). apply Hs. }
    fold L. rewrite HF. unfold M. rewrite take_ge; [done|].
    apply forget_shorter in Hex. pose proof (sim_bound _ _ _ Hs). cbn [length]. lia.
  - assert (∃ f, (∀ e, fresh now e = true → f e = true) ∧
      prune (touch cache k now) now = pruneMapToMaxSize (List.filter f (touch cache k now)) maxSize)
      as (f & Hf & ->).
    { exists (λ e, if 0 <? ttlMs then negb (e.2 <? now - ttlMs) else true). split.
      - intros e. unfold fresh. destruct (0 <? ttlMs); cbn; [lia|done].
      - unfold prune. destruct (0 <? ttlMs).
        + destruct (Z.leb_spec maxSize 0) as [Hm|]; [|done].
          unfold pruneMapToMaxSize. by destruct (Z.leb_spec (Z.max 0 maxSize) 0); [|lia].
        + rewrite forallb_filter_id by (apply forallb_forall; done).
          destruct (Z.leb_spec maxSize 0) as [Hm|]; [|done].
          unfold pruneMapToMaxSize. by destruct (Z.leb_spec (Z.max 0 maxSize) 0); [|lia]. }
    assert (rev (pruneMapToMaxSize (List.filter f (touch cache k now)) maxSize) =
      take (Z.to_nat maxSize) (List.filter f L)) as Hrev.
    { rewrite pruneMapToMaxSize_rev, rev_filter. done. }
    split; try done.
    + by apply pruneMapToMaxSize_wf, owf_filter.
    + rewrite Hrev. by apply byTime_take, byTime_filter.
    + by apply byTime_take.
    + apply Forall_app. split; [|done].
      rewrite <- (rev_involutive (pruneMapToMaxSize _ _)), Hrev. apply Forall_rev, Forall_take.
      unfold L. rewrite Forall_forall in *. intros x Hx. apply Hp.
      apply list_elem_of_In in Hx. apply filter_In in Hx as [Hx _]. apply list_elem_of_In.
      by apply in_rev.
    + assert (0 <= maxSize) by (unfold maxSize; lia).
      pose proof (pruneMapToMaxSize_size (List.filter f (touch cache k now)) maxSize). lia.
    + rewrite Hrev. unfold M. rewrite !fresh_take by (done || by apply byTime_filter).
      rewrite filter_implied by done. by rewrite HF.
Qed.

Lemma fresh_hit now k t : fresh now (k, t) = negb ((0 <? ttlMs) && (ttlMs <=? now - t)).
Proof. unfold fresh. cbn. destruct (0 <? ttlMs); cbn; [lia|done]. Qed.

Lemma dedupe_step now cache seen op :
  sim now cache seen →
  (dedupeStep cache (now, op)).2 = remembered seen (now, op) ∧
  sim now (dedupeStep cache (now, op)).1 (seenStep seen (now, op)).
Proof.
  intros Hs. destruct op as [[[|c k']|]|[[|c k']|]|[[|c k']|]|]; try by split.
  - set (k := String c k'). cbn [dedupeStep seenStep remembered]. unfold check, hasUnexpired.
    fold k. pose proof (sim_lookup now cache seen k Hs) as Hl.
    destruct (sim_touch now cache seen k Hs) as [Hhit Hmiss].
    destruct (oget cache k) as [t|] eqn:E; [|by rewrite Hl].
    rewrite fresh_hit in Hl. destruct (_ && _); cbn [negb] in Hl; rewrite Hl.
    + split; [done|]. cbn [fst].
      replace (touch (odel cache k) k now) with (touch cache k now); [done|].
      unfold touch, odel. f_equal. symmetry. by apply filter_implied.
    + split; [done|]. by apply Hhit.
  - set (k := String c k'). cbn [dedupeStep seenStep remembered]. unfold peek, hasUnexpired.
    fold k. pose proof (sim_lookup now cache seen k Hs) as Hl.
    destruct (oget cache k) as [t|] eqn:E; [|by rewrite Hl].
    rewrite fresh_hit in Hl. destruct (_ && _); cbn [negb] in Hl; rewrite Hl; [|by split].
    split; [done|]. cbn [fst]. pose proof (sim_odel now cache seen k Hs) as [H1 H2 H3 H4 H5 H7 H6].
    rewrite forget_not_fresh in H6 by done. split; try done; try apply Hs.
    apply Forall_app. split; [by apply Forall_app in H4 as [? _]|].
    pose proof (sim_past _ _ _ Hs) as Hp. by apply Forall_app in Hp as [_ ?].
  - split; [done|]. by apply sim_odel.
  - split; [done|]. cbn. split; try constructor; cbn; lia.
Qed.

End cache.

(** The de-duplication cache is exactly a bounded memory of recent keys. Over
    any sequence of checks, peeks, deletions and clears at times that do not go
    back, [check] and [peek] answer true precisely when the key was checked less
    than [ttlMs] ago and is among the [maxSize] keys checked last; evictions and
    lazy expiry are never observable otherwise. *)
Lemma dedupe_refines_recent_memory (options : DedupeCacheOptions) (ops : list (Z * Op)) (t0 now : Z)
    (op : Op) :
  StronglySorted Z.le (t0 :: map fst ops ++ [now]) →
  (dedupeStep options (runOps options [] ops) (now, op)).2 =
    remembered options (seenAfter options [] ops) (now, op) ∧
  Z.of_nat (osize (runOps options [] ops)) <= Z.max 0 (optMaxSize options).
Proof.
  assert (∀ cache seen t, sim options t cache seen → StronglySorted Z.le (t :: map fst ops ++ [now]) →
    sim options now (runOps options cache ops) (seenAfter options seen ops)) as Hrun.
  { induction ops as [|[t1 op1] ops IH]; intros cache seen t Hs Hsorted; cbn [map app fst] in Hsorted;
      inversion Hsorted as [|? ? Hs' Hle]; subst; inversion Hle as [|? ? Ht _]; subst.
    - by eapply sim_mono.
    - apply IH with (t := t1); [|done]. apply dedupe_step. by eapply sim_mono. }
  intros Hsorted. assert (sim options t0 [] []) as Hs by (split; try constructor; cbn; lia).
  specialize (Hrun [] [] t0 Hs Hsorted). split; [by apply dedupe_step|].
  pose proof (sim_size _ _ _ _ Hrun) as Hsz. unfold maxSize in Hsz. lia.
Qed.

Definition twoKeys : DedupeCacheOptions := mkOptions 100 2.

(** [a] is evicted by two later keys, [b] expires, [c] is remembered. *)
Lemma dedupe_refines_recent_memory_witness :
  let ops := [(0, Check (Some "a")); (10, Check (Some "b")); (60, Check (Some "c"))] in
  (dedupeStep twoKeys (runOps twoKeys [] ops) (110, Peek (Some "c"))).2 = true ∧
  (dedupeStep twoKeys (runOps twoKeys [] ops) (110, Peek (Some "c"))).2 =
    remembered twoKeys (seenAfter twoKeys [] ops) (110, Peek (Some "c")) ∧
  (dedupeStep twoKeys (runOps twoKeys [] ops) (110, Peek (Some "b"))).2 = false ∧
  (dedupeStep twoKeys (runOps twoKeys [] ops) (50, Peek (Some "a"))).2 = false.
Proof.
  intros ops. split; [reflexivity|]. split; [|split; reflexivity].
  apply (dedupe_refines_recent_memory twoKeys ops 0 110). repeat constructor; cbn; lia.
Defined.

End Dedupe.
