(* ===== verification/QueueHelpers.v ===== *)
(** * Shared queue helpers: src/utils/queue-helpers.ts

    A queue of waiting items with a cap: what happens on overflow, the summary of
    what was dropped, and the prompts built from a batch of items. Caps, counts
    and delays are integers, as the configuration schema and the directive parser
    make them. *)

From S2P Require Import Prelude.

Module QueueHelpers.

Inductive QueueDropPolicy := DropSummarize | DropOld | DropNew.
#[export] Instance QueueDropPolicy_eq_dec : EqDecision QueueDropPolicy.
Proof. solve_decision. Defined.

(** [QueueState]: the summary state, the items and the cap. *)
Record QueueState (T : Type) := mkQueueState {
  dropPolicy : QueueDropPolicy;
  droppedCount : nat;
  summaryLines : list string;
  items : list T;
  cap : Z;
}.
Arguments mkQueueState {T} _ _ _ _ _.
Arguments dropPolicy {T} _.
Arguments droppedCount {T} _.
Arguments summaryLines {T} _.
Arguments items {T} _.
Arguments cap {T} _.

Section queue.
Context {T : Type}.
(** The character U+2026, whose code unit is outside the represented range. *)
Context (ELLIPSIS : string).
Implicit Types (q : QueueState T).

Definition set_items q (l : list T) : QueueState T :=
  mkQueueState (dropPolicy q) (droppedCount q) (summaryLines q) l (cap q).

Definition clearQueueSummaryState q : QueueState T :=
  mkQueueState (dropPolicy q) 0 [] (items q) (cap q).

(** [text.slice(0, n)] is [str_take]; a negative bound is raised to 0. *)
Definition elideQueueText (text : string) (limit : Z) : string :=
  if Z.of_nat (String.length text) <=? limit then text
  else trim_end (str_take (Z.to_nat (Z.max 0 (limit - 1))) text) +:+ ELLIPSIS.

(** [text.replace(/\s+/g, SP)]: every run of white space becomes one space. *)
Fixpoint collapse_ws_from (in_ws : bool) (s : string) : string :=
  match s with
  | EmptyString => EmptyString
  | String c s' =>
      if is_ws c then
        (if in_ws then collapse_ws_from true s' else String (Ascii.ascii_of_nat 32) (collapse_ws_from true s'))
      else String c (collapse_ws_from false s')
  end.
Definition collapse_ws (s : string) : string := collapse_ws_from false s.

Definition buildQueueSummaryLine (text : string) (limit : Z) : string :=
  elideQueueText (trim (collapse_ws text)) limit.

Definition shouldSkipQueueItem (item : T) (l : list T) (dedupe : option (T → list T → bool)) : bool :=
  match dedupe with None => false | Some f => f item l end.

(** Dropping from the front until [limit] lines are left. *)
Definition shiftTo (limit : Z) (l : list string) : list string :=
  drop (length l - Z.to_nat limit) l.

(** The queue, whether the new item may be queued, and the items dropped. *)
Definition applyQueueDropPolicy q (summarize : T → string) (summaryLimit : option Z)
    : QueueState T * bool * list T :=
  let len := Z.of_nat (length (items q)) in
  if (cap q <=? 0) || (len <? cap q) then (q, true, [])
  else match dropPolicy q with
       | DropNew => (q, false, [])
       | policy =>
           let dropCount := Z.to_nat (len - cap q + 1) in
           let dropped := take dropCount (items q) in
           let q1 := set_items q (drop dropCount (items q)) in
           let q2 :=
             match policy with
             | DropSummarize =>
                 mkQueueState (dropPolicy q1) (droppedCount q1 + length dropped)
                   (shiftTo (Z.max 0 (summaryLimit ?? cap q))
                      (summaryLines q1 ++ map (λ i, buildQueueSummaryLine (summarize i) 160) dropped))
                   (items q1) (cap q1)
             | _ => q1
             end in
           (q2, true, dropped)
       end.

Definition nl : string := String (Ascii.ascii_of_nat 10) EmptyString.

(** [buildQueueSummaryPrompt]: the text, and the queue with its summary cleared. *)
Definition buildQueueSummaryPrompt q (noun : string) (title : option string)
    : option string * QueueState T :=
  if negb (bool_decide (dropPolicy q = DropSummarize)) || (droppedCount q =? 0)%nat
  then (None, q)
  else
    let plural := if (droppedCount q =? 1)%nat then EmptyString else "s"%string in
    let head := title ?? ("[Queue overflow] Dropped " +:+ pretty (droppedCount q) +:+ " " +:+ noun
                          +:+ plural +:+ " due to cap.") in
    let lines := head :: (match summaryLines q with
                          | [] => []
                          | l => "Summary:"%string :: map (λ x, "- " +:+ x) l
                          end) in
    (Some (join_with nl lines), clearQueueSummaryState q).

(** [previewQueueSummaryPrompt] works on a copy of the summary state. *)
Definition previewQueueSummaryPrompt q (noun : string) (title : option string) : option string :=
  (buildQueueSummaryPrompt q noun title).1.

Definition buildCollectPrompt (title : string) (l : list T) (summary : option string)
    (renderItem : T → nat → string) : string :=
  join_with (nl +:+ nl)
    (title :: (match summary with Some (String _ _ as x) => [x] | _ => [] end)
       ++ imap (λ i x, renderItem x i) l).

(** A key that is absent or empty is unkeyed; the set holds the others. *)
Definition hasCrossChannelItems (l : list T) (resolveKey : T → bool * option string) : bool :=
  let resolved := map resolveKey l in
  let keys := filter_map (λ r, match r.2 with Some (String _ _ as k) => Some k | _ => None end) resolved in
  let hasUnkeyed := existsb (λ r, negb (ostr_truthy r.2)) resolved in
  if existsb fst resolved then true
  else match keys with
       | [] => false
       | k :: rest => hasUnkeyed || negb (forallb (String.eqb k) rest)
       end.

(** ** The bounds of a queue *)

Lemma shiftTo_length limit l : 0 <= limit → Z.of_nat (length (shiftTo limit l)) <= limit.
Proof. intros. unfold shiftTo. rewrite length_drop. lia. Qed.

(** After the policy was applied there is room for one item, and what was dropped
    is the front of the queue. *)
Lemma applyQueueDropPolicy_spec q summarize limit :
  let '(q', ok, dropped) := applyQueueDropPolicy q summarize limit in
  items q = dropped ++ items q' ∧ cap q' = cap q ∧ dropPolicy q' = dropPolicy q ∧
  (ok = true → 0 < cap q → Z.of_nat (length (items q')) < cap q) ∧
  (ok = false → q' = q ∧ dropped = []) ∧
  (dropped = [] → q' = q) ∧
  (dropPolicy q = DropSummarize →
     droppedCount q' = (droppedCount q + length dropped)%nat).
Proof.
  unfold applyQueueDropPolicy.
  destruct ((cap q <=? 0) || (Z.of_nat (length (items q)) <? cap q)) eqn:E.
  { apply orb_true_iff in E. rewrite Nat.add_0_r. repeat split; try done. lia. }
  apply orb_false_iff in E as [E1%Z.leb_gt E2%Z.ltb_ge].
  set (n := Z.to_nat (Z.of_nat (length (items q)) - cap q + 1)).
  assert (take n (items q) ≠ []) as Hne.
  { intros Hn. apply (f_equal length) in Hn. rewrite length_take in Hn. cbn in Hn. lia. }
  destruct (dropPolicy q) eqn:Ep; cbn [items cap dropPolicy droppedCount set_items];
    rewrite ?take_drop, ?Nat.add_0_r; repeat split; try done; intros; try done; rewrite length_drop; lia.
Qed.

Lemma preview_none q noun title :
  droppedCount q = 0%nat → previewQueueSummaryPrompt q noun title = None.
Proof.
  unfold previewQueueSummaryPrompt, buildQueueSummaryPrompt. intros ->. by rewrite orb_true_r.
Qed.

End queue.
End QueueHelpers.
