(* ===== verification/FollowupQueue.v ===== *)
(** * Follow-up messages: src/auto-reply/reply/queue

    Messages that arrive while an agent is busy wait in a queue per session key
    (state.ts, enqueue.ts) and are handed on by a drain (drain.ts). A queue is an
    object that the map of queues and the drains share, so the model has a heap of
    queue objects. A drain is an asynchronous loop: it is a record with the point
    at which it is suspended, and every continuation after an [await] is a step,
    so that calls interleave with it as they do in the event loop. *)

From S2P Require Import Prelude OMap Dedupe QueueHelpers.

Module FollowupQueue.
Import StringCoerce QueueHelpers.

(** ** types.ts *)

Inductive QueueMode := Steer | Followup | Collect | SteerBacklog | Interrupt | QueueMode_queue.
#[export] Instance QueueMode_eq_dec : EqDecision QueueMode.
Proof. solve_decision. Defined.

Record QueueSettings := mkSettings {
  set_mode : QueueMode;
  set_debounceMs : option Z;
  set_cap : option Z;
  set_dropPolicy : option QueueDropPolicy;
}.

Inductive QueueDedupeMode := DedupeMessageId | DedupePrompt | DedupeNone.
#[export] Instance QueueDedupeMode_eq_dec : EqDecision QueueDedupeMode.
Proof. solve_decision. Defined.

Inductive ThreadId := ThreadStr (s : string) | ThreadNum (n : Z).
#[export] Instance ThreadId_eq_dec : EqDecision ThreadId.
Proof. solve_decision. Defined.

(** [item.originatingThreadId != null && item.originatingThreadId !== ''] *)
Definition thread_given (t : option ThreadId) : bool :=
  match t with None | Some (ThreadStr EmptyString) => false | Some _ => true end.

(** [String(threadId)] *)
Definition thread_string (t : ThreadId) : string :=
  match t with ThreadStr s => s | ThreadNum n => pretty n end.

Inductive ProfileSource := SourceAuto | SourceUser.

(** [FollowupRun.run]: the fields that the queue reads or rewrites. *)
Record Run := mkRun {
  run_sessionId : string;
  run_sessionFile : string;
  run_provider : string;
  run_model : string;
  run_authProfileId : option string;
  run_authProfileIdSource : option ProfileSource;
}.

Record FollowupRun := mkFollowup {
  fr_prompt : string;
  fr_messageId : option string;
  fr_summaryLine : option string;
  fr_enqueuedAt : Z;
  fr_channel : option string;
  fr_to : option string;
  fr_accountId : option string;
  fr_threadId : option ThreadId;
  fr_run : Run;
}.

(** ** normalize.ts and settings.ts *)

Definition normalizeQueueMode (raw : option string) : option QueueMode :=
  match normalizeOptionalLowercaseString raw with
  | None => None
  | Some cleaned =>
      let isw s := String.eqb cleaned s in
      if isw "queue" || isw "queued" then Some Steer
      else if isw "interrupt" || isw "interrupts" || isw "abort" then Some Interrupt
      else if isw "steer" || isw "steering" then Some Steer
      else if isw "followup" || isw "follow-ups" || isw "followups" then Some Followup
      else if isw "collect" || isw "coalesce" then Some Collect
      else if isw "steer+backlog" || isw "steer-backlog" || isw "steer_backlog" then Some SteerBacklog
      else None
  end%string.

Definition normalizeQueueDropPolicy (raw : option string) : option QueueDropPolicy :=
  match normalizeOptionalLowercaseString raw with
  | None => None
  | Some cleaned =>
      let isw s := String.eqb cleaned s in
      if isw "old" || isw "oldest" then Some DropOld
      else if isw "new" || isw "newest" then Some DropNew
      else if isw "summarize" || isw "summary" then Some DropSummarize
      else None
  end%string.

Definition DEFAULT_QUEUE_DEBOUNCE_MS : Z := 1000.
Definition DEFAULT_QUEUE_CAP : Z := 20.
Definition DEFAULT_QUEUE_DROP : QueueDropPolicy := DropSummarize.

(** The configuration [cfg.messages.queue] and the session entry. *)
Record QueueConfig := mkQueueConfig {
  qc_mode : option string;
  qc_byChannel : option (omap string string);
  qc_debounceMs : option Z;
  qc_debounceMsByChannel : option (omap string Z);
  qc_cap : option Z;
  qc_drop : option string;
}.
Record SessionQueueEntry := mkSessionEntry {
  se_queueMode : option string;
  se_queueDebounceMs : option Z;
  se_queueCap : option Z;
  se_queueDrop : option QueueDropPolicy;
}.
Record InlineOptions := mkInline {
  in_debounceMs : option Z;
  in_cap : option Z;
  in_dropPolicy : option QueueDropPolicy;
}.

Definition opt_or {A} (a b : option A) : option A := match a with Some _ => a | None => b end.

Definition resolveChannelDebounce (byChannel : option (omap string Z)) (channelKey : option string)
    : option Z :=
  match channelKey, byChannel with
  | Some (String _ _ as k), Some m => Z.max 0 <$> oget m k
  | _, _ => None
  end.

Definition resolveQueueSettings (queueCfg : option QueueConfig) (channel : option string)
    (sessionEntry : option SessionQueueEntry) (inlineMode : option QueueMode)
    (inlineOptions : option InlineOptions) (pluginDebounceMs : option Z) : QueueSettings :=
  let channelKey := normalizeOptionalLowercaseString channel in
  let providerModeRaw :=
    match channelKey, queueCfg ≫= qc_byChannel with
    | Some (String _ _ as k), Some m => oget m k
    | _, _ => None
    end in
  let resolvedMode :=
    opt_or inlineMode
      (opt_or (normalizeQueueMode (sessionEntry ≫= se_queueMode))
        (opt_or (normalizeQueueMode providerModeRaw)
          (normalizeQueueMode (queueCfg ≫= qc_mode)))) ?? Collect in
  let debounce :=
    opt_or (inlineOptions ≫= in_debounceMs)
      (opt_or (sessionEntry ≫= se_queueDebounceMs)
        (opt_or (resolveChannelDebounce (queueCfg ≫= qc_debounceMsByChannel) channelKey)
          (opt_or pluginDebounceMs (queueCfg ≫= qc_debounceMs)))) ?? DEFAULT_QUEUE_DEBOUNCE_MS in
  let capRaw :=
    opt_or (inlineOptions ≫= in_cap)
      (opt_or (sessionEntry ≫= se_queueCap) (queueCfg ≫= qc_cap)) ?? DEFAULT_QUEUE_CAP in
  let dropRaw :=
    opt_or (inlineOptions ≫= in_dropPolicy)
      (opt_or (sessionEntry ≫= se_queueDrop)
        (normalizeQueueDropPolicy (queueCfg ≫= qc_drop))) ?? DEFAULT_QUEUE_DROP in
  mkSettings resolvedMode (Some (Z.max 0 debounce)) (Some (Z.max 1 capRaw)) (Some dropRaw).

(** ** state.ts *)

Record FollowupQueueState := mkQueue {
  fq : QueueState FollowupRun;
  draining : bool;
  lastEnqueuedAt : Z;
  mode : QueueMode;
  debounceMs : Z;
  lastRun : option Run;
}.

Definition set_fq (q : FollowupQueueState) (x : QueueState FollowupRun) : FollowupQueueState :=
  mkQueue x (draining q) (lastEnqueuedAt q) (mode q) (debounceMs q) (lastRun q).
Definition set_draining (q : FollowupQueueState) (b : bool) : FollowupQueueState :=
  mkQueue (fq q) b (lastEnqueuedAt q) (mode q) (debounceMs q) (lastRun q).
Definition set_lastEnqueuedAt (q : FollowupQueueState) (t : Z) : FollowupQueueState :=
  mkQueue (fq q) (draining q) t (mode q) (debounceMs q) (lastRun q).
Definition set_lastRun (q : FollowupQueueState) (r : option Run) : FollowupQueueState :=
  mkQueue (fq q) (draining q) (lastEnqueuedAt q) (mode q) (debounceMs q) r.

(** [applyQueueRuntimeSettings] of queue-helpers.ts. *)
Definition applyQueueRuntimeSettings (q : FollowupQueueState) (s : QueueSettings) : FollowupQueueState :=
  let x := fq q in
  let newCap := match set_cap s with Some c => if 0 <? c then c else cap x | None => cap x end in
  mkQueue (mkQueueState (set_dropPolicy s ?? dropPolicy x) (droppedCount x) (summaryLines x) (items x) newCap)
    (draining q) (lastEnqueuedAt q) (set_mode s)
    (match set_debounceMs s with Some d => Z.max 0 d | None => debounceMs q end) (lastRun q).

Definition freshQueue (s : QueueSettings) : FollowupQueueState :=
  mkQueue
    (mkQueueState (set_dropPolicy s ?? DEFAULT_QUEUE_DROP) 0 [] []
       (match set_cap s with Some c => if 0 <? c then c else DEFAULT_QUEUE_CAP | None => DEFAULT_QUEUE_CAP end))
    false 0 (set_mode s)
    (match set_debounceMs s with Some d => Z.max 0 d | None => DEFAULT_QUEUE_DEBOUNCE_MS end) None.

(** *** The process-wide state

    [heap] holds the queue objects, by position; [queues] is [FOLLOWUP_QUEUES],
    [callbacks] is [FOLLOWUP_RUN_CALLBACKS] (a callback is a number), [recent] is
    [RECENT_QUEUE_MESSAGE_IDS]. *)

(** Where a drain is suspended. *)
Inductive Point :=
| PDebounce (debounce : Z)          (* waitForQueueDebounce *)
| PSkipped                          (* drainCollectQueueStep answered skipped *)
| PItem (carried : FollowupRun)     (* an item is being run, alone *)
| PSummary (head : FollowupRun)     (* the overflow summary is being run *)
| PBatch (carried : list FollowupRun) (hasSummary : bool)
| PLoop                             (* the item was shifted; the loop goes on *)
| PClearSummary                     (* as PLoop, the summary is cleared first *)
| PBreak.                           (* the queue was found empty *)

Record Drain := mkDrain {
  d_key : string;
  d_queue : nat;
  d_cb : nat;
  d_force : bool;                   (* collectState.forceIndividualCollect *)
  d_at : Point;
}.
Definition at_point (d : Drain) (force : bool) (p : Point) : Drain :=
  mkDrain (d_key d) (d_queue d) (d_cb d) force p.

Inductive Observation :=
| Accepted (key : string) (run : FollowupRun)
| Dropped (key : string) (runs : list FollowupRun)
| Called (drain : nat) (cb : nat) (run : FollowupRun)
| Consumed (key : string) (runs : list FollowupRun)   (* carried by a run that succeeded *)
| Cleared (key : string).

Record State := mkState {
  heap : list FollowupQueueState;
  queues : omap string nat;
  callbacks : omap string nat;
  recent : Dedupe.Cache;
  drains : omap nat Drain;
  nextDrain : nat;
  log : list Observation;
}.
Definition initState : State := mkState [] [] [] [] [] 0 [].

Definition set_queue (s : State) (oid : nat) (q : FollowupQueueState) : State :=
  mkState (<[oid := q]> (heap s)) (queues s) (callbacks s) (recent s) (drains s) (nextDrain s) (log s).
Definition set_queues (s : State) (m : omap string nat) : State :=
  mkState (heap s) m (callbacks s) (recent s) (drains s) (nextDrain s) (log s).
Definition set_callbacks (s : State) (m : omap string nat) : State :=
  mkState (heap s) (queues s) m (recent s) (drains s) (nextDrain s) (log s).
Definition set_recent (s : State) (c : Dedupe.Cache) : State :=
  mkState (heap s) (queues s) (callbacks s) c (drains s) (nextDrain s) (log s).
Definition set_drains (s : State) (m : omap nat Drain) : State :=
  mkState (heap s) (queues s) (callbacks s) (recent s) m (nextDrain s) (log s).
Definition emit (s : State) (e : Observation) : State :=
  mkState (heap s) (queues s) (callbacks s) (recent s) (drains s) (nextDrain s) (log s ++ [e]).

(** [getFollowupQueue]: the object of the queue. *)
Definition getFollowupQueue (s : State) (key : string) (settings : QueueSettings) : State * nat :=
  match oget (queues s) key with
  | Some oid =>
      match heap s !! oid with
      | Some q => (set_queue s oid (applyQueueRuntimeSettings q settings), oid)
      | None => (s, oid)
      end
  | None =>
      let created := applyQueueRuntimeSettings (freshQueue settings) settings in
      let oid := length (heap s) in
      (mkState (heap s ++ [created]) (oset (queues s) key oid) (callbacks s) (recent s) (drains s)
         (nextDrain s) (log s), oid)
  end.

Definition getExistingFollowupQueue (s : State) (key : string) : option (nat * FollowupQueueState) :=
  let cleaned := trim key in
  if negb (str_truthy cleaned) then None
  else oget (queues s) cleaned ≫= λ oid, pair oid <$> heap s !! oid.

Definition getFollowupQueueDepth (s : State) (key : string) : nat :=
  match getExistingFollowupQueue s key with Some (_, q) => length (items (fq q)) | None => 0 end.

(** [clearFollowupQueue] empties the object, which a drain may still hold. *)
Definition clearFollowupQueue (s : State) (key : string) : State * nat :=
  let cleaned := trim key in
  match getExistingFollowupQueue s cleaned with
  | None => (s, 0%nat)
  | Some (oid, q) =>
      let cleared := (length (items (fq q)) + droppedCount (fq q))%nat in
      let x := fq q in
      let q' := mkQueue (mkQueueState (dropPolicy x) 0 [] [] (cap x)) (draining q) 0 (mode q)
                  (debounceMs q) None in
      let s1 := set_queue s oid q' in
      (emit (set_queues s1 (odel (queues s1) cleaned)) (Cleared cleaned), cleared)
  end.

(** [refreshQueuedFollowupSession]: a field of the parameters that is absent is
    [None], one that is present and undefined [Some None]. *)
Record RefreshParams := mkRefresh {
  rp_previousSessionId : option string;
  rp_nextSessionId : option string;
  rp_nextSessionFile : option string;
  rp_nextProvider : option string;
  rp_nextModel : option string;
  rp_nextAuthProfileId : option (option string);
  rp_nextAuthProfileIdSource : option (option ProfileSource);
}.

Definition given {A} (o : option A) : bool := match o with Some _ => true | None => false end.

Definition shouldRewriteSession (p : RefreshParams) : bool :=
  ostr_truthy (rp_previousSessionId p) && ostr_truthy (rp_nextSessionId p) &&
  negb (bool_decide (rp_previousSessionId p = rp_nextSessionId p)).
Definition shouldRewriteSelection (p : RefreshParams) : bool :=
  given (rp_nextProvider p) || given (rp_nextModel p) ||
  given (rp_nextAuthProfileId p) || given (rp_nextAuthProfileIdSource p).

Definition rewriteRun (p : RefreshParams) (r : Run) : Run :=
  let r1 :=
    if shouldRewriteSession p && bool_decide (Some (run_sessionId r) = rp_previousSessionId p)
    then mkRun (rp_nextSessionId p ?? run_sessionId r)
           (normalizeOptionalString (rp_nextSessionFile p) ?? run_sessionFile r)
           (run_provider r) (run_model r) (run_authProfileId r) (run_authProfileIdSource r)
    else r in
  if shouldRewriteSelection p then
    let profile := match rp_nextAuthProfileId p with
                   | Some v => normalizeOptionalString v | None => run_authProfileId r1 end in
    mkRun (run_sessionId r1) (run_sessionFile r1) (rp_nextProvider p ?? run_provider r1)
      (rp_nextModel p ?? run_model r1) profile
      (match rp_nextAuthProfileIdSource p with
       | Some source => if ostr_truthy profile then source else None
       | None => run_authProfileIdSource r1
       end)
  else r1.

Definition set_run (i : FollowupRun) (r : Run) : FollowupRun :=
  mkFollowup (fr_prompt i) (fr_messageId i) (fr_summaryLine i) (fr_enqueuedAt i) (fr_channel i)
    (fr_to i) (fr_accountId i) (fr_threadId i) r.

Definition refreshQueuedFollowupSession (s : State) (key : string) (p : RefreshParams) : State :=
  let cleaned := trim key in
  if negb (str_truthy cleaned) then s
  else match getExistingFollowupQueue s cleaned with
       | None => s
       | Some (oid, q) =>
           if negb (shouldRewriteSession p) && negb (shouldRewriteSelection p) then s
           else
             let q1 := set_lastRun q (rewriteRun p <$> lastRun q) in
             set_queue s oid
               (set_fq q1 (set_items (fq q1) (map (λ i, set_run i (rewriteRun p (fr_run i))) (items (fq q1)))))
       end.

(** ** drain.ts *)

Section drain.
(** The registry of channels ([isRoutableChannel] of route-reply.ts), and the
    ellipsis of [elideQueueText]. *)
Context (isRoutableChannel : option string → bool) (ELLIPSIS : string).

Definition rememberFollowupDrainCallback (s : State) (key : string) (cb : nat) : State :=
  set_callbacks s (oset (callbacks s) key cb).
Definition clearFollowupDrainCallback (s : State) (key : string) : State :=
  set_callbacks s (odel (callbacks s) key).

Definition truthy (s : option string) : bool := ostr_truthy s.

(** [items.find((item) => item.field)?.field] *)
Definition first_truthy (f : FollowupRun → option string) (l : list FollowupRun) : option string :=
  List.find truthy (map f l) ≫= id.

Record OriginRouting := mkRouting {
  or_channel : option string;
  or_to : option string;
  or_accountId : option string;
  or_threadId : option ThreadId;
}.

Definition resolveOriginRoutingMetadata (l : list FollowupRun) : OriginRouting :=
  mkRouting (first_truthy fr_channel l) (first_truthy fr_to l) (first_truthy fr_accountId l)
    (List.find thread_given (map fr_threadId l) ≫= id).

(** [cross] and [key]. *)
Definition resolveCrossChannelKey (i : FollowupRun) : bool * option string :=
  if negb (truthy (fr_channel i)) && negb (truthy (fr_to i)) && negb (truthy (fr_accountId i))
     && negb (thread_given (fr_threadId i))
  then (false, None)
  else if negb (isRoutableChannel (fr_channel i)) || negb (truthy (fr_to i)) then (true, None)
  else
    let threadKey := match fr_threadId i with
                     | Some t => if thread_given (Some t) then thread_string t else EmptyString
                     | None => EmptyString end in
    (false, Some (join_with "|" [fr_channel i ?? EmptyString; fr_to i ?? EmptyString;
                                 fr_accountId i ?? EmptyString; threadKey])).

Definition loopCondition (q : FollowupQueueState) : bool :=
  negb (bool_decide (items (fq q) = [])) || (0 <? droppedCount (fq q))%nat.

(** The part of [finally] for a queue that is empty. *)
Definition finishEmpty (s : State) (key : string) (oid : nat) (q : FollowupQueueState) : State :=
  let s1 := set_queue s oid (set_draining q false) in
  clearFollowupDrainCallback (set_queues s1 (odel (queues s1) key)) key.

(** [scheduleFollowupDrain], up to the first [await] of the loop. *)
Definition scheduleFollowupDrain (s : State) (key : string) (runFollowup : nat) : State :=
  match oget (queues s) key with
  | None => s
  | Some oid =>
      match heap s !! oid with
      | None => s
      | Some q =>
          if draining q then s
          else
            let effective := oget (callbacks s) key ?? runFollowup in
            let q1 := set_draining q true in
            let s1 := rememberFollowupDrainCallback (set_queue s oid q1) key effective in
            if loopCondition q1 then
              let d := mkDrain key oid effective false (PDebounce (Z.max 0 (debounceMs q1))) in
              mkState (heap s1) (queues s1) (callbacks s1) (recent s1)
                (oset (drains s1) (nextDrain s1) d) (S (nextDrain s1)) (log s1)
            else finishEmpty s1 key oid q1
      end
  end.

Definition kickFollowupDrainIfIdle (s : State) (key : string) : State :=
  match oget (callbacks s) key with
  | None => s
  | Some cb => scheduleFollowupDrain s key cb
  end.

(** [finally] of the drain [id], which ends. *)
Definition finish (s : State) (id : nat) (d : Drain) (q : FollowupQueueState) : State :=
  let s1 := set_drains s (odel (drains s) id) in
  if negb (loopCondition q) then finishEmpty s1 (d_key d) (d_queue d) q
  else scheduleFollowupDrain (set_queue s1 (d_queue d) (set_draining q false)) (d_key d) (d_cb d).

Definition suspend (s : State) (id : nat) (d : Drain) : State := set_drains s (oset (drains s) id d).

(** The test of the [while] loop, and the [await] at the head of its body. *)
Definition loopHead (s : State) (id : nat) (d : Drain) (q : FollowupQueueState) : State :=
  if loopCondition q
  then suspend s id (at_point d (d_force d) (PDebounce (Z.max 0 (debounceMs q))))
  else finish s id d q.

Definition call (s : State) (id : nat) (d : Drain) (force : bool) (run : FollowupRun) (p : Point) : State :=
  suspend (emit s (Called id (d_cb d) run)) id (at_point d force p).

Definition summaryPromptOf (q : FollowupQueueState) : option string :=
  previewQueueSummaryPrompt (fq q) "message" None.

(** The run that carries an overflow summary, routed as the head of the queue. *)
Definition summaryRun (prompt : string) (run : Run) (head : FollowupRun) (now : Z) : FollowupRun :=
  mkFollowup prompt None None now (fr_channel head) (fr_to head) (fr_accountId head)
    (fr_threadId head) run.

(** The loop body after the debounce. *)
Definition bodyStart (s : State) (id : nat) (d : Drain) (q : FollowupQueueState) (now : Z) : State :=
  let l := items (fq q) in
  if bool_decide (mode q = Collect) then
    let isCrossChannel := hasCrossChannelItems l (resolveCrossChannelKey) in
    if negb (d_force d) && negb isCrossChannel then suspend s id (at_point d (d_force d) PSkipped)
    else
      let force := d_force d || isCrossChannel in
      match l with
      | [] => suspend s id (at_point d force PBreak)
      | next :: _ => call s id d force next (PItem next)
      end
  else
    match summaryPromptOf q with
    | Some prompt =>
        match lastRun q with
        | None => finish s id d q
        | Some run =>
            match l with
            | [] => suspend s id (at_point d (d_force d) PBreak)
            | head :: _ => call s id d (d_force d) (summaryRun prompt run head now) (PSummary head)
            end
        end
    | None =>
        match l with
        | [] => suspend s id (at_point d (d_force d) PBreak)
        | next :: _ => call s id d (d_force d) next (PItem next)
        end
    end.

(** The batch of [collect] mode. *)
Definition renderItem (i : FollowupRun) (idx : nat) : string :=
  trim ("---" +:+ nl +:+ "Queued #" +:+ pretty (S idx) +:+ nl +:+ fr_prompt i).

Definition batchRun (l : list FollowupRun) (summary : option string) (run : Run) (now : Z) : FollowupRun :=
  let routing := resolveOriginRoutingMetadata l in
  mkFollowup (buildCollectPrompt "[Queued messages while agent was busy]" l summary renderItem)
    None None now (or_channel routing) (or_to routing) (or_accountId routing) (or_threadId routing) run.

Definition bodyBatch (s : State) (id : nat) (d : Drain) (q : FollowupQueueState) (now : Z) : State :=
  let l := items (fq q) in
  let summary := summaryPromptOf q in
  match opt_or (fr_run <$> last l) (lastRun q) with
  | None => finish s id d q
  | Some run => call s id d (d_force d) (batchRun l summary run now) (PBatch l (given summary))
  end.

(** A continuation that does not wait for a run. *)
Definition resume (s : State) (id : nat) (now : Z) : State :=
  match oget (drains s) id with
  | None => s
  | Some d =>
      match heap s !! d_queue d with
      | None => s
      | Some q =>
          match d_at d with
          | PDebounce debounce =>
              if (debounce <=? 0) || (debounce <=? now - lastEnqueuedAt q)
              then bodyStart s id d q now else s
          | PSkipped => bodyBatch s id d q now
          | PLoop => loopHead s id d q
          | PClearSummary =>
              let q' := set_fq q (clearQueueSummaryState (fq q)) in
              loopHead (set_queue s (d_queue d) q') id d q'
          | PBreak => finish s id d q
          | PItem _ | PSummary _ | PBatch _ _ => s
          end
      end
  end.

(** The run the drain waits for resolves. *)
Definition runSucceeded (s : State) (id : nat) : State :=
  match oget (drains s) id with
  | None => s
  | Some d =>
      match heap s !! d_queue d with
      | None => s
      | Some q =>
          let shifted := set_fq q (set_items (fq q) (tail (items (fq q)))) in
          match d_at d with
          | PItem carried =>
              suspend (emit (set_queue s (d_queue d) shifted) (Consumed (d_key d) [carried]))
                id (at_point d (d_force d) PLoop)
          | PSummary _ =>
              suspend (set_queue s (d_queue d) shifted) id (at_point d (d_force d) PClearSummary)
          | PBatch carried hasSummary =>
              let spliced := set_items (fq q) (drop (length carried) (items (fq q))) in
              let q' := set_fq q (if hasSummary then clearQueueSummaryState spliced else spliced) in
              loopHead (emit (set_queue s (d_queue d) q') (Consumed (d_key d) carried)) id d q'
          | _ => s
          end
      end
  end.

(** The run the drain waits for rejects: [catch] and [finally]. *)
Definition runFailed (s : State) (id : nat) (now : Z) : State :=
  match oget (drains s) id with
  | None => s
  | Some d =>
      match heap s !! d_queue d with
      | None => s
      | Some q =>
          match d_at d with
          | PItem _ | PSummary _ | PBatch _ _ => finish s id d (set_lastEnqueuedAt q now)
          | _ => s
          end
      end
  end.

(** ** enqueue.ts *)

(** [JSON.stringify] of a list of strings. *)
Definition hex_digit (n : N) : Ascii.ascii :=
  Ascii.ascii_of_N (if (n <? 10)%N then 48 + n else 87 + n).
Definition json_char (c : Ascii.ascii) : string :=
  let n := Ascii.N_of_ascii c in
  let escaped x := String (Ascii.ascii_of_nat 92) (String x EmptyString) in
  if (n =? 34)%N || (n =? 92)%N then escaped c
  else if (n =? 8)%N then escaped (Ascii.ascii_of_nat 98)
  else if (n =? 9)%N then escaped (Ascii.ascii_of_nat 116)
  else if (n =? 10)%N then escaped (Ascii.ascii_of_nat 110)
  else if (n =? 12)%N then escaped (Ascii.ascii_of_nat 102)
  else if (n =? 13)%N then escaped (Ascii.ascii_of_nat 114)
  else if (n <? 32)%N then
    escaped (Ascii.ascii_of_nat 117) +:+ "00" +:+
      String (hex_digit (n / 16)) (String (hex_digit (n mod 16)) EmptyString)
  else String c EmptyString.
Fixpoint json_chars (s : string) : string :=
  match s with EmptyString => EmptyString | String c s' => json_char c +:+ json_chars s' end.
Definition dquote : string := String (Ascii.ascii_of_nat 34) EmptyString.
Definition json_string (s : string) : string := dquote +:+ json_chars s +:+ dquote.
Definition json_strings (l : list string) : string := "[" +:+ join_with "," (map json_string l) +:+ "]".

Definition RECENT : Dedupe.DedupeCacheOptions := Dedupe.mkOptions (5 * 60 * 1000) 10000.

Definition buildRecentMessageIdKey (run : FollowupRun) (queueKey : string) : option string :=
  match normalizeOptionalString (fr_messageId run) with
  | None => None
  | Some messageId =>
      Some (json_strings ["queue"%string; queueKey; fr_channel run ?? EmptyString; fr_to run ?? EmptyString;
        fr_accountId run ?? EmptyString; (thread_string <$> fr_threadId run) ?? EmptyString; messageId])
  end.

Definition hasSameRouting (run item : FollowupRun) : bool :=
  bool_decide (fr_channel item = fr_channel run) && bool_decide (fr_to item = fr_to run) &&
  bool_decide (fr_accountId item = fr_accountId run) && bool_decide (fr_threadId item = fr_threadId run).

Definition isRunAlreadyQueued (run : FollowupRun) (l : list FollowupRun) (allowPromptFallback : bool) : bool :=
  match normalizeOptionalString (fr_messageId run) with
  | Some messageId =>
      existsb (λ i, bool_decide (normalizeOptionalString (fr_messageId i) = Some messageId) &&
                    hasSameRouting run i) l
  | None =>
      allowPromptFallback &&
      existsb (λ i, String.eqb (fr_prompt i) (fr_prompt run) && hasSameRouting run i) l
  end.

Definition summarizeItem (i : FollowupRun) : string :=
  str_or (normalizeOptionalString (fr_summaryLine i) ?? EmptyString) (trim (fr_prompt i)).

Definition enqueueFollowupRun (s : State) (key : string) (run : FollowupRun) (settings : QueueSettings)
    (dedupeMode : QueueDedupeMode) (runFollowup : option nat) (restartIfIdle : bool) (now : Z)
    : State * bool :=
  let '(s1, oid) := getFollowupQueue s key settings in
  match heap s1 !! oid with
  | None => (s1, false)
  | Some q =>
      let recentKey :=
        if bool_decide (dedupeMode = DedupeNone) then None else buildRecentMessageIdKey run key in
      let '(recent1, seen) := Dedupe.peek RECENT (recent s1) recentKey now in
      let s2 := set_recent s1 recent1 in
      if seen then (s2, false)
      else
        let dedupe :=
          if bool_decide (dedupeMode = DedupeNone) then None
          else Some (λ i l, isRunAlreadyQueued i l (bool_decide (dedupeMode = DedupePrompt))) in
        if shouldSkipQueueItem run (items (fq q)) dedupe then (s2, false)
        else
          let q1 := set_lastRun (set_lastEnqueuedAt q now) (Some (fr_run run)) in
          let '(x, shouldEnqueue, dropped) :=
            applyQueueDropPolicy ELLIPSIS (fq q1) summarizeItem None in
          if negb shouldEnqueue then (set_queue s2 oid (set_fq q1 x), false)
          else
            let q2 := set_fq q1 (set_items x (items x ++ [run])) in
            let s3 := set_queue s2 oid q2 in
            let s4 := match dropped with [] => s3 | _ => emit s3 (Dropped key dropped) end in
            let s5 := emit s4 (Accepted key run) in
            let s6 := set_recent s5 (Dedupe.check RECENT (recent s5) recentKey now).1 in
            let s7 := match runFollowup with
                      | Some cb => rememberFollowupDrainCallback s6 key cb | None => s6 end in
            ((if restartIfIdle && negb (draining q2) then kickFollowupDrainIfIdle s7 key else s7), true)
  end.

(** ** The step relation *)

Inductive Input :=
| Enqueue (key : string) (run : FollowupRun) (settings : QueueSettings) (dedupeMode : QueueDedupeMode)
    (runFollowup : option nat) (restartIfIdle : bool) (now : Z)
| Schedule (key : string) (runFollowup : nat)
| Clear (key : string)
| ClearCallback (key : string)
| Refresh (key : string) (p : RefreshParams)
| Resume (drain : nat) (now : Z)
| RunSucceeded (drain : nat)
| RunFailed (drain : nat) (now : Z).

Definition step (s : State) (i : Input) : State :=
  match i with
  | Enqueue key run settings dedupeMode runFollowup restartIfIdle now =>
      (enqueueFollowupRun s key run settings dedupeMode runFollowup restartIfIdle now).1
  | Schedule key cb => scheduleFollowupDrain s key cb
  | Clear key => (clearFollowupQueue s key).1
  | ClearCallback key => clearFollowupDrainCallback s key
  | Refresh key p => refreshQueuedFollowupSession s key p
  | Resume id now => resume s id now
  | RunSucceeded id => runSucceeded s id
  | RunFailed id now => runFailed s id now
  end.

Definition steps (s : State) (inputs : list Input) : State := fold_left step inputs s.

(** ** What the queue guarantees *)

(** A message is a queued item without the run settings, which
    [refreshQueuedFollowupSession] rewrites. *)
Definition message (i : FollowupRun) :=
  (fr_prompt i, fr_messageId i, fr_channel i, fr_to i, fr_accountId i, fr_threadId i).

Definition accepted (k : string) (l : list Observation) :=
  flat_map (λ o, match o with
                 | Accepted k' r => if bool_decide (k = k') then [message r] else []
                 | _ => [] end) l.
Definition consumed (k : string) (l : list Observation) :=
  flat_map (λ o, match o with
                 | Consumed k' rs => if bool_decide (k = k') then map message rs else []
                 | _ => [] end) l.

(** No message was dropped and no queue was cleared. *)
Definition calm (l : list Observation) : bool :=
  forallb (λ o, match o with Dropped _ _ | Cleared _ => false | _ => true end) l.

Definition queued (s : State) (k : string) :=
  match oget (queues s) k ≫= λ oid, heap s !! oid with
  | Some q => map message (items (fq q))
  | None => []
  end.

(** [r] hands on the items [l]. *)
Definition carries (r : FollowupRun) (l : list FollowupRun) : Prop :=
  l = [r] ∨ ∃ summary run now, r = batchRun l summary run now.

(** The state of the objects and drains, whatever was dropped or cleared. *)
Record inv (s : State) : Prop := {
  i_wfd : owf (drains s);
  i_wfq : owf (queues s);
  i_obj k oid : oget (queues s) k = Some oid → ∃ q, heap s !! oid = Some q;
  i_inj k1 k2 oid : oget (queues s) k1 = Some oid → oget (queues s) k2 = Some oid → k1 = k2;
  i_fresh id d : oget (drains s) id = Some d → (id < nextDrain s)%nat;
  i_draining id d : oget (drains s) id = Some d →
    ∃ q, heap s !! d_queue d = Some q ∧ draining q = true;
  i_single id1 id2 d1 d2 : oget (drains s) id1 = Some d1 → oget (drains s) id2 = Some d2 →
    d_queue d1 = d_queue d2 → id1 = id2;
}.

Definition point_ok (p : Point) (l : list FollowupRun) : Prop :=
  match p with
  | PItem c => ∃ rest, map message l = message c :: rest
  | PBatch c _ => ∃ rest, map message l = map message c ++ rest
  | PSummary _ | PClearSummary => False
  | _ => True
  end.

(** As long as nothing was dropped or cleared. *)
Record calm_inv (s : State) : Prop := {
  c_key id d : oget (drains s) id = Some d → oget (queues s) (d_key d) = Some (d_queue d);
  c_dropped k oid q : oget (queues s) k = Some oid → heap s !! oid = Some q → droppedCount (fq q) = 0%nat;
  c_point id d q : oget (drains s) id = Some d → heap s !! d_queue d = Some q →
    point_ok (d_at d) (items (fq q));
  c_account k : accepted k (log s) = consumed k (log s) ++ queued s k;
}.

Definition good (s : State) : Prop := inv s ∧ (calm (log s) = true → calm_inv s).

(** The parts of the state the invariant speaks of. *)
Lemma good_ext s s' :
  heap s' = heap s → queues s' = queues s → drains s' = drains s → nextDrain s' = nextDrain s →
  log s' = log s → good s → good s'.
Proof.
  destruct s, s'; cbn. intros -> -> -> -> -> [Hi Hc].
  split; [by destruct Hi|]. intros Hl. by destruct (Hc Hl).
Qed.

Lemma good_init : good initState.
Proof. split; [split|intros _; split]; try constructor; done. Qed.

Lemma calm_app l o : calm (l ++ [o]) = true → calm l = true.
Proof. unfold calm. rewrite forallb_app. by intros [? _]%andb_true_iff. Qed.

Lemma accepted_app k l o : accepted k (l ++ [o]) = accepted k l ++ accepted k [o].
Proof. unfold accepted. by rewrite flat_map_app. Qed.
Lemma consumed_app k l o : consumed k (l ++ [o]) = consumed k l ++ consumed k [o].
Proof. unfold consumed. by rewrite flat_map_app. Qed.

(** Changing one queue object. *)
Lemma heap_set_queue s oid q q' i x :
  heap s !! oid = Some q → heap (set_queue s oid q') !! i = Some x →
  (i = oid ∧ x = q') ∨ (i ≠ oid ∧ heap s !! i = Some x).
Proof.
  intros Hq. cbn. destruct (decide (i = oid)) as [->|Hne].
  - rewrite list_lookup_insert_eq by (by eapply lookup_lt_Some). intros [= ->]. by left.
  - rewrite list_lookup_insert_ne by done. by right.
Qed.

Lemma heap_set_queue_eq s oid q q' :
  heap s !! oid = Some q → heap (set_queue s oid q') !! oid = Some q'.
Proof. intros Hq. cbn. apply list_lookup_insert_eq. by eapply lookup_lt_Some. Qed.

Lemma inv_set_queue s oid q q' :
  inv s → heap s !! oid = Some q → (draining q = true → draining q' = true) → inv (set_queue s oid q').
Proof.
  intros [H1 H2 H3 H4 H5 H6 H7] Hq Hd. split; try done.
  - intros k o Ho. destruct (decide (o = oid)) as [->|Hne]; [by eexists; eapply heap_set_queue_eq|].
    cbn. rewrite list_lookup_insert_ne by done. by eapply H3.
  - intros id d Hid. destruct (H6 id d Hid) as (x & Hx & Hxd).
    destruct (decide (d_queue d = oid)) as [He|Hne].
    + exists q'. rewrite He. split; [by eapply heap_set_queue_eq|]. apply Hd. congruence.
    + exists x. cbn. by rewrite list_lookup_insert_ne.
Qed.

Lemma queued_set_queue s oid q q' k :
  inv s → heap s !! oid = Some q →
  queued (set_queue s oid q') k =
    if bool_decide (oget (queues s) k = Some oid) then map message (items (fq q')) else queued s k.
Proof.
  intros Hi Hq. unfold queued. change (queues (set_queue s oid q')) with (queues s).
  case_bool_decide as He.
  - rewrite He. cbn [mbind option_bind]. by rewrite (heap_set_queue_eq s oid q).
  - destruct (oget (queues s) k) as [o|] eqn:Eo; [|done]. cbn.
    rewrite list_lookup_insert_ne; [done|congruence].
Qed.

(** The items keep their messages, the rest of the object may change. *)
Lemma calm_set_queue s oid q q' :
  inv s → calm_inv s → heap s !! oid = Some q →
  droppedCount (fq q') = droppedCount (fq q) → map message (items (fq q')) = map message (items (fq q)) →
  calm_inv (set_queue s oid q').
Proof.
  intros Hi [H1 H2 H3 H4] Hq Hd Hm. split; try done.
  - intros k o x Ho Hx. eapply heap_set_queue in Hx as [[-> ->]|[_ Hx]]; [|by eapply H2|done].
    rewrite Hd. by eapply H2.
  - intros id d x Hid Hx. eapply heap_set_queue in Hx as [[He ->]|[_ Hx]]; [|by eapply H3|done].
    rewrite <- He in Hq. specialize (H3 id d q Hid Hq). unfold point_ok in *. by rewrite Hm.
  - intros k. change (log (set_queue s oid q')) with (log s). rewrite H4, (queued_set_queue s oid q) by done.
    case_bool_decide as He; [|done]. unfold queued. rewrite He. cbn [mbind option_bind]. by rewrite Hq, Hm.
Qed.

Lemma good_set_queue s oid q q' :
  good s → heap s !! oid = Some q → (draining q = true → draining q' = true) →
  droppedCount (fq q') = droppedCount (fq q) → map message (items (fq q')) = map message (items (fq q)) →
  good (set_queue s oid q').
Proof.
  intros [Hi Hc] Hq Hd Hdc Hm. split; [by eapply inv_set_queue|].
  intros Hl. eapply calm_set_queue; eauto.
Qed.

(** Suspending a drain at another point. *)
Lemma inv_suspend s id d force p :
  inv s → oget (drains s) id = Some d → inv (suspend s id (at_point d force p)).
Proof.
  intros [H1 H2 H3 H4 H5 H6 H7] Hd.
  assert (∀ i x, oget (oset (drains s) id (at_point d force p)) i = Some x →
    ∃ y, oget (drains s) i = Some y ∧ d_queue x = d_queue y) as Hsame.
  { intros i x. rewrite oget_oset. case_decide; [intros [= <-]; subst; by exists d|by exists x]. }
  split; try done.
  - by apply owf_oset.
  - intros i x (y & Hy & _)%Hsame. by eapply H5.
  - intros i x (y & Hy & ->)%Hsame. by eapply H6.
  - intros i1 i2 x1 x2 (y1 & Hy1 & ->)%Hsame (y2 & Hy2 & ->)%Hsame. by apply (H7 i1 i2 y1 y2).
Qed.

Lemma calm_suspend s id d force p q :
  calm_inv s → oget (drains s) id = Some d → heap s !! d_queue d = Some q →
  point_ok p (items (fq q)) → calm_inv (suspend s id (at_point d force p)).
Proof.
  intros [H1 H2 H3 H4] Hd Hq Hp. split; try done.
  - intros i x. cbn. rewrite oget_oset. case_decide; [intros [= <-]; exact (H1 id d Hd)|apply H1].
  - intros i x y. cbn. rewrite oget_oset. case_decide; [intros [= <-]|apply H3].
    cbn. rewrite Hq. by intros [= <-].
Qed.

Lemma good_suspend s id d force p q :
  good s → oget (drains s) id = Some d → heap s !! d_queue d = Some q →
  (calm (log s) = true → calm_inv s → point_ok p (items (fq q))) →
  good (suspend s id (at_point d force p)).
Proof.
  intros [Hi Hc] Hd Hq Hp. split; [by apply inv_suspend|].
  intros Hl. eapply calm_suspend; eauto.
Qed.

(** A drain that ends. *)
Lemma good_odel s id : good s → good (set_drains s (odel (drains s) id)).
Proof.
  intros [[H1 H2 H3 H4 H5 H6 H7] Hc].
  assert (∀ i x, oget (odel (drains s) id) i = Some x → oget (drains s) i = Some x) as Hsub.
  { intros i x. rewrite oget_odel. by case_decide. }
  split.
  - split; try done; [by apply owf_odel|intros i x Hx%Hsub; by apply (H5 i x)|intros i x Hx%Hsub; by apply (H6 i x)|].
    intros i1 i2 x1 x2 Hx1%Hsub Hx2%Hsub. by apply (H7 i1 i2 x1 x2).
  - intros Hl. destruct (Hc Hl) as [C1 C2 C3 C4]. split; try done.
    + intros i x Hx%Hsub. by apply (C1 i x).
    + intros i x y Hx%Hsub Hy. by apply (C3 i x y).
Qed.

(** [finishEmpty] removes a queue that no drain holds. *)
Lemma good_finishEmpty s key oid q q' :
  good s → heap s !! oid = Some q → draining q' = draining q →
  (∀ id d, oget (drains s) id = Some d → d_queue d ≠ oid) →
  (calm (log s) = true → oget (queues s) key = Some oid ∧ items (fq q) = []) →
  good (finishEmpty s key oid q').
Proof.
  intros [[H1 H2 H3 H4 H5 H6 H7] Hc] Hq Hd' Hno Hkey.
  set (s1 := set_queue s oid (set_draining q' false)).
  assert (∀ k o, oget (odel (queues s) key) k = Some o → oget (queues s) k = Some o ∧ k ≠ key) as Hsub.
  { intros k o. rewrite oget_odel. case_decide; [done|]. intros Ho. by split. }
  assert (∀ o x, heap s1 !! o = Some x → o ≠ oid → heap s !! o = Some x) as Hheap.
  { intros o x Hx Hne. by eapply heap_set_queue in Hx as [[? _]|[_ ?]]. }
  split.
  - split; cbn; try done; [by apply owf_odel|..].
    + intros k o [Ho _]%Hsub. destruct (decide (o = oid)) as [->|Hne].
      * rewrite list_lookup_insert_eq; [eauto|by eapply lookup_lt_Some].
      * rewrite list_lookup_insert_ne by done. by eapply H3.
    + intros k1 k2 o [Ho1 _]%Hsub [Ho2 _]%Hsub. by eapply H4.
    + intros id d Hid. rewrite list_lookup_insert_ne by (intros He; by eapply Hno). by apply (H6 id d).
  - intros Hl. destruct (Hkey Hl) as [Hk Hitems]. destruct (Hc Hl) as [C1 C2 C3 C4].
    split; cbn [finishEmpty clearFollowupDrainCallback set_callbacks set_queues drains queues heap log].
    + intros id d Hid. rewrite oget_odel_ne; [exact (C1 id d Hid)|]. intros He.
      apply (Hno id d Hid). specialize (C1 id d Hid). rewrite <- He, Hk in C1. by injection C1.
    + intros k o x [Ho Hne]%Hsub Hx. apply (C2 k o x Ho). apply Hheap; [done|].
      intros ->. apply Hne. by eapply H4.
    + intros id d x Hid Hx. eapply C3; [exact Hid|]. apply Hheap; [done|by eapply Hno].
    + intros k. rewrite C4. f_equal. unfold queued.
      cbn [finishEmpty clearFollowupDrainCallback set_callbacks set_queues set_queue queues heap].
      rewrite oget_odel.
      case_decide as Hkk; [subst k; rewrite Hk; cbn; by rewrite Hq, Hitems|].
      destruct (oget (queues s) k) as [o|] eqn:Eo; [|done]. cbn.
      rewrite list_lookup_insert_ne; [done|]. intros ->. apply Hkk. by eapply H4.
Qed.

Lemma good_schedule s key cb : good s → good (scheduleFollowupDrain s key cb).
Proof.
  intros Hg. unfold scheduleFollowupDrain.
  destruct (oget (queues s) key) as [oid|] eqn:Eo; [|done].
  destruct (heap s !! oid) as [q|] eqn:Eq; [|done].
  destruct (draining q) eqn:Ed; [done|].
  set (eff := oget (callbacks s) key ?? cb). set (q1 := set_draining q true).
  set (s1 := rememberFollowupDrainCallback (set_queue s oid q1) key eff).
  assert (good s1) as [Hi Hc].
  { eapply good_ext; [..|eapply (good_set_queue s oid q q1)]; done. }
  assert (∀ id d, oget (drains s1) id = Some d → d_queue d ≠ oid) as Hno.
  { intros id d Hid He. destruct (i_draining s (proj1 Hg) id d Hid) as (x & Hx & Hxd). congruence. }
  assert (heap s1 !! oid = Some q1) as Eq1 by (by eapply heap_set_queue_eq).
  destruct (loopCondition q1) eqn:El.
  - set (d0 := mkDrain key oid eff false _). destruct Hi as [H1 H2 H3 H4 H5 H6 H7].
    assert (∀ id d, oget (oset (drains s1) (nextDrain s1) d0) id = Some d →
      (id = nextDrain s1 ∧ d = d0) ∨ (id ≠ nextDrain s1 ∧ oget (drains s1) id = Some d)) as Hget.
    { intros id d. rewrite oget_oset. case_decide; [intros [= <-]; by left|by right]. }
    split.
    + split; cbn [drains queues heap nextDrain]; try done.
      * by apply owf_oset.
      * intros id d [[-> ->]|[_ Hid]]%Hget; [lia|]. specialize (H5 id d Hid). lia.
      * intros id d [[-> ->]|[_ Hid]]%Hget; [by exists q1|exact (H6 id d Hid)].
      * intros i1 i2 x1 x2 [[-> ->]|[_ Hx1]]%Hget [[-> ->]|[_ Hx2]]%Hget He; [done| | |exact (H7 i1 i2 x1 x2 Hx1 Hx2 He)].
        -- by destruct (Hno i2 x2 Hx2).
        -- by destruct (Hno i1 x1 Hx1).
    + intros Hl. destruct (Hc Hl) as [C1 C2 C3 C4]. split; cbn [drains queues heap log]; try done.
      * intros id d [[-> ->]|[_ Hid]]%Hget; [done|exact (C1 id d Hid)].
      * intros id d x [[-> ->]|[_ Hid]]%Hget Hx; [done|exact (C3 id d x Hid Hx)].
  - eapply good_finishEmpty; [by split|done|done|done|].
    intros _. split; [done|]. unfold loopCondition in El. apply orb_false_iff in El as [El _].
    apply negb_false_iff, bool_decide_eq_true in El. exact El.
Qed.

Lemma good_kick s key : good s → good (kickFollowupDrainIfIdle s key).
Proof. intros Hg. unfold kickFollowupDrainIfIdle. destruct (oget _ _); [by apply good_schedule|done]. Qed.

Lemma good_finish s id d q q' :
  good s → oget (drains s) id = Some d → heap s !! d_queue d = Some q → fq q' = fq q →
  good (finish s id d q').
Proof.
  intros Hg Hd Hq Hfq. unfold finish. set (s1 := set_drains s (odel (drains s) id)).
  assert (good s1) as Hg1 by (by apply good_odel).
  assert (∀ i x, oget (drains s1) i = Some x → d_queue x ≠ d_queue d) as Hno.
  { intros i x. cbn. rewrite oget_odel. case_decide as Hne; [done|]. intros Hx He. apply Hne. symmetry.
    by apply (i_single s (proj1 Hg) i id x d). }
  destruct (loopCondition q') eqn:El; cbn [negb].
  - apply good_schedule.
    (* no drain holds the object, so it need not be marked as draining *)
    destruct Hg1 as [[H1 H2 H3 H4 H5 H6 H7] Hc]. split.
    + split; try done.
      * intros k o Ho. destruct (decide (o = d_queue d)) as [->|Hne]; [by eexists; eapply heap_set_queue_eq|].
        cbn. rewrite list_lookup_insert_ne by done. by eapply H3.
      * intros i x Hx. cbn. rewrite list_lookup_insert_ne by (intros ?; by eapply Hno). by apply (H6 i x).
    + intros Hl. destruct (Hc Hl) as [C1 C2 C3 C4].
      assert (calm_inv s1) as Hcs by (by split).
      eapply (calm_set_queue s1 (d_queue d) q); try done; cbn; by rewrite Hfq.
  - unfold loopCondition in El. apply orb_false_iff in El as [El _].
    apply negb_false_iff, bool_decide_eq_true in El.
    assert (good (set_queue s1 (d_queue d) (set_draining q (draining q')))) as Hg2.
    { destruct Hg1 as [[H1 H2 H3 H4 H5 H6 H7] Hc]. split.
      - split; try done.
        + intros k o Ho. destruct (decide (o = d_queue d)) as [->|Hne]; [by eexists; eapply heap_set_queue_eq|].
          cbn. rewrite list_lookup_insert_ne by done. by eapply H3.
        + intros i x Hx. cbn. rewrite list_lookup_insert_ne by (intros ?; by eapply Hno). by apply (H6 i x).
      - intros Hl. destruct (Hc Hl) as [C1 C2 C3 C4].
        assert (calm_inv s1) as Hcs by (by split).
        by eapply (calm_set_queue s1 (d_queue d) q). }
    assert (good (finishEmpty (set_queue s1 (d_queue d) (set_draining q (draining q'))) (d_key d) (d_queue d) q'))
      as Hg3.
    { eapply good_finishEmpty; [exact Hg2|by eapply heap_set_queue_eq|done|exact Hno|].
      intros Hl. split; [|cbn; by rewrite <- Hfq]. by apply (c_key s (proj2 Hg Hl) id d). }
    eapply good_ext; [..|exact Hg3]; try done. cbn. by rewrite list_insert_insert_eq.
Qed.

(** An observation that does not concern the accounting. *)
Lemma good_emit s o :
  (calm [o] = true → ∀ k, accepted k [o] = [] ∧ consumed k [o] = []) → good s → good (emit s o).
Proof.
  intros Ho [[H1 H2 H3 H4 H5 H6 H7] Hc]. split; [by split|]. intros Hl. cbn [emit log] in Hl.
  assert (calm [o] = true) as Hco.
  { unfold calm in *. rewrite forallb_app in Hl. by apply andb_true_iff in Hl as [_ ?]. }
  destruct (Hc (calm_app _ _ Hl)) as [C1 C2 C3 C4]. split; try done.
  intros k. cbn [emit log]. rewrite accepted_app, consumed_app. destruct (Ho Hco k) as [-> ->].
  rewrite !app_nil_r. by rewrite C4.
Qed.

Lemma good_call s id d force run p q :
  good s → oget (drains s) id = Some d → heap s !! d_queue d = Some q →
  (calm (log s) = true → calm_inv s → point_ok p (items (fq q))) →
  good (call s id d force run p).
Proof.
  intros Hg Hd Hq Hp. unfold call. eapply good_suspend; [apply good_emit; [by split|exact Hg]|done|exact Hq|].
  intros Hl Hci. apply Hp; [exact (calm_app _ _ Hl)|]. apply (proj2 Hg). exact (calm_app _ _ Hl).
Qed.

Lemma loopHead_suspend s id d force p q :
  loopHead (suspend s id (at_point d force p)) id d q = loopHead s id d q.
Proof.
  unfold loopHead. destruct (loopCondition q).
  - unfold suspend, set_drains. cbn. by rewrite oset_oset.
  - unfold finish, suspend, set_drains. cbn [drains heap queues callbacks recent nextDrain log].
    by rewrite odel_oset.
Qed.

Lemma good_loopHead s id d q :
  good s → oget (drains s) id = Some d → heap s !! d_queue d = Some q → good (loopHead s id d q).
Proof.
  intros Hg Hd Hq. unfold loopHead. destruct (loopCondition q).
  - by eapply good_suspend.
  - by eapply good_finish.
Qed.

(** Without drops there is no summary to hand on. *)
Lemma calm_no_summary s id d q :
  calm_inv s → oget (drains s) id = Some d → heap s !! d_queue d = Some q → summaryPromptOf q = None.
Proof.
  intros Hc Hd Hq. apply preview_none. eapply (c_dropped s Hc); [by eapply (c_key s Hc)|exact Hq].
Qed.

Lemma good_bodyStart s id d q now :
  good s → oget (drains s) id = Some d → heap s !! d_queue d = Some q → good (bodyStart s id d q now).
Proof.
  intros Hg Hd Hq. unfold bodyStart. case_bool_decide.
  - destruct (negb (d_force d) && _); [by eapply good_suspend|].
    destruct (items (fq q)) as [|next rest] eqn:El; [by eapply good_suspend|].
    eapply good_call; try done. intros _ _. rewrite El. by exists (map message rest).
  - destruct (summaryPromptOf q) as [prompt|] eqn:Es.
    + destruct (lastRun q) as [run|]; [|by eapply good_finish].
      destruct (items (fq q)) as [|head rest] eqn:El; [by eapply good_suspend|].
      eapply good_call; try done. intros _ Hc. by rewrite (calm_no_summary s id d q) in Es.
    + destruct (items (fq q)) as [|next rest] eqn:El; [by eapply good_suspend|].
      eapply good_call; try done. intros _ _. rewrite El. by exists (map message rest).
Qed.

Lemma good_bodyBatch s id d q now :
  good s → oget (drains s) id = Some d → heap s !! d_queue d = Some q → good (bodyBatch s id d q now).
Proof.
  intros Hg Hd Hq. unfold bodyBatch. destruct (opt_or _ _) as [run|]; [|by eapply good_finish].
  eapply good_call; try done. intros _ _. exists []. by rewrite app_nil_r.
Qed.

Lemma good_resume s id now : good s → good (resume s id now).
Proof.
  intros Hg. unfold resume. destruct (oget (drains s) id) as [d|] eqn:Hd; [|done].
  destruct (heap s !! d_queue d) as [q|] eqn:Hq; [|done].
  destruct (d_at d) eqn:Ed; try done.
  - destruct (_ || _); [by apply good_bodyStart|done].
  - by apply good_bodyBatch.
  - by apply good_loopHead.
  - set (q' := set_fq q _). destruct Hg as [Hi Hc].
    assert (good (set_queue s (d_queue d) q')) as Hg'.
    { split; [by eapply inv_set_queue|]. intros Hl.
      pose proof (c_point s (Hc Hl) id d q Hd Hq) as Hp. by rewrite Ed in Hp. }
    apply good_loopHead; [done|done|by eapply heap_set_queue_eq].
  - by eapply good_finish.
Qed.

(** A run that carried the front of the queue. *)
Lemma calm_consume s id d q q' carried force p :
  inv s → calm_inv s → oget (drains s) id = Some d → heap s !! d_queue d = Some q →
  map message (items (fq q)) = map message carried ++ map message (items (fq q')) →
  droppedCount (fq q') = 0%nat → point_ok p (items (fq q')) →
  calm_inv (suspend (emit (set_queue s (d_queue d) q') (Consumed (d_key d) carried)) id (at_point d force p)).
Proof.
  intros Hi [C1 C2 C3 C4] Hd Hq Hm Hdc Hp.
  set (s1 := set_queue s (d_queue d) q').
  assert (∀ i x, oget (oset (drains s) id (at_point d force p)) i = Some x →
    (i = id ∧ x = at_point d force p) ∨ (i ≠ id ∧ oget (drains s) i = Some x)) as Hget.
  { intros i x. rewrite oget_oset. case_decide; [intros [= <-]; by left|by right]. }
  split; cbn [suspend set_drains emit drains queues log].
  - intros i x [[-> ->]|[_ Hx]]%Hget; [exact (C1 id d Hd)|exact (C1 i x Hx)].
  - intros k o x Ho Hx. change (heap s1 !! o = Some x) in Hx.
    eapply heap_set_queue in Hx as [[-> ->]|[_ Hx]]; [done|by apply (C2 k o x)|exact Hq].
  - intros i x y Hx%Hget Hy. change (heap s1 !! d_queue x = Some y) in Hy.
    eapply heap_set_queue in Hy; [|exact Hq].
    destruct Hx as [[-> ->]|[Hne Hx]], Hy as [[He ->]|[Hnq Hy]]; try done.
    + destruct Hne. by apply (i_single s Hi i id x d).
    + by apply (C3 i x y).
  - intros k. change (queued _ k) with (queued s1 k). unfold s1.
    rewrite accepted_app, consumed_app, C4, (queued_set_queue s (d_queue d) q) by done.
    cbn [accepted consumed flat_map]. rewrite !app_nil_r.
    destruct (decide (k = d_key d)) as [->|Hne].
    + rewrite !bool_decide_eq_true_2 by (done || exact (C1 id d Hd)).
      unfold queued. rewrite (C1 id d Hd). cbn [mbind option_bind]. rewrite Hq, Hm. by rewrite <- app_assoc.
    + rewrite (bool_decide_eq_false_2 (k = d_key d)) by done.
      rewrite (bool_decide_eq_false_2 (oget (queues s) k = Some (d_queue d))); [by rewrite app_nil_r|].
      intros Hk. apply Hne. eapply (i_inj s Hi); [exact Hk|exact (C1 id d Hd)].
Qed.

Lemma inv_emit s o : inv s → inv (emit s o).
Proof. by intros [H1 H2 H3 H4 H5 H6 H7]. Qed.

Lemma message_cons l c rest :
  map message l = message c :: rest → map message l = map message [c] ++ map message (tail l).
Proof.
  destruct l as [|x l]; [done|]. intros Hm. assert (map message l = rest) as Ht by exact (f_equal tail Hm).
  change (message x :: map message l = message c :: map message l). rewrite Ht. rewrite <- Hm, <- Ht. done.
Qed.

Lemma message_drop l c rest :
  map message l = map message c ++ rest →
  map message l = map message c ++ map message (drop (length c) l).
Proof.
  intros Hm. assert (map message (take (length c) l) = map message c) as Ht.
  { rewrite <- firstn_map, Hm, <- (length_map message c). by rewrite take_app_length. }
  rewrite <- Ht, <- map_app. by rewrite take_drop.
Qed.

Lemma good_runSucceeded s id : good s → good (runSucceeded s id).
Proof.
  intros [Hi Hc]. unfold runSucceeded. destruct (oget (drains s) id) as [d|] eqn:Hd; [|done].
  destruct (heap s !! d_queue d) as [q|] eqn:Hq; [|done].
  destruct (d_at d) as [| |c|h|c b| | |] eqn:Ed; try done.
  - split.
    + apply inv_suspend; [by eapply inv_emit, inv_set_queue|done].
    + intros Hl. specialize (Hc (calm_app _ _ Hl)). pose proof (c_point s Hc id d q Hd Hq) as Hp.
      rewrite Ed in Hp. destruct Hp as [rest Hp]. eapply calm_consume; try done.
      * by eapply message_cons.
      * exact (c_dropped s Hc (d_key d) (d_queue d) q (c_key s Hc id d Hd) Hq).
  - split.
    + apply inv_suspend; [by eapply inv_set_queue|done].
    + intros Hl. specialize (Hc Hl). pose proof (c_point s Hc id d q Hd Hq) as Hp. by rewrite Ed in Hp.
  - set (q' := set_fq q _). rewrite <- (loopHead_suspend _ id d (d_force d) PLoop).
    set (s1 := suspend _ _ _). assert (heap s1 !! d_queue d = Some q') as Hq' by (by eapply heap_set_queue_eq).
    assert (good s1) as Hg1.
    { split.
      - apply inv_suspend; [by eapply inv_emit, inv_set_queue|done].
      - intros Hl. specialize (Hc (calm_app _ _ Hl)). pose proof (c_point s Hc id d q Hd Hq) as Hp.
        rewrite Ed in Hp. destruct Hp as [rest Hp].
        assert (droppedCount (fq q) = 0%nat) as Hdc
          by (exact (c_dropped s Hc (d_key d) (d_queue d) q (c_key s Hc id d Hd) Hq)).
        eapply calm_consume; try done; subst q'; destruct b; cbn; try done; by eapply message_drop. }
    assert (loopHead s1 id d q' = loopHead s1 id (at_point d (d_force d) PLoop) q') as ->.
    { unfold loopHead, finish. by destruct (loopCondition q'). }
    apply good_loopHead; [done| |done]. cbn. apply oget_oset_eq.
Qed.

Lemma good_runFailed s id now : good s → good (runFailed s id now).
Proof.
  intros Hg. unfold runFailed. destruct (oget (drains s) id) as [d|] eqn:Hd; [|done].
  destruct (heap s !! d_queue d) as [q|] eqn:Hq; [|done].
  destruct (d_at d); try done; by eapply good_finish.
Qed.

Lemma queues_fresh s k oid : inv s → oget (queues s) k = Some oid → (oid < length (heap s))%nat.
Proof. intros Hi Hk. destruct (i_obj s Hi k oid Hk) as [q Hq]. by eapply lookup_lt_Some. Qed.

Lemma good_getFollowupQueue s key settings :
  good s → let '(s1, oid) := getFollowupQueue s key settings in
  good s1 ∧ log s1 = log s ∧ oget (queues s1) key = Some oid ∧ ∃ q, heap s1 !! oid = Some q.
Proof.
  intros Hg. unfold getFollowupQueue. destruct (oget (queues s) key) as [oid|] eqn:Ek.
  - destruct (i_obj s (proj1 Hg) key oid Ek) as [q Hq]. rewrite Hq.
    split; [by eapply good_set_queue|]. split; [done|]. split; [done|].
    eexists. by eapply heap_set_queue_eq.
  - set (c := applyQueueRuntimeSettings _ _). set (n := length (heap s)).
    destruct Hg as [Hi Hc]. pose proof Hi as [H1 H2 H3 H4 H5 H6 H7].
    assert (∀ k o, oget (oset (queues s) key n) k = Some o →
      (k = key ∧ o = n) ∨ (k ≠ key ∧ oget (queues s) k = Some o ∧ (o < n)%nat)) as Hget.
    { intros k o. rewrite oget_oset. case_decide as Hk; [intros [= <-]; by left|].
      intros Ho. right. split; [done|]. split; [done|]. by apply (queues_fresh s k). }
    assert (∀ o x, (heap s ++ [c]) !! o = Some x → (o = n ∧ x = c) ∨ heap s !! o = Some x) as Hheap.
    { intros o x [?|[? Hx]]%lookup_app_Some; [by right|left].
      apply list_lookup_singleton_Some in Hx as [Hz <-]. split; [|done]. unfold n. lia. }
    assert (heap s !! n = None) as Hnone by (apply lookup_ge_None_2; unfold n; lia).
    split; [split|].
    + split; cbn [drains queues heap nextDrain]; try done.
      * by apply owf_oset.
      * intros k o [[-> ->]|(_ & Ho & _)]%Hget; [exists c; by apply list_lookup_middle|].
        destruct (H3 k o Ho) as [q Hq]. exists q. by apply lookup_app_l_Some.
      * intros k1 k2 o [[-> ->]|(Hn1 & Ho1 & Hlt1)]%Hget [[-> Hn2]|(Hn2 & Ho2 & Hlt2)]%Hget;
          [done|lia|lia|by eapply H4].
      * intros id d Hid. destruct (H6 id d Hid) as (x & Hx & Hd). exists x.
        split; [by apply lookup_app_l_Some|done].
    + intros Hl. destruct (Hc Hl) as [C1 C2 C3 C4]. split; cbn [drains queues heap log]; try done.
      * intros id d Hid. rewrite oget_oset_ne; [exact (C1 id d Hid)|].
        intros He. rewrite He, (C1 id d Hid) in Ek. done.
      * intros k o x [[-> ->]|(_ & Ho & Hlt)]%Hget [[Hz ->]|Hx]%Hheap; [done|congruence|lia|by apply (C2 k o x)].
      * intros id d x Hid [[Hz ->]|Hx]%Hheap; [|by apply (C3 id d x)].
        destruct (H6 id d Hid) as (y & Hy & _). congruence.
      * intros k. rewrite C4. f_equal. unfold queued. cbn [queues heap].
        rewrite oget_oset. case_decide as Hk.
        -- subst k. rewrite Ek. cbn [mbind option_bind]. unfold n. by rewrite list_lookup_middle.
        -- destruct (oget (queues s) k) as [o|] eqn:Eo; [|done]. cbn [mbind option_bind].
           rewrite lookup_app_l; [done|]. by apply (queues_fresh s k).
    + split; [done|]. split; [apply oget_oset_eq|]. exists c. by apply list_lookup_middle.
Qed.

(** A message that joins the end of the queue. *)
Lemma calm_accept s key oid q q' run :
  inv s → calm_inv s → oget (queues s) key = Some oid → heap s !! oid = Some q →
  items (fq q') = items (fq q) ++ [run] → droppedCount (fq q') = droppedCount (fq q) →
  calm_inv (emit (set_queue s oid q') (Accepted key run)).
Proof.
  intros Hi [C1 C2 C3 C4] Hk Hq Hit Hd. split; cbn [emit drains queues log].
  - exact C1.
  - intros k o x Ho Hx. change (heap (set_queue s oid q') !! o = Some x) in Hx.
    eapply heap_set_queue in Hx as [[-> ->]|[_ Hx]]; [rewrite Hd; by apply (C2 k oid q)|by apply (C2 k o x)|exact Hq].
  - intros id d x Hid Hx. change (heap (set_queue s oid q') !! d_queue d = Some x) in Hx.
    eapply heap_set_queue in Hx as [[He ->]|[_ Hx]]; [|by apply (C3 id d x)|exact Hq].
    rewrite <- He in Hq. specialize (C3 id d q Hid Hq). rewrite Hit. destruct (d_at d); try done.
    + destruct C3 as [rest C3]. exists (rest ++ [message run]). by rewrite map_app, C3.
    + destruct C3 as [rest C3]. exists (rest ++ [message run]). by rewrite map_app, C3, <- app_assoc.
  - intros k. change (queued _ k) with (queued (set_queue s oid q') k).
    rewrite accepted_app, consumed_app, C4, (queued_set_queue s oid q) by done.
    cbn [accepted consumed flat_map]. rewrite !app_nil_r.
    destruct (decide (k = key)) as [->|Hne].
    + rewrite !bool_decide_eq_true_2 by done. unfold queued. rewrite Hk. cbn [mbind option_bind].
      rewrite Hq, Hit, map_app. by rewrite <- app_assoc.
    + rewrite (bool_decide_eq_false_2 (k = key)) by done.
      rewrite bool_decide_eq_false_2; [by rewrite app_nil_r|].
      intros He. apply Hne. by eapply (i_inj s Hi).
Qed.

Lemma good_enqueue s key run settings dm cb restart now :
  good s → good (enqueueFollowupRun s key run settings dm cb restart now).1.
Proof.
  intros Hg. unfold enqueueFollowupRun.
  pose proof (good_getFollowupQueue s key settings Hg) as Hget.
  destruct (getFollowupQueue s key settings) as [s1 oid]. destruct Hget as (Hg1 & _ & Hk & q & Hq).
  rewrite Hq. destruct (Dedupe.peek _ _ _ _) as [recent1 seen]. set (s2 := set_recent s1 recent1).
  assert (good s2) as Hg2 by (by eapply good_ext; [..|exact Hg1]).
  destruct seen; [done|]. destruct (shouldSkipQueueItem _ _ _); [done|].
  set (q1 := set_lastRun (set_lastEnqueuedAt q now) (Some (fr_run run))).
  pose proof (applyQueueDropPolicy_spec ELLIPSIS (fq q1) summarizeItem None) as Hspec.
  destruct (applyQueueDropPolicy _ _ _ _) as [[x shouldEnqueue] dropped].
  destruct Hspec as (Hitems & _ & _ & _ & Hrefused & Hsame & _).
  destruct shouldEnqueue; cbn [negb fst].
  - set (q2 := set_fq q1 _). set (s3 := set_queue s2 oid q2).
    set (s4 := match dropped with [] => s3 | _ => _ end).
    assert (good (emit s4 (Accepted key run))) as Hg5.
    { split.
      - apply inv_emit. subst s4. assert (inv s3) as Hi3 by (by eapply inv_set_queue; [apply Hg2|exact Hq|]).
        destruct dropped; [done|by apply inv_emit].
      - intros Hl. subst s4. destruct dropped as [|y l].
        + eapply (calm_accept s2 key oid q); try done; [apply Hg2|apply (proj2 Hg2); by apply calm_app in Hl|..];
            specialize (Hsame eq_refl); subst x; done.
        + apply calm_app in Hl. cbn [emit log] in Hl. unfold calm in Hl.
          rewrite forallb_app in Hl. apply andb_true_iff in Hl as [_ Hl]. done. }
    set (s6 := set_recent _ _).
    assert (good s6) as Hg6 by (by eapply good_ext; [..|exact Hg5]).
    set (s7 := match cb with Some _ => _ | None => _ end).
    assert (good s7) as Hg7.
    { subst s7. destruct cb; [|done]. by eapply good_ext; [..|exact Hg6]. }
    destruct (restart && _); [by apply good_kick|done].
  - destruct (Hrefused eq_refl) as [-> ->]. by eapply good_set_queue.
Qed.

Lemma good_clear s key : good s → good (clearFollowupQueue s key).1.
Proof.
  intros [Hi Hc]. unfold clearFollowupQueue. set (cleaned := trim key).
  destruct (getExistingFollowupQueue s cleaned) as [[oid q]|] eqn:E; [|by split]. cbn [fst].
  set (q' := mkQueue _ _ _ _ _ _).
  assert (heap s !! oid = Some q) as Hq.
  { unfold getExistingFollowupQueue in E. destruct (negb _); [done|].
    destruct (oget (queues s) (trim cleaned)) as [o|]; [|done]. cbn in E.
    destruct (heap s !! o) as [y|] eqn:Ey; [|done]. cbn in E. by simplify_eq. }
  pose proof (inv_set_queue s oid q q' Hi Hq (λ H, H)) as [H1 H2 H3 H4 H5 H6 H7].
  split.
  - assert (∀ k o, oget (odel (queues s) cleaned) k = Some o → oget (queues s) k = Some o) as Hsub.
    { intros k o. rewrite oget_odel. by case_decide. }
    apply inv_emit. split; try done.
    + by apply owf_odel.
    + intros k o Ho%Hsub. by eapply H3.
    + intros k1 k2 o Ho1%Hsub Ho2%Hsub. by eapply H4.
  - intros Hl. cbn [emit log] in Hl. unfold calm in Hl. rewrite forallb_app in Hl.
    apply andb_true_iff in Hl as [_ Hl]. done.
Qed.

Lemma good_refresh s key p : good s → good (refreshQueuedFollowupSession s key p).
Proof.
  intros Hg. unfold refreshQueuedFollowupSession. destruct (negb _); [done|].
  destruct (getExistingFollowupQueue s (trim key)) as [[oid q]|] eqn:E; [|done].
  destruct (_ && _); [done|].
  assert (heap s !! oid = Some q) as Hq.
  { unfold getExistingFollowupQueue in E. destruct (negb _); [done|].
    destruct (oget (queues s) (trim (trim key))) as [o|]; [|done]. cbn in E.
    destruct (heap s !! o) as [y|] eqn:Ey; [|done]. cbn in E. by simplify_eq. }
  eapply good_set_queue; try done. cbn. rewrite map_map. by apply map_ext.
Qed.

Lemma good_step s i : good s → good (step s i).
Proof.
  intros Hg. destruct i; cbn [step].
  - by apply good_enqueue.
  - by apply good_schedule.
  - by apply good_clear.
  - by eapply good_ext; [..|exact Hg].
  - by apply good_refresh.
  - by apply good_resume.
  - by apply good_runSucceeded.
  - by apply good_runFailed.
Qed.

Lemma good_steps inputs s : good s → good (steps s inputs).
Proof. revert s. induction inputs as [|i inputs IH]; intros s Hg; [done|]. by apply IH, good_step. Qed.

(** *** What is consumed was handed on *)

Definition handed (l : list Observation) (rs : list FollowupRun) : Prop :=
  ∃ i cb r, Called i cb r ∈ l ∧ carries r rs.

Definition point_handed (l : list Observation) (p : Point) : Prop :=
  match p with PItem c => handed l [c] | PBatch rs _ => handed l rs | _ => True end.

Definition honest (s : State) : Prop :=
  (∀ id d, oget (drains s) id = Some d → point_handed (log s) (d_at d)) ∧
  ∀ k rs, Consumed k rs ∈ log s → handed (log s) rs.

Lemma handed_app l o rs : handed l rs → handed (l ++ [o]) rs.
Proof. intros (i & cb & r & Hin & Hc). exists i, cb, r. split; [|done]. apply elem_of_app. by left. Qed.

Lemma point_handed_app l o p : point_handed l p → point_handed (l ++ [o]) p.
Proof. destruct p; try done; apply handed_app. Qed.

(** The parts of the state this speaks of. *)
Lemma honest_ext s s' :
  log s' = log s → (∀ id d, oget (drains s') id = Some d →
    oget (drains s) id = Some d ∨ point_handed (log s) (d_at d)) → honest s → honest s'.
Proof.
  intros Hl Hd [H1 H2]. split; rewrite Hl; [|exact H2].
  intros id d Hid. destruct (Hd id d Hid) as [?|?]; [by apply (H1 id d)|done].
Qed.

Lemma honest_emit s o :
  (∀ k rs, o = Consumed k rs → handed (log s) rs) → honest s → honest (emit s o).
Proof.
  intros Ho [H1 H2]. split; cbn [emit drains log].
  - intros id d Hid. by apply point_handed_app, (H1 id d).
  - intros k rs [Hin|Hin%list_elem_of_singleton]%elem_of_app; apply handed_app; [by eapply H2|by eapply Ho].
Qed.

Lemma honest_suspend s id d : point_handed (log s) (d_at d) → honest s → honest (suspend s id d).
Proof.
  intros Hp. apply honest_ext; [done|]. intros i x. cbn. rewrite oget_oset.
  case_decide; [intros [= <-]; by right|by left].
Qed.

Lemma honest_schedule s key cb : honest s → honest (scheduleFollowupDrain s key cb).
Proof.
  intros Hh. unfold scheduleFollowupDrain. destruct (oget (queues s) key) as [oid|]; [|done].
  destruct (heap s !! oid) as [q|]; [|done]. destruct (draining q); [done|].
  destruct (loopCondition _).
  - eapply honest_ext; [..|exact Hh]; [done|]. intros i x. cbn [drains]. rewrite oget_oset.
    case_decide; [intros [= <-]; by right|by left].
  - eapply honest_ext; [..|exact Hh]; [done|]. intros i x Hx. by left.
Qed.

Lemma honest_finish s id d q : honest s → honest (finish s id d q).
Proof.
  intros Hh. unfold finish.
  assert (∀ q', honest (set_queue (set_drains s (odel (drains s) id)) (d_queue d) q')) as Hd.
  { intros q'. eapply honest_ext; [..|exact Hh]; [done|]. intros i x. cbn [set_queue set_drains drains].
    rewrite oget_odel. case_decide; [done|by left]. }
  destruct (loopCondition q); cbn [negb]; [by apply honest_schedule|].
  eapply honest_ext; [..|exact (Hd (set_draining q false))]; [done|]. intros i x Hx. by left.
Qed.

Lemma honest_loopHead s id d q : honest s → honest (loopHead s id d q).
Proof. intros Hh. unfold loopHead. destruct (loopCondition q); [by apply honest_suspend|by apply honest_finish]. Qed.

Lemma honest_call s id d force run p :
  (∀ i cb l, Called i cb run ∈ l → point_handed l p) → honest s → honest (call s id d force run p).
Proof.
  intros Hp Hh. unfold call. apply honest_suspend; [|by apply honest_emit].
  cbn. eapply (Hp id (d_cb d)). apply elem_of_app. right. by apply list_elem_of_singleton.
Qed.

Lemma honest_bodyStart s id d q now : honest s → honest (bodyStart s id d q now).
Proof.
  intros Hh. unfold bodyStart.
  assert (∀ force next, honest (call s id d force next (PItem next))) as Hcall.
  { intros force next. apply honest_call; [|done]. intros i cb l Hin. exists i, cb, next. by split; [|left]. }
  case_bool_decide.
  - destruct (_ && _); [by apply honest_suspend|].
    destruct (items (fq q)) as [|next rest]; [by apply honest_suspend|by apply Hcall].
  - destruct (summaryPromptOf q).
    + destruct (lastRun q); [|by apply honest_finish].
      destruct (items (fq q)); [by apply honest_suspend|by apply honest_call].
    + destruct (items (fq q)) as [|next rest]; [by apply honest_suspend|by apply Hcall].
Qed.

Lemma honest_step s i : honest s → honest (step s i).
Proof.
  assert (∀ s', log s' = log s → drains s' = drains s → honest s → honest s') as Hsame.
  { intros s' Hl Hd. apply honest_ext; [done|]. rewrite Hd. by left. }
  intros Hh. destruct i as [key run settings dm cb restart now|key cb|key|key|key p|id now|id|id now]; cbn [step].
  - unfold enqueueFollowupRun.
    assert (honest (getFollowupQueue s key settings).1) as Hg.
    { unfold getFollowupQueue. destruct (oget (queues s) key); [destruct (heap s !! n)|]; by apply Hsame. }
    destruct (getFollowupQueue s key settings) as [s1 oid]. cbn [fst] in Hg.
    destruct (heap s1 !! oid) as [q|]; [|done]. destruct (Dedupe.peek _ _ _ _) as [recent1 seen].
    assert (∀ s', log s' = log s1 → drains s' = drains s1 → honest s') as Hsame1.
    { intros s' Hl Hd. eapply honest_ext; [exact Hl| |exact Hg]. rewrite Hd. by left. }
    destruct seen; [by apply Hsame1|]. destruct (shouldSkipQueueItem _ _ _); [by apply Hsame1|].
    destruct (applyQueueDropPolicy _ _ _ _) as [[x ok] dropped]. destruct ok; cbn [negb fst]; [|by apply Hsame1].
    set (s4 := match dropped with [] => _ | _ => _ end).
    assert (honest (emit s4 (Accepted key run))) as He.
    { apply honest_emit; [done|]. subst s4. destruct dropped; [by apply Hsame1|].
      apply honest_emit; [done|]. by apply Hsame1. }
    set (s7 := match cb with Some _ => _ | None => _ end).
    assert (honest s7) as H7.
    { subst s7. destruct cb; (eapply honest_ext; [..|exact He]; [done|by left]). }
    destruct (restart && _); [|done]. unfold kickFollowupDrainIfIdle.
    destruct (oget _ _); [by apply honest_schedule|done].
  - by apply honest_schedule.
  - unfold clearFollowupQueue. destruct (getExistingFollowupQueue _ _) as [[oid q]|]; [|done].
    apply honest_emit; [done|]. by apply Hsame.
  - by apply Hsame.
  - unfold refreshQueuedFollowupSession. destruct (negb _); [done|].
    destruct (getExistingFollowupQueue _ _) as [[oid q]|]; [|done]. destruct (_ && _); [done|by apply Hsame].
  - unfold resume. destruct (oget (drains s) id) as [d|] eqn:Hd; [|done].
    destruct (heap s !! d_queue d) as [q|]; [|done]. destruct (d_at d); try done.
    + destruct (_ || _); [by apply honest_bodyStart|done].
    + unfold bodyBatch. destruct (opt_or _ _); [|by apply honest_finish].
      apply honest_call; [|done]. intros i cb l Hin. exists i, cb. eexists. split; [exact Hin|]. right. eauto.
    + by apply honest_loopHead.
    + apply honest_loopHead. by apply Hsame.
    + by apply honest_finish.
  - unfold runSucceeded. destruct (oget (drains s) id) as [d|] eqn:Hd; [|done].
    destruct (heap s !! d_queue d) as [q|]; [|done]. pose proof (proj1 Hh id d Hd) as Hp.
    destruct (d_at d); try done.
    + apply honest_suspend; [done|]. apply honest_emit; [by intros ? ? [= <- <-]|by apply Hsame].
    + apply honest_suspend; [done|by apply Hsame].
    + apply honest_loopHead. apply honest_emit; [by intros ? ? [= <- <-]|by apply Hsame].
  - unfold runFailed. destruct (oget (drains s) id) as [d|]; [|done].
    destruct (heap s !! d_queue d) as [q|]; [|done]. destruct (d_at d); try done; by apply honest_finish.
Qed.

Lemma honest_steps inputs s : honest s → honest (steps s inputs).
Proof. revert s. induction inputs as [|i inputs IH]; intros s Hg; [done|]. by apply IH, honest_step. Qed.

End drain.

(** C36. No follow-up message is lost, duplicated or reordered as long as the cap
    is not exceeded and the queue is not cleared: over any interleaving of
    enqueues, drains, failures and restarts, the messages accepted under a key
    are, in order, those carried by runs that succeeded followed by those still
    waiting; what counts as carried was handed to the agent as it is, or in a
    batch that renders it; and two drains never work on one queue. *)
Theorem followups_delivered_in_order (isRoutableChannel : option string → bool) (ELLIPSIS : string)
    (inputs : list Input) (key : string) :
  let s := steps isRoutableChannel ELLIPSIS initState inputs in
  (calm (log s) = true → accepted key (log s) = consumed key (log s) ++ queued s key) ∧
  (∀ k rs, Consumed k rs ∈ log s → handed (log s) rs) ∧
  ∀ id1 id2 d1 d2, oget (drains s) id1 = Some d1 → oget (drains s) id2 = Some d2 →
    d_queue d1 = d_queue d2 → id1 = id2.
Proof.
  intros s. destruct (good_steps isRoutableChannel ELLIPSIS inputs initState good_init) as [Hi Hc].
  assert (honest s) as [_ Hh].
  { apply honest_steps. by split; [|intros ? ? ?%not_elem_of_nil]. }
  split; [|split]; [intros Hl; by apply (Hc Hl)|exact Hh|exact (i_single _ Hi)].
Qed.
(** ** Concrete runs *)

Definition demoRoutable (c : option string) : bool := ostr_truthy c.
Definition demoRun : Run := mkRun "session" "file" "provider" "model" None None.
Definition msg (prompt : string) : FollowupRun :=
  mkFollowup prompt None None 0 (Some "slack"%string) (Some "C1"%string) None None demoRun.
Definition demoSteps (s : State) (inputs : list Input) : State := steps demoRoutable "..." s inputs.
Definition demoEnqueue (m : QueueMode) (cap : Z) (p : QueueDropPolicy) (prompt : string) : Input :=
  Enqueue "k" (msg prompt) (mkSettings m (Some 0) (Some cap) (Some p)) DedupeMessageId (Some 7%nat) false 0.

(** The prompts of the runs that were started, and of the messages accepted. *)
Definition calledPrompts (s : State) : list string :=
  filter_map (λ o, match o with Called _ _ r => Some (fr_prompt r) | _ => None end) (log s).
Definition acceptedPrompts (s : State) : list string :=
  filter_map (λ o, match o with Accepted _ r => Some (fr_prompt r) | _ => None end) (log s).
Definition droppedPrompts (s : State) : list string :=
  flat_map (λ o, match o with Dropped _ l => map fr_prompt l | _ => [] end) (log s).

(** Two messages handed on one after the other, the first at the second attempt. *)
Definition twoMessages : list Input :=
  [demoEnqueue Followup 20 DropSummarize "a"; demoEnqueue Followup 20 DropSummarize "b"; Schedule "k" 7;
   Resume 0 1; RunFailed 0 1; Resume 1 1; RunSucceeded 1; Resume 1 1; Resume 1 1; RunSucceeded 1; Resume 1 1].

Lemma followups_delivered_in_order_witness :
  let s := demoSteps initState twoMessages in
  calledPrompts s = ["a"; "a"; "b"]%string ∧ queues s = [] ∧ drains s = [] ∧
  accepted "k" (log s) = consumed "k" (log s) ++ queued s "k" ∧ length (consumed "k" (log s)) = 2%nat.
Proof.
  intros s. split; [by vm_compute|]. split; [by vm_compute|]. split; [by vm_compute|].
  split; [|by vm_compute]. by apply (followups_delivered_in_order demoRoutable "..." twoMessages "k").
Defined.

(** The cap is reached while [a] is being run: the overflow drops [a], which is at
    the head, and the shift at the end of the run removes [b], which nobody saw. *)
Lemma overflow_during_run_loses_message :
  let s := demoSteps initState
    [demoEnqueue Followup 2 DropOld "a"; demoEnqueue Followup 2 DropOld "b"; Schedule "k" 7; Resume 0 1;
     demoEnqueue Followup 2 DropOld "c"; RunSucceeded 0; Resume 0 1; Resume 0 1; RunSucceeded 0; Resume 0 1] in
  acceptedPrompts s = ["a"; "b"; "c"]%string ∧ calledPrompts s = ["a"; "c"]%string ∧
  droppedPrompts s = ["a"]%string ∧ queues s = [] ∧ drains s = [].
Proof. vm_compute. repeat split. Qed.

(** Outside collect mode, handing on an overflow summary takes the head of the
    queue with it: [second] is accepted, never dropped and never handed on. *)
Lemma summary_consumes_message :
  let s := demoSteps initState
    [demoEnqueue Followup 1 DropSummarize "first"; demoEnqueue Followup 1 DropSummarize "second";
     Schedule "k" 7; Resume 0 1; RunSucceeded 0; Resume 0 1] in
  acceptedPrompts s = ["first"; "second"]%string ∧ droppedPrompts s = ["first"]%string ∧
  map (λ p, includes p "second") (calledPrompts s) = [false] ∧ queues s = [] ∧ drains s = [].
Proof. vm_compute. repeat split. Qed.

(** A drain that outlives the clearing of its queue removes the queue that took
    its place: [b] is in no queue any more. *)
Lemma stale_drain_deletes_new_queue :
  let s := demoSteps initState
    [demoEnqueue Followup 20 DropSummarize "a"; Schedule "k" 7; Resume 0 1; Clear "k"; ClearCallback "k";
     demoEnqueue Followup 20 DropSummarize "b"; RunSucceeded 0; Resume 0 1; Schedule "k" 7] in
  acceptedPrompts s = ["a"; "b"]%string ∧ calledPrompts s = ["a"]%string ∧ droppedPrompts s = [] ∧
  queues s = [] ∧ drains s = [].
Proof. vm_compute. repeat split. Qed.

(** The drop policy is changed while an overflow is pending: the count of dropped
    messages stays, no summary is built any more, and nothing resets the count. *)
Definition staleCount : list Input :=
  [demoEnqueue Collect 1 DropSummarize "a"; demoEnqueue Collect 1 DropSummarize "b";
   demoEnqueue Collect 2 DropOld "c"; Schedule "k" 7; Resume 0 1; Resume 0 1; RunSucceeded 0].

(** One round of the loop: debounce, batch, run. *)
Definition emptyRound : list Input := [Resume 0 1; Resume 0 1; RunSucceeded 0].

Definition with_log (s : State) (l : list Observation) : State :=
  mkState (heap s) (queues s) (callbacks s) (recent s) (drains s) (nextDrain s) l.
Definition emptyCall : Observation := Called 0 7 (batchRun [] None demoRun 1).

(** A round that only adds to the log can be repeated. *)
Lemma rounds_repeat (s : State) (n : nat) :
  (∀ l, demoSteps (with_log s l) emptyRound = with_log s ((l ++ [emptyCall]) ++ [Consumed "k" []])) →
  demoSteps s (concat (repeat emptyRound n)) =
    with_log s (log s ++ concat (repeat [emptyCall; Consumed "k" []] n)).
Proof.
  intros Hround.
  assert (∀ l, demoSteps (with_log s l) (concat (repeat emptyRound n)) =
    with_log s (l ++ concat (repeat [emptyCall; Consumed "k" []] n))) as Hrounds.
  { induction n as [|k IH]; intros l; [cbn [repeat concat]; by rewrite app_nil_r|].
    cbn [repeat concat]. unfold demoSteps, steps in *. rewrite fold_left_app, Hround, IH.
    by rewrite <- !app_assoc. }
  rewrite <- Hrounds. by destruct s.
Qed.

Lemma calledPrompts_rounds s n :
  calledPrompts (with_log s (log s ++ concat (repeat [emptyCall; Consumed "k" []] n))) =
  calledPrompts s ++ repeat "[Queued messages while agent was busy]"%string n.
Proof.
  unfold calledPrompts, filter_map. cbn [with_log log]. rewrite flat_map_app. f_equal.
  induction n as [|n IH]; [done|]. cbn [repeat concat]. rewrite flat_map_app, IH. done.
Qed.

Lemma staleCount_round l :
  let s0 := demoSteps initState staleCount in
  demoSteps (with_log s0 l) emptyRound = with_log s0 ((l ++ [emptyCall]) ++ [Consumed "k" []]).
Proof. vm_compute. reflexivity. Qed.

(** A drain can call the agent forever for nothing: when the drop policy of a
    queue changes while an overflow is pending in collect mode, the count of
    dropped messages is never reset, so the drain keeps running the agent on an
    empty batch, any number of times, although no message is waiting and none
    arrives. *)
Lemma stale_overflow_count_never_drains (n : nat) :
  let s0 := demoSteps initState staleCount in
  let s := demoSteps s0 (concat (repeat emptyRound n)) in
  queued s0 "k" = [] ∧ queued s "k" = [] ∧
  calledPrompts s = calledPrompts s0 ++ repeat "[Queued messages while agent was busy]"%string n.
Proof.
  cbv zeta. rewrite (rounds_repeat _ n staleCount_round).
  split; [by vm_compute|]. split; [by vm_compute|]. apply calledPrompts_rounds.
Qed.

End FollowupQueue.
