(* ===== verification/SessionCleanup.v ===== *)
(** * Clearing a session: src/auto-reply/reply/queue/cleanup.ts and the lane names
      of src/agents/pi-embedded-runner/lanes.ts

    A session's follow-up queue and its command lane are two components; clearing
    a session acts on both. *)

From S2P Require Import Prelude OMap CommandQueue FollowupQueue.

Module SessionCleanup.
Import StringCoerce FollowupQueue.

Definition resolveSessionLane (key : string) : string :=
  let cleaned := str_or (trim key) CommandQueue.CommandLane_Main in
  if starts_with cleaned "session:" then cleaned else "session:" +:+ cleaned.

Definition CommandLane_Cron : string := "cron".
Definition CommandLane_Nested : string := "nested".

(** A cron job holds the cron lane, so what runs inside it uses another one. *)
Definition resolveGlobalLane (lane : option string) : string :=
  match trim <$> lane with
  | Some (String _ _ as cleaned) =>
      if String.eqb cleaned CommandLane_Cron then CommandLane_Nested else cleaned
  | _ => CommandQueue.CommandLane_Main
  end.

Definition resolveEmbeddedSessionLane (key : string) : string := resolveSessionLane key.

Record ClearSessionQueueResult := mkClearResult {
  followupCleared : nat;
  laneCleared : nat;
  clearedKeys : list string;
}.

(** The two queues, and what the promises of the lanes are settled with. *)
Record Process := mkProcess {
  pr_followups : State;
  pr_lanes : CommandQueue.QueueState;
  pr_events : list CommandQueue.Event;
}.

Definition clearSessionKey (p : Process) (cleaned : string) : Process * nat * nat :=
  let '(f1, n) := clearFollowupQueue (pr_followups p) cleaned in
  let '(m, lanes1, evs) := CommandQueue.clearCommandLane (pr_lanes p) (resolveEmbeddedSessionLane cleaned) in
  (mkProcess (clearFollowupDrainCallback f1 cleaned) lanes1 (pr_events p ++ evs), n, m).

Fixpoint clearSessionKeys (p : Process) (seen : list string) (keys : list (option string))
    (r : ClearSessionQueueResult) : Process * ClearSessionQueueResult :=
  match keys with
  | [] => (p, r)
  | key :: rest =>
      match normalizeOptionalString key with
      | None => clearSessionKeys p seen rest r
      | Some cleaned =>
          if bool_decide (cleaned ∈ seen) then clearSessionKeys p seen rest r
          else
            let '(p1, n, m) := clearSessionKey p cleaned in
            clearSessionKeys p1 (seen ++ [cleaned]) rest
              (mkClearResult (followupCleared r + n) (laneCleared r + m) (clearedKeys r ++ [cleaned]))
      end
  end.

Definition clearSessionQueues (p : Process) (keys : list (option string)) : Process * ClearSessionQueueResult :=
  clearSessionKeys p [] keys (mkClearResult 0 0 []).

(** Nothing waits for the session. *)
Definition session_idle (p : Process) (key : string) : Prop :=
  oget (queues (pr_followups p)) key = None ∧ oget (callbacks (pr_followups p)) key = None ∧
  CommandQueue.queue (CommandQueue.lane_of (pr_lanes p)
    (CommandQueue.normalizeLane (resolveEmbeddedSessionLane key))) = [].

Lemma clearFollowupQueue_queues s key k :
  trim key = key → key ≠ EmptyString → good s →
  oget (queues (clearFollowupQueue s key).1) k = (if decide (k = key) then None else oget (queues s) k) ∧
  callbacks (clearFollowupQueue s key).1 = callbacks s ∧
  good (clearFollowupQueue s key).1.
Proof.
  intros Ht Hne Hg. pose proof (good_clear s key Hg) as Hg'.
  unfold clearFollowupQueue, getExistingFollowupQueue in *. rewrite !Ht in *.
  destruct key as [|c key']; [done|]. cbn [str_truthy negb] in *. set (key := String c key') in *.
  destruct (oget (queues s) key) as [oid|] eqn:Ek; cbn [mbind option_bind] in *.
  - destruct (i_obj s (proj1 Hg) key oid Ek) as [q Hq]. rewrite Hq in *. cbn in Hg' |- *.
    change (List.filter _ (queues s)) with (odel (queues s) key) in *.
    rewrite oget_odel. split; [|done]. case_decide as H1; case_decide as H2; congruence.
  - split; [|done]. case_decide; [by subst|done].
Qed.

Lemma clearSessionKey_idle p cleaned k :
  trim cleaned = cleaned → cleaned ≠ EmptyString → good (pr_followups p) →
  let p1 := (clearSessionKey p cleaned).1.1 in
  good (pr_followups p1) ∧ session_idle p1 cleaned ∧ (session_idle p k → session_idle p1 k).
Proof.
  intros Ht Hne Hg. unfold clearSessionKey.
  destruct (clearFollowupQueue_queues (pr_followups p) cleaned k Ht Hne Hg) as (Hk & Hcb & Hg1).
  destruct (clearFollowupQueue_queues (pr_followups p) cleaned cleaned Ht Hne Hg) as (Hc & _ & _).
  rewrite decide_True in Hc by done.
  destruct (clearFollowupQueue (pr_followups p) cleaned) as [f1 n]. cbn [fst] in *.
  destruct (CommandQueue.clearCommandLane _ _) as [[m lanes1] evs] eqn:El.
  assert (∀ ln, (ln = CommandQueue.normalizeLane (resolveEmbeddedSessionLane cleaned) ∨
      CommandQueue.queue (CommandQueue.lane_of (pr_lanes p) ln) = []) →
    CommandQueue.queue (CommandQueue.lane_of lanes1 ln) = []) as Hlane.
  { intros ln Hln. apply CommandQueue.clear_cases in El as [(Hq & -> & _)|(-> & _)].
    - by destruct Hln as [->|?].
    - rewrite CommandQueue.lane_of_put. destruct (decide (CommandQueue.normalizeLane _ = ln)); [done|]. destruct Hln as [Hln|?]; [congruence|done]. }
  cbn [fst]. split; [by eapply good_ext; [..|exact Hg1]|]. split.
  - split; [exact Hc|]. split; [apply oget_odel_eq|]. apply Hlane. by left.
  - intros (H1 & H2 & H3). split; [cbn; rewrite Hk; by case_decide|]. split; [|apply Hlane; by right].
    cbn [clearFollowupDrainCallback set_callbacks callbacks pr_followups]. rewrite oget_odel, Hcb.
    by destruct (decide (cleaned = k)).
Qed.

Lemma clearSessionKeys_idle keys : ∀ p seen r,
  good (pr_followups p) → clearedKeys r = seen → NoDup seen → Forall (session_idle p) seen →
  let '(p1, r1) := clearSessionKeys p seen keys r in
  NoDup (clearedKeys r1) ∧ Forall (session_idle p1) (clearedKeys r1) ∧
  ∀ k, k ∈ clearedKeys r1 ↔ k ∈ seen ∨ ∃ key, key ∈ keys ∧ normalizeOptionalString key = Some k.
Proof.
  induction keys as [|key keys IH]; intros p seen r Hg Hr Hnd Hidle; cbn [clearSessionKeys].
  { subst seen. split; [done|]. split; [done|]. intros k. split; [by left|].
    intros [?|(key & Hin & _)]; [done|by apply not_elem_of_nil in Hin]. }
  destruct (normalizeOptionalString key) as [cleaned|] eqn:En.
  2:{ specialize (IH p seen r Hg Hr Hnd Hidle). destruct (clearSessionKeys p seen keys r) as [p1 r1].
      destruct IH as (H1 & H2 & H3). split; [done|]. split; [done|]. intros k. rewrite H3.
      setoid_rewrite elem_of_cons. naive_solver. }
  case_bool_decide as Hseen.
  { specialize (IH p seen r Hg Hr Hnd Hidle). destruct (clearSessionKeys p seen keys r) as [p1 r1].
    destruct IH as (H1 & H2 & H3). split; [done|]. split; [done|]. intros k. rewrite H3.
    setoid_rewrite elem_of_cons. naive_solver. }
  apply normalizeOptionalString_spec in En as Hc. destruct Hc as [Hne Ht].
  pose proof (λ k, clearSessionKey_idle p cleaned k Ht Hne Hg) as Hstep.
  destruct (clearSessionKey p cleaned) as [[p1 n] m]. cbn [fst] in Hstep.
  set (r1 := mkClearResult _ _ _).
  specialize (IH p1 (seen ++ [cleaned]) r1).
  destruct (clearSessionKeys p1 (seen ++ [cleaned]) keys r1) as [p2 r2].
  destruct IH as (H1 & H2 & H3).
  - apply (Hstep cleaned).
  - cbn. by rewrite Hr.
  - apply NoDup_app. split; [done|]. split; [|apply NoDup_singleton].
    intros x Hx ->%list_elem_of_singleton. done.
  - apply Forall_app. split; [|apply Forall_singleton; exact (proj1 (proj2 (Hstep cleaned)))].
    eapply Forall_impl; [exact Hidle|]. intros k Hk. by apply (Hstep k).
  - split; [done|]. split; [done|]. intros k. rewrite H3, elem_of_app, list_elem_of_singleton.
    setoid_rewrite elem_of_cons. naive_solver.
Qed.

(** Clearing the queues of sessions leaves nothing waiting: for every key given
    (after trimming, blanks ignored, each once), the session has no follow-up
    queue, no drain callback and an empty command lane afterwards, and the answer
    lists exactly these keys. *)
Lemma clearSessionQueues_idle (isRoutableChannel : option string → bool) (ELLIPSIS : string)
    (inputs : list Input) (lanes : CommandQueue.QueueState) (keys : list (option string)) :
  let '(p1, r) := clearSessionQueues
    (mkProcess (steps isRoutableChannel ELLIPSIS initState inputs) lanes []) keys in
  NoDup (clearedKeys r) ∧
  (∀ k, k ∈ clearedKeys r ↔ ∃ key, key ∈ keys ∧ normalizeOptionalString key = Some k) ∧
  Forall (session_idle p1) (clearedKeys r).
Proof.
  set (p0 := mkProcess _ _ _). assert (good (pr_followups p0)) as Hg by (by apply good_steps, good_init).
  unfold clearSessionQueues.
  pose proof (clearSessionKeys_idle keys p0 [] (mkClearResult 0 0 []) Hg eq_refl) as Hrun.
  destruct (clearSessionKeys p0 [] keys _) as [p1 r1]. destruct Hrun as (H1 & H2 & H3); [constructor|constructor|].
  split; [done|]. split; [|done]. intros k. rewrite H3. rewrite elem_of_nil. naive_solver.
Qed.

End SessionCleanup.
