(* ===== verification/JsValue.v ===== *)
(** * Values whose shape the code does not know

    Messages of a transcript come from files and providers: the code reads them as
    [unknown] and tests what it finds. A value is one of the language's; objects
    are maps in insertion order, numbers are whole. *)

From S2P Require Import Prelude OMap.

Module JsValue.

#[warnings="-register-all"]
Inductive js :=
| JUndefined
| JNull
| JBool (b : bool)
| JNum (n : Z)
| JStr (s : string)
| JArr (l : list js)
| JObj (m : list (string * js)).

(** [v && typeof v === "object"] *)
Definition is_object (v : js) : bool := match v with JArr _ | JObj _ => true | _ => false end.

(** [v.k]; the properties the code reads are none of an array or a primitive. *)
Definition prop (v : js) (k : string) : js :=
  match v with JObj m => oget m k ?? JUndefined | _ => JUndefined end.

(** [k in v] and [Object.hasOwn(v, k)] *)
Definition has_prop (v : js) (k : string) : bool :=
  match v with JObj m => ohas m k | _ => false end.

(** [{ ...v, k: x }] *)
Definition with_prop (v : js) (k : string) (x : js) : js :=
  match v with JObj m => JObj (oset m k x) | _ => JObj [(k, x)] end.

(** [delete v.k] on a copy of [v] *)
Definition without_prop (v : js) (k : string) : js :=
  match v with JObj m => JObj (odel m k) | _ => v end.

(** [typeof v === "string"] *)
Definition str_value (v : js) : option string := match v with JStr s => Some s | _ => None end.

Definition is_str (v : js) (s : string) : bool :=
  match v with JStr t => String.eqb t s | _ => false end.

(** [v !== undefined && v !== null] *)
Definition defined (v : js) : bool := match v with JUndefined | JNull => false | _ => true end.

(** [typeof v === "string" && v]: a string that is not empty. *)
Definition nonempty_str (v : js) : option string :=
  match v with JStr (String _ _ as s) => Some s | _ => None end.

Lemma prop_with_prop_eq v k x : prop (with_prop v k x) k = x.
Proof. destruct v; cbn; try (by rewrite decide_True). by rewrite oget_oset_eq. Qed.

Lemma prop_with_prop_ne v k k' x : k ≠ k' → prop (with_prop v k x) k' = prop v k'.
Proof. intros H. destruct v; cbn; try (by rewrite decide_False). by rewrite oget_oset_ne. Qed.

Lemma has_prop_defined v k : defined (prop v k) = true → has_prop v k = true.
Proof. destruct v; try done. cbn. unfold ohas. by destruct (oget m k). Qed.

Lemma has_prop_with_prop v k k' x : has_prop v k' = true → has_prop (with_prop v k x) k' = true.
Proof.
  destruct v; try done. cbn. unfold ohas. rewrite oget_oset. by case_decide.
Qed.

(** Writing the value a property has changes nothing. *)
Lemma with_prop_same v k : has_prop v k = true → with_prop v k (prop v k) = v.
Proof.
  destruct v; try done. cbn. unfold ohas. destruct (oget m k) as [x|] eqn:E; [|done]. intros _. cbn.
  unfold id. by rewrite oset_id.
Qed.

Lemma with_prop_twice v k x y : with_prop (with_prop v k x) k y = with_prop v k y.
Proof. destruct v; cbn; try (by rewrite decide_True). by rewrite oset_oset. Qed.

Lemma is_object_with_prop v k x : is_object (with_prop v k x) = true.
Proof. by destruct v. Qed.

End JsValue.
