(* ===== verification/ToolPolicy.v ===== *)
(** * Policies of tools

    src/agents/tool-catalog.ts, glob-pattern.ts, tool-policy-shared.ts, tool-policy.ts,
    tool-policy-match.ts and sandbox-tool-policy.ts: the catalog of the core tools with
    its profiles and groups, the patterns of a policy, the tools of plugins, and which
    tools a policy admits. [permits] says the same without expansion and compilation.
    A lookup in an object finds what every object inherits, so that the names
    [constructor] and [__proto__] have other meanings; they are outside the model. *)

From Stdlib Require Import Ascii.
From S2P Require Import Prelude JsRegex OMap.

#[local] Open Scope stdpp_scope.

Module ToolPolicy.
Import StringCoerce.

(** ** The catalog: tool-catalog.ts *)

Inductive ToolProfileId : Type := MinimalProfile | CodingProfile | MessagingProfile | FullProfile.
#[export] Instance ToolProfileId_eq : EqDecision ToolProfileId := ltac:(solve_decision).

Record CoreToolDefinition : Type := coreTool {
  ct_id : string;
  ct_sectionId : string;
  ct_profiles : list ToolProfileId;
  ct_includeInOpenClawGroup : bool;
}.

Definition CORE_TOOL_DEFINITIONS : list CoreToolDefinition :=
  [
   coreTool "read" "fs" [CodingProfile] false;
   coreTool "write" "fs" [CodingProfile] false;
   coreTool "edit" "fs" [CodingProfile] false;
   coreTool "apply_patch" "fs" [CodingProfile] false;
   coreTool "exec" "runtime" [CodingProfile] false;
   coreTool "process" "runtime" [CodingProfile] false;
   coreTool "code_execution" "runtime" [CodingProfile] true;
   coreTool "web_search" "web" [CodingProfile] true;
   coreTool "web_fetch" "web" [CodingProfile] true;
   coreTool "x_search" "web" [CodingProfile] true;
   coreTool "memory_search" "memory" [CodingProfile] true;
   coreTool "memory_get" "memory" [CodingProfile] true;
   coreTool "sessions_list" "sessions" [CodingProfile; MessagingProfile] true;
   coreTool "sessions_history" "sessions" [CodingProfile; MessagingProfile] true;
   coreTool "sessions_send" "sessions" [CodingProfile; MessagingProfile] true;
   coreTool "sessions_spawn" "sessions" [CodingProfile] true;
   coreTool "sessions_yield" "sessions" [CodingProfile] true;
   coreTool "subagents" "sessions" [CodingProfile] true;
   coreTool "session_status" "sessions" [MinimalProfile; CodingProfile; MessagingProfile] true;
   coreTool "browser" "ui" [] true;
   coreTool "canvas" "ui" [] true;
   coreTool "message" "messaging" [MessagingProfile] true;
   coreTool "cron" "automation" [CodingProfile] true;
   coreTool "gateway" "automation" [] true;
   coreTool "nodes" "nodes" [] true;
   coreTool "agents_list" "agents" [] true;
   coreTool "update_plan" "agents" [CodingProfile] true;
   coreTool "image" "media" [CodingProfile] true;
   coreTool "image_generate" "media" [CodingProfile] true;
   coreTool "music_generate" "media" [CodingProfile] true;
   coreTool "video_generate" "media" [CodingProfile] true;
   coreTool "tts" "media" [] true].

Definition listCoreToolIdsForProfile (profile : ToolProfileId) : list string :=
  map ct_id (List.filter (λ tool, bool_decide (profile ∈ ct_profiles tool)) CORE_TOOL_DEFINITIONS).

(** [ToolProfilePolicy], [ToolPolicyLike] and [SandboxToolPolicy] *)
Record ToolPolicyLike : Type := mkPolicy {
  allow : option (list string);
  deny : option (list string);
}.

Definition CORE_TOOL_PROFILES (profile : ToolProfileId) : ToolPolicyLike :=
  match profile with
  | FullProfile => mkPolicy None None
  | _ => mkPolicy (Some (listCoreToolIdsForProfile profile)) None
  end.

Definition readProfile (profile : string) : option ToolProfileId :=
  if String.eqb profile "minimal" then Some MinimalProfile
  else if String.eqb profile "coding" then Some CodingProfile
  else if String.eqb profile "messaging" then Some MessagingProfile
  else if String.eqb profile "full" then Some FullProfile
  else None.

Definition sectionToolMap : omap string (list string) :=
  foldl (λ m tool, let groupId := "group:" +:+ ct_sectionId tool in
                   oset m groupId (default [] (oget m groupId) ++ [ct_id tool]))
    [] CORE_TOOL_DEFINITIONS.

Definition buildCoreToolGroupMap : omap string (list string) :=
  let openclawTools := map ct_id (List.filter ct_includeInOpenClawGroup CORE_TOOL_DEFINITIONS) in
  foldl (λ m e, oset m e.1 e.2) [("group:openclaw"%string, openclawTools)] sectionToolMap.

Definition CORE_TOOL_GROUPS : omap string (list string) := Eval vm_compute in buildCoreToolGroupMap.

Definition resolveCoreToolProfilePolicy (profile : option string) : option ToolPolicyLike :=
  match profile ≫= readProfile with
  | None => None
  | Some p =>
      let resolved := CORE_TOOL_PROFILES p in
      match allow resolved, deny resolved with None, None => None | _, _ => Some resolved end
  end.

Definition isKnownCoreToolId (toolId : string) : bool := existsb (λ tool, String.eqb (ct_id tool) toolId) CORE_TOOL_DEFINITIONS.

(** ** Names and groups: tool-policy-shared.ts *)

Definition TOOL_NAME_ALIASES : omap string string := [("bash"%string, "exec"%string); ("apply-patch"%string, "apply_patch"%string)].

Definition TOOL_GROUPS : omap string (list string) := CORE_TOOL_GROUPS.

Definition normalizeToolName (name : string) : string :=
  let normalized := lowered name in oget TOOL_NAME_ALIASES normalized ?? normalized.

Definition normalizeToolList (names : option (list string)) : list string :=
  match names with None => [] | Some l => List.filter str_truthy (map normalizeToolName l) end.

Definition expandToolGroups (names : option (list string)) : list string :=
  unique (flat_map (λ value, match oget TOOL_GROUPS value with Some group => group | None => [value] end)
            (normalizeToolList names)).

(** ** Patterns: glob-pattern.ts *)

Inductive CompiledGlobPattern : Type :=
| PatternAll
| PatternExact (value : string)
| PatternRegex (value : regex).

(** What [new RegExp(...)] makes of the escaped text, in which [.*] stands for a star. *)
Fixpoint starRegex (s : string) : regex :=
  match s with
  | EmptyString => REmpty
  | String c s' => RSeq (if Ascii.eqb c "*"%char then RStar RDot else RChar (Ascii.eqb c)) (starRegex s')
  end.

Definition compileGlobPattern (raw : string) (normalize : string → string) : CompiledGlobPattern :=
  let normalized := normalize raw in
  if negb (str_truthy normalized) then PatternExact EmptyString
  else if String.eqb normalized "*" then PatternAll
  else if negb (includes normalized "*") then PatternExact normalized
  else PatternRegex (anchored (starRegex normalized)).

Definition compileGlobPatterns (raw : option (list string)) (normalize : string → string) : list CompiledGlobPattern :=
  match raw with
  | None => []
  | Some l =>
      List.filter (λ pattern, match pattern with PatternExact value => str_truthy value | _ => true end)
        (map (λ raw, compileGlobPattern raw normalize) l)
  end.

Definition matchesAnyGlobPattern (value : string) (patterns : list CompiledGlobPattern) : bool :=
  existsb (λ pattern, match pattern with
                      | PatternAll => true
                      | PatternExact v => String.eqb value v
                      | PatternRegex r => test r value
                      end) patterns.

(** ** Which tools a policy admits: tool-policy-match.ts *)

Definition makeToolPolicyMatcher (policy : ToolPolicyLike) (name : string) : bool :=
  let denied := compileGlobPatterns (Some (expandToolGroups (Some (default [] (deny policy))))) normalizeToolName in
  let allowed := compileGlobPatterns (Some (expandToolGroups (Some (default [] (allow policy))))) normalizeToolName in
  let normalized := normalizeToolName name in
  if matchesAnyGlobPattern normalized denied then false
  else if String.eqb normalized "apply_patch" && matchesAnyGlobPattern "write" denied then false
  else match allowed with
       | [] => true
       | _ =>
           if matchesAnyGlobPattern normalized allowed then true
           else String.eqb normalized "apply_patch" && matchesAnyGlobPattern "write" allowed
       end.

Definition isToolAllowedByPolicyName (name : string) (policy : option ToolPolicyLike) : bool :=
  match policy with None => true | Some p => makeToolPolicyMatcher p name end.

Definition isToolAllowedByPolicies (name : string) (policies : list (option ToolPolicyLike)) : bool :=
  forallb (isToolAllowedByPolicyName name) policies.

(** ** Additional entries: sandbox-tool-policy.ts, [mergeAlsoAllowPolicy] *)

(** [SandboxToolPolicyConfig], with the [profile] of [ToolPolicyConfig] *)
Record ToolPolicyConfig : Type := mkPolicyConfig {
  pc_allow : option (list string);
  pc_alsoAllow : option (list string);
  pc_deny : option (list string);
  pc_profile : option string;
}.

Definition unionAllow (base extra : option (list string)) : option (list string) :=
  match extra with
  | None | Some [] => base
  | Some more =>
      match base with
      | None | Some [] => Some (unique ("*" :: more))
      | Some l => Some (unique (l ++ more))
      end
  end.

Definition pickSandboxToolPolicy (config : option ToolPolicyConfig) : option ToolPolicyLike :=
  match config with
  | None => None
  | Some config =>
      let allowed := match pc_allow config with
                     | Some l => unionAllow (Some l) (pc_alsoAllow config)
                     | None => match pc_alsoAllow config with
                               | Some (x :: l) => unionAllow None (Some (x :: l))
                               | _ => None
                               end
                     end in
      match allowed, pc_deny config with
      | None, None => None
      | a, d => Some (mkPolicy a d)
      end
  end.

Definition mergeAlsoAllowPolicy (policy : option ToolPolicyLike) (alsoAllow : option (list string)) : option ToolPolicyLike :=
  match policy, alsoAllow with
  | Some p, Some (x :: more) =>
      match allow p with
      | Some l => Some (mkPolicy (Some (unique (l ++ x :: more))) (deny p))
      | None => policy
      end
  | _, _ => policy
  end.

Definition collectExplicitAllowlist (policies : list (option ToolPolicyLike)) : list string :=
  flat_map (λ policy, match policy ≫= allow with
                      | Some l => List.filter str_truthy (map trim l)
                      | None => []
                      end) policies.

(** ** Tools, owners and plugins: tool-policy.ts *)

Inductive OwnerOnlyToolApprovalClass : Type := ControlPlane | ExecCapable | Interactive.

Definition OWNER_ONLY_TOOL_APPROVAL_CLASS_FALLBACKS : omap string OwnerOnlyToolApprovalClass :=
  [("whatsapp_login"%string, Interactive); ("cron"%string, ControlPlane); ("gateway"%string, ControlPlane); ("nodes"%string, ExecCapable)].

Definition resolveOwnerOnlyToolApprovalClass (name : string) : option OwnerOnlyToolApprovalClass :=
  oget OWNER_ONLY_TOOL_APPROVAL_CLASS_FALLBACKS (normalizeToolName name).

Definition isOwnerOnlyToolName (name : string) : bool :=
  match resolveOwnerOnlyToolApprovalClass name with Some _ => true | None => false end.

(** What an agent can call: a tool runs on the arguments of a call. *)
Record AnyAgentTool (Args Out : Type) : Type := mkTool {
  tool_name : string;
  ownerOnly : bool;
  execute : option (Args → result Out);
}.
Arguments mkTool {Args Out}.
Arguments tool_name {Args Out}.
Arguments ownerOnly {Args Out}.
Arguments execute {Args Out}.

Record PluginToolGroups : Type := mkGroups {
  pg_all : list string;
  byPlugin : omap string (list string);
}.

Section tools.
Context {Args Out : Type}.
#[local] Abbreviation Tool := (AnyAgentTool Args Out).
(** The plugin that registered a tool. *)
Context (toolMeta : Tool → option string).

Definition wrapOwnerOnlyToolExecution (tool : Tool) (senderIsOwner : bool) : Tool :=
  match execute tool with
  | Some _ =>
      if negb (ownerOnly tool) || senderIsOwner then tool
      else mkTool (tool_name tool) (ownerOnly tool) (Some (λ _, Throw "Tool restricted to owner senders."))
  | None => tool
  end.

Definition isOwnerOnlyTool (tool : Tool) : bool := ownerOnly tool || isOwnerOnlyToolName (tool_name tool).

Definition applyOwnerOnlyToolPolicy (tools : list Tool) (senderIsOwner : bool) : list Tool :=
  let withGuard := map (λ tool, if negb (isOwnerOnlyTool tool) then tool
                                else wrapOwnerOnlyToolExecution tool senderIsOwner) tools in
  if senderIsOwner then withGuard else List.filter (λ tool, negb (isOwnerOnlyTool tool)) withGuard.

(** One iteration of the loop of [buildPluginToolGroups]. *)
Definition addPluginTool (groups : PluginToolGroups) (tool : Tool) : PluginToolGroups :=
  match toolMeta tool with
  | None => groups
  | Some meta =>
      let name := normalizeToolName (tool_name tool) in
      let all' := pg_all groups ++ [name] in
      match normalizeOptionalLowercaseString (Some meta) with
      | None => mkGroups all' (byPlugin groups)
      | Some pluginId =>
          mkGroups all' (oset (byPlugin groups) pluginId (default [] (oget (byPlugin groups) pluginId) ++ [name]))
      end
  end.

Definition buildPluginToolGroups (tools : list Tool) : PluginToolGroups := foldl addPluginTool (mkGroups [] []) tools.

End tools.

(** What an entry stands for when it names plugins. *)
Definition expandPluginEntry (groups : PluginToolGroups) (entry : string) : list string :=
  let normalized := normalizeToolName entry in
  if String.eqb normalized "group:plugins" then
    match pg_all groups with [] => [normalized] | l => l end
  else match oget (byPlugin groups) normalized with
       | Some (t :: tools) => t :: tools
       | _ => [normalized]
       end.

Definition expandPluginGroups (names : option (list string)) (groups : PluginToolGroups) : option (list string) :=
  match names with
  | None | Some [] => names
  | Some l => Some (unique (flat_map (expandPluginEntry groups) l))
  end.

Definition expandPolicyWithPluginGroups (policy : option ToolPolicyLike) (groups : PluginToolGroups) : option ToolPolicyLike :=
  (λ p, mkPolicy (expandPluginGroups (allow p) groups) (expandPluginGroups (deny p) groups)) <$> policy.

Record AllowlistResolution : Type := mkResolution {
  ar_policy : option ToolPolicyLike;
  unknownAllowlist : list string;
  pluginOnlyAllowlist : bool;
}.

Definition isPluginEntry (groups : PluginToolGroups) (entry : string) : bool :=
  String.eqb entry "group:plugins" || set_has (okeys (byPlugin groups)) entry || set_has (pg_all groups) entry.

Definition isCoreEntry (coreTools : list string) (entry : string) : bool :=
  existsb (set_has coreTools) (expandToolGroups (Some [entry])).

Definition analyzeAllowlistByToolType (policy : option ToolPolicyLike) (groups : PluginToolGroups) (coreTools : list string)
    : AllowlistResolution :=
  match policy ≫= allow with
  | None | Some [] => mkResolution policy [] false
  | Some l =>
      match normalizeToolList (Some l) with
      | [] => mkResolution policy [] false
      | normalized =>
          mkResolution policy
            (unique (List.filter (λ entry, negb (String.eqb entry "*") && negb (isCoreEntry coreTools entry)
                                           && negb (isPluginEntry groups entry)) normalized))
            (forallb (λ entry, negb (String.eqb entry "*") && isPluginEntry groups entry) normalized)
      end
  end.

(** ** What a policy says

    A star of a pattern stands for any characters of one line. *)

Inductive star_match : string → string → Prop :=
| star_nil : star_match EmptyString EmptyString
| star_any p seg t : str_all (λ c, negb (is_newline c)) seg = true → star_match p t → star_match (String "*"%char p) (seg +:+ t)
| star_char c p t : Ascii.eqb c "*"%char = false → star_match p t → star_match (String c p) (String c t).

(** An entry covers a tool by its group, or by its pattern. *)
Definition entry_covers (entry name : string) : Prop :=
  let normalized := normalizeToolName entry in
  match oget TOOL_GROUPS normalized with
  | Some group => name ∈ group
  | None => str_truthy normalized = true ∧ (normalized = "*"%string ∨ star_match normalized name)
  end.

Definition covered (entries : list string) (name : string) : Prop := ∃ entry, entry ∈ entries ∧ entry_covers entry name.

(** What is said of [write] is said of [apply_patch]. *)
Definition governed (entries : list string) (name : string) : Prop :=
  covered entries name ∨ name = "apply_patch"%string ∧ covered entries "write".

Definition blank (entry : string) : Prop := normalizeToolName entry = EmptyString.

(** No entry of [deny] governs the tool, and one of [allow] does, unless there is none. *)
Definition permits (policy : ToolPolicyLike) (name : string) : Prop :=
  let n := normalizeToolName name in
  ¬ governed (deny policy ?? []) n ∧ (Forall blank (allow policy ?? []) ∨ governed (allow policy ?? []) n).

(** ** Matching *)

Lemma plain_starRegex p : plain (starRegex p) = true.
Proof. induction p as [|c p IH]; [done|]. cbn. by destruct (Ascii.eqb c _). Qed.

Lemma lang_starRegex p t : lang (starRegex p) t ↔ star_match p t.
Proof.
  split.
  - revert t. induction p as [|c p IH]; intros t Hl; [inversion Hl; constructor|].
    cbn [starRegex] in Hl. destruct (Ascii.eqb c "*"%char) eqn:E; apply lang_seq_inv in Hl as (u & v & -> & Hu & Hv).
    + apply Ascii.eqb_eq in E as ->. constructor; [by apply lang_star_char|by apply IH].
    + apply lang_char_inv in Hu as (d & -> & Hd). apply Ascii.eqb_eq in Hd as <-. by constructor; [|apply IH].
  - induction 1 as [|p seg t Hseg _ IH|c p t Hc _ IH]; [constructor| |].
    + cbn. constructor; [by apply lang_star_char|done].
    + cbn [starRegex]. rewrite Hc. change (String c t) with (String c EmptyString +:+ t).
      constructor; [constructor; by apply Ascii.eqb_eq|done].
Qed.

Lemma star_match_exact p t : includes p "*" = false → star_match p t ↔ p = t.
Proof.
  revert t. induction p as [|c p IH]; intros t Hp; [split; [by inversion 1|intros <-; constructor]|].
  assert (Ascii.eqb c "*"%char = false ∧ includes p "*" = false) as [Hc Hp'].
  { change (starts_with (String c p) "*" || includes p "*" = false) in Hp. apply orb_false_iff in Hp as [H1 H2].
    split; [|done]. apply Ascii.eqb_neq. intros ->. by destruct p. }
  split; [inversion 1; subst; [done|f_equal; by apply IH]|]. intros <-. constructor; [done|by apply IH].
Qed.

(** Matching a compiled pattern is matching the pattern. *)
Lemma compiled_matches raw name :
  matchesAnyGlobPattern name (compileGlobPatterns (Some [raw]) normalizeToolName) = true
  ↔ str_truthy (normalizeToolName raw) = true
    ∧ (normalizeToolName raw = "*"%string ∨ star_match (normalizeToolName raw) name).
Proof.
  unfold compileGlobPatterns, compileGlobPattern. cbn [map List.filter]. generalize (normalizeToolName raw). intros p.
  destruct (str_truthy p) eqn:Et; cbn [negb]; [|by split; [|intros [? _]]].
  destruct (String.eqb p "*") eqn:Es; cbn; [apply String.eqb_eq in Es; by split; [split; [|left]|]|].
  assert (p ≠ "*"%string) as Hne by (by apply String.eqb_neq).
  destruct (includes p "*") eqn:Ei; cbn; [|rewrite Et; cbn]; rewrite orb_false_r.
  - rewrite test_anchored by apply plain_starRegex. rewrite lang_starRegex. naive_solver.
  - rewrite star_match_exact by done. rewrite String.eqb_eq. naive_solver.
Qed.

Lemma matches_each f l name :
  matchesAnyGlobPattern name (compileGlobPatterns (Some l) f) = true
  ↔ ∃ v, v ∈ l ∧ matchesAnyGlobPattern name (compileGlobPatterns (Some [v]) f) = true.
Proof.
  induction l as [|v l IH]; [split; [done|intros (v & Hv & _); by apply elem_of_nil in Hv]|].
  transitivity (matchesAnyGlobPattern name (compileGlobPatterns (Some [v]) f) = true
                ∨ matchesAnyGlobPattern name (compileGlobPatterns (Some l) f) = true).
  - unfold compileGlobPatterns. cbn [map List.filter]. unfold matchesAnyGlobPattern. case_match; cbn;
      rewrite ?orb_false_r, ?orb_true_iff; [done|naive_solver].
  - rewrite IH. setoid_rewrite elem_of_cons. naive_solver.
Qed.

Lemma compiled_nil f l : compileGlobPatterns (Some l) f = [] ↔ ∀ v, v ∈ l → f v = EmptyString.
Proof.
  induction l as [|v l IH]; [split; [intros _ v Hv; by apply elem_of_nil in Hv|done]|].
  transitivity (f v = EmptyString ∧ compileGlobPatterns (Some l) f = []).
  - unfold compileGlobPatterns, compileGlobPattern. cbn [map List.filter]. destruct (f v) as [|c s]; [naive_solver|].
    cbn [str_truthy negb]. split; [|by intros [? _]]. destruct (String.eqb _ "*"); [done|].
    by destruct (negb _).
  - rewrite IH. setoid_rewrite elem_of_cons. naive_solver.
Qed.

Lemma normalizeToolName_idemp name : normalizeToolName (normalizeToolName name) = normalizeToolName name.
Proof.
  unfold normalizeToolName, TOOL_NAME_ALIASES. cbn [oget].
  destruct (decide (lowered name = "bash"%string)) as [_|H1]; [done|].
  destruct (decide (lowered name = "apply-patch"%string)) as [_|H2]; [done|]. cbn [default from_option].
  assert (lowered (lowered name) = lowered name) as -> by apply normalizeLowercaseStringOrEmpty_idemp.
  by rewrite !decide_False.
Qed.

(** The names in the groups are normal, and stand for themselves. *)
Definition plain_name (name : string) : bool :=
  String.eqb (normalizeToolName name) name && str_truthy name && negb (includes name "*").

Lemma group_names group name tools :
  oget TOOL_GROUPS group = Some tools → name ∈ tools → plain_name name = true.
Proof.
  intros Hg%oget_In Hn. assert (forallb (λ e, forallb plain_name e.2) TOOL_GROUPS = true) as Hall by (vm_compute; reflexivity).
  rewrite forallb_forall in Hall. specialize (Hall _ Hg). cbn in Hall. rewrite forallb_forall in Hall.
  by apply Hall, list_elem_of_In.
Qed.

Lemma groups_nonempty group tools : oget TOOL_GROUPS group = Some tools → tools ≠ [].
Proof.
  intros Hg%oget_In. assert (forallb (λ e, negb (length e.2 =? 0)%nat) TOOL_GROUPS = true) as Hall by (vm_compute; reflexivity).
  rewrite forallb_forall in Hall. specialize (Hall _ Hg). by intros ->.
Qed.

Lemma expandToolGroups_elem l v :
  v ∈ expandToolGroups (Some l) ↔ ∃ entry, entry ∈ l ∧ str_truthy (normalizeToolName entry) = true
    ∧ match oget TOOL_GROUPS (normalizeToolName entry) with Some group => v ∈ group | None => v = normalizeToolName entry end.
Proof.
  unfold expandToolGroups, normalizeToolList. rewrite unique_elem, list_elem_of_In, in_flat_map. split.
  - intros (n & [(e & <- & He)%in_map_iff Ht]%filter_In & Hv). exists e. rewrite list_elem_of_In. split_and!; [done|done|].
    destruct (oget TOOL_GROUPS _); [by apply list_elem_of_In|]. by destruct Hv as [<-|[]].
  - intros (e & He & Ht & Hv). exists (normalizeToolName e). split.
    + apply filter_In. split; [|done]. apply in_map_iff. exists e. split; [done|by apply list_elem_of_In].
    + destruct (oget TOOL_GROUPS _); [by apply list_elem_of_In|]. by left.
Qed.

(** The compiled entries match the names that the entries cover. *)
Lemma compiled_covers l name :
  matchesAnyGlobPattern name (compileGlobPatterns (Some (expandToolGroups (Some l))) normalizeToolName) = true
  ↔ covered l name.
Proof.
  rewrite matches_each. setoid_rewrite expandToolGroups_elem. setoid_rewrite compiled_matches. unfold covered, entry_covers. split.
  - intros (v & (e & He & Ht & Hv) & Htv & Hm). exists e. split; [done|]. destruct (oget TOOL_GROUPS _) as [group|] eqn:Eg.
    + pose proof (group_names _ _ _ Eg Hv) as [[Hn%String.eqb_eq _]%andb_true_iff Hs%negb_true_iff]%andb_true_iff.
      rewrite Hn in Hm. rewrite star_match_exact in Hm by done. destruct Hm as [->| <-]; [by apply (f_equal negb) in Hs|done].
    + subst v. rewrite normalizeToolName_idemp in Hm. done.
  - intros (e & He & Hc). destruct (oget TOOL_GROUPS (normalizeToolName e)) as [group|] eqn:Eg.
    + pose proof (group_names _ _ _ Eg Hc) as [[Hn%String.eqb_eq Ht]%andb_true_iff Hs%negb_true_iff]%andb_true_iff.
      exists name. rewrite Hn. split; [|split; [done|right; by apply star_match_exact]]. exists e. rewrite Eg. split_and!; [done| |done].
      by destruct (normalizeToolName e).
    + exists (normalizeToolName e). rewrite normalizeToolName_idemp. split; [|done]. exists e. rewrite Eg. naive_solver.
Qed.

Lemma compiled_blank l :
  compileGlobPatterns (Some (expandToolGroups (Some l))) normalizeToolName = [] ↔ Forall blank l.
Proof.
  rewrite compiled_nil, Forall_forall. setoid_rewrite expandToolGroups_elem. unfold blank. split.
  - intros H e He. destruct (normalizeToolName e) as [|c s] eqn:En; [done|]. exfalso.
    destruct (oget TOOL_GROUPS (normalizeToolName e)) as [[|g group]|] eqn:Eg; [by apply groups_nonempty in Eg| |].
    + assert (normalizeToolName g = EmptyString) as Hg.
      { apply H. exists e. rewrite Eg, En. split_and!; [done|done|by left]. }
      pose proof (group_names _ g _ Eg (list_elem_of_here _ _)) as [[Hn%String.eqb_eq Ht]%andb_true_iff _]%andb_true_iff.
      rewrite Hg in Hn. by rewrite <- Hn in Ht.
    + assert (normalizeToolName (normalizeToolName e) = EmptyString) as Hg.
      { apply H. exists e. rewrite Eg, En. done. }
      by rewrite normalizeToolName_idemp, En in Hg.
  - intros H v (e & He & Ht & _). by rewrite (H e He) in Ht.
Qed.

(** A policy admits the tools that it permits. *)
Lemma makeToolPolicyMatcher_permits policy name : makeToolPolicyMatcher policy name = true ↔ permits policy name.
Proof.
  unfold makeToolPolicyMatcher, permits, governed. generalize (normalizeToolName name). intros n.
  pose proof (compiled_covers (deny policy ?? []) n) as Hd. pose proof (compiled_covers (deny policy ?? []) "write") as Hdw.
  pose proof (compiled_covers (allow policy ?? []) n) as Ha. pose proof (compiled_covers (allow policy ?? []) "write") as Haw.
  pose proof (compiled_blank (allow policy ?? [])) as Hb.
  revert Hd Hdw Ha Haw Hb.
  generalize (covered (deny policy ?? []) n) (covered (deny policy ?? []) "write") (covered (allow policy ?? []) n)
    (covered (allow policy ?? []) "write") (Forall blank (allow policy ?? [])).
  generalize (compileGlobPatterns (Some (expandToolGroups (Some (deny policy ?? [])))) normalizeToolName).
  generalize (compileGlobPatterns (Some (expandToolGroups (Some (allow policy ?? [])))) normalizeToolName).
  intros al dl P1 P2 P3 P4 P5 H1 H2 H3 H4 H5.
  assert (String.eqb n "apply_patch" = true ↔ n = "apply_patch"%string) as He by apply String.eqb_eq.
  assert (false = true ↔ False) by (split; done). assert (true = true) by done.
  destruct (matchesAnyGlobPattern n dl); [tauto|]. destruct (String.eqb n "apply_patch"); cbn [andb].
  - destruct (matchesAnyGlobPattern "write" dl); [tauto|]. destruct al as [|g al]; [assert P5 by (by apply H5); tauto|].
    assert (¬ P5) by (by rewrite <- H5). destruct (matchesAnyGlobPattern n (g :: al)); [tauto|].
    destruct (matchesAnyGlobPattern "write" (g :: al)); tauto.
  - destruct al as [|g al]; [assert P5 by (by apply H5); tauto|]. assert (¬ P5) by (by rewrite <- H5).
    destruct (matchesAnyGlobPattern n (g :: al)); tauto.
Qed.

(** ** Policies that name plugins *)

(** What an entry covers when it may name a plugin. *)
Definition covered_by (groups : PluginToolGroups) (entries : list string) (name : string) : Prop :=
  ∃ entry e, entry ∈ entries ∧ e ∈ expandPluginEntry groups entry ∧ entry_covers e name.

Definition governed_by (groups : PluginToolGroups) (entries : list string) (name : string) : Prop :=
  covered_by groups entries name ∨ name = "apply_patch"%string ∧ covered_by groups entries "write".

Definition admits (groups : PluginToolGroups) (policy : ToolPolicyLike) (name : string) : Prop :=
  let n := normalizeToolName name in
  ¬ governed_by groups (deny policy ?? []) n
  ∧ (Forall (λ entry, Forall blank (expandPluginEntry groups entry)) (allow policy ?? [])
     ∨ governed_by groups (allow policy ?? []) n).

Lemma expanded_elem groups l e :
  e ∈ (expandPluginGroups l groups ?? []) ↔ ∃ entry, entry ∈ (l ?? []) ∧ e ∈ expandPluginEntry groups entry.
Proof.
  destruct l as [[|x l]|]; cbn [expandPluginGroups from_option id];
    [split; [by intros ?%elem_of_nil|by intros (? & ?%elem_of_nil & _)]| |split; [by intros ?%elem_of_nil|by intros (? & ?%elem_of_nil & _)]].
  rewrite unique_elem, list_elem_of_In, in_flat_map. by setoid_rewrite list_elem_of_In.
Qed.

Lemma expanded_permits groups policy name :
  makeToolPolicyMatcher (mkPolicy (expandPluginGroups (allow policy) groups) (expandPluginGroups (deny policy) groups)) name = true
  ↔ admits groups policy name.
Proof.
  rewrite makeToolPolicyMatcher_permits. unfold permits, admits, governed, governed_by. cbn [allow deny].
  assert (∀ l n, covered (expandPluginGroups l groups ?? []) n ↔ covered_by groups (l ?? []) n) as Hc.
  { intros l n. unfold covered, covered_by. setoid_rewrite expanded_elem. naive_solver. }
  rewrite !Hc, !Forall_forall. setoid_rewrite expanded_elem. setoid_rewrite Forall_forall.
  assert (∀ l : list string, (∀ x, (∃ entry, entry ∈ l ∧ x ∈ expandPluginEntry groups entry) → blank x)
    ↔ (∀ entry, entry ∈ l → ∀ x, x ∈ expandPluginEntry groups entry → blank x)) as Hb.
  { intros l. split; [eauto|]. intros H x (e & He & Hx). by eapply H. }
  by rewrite Hb.
Qed.

(** Without plugins an entry stands for itself. *)
Lemma no_plugins_admits policy name : admits (mkGroups [] []) policy name ↔ permits policy name.
Proof.
  assert (∀ entry, expandPluginEntry (mkGroups [] []) entry = [normalizeToolName entry]) as He.
  { intros entry. unfold expandPluginEntry. cbn. by destruct (String.eqb _ _). }
  assert (∀ entry n, entry_covers (normalizeToolName entry) n ↔ entry_covers entry n) as Hn.
  { intros entry n. unfold entry_covers. by rewrite normalizeToolName_idemp. }
  assert (∀ l n, covered_by (mkGroups [] []) l n ↔ covered l n) as Hc.
  { intros l n. unfold covered_by, covered. setoid_rewrite He. setoid_rewrite list_elem_of_singleton. split.
    - intros (entry & e & Hin & -> & Hcov). exists entry. split; [done|by apply Hn].
    - intros (entry & Hin & Hcov). exists entry, (normalizeToolName entry). split_and!; [done|done|by apply Hn]. }
  unfold admits, permits, governed_by, governed. rewrite !Hc.
  assert (Forall (λ entry, Forall blank (expandPluginEntry (mkGroups [] []) entry)) (allow policy ?? []) ↔
    Forall blank (allow policy ?? [])) as ->; [|done].
  rewrite !Forall_forall. setoid_rewrite He. setoid_rewrite Forall_singleton. unfold blank. by setoid_rewrite normalizeToolName_idemp.
Qed.

End ToolPolicy.
