(* ===== verification/GroupPolicy.v ===== *)
(** * Policies of groups and senders

    src/config/group-policy.ts, the group part of src/agents/pi-tools.policy.ts and
    src/channels/plugins/session-conversation.ts: whether a group may talk to the
    agents, and which policy of tools applies to a sender in a group. The plugins of
    channels are the class [Channels]. The entries of an object are listed in the order
    of [Object.entries]. *)

From Stdlib Require Import Ascii.
From S2P Require Import Prelude JsRegex OMap SessionKey ToolPolicy.

#[local] Open Scope stdpp_scope.

Module GroupPolicy.
Import StringCoerce SessionKey ToolPolicy.

(** ** Configuration *)

Record ChannelGroupConfig : Type := mkGroup {
  requireMention : option bool;
  cg_tools : option ToolPolicyConfig;
  cg_toolsBySender : option (omap string (option ToolPolicyConfig));
}.

Definition ChannelGroups : Type := omap string ChannelGroupConfig.

Inductive ChannelGroupPolicyMode : Type := GroupOpen | GroupAllowlist | GroupDisabled.
#[export] Instance ChannelGroupPolicyMode_eq : EqDecision ChannelGroupPolicyMode := ltac:(solve_decision).

(** The fields [groups] and [groupPolicy] of a channel and of its accounts. *)
Record AccountConfig : Type := mkAccount { ac_groups : option ChannelGroups; ac_groupPolicy : option ChannelGroupPolicyMode }.

Record ChannelConfig : Type := mkChannel {
  ch_accounts : option (omap string AccountConfig);
  ch_groups : option ChannelGroups;
  ch_groupPolicy : option ChannelGroupPolicyMode;
}.

Definition Channels_config : Type := omap string ChannelConfig.

(** The names that every object inherits; as a group they have no settings. *)
Definition OBJECT_MEMBERS : list string :=
  ["constructor"; "hasOwnProperty"; "isPrototypeOf"; "propertyIsEnumerable"; "toLocaleString"; "toString"; "valueOf";
   "__proto__"; "__defineGetter__"; "__defineSetter__"; "__lookupGetter__"; "__lookupSetter__"].

Definition groupProperty (groups : ChannelGroups) (groupId : string) : option ChannelGroupConfig :=
  match oget groups groupId with
  | Some config => Some config
  | None => if set_has OBJECT_MEMBERS groupId then Some (mkGroup None None None) else None
  end.

Definition resolveChannelGroupConfig (groups : option ChannelGroups) (groupId : string) (caseInsensitive : bool)
    : option ChannelGroupConfig :=
  match groups with
  | None => None
  | Some groups =>
      match groupProperty groups groupId with
      | Some direct => Some direct
      | None =>
          if negb caseInsensitive then None
          else
            let target := lowered groupId in
            match List.find (λ key, negb (String.eqb key "*") && String.eqb (lowered key) target) (okeys groups) with
            | Some (String _ _ as matchedKey) => oget groups matchedKey
            | _ => None
            end
      end
  end.

(** ** Policies by sender *)

Inductive SenderKeyType : Type := KeyId | KeyE164 | KeyUsername | KeyName.
#[export] Instance SenderKeyType_eq : EqDecision SenderKeyType := ltac:(solve_decision).

Definition keyTypeText (t : SenderKeyType) : string :=
  match t with KeyId => "id" | KeyE164 => "e164" | KeyUsername => "username" | KeyName => "name" end.

Definition TOOLS_BY_SENDER_KEY_TYPES : list SenderKeyType := [KeyId; KeyE164; KeyUsername; KeyName].

Definition parseToolsBySenderTypedKey (rawKey : string) : option (SenderKeyType * string) :=
  let trimmed := trim rawKey in
  if negb (str_truthy trimmed) then None
  else
    let l := lowered trimmed in
    (λ t, (t, str_drop (String.length (keyTypeText t +:+ ":")) trimmed))
      <$> List.find (λ t, starts_with l (keyTypeText t +:+ ":")) TOOLS_BY_SENDER_KEY_TYPES.

Definition normalizeSenderKey (value : string) (stripLeadingAt : bool) : string :=
  let trimmed := trim value in
  if negb (str_truthy trimmed) then EmptyString
  else lowered (if stripLeadingAt && starts_with trimmed "@" then str_drop 1 trimmed else trimmed).

Definition normalizeTypedSenderKey (value : string) (type : SenderKeyType) : string :=
  normalizeSenderKey value (bool_decide (type = KeyUsername)).

Definition normalizeLegacySenderKey (value : string) : string := normalizeSenderKey value true.

Inductive ParsedSenderPolicyKey : Type :=
| WildcardKey
| TypedKey (type : SenderKeyType) (key : string).
#[export] Instance ParsedSenderPolicyKey_eq : EqDecision ParsedSenderPolicyKey := ltac:(solve_decision).

Definition parseSenderPolicyKey (rawKey : string) : option ParsedSenderPolicyKey :=
  let trimmed := trim rawKey in
  if negb (str_truthy trimmed) then None
  else if String.eqb trimmed "*" then Some WildcardKey
  else match parseToolsBySenderTypedKey trimmed with
       | Some (type, value) =>
           let key := normalizeTypedSenderKey value type in
           if str_truthy key then Some (TypedKey type key) else None
       | None =>
           let key := normalizeLegacySenderKey trimmed in
           if str_truthy key then Some (TypedKey KeyId key) else None
       end.

Record CompiledSenderPolicy : Type := mkCompiled {
  buckets : SenderKeyType → omap string ToolPolicyConfig;
  wildcard : option ToolPolicyConfig;
}.

(** One iteration of the loop of [compileToolsBySenderPolicy]. *)
Definition addSenderEntry (compiled : CompiledSenderPolicy) (entry : string * option ToolPolicyConfig) : CompiledSenderPolicy :=
  match entry.2, parseSenderPolicyKey entry.1 with
  | Some policy, Some WildcardKey => mkCompiled (buckets compiled) (Some policy)
  | Some policy, Some (TypedKey type key) =>
      if ohas (buckets compiled type) key then compiled
      else mkCompiled (λ t, if decide (t = type) then oset (buckets compiled type) key policy else buckets compiled t)
             (wildcard compiled)
  | _, _ => compiled
  end.

Definition compileToolsBySenderPolicy (toolsBySender : omap string (option ToolPolicyConfig)) : option CompiledSenderPolicy :=
  match toolsBySender with
  | [] => None
  | entries => Some (foldl addSenderEntry (mkCompiled (λ _, []) None) entries)
  end.

Record GroupToolPolicySender : Type := mkSender {
  senderId : option string;
  senderName : option string;
  senderUsername : option string;
  senderE164 : option string;
}.

Definition normalizeCandidate (value : option string) (type : SenderKeyType) : string :=
  match normalizeOptionalString value with None => EmptyString | Some trimmed => normalizeTypedSenderKey trimmed type end.

Definition normalizeSenderIdCandidates (value : option string) : list string :=
  match normalizeOptionalString value with
  | None => []
  | Some trimmed =>
      let typed := normalizeTypedSenderKey trimmed KeyId in
      let legacy := normalizeLegacySenderKey trimmed in
      if negb (str_truthy typed) then if str_truthy legacy then [legacy] else []
      else if negb (str_truthy legacy) || String.eqb legacy typed then [typed]
      else [typed; legacy]
  end.

(** The first of some keys that a bucket has. *)
Fixpoint firstInBucket (bucket : omap string ToolPolicyConfig) (keys : list string) : option ToolPolicyConfig :=
  match keys with
  | [] => None
  | key :: keys' => match oget bucket key with Some p => Some p | None => firstInBucket bucket keys' end
  end.

Definition matchCandidate (compiled : CompiledSenderPolicy) (value : option string) (type : SenderKeyType) : option ToolPolicyConfig :=
  let key := normalizeCandidate value type in
  if str_truthy key then oget (buckets compiled type) key else None.

Definition matchToolsBySenderPolicy (compiled : CompiledSenderPolicy) (params : GroupToolPolicySender) : option ToolPolicyConfig :=
  match firstInBucket (buckets compiled KeyId) (normalizeSenderIdCandidates (senderId params)) with
  | Some m => Some m
  | None =>
      match matchCandidate compiled (senderE164 params) KeyE164 with
      | Some m => Some m
      | None =>
          match matchCandidate compiled (senderUsername params) KeyUsername with
          | Some m => Some m
          | None =>
              match matchCandidate compiled (senderName params) KeyName with
              | Some m => Some m
              | None => wildcard compiled
              end
          end
      end
  end.

(** The cache of compiled policies, by the identity of the object, changes no result. *)
Definition resolveToolsBySender (toolsBySender : option (omap string (option ToolPolicyConfig))) (params : GroupToolPolicySender)
    : option ToolPolicyConfig :=
  match toolsBySender ≫= compileToolsBySenderPolicy with
  | None => None
  | Some compiled => matchToolsBySenderPolicy compiled params
  end.

(** ** The configuration of a group *)

Section config.
Context (channels : Channels_config).

Definition resolveChannelGroups (channel : string) (accountId : option string) : option ChannelGroups :=
  match oget channels channel with
  | None => None
  | Some channelConfig =>
      match resolveAccountEntry (ch_accounts channelConfig) (normalizeAccountId accountId) ≫= ac_groups with
      | Some groups => Some groups
      | None => ch_groups channelConfig
      end
  end.

Definition resolveChannelGroupPolicyMode (channel : string) (accountId : option string) : option ChannelGroupPolicyMode :=
  match oget channels channel with
  | None => None
  | Some channelConfig =>
      match resolveAccountEntry (ch_accounts channelConfig) (normalizeAccountId accountId) ≫= ac_groupPolicy with
      | Some mode => Some mode
      | None => ch_groupPolicy channelConfig
      end
  end.

Record ChannelGroupPolicy : Type := mkGroupPolicy {
  allowlistEnabled : bool;
  allowed : bool;
  groupConfig : option ChannelGroupConfig;
  defaultConfig : option ChannelGroupConfig;
}.

Definition resolveChannelGroupPolicy (channel : string) (groupId accountId : option string) (groupIdCaseInsensitive hasGroupAllowFrom : bool)
    : ChannelGroupPolicy :=
  let groups := resolveChannelGroups channel accountId in
  let groupPolicy := resolveChannelGroupPolicyMode channel accountId in
  let hasGroups := match groups with Some (_ :: _) => true | _ => false end in
  let allowlistMode := bool_decide (groupPolicy = Some GroupAllowlist) in
  let allowlistOn := allowlistMode || hasGroups in
  let config := match normalizeOptionalString groupId with
                | Some normalizedId => resolveChannelGroupConfig groups normalizedId groupIdCaseInsensitive
                | None => None
                end in
  let allowAll := allowlistOn && match groups with Some g => ohas g "*" | None => false end in
  let senderFilterBypass := allowlistMode && negb hasGroups && hasGroupAllowFrom in
  mkGroupPolicy allowlistOn
    (if bool_decide (groupPolicy = Some GroupDisabled) then false
     else negb allowlistOn || allowAll || bool_decide (is_Some config) || senderFilterBypass)
    config (groups ≫= λ g, oget g "*").

Definition resolveChannelGroupRequireMention (channel : string) (groupId accountId : option string) (groupIdCaseInsensitive : bool)
    (requireMentionOverride : option bool) (beforeConfig : bool) : bool :=
  let policy := resolveChannelGroupPolicy channel groupId accountId groupIdCaseInsensitive false in
  let configMention := match groupConfig policy ≫= requireMention with
                       | Some b => Some b
                       | None => defaultConfig policy ≫= requireMention
                       end in
  let before := if beforeConfig then requireMentionOverride else None in
  match before with
  | Some b => b
  | None =>
      match configMention with
      | Some b => b
      | None => match (if beforeConfig then None else requireMentionOverride) with Some b => b | None => true end
      end
  end.

(** The first group of the list that is configured. *)
Fixpoint firstConfigured (groups : option ChannelGroups) (groupIds : list (option string)) (caseInsensitive : bool)
    : option ChannelGroupConfig :=
  match groupIds with
  | [] => None
  | rawGroupId :: groupIds' =>
      match normalizeOptionalString rawGroupId with
      | None => firstConfigured groups groupIds' caseInsensitive
      | Some groupId =>
          match resolveChannelGroupConfig groups groupId caseInsensitive with
          | Some config => Some config
          | None => firstConfigured groups groupIds' caseInsensitive
          end
      end
  end.

Definition resolveChannelGroupToolsPolicy (channel : string) (groupId : option string) (groupIdCandidates : list (option string))
    (accountId : option string) (groupIdCaseInsensitive : bool) (sender : GroupToolPolicySender) : option ToolPolicyConfig :=
  let groups := resolveChannelGroups channel accountId in
  let config := firstConfigured groups (groupId :: groupIdCandidates) groupIdCaseInsensitive in
  let default := groups ≫= λ g, oget g "*" in
  match resolveToolsBySender (config ≫= cg_toolsBySender) sender with
  | Some p => Some p
  | None =>
      match config ≫= cg_tools with
      | Some p => Some p
      | None =>
          match resolveToolsBySender (default ≫= cg_toolsBySender) sender with
          | Some p => Some p
          | None => default ≫= cg_tools
          end
      end
  end.

End config.

(** ** The plugins of channels *)

Record SessionConversationHookResult : Type := mkHookResult {
  hr_id : string;
  hr_threadId : option string;
  hr_baseConversationId : option string;
  hr_parentConversationCandidates : option (list string);
}.

(** What an agent's group is asked about. *)
Record GroupQuery : Type := mkQuery {
  q_groupId : string;
  q_groupChannel : option string;
  q_groupSpace : option string;
  q_accountId : option string;
  q_sender : GroupToolPolicySender;
}.

Record MessagingAdapter : Type := mkMessaging {
  m_resolveSessionConversation : ConversationKind → string → option SessionConversationHookResult;
  m_resolveParentConversationCandidates : ConversationKind → string → option (list string);
}.

Class Channels := {
  bundledChatChannel : string → option string;        (* [normalizeChatChannelId], of a name in lower case *)
  registeredChannel : string → option string;         (* [normalizeAnyChannelId], of a name in lower case *)
  loadedMessaging : string → option MessagingAdapter;
  bundledConversation : string → option (ConversationKind → string → option SessionConversationHookResult);
  channelToolPolicy : string → option (GroupQuery → option ToolPolicyConfig);
}.

Section plugins.
Context `{Channels}.

Definition INTERNAL_MESSAGE_CHANNEL : string := "webchat".

Definition normalizeMessageChannel (raw : option string) : option string :=
  match normalizeOptionalLowercaseString raw with
  | None => None
  | Some normalized =>
      if String.eqb normalized INTERNAL_MESSAGE_CHANNEL then Some INTERNAL_MESSAGE_CHANNEL
      else match bundledChatChannel normalized with
           | Some builtIn => Some builtIn
           | None => Some (registeredChannel normalized ?? normalized)
           end
  end.

Definition normalizeResolvedChannel (channel : string) : string :=
  match normalizeOptionalLowercaseString (Some channel) with
  | None => EmptyString
  | Some key =>
      match registeredChannel key with
      | Some id => id
      | None => bundledChatChannel key ?? key
      end
  end.

Definition dedupeConversationIds (values : list string) : list string := unique (List.filter str_truthy (map trim values)).

Record ResolvedSessionConversation : Type := mkConversation {
  rc_id : string;
  rc_threadId : option string;
  rc_baseConversationId : string;
  rc_parentConversationCandidates : list string;
}.

Definition buildGenericConversationResolution (rawId : string) : option ResolvedSessionConversation :=
  let trimmed := trim rawId in
  if negb (str_truthy trimmed) then None
  else
    let parsed := parseThreadSessionSuffix (Some trimmed) in
    let id := trim (baseSessionKey parsed ?? trimmed) in
    if negb (str_truthy id) then None
    else Some (mkConversation id (threadId parsed) id
                 (dedupeConversationIds (match threadId parsed with
                                         | Some (String _ _) => option_list (baseSessionKey parsed)
                                         | _ => []
                                         end))).

(** With whether the parent conversations were given. *)
Definition normalizeSessionConversationResolution (resolved : option SessionConversationHookResult)
    : option (ResolvedSessionConversation * bool) :=
  match resolved with
  | None => None
  | Some r =>
      let id := trim (hr_id r) in
      if negb (str_truthy id) then None
      else
        let parents := dedupeConversationIds (hr_parentConversationCandidates r ?? []) in
        Some (mkConversation id (normalizeOptionalString (hr_threadId r))
                (match normalizeOptionalString (hr_baseConversationId r) with Some b => b | None => last parents ?? id end)
                parents,
              bool_decide (is_Some (hr_parentConversationCandidates r)))
  end.

Definition resolveSessionConversation (channel : string) (kind : ConversationKind) (rawId : string) (bundledFallback : bool)
    : option ResolvedSessionConversation :=
  let rawId := trim rawId in
  if negb (str_truthy rawId) then None
  else
    let messaging := loadedMessaging (normalizeResolvedChannel channel) in
    let pluginResolved := normalizeSessionConversationResolution
                            (messaging ≫= λ m, m_resolveSessionConversation m kind rawId) in
    let fallback := if bundledFallback && negb (bool_decide (is_Some messaging)) then
                      fst <$> normalizeSessionConversationResolution
                                (bundledConversation (normalizeResolvedChannel channel) ≫= λ f, f kind rawId)
                    else None in
    let resolved := match fst <$> pluginResolved with
                    | Some r => Some r
                    | None => match fallback with Some r => Some r | None => buildGenericConversationResolution rawId end
                    end in
    (λ r,
      let parents := dedupeConversationIds
                       (if snd <$> pluginResolved is Some true then rc_parentConversationCandidates r
                        else (messaging ≫= λ m, m_resolveParentConversationCandidates m kind rawId)
                             ?? rc_parentConversationCandidates r) in
      mkConversation (rc_id r) (rc_threadId r) (last parents ?? rc_baseConversationId r) parents) <$> resolved.

(** ** The group of a session: pi-tools.policy.ts *)

Definition collectUniqueStrings (values : list (option string)) : list string :=
  unique (List.filter str_truthy (map trim (base.omap id values))).

Definition notColon : regex := RChar (λ c, negb (Ascii.eqb c ":"%char)).

Definition TOPIC_SENDER_RE : regex :=
  anchored (RCat [RGroup 1 (RPlus RDot); RLitI ":topic:"; RGroup 2 (RPlus notColon); RLitI ":sender:"; RGroup 3 (RPlus notColon)]).
Definition TOPIC_RE : regex := anchored (RCat [RGroup 1 (RPlus RDot); RLitI ":topic:"; RGroup 2 (RPlus notColon)]).
Definition SENDER_RE : regex := anchored (RCat [RGroup 1 (RPlus RDot); RLitI ":sender:"; RGroup 2 (RPlus notColon)]).
Definition SCOPED_RE : regex := RCat [RLit ":"; RAny [RLitI "sender"; RLitI "thread"; RLitI "topic"]; RLit ":"].

Definition group_of (caps : captures) (i : nat) : string := default EmptyString (capture caps i).

Definition buildScopedGroupIdCandidates (groupId : option string) : list string :=
  match normalizeOptionalString groupId with
  | None => []
  | Some raw =>
      match exec TOPIC_SENDER_RE raw with
      | Some m => collectUniqueStrings [Some raw; Some (group_of m 1 +:+ ":topic:" +:+ group_of m 2); Some (group_of m 1)]
      | None =>
          match exec TOPIC_RE raw with
          | Some m => collectUniqueStrings [Some (group_of m 1 +:+ ":topic:" +:+ group_of m 2); Some (group_of m 1)]
          | None =>
              match exec SENDER_RE raw with
              | Some m => collectUniqueStrings [Some raw; Some (group_of m 1)]
              | None => [raw]
              end
          end
      end
  end.

(** The channel and the groups, when the key names a group. *)
Definition resolveGroupContextFromSessionKey (sessionKey : option string) : option (string * list string) :=
  match normalizeOptionalString sessionKey with
  | None => None
  | Some raw =>
      let suffix := parseThreadSessionSuffix (Some raw) in
      let conversationKey := match threadId suffix with
                             | Some (String _ _) => baseSessionKey suffix
                             | _ => Some raw
                             end in
      match parseRawSessionConversationRef conversationKey with
      | Some conversation =>
          let resolvedConversation :=
            if test SCOPED_RE (cr_rawId conversation)
            then resolveSessionConversation (cr_channel conversation) (cr_kind conversation) (cr_rawId conversation) true
            else None in
          Some (cr_channel conversation,
                collectUniqueStrings
                  (map Some (buildScopedGroupIdCandidates (Some (cr_rawId conversation)))
                   ++ [rc_id <$> resolvedConversation; rc_baseConversationId <$> resolvedConversation]
                   ++ map Some (default [] (rc_parentConversationCandidates <$> resolvedConversation))))
      | None =>
          let parts := List.filter str_truthy (split_on colon (conversationKey ?? raw)) in
          let body := match parts with "agent"%string :: rest => skipn 1 rest | _ => parts end in
          let body := match body with "subagent"%string :: rest => rest | _ => body end in
          match body with
          | channel :: kind :: (_ :: _) as rest =>
              let rest := skipn 2 body in
              if negb (String.eqb kind "group") && negb (String.eqb kind "channel") then None
              else
                let groupId := trim (join_with ":" rest) in
                if str_truthy groupId then Some (lowered channel, buildScopedGroupIdCandidates (Some groupId)) else None
          | _ => None
          end
      end
  end.

Fixpoint firstPolicy (resolve : string → option ToolPolicyConfig) (groupIds : list string) : option ToolPolicyLike :=
  match groupIds with
  | [] => None
  | groupId :: groupIds' =>
      match pickSandboxToolPolicy (resolve groupId) with
      | Some policy => Some policy
      | None => firstPolicy resolve groupIds'
      end
  end.

Record GroupToolParams : Type := mkGroupParams {
  gp_sessionKey : option string;
  gp_spawnedBy : option string;
  gp_messageProvider : option string;
  gp_groupId : option string;
  gp_groupChannel : option string;
  gp_groupSpace : option string;
  gp_accountId : option string;
  gp_sender : GroupToolPolicySender;
}.

(** The groups that the arguments and the session keys name. *)
Definition groupIdsOf (params : GroupToolParams) : list string :=
  collectUniqueStrings
    (map Some (buildScopedGroupIdCandidates (gp_groupId params)
               ++ default [] (snd <$> resolveGroupContextFromSessionKey (gp_sessionKey params))
               ++ default [] (snd <$> resolveGroupContextFromSessionKey (gp_spawnedBy params)))).

Definition resolveGroupToolPolicy (config : option Channels_config) (params : GroupToolParams) : option ToolPolicyLike :=
  match config with
  | None => None
  | Some channels =>
      match groupIdsOf params with
      | [] => None
      | groupId :: candidates =>
          let channelRaw := match gp_messageProvider params with
                            | Some c => Some c
                            | None =>
                                match fst <$> resolveGroupContextFromSessionKey (gp_sessionKey params) with
                                | Some c => Some c
                                | None => fst <$> resolveGroupContextFromSessionKey (gp_spawnedBy params)
                                end
                            end in
          match normalizeMessageChannel channelRaw with
          | None | Some EmptyString => None
          | Some channel =>
              match firstPolicy (λ id, channelToolPolicy channel ≫= λ f,
                                   f (mkQuery id (gp_groupChannel params) (gp_groupSpace params) (gp_accountId params) (gp_sender params)))
                      (groupId :: candidates) with
              | Some policy => Some policy
              | None =>
                  pickSandboxToolPolicy
                    (resolveChannelGroupToolsPolicy channels channel (Some groupId) (map Some candidates)
                       (gp_accountId params) false (gp_sender params))
              end
          end
      end
  end.

End plugins.

(** ** The policy of a sender, by a scan of the entries *)

(** The policies that the entries give to a key, in their order. *)
Definition policiesFor (key : ParsedSenderPolicyKey) (entries : omap string (option ToolPolicyConfig)) : list ToolPolicyConfig :=
  base.omap (λ e, if decide (parseSenderPolicyKey e.1 = Some key) then e.2 else None) entries.

(** The keys of a sender, from the strongest to the weakest. *)
Definition senderKeys (params : GroupToolPolicySender) : list ParsedSenderPolicyKey :=
  map (TypedKey KeyId) (normalizeSenderIdCandidates (senderId params))
  ++ map (λ p, TypedKey p.1 p.2)
       (List.filter (λ p, str_truthy p.2)
          [(KeyE164, normalizeCandidate (senderE164 params) KeyE164);
           (KeyUsername, normalizeCandidate (senderUsername params) KeyUsername);
           (KeyName, normalizeCandidate (senderName params) KeyName)]).

(** The first policy of the strongest key that has one; else the last wildcard. *)
Definition senderPolicy (entries : omap string (option ToolPolicyConfig)) (params : GroupToolPolicySender) : option ToolPolicyConfig :=
  match flat_map (λ key, policiesFor key entries) (senderKeys params) with
  | policy :: _ => Some policy
  | [] => last (policiesFor WildcardKey entries)
  end.

Lemma policiesFor_cons key e entries :
  policiesFor key (e :: entries) =
  (if decide (parseSenderPolicyKey e.1 = Some key) then option_list e.2 else []) ++ policiesFor key entries.
Proof. unfold policiesFor. cbn. case_decide; [|done]. by destruct e.2. Qed.

Lemma compiled_bucket entries compiled type key :
  oget (buckets (foldl addSenderEntry compiled entries) type) key =
  match oget (buckets compiled type) key with
  | Some policy => Some policy
  | None => head (policiesFor (TypedKey type key) entries)
  end.
Proof.
  revert compiled. induction entries as [|e entries IH]; intros compiled; cbn [foldl].
  { by destruct (oget _ _). }
  rewrite IH, policiesFor_cons. clear IH. unfold addSenderEntry.
  destruct e.2 as [policy|]; [|case_decide; by destruct (oget _ _)].
  destruct (parseSenderPolicyKey e.1) as [[|t k]|]; [by rewrite decide_False|..|by rewrite decide_False].
  destruct (ohas (buckets compiled t) k) eqn:Eh; unfold ohas in Eh.
  - case_decide as E; [|done]. simplify_eq. by destruct (oget (buckets compiled type) key).
  - destruct (oget (buckets compiled t) k) eqn:Eo; [done|]. cbn [buckets].
    destruct (decide (type = t)) as [->|Ht].
    + destruct (decide (k = key)) as [->|Hk].
      * rewrite oget_oset_eq, Eo, decide_True by done. done.
      * rewrite oget_oset_ne by done. rewrite decide_False by congruence. done.
    + rewrite decide_False by congruence. done.
Qed.

Lemma compiled_wildcard entries compiled :
  wildcard (foldl addSenderEntry compiled entries) =
  match last (policiesFor WildcardKey entries) with Some policy => Some policy | None => wildcard compiled end.
Proof.
  revert compiled. induction entries as [|e entries IH]; intros compiled; [done|]. cbn [foldl].
  rewrite IH, policiesFor_cons, last_app. destruct (last (policiesFor WildcardKey entries)); [done|].
  unfold addSenderEntry. destruct e.2 as [policy|]; [|by case_decide].
  destruct (parseSenderPolicyKey e.1) as [[|t k]|]; [by rewrite decide_True|..|by rewrite decide_False].
  rewrite decide_False by done. by destruct (ohas _ _).
Qed.

Lemma firstInBucket_scan entries type keys :
  firstInBucket (buckets (foldl addSenderEntry (mkCompiled (λ _, []) None) entries) type) keys =
  head (flat_map (λ key, policiesFor key entries) (map (TypedKey type) keys)).
Proof.
  induction keys as [|key keys IH]; [done|]. cbn [firstInBucket map flat_map]. rewrite compiled_bucket, IH. cbn [oget buckets].
  rewrite head_app. by destruct (policiesFor (TypedKey type key) entries).
Qed.

(** The compiled tables answer as the scan does. *)
Lemma resolveToolsBySender_scan entries params :
  resolveToolsBySender (Some entries) params = senderPolicy entries params.
Proof.
  unfold resolveToolsBySender, senderPolicy. destruct entries as [|e entries].
  { cbn. assert (∀ keys, flat_map (λ key, policiesFor key []) keys = []) as -> by (induction keys; done). done. }
  cbn [option_bind mbind compileToolsBySenderPolicy]. generalize (e :: entries). clear. intros entries.
  unfold matchToolsBySenderPolicy, matchCandidate, senderKeys. rewrite firstInBucket_scan, !compiled_bucket, compiled_wildcard.
  rewrite flat_map_app. destruct (flat_map _ (map (TypedKey KeyId) _)) as [|p ps]; [|done]. cbn [head app].
  cbn [List.filter snd oget buckets wildcard].
  generalize (normalizeCandidate (senderE164 params) KeyE164) (normalizeCandidate (senderUsername params) KeyUsername)
    (normalizeCandidate (senderName params) KeyName). intros k1 k2 k3.
  assert (∀ (l l' : list ToolPolicyConfig) (d : option ToolPolicyConfig),
    match l ++ l' with p :: _ => Some p | [] => d end = match head l with Some p => Some p | None => match l' with p :: _ => Some p | [] => d end end)
    as Happ by (by intros [|] ? ?).
  assert (match last (policiesFor WildcardKey entries) with Some p => Some p | None => None end
    = last (policiesFor WildcardKey entries)) as -> by by destruct (last _).
  destruct (str_truthy k1), (str_truthy k2), (str_truthy k3); cbn [map flat_map fst snd]; rewrite ?app_nil_r, ?Happ; try done;
    repeat (destruct (policiesFor _ _); cbn; try done).
Qed.

(** ** The policy of a group *)

(** The first of four sources, from the group to the wildcard group. *)
Definition groupSources (config default : option ChannelGroupConfig) (sender : GroupToolPolicySender) : list (option ToolPolicyConfig) :=
  [(config ≫= cg_toolsBySender) ≫= (λ entries, senderPolicy entries sender);
   config ≫= cg_tools;
   (default ≫= cg_toolsBySender) ≫= (λ entries, senderPolicy entries sender);
   default ≫= cg_tools].

(** C14. The policy of tools of a sender in a group is the first of four sources: the group's
    entry for the sender, the group's policy, the entry of the wildcard group for the sender,
    the policy of the wildcard group. The entry for a sender is found by a scan of the entries,
    from the sender's strongest key to the weakest ([resolveChannelGroupToolsPolicy]). *)
Theorem group_tools_follow_precedence channels channel groupId candidates accountId ci sender :
  let groups := resolveChannelGroups channels channel accountId in
  resolveChannelGroupToolsPolicy channels channel groupId candidates accountId ci sender =
  head (base.omap id (groupSources (firstConfigured groups (groupId :: candidates) ci) (groups ≫= λ g, oget g "*") sender)).
Proof.
  cbv zeta. unfold resolveChannelGroupToolsPolicy, groupSources. generalize (firstConfigured
    (resolveChannelGroups channels channel accountId) (groupId :: candidates) ci) (resolveChannelGroups channels channel accountId ≫= λ g, oget g "*").
  intros config default.
  assert (∀ o, resolveToolsBySender o sender = o ≫= λ entries, senderPolicy entries sender) as Hs.
  { intros [entries|]; [apply resolveToolsBySender_scan|done]. }
  rewrite !Hs. cbn. repeat (destruct (_ ≫= _); cbn; try done).
Qed.

(** ** Which groups are let in *)

(** A group is listed by its name, or in another letter case where the channel says so. *)
Definition listed (groups : ChannelGroups) (groupId : string) (caseInsensitive : bool) : Prop :=
  groupId ∈ okeys groups ∨ caseInsensitive = true ∧ ∃ key, key ∈ okeys groups ∧ key ≠ "*"%string ∧ lowered key = lowered groupId.

Lemma configured_listed groups groupId ci :
  is_Some (resolveChannelGroupConfig (Some groups) groupId ci) → listed groups groupId ci ∨ groupId ∈ OBJECT_MEMBERS.
Proof.
  unfold resolveChannelGroupConfig, groupProperty, listed. destruct (oget groups groupId) as [c|] eqn:Eg.
  { intros _. left. left. apply list_elem_of_In. by eapply oget_key. }
  destruct (set_has OBJECT_MEMBERS groupId) eqn:Eo; [intros _; right; by apply set_has_iff|].
  destruct ci; cbn [negb]; [|by intros [? ?]]. destruct (List.find _ _) as [[|c key]|] eqn:Ef; [by intros [? ?]| |by intros [? ?]].
  apply find_some in Ef as [Hin [Hne Heq]%andb_true_iff]. intros _. left. right. split; [done|].
  exists (String c key). rewrite list_elem_of_In. split_and!; [done| |by apply String.eqb_eq].
  by apply negb_true_iff, String.eqb_neq in Hne.
Qed.

(** Under an allowlist, and where groups are listed, only the listed groups are let in, apart
    from the names that objects inherit. *)
Lemma allowlisted_groups_only channels channel groupId accountId ci bypass :
  let policy := resolveChannelGroupPolicy channels channel (Some groupId) accountId ci bypass in
  let groups := default [] (resolveChannelGroups channels channel accountId) in
  allowlistEnabled policy = true → allowed policy = true →
  "*"%string ∈ okeys groups ∨ listed groups (trim groupId) ci ∨ trim groupId ∈ OBJECT_MEMBERS
  ∨ (resolveChannelGroupPolicyMode channels channel accountId = Some GroupAllowlist ∧ groups = [] ∧ bypass = true).
Proof.
  cbv zeta. unfold resolveChannelGroupPolicy. cbn [allowlistEnabled allowed]. intros Hon Ha.
  destruct (bool_decide (_ = Some GroupDisabled)); [done|]. rewrite Hon in Ha. cbn [negb orb andb] in Ha.
  apply orb_true_iff in Ha as [[Ha|Ha]%orb_true_iff|Ha].
  - left. destruct (resolveChannelGroups _ _ _) as [g|]; [|done]. unfold ohas in Ha. cbn.
    destruct (oget g "*") eqn:E; [|done]. apply list_elem_of_In. by eapply oget_key.
  - right. apply bool_decide_eq_true in Ha. unfold normalizeOptionalString, normalizeNullableString in Ha.
    destruct (trim groupId) as [|c s]; [by destruct Ha|].
    destruct (resolveChannelGroups _ _ _) as [g|]; [|by destruct Ha]. cbn.
    apply configured_listed in Ha as [?|?]; [by left|by right; left].
  - right. right. right. apply andb_true_iff in Ha as [[Hm%bool_decide_eq_true Hg]%andb_true_iff ->].
    split_and!; [done| |done]. by destruct (resolveChannelGroups _ _ _) as [[|]|].
Qed.

(** A group that is not listed and is called [constructor] passes the allowlist. *)
Lemma inherited_name_passes_the_allowlist :
  let channels := [("irc"%string, mkChannel None (Some [("#team"%string, mkGroup None None None)]) (Some GroupAllowlist))] in
  allowed (resolveChannelGroupPolicy channels "irc" (Some "#other"%string) None false false) = false
  ∧ allowed (resolveChannelGroupPolicy channels "irc" (Some "constructor"%string) None false false) = true.
Proof. vm_compute. done. Qed.

End GroupPolicy.
