(* ===== verification/SubagentDepth.v ===== *)
(** * The depth of a sub-agent

    src/agents/subagent-depth.ts and subagent-capabilities.ts: how deep the session of a
    sub-agent is nested, found by following the sessions that spawned it through the
    session stores, and what a sub-agent of this depth may do. The stores are read from
    files; a store is the list of its entries, and the fields of an entry have the
    shapes the code tells apart. Following the sessions ends, however they are linked. *)

From S2P Require Import Prelude OMap SessionKey JsNumber.

#[local] Open Scope stdpp_scope.

Module SubagentDepth.
Import StringCoerce SessionKey JsNumber.

(** A field that is not a string is none. *)
Record SessionDepthEntry : Type := mkDepthEntry {
  sd_sessionId : option string;
  sd_spawnDepth : RawNumber;
  sd_spawnedBy : option string;
  sd_subagentRole : option string;
  sd_subagentControlScope : option string;
}.

Definition SessionStore : Type := omap string (option SessionDepthEntry).

Definition normalizeSubagentSessionKey (key : option string) : option string := normalizeOptionalString key.

(** [Number.isInteger(n) && n >= 0 ? n : undefined] *)
Definition natural_num (n : num) : option Z :=
  match n with
  | Fin q => if Qeq_bool q (inject_Z (floorQ q)) && (0 <=? floorQ q) then Some (floorQ q) else None
  | _ => None
  end.

Definition normalizeSpawnDepth (value : RawNumber) : option Z :=
  match value with
  | VNum n => natural_num n
  | VStr s => let trimmed := trim s in if str_truthy trimmed then natural_num (to_number trimmed) else None
  | VOther => None
  end.

(** [cfg] of the code: the default agent of the configuration, and where the stores are. *)
Record StoreConfig : Type := mkStoreConfig {
  defaultAgent : string;
  resolveStorePath : string → string;                      (* of an agent *)
}.

Definition buildKeyCandidates (rawKey : string) (cfg : option StoreConfig) : list string :=
  match cfg with
  | None => [rawKey]
  | Some cfg =>
      if String.eqb rawKey "global" || String.eqb rawKey "unknown" then [rawKey]
      else match parseAgentSessionKey (Some rawKey) with
           | Some _ => [rawKey]
           | None =>
               let prefixed := "agent:" +:+ defaultAgent cfg +:+ ":" +:+ rawKey in
               if String.eqb prefixed rawKey then [rawKey] else [rawKey; prefixed]
           end
  end.

Definition findEntryBySessionId (store : SessionStore) (sessionId : string) : option SessionDepthEntry :=
  match normalizeSubagentSessionKey (Some sessionId) with
  | None => None
  | Some normalizedSessionId =>
      List.find (λ entry, bool_decide (normalizeSubagentSessionKey (sd_sessionId entry) = Some normalizedSessionId))
        (base.omap id (ovalues store))
  end.

(** The entry with the key, or with the identifier, in one store. *)
Definition entryIn (store : SessionStore) (key sessionKey : string) : option SessionDepthEntry :=
  match mjoin (oget store key) with Some entry => Some entry | None => findEntryBySessionId store sessionKey end.

Section depth.
(** The store given by the caller, the configuration, and the stores on disk: a missing or
    invalid file is an empty store. *)
Context (givenStore : option SessionStore) (cfg : option StoreConfig) (files : omap string SessionStore).

Definition readSessionStore (path : string) : SessionStore := default [] (oget files path).

Fixpoint firstEntry (find : string → option SessionDepthEntry) (keys : list string) : option SessionDepthEntry :=
  match keys with
  | [] => None
  | key :: keys' => match find key with Some entry => Some entry | None => firstEntry find keys' end
  end.

Definition resolveEntryForSessionKey (sessionKey : string) : option SessionDepthEntry :=
  let candidates := buildKeyCandidates sessionKey cfg in
  match givenStore with
  | Some store =>
      match firstEntry (λ key, mjoin (oget store key)) candidates with
      | Some entry => Some entry
      | None => findEntryBySessionId store sessionKey
      end
  | None =>
      match cfg with
      | None => None
      | Some c =>
          firstEntry (λ key, match parseAgentSessionKey (Some key) with
                             | Some parsed => entryIn (readSessionStore (resolveStorePath c (agentId parsed))) key sessionKey
                             | None => None
                             end) candidates
      end
  end.

(** [None] when the fuel is used up; a visited key has no depth. *)
Fixpoint depthFromStore (fuel : nat) (visited : list string) (key : string) : option (option Z) :=
  match fuel with
  | O => None
  | S fuel' =>
      match normalizeSubagentSessionKey (Some key) with
      | None => Some None
      | Some normalizedKey =>
          if set_has visited normalizedKey then Some None
          else
            let entry := resolveEntryForSessionKey normalizedKey in
            match entry ≫= λ e, normalizeSpawnDepth (sd_spawnDepth e) with
            | Some storedDepth => Some (Some storedDepth)
            | None =>
                match normalizeSubagentSessionKey (entry ≫= sd_spawnedBy) with
                | None => Some None
                | Some spawnedBy =>
                    (λ parentDepth,
                      match parentDepth with
                      | Some parent => Some (parent + 1)
                      | None => Some (Z.of_nat (getSubagentDepth (Some spawnedBy)) + 1)
                      end) <$> depthFromStore fuel' (normalizedKey :: visited) spawnedBy
                end
            end
      end
  end.

(** The entries that can be met. *)
Definition allEntries : list SessionDepthEntry :=
  flat_map (λ store : SessionStore, base.omap id (ovalues store)) (option_list givenStore ++ ovalues files).

(** Two more than the entries: the first key and the key that ends the search. *)
Definition depthFuel : nat := (length allEntries + 2)%nat.

Definition getSubagentDepthFromSessionStore (sessionKey : option string) : option Z :=
  let raw := trimmed_or_empty sessionKey in
  let fallbackDepth := Z.of_nat (getSubagentDepth (Some raw)) in
  if negb (str_truthy raw) then Some fallbackDepth
  else (λ depth, default fallbackDepth depth) <$> depthFromStore depthFuel [] raw.

End depth.

(** ** What a sub-agent may do: subagent-capabilities.ts *)

Inductive SubagentSessionRole : Type := RoleMain | RoleOrchestrator | RoleLeaf.
Inductive SubagentControlScope : Type := ScopeChildren | ScopeNone.
#[export] Instance SubagentSessionRole_eq : EqDecision SubagentSessionRole := ltac:(solve_decision).
#[export] Instance SubagentControlScope_eq : EqDecision SubagentControlScope := ltac:(solve_decision).

Definition DEFAULT_SUBAGENT_MAX_SPAWN_DEPTH : Z := 1.

Definition normalizeSubagentRole (value : option string) : option SubagentSessionRole :=
  match normalizeOptionalLowercaseString value with
  | Some "main"%string => Some RoleMain
  | Some "orchestrator"%string => Some RoleOrchestrator
  | Some "leaf"%string => Some RoleLeaf
  | _ => None
  end.

Definition normalizeSubagentControlScope (value : option string) : option SubagentControlScope :=
  match normalizeOptionalLowercaseString value with
  | Some "children"%string => Some ScopeChildren
  | Some "none"%string => Some ScopeNone
  | _ => None
  end.

Definition resolveSubagentRoleForDepth (depth : Z) (maxSpawnDepth : option num) : SubagentSessionRole :=
  let depth := Z.max 0 depth in
  let maxSpawnDepth := match maxSpawnDepth ≫= finite_num with
                       | Some q => Z.max 1 (floorQ q)
                       | None => DEFAULT_SUBAGENT_MAX_SPAWN_DEPTH
                       end in
  if depth <=? 0 then RoleMain else if depth <? maxSpawnDepth then RoleOrchestrator else RoleLeaf.

Definition resolveSubagentControlScopeForRole (role : SubagentSessionRole) : SubagentControlScope :=
  match role with RoleLeaf => ScopeNone | _ => ScopeChildren end.

Record SubagentCapabilities : Type := mkCapabilities {
  cap_depth : Z;
  cap_role : SubagentSessionRole;
  cap_controlScope : SubagentControlScope;
  canSpawn : bool;
  canControlChildren : bool;
}.

Definition capabilitiesOf (depth : Z) (role : SubagentSessionRole) (controlScope : SubagentControlScope) : SubagentCapabilities :=
  mkCapabilities depth role controlScope
    (bool_decide (role = RoleMain) || bool_decide (role = RoleOrchestrator)) (bool_decide (controlScope = ScopeChildren)).

Definition resolveSubagentCapabilities (depth : Z) (maxSpawnDepth : option num) : SubagentCapabilities :=
  let role := resolveSubagentRoleForDepth depth maxSpawnDepth in
  capabilitiesOf (Z.max 0 depth) role (resolveSubagentControlScopeForRole role).

Section capabilities.
Context (givenStore : option SessionStore) (cfg : option StoreConfig).
(** The files as [subagent-depth.ts] reads them, and as [loadSessionStore] does. *)
Context (files loaded : omap string SessionStore) (configuredDepth : option num).

Definition resolveSessionCapabilityEntry (sessionKey : string) : option SessionDepthEntry :=
  match givenStore with
  | Some store => entryIn store sessionKey sessionKey
  | None =>
      match cfg, parseAgentSessionKey (Some sessionKey) with
      | Some c, Some parsed => entryIn (default [] (oget loaded (resolveStorePath c (agentId parsed)))) sessionKey sessionKey
      | _, _ => None
      end
  end.

Definition resolveStoredSubagentCapabilities (sessionKey : option string) : option SubagentCapabilities :=
  let normalizedSessionKey := normalizeSubagentSessionKey sessionKey in
  let maxSpawnDepth := default (num_of_Z DEFAULT_SUBAGENT_MAX_SPAWN_DEPTH) configuredDepth in
  (λ depth,
    match normalizedSessionKey with
    | Some key =>
        if negb (isSubagentSessionKey (Some key)) then resolveSubagentCapabilities depth (Some maxSpawnDepth)
        else
          let entry := resolveSessionCapabilityEntry key in
          let fallback := resolveSubagentCapabilities depth (Some maxSpawnDepth) in
          let role := default (cap_role fallback) (normalizeSubagentRole (entry ≫= sd_subagentRole)) in
          let controlScope := default (resolveSubagentControlScopeForRole role)
                                (normalizeSubagentControlScope (entry ≫= sd_subagentControlScope)) in
          capabilitiesOf depth role controlScope
    | None => resolveSubagentCapabilities depth (Some maxSpawnDepth)
    end) <$> getSubagentDepthFromSessionStore givenStore cfg files normalizedSessionKey.

End capabilities.

(** ** Following the sessions ends *)

Section found.
Context (givenStore : option SessionStore) (cfg : option StoreConfig) (files : omap string SessionStore).

#[local] Abbreviation entries := (allEntries givenStore files).

Lemma store_entry_elem store entry :
  store ∈ option_list givenStore ++ ovalues files → entry ∈ base.omap id (ovalues store) → entry ∈ entries.
Proof. rewrite !list_elem_of_In. intros Hs He. apply in_flat_map. by exists store. Qed.

Lemma oget_entry (store : SessionStore) key entry : mjoin (oget store key) = Some entry → entry ∈ base.omap id (ovalues store).
Proof.
  intros H. destruct (oget store key) as [[e|]|] eqn:E; simplify_eq/=. apply list_elem_of_omap. exists (Some entry).
  split; [|done]. apply oget_In, (in_map snd) in E. by apply list_elem_of_In.
Qed.

Lemma byId_entry store sessionId entry :
  findEntryBySessionId store sessionId = Some entry → entry ∈ base.omap id (ovalues store).
Proof.
  unfold findEntryBySessionId. destruct (normalizeSubagentSessionKey _); [|done].
  intros [H _]%find_some. by apply list_elem_of_In.
Qed.

Lemma entryIn_elem store key sessionKey entry :
  entryIn store key sessionKey = Some entry → entry ∈ base.omap id (ovalues store).
Proof.
  unfold entryIn. destruct (mjoin (oget store key)) eqn:E; [|apply byId_entry]. intros [= <-]. by eapply oget_entry.
Qed.

Lemma readSessionStore_elem path entry :
  entry ∈ base.omap id (ovalues (readSessionStore files path)) → entry ∈ entries.
Proof.
  unfold readSessionStore. destruct (oget files path) as [store|] eqn:E; cbn; [|by intros ?%elem_of_nil].
  apply store_entry_elem, elem_of_app. right. apply oget_In, (in_map snd) in E. by apply list_elem_of_In.
Qed.

Lemma resolved_entry_elem sessionKey entry :
  resolveEntryForSessionKey givenStore cfg files sessionKey = Some entry → entry ∈ entries.
Proof.
  unfold resolveEntryForSessionKey. generalize (buildKeyCandidates sessionKey cfg). intros keys.
  destruct givenStore as [store|] eqn:Eg.
  - assert (entry ∈ base.omap id (ovalues store) → entry ∈ allEntries (Some store) files) as Hin.
    { intros H. apply list_elem_of_In, in_flat_map. exists store. split; [by left|by apply list_elem_of_In]. }
    destruct (firstEntry _ keys) as [e|] eqn:Ef; [|intros H; by eapply Hin, byId_entry]. intros [= ->]. apply Hin. clear -Ef.
    induction keys as [|key keys IH]; [done|]. cbn in Ef.
    destruct (mjoin (oget store key)) eqn:E; [simplify_eq; by eapply oget_entry|by apply IH].
  - destruct cfg as [c|]; [|done]. induction keys as [|key keys IH]; [done|]. cbn [firstEntry].
    destruct (parseAgentSessionKey (Some key)) as [parsed|]; [|done].
    destruct (entryIn _ key sessionKey) as [e|] eqn:E; [|done]. intros [= ->].
    apply entryIn_elem, readSessionStore_elem in E. by rewrite Eg in E.
Qed.

(** The keys of sessions that spawned another one. *)
Definition spawners : list string := base.omap (λ e, normalizeSubagentSessionKey (sd_spawnedBy e)) entries.

Lemma spawner_elem key spawnedBy :
  normalizeSubagentSessionKey (resolveEntryForSessionKey givenStore cfg files key ≫= sd_spawnedBy) = Some spawnedBy →
  spawnedBy ∈ spawners.
Proof.
  destruct (resolveEntryForSessionKey _ _ _ key) as [entry|] eqn:E; [|done]. cbn. intros H.
  apply resolved_entry_elem in E. apply list_elem_of_omap. by exists entry.
Qed.

Lemma normalized_key key key' :
  normalizeSubagentSessionKey (Some key) = Some key' → normalizeSubagentSessionKey (Some key') = Some key'.
Proof. intros H. pose proof (normalizeOptionalString_idemp (Some key)) as Hi. unfold normalizeSubagentSessionKey in *. by rewrite H in Hi. Qed.

Lemma spawner_normal key : key ∈ spawners → normalizeSubagentSessionKey (Some key) = Some key.
Proof.
  intros (e & _ & He)%list_elem_of_omap. destruct (sd_spawnedBy e) as [s|]; [|done]. by eapply normalized_key.
Qed.

(** All visited keys but the first one are those of spawners. *)
Definition visits (visited : list string) : Prop :=
  NoDup visited ∧ ∃ tail, visited = tail ++ drop (length tail) visited ∧ (length visited <= length tail + 1)%nat ∧ tail ⊆ spawners.

Lemma visits_length visited : visits visited → (length visited <= length entries + 1)%nat.
Proof.
  intros [Hnd (tail & Heq & Hlen & Hsub)]. rewrite Heq in Hnd. apply NoDup_app in Hnd as (Ht & _ & _).
  assert (length tail <= length spawners)%nat by (by apply submseteq_length, NoDup_submseteq).
  assert (length spawners <= length entries)%nat; [|lia]. unfold spawners. clear.
  induction entries as [|e l IH]; [done|]. cbn. destruct (normalizeSubagentSessionKey _); cbn; lia.
Qed.

Lemma visits_cons visited key :
  visits visited → key ∉ visited → (visited = [] ∨ key ∈ spawners) → visits (key :: visited).
Proof.
  intros [Hnd (tail & Heq & Hlen & Hsub)] Hk Hcase. split; [by constructor|]. destruct Hcase as [->|Hin].
  - exists []. split_and!; [done|cbn; lia|set_solver].
  - exists (key :: tail). cbn. split_and!; [by rewrite <- Heq|lia|set_solver].
Qed.

Lemma depthFromStore_found fuel visited key :
  visits visited → (visited = [] ∨ key ∈ spawners) → (length entries + 2 <= fuel + length visited)%nat →
  ∃ depth, depthFromStore givenStore cfg files fuel visited key = Some depth ∧ ∀ d, depth = Some d → 0 <= d.
Proof.
  revert visited key. induction fuel as [|fuel IH]; intros visited key Hv Hcase Hfuel.
  { pose proof (visits_length _ Hv). cbn in Hfuel. lia. }
  cbn [depthFromStore]. destruct (normalizeSubagentSessionKey (Some key)) as [nk|] eqn:En; [|by exists None].
  destruct (set_has visited nk) eqn:Eh; [by exists None|]. apply set_has_false in Eh.
  destruct (resolveEntryForSessionKey givenStore cfg files nk ≫= _) as [d|] eqn:Ed.
  { exists (Some d). split; [done|]. intros ? [= <-]. destruct (resolveEntryForSessionKey _ _ _ nk) as [e|]; [|done]. cbn in Ed.
    assert (∀ n z, natural_num n = Some z → 0 <= z) as Hn.
    { intros [q| |] z; cbn; [|done..]. destruct (_ && _) eqn:E; [|done]. intros [= <-]. apply andb_true_iff in E as [_ E]. lia. }
    destruct (sd_spawnDepth e); cbn in Ed; [by eapply Hn| |done]. destruct (str_truthy _); [by eapply Hn|done]. }
  destruct (normalizeSubagentSessionKey (resolveEntryForSessionKey givenStore cfg files nk ≫= sd_spawnedBy)) as [sb|] eqn:Es;
    [|by exists None].
  assert (visits (nk :: visited)) as Hv'.
  { apply visits_cons; [done|done|]. destruct Hcase as [->|Hin]; [by left|]. right.
    pose proof (spawner_normal _ Hin). congruence. }
  destruct (IH (nk :: visited) sb Hv') as (depth & -> & Hpos); [right; by eapply spawner_elem|cbn; lia|].
  cbn. destruct depth as [p|]; (eexists; split; [done|]); intros d [= <-].
  - specialize (Hpos p eq_refl). lia.
  - lia.
Qed.

End found.

(** C13. Following the sessions that spawned one another finds a depth, even when they form a
    cycle: [getSubagentDepthFromSessionStore] ends. *)
Theorem subagent_depth_is_found givenStore cfg files sessionKey :
  ∃ depth, getSubagentDepthFromSessionStore givenStore cfg files sessionKey = Some depth ∧ 0 <= depth.
Proof.
  unfold getSubagentDepthFromSessionStore. destruct (negb _); [eexists; split; [done|lia]|].
  destruct (depthFromStore_found givenStore cfg files (depthFuel givenStore files) [] (trimmed_or_empty sessionKey))
    as (depth & -> & Hpos).
  - split; [constructor|]. exists []. split_and!; [done|cbn; lia|set_solver].
  - by left.
  - unfold depthFuel. cbn. lia.
  - cbn. destruct depth as [d|]; cbn; (eexists; split; [done|]); [by apply Hpos|lia].
Qed.

(** Two sessions that name each other as their spawner. *)
Lemma spawn_cycle_has_a_depth :
  let entry by_ := Some (mkDepthEntry None VOther (Some by_) None None) in
  getSubagentDepthFromSessionStore
    (Some [("agent:a:subagent:x"%string, entry "agent:a:subagent:y"%string); ("agent:a:subagent:y"%string, entry "agent:a:subagent:x"%string)])
    None [] (Some "agent:a:subagent:x"%string) = Some 3.
Proof. vm_compute. done. Qed.

End SubagentDepth.
