(* ===== verification/ToolPipeline.v ===== *)
(** * The tools an agent is given

    src/agents/tool-policy-pipeline.ts, pi-tools.policy.ts,
    pi-tools.message-provider-policy.ts, sandbox/tool-policy.ts, tool-fs-policy.ts,
    subagent-capabilities.ts and subagent-depth.ts, with the places that put them
    together: [createOpenClawCodingTools] of pi-tools.ts and [resolveGatewayScopedTools]
    of src/gateway/tool-resolution.ts. The tools themselves are made elsewhere; a tool is
    offered when every policy that applies admits it. *)

From Stdlib Require Import Ascii.
From S2P Require Import Prelude JsRegex OMap SessionKey JsNumber ToolPolicy GroupPolicy SubagentDepth.

#[local] Open Scope stdpp_scope.

Module ToolPipeline.
Import StringCoerce SessionKey ToolPolicy GroupPolicy SubagentDepth.

(** ** The pipeline: tool-policy-pipeline.ts *)

Record ToolPolicyPipelineStep : Type := mkStep {
  step_policy : option ToolPolicyLike;
  step_label : string;
  stripPluginOnlyAllowlist : bool;
  suppressUnavailableCoreToolWarning : bool;
  suppressUnavailableCoreToolWarningAllowlist : option (list string);
}.

(** The warnings given so far: the set and the order of its members. *)
Record WarningCache : Type := mkWarnings {
  seenToolPolicyWarnings : list string;
  toolPolicyWarningOrder : list string;
}.

Definition MAX_TOOL_POLICY_WARNING_CACHE : nat := 256.

Definition rememberToolPolicyWarning (cache : WarningCache) (warning : string) : WarningCache * bool :=
  if set_has (seenToolPolicyWarnings cache) warning then (cache, false)
  else
    let evicted :=
      if (MAX_TOOL_POLICY_WARNING_CACHE <=? length (seenToolPolicyWarnings cache))%nat then
        match toolPolicyWarningOrder cache with
        | oldest :: order =>
            mkWarnings (if str_truthy oldest then List.filter (λ w, negb (String.eqb w oldest)) (seenToolPolicyWarnings cache)
                        else seenToolPolicyWarnings cache) order
        | [] => cache
        end
      else cache in
    (mkWarnings (seenToolPolicyWarnings evicted ++ [warning]) (toolPolicyWarningOrder evicted ++ [warning]), true).

Definition describeUnknownAllowlistSuffix (pluginOnlyAllowlist hasGatedCoreEntries hasOtherEntries : bool) : string :=
  let preface := if pluginOnlyAllowlist then "Allowlist contains only plugin entries; core tools will not be available." else EmptyString in
  let detail :=
    if hasGatedCoreEntries && hasOtherEntries then
      "Some entries are shipped core tools but unavailable in the current runtime/provider/model/config; other entries won't match any tool unless the plugin is enabled."
    else if hasGatedCoreEntries then
      "These entries are shipped core tools but unavailable in the current runtime/provider/model/config."
    else "These entries won't match any tool unless the plugin is enabled." in
  if str_truthy preface then preface +:+ " " +:+ detail else detail.

Definition shouldWarnAboutUnknownAllowlist (hasGatedCoreEntries hasOtherEntries : bool) : bool :=
  hasGatedCoreEntries || hasOtherEntries.

(** The warning about the unknown entries of a step, if there is one to give. *)
Definition stepWarning (step : ToolPolicyPipelineStep) (resolved : AllowlistResolution) : option string :=
  match unknownAllowlist resolved with
  | [] => None
  | unknown =>
      let suppressed := map normalizeToolName (default [] (suppressUnavailableCoreToolWarningAllowlist step)) in
      let gatedCoreEntries := List.filter isKnownCoreToolId unknown in
      let warnable := if suppressUnavailableCoreToolWarning step then []
                      else List.filter (λ entry, negb (set_has suppressed entry)) gatedCoreEntries in
      let otherEntries := List.filter (λ entry, negb (isKnownCoreToolId entry)) unknown in
      let hasGated := negb (length warnable =? 0)%nat in
      let hasOther := negb (length otherEntries =? 0)%nat in
      if shouldWarnAboutUnknownAllowlist hasGated hasOther then
        Some ("tools: " +:+ step_label step +:+ " allowlist contains unknown entries ("
              +:+ join_with ", " (warnable ++ otherEntries) +:+ "). "
              +:+ describeUnknownAllowlistSuffix (pluginOnlyAllowlist resolved) hasGated hasOther)
      else None
  end.

Section pipeline.
Context {Args Out : Type}.
#[local] Abbreviation Tool := (AnyAgentTool Args Out).
Context (toolMeta : Tool → option string).

Definition filterToolsByPolicy (tools : list Tool) (policy : option ToolPolicyLike) : list Tool :=
  match policy with
  | None => tools
  | Some _ => List.filter (λ tool, isToolAllowedByPolicyName (tool_name tool) policy) tools
  end.

(** What the pipeline has kept, and the warnings it has given. *)
Record PipelineState : Type := mkPipeline {
  filtered : list Tool;
  warningCache : WarningCache;
  warned : list string;
}.

Definition coreToolNamesOf (tools : list Tool) : list string :=
  unique (List.filter str_truthy
            (map (λ tool, normalizeToolName (tool_name tool))
               (List.filter (λ tool, match toolMeta tool with None => true | Some _ => false end) tools))).

(** One iteration of the loop of [applyToolPolicyPipeline]. *)
Definition pipelineStep (coreToolNames : list string) (pluginGroups : PluginToolGroups) (st : PipelineState) (step : ToolPolicyPipelineStep)
    : PipelineState :=
  match step_policy step with
  | None => st
  | Some stepPolicy =>
      let resolved := analyzeAllowlistByToolType (Some stepPolicy) pluginGroups coreToolNames in
      let '(cache, messages) :=
        match (if stripPluginOnlyAllowlist step then stepWarning step resolved else None) with
        | None => (warningCache st, [])
        | Some warning =>
            let '(cache, fresh) := rememberToolPolicyWarning (warningCache st) warning in
            (cache, if fresh then [warning] else [])
        end in
      let policy := if stripPluginOnlyAllowlist step then ar_policy resolved else Some stepPolicy in
      let expanded := expandPolicyWithPluginGroups policy pluginGroups in
      mkPipeline (match expanded with Some p => filterToolsByPolicy (filtered st) (Some p) | None => filtered st end)
        cache (warned st ++ messages)
  end.

Definition applyToolPolicyPipeline (tools : list Tool) (steps : list ToolPolicyPipelineStep) (cache : WarningCache) : PipelineState :=
  foldl (pipelineStep (coreToolNamesOf tools) (buildPluginToolGroups toolMeta tools)) (mkPipeline tools cache []) steps.

End pipeline.

(** The policies of an agent, in the order in which they apply. *)
Record DefaultSteps : Type := mkDefaultSteps {
  ds_profilePolicy : option ToolPolicyLike;
  ds_profile : option string;
  ds_profileUnavailableCoreWarningAllowlist : option (list string);
  ds_providerProfilePolicy : option ToolPolicyLike;
  ds_providerProfile : option string;
  ds_providerProfileUnavailableCoreWarningAllowlist : option (list string);
  ds_globalPolicy : option ToolPolicyLike;
  ds_globalProviderPolicy : option ToolPolicyLike;
  ds_agentPolicy : option ToolPolicyLike;
  ds_agentProviderPolicy : option ToolPolicyLike;
  ds_groupPolicy : option ToolPolicyLike;
  ds_agentId : option string;
}.

Definition buildDefaultToolPolicyPipelineSteps (params : DefaultSteps) : list ToolPolicyPipelineStep :=
  let agentId := normalizeOptionalString (ds_agentId params) in
  let labelled prefix fallback suffix o :=
    match o with Some name => prefix +:+ name +:+ suffix | None => fallback end in
  [mkStep (ds_profilePolicy params)
     (labelled "tools.profile (" "tools.profile" ")" (normalizeOptionalString (ds_profile params)))
     true false (ds_profileUnavailableCoreWarningAllowlist params);
   mkStep (ds_providerProfilePolicy params)
     (labelled "tools.byProvider.profile (" "tools.byProvider.profile" ")" (normalizeOptionalString (ds_providerProfile params)))
     true false (ds_providerProfileUnavailableCoreWarningAllowlist params);
   mkStep (ds_globalPolicy params) "tools.allow" true false None;
   mkStep (ds_globalProviderPolicy params) "tools.byProvider.allow" true false None;
   mkStep (ds_agentPolicy params) (labelled "agents." "agent tools.allow" ".tools.allow" agentId) true false None;
   mkStep (ds_agentProviderPolicy params)
     (labelled "agents." "agent tools.byProvider.allow" ".tools.byProvider.allow" agentId) true false None;
   mkStep (ds_groupPolicy params) "group tools.allow" true false None].

(** ** Tools that a channel of messages cannot use: pi-tools.message-provider-policy.ts *)

Definition TOOL_DENY_BY_MESSAGE_PROVIDER : omap string (list string) := [("voice"%string, ["tts"%string])].

Definition TOOL_ALLOW_BY_MESSAGE_PROVIDER : omap string (list string) :=
  [("node"%string, ["canvas"; "image"; "pdf"; "tts"; "web_fetch"; "web_search"]%string)].

Definition filterToolNamesByMessageProvider (toolNames : list string) (messageProvider : option string) : list string :=
  match normalizeOptionalLowercaseString messageProvider with
  | None => toolNames
  | Some normalizedProvider =>
      match oget TOOL_ALLOW_BY_MESSAGE_PROVIDER normalizedProvider with
      | Some (a :: allowedTools) => List.filter (set_has (a :: allowedTools)) toolNames
      | _ =>
          match oget TOOL_DENY_BY_MESSAGE_PROVIDER normalizedProvider with
          | Some (d :: deniedTools) => List.filter (λ toolName, negb (set_has (d :: deniedTools) toolName)) toolNames
          | _ => toolNames
          end
      end
  end.

(** How often each name remains. *)
Definition countNames (names : list string) : omap string Z :=
  foldl (λ m name, oset m name (default 0 (oget m name) + 1)) [] names.

Fixpoint takeRemaining {T : Type} (name_of : T → string) (remainingCounts : omap string Z) (tools : list T) : list T :=
  match tools with
  | [] => []
  | tool :: tools' =>
      let remaining := default 0 (oget remainingCounts (name_of tool)) in
      if remaining <=? 0 then takeRemaining name_of remainingCounts tools'
      else tool :: takeRemaining name_of (oset remainingCounts (name_of tool) (remaining - 1)) tools'
  end.

Definition filterToolsByMessageProvider {T : Type} (name_of : T → string) (tools : list T) (messageProvider : option string) : list T :=
  takeRemaining name_of (countNames (filterToolNamesByMessageProvider (map name_of tools) messageProvider)) tools.

(** ** The policies of the configuration: pi-tools.policy.ts *)

(** The section [tools] of the configuration or of an agent. *)
Record ToolsSection : Type := mkTools {
  t_policy : ToolPolicyConfig;
  t_byProvider : option (omap string ToolPolicyConfig);
  t_exec : bool;                                      (* whether the section [exec] is there *)
  t_fs : option (option bool);                        (* the section [fs] with its [workspaceOnly] *)
  t_sandboxTools : option ToolPolicyConfig;           (* [sandbox.tools] *)
  t_subagentTools : option ToolPolicyConfig;          (* [subagents.tools] *)
}.

Record ToolConfig : Type := mkToolConfig {
  cfg_tools : option ToolsSection;
  cfg_agentTools : list (option string * option ToolsSection);   (* [agents.list], the identifiers and [tools] *)
  cfg_maxSpawnDepth : option num;                     (* [agents.defaults.subagents.maxSpawnDepth] *)
  cfg_channels : Channels_config;
  cfg_gatewayAllow : option (list string);            (* [gateway.tools] *)
  cfg_gatewayDeny : option (list string);
}.

(** [resolveAgentConfig(cfg, agentId)?.tools] *)
Definition agentToolsOf (cfg : ToolConfig) (agentId : string) : option ToolsSection :=
  let id := normalizeAgentId (Some agentId) in
  mjoin (snd <$> List.find (λ entry, String.eqb (normalizeAgentId entry.1) (normalizeAgentId (Some id))) (cfg_agentTools cfg)).

Definition normalizeProviderKey (value : string) : string := lowered value.

Definition resolveProviderToolPolicy (byProvider : option (omap string ToolPolicyConfig)) (modelProvider modelId : option string)
    : option ToolPolicyConfig :=
  match normalizeOptionalString modelProvider, byProvider with
  | Some provider, Some (e :: entries) =>
      let lookup := foldl (λ m e, let normalized := normalizeProviderKey e.1 in
                                  if str_truthy normalized then oset m normalized e.2 else m) [] (e :: entries) in
      let normalizedProvider := normalizeProviderKey provider in
      let fullModelId := (λ rawModelId, if negb (includes rawModelId "/") then normalizedProvider +:+ "/" +:+ rawModelId else rawModelId)
                           <$> normalizeOptionalLowercaseString modelId in
      match fullModelId ≫= (λ key, if str_truthy key then oget lookup key else None) with
      | Some m => Some m
      | None => oget lookup normalizedProvider
      end
  | _, _ => None
  end.

Definition resolveImplicitProfileAlsoAllow (globalTools agentTools : option ToolsSection) : option (list string) :=
  let has f := match agentTools with Some t => f t | None => false end || match globalTools with Some t => f t | None => false end in
  let implicit := (if has t_exec then ["exec"; "process"]%string else [])
                  ++ (if has (λ t, match t_fs t with Some _ => true | None => false end) then ["read"; "write"; "edit"]%string else []) in
  match implicit with [] => None | l => Some l end.

Definition policyField {A} (f : ToolPolicyConfig → option A) (t : option ToolsSection) : option A := t ≫= λ s, f (t_policy s).

Definition first_some {A} (a b : option A) : option A := match a with Some x => Some x | None => b end.

Record EffectiveToolPolicy : Type := mkEffective {
  ep_agentId : option string;
  ep_globalPolicy : option ToolPolicyLike;
  ep_globalProviderPolicy : option ToolPolicyLike;
  ep_agentPolicy : option ToolPolicyLike;
  ep_agentProviderPolicy : option ToolPolicyLike;
  ep_profile : option string;
  ep_providerProfile : option string;
  ep_profileAlsoAllow : option (list string);
  ep_providerProfileAlsoAllow : option (list string);
}.

Definition resolveEffectiveToolPolicy (config : option ToolConfig) (sessionKey agentId modelProvider modelId : option string)
    : EffectiveToolPolicy :=
  let explicitAgentId := (λ a, normalizeAgentId (Some a)) <$> (agentId ≫= (λ a, if str_truthy (trim a) then Some a else None)) in
  let agent := first_some explicitAgentId
                 (sessionKey ≫= (λ k, if str_truthy k then Some (resolveAgentIdFromSessionKey (Some k)) else None)) in
  let agentTools := config ≫= (λ c, agent ≫= (λ a, if str_truthy a then agentToolsOf c a else None)) in
  let globalTools := config ≫= cfg_tools in
  let providerPolicy := resolveProviderToolPolicy (globalTools ≫= t_byProvider) modelProvider modelId in
  let agentProviderPolicy := resolveProviderToolPolicy (agentTools ≫= t_byProvider) modelProvider modelId in
  let explicit := first_some (policyField pc_alsoAllow agentTools) (policyField pc_alsoAllow globalTools) in
  let implicit := resolveImplicitProfileAlsoAllow globalTools agentTools in
  mkEffective agent
    (pickSandboxToolPolicy (t_policy <$> globalTools)) (pickSandboxToolPolicy providerPolicy)
    (pickSandboxToolPolicy (t_policy <$> agentTools)) (pickSandboxToolPolicy agentProviderPolicy)
    (first_some (policyField pc_profile agentTools) (policyField pc_profile globalTools))
    (first_some (agentProviderPolicy ≫= pc_profile) (providerPolicy ≫= pc_profile))
    (match explicit, implicit with
     | None, None => None
     | e, i => Some (unique (default [] e ++ default [] i))
     end)
    (first_some (agentProviderPolicy ≫= pc_alsoAllow) (providerPolicy ≫= pc_alsoAllow)).

(** ** The workspace of the file tools: tool-fs-policy.ts *)

(** [createToolFsPolicy(...).workspaceOnly] *)
Definition createToolFsPolicy (workspaceOnly : option bool) : bool := bool_decide (workspaceOnly = Some true).

Definition agentSection (cfg : option ToolConfig) (agentId : option string) : option ToolsSection :=
  cfg ≫= (λ c, agentId ≫= (λ a, if str_truthy a then agentToolsOf c a else None)).

(** [resolveToolFsConfig(...).workspaceOnly] *)
Definition resolveToolFsConfig (cfg : option ToolConfig) (agentId : option string) : option bool :=
  first_some (mjoin (agentSection cfg agentId ≫= t_fs)) (mjoin ((cfg ≫= cfg_tools) ≫= t_fs)).

Definition resolveEffectiveToolFsWorkspaceOnly (cfg : option ToolConfig) (agentId : option string) : bool :=
  bool_decide (resolveToolFsConfig cfg agentId = Some true).

Definition resolveEffectiveToolFsRootExpansionAllowed (cfg : option ToolConfig) (agentId : option string) : bool :=
  match cfg with
  | None => true
  | Some c =>
      let agentTools := agentSection cfg agentId in
      let globalTools := cfg_tools c in
      let profile := first_some (policyField pc_profile agentTools) (policyField pc_profile globalTools) in
      let hasExplicitFsConfig := bool_decide (is_Some (agentTools ≫= t_fs)) || bool_decide (is_Some (globalTools ≫= t_fs)) in
      let profileAlsoAllow :=
        unique (default [] (first_some (policyField pc_alsoAllow agentTools) (policyField pc_alsoAllow globalTools))
                ++ (if hasExplicitFsConfig then ["read"; "write"; "edit"]%string else [])) in
      if resolveEffectiveToolFsWorkspaceOnly cfg agentId then false
      else
        let profilePolicy := mergeAlsoAllowPolicy (resolveCoreToolProfilePolicy profile)
                               (match profileAlsoAllow with [] => None | l => Some l end) in
        isToolAllowedByPolicies "read"
          [profilePolicy; pickSandboxToolPolicy (t_policy <$> globalTools); pickSandboxToolPolicy (t_policy <$> agentTools)]
  end.

(** ** Sub-agents *)

Definition SUBAGENT_TOOL_DENY_ALWAYS : list string :=
  ["gateway"; "agents_list"; "whatsapp_login"; "session_status"; "cron"; "sessions_send"].

Definition SUBAGENT_TOOL_DENY_LEAF : list string := ["subagents"; "sessions_list"; "sessions_history"; "sessions_spawn"].

Definition resolveSubagentDenyList (depth : Z) (maxSpawnDepth : num) : list string :=
  let isLeaf := match math_max (num_of_Z 1) (math_floor maxSpawnDepth) with
                | Fin q => floorQ q <=? depth
                | Inf negative => negative
                | NaN => false
                end in
  if isLeaf then SUBAGENT_TOOL_DENY_ALWAYS ++ SUBAGENT_TOOL_DENY_LEAF else SUBAGENT_TOOL_DENY_ALWAYS.

Definition resolveSubagentDenyListForRole (role : SubagentSessionRole) : list string :=
  match role with
  | RoleLeaf => SUBAGENT_TOOL_DENY_ALWAYS ++ SUBAGENT_TOOL_DENY_LEAF
  | _ => SUBAGENT_TOOL_DENY_ALWAYS
  end.

(** What both functions make of the base list and the section [tools.subagents.tools]. *)
Definition subagentPolicyFrom (baseDeny : list string) (configured : option ToolPolicyConfig) : ToolPolicyLike :=
  let allow := configured ≫= pc_allow in
  let alsoAllow := configured ≫= pc_alsoAllow in
  let explicitAllow := map normalizeToolName (default [] allow ++ default [] alsoAllow) in
  let deny := List.filter (λ toolName, negb (set_has explicitAllow (normalizeToolName toolName))) baseDeny
              ++ default [] (configured ≫= pc_deny) in
  mkPolicy (match allow, alsoAllow with Some a, Some b => Some (unique (a ++ b)) | _, _ => allow end) (Some deny).

Definition subagentToolsOf (cfg : option ToolConfig) : option ToolPolicyConfig := (cfg ≫= cfg_tools) ≫= t_subagentTools.

Definition resolveSubagentToolPolicy (cfg : option ToolConfig) (depth : option Z) : ToolPolicyLike :=
  let maxSpawnDepth := default (num_of_Z DEFAULT_SUBAGENT_MAX_SPAWN_DEPTH) (cfg ≫= cfg_maxSpawnDepth) in
  let effectiveDepth := match depth with Some d => if 0 <=? d then d else 1 | None => 1 end in
  subagentPolicyFrom (resolveSubagentDenyList effectiveDepth maxSpawnDepth) (subagentToolsOf cfg).

(** The capabilities of the session are those of [resolveStoredSubagentCapabilities]. *)
Definition resolveSubagentToolPolicyForSession (cfg : option ToolConfig) (capabilities : SubagentCapabilities) : ToolPolicyLike :=
  subagentPolicyFrom (resolveSubagentDenyListForRole (cap_role capabilities)) (subagentToolsOf cfg).

(** ** Sandboxes: sandbox/tool-policy.ts *)

Definition DEFAULT_TOOL_ALLOW : list string :=
  ["exec"; "process"; "read"; "write"; "edit"; "apply_patch"; "image"; "sessions_list"; "sessions_history"; "sessions_send";
   "sessions_spawn"; "sessions_yield"; "subagents"; "session_status"].

(** With the names of the channels of the catalog. *)
Definition DEFAULT_TOOL_DENY (channelIds : list string) : list string :=
  ["browser"; "canvas"; "nodes"; "cron"; "gateway"]%string ++ channelIds.

Inductive PolicyScope : Type := AgentScope | GlobalScope | DefaultScope.
#[export] Instance PolicyScope_eq : EqDecision PolicyScope := ltac:(solve_decision).

Record SandboxToolPolicySource : Type := mkSource { src_source : PolicyScope; src_key : string }.

(** [pickConfiguredList], [pickConfiguredDeny] and, but for the default, [pickConfiguredAlsoAllow] *)
Definition pickConfigured (field : string) (agent global : option (list string)) : option (list string) * SandboxToolPolicySource :=
  match agent with
  | Some _ => (agent, mkSource AgentScope ("agents.list[].tools.sandbox.tools." +:+ field))
  | None =>
      match global with
      | Some _ => (global, mkSource GlobalScope ("tools.sandbox.tools." +:+ field))
      | None => (None, mkSource DefaultScope ("tools.sandbox.tools." +:+ field))
      end
  end.

Definition pickConfiguredAlsoAllow (agent global : option (list string)) : option (list string) * option SandboxToolPolicySource :=
  let p := pickConfigured "alsoAllow" agent global in
  (p.1, match p.1 with Some _ => Some p.2 | None => None end).

Definition mergeAllowlist (base extra : option (list string)) : list string :=
  match base with
  | Some [] => []
  | Some l => match extra with None | Some [] => l | Some more => unique (l ++ more) end
  | None => match extra with None | Some [] => DEFAULT_TOOL_ALLOW | Some more => unique (DEFAULT_TOOL_ALLOW ++ more) end
  end.

Definition pickAllowSource (allowSource : SandboxToolPolicySource) (allowDefined : bool) (alsoAllow : option SandboxToolPolicySource)
    : SandboxToolPolicySource :=
  if allowDefined && bool_decide (src_source allowSource = AgentScope) then allowSource
  else match alsoAllow with
       | Some a =>
           if bool_decide (src_source a = AgentScope) then a
           else if allowDefined && bool_decide (src_source allowSource = GlobalScope) then allowSource
           else if bool_decide (src_source a = GlobalScope) then a
           else allowSource
       | None => allowSource
       end.

Definition filterDefaultDenyForExplicitAllows (deny explicitAllowPatterns : list string) : list string :=
  match explicitAllowPatterns with
  | [] => deny
  | _ =>
      match compileGlobPatterns (Some (expandToolGroups (Some explicitAllowPatterns))) normalizeToolName with
      | [] => deny
      | allowPatterns => List.filter (λ toolName, negb (matchesAnyGlobPattern (normalizeToolName toolName) allowPatterns)) deny
      end
  end.

Definition expandResolvedPolicy (policy : ToolPolicyLike) : ToolPolicyLike :=
  let expandedDeny := expandToolGroups (Some (default [] (deny policy))) in
  let expandedAllow := expandToolGroups (Some (default [] (allow policy))) in
  let withImage :=
    match expandedAllow with
    | [] => []
    | _ => if negb (set_has (map lowered expandedDeny) "image") && negb (set_has (map lowered expandedAllow) "image")
           then expandedAllow ++ ["image"%string] else expandedAllow
    end in
  mkPolicy (Some withImage) (Some expandedDeny).

(** Whether the deny list blocks the tool, and whether the allow list does. *)
Definition classifyToolAgainstSandboxToolPolicy (name : string) (policy : option ToolPolicyLike) : bool * bool :=
  match policy with
  | None => (false, false)
  | Some policy =>
      let normalized := normalizeToolName name in
      let compiled l := compileGlobPatterns (Some (expandToolGroups (Some (default [] l)))) normalizeToolName in
      let blockedByDeny := matchesAnyGlobPattern normalized (compiled (deny policy)) in
      (blockedByDeny,
       negb blockedByDeny && negb (length (compiled (allow policy)) =? 0)%nat
       && negb (matchesAnyGlobPattern normalized (compiled (allow policy))))
  end.

Definition isToolAllowed (policy : ToolPolicyLike) (name : string) : bool :=
  let '(blockedByDeny, blockedByAllow) := classifyToolAgainstSandboxToolPolicy name (Some policy) in
  negb blockedByDeny && negb blockedByAllow.

Record SandboxToolPolicyResolved : Type := mkSandboxPolicy {
  sp_policy : ToolPolicyLike;
  sp_allowSource : SandboxToolPolicySource;
  sp_denySource : SandboxToolPolicySource;
}.

Definition resolveSandboxToolPolicyForAgent (channelIds : list string) (cfg : option ToolConfig) (agentId : option string)
    : SandboxToolPolicyResolved :=
  let agentPolicy := (cfg ≫= (λ c, agentId ≫= (λ a, if str_truthy a then agentToolsOf c a else None))) ≫= t_sandboxTools in
  let globalPolicy := (cfg ≫= cfg_tools) ≫= t_sandboxTools in
  let allowConfig := pickConfigured "allow" (agentPolicy ≫= pc_allow) (globalPolicy ≫= pc_allow) in
  let alsoAllowConfig := pickConfiguredAlsoAllow (agentPolicy ≫= pc_alsoAllow) (globalPolicy ≫= pc_alsoAllow) in
  let denyConfig := pickConfigured "deny" (agentPolicy ≫= pc_deny) (globalPolicy ≫= pc_deny) in
  let explicitAllowPatterns := unique (default [] allowConfig.1 ++ default [] alsoAllowConfig.1) in
  let resolvedAllow := mergeAllowlist allowConfig.1 alsoAllowConfig.1 in
  let resolvedDeny := match denyConfig.1 with
                      | Some l => l
                      | None => filterDefaultDenyForExplicitAllows (DEFAULT_TOOL_DENY channelIds) explicitAllowPatterns
                      end in
  let expanded := expandResolvedPolicy (mkPolicy (Some resolvedAllow) (Some resolvedDeny)) in
  mkSandboxPolicy expanded
    (pickAllowSource allowConfig.2 (match allowConfig.1 with Some _ => true | None => false end) alsoAllowConfig.2)
    denyConfig.2.

(** ** Putting the tools together: createOpenClawCodingTools *)

Record CodingToolsOptions : Type := mkOptions {
  o_config : option ToolConfig;
  o_sessionKey : option string;
  o_agentId : option string;
  o_modelProvider : option string;
  o_modelId : option string;
  o_sandboxTools : option ToolPolicyLike;               (* of the sandbox, when it is enabled *)
  o_group : GroupToolParams;
  o_senderIsOwner : option bool;
  o_memoryRun : bool;                                  (* [trigger === "memory"] *)
  o_memoryFlushWritePath : option string;
}.

Section coding.
Context `{Channels}.
Context {Args Out : Type}.
#[local] Abbreviation Tool := (AnyAgentTool Args Out).
Context (toolMeta : Tool → option string).

(** The policies of a run, and what the labels of the steps name. *)
Record RunPolicies : Type := mkRunPolicies {
  rp_effective : EffectiveToolPolicy;
  rp_profilePolicy : option ToolPolicyLike;
  rp_providerProfilePolicy : option ToolPolicyLike;
  rp_groupPolicy : option ToolPolicyLike;
  rp_sandboxToolPolicy : option ToolPolicyLike;
  rp_subagentPolicy : option ToolPolicyLike;
}.

(** The capabilities are those stored for the session of a sub-agent. *)
Definition runPolicies (options : CodingToolsOptions) (capabilities : string → SubagentCapabilities) : RunPolicies :=
  let effective := resolveEffectiveToolPolicy (o_config options) (o_sessionKey options) (o_agentId options)
                     (o_modelProvider options) (o_modelId options) in
  mkRunPolicies effective
    (resolveCoreToolProfilePolicy (ep_profile effective)) (resolveCoreToolProfilePolicy (ep_providerProfile effective))
    (resolveGroupToolPolicy (cfg_channels <$> o_config options) (o_group options))
    (o_sandboxTools options)
    (match o_sessionKey options with
     | Some key => if isSubagentSessionKey (Some key) && str_truthy key
                   then Some (resolveSubagentToolPolicyForSession (o_config options) (capabilities key)) else None
     | None => None
     end).

Definition profilePolicyWithAlsoAllow (p : RunPolicies) : option ToolPolicyLike :=
  mergeAlsoAllowPolicy (rp_profilePolicy p) (ep_profileAlsoAllow (rp_effective p)).
Definition providerProfilePolicyWithAlsoAllow (p : RunPolicies) : option ToolPolicyLike :=
  mergeAlsoAllowPolicy (rp_providerProfilePolicy p) (ep_providerProfileAlsoAllow (rp_effective p)).

(** All the policies, from the profile to the sub-agent. *)
Definition policiesOf (p : RunPolicies) : list (option ToolPolicyLike) :=
  [profilePolicyWithAlsoAllow p; providerProfilePolicyWithAlsoAllow p; ep_globalPolicy (rp_effective p);
   ep_globalProviderPolicy (rp_effective p); ep_agentPolicy (rp_effective p); ep_agentProviderPolicy (rp_effective p);
   rp_groupPolicy p; rp_sandboxToolPolicy p; rp_subagentPolicy p].

Definition allowBackground (p : RunPolicies) : bool := isToolAllowedByPolicies "process" (policiesOf p).

Definition pluginToolAllowlist (p : RunPolicies) : list string :=
  collectExplicitAllowlist
    [rp_profilePolicy p; rp_providerProfilePolicy p; ep_globalPolicy (rp_effective p); ep_globalProviderPolicy (rp_effective p);
     ep_agentPolicy (rp_effective p); ep_agentProviderPolicy (rp_effective p); rp_groupPolicy p; rp_sandboxToolPolicy p;
     rp_subagentPolicy p].

Definition defaultStepsOf (p : RunPolicies) : list ToolPolicyPipelineStep :=
  buildDefaultToolPolicyPipelineSteps
    (mkDefaultSteps (profilePolicyWithAlsoAllow p) (ep_profile (rp_effective p)) (rp_profilePolicy p ≫= allow)
       (providerProfilePolicyWithAlsoAllow p) (ep_providerProfile (rp_effective p)) (rp_providerProfilePolicy p ≫= allow)
       (ep_globalPolicy (rp_effective p)) (ep_globalProviderPolicy (rp_effective p)) (ep_agentPolicy (rp_effective p))
       (ep_agentProviderPolicy (rp_effective p)) (rp_groupPolicy p) (ep_agentId (rp_effective p))).

Definition stepsOf (p : RunPolicies) : list ToolPolicyPipelineStep :=
  defaultStepsOf p
  ++ [mkStep (rp_sandboxToolPolicy p) "sandbox tools.allow" false false None;
      mkStep (rp_subagentPolicy p) "subagent tools.allow" false false None].

Definition MEMORY_FLUSH_ALLOWED_TOOL_NAMES : list string := ["read"; "write"].

(** The tools are made with the explicit allowlist; [wrapFlushWrite] restricts a tool to
    appending to the file of a memory run; [suppressWebSearch] is the answer of
    [shouldSuppressManagedWebSearchTool]. *)
Definition createOpenClawCodingTools (options : CodingToolsOptions) (capabilities : string → SubagentCapabilities)
    (makeTools : list string → list Tool) (wrapFlushWrite : Tool → Tool) (suppressWebSearch : bool) (cache : WarningCache)
    : result (PipelineState (Args := Args) (Out := Out)) :=
  if o_memoryRun options && negb (ostr_truthy (o_memoryFlushWritePath options)) then
    Throw "memoryFlushWritePath required for memory-triggered tool runs"
  else
    let p := runPolicies options capabilities in
    let tools := makeTools (pluginToolAllowlist p) in
    let toolsForMemoryFlush :=
      if o_memoryRun options then
        flat_map (λ tool, if negb (set_has MEMORY_FLUSH_ALLOWED_TOOL_NAMES (tool_name tool)) then []
                          else if String.eqb (tool_name tool) "write" then [wrapFlushWrite tool] else [tool]) tools
      else tools in
    let toolsForMessageProvider := filterToolsByMessageProvider tool_name toolsForMemoryFlush (gp_messageProvider (o_group options)) in
    let toolsForModelProvider :=
      if suppressWebSearch then List.filter (λ tool, negb (String.eqb (tool_name tool) "web_search")) toolsForMessageProvider
      else toolsForMessageProvider in
    let senderIsOwner := bool_decide (o_senderIsOwner options = Some true) in
    let toolsByAuthorization := applyOwnerOnlyToolPolicy toolsForModelProvider senderIsOwner in
    Ok (applyToolPolicyPipeline toolMeta toolsByAuthorization (stepsOf p) cache).

(** ** The tools of the gateway: tool-resolution.ts *)

Definition DEFAULT_GATEWAY_HTTP_TOOL_DENY : list string :=
  ["exec"; "spawn"; "shell"; "fs_write"; "fs_delete"; "fs_move"; "apply_patch"; "sessions_spawn"; "sessions_send"; "cron";
   "gateway"; "nodes"; "whatsapp_login"].

Inductive GatewayScopedToolSurface : Type := SurfaceHttp | SurfaceLoopback.

Definition gatewayDenied (cfg : ToolConfig) (surface : option GatewayScopedToolSurface) (excludeToolNames : list string) : list string :=
  (match default SurfaceHttp surface with
   | SurfaceHttp => List.filter (λ name, negb (set_has (default [] (cfg_gatewayAllow cfg)) name)) DEFAULT_GATEWAY_HTTP_TOOL_DENY
   | SurfaceLoopback => []
   end) ++ default [] (cfg_gatewayDeny cfg) ++ excludeToolNames.

(** The policies that apply to a client of the gateway; there is no sandbox. *)
Definition gatewayPolicies (cfg : ToolConfig) (sessionKey : string) (messageProvider accountId : option string) : RunPolicies :=
  let effective := resolveEffectiveToolPolicy (Some cfg) (Some sessionKey) None None None in
  mkRunPolicies effective
    (resolveCoreToolProfilePolicy (ep_profile effective)) (resolveCoreToolProfilePolicy (ep_providerProfile effective))
    (resolveGroupToolPolicy (Some (cfg_channels cfg))
       (mkGroupParams (Some sessionKey) None messageProvider None None None accountId (mkSender None None None None)))
    None
    (if isSubagentSessionKey (Some sessionKey) then Some (resolveSubagentToolPolicy (Some cfg) None) else None).

Definition resolveGatewayScopedTools (cfg : ToolConfig) (sessionKey : string) (messageProvider accountId : option string)
    (surface : option GatewayScopedToolSurface) (excludeToolNames : list string) (makeTools : list string → list Tool) (cache : WarningCache)
    : option string * list Tool :=
  let p := gatewayPolicies cfg sessionKey messageProvider accountId in
  let policyFiltered := filtered (applyToolPolicyPipeline toolMeta (makeTools (pluginToolAllowlist p))
                          (defaultStepsOf p ++ [mkStep (rp_subagentPolicy p) "subagent tools.allow" false false None]) cache) in
  (ep_agentId (rp_effective p),
   List.filter (λ tool, negb (set_has (gatewayDenied cfg surface excludeToolNames) (tool_name tool))) policyFiltered).

End coding.

(** ** The pipeline keeps the tools that every policy admits *)

Section admitted.
Context {Args Out : Type}.
#[local] Abbreviation Tool := (AnyAgentTool Args Out).
Context (toolMeta : Tool → option string).

Definition admittedBy (groups : PluginToolGroups) (policy : option ToolPolicyLike) (tool : Tool) : bool :=
  isToolAllowedByPolicyName (tool_name tool) (expandPolicyWithPluginGroups policy groups).

Lemma analyze_keeps_policy policy groups coreTools : ar_policy (analyzeAllowlistByToolType policy groups coreTools) = policy.
Proof. unfold analyzeAllowlistByToolType. destruct (policy ≫= allow) as [[|x l]|]; [done| |done]. by destruct (normalizeToolList _). Qed.

Lemma pipelineStep_filtered core groups (st : PipelineState) step :
  filtered (pipelineStep core groups st step) = List.filter (admittedBy groups (step_policy step)) (filtered st).
Proof.
  unfold pipelineStep, admittedBy. destruct (step_policy step) as [policy|].
  - rewrite analyze_keeps_policy. assert ((if stripPluginOnlyAllowlist step then Some policy else Some policy) = Some policy) as ->
      by by destruct (stripPluginOnlyAllowlist _).
    destruct (if stripPluginOnlyAllowlist step then _ else None) as [w|]; [|done].
    by destruct (rememberToolPolicyWarning _ w).
  - cbn. induction (filtered st) as [|t l IH]; [done|]. cbn. by f_equal.
Qed.

Lemma applyToolPolicyPipeline_filter tools steps cache :
  filtered (applyToolPolicyPipeline toolMeta tools steps cache) =
  List.filter (λ tool, forallb (λ step, admittedBy (buildPluginToolGroups toolMeta tools) (step_policy step) tool) steps) tools.
Proof.
  unfold applyToolPolicyPipeline. generalize (coreToolNamesOf toolMeta tools) (buildPluginToolGroups toolMeta tools). intros core groups.
  assert (∀ st : PipelineState (Args := Args) (Out := Out), filtered (foldl (pipelineStep core groups) st steps) =
    List.filter (λ tool, forallb (λ step, admittedBy groups (step_policy step) tool) steps) (filtered st)) as Hfold.
  { induction steps as [|step steps IH]; intros st; cbn [foldl].
    - cbn. induction (filtered st) as [|t l IHl]; [done|]. cbn. by f_equal.
    - rewrite IH, pipelineStep_filtered, filter_filter. done. }
  apply Hfold.
Qed.

Lemma admittedBy_admits groups policy tool :
  admittedBy groups policy tool = true ↔ ∀ p, policy = Some p → admits groups p (tool_name tool).
Proof.
  unfold admittedBy. destruct policy as [p|]; cbn; [|naive_solver].
  rewrite expanded_permits. naive_solver.
Qed.

Lemma pipeline_keeps_admitted tools steps cache tool :
  tool ∈ filtered (applyToolPolicyPipeline toolMeta tools steps cache)
  ↔ tool ∈ tools ∧ ∀ step p, step ∈ steps → step_policy step = Some p →
      admits (buildPluginToolGroups toolMeta tools) p (tool_name tool).
Proof.
  rewrite applyToolPolicyPipeline_filter, !list_elem_of_In, filter_In, forallb_forall.
  setoid_rewrite admittedBy_admits. setoid_rewrite list_elem_of_In. naive_solver.
Qed.

(** More steps never bring a tool back. *)
Lemma more_steps_less_tools tools steps steps' cache cache' tool :
  tool ∈ filtered (applyToolPolicyPipeline toolMeta tools (steps ++ steps') cache) →
  tool ∈ filtered (applyToolPolicyPipeline toolMeta tools steps cache').
Proof. rewrite !pipeline_keeps_admitted. setoid_rewrite elem_of_app. naive_solver. Qed.

End admitted.

(** ** The warnings *)

(** The set and the order hold the same warnings once, and no more than the bound. *)
Definition warnings_ok (cache : WarningCache) : Prop :=
  seenToolPolicyWarnings cache = toolPolicyWarningOrder cache ∧ NoDup (toolPolicyWarningOrder cache)
  ∧ (length (toolPolicyWarningOrder cache) <= MAX_TOOL_POLICY_WARNING_CACHE)%nat
  ∧ Forall (λ w, str_truthy w = true) (toolPolicyWarningOrder cache).

Lemma rememberToolPolicyWarning_ok cache warning :
  warnings_ok cache → str_truthy warning = true →
  warnings_ok (rememberToolPolicyWarning cache warning).1
  ∧ warning ∈ seenToolPolicyWarnings (rememberToolPolicyWarning cache warning).1
  ∧ ((rememberToolPolicyWarning cache warning).2 = true ↔ warning ∉ seenToolPolicyWarnings cache).
Proof.
  destruct cache as [seen order]. unfold warnings_ok at 1, rememberToolPolicyWarning.
  cbn [seenToolPolicyWarnings toolPolicyWarningOrder]. intros (-> & Hnd & Hlen & Hall) Hw.
  destruct (set_has order warning) eqn:E; [apply set_has_iff in E|apply set_has_false in E]; [by split_and!; [..|naive_solver]|].
  cbn [fst snd seenToolPolicyWarnings]. split; [|split; [apply elem_of_app; right; by left|done]].
  assert (∀ l, NoDup l → (length l < MAX_TOOL_POLICY_WARNING_CACHE)%nat → Forall (λ w, str_truthy w = true) l → warning ∉ l →
    warnings_ok (mkWarnings (l ++ [warning]) (l ++ [warning]))) as Hok.
  { intros l Hl Hll Hla Hnin. split_and!; [done| | |apply Forall_app; by split; [|constructor]].
    - apply NoDup_app. split_and!; [done| |apply NoDup_singleton]. by intros x Hx ->%list_elem_of_singleton.
    - cbn [toolPolicyWarningOrder]. rewrite length_app. change (length [warning]) with 1%nat. lia. }
  destruct (Nat.leb_spec MAX_TOOL_POLICY_WARNING_CACHE (length order)) as [_|Hlt]; [|by apply Hok].
  destruct order as [|oldest order]; [apply Hok; try done; apply Nat.lt_0_succ|].
  apply Forall_cons in Hall as [Ho Hall]. rewrite Ho. apply NoDup_cons in Hnd as [Hni Hnd].
  assert (List.filter (λ w, negb (String.eqb w oldest)) (oldest :: order) = order) as ->.
  { cbn. rewrite String.eqb_refl. cbn. clear -Hni. induction order as [|w order IH]; [done|]. cbn.
    apply not_elem_of_cons in Hni as [Hne Hni]. destruct (String.eqb w oldest) eqn:Ew; [apply String.eqb_eq in Ew; congruence|].
    cbn. f_equal. by apply IH. }
  cbn [seenToolPolicyWarnings toolPolicyWarningOrder]. apply Hok; try done. intros Hin. apply E. by right.
Qed.

(** ** Channels of messages *)

(** Whether a channel of messages may use a tool. *)
Definition usableBy (messageProvider : option string) (name : string) : bool :=
  match normalizeOptionalLowercaseString messageProvider with
  | Some "node"%string => set_has ["canvas"; "image"; "pdf"; "tts"; "web_fetch"; "web_search"] name
  | Some "voice"%string => negb (String.eqb name "tts")
  | _ => true
  end.

Lemma filterToolNames_usable names messageProvider :
  filterToolNamesByMessageProvider names messageProvider = List.filter (usableBy messageProvider) names.
Proof.
  assert (∀ l : list string, List.filter (λ _, true) l = l) as Htrue by (induction l; cbn; by f_equal).
  unfold filterToolNamesByMessageProvider, usableBy. destruct (normalizeOptionalLowercaseString messageProvider) as [p|]; [|done].
  unfold TOOL_ALLOW_BY_MESSAGE_PROVIDER, TOOL_DENY_BY_MESSAGE_PROVIDER. cbn [oget].
  destruct (decide (p = "node"%string)) as [->|Hn]; [done|]. destruct (decide (p = "voice"%string)) as [->|Hv].
  { apply filter_ext. intros name. unfold set_has. cbn. by rewrite orb_false_r. }
  transitivity (List.filter (λ _, true) names); [by rewrite Htrue|]. apply filter_ext. intros name.
  repeat match goal with |- context [match ?x with _ => _ end] => is_var x; destruct x; try done end.
Qed.

Definition occurrences (name : string) (names : list string) : Z := Z.of_nat (length (List.filter (String.eqb name) names)).

Lemma occurrences_cons name x names :
  occurrences name (x :: names) = (if String.eqb name x then 1 else 0) + occurrences name names.
Proof. unfold occurrences. cbn. destruct (String.eqb name x); cbn [length]; lia. Qed.

Lemma countNames_occurrences names name : default 0 (oget (countNames names) name) = occurrences name names.
Proof.
  unfold countNames. assert (∀ m : omap string Z,
    default 0 (oget (foldl (λ m n, oset m n (default 0 (oget m n) + 1)) m names) name) = default 0 (oget m name) + occurrences name names)
    as H; [|by rewrite H].
  induction names as [|x names IH]; intros m; cbn [foldl]; [change (occurrences name []) with 0; lia|]. rewrite IH, occurrences_cons.
  destruct (String.eqb name x) eqn:E; [apply String.eqb_eq in E as ->; rewrite oget_oset_eq; cbn; lia|].
  apply String.eqb_neq in E. rewrite oget_oset_ne by done. lia.
Qed.

Lemma takeRemaining_filter {T : Type} (name_of : T → string) (keep : string → bool) remaining (tools : list T) :
  (∀ name, (keep name = true → occurrences name (map name_of tools) <= default 0 (oget remaining name))
           ∧ (keep name = false → default 0 (oget remaining name) <= 0)) →
  takeRemaining name_of remaining tools = List.filter (λ tool, keep (name_of tool)) tools.
Proof.
  revert remaining. induction tools as [|tool tools IH]; intros remaining H; [done|]. cbn [takeRemaining List.filter].
  destruct (H (name_of tool)) as [H1 H2]. cbn [map] in *. rewrite occurrences_cons, String.eqb_refl in H1. cbv iota in H1.
  assert (∀ n, 0 <= occurrences n (map name_of tools)) as Hpos by (intros; unfold occurrences; lia).
  destruct (keep (name_of tool)) eqn:Ek.
  - specialize (H1 eq_refl). specialize (Hpos (name_of tool)). destruct (_ <=? 0) eqn:E; [lia|]. f_equal. apply IH. intros name.
    destruct (H name) as [H3 H4]. rewrite occurrences_cons in H3.
    destruct (String.eqb name (name_of tool)) eqn:En.
    + apply String.eqb_eq in En as ->. rewrite oget_oset_eq. cbn. split; [lia|congruence].
    + apply String.eqb_neq in En. rewrite oget_oset_ne by done. done.
  - specialize (H2 eq_refl). destruct (_ <=? 0) eqn:E; [|lia]. apply IH. intros name. destruct (H name) as [H3 H4].
    rewrite occurrences_cons in H3. split; [|done]. intros Hk. specialize (H3 Hk).
    destruct (String.eqb name (name_of tool)) eqn:En; [apply String.eqb_eq in En; congruence|done].
Qed.

(** The counting filter keeps the tools with a usable name. *)
Lemma filterToolsByMessageProvider_usable {T : Type} (name_of : T → string) (tools : list T) messageProvider :
  filterToolsByMessageProvider name_of tools messageProvider = List.filter (λ tool, usableBy messageProvider (name_of tool)) tools.
Proof.
  unfold filterToolsByMessageProvider. rewrite filterToolNames_usable. apply takeRemaining_filter. intros name.
  rewrite countNames_occurrences. unfold occurrences. rewrite filter_filter. split; intros Hk.
  - assert (List.filter (λ x, usableBy messageProvider x && String.eqb name x) (map name_of tools)
      = List.filter (String.eqb name) (map name_of tools)) as ->; [|lia].
    apply filter_ext. intros x. destruct (String.eqb name x) eqn:E; [|apply andb_false_r]. apply String.eqb_eq in E as <-. by rewrite Hk.
  - assert (List.filter (λ x, usableBy messageProvider x && String.eqb name x) (map name_of tools) = []) as ->; [|done].
    induction (map name_of tools) as [|x l IH]; [done|]. cbn. destruct (String.eqb name x) eqn:E; [|by rewrite andb_false_r].
    apply String.eqb_eq in E as <-. by rewrite Hk.
Qed.

(** ** Owners *)

Section owners.
Context {Args Out : Type}.
#[local] Abbreviation Tool := (AnyAgentTool Args Out).

(** For owners nothing changes; for others the tools of owners go. *)
Lemma applyOwnerOnlyToolPolicy_filter (tools : list Tool) senderIsOwner :
  applyOwnerOnlyToolPolicy tools senderIsOwner = List.filter (λ tool, senderIsOwner || negb (isOwnerOnlyTool tool)) tools.
Proof.
  unfold applyOwnerOnlyToolPolicy. destruct senderIsOwner; cbn.
  - induction tools as [|t l IH]; [done|]. cbn. rewrite IH. f_equal. destruct (isOwnerOnlyTool t); cbn; [|done].
    unfold wrapOwnerOnlyToolExecution. destruct (execute t); [|done]. by rewrite orb_true_r.
  - induction tools as [|t l IH]; [done|]. cbn. destruct (isOwnerOnlyTool t) eqn:E; cbn.
    + assert (isOwnerOnlyTool (wrapOwnerOnlyToolExecution t false) = true) as ->; [|done].
      unfold wrapOwnerOnlyToolExecution. destruct (execute t); [|done]. by destruct (negb (ownerOnly t) || false).
    + rewrite E. cbn. by f_equal.
Qed.

End owners.

(** ** The tools of a run *)

Section run.
Context `{Channels}.
Context {Args Out : Type}.
#[local] Abbreviation Tool := (AnyAgentTool Args Out).
Context (toolMeta : Tool → option string).
Context (options : CodingToolsOptions) (capabilities : string → SubagentCapabilities).
Context (makeTools : list string → list Tool) (wrapFlushWrite : Tool → Tool) (suppressWebSearch : bool).

#[local] Abbreviation p := (runPolicies options capabilities).

(** The tools that are made for the run, in a memory run only those that read and append. *)
Definition madeTools : list Tool :=
  let tools := makeTools (pluginToolAllowlist p) in
  if o_memoryRun options then
    flat_map (λ tool, if negb (set_has MEMORY_FLUSH_ALLOWED_TOOL_NAMES (tool_name tool)) then []
                      else if String.eqb (tool_name tool) "write" then [wrapFlushWrite tool] else [tool]) tools
  else tools.

(** Those that the channel, the provider and the sender allow. *)
Definition eligible (tool : Tool) : bool :=
  usableBy (gp_messageProvider (o_group options)) (tool_name tool)
  && negb (suppressWebSearch && String.eqb (tool_name tool) "web_search")
  && (bool_decide (o_senderIsOwner options = Some true) || negb (isOwnerOnlyTool tool)).

Definition eligibleTools : list Tool := List.filter eligible madeTools.

Lemma steps_policies step q : step ∈ stepsOf p → step_policy step = Some q → Some q ∈ policiesOf p.
Proof.
  intros Hs Hq. rewrite <- Hq. unfold stepsOf, defaultStepsOf, buildDefaultToolPolicyPipelineSteps, policiesOf in *.
  cbn [app] in Hs. repeat (apply elem_of_cons in Hs as [->|Hs]; [cbn [step_policy]; set_solver|]). by apply elem_of_nil in Hs.
Qed.

Lemma policies_steps q : Some q ∈ policiesOf p → ∃ step, step ∈ stepsOf p ∧ step_policy step = Some q.
Proof.
  intros Hq. assert (map step_policy (stepsOf p) = policiesOf p) as Hm by done.
  rewrite <- Hm in Hq. apply list_elem_of_In, in_map_iff in Hq as (step & Hs & Hin). exists step. by rewrite list_elem_of_In.
Qed.

Lemma offered_filtered cache st :
  createOpenClawCodingTools toolMeta options capabilities makeTools wrapFlushWrite suppressWebSearch cache = Ok st →
  filtered st = filtered (applyToolPolicyPipeline toolMeta eligibleTools (stepsOf p) cache).
Proof.
  unfold createOpenClawCodingTools. destruct (_ && _); [done|]. intros [= <-].
  rewrite applyOwnerOnlyToolPolicy_filter, filterToolsByMessageProvider_usable. fold madeTools.
  assert (List.filter (λ tool, bool_decide (o_senderIsOwner options = Some true) || negb (isOwnerOnlyTool tool))
    (if suppressWebSearch then List.filter (λ tool, negb (String.eqb (tool_name tool) "web_search"))
       (List.filter (λ tool, usableBy (gp_messageProvider (o_group options)) (tool_name tool)) madeTools)
     else List.filter (λ tool, usableBy (gp_messageProvider (o_group options)) (tool_name tool)) madeTools) = eligibleTools) as <-; [|done].
  unfold eligibleTools, eligible. destruct suppressWebSearch; rewrite !filter_filter; apply filter_ext; intros t; cbn; [|by rewrite andb_true_r].
  by rewrite andb_assoc.
Qed.

(** The tools of a run are the eligible ones that every policy admits. *)
Lemma offered_tools cache st tool :
  createOpenClawCodingTools toolMeta options capabilities makeTools wrapFlushWrite suppressWebSearch cache = Ok st →
  tool ∈ filtered st ↔
  tool ∈ eligibleTools
  ∧ ∀ policy, Some policy ∈ policiesOf p → admits (buildPluginToolGroups toolMeta eligibleTools) policy (tool_name tool).
Proof.
  intros ->%offered_filtered. rewrite pipeline_keeps_admitted. split; intros [Hin Hall]; (split; [done|]).
  - intros policy (step & Hs & Hq)%policies_steps. by eapply Hall.
  - intros step q Hs Hq. by eapply Hall, steps_policies.
Qed.

End run.

(** ** A tool that is denied by its name *)

Lemma star_match_refl p : star_match p p.
Proof.
  induction p as [|c p IH]; [constructor|]. destruct (Ascii.eqb c "*"%char) eqn:E; [|by constructor].
  apply Ascii.eqb_eq in E as ->. change (String "*" p) with ("*" +:+ p) at 2. by constructor.
Qed.

(** An entry that names a tool stands for it, unless a plugin with tools has this name. *)
Definition names_tool (groups : PluginToolGroups) (entry n : string) : Prop :=
  normalizeToolName entry = n ∧ str_truthy n = true ∧ n ≠ "group:plugins"%string ∧ oget TOOL_GROUPS n = None
  ∧ default [] (oget (byPlugin groups) n) = [].

Lemma named_covered groups entries entry n : names_tool groups entry n → entry ∈ entries → covered_by groups entries n.
Proof.
  intros (Hn & Ht & Hp & Hg & Hb) Hin. exists entry, n. split; [done|]. split.
  - unfold expandPluginEntry. rewrite Hn. destruct (String.eqb n "group:plugins") eqn:E; [by apply String.eqb_eq in E|].
    destruct (oget (byPlugin groups) n) as [[|x l]|]; [by left|done|by left].
  - unfold entry_covers. rewrite <- Hn, normalizeToolName_idemp, Hn, Hg. split; [done|]. right. apply star_match_refl.
Qed.

Lemma named_is_denied groups policy entry name :
  entry ∈ default [] (deny policy) → names_tool groups entry (normalizeToolName name) → ¬ admits groups policy name.
Proof. intros Hin Hn [Hd _]. apply Hd. left. by eapply named_covered. Qed.

Lemma subagent_denies baseDeny configured entry :
  entry ∈ baseDeny →
  (∀ e, e ∈ default [] (configured ≫= pc_allow) ++ default [] (configured ≫= pc_alsoAllow) → normalizeToolName e ≠ normalizeToolName entry) →
  entry ∈ default [] (deny (subagentPolicyFrom baseDeny configured)).
Proof.
  intros Hin Hno. cbn. apply elem_of_app. left. apply list_elem_of_In, filter_In. split; [by apply list_elem_of_In|].
  apply negb_true_iff, set_has_false. intros (e & He & Hine)%list_elem_of_In%in_map_iff. by apply (Hno e); [apply list_elem_of_In|].
Qed.

(** ** Theorems *)

Lemma filter_sublist {A} (f : A → bool) (l : list A) : sublist (List.filter f l) l.
Proof. induction l as [|x l IH]; cbn; [constructor|]. destruct (f x); by constructor. Qed.


#[local] Instance noChannels : Channels :=
  Build_Channels (λ _, None) (λ _, None) (λ _, None) (λ _, None) (λ _, None).

Definition plainTool (name : string) : AnyAgentTool unit unit := mkTool name false None.
Definition noMeta (tool : AnyAgentTool unit unit) : option string := None.

Definition demoSection (policy : ToolPolicyConfig) (subagents : option ToolPolicyConfig) : ToolsSection :=
  mkTools policy None false None None subagents.
Definition demoConfig (policy : ToolPolicyConfig) (subagents : option ToolPolicyConfig) : ToolConfig :=
  mkToolConfig (Some (demoSection policy subagents)) [] None [] None None.
Definition demoOptions (policy : ToolPolicyConfig) (sessionKey : string) : CodingToolsOptions :=
  mkOptions (Some (demoConfig policy None)) (Some sessionKey) None None None None
    (mkGroupParams None None None None None None None (mkSender None None None None)) (Some true) false None.
Definition leafCapabilities (key : string) : SubagentCapabilities := resolveSubagentCapabilities 1 None.

Definition demoTools : list (AnyAgentTool unit unit) := map plainTool ["read"; "exec"; "apply_patch"; "cron"]%string.

Definition demoRun (options : CodingToolsOptions) : PipelineState (Args := unit) (Out := unit) :=
  match createOpenClawCodingTools noMeta options leafCapabilities (λ _, demoTools) id false (mkWarnings [] []) with
  | Ok st => st
  | Throw _ => mkPipeline [] (mkWarnings [] []) []
  end.


(** C11. A sub-agent is not offered the tools that control the gateway, other agents, the login,
    the status, schedules or other sessions, and as a leaf none that manages sessions, unless
    the configuration allows them to sub-agents by name; a plugin whose identifier is the
    name of the tool voids this. *)
Theorem subagents_are_kept_from_control_tools `{Channels} {Args Out} (toolMeta : AnyAgentTool Args Out → option string) options capabilities
    makeTools wrapFlushWrite suppressWebSearch cache st sessionKey entry tool :
  createOpenClawCodingTools toolMeta options capabilities makeTools wrapFlushWrite suppressWebSearch cache = Ok st →
  o_sessionKey options = Some sessionKey → isSubagentSessionKey (Some sessionKey) = true →
  entry ∈ SUBAGENT_TOOL_DENY_ALWAYS ∨ cap_role (capabilities sessionKey) = RoleLeaf ∧ entry ∈ SUBAGENT_TOOL_DENY_LEAF →
  (∀ e, e ∈ default [] (subagentToolsOf (o_config options) ≫= pc_allow) ++ default [] (subagentToolsOf (o_config options) ≫= pc_alsoAllow) →
        normalizeToolName e ≠ entry) →
  default [] (oget (byPlugin (buildPluginToolGroups toolMeta (eligibleTools options capabilities makeTools wrapFlushWrite suppressWebSearch))) entry) = [] →
  normalizeToolName (tool_name tool) = entry →
  tool ∉ filtered st.
Proof.
  intros Hst Hkey Hsub Hentry Hno Hplugin Hname Hin.
  apply (offered_tools _ _ _ _ _ _ _ _ _ Hst) in Hin as [_ Hall].
  set (policy := resolveSubagentToolPolicyForSession (o_config options) (capabilities sessionKey)).
  assert (forallb (λ e, String.eqb (normalizeToolName e) e && str_truthy e && negb (String.eqb e "group:plugins")
    && match oget TOOL_GROUPS e with None => true | _ => false end) (SUBAGENT_TOOL_DENY_ALWAYS ++ SUBAGENT_TOOL_DENY_LEAF) = true)
    as Hplain by (vm_compute; reflexivity).
  assert (entry ∈ SUBAGENT_TOOL_DENY_ALWAYS ++ SUBAGENT_TOOL_DENY_LEAF) as Hmem by (apply elem_of_app; tauto).
  rewrite forallb_forall in Hplain. specialize (Hplain entry (proj1 (list_elem_of_In _ _) Hmem)).
  apply andb_true_iff in Hplain as [[[Hn%String.eqb_eq Ht]%andb_true_iff Hp%negb_true_iff%String.eqb_neq]%andb_true_iff Hg].
  apply (named_is_denied (buildPluginToolGroups toolMeta (eligibleTools options capabilities makeTools wrapFlushWrite suppressWebSearch))
    policy entry (tool_name tool)).
  - apply subagent_denies; [|rewrite Hn; exact Hno]. unfold resolveSubagentDenyListForRole.
    destruct Hentry as [He|[-> He]]; [|apply elem_of_app; by right]. destruct (cap_role _); [done..|apply elem_of_app; by left].
  - rewrite Hname. split_and!; try done. by destruct (oget TOOL_GROUPS entry).
  - apply Hall. unfold policiesOf, runPolicies. cbn [rp_subagentPolicy]. rewrite Hkey, Hsub.
    assert (str_truthy sessionKey = true) as -> by by destruct sessionKey. cbn [andb]. fold policy. do 8 apply list_elem_of_further. apply list_elem_of_here.
Qed.

Lemma subagents_are_kept_from_control_tools_witness :
  let options := demoOptions (mkPolicyConfig None None None None) "agent:main:subagent:x" in
  map tool_name demoTools !! 3%nat = Some "cron"%string ∧ plainTool "cron" ∉ filtered (demoRun options).
Proof.
  intros options. split; [done|].
  apply (subagents_are_kept_from_control_tools noMeta options leafCapabilities (λ _, demoTools) id false (mkWarnings [] []) _
    "agent:main:subagent:x" "cron").
  - vm_compute. reflexivity.
  - reflexivity.
  - vm_compute. reflexivity.
  - left. unfold SUBAGENT_TOOL_DENY_ALWAYS. set_solver.
  - intros e He. cbn in He. by apply elem_of_nil in He.
  - vm_compute. reflexivity.
  - vm_compute. reflexivity.
Defined.

(** The default steps hold the policies of the configuration and of the agent. *)
Lemma default_step `{Channels} (p : RunPolicies) policy :
  ep_globalPolicy (rp_effective p) = Some policy ∨ ep_agentPolicy (rp_effective p) = Some policy →
  ∃ step, step ∈ defaultStepsOf p ∧ step_policy step = Some policy.
Proof.
  intros [Hp|Hp].
  - eexists. split; [do 2 apply list_elem_of_further; apply list_elem_of_here|exact Hp].
  - eexists. split; [do 4 apply list_elem_of_further; apply list_elem_of_here|exact Hp].
Qed.

Lemma gatewayDenied_elem cfg surface exclude name :
  name ∉ gatewayDenied cfg surface exclude →
  (surface ≠ Some SurfaceLoopback → name ∈ DEFAULT_GATEWAY_HTTP_TOOL_DENY → name ∈ (cfg_gatewayAllow cfg ?? []))
  ∧ (name ∉ (cfg_gatewayDeny cfg ?? [])) ∧ (name ∉ exclude).
Proof.
  unfold gatewayDenied. rewrite !elem_of_app. intros Hd. split_and!; [|tauto|tauto]. intros Hs Hdanger.
  destruct (decide (name ∈ (cfg_gatewayAllow cfg ?? []))) as [|Hna]; [done|]. exfalso.
  assert (default SurfaceHttp surface = SurfaceHttp) as Hhttp by (destruct surface as [[]|]; [done|by destruct Hs|done]).
  apply Hd. left. rewrite Hhttp. apply list_elem_of_In, filter_In. split; [by apply list_elem_of_In|].
  by apply negb_true_iff, set_has_false.
Qed.

(** The tools that a client may invoke over the gateway are those that are made, that the
    policies of the configuration and of the agent admit and that are not on the gateway's
    list: over HTTP the dangerous tools are on it unless [gateway.tools.allow] names them. *)
Lemma gateway_offers_no_dangerous_tools `{Channels} {Args Out} (toolMeta : AnyAgentTool Args Out → option string) cfg sessionKey
    messageProvider accountId surface exclude makeTools cache tool :
  let p := gatewayPolicies cfg sessionKey messageProvider accountId in
  tool ∈ (resolveGatewayScopedTools toolMeta cfg sessionKey messageProvider accountId surface exclude makeTools cache).2 →
  (surface ≠ Some SurfaceLoopback → tool_name tool ∈ DEFAULT_GATEWAY_HTTP_TOOL_DENY → tool_name tool ∈ (cfg_gatewayAllow cfg ?? []))
  ∧ (tool_name tool ∉ (cfg_gatewayDeny cfg ?? [])) ∧ (tool_name tool ∉ exclude)
  ∧ tool ∈ makeTools (pluginToolAllowlist p)
  ∧ (∀ policy, ep_globalPolicy (rp_effective p) = Some policy ∨ ep_agentPolicy (rp_effective p) = Some policy →
       admits (buildPluginToolGroups toolMeta (makeTools (pluginToolAllowlist p))) policy (tool_name tool)).
Proof.
  cbv zeta. unfold resolveGatewayScopedTools. generalize (gatewayPolicies cfg sessionKey messageProvider accountId). intros p.
  cbn [snd]. rewrite list_elem_of_In, filter_In. intros [Hin Hd%negb_true_iff%set_has_false%gatewayDenied_elem].
  apply list_elem_of_In, pipeline_keeps_admitted in Hin as [Hmade Hall]. split_and!; try tauto. intros policy Hp.
  destruct (default_step p policy Hp) as (step & Hs & Hq). apply (Hall step policy); [|done]. apply elem_of_app. by left.
Qed.

(** ** Where policies differ from what they seem to say *)

(** A plugin whose identifier is the name of a core tool takes the place of the tool in the
    lists of a policy: denying [exec] then denies the tools of the plugin only. *)
Lemma plugin_identifier_voids_a_denial :
  let helper := plainTool "exec_helper" in
  let meta (tool : AnyAgentTool unit unit) := if String.eqb (tool_name tool) "exec_helper" then Some "exec"%string else None in
  let steps := [mkStep (Some (mkPolicy None (Some ["exec"%string]))) "tools.allow" true false None] in
  map tool_name (filtered (applyToolPolicyPipeline noMeta [plainTool "exec"; helper] steps (mkWarnings [] []))) = ["exec_helper"%string]
  ∧ map tool_name (filtered (applyToolPolicyPipeline meta [plainTool "exec"; helper] steps (mkWarnings [] []))) = ["exec"%string].
Proof. vm_compute. done. Qed.

(** The explanation of a sandbox policy does not know that denying [write] denies [apply_patch]. *)
Lemma sandbox_explanation_misses_apply_patch :
  let policy := mkPolicy None (Some ["write"%string]) in
  isToolAllowedByPolicyName "apply_patch" (Some policy) = false ∧ isToolAllowed policy "apply_patch" = true.
Proof. vm_compute. done. Qed.

(** An additional entry for sub-agents narrows an empty allowlist, which admits every tool,
    to this entry; in the other sections it keeps every tool. *)
Lemma additional_entry_narrows_sub_agents :
  let section := mkPolicyConfig (Some []) (Some ["lobster"%string]) None None in
  allow (subagentPolicyFrom [] (Some section)) = Some ["lobster"%string]
  ∧ (pickSandboxToolPolicy (Some section) ≫= allow) = Some ["*"%string; "lobster"%string].
Proof. vm_compute. done. Qed.

(** A list of blank entries admits what an empty list does. *)
Lemma blank_allowlist_admits_everything name : makeToolPolicyMatcher (mkPolicy (Some [" "%string]) None) name = true.
Proof.
  apply makeToolPolicyMatcher_permits. split; cbn; [|left; by constructor].
  unfold governed, covered. cbn. intros [(e & He%elem_of_nil & _)|(_ & e & He%elem_of_nil & _)]; done.
Qed.

End ToolPipeline.
