(* ===== verification/JsText.v ===== *)
(** * Positions in texts

    The string methods with positions that the scanners of texts use: [slice],
    [lastIndexOf] and the access to a character. Positions are integers, as the code
    computes with them; a position before the text never reaches [slice]. *)

From Stdlib Require Import Ascii.
From S2P Require Import Prelude JsRegex.

#[local] Open Scope stdpp_scope.

(** [s.length] *)
Definition len (s : string) : Z := Z.of_nat (String.length s).

(** [s.slice(a, b)] and [s.slice(a)] for [0 <= a]. *)
Definition slice (s : string) (a b : Z) : string := str_take (Z.to_nat (b - a)) (str_drop (Z.to_nat a) s).
Definition slice_from (s : string) (a : Z) : string := str_drop (Z.to_nat a) s.

(** [s[i]] *)
Definition char_at (s : string) (i : Z) : option ascii :=
  if i <? 0 then None else String.get (Z.to_nat i) s.

(** [/\s/.test(s[i])] within the text. *)
Definition ws_at (s : string) (i : Z) : bool :=
  match char_at s i with Some c => is_ws c | None => false end.

Fixpoint last_upto (c : ascii) (s : string) (n : nat) : Z :=
  if bool_decide (String.get n s = Some c) then Z.of_nat n
  else match n with
       | O => -1
       | S m => last_upto c s m
       end.

(** [s.lastIndexOf(c, from)] of one character: a negative [from] is read as 0. *)
Definition lastIndexOfChar (c : ascii) (s : string) (from : Z) : Z := last_upto c s (Z.to_nat from).

(** [s.repeat(n)] *)
Fixpoint str_repeat (s : string) (n : nat) : string :=
  match n with
  | O => EmptyString
  | S m => s +:+ str_repeat s m
  end.

(** [s.endsWith(c)] for one character. *)
Definition ends_with_char (s : string) (c : ascii) : bool :=
  bool_decide (char_at s (len s - 1) = Some c).

(** ** Lengths *)

Lemma len_nonneg s : 0 <= len s.
Proof. unfold len. lia. Qed.
#[export] Hint Resolve len_nonneg : jsdb.

Lemma len_append a b : len (a +:+ b) = len a + len b.
Proof. unfold len. rewrite append_length. lia. Qed.

Lemma len_zero s : len s <= 0 ↔ s = EmptyString.
Proof. unfold len. destruct s; simpl; split; intros; try done; lia. Qed.

Lemma len_positive s : 0 < len s ↔ s ≠ EmptyString.
Proof. rewrite <- len_zero. lia. Qed.

Lemma str_drop_length n s : String.length (str_drop n s) = (String.length s - n)%nat.
Proof. revert s. induction n as [|n IH]; intros [|c s]; simpl; auto. Qed.

Lemma str_take_length_eq n s : String.length (str_take n s) = Nat.min n (String.length s).
Proof. revert s. induction n as [|n IH]; intros [|c s]; simpl; auto. Qed.

Lemma str_take_drop n s : str_take n s +:+ str_drop n s = s.
Proof. revert s. induction n as [|n IH]; intros [|c s]; simpl; auto. f_equal. apply IH. Qed.

Lemma str_drop_drop n m s : str_drop n (str_drop m s) = str_drop (m + n)%nat s.
Proof. revert s. induction m as [|m IH]; intros [|c s]; simpl; auto. by destruct n. Qed.

Lemma str_take_add n m s : str_take n s +:+ str_take m (str_drop n s) = str_take (n + m)%nat s.
Proof. revert s. induction n as [|n IH]; intros [|c s]; simpl; auto; [by destruct m|]. f_equal. apply IH. Qed.

Lemma len_slice s a b : 0 <= a → a <= b → b <= len s → len (slice s a b) = b - a.
Proof.
  unfold len, slice. intros. rewrite str_take_length_eq, str_drop_length. lia.
Qed.

Lemma len_slice_le s a b : a <= b → len (slice s a b) <= b - a.
Proof. unfold len, slice. intros. rewrite str_take_length_eq. lia. Qed.

Lemma len_slice_from s a : 0 <= a → a <= len s → len (slice_from s a) = len s - a.
Proof. unfold len, slice_from. intros. rewrite str_drop_length. lia. Qed.

Lemma slice_split s a b c : 0 <= a → a <= b → b <= c → slice s a b +:+ slice s b c = slice s a c.
Proof.
  intros. unfold slice.
  replace (str_drop (Z.to_nat b) s) with (str_drop (Z.to_nat (b - a)) (str_drop (Z.to_nat a) s)).
  - rewrite str_take_add. f_equal. lia.
  - rewrite str_drop_drop. f_equal. lia.
Qed.

Lemma slice_slice_from s a b : 0 <= a → a <= b → slice s a b +:+ slice_from s b = slice_from s a.
Proof.
  intros. unfold slice, slice_from.
  replace (str_drop (Z.to_nat b) s) with (str_drop (Z.to_nat (b - a)) (str_drop (Z.to_nat a) s)).
  - apply str_take_drop.
  - rewrite str_drop_drop. f_equal. lia.
Qed.

Lemma slice_zero_from s : slice_from s 0 = s.
Proof. by destruct s. Qed.

(** The character at a position is the slice of length one there. *)
Lemma str_drop_get n s c : String.get n s = Some c → str_drop n s = String c (str_drop (S n) s).
Proof.
  revert s. induction n as [|n IH]; intros [|d s]; simpl; try done.
  - intros [= ->]. by destruct s.
  - intros H. rewrite (IH _ H). done.
Qed.

Lemma char_at_slice s i c : char_at s i = Some c → slice s i (i + 1) = String c EmptyString ∧ 0 <= i < len s.
Proof.
  unfold char_at, slice, len. destruct (Z.ltb_spec i 0); [done|]. intros Hg. split.
  - rewrite (str_drop_get _ _ _ Hg). replace (Z.to_nat (i + 1 - i)) with 1%nat by lia. done.
  - split; [lia|]. apply str_drop_get in Hg. apply (f_equal String.length) in Hg.
    simpl in Hg. rewrite str_drop_length in Hg. lia.
Qed.

Lemma ws_at_slice s i : ws_at s i = true → str_all is_ws (slice s i (i + 1)) = true ∧ 0 <= i < len s.
Proof.
  unfold ws_at. destruct (char_at s i) as [c|] eqn:Hc; [|done]. intros Hw.
  destruct (char_at_slice _ _ _ Hc) as [-> ?]. simpl. by rewrite Hw.
Qed.

(** [lastIndexOfChar] finds an occurrence not beyond its start, or none. *)
Lemma lastIndexOfChar_range c s from i :
  lastIndexOfChar c s from = i → i = -1 ∨ (0 <= i <= Z.max 0 from ∧ char_at s i = Some c).
Proof.
  intros <-. unfold lastIndexOfChar.
  assert (∀ n, last_upto c s n = -1 ∨ 0 <= last_upto c s n <= Z.of_nat n ∧ char_at s (last_upto c s n) = Some c) as H.
  { induction n as [|n IH]; simpl; case_bool_decide as Hg;
      try (right; split; [lia|]; unfold char_at; rewrite (proj2 (Z.ltb_ge _ _)) by lia; by rewrite <- Hg; f_equal; lia);
      [by left|].
    destruct IH as [->|[? ?]]; [by left|right; split; [lia|done]]. }
  destruct (H (Z.to_nat from)) as [?|[? ?]]; [by left|right; split; [lia|done]].
Qed.

(** ** White space *)

Definition blank (s : string) : bool := str_all is_ws s.

Lemma blank_append a b : blank (a +:+ b) = blank a && blank b.
Proof. apply str_all_append. Qed.

Lemma get_append_right a b i : String.get (String.length a + i) (a +:+ b) = String.get i b.
Proof. induction a as [|c a IH]; [done|]. simpl. exact IH. Qed.

Lemma ends_with_char_snoc s c : ends_with_char (s +:+ String c EmptyString) c = true.
Proof.
  unfold ends_with_char. apply bool_decide_eq_true. unfold char_at. rewrite len_append.
  pose proof (len_nonneg s). replace (len (String c EmptyString)) with 1 by reflexivity.
  rewrite (proj2 (Z.ltb_ge _ _)) by lia.
  replace (Z.to_nat (len s + 1 - 1)) with (String.length s + 0)%nat by (unfold len; lia).
  by rewrite get_append_right.
Qed.
