(* ===== verification/Fences.v ===== *)
(** * Fenced code blocks: src/markdown/fences.ts

    [parseFenceSpans] finds the fenced blocks of a markdown text; the loop over the
    offsets of line starts is a recursion on the lines. [findFenceSpanAt] is a binary
    search, which is proved to answer as a scan of the spans does. *)

From Stdlib Require Import Ascii.
From S2P Require Import Prelude JsRegex JsText.

#[local] Open Scope stdpp_scope.

Record FenceSpan := mkFenceSpan {
  fs_start : Z;
  fs_end : Z;
  fs_openLine : string;
  fs_marker : string;
  fs_indent : string;
}.

(** The variable [open] of the loop. *)
Record OpenFence := mkOpenFence {
  of_start : Z;
  of_markerChar : option ascii;
  of_markerLen : Z;
  of_openLine : string;
  of_marker : string;
  of_indent : string;
}.

Definition backquote : ascii := Eval compute in ascii_of_nat 96.

(** Three or more characters [c]. *)
Definition RThreeOrMore (c : ascii) : regex :=
  RCat [RChar (Ascii.eqb c); RChar (Ascii.eqb c); RChar (Ascii.eqb c); RStar (RChar (Ascii.eqb c))].

(** Up to three spaces, a run of three or more backquotes or tildes, anything. *)
Definition fenceLine : regex :=
  let space := ROpt (RChar (Ascii.eqb " "%char)) in
  RCat [RStart; RGroup 1 (RCat [space; space; space]);
        RGroup 2 (RAlt (RThreeOrMore backquote) (RThreeOrMore "~"%char));
        RGroup 3 (RStar RDot); REnd].

(** The indentation and the marker of a line that opens or closes a fence. *)
Definition readFence (line : string) : option (string * string) :=
  match exec fenceLine line with
  | Some caps =>
      match capture caps 1, capture caps 2 with
      | Some indent, Some marker => Some (indent, marker)
      | _, _ => None
      end
  | None => None
  end.

Definition closeSpan (o : OpenFence) (e : Z) : FenceSpan :=
  mkFenceSpan (of_start o) e (of_openLine o) (of_marker o) (of_indent o).

(** What one line does to the fence that is open and to the spans. *)
Definition fence_step (line : string) (offset : Z) (open : option OpenFence)
    : option OpenFence * option FenceSpan :=
  match readFence line with
  | None => (open, None)
  | Some (indent, marker) =>
      let markerChar := char_at marker 0 in
      let markerLen := len marker in
      match open with
      | None => (Some (mkOpenFence offset markerChar markerLen line marker indent), None)
      | Some o =>
          if bool_decide (of_markerChar o = markerChar) && (of_markerLen o <=? markerLen)
          then (None, Some (closeSpan o (offset + len line)))
          else (open, None)
      end
  end.

(** The loop, on the lines from [offset] on; [total] is the length of the text. *)
Fixpoint fence_loop (total : Z) (lines : list string) (offset : Z) (open : option OpenFence)
    : list FenceSpan :=
  match lines with
  | [] => match open with Some o => [closeSpan o total] | None => [] end
  | line :: rest =>
      let '(open', closed) := fence_step line offset open in
      option_list closed ++ fence_loop total rest (offset + len line + 1) open'
  end.

Definition parseFenceSpans (buffer : string) : list FenceSpan :=
  fence_loop (len buffer) (split_on newline buffer) 0 None.

(** [index] is strictly inside the span. *)
Definition inside (index : Z) (span : FenceSpan) : bool := (fs_start span <? index) && (index <? fs_end span).

(** The loop on [low] and [high]; each turn makes the interval smaller. *)
Fixpoint fence_search (fuel : nat) (spans : list FenceSpan) (index low high : Z) : option FenceSpan :=
  match fuel with
  | O => None
  | S fuel' =>
      if low <=? high then
        let mid := (low + high) / 2 in
        match spans !! Z.to_nat mid with
        | None => None
        | Some span =>
            if index <=? fs_start span then fence_search fuel' spans index low (mid - 1)
            else if fs_end span <=? index then fence_search fuel' spans index (mid + 1) high
            else Some span
        end
      else None
  end.

Definition findFenceSpanAt (spans : list FenceSpan) (index : Z) : option FenceSpan :=
  fence_search (S (List.length spans)) spans index 0 (Z.of_nat (List.length spans) - 1).

Definition isSafeFenceBreak (spans : list FenceSpan) (index : Z) : bool :=
  match findFenceSpanAt spans index with Some _ => false | None => true end.

(** ** The spans of a text lie apart, in order *)

(** The spans lie in [lo..hi], one after the other. *)
Fixpoint apart (lo : Z) (spans : list FenceSpan) (hi : Z) : Prop :=
  match spans with
  | [] => True
  | s :: rest => lo <= fs_start s ∧ fs_start s <= fs_end s ∧ fs_end s <= hi ∧ apart (fs_end s) rest hi
  end.

Lemma inside_iff index s : inside index s = true ↔ fs_start s < index < fs_end s.
Proof. unfold inside. rewrite andb_true_iff, !Z.ltb_lt. lia. Qed.

Lemma apart_weaken lo lo' spans hi : lo' <= lo → apart lo spans hi → apart lo' spans hi.
Proof. destruct spans as [|s spans]; simpl; [done|]. intros ? (? & ?). split; [lia|done]. Qed.

(** The lines of a text with their line ends fill it. *)
Fixpoint lines_len (lines : list string) : Z :=
  match lines with [] => 0 | l :: rest => len l + 1 + lines_len rest end.

Lemma lines_len_nonneg lines : 0 <= lines_len lines.
Proof. induction lines as [|l lines IH]; simpl; [lia|]. pose proof (len_nonneg l). lia. Qed.

Lemma split_on_len c s : lines_len (split_on c s) = len s + 1.
Proof.
  induction s as [|d s IH]; [done|]. simpl.
  replace (len (String d s)) with (len s + 1) by (unfold len; simpl; lia).
  destruct (Ascii.eqb d c); simpl.
  - rewrite IH. unfold len at 1. simpl. lia.
  - destruct (split_on c s) as [|p ps] eqn:Hp; [by apply split_on_nonnil in Hp|].
    simpl in *. replace (len (String d p)) with (len p + 1) by (unfold len; simpl; lia). lia.
Qed.

Lemma fence_loop_apart total lines offset open lo :
  offset + lines_len lines = total + 1 → lo <= offset → offset <= total + 1 →
  match open with Some o => lo <= of_start o ∧ of_start o <= offset ∧ of_start o <= total | None => True end →
  apart lo (fence_loop total lines offset open) total.
Proof.
  revert offset open lo. induction lines as [|l lines IH]; intros offset open lo Ht Hlo Hle Hopen; simpl in *.
  - destruct open as [o|]; simpl; [|done]. lia.
  - pose proof (len_nonneg l). pose proof (lines_len_nonneg lines).
    unfold fence_step. destruct (readFence l) as [[indent marker]|]; simpl.
    + destruct open as [o|]; [destruct (bool_decide _ && _)|]; simpl.
      * split_and!; try lia. apply IH; lia.
      * apply IH; lia.
      * apply IH; simpl; lia.
    + apply IH; try lia. destruct open; lia.
Qed.

Lemma parseFenceSpans_apart buffer : apart 0 (parseFenceSpans buffer) (len buffer).
Proof.
  pose proof (len_nonneg buffer).
  apply fence_loop_apart; try done; try lia. rewrite split_on_len. lia.
Qed.

Lemma apart_start lo spans hi k s :
  apart lo spans hi → spans !! k = Some s → lo <= fs_start s ∧ fs_start s <= fs_end s ∧ fs_end s <= hi.
Proof.
  revert lo k. induction spans as [|a spans IH]; intros lo [|k]; simpl; try done.
  - intros (? & ? & ? & ?) [= <-]. lia.
  - intros (? & ? & ? & Ha) Hk. destruct (IH _ _ Ha Hk) as (? & ? & ?). lia.
Qed.

Lemma apart_order lo spans hi j k s t :
  apart lo spans hi → (j < k)%nat → spans !! j = Some s → spans !! k = Some t → fs_end s <= fs_start t.
Proof.
  revert lo j k. induction spans as [|a spans IH]; intros lo [|j] [|k]; simpl; try done; try lia.
  - intros (? & ? & ? & Ha) _ [= <-] Hk. by destruct (apart_start _ _ _ _ _ Ha Hk).
  - intros (? & ? & ? & Ha) ? Hj Hk. apply (IH _ j k Ha); [lia|done|done].
Qed.

(** A position is inside one span at most. *)
Lemma inside_unique lo spans hi index j k s t :
  apart lo spans hi → spans !! j = Some s → spans !! k = Some t →
  inside index s = true → inside index t = true → j = k.
Proof.
  rewrite !inside_iff. intros Ha Hj Hk ? ?.
  destruct (lt_eq_lt_dec j k) as [[Hlt|Heq]|Hgt]; [|done|].
  - pose proof (apart_order _ _ _ _ _ _ _ Ha Hlt Hj Hk). lia.
  - pose proof (apart_order _ _ _ _ _ _ _ Ha Hgt Hk Hj). lia.
Qed.

Lemma find_inside lo spans hi index k s :
  apart lo spans hi → spans !! k = Some s → inside index s = true → List.find (inside index) spans = Some s.
Proof.
  intros Ha Hk Hin. destruct (List.find (inside index) spans) as [t|] eqn:Hf.
  - apply List.find_some in Hf as [Ht Hit]. apply list_elem_of_In, list_elem_of_lookup in Ht as [j Hj].
    rewrite (inside_unique _ _ _ _ _ _ _ _ Ha Hj Hk Hit Hin) in Hj. congruence.
  - assert (In s spans) as HI by (apply list_elem_of_In, list_elem_of_lookup; by exists k).
    by rewrite (List.find_none _ _ Hf s HI) in Hin.
Qed.

(** The search, on an interval that holds every span around [index]. *)
Lemma fence_search_scan lo spans hi fuel index low high :
  apart lo spans hi → 0 <= low → high < Z.of_nat (List.length spans) → high - low < Z.of_nat fuel - 1 →
  (∀ k s, spans !! k = Some s → inside index s = true → low <= Z.of_nat k <= high) →
  fence_search fuel spans index low high = List.find (inside index) spans.
Proof.
  intros Ha. revert low high. induction fuel as [|fuel IH]; intros low high Hlow Hhigh Hfuel Hin; simpl.
  all: assert (high < low → List.find (inside index) spans = None) as Hnone
    by (intros; destruct (List.find (inside index) spans) as [s|] eqn:Hf; [|done];
        apply List.find_some in Hf as [Hs Hi]; apply list_elem_of_In, list_elem_of_lookup in Hs as [k Hk];
        pose proof (Hin _ _ Hk Hi); lia).
  - symmetry. apply Hnone. lia.
  - destruct (Z.leb_spec low high) as [Hle|Hgt]; [|symmetry; apply Hnone; lia].
    assert (low <= (low + high) / 2 <= high) as Hmid by (Z.div_mod_to_equations; lia).
    set (mid := (low + high) / 2) in *.
    destruct (spans !! Z.to_nat mid) as [span|] eqn:Hs; [|apply lookup_ge_None in Hs; lia].
    destruct (apart_start _ _ _ _ _ Ha Hs) as (_ & Hse & _).
    destruct (Z.leb_spec index (fs_start span)); [|destruct (Z.leb_spec (fs_end span) index)].
    + apply IH; try lia. intros k s Hk Hi. pose proof (Hin _ _ Hk Hi). split; [lia|].
      apply inside_iff in Hi. destruct (lt_eq_lt_dec (Z.to_nat mid) k) as [[Hlt| <-]|]; [|simplify_eq; lia|lia].
      pose proof (apart_order _ _ _ _ _ _ _ Ha Hlt Hs Hk). lia.
    + apply IH; try lia. intros k s Hk Hi. pose proof (Hin _ _ Hk Hi). split; [|lia].
      apply inside_iff in Hi. destruct (lt_eq_lt_dec k (Z.to_nat mid)) as [[Hlt| ->]|]; [|simplify_eq; lia|lia].
      destruct (apart_start _ _ _ _ _ Ha Hk) as (_ & ? & _).
      pose proof (apart_order _ _ _ _ _ _ _ Ha Hlt Hk Hs). lia.
    + symmetry. apply (find_inside _ _ _ _ _ _ Ha Hs), inside_iff. lia.
Qed.

Lemma findFenceSpanAt_scan lo spans hi index :
  apart lo spans hi → findFenceSpanAt spans index = List.find (inside index) spans.
Proof.
  intros Ha. apply (fence_search_scan _ _ _ _ _ _ _ Ha); try lia.
  intros k s Hk _. apply lookup_lt_Some in Hk. lia.
Qed.

(** The binary search for the fenced block around a position answers as a scan of
    the blocks does, for every text and every position: the blocks that the parser
    finds lie apart and in order, which is what the search relies on. *)
Lemma fence_lookup_is_a_scan buffer index :
  findFenceSpanAt (parseFenceSpans buffer) index = List.find (inside index) (parseFenceSpans buffer).
Proof. apply (findFenceSpanAt_scan 0 _ (len buffer)), parseFenceSpans_apart. Qed.

Lemma findFenceSpanAt_inside buffer index f :
  findFenceSpanAt (parseFenceSpans buffer) index = Some f →
  0 <= fs_start f ∧ fs_start f < index < fs_end f ∧ fs_end f <= len buffer.
Proof.
  rewrite (findFenceSpanAt_scan 0 _ (len buffer)) by apply parseFenceSpans_apart.
  intros [Hf Hi]%List.find_some. apply inside_iff in Hi.
  apply list_elem_of_In, list_elem_of_lookup in Hf as [k Hk].
  destruct (apart_start _ _ _ _ _ (parseFenceSpans_apart buffer) Hk). lia.
Qed.

(** A position between two positions inside a block is inside it. *)
Lemma findFenceSpanAt_between buffer i j f :
  findFenceSpanAt (parseFenceSpans buffer) j = Some f → fs_start f < i → i <= j →
  findFenceSpanAt (parseFenceSpans buffer) i = Some f.
Proof.
  pose proof (parseFenceSpans_apart buffer) as Ha. rewrite !(findFenceSpanAt_scan _ _ _ _ Ha).
  intros [Hf Hi]%List.find_some ? ?. apply inside_iff in Hi.
  apply list_elem_of_In, list_elem_of_lookup in Hf as [k Hk].
  apply (find_inside _ _ _ _ _ _ Ha Hk), inside_iff. lia.
Qed.
