(* ===== verification/Chunking.v ===== *)
(** * Splitting replies into chunks: src/shared/text-chunking.ts, src/auto-reply/chunk.ts

    Chat networks bound the length of a message. The functions here split a text by
    length, by lines and by paragraphs; the markdown-aware splitting is in
    [MarkdownChunks]. Limits are integers. [spaced] is what a splitting promises: the
    chunks are pieces of the text, in order, with nothing but white space between. *)

From Stdlib Require Import Ascii.
From S2P Require Import Prelude JsRegex JsText Fences.

#[local] Open Scope stdpp_scope.

Inductive ChunkMode : Type := ModeLength | ModeNewline.

Definition DEFAULT_CHUNK_LIMIT : Z := 4000.
Definition DEFAULT_CHUNK_MODE : ChunkMode := ModeLength.

(** ** shared/text-chunking.ts *)

(** A chunk is kept when it is not empty. *)
Definition chunk_of (s : string) : list string := if str_truthy s then [s] else [].

(** The loop on [remaining]; each turn removes a character at least. *)
Fixpoint break_loop (fuel : nat) (limit : Z) (resolveBreakIndex : string → Z) (remaining : string)
    : list string :=
  match fuel with
  | O => []
  | S fuel' =>
      if limit <? len remaining then
        let window := slice remaining 0 limit in
        let candidateBreak := resolveBreakIndex window in
        let breakIdx :=
          if (0 <? candidateBreak) && (candidateBreak <=? limit) then candidateBreak else limit in
        let chunk := trim_end (slice remaining 0 breakIdx) in
        let brokeOnSeparator := (breakIdx <? len remaining) && ws_at remaining breakIdx in
        let nextStart := Z.min (len remaining) (breakIdx + (if brokeOnSeparator then 1 else 0)) in
        chunk_of chunk ++ break_loop fuel' limit resolveBreakIndex (trim_start (slice_from remaining nextStart))
      else chunk_of remaining
  end.

Definition chunkTextByBreakResolver (text : string) (limit : Z) (resolveBreakIndex : string → Z)
    : list string :=
  if negb (str_truthy text) then []
  else if (limit <=? 0) || (len text <=? limit) then [text]
  else break_loop (S (String.length text)) limit resolveBreakIndex text.

(** ** Break points outside parentheses *)

Record Breakpoints := mkBreakpoints { lastNewline : Z; lastWhitespace : Z }.

Definition char_is (c : ascii) (o : option ascii) : bool := bool_decide (o = Some c).

(** The loop from position [i] on, for [n] positions. *)
Fixpoint scan_breakpoints (text : string) (isAllowed : Z → bool) (n : nat) (i depth : Z) (b : Breakpoints)
    : Breakpoints :=
  match n with
  | O => b
  | S n' =>
      let next := scan_breakpoints text isAllowed n' (i + 1) in
      if negb (isAllowed i) then next depth b
      else
        let char := char_at text i in
        if char_is "(" char then next (depth + 1) b
        else if char_is ")" char && (0 <? depth) then next (depth - 1) b
        else if negb (depth =? 0) then next depth b
        else if char_is newline char then next depth (mkBreakpoints i (lastWhitespace b))
        else if ws_at text i then next depth (mkBreakpoints (lastNewline b) i)
        else next depth b
  end.

Definition scanParenAwareBreakpoints (text : string) (start stop : Z) (isAllowed : Z → bool) : Breakpoints :=
  scan_breakpoints text isAllowed (Z.to_nat (stop - start)) start 0 (mkBreakpoints (-1) (-1)).

(** ** chunkText *)

Definition resolveChunkEarlyReturn (text : string) (limit : Z) : option (list string) :=
  if negb (str_truthy text) then Some []
  else if limit <=? 0 then Some [text]
  else if len text <=? limit then Some [text]
  else None.

(** The last newline of the window, otherwise its last white space. *)
Definition textBreak (window : string) : Z :=
  let b := scanParenAwareBreakpoints window 0 (len window) (λ _, true) in
  if 0 <? lastNewline b then lastNewline b else lastWhitespace b.

Definition chunkText (text : string) (limit : Z) : list string :=
  match resolveChunkEarlyReturn text limit with
  | Some early => early
  | None => chunkTextByBreakResolver text limit textBreak
  end.

(** ** chunkByNewline *)

(** The lines, cut at the newlines that [isSafeBreak] accepts. *)
Fixpoint newline_lines (isSafeBreak : Z → bool) (s : string) (i : Z) : list string :=
  match s with
  | EmptyString => [EmptyString]
  | String c s' =>
      let rest := newline_lines isSafeBreak s' (i + 1) in
      if Ascii.eqb c newline && isSafeBreak i then EmptyString :: rest
      else match rest with
           | l :: ls => String c l :: ls
           | [] => [String c EmptyString]
           end
  end.

Definition splitByNewline (text : string) (isSafeBreak : Z → bool) : list string :=
  newline_lines isSafeBreak text 0.

Definition newlines (n : Z) : string := str_repeat (String newline EmptyString) (Z.to_nat n).

(** The chunks of one line that is not blank, after [pendingBlankLines] blank ones. *)
Definition line_chunks (maxLineLength : Z) (splitLongLines trimLines : bool) (line : string)
    (pendingBlankLines : Z) : list string :=
  let maxPrefix := Z.max 0 (maxLineLength - 1) in
  let cappedBlankLines := if 0 <? pendingBlankLines then Z.min pendingBlankLines maxPrefix else 0 in
  let prefix := if 0 <? cappedBlankLines then newlines cappedBlankLines else EmptyString in
  let lineValue := if trimLines then trim line else line in
  if negb splitLongLines || (len lineValue + len prefix <=? maxLineLength) then [prefix +:+ lineValue]
  else
    let firstLimit := Z.max 1 (maxLineLength - len prefix) in
    let remaining := slice_from lineValue firstLimit in
    (prefix +:+ slice lineValue 0 firstLimit)
      :: (if str_truthy remaining then chunkText remaining maxLineLength else []).

(** The loop on the lines: the chunks, and the blank lines that are pending at its end. *)
Fixpoint lines_loop (maxLineLength : Z) (splitLongLines trimLines : bool) (lines : list string)
    (pendingBlankLines : Z) (chunks : list string) : list string * Z :=
  match lines with
  | [] => (chunks, pendingBlankLines)
  | line :: rest =>
      if negb (str_truthy (trim line))
      then lines_loop maxLineLength splitLongLines trimLines rest (pendingBlankLines + 1) chunks
      else lines_loop maxLineLength splitLongLines trimLines rest 0
             (chunks ++ line_chunks maxLineLength splitLongLines trimLines line pendingBlankLines)
  end.

(** [chunks[chunks.length - 1] += s] *)
Fixpoint append_to_last (chunks : list string) (s : string) : list string :=
  match chunks with
  | [] => []
  | [c] => [c +:+ s]
  | c :: rest => c :: append_to_last rest s
  end.

Definition chunkByNewline (text : string) (maxLineLength : Z) (splitLongLines trimLines : bool)
    (isSafeBreak : Z → bool) : list string :=
  if negb (str_truthy text) then []
  else if maxLineLength <=? 0 then (if str_truthy (trim text) then [text] else [])
  else
    let '(chunks, pendingBlankLines) :=
      lines_loop maxLineLength splitLongLines trimLines (splitByNewline text isSafeBreak) 0 [] in
    if 0 <? pendingBlankLines then append_to_last chunks (newlines pendingBlankLines) else chunks.

(** ** chunkByParagraph *)

(** Carriage returns, with or without a newline after them, become newlines. *)
Fixpoint normalizeNewlines (s : string) : string :=
  match s with
  | EmptyString => EmptyString
  | String c s' =>
      if Ascii.eqb c carriage_return then
        match s' with
        | String d s'' =>
            if Ascii.eqb d newline then String newline (normalizeNewlines s'')
            else String newline (normalizeNewlines s')
        | EmptyString => String newline EmptyString
        end
      else String c (normalizeNewlines s')
  end.

(** The number of characters at the front that satisfy [f]. *)
Fixpoint span_length (f : ascii → bool) (s : string) : nat :=
  match s with
  | String c s' => if f c then S (span_length f s') else O
  | EmptyString => O
  end.

Definition is_tab_or_space (c : ascii) : bool := Ascii.eqb c tab || Ascii.eqb c " "%char.

(** The length of a match of a newline, tabs and spaces, one or more newlines, at the
    front of [s]. The three classes are disjoint, so that the match is unique. *)
Definition paragraphBreak (s : string) : option nat :=
  match s with
  | String c s' =>
      if Ascii.eqb c newline then
        let blanks := span_length is_tab_or_space s' in
        match span_length (Ascii.eqb newline) (str_drop blanks s') with
        | O => None
        | n => Some (1 + blanks + n)%nat
        end
      else None
  | EmptyString => None
  end.

(** [matchAll]: the positions and the lengths of the matches; [skip] characters belong
    to the last match. *)
Fixpoint paragraph_breaks (skip : nat) (s : string) (index : Z) : list (Z * Z) :=
  match s with
  | EmptyString => []
  | String _ s' =>
      match skip with
      | S skip' => paragraph_breaks skip' s' (index + 1)
      | O =>
          match paragraphBreak s with
          | Some n => (index, Z.of_nat n) :: paragraph_breaks (n - 1) s' (index + 1)
          | None => paragraph_breaks O s' (index + 1)
          end
      end
  end.

(** The parts between the breaks that are not in a fenced block. *)
Fixpoint paragraph_parts (text : string) (spans : list FenceSpan) (breaks : list (Z * Z)) (lastIndex : Z)
    : list string :=
  match breaks with
  | [] => [slice_from text lastIndex]
  | (idx, n) :: rest =>
      if isSafeFenceBreak spans idx
      then slice text lastIndex idx :: paragraph_parts text spans rest (idx + n)
      else paragraph_parts text spans rest lastIndex
  end.

Definition paragraph_chunks (limit : Z) (splitLongParagraphs : bool) (part : string) : list string :=
  let paragraph := trim_end part in
  if negb (str_truthy (trim paragraph)) then []
  else if len paragraph <=? limit then [paragraph]
  else if negb splitLongParagraphs then [paragraph]
  else chunkText paragraph limit.

Definition chunkByParagraph (text : string) (limit : Z) (splitLongParagraphs : bool) : list string :=
  if negb (str_truthy text) then []
  else if limit <=? 0 then [text]
  else
    let normalized := normalizeNewlines text in
    let breaks := paragraph_breaks 0 normalized 0 in
    match breaks with
    | [] =>
        if len normalized <=? limit then [normalized]
        else if negb splitLongParagraphs then [normalized]
        else chunkText normalized limit
    | _ :: _ =>
        let parts := paragraph_parts normalized (parseFenceSpans normalized) breaks 0 in
        List.concat (List.map (paragraph_chunks limit splitLongParagraphs) parts)
    end.

Definition chunkTextWithMode (text : string) (limit : Z) (mode : ChunkMode) : list string :=
  match mode with
  | ModeNewline => chunkByParagraph text limit true
  | ModeLength => chunkText text limit
  end.

(** ** What a splitting promises *)

(** The chunks are pieces of [t], in order; what is between them is white space. *)
Fixpoint spaced (chunks : list string) (t : string) : Prop :=
  match chunks with
  | [] => blank t = true
  | c :: rest => ∃ w t', t = w +:+ (c +:+ t') ∧ blank w = true ∧ spaced rest t'
  end.

Definition fits (limit : Z) (c : string) : Prop := 0 < len c <= limit.

Lemma spaced_front w chunks t : blank w = true → spaced chunks t → spaced chunks (w +:+ t).
Proof.
  intros Hw. destruct chunks as [|c rest]; simpl.
  - intros Ht. by rewrite blank_append, Hw.
  - intros (v & t' & -> & Hv & Ht'). exists (w +:+ v), t'.
    rewrite blank_append, Hw, Hv. by rewrite append_assoc.
Qed.

Lemma spaced_app a b s t : spaced a s → spaced b t → spaced (a ++ b) (s +:+ t).
Proof.
  revert s. induction a as [|c a IH]; simpl; intros s.
  - apply spaced_front.
  - intros (w & s' & -> & Hw & Hs) Ht. exists w, (s' +:+ t).
    split_and!; [by rewrite !append_assoc|done|by apply IH].
Qed.

Lemma spaced_one c : spaced [c] c.
Proof. exists EmptyString, EmptyString. by rewrite append_nil_r. Qed.

(** A piece without its trailing white space. *)
Lemma spaced_trim_end s : spaced (chunk_of (trim_end s)) s.
Proof.
  destruct (trim_end_split s) as (w & Hs & Hw). unfold chunk_of. destruct (trim_end s) as [|c t] eqn:Ht; simpl.
  - by rewrite Hs.
  - exists EmptyString, w. by rewrite Hs at 1.
Qed.

Lemma spaced_trim_start chunks s : spaced chunks (trim_start s) → spaced chunks s.
Proof.
  destruct (trim_start_split s) as (w & Hs & Hw). intros H. rewrite Hs. by apply spaced_front.
Qed.

Lemma chunk_of_fits limit s : len s <= limit → Forall (fits limit) (chunk_of s).
Proof. unfold chunk_of. destruct s as [|c s]; simpl; constructor; [|done]. unfold fits, len in *. simpl in *. lia. Qed.

Lemma len_trim_end s : len (trim_end s) <= len s.
Proof.
  destruct (trim_end_split s) as (w & Hs & _). rewrite Hs at 2. rewrite len_append.
  pose proof (len_nonneg w). lia.
Qed.

Lemma len_trim_start s : len (trim_start s) <= len s.
Proof. unfold len. pose proof (trim_start_length s). lia. Qed.

(** The end of the loop: any resolver, and fuel for every character. *)
Lemma break_loop_ok fuel limit resolve remaining :
  0 < limit → (String.length remaining < fuel)%nat →
  Forall (fits limit) (break_loop fuel limit resolve remaining) ∧
  spaced (break_loop fuel limit resolve remaining) remaining.
Proof.
  intros Hl. revert remaining. induction fuel as [|fuel IH]; intros remaining Hf; [lia|]. simpl.
  destruct (Z.ltb_spec limit (len remaining)) as [Hlt|Hge].
  2:{ split; [by apply chunk_of_fits|].
      unfold chunk_of. destruct remaining; simpl; [done|]. apply (spaced_one (String _ _)). }
  set (cand := resolve (slice remaining 0 limit)).
  set (b := if (0 <? cand) && (cand <=? limit) then cand else limit).
  assert (0 < b <= limit) as Hb.
  { subst b. destruct ((0 <? cand) && (cand <=? limit)) eqn:E; [|lia].
    apply andb_true_iff in E as [?%Z.ltb_lt ?%Z.leb_le]. lia. }
  clearbody b. clear cand.
  set (sep := (b <? len remaining) && ws_at remaining b).
  set (next := Z.min (len remaining) (b + (if sep then 1 else 0))).
  assert (next = b + (if sep then 1 else 0)) as Hn by (subst next; destruct sep; lia).
  clearbody next.
  assert (blank (slice remaining b next) = true ∧ b <= next <= len remaining) as [Hblank Hnext].
  { destruct sep eqn:Hs; subst next.
    - subst sep. apply andb_true_iff in Hs as [?%Z.ltb_lt Hw].
      destruct (ws_at_slice _ _ Hw) as [Hsl ?]. split; [exact Hsl|lia].
    - rewrite Z.add_0_r. split; [|lia]. unfold slice. by rewrite Z.sub_diag. }
  destruct (IH (trim_start (slice_from remaining next))) as [Hfit Hsp].
  { pose proof (len_trim_start (slice_from remaining next)) as H1.
    rewrite len_slice_from in H1 by lia. unfold len in *. lia. }
  split.
  - apply Forall_app. split; [|done]. apply chunk_of_fits.
    pose proof (len_trim_end (slice remaining 0 b)). pose proof (len_slice_le remaining 0 b). lia.
  - rewrite <- (slice_zero_from remaining) at 3. rewrite <- (slice_slice_from remaining 0 b) by lia.
    apply spaced_app; [apply spaced_trim_end|].
    rewrite <- (slice_slice_from remaining b next) by lia. apply spaced_front; [done|].
    by apply spaced_trim_start.
Qed.

Lemma chunkTextByBreakResolver_ok text limit resolve :
  0 < limit →
  Forall (fits limit) (chunkTextByBreakResolver text limit resolve) ∧
  spaced (chunkTextByBreakResolver text limit resolve) text.
Proof.
  intros Hl. unfold chunkTextByBreakResolver.
  destruct text as [|c text]; simpl str_truthy; [by split|]. cbv [negb].
  destruct (Z.leb_spec limit 0); [lia|]. simpl orb.
  destruct (Z.leb_spec (len (String c text)) limit) as [Hle|].
  - split; [|apply spaced_one]. constructor; [|done]. split; [|done]. by apply len_positive.
  - apply break_loop_ok; [done|lia].
Qed.

Lemma chunkText_ok text limit :
  0 < limit → Forall (fits limit) (chunkText text limit) ∧ spaced (chunkText text limit) text.
Proof.
  intros Hl. unfold chunkText, resolveChunkEarlyReturn.
  destruct text as [|c text]; simpl str_truthy; [by split|]. cbv [negb].
  destruct (Z.leb_spec limit 0); [lia|].
  destruct (Z.leb_spec (len (String c text)) limit) as [Hle|].
  - split; [|apply spaced_one]. constructor; [|done]. split; [|done]. by apply len_positive.
  - by apply chunkTextByBreakResolver_ok.
Qed.

(** ** Paragraphs *)

Lemma trim_end_blank s : trim_end s = EmptyString → blank s = true.
Proof. intros H. destruct (trim_end_split s) as (w & Hs & Hw). rewrite H in Hs. by rewrite Hs. Qed.

Lemma trim_blank s : trim s = EmptyString → blank s = true.
Proof.
  unfold trim. intros H%trim_end_blank. destruct (trim_start_split s) as (w & Hs & Hw).
  fold (blank w) in Hw. rewrite Hs, blank_append, Hw. done.
Qed.

Lemma span_length_take f s :
  str_all f (str_take (span_length f s) s) = true ∧ (span_length f s <= String.length s)%nat.
Proof.
  induction s as [|c s [IH1 IH2]]; simpl; [split; [done|lia]|].
  destruct (f c) eqn:Hc; simpl; [rewrite Hc; split; [done|lia]|split; [done|lia]].
Qed.

Lemma paragraphBreak_ok s n :
  paragraphBreak s = Some n → blank (str_take n s) = true ∧ (0 < n <= String.length s)%nat.
Proof.
  destruct s as [|c s]; [done|]. simpl. destruct (Ascii.eqb_spec c newline) as [->|]; [|done].
  set (b := span_length is_tab_or_space s).
  destruct (span_length (Ascii.eqb newline) (str_drop b s)) as [|m] eqn:Hm; [done|]. intros [= <-].
  destruct (span_length_take is_tab_or_space s) as [Hb Hbl].
  destruct (span_length_take (Ascii.eqb newline) (str_drop b s)) as [Hn Hnl].
  rewrite Hm, str_drop_length in *. fold b in Hb, Hbl. split; [|lia].
  cbn [str_take]. rewrite <- str_take_add. unfold blank. cbn [str_all]. rewrite str_all_append.
  apply (str_all_impl _ is_ws) in Hb; [|by intros [[] [] [] [] [] [] [] []]].
  apply (str_all_impl _ is_ws) in Hn; [|by intros [[] [] [] [] [] [] [] []]].
  by rewrite Hb, Hn.
Qed.

(** The breaks lie in the text, in order, and consist of white space. *)
Fixpoint breaks_ok (lo : Z) (text : string) (breaks : list (Z * Z)) : Prop :=
  match breaks with
  | [] => True
  | (i, n) :: rest =>
      lo <= i ∧ 0 < n ∧ i + n <= len text ∧ blank (slice text i (i + n)) = true ∧ breaks_ok (i + n) text rest
  end.

Lemma paragraph_breaks_ok text skip s index lo :
  0 <= index → slice_from text index = s → lo <= index + Z.of_nat skip →
  breaks_ok lo text (paragraph_breaks skip s index).
Proof.
  revert skip index lo. induction s as [|c s IH]; intros skip index lo Hi Hs Hlo; [done|].
  assert (slice_from text (index + 1) = s) as Hnext.
  { unfold slice_from in *. replace (Z.to_nat (index + 1)) with (Z.to_nat index + 1)%nat by lia.
    rewrite <- str_drop_drop, Hs. by destruct s. }
  destruct skip as [|skip]; cbn [paragraph_breaks]; [|apply IH; [lia|done|lia]].
  destruct (paragraphBreak (String c s)) as [n|] eqn:Hb; [|apply IH; [lia|done|lia]].
  apply paragraphBreak_ok in Hb as [Hblank Hn]. cbn [breaks_ok]. split_and!; try lia.
  - apply (f_equal len) in Hs. unfold len, slice_from in *. rewrite str_drop_length in Hs. lia.
  - unfold slice. unfold slice_from in Hs. rewrite Hs. by replace (Z.to_nat _) with n by lia.
  - apply IH; [lia|done|lia].
Qed.

Lemma paragraph_chunks_spaced limit split part :
  0 < limit → spaced (paragraph_chunks limit split part) part.
Proof.
  intros Hl. unfold paragraph_chunks.
  assert (∀ cs, spaced cs (trim_end part) → spaced cs part) as Hpart.
  { intros cs Hcs. destruct (trim_end_split part) as (w & Hs & Hw). rewrite Hs.
    rewrite <- (app_nil_r cs). by apply spaced_app. }
  destruct (trim (trim_end part)) eqn:Ht; simpl str_truthy; cbv [negb].
  - apply Hpart, trim_blank, Ht.
  - case_match; [apply Hpart, spaced_one|]. destruct split; apply Hpart; [|apply spaced_one].
    by apply chunkText_ok.
Qed.

Lemma paragraph_parts_spaced limit split text spans breaks lastIndex lo :
  0 < limit → 0 <= lastIndex → lastIndex <= lo → breaks_ok lo text breaks →
  spaced (List.concat (List.map (paragraph_chunks limit split) (paragraph_parts text spans breaks lastIndex)))
    (slice_from text lastIndex).
Proof.
  intros Hl. revert lastIndex lo. induction breaks as [|[i n] breaks IH]; intros lastIndex lo H0 Hlo; simpl.
  - intros _. rewrite app_nil_r. by apply paragraph_chunks_spaced.
  - intros (? & ? & ? & Hblank & Hbreaks). destruct (isSafeFenceBreak spans i).
    + simpl. rewrite <- (slice_slice_from text lastIndex i) by lia.
      apply spaced_app; [by apply paragraph_chunks_spaced|].
      rewrite <- (slice_slice_from text i (i + n)) by lia. apply spaced_front; [done|].
      by apply (IH _ (i + n)); try lia.
    + by apply (IH _ (i + n)); try lia.
Qed.

Lemma paragraph_chunks_fit limit part : 0 < limit → Forall (fits limit) (paragraph_chunks limit true part).
Proof.
  intros Hl. unfold paragraph_chunks. destruct (trim (trim_end part)) as [|c t] eqn:Ht; simpl str_truthy; cbv [negb].
  - constructor.
  - destruct (Z.leb_spec (len (trim_end part)) limit); [|by apply chunkText_ok].
    constructor; [|done]. split; [|done]. apply len_positive. intros He. by rewrite He in Ht.
Qed.

Lemma normalizeNewlines_nonempty s : s ≠ EmptyString → normalizeNewlines s ≠ EmptyString.
Proof. destruct s as [|c [|d s]]; simpl; [done| |]; intros _; repeat case_match; done. Qed.

Lemma chunkByParagraph_spaced text limit split :
  0 < limit → spaced (chunkByParagraph text limit split) (normalizeNewlines text).
Proof.
  intros Hl. unfold chunkByParagraph. destruct text as [|c text]; simpl str_truthy; [done|]. cbv [negb].
  destruct (Z.leb_spec limit 0); [lia|]. set (t := normalizeNewlines (String c text)).
  assert (breaks_ok 0 t (paragraph_breaks 0 t 0)) as Hok
    by (apply paragraph_breaks_ok; [lia|apply slice_zero_from|lia]).
  destruct (paragraph_breaks 0 t 0) as [|b bs].
  - case_match; [apply spaced_one|]. destruct split; [by apply chunkText_ok|apply spaced_one].
  - rewrite <- (slice_zero_from t) at 3. by apply (paragraph_parts_spaced _ _ _ _ _ _ 0); try lia.
Qed.

Lemma chunkByParagraph_fits text limit : 0 < limit → Forall (fits limit) (chunkByParagraph text limit true).
Proof.
  intros Hl. unfold chunkByParagraph. destruct text as [|c text]; simpl str_truthy; [by constructor|]. cbv [negb].
  destruct (Z.leb_spec limit 0); [lia|]. set (t := normalizeNewlines (String c text)).
  destruct (paragraph_breaks 0 t 0) as [|b bs].
  - destruct (Z.leb_spec (len t) limit); [|by apply chunkText_ok].
    constructor; [|done]. split; [|done]. by apply len_positive, normalizeNewlines_nonempty.
  - apply Forall_concat, Forall_map, Forall_true. intros part. by apply paragraph_chunks_fit.
Qed.

(** What a reply reads as when it is split in this mode. *)
Definition mode_text (mode : ChunkMode) (text : string) : string :=
  match mode with ModeLength => text | ModeNewline => normalizeNewlines text end.

Lemma chunkTextWithMode_ok text limit mode :
  0 < limit →
  Forall (fits limit) (chunkTextWithMode text limit mode) ∧
  spaced (chunkTextWithMode text limit mode) (mode_text mode text).
Proof.
  intros Hl. destruct mode; [by apply chunkText_ok|].
  split; [by apply chunkByParagraph_fits|by apply chunkByParagraph_spaced].
Qed.

(** C35. A reply that is split by length or by paragraphs arrives whole: every chunk is
    within the limit and not empty, and the chunks are pieces of the text in its order
    with nothing but white space between them; the splitting ends. *)
Theorem chunks_fit_and_cover_the_text text limit mode :
  0 < limit →
  Forall (fits limit) (chunkTextWithMode text limit mode) ∧
  spaced (chunkTextWithMode text limit mode) (mode_text mode text).
Proof. apply chunkTextWithMode_ok. Qed.

Definition demoReply : string :=
  "Heads up (though now I am curious) ok" +:+ newlines 3 +:+ "Supercalifragilistic".

Lemma chunks_fit_and_cover_the_text_witness :
  Forall (fits 15) (chunkTextWithMode demoReply 15 ModeNewline) ∧
  spaced (chunkTextWithMode demoReply 15 ModeNewline) (mode_text ModeNewline demoReply).
Proof. apply (chunks_fit_and_cover_the_text demoReply 15 ModeNewline). lia. Defined.

Example demoReply_chunks :
  chunkTextWithMode demoReply 15 ModeNewline =
  ["Heads up"; "(though now I a"; "m curious) ok"; "Supercalifragil"; "istic"].
Proof. vm_compute. reflexivity. Qed.

(** ** Lines *)

(** The characters of a text that are not white space, and those of chunks. *)
Fixpoint squash (s : string) : string :=
  match s with
  | EmptyString => EmptyString
  | String c s' => if is_ws c then squash s' else String c (squash s')
  end.

Definition squash_all (chunks : list string) : string := squash (join_with EmptyString chunks).

Lemma squash_append a b : squash (a +:+ b) = squash a +:+ squash b.
Proof. induction a as [|c a IH]; simpl; [done|]. rewrite IH. by destruct (is_ws c). Qed.

Lemma squash_blank s : blank s = true → squash s = EmptyString.
Proof.
  unfold blank. induction s as [|c s IH]; simpl; [done|].
  intros [Hc Hs]%andb_true_iff. rewrite Hc. by apply IH.
Qed.

Lemma squash_trim s : squash (trim s) = squash s.
Proof.
  unfold trim. destruct (trim_start_split s) as (w & Hs & Hw).
  destruct (trim_end_split (trim_start s)) as (v & Ht & Hv).
  rewrite Hs at 2. rewrite Ht at 2. by rewrite !squash_append, (squash_blank w), (squash_blank v), append_nil_r.
Qed.

Lemma squash_all_cons c cs : squash_all (c :: cs) = squash c +:+ squash_all cs.
Proof.
  unfold squash_all. destruct cs as [|d cs]; [by rewrite append_nil_r|].
  by rewrite join_with_cons, squash_append.
Qed.

Lemma squash_all_app a b : squash_all (a ++ b) = squash_all a +:+ squash_all b.
Proof.
  induction a as [|c a IH]; [done|].
  cbn [app]. rewrite !squash_all_cons, IH. by rewrite append_assoc.
Qed.

Lemma spaced_squash chunks t : spaced chunks t → squash_all chunks = squash t.
Proof.
  revert t. induction chunks as [|c cs IH]; intros t; cbn [spaced].
  - intros Ht. by rewrite (squash_blank t).
  - intros (w & t' & -> & Hw & Ht). rewrite squash_all_cons, !squash_append, (squash_blank w) by done.
    by rewrite (IH t').
Qed.

Lemma newlines_blank n : blank (newlines n) = true.
Proof. unfold newlines. induction (Z.to_nat n) as [|m IH]; [done|]. simpl. exact IH. Qed.

Lemma newlines_len n : 0 <= n → len (newlines n) = n.
Proof.
  intros Hn. unfold newlines. assert (∀ m, len (str_repeat (String newline EmptyString) m) = Z.of_nat m) as H.
  { induction m as [|m IH]; [done|]. cbn [str_repeat]. rewrite len_append, IH. unfold len. simpl String.length. lia. }
  rewrite H. lia.
Qed.

(** The prefix of a line: never so long that nothing of the line fits. *)
Lemma blank_prefix maxLineLength pending :
  0 < maxLineLength →
  let capped := if 0 <? pending then Z.min pending (Z.max 0 (maxLineLength - 1)) else 0 in
  let prefix := if 0 <? capped then newlines capped else EmptyString in
  blank prefix = true ∧ len prefix < maxLineLength.
Proof.
  intros Hl. cbv zeta. destruct (Z.ltb_spec 0 pending); [|split; [done|simpl; unfold len; simpl; lia]].
  destruct (Z.ltb_spec 0 (Z.min pending (Z.max 0 (maxLineLength - 1)))); [|split; [done|unfold len; simpl; lia]].
  split; [apply newlines_blank|]. rewrite newlines_len; lia.
Qed.

Lemma line_chunks_ok maxLineLength split_ trim_ line pending :
  0 < maxLineLength → trim line ≠ EmptyString →
  squash_all (line_chunks maxLineLength split_ trim_ line pending) = squash line ∧
  (split_ = true → Forall (fits maxLineLength) (line_chunks maxLineLength split_ trim_ line pending)).
Proof.
  intros Hl Hne. unfold line_chunks.
  destruct (blank_prefix maxLineLength pending Hl) as [Hblank Hlen].
  set (prefix := if 0 <? (if 0 <? pending then _ else _) then _ else _) in *. clearbody prefix.
  set (value := if trim_ then trim line else line).
  assert (squash value = squash line) as Hsq by (subst value; destruct trim_; [apply squash_trim|done]).
  assert (value ≠ EmptyString) as Hv by (subst value; destruct trim_; [done|]; by intros ->).
  clearbody value. apply len_positive in Hv. pose proof (len_nonneg prefix).
  destruct (negb split_ || _) eqn:Hfit.
  - split.
    + unfold squash_all. simpl. by rewrite squash_append, (squash_blank prefix).
    + intros ->. apply Z.leb_le in Hfit. constructor; [|done]. unfold fits. rewrite len_append. lia.
  - apply orb_false_iff in Hfit as [_ ?%Z.leb_gt].
    rewrite Z.max_r by lia. set (first := maxLineLength - len prefix) in *.
    set (rest := slice_from value first).
    assert (rest ≠ EmptyString) as Hr by (apply len_positive; subst rest; rewrite len_slice_from; lia).
    assert (str_truthy rest = true) as -> by (by destruct rest).
    destruct (chunkText_ok rest maxLineLength Hl) as [Hf Hs]. split.
    + rewrite squash_all_cons, squash_append, (squash_blank prefix), (spaced_squash _ _ Hs) by done.
      cbn [String.append]. rewrite <- Hsq, <- squash_append. f_equal. subst rest.
      rewrite slice_slice_from by lia. apply slice_zero_from.
    + intros _. constructor; [|done]. unfold fits. rewrite len_append, len_slice by lia. lia.
Qed.

Lemma lines_loop_ok maxLineLength split_ trim_ lines pending chunks :
  0 < maxLineLength →
  let r := lines_loop maxLineLength split_ trim_ lines pending chunks in
  squash_all r.1 = squash_all chunks +:+ squash_all lines ∧
  (split_ = true → Forall (fits maxLineLength) chunks → Forall (fits maxLineLength) r.1).
Proof.
  intros Hl. revert pending chunks. induction lines as [|line lines IH]; intros pending chunks; simpl.
  - split; [|done]. by rewrite append_nil_r.
  - destruct (trim line) as [|c t] eqn:Ht; simpl str_truthy; cbv [negb].
    + destruct (IH (pending + 1) chunks) as [Hs Hf]. split; [|done].
      rewrite Hs, (squash_all_cons line), (squash_blank line) by by apply trim_blank. done.
    + destruct (line_chunks_ok maxLineLength split_ trim_ line pending Hl) as [Hls Hlf]; [by rewrite Ht|].
      destruct (IH 0 (chunks ++ line_chunks maxLineLength split_ trim_ line pending)) as [Hs Hf]. split.
      * rewrite Hs, squash_all_app, Hls, squash_all_cons. by rewrite append_assoc.
      * intros Hsp Hc. apply Hf; [done|]. apply Forall_app. auto.
Qed.

Lemma newline_lines_squash isSafeBreak s i : squash_all (newline_lines isSafeBreak s i) = squash s.
Proof.
  revert i. induction s as [|c s IH]; intros i; [done|]. cbn [newline_lines].
  specialize (IH (i + 1)). destruct (Ascii.eqb_spec c newline) as [->|]; cbn [andb].
  - destruct (isSafeBreak i); [by rewrite squash_all_cons, IH|].
    destruct (newline_lines _ _ _) as [|l ls]; [by simpl; rewrite <- IH|].
    rewrite squash_all_cons in *. simpl. done.
  - destruct (newline_lines _ _ _) as [|l ls].
    + unfold squash_all in *. simpl in *. by rewrite <- IH.
    + rewrite squash_all_cons in *. simpl. rewrite <- IH. by destruct (is_ws c).
Qed.

Lemma append_to_last_squash chunks s : blank s = true → squash_all (append_to_last chunks s) = squash_all chunks.
Proof.
  intros Hs. induction chunks as [|c [|d cs] IH]; [done| |].
  - unfold squash_all. simpl. by rewrite squash_append, (squash_blank s), append_nil_r.
  - cbn [append_to_last] in *. by rewrite squash_all_cons, IH, <- squash_all_cons.
Qed.

Lemma append_to_last_front {P : string → Prop} chunks s :
  Forall P chunks → Forall P (List.removelast (append_to_last chunks s)).
Proof.
  induction chunks as [|c [|d cs] IH]; intros H; simpl; [done|done|].
  apply Forall_cons in H as [Hc H]. specialize (IH H). simpl in IH.
  destruct cs as [|e cs]; simpl in *; by constructor.
Qed.

Lemma Forall_removelast {P : string → Prop} chunks : Forall P chunks → Forall P (List.removelast chunks).
Proof.
  induction chunks as [|c [|d cs] IH]; intros H; simpl; [done|done|].
  apply Forall_cons in H as [Hc H]. constructor; [done|]. by apply IH.
Qed.

(** Splitting by lines keeps every character that is not white space, and every chunk
    but the last is within the limit. *)
Lemma line_chunks_keep_the_text text maxLineLength split_ trim_ isSafeBreak :
  0 < maxLineLength →
  squash_all (chunkByNewline text maxLineLength split_ trim_ isSafeBreak) = squash text ∧
  (split_ = true → Forall (fits maxLineLength)
    (List.removelast (chunkByNewline text maxLineLength split_ trim_ isSafeBreak))).
Proof.
  intros Hl. unfold chunkByNewline. destruct text as [|c text]; simpl str_truthy; [by split|]. cbv [negb].
  destruct (Z.leb_spec maxLineLength 0); [lia|]. set (t := String c text).
  destruct (lines_loop_ok maxLineLength split_ trim_ (splitByNewline t isSafeBreak) 0 [] Hl) as [Hs Hf].
  destruct (lines_loop _ _ _ _ _ _) as [chunks pending]. simpl in Hs, Hf.
  assert (squash_all chunks = squash t) as Hsq by (rewrite Hs; apply newline_lines_squash).
  destruct (0 <? pending).
  - split; [by rewrite append_to_last_squash by apply newlines_blank|].
    intros ->. apply append_to_last_front; auto.
  - split; [done|]. intros ->. apply Forall_removelast; auto.
Qed.

(** The blank lines at the end of a text are appended to the last chunk whatever its
    length: it can exceed the limit. *)
Lemma trailing_blank_lines_exceed_the_limit :
  let text := "abcd" +:+ newlines 4 in
  chunkByNewline text 4 true true (λ _, true) = [text] ∧ len text = 8.
Proof. split; reflexivity. Qed.
