(* ===== verification/MarkdownChunks.v ===== *)
(** * Splitting markdown: [chunkMarkdownText] of src/auto-reply/chunk.ts

    A text is cut at white space outside fenced blocks where possible. A cut inside a
    block closes the block at the end of the chunk and opens it again in the next. The
    loop of the code is [markdown_loop]; one turn of it is [markdown_cut]. The
    relation [cut] is what the loop promises. *)

From Stdlib Require Import Ascii.
From S2P Require Import Prelude JsRegex JsText Fences Chunking.

#[local] Open Scope stdpp_scope.

Definition nl : string := String newline EmptyString.

Definition closeLineOf (f : FenceSpan) : string := fs_indent f +:+ fs_marker f.

Definition reopenPrefixOf (reopenFence : option FenceSpan) : string :=
  match reopenFence with Some f => fs_openLine f +:+ nl | None => EmptyString end.

(** A break after [start] outside the blocks, or -1. *)
Definition pickSafeBreakIndex (text : string) (start stop : Z) (spans : list FenceSpan) : Z :=
  let b := scanParenAwareBreakpoints text start stop (isSafeFenceBreak spans) in
  if start <? lastNewline b then lastNewline b
  else if start <? lastWhitespace b then lastWhitespace b
  else -1.

(** The inner loop: the last newline before which the block can be closed. *)
Fixpoint pick_newline (fuel : nat) (text : string) (spans : list FenceSpan) (start minProgressIdx fenceStart : Z)
    (lastNewline : Z) : option Z :=
  match fuel with
  | O => None
  | S fuel' =>
      if start <=? lastNewline then
        let candidateBreak := lastNewline + 1 in
        if candidateBreak <? minProgressIdx then None
        else
          let again := pick_newline fuel' text spans start minProgressIdx fenceStart
                         (lastIndexOfChar newline text (lastNewline - 1)) in
          match findFenceSpanAt spans candidateBreak with
          | Some candidateFence => if fs_start candidateFence =? fenceStart then Some candidateBreak else again
          | None => again
          end
      else None
  end.

(** Where the text is cut when [windowEnd] is inside the block [initialFence]. The
    assignments of the code that drop [fenceToSplit] here are overwritten after it. *)
Definition fence_break (text : string) (spans : list FenceSpan) (start contentLimit windowEnd : Z)
    (initialFence : FenceSpan) : Z :=
  let closeLine := closeLineOf initialFence in
  let maxIdxIfNeedNewline := start + (contentLimit - (len closeLine + 1)) in
  if maxIdxIfNeedNewline <=? start then windowEnd
  else
    let minProgressIdx :=
      Z.min (len text) (Z.max (start + 1) (fs_start initialFence + len (fs_openLine initialFence) + 2)) in
    let maxIdxIfAlreadyNewline := start + (contentLimit - len closeLine) in
    match pick_newline (S (String.length text)) text spans start minProgressIdx (fs_start initialFence)
            (lastIndexOfChar newline text (Z.max start (maxIdxIfAlreadyNewline - 1))) with
    | Some candidateBreak => candidateBreak
    | None =>
        if maxIdxIfAlreadyNewline <? minProgressIdx then windowEnd
        else Z.max minProgressIdx maxIdxIfNeedNewline
    end.

(** Where the text is cut after [start], and the block that is split there. *)
Definition markdown_cut (text : string) (spans : list FenceSpan) (start contentLimit : Z)
    : Z * option FenceSpan :=
  let windowEnd := Z.min (len text) (start + contentLimit) in
  let softBreak := pickSafeBreakIndex text start windowEnd spans in
  let breakIdx := if start <? softBreak then softBreak else windowEnd in
  let initialFence := if isSafeFenceBreak spans breakIdx then None else findFenceSpanAt spans breakIdx in
  match initialFence with
  | None => (breakIdx, None)
  | Some f =>
      let breakIdx := fence_break text spans start contentLimit windowEnd f in
      (breakIdx,
       match findFenceSpanAt spans breakIdx with
       | Some fenceAtBreak => if fs_start fenceAtBreak =? fs_start f then Some fenceAtBreak else None
       | None => None
       end)
  end.

(** A chunk that ends inside a block. *)
Definition close_fence (rawChunk : string) (f : FenceSpan) : string :=
  if ends_with_char rawChunk newline then rawChunk +:+ closeLineOf f else rawChunk +:+ nl +:+ closeLineOf f.

(** [skipLeadingNewlines]: [i] moves over newlines. *)
Fixpoint skip_newlines (fuel : nat) (value : string) (i : Z) : Z :=
  match fuel with
  | O => i
  | S fuel' => if char_is newline (char_at value i) then skip_newlines fuel' value (i + 1) else i
  end.

Definition skipLeadingNewlines (value : string) (start : Z) : Z := skip_newlines (String.length value) value start.

Fixpoint markdown_loop (fuel : nat) (text : string) (limit : Z) (spans : list FenceSpan) (start : Z)
    (reopenFence : option FenceSpan) : list string :=
  match fuel with
  | O => []
  | S fuel' =>
      if start <? len text then
        let reopenPrefix := reopenPrefixOf reopenFence in
        let contentLimit := Z.max 1 (limit - len reopenPrefix) in
        if len text - start <=? contentLimit then chunk_of (reopenPrefix +:+ slice_from text start)
        else
          let '(breakIdx, fenceToSplit) := markdown_cut text spans start contentLimit in
          let rawContent := slice text start breakIdx in
          if negb (str_truthy rawContent) then []
          else
            let rawChunk := reopenPrefix +:+ rawContent in
            let brokeOnSeparator := (breakIdx <? len text) && ws_at text breakIdx in
            let nextStart := Z.min (len text) (breakIdx + (if brokeOnSeparator then 1 else 0)) in
            match fenceToSplit with
            | Some f => close_fence rawChunk f :: markdown_loop fuel' text limit spans nextStart (Some f)
            | None => rawChunk :: markdown_loop fuel' text limit spans (skipLeadingNewlines text nextStart) None
            end
      else []
  end.

Definition chunkMarkdownText (text : string) (limit : Z) : list string :=
  match resolveChunkEarlyReturn text limit with
  | Some early => early
  | None => markdown_loop (S (String.length text)) text limit (parseFenceSpans text) 0 None
  end.

Definition markdown_nested (limit : Z) (chunk : string) : list string :=
  match chunkMarkdownText chunk limit with
  | [] => chunk_of chunk
  | nested => nested
  end.

Definition chunkMarkdownTextWithMode (text : string) (limit : Z) (mode : ChunkMode) : list string :=
  match mode with
  | ModeNewline => List.concat (List.map (markdown_nested limit) (chunkByParagraph text limit false))
  | ModeLength => chunkMarkdownText text limit
  end.

(** ** What the loop promises *)

Definition splitChunk (rawChunk : string) (fence : option FenceSpan) : string :=
  match fence with Some f => close_fence rawChunk f | None => rawChunk end.

(** The room for text in a chunk that opens [reopen] again. *)
Definition content_limit (limit : Z) (reopen : option FenceSpan) : Z := Z.max 1 (limit - len (reopenPrefixOf reopen)).

(** The block leaves no room for its closing line, or its opening line does not fit
    with it into the chunk that starts at [start]. *)
Definition crowded (f : FenceSpan) (start contentLimit : Z) : Prop :=
  contentLimit <= len (closeLineOf f) + 1 ∨
  start + contentLimit < fs_start f + len (fs_openLine f) + 3 + len (closeLineOf f).

(** The chunks cut the text from [start] on into pieces. A cut inside a block closes
    the block and opens it again, and drops one white space at most; a cut elsewhere
    drops white space. Every turn takes a piece, which is within the limit with what is
    put around it unless a block is crowded. *)
Inductive cut (text : string) (limit : Z) (spans : list FenceSpan)
    : Z → option FenceSpan → list string → Prop :=
| cut_done reopen : cut text limit spans (len text) reopen []
| cut_last start reopen :
    start < len text → len text - start <= content_limit limit reopen →
    cut text limit spans start reopen [reopenPrefixOf reopen +:+ slice_from text start]
| cut_piece start reopen b next chunks :
    start < b <= start + content_limit limit reopen → b < len text →
    b <= next <= len text → blank (slice text b next) = true →
    (findFenceSpanAt spans b ≠ None → next <= b + 1) →
    (len (splitChunk (reopenPrefixOf reopen +:+ slice text start b) (findFenceSpanAt spans b))
       <= len (reopenPrefixOf reopen) + content_limit limit reopen ∨
     ∃ f, findFenceSpanAt spans b = Some f ∧ crowded f start (content_limit limit reopen)) →
    cut text limit spans next (findFenceSpanAt spans b) chunks →
    cut text limit spans start reopen
      (splitChunk (reopenPrefixOf reopen +:+ slice text start b) (findFenceSpanAt spans b) :: chunks).

(** A break point is a position of the window that is allowed, or none was found. *)
Definition break_in (isAllowed : Z → bool) (start stop i : Z) : Prop :=
  i = -1 ∨ (start <= i < stop ∧ isAllowed i = true).

Lemma scan_breakpoints_in text isAllowed lo stop n i depth b :
  lo <= i → i + Z.of_nat n <= stop →
  break_in isAllowed lo stop (lastNewline b) → break_in isAllowed lo stop (lastWhitespace b) →
  break_in isAllowed lo stop (lastNewline (scan_breakpoints text isAllowed n i depth b)) ∧
  break_in isAllowed lo stop (lastWhitespace (scan_breakpoints text isAllowed n i depth b)).
Proof.
  revert i depth b. induction n as [|n IH]; intros i depth b Hi Hn Hb1 Hb2; [done|].
  cbn [scan_breakpoints]. destruct (isAllowed i) eqn:Ha; simpl negb; cbv iota; [|apply IH; try done; lia].
  assert (break_in isAllowed lo stop i) by (right; split; [lia|done]).
  repeat case_match; apply IH; try done; lia.
Qed.

Lemma pickSafeBreakIndex_in text start stop spans :
  0 <= start → break_in (isSafeFenceBreak spans) start stop (pickSafeBreakIndex text start stop spans).
Proof.
  intros H0. unfold pickSafeBreakIndex, scanParenAwareBreakpoints.
  destruct (Z.leb_spec start stop).
  - destruct (scan_breakpoints_in text (isSafeFenceBreak spans) start stop (Z.to_nat (stop - start)) start 0
      (mkBreakpoints (-1) (-1))) as [? ?]; try lia; try by left.
    repeat case_match; try done. by left.
  - replace (Z.to_nat (stop - start)) with O by lia. simpl.
    repeat case_match; try by left.
Qed.

Lemma isSafeFenceBreak_true spans i : isSafeFenceBreak spans i = true ↔ findFenceSpanAt spans i = None.
Proof. unfold isSafeFenceBreak. destruct (findFenceSpanAt spans i); split; congruence. Qed.

(** A picked break follows a newline and is in the block. *)
Lemma pick_newline_ok fuel text spans start minP fenceStart last c :
  0 <= start → pick_newline fuel text spans start minP fenceStart last = Some c →
  (last = -1 ∨ char_at text last = Some newline) →
  start < c <= last + 1 ∧ minP <= c ∧ char_at text (c - 1) = Some newline ∧
  ∃ g, findFenceSpanAt spans c = Some g ∧ fs_start g = fenceStart.
Proof.
  intros H0. revert last. induction fuel as [|fuel IH]; intros last; [done|]. cbn [pick_newline].
  destruct (Z.leb_spec start last) as [Hle|]; [|done].
  destruct (Z.ltb_spec (last + 1) minP); [done|]. intros Hp Hlast.
  assert (pick_newline fuel text spans start minP fenceStart (lastIndexOfChar newline text (last - 1)) = Some c →
    start < c <= last + 1 ∧ minP <= c ∧ char_at text (c - 1) = Some newline ∧
    ∃ g, findFenceSpanAt spans c = Some g ∧ fs_start g = fenceStart) as Hagain.
  { intros Hc'. destruct (lastIndexOfChar_range newline text (last - 1) _ eq_refl) as [Hm|[Hr Hch]];
      (destruct (IH _ Hc') as (? & ? & ? & ?); [auto|]); split_and!; try done; try lia. }
  destruct (findFenceSpanAt spans (last + 1)) as [g|] eqn:Hg; [|by apply Hagain].
  destruct (Z.eqb_spec (fs_start g) fenceStart) as [Heq|]; [|by apply Hagain].
  injection Hp as <-. destruct Hlast as [->|Hch]; [lia|].
  split_and!; try lia; [by replace (last + 1 - 1) with last by lia|]. by exists g.
Qed.

(** The fuel of the inner loop is enough: every turn moves to an earlier newline, or
    stops at the first line, where no block can have been opened. *)
Lemma pick_newline_fuel n m text spans start minP fenceStart last :
  0 <= start → 2 <= minP → last < Z.of_nat n → last < Z.of_nat m →
  pick_newline n text spans start minP fenceStart last = pick_newline m text spans start minP fenceStart last.
Proof.
  intros H0 Hm. revert m last. induction n as [|n IH]; intros [|m] last Hn Hm'; cbn [pick_newline];
    try done; try (rewrite (proj2 (Z.leb_gt _ _)); [done|lia]).
  destruct (Z.leb_spec start last); [|done]. destruct (Z.ltb_spec (last + 1) minP); [done|].
  assert (lastIndexOfChar newline text (last - 1) < Z.max 0 last) as Hlast
    by (destruct (lastIndexOfChar_range newline text (last - 1) _ eq_refl) as [->|[? _]]; lia).
  by rewrite (IH m) by lia.
Qed.

Lemma close_fence_len raw f : len (close_fence raw f) <= len raw + 1 + len (closeLineOf f).
Proof.
  unfold close_fence. destruct (ends_with_char raw newline); rewrite !len_append; [lia|].
  unfold nl, len at 2. simpl. lia.
Qed.

Lemma close_fence_after_newline raw f :
  ends_with_char raw newline = true → len (close_fence raw f) = len raw + len (closeLineOf f).
Proof. intros H. unfold close_fence. by rewrite H, len_append. Qed.

(** A piece that ends with a newline. *)
Lemma piece_ends_with_newline text prefix start c :
  0 <= start → start < c → char_at text (c - 1) = Some newline →
  ends_with_char (prefix +:+ slice text start c) newline = true.
Proof.
  intros ? ? Hc. rewrite <- (slice_split text start (c - 1) c) by lia.
  destruct (char_at_slice _ _ _ Hc) as [Hs _]. replace (c - 1 + 1) with c in Hs by lia.
  rewrite Hs, <- append_assoc. apply ends_with_char_snoc.
Qed.

(** Where the text is cut: inside the window, the block to close is the one there, and
    the piece fits with its closing line unless the block is crowded. *)
Lemma fence_break_ok text start contentLimit f :
  let spans := parseFenceSpans text in
  let windowEnd := start + contentLimit in
  let b := fence_break text spans start contentLimit windowEnd f in
  0 <= start → 0 < contentLimit → windowEnd < len text → findFenceSpanAt spans windowEnd = Some f →
  start < b <= windowEnd ∧ fs_start f < b ∧
  (∀ prefix, len (close_fence (prefix +:+ slice text start b) f) <= len prefix + contentLimit ∨
             crowded f start contentLimit).
Proof.
  intros spans windowEnd. cbv zeta. intros H0 Hc Hw Hf.
  destruct (findFenceSpanAt_inside _ _ _ Hf) as (? & ? & ?).
  pose proof (len_nonneg (closeLineOf f)). pose proof (len_nonneg (fs_openLine f)).
  unfold fence_break. destruct (Z.leb_spec (start + (contentLimit - (len (closeLineOf f) + 1))) start).
  { split_and!; try lia. intros prefix. right. left. lia. }
  set (minP := Z.min (len text) _). set (last := lastIndexOfChar newline text _).
  destruct (pick_newline _ _ _ _ _ _ _) as [c|] eqn:Hp.
  - assert (last = -1 ∨ last <= start + (contentLimit - len (closeLineOf f)) - 1 ∧ char_at text last = Some newline)
      as Hlast.
    { destruct (lastIndexOfChar_range newline text _ last eq_refl) as [?|[? ?]]; [by left|right; split; [lia|done]]. }
    apply pick_newline_ok in Hp as (Hcr & HminP & Hnl & _); [|done|tauto].
    split_and!; try lia. intros prefix. left.
    rewrite close_fence_after_newline by (by apply piece_ends_with_newline; try lia).
    rewrite len_append, len_slice by lia. destruct Hlast as [->|[? ?]]; lia.
  - destruct (Z.ltb_spec (start + (contentLimit - len (closeLineOf f))) minP).
    { split_and!; try lia. intros prefix. right. right. lia. }
    split_and!; try lia. intros prefix.
    destruct (Z.leb_spec minP (start + (contentLimit - (len (closeLineOf f) + 1)))); [left|right; right; lia].
    pose proof (close_fence_len (prefix +:+ slice text start (Z.max minP (start + (contentLimit - (len (closeLineOf f) + 1))))) f) as Hcl.
    rewrite len_append, len_slice in Hcl by lia. lia.
Qed.

Lemma markdown_cut_ok text start contentLimit b fence :
  let spans := parseFenceSpans text in
  0 <= start → 0 < contentLimit → start + contentLimit < len text →
  markdown_cut text spans start contentLimit = (b, fence) →
  start < b <= start + contentLimit ∧ fence = findFenceSpanAt spans b ∧
  ∀ prefix, len (splitChunk (prefix +:+ slice text start b) fence) <= len prefix + contentLimit ∨
            ∃ f, fence = Some f ∧ crowded f start contentLimit.
Proof.
  intros spans H0 Hc Hw. unfold markdown_cut. rewrite Z.min_r by lia.
  pose proof (pickSafeBreakIndex_in text start (start + contentLimit) spans H0) as Hin.
  set (soft := pickSafeBreakIndex _ _ _ _) in *. clearbody soft.
  set (b0 := if start <? soft then soft else start + contentLimit).
  assert (start < b0 <= start + contentLimit ∧
    (b0 = start + contentLimit ∨ isSafeFenceBreak spans b0 = true)) as [Hb0 Hsafe].
  { subst b0. destruct (Z.ltb_spec start soft); [|split; [lia|by left]].
    destruct Hin as [->|[? ?]]; [lia|]. split; [lia|by right]. }
  clearbody b0. destruct (isSafeFenceBreak spans b0) eqn:Hs.
  - intros [= <- <-]. rewrite isSafeFenceBreak_true in Hs. split_and!; try lia; [done|].
    intros prefix. left. simpl. rewrite len_append, len_slice; lia.
  - destruct Hsafe as [->|]; [|done].
    destruct (findFenceSpanAt spans (start + contentLimit)) as [f|] eqn:Hf;
      [|by apply isSafeFenceBreak_true in Hf; rewrite Hf in Hs].
    destruct (fence_break_ok text start contentLimit f H0 Hc Hw Hf) as (Hb & Hfb & Hfit).
    fold spans in Hb, Hfb, Hfit. set (b1 := fence_break _ _ _ _ _ _) in *. clearbody b1.
    assert (findFenceSpanAt spans b1 = Some f) as Hb1
      by (apply (findFenceSpanAt_between text b1 (start + contentLimit)); [done|lia|lia]).
    rewrite Hb1, Z.eqb_refl. intros [= <- <-]. split_and!; try lia; [done|].
    intros prefix. simpl. destruct (Hfit prefix); [by left|right; by exists f].
Qed.

Lemma skip_newlines_ok fuel value i :
  0 <= i → i <= len value →
  i <= skip_newlines fuel value i <= len value ∧ blank (slice value i (skip_newlines fuel value i)) = true.
Proof.
  revert i. assert (∀ i, blank (slice value i i) = true) as Hnil by (intros; unfold slice; by rewrite Z.sub_diag).
  induction fuel as [|fuel IH]; intros i H0 Hi; cbn [skip_newlines]; [split; [lia|done]|].
  unfold char_is. case_bool_decide as Hc; [|split; [lia|done]].
  destruct (char_at_slice _ _ _ Hc) as [Hs ?]. destruct (IH (i + 1)) as [? Hb]; [lia|lia|].
  split; [lia|]. rewrite <- (slice_split value i (i + 1)) by lia. by rewrite blank_append, Hs.
Qed.

Lemma markdown_loop_cuts fuel text limit start reopen :
  0 <= start → start <= len text → len text - start < Z.of_nat fuel →
  cut text limit (parseFenceSpans text) start reopen
    (markdown_loop fuel text limit (parseFenceSpans text) start reopen).
Proof.
  revert start reopen. induction fuel as [|fuel IH]; intros start reopen H0 Hle Hf; [lia|].
  cbn [markdown_loop]. destruct (Z.ltb_spec start (len text)).
  2:{ replace start with (len text) by lia. constructor. }
  set (spans := parseFenceSpans text) in *. fold (content_limit limit reopen).
  destruct (Z.leb_spec (len text - start) (content_limit limit reopen)).
  { unfold chunk_of. destruct (reopenPrefixOf reopen +:+ slice_from text start) as [|c s] eqn:Hs.
    - apply (f_equal len) in Hs. rewrite len_append, len_slice_from in Hs by lia.
      pose proof (len_nonneg (reopenPrefixOf reopen)). unfold len at 3 in Hs. simpl in Hs. lia.
    - simpl str_truthy. rewrite <- Hs. by constructor. }
  destruct (markdown_cut text spans start (content_limit limit reopen)) as [b fence] eqn:Hcut.
  assert (0 < content_limit limit reopen) by (unfold content_limit; lia).
  destruct (markdown_cut_ok text start _ b fence H0 ltac:(done) ltac:(lia) Hcut) as (Hb & -> & Hfit).
  fold spans in Hfit |- *.
  assert (str_truthy (slice text start b) = true) as ->.
  { assert (slice text start b ≠ EmptyString) by (apply len_positive; rewrite len_slice; lia).
    by destruct (slice text start b). }
  cbv [negb]. set (next := Z.min (len text) _).
  assert (b <= next <= b + 1 ∧ next <= len text ∧ blank (slice text b next) = true) as (? & ? & Hblank).
  { assert (blank (slice text b b) = true) by (unfold slice; by rewrite Z.sub_diag).
    subst next. destruct ((b <? len text) && ws_at text b) eqn:Hs.
    - apply andb_true_iff in Hs as [? Hw]. destruct (ws_at_slice _ _ Hw). rewrite Z.min_r by lia. split_and!; done || lia.
    - rewrite Z.add_0_r, Z.min_r by lia. split_and!; done || lia. }
  clearbody next.
  destruct (skip_newlines_ok (String.length text) text next ltac:(lia) ltac:(lia)) as [? Hskip].
  destruct (findFenceSpanAt spans b) as [f|] eqn:Hfb.
  - change (close_fence ?r f) with (splitChunk r (Some f)). rewrite <- Hfb.
    apply (cut_piece _ _ _ _ _ _ next); try lia; [done| |].
    + rewrite Hfb. apply Hfit.
    + rewrite Hfb. apply IH; lia.
  - change (reopenPrefixOf reopen +:+ slice text start b)
      with (splitChunk (reopenPrefixOf reopen +:+ slice text start b) None). rewrite <- Hfb.
    apply (cut_piece _ _ _ _ _ _ (skipLeadingNewlines text next)); unfold skipLeadingNewlines; try lia.
    + rewrite <- (slice_split text b next) by lia. by rewrite blank_append, Hblank, Hskip.
    + by rewrite Hfb.
    + rewrite Hfb. destruct (Hfit (reopenPrefixOf reopen)) as [?|(f & ? & _)]; [by left|done].
    + rewrite Hfb. apply IH; lia.
Qed.

Lemma chunkMarkdownText_cut text limit :
  0 < limit → limit < len text →
  cut text limit (parseFenceSpans text) 0 None (chunkMarkdownText text limit).
Proof.
  intros Hl Hlen. unfold chunkMarkdownText, resolveChunkEarlyReturn.
  destruct text as [|c text]; [unfold len in Hlen; simpl in Hlen; lia|]. simpl str_truthy. cbv [negb].
  destruct (Z.leb_spec limit 0); [lia|]. destruct (Z.leb_spec (len (String c text)) limit); [lia|].
  apply markdown_loop_cuts; unfold len; lia.
Qed.

(** C15. A markdown text that exceeds the limit is cut into pieces that cover it: pieces
    follow one another with white space between them at most, and inside a fenced block
    with one character at most; a block that is cut is closed at the end of the chunk
    and opened again in the next, and no other block is touched; a chunk is within the
    limit (or within one character more than what opens its block) unless a block is
    crowded. The loop takes a piece every time and ends. *)
Theorem markdown_chunks_cut_the_text text limit :
  0 < limit → limit < len text →
  cut text limit (parseFenceSpans text) 0 None (chunkMarkdownText text limit).
Proof. apply chunkMarkdownText_cut. Qed.

Definition demoCode : string :=
  "```py" +:+ nl +:+ "if a:" +:+ nl +:+ "    b = 1" +:+ nl +:+ "    c = 2" +:+ nl +:+ "```" +:+ nl +:+ "Done (all of it).".

Lemma markdown_chunks_cut_the_text_witness :
  0 < 24 ∧ 24 < len demoCode ∧
  cut demoCode 24 (parseFenceSpans demoCode) 0 None (chunkMarkdownText demoCode 24).
Proof. split_and!; [lia|reflexivity|]. apply markdown_chunks_cut_the_text; [lia|reflexivity]. Defined.

(** *** Bounds *)

(** The opening lines of the blocks leave room for text. *)
Definition roomy (limit : Z) (spans : list FenceSpan) : Prop :=
  Forall (λ f, len (fs_openLine f) + 1 < limit) spans.

Lemma findFenceSpanAt_elem text i f :
  findFenceSpanAt (parseFenceSpans text) i = Some f → f ∈ parseFenceSpans text.
Proof. rewrite (findFenceSpanAt_scan _ _ _ _ (parseFenceSpans_apart text)). intros [Hf _]%List.find_some. by apply list_elem_of_In. Qed.

Lemma roomy_prefix limit text reopen :
  0 < limit → roomy limit (parseFenceSpans text) →
  (∀ f, reopen = Some f → f ∈ parseFenceSpans text) →
  len (reopenPrefixOf reopen) + content_limit limit reopen = limit.
Proof.
  unfold content_limit. destruct reopen as [f|]; simpl; intros Hl Hr Hin; [|unfold len; simpl; lia].
  rewrite len_append. replace (len nl) with 1 by reflexivity.
  specialize (proj1 (Forall_forall _ _) Hr f (Hin f eq_refl)). simpl. lia.
Qed.

(** A chunk is within the limit, or ends with the closing line of a crowded block and
    is longer by that line at most. *)
Definition within (limit : Z) (spans : list FenceSpan) (c : string) : Prop :=
  len c <= limit ∨ ∃ f start reopen, f ∈ spans ∧ crowded f start (content_limit limit reopen) ∧
    len c <= limit + 1 + len (closeLineOf f).

Lemma cut_within text limit start reopen chunks :
  0 < limit → roomy limit (parseFenceSpans text) →
  0 <= start → (∀ f, reopen = Some f → f ∈ parseFenceSpans text) →
  cut text limit (parseFenceSpans text) start reopen chunks →
  Forall (within limit (parseFenceSpans text)) chunks.
Proof.
  intros Hl Hr. set (spans := parseFenceSpans text) in *. intros H0 Hin Hcut.
  induction Hcut as [reopen|start reopen ? Hlast|start reopen b next chunks Hb Hlen Hnext _ _ Hfit _ IH].
  - constructor.
  - constructor; [|done]. left. rewrite len_append, len_slice_from by lia.
    pose proof (roomy_prefix limit text reopen Hl Hr Hin). lia.
  - pose proof (roomy_prefix limit text reopen Hl Hr Hin) as Hroom. constructor.
    + destruct Hfit as [?|(f & Hf & Hc)]; [left; lia|].
      right. exists f, start, reopen. split_and!; [by apply (findFenceSpanAt_elem _ b)|done|].
      rewrite Hf. simpl. pose proof (close_fence_len (reopenPrefixOf reopen +:+ slice text start b) f) as Hcl.
      rewrite len_append, len_slice in Hcl by lia. lia.
    + apply IH; [lia|]. intros f. apply findFenceSpanAt_elem.
Qed.

Lemma chunkMarkdownText_within text limit :
  0 < limit → roomy limit (parseFenceSpans text) →
  Forall (within limit (parseFenceSpans text)) (chunkMarkdownText text limit).
Proof.
  intros Hl Hr. destruct (Z.leb_spec (len text) limit) as [Hle|Hgt].
  - unfold chunkMarkdownText, resolveChunkEarlyReturn. destruct text as [|c text]; [constructor|].
    simpl str_truthy. cbv [negb]. destruct (Z.leb_spec limit 0); [lia|].
    rewrite (proj2 (Z.leb_le _ _) Hle). constructor; [by left|constructor].
  - apply (cut_within text limit 0 None); try done; try lia.
    by apply chunkMarkdownText_cut.
Qed.

(** No chunk of a markdown text is longer than the limit when the opening lines of
    its blocks are shorter, save one that ends in a block whose opening and closing
    lines do not fit beside the text before them: it exceeds the limit by no more than
    the closing line. *)
Lemma markdown_chunks_are_bounded text limit :
  0 < limit → roomy limit (parseFenceSpans text) →
  Forall (within limit (parseFenceSpans text)) (chunkMarkdownText text limit).
Proof. apply chunkMarkdownText_within. Qed.

Lemma markdown_chunks_are_bounded_witness :
  Forall (within 24 (parseFenceSpans demoCode)) (chunkMarkdownText demoCode 24).
Proof.
  apply (markdown_chunks_are_bounded demoCode 24); [lia|].
  apply Forall_forall. intros f Hf. vm_compute in Hf. apply list_elem_of_singleton in Hf. subst f. reflexivity.
Defined.

(** Without blocks every chunk is within the limit. *)
Lemma plain_markdown_fits text limit :
  0 < limit → parseFenceSpans text = [] → Forall (λ c, len c <= limit) (chunkMarkdownText text limit).
Proof.
  intros Hl Hs. eapply Forall_impl; [apply chunkMarkdownText_within; [done|by rewrite Hs; constructor]|].
  intros c [?|(f & ? & ? & Hf & _)]; [done|]. rewrite Hs in Hf. by apply elem_of_nil in Hf.
Qed.

(** *** Where the code departs from what it means to do *)

(** A block that opens inside a parenthesis is not seen by the scan for a break: the
    branch that decides against splitting it is overruled, and the chunk exceeds the
    limit by the closing line. *)
Lemma crowded_block_exceeds_the_limit :
  let text := "(see below" +:+ nl +:+ "```js" +:+ nl +:+ "const a = 1;" +:+ nl +:+ "```" in
  List.map len (chunkMarkdownText text 20) = [24; 19].
Proof. vm_compute. reflexivity. Qed.

(** A white space after a cut inside a block is dropped as it is elsewhere: the lines
    after the cuts lose a column of their indentation. *)
Lemma cut_drops_indentation :
  chunkMarkdownText demoCode 24 =
    ["```py" +:+ nl +:+ "if a:" +:+ nl +:+ "```";
     "```py" +:+ nl +:+ "   b = 1" +:+ nl +:+ "```";
     "```py" +:+ nl +:+ "   c = 2" +:+ nl +:+ "```";
     "Done (all of it)."].
Proof. vm_compute. reflexivity. Qed.

(** The expression for fence lines matches no line that ends with a carriage return:
    the blocks of a text with such line ends are not found, and it is cut as prose. *)
Lemma carriage_returns_hide_blocks :
  let crlf := String carriage_return nl in
  let text := "```py" +:+ crlf +:+ "a = 1" +:+ crlf +:+ "```" +:+ crlf in
  parseFenceSpans text = [] ∧ List.length (parseFenceSpans (normalizeNewlines text)) = 1%nat ∧
  chunkMarkdownText text 14 =
    ["```py" +:+ crlf +:+ "a = 1" +:+ String carriage_return EmptyString; "```" +:+ crlf].
Proof. vm_compute. auto. Qed.
