(* ===== verification/ReplyLimits.v ===== *)
(** * The limit and the mode of a channel's chunks

    [resolveTextChunkLimit] and [resolveChunkMode] of src/auto-reply/chunk.ts, with
    src/plugin-sdk/channel-streaming.ts: what the configuration says about the splitting
    of replies for a channel and an account. The configuration is a JSON value; an array
    where it expects an object of accounts has none. *)

From S2P Require Import Prelude OMap JsValue SessionKey GroupPolicy JsText Chunking MarkdownChunks.

#[local] Open Scope stdpp_scope.

Module ReplyLimits.
Import JsValue SessionKey.

(** [a ?? b] on values. *)
Definition js_or (a b : js) : js := if defined a then a else b.

(** [accounts && typeof accounts === "object"], and its entries. *)
Definition accounts_of (cfgSection : js) : option (omap string js) :=
  match prop cfgSection "accounts" with JObj m => Some m | _ => None end.

(** The entry of the account, if there is one. *)
Definition direct_entry (cfgSection : js) (accountId : option string) : js :=
  match accounts_of cfgSection with
  | Some accounts => resolveAccountEntry (Some accounts) (normalizeAccountId accountId) ?? JUndefined
  | None => JUndefined
  end.

Definition resolveChunkLimitForProvider (cfgSection : js) (accountId : option string) : js :=
  if negb (defined cfgSection) then JUndefined
  else
    match prop (direct_entry cfgSection accountId) "textChunkLimit" with
    | JNum n => JNum n
    | _ => prop cfgSection "textChunkLimit"
    end.

(** The section of a channel, in [channels] or at the top. *)
Definition provider_section (cfg : js) (provider : string) : js :=
  js_or (prop (prop cfg "channels") provider) (prop cfg provider).

Definition names_channel (provider : option string) : option string :=
  match provider with
  | Some p => if negb (str_truthy p) || String.eqb p GroupPolicy.INTERNAL_MESSAGE_CHANNEL then None else Some p
  | None => None
  end.

Definition resolveTextChunkLimit (cfg : js) (provider accountId : option string) (fallbackLimit : option Z) : Z :=
  let fallback := match fallbackLimit with Some n => if 0 <? n then n else DEFAULT_CHUNK_LIMIT | None => DEFAULT_CHUNK_LIMIT end in
  let providerOverride :=
    match names_channel provider with
    | Some p => resolveChunkLimitForProvider (provider_section cfg p) accountId
    | None => JUndefined
    end in
  match providerOverride with
  | JNum n => if 0 <? n then n else fallback
  | _ => fallback
  end.

Definition asTextChunkMode (value : js) : js :=
  if is_str value "length" || is_str value "newline" then value else JUndefined.

Definition getChannelStreamingConfigObject (entry : js) : js :=
  match prop entry "streaming" with JObj m => JObj m | _ => JUndefined end.

Definition resolveChannelStreamingChunkMode (entry : js) : js :=
  js_or (asTextChunkMode (prop (getChannelStreamingConfigObject entry) "chunkMode"))
    (asTextChunkMode (prop entry "chunkMode")).

Definition resolveChunkModeForProvider (cfgSection : js) (accountId : option string) : js :=
  if negb (defined cfgSection) then JUndefined
  else
    js_or (resolveChannelStreamingChunkMode (direct_entry cfgSection accountId))
      (js_or (resolveChannelStreamingChunkMode cfgSection) (prop cfgSection "chunkMode")).

Definition resolveChunkMode (cfg : js) (provider accountId : option string) : js :=
  match names_channel provider with
  | None => JStr "length"
  | Some p => js_or (resolveChunkModeForProvider (provider_section cfg p) accountId) (JStr "length")
  end.

(** [mode === "newline"], the test of the splitters: any other value splits by length. *)
Definition mode_of (mode : js) : ChunkMode := if is_str mode "newline" then ModeNewline else ModeLength.

(** The limit that is used is positive, whatever is configured. *)
Lemma resolved_limit_is_positive cfg provider accountId fallbackLimit :
  0 < resolveTextChunkLimit cfg provider accountId fallbackLimit.
Proof.
  unfold resolveTextChunkLimit.
  assert (0 < match fallbackLimit with Some n => if 0 <? n then n else DEFAULT_CHUNK_LIMIT | None => DEFAULT_CHUNK_LIMIT end)
    as Hf by (destruct fallbackLimit as [n|]; [destruct (Z.ltb_spec 0 n)|]; unfold DEFAULT_CHUNK_LIMIT; lia).
  destruct (match names_channel provider with Some _ => _ | None => _ end); try done.
  by destruct (Z.ltb_spec 0 n).
Qed.

(** So the replies of every channel are split into chunks that fit and cover them. *)
Lemma replies_of_channels_are_covered cfg provider accountId fallbackLimit text :
  let limit := resolveTextChunkLimit cfg provider accountId fallbackLimit in
  let mode := mode_of (resolveChunkMode cfg provider accountId) in
  Forall (fits limit) (chunkTextWithMode text limit mode) ∧
  spaced (chunkTextWithMode text limit mode) (mode_text mode text).
Proof. cbv zeta. apply chunkTextWithMode_ok, resolved_limit_is_positive. Qed.

(** A limit of an account that is not positive hides the limit of its channel: the
    default is used. *)
Lemma account_limit_hides_the_channels :
  let cfg := JObj [("channels", JObj [("chat", JObj [("textChunkLimit", JNum 500);
                     ("accounts", JObj [("a", JObj [("textChunkLimit", JNum 0)])])])])] in
  resolveTextChunkLimit cfg (Some "chat") (Some "a") None = DEFAULT_CHUNK_LIMIT ∧
  resolveTextChunkLimit cfg (Some "chat") (Some "b") None = 500.
Proof. vm_compute. auto. Qed.

End ReplyLimits.
