(* ===== verification/SystemEvents.v ===== *)
(** * System events: src/infra/system-events.ts, src/utils/delivery-context.shared.ts

    Events that are shown to the agent with the next prompt of a session wait in a queue
    per session, which keeps the last twenty and skips a repetition of the last one. The
    place to answer to is merged from the events. A call is a function on the map of
    queues; a clock reading is an argument. *)

From Stdlib Require Import Ascii.
From S2P Require Import Prelude OMap SessionKey GroupPolicy.

#[local] Open Scope stdpp_scope.

Module SystemEvents.
Import StringCoerce SessionKey GroupPolicy.

(** ** Delivery contexts *)

Inductive EventThreadId : Type := ThreadNumber (n : num) | ThreadText (s : string).

Record DeliveryContext : Type := mkDelivery {
  dc_channel : option string;
  dc_to : option string;
  dc_accountId : option string;
  dc_threadId : option EventThreadId;
}.

Definition normalizeThreadId (threadId : option EventThreadId) : option EventThreadId :=
  match threadId with
  | Some (ThreadNumber (Fin q)) => Some (ThreadNumber (num_of_Z (truncQ q)))
  | Some (ThreadNumber _) => None
  | Some (ThreadText s) => ThreadText <$> normalizeOptionalString (Some s)
  | None => None
  end.

(** [a || undefined] *)
Definition truthy_or_none (a : option string) : option string :=
  match a with Some s => if str_truthy s then Some s else None | None => None end.

Section channels.
Context `{Channels}.

Definition normalizeDeliveryContext (context : option DeliveryContext) : option DeliveryContext :=
  match context with
  | None => None
  | Some context =>
      let channel :=
        match dc_channel context with
        | Some c => Some (normalizeMessageChannel (Some c) ?? trim c)
        | None => None
        end in
      let to := normalizeOptionalString (dc_to context) in
      let accountId := normalizeOptionalAccountId (dc_accountId context) in
      let threadId := normalizeThreadId (dc_threadId context) in
      if negb (ostr_truthy channel) && negb (ostr_truthy to) && negb (ostr_truthy accountId)
         && match threadId with None => true | Some _ => false end
      then None
      else Some (mkDelivery (truthy_or_none channel) (truthy_or_none to) accountId threadId)
  end.

(** [a?.f ?? b?.f] *)
Definition first_field {A} (f : DeliveryContext → option A) (a b : option DeliveryContext) : option A :=
  match a ≫= f with Some x => Some x | None => b ≫= f end.

Definition channels_conflict (a b : option DeliveryContext) : bool :=
  match a ≫= dc_channel, b ≫= dc_channel with
  | Some c, Some d => str_truthy c && str_truthy d && negb (String.eqb c d)
  | _, _ => false
  end.

Definition mergeDeliveryContext (primary fallback : option DeliveryContext) : option DeliveryContext :=
  let normalizedPrimary := normalizeDeliveryContext primary in
  let normalizedFallback := normalizeDeliveryContext fallback in
  match normalizedPrimary, normalizedFallback with
  | None, None => None
  | _, _ =>
      let paired := if channels_conflict normalizedPrimary normalizedFallback then None else normalizedFallback in
      normalizeDeliveryContext (Some (mkDelivery
        (first_field dc_channel normalizedPrimary normalizedFallback)
        (first_field dc_to normalizedPrimary paired)
        (first_field dc_accountId normalizedPrimary paired)
        (first_field dc_threadId normalizedPrimary paired)))
  end.

Record SessionSource : Type := mkSource {
  ss_channel : option string;
  ss_lastChannel : option string;
  ss_lastTo : option string;
  ss_lastAccountId : option string;
  ss_lastThreadId : option EventThreadId;
  ss_origin : option (option string * option string * option EventThreadId);   (* provider, account, thread *)
  ss_deliveryContext : option DeliveryContext;
}.

(** [normalizeSessionDeliveryFields]: the merged context; the other fields of its
    result are those of the context. *)
Definition normalizeSessionDeliveryFields (source : option SessionSource) : option DeliveryContext :=
  match source with
  | None => None
  | Some source =>
      mergeDeliveryContext
        (normalizeDeliveryContext (Some (mkDelivery
           (match ss_lastChannel source with Some c => Some c | None => ss_channel source end)
           (ss_lastTo source) (ss_lastAccountId source) (ss_lastThreadId source))))
        (normalizeDeliveryContext (ss_deliveryContext source))
  end.

Definition coalesce {A} (a b : option A) : option A := match a with Some x => Some x | None => b end.

Definition deliveryContextFromSession (entry : option SessionSource) : option DeliveryContext :=
  match entry with
  | None => None
  | Some entry =>
      let provider := ss_origin entry ≫= λ o, o.1.1 in
      let account := ss_origin entry ≫= λ o, o.1.2 in
      let thread := ss_origin entry ≫= λ o, o.2 in
      normalizeSessionDeliveryFields (Some (mkSource
        (coalesce (ss_channel entry) provider) (ss_lastChannel entry) (ss_lastTo entry)
        (coalesce (ss_lastAccountId entry) account)
        (coalesce (ss_lastThreadId entry) (coalesce (ss_deliveryContext entry ≫= dc_threadId) thread))
        (ss_origin entry) (ss_deliveryContext entry)))
  end.

(** ** Queues *)

Record SystemEvent : Type := mkEvent {
  ev_text : string;
  ev_ts : Z;
  ev_contextKey : option string;
  ev_deliveryContext : option DeliveryContext;
  ev_trusted : bool;
}.

Definition MAX_EVENTS : nat := 20.

Record SessionQueue : Type := mkQueue {
  sq_queue : list SystemEvent;
  sq_lastText : option string;
  sq_lastContextKey : option string;
}.

Definition Queues : Type := omap string SessionQueue.

Record SystemEventOptions : Type := mkOptions {
  so_sessionKey : string;
  so_contextKey : option string;
  so_deliveryContext : option DeliveryContext;
  so_trusted : option bool;
}.

Definition requireSessionKey (key : string) : result string :=
  let trimmed := normalizeOptionalString (Some key) ?? EmptyString in
  if str_truthy trimmed then Ok trimmed else Throw "system events require a sessionKey".

Definition normalizeContextKey (key : option string) : option string := normalizeOptionalLowercaseString key.

Definition getSessionQueue (queues : Queues) (sessionKey : string) : result (option SessionQueue) :=
  let! key := requireSessionKey sessionKey in Ok (oget queues key).

Definition emptyQueue : SessionQueue := mkQueue [] None None.

(** The queue of a key, and the map, in which it is now. *)
Definition getOrCreateSessionQueue (queues : Queues) (key : string) : SessionQueue * Queues :=
  match oget queues key with
  | Some existing => (existing, queues)
  | None => (emptyQueue, oset queues key emptyQueue)
  end.

Definition isSystemEventContextChanged (queues : Queues) (sessionKey : string) (contextKey : option string)
    : result bool :=
  let! existing := getSessionQueue queues sessionKey in
  Ok (negb (bool_decide (normalizeContextKey contextKey = (existing ≫= sq_lastContextKey)))).

(** [queue.push(e)], then [queue.shift()] beyond the bound. *)
Definition push_event (queue : list SystemEvent) (e : SystemEvent) : list SystemEvent :=
  let queue := queue ++ [e] in
  if (MAX_EVENTS <? List.length queue)%nat then List.tl queue else queue.

(** What a text that is not blank does to a queue. *)
Definition enqueue_in (entry : SessionQueue) (cleaned : string) (options : SystemEventOptions) (now : Z)
    : bool * SessionQueue :=
  let contextKey := normalizeContextKey (so_contextKey options) in
  if bool_decide (sq_lastText entry = Some cleaned)
  then (false, mkQueue (sq_queue entry) (sq_lastText entry) contextKey)
  else
    let event := mkEvent cleaned now contextKey (normalizeDeliveryContext (so_deliveryContext options))
                   (match so_trusted options with Some false => false | _ => true end) in
    (true, mkQueue (push_event (sq_queue entry) event) (Some cleaned) contextKey).

Definition enqueueSystemEvent (queues : Queues) (text : string) (options : SystemEventOptions) (now : Z)
    : result bool * Queues :=
  match requireSessionKey (so_sessionKey options) with
  | Throw e => (Throw e, queues)
  | Ok key =>
      let '(entry, queues) := getOrCreateSessionQueue queues key in
      let cleaned := trim text in
      if negb (str_truthy cleaned) then (Ok false, queues)
      else
        let '(added, entry) := enqueue_in entry cleaned options now in
        (Ok added, oset queues key entry)
  end.

Definition drainSystemEventEntries (queues : Queues) (sessionKey : string) : result (list SystemEvent) * Queues :=
  match requireSessionKey sessionKey with
  | Throw e => (Throw e, queues)
  | Ok key =>
      match oget queues key with
      | None => (Ok [], queues)
      | Some entry =>
          match sq_queue entry with
          | [] => (Ok [], queues)
          | out => (Ok out, odel queues key)
          end
      end
  end.

Definition drainSystemEvents (queues : Queues) (sessionKey : string) : result (list string) * Queues :=
  let '(r, queues) := drainSystemEventEntries queues sessionKey in
  (let! events := r in Ok (List.map ev_text events), queues).

Definition peekSystemEventEntries (queues : Queues) (sessionKey : string) : result (list SystemEvent) :=
  let! entry := getSessionQueue queues sessionKey in
  Ok (match entry with Some q => sq_queue q | None => [] end).

Definition peekSystemEvents (queues : Queues) (sessionKey : string) : result (list string) :=
  let! events := peekSystemEventEntries queues sessionKey in Ok (List.map ev_text events).

Definition hasSystemEvents (queues : Queues) (sessionKey : string) : result bool :=
  let! entry := getSessionQueue queues sessionKey in
  Ok (match entry with Some q => (0 <? List.length (sq_queue q))%nat | None => false end).

Definition resolveSystemEventDeliveryContext (events : list SystemEvent) : option DeliveryContext :=
  List.fold_left (λ resolved event, mergeDeliveryContext (ev_deliveryContext event) resolved) events None.

(** ** Histories *)

Inductive Op : Type :=
| Enqueue (text : string) (options : SystemEventOptions) (now : Z)
| Drain (sessionKey : string).

Definition step (queues : Queues) (op : Op) : Queues :=
  match op with
  | Enqueue text options now => (enqueueSystemEvent queues text options now).2
  | Drain sessionKey => (drainSystemEventEntries queues sessionKey).2
  end.

Definition run (ops : list Op) : Queues := List.fold_left step ops [].

(** The specification: the texts of a session since its last drain, without blank ones
    and repetitions of the one before. *)
Definition is_session (key sessionKey : string) : bool := String.eqb (trim sessionKey) key.

Definition note_text (texts : list string) (text : string) : list string :=
  if bool_decide (last texts = Some text) then texts else texts ++ [text].

Definition noted (key : string) (texts : list string) (op : Op) : list string :=
  match op with
  | Enqueue text options _ =>
      if is_session key (so_sessionKey options) && str_truthy (trim text) then note_text texts (trim text)
      else texts
  | Drain sessionKey => if is_session key sessionKey then [] else texts
  end.

Definition texts_since_drain (key : string) (ops : list Op) : list string := List.fold_left (noted key) ops [].

(** The last [n] elements. *)
Definition latest {A} (n : nat) (l : list A) : list A := drop (List.length l - n) l.

Lemma requireSessionKey_eq key :
  requireSessionKey key = if str_truthy (trim key) then Ok (trim key) else Throw "system events require a sessionKey".
Proof.
  unfold requireSessionKey, normalizeOptionalString, normalizeNullableString. by destruct (trim key).
Qed.

(** The bound of the queue, on the texts. *)
Lemma latest_snoc n (texts : list string) t :
  (0 < n)%nat →
  latest n (texts ++ [t]) =
    (if (n <? List.length (latest n texts ++ [t]))%nat then List.tl (latest n texts ++ [t]) else latest n texts ++ [t]).
Proof.
  intros Hn. unfold latest. rewrite !length_app, length_drop. cbn [List.length].
  destruct (Nat.ltb_spec n (List.length texts - (List.length texts - n) + 1)).
  - replace (List.length texts + 1 - n)%nat with (List.length texts - n + 1)%nat by lia.
    change (List.tl ?l) with (drop 1 l). rewrite <- drop_drop, drop_app_le by lia. done.
  - replace (List.length texts + 1 - n)%nat with 0%nat by lia.
    by replace (List.length texts - n)%nat with 0%nat by lia.
Qed.

Lemma push_event_texts queue e texts :
  List.map ev_text queue = latest MAX_EVENTS texts →
  List.map ev_text (push_event queue e) = latest MAX_EVENTS (texts ++ [ev_text e]).
Proof.
  intros Hq. rewrite latest_snoc by (unfold MAX_EVENTS; lia). rewrite <- Hq.
  change [ev_text e] with (List.map ev_text [e]). rewrite <- map_app, length_map. unfold push_event.
  destruct (MAX_EVENTS <? _)%nat; [|done]. by destruct (queue ++ [e]).
Qed.

(** A queue holds the latest texts, and remembers the last. *)
Definition queue_ok (texts : list string) (entry : option SessionQueue) : Prop :=
  match entry with
  | None => texts = []
  | Some q => List.map ev_text (sq_queue q) = latest MAX_EVENTS texts ∧ sq_lastText q = last texts
  end.

Lemma latest_nil_iff (texts : list string) : latest MAX_EVENTS texts = [] ↔ texts = [].
Proof.
  unfold latest. split; [|by intros ->]. intros Hd. apply (f_equal (@List.length _)) in Hd.
  rewrite length_drop in Hd. unfold MAX_EVENTS in Hd. destruct texts; [done|]. simpl in Hd. lia.
Qed.

Lemma enqueue_in_ok texts entry cleaned options now :
  queue_ok texts (Some entry) → queue_ok (note_text texts cleaned) (Some (enqueue_in entry cleaned options now).2).
Proof.
  intros [Hq Hl]. unfold enqueue_in, note_text. rewrite Hl. case_bool_decide; [by split|].
  simpl. split; [|by rewrite last_snoc]. by apply push_event_texts.
Qed.

Lemma step_queue_ok key texts queues op :
  key ≠ EmptyString → queue_ok texts (oget queues key) →
  queue_ok (noted key texts op) (oget (step queues op) key).
Proof.
  intros Hkey Hok. destruct op as [text options now|sessionKey]; simpl; unfold is_session.
  - unfold enqueueSystemEvent. rewrite requireSessionKey_eq.
    destruct (str_truthy (trim (so_sessionKey options))) eqn:Ht; simpl.
    2:{ destruct (String.eqb_spec (trim (so_sessionKey options)) key) as [Heq|]; [|done].
        rewrite Heq in Ht. by destruct key. }
    set (k := trim (so_sessionKey options)) in *. unfold getOrCreateSessionQueue.
    assert (∀ entry, oget queues k = Some entry ∨ oget queues k = None ∧ entry = emptyQueue →
      k = key → queue_ok texts (Some entry)) as Hentry.
    { intros entry Hk ->. destruct Hk as [Hk|[Hk ->]]; rewrite Hk in Hok; [done|]. simpl in Hok. by subst texts. }
    destruct (oget queues k) as [entry|] eqn:Hk; destruct (str_truthy (trim text)); simpl;
      rewrite ?andb_false_r, ?andb_true_r; try done.
    + destruct (enqueue_in entry (trim text) options now) as [added entry'] eqn:He. simpl.
      destruct (String.eqb_spec k key) as [Heq|Hne]; [|by rewrite oget_oset_ne].
      rewrite Heq, oget_oset_eq. apply (f_equal snd) in He. simpl in He. subst entry'.
      apply (enqueue_in_ok texts entry), Hentry; [by left|done].
    + destruct (enqueue_in emptyQueue (trim text) options now) as [added entry'] eqn:He. simpl.
      destruct (String.eqb_spec k key) as [Heq|Hne]; [|by rewrite !oget_oset_ne].
      rewrite Heq, oget_oset_eq. apply (f_equal snd) in He. simpl in He. subst entry'.
      apply (enqueue_in_ok texts emptyQueue), Hentry; [by right|done].
    + destruct (decide (k = key)) as [<-|Hne]; [|by rewrite oget_oset_ne].
      rewrite oget_oset_eq. by apply Hentry; [right|].
  - unfold drainSystemEventEntries. rewrite requireSessionKey_eq.
    destruct (str_truthy (trim sessionKey)) eqn:Ht; simpl.
    2:{ destruct (String.eqb_spec (trim sessionKey) key) as [Heq|]; [|done]. rewrite Heq in Ht. by destruct key. }
    destruct (String.eqb_spec (trim sessionKey) key) as [->|Hne].
    + destruct (oget queues key) as [q|] eqn:Hk; simpl; [|by rewrite Hk].
      destruct (sq_queue q) as [|e es] eqn:Hq; simpl; [|by rewrite oget_odel_eq].
      rewrite Hk. destruct Hok as [Hm Hl]. rewrite Hq in Hm. symmetry in Hm. apply (proj1 (latest_nil_iff _)) in Hm. subst texts.
      split; [by rewrite Hq|done].
    + destruct (oget queues (trim sessionKey)) as [q|]; [|done].
      destruct (sq_queue q); simpl; [done|]. by rewrite oget_odel_ne.
Qed.

Lemma run_queue_ok key ops :
  key ≠ EmptyString → queue_ok (texts_since_drain key ops) (oget (run ops) key).
Proof.
  intros Hkey. unfold texts_since_drain, run.
  assert (∀ texts queues, queue_ok texts (oget queues key) →
    queue_ok (List.fold_left (noted key) ops texts) (oget (List.fold_left step ops queues) key)) as Hall; [|by apply Hall].
  induction ops as [|op ops IH]; intros texts queues Hok; simpl; [done|].
  by apply IH, step_queue_ok.
Qed.

(** Whatever calls are made for this and for other sessions, the events that wait
    for a session are the last twenty of the texts that were queued for it since they
    were last taken, in order, without blank texts and immediate repetitions; taking
    them returns just these and leaves none. *)
Lemma waiting_events_are_the_latest ops sessionKey :
  trim sessionKey ≠ EmptyString →
  let texts := latest MAX_EVENTS (texts_since_drain (trim sessionKey) ops) in
  peekSystemEvents (run ops) sessionKey = Ok texts ∧
  hasSystemEvents (run ops) sessionKey = Ok (negb (bool_decide (texts = []))) ∧
  (drainSystemEvents (run ops) sessionKey).1 = Ok texts ∧
  peekSystemEvents (drainSystemEvents (run ops) sessionKey).2 sessionKey = Ok [].
Proof.
  intros Hkey. cbv zeta. pose proof (run_queue_ok (trim sessionKey) ops Hkey) as Hok.
  set (texts := texts_since_drain _ _) in *. set (queues := run ops) in *. clearbody texts queues.
  unfold peekSystemEvents, peekSystemEventEntries, hasSystemEvents, getSessionQueue, drainSystemEvents,
    drainSystemEventEntries. rewrite requireSessionKey_eq.
  assert (str_truthy (trim sessionKey) = true) as -> by (by destruct (trim sessionKey)). simpl.
  destruct (oget queues (trim sessionKey)) as [q|] eqn:Hq; simpl in *.
  - destruct Hok as [Hm _]. rewrite <- Hm. destruct (sq_queue q) as [|e es] eqn:He; simpl.
    + rewrite Hq. simpl. by rewrite He.
    + by rewrite oget_odel_eq.
  - subst texts. simpl. by rewrite Hq.
Qed.

(** A queue never holds more than its bound. *)
Lemma queues_are_bounded key ops q :
  key ≠ EmptyString → oget (run ops) key = Some q → (List.length (sq_queue q) <= MAX_EVENTS)%nat.
Proof.
  intros Hkey Hq. pose proof (run_queue_ok key ops Hkey) as Hok. rewrite Hq in Hok. destruct Hok as [Hm _].
  rewrite <- (length_map ev_text), Hm. unfold latest. rewrite length_drop. lia.
Qed.

(** A blank text adds nothing, but leaves an empty queue for its session, which only a
    later event and its taking remove. *)
Lemma blank_text_leaves_a_queue text options now key :
  requireSessionKey (so_sessionKey options) = Ok key → trim text = EmptyString →
  enqueueSystemEvent [] text options now = (Ok false, [(key, emptyQueue)]) ∧
  drainSystemEventEntries [(key, emptyQueue)] (so_sessionKey options) = (Ok [], [(key, emptyQueue)]).
Proof.
  intros Hk Ht. unfold enqueueSystemEvent, drainSystemEventEntries. rewrite Hk, Ht. simpl.
  split; [done|]. by rewrite decide_True.
Qed.

(** A context of another channel contributes nothing to a merge: no target, account or
    thread crosses from one channel to another. *)
Lemma conflicting_context_contributes_nothing primary fallback :
  channels_conflict (normalizeDeliveryContext primary) (normalizeDeliveryContext fallback) = true →
  mergeDeliveryContext primary fallback = normalizeDeliveryContext (normalizeDeliveryContext primary).
Proof.
  intros Hc. unfold mergeDeliveryContext. rewrite Hc. unfold channels_conflict in Hc.
  destruct (normalizeDeliveryContext primary) as [p|]; [|done]. simpl in *.
  destruct (dc_channel p) as [c|] eqn:Hch; [|done]. unfold first_field. simpl. rewrite Hch.
  destruct p as [ch to account thread]. simpl in *. subst ch. by destruct to, account, thread.
Qed.

End channels.

(** ** Instances *)

Definition noChannels : Channels := {|
  bundledChatChannel := λ _, None; registeredChannel := λ _, None; loadedMessaging := λ _, None;
  bundledConversation := λ _, None; channelToolPolicy := λ _, None;
|}.

Definition demoEnqueue (key text : string) : Op := Enqueue text (mkOptions key None None None) 0.

(** Twenty-five texts for a session, one of them twice, between texts for another. *)
Definition demoOps : list Op :=
  [demoEnqueue "a" "early"; Drain "a"]
    ++ List.concat (List.map (λ n, [demoEnqueue " a " ("n" +:+ pretty n); demoEnqueue "b" "other"]) (seq 0 25))
    ++ [demoEnqueue "a" " n24"; demoEnqueue "a" "  "].

Lemma waiting_events_are_the_latest_witness :
  peekSystemEvents (run (H := noChannels) demoOps) "a" =
    Ok (List.map (λ n : nat, "n" +:+ pretty n) (seq 5 20)).
Proof.
  destruct (waiting_events_are_the_latest (H := noChannels) demoOps "a") as [Hpeek _]; [done|].
  rewrite Hpeek. vm_compute. reflexivity.
Defined.

End SystemEvents.
