(* ===== verification/NodePendingWork.v ===== *)
(** * Work that waits for nodes: src/gateway/node-pending-work.ts

    A node that is not connected fetches its work when it comes back: requests wait per
    node until they are acknowledged or expire, one of a type at most. A call is a
    function on the map of states; clock readings and random ids are arguments, and the
    comparison of the locale is a parameter. *)

From Stdlib Require Import Ascii.
From S2P Require Import Prelude OMap.

#[local] Open Scope stdpp_scope.

Module NodePendingWork.

Inductive NodePendingWorkType : Type := StatusRequest | LocationRequest.
#[export] Instance NodePendingWorkType_eq : EqDecision NodePendingWorkType := ltac:(solve_decision).

Inductive NodePendingWorkPriority : Type := PriorityDefault | PriorityNormal | PriorityHigh.

Section work.
Context {Payload : Type} (localeCompare : string → string → Z).

Record NodePendingWorkItem : Type := mkItem {
  wi_id : string;
  wi_type : NodePendingWorkType;
  wi_priority : NodePendingWorkPriority;
  wi_createdAtMs : Z;
  wi_expiresAtMs : option Z;
  wi_payload : option Payload;
}.

Record NodePendingWorkState : Type := mkState {
  ws_revision : Z;
  ws_itemsById : omap string NodePendingWorkItem;
}.

Definition States : Type := omap string NodePendingWorkState.

Record DrainOptions : Type := mkDrain {
  do_maxItems : option Z;
  do_includeDefaultStatus : option bool;
}.

Record WorkDrainResult : Type := mkDrained {
  dr_revision : Z;
  dr_items : list NodePendingWorkItem;
  dr_hasMore : bool;
}.

Definition DEFAULT_STATUS_ITEM_ID : string := "baseline-status".
Definition DEFAULT_STATUS_PRIORITY : NodePendingWorkPriority := PriorityDefault.
Definition DEFAULT_PRIORITY : NodePendingWorkPriority := PriorityNormal.
Definition DEFAULT_MAX_ITEMS : Z := 4.
Definition MAX_ITEMS : Z := 10.

Definition PRIORITY_RANK (p : NodePendingWorkPriority) : Z :=
  match p with PriorityHigh => 3 | PriorityNormal => 2 | PriorityDefault => 1 end.

Definition emptyState : NodePendingWorkState := mkState 0 [].

Definition getOrCreateState (states : States) (nodeId : string) : NodePendingWorkState :=
  oget states nodeId ?? emptyState.

Definition expired (nowMs : Z) (item : NodePendingWorkItem) : bool :=
  match wi_expiresAtMs item with Some t => t <=? nowMs | None => false end.

Definition pruneExpired (state : NodePendingWorkState) (nowMs : Z) : NodePendingWorkState :=
  let kept := List.filter (λ e, negb (expired nowMs e.2)) (ws_itemsById state) in
  let changed := existsb (λ e, expired nowMs e.2) (ws_itemsById state) in
  mkState (if changed then ws_revision state + 1 else ws_revision state) kept.

(** [pruneStateIfEmpty], with the state that the map holds afterwards. *)
Definition pruneStateIfEmpty (states : States) (nodeId : string) (state : NodePendingWorkState) : States :=
  match ws_itemsById state with
  | [] => odel states nodeId
  | _ :: _ => oset states nodeId state
  end.

(** The comparison of [sortedItems] is not positive. *)
Definition item_le (a b : NodePendingWorkItem) : bool :=
  let priorityDelta := PRIORITY_RANK (wi_priority b) - PRIORITY_RANK (wi_priority a) in
  if negb (priorityDelta =? 0) then priorityDelta <=? 0
  else if negb (wi_createdAtMs a =? wi_createdAtMs b) then wi_createdAtMs a - wi_createdAtMs b <=? 0
  else localeCompare (wi_id a) (wi_id b) <=? 0.

Definition sortedItems (state : NodePendingWorkState) : list NodePendingWorkItem :=
  toSorted item_le (ovalues (ws_itemsById state)).

Definition makeBaselineStatusItem (nowMs : Z) : NodePendingWorkItem :=
  mkItem DEFAULT_STATUS_ITEM_ID StatusRequest DEFAULT_STATUS_PRIORITY nowMs None None.

Record EnqueueParams : Type := mkEnqueue {
  ep_nodeId : string;
  ep_type : NodePendingWorkType;
  ep_priority : option NodePendingWorkPriority;
  ep_expiresInMs : option num;
  ep_payload : option Payload;
}.

Definition expiryOf (expiresInMs : option num) (nowMs : Z) : option Z :=
  match expiresInMs with
  | Some (Fin q) => Some (nowMs + Z.max 1000 (truncQ q))
  | _ => None
  end.

(** The result is the revision, the item and whether it was there. *)
Definition enqueueNodePendingWork (states : States) (params : EnqueueParams) (nowMs : Z) (newId : string)
    : result (Z * NodePendingWorkItem * bool) * States :=
  let nodeId := trim (ep_nodeId params) in
  if negb (str_truthy nodeId) then (Throw "nodeId required", states)
  else
    let state := pruneExpired (getOrCreateState states nodeId) nowMs in
    match List.find (λ item, bool_decide (wi_type item = ep_type params)) (ovalues (ws_itemsById state)) with
    | Some existing => (Ok (ws_revision state, existing, true), oset states nodeId state)
    | None =>
        let item := mkItem newId (ep_type params) (ep_priority params ?? DEFAULT_PRIORITY) nowMs
                      (expiryOf (ep_expiresInMs params) nowMs) (ep_payload params) in
        let state := mkState (ws_revision state + 1) (oset (ws_itemsById state) newId item) in
        (Ok (ws_revision state, item, false), oset states nodeId state)
    end.

Definition is_baseline (item : NodePendingWorkItem) : bool := String.eqb (wi_id item) DEFAULT_STATUS_ITEM_ID.

(** What is answered for the sorted items of a node. *)
Definition drain_answer (revision : Z) (explicitItems : list NodePendingWorkItem) (opts : DrainOptions) (nowMs : Z)
    : WorkDrainResult :=
  let maxItems := Z.min MAX_ITEMS (Z.max 1 (do_maxItems opts ?? DEFAULT_MAX_ITEMS)) in
  let items := take (Z.to_nat maxItems) explicitItems in
  let hasExplicitStatus := existsb (λ item, bool_decide (wi_type item = StatusRequest)) explicitItems in
  let includeBaseline := (match do_includeDefaultStatus opts with Some false => false | _ => true end)
                         && negb hasExplicitStatus in
  let items :=
    if includeBaseline && (Z.of_nat (List.length items) <? maxItems)
    then items ++ [makeBaselineStatusItem nowMs] else items in
  let explicitReturnedCount := List.length (List.filter (λ item, negb (is_baseline item)) items) in
  let baselineIncluded := existsb is_baseline items in
  mkDrained revision items
    ((explicitReturnedCount <? List.length explicitItems)%nat || (includeBaseline && negb baselineIncluded)).

Definition drainNodePendingWork (states : States) (nodeId : string) (opts : DrainOptions) (nowMs : Z)
    : WorkDrainResult * States :=
  let normalizedNodeId := trim nodeId in
  if negb (str_truthy normalizedNodeId) then (mkDrained 0 [] false, states)
  else
    match oget states normalizedNodeId with
    | None => (drain_answer 0 [] opts nowMs, states)
    | Some state =>
        let pruned := pruneExpired state nowMs in
        (drain_answer (ws_revision state) (sortedItems pruned) opts nowMs,
         pruneStateIfEmpty states normalizedNodeId pruned)
    end.

(** The loop over the acknowledged ids: the ids that were removed, and the items left. *)
Fixpoint acknowledge_ids (itemIds : list string) (items : omap string NodePendingWorkItem)
    : list string * omap string NodePendingWorkItem :=
  match itemIds with
  | [] => ([], items)
  | itemId :: rest =>
      let trimmedId := trim itemId in
      if negb (str_truthy trimmedId) || String.eqb trimmedId DEFAULT_STATUS_ITEM_ID
      then acknowledge_ids rest items
      else if ohas items trimmedId then
        let '(removed, items) := acknowledge_ids rest (odel items trimmedId) in
        (trimmedId :: removed, items)
      else acknowledge_ids rest items
  end.

Definition acknowledgeNodePendingWork (states : States) (nodeId : string) (itemIds : list string)
    : (Z * list string) * States :=
  let nodeId := trim nodeId in
  if negb (str_truthy nodeId) then ((0, []), states)
  else
    match oget states nodeId with
    | None => ((0, []), states)
    | Some state =>
        let '(removedItemIds, items) := acknowledge_ids itemIds (ws_itemsById state) in
        let revision := match removedItemIds with [] => ws_revision state | _ => ws_revision state + 1 end in
        ((revision, removedItemIds), pruneStateIfEmpty states nodeId (mkState revision items))
    end.

(** ** Histories *)

Inductive Op : Type :=
| EnqueueWork (params : EnqueueParams) (nowMs : Z) (newId : string)
| DrainWork (nodeId : string) (opts : DrainOptions) (nowMs : Z)
| AcknowledgeWork (nodeId : string) (itemIds : list string).

Definition step (states : States) (op : Op) : States :=
  match op with
  | EnqueueWork params nowMs newId => (enqueueNodePendingWork states params nowMs newId).2
  | DrainWork nodeId opts nowMs => (drainNodePendingWork states nodeId opts nowMs).2
  | AcknowledgeWork nodeId itemIds => (acknowledgeNodePendingWork states nodeId itemIds).2
  end.

Definition run (ops : list Op) : States := List.fold_left step ops [].

(** Random ids are not the one of the baseline item. *)
Definition fresh_ids (op : Op) : Prop :=
  match op with EnqueueWork _ _ newId => newId ≠ DEFAULT_STATUS_ITEM_ID | _ => True end.

(** The work that waits for a node at a time. *)
Definition waiting (states : States) (nodeId : string) (nowMs : Z) : list NodePendingWorkItem :=
  match oget states (trim nodeId) with
  | Some state => List.filter (λ item, negb (expired nowMs item)) (ovalues (ws_itemsById state))
  | None => []
  end.

(** ** The invariant of a state *)

Definition types_of (items : omap string NodePendingWorkItem) : list NodePendingWorkType :=
  List.map (λ e, wi_type e.2) items.

(** Keys are ids, none is the baseline's, and no two items have the same type. *)
Definition items_ok (items : omap string NodePendingWorkItem) : Prop :=
  NoDup (types_of items) ∧ Forall (λ e, wi_id e.2 = e.1 ∧ wi_id e.2 ≠ DEFAULT_STATUS_ITEM_ID) items.

Definition states_ok (states : States) : Prop :=
  ∀ nodeId state, oget states nodeId = Some state → items_ok (ws_itemsById state).

Lemma items_ok_filter f items : items_ok items → items_ok (List.filter f items).
Proof.
  intros [Hn Hf]. split.
  - clear Hf. unfold types_of in *. induction items as [|e items IH]; simpl in *; [done|].
    apply NoDup_cons in Hn as [He Hn]. destruct (f e); simpl; [|by apply IH].
    apply NoDup_cons. split; [|by apply IH]. intros Hin. apply He.
    rewrite list_elem_of_In in Hin |- *. apply in_map_iff in Hin as (x & Hx & Hxin).
    apply List.filter_In in Hxin as [? _]. apply in_map_iff. eauto.
  - rewrite Forall_forall in Hf |- *. intros x Hx. apply filter_elem in Hx as [_ Hx]. by apply Hf.
Qed.

Lemma types_of_oset items id item t :
  t ∈ types_of (oset items id item) → t = wi_type item ∨ t ∈ types_of items.
Proof.
  unfold types_of. induction items as [|[k v] items IH]; simpl.
  - rewrite !elem_of_cons. tauto.
  - case_decide; simpl; rewrite !elem_of_cons; [tauto|]. intros [?|?]; [tauto|]. destruct (IH ltac:(done)); tauto.
Qed.

Lemma items_ok_set items item :
  items_ok items → wi_id item ≠ DEFAULT_STATUS_ITEM_ID → wi_type item ∉ types_of items →
  items_ok (oset items (wi_id item) item).
Proof.
  intros [Hn Hf] Hb. induction items as [|[k v] items IH]; intros Ht.
  - split; [apply NoDup_singleton|]. by constructor.
  - unfold types_of in Hn, Ht. simpl in Hn, Ht.
    apply NoDup_cons in Hn as [Hv Hn]. apply Forall_cons in Hf as [Hk Hf].
    rewrite elem_of_cons in Ht. simpl. case_decide as Hd.
    + split; [|by constructor]. apply NoDup_cons. split; [tauto|done].
    + destruct (IH Hn Hf ltac:(tauto)) as [IHn IHf]. split; [|by constructor].
      apply NoDup_cons. split; [|done]. intros [Heq|?]%types_of_oset; simpl in *; [|by apply Hv].
      apply Ht. by left.
Qed.

Lemma pruneExpired_ok state nowMs : items_ok (ws_itemsById state) → items_ok (ws_itemsById (pruneExpired state nowMs)).
Proof. apply items_ok_filter. Qed.

Lemma acknowledge_ids_ok itemIds items : items_ok items → items_ok (acknowledge_ids itemIds items).2.
Proof.
  revert items. induction itemIds as [|id ids IH]; intros items Hok; simpl; [done|].
  destruct (negb _ || _); [by apply IH|]. destruct (ohas items (trim id)); [|by apply IH].
  specialize (IH (odel items (trim id)) (items_ok_filter _ _ Hok)).
  by destruct (acknowledge_ids ids (odel items (trim id))).
Qed.

Lemma states_ok_set states nodeId state :
  states_ok states → items_ok (ws_itemsById state) → states_ok (oset states nodeId state).
Proof. intros Hs Hi n st. rewrite oget_oset. case_decide; [intros [= <-]; done|apply Hs]. Qed.

Lemma states_ok_pruned states nodeId state :
  states_ok states → items_ok (ws_itemsById state) → states_ok (pruneStateIfEmpty states nodeId state).
Proof.
  intros Hs Hi. unfold pruneStateIfEmpty. destruct (ws_itemsById state) eqn:He.
  - intros n st. rewrite oget_odel. case_decide; [done|apply Hs].
  - apply states_ok_set; [done|by rewrite He].
Qed.

Lemma work_step_ok states op : fresh_ids op → states_ok states → states_ok (step states op).
Proof.
  intros Hfresh Hs. destruct op as [params nowMs newId|nodeId opts nowMs|nodeId itemIds]; simpl in *.
  - unfold enqueueNodePendingWork. destruct (negb _); [done|].
    set (state := pruneExpired _ _).
    assert (items_ok (ws_itemsById state)) as Hst.
    { apply pruneExpired_ok. unfold getOrCreateState. destruct (oget states _) eqn:Hg; [by apply (Hs _ _ Hg)|].
      split; constructor. }
    destruct (List.find _ _) eqn:Hfind; cbn [snd]; apply states_ok_set; try done. cbn [ws_itemsById].
    set (item := mkItem newId _ _ _ _ _). change newId with (wi_id item).
    apply items_ok_set; [done|done|]. cbn [wi_type item]. intros Hin. unfold types_of in Hin. apply list_elem_of_In, in_map_iff in Hin as (e & He & Hin).
    pose proof (List.find_none _ _ Hfind e.2) as Hno. cbv beta in Hno. rewrite bool_decide_true in Hno by done.
    discriminate Hno. unfold ovalues. apply list_elem_of_In, list_elem_of_fmap. exists e. split; [done|by apply list_elem_of_In].
  - unfold drainNodePendingWork. destruct (negb _); [done|].
    destruct (oget states (trim nodeId)) eqn:Hg; [|done]. simpl.
    apply states_ok_pruned; [done|]. apply pruneExpired_ok, (Hs _ _ Hg).
  - unfold acknowledgeNodePendingWork. destruct (negb _); [done|].
    destruct (oget states (trim nodeId)) as [state|] eqn:Hg; [|done].
    pose proof (acknowledge_ids_ok itemIds _ (Hs _ _ Hg)) as Hok.
    destruct (acknowledge_ids itemIds (ws_itemsById state)) as [removed items]. simpl. by apply states_ok_pruned.
Qed.

Lemma run_ok ops : Forall fresh_ids ops → states_ok (run ops).
Proof.
  intros Hf. unfold run. assert (∀ states, states_ok states → states_ok (List.fold_left step ops states)) as Hall.
  { induction Hf as [|op ops Hop Hf IH]; intros states Hs; simpl; [done|]. by apply IH, work_step_ok. }
  apply Hall. by intros n st.
Qed.

(** ** What a drain answers *)

Lemma types_length (items : list NodePendingWorkItem) : NoDup (List.map wi_type items) → (List.length items <= 2)%nat.
Proof.
  intros Hn. rewrite <- (length_map wi_type). destruct (List.map wi_type items) as [|a [|b [|c l]]]; simpl; try lia.
  apply NoDup_cons in Hn as [Ha Hn]. apply NoDup_cons in Hn as [Hb _].
  rewrite !elem_of_cons in *. destruct a, b, c; exfalso; naive_solver.
Qed.

Lemma filter_values (f : NodePendingWorkItem → bool) (items : omap string NodePendingWorkItem) :
  List.map snd (List.filter (λ e, f e.2) items) = List.filter f (List.map snd items).
Proof. induction items as [|e items IH]; simpl; [done|]. destruct (f e.2); simpl; by rewrite IH. Qed.

Lemma waiting_pruned states nodeId state nowMs :
  oget states (trim nodeId) = Some state → waiting states nodeId nowMs = ovalues (ws_itemsById (pruneExpired state nowMs)).
Proof. intros Hg. unfold waiting. rewrite Hg. symmetry. apply (filter_values (λ item, negb (expired nowMs item))). Qed.

Lemma waiting_types states nodeId nowMs : states_ok states → NoDup (List.map wi_type (waiting states nodeId nowMs)).
Proof.
  intros Hs. destruct (oget states (trim nodeId)) as [state|] eqn:Hg.
  - rewrite (waiting_pruned _ _ _ _ Hg). destruct (pruneExpired_ok state nowMs (Hs _ _ Hg)) as [Hn _].
    unfold types_of in Hn. unfold ovalues. change (?l.*2) with (List.map snd l). by rewrite map_map.
  - unfold waiting. rewrite Hg. apply NoDup_nil_2.
Qed.

Lemma waiting_ids states nodeId nowMs item :
  states_ok states → item ∈ waiting states nodeId nowMs → is_baseline item = false.
Proof.
  intros Hs. destruct (oget states (trim nodeId)) as [state|] eqn:Hg; [|unfold waiting; rewrite Hg; by intros ?%elem_of_nil].
  rewrite (waiting_pruned _ _ _ _ Hg). destruct (pruneExpired_ok state nowMs (Hs _ _ Hg)) as [_ Hf].
  unfold ovalues. intros (e & -> & He)%list_elem_of_fmap. rewrite Forall_forall in Hf.
  destruct (Hf _ He) as [_ Hid]. by apply String.eqb_neq.
Qed.

(** The answer of a drain is the answer for the sorted work that waits. *)
Lemma drain_sorted states nodeId opts nowMs :
  trim nodeId ≠ EmptyString →
  ∃ revision, (drainNodePendingWork states nodeId opts nowMs).1 =
    drain_answer revision (toSorted item_le (waiting states nodeId nowMs)) opts nowMs.
Proof.
  intros Hn. unfold drainNodePendingWork.
  assert (str_truthy (trim nodeId) = true) as -> by (by destruct (trim nodeId)). simpl.
  destruct (oget states (trim nodeId)) as [state|] eqn:Hg.
  - exists (ws_revision state). simpl. by rewrite (waiting_pruned _ _ _ _ Hg).
  - exists 0. unfold waiting. by rewrite Hg.
Qed.

(** More urgent work first, and of the same priority the older. *)
Definition before_item (a b : NodePendingWorkItem) : Prop :=
  PRIORITY_RANK (wi_priority b) < PRIORITY_RANK (wi_priority a) ∨
  (PRIORITY_RANK (wi_priority a) = PRIORITY_RANK (wi_priority b) ∧ wi_createdAtMs a <= wi_createdAtMs b).

Lemma sorted_before (items : list NodePendingWorkItem) : StronglySorted before_item (toSorted item_le items).
Proof.
  apply toSorted_sorted.
  - intros a b. unfold item_le, before_item. repeat case_match; bool_hyps; lia.
  - intros a b. unfold item_le, before_item. repeat case_match; bool_hyps; lia.
  - intros a b c. unfold before_item. lia.
Qed.

Definition wants_status (includeStatus : option bool) (work : list NodePendingWorkItem) : bool :=
  negb (bool_decide (includeStatus = Some false))
  && negb (existsb (λ item, bool_decide (wi_type item = StatusRequest)) work).

Lemma drain_answer_all revision work includeStatus nowMs :
  (List.length work <= 2)%nat → Forall (λ item, is_baseline item = false) work →
  drain_answer revision work (mkDrain None includeStatus) nowMs =
    mkDrained revision (work ++ (if wants_status includeStatus work then [makeBaselineStatusItem nowMs] else [])) false.
Proof.
  intros Hlen Hb. unfold drain_answer, wants_status.
  replace (match do_includeDefaultStatus (mkDrain None includeStatus) with Some false => false | _ => true end)
    with (negb (bool_decide (includeStatus = Some false))) by (by destruct includeStatus as [[]|]).
  set (status := negb (bool_decide (includeStatus = Some false)) && _). clearbody status.
  destruct work as [|x [|y [|z work]]]; simpl in Hlen; [| | |lia];
    repeat match goal with H : Forall _ (_ :: _) |- _ => apply Forall_cons in H as [? ?] end;
    destruct status; simpl;
    repeat match goal with H : is_baseline ?x = false |- context [is_baseline ?x] => rewrite H; simpl end; done.
Qed.

(** A node that fetches its work is given all of it, the more urgent and the older
    first, whatever was queued, acknowledged and fetched before: every request that is
    not acknowledged and has not expired, followed by a request for its status unless
    one is among them or the caller wants none; nothing is left for a second call. *)
Lemma nodes_are_given_their_work ops nodeId includeStatus nowMs :
  Forall fresh_ids ops → trim nodeId ≠ EmptyString →
  let work := toSorted item_le (waiting (run ops) nodeId nowMs) in
  let answer := (drainNodePendingWork (run ops) nodeId (mkDrain None includeStatus) nowMs).1 in
  dr_items answer = work ++ (if wants_status includeStatus work then [makeBaselineStatusItem nowMs] else []) ∧
  dr_hasMore answer = false ∧ StronglySorted before_item work ∧ NoDup (List.map wi_type work).
Proof.
  intros Hf Hn. cbv zeta. pose proof (run_ok ops Hf) as Hs. set (states := run ops) in *. clearbody states.
  destruct (drain_sorted states nodeId (mkDrain None includeStatus) nowMs Hn) as [revision ->].
  pose proof (toSorted_perm item_le (waiting states nodeId nowMs)) as Hperm.
  assert (NoDup (List.map wi_type (toSorted item_le (waiting states nodeId nowMs)))) as Htypes.
  { change (List.map wi_type ?l) with (wi_type <$> l). rewrite Hperm. by apply waiting_types. }
  rewrite drain_answer_all; [|by apply types_length|].
  - split_and!; try done. apply sorted_before.
  - apply Forall_forall. intros item Hin. apply toSorted_elem in Hin. by apply (waiting_ids _ _ _ _ Hs Hin).
Qed.

(** An acknowledged request does not come back. *)
Lemma acknowledged_ids_are_gone itemIds items id :
  id ∈ itemIds → trim id ≠ EmptyString → trim id ≠ DEFAULT_STATUS_ITEM_ID →
  oget (acknowledge_ids itemIds items).2 (trim id) = None.
Proof.
  assert (∀ ids items, oget items (trim id) = None → oget (acknowledge_ids ids items).2 (trim id) = None) as Hkeep.
  { clear. intros ids. induction ids as [|i ids IH]; intros items Hi; simpl; [done|].
    destruct (negb _ || _); [by apply IH|]. destruct (ohas items (trim i)); [|by apply IH].
    specialize (IH (odel items (trim i))). destruct (acknowledge_ids ids (odel items (trim i))) as [removed left].
    simpl in *. apply IH. rewrite oget_odel. by case_decide. }
  intros Hin Hne Hb. revert items. induction itemIds as [|i ids IH]; intros items; [by apply elem_of_nil in Hin|].
  simpl. destruct (decide (i = id)) as [->|Hd].
  - assert (str_truthy (trim id) = true) as -> by (by destruct (trim id)).
    apply String.eqb_neq in Hb. rewrite Hb. cbn [negb orb]. unfold ohas.
    destruct (oget items (trim id)) eqn:Hg; [|by apply Hkeep].
    specialize (Hkeep ids (odel items (trim id)) (oget_odel_eq _ _)).
    by destruct (acknowledge_ids ids (odel items (trim id))).
  - apply elem_of_cons in Hin as [?|Hin]; [done|]. specialize (IH Hin).
    destruct (negb _ || _); [apply IH|]. destruct (ohas items (trim i)); [|apply IH].
    specialize (IH (odel items (trim i))). by destruct (acknowledge_ids ids (odel items (trim i))).
Qed.

End work.

(** ** Instances *)

Definition demoCompare (a b : string) : Z :=
  if String.eqb a b then 0 else if String.ltb a b then -1 else 1.

Definition demoEnqueueWork (type : NodePendingWorkType) (expiresInMs : option num) (nowMs : Z) (newId : string)
    : Op (Payload := unit) :=
  EnqueueWork (mkEnqueue " node " type None expiresInMs None) nowMs newId.

(** A request is repeated, another expires and is queued again, one is acknowledged. *)
Definition demoWork : list (Op (Payload := unit)) :=
  [demoEnqueueWork LocationRequest (Some (num_of_Z 50)) 0 "u1";
   demoEnqueueWork StatusRequest None 100 "u2"; demoEnqueueWork StatusRequest None 200 "u3";
   AcknowledgeWork "node" ["u2"; "baseline-status"]; demoEnqueueWork LocationRequest None 1000 "u4"].

Lemma nodes_are_given_their_work_witness :
  List.map wi_id (dr_items (drainNodePendingWork demoCompare (run demoCompare demoWork) "node" (mkDrain None None) 1500).1) =
    ["u4"; "baseline-status"].
Proof.
  destruct (nodes_are_given_their_work demoCompare demoWork "node" None 1500) as [Hitems _];
    [by repeat constructor|done|].
  rewrite Hitems. vm_compute. reflexivity.
Defined.

(** The revision that a drain answers was read before the expired work is removed, and
    it starts again when a node has no work left: a later answer can carry an earlier
    revision. *)
Lemma revisions_start_again :
  let after (ops : list (Op (Payload := unit))) nowMs :=
    dr_revision (drainNodePendingWork demoCompare (run demoCompare ops) "node" (mkDrain None None) nowMs).1 in
  let first := [demoEnqueueWork LocationRequest None 0 "u1"; demoEnqueueWork StatusRequest (Some (num_of_Z 1000)) 0 "u2"] in
  let second := first ++ [AcknowledgeWork "node" ["u1"; "u2"]; demoEnqueueWork LocationRequest None 5 "u3"] in
  after first 10 = 2 ∧ after first 2000 = 2 ∧ after second 2000 = 1.
Proof. vm_compute. auto. Qed.

End NodePendingWork.
