(* ===== verification/ConfigPatch.v ===== *)
(** * Patches of the configuration: src/config/merge-patch.ts, io.write-prepare.ts

    A change of the configuration is written as a merge patch: what the program changed
    in the configuration it runs with is applied to the file's own contents. Values are
    those of JSON ([JsValue]); cloning a value is the identity on them. The test
    [key in object] also finds the names that every object inherits; their values are
    functions, which cannot be cloned. The key __proto__, whose assignment does not make
    a property, is outside the model. *)

From Stdlib Require Import Ascii.
From S2P Require Import Prelude JsRegex JsText OMap JsNumber JsValue SessionKey.

#[local] Open Scope stdpp_scope.

Module ConfigPatch.
Import JsNumber JsValue.

(** ** Values *)

(** [isPlainObject], [isRecord] and [isWritePlainObject] on values of JSON. *)
Definition isPlainObject (v : js) : bool := match v with JObj _ => true | _ => false end.

(** [{ ...v }] for an object, otherwise an empty one. *)
Definition entries_of (v : js) : omap string js := match v with JObj m => m | _ => [] end.

(** [isDeepStrictEqual]: the order of the keys of an object does not matter. *)
Fixpoint deep_equal (a b : js) : bool :=
  match a, b with
  | JUndefined, JUndefined | JNull, JNull => true
  | JBool x, JBool y => Bool.eqb x y
  | JNum x, JNum y => x =? y
  | JStr x, JStr y => String.eqb x y
  | JArr l, JArr l' =>
      (fix go (l l' : list js) : bool :=
         match l, l' with
         | [], [] => true
         | x :: r, y :: r' => deep_equal x y && go r r'
         | _, _ => false
         end) l l'
  | JObj m, JObj m' =>
      forallb (λ k, ohas m k) (okeys m') &&
      (fix go (m : list (string * js)) : bool :=
         match m with
         | [] => true
         | (k, x) :: r => match oget m' k with Some y => deep_equal x y | None => false end && go r
         end) m
  | _, _ => false
  end.

(** ** applyMergePatch *)

(** [isObjectWithStringId], with the id. *)
Definition string_id (v : js) : option string :=
  match v with
  | JObj m => match oget m "id" with Some (JStr s) => if str_truthy s then Some s else None | _ => None end
  | _ => None
  end.

(** [merged[i] = x] for an index that is in range. *)
Fixpoint set_index (l : list js) (i : nat) (x : js) : list js :=
  match l, i with
  | [], _ => []
  | _ :: r, O => x :: r
  | y :: r, S i' => y :: set_index r i' x
  end.

(** The position of an id: the last of the base, or where the patch appended it. *)
Fixpoint index_by_id (l : list js) (index : nat) (indexById : omap string nat) : omap string nat :=
  match l with
  | [] => indexById
  | e :: r =>
      index_by_id r (S index) (match string_id e with Some id => oset indexById id index | None => indexById end)
  end.

(** One entry of the patch of an array; [apply] is [applyMergePatch]. *)
Definition merge_array_entry (apply : js → js → js) (acc : list js * omap string nat) (patchEntry : js)
    : list js * omap string nat :=
  let '(merged, indexById) := acc in
  match string_id patchEntry with
  | None => (merged ++ [patchEntry], indexById)
  | Some id =>
      match oget indexById id with
      | None => (merged ++ [patchEntry], oset indexById id (List.length merged))
      | Some i => (set_index merged i (apply (nth i merged JUndefined) patchEntry), indexById)
      end
  end.

Definition mergeObjectArraysById (apply : js → js → js) (base patch : list js) : option (list js) :=
  if forallb (λ e, match string_id e with Some _ => true | None => false end) base
  then Some (List.fold_left (merge_array_entry apply) patch (base, index_by_id base 0 [])).1
  else None.

(** One entry of a patch. *)
Definition patch_entry (apply : js → js → js) (byId : bool) (result : omap string js) (e : string * js)
    : omap string js :=
  let '(key, value) := e in
  if SessionKey.isBlockedObjectKey key then result
  else
    match value with
    | JNull => odel result key
    | JObj _ =>
        let baseValue := oget result key ?? JUndefined in
        oset result key (apply (if isPlainObject baseValue then baseValue else JObj []) value)
    | JArr l =>
        match oget result key with
        | Some (JArr b) =>
            if byId then
              match mergeObjectArraysById apply b l with
              | Some merged => oset result key (JArr merged)
              | None => oset result key value
              end
            else oset result key value
        | _ => oset result key value
        end
    | _ => oset result key value
    end.

Fixpoint applyMergePatch (byId : bool) (base patch : js) {struct patch} : js :=
  match patch with
  | JObj entries => JObj (List.fold_left (patch_entry (applyMergePatch byId) byId) entries (entries_of base))
  | _ => patch
  end.

(** ** createMergePatch *)

(** The names that every object inherits, without __proto__. *)
Definition INHERITED_NAMES : list string :=
  ["constructor"; "hasOwnProperty"; "isPrototypeOf"; "propertyIsEnumerable"; "toLocaleString"; "toString"; "valueOf";
   "__defineGetter__"; "__defineSetter__"; "__lookupGetter__"; "__lookupSetter__"].
Definition inherited (key : string) : bool := set_has INHERITED_NAMES key.

(** What the patch holds for a key of the base; [None] when cloning an inherited
    function throws. *)
Definition base_entry (create : js → js → option js) (target : omap string js) (e : string * js) : option (omap string js) :=
  let '(key, baseValue) := e in
  match oget target key with
  | None => if inherited key then None else Some [(key, JNull)]
  | Some targetValue =>
      if isPlainObject baseValue && isPlainObject targetValue then
        match create baseValue targetValue with
        | Some (JObj []) => Some []
        | Some childPatch => Some [(key, childPatch)]
        | None => None
        end
      else if deep_equal baseValue targetValue then Some []
      else Some [(key, targetValue)]
  end.

(** The keys of the base come first, those that only the target has follow: the value
    that the base inherits under such a key is a function, which equals no value. *)
Fixpoint createMergePatch (base target : js) {struct base} : option js :=
  match base, target with
  | JObj mb, JObj mt =>
      match mapM (base_entry createMergePatch mt) mb with
      | Some changes => Some (JObj (List.concat changes ++ List.filter (λ e, negb (ohas mb e.1)) mt))
      | None => None
      end
  | _, _ => Some target
  end.

Fixpoint projectSourceOntoRuntimeShape (source runtime : js) {struct source} : js :=
  match source, runtime with
  | JObj ms, JObj mr =>
      JObj (flat_map
        (λ e, match e with
              | (key, sourceValue) =>
                  match oget mr key with
                  | Some r => [(key, projectSourceOntoRuntimeShape sourceValue r)]
                  | None => if inherited key then [(key, sourceValue)] else []
                  end
              end) ms)
  | _, _ => source
  end.

Definition resolvePersistCandidateForWrite (runtimeConfig sourceConfig nextConfig : js) : option js :=
  applyMergePatch false (projectSourceOntoRuntimeShape sourceConfig runtimeConfig)
    <$> createMergePatch runtimeConfig nextConfig.

(** ** unsetPathForWrite *)

(** The value that takes the place, or [WRITE_PRUNED_OBJECT]. *)
Inductive written : Type := Pruned | Written (v : js).

Definition isNumericPathSegment (raw : string) : bool := str_truthy raw && str_all is_digit raw.

(** [Number.parseInt(segment, 10)] of digits. *)
Definition segment_index (segment : string) : nat := Z.to_nat (digits 10 0 0 segment).1.1.

(** [next.splice(index, 1)] *)
Definition splice_out (l : list js) (i : nat) : list js := take i l ++ drop (S i) l.

Definition pruned_if_empty (m : omap string js) : written := match m with [] => Pruned | _ => Written (JObj m) end.

(** [None]: nothing changed. *)
Fixpoint unsetPathForWriteAt (value : js) (path : list string) : option written :=
  match path with
  | [] => None
  | segment :: rest =>
      match value with
      | JArr l =>
          if negb (isNumericPathSegment segment) then None
          else
            let index := segment_index segment in
            if (List.length l <=? index)%nat then None
            else
              match rest with
              | [] => Some (Written (JArr (splice_out l index)))
              | _ =>
                  match unsetPathForWriteAt (nth index l JUndefined) rest with
                  | None => None
                  | Some Pruned => Some (Written (JArr (splice_out l index)))
                  | Some (Written v) => Some (Written (JArr (set_index l index v)))
                  end
              end
      | JObj m =>
          if SessionKey.isBlockedObjectKey segment then None
          else
            match oget m segment with
            | None => None
            | Some child =>
                match rest with
                | [] => Some (pruned_if_empty (odel m segment))
                | _ =>
                    match unsetPathForWriteAt child rest with
                    | None => None
                    | Some Pruned => Some (pruned_if_empty (odel m segment))
                    | Some (Written v) => Some (pruned_if_empty (oset m segment v))
                    end
                end
            end
      | _ => None
      end
  end.

(** Whether something changed, and the configuration. *)
Definition unsetPathForWrite (root : js) (path : list string) : bool * js :=
  match unsetPathForWriteAt root path with
  | None => (false, root)
  | Some Pruned => (true, JObj [])
  | Some (Written v) => if isPlainObject v then (true, v) else (false, root)
  end.

(** ** Changed paths and references to the environment *)

Definition item_path (path : string) (index : nat) : string := path +:+ "[" +:+ pretty index +:+ "]".

Definition key_path (path key : string) : string := if str_truthy path then path +:+ "." +:+ key else key.

(** The paths that [collectChangedPaths] adds to its output. *)
Fixpoint collectChangedPaths (base target : js) (path : string) {struct base} : list string :=
  match base, target with
  | JArr l, JArr l' =>
      (fix go (l l' : list js) (index : nat) : list string :=
         match l, l' with
         | [], _ => List.map (item_path path) (seq index (List.length l'))
         | _, [] => List.map (item_path path) (seq index (List.length l))
         | x :: r, y :: r' => collectChangedPaths x y (item_path path index) ++ go r r' (S index)
         end) l l' 0%nat
  | JObj mb, JObj mt =>
      flat_map
        (λ e, match e with
              | (key, x) =>
                  match oget mt key with
                  | None => [key_path path key]
                  | Some y => collectChangedPaths x y (key_path path key)
                  end
              end) mb
      ++ List.map (λ e, key_path path e.1) (List.filter (λ e, negb (ohas mb e.1)) mt)
  | _, _ => if deep_equal base target then [] else [path]
  end.

Definition parentPath (value : string) : string :=
  if negb (str_truthy value) then EmptyString
  else if ends_with_char value "]" then
    let index := lastIndexOfChar "[" value (len value) in
    if 0 <? index then slice value 0 index else EmptyString
  else
    let index := lastIndexOfChar "." value (len value) in
    if 0 <=? index then slice value 0 index else EmptyString.

(** The loop over the paths above; each is shorter. *)
Fixpoint ancestor_changed (fuel : nat) (current : string) (changedPaths : list string) : bool :=
  match fuel with
  | O => set_has changedPaths EmptyString
  | S fuel' =>
      if str_truthy current
      then set_has changedPaths current || ancestor_changed fuel' (parentPath current) changedPaths
      else set_has changedPaths EmptyString
  end.

Definition isPathChanged (path : string) (changedPaths : list string) : bool :=
  set_has changedPaths path || ancestor_changed (String.length path) (parentPath path) changedPaths.

(** The flag [changed] of the code only avoids a copy of an unchanged value. *)
Fixpoint restoreEnvRefsFromMap (value : js) (path : string) (envRefMap : omap string string)
    (changedPaths : list string) {struct value} : js :=
  match value with
  | JStr s =>
      if isPathChanged path changedPaths then value
      else match oget envRefMap path with Some original => JStr original | None => value end
  | JArr l =>
      JArr ((fix go (l : list js) (index : nat) : list js :=
               match l with
               | [] => []
               | x :: r => restoreEnvRefsFromMap x (item_path path index) envRefMap changedPaths :: go r (S index)
               end) l 0%nat)
  | JObj m =>
      JObj (List.map
        (λ e, match e with
              | (key, child) => (key, restoreEnvRefsFromMap child (key_path path key) envRefMap changedPaths)
              end) m)
  | _ => value
  end.

Definition resolveWriteEnvSnapshotForPath {A} (actualConfigPath : string) (expectedConfigPath : option string)
    (envSnapshotForRestore : option A) : option A :=
  match expectedConfigPath with
  | None => envSnapshotForRestore
  | Some p => if String.eqb p actualConfigPath then envSnapshotForRestore else None
  end.

(** ** Values that are the same whatever the order of their keys *)

#[warnings="-register-all"]
Inductive same : js → js → Prop :=
| same_leaf v : (match v with JArr _ | JObj _ => False | _ => True end) → same v v
| same_arr l l' : Forall2 same l l' → same (JArr l) (JArr l')
| same_obj m m' :
    (∀ k v, oget m k = Some v → ∃ v', oget m' k = Some v' ∧ same v v') →
    (∀ k, oget m k = None → oget m' k = None) → same (JObj m) (JObj m').

(** Induction on values, through arrays and objects. *)
Fixpoint js_values_ind (P : js → Prop)
    (Hleaf : ∀ v, (match v with JArr _ | JObj _ => False | _ => True end) → P v)
    (Harr : ∀ l, Forall P l → P (JArr l))
    (Hobj : ∀ m, Forall (λ e, P e.2) m → P (JObj m)) (v : js) : P v :=
  match v with
  | JArr l =>
      Harr l ((fix go (l : list js) : Forall P l :=
                 match l with
                 | [] => Forall_nil_2 P
                 | x :: r => Forall_cons_2 P x r (js_values_ind P Hleaf Harr Hobj x) (go r)
                 end) l)
  | JObj m =>
      Hobj m ((fix go (m : list (string * js)) : Forall (λ e, P e.2) m :=
                 match m with
                 | [] => Forall_nil_2 _
                 | (k, x) :: r => Forall_cons_2 (λ e, P e.2) (k, x) r (js_values_ind P Hleaf Harr Hobj x) (go r)
                 end) m)
  | v => Hleaf v I
  end.

Lemma same_refl v : same v v.
Proof.
  induction v as [v Hv|l IH|m IH] using js_values_ind.
  - by constructor.
  - apply same_arr. by induction IH; constructor.
  - apply same_obj; [|done]. intros k v Hk. exists v. split; [done|]. exact (oget_Forall _ _ _ _ IH Hk).
Qed.

Lemma deep_equal_same a b : deep_equal a b = true → same a b.
Proof.
  revert b. induction a as [v Hv|l IH|m IH] using js_values_ind; intros b.
  - destruct v, b; simpl; try done; intros He;
      first [apply Bool.eqb_prop in He|apply Z.eqb_eq in He|apply String.eqb_eq in He|clear He]; subst; by constructor.
  - destruct b as [| | | | |l'|]; try done. intros He. apply same_arr. revert l' He.
    induction IH as [|x l Hx _ IHl]; intros [|y l']; simpl; try done.
    intros [He Hr]%andb_true_iff. constructor; [by apply Hx|by apply IHl].
  - destruct b as [| | | | | |m']; try done. cbn [deep_equal]. intros [Hkeys He]%andb_true_iff. apply same_obj.
    + clear Hkeys. revert He. induction IH as [|[k0 x] m Hx _ IHm]; simpl; [done|].
      intros [He Hr]%andb_true_iff k v. case_decide as Hk.
      * intros [= ->]. subst k. destruct (oget m' k0) as [y|]; [|done]. exists y. split; [done|by apply Hx].
      * by apply IHm.
    + intros k Hk. destruct (oget m' k) eqn:Hk'; [|done]. apply oget_key in Hk'.
      rewrite forallb_forall in Hkeys. apply Hkeys in Hk'. unfold ohas in Hk'. by rewrite Hk in Hk'.
Qed.

(** ** The patch when nothing throws *)

Definition pure_entry (create : js → js → js) (target : omap string js) (e : string * js) : omap string js :=
  let '(key, baseValue) := e in
  match oget target key with
  | None => [(key, JNull)]
  | Some targetValue =>
      if isPlainObject baseValue && isPlainObject targetValue then
        match create baseValue targetValue with
        | JObj [] => []
        | childPatch => [(key, childPatch)]
        end
      else if deep_equal baseValue targetValue then []
      else [(key, targetValue)]
  end.

Fixpoint pure_patch (base target : js) {struct base} : js :=
  match base, target with
  | JObj mb, JObj mt =>
      JObj (flat_map (pure_entry pure_patch mt) mb ++ List.filter (λ e, negb (ohas mb e.1)) mt)
  | _, _ => target
  end.

(** ** The patch, key by key *)

(** What an entry of a patch makes of the value of its key. *)
Definition patched (apply : js → js → js) (baseValue : option js) (value : js) : option js :=
  match value with
  | JNull => None
  | JObj _ =>
      Some (apply (match baseValue with Some (JObj m) => JObj m | _ => JObj [] end) value)
  | _ => Some value
  end.

Lemma patch_entry_lookup apply result key value k :
  oget (patch_entry apply false result (key, value)) k =
    if decide (k = key) then (if SessionKey.isBlockedObjectKey key then oget result k else patched apply (oget result k) value)
    else oget result k.
Proof.
  unfold patch_entry, patched. destruct (SessionKey.isBlockedObjectKey key); [by case_decide|].
  assert (∀ x, oget (oset result key x) k = if decide (k = key) then Some x else oget result k) as Hset.
  { intros x. case_decide as Hk; [subst; by rewrite oget_oset_eq|]. by rewrite oget_oset_ne by done. }
  destruct value; rewrite ?Hset; try done.
  - case_decide as Hk; [subst; by rewrite oget_odel_eq|]. by rewrite oget_odel_ne by done.
  - destruct (oget result key) as [[]|]; by rewrite Hset.
  - case_decide as Hk; [|done]. subst. by destruct (oget result key) as [[]|].
Qed.

(** The value of a key after a patch with distinct keys. *)
Lemma patch_lookup apply entries result k :
  owf entries →
  oget (List.fold_left (patch_entry apply false) entries result) k =
    match oget entries k with
    | None => oget result k
    | Some value => if SessionKey.isBlockedObjectKey k then oget result k else patched apply (oget result k) value
    end.
Proof.
  revert result. induction entries as [|[key value] entries IH]; intros result Hwf; [done|].
  cbn [List.fold_left]. rewrite (IH _ (owf_tail _ _ Hwf)), patch_entry_lookup. cbn [oget].
  assert (oget entries key = None) as Hkey.
  { apply oget_None. apply NoDup_cons in Hwf as [Hk _]. by rewrite <- list_elem_of_In. }
  case_decide as Hk; [subst k; by rewrite Hkey|done].
Qed.

(** ** Patches reach what they were computed from *)

(** Objects have distinct keys that are not blocked; without [nulls], no property is
    [null]. Arrays are replaced as a whole, so that nothing is asked of what they hold. *)
#[warnings="-register-all"]
Inductive clean (nulls : bool) : js → Prop :=
| clean_other v : isPlainObject v = false → clean nulls v
| clean_obj m :
    owf m → Forall (λ e, SessionKey.isBlockedObjectKey e.1 = false) m →
    Forall (λ e, nulls = false → e.2 ≠ JNull) m → Forall (λ e, clean nulls e.2) m → clean nulls (JObj m).

Lemma clean_obj_inv nulls m k v :
  clean nulls (JObj m) → oget m k = Some v →
  SessionKey.isBlockedObjectKey k = false ∧ (nulls = false → v ≠ JNull) ∧ clean nulls v.
Proof.
  inversion 1 as [? Hv|? _ H1 H2 H3]; subst; [done|]. intros Hk.
  split_and!; [exact (oget_Forall _ _ _ _ H1 Hk)|exact (oget_Forall _ _ _ _ H2 Hk)|exact (oget_Forall _ _ _ _ H3 Hk)].
Qed.

Lemma clean_owf nulls m : clean nulls (JObj m) → owf m.
Proof. by inversion 1. Qed.

(** The test of clean values. *)
Fixpoint cleanb (nulls : bool) (v : js) : bool :=
  match v with
  | JObj m =>
      bool_decide (NoDup (okeys m)) &&
      forallb (λ e, match e with
                    | (k, x) =>
                        negb (SessionKey.isBlockedObjectKey k) && (nulls || match x with JNull => false | _ => true end)
                        && cleanb nulls x
                    end) m
  | _ => true
  end.

Lemma clean_check nulls v : cleanb nulls v = true → clean nulls v.
Proof.
  induction v as [v Hv|l _|m IH] using js_values_ind; [intros _; apply clean_other; by destruct v|intros _; by apply clean_other|].
  cbn [cleanb]. intros [Hwf%bool_decide_eq_true Hall]%andb_true_iff. rewrite forallb_forall in Hall.
  apply clean_obj; [done| | |]; apply Forall_forall; intros [k x] Hin;
    (specialize (Hall (k, x) (proj1 (list_elem_of_In _ _) Hin)); simpl in Hall; bool_hyps; simpl);
    [done| |by apply (proj1 (Forall_forall _ _) IH (k, x) Hin)].
  intros -> ->. done.
Qed.

(** A clean value is rebuilt from nothing by the patch that it is. *)
Lemma patch_onto_nothing t base :
  clean false t → entries_of base = [] → same (applyMergePatch false base t) t.
Proof.
  revert base. induction t as [v Hv|l _|m IH] using js_values_ind; intros base Hc Hb.
  - by destruct v; simpl; try apply same_refl.
  - apply same_refl.
  - cbn [applyMergePatch]. rewrite Hb. pose proof (clean_owf _ _ Hc) as Hwf.
    assert (∀ k v, oget m k = Some v → ∃ v', patched (applyMergePatch false) None v = Some v' ∧ same v' v) as Hk.
    { intros k v Hk. destruct (clean_obj_inv _ _ _ _ Hc Hk) as (_ & Hn & Hcv).
      pose proof (oget_Forall _ _ _ _ IH Hk (JObj []) Hcv eq_refl) as Hsame. cbn [snd] in Hsame.
      destruct v; try (eexists; split; [done|apply same_refl]); [by destruct (Hn eq_refl)|]. eexists. split; [done|exact Hsame]. }
    apply same_obj; intros k; rewrite patch_lookup by done; simpl.
    + intros v. destruct (oget m k) as [w|] eqn:Hm; [|done].
      destruct (clean_obj_inv _ _ _ _ Hc Hm) as (-> & _ & _). destruct (Hk _ _ Hm) as (v' & -> & Hs).
      intros [= <-]. by exists w.
    + destruct (oget m k) as [w|] eqn:Hm; [|done].
      destruct (clean_obj_inv _ _ _ _ Hc Hm) as (-> & _ & _). by destruct (Hk _ _ Hm) as (v' & -> & _).
Qed.

Lemma oget_app (a b : omap string js) k :
  oget (a ++ b) k = match oget a k with Some v => Some v | None => oget b k end.
Proof. induction a as [|[k' v] a IH]; simpl; [done|]. by case_decide. Qed.

(** The value of a key in the patch. *)
Definition patch_value (create : js → js → js) (mb mt : omap string js) (k : string) : option js :=
  match oget mb k, oget mt k with
  | None, t => t
  | Some _, None => Some JNull
  | Some b, Some t =>
      if isPlainObject b && isPlainObject t then
        match create b t with JObj [] => None | childPatch => Some childPatch end
      else if deep_equal b t then None else Some t
  end.

Lemma pure_entry_keys create mt e : Forall (λ x, x.1 = e.1) (pure_entry create mt e).
Proof.
  destruct e as [k b]. simpl. destruct (oget mt k); [|by repeat constructor].
  destruct (isPlainObject b && _); [|destruct (deep_equal b j); by repeat constructor].
  destruct (create b j) as [| | | | | |[|]]; by repeat constructor.
Qed.

Lemma oget_other_key (l : omap string js) key k : Forall (λ x, x.1 = key) l → k ≠ key → oget l k = None.
Proof. induction 1 as [|[k' v] l Hk _ IH]; simpl in *; intros Hne; [done|]. subst. by rewrite decide_False, IH. Qed.

Lemma base_entries_lookup create mt mb k :
  owf mb →
  oget (flat_map (pure_entry create mt) mb) k = match oget mb k with Some b => oget (pure_entry create mt (k, b)) k | None => None end.
Proof.
  intros Hwf. induction mb as [|[key b] mb IH]; [done|]. cbn [flat_map]. rewrite oget_app, (IH (owf_tail _ _ Hwf)). cbn [oget].
  assert (oget mb key = None) as Hkey.
  { apply oget_None. apply NoDup_cons in Hwf as [Hk _]. by rewrite <- list_elem_of_In. }
  case_decide as Hk; [subst k|].
  - rewrite Hkey. by destruct (oget (pure_entry create mt (key, b)) key).
  - rewrite (oget_other_key _ key k); [done|apply (pure_entry_keys create mt (key, b))|done].
Qed.

Lemma pure_entry_lookup create mt k b :
  oget (pure_entry create mt (k, b)) k =
    match oget mt k with
    | None => Some JNull
    | Some t =>
        if isPlainObject b && isPlainObject t then
          match create b t with JObj [] => None | childPatch => Some childPatch end
        else if deep_equal b t then None else Some t
    end.
Proof.
  simpl. destruct (oget mt k) as [t|]; simpl; [|by rewrite decide_True].
  destruct (isPlainObject b && isPlainObject t); [|destruct (deep_equal b t); simpl; by rewrite ?decide_True].
  destruct (create b t) as [| | | | | |[|]]; simpl; by rewrite ?decide_True.
Qed.

Lemma patch_value_lookup create mb mt k :
  owf mb → owf mt →
  oget (flat_map (pure_entry create mt) mb ++ List.filter (λ e, negb (ohas mb e.1)) mt) k = patch_value create mb mt k.
Proof.
  intros Hb Ht. rewrite oget_app, base_entries_lookup, oget_filter by done. unfold patch_value, ohas. cbn [fst].
  destruct (oget mb k) as [b|].
  - rewrite pure_entry_lookup. cbn [negb]. destruct (oget mt k) as [t|]; [|done].
    by destruct (if isPlainObject b && isPlainObject t then _ else _).
  - by destruct (oget mt k).
Qed.

Lemma base_entries_keys create mt mb k : k ∈ okeys (flat_map (pure_entry create mt) mb) → k ∈ okeys mb.
Proof.
  unfold okeys. induction mb as [|e mb IH]; [done|]. cbn [flat_map]. rewrite fmap_app, elem_of_app.
  intros [Hk|Hk]; [|by apply list_elem_of_further, IH].
  apply list_elem_of_fmap in Hk as (x & -> & Hx). pose proof (pure_entry_keys create mt e) as Hf.
  rewrite Forall_forall in Hf. rewrite (Hf _ Hx). by left.
Qed.

Lemma patch_owf create mb mt :
  owf mb → owf mt → owf (flat_map (pure_entry create mt) mb ++ List.filter (λ e, negb (ohas mb e.1)) mt).
Proof.
  intros Hb Ht. unfold owf, okeys. rewrite fmap_app. apply NoDup_app. split_and!.
  - induction mb as [|[key b] mb IH]; [apply NoDup_nil_2|]. cbn [flat_map]. rewrite fmap_app.
    pose proof (owf_tail _ _ Hb) as Hb'. apply NoDup_cons in Hb as [Hkey _]. apply NoDup_app. split_and!.
    + simpl. destruct (oget mt key) as [t|]; [|apply NoDup_singleton].
      destruct (isPlainObject b && _); [destruct (create b t) as [| | | | | |[|]]|destruct (deep_equal b t)];
        try apply NoDup_singleton; apply NoDup_nil_2.
    + intros k (x & -> & Hx)%list_elem_of_fmap Hin. pose proof (pure_entry_keys create mt (key, b)) as Hf.
      rewrite Forall_forall in Hf. rewrite (Hf _ Hx) in Hin. by apply Hkey, (base_entries_keys create mt).
    + by apply IH.
  - intros k Hk (x & -> & Hx)%list_elem_of_fmap. apply filter_elem in Hx as [Hx _].
    apply base_entries_keys, list_elem_of_In in Hk. unfold ohas in Hx.
    destruct (oget mb x.1) eqn:Hm; [done|]. by apply oget_None in Hm.
  - by apply owf_filter.
Qed.

Lemma pure_patch_obj mb mt :
  pure_patch (JObj mb) (JObj mt) =
    JObj (flat_map (pure_entry pure_patch mt) mb ++ List.filter (λ e, negb (ohas mb e.1)) mt).
Proof. done. Qed.

(** A value that is not [null] is reached from the value of its key, or from none. *)
Lemma new_value_reaches t (b : option js) :
  clean false t → t ≠ JNull → match b with Some b => isPlainObject b && isPlainObject t = false | None => True end →
  ∃ v, patched (applyMergePatch false) b t = Some v ∧ same v t.
Proof.
  intros Hc Hn Hb. destruct t as [| | | | | |m]; try done; eexists; (split; [reflexivity|]); try apply same_refl.
  apply patch_onto_nothing; [done|]. by destruct b as [[]|].
Qed.

Lemma changed_value_reaches b t :
  clean false t → t ≠ JNull → same (applyMergePatch false b (pure_patch b t)) t →
  ∃ v,
    match (if isPlainObject b && isPlainObject t then
             match pure_patch b t with JObj [] => None | childPatch => Some childPatch end
           else if deep_equal b t then None else Some t) with
    | None => Some b
    | Some value => patched (applyMergePatch false) (Some b) value
    end = Some v ∧ same v t.
Proof.
  intros Hc Hn Hsame. destruct (isPlainObject b && isPlainObject t) eqn:Ho.
  - apply andb_true_iff in Ho as [Hob Hot]. destruct b as [| | | | | |mb]; try done. destruct t as [| | | | | |mt]; try done.
    rewrite pure_patch_obj in *. set (p := _ ++ _) in *. clearbody p.
    destruct p as [|e p]; [by eexists|]. by eexists.
  - destruct (deep_equal b t) eqn:Hd; [exists b; split; [done|by apply deep_equal_same]|].
    by apply new_value_reaches.
Qed.

Lemma patch_reaches_objects mb mt :
  Forall (λ e, ∀ t, clean true e.2 → clean false t → same (applyMergePatch false e.2 (pure_patch e.2 t)) t) mb →
  clean true (JObj mb) → clean false (JObj mt) →
  same (applyMergePatch false (JObj mb) (pure_patch (JObj mb) (JObj mt))) (JObj mt).
Proof.
  intros IH Hb Ht.
  rewrite pure_patch_obj. cbn [applyMergePatch entries_of].
  pose proof (clean_owf _ _ Hb) as Hwb. pose proof (clean_owf _ _ Ht) as Hwt.
  assert (∀ k, oget (List.fold_left (patch_entry (applyMergePatch false) false)
      (flat_map (pure_entry pure_patch mt) mb ++ List.filter (λ e, negb (ohas mb e.1)) mt) mb) k =
    match patch_value pure_patch mb mt k with
    | None => oget mb k
    | Some value => if SessionKey.isBlockedObjectKey k then oget mb k else patched (applyMergePatch false) (oget mb k) value
    end) as Hlookup by (intros k; rewrite patch_lookup, patch_value_lookup by (done || by apply patch_owf); done).
  assert (∀ k t, oget mt k = Some t → ∃ v,
    match patch_value pure_patch mb mt k with
    | None => oget mb k
    | Some value => if SessionKey.isBlockedObjectKey k then oget mb k else patched (applyMergePatch false) (oget mb k) value
    end = Some v ∧ same v t) as Hpresent.
  { intros k t Hk. destruct (clean_obj_inv _ _ _ _ Ht Hk) as (Hblk & Hnull & Hct).
    rewrite Hblk. unfold patch_value. rewrite Hk. destruct (oget mb k) as [b|] eqn:Hbk.
    - destruct (clean_obj_inv _ _ _ _ Hb Hbk) as (_ & _ & Hcb).
      pose proof (oget_Forall _ _ _ _ IH Hbk t Hcb Hct) as Hsame. cbn [snd] in Hsame.
      exact (changed_value_reaches b t Hct (Hnull eq_refl) Hsame).
    - exact (new_value_reaches t None Hct (Hnull eq_refl) I). }
  apply same_obj; intros k; rewrite Hlookup.
  - intros v Hv. destruct (oget mt k) as [t|] eqn:Hk.
    + destruct (Hpresent _ _ Hk) as (v' & Hv' & Hs). rewrite Hv in Hv'. injection Hv' as <-. by exists t.
    + unfold patch_value in Hv. rewrite Hk in Hv. destruct (oget mb k) as [b|] eqn:Hbk; [|done].
      destruct (clean_obj_inv _ _ _ _ Hb Hbk) as (Hblk & _). by rewrite Hblk in Hv.
  - intros Hv. destruct (oget mt k) as [t|] eqn:Hk; [|done].
    destruct (Hpresent _ _ Hk) as (v' & Hv' & _). by rewrite Hv in Hv'.
Qed.

Lemma patch_reaches base target :
  clean true base → clean false target → same (applyMergePatch false base (pure_patch base target)) target.
Proof.
  revert target. induction base as [v Hleaf|l _|mb IH] using js_values_ind; intros target Hb Ht.
  - assert (pure_patch v target = target) as -> by (by destruct v).
    destruct target; try apply same_refl. apply patch_onto_nothing; [done|]. by destruct v.
  - by destruct target; try apply same_refl; apply patch_onto_nothing.
  - destruct target as [| | | | | |mt]; try apply same_refl. by apply patch_reaches_objects.
Qed.

(** No key, at any depth of objects, is a name that every object inherits. *)
Fixpoint own_names (v : js) : bool :=
  match v with
  | JObj m => forallb (λ e, match e with (k, x) => negb (inherited k) && own_names x end) m
  | _ => true
  end.

Lemma createMergePatch_pure base target :
  own_names base = true → createMergePatch base target = Some (pure_patch base target).
Proof.
  revert target. induction base as [v Hv|l _|mb IH] using js_values_ind; intros target Ho.
  - by destruct v, target.
  - by destruct target.
  - destruct target as [| | | | | |mt]; try done. cbn [createMergePatch].
    assert (mapM (base_entry createMergePatch mt) mb = Some (map (pure_entry pure_patch mt) mb)) as ->.
    { cbn [own_names] in Ho. induction IH as [|[k b] mb Hb _ IHmb]; [done|]. cbn [forallb] in Ho.
      apply andb_true_iff in Ho as [[Hk%negb_true_iff Hob]%andb_true_iff Ho]. cbn [mapM map]. rewrite (IHmb Ho).
      assert (base_entry createMergePatch mt (k, b) = Some (pure_entry pure_patch mt (k, b))) as ->; [|done].
      simpl. rewrite Hk. destruct (oget mt k) as [t|]; [|done].
      pose proof (Hb t Hob) as Hbt. cbn [snd] in Hbt. rewrite Hbt.
      destruct (isPlainObject b && isPlainObject t); [|by destruct (deep_equal b t)].
      by destruct (pure_patch b t) as [| | | | | |[|]]. }
    cbn [pure_patch]. by rewrite flat_map_concat_map.
Qed.

(** C16. The patch between two configurations leads from the first to the second: when
    no key is blocked, no key of the base is a name that every object inherits
    ([inherited_names_cannot_be_removed]) and the target has no [null] property
    ([null_settings_are_lost]), the patch can be computed, and applied to the base it
    gives the target, up to the order of keys and at any depth of objects. *)
Theorem merge_patches_reach_their_target base target :
  clean true base → own_names base = true → clean false target →
  ∃ patch, createMergePatch base target = Some patch ∧ same (applyMergePatch false base patch) target.
Proof.
  intros Hb Ho Ht. exists (pure_patch base target). split; [by apply createMergePatch_pure|by apply patch_reaches].
Qed.

Definition demoBase : js :=
  JObj [("agents", JObj [("list", JArr [JStr "a"]); ("mode", JStr "on"); ("old", JNum 1)]); ("port", JNum 1);
        ("gone", JNull)].
Definition demoTarget : js :=
  JObj [("agents", JObj [("mode", JStr "off"); ("list", JArr [JStr "a"])]); ("port", JObj [("http", JNum 80)])].

Lemma merge_patches_reach_their_target_witness :
  ∃ patch, createMergePatch demoBase demoTarget = Some patch ∧
    patch = JObj [("agents", JObj [("mode", JStr "off"); ("old", JNull)]); ("port", JObj [("http", JNum 80)]); ("gone", JNull)] ∧
    same (applyMergePatch false demoBase patch) demoTarget.
Proof.
  destruct (merge_patches_reach_their_target demoBase demoTarget) as (patch & E & Hs).
  - by apply clean_check.
  - reflexivity.
  - by apply clean_check.
  - exists patch. split; [exact E|]. split; [|exact Hs]. vm_compute in E. injection E as <-. reflexivity.
Defined.

(** The value inherited under the name of a removed key is a function, and cloning it
    throws: nothing is written. *)
Lemma inherited_names_cannot_be_removed :
  createMergePatch (JObj [("groups", JObj [("toString", JNum 1)])]) (JObj [("groups", JObj [])]) = None ∧
  createMergePatch (JObj [("groups", JObj [("team", JNum 1)])]) (JObj [("groups", JObj [])]) =
    Some (JObj [("groups", JObj [("team", JNull)])]).
Proof. split; reflexivity. Qed.

(** A [null] of the target is not written: the patch that sets it removes the key. *)
Lemma null_settings_are_lost :
  applyMergePatch false (JObj []) <$> createMergePatch (JObj []) (JObj [("a", JNull)]) = Some (JObj []).
Proof. reflexivity. Qed.

(** What the program did not change keeps the value of the file. *)
Lemma untouched_settings_are_kept runtime source next k v :
  owf runtime → owf next → oget runtime k = Some v → oget next k = Some v → isPlainObject v = false →
  deep_equal v v = true → own_names (JObj runtime) = true →
  ∀ projected, projectSourceOntoRuntimeShape (JObj source) (JObj runtime) = JObj projected →
  ∃ result, resolvePersistCandidateForWrite (JObj runtime) (JObj source) (JObj next) = Some result ∧
    prop result k = oget projected k ?? JUndefined.
Proof.
  intros Hr Hn Hrk Hnk Hv Hd Ho projected Hp. unfold resolvePersistCandidateForWrite.
  rewrite Hp, createMergePatch_pure by done. eexists. split; [reflexivity|]. rewrite pure_patch_obj.
  cbn [applyMergePatch entries_of prop]. rewrite patch_lookup, patch_value_lookup by (done || by apply patch_owf).
  unfold patch_value. by rewrite Hrk, Hnk, Hv, Hd.
Qed.

(** ** Removed paths *)

(** The value at a path of keys. *)
Fixpoint value_at (v : js) (path : list string) : option js :=
  match path with
  | [] => Some v
  | k :: rest => match v with JObj m => match oget m k with Some x => value_at x rest | None => None end | _ => None end
  end.

Definition written_value (r : written) : js := match r with Pruned => JObj [] | Written v => v end.

Lemma pruned_value m : written_value (pruned_if_empty m) = JObj m.
Proof. by destruct m. Qed.

Lemma unset_at_removes v path r :
  unsetPathForWriteAt v path = Some r → value_at (written_value r) path = None.
Proof.
  revert v r. induction path as [|k rest IH]; intros v r; [done|].
  destruct v as [| | | | |l|m]; try done; cbn [unsetPathForWriteAt].
  - intros Hr. repeat case_match; simplify_eq; done.
  - destruct (SessionKey.isBlockedObjectKey k); [done|]. destruct (oget m k) as [child|] eqn:Hk; [|done].
    destruct rest as [|k' rest].
    + intros [= <-]. rewrite pruned_value. cbn [value_at]. by rewrite oget_odel_eq.
    + destruct (unsetPathForWriteAt child (k' :: rest)) as [[|w]|] eqn:Hu; [| |done]; intros [= <-];
        rewrite pruned_value; cbn [value_at]; [by rewrite oget_odel_eq|].
      rewrite oget_oset_eq. exact (IH _ _ Hu).
Qed.

(** A removed path is gone from the configuration, with the objects that its removal
    empties; nothing changes when the path is not there. *)
Lemma unset_path_is_gone root path :
  let '(changed, next) := unsetPathForWrite root path in
  (changed = true → value_at next path = None) ∧ (changed = false → next = root).
Proof.
  unfold unsetPathForWrite. destruct (unsetPathForWriteAt root path) as [[|v]|] eqn:Hu; [| |done].
  - split; [|done]. intros _. exact (unset_at_removes _ _ _ Hu).
  - destruct (isPlainObject v); [|done]. split; [|done]. intros _. exact (unset_at_removes _ _ _ Hu).
Qed.

(** ** References to the environment *)

(** A string at a changed path is written as it is. *)
Lemma changed_strings_are_kept s path envRefMap changedPaths :
  isPathChanged path changedPaths = true → restoreEnvRefsFromMap (JStr s) path envRefMap changedPaths = JStr s.
Proof. intros H. simpl. by rewrite H. Qed.

(** Paths do not tell a key with a dot from two keys: a plain setting is overwritten with
    the reference to the environment that another one had. *)
Lemma dotted_key_takes_another_reference :
  let config := JObj [("a", JObj [("b", JStr "secret")]); ("a.b", JStr "plain")] in
  restoreEnvRefsFromMap config "" [("a.b", "${SECRET}")] [] =
    JObj [("a", JObj [("b", JStr "${SECRET}")]); ("a.b", JStr "${SECRET}")].
Proof. reflexivity. Qed.
End ConfigPatch.
