(* ===== verification/ExecPolicy.v ===== *)
(** * Policies of command execution

    src/infra/exec-approvals.ts (levels of security, when to ask, durable approvals,
    allowed decisions), src/node-host/exec-policy.ts (the decision of a node) and the
    decision functions of src/agents/bash-tools.exec-host-shared.ts. *)

From S2P Require Import Prelude NodePath CommandResolution.

#[local] Open Scope stdpp_scope.

Module ExecPolicy.
Export CommandResolution.

(** ** Levels *)

Inductive ExecHost : Type := Sandbox | Gateway | NodeHost.
Inductive ExecTarget : Type := Auto | OnHost (host : ExecHost).
Inductive ExecSecurity : Type := Deny | Allowlist | Full.
Inductive ExecAsk : Type := AskOff | AskOnMiss | AskAlways.
Inductive ExecApprovalDecision : Type := AllowOnce | AllowAlways | DenyOnce.

#[export] Instance ExecHost_eq : EqDecision ExecHost := ltac:(solve_decision).
#[export] Instance ExecSecurity_eq : EqDecision ExecSecurity := ltac:(solve_decision).
#[export] Instance ExecAsk_eq : EqDecision ExecAsk := ltac:(solve_decision).
#[export] Instance ExecApprovalDecision_eq : EqDecision ExecApprovalDecision := ltac:(solve_decision).

Definition readHost (s : string) : option ExecHost :=
  if String.eqb s "sandbox" then Some Sandbox
  else if String.eqb s "gateway" then Some Gateway
  else if String.eqb s "node" then Some NodeHost
  else None.

Definition readSecurity (s : string) : option ExecSecurity :=
  if String.eqb s "deny" then Some Deny
  else if String.eqb s "allowlist" then Some Allowlist
  else if String.eqb s "full" then Some Full
  else None.

Definition readAsk (s : string) : option ExecAsk :=
  if String.eqb s "off" then Some AskOff
  else if String.eqb s "on-miss" then Some AskOnMiss
  else if String.eqb s "always" then Some AskAlways
  else None.

Definition readDecision (s : string) : option ExecApprovalDecision :=
  if String.eqb s "allow-once" then Some AllowOnce
  else if String.eqb s "allow-always" then Some AllowAlways
  else if String.eqb s "deny" then Some DenyOnce
  else None.

Definition securityText (s : ExecSecurity) : string :=
  match s with Deny => "deny" | Allowlist => "allowlist" | Full => "full" end.
Definition askText (a : ExecAsk) : string :=
  match a with AskOff => "off" | AskOnMiss => "on-miss" | AskAlways => "always" end.

Definition normalizeExecHost (value : option string) : option ExecHost :=
  StringCoerce.normalizeOptionalLowercaseString value ≫= readHost.

Definition normalizeExecTarget (value : option string) : option ExecTarget :=
  match StringCoerce.normalizeOptionalLowercaseString value with
  | Some "auto" => Some Auto
  | normalized => OnHost <$> normalizeExecHost normalized
  end.

Definition normalizeExecSecurity (value : option string) : option ExecSecurity :=
  StringCoerce.normalizeOptionalLowercaseString value ≫= readSecurity.

Definition normalizeExecAsk (value : option string) : option ExecAsk :=
  StringCoerce.normalizeOptionalLowercaseString value ≫= readAsk.

Definition securityOrder (s : ExecSecurity) : Z := match s with Deny => 0 | Allowlist => 1 | Full => 2 end.
Definition askOrder (a : ExecAsk) : Z := match a with AskOff => 0 | AskOnMiss => 1 | AskAlways => 2 end.

Definition minSecurity (a b : ExecSecurity) : ExecSecurity := if securityOrder a <=? securityOrder b then a else b.
Definition maxAsk (a b : ExecAsk) : ExecAsk := if askOrder a >=? askOrder b then a else b.

(** ** Decisions *)

Definition DEFAULT_EXEC_APPROVAL_DECISIONS : list ExecApprovalDecision := [AllowOnce; AllowAlways; DenyOnce].

Definition resolveExecApprovalAllowedDecisions (ask : option string) : list ExecApprovalDecision :=
  match normalizeExecAsk ask with Some AskAlways => [AllowOnce; DenyOnce] | _ => DEFAULT_EXEC_APPROVAL_DECISIONS end.

Definition resolveExecApprovalRequestAllowedDecisions (ask : option string) (allowedDecisions : option (list string))
    : list ExecApprovalDecision :=
  match omap readDecision (default [] allowedDecisions) with
  | [] => resolveExecApprovalAllowedDecisions ask
  | explicit => explicit
  end.

Definition isExecApprovalDecisionAllowed (decision : ExecApprovalDecision) (ask : option string) : bool :=
  existsb (λ d, bool_decide (d = decision)) (resolveExecApprovalAllowedDecisions ask).

(** ** When to ask *)

Definition requiresExecApproval (ask : ExecAsk) (security : ExecSecurity) (analysisOk allowlistSatisfied durable : bool) : bool :=
  match ask with
  | AskAlways => true
  | _ =>
      if durable then false
      else
        bool_decide (ask = AskOnMiss) && bool_decide (security = Allowlist)
        && (negb analysisOk || negb allowlistSatisfied)
  end.

(** The hash functions of the host; the first sixteen digits are used. *)
Class Crypto := { sha256_hex : string → string }.

Section durable.
Context `{Crypto}.

Definition buildDurableCommandApprovalPattern (commandText : string) : string :=
  "=command:" +:+ str_take 16 (sha256_hex commandText).

Definition exactCommand (command : string) (entry : ExecAllowlistEntry) : bool :=
  ae_allowAlways entry
  && (String.eqb (ae_pattern entry) (buildDurableCommandApprovalPattern command)
      || match ae_commandText entry with Some t => String.eqb (trim t) command | None => false end).

Definition hasExactCommandDurableExecApproval (allowlist : option (list ExecAllowlistEntry)) (commandText : option string) : bool :=
  match truthy (trim <$> commandText) with
  | None => false
  | Some command => existsb (exactCommand command) (default [] allowlist)
  end.

Definition allowedAlways (entry : option ExecAllowlistEntry) : bool :=
  match entry with Some e => ae_allowAlways e | None => false end.

Definition hasSegmentDurableExecApproval (analysisOk : bool) (entries : list (option ExecAllowlistEntry)) : bool :=
  analysisOk && (0 <? length entries)%nat && forallb allowedAlways entries.

Definition hasDurableExecApproval (analysisOk : bool) (entries : list (option ExecAllowlistEntry))
    (allowlist : option (list ExecAllowlistEntry)) (commandText : option string) : bool :=
  hasExactCommandDurableExecApproval allowlist commandText || hasSegmentDurableExecApproval analysisOk entries.

End durable.

(** ** The decision of a node: node-host/exec-policy.ts *)

Inductive SystemRunDenial : Type := DeniedBySecurity | ApprovalRequired | AllowlistMiss.

Record SystemRunPolicyDecision : Type := mkDecision {
  pd_denied : option (SystemRunDenial * string);     (* [None]: allowed *)
  pd_analysisOk : bool;
  pd_allowlistSatisfied : bool;
  pd_shellWrapperBlocked : bool;
  pd_windowsShellWrapperBlocked : bool;
  pd_requiresAsk : bool;
  pd_approvalDecision : option ExecApprovalDecision;
  pd_approvedByAsk : bool;
}.

(** [value] as a string, any other value being none of the two. *)
Definition resolveExecApprovalDecision (value : option string) : option ExecApprovalDecision :=
  match value ≫= readDecision with Some DenyOnce => None | d => d end.

Definition formatSystemRunAllowlistMissMessage (shellWrapperBlocked windowsShellWrapperBlocked : bool) : string :=
  if windowsShellWrapperBlocked then
    "SYSTEM_RUN_DENIED: allowlist miss (Windows shell wrappers like cmd.exe /c require approval; approve once/always or run with --ask on-miss|always)"
  else if shellWrapperBlocked then
    "SYSTEM_RUN_DENIED: allowlist miss (shell wrappers like sh/bash/zsh -c require approval; approve once/always or run with --ask on-miss|always)"
  else "SYSTEM_RUN_DENIED: allowlist miss".

Record SystemRunPolicyParams : Type := mkPolicyParams {
  pp_security : ExecSecurity;
  pp_ask : ExecAsk;
  pp_analysisOk : bool;
  pp_allowlistSatisfied : bool;
  pp_durableApprovalSatisfied : bool;
  pp_approvalDecision : option ExecApprovalDecision;
  pp_approved : bool;
  pp_isWindows : bool;
  pp_cmdInvocation : bool;
  pp_shellWrapperInvocation : bool;
}.

Definition evaluateSystemRunPolicy (p : SystemRunPolicyParams) : SystemRunPolicyDecision :=
  let windowsShellWrapperBlocked :=
    bool_decide (pp_security p = Allowlist) && pp_shellWrapperInvocation p && pp_isWindows p && pp_cmdInvocation p in
  let shellWrapperBlocked := windowsShellWrapperBlocked in
  let analysisOk := if shellWrapperBlocked then false else pp_analysisOk p in
  let allowlistSatisfied := if shellWrapperBlocked then false else pp_allowlistSatisfied p in
  let approvedByAsk := match pp_approvalDecision p with Some _ => true | None => pp_approved p end in
  let result denied requiresAsk :=
    mkDecision denied analysisOk allowlistSatisfied shellWrapperBlocked windowsShellWrapperBlocked requiresAsk
      (pp_approvalDecision p) approvedByAsk in
  if bool_decide (pp_security p = Deny) then
    result (Some (DeniedBySecurity, "SYSTEM_RUN_DISABLED: security=deny")) false
  else
    let requiresAsk :=
      requiresExecApproval (pp_ask p) (pp_security p) analysisOk allowlistSatisfied (pp_durableApprovalSatisfied p) in
    if requiresAsk && negb approvedByAsk then
      result (Some (ApprovalRequired, "SYSTEM_RUN_DENIED: approval required")) requiresAsk
    else if bool_decide (pp_security p = Allowlist) && (negb analysisOk || negb allowlistSatisfied) && negb approvedByAsk then
      if pp_durableApprovalSatisfied p then result None requiresAsk
      else
        result (Some (AllowlistMiss, formatSystemRunAllowlistMissMessage shellWrapperBlocked windowsShellWrapperBlocked))
          requiresAsk
    else result None requiresAsk.

(** ** Decisions on an approval request: bash-tools.exec-host-shared.ts *)

Record ExecApprovalDecisionState : Type := mkDecisionState {
  ds_approvedByAsk : bool;
  ds_deniedReason : option string;
  ds_timedOut : bool;
}.

(** [decision] is the answer, [None] when none came in time. *)
Definition resolveBaseExecApprovalDecision (decision : option string) (askFallback : ExecSecurity) : ExecApprovalDecisionState :=
  if bool_decide (decision = Some "deny") then mkDecisionState false (Some "user-denied") false
  else
    match truthy decision with
    | None =>
        match askFallback with
        | Full => mkDecisionState true None true
        | Deny => mkDecisionState false (Some "approval-timeout") true
        | Allowlist => mkDecisionState false None true
        end
    | Some _ => mkDecisionState false None false
    end.

Definition createExecApprovalDecisionState (decision : option string) (askFallback : ExecSecurity) : ExecApprovalDecisionState :=
  resolveBaseExecApprovalDecision decision askFallback.

Definition enforceStrictInlineEvalApprovalBoundary (timedOut approvedByAsk : bool) (deniedReason : option string)
    (requiresInlineEvalApproval : bool) : bool * option string :=
  if negb timedOut || negb requiresInlineEvalApproval || negb approvedByAsk then (approvedByAsk, deniedReason)
  else (false, Some (default "approval-timeout" deniedReason)).

Inductive ExecApprovalUnavailableReason : Type := NoApprovalRoute | PlatformDisabled | PlatformUnsupported.

#[export] Instance Unavailable_eq : EqDecision ExecApprovalUnavailableReason := ltac:(solve_decision).

Definition isHeadlessExecTrigger (trigger : option string) : bool := bool_decide (trigger = Some "cron").

(** [undefined] is the outer [None], [null] the inner one. *)
Definition shouldResolveExecApprovalUnavailableInline (trigger : option string)
    (unavailableReason : option ExecApprovalUnavailableReason) (preResolvedDecision : option (option string)) : bool :=
  isHeadlessExecTrigger trigger && bool_decide (unavailableReason = Some NoApprovalRoute)
  && bool_decide (preResolvedDecision = Some None).

(** What the surface that asked can do, by infra/exec-approval-surface.ts. *)
Inductive InitiatingSurfaceKind : Type := SurfaceEnabled | SurfaceDisabled | SurfaceUnsupported.

Definition resolveExecApprovalUnavailableState (surface : InitiatingSurfaceKind) (preResolvedDecision : option (option string))
    : option ExecApprovalUnavailableReason :=
  if bool_decide (preResolvedDecision = Some None) then Some NoApprovalRoute
  else match surface with
       | SurfaceDisabled => Some PlatformDisabled
       | SurfaceUnsupported => Some PlatformUnsupported
       | SurfaceEnabled => None
       end.

(** The keys of the failures already logged, the oldest first. *)
Definition MAX_EXEC_APPROVAL_FOLLOWUP_FAILURE_LOG_KEYS : nat := 256.

Definition rememberExecApprovalFollowupFailureKey (key : string) (logged : list string) : bool * list string :=
  if set_has logged key then (false, logged)
  else
    let logged' := logged ++ [key] in
    (true, if (MAX_EXEC_APPROVAL_FOLLOWUP_FAILURE_LOG_KEYS <? length logged')%nat then tail logged' else logged').

(** ** Properties *)

Lemma minSecurity_spec a b :
  securityOrder (minSecurity a b) = securityOrder a `min` securityOrder b.
Proof. by destruct a, b. Qed.

Lemma maxAsk_spec a b : askOrder (maxAsk a b) = askOrder a `max` askOrder b.
Proof. by destruct a, b. Qed.

Definition approvedByAsk (p : SystemRunPolicyParams) : Prop :=
  pp_approvalDecision p ≠ None ∨ pp_approved p = true.

(** The command is on the allowlist, and is not wrapped in [cmd.exe] on Windows. *)
Definition onAllowlist (p : SystemRunPolicyParams) : Prop :=
  pp_analysisOk p = true ∧ pp_allowlistSatisfied p = true
  ∧ (pp_shellWrapperInvocation p && pp_isWindows p && pp_cmdInvocation p) = false.

Lemma approvedByAsk_spec p :
  approvedByAsk p ↔ match pp_approvalDecision p with Some _ => true | None => pp_approved p end = true.
Proof. unfold approvedByAsk. destruct (pp_approvalDecision p); intuition congruence. Qed.

(** A node runs a command ([evaluateSystemRunPolicy]) exactly when its security level
    is not [deny] and either the command was approved, or nobody has to be asked every
    time and the command has a durable approval, or the security level is [full], or the
    command is on the allowlist and not wrapped in [cmd.exe]. *)
Lemma node_runs_what_its_policy_permits p :
  pd_denied (evaluateSystemRunPolicy p) = None ↔
  pp_security p ≠ Deny
  ∧ (approvedByAsk p
     ∨ (pp_ask p ≠ AskAlways
        ∧ (pp_durableApprovalSatisfied p = true ∨ pp_security p = Full ∨ onAllowlist p))).
Proof.
  unfold evaluateSystemRunPolicy, onAllowlist, requiresExecApproval. rewrite approvedByAsk_spec. cbv zeta.
  rewrite <- !andb_assoc. rewrite (andb_assoc (pp_shellWrapperInvocation p)).
  set (wrapped := pp_shellWrapperInvocation p && pp_isWindows p && pp_cmdInvocation p).
  set (approved := match pp_approvalDecision p with Some _ => true | None => pp_approved p end).
  generalize wrapped, approved. clear wrapped approved. intros wrapped approved.
  destruct p as [[] ask ok sat durable dec app win cmd wrap]; cbn; [by split; [|intros [? _]]| |];
    destruct ask, approved, durable, ok, sat, wrapped; cbn; split; intros; try done; intuition congruence.
Qed.

Lemma failure_keys_bounded key logged :
  (length logged <= MAX_EXEC_APPROVAL_FOLLOWUP_FAILURE_LOG_KEYS)%nat → NoDup logged →
  let '(fresh, logged') := rememberExecApprovalFollowupFailureKey key logged in
  (length logged' <= MAX_EXEC_APPROVAL_FOLLOWUP_FAILURE_LOG_KEYS)%nat ∧ NoDup logged'
  ∧ key ∈ logged' ∧ (fresh = true ↔ key ∉ logged).
Proof.
  intros Hlen Hnd. unfold rememberExecApprovalFollowupFailureKey. unfold set_has.
  destruct (existsb (String.eqb key) logged) eqn:E.
  - apply existsb_exists in E as (x & Hx%list_elem_of_In & ->%String.eqb_eq). split_and!; try done.
  - assert (key ∉ logged) as Hn.
    { intros Hin. assert (existsb (String.eqb key) logged = true) as Ht; [|congruence].
      apply existsb_exists. exists key. split; [by apply list_elem_of_In|apply String.eqb_refl]. }
    assert (NoDup (logged ++ [key])) as Hnd' by (apply NoDup_app; split_and!; [done| |apply NoDup_singleton]; set_solver).
    cbv zeta. destruct (_ <? _)%nat eqn:El; [apply Nat.ltb_lt in El|apply Nat.ltb_ge in El].
    + destruct logged as [|x rest]; [cbn in El; unfold MAX_EXEC_APPROVAL_FOLLOWUP_FAILURE_LOG_KEYS in El; lia|].
      cbn [app tail] in *. rewrite length_app in *. cbn [length] in *. apply NoDup_cons in Hnd' as [_ Hnd'].
      split_and!; [lia|done|set_solver|done].
    + split_and!; [done|done|set_solver|done].
Qed.

End ExecPolicy.
