(* ===== verification/ApprovalsFile.v ===== *)
(** * The file of execution approvals

    src/infra/exec-approvals.ts: reading and normalising the file, the policy and the
    allowlist that apply to an agent, and the edits of an agent's allowlist. The file
    comes from JSON: levels are values of any shape, and so are the items of an
    allowlist. Identifiers are drawn from the host's generator; the counter of the
    draws is part of the state. *)

From Stdlib Require Import Ascii.
From S2P Require Import Prelude OMap SessionKey JsValue NodePath CommandResolution ExecPolicy.

#[local] Open Scope stdpp_scope.

Module ApprovalsFile.

Import SessionKey(DEFAULT_AGENT_ID).
Export JsValue ExecPolicy.


(** ** The file *)

Inductive AllowItem : Type :=
| ItemText (s : string)
| ItemEntry (e : ExecAllowlistEntry)      (* an object whose [pattern] is a string *)
| ItemNull                                (* [null] *)
| ItemOther.                              (* anything else, without a string [pattern] *)

Record ExecApprovalsDefaults : Type := mkDefaults {
  d_security : js;
  d_ask : js;
  d_askFallback : js;
  d_autoAllowSkills : option bool;
}.

(** [allowlist] is [None] when it is no array. *)
Record ExecApprovalsAgent : Type := mkAgent {
  ag_policy : ExecApprovalsDefaults;
  ag_allowlist : option (list AllowItem);
}.

Record ExecApprovalsFile : Type := mkFile {
  f_socketPath : option string;
  f_token : option string;
  f_defaults : option ExecApprovalsDefaults;
  f_agents : omap string ExecApprovalsAgent;
}.

Definition noDefaults : ExecApprovalsDefaults := mkDefaults JUndefined JUndefined JUndefined None.
Definition noAgent : ExecApprovalsAgent := mkAgent noDefaults None.
Definition emptyFile : ExecApprovalsFile := mkFile None None None [].

Definition DEFAULT_SECURITY : ExecSecurity := Full.
Definition DEFAULT_ASK : ExecAsk := AskOff.
Definition DEFAULT_EXEC_APPROVAL_ASK_FALLBACK : ExecSecurity := Full.
Definition DEFAULT_AUTO_ALLOW_SKILLS : bool := false.
Definition DEFAULT_SOCKET : string := "~/.openclaw/exec-approvals.sock".
Definition DEFAULT_FILE : string := "~/.openclaw/exec-approvals.json".

(** The generators of the host: identifiers by the number of draws before, tokens, and
    the clock. *)
Class Generators := {
  randomUUID : nat → string;
  randomToken : string;
  date_now : Z;
}.

Section file.
Context `{Host} `{Crypto} `{Generators}.

Definition resolveExecApprovalsPath : string := expandHomePrefix DEFAULT_FILE None.
Definition resolveExecApprovalsSocketPath : string := expandHomePrefix DEFAULT_SOCKET None.

(** ** Normalisation *)

Definition normalizeAllowlistPattern (value : option string) : option string :=
  match truthy (Some (default EmptyString (StringCoerce.normalizeOptionalString value))) with
  | Some trimmed => Some (StringCoerce.normalizeLowercaseStringOrEmpty (Some trimmed))
  | None => None
  end.

Definition argKey (e : ExecAllowlistEntry) : string := default EmptyString (trim <$> ae_argPattern e).

(** [pushEntry], which reads [entry.pattern] of any item; reading it of [null] throws. *)
Definition pushEntry (state : list string * list AllowItem) (item : AllowItem) : option (list string * list AllowItem) :=
  match item with
  | ItemNull => None
  | ItemText _ | ItemOther => Some state
  | ItemEntry e =>
      match truthy (normalizeAllowlistPattern (Some (ae_pattern e))) with
      | None => Some state
      | Some patternKey =>
          let '(seen, allowlist) := state in
          let key := patternKey +:+ nul +:+ argKey e in
          if set_has seen key then Some state else Some (seen ++ [key], allowlist ++ [item])
      end
  end.

(** [for (const entry of entries) pushEntry(entry)] *)
Fixpoint pushEntries (entries : list AllowItem) (state : list string * list AllowItem)
    : option (list string * list AllowItem) :=
  match entries with
  | [] => Some state
  | item :: rest => pushEntry state item ≫= pushEntries rest
  end.

(** [a ?? b] on values of any shape *)
Definition orElse (a b : js) : js := if defined a then a else b.

Definition mergeLegacyAgent (current legacy : ExecApprovalsAgent) : option ExecApprovalsAgent :=
  match pushEntries (default [] (ag_allowlist current)) ([], []) ≫= pushEntries (default [] (ag_allowlist legacy)) with
  | None => None
  | Some (_, allowlist) =>
      let c := ag_policy current in
      let l := ag_policy legacy in
      Some (mkAgent
        (mkDefaults (orElse (d_security c) (d_security l)) (orElse (d_ask c) (d_ask l))
          (orElse (d_askFallback c) (d_askFallback l)) (first_of (d_autoAllowSkills c) (d_autoAllowSkills l)))
        (match allowlist with [] => None | _ => Some allowlist end))
  end.

Definition textEntry (pattern : string) : ExecAllowlistEntry := mkEntry None pattern false None None None None None.

Definition coerceItem (item : AllowItem) : option ExecAllowlistEntry :=
  match item with
  | ItemText s => textEntry <$> nonblank s
  | ItemEntry e => if str_truthy (trim (ae_pattern e)) then Some e else None
  | ItemNull | ItemOther => None
  end.

(** Items that are kept as they are make no change, so the array is returned. *)
Definition coerceAllowlistEntries (allowlist : option (list AllowItem)) : option (list ExecAllowlistEntry) :=
  match allowlist with
  | None => None
  | Some [] => Some []
  | Some items => match base.omap coerceItem items with [] => None | result => Some result end
  end.

Definition with_id (e : ExecAllowlistEntry) (id : option string) : ExecAllowlistEntry :=
  mkEntry id (ae_pattern e) (ae_allowAlways e) (ae_commandText e) (ae_argPattern e) (ae_lastUsedAt e)
    (ae_lastUsedCommand e) (ae_lastResolvedPath e).

Fixpoint withIds (entries : list ExecAllowlistEntry) (draws : nat) : list ExecAllowlistEntry * nat :=
  match entries with
  | [] => ([], draws)
  | e :: rest =>
      match truthy (ae_id e) with
      | Some _ => let (rest', draws') := withIds rest draws in (e :: rest', draws')
      | None => let (rest', draws') := withIds rest (S draws) in (with_id e (Some (randomUUID draws)) :: rest', draws')
      end
  end.

Definition ensureAllowlistIds (allowlist : option (list ExecAllowlistEntry)) (draws : nat)
    : option (list ExecAllowlistEntry) * nat :=
  match allowlist with
  | None => (None, draws)
  | Some entries => let (entries', draws') := withIds entries draws in (Some entries', draws')
  end.

Definition withoutText (e : ExecAllowlistEntry) : ExecAllowlistEntry :=
  mkEntry (ae_id e) (ae_pattern e) (ae_allowAlways e) None (ae_argPattern e) (ae_lastUsedAt e)
    (ae_lastUsedCommand e) (ae_lastResolvedPath e).

Definition stripAllowlistCommandText (allowlist : option (list ExecAllowlistEntry)) : option (list ExecAllowlistEntry) :=
  map withoutText <$> allowlist.

(** A string with one of the known texts, without the blanks around it. *)
Definition sanitizeLevel {A} (read : string → option A) (v : js) : js :=
  match str_value v with
  | Some s => match read (trim s) with Some _ => JStr (trim s) | None => JUndefined end
  | None => JUndefined
  end.

Definition sanitizeExecApprovalPolicy (policy : option ExecApprovalsDefaults) : ExecApprovalsDefaults :=
  let p := default noDefaults policy in
  mkDefaults (sanitizeLevel readSecurity (d_security p)) (sanitizeLevel readAsk (d_ask p))
    (sanitizeLevel readSecurity (d_askFallback p)) (d_autoAllowSkills p).

Definition mergeLegacyDefault (agents : omap string ExecApprovalsAgent) : option (omap string ExecApprovalsAgent) :=
  match oget agents "default" with
  | None => Some agents
  | Some legacyDefault =>
      match oget agents DEFAULT_AGENT_ID with
      | Some main => (λ merged, odel (oset agents DEFAULT_AGENT_ID merged) "default") <$> mergeLegacyAgent main legacyDefault
      | None => Some (odel (oset agents DEFAULT_AGENT_ID legacyDefault) "default")
      end
  end.

Definition normalizeAgent (agent : ExecApprovalsAgent) (draws : nat) : ExecApprovalsAgent * nat :=
  let (entries, draws') := ensureAllowlistIds (coerceAllowlistEntries (ag_allowlist agent)) draws in
  (mkAgent (sanitizeExecApprovalPolicy (Some (ag_policy agent))) (map ItemEntry <$> stripAllowlistCommandText entries), draws').

(** The agents in the order of [Object.entries]. *)
Fixpoint normalizeAgents (agents : omap string ExecApprovalsAgent) (draws : nat) : omap string ExecApprovalsAgent * nat :=
  match agents with
  | [] => ([], draws)
  | (key, agent) :: rest =>
      let (agent', draws1) := normalizeAgent agent draws in
      let (rest', draws2) := normalizeAgents rest draws1 in
      ((key, agent') :: rest', draws2)
  end.

(** [None] when it throws. *)
Definition normalizeExecApprovals (file : ExecApprovalsFile) (draws : nat) : option (ExecApprovalsFile * nat) :=
  match mergeLegacyDefault (f_agents file) with
  | None => None
  | Some agents =>
      let (agents', draws') := normalizeAgents agents draws in
      Some (mkFile (truthy (trim <$> f_socketPath file)) (truthy (trim <$> f_token file))
        (Some (sanitizeExecApprovalPolicy (f_defaults file))) agents', draws')
  end.

Definition mergeExecApprovalsSocketDefaults (normalized : ExecApprovalsFile) (current : option ExecApprovalsFile) : ExecApprovalsFile :=
  mkFile
    (Some (default resolveExecApprovalsSocketPath
      (first_of (trim <$> f_socketPath normalized) (trim <$> (current ≫= f_socketPath)))))
    (Some (default EmptyString (first_of (trim <$> f_token normalized) (trim <$> (current ≫= f_token)))))
    (f_defaults normalized) (f_agents normalized).

(** ** Loading *)

(** What is at the path of the file. *)
Inductive Stored : Type := Missing | Unreadable | OtherVersion | StoredFile (file : ExecApprovalsFile).

Definition normalizeEmpty (draws : nat) : ExecApprovalsFile * nat :=
  (mkFile None None (Some noDefaults) [], draws).

(** Anything that throws gives the empty file. *)
Definition loadExecApprovals (stored : Stored) (draws : nat) : ExecApprovalsFile * nat :=
  match stored with
  | StoredFile file => default (normalizeEmpty draws) (normalizeExecApprovals file draws)
  | _ => normalizeEmpty draws
  end.

(** The file with a socket and a token; it is written back as well. *)
Definition ensureExecApprovals (stored : Stored) (draws : nat) : option (ExecApprovalsFile * nat) :=
  let (loaded, draws1) := loadExecApprovals stored draws in
  match normalizeExecApprovals loaded draws1 with
  | None => None
  | Some (next, draws2) =>
      Some (mkFile (Some (default resolveExecApprovalsSocketPath (truthy (trim <$> f_socketPath next))))
        (Some (default randomToken (truthy (trim <$> f_token next)))) (f_defaults next) (f_agents next), draws2)
  end.

(** ** The policy of an agent *)

Definition isExecSecurity (v : js) : option ExecSecurity := str_value v ≫= readSecurity.
Definition isExecAsk (v : js) : option ExecAsk := str_value v ≫= readAsk.

Definition normalizeSecurity (v : js) (fallback : ExecSecurity) : ExecSecurity := default fallback (isExecSecurity v).
Definition normalizeAsk (v : js) (fallback : ExecAsk) : ExecAsk := default fallback (isExecAsk v).

Record ResolvedField (A : Type) : Type := mkField { rf_value : A; rf_source : option string }.
Arguments mkField {A}. Arguments rf_value {A}. Arguments rf_source {A}.

Definition resolveDefaultField {A} (read : js → option A) (field : string) (defaultValue : js) (fallback : A) : ResolvedField A :=
  match read defaultValue with
  | Some v => mkField v (Some ("defaults." +:+ field))
  | None => mkField fallback None
  end.

(** [resolveAgentSecurityField] and [resolveAgentAskField] *)
Definition resolveAgentField {A} (read : js → option A) (field : string) (get : ExecApprovalsDefaults → js)
    (defaults : ExecApprovalsDefaults) (agent rawAgent wildcard rawWildcard : ExecApprovalsAgent) (agentKey : string)
    (fallback : A) : ResolvedField A :=
  let fallbackField := resolveDefaultField read field (get defaults) fallback in
  if defined (get (ag_policy rawAgent)) then
    match read (get (ag_policy agent)) with
    | Some v => mkField v (Some ("agents." +:+ agentKey +:+ "." +:+ field))
    | None => fallbackField
    end
  else if defined (get (ag_policy rawWildcard)) then
    match read (get (ag_policy wildcard)) with
    | Some v => mkField v (Some ("agents.*." +:+ field))
    | None => fallbackField
    end
  else fallbackField.

Record ExecApprovalsDefaultOverrides : Type := mkOverrides {
  o_security : option ExecSecurity;
  o_ask : option ExecAsk;
  o_askFallback : option ExecSecurity;
  o_autoAllowSkills : option bool;
}.

Record ResolvedPolicy : Type := mkPolicy {
  rp_security : ExecSecurity;
  rp_ask : ExecAsk;
  rp_askFallback : ExecSecurity;
  rp_autoAllowSkills : bool;
}.

Record ExecApprovalsResolved : Type := mkResolved {
  rs_path : string;
  rs_socketPath : string;
  rs_token : string;
  rs_defaults : ResolvedPolicy;
  rs_agent : ResolvedPolicy;
  rs_securitySource : option string;
  rs_askSource : option string;
  rs_askFallbackSource : option string;
  rs_allowlist : list ExecAllowlistEntry;
  rs_file : ExecApprovalsFile;
}.

Definition entriesOf (allowlist : option (list AllowItem)) : list ExecAllowlistEntry :=
  base.omap (λ item, match item with ItemEntry e => Some e | _ => None end) (default [] allowlist).

Definition resolveExecApprovalsFromFile (rawFile : ExecApprovalsFile) (agentId : option string)
    (overrides : ExecApprovalsDefaultOverrides) (path socketPath token : option string) (draws : nat)
    : option (ExecApprovalsResolved * nat) :=
  match normalizeExecApprovals rawFile draws with
  | None => None
  | Some (file, draws') =>
      let defaults := default noDefaults (f_defaults file) in
      let agentKey := default DEFAULT_AGENT_ID agentId in
      let agentIn f key := default noAgent (oget (f_agents f) key) in
      let agent := agentIn file agentKey in
      let wildcard := agentIn file "*" in
      let rawAgent := agentIn rawFile agentKey in
      let rawWildcard := agentIn rawFile "*" in
      let fallbackAskFallback := default DEFAULT_EXEC_APPROVAL_ASK_FALLBACK (o_askFallback overrides) in
      let resolvedDefaults :=
        mkPolicy (normalizeSecurity (d_security defaults) (default DEFAULT_SECURITY (o_security overrides)))
          (normalizeAsk (d_ask defaults) (default DEFAULT_ASK (o_ask overrides)))
          (normalizeSecurity (orElse (d_askFallback defaults) (JStr (securityText fallbackAskFallback))) fallbackAskFallback)
          (default (default DEFAULT_AUTO_ALLOW_SKILLS (o_autoAllowSkills overrides)) (d_autoAllowSkills defaults)) in
      let security := resolveAgentField isExecSecurity "security" d_security defaults agent rawAgent wildcard rawWildcard
        agentKey (rp_security resolvedDefaults) in
      let ask := resolveAgentField isExecAsk "ask" d_ask defaults agent rawAgent wildcard rawWildcard
        agentKey (rp_ask resolvedDefaults) in
      let askFallback := resolveAgentField isExecSecurity "askFallback" d_askFallback defaults agent rawAgent wildcard
        rawWildcard agentKey (rp_askFallback resolvedDefaults) in
      Some (mkResolved (default resolveExecApprovalsPath path)
        (expandHomePrefix (default resolveExecApprovalsSocketPath (first_of socketPath (f_socketPath file))) None)
        (default EmptyString (first_of token (f_token file)))
        resolvedDefaults
        (mkPolicy (rf_value security) (rf_value ask) (rf_value askFallback)
          (default (rp_autoAllowSkills resolvedDefaults)
            (first_of (d_autoAllowSkills (ag_policy agent)) (d_autoAllowSkills (ag_policy wildcard)))))
        (rf_source security) (rf_source ask) (rf_source askFallback)
        (entriesOf (ag_allowlist wildcard) ++ entriesOf (ag_allowlist agent)) file, draws')
  end.

(** The policy, and the file as [ensureExecApprovals] left it on disk. *)
Definition resolveExecApprovals (stored : Stored) (agentId : option string) (overrides : ExecApprovalsDefaultOverrides)
    (draws : nat) : option (ExecApprovalsResolved * Stored * nat) :=
  match ensureExecApprovals stored draws with
  | None => None
  | Some (file, draws1) =>
      match resolveExecApprovalsFromFile file agentId overrides (Some resolveExecApprovalsPath)
              (Some (expandHomePrefix (default resolveExecApprovalsSocketPath (f_socketPath file)) None))
              (Some (default EmptyString (f_token file))) draws1 with
      | None => None
      | Some (r, draws2) => Some (r, StoredFile file, draws2)
      end
  end.

(** ** Edits of an allowlist *)

(** The file as a caller holds it, as it is on disk, and the identifiers drawn. *)
Record EditState : Type := mkEdit {
  es_approvals : ExecApprovalsFile;
  es_stored : Stored;
  es_draws : nat;
}.

Definition agentAllowlist (approvals : ExecApprovalsFile) (target : string) : list AllowItem :=
  default [] (ag_allowlist (default noAgent (oget (f_agents approvals) target))).

(** [agents[target] = { ...existing, allowlist }] *)
Definition setAgentAllowlist (approvals : ExecApprovalsFile) (target : string) (allowlist : list AllowItem) : ExecApprovalsFile :=
  let existing := default noAgent (oget (f_agents approvals) target) in
  mkFile (f_socketPath approvals) (f_token approvals) (f_defaults approvals)
    (oset (f_agents approvals) target (mkAgent (ag_policy existing) (Some allowlist))).

(** [agents[target] = ...; approvals.agents = agents; saveExecApprovals(approvals)] *)
Definition saveAllowlist (st : EditState) (target : string) (allowlist : list AllowItem) (draws : nat) : EditState :=
  let approvals := setAgentAllowlist (es_approvals st) target allowlist in
  mkEdit approvals (StoredFile approvals) draws.

Definition sameEntry (a b : ExecAllowlistEntry) : bool :=
  String.eqb (ae_pattern a) (ae_pattern b) && bool_decide (ae_argPattern a = ae_argPattern b).

Definition usedEntry (e : ExecAllowlistEntry) (id : string) (command : string) (resolvedPath : option string) : ExecAllowlistEntry :=
  mkEntry (Some id) (ae_pattern e) (ae_allowAlways e) (ae_commandText e) (ae_argPattern e) (Some date_now) (Some command) resolvedPath.

Fixpoint markUsed (items : list AllowItem) (entry : ExecAllowlistEntry) (command : string) (resolvedPath : option string)
    (draws : nat) : list AllowItem * nat :=
  match items with
  | [] => ([], draws)
  | item :: rest =>
      let '(item', draws1) :=
        match item with
        | ItemEntry e =>
            if sameEntry e entry then
              match ae_id e with
              | Some id => (ItemEntry (usedEntry e id command resolvedPath), draws)
              | None => (ItemEntry (usedEntry e (randomUUID draws) command resolvedPath), S draws)
              end
            else (item, draws)
        | _ => (item, draws)
        end in
      let (rest', draws2) := markUsed rest entry command resolvedPath draws1 in
      (item' :: rest', draws2)
  end.

Definition recordAllowlistUse (st : EditState) (agentId : option string) (entry : ExecAllowlistEntry)
    (command : string) (resolvedPath : option string) : EditState :=
  let target := default DEFAULT_AGENT_ID agentId in
  let (next, draws') := markUsed (agentAllowlist (es_approvals st) target) entry command resolvedPath (es_draws st) in
  saveAllowlist st target next draws'.

Definition buildAllowlistEntryMatchKey (entry : ExecAllowlistEntry) : string :=
  ae_pattern entry +:+ nul +:+ argKey entry.

Fixpoint recordMatches (st : EditState) (agentId : option string) (matches : list ExecAllowlistEntry)
    (command : string) (resolvedPath : option string) (seen : list string) : EditState :=
  match matches with
  | [] => st
  | m :: rest =>
      let key := buildAllowlistEntryMatchKey m in
      if negb (str_truthy (ae_pattern m)) || set_has seen key then
        recordMatches st agentId rest command resolvedPath seen
      else recordMatches (recordAllowlistUse st agentId m command resolvedPath) agentId rest command resolvedPath (seen ++ [key])
  end.

Definition recordAllowlistMatchesUse (st : EditState) (agentId : option string) (matches : list ExecAllowlistEntry)
    (command : string) (resolvedPath : option string) : EditState :=
  recordMatches st agentId matches command resolvedPath [].

Definition hasPattern (pattern : string) (item : AllowItem) : bool :=
  match item with ItemEntry e => String.eqb (ae_pattern e) pattern | _ => false end.

Definition isExisting (pattern : string) (argPattern : option string) (item : AllowItem) : bool :=
  match item with
  | ItemEntry e => String.eqb (ae_pattern e) pattern && bool_decide (ae_argPattern e = argPattern)
  | _ => false
  end.

Definition isAllowAlways (item : AllowItem) : bool := match item with ItemEntry e => ae_allowAlways e | _ => false end.

Definition reEntry (argPattern : option string) (allowAlways : bool) (item : AllowItem) : AllowItem :=
  match item with
  | ItemEntry e =>
      ItemEntry (mkEntry (ae_id e) (ae_pattern e) (allowAlways || ae_allowAlways e) (ae_commandText e) argPattern
        (Some date_now) (ae_lastUsedCommand e) (ae_lastResolvedPath e))
  | _ => item
  end.

(** [allowAlways] is [options.source === "allow-always"]. *)
Definition addAllowlistEntry (st : EditState) (agentId : option string) (pattern : string)
    (argPattern : option string) (allowAlways : bool) : EditState :=
  let target := default DEFAULT_AGENT_ID agentId in
  let allowlist := agentAllowlist (es_approvals st) target in
  let trimmed := trim pattern in
  if negb (str_truthy trimmed) then st
  else
    let trimmedArgPattern := StringCoerce.normalizeOptionalString argPattern in
    match List.find (isExisting trimmed trimmedArgPattern) allowlist with
    | Some existing =>
        if negb allowAlways || isAllowAlways existing then st
        else
          saveAllowlist st target
            (map (λ item, if hasPattern trimmed item then reEntry trimmedArgPattern allowAlways item else item) allowlist)
            (es_draws st)
    | None =>
        saveAllowlist st target
          (allowlist ++ [ItemEntry (mkEntry (Some (randomUUID (es_draws st))) trimmed allowAlways None trimmedArgPattern
             (Some date_now) None None)])
          (S (es_draws st))
    end.

Definition addDurableCommandApproval (st : EditState) (agentId : option string) (commandText : string) : EditState :=
  let normalized := trim commandText in
  if negb (str_truthy normalized) then st
  else addAllowlistEntry st agentId (buildDurableCommandApprovalPattern normalized) None true.

(** ** Normal files *)

Definition normal_entry (e : ExecAllowlistEntry) : Prop :=
  str_truthy (trim (ae_pattern e)) = true ∧ truthy (ae_id e) ≠ None ∧ ae_commandText e = None.

Definition normal_item (item : AllowItem) : Prop := ∃ e, item = ItemEntry e ∧ normal_entry e.

Definition normal_policy (p : ExecApprovalsDefaults) : Prop := sanitizeExecApprovalPolicy (Some p) = p.

Definition normal_agent (a : ExecApprovalsAgent) : Prop :=
  normal_policy (ag_policy a) ∧ ∀ items, ag_allowlist a = Some items → Forall normal_item items.

Definition normal_agents (agents : omap string ExecApprovalsAgent) : Prop := Forall (λ e, normal_agent e.2) agents.

Definition normal_file (f : ExecApprovalsFile) : Prop :=
  truthy (trim <$> f_socketPath f) = f_socketPath f ∧ truthy (trim <$> f_token f) = f_token f
  ∧ (∃ d, f_defaults f = Some d ∧ normal_policy d)
  ∧ oget (f_agents f) "default" = None ∧ normal_agents (f_agents f).

Lemma sanitizeLevel_idemp {A} (read : string → option A) v :
  sanitizeLevel read (sanitizeLevel read v) = sanitizeLevel read v.
Proof.
  unfold sanitizeLevel. destruct (str_value v) as [s|]; [|done]. destruct (read (trim s)) as [a|] eqn:E; [|done].
  cbn [str_value]. by rewrite trim_idemp, E.
Qed.

Lemma sanitize_normal p : normal_policy (sanitizeExecApprovalPolicy p).
Proof. unfold normal_policy, sanitizeExecApprovalPolicy. cbn [default from_option id d_security d_ask d_askFallback d_autoAllowSkills].
  by rewrite !sanitizeLevel_idemp.
Qed.

Lemma truthy_trim_idemp o : truthy (trim <$> truthy (trim <$> o)) = truthy (trim <$> o).
Proof.
  destruct o as [s|]; [|done]. cbn [fmap option_fmap option_map]. destruct (trim s) as [|c r] eqn:E; [done|].
  change (truthy (Some (String c r))) with (Some (String c r)). cbn [fmap option_fmap option_map]. by rewrite <- E, trim_idemp, E.
Qed.

(** An identifier has 36 characters. *)
Hypothesis uuid_nonempty : ∀ n, str_truthy (randomUUID n) = true.

Lemma coerceItem_valid item e : coerceItem item = Some e → str_truthy (trim (ae_pattern e)) = true.
Proof.
  destruct item as [s|e'| |]; cbn [coerceItem]; try done.
  - unfold nonblank. destruct (str_truthy (trim s)) eqn:E; [|done]. intros [= <-]. cbn [ae_pattern textEntry]. by rewrite trim_idemp.
  - destruct (str_truthy _) eqn:E; [|done]. by intros [= <-].
Qed.

Lemma withIds_normal entries draws :
  Forall (λ e, str_truthy (trim (ae_pattern e)) = true) entries →
  Forall normal_entry (map withoutText (withIds entries draws).1).
Proof.
  intros Hall. revert draws. induction Hall as [|e rest He _ IH]; intros draws; [constructor|]. cbn [withIds].
  destruct (truthy (ae_id e)) as [i|] eqn:Ei.
  - specialize (IH draws). destruct (withIds rest draws) as [rest' draws']. cbn [fst map]. constructor; [|done].
    split_and!; [done| |done]. cbn [ae_id withoutText]. by rewrite Ei.
  - specialize (IH (S draws)). destruct (withIds rest (S draws)) as [rest' draws']. cbn [fst map]. constructor; [|done].
    split_and!; [done| |done]. cbn [ae_id withoutText with_id]. pose proof (uuid_nonempty draws) as Hu. by destruct (randomUUID draws).
Qed.

Lemma coerce_valid allowlist entries :
  coerceAllowlistEntries allowlist = Some entries → Forall (λ e, str_truthy (trim (ae_pattern e)) = true) entries.
Proof.
  unfold coerceAllowlistEntries. destruct allowlist as [[|i items]|]; [intros [= <-]; constructor| |done].
  destruct (base.omap coerceItem (i :: items)) as [|e l] eqn:E; [done|]. intros [= <-]. rewrite <- E.
  apply Forall_forall. intros x (item & _ & Hx)%list_elem_of_omap. by eapply coerceItem_valid.
Qed.

Lemma normalizeAgent_normal agent draws : normal_agent (normalizeAgent agent draws).1.
Proof.
  unfold normalizeAgent, ensureAllowlistIds. destruct (coerceAllowlistEntries _) as [entries|] eqn:E.
  - pose proof (withIds_normal entries draws (coerce_valid _ _ E)) as Hn. destruct (withIds entries draws) as [entries' draws'].
    cbn [fst] in *. split; [apply sanitize_normal|]. cbn [ag_allowlist stripAllowlistCommandText fmap option_fmap option_map].
    intros items [= <-]. apply List.Forall_map. eapply Forall_impl; [exact Hn|]. intros e He. by exists e.
  - cbn [fst]. split; [apply sanitize_normal|done].
Qed.

Lemma normalizeAgents_normal agents draws : normal_agents (normalizeAgents agents draws).1.
Proof.
  revert draws. induction agents as [|[key agent] rest IH]; intros draws; [constructor|]. cbn [normalizeAgents].
  pose proof (normalizeAgent_normal agent draws) as Ha. destruct (normalizeAgent agent draws) as [agent' draws1].
  specialize (IH draws1). destruct (normalizeAgents rest draws1) as [rest' draws2]. by constructor.
Qed.

Lemma normalizeAgents_keys agents draws : okeys (normalizeAgents agents draws).1 = okeys agents.
Proof.
  unfold okeys. revert draws. induction agents as [|[key agent] rest IH]; intros draws; [done|]. cbn [normalizeAgents].
  destruct (normalizeAgent agent draws) as [agent' draws1]. specialize (IH draws1).
  destruct (normalizeAgents rest draws1) as [rest' draws2]. cbn [fst] in *. by rewrite !fmap_cons, IH.
Qed.

Lemma mergeLegacyDefault_none agents agents' :
  mergeLegacyDefault agents = Some agents' → oget agents' "default" = None.
Proof.
  unfold mergeLegacyDefault. destruct (oget agents "default") as [legacy|] eqn:E; [|by intros [= <-]].
  destruct (oget agents DEFAULT_AGENT_ID) as [main|].
  - destruct (mergeLegacyAgent main legacy); [|done]. intros [= <-]. apply oget_odel_eq.
  - intros [= <-]. apply oget_odel_eq.
Qed.

Lemma normalizeExecApprovals_normal f draws f' draws' :
  normalizeExecApprovals f draws = Some (f', draws') → normal_file f'.
Proof.
  unfold normalizeExecApprovals. destruct (mergeLegacyDefault _) as [agents|] eqn:Em; [|done].
  pose proof (normalizeAgents_normal agents draws) as Hn. pose proof (normalizeAgents_keys agents draws) as Hk.
  destruct (normalizeAgents agents draws) as [agents' n]. cbn [fst] in Hn, Hk. intros [= <- <-].
  unfold normal_file. cbn [f_socketPath f_token f_defaults f_agents]. split_and!; try apply truthy_trim_idemp; [|by rewrite oget_None, Hk, <- oget_None; eapply mergeLegacyDefault_none|done].
  eexists. split; [done|apply sanitize_normal].
Qed.

(** *** A normal file is left as it is *)

Lemma withIds_id entries draws : Forall normal_entry entries → withIds entries draws = (entries, draws).
Proof.
  induction 1 as [|e rest (_ & Hid & _) _ IH]; [done|]. cbn [withIds]. destruct (truthy (ae_id e)); [|done]. by rewrite IH.
Qed.

Lemma withoutText_id entries : Forall normal_entry entries → map withoutText entries = entries.
Proof.
  induction 1 as [|e rest (_ & _ & Ht) _ IH]; [done|]. cbn [map]. rewrite IH. f_equal. destruct e. cbn in Ht. by subst.
Qed.

Lemma normal_items items : Forall normal_item items → ∃ entries, items = map ItemEntry entries ∧ Forall normal_entry entries.
Proof.
  induction 1 as [|item rest (e & -> & He) _ (entries & -> & Hall)]; [by exists []|]. exists (e :: entries).
  split; [done|by constructor].
Qed.

Lemma coerce_id entries :
  Forall normal_entry entries → coerceAllowlistEntries (Some (map ItemEntry entries)) = Some entries.
Proof.
  intros Hall. assert (base.omap coerceItem (map ItemEntry entries) = entries) as He.
  { induction Hall as [|e rest (Hp & _ & _) _ IH]; [done|]. cbn [map]. cbn. rewrite Hp. cbn. by f_equal. }
  destruct entries as [|e entries]; [done|]. cbn [coerceAllowlistEntries map] in *. by rewrite He.
Qed.

Lemma normalizeAgent_id agent draws : normal_agent agent → normalizeAgent agent draws = (agent, draws).
Proof.
  intros [Hp Hitems]. unfold normalizeAgent. destruct agent as [policy [items|]]; cbn [ag_policy ag_allowlist] in *.
  - destruct (normal_items items (Hitems items eq_refl)) as (entries & -> & Hall). rewrite coerce_id by done.
    cbn [ensureAllowlistIds]. rewrite withIds_id by done. cbn [stripAllowlistCommandText fmap option_fmap option_map].
    by rewrite withoutText_id, Hp.
  - cbn. by rewrite Hp.
Qed.

Lemma normalizeAgents_id agents draws : normal_agents agents → normalizeAgents agents draws = (agents, draws).
Proof.
  induction 1 as [|[key agent] rest Ha _ IH]; [done|]. cbn [normalizeAgents]. rewrite normalizeAgent_id by done. by rewrite IH.
Qed.

(** Normalising a file ([normalizeExecApprovals]) twice is normalising it once, without
    drawing another identifier: the second pass of [ensureExecApprovals] changes nothing. *)
Lemma normalization_is_idempotent f draws f' draws' :
  normalizeExecApprovals f draws = Some (f', draws') → normalizeExecApprovals f' draws' = Some (f', draws').
Proof.
  intros Hn%normalizeExecApprovals_normal. destruct Hn as (Hs & Ht & (d & Hd & Hp) & Hdef & Hagents).
  unfold normalizeExecApprovals, mergeLegacyDefault. rewrite Hdef, normalizeAgents_id by done. rewrite Hs, Ht, Hd, Hp.
  destruct f'. cbn in *. congruence.
Qed.

(** *** Edits keep a file normal *)

Lemma oset_Forall {V} (P : V → Prop) (m : omap string V) k v :
  Forall (λ e, P e.2) m → P v → Forall (λ e, P e.2) (oset m k v).
Proof.
  induction 1 as [|[k' v'] rest Hv' Hrest IH]; intros Hv; cbn [oset]; [by repeat constructor|].
  case_decide; constructor; [done|done|done|by apply IH].
Qed.

Lemma agentAllowlist_normal f target : normal_agents (f_agents f) → Forall normal_item (agentAllowlist f target).
Proof.
  intros Hn. unfold agentAllowlist. destruct (oget _ target) as [a|] eqn:E; [|constructor]. cbn [default from_option id].
  apply (oget_Forall _ _ _ _ Hn) in E as [_ Hitems]. cbn [snd] in Hitems. destruct (ag_allowlist a) as [items|]; [by apply Hitems|constructor].
Qed.

(** What the next load of the file relies on. *)
Definition loadable (f : ExecApprovalsFile) : Prop := oget (f_agents f) "default" = None ∧ normal_agents (f_agents f).

Lemma normal_loadable f : normal_file f → loadable f.
Proof. intros (_ & _ & _ & Hd & Hn). done. Qed.

Lemma setAgentAllowlist_loadable f target items :
  loadable f → target ≠ "default" → Forall normal_item items → loadable (setAgentAllowlist f target items).
Proof.
  intros [Hd Hn] Ht Hitems. split; cbn [f_agents setAgentAllowlist].
  - by rewrite oget_oset_ne.
  - apply oset_Forall; [done|]. split; [|by intros ? [= <-]]. cbn [ag_policy].
    destruct (oget (f_agents f) target) as [a|] eqn:E; [|done]. by apply (oget_Forall _ _ _ _ Hn) in E as [Hp _].
Qed.

Lemma agentAllowlist_set f target items : agentAllowlist (setAgentAllowlist f target items) target = items.
Proof. unfold agentAllowlist, setAgentAllowlist. cbn [f_agents]. by rewrite oget_oset_eq. Qed.

Lemma normalize_loadable f draws :
  loadable f → ∃ f', normalizeExecApprovals f draws = Some (f', draws) ∧ f_agents f' = f_agents f.
Proof.
  intros [Hd Hn]. unfold normalizeExecApprovals, mergeLegacyDefault. rewrite Hd, normalizeAgents_id by done.
  by eexists.
Qed.

(** A loadable file is resolved, with the agent's own entries and those of all agents. *)
Lemma resolve_loadable f agentId overrides draws :
  loadable f →
  ∃ r stored draws', resolveExecApprovals (StoredFile f) agentId overrides draws = Some (r, stored, draws')
    ∧ rs_allowlist r = entriesOf (Some (agentAllowlist f "*")) ++ entriesOf (Some (agentAllowlist f (default DEFAULT_AGENT_ID agentId))).
Proof.
  intros Hl. destruct (normalize_loadable f draws Hl) as (f1 & E1 & A1).
  assert (loadable f1) as Hl1 by (unfold loadable; by rewrite A1).
  destruct (normalize_loadable f1 draws Hl1) as (f2 & E2 & A2).
  unfold resolveExecApprovals, ensureExecApprovals, loadExecApprovals. rewrite E1. cbn [default from_option id]. rewrite E2.
  set (f3 := mkFile _ _ _ _). assert (loadable f3) as Hl3 by (unfold loadable, f3; cbn [f_agents]; by rewrite A2, A1).
  destruct (normalize_loadable f3 draws Hl3) as (f4 & E4 & A4). unfold resolveExecApprovalsFromFile. rewrite E4.
  cbv zeta. eexists _, _, _. split; [done|]. cbn [rs_allowlist]. rewrite A4. unfold f3. cbn [f_agents]. rewrite A2, A1.
  unfold agentAllowlist, entriesOf. cbn [default from_option id]. done.
Qed.

(** *** The policy of an agent depends on the levels of the file only *)

Definition with_levels (f : ExecApprovalsFile) (d : ExecApprovalsDefaults) (agents : omap string ExecApprovalsAgent) : Prop :=
  loadable f ∧ f_defaults f = Some d ∧ normal_policy d ∧ f_agents f = agents.

Lemma normal_with_levels f : normal_file f → ∃ d, with_levels f d (f_agents f).
Proof. intros Hn. pose proof (normal_loadable f Hn). destruct Hn as (_ & _ & (d & Hd & Hp) & _ & _). by exists d. Qed.

Lemma normalize_with_levels f d agents draws :
  with_levels f d agents → ∃ f', normalizeExecApprovals f draws = Some (f', draws) ∧ f_agents f' = agents ∧ f_defaults f' = Some d.
Proof.
  intros ([Hdef Hn] & Hd & Hp & Ha). unfold normalizeExecApprovals, mergeLegacyDefault. rewrite Hdef, normalizeAgents_id by done.
  rewrite Hd, Hp. by eexists.
Qed.

Lemma resolve_with_levels f g d agents agentId overrides path socketPath token path' socketPath' token' draws draws' :
  with_levels f d agents → with_levels g d agents →
  ∃ r r', resolveExecApprovalsFromFile f agentId overrides path socketPath token draws = Some (r, draws)
    ∧ resolveExecApprovalsFromFile g agentId overrides path' socketPath' token' draws' = Some (r', draws')
    ∧ rs_agent r = rs_agent r'.
Proof.
  intros Hf Hg. destruct (normalize_with_levels f d agents draws Hf) as (f' & Ef & Af & Df).
  destruct (normalize_with_levels g d agents draws' Hg) as (g' & Eg & Ag & Dg).
  destruct Hf as (_ & _ & _ & Hf), Hg as (_ & _ & _ & Hg). unfold resolveExecApprovalsFromFile. rewrite Ef, Eg.
  cbv zeta. eexists _, _. split; [done|]. split; [done|]. cbn [rs_agent]. by rewrite Af, Df, Ag, Dg, Hf, Hg.
Qed.

Lemma loadExecApprovals_normal stored draws : normal_file (loadExecApprovals stored draws).1.
Proof.
  assert (normal_file (normalizeEmpty draws).1) as He.
  { unfold normal_file, normalizeEmpty. cbn. split_and!; try done; [by eexists|constructor]. }
  unfold loadExecApprovals. destruct stored as [| | |f]; try done.
  destruct (normalizeExecApprovals f draws) as [[f' n]|] eqn:E; [|done]. by apply normalizeExecApprovals_normal in E.
Qed.

(** A run gets the policy of the file as it is loaded. *)
Lemma resolveExecApprovals_loaded stored agentId overrides path socketPath token draws draws' :
  ∃ r r' stored' n, resolveExecApprovals stored agentId overrides draws = Some (r, stored', n)
    ∧ resolveExecApprovalsFromFile (loadExecApprovals stored draws).1 agentId overrides path socketPath token draws' = Some (r', draws')
    ∧ rs_agent r = rs_agent r'.
Proof.
  pose proof (loadExecApprovals_normal stored draws) as Hn. unfold resolveExecApprovals, ensureExecApprovals.
  destruct (loadExecApprovals stored draws) as [f n]. cbn [fst] in *. destruct (normal_with_levels f Hn) as [d Hf].
  destruct (normalize_with_levels f d _ n Hf) as (f1 & E1 & A1 & D1). rewrite E1. set (f2 := mkFile _ _ _ _).
  assert (with_levels f2 d (f_agents f)) as Hf2.
  { destruct Hf as ([Hdef Hall] & Hd & Hp & _). unfold with_levels, loadable, f2. cbn [f_agents f_defaults]. by rewrite A1, D1. }
  destruct (resolve_with_levels f2 f d (f_agents f) agentId overrides (Some resolveExecApprovalsPath)
    (Some (expandHomePrefix (default resolveExecApprovalsSocketPath (f_socketPath f2)) None))
    (Some (default EmptyString (f_token f2))) path socketPath token n draws' Hf2 Hf) as (r & r' & Er & Er' & Hr).
  rewrite Er, Er'. by eexists _, _, _, _.
Qed.

(** *** Durable approvals *)

Definition remembers (pattern : string) (items : list AllowItem) : Prop :=
  ∃ e, ItemEntry e ∈ items ∧ ae_allowAlways e = true ∧ ae_pattern e = pattern.

Lemma reEntry_normal pattern argPattern allow items :
  Forall normal_item items →
  Forall normal_item (map (λ item, if hasPattern pattern item then reEntry argPattern allow item else item) items).
Proof.
  intros Hall. apply List.Forall_map. eapply Forall_impl; [exact Hall|]. intros item (e & -> & Hp & Hid & Ht).
  destruct (hasPattern pattern (ItemEntry e)); [|by exists e]. eexists. split; [done|]. by split_and!.
Qed.

Lemma addAllowlistEntry_remembers st agentId pattern :
  loadable (es_approvals st) → es_stored st = StoredFile (es_approvals st) →
  agentId ≠ Some "default" → trim pattern = pattern → str_truthy pattern = true →
  let st' := addAllowlistEntry st agentId pattern None true in
  loadable (es_approvals st') ∧ es_stored st' = StoredFile (es_approvals st')
  ∧ remembers pattern (agentAllowlist (es_approvals st') (default DEFAULT_AGENT_ID agentId)).
Proof.
  intros Hl Hst Ht Htrim Hne. cbv zeta. unfold addAllowlistEntry. rewrite Htrim, Hne. cbn [negb].
  set (target := default DEFAULT_AGENT_ID agentId).
  assert (target ≠ "default") as Htarget by (unfold target; destruct agentId; [cbn; congruence|done]).
  cbv zeta. cbn [StringCoerce.normalizeOptionalString StringCoerce.normalizeNullableString orb].
  unfold saveAllowlist. destruct (List.find _ _) as [existing|] eqn:Ef.
  - apply List.find_some in Ef as [Hin Hex]. apply list_elem_of_In in Hin. destruct existing as [|e| |]; try done. cbn [isExisting] in Hex.
    apply andb_true_iff in Hex as [Hp%String.eqb_eq _]. cbn [isAllowAlways]. destruct (ae_allowAlways e) eqn:Ea;
      cbn [negb orb]; [split_and!; [done|done|by exists e]|]. cbn [es_approvals es_stored].
    split_and!; [apply setAgentAllowlist_loadable; [done..|]; apply reEntry_normal, agentAllowlist_normal, Hl|done|].
    rewrite agentAllowlist_set. eexists. split; [|split].
    { apply list_elem_of_In, in_map_iff. exists (ItemEntry e). cbn [hasPattern]. rewrite Hp, String.eqb_refl.
      split; [reflexivity|by apply list_elem_of_In]. }
    all: done.
  - cbn [es_approvals es_stored]. split_and!; [|done|].
    + apply setAgentAllowlist_loadable; [done..|]. apply Forall_app. split; [apply agentAllowlist_normal, Hl|].
      constructor; [|constructor]. eexists. split; [done|]. split_and!; [cbn [ae_pattern]; by rewrite Htrim| |done].
      cbn [ae_id]. pose proof (uuid_nonempty (es_draws st)) as Hu. by destruct (randomUUID (es_draws st)).
    + rewrite agentAllowlist_set. eexists. split; [apply elem_of_app; right; by constructor|done].
Qed.

(** The digest is written in hexadecimal digits. *)
Hypothesis digest_no_blank : ∀ s, str_all (λ c, negb (is_ws c)) (sha256_hex s) = true.

Lemma durable_pattern_trimmed command :
  trim (buildDurableCommandApprovalPattern command) = buildDurableCommandApprovalPattern command.
Proof.
  apply trim_no_ws. unfold buildDurableCommandApprovalPattern. rewrite str_all_append, (str_all_take _ _ _ (digest_no_blank _)).
  by vm_compute.
Qed.

(** C9. A command approved for always ([addDurableCommandApproval]) is found approved by
    every later run of the agent: with the file written and read again
    ([resolveExecApprovals]), [hasDurableExecApproval] accepts the same command, however
    the command is analysed. An agent called [default] is the exception: its entries are
    moved to the main agent. *)
Theorem remembered_approval_is_found_again f0 n0 f draws agentId commandText overrides draws' ok entries :
  normalizeExecApprovals f0 n0 = Some (f, draws) →
  agentId ≠ Some "default" → str_truthy (trim commandText) = true →
  let st := addDurableCommandApproval (mkEdit f (StoredFile f) draws) agentId commandText in
  ∃ r stored draws'', resolveExecApprovals (es_stored st) agentId overrides draws' = Some (r, stored, draws'')
    ∧ hasDurableExecApproval ok entries (Some (rs_allowlist r)) (Some commandText) = true.
Proof.
  intros Hf%normalizeExecApprovals_normal%normal_loadable Ha Hc. unfold addDurableCommandApproval. rewrite Hc. cbn [negb]. cbv zeta.
  set (pattern := buildDurableCommandApprovalPattern _).
  destruct (addAllowlistEntry_remembers (mkEdit f (StoredFile f) draws) agentId pattern Hf eq_refl Ha (durable_pattern_trimmed _) eq_refl)
    as (Hl & Hst & Hr).
  set (st := addAllowlistEntry _ _ _ _ _) in *. rewrite Hst.
  destruct (resolve_loadable (es_approvals st) agentId overrides draws' Hl) as (r & stored & draws'' & Hres & Hlist).
  exists r, stored, draws''. split; [done|].
  unfold hasDurableExecApproval, hasExactCommandDurableExecApproval. cbn [fmap option_fmap option_map].
  destruct (trim commandText) as [|c t] eqn:Et; [done|]. cbn [truthy default from_option id]. apply orb_true_iff. left.
  destruct Hr as (e & Hin & Hal & Hp). apply existsb_exists. exists e. split.
  - apply list_elem_of_In. rewrite Hlist. apply elem_of_app. right. apply list_elem_of_omap. by exists (ItemEntry e).
  - unfold exactCommand. by rewrite Hal, Hp, String.eqb_refl.
Qed.

End file.
Arguments mkField {A}. Arguments rf_value {A}. Arguments rf_source {A}.

(** ** Concrete files *)

(** A host and generators for the witnesses: the digest of a text is [d] for each of its
    characters, the identifiers are numbered. *)
#[local] Instance plain_host : Host :=
  {| host_process := {| process_platform := "linux" |}; win32_path := posix_path; process_cwd := "/";
     process_env := λ _, None; os_homedir := Some "/home/me"; stat_isFile := λ _, false;
     access_executable := λ _, false; realpathSync := λ _, None; compile_regexp := λ _, None |}.

Fixpoint dots (n : nat) : string := match n with O => EmptyString | S n' => String "d"%char (dots n') end.

#[local] Instance plain_crypto : Crypto := {| sha256_hex := λ s, dots (String.length s) |}.
#[local] Instance plain_generators : Generators :=
  {| randomUUID := λ n, "id" +:+ dots n; randomToken := "token"; date_now := 1700000000000 |}.

Lemma plain_uuid n : str_truthy (randomUUID n) = true.
Proof. done. Qed.

Lemma plain_digest s : str_all (λ c, negb (is_ws c)) (sha256_hex s) = true.
Proof. cbn. induction (String.length s) as [|n IH]; [done|]. cbn. by rewrite IH. Qed.

Definition plain_entry (id pattern : string) (argPattern : option string) (allowAlways : bool) : ExecAllowlistEntry :=
  mkEntry (Some id) pattern allowAlways None argPattern None None None.

Definition levels (security ask : string) : ExecApprovalsDefaults := mkDefaults (JStr security) (JStr ask) JUndefined None.

Definition legacy_file : ExecApprovalsFile :=
  mkFile None None (Some (levels "deny" " always "))
    [("default", mkAgent noDefaults (Some [ItemText " /bin/ls "; ItemOther]));
     ("work", mkAgent (levels "none" "off") (Some [ItemEntry (plain_entry "" "/bin/cat" None false)]))].

Lemma normalization_is_idempotent_witness :
  ∃ f', normalizeExecApprovals legacy_file 0 = Some (f', 2%nat)
    ∧ f_agents f' = [("work", mkAgent (mkDefaults JUndefined (JStr "off") JUndefined None)
                                (Some [ItemEntry (plain_entry "id" "/bin/cat" None false)]));
                     ("main", mkAgent noDefaults (Some [ItemEntry (plain_entry "idd" "/bin/ls" None false)]))]
    ∧ normalizeExecApprovals f' 2 = Some (f', 2%nat).
Proof.
  eexists. split; [vm_compute; reflexivity|]. split; [vm_compute; reflexivity|].
  apply (normalization_is_idempotent plain_uuid legacy_file 0). vm_compute. reflexivity.
Defined.

Lemma remembered_approval_is_found_again_witness :
  let f := match normalizeExecApprovals legacy_file 0 with Some (f, _) => f | None => emptyFile end in
  let overrides := mkOverrides None None None None in
  let st := addDurableCommandApproval (mkEdit f (StoredFile f) 2) (Some "work") " make test " in
  ∃ r stored draws', resolveExecApprovals (es_stored st) (Some "work") overrides 9 = Some (r, stored, draws')
    ∧ hasDurableExecApproval false [] (Some (rs_allowlist r)) (Some " make test ") = true.
Proof.
  assert (Hn : normalizeExecApprovals legacy_file 0 =
    Some (match normalizeExecApprovals legacy_file 0 with Some (f, _) => f | None => emptyFile end, 2%nat)) by (vm_compute; reflexivity).
  exact (remembered_approval_is_found_again plain_uuid plain_digest legacy_file 0 _ 2 (Some "work") " make test "
    (mkOverrides None None None None) 9 false [] Hn ltac:(discriminate) eq_refl).
Defined.

(** Adding an entry that exists without the source rewrites the arguments of every entry
    with the same path: the approval for [a.py] is lost. *)
Lemma other_arguments_are_overwritten :
  let python := "/usr/bin/python3" in
  let file :=
    mkFile None None None
      [("main", mkAgent noDefaults (Some [ItemEntry (plain_entry "1" python (Some "^a.py$") true);
                                          ItemEntry (plain_entry "2" python (Some "^b.py$") false)]))] in
  let file' := es_approvals (addAllowlistEntry (mkEdit file (StoredFile file) 0) None python (Some "^b.py$") true) in
  map (λ item, match item with ItemEntry e => ae_argPattern e | _ => None end) (agentAllowlist file' "main")
    = [Some "^b.py$"; Some "^b.py$"].
Proof. vm_compute. reflexivity. Qed.

Definition masked_file : ExecApprovalsFile :=
  mkFile None None (Some (levels "deny" "on-miss"))
    [("*", mkAgent (levels "full" "always") None); ("runner", mkAgent (levels "foo" "Always") None)].

(** A level that is not one of the known ones masks the level for all agents when the file
    is resolved as it is, but not in a run, where the file was normalised before: there
    the agent gets the level of all agents instead of the default. *)
Lemma invalid_levels_are_not_masked_in_runs :
  let overrides := mkOverrides (Some Full) (Some AskOff) None None in
  let levelsOf (r : ExecApprovalsResolved) := (rp_security (rs_agent r), rp_ask (rs_agent r)) in
  option_map (λ p, levelsOf p.1) (resolveExecApprovalsFromFile masked_file (Some "runner") overrides None None None 0)
    = Some (Deny, AskOnMiss)
  ∧ option_map (λ p, levelsOf p.1.1) (resolveExecApprovals (StoredFile masked_file) (Some "runner") overrides 0)
    = Some (Full, AskAlways).
Proof. vm_compute. split; reflexivity. Qed.

(** Entries written as plain texts are kept, except when the entries of a legacy default
    agent are merged: then they are dropped. *)
Lemma merging_drops_plain_texts :
  let main := mkAgent noDefaults (Some [ItemText "/bin/ls"]) in
  let patternsOf f := option_map (λ p, map ae_pattern (entriesOf (Some (agentAllowlist p.1 "main")))) (normalizeExecApprovals f 0) in
  patternsOf (mkFile None None None [("main", main)]) = Some ["/bin/ls"]
  ∧ patternsOf (mkFile None None None [("main", main); ("default", mkAgent noDefaults None)]) = Some [].
Proof. vm_compute. split; reflexivity. Qed.

End ApprovalsFile.
