(* ===== verification/GatewayExec.v ===== *)
(** * Execution on the gateway

    src/agents/bash-tools.exec-host-gateway.ts and the context of
    src/agents/bash-tools.exec-host-shared.ts: which commands the gateway runs, which it
    holds until somebody approves them, and what an answer makes of a held command. The
    server that keeps the requests, the processes and the notices are outside: the
    answer of the registration and the decision are arguments. *)

From S2P Require Import Prelude ShellSyntax ShellReading NodePath ExecWrappers SafeBins CommandResolution InlineEval ShellAnalysis ExecAllowlist OMap ExecPolicy ApprovalsFile.

#[local] Open Scope stdpp_scope.

Module GatewayExec.
Export ExecAllowlist ApprovalsFile.

Section gateway.
Context `{Host} `{Crypto} `{Generators}.

(** ** Remembering patterns: persistAllowAlwaysPatterns *)

Definition persistPattern (agentId : option string) (st : EditState) (p : AllowAlwaysPattern) : EditState :=
  if negb (str_truthy (aw_pattern p)) then st else addAllowlistEntry st agentId (aw_pattern p) (aw_argPattern p) true.

Definition persistAllowAlwaysPatterns (st : EditState) (agentId : option string) (params : CollectParams)
    (segments : list ExecCommandSegment) : EditState * list AllowAlwaysPattern :=
  let patterns := resolveAllowAlwaysPatternEntries params segments in
  (foldl (persistPattern agentId) st patterns, patterns).

(** ** The context: resolveExecHostApprovalContext *)

Record ExecHostApprovalContext : Type := mkHostContext {
  hc_approvals : ExecApprovalsResolved;
  hc_hostSecurity : ExecSecurity;
  hc_hostAsk : ExecAsk;
  hc_askFallback : ExecSecurity;
}.

(** [inr]: it throws. The state is the file that the caller holds and the one on disk. *)
Definition resolveExecHostApprovalContext (stored : Stored) (agentId : option string) (security : ExecSecurity) (ask : ExecAsk)
    (host : string) (draws : nat) : (ExecHostApprovalContext * EditState) + string :=
  match resolveExecApprovals stored agentId (mkOverrides (Some security) (Some ask) None None) draws with
  | None => inr EmptyString
  | Some (approvals, stored', draws') =>
      let hostSecurity := minSecurity security (rp_security (rs_agent approvals)) in
      let hostAsk := maxAsk ask (rp_ask (rs_agent approvals)) in
      let askFallback := minSecurity hostSecurity (rp_askFallback (rs_agent approvals)) in
      if bool_decide (hostSecurity = Deny) then inr ("exec denied: host=" +:+ host +:+ " security=deny")
      else inl (mkHostContext approvals hostSecurity hostAsk askFallback, mkEdit (rs_file approvals) stored' draws')
  end.

(** ** The plan of a command *)

Record ProcessGatewayAllowlistParams : Type := mkGateway {
  gp_command : string;
  gp_workdir : string;
  gp_env : Env;
  gp_security : ExecSecurity;
  gp_ask : ExecAsk;
  gp_safeBins : list string;
  gp_safeBinProfiles : SafeBinProfiles;
  gp_strictInlineEval : bool;
  gp_trigger : option string;
  gp_agentId : option string;
  gp_trustedSafeBinDirs : option (list string);
}.

Definition hasGatewayAllowlistMiss (hostSecurity : ExecSecurity) (analysisOk allowlistSatisfied durable : bool) : bool :=
  bool_decide (hostSecurity = Allowlist) && (negb analysisOk || negb allowlistSatisfied) && negb durable.

Definition gatewayPlatform : option string := Some process_platform.

Definition gatewayAllowlistContext (p : ProcessGatewayAllowlistParams) (approvals : ExecApprovalsResolved) : ExecAllowlistContext :=
  mkContext (rs_allowlist approvals) (gp_safeBins p) (Some (gp_safeBinProfiles p)) (Some (gp_workdir p)) (Some (gp_env p))
    gatewayPlatform (gp_trustedSafeBinDirs p) None false.

Definition segmentArgv (segment : ExecCommandSegment) : list string :=
  match seg_resolution segment with Some r => effectiveArgv r | None => seg_argv segment end.

Definition inlineEvalHitOf (strict : bool) (segments : list ExecCommandSegment) : option InterpreterInlineEvalHit :=
  if strict then List.hd_error (base.omap (λ s, detectInterpreterInlineEvalArgv (segmentArgv s)) segments) else None.

Definition isHeredocSegment (segment : ExecCommandSegment) : bool := existsb (λ token, starts_with token "<<") (seg_argv segment).

Record GatewayPlan : Type := mkPlan {
  pl_context : ExecHostApprovalContext;
  pl_evaluation : ExecAllowlistAnalysis;
  pl_allowlistSatisfied : bool;
  pl_durable : bool;
  pl_inlineEvalHit : option InterpreterInlineEvalHit;
  pl_enforcedCommand : option string;
  pl_requiresHeredocApproval : bool;
  pl_requiresAllowlistPlanApproval : bool;
  pl_requiresAsk : bool;
}.

Definition gatewayPlan (p : ProcessGatewayAllowlistParams) (context : ExecHostApprovalContext) : GatewayPlan :=
  let approvals := hc_approvals context in
  let hostSecurity := hc_hostSecurity context in
  let evaluation := evaluateShellAllowlist (gatewayAllowlistContext p approvals) (gp_command p) in
  let analysisOk := aa_analysisOk evaluation in
  let allowlistSatisfied :=
    if bool_decide (hostSecurity = Allowlist) && analysisOk then aa_allowlistSatisfied evaluation else false in
  let durable :=
    hasDurableExecApproval analysisOk (aa_segmentAllowlistEntries evaluation) (Some (rs_allowlist approvals)) (Some (gp_command p)) in
  let inlineEvalHit := inlineEvalHitOf (gp_strictInlineEval p) (aa_segments evaluation) in
  let listed := bool_decide (hostSecurity = Allowlist) && analysisOk && allowlistSatisfied in
  let enforcedCommand :=
    if listed then
      match buildEnforcedShellCommand (gp_command p) (aa_segments evaluation) gatewayPlatform with
      | Accepted c => truthy (Some c)
      | Refused _ => None
      end
    else None in
  let requiresHeredocApproval := listed && existsb isHeredocSegment (aa_segments evaluation) in
  let requiresAllowlistPlanApproval := listed && match enforcedCommand with Some _ => false | None => true end in
  let requiresAsk :=
    requiresExecApproval (hc_hostAsk context) hostSecurity analysisOk allowlistSatisfied durable
    || requiresAllowlistPlanApproval || requiresHeredocApproval
    || match inlineEvalHit with Some _ => true | None => false end in
  mkPlan context evaluation allowlistSatisfied durable inlineEvalHit enforcedCommand requiresHeredocApproval
    requiresAllowlistPlanApproval requiresAsk.

Definition planResolvedPath (p : ProcessGatewayAllowlistParams) (plan : GatewayPlan) : option string :=
  resolveApprovalAuditCandidatePath (List.hd_error (aa_segments (pl_evaluation plan)) ≫= seg_resolution) (Some (gp_workdir p)).

Definition recordMatchedAllowlistUse (p : ProcessGatewayAllowlistParams) (plan : GatewayPlan) (st : EditState) : EditState :=
  recordAllowlistMatchesUse st (gp_agentId p) (aa_allowlistMatches (pl_evaluation plan)) (gp_command p) (planResolvedPath p plan).

Definition isInlineEval (plan : GatewayPlan) : bool := match pl_inlineEvalHit plan with Some _ => true | None => false end.

(** ** The command: processGatewayAllowlist *)

Definition inQuotes (s : string) : string := String dquote s +:+ String dquote EmptyString.

Definition buildHeadlessExecApprovalDeniedMessage (trigger : option string) (host : string) (security : ExecSecurity)
    (ask : ExecAsk) (askFallback : ExecSecurity) : string :=
  let runLabel := if isHeadlessExecTrigger trigger then "Cron runs" else "Headless runs" in
  join_with lineBreak
    ["exec denied: " +:+ runLabel +:+ " cannot wait for interactive exec approval.";
     "Effective host exec policy: security=" +:+ securityText security +:+ " ask=" +:+ askText ask
       +:+ " askFallback=" +:+ securityText askFallback;
     "Stricter values from tools.exec and ~/.openclaw/exec-approvals.json both apply.";
     "Fix one of these:";
     "- align both files to security=" +:+ inQuotes "full" +:+ " and ask=" +:+ inQuotes "off" +:+ " for trusted local automation";
     "- keep allowlist mode and add an explicit allowlist entry for this command";
     "- enable Web UI, terminal UI, or chat exec approvals and rerun interactively";
     "Tip: run " +:+ inQuotes "openclaw doctor" +:+ " and " +:+ inQuotes "openclaw approvals get --gateway"
       +:+ " to inspect the effective policy."].

Inductive GatewayResult : Type :=
| Thrown (message : string)
| RunNow (execCommandOverride : option string) (allowWithoutEnforcedCommand : bool) (st : EditState)
| Held (plan : GatewayPlan) (st : EditState).

(** [registration]: the decision that the registration already has ([undefined] is the
    outer [None]) and the reason why nobody can be asked. *)
Definition processGatewayAllowlist (p : ProcessGatewayAllowlistParams) (stored : Stored) (draws : nat)
    (registration : option (option string) * option ExecApprovalUnavailableReason) : GatewayResult :=
  match resolveExecHostApprovalContext stored (gp_agentId p) (gp_security p) (gp_ask p) "gateway" draws with
  | inr message => Thrown message
  | inl (context, st) =>
      let plan := gatewayPlan p context in
      if pl_requiresAsk plan then
        let '(preResolvedDecision, unavailableReason) := registration in
        if shouldResolveExecApprovalUnavailableInline (gp_trigger p) unavailableReason preResolvedDecision then
          let base := createExecApprovalDecisionState (default None preResolvedDecision) (hc_askFallback context) in
          let '(approved, deniedReason) :=
            enforceStrictInlineEvalApprovalBoundary (ds_timedOut base) (ds_approvedByAsk base) (ds_deniedReason base) (isInlineEval plan) in
          if ostr_truthy deniedReason || negb approved then
            Thrown (buildHeadlessExecApprovalDeniedMessage (gp_trigger p) "gateway" (hc_hostSecurity context) (hc_hostAsk context)
              (hc_askFallback context))
          else
            RunNow (pl_enforcedCommand plan) (match pl_enforcedCommand plan with Some _ => false | None => true end)
              (recordMatchedAllowlistUse p plan st)
        else Held plan st
      else if hasGatewayAllowlistMiss (hc_hostSecurity context) (aa_analysisOk (pl_evaluation plan)) (pl_allowlistSatisfied plan)
                (pl_durable plan)
      then Thrown "exec denied: allowlist miss"
      else RunNow (pl_enforcedCommand plan) false (recordMatchedAllowlistUse p plan st)
  end.

(** ** The answer to a held command *)

Inductive FollowupResult : Type :=
| RequestFailed
| FollowupDenied (reason : string) (st : EditState)
| FollowupRun (execCommand : option string) (st : EditState).

Definition collectParams (p : ProcessGatewayAllowlistParams) : CollectParams :=
  mkCollect (Some (gp_workdir p)) (Some (gp_env p)) gatewayPlatform (gp_strictInlineEval p).

(** [decision] is [None] when waiting for it failed; [st] has the file that the command
    was held with and the file on disk now. *)
Definition gatewayFollowup (p : ProcessGatewayAllowlistParams) (plan : GatewayPlan) (decision : option (option string))
    (st : EditState) : FollowupResult :=
  match decision with
  | None => RequestFailed
  | Some decision =>
      let context := pl_context plan in
      let analysisOk := aa_analysisOk (pl_evaluation plan) in
      let base := createExecApprovalDecisionState decision (hc_askFallback context) in
      let '(approved, denied, st1) :=
        if ds_timedOut base && bool_decide (hc_askFallback context = Allowlist) then
          if negb analysisOk || negb (pl_allowlistSatisfied plan)
          then (ds_approvedByAsk base, Some "approval-timeout (allowlist-miss)", st)
          else (true, ds_deniedReason base, st)
        else if bool_decide (decision = Some "allow-once") then (true, ds_deniedReason base, st)
        else if bool_decide (decision = Some "allow-always") then
          (true, ds_deniedReason base,
           if isInlineEval plan then st
           else
             match persistAllowAlwaysPatterns st (gp_agentId p) (collectParams p) (aa_segments (pl_evaluation plan)) with
             | (st', []) => addDurableCommandApproval st' (gp_agentId p) (gp_command p)
             | (st', _) => st'
             end)
        else (ds_approvedByAsk base, ds_deniedReason base, st) in
      let '(approved, denied) := enforceStrictInlineEvalApprovalBoundary (ds_timedOut base) approved denied (isInlineEval plan) in
      let denied :=
        if negb approved
           && hasGatewayAllowlistMiss (hc_hostSecurity context) analysisOk (pl_allowlistSatisfied plan) (pl_durable plan)
        then Some (default "allowlist-miss" denied) else denied in
      match truthy denied with
      | Some reason => FollowupDenied reason st1
      | None => FollowupRun (pl_enforcedCommand plan) (recordMatchedAllowlistUse p plan st1)
      end
  end.

(** ** What runs *)

Lemma minSecurity_Full a b : minSecurity a b = Full → a = Full ∧ b = Full.
Proof. by destruct a, b. Qed.

Lemma minSecurity_le a b : securityOrder (minSecurity a b) <= securityOrder a.
Proof. by destruct a, b. Qed.

(** The context never grants more than the file or the caller does. *)
Lemma context_levels stored agentId security ask host draws context st :
  resolveExecHostApprovalContext stored agentId security ask host draws = inl (context, st) →
  hc_hostSecurity context ≠ Deny
  ∧ securityOrder (hc_hostSecurity context) <= securityOrder security
  ∧ askOrder ask <= askOrder (hc_hostAsk context)
  ∧ (hc_askFallback context = Full → hc_hostSecurity context = Full).
Proof.
  unfold resolveExecHostApprovalContext. destruct (resolveExecApprovals _ _ _ _) as [[[approvals stored'] draws']|]; [|done].
  cbv zeta. destruct (bool_decide _) eqn:E; [done|]. apply bool_decide_eq_false in E. intros [= <- <-]. cbn.
  split_and!; [done|apply minSecurity_le|rewrite maxAsk_spec; lia|]. by intros [? _]%minSecurity_Full.
Qed.

(** A command on the allowlist, as the plan sees it. *)
Definition listed (plan : GatewayPlan) : bool :=
  bool_decide (hc_hostSecurity (pl_context plan) = Allowlist) && aa_analysisOk (pl_evaluation plan) && pl_allowlistSatisfied plan.

(** [out] runs the planned vectors of segments that each have grounds. *)
Definition runs_granted (p : ProcessGatewayAllowlistParams) (context : ExecHostApprovalContext) (out : string) : Prop :=
  let cx := gatewayAllowlistContext p (hc_approvals context) in
  let evaluation := evaluateShellAllowlist cx (gp_command p) in
  Forall2 (recorded (grounds cx)) (aa_segments evaluation) (aa_segmentSatisfiedBy evaluation)
  ∧ ∃ groups, runs_plan (gp_command p) out (aa_segments evaluation) groups.

Lemma plan_enforced_granted p context out :
  isWindowsPlatform gatewayPlatform = false →
  pl_enforcedCommand (gatewayPlan p context) = Some out → runs_granted p context out.
Proof.
  intros Hw. unfold gatewayPlan, runs_granted. cbv zeta. cbn [pl_enforcedCommand].
  destruct (_ && _ && _) eqn:El; [|done]. apply andb_true_iff in El as [El Hs]. rewrite El in Hs.
  destruct (buildEnforcedShellCommand _ _ _) as [c|] eqn:Eb; [|done]. intros [Hc _]%truthy_Some. injection Hc as ->.
  split; [by apply evaluateShellAllowlist_grounds|]. by eapply buildEnforcedShellCommand_reads.
Qed.

(** A plan that needs no answer. *)
Lemma plan_not_asked p context :
  pl_requiresAsk (gatewayPlan p context) = false →
  let plan := gatewayPlan p context in
  hc_hostAsk context ≠ AskAlways ∧ pl_inlineEvalHit plan = None
  ∧ (listed plan = true → ∃ out, pl_enforcedCommand plan = Some out)
  ∧ (listed plan = false → pl_enforcedCommand plan = None).
Proof.
  unfold gatewayPlan, listed. cbv zeta.
  cbn [pl_requiresAsk pl_inlineEvalHit pl_enforcedCommand pl_context pl_evaluation pl_allowlistSatisfied].
  intros [[[Ha Hp]%orb_false_iff _]%orb_false_iff Hi]%orb_false_iff. split_and!.
  - intros Hask. by rewrite Hask in Ha.
  - by destruct (inlineEvalHitOf _ _).
  - intros Hl. rewrite Hl in Hp |- *. cbn [andb] in Hp. destruct (match buildEnforcedShellCommand _ _ _ with Accepted c => _ | _ => _ end); [|done].
    by eexists.
  - intros Hl. by rewrite Hl.
Qed.

(** Without an answer only the fallback [full] approves. *)
Lemma unanswered_approved fallback inline :
  let base := createExecApprovalDecisionState None fallback in
  let '(approved, denied) :=
    enforceStrictInlineEvalApprovalBoundary (ds_timedOut base) (ds_approvedByAsk base) (ds_deniedReason base) inline in
  ostr_truthy denied || negb approved = false → fallback = Full ∧ inline = false.
Proof. by destruct fallback, inline. Qed.

(** The exact text of the command was approved for always, or every segment that was
    evaluated matches an entry approved for always. *)
Definition approved_for_always (p : ProcessGatewayAllowlistParams) (context : ExecHostApprovalContext) : Prop :=
  let entries := rs_allowlist (hc_approvals context) in
  let evaluation := evaluateShellAllowlist (gatewayAllowlistContext p (hc_approvals context)) (gp_command p) in
  (∃ e, e ∈ entries ∧ ae_allowAlways e = true
     ∧ (ae_pattern e = buildDurableCommandApprovalPattern (trim (gp_command p))
        ∨ ∃ t, ae_commandText e = Some t ∧ trim t = trim (gp_command p)))
  ∨ (aa_analysisOk evaluation = true ∧ aa_segmentAllowlistEntries evaluation ≠ []
     ∧ Forall (λ entry, ∃ e, entry = Some e ∧ ae_allowAlways e = true) (aa_segmentAllowlistEntries evaluation)).

Lemma durable_approved p context : pl_durable (gatewayPlan p context) = true → approved_for_always p context.
Proof.
  unfold approved_for_always. change (pl_durable _) with
    (hasDurableExecApproval (aa_analysisOk (evaluateShellAllowlist (gatewayAllowlistContext p (hc_approvals context)) (gp_command p)))
       (aa_segmentAllowlistEntries (evaluateShellAllowlist (gatewayAllowlistContext p (hc_approvals context)) (gp_command p)))
       (Some (rs_allowlist (hc_approvals context))) (Some (gp_command p))).
  unfold hasDurableExecApproval. cbv zeta. intros [Hd|Hd]%orb_true_iff.
  - left. unfold hasExactCommandDurableExecApproval in Hd. cbn [fmap option_fmap option_map] in Hd.
    destruct (truthy (Some (trim (gp_command p)))) as [c|] eqn:Ec; [|done].
    apply truthy_Some in Ec as [[= <-] _]. apply existsb_exists in Hd as (e & He & Hm).
    apply andb_true_iff in Hm as [Ha Hm]. exists e. split_and!; [by apply list_elem_of_In|done|].
    apply orb_true_iff in Hm as [Hm|Hm]; [left; by apply String.eqb_eq|].
    right. destruct (ae_commandText e) as [t|]; [|done]. exists t. split; [done|by apply String.eqb_eq].
  - right. unfold hasSegmentDurableExecApproval in Hd. apply andb_true_iff in Hd as [Hd Hall].
    apply andb_true_iff in Hd as [Hok Hlen]. split_and!; [done| |].
    + intros E. by rewrite E in Hlen.
    + apply Forall_forall. intros entry He%list_elem_of_In. rewrite forallb_forall in Hall. specialize (Hall entry He).
      destruct entry as [e|]; [by exists e|done].
Qed.

(** C1. What the gateway runs at once ([processGatewayAllowlist]) is permitted: the effective
    level is not [deny]; under the strict rule the detector of inline programs finds none
    (it misses combined options, [InlineEval.combined_flags_not_seen]); asking every time
    is only skipped for a cron run that nobody can answer and whose fallback is [full];
    and at the level [allowlist] either the line that runs is read by a POSIX shell as the
    planned argument vectors of the segments, each of which has grounds, or the command is
    not on the allowlist and was approved for always, by its exact text or by its
    segments. The last is what the code and its tests do and what docs/tools/exec.md
    denies for chains ([approved_chain_runs_off_the_list]). *)
Theorem gateway_runs_what_is_permitted p stored draws registration override allowWithout st :
  isWindowsPlatform gatewayPlatform = false →
  processGatewayAllowlist p stored draws registration = RunNow override allowWithout st →
  ∃ context st0,
    resolveExecHostApprovalContext stored (gp_agentId p) (gp_security p) (gp_ask p) "gateway" draws = inl (context, st0)
    ∧ let plan := gatewayPlan p context in
      hc_hostSecurity context ≠ Deny
      ∧ pl_inlineEvalHit plan = None
      ∧ (hc_hostAsk context = AskAlways → hc_askFallback context = Full ∧ gp_trigger p = Some "cron")
      ∧ (hc_hostSecurity context = Allowlist →
          (∃ out, override = Some out ∧ runs_granted p context out)
          ∨ (override = None ∧ listed plan = false ∧ approved_for_always p context)).
Proof.
  intros Hw. unfold processGatewayAllowlist.
  destruct (resolveExecHostApprovalContext _ _ _ _ _ _) as [[context st0]|] eqn:Ec; [|done].
  intros Hrun. exists context, st0. split; [done|]. cbv zeta in Hrun |- *.
  apply context_levels in Ec as (Hd & _ & _ & Hf). split; [done|].
  destruct (pl_requiresAsk (gatewayPlan p context)) eqn:Ea.
  - destruct registration as [pre unavailable]. destruct (shouldResolveExecApprovalUnavailableInline _ _ _) eqn:Es; [|done].
    unfold shouldResolveExecApprovalUnavailableInline in Es. apply andb_true_iff in Es as [Es Hpre%bool_decide_eq_true].
    apply andb_true_iff in Es as [Htrigger%bool_decide_eq_true _]. subst pre. cbn [default from_option id] in Hrun.
    pose proof (unanswered_approved (hc_askFallback context) (isInlineEval (gatewayPlan p context))) as Hu.
    cbv zeta in Hu. destruct (enforceStrictInlineEvalApprovalBoundary _ _ _ _) as [approved denied].
    destruct (ostr_truthy denied || negb approved); [done|]. destruct (Hu eq_refl) as [Hfull Hi].
    unfold isInlineEval in Hi. split_and!; [by destruct (pl_inlineEvalHit _)|done|]. intros Hal. by rewrite (Hf Hfull) in Hal.
  - destruct (plan_not_asked _ _ Ea) as (Hask & Hi & Hl & Hnl). destruct (hasGatewayAllowlistMiss _ _ _ _) eqn:Em; [done|].
    injection Hrun as <- _ _. split_and!; [done|done|]. intros Hal. destruct (listed (gatewayPlan p context)) eqn:El.
    + destruct (Hl eq_refl) as [out Hout]. left. exists out. split; [done|by apply plan_enforced_granted].
    + right. split_and!; [by apply Hnl|done|]. unfold hasGatewayAllowlistMiss in Em. unfold listed in El.
      change (pl_context (gatewayPlan p context)) with context in El. rewrite Hal in Em, El.
      rewrite bool_decide_true in Em, El by done. cbn [andb] in Em, El.
      rewrite <- negb_andb, El in Em. cbn [negb andb] in Em. by apply negb_false_iff, durable_approved in Em.
Qed.

(** When an answer, or none in time, lets a held command run. *)
Definition answer_allows (plan : GatewayPlan) (decision : option string) : Prop :=
  let context := pl_context plan in
  let ok := aa_analysisOk (pl_evaluation plan) in
  decision = Some "allow-once" ∨ decision = Some "allow-always"
  ∨ (truthy decision = None ∧ pl_inlineEvalHit plan = None
     ∧ (hc_askFallback context = Full
        ∨ (hc_askFallback context = Allowlist ∧ ok = true ∧ pl_allowlistSatisfied plan = true)))
  ∨ (truthy decision ≠ None ∧ decision ≠ Some "deny"
     ∧ hasGatewayAllowlistMiss (hc_hostSecurity context) ok (pl_allowlistSatisfied plan) (pl_durable plan) = false).

(** The outcome of the answer, without the changes to the file. *)
Lemma followup_answer p plan decision st :
  match gatewayFollowup p plan (Some decision) st with
  | FollowupRun cmd _ => cmd = pl_enforcedCommand plan ∧ answer_allows plan decision
  | FollowupDenied _ _ => ¬ answer_allows plan decision
  | RequestFailed => False
  end.
Proof.
  unfold answer_allows. unfold gatewayFollowup, createExecApprovalDecisionState, resolveBaseExecApprovalDecision, isInlineEval.
  set (miss := hasGatewayAllowlistMiss _ _ _ _). cbv zeta.
  destruct (bool_decide_reflect (decision = Some "deny")) as [->|Ed].
  { cbn [ds_timedOut ds_approvedByAsk ds_deniedReason andb]. unfold enforceStrictInlineEvalApprovalBoundary.
    rewrite !bool_decide_false by done. cbn [negb orb andb]. destruct miss; cbn; naive_solver. }
  destruct (truthy decision) as [d|] eqn:Et.
  - cbn [ds_timedOut ds_approvedByAsk ds_deniedReason andb]. unfold enforceStrictInlineEvalApprovalBoundary. cbn [negb orb].
    destruct (bool_decide_reflect (decision = Some "allow-once")) as [E1|E1]; [cbn [negb andb truthy]; by split; [|left]|].
    destruct (bool_decide_reflect (decision = Some "allow-always")) as [E2|E2]; [cbn [negb andb truthy]; by split; [|right; left]|].
    destruct miss; cbn [negb andb truthy default from_option]; naive_solver.
  - assert (decision ≠ Some "allow-once") as E1 by (by intros ->).
    assert (decision ≠ Some "allow-always") as E2 by (by intros ->).
    rewrite !(bool_decide_false (decision = _)) by done. unfold enforceStrictInlineEvalApprovalBoundary.
    destruct (hc_askFallback (pl_context plan)) eqn:Ef; cbn [ds_timedOut ds_approvedByAsk ds_deniedReason andb negb orb bool_decide];
      [rewrite bool_decide_false by done|rewrite bool_decide_true by done|rewrite bool_decide_false by done].
    all: destruct (pl_inlineEvalHit plan) eqn:Ei, (aa_analysisOk (pl_evaluation plan)) eqn:Eo, (pl_allowlistSatisfied plan) eqn:Es, miss;
      cbn [negb orb andb truthy default from_option]; naive_solver.
Qed.

(** C7. A held command runs ([gatewayFollowup]) exactly when the answer allows it once or
    always; or when no answer came in time, the detector of inline programs finds none
    under the strict rule, and the fallback is [full], or is [allowlist] and the command is
    on the allowlist; or when the answer has another text than these and [deny], and the
    allowlist is no obstacle. Then the planned line runs; a refusal never runs it. *)
Theorem held_command_runs_when_allowed p plan decision st :
  ((∃ cmd st', gatewayFollowup p plan (Some decision) st = FollowupRun cmd st') ↔ answer_allows plan decision)
  ∧ (∀ cmd st', gatewayFollowup p plan (Some decision) st = FollowupRun cmd st' → cmd = pl_enforcedCommand plan)
  ∧ ¬ answer_allows plan (Some "deny").
Proof.
  pose proof (followup_answer p plan decision st) as Hf. split_and!.
  - destruct (gatewayFollowup _ _ _ _) as [|reason st1|cmd st1]; [done| |].
    + split; [by intros (? & ? & ?)|done].
    + destruct Hf as [_ Ha]. split; [done|]. intros _. by exists cmd, st1.
  - intros cmd st' E. rewrite E in Hf. by destruct Hf.
  - unfold answer_allows. intros [?|[?|[[? _]|(_ & ? & _)]]]; done.
Qed.

End gateway.

(** ** Concrete runs *)

#[local] Instance gateway_host : Host :=
  {| host_process := {| process_platform := "linux" |}; win32_path := posix_path; process_cwd := "/";
     process_env := λ k, if String.eqb k "PATH" then Some "/bin" else None; os_homedir := Some "/home/me";
     stat_isFile := λ p, set_has ["/bin/ls"; "/bin/cat"; "/bin/rm"; "/bin/wc"] p; access_executable := λ _, true;
     realpathSync := λ _, None; compile_regexp := λ _, None |}.

#[local] Instance gateway_crypto : Crypto := {| sha256_hex := λ s, dots (String.length s) |}.
#[local] Instance gateway_generators : Generators :=
  {| randomUUID := λ n, "id" +:+ dots n; randomToken := "token"; date_now := 1700000000000 |}.

Definition gatewayParams (command : string) (security : ExecSecurity) (ask : ExecAsk) (trigger : option string) :
    ProcessGatewayAllowlistParams :=
  mkGateway command "/work" (λ _, None) security ask ["wc"] SAFE_BIN_PROFILES true trigger None None.

Definition ls_file : Stored :=
  StoredFile (mkFile None None (Some (levels "allowlist" "on-miss"))
    [("*", mkAgent noDefaults (Some [ItemEntry (plain_entry "1" "/bin/ls" None false)]))]).

Lemma gateway_runs_what_is_permitted_witness :
  ∃ st context,
    processGatewayAllowlist (gatewayParams "ls '*' | wc" Full AskOff None) ls_file 0 (None, None)
      = RunNow (Some "'/bin/ls' '*' | '/bin/wc'") false st
    ∧ hc_hostSecurity context = Allowlist
    ∧ runs_granted (gatewayParams "ls '*' | wc" Full AskOff None) context "'/bin/ls' '*' | '/bin/wc'".
Proof.
  destruct (processGatewayAllowlist (gatewayParams "ls '*' | wc" Full AskOff None) ls_file 0 (None, None)) as [m|out al st|pl st] eqn:Hr;
    [exfalso; revert Hr; by vm_compute| |exfalso; revert Hr; by vm_compute].
  assert (Ho : Some (out, al) = Some (Some "'/bin/ls' '*' | '/bin/wc'", false)).
  { transitivity (match processGatewayAllowlist (gatewayParams "ls '*' | wc" Full AskOff None) ls_file 0 (None, None) with
                  | RunNow o a _ => Some (o, a) | _ => None end); [by rewrite Hr|by vm_compute]. }
  injection Ho as -> ->.
  destruct (gateway_runs_what_is_permitted (H := gateway_host) (gatewayParams "ls '*' | wc" Full AskOff None) ls_file 0 (None, None) _ _ _ eq_refl Hr)
    as (context & st0 & Hc & Hd & Hi & Hask & Hal).
  change (resolveExecHostApprovalContext ls_file None Full AskOff "gateway" 0 = inl (context, st0)) in Hc.
  assert (Hs : hc_hostSecurity context = Allowlist).
  { transitivity (match resolveExecHostApprovalContext ls_file None Full AskOff "gateway" 0 with
                  | inl (c, _) => hc_hostSecurity c | inr _ => Deny end); [by rewrite Hc|by vm_compute]. }
  exists st, context. split; [reflexivity|]. split; [exact Hs|].
  destruct (Hal Hs) as [(out & Ho & Hg)|(Ho & _)]; [injection Ho as <-; exact Hg|discriminate].
Defined.

(** The plan and the state of a command that waits for an answer. *)
Definition heldOf (r : GatewayResult) : option (GatewayPlan * EditState) :=
  match r with Held plan st => Some (plan, st) | _ => None end.

Definition rm_params : ProcessGatewayAllowlistParams := gatewayParams "rm -f x" Allowlist AskOnMiss None.

Lemma held_command_runs_when_allowed_witness :
  ∃ plan st cmd st',
    heldOf (processGatewayAllowlist rm_params ls_file 0 (None, None)) = Some (plan, st)
    ∧ gatewayFollowup rm_params plan (Some (Some "allow-once")) st = FollowupRun cmd st'
    ∧ cmd = pl_enforcedCommand plan.
Proof.
  destruct (heldOf (processGatewayAllowlist rm_params ls_file 0 (None, None))) as [[plan st]|] eqn:Hh;
    [|exfalso; revert Hh; by vm_compute].
  destruct (held_command_runs_when_allowed rm_params plan (Some "allow-once") st) as (Hruns & Hcmd & _).
  destruct (proj2 Hruns (or_introl eq_refl)) as (cmd & st' & Hf).
  exists plan, st, cmd, st'. split; [reflexivity|]. split; [exact Hf|exact (Hcmd _ _ Hf)].
Defined.

(** A chain that was approved for always by its exact text runs although none of its
    segments is on the allowlist. *)
Lemma approved_chain_runs_off_the_list :
  let p := gatewayParams "rm -f x; cat y" Allowlist AskOnMiss None in
  let file := StoredFile (mkFile None None (Some (levels "allowlist" "on-miss"))
    [("*", mkAgent noDefaults
       (Some [ItemEntry (plain_entry "1" (buildDurableCommandApprovalPattern (gp_command p)) None true)]))]) in
  match processGatewayAllowlist p file 0 (None, None), resolveExecHostApprovalContext file None Allowlist AskOnMiss "gateway" 0 with
  | RunNow None false _, inl (context, _) =>
      aa_allowlistSatisfied (evaluateShellAllowlist (gatewayAllowlistContext p (hc_approvals context)) (gp_command p)) = false
      ∧ aa_allowlistMatches (evaluateShellAllowlist (gatewayAllowlistContext p (hc_approvals context)) (gp_command p)) = []
  | _, _ => False
  end.
Proof. vm_compute. auto. Qed.

Definition storedPatterns (s : Stored) (agent : string) : list string :=
  match s with StoredFile f => map ae_pattern (entriesOf (Some (agentAllowlist f agent))) | _ => [] end.

Definition afterAnswer (r : FollowupResult) (st : EditState) : EditState :=
  match r with FollowupRun _ st' => st' | FollowupDenied _ st' => st' | RequestFailed => st end.

(** Two commands wait at the same time, and both are allowed for always: each keeps the
    file that it was held with, so that the second answer writes a file without what the
    first one added. *)
Lemma second_approval_forgets_the_first :
  let cat_params := gatewayParams "cat y" Allowlist AskOnMiss None in
  let disk0 := StoredFile (mkFile None None (Some (levels "allowlist" "on-miss")) []) in
  let answer p plan st := afterAnswer (gatewayFollowup p plan (Some (Some "allow-always")) st) st in
  match heldOf (processGatewayAllowlist rm_params disk0 0 (None, None)),
        heldOf (processGatewayAllowlist cat_params disk0 10 (None, None)) with
  | Some (plan1, st1), Some (plan2, st2) =>
      let first := answer rm_params plan1 st1 in
      let second := answer cat_params plan2 (mkEdit (es_approvals st2) (es_stored first) 20) in
      storedPatterns (es_stored first) "main" = ["/bin/rm"] ∧ storedPatterns (es_stored second) "main" = ["/bin/cat"]
  | _, _ => False
  end.
Proof. vm_compute. split; reflexivity. Qed.

End GatewayExec.
