(* ===== verification/EffectivePolicy.v ===== *)
(** * The policy that is shown, and the commands of nodes

    src/infra/exec-approvals-effective.ts: the levels that the tools configuration
    requests, those of the approvals file, and the ones that apply, for the whole
    configuration and for each agent. src/node-host/invoke-system-run-allowlist.ts: how a
    node evaluates a command and what it executes of it. *)

From S2P Require Import Prelude ShellSyntax NodePath ExecWrappers SafeBins CommandResolution ShellAnalysis ExecAllowlist OMap ExecPolicy ApprovalsFile GatewayExec.

#[local] Open Scope stdpp_scope.

Module EffectivePolicy.
Export GatewayExec.

Definition DEFAULT_REQUESTED_SECURITY : ExecSecurity := Full.
Definition DEFAULT_REQUESTED_ASK : ExecAsk := AskOff.
Definition DEFAULT_HOST_PATH : string := "~/.openclaw/exec-approvals.json".

Record ExecPolicyConfig : Type := mkExecConfig {
  ec_host : option ExecTarget;
  ec_security : option ExecSecurity;
  ec_ask : option ExecAsk;
}.

(** Where a requested value comes from: the scope, [tools.exec], or the default. *)
Inductive RequestedSource : Type := FromScope | FromTools | FromDefault.

(** [resolveRequestedHost] and [resolveRequestedField] *)
Definition resolveRequested {A} (get : ExecPolicyConfig → option A) (defaultValue : A)
    (scopeExecConfig globalExecConfig : option ExecPolicyConfig) : A * RequestedSource :=
  match scopeExecConfig ≫= get with
  | Some v => (v, FromScope)
  | None =>
      match globalExecConfig ≫= get with
      | Some v => (v, FromTools)
      | None => (defaultValue, FromDefault)
      end
  end.

Definition sourcePath (source : RequestedSource) (configPath : string) : string :=
  match source with FromScope => configPath | FromTools => "tools.exec" | FromDefault => "__default__" end.

Definition formatRequestedSource (path field defaultText : string) : string :=
  if String.eqb path "__default__" then "OpenClaw default (" +:+ defaultText +:+ ")" else path +:+ "." +:+ field.

Definition formatHostFieldSource (hostPath field : string) (sourceSuffix : option string) : string :=
  match truthy sourceSuffix with
  | Some suffix => hostPath +:+ " " +:+ suffix
  | None =>
      if String.eqb field "askFallback"
      then "OpenClaw default (" +:+ securityText DEFAULT_EXEC_APPROVAL_ASK_FALLBACK +:+ ")"
      else "inherits requested tool policy"
  end.

Definition resolveAskNote (requestedAsk effectiveAsk : ExecAsk) : string :=
  if bool_decide (effectiveAsk = requestedAsk) then "requested ask applies" else "more aggressive ask wins".

Record ExecPolicyFieldSummary (A : Type) : Type := mkSummary {
  fs_requested : A;
  fs_requestedSource : string;
  fs_host : A;
  fs_hostSource : string;
  fs_effective : A;
  fs_note : string;
}.
Arguments mkSummary {A}. Arguments fs_effective {A}. Arguments fs_requested {A}. Arguments fs_host {A}.

Record ExecPolicyScopeSnapshot : Type := mkSnapshot {
  ss_scopeLabel : string;
  ss_configPath : string;
  ss_agentId : option string;
  ss_hostRequested : ExecTarget;
  ss_hostRequestedSource : string;
  ss_security : ExecPolicyFieldSummary ExecSecurity;
  ss_ask : ExecPolicyFieldSummary ExecAsk;
  ss_askFallback : ExecSecurity;
  ss_askFallbackSource : string;
  ss_allowedDecisions : list ExecApprovalDecision;
}.

Section effective.
Context `{Host} `{Crypto} `{Generators}.

Definition resolveExecPolicyScopeSnapshot (approvals : ExecApprovalsFile) (scopeExecConfig globalExecConfig : option ExecPolicyConfig)
    (configPath scopeLabel : string) (agentId hostPath : option string) (draws : nat) : option ExecPolicyScopeSnapshot :=
  let '(security, securitySource) := resolveRequested ec_security DEFAULT_REQUESTED_SECURITY scopeExecConfig globalExecConfig in
  let '(host, hostSource) := resolveRequested ec_host Auto scopeExecConfig globalExecConfig in
  let '(ask, askSource) := resolveRequested ec_ask DEFAULT_REQUESTED_ASK scopeExecConfig globalExecConfig in
  match resolveExecApprovalsFromFile approvals agentId (mkOverrides (Some security) (Some ask) None None) None None None draws with
  | None => None
  | Some (resolved, _) =>
      let path := default DEFAULT_HOST_PATH hostPath in
      let effectiveSecurity := minSecurity security (rp_security (rs_agent resolved)) in
      let effectiveAsk := maxAsk ask (rp_ask (rs_agent resolved)) in
      let effectiveAskFallback := minSecurity effectiveSecurity (rp_askFallback (rs_agent resolved)) in
      Some (mkSnapshot scopeLabel configPath (truthy agentId) host
        (match hostSource with FromDefault => "OpenClaw default (auto)" | _ => sourcePath hostSource configPath +:+ ".host" end)
        (mkSummary security
          (formatRequestedSource (sourcePath securitySource configPath) "security" (securityText DEFAULT_REQUESTED_SECURITY))
          (rp_security (rs_agent resolved)) (formatHostFieldSource path "security" (rs_securitySource resolved)) effectiveSecurity
          (if bool_decide (effectiveSecurity = security) then "requested security applies" else "stricter host security wins"))
        (mkSummary ask (formatRequestedSource (sourcePath askSource configPath) "ask" (askText DEFAULT_REQUESTED_ASK))
          (rp_ask (rs_agent resolved)) (formatHostFieldSource path "ask" (rs_askSource resolved)) effectiveAsk
          (resolveAskNote ask effectiveAsk))
        effectiveAskFallback (formatHostFieldSource path "askFallback" (rs_askFallbackSource resolved))
        (resolveExecApprovalAllowedDecisions (Some (askText effectiveAsk))))
  end.

(** ** A node's evaluation of a command *)

Record SystemRunAllowlistAnalysis : Type := mkSystemRun {
  sr_analysisOk : bool;
  sr_allowlistMatches : list ExecAllowlistEntry;
  sr_allowlistSatisfied : bool;
  sr_segments : list ExecCommandSegment;
  sr_segmentAllowlistEntries : list (option ExecAllowlistEntry);
}.

Record SystemRunAllowlistParams : Type := mkSystemRunParams {
  sp_shellCommand : option string;
  sp_argv : list string;
  sp_allowlist : list ExecAllowlistEntry;
  sp_security : ExecSecurity;
  sp_safeBins : list string;
  sp_safeBinProfiles : SafeBinProfiles;
  sp_trustedSafeBinDirs : option (list string);
  sp_cwd : option string;
  sp_env : option Env;
  sp_skillBins : list SkillBinTrustEntry;
  sp_autoAllowSkills : bool;
}.

Definition evaluateSystemRunAllowlist (p : SystemRunAllowlistParams) : SystemRunAllowlistAnalysis :=
  let context env platform :=
    mkContext (sp_allowlist p) (sp_safeBins p) (Some (sp_safeBinProfiles p)) (sp_cwd p) env platform (sp_trustedSafeBinDirs p)
      (Some (sp_skillBins p)) (sp_autoAllowSkills p) in
  let satisfied ok b := if bool_decide (sp_security p = Allowlist) && ok then b else false in
  match truthy (sp_shellCommand p) with
  | Some command =>
      let e := evaluateShellAllowlist (context (sp_env p) gatewayPlatform) command in
      mkSystemRun (aa_analysisOk e) (aa_allowlistMatches e) (satisfied (aa_analysisOk e) (aa_allowlistSatisfied e))
        (aa_segments e) (aa_segmentAllowlistEntries e)
  | None =>
      let analysis := analyzeArgvCommand (sp_argv p) (sp_cwd p) (sp_env p) in
      let e := evaluateExecAllowlist (context None None) analysis in
      mkSystemRun (an_ok analysis) (ev_allowlistMatches e) (satisfied (an_ok analysis) (ev_allowlistSatisfied e))
        (an_segments analysis) (ev_segmentAllowlistEntries e)
  end.

(** [undefined] is the outer [None], [null] the inner one. *)
Definition resolvePlannedAllowlistArgv (security : ExecSecurity) (shellCommand : option string) (policy : SystemRunPolicyDecision)
    (segments : list ExecCommandSegment) : option (option (list string)) :=
  match segments with
  | [segment] =>
      if negb (bool_decide (security = Allowlist)) || pd_approvedByAsk policy || ostr_truthy shellCommand
         || negb (pd_analysisOk policy) || negb (pd_allowlistSatisfied policy) then None
      else
        match resolvePlannedSegmentArgv segment with
        | Some (_ :: _ as argv) => Some (Some argv)
        | _ => Some None
        end
  | _ => None
  end.

Definition resolveSystemRunExecArgv (plannedAllowlistArgv : option (list string)) (argv : list string) (security : ExecSecurity)
    (isWindows : bool) (policy : SystemRunPolicyDecision) (shellCommand : option string) (segments : list ExecCommandSegment)
    : list string :=
  let execArgv := default argv plannedAllowlistArgv in
  match segments with
  | [segment] =>
      if bool_decide (security = Allowlist) && isWindows && negb (pd_approvedByAsk policy) && ostr_truthy shellCommand
         && pd_analysisOk policy && pd_allowlistSatisfied policy && (0 <? length (seg_argv segment))%nat
      then seg_argv segment
      else execArgv
  | _ => execArgv
  end.

(** ** Properties *)

Hypothesis uuid_nonempty : ∀ n, str_truthy (randomUUID n) = true.


End effective.


End EffectivePolicy.
