(* ===== verification/TranscriptRepair.v ===== *)
(** * Repairing transcripts: src/agents/session-transcript-repair.ts

    With the readers of tool calls of src/agents/tool-call-id.ts. Where the code
    compares references to see whether something changed, the model returns a flag.
    The clock reading is an argument. *)

From S2P Require Import Prelude OMap JsValue.

Module TranscriptRepair.
Import StringCoerce JsValue.

Definition role (msg : js) : js := prop msg "role".
Definition isAssistant (msg : js) : bool := is_object msg && is_str (role msg) "assistant".
Definition isToolResult (msg : js) : bool := is_object msg && is_str (role msg) "toolResult".

(** ** Reading tool calls: tool-call-id.ts *)

Definition isToolCallType (v : js) : bool :=
  is_str v "toolCall" || is_str v "toolUse" || is_str v "functionCall".

Record ToolCallLike := mkCall { call_id : string; call_name : option string }.

Definition toolCallOf (block : js) : option ToolCallLike :=
  if negb (is_object block) then None
  else match nonempty_str (prop block "id") with
       | None => None
       | Some i => if isToolCallType (prop block "type") then Some (mkCall i (str_value (prop block "name"))) else None
       end.

Definition extractToolCallsFromAssistant (msg : js) : list ToolCallLike :=
  match prop msg "content" with
  | JArr content => filter_map toolCallOf content
  | _ => []
  end.

Definition extractToolResultId (msg : js) : option string :=
  match nonempty_str (prop msg "toolCallId") with
  | Some i => Some i
  | None => nonempty_str (prop msg "toolUseId")
  end.

(** ** Tool call blocks *)

Definition TOOL_CALL_NAME_MAX_CHARS : nat := 64.

Definition in_range (c : Ascii.ascii) (lo hi : nat) : bool :=
  let n := Ascii.nat_of_ascii c in (lo <=? n)%nat && (n <=? hi)%nat.
Definition alnum (c : Ascii.ascii) : bool := in_range c 65 90 || in_range c 97 122 || in_range c 48 57.
(** [A-Za-z0-9_:.-] *)
Definition tool_name_char (c : Ascii.ascii) : bool :=
  alnum c || in_range c 95 95 || in_range c 58 58 || in_range c 46 46 || in_range c 45 45.

Definition isRawToolCallBlock (block : js) : bool := is_object block && isToolCallType (prop block "type").

Definition hasToolCallInput (block : js) : bool :=
  defined (prop block "input") || defined (prop block "arguments").

Definition hasNonEmptyStringField (value : js) : bool :=
  match value with JStr s => str_truthy (trim s) | _ => false end.

Definition hasToolCallId (block : js) : bool := hasNonEmptyStringField (prop block "id").

Definition normalizeAllowedToolNames (allowed : option (list string)) : option (list string) :=
  match allowed with
  | None => None
  | Some l =>
      match map (λ n, normalizeLowercaseStringOrEmpty (Some (trim n))) (List.filter (λ n, str_truthy (trim n)) l) with
      | [] => None
      | normalized => Some normalized
      end
  end.

Definition hasToolCallName (block : js) (allowed : option (list string)) : bool :=
  match prop block "name" with
  | JStr name =>
      let trimmed := trim name in
      if negb (str_truthy trimmed) then false
      else if (TOOL_CALL_NAME_MAX_CHARS <? String.length trimmed)%nat || negb (str_all tool_name_char trimmed) then false
      else match allowed with
           | None => true
           | Some set => bool_decide (normalizeLowercaseStringOrEmpty (Some trimmed) ∈ set)
           end
  | _ => false
  end.

Definition REDACTED : js := JStr "__OPENCLAW_REDACTED__".

Definition redactAttachment (item : js) : js :=
  if negb (is_object item) then item
  else if negb (has_prop item "content") then item
  else with_prop (without_prop item "content") "content" REDACTED.

(** The value, and whether it is a new one. *)
Definition redactSessionsSpawnAttachmentsArgs (value : js) : js * bool :=
  if negb (is_object value) then (value, false)
  else match prop value "attachments" with
       | JArr raw => (with_prop value "attachments" (JArr (map redactAttachment raw)), true)
       | _ => (value, false)
       end.

Definition isSessionsSpawn (name : option string) : bool :=
  String.eqb (normalizeLowercaseStringOrEmpty name) "sessions_spawn".

(** The block, and whether it is a new one. *)
Definition sanitizeToolCallBlock (block : js) : js * bool :=
  let rawName := str_value (prop block "name") in
  let trimmedName := trim <$> rawName in
  let normalizedName := match trimmedName with Some (String _ _ as t) => Some t | _ => None end in
  let nameChanged := match normalizedName with Some t => negb (bool_decide (rawName = Some t)) | None => false end in
  let renamed b := match normalizedName with
                   | Some t => if nameChanged then with_prop b "name" (JStr t) else b
                   | None => b
                   end in
  if negb (isSessionsSpawn normalizedName) then (renamed block, nameChanged)
  else
    let '(nextArgs, argsNew) := redactSessionsSpawnAttachmentsArgs (prop block "arguments") in
    let '(nextInput, inputNew) := redactSessionsSpawnAttachmentsArgs (prop block "input") in
    if negb argsNew && negb inputNew && negb nameChanged then (block, false)
    else
      let n1 := renamed block in
      let n2 := if argsNew || has_prop block "arguments" then with_prop n1 "arguments" nextArgs else n1 in
      let n3 := if inputNew || has_prop block "input" then with_prop n2 "input" nextInput else n2 in
      (n3, true).

(** ** repairToolCallInputs *)

Definition dropsBlock (allowed : option (list string)) (block : js) : bool :=
  isRawToolCallBlock block &&
  (negb (hasToolCallInput block) || negb (hasToolCallId block) || negb (hasToolCallName block allowed)).

(** The block that is kept, and whether it changed. *)
Definition repairBlock (block : js) : js * bool :=
  if negb (isRawToolCallBlock block) then (block, false)
  else
    let blockName := trim <$> str_value (prop block "name") in
    if isSessionsSpawn blockName then sanitizeToolCallBlock block
    else match prop block "name" with
         | JStr rawName =>
             let trimmedName := trim rawName in
             if negb (String.eqb rawName trimmedName) && str_truthy trimmedName
             then (with_prop block "name" (JStr trimmedName), true) else (block, false)
         | _ => (block, false)
         end.

Definition repairContent (allowed : option (list string)) (content : list js) : list js :=
  map (λ b, (repairBlock b).1) (List.filter (λ b, negb (dropsBlock allowed b)) content).
Definition droppedInContent (allowed : option (list string)) (content : list js) : nat :=
  length (List.filter (dropsBlock allowed) content).
Definition contentChanged (allowed : option (list string)) (content : list js) : bool :=
  existsb (λ b, dropsBlock allowed b || (repairBlock b).2) content.

Record ToolCallInputRepairReport := mkInputReport {
  ir_messages : list js;
  ir_droppedToolCalls : nat;
  ir_droppedAssistantMessages : nat;
}.

(** One message: what is pushed, the tool calls and messages dropped, and whether
    anything changed. *)
Definition repairMessage (allowed : option (list string)) (msg : js) : list js * nat * nat * bool :=
  if negb (isAssistant msg) then ([msg], 0%nat, 0%nat, false)
  else match prop msg "content" with
       | JArr content =>
           let nextContent := repairContent allowed content in
           let dropped := droppedInContent allowed content in
           if (0 <? dropped)%nat then
             match nextContent with
             | [] => ([], dropped, 1%nat, true)
             | _ => ([with_prop msg "content" (JArr nextContent)], dropped, 0%nat, true)
             end
           else if contentChanged allowed content
           then ([with_prop msg "content" (JArr nextContent)], 0%nat, 0%nat, true)
           else ([msg], 0%nat, 0%nat, false)
       | _ => ([msg], 0%nat, 0%nat, false)
       end.

Definition repairToolCallInputs (messages : list js) (allowedToolNames : option (list string)) : ToolCallInputRepairReport :=
  let allowed := normalizeAllowedToolNames allowedToolNames in
  let '(out, calls, msgs, changed) :=
    fold_left (λ '(out, calls, msgs, changed) msg,
        let '(pushed, c, m, ch) := repairMessage allowed msg in
        (out ++ pushed, (calls + c)%nat, (msgs + m)%nat, changed || ch)) messages ([], 0%nat, 0%nat, false) in
  mkInputReport (if changed then out else messages) calls msgs.

Definition sanitizeToolCallInputs (messages : list js) (allowedToolNames : option (list string)) : list js :=
  ir_messages (repairToolCallInputs messages allowedToolNames).

Definition stripToolResultDetails (messages : list js) : list js :=
  map (λ msg, if isToolResult msg && has_prop msg "details" then without_prop msg "details" else msg) messages.

(** ** repairToolUseResultPairing *)

Definition makeMissingToolResult (toolCallId : string) (toolName : option string) (now : Z) : js :=
  JObj [("role", JStr "toolResult"); ("toolCallId", JStr toolCallId);
        ("toolName", JStr (toolName ?? "unknown"));
        ("content", JArr [JObj [("type", JStr "text");
           ("text", JStr "[openclaw] missing tool result in session history; inserted synthetic error result for transcript repair.")]]);
        ("isError", JBool true); ("timestamp", JNum now)].

(** The message, and whether it is a new one. *)
Definition normalizeToolResultName (message : js) (fallbackName : option string) : js * bool :=
  let rawToolName := str_value (prop message "toolName") in
  match normalizeOptionalString rawToolName with
  | Some normalized =>
      if bool_decide (rawToolName = Some normalized) then (message, false)
      else (with_prop message "toolName" (JStr normalized), true)
  | None =>
      match normalizeOptionalString fallbackName with
      | Some fallback => (with_prop message "toolName" (JStr fallback), true)
      | None =>
          match rawToolName with
          | Some _ => (with_prop message "toolName" (JStr "unknown"), true)
          | None => (message, false)
          end
      end
  end.

(** The results and the other messages between a turn and the next one. *)
Record Span := mkSpan {
  sp_results : omap string js;
  sp_remainder : list js;
  sp_duplicates : nat;
  sp_orphans : nat;
  sp_changed : bool;
}.
Definition noSpan : Span := mkSpan [] [] 0 0 false.

(** The inner loop; the rest of the messages starts at the next assistant. *)
Fixpoint scanSpan (seen : list string) (names : omap string (option string)) (messages : list js) (sp : Span)
    : Span * list js :=
  match messages with
  | [] => (sp, [])
  | next :: rest =>
      let keep := mkSpan (sp_results sp) (sp_remainder sp ++ [next]) (sp_duplicates sp) (sp_orphans sp) (sp_changed sp) in
      let orphan := mkSpan (sp_results sp) (sp_remainder sp) (sp_duplicates sp) (S (sp_orphans sp)) true in
      if negb (is_object next) then scanSpan seen names rest keep
      else if isAssistant next then (sp, messages)
      else if negb (isToolResult next) then scanSpan seen names rest keep
      else
        match extractToolResultId next with
        | Some i =>
            match oget names i with
            | Some name =>
                if bool_decide (i ∈ seen)
                then scanSpan seen names rest
                       (mkSpan (sp_results sp) (sp_remainder sp) (S (sp_duplicates sp)) (sp_orphans sp) true)
                else
                  let '(normalized, isNew) := normalizeToolResultName next name in
                  let results := if ohas (sp_results sp) i then sp_results sp else oset (sp_results sp) i normalized in
                  scanSpan seen names rest
                    (mkSpan results (sp_remainder sp) (sp_duplicates sp) (sp_orphans sp) (sp_changed sp || isNew))
            | None => scanSpan seen names rest orphan
            end
        | None => scanSpan seen names rest orphan
        end
  end.

Record RepairState := mkRepair {
  rs_out : list js;
  rs_added : list js;
  rs_seen : list string;
  rs_duplicates : nat;
  rs_orphans : nat;
  rs_moved : bool;
  rs_changed : bool;
}.
Definition startRepair : RepairState := mkRepair [] [] [] 0 0 false false.

Definition push (st : RepairState) (msgs : list js) : RepairState :=
  mkRepair (rs_out st ++ msgs) (rs_added st) (rs_seen st) (rs_duplicates st) (rs_orphans st) (rs_moved st) (rs_changed st).

Definition pushToolResult (st : RepairState) (msg : js) : RepairState :=
  match extractToolResultId msg with
  | Some i =>
      if bool_decide (i ∈ rs_seen st)
      then mkRepair (rs_out st) (rs_added st) (rs_seen st) (S (rs_duplicates st)) (rs_orphans st) (rs_moved st) true
      else mkRepair (rs_out st ++ [msg]) (rs_added st) (rs_seen st ++ [i]) (rs_duplicates st) (rs_orphans st)
             (rs_moved st) (rs_changed st)
  | None => push st [msg]
  end.

Definition addSpan (st : RepairState) (sp : Span) : RepairState :=
  mkRepair (rs_out st) (rs_added st) (rs_seen st) (rs_duplicates st + sp_duplicates sp) (rs_orphans st + sp_orphans sp)
    (rs_moved st) (rs_changed st || sp_changed sp).

Definition flag (st : RepairState) (moved changed : bool) : RepairState :=
  mkRepair (rs_out st) (rs_added st) (rs_seen st) (rs_duplicates st) (rs_orphans st) (rs_moved st || moved)
    (rs_changed st || changed).

Definition isErrored (assistant : js) : bool :=
  is_str (prop assistant "stopReason") "error" || is_str (prop assistant "stopReason") "aborted".

Inductive ErroredAssistantResultPolicy := PolicyPreserve | PolicyDrop.
#[export] Instance ErroredAssistantResultPolicy_eq_dec : EqDecision ErroredAssistantResultPolicy.
Proof. solve_decision. Defined.
Definition shouldDropErroredAssistantResults (policy : option ErroredAssistantResultPolicy) : bool :=
  bool_decide (policy = Some PolicyDrop).

Definition toolCallNamesById (calls : list ToolCallLike) : omap string (option string) :=
  fold_left (λ m c, oset m (call_id c) (call_name c)) calls [].

(** The result of a call: the one found, or a synthetic one. *)
Definition pushCallResult (now : Z) (results : omap string js) (st : RepairState) (call : ToolCallLike) : RepairState :=
  match oget results (call_id call) with
  | Some existing => pushToolResult st existing
  | None =>
      let missing := makeMissingToolResult (call_id call) (call_name call) now in
      pushToolResult (mkRepair (rs_out st) (rs_added st ++ [missing]) (rs_seen st) (rs_duplicates st) (rs_orphans st)
                        (rs_moved st) true) missing
  end.

Definition pushFoundResult (results : omap string js) (st : RepairState) (call : ToolCallLike) : RepairState :=
  match oget results (call_id call) with Some result => pushToolResult st result | None => st end.

(** An assistant turn with its span. *)
Definition repairTurn (policy : option ErroredAssistantResultPolicy) (now : Z) (st : RepairState) (assistant : js)
    (calls : list ToolCallLike) (sp : Span) : RepairState :=
  let st1 := push (addSpan st sp) [assistant] in
  if isErrored assistant then
    let st2 := if negb (shouldDropErroredAssistantResults policy)
               then fold_left (pushFoundResult (sp_results sp)) calls st1
               else flag st1 false (0 <? osize (sp_results sp))%nat in
    push st2 (sp_remainder sp)
  else
    let displaced := (0 <? osize (sp_results sp))%nat && (0 <? length (sp_remainder sp))%nat in
    let st2 := fold_left (pushCallResult now (sp_results sp)) calls (flag st1 displaced displaced) in
    push st2 (sp_remainder sp).

(** The outer loop; every round takes at least one message, [fuel] bounds their number. *)
Fixpoint repairLoop (policy : option ErroredAssistantResultPolicy) (now : Z) (fuel : nat) (messages : list js)
    (st : RepairState) : option RepairState :=
  match messages with
  | [] => Some st
  | msg :: rest =>
      match fuel with
      | O => None
      | S fuel' =>
          if negb (isAssistant msg) then
            if isToolResult msg
            then repairLoop policy now fuel' rest
                   (mkRepair (rs_out st) (rs_added st) (rs_seen st) (rs_duplicates st) (S (rs_orphans st)) (rs_moved st) true)
            else repairLoop policy now fuel' rest (push st [msg])
          else
            match extractToolCallsFromAssistant msg with
            | [] => repairLoop policy now fuel' rest (push st [msg])
            | calls =>
                let '(sp, rest') := scanSpan (rs_seen st) (toolCallNamesById calls) rest noSpan in
                repairLoop policy now fuel' rest' (repairTurn policy now st msg calls sp)
            end
      end
  end.

Record ToolUseRepairReport := mkUseReport {
  ur_messages : list js;
  ur_added : list js;
  ur_droppedDuplicateCount : nat;
  ur_droppedOrphanCount : nat;
  ur_moved : bool;
}.

Definition report (messages : list js) (st : RepairState) : ToolUseRepairReport :=
  let changedOrMoved := rs_changed st || rs_moved st in
  mkUseReport (if changedOrMoved then rs_out st else messages) (rs_added st) (rs_duplicates st) (rs_orphans st) changedOrMoved.

Definition repairToolUseResultPairing (messages : list js) (policy : option ErroredAssistantResultPolicy) (now : Z)
    : option ToolUseRepairReport :=
  report messages <$> repairLoop policy now (length messages) messages startRepair.

(** ** What a repaired transcript looks like *)

Definition isOther (msg : js) : bool := negb (isAssistant msg) && negb (isToolResult msg).

Definition answers (call : ToolCallLike) (result : js) : Prop :=
  isToolResult result = true ∧ extractToolResultId result = Some (call_id call).

(** The results of a turn, in the order of its calls or in any order. *)
Definition arranged (ordered : bool) (rs results : list js) : Prop := if ordered then rs = results else rs ≡ₚ results.

(** A message that is no tool result and no turn with calls, or a turn with one
    result for each of its calls; a failed turn may lack some. *)
Inductive block_ok (ordered : bool) : list js → Prop :=
| block_other msg : isOther msg = true → block_ok ordered [msg]
| block_plain msg : isAssistant msg = true → extractToolCallsFromAssistant msg = [] → block_ok ordered [msg]
| block_turn msg results rs :
    isAssistant msg = true → isErrored msg = false →
    Forall2 answers (extractToolCallsFromAssistant msg) rs → arranged ordered rs results →
    block_ok ordered (msg :: results)
| block_errored msg results calls :
    isAssistant msg = true → isErrored msg = true →
    sublist calls (extractToolCallsFromAssistant msg) → Forall2 answers calls results →
    block_ok ordered (msg :: results).

Definition well_paired (ordered : bool) (messages : list js) : Prop :=
  ∃ blocks, messages = concat blocks ∧ Forall (block_ok ordered) blocks.

Lemma well_paired_nil ordered : well_paired ordered [].
Proof. by exists []. Qed.

Lemma well_paired_app ordered l l' : well_paired ordered l → well_paired ordered l' → well_paired ordered (l ++ l').
Proof.
  intros (b & -> & Hb) (b' & -> & Hb'). exists (b ++ b'). split; [by rewrite concat_app|by apply Forall_app].
Qed.

Lemma well_paired_block ordered l : block_ok ordered l → well_paired ordered l.
Proof. intros H. exists [l]. split; [cbn; by rewrite app_nil_r|by repeat constructor]. Qed.

Lemma well_paired_others ordered l : Forall (λ m, isOther m = true) l → well_paired ordered l.
Proof.
  induction 1 as [|m l Hm Hl IH]; [apply well_paired_nil|].
  apply (well_paired_app ordered [m]); [by apply well_paired_block, block_other|done].
Qed.

Definition callIdsOf (msg : js) : list string :=
  if isAssistant msg then map call_id (extractToolCallsFromAssistant msg) else [].
Definition allCallIds (messages : list js) : list string := flat_map callIdsOf messages.
Definition allResultIds (messages : list js) : list string :=
  filter_map extractToolResultId (List.filter isToolResult messages).

(** ** Reading and normalizing *)

Lemma toolCallOf_nonempty b c : toolCallOf b = Some c → call_id c ≠ EmptyString.
Proof.
  unfold toolCallOf, nonempty_str. destruct (negb _); [done|]. destruct (prop b "id") as [| | | |[|x s]| |]; try done.
  destruct (isToolCallType _); [|done]. by intros [= <-].
Qed.

Lemma calls_nonempty msg c : c ∈ extractToolCallsFromAssistant msg → call_id c ≠ EmptyString.
Proof.
  unfold extractToolCallsFromAssistant. destruct (prop msg "content") as [| | | | |l|]; try (by intros ?%elem_of_nil).
  unfold filter_map. intros Hc. apply list_elem_of_In, in_flat_map in Hc as (b & _ & Hb).
  destruct (toolCallOf b) as [c'|] eqn:E; [|done]. destruct Hb as [->|[]]. by apply (toolCallOf_nonempty b).
Qed.

Lemma missing_answers call now :
  call_id call ≠ EmptyString → answers call (makeMissingToolResult (call_id call) (call_name call) now).
Proof. intros H. split; [done|]. unfold extractToolResultId. cbn. by destruct (call_id call). Qed.

Lemma toolResult_obj r : isToolResult r = true → ∃ m, r = JObj m.
Proof. destruct r; try done. by eexists. Qed.

Lemma normalize_keeps r name :
  isToolResult r = true →
  isToolResult (normalizeToolResultName r name).1 = true ∧
  extractToolResultId (normalizeToolResultName r name).1 = extractToolResultId r.
Proof.
  intros Hr. assert (∀ x, isToolResult (with_prop r "toolName" x) = true ∧
    extractToolResultId (with_prop r "toolName" x) = extractToolResultId r) as Hw.
  { intros x. unfold isToolResult, role, extractToolResultId in *. rewrite !prop_with_prop_ne by done.
    split; [|done]. apply andb_true_iff in Hr as [Ho Hr]. rewrite Hr. by destruct r. }
  unfold normalizeToolResultName. repeat case_match; simplify_eq; cbn [fst]; auto.
Qed.

Lemma normalize_same r name : (normalizeToolResultName r name).2 = false → (normalizeToolResultName r name).1 = r.
Proof. unfold normalizeToolResultName. by repeat case_match. Qed.

(** ** The span of a turn *)

Definition results_ok (results : omap string js) : Prop :=
  ∀ i r, oget results i = Some r → isToolResult r = true ∧ extractToolResultId r = Some i.

Lemma scanSpan_spec seen names messages sp sp' rest :
  scanSpan seen names messages sp = (sp', rest) → results_ok (sp_results sp) →
  ∃ span, messages = span ++ rest ∧ Forall (λ m, isAssistant m = false) span ∧
    sp_remainder sp' = sp_remainder sp ++ List.filter (λ m, negb (isToolResult m)) span ∧
    results_ok (sp_results sp') ∧ match rest with [] => True | m :: _ => isAssistant m = true end.
Proof.
  revert sp. induction messages as [|m l IH]; intros sp E Hok; cbn [scanSpan] in E.
  { simplify_eq. exists []. cbn. by rewrite app_nil_r. }
  assert (∀ sp1, scanSpan seen names l sp1 = (sp', rest) → results_ok (sp_results sp1) → isAssistant m = false →
     sp_remainder sp1 = sp_remainder sp ++ List.filter (λ m, negb (isToolResult m)) [m] →
     ∃ span, m :: l = span ++ rest ∧ Forall (λ m, isAssistant m = false) span ∧
       sp_remainder sp' = sp_remainder sp ++ List.filter (λ m, negb (isToolResult m)) span ∧
       results_ok (sp_results sp') ∧ match rest with [] => True | m :: _ => isAssistant m = true end) as Hgo.
  { intros sp1 E1 Hok1 Ha Hr. destruct (IH sp1 E1 Hok1) as (span & -> & H1 & H2 & H3 & H4).
    exists (m :: span). split; [done|]. split; [by constructor|]. split; [|done].
    rewrite H2, Hr, <- app_assoc. f_equal. change (m :: span) with ([m] ++ span). by rewrite List.filter_app. }
  destruct (is_object m) eqn:Eo; cbn [negb] in E.
  2:{ apply Hgo in E; [done|done|unfold isAssistant; by rewrite Eo|]. cbn. unfold isToolResult. by rewrite Eo. }
  destruct (isAssistant m) eqn:Ea.
  { simplify_eq. exists []. cbn. by rewrite app_nil_r. }
  destruct (isToolResult m) eqn:Et; cbn [negb] in E.
  2:{ apply Hgo in E; [done|done|done|]. cbn. by rewrite Et. }
  assert (List.filter (λ m, negb (isToolResult m)) [m] = []) as Ef by (cbn; by rewrite Et).
  rewrite Ef, app_nil_r in Hgo.
  destruct (extractToolResultId m) as [i|] eqn:Ei; [|by apply Hgo in E].
  destruct (oget names i) as [name|]; [|by apply Hgo in E].
  destruct (bool_decide (i ∈ seen)); [by apply Hgo in E|].
  destruct (normalizeToolResultName m name) as [normalized isNew] eqn:En.
  apply Hgo in E; [done| |done|done]. cbn [sp_results]. destruct (ohas (sp_results sp) i); [done|].
  intros i' r. rewrite oget_oset. case_decide as Hi; [|apply Hok]. intros [= <-]. subst i'.
  pose proof (normalize_keeps m name Et) as Hn. rewrite En in Hn. cbn [fst] in Hn. by rewrite Ei in Hn.
Qed.

(** ** Pushing the results of a turn *)

Lemma pushToolResult_new st r i :
  extractToolResultId r = Some i → i ∉ rs_seen st →
  pushToolResult st r = mkRepair (rs_out st ++ [r]) (rs_added st) (rs_seen st ++ [i]) (rs_duplicates st) (rs_orphans st)
                          (rs_moved st) (rs_changed st).
Proof. intros E Hi. unfold pushToolResult. rewrite E. by rewrite bool_decide_false. Qed.

(** Every call gets a result; without a change each was found. *)
Lemma push_calls now results calls st :
  results_ok results → NoDup (map call_id calls) →
  Forall (λ c, call_id c ≠ EmptyString ∧ call_id c ∉ rs_seen st) calls →
  let st' := fold_left (pushCallResult now results) calls st in
  ∃ rs, rs_out st' = rs_out st ++ rs ∧ Forall2 answers calls rs ∧ rs_seen st' = rs_seen st ++ map call_id calls ∧
    rs_moved st' = rs_moved st ∧
    (rs_changed st' = false → rs_changed st = false ∧ Forall2 (λ c r, oget results (call_id c) = Some r) calls rs).
Proof.
  intros Hok. revert st. induction calls as [|c calls IH]; intros st Hn Hf; cbn [fold_left map].
  { exists []. rewrite !app_nil_r. repeat split; constructor || done. }
  cbn [map] in Hn. apply NoDup_cons in Hn as [Hc Hn]. apply Forall_cons in Hf as [[Hne Hs] Hf].
  assert (∃ (r : js) (ch : bool), pushCallResult now results st c =
      mkRepair (rs_out st ++ [r]) (if ch then rs_added st ++ [r] else rs_added st) (rs_seen st ++ [call_id c])
        (rs_duplicates st) (rs_orphans st) (rs_moved st) (ch || rs_changed st) ∧ answers c r ∧
      (ch = false → oget results (call_id c) = Some r)) as (r & ch & E & Ha & Hr).
  { unfold pushCallResult. destruct (oget results (call_id c)) as [r|] eqn:Er.
    - destruct (Hok _ _ Er) as [H1 H2]. exists r, false. by rewrite (pushToolResult_new st r (call_id c)).
    - pose proof (missing_answers c now Hne) as Hm. eexists _, true. split; [|split; [exact Hm|done]].
      rewrite (pushToolResult_new _ _ (call_id c)); [done|apply Hm|done]. }
  rewrite E. set (st1 := mkRepair _ _ _ _ _ _ _).
  destruct (IH st1 Hn) as (rs & H1 & H2 & H3 & H4 & H5).
  { rewrite Forall_forall in Hf |- *. intros c' Hc'. destruct (Hf c' Hc') as [Hne' Hs']. split; [done|].
    cbn. intros [Hin|E'%list_elem_of_singleton]%elem_of_app; [done|]. apply Hc. rewrite <- E'. by apply list_elem_of_fmap_2. }
  exists (r :: rs). rewrite H1, H3, H4. cbn [st1 rs_out rs_seen rs_moved]. rewrite <- !app_assoc.
  split; [done|]. split; [by constructor|]. split; [done|]. split; [done|].
  intros Hch. destruct (H5 Hch) as [Hc1 Hf2]. cbn [st1 rs_changed] in Hc1. apply orb_false_iff in Hc1 as [-> Hc1].
  split; [done|]. constructor; [by apply Hr|done].
Qed.

(** A failed turn keeps the results that were found. *)
Lemma push_found results calls st :
  results_ok results → NoDup (map call_id calls) → Forall (λ c, call_id c ∉ rs_seen st) calls →
  let st' := fold_left (pushFoundResult results) calls st in
  ∃ sub rs, sublist sub calls ∧ rs_out st' = rs_out st ++ rs ∧ Forall2 answers sub rs ∧
    rs_seen st' = rs_seen st ++ map call_id sub.
Proof.
  intros Hok. revert st. induction calls as [|c calls IH]; intros st Hn Hf; cbn [fold_left].
  { exists [], []. rewrite !app_nil_r. repeat split; constructor || done. }
  cbn [map] in Hn. apply NoDup_cons in Hn as [Hc Hn]. apply Forall_cons in Hf as [Hs Hf].
  destruct (oget results (call_id c)) as [r|] eqn:Er.
  - destruct (Hok _ _ Er) as [H1 H2].
    assert (pushFoundResult results st c = pushToolResult st r) as -> by (unfold pushFoundResult; by rewrite Er).
    rewrite (pushToolResult_new st r (call_id c)) by done.
    set (st1 := mkRepair _ _ _ _ _ _ _). destruct (IH st1 Hn) as (sub & rs & G1 & G2 & G3 & G4).
    { rewrite Forall_forall in Hf |- *. intros c' Hc'. specialize (Hf c' Hc').
      cbn. intros [Hin|E%list_elem_of_singleton]%elem_of_app; [done|]. apply Hc. rewrite <- E. by apply list_elem_of_fmap_2. }
    exists (c :: sub), (r :: rs). rewrite G2, G4. cbn [st1 rs_out rs_seen map]. rewrite <- !app_assoc.
    split; [by apply sublist_skip|]. split; [done|]. split; [by constructor|done].
  - assert (pushFoundResult results st c = st) as -> by (unfold pushFoundResult; by rewrite Er).
    destruct (IH st Hn Hf) as (sub & rs & G1 & G2 & G3 & G4). exists sub, rs.
    split; [by apply sublist_cons|]. done.
Qed.

Lemma allCallIds_span span : Forall (λ m, isAssistant m = false) span → allCallIds span = [].
Proof.
  induction 1 as [|m l Hm _ IH]; [done|]. unfold allCallIds in *. cbn [flat_map]. rewrite IH, app_nil_r.
  unfold callIdsOf. by rewrite Hm.
Qed.

Lemma others_of_span span :
  Forall (λ m, isAssistant m = false) span → Forall (λ m, isOther m = true) (List.filter (λ m, negb (isToolResult m)) span).
Proof.
  intros H. rewrite Forall_forall in H |- *. intros m Hm. apply filter_elem in Hm as [Ht Hm]. unfold isOther.
  by rewrite (H m Hm), Ht.
Qed.

Lemma scanSpan_rest seen names messages sp sp' rest :
  scanSpan seen names messages sp = (sp', rest) → (length rest <= length messages)%nat.
Proof.
  revert sp. induction messages as [|m l IH]; intros sp E; cbn [scanSpan] in E; [by simplify_eq|].
  cbn [length]. repeat case_match; simplify_eq; try (apply IH in E; lia); cbn [length]; lia.
Qed.

(** The loop always ends: the number of messages is fuel enough. *)
Lemma repairLoop_total policy now fuel messages st :
  (length messages <= fuel)%nat → is_Some (repairLoop policy now fuel messages st).
Proof.
  revert messages st. induction fuel as [|fuel IH]; intros [|m l] st Hf; cbn [repairLoop length] in *; try (by eexists); [lia|].
  destruct (negb (isAssistant m)); [destruct (isToolResult m); apply IH; lia|].
  destruct (extractToolCallsFromAssistant m) as [|c cs]; [apply IH; lia|].
  destruct (scanSpan _ _ _ _) as [sp rest] eqn:E. apply scanSpan_rest in E. apply IH. lia.
Qed.

Lemma repair_total messages policy now : is_Some (repairToolUseResultPairing messages policy now).
Proof.
  unfold repairToolUseResultPairing. destruct (repairLoop_total policy now (length messages) messages startRepair) as [st ->];
    [done|]. by eexists.
Qed.

(** ** A turn *)

Lemma filter_results calls rs :
  Forall2 answers calls rs → List.filter (λ m, negb (isToolResult m)) rs = [].
Proof. induction 1 as [|c r calls rs [H _] _ IH]; [done|]. cbn [List.filter]. by rewrite H. Qed.

Lemma others_kept l : Forall (λ m, isOther m = true) l → List.filter (λ m, negb (isToolResult m)) l = l.
Proof.
  induction 1 as [|m l Hm _ IH]; [done|]. cbn [List.filter]. rewrite IH.
  unfold isOther in Hm. apply andb_true_iff in Hm as [_ ->]. done.
Qed.

Lemma assistant_not_result m : isAssistant m = true → isToolResult m = false.
Proof.
  unfold isAssistant, isToolResult, is_str. destruct (is_object m); [|done]. destruct (role m); try done. cbn.
  intros H. apply String.eqb_eq in H. by subst s.
Qed.

Lemma repairTurn_spec policy now st assistant calls sp :
  isAssistant assistant = true → extractToolCallsFromAssistant assistant = calls →
  results_ok (sp_results sp) → Forall (λ m, isOther m = true) (sp_remainder sp) →
  NoDup (map call_id calls) → Forall (λ c, call_id c ≠ EmptyString ∧ call_id c ∉ rs_seen st) calls →
  let st' := repairTurn policy now st assistant calls sp in
  ∃ l, rs_out st' = rs_out st ++ l ∧ well_paired true l ∧
    List.filter (λ m, negb (isToolResult m)) l = assistant :: sp_remainder sp ∧
    (∀ i, i ∈ rs_seen st' → i ∈ rs_seen st ∨ i ∈ map call_id calls).
Proof.
  intros Ha Hcalls Hok Hrem Hn Hf. unfold repairTurn.
  assert (∀ rs st2, rs_out st2 = (rs_out st ++ [assistant]) ++ rs → block_ok true (assistant :: rs) →
     List.filter (λ m, negb (isToolResult m)) rs = [] → (∀ i, i ∈ rs_seen st2 → i ∈ rs_seen st ∨ i ∈ map call_id calls) →
     ∃ l, rs_out (push st2 (sp_remainder sp)) = rs_out st ++ l ∧ well_paired true l ∧
       List.filter (λ m, negb (isToolResult m)) l = assistant :: sp_remainder sp ∧
       (∀ i, i ∈ rs_seen (push st2 (sp_remainder sp)) → i ∈ rs_seen st ∨ i ∈ map call_id calls)) as Hend.
  { intros rs st2 E Hb Hr Hs. exists ((assistant :: rs) ++ sp_remainder sp). cbn [push rs_out rs_seen].
    split; [rewrite E, <- !app_assoc; done|].
    split; [apply well_paired_app; [by apply well_paired_block|by apply well_paired_others]|]. split; [|done].
    rewrite List.filter_app. cbn [List.filter]. rewrite (assistant_not_result assistant Ha), Hr. cbn [negb app].
    by rewrite (others_kept (sp_remainder sp) Hrem). }
  destruct (isErrored assistant) eqn:Ee.
  - destruct (negb (shouldDropErroredAssistantResults policy)).
    + destruct (push_found (sp_results sp) calls (push (addSpan st sp) [assistant]) Hok Hn) as (sub & rs & H1 & H2 & H3 & H4).
      { rewrite Forall_forall in Hf |- *. intros c Hc. by apply Hf. }
      apply (Hend rs); [exact H2|eapply block_errored; [done|done|by rewrite Hcalls|exact H3]|by apply (filter_results sub)|].
      intros i. rewrite H4. cbn. intros [Hi|Hi]%elem_of_app; [by left|right].
      apply list_elem_of_fmap in Hi as (c & -> & Hc). apply list_elem_of_fmap_2.
      by apply (elem_of_sublist sub).
    + apply (Hend []); [cbn; by rewrite app_nil_r|eapply (block_errored _ _ _ []); [done|done|apply sublist_nil_l|constructor]|done|].
      intros i Hi. by left.
  - set (st1 := flag _ _ _).
    destruct (push_calls now (sp_results sp) calls st1 Hok Hn) as (rs & H1 & H2 & H3 & _ & _); [done|].
    apply (Hend rs); [exact H1|eapply block_turn; [done|done|by rewrite Hcalls|done]|by apply (filter_results calls)|].
    intros i. rewrite H3. cbn. rewrite elem_of_app. tauto.
Qed.

Lemma turn_calls_ok st m rest calls :
  extractToolCallsFromAssistant m = calls → isAssistant m = true →
  NoDup (allCallIds (m :: rest)) → (∀ i, i ∈ rs_seen st → i ∉ allCallIds (m :: rest)) →
  NoDup (map call_id calls) ∧ Forall (λ c, call_id c ≠ EmptyString ∧ call_id c ∉ rs_seen st) calls ∧
  NoDup (allCallIds rest) ∧ (∀ i, i ∈ map call_id calls → i ∉ allCallIds rest).
Proof.
  intros Hc Ha Hn Hs. unfold allCallIds in *. cbn [flat_map] in *. unfold callIdsOf at 1 in Hn. unfold callIdsOf at 1 in Hs.
  rewrite Ha, Hc in *. apply NoDup_app in Hn as (H1 & H2 & H3). split; [done|]. split; [|split; [done|done]].
  rewrite Forall_forall. intros c Hin. split.
  - apply (calls_nonempty m). by rewrite Hc.
  - intros Hseen. apply (Hs _ Hseen), elem_of_app. left. by apply list_elem_of_fmap_2.
Qed.

(** The repaired list is paired, and the conversation is kept. *)
Lemma repairLoop_paired policy now fuel messages st st' :
  repairLoop policy now fuel messages st = Some st' → NoDup (allCallIds messages) →
  (∀ i, i ∈ rs_seen st → i ∉ allCallIds messages) → well_paired true (rs_out st) → well_paired true (rs_out st').
Proof.
  revert messages st. induction fuel as [|fuel IH]; intros [|m rest] st E Hn Hs Hw; cbn [repairLoop] in E; simplify_eq; [done..|].
  assert (isAssistant m = false ∨ extractToolCallsFromAssistant m = [] → callIdsOf m = []) as Hnone.
  { unfold callIdsOf. intros [->| ->]; [done|by destruct (isAssistant m)]. }
  destruct (isAssistant m) eqn:Ea; cbn [negb] in E.
  - destruct (extractToolCallsFromAssistant m) as [|c cs] eqn:Ec.
    + unfold allCallIds in Hn, Hs. cbn [flat_map] in Hn, Hs. rewrite Hnone in Hn, Hs by auto.
      eapply (IH _ _ E); [done|done|]. apply well_paired_app; [done|]. by apply well_paired_block, block_plain.
    + destruct (turn_calls_ok st m rest (c :: cs) Ec Ea Hn Hs) as (H1 & H2 & H3 & H4).
      destruct (scanSpan _ _ rest noSpan) as [sp rest'] eqn:Esp.
      apply scanSpan_spec in Esp as (span & -> & Hspan & Hrem & Hok & _); [|by intros i r].
      unfold allCallIds in H3, H4. rewrite flat_map_app in H3, H4. fold (allCallIds span) in H3, H4. rewrite (allCallIds_span span Hspan) in H3, H4.
      cbn [app] in H3, H4. cbn [noSpan sp_remainder app] in Hrem.
      destruct (repairTurn_spec policy now st m (c :: cs) sp Ea Ec Hok) as (l & G1 & G2 & _ & G4); [|done|done|].
      { rewrite Hrem. by apply others_of_span. }
      eapply (IH _ _ E); [done| |rewrite G1; by apply well_paired_app].
      intros i Hi. destruct (G4 i Hi) as [Hi'|Hi']; [|by apply H4].
      intros Hin. apply (Hs i Hi'). unfold allCallIds. cbn [flat_map]. rewrite flat_map_app. rewrite !elem_of_app. auto.
  - unfold allCallIds in Hn, Hs. cbn [flat_map] in Hn, Hs. rewrite Hnone in Hn, Hs by auto.
    destruct (isToolResult m) eqn:Et; eapply (IH _ _ E); [done|done|done|done|done|].
    apply well_paired_app; [done|]. apply well_paired_block, block_other. unfold isOther. by rewrite Ea, Et.
Qed.

(** ** The conversation is kept *)

Definition conversation (messages : list js) : list js := List.filter (λ m, negb (isToolResult m)) messages.

Lemma allResultIds_app l l' : allResultIds (l ++ l') = allResultIds l ++ allResultIds l'.
Proof. unfold allResultIds, filter_map. by rewrite List.filter_app, flat_map_app. Qed.

Lemma conversation_app l l' : conversation (l ++ l') = conversation l ++ conversation l'.
Proof. apply List.filter_app. Qed.

Lemma allResultIds_conversation l : conversation l = l → allResultIds l = [].
Proof.
  unfold conversation, allResultIds. intros H. rewrite <- H, filter_none; [done|].
  intros m Hm. apply filter_elem in Hm as [Hm _]. by destruct (isToolResult m).
Qed.

(** The ids of the results put out are those seen, each once. *)
Record tidy (conv : list js) (st : RepairState) : Prop := {
  t_conversation : conversation (rs_out st) = conv;
  t_seen : allResultIds (rs_out st) = rs_seen st;
  t_nodup : NoDup (rs_seen st);
}.

Lemma tidy_push conv st l : conversation l = l → tidy conv st → tidy (conv ++ l) (push st l).
Proof.
  intros Hl [H1 H2 H3]. split; cbn [push rs_out rs_seen]; [|by rewrite allResultIds_app, H2, (allResultIds_conversation l), app_nil_r|done].
  by rewrite conversation_app, H1, Hl.
Qed.

Lemma tidy_ext conv st st' : rs_out st' = rs_out st → rs_seen st' = rs_seen st → tidy conv st → tidy conv st'.
Proof. intros E1 E2 [H1 H2 H3]. split; by rewrite ?E1, ?E2. Qed.

Lemma tidy_pushToolResult conv st r i :
  isToolResult r = true → extractToolResultId r = Some i → tidy conv st → tidy conv (pushToolResult st r).
Proof.
  intros Hr Hi Ht. unfold pushToolResult. rewrite Hi. case_bool_decide as Hs; [by apply (tidy_ext conv st)|].
  destruct Ht as [H1 H2 H3]. split; cbn [rs_out rs_seen].
  - rewrite conversation_app, H1. unfold conversation. cbn [List.filter]. rewrite Hr. apply app_nil_r.
  - rewrite allResultIds_app, H2. f_equal. unfold allResultIds, filter_map. cbn [List.filter]. rewrite Hr.
    cbn [flat_map]. by rewrite Hi.
  - apply NoDup_app. split; [done|]. split; [set_solver|apply NoDup_singleton].
Qed.

Lemma tidy_pushCallResult conv now results st c :
  results_ok results → call_id c ≠ EmptyString → tidy conv st → tidy conv (pushCallResult now results st c).
Proof.
  intros Hok Hne Ht. unfold pushCallResult. destruct (oget results (call_id c)) as [r|] eqn:Er.
  - destruct (Hok _ _ Er) as [H1 H2]. by apply (tidy_pushToolResult conv st r (call_id c)).
  - destruct (missing_answers c now Hne) as [H1 H2]. apply (tidy_pushToolResult _ _ _ (call_id c)); [done|done|].
    by apply (tidy_ext conv st).
Qed.

Lemma tidy_pushFoundResult conv results st c : results_ok results → tidy conv st → tidy conv (pushFoundResult results st c).
Proof.
  intros Hok Ht. unfold pushFoundResult. destruct (oget results (call_id c)) as [r|] eqn:Er; [|done].
  destruct (Hok _ _ Er) as [H1 H2]. by apply (tidy_pushToolResult conv st r (call_id c)).
Qed.

Lemma tidy_fold {A} conv (f : RepairState → A → RepairState) l st :
  (∀ st a, a ∈ l → tidy conv st → tidy conv (f st a)) → tidy conv st → tidy conv (fold_left f l st).
Proof.
  revert st. induction l as [|a l IH]; intros st Hf Ht; [done|]. cbn [fold_left]. apply IH.
  - intros st' a' Ha'. apply Hf. by right.
  - apply Hf; [by left|done].
Qed.

Lemma tidy_turn policy now conv st assistant sp :
  isAssistant assistant = true → results_ok (sp_results sp) → conversation (sp_remainder sp) = sp_remainder sp →
  tidy conv st →
  tidy (conv ++ assistant :: sp_remainder sp)
    (repairTurn policy now st assistant (extractToolCallsFromAssistant assistant) sp).
Proof.
  intros Ha Hok Hrem Ht. unfold repairTurn. rewrite cons_middle, app_assoc.
  assert (conversation [assistant] = [assistant]) as E1 by (unfold conversation; cbn; by rewrite assistant_not_result).
  assert (tidy (conv ++ [assistant]) (push (addSpan st sp) [assistant])) as H1.
  { apply tidy_push; [done|]. by apply (tidy_ext conv st). }
  destruct (isErrored assistant); apply tidy_push; try done.
  - destruct (negb _); [|by apply (tidy_ext _ (push (addSpan st sp) [assistant]))].
    apply tidy_fold; [|done]. intros st' c _. by apply tidy_pushFoundResult.
  - apply tidy_fold; [|by apply (tidy_ext _ (push (addSpan st sp) [assistant]))].
    intros st' c Hc. apply tidy_pushCallResult; [done|by apply (calls_nonempty assistant)].
Qed.

Lemma conversation_idem l : conversation (conversation l) = conversation l.
Proof. apply filter_twice. Qed.

Lemma repairLoop_tidy policy now fuel messages conv st st' :
  repairLoop policy now fuel messages st = Some st' → tidy conv st → tidy (conv ++ conversation messages) st'.
Proof.
  revert messages conv st. induction fuel as [|fuel IH]; intros [|m rest] conv st E Ht; cbn [repairLoop] in E; simplify_eq;
    try (by rewrite app_nil_r).
  change (m :: rest) with ([m] ++ rest). rewrite conversation_app, app_assoc.
  destruct (isAssistant m) eqn:Ea; cbn [negb] in E.
  - assert (conversation [m] = [m]) as Em by (unfold conversation; cbn; by rewrite assistant_not_result).
    destruct (extractToolCallsFromAssistant m) as [|c cs] eqn:Ec.
    + apply (IH _ _ _ E). rewrite Em. by apply tidy_push.
    + destruct (scanSpan _ _ rest noSpan) as [sp rest'] eqn:Esp.
      apply scanSpan_spec in Esp as (span & -> & _ & Hrem & Hok & _); [|by intros i r].
      cbn [noSpan sp_remainder app] in Hrem. rewrite conversation_app, app_assoc. apply (IH _ _ _ E).
      rewrite Em, <- app_assoc. fold (conversation span) in Hrem. cbn [app]. rewrite <- Hrem, <- Ec.
      apply tidy_turn; [done|done| |done]. rewrite Hrem. apply conversation_idem.
  - destruct (isToolResult m) eqn:Et.
    + apply (IH _ _ _ E). unfold conversation at 1. cbn [List.filter]. rewrite Et. cbn. rewrite app_nil_r.
      by apply (tidy_ext _ st).
    + assert (conversation [m] = [m]) as Em by (unfold conversation; cbn; by rewrite Et).
      apply (IH _ _ _ E). rewrite Em. by apply tidy_push.
Qed.

(** ** Nothing to repair

    When no change is noted the given list is returned: it was paired already,
    provided no result occurs twice and no turn failed. *)

Lemma pushToolResult_changed st r : rs_changed st = true → rs_changed (pushToolResult st r) = true.
Proof. unfold pushToolResult. by repeat case_match. Qed.

Lemma repairTurn_flags policy now st assistant calls sp :
  (rs_changed st = true → rs_changed (repairTurn policy now st assistant calls sp) = true) ∧
  (rs_moved st = true → rs_moved (repairTurn policy now st assistant calls sp) = true).
Proof.
  assert (∀ {A} (f : RepairState → A → RepairState) l st,
    (∀ st a, (rs_changed st = true → rs_changed (f st a) = true) ∧ (rs_moved st = true → rs_moved (f st a) = true)) →
    (rs_changed st = true → rs_changed (fold_left f l st) = true) ∧ (rs_moved st = true → rs_moved (fold_left f l st) = true)) as Hfold.
  { intros A f l. induction l as [|a l IH]; intros st0 Hf; [done|]. cbn [fold_left].
    destruct (IH (f st0 a) Hf) as [I1 I2], (Hf st0 a) as [F1 F2]. auto. }
  assert (∀ st r, rs_moved (pushToolResult st r) = rs_moved st) as Hm
    by (intros st0 r; unfold pushToolResult; by repeat case_match).
  unfold repairTurn. destruct (isErrored assistant); cbn [push rs_changed rs_moved].
  - destruct (negb _).
    + destruct (Hfold _ (pushFoundResult (sp_results sp)) calls (push (addSpan st sp) [assistant])) as [H1 H2].
      { intros st0 c. unfold pushFoundResult. destruct (oget _ _); [|done]. rewrite Hm. split; [apply pushToolResult_changed|done]. }
      split; [|exact H2]. intros H. apply H1. cbn. by rewrite H.
    + cbn. split; intros ->; [|done]. by rewrite ?orb_true_l.
  - destruct (Hfold _ (pushCallResult now (sp_results sp)) calls (flag (push (addSpan st sp) [assistant])
      ((0 <? osize (sp_results sp))%nat && (0 <? length (sp_remainder sp))%nat)
      ((0 <? osize (sp_results sp))%nat && (0 <? length (sp_remainder sp))%nat))) as [H1 H2].
    { intros st0 c. unfold pushCallResult. destruct (oget _ _); rewrite Hm; (split; [intros H; apply pushToolResult_changed|]); done. }
    split; intros H; [apply H1|apply H2]; cbn; by rewrite H.
Qed.

Lemma repairLoop_flags policy now fuel messages st st' :
  repairLoop policy now fuel messages st = Some st' →
  (rs_changed st = true → rs_changed st' = true) ∧ (rs_moved st = true → rs_moved st' = true).
Proof.
  revert messages st. induction fuel as [|fuel IH]; intros [|m rest] st E; cbn [repairLoop] in E; simplify_eq; [done..|].
  destruct (negb (isAssistant m)); [destruct (isToolResult m)|destruct (extractToolCallsFromAssistant m); [|destruct (scanSpan _ _ _ _)]];
    apply IH in E as [H1 H2]; cbn in H1, H2; auto.
  destruct (repairTurn_flags policy now st m (t :: l) s) as [F1 F2]. auto.
Qed.

(** What an unchanged span holds: results for calls, all of them collected. *)
Lemma scanSpan_unchanged seen names messages sp sp' rest span :
  scanSpan seen names messages sp = (sp', rest) → messages = span ++ rest →
  Forall (λ m, isAssistant m = false) span → match rest with [] => True | m :: _ => isAssistant m = true end →
  sp_changed sp' = false → NoDup (okeys (sp_results sp) ++ allResultIds span) →
  Forall (λ i, is_Some (oget names i)) (okeys (sp_results sp)) →
  sp_changed sp = false ∧
  okeys (sp_results sp') = okeys (sp_results sp) ++ allResultIds span ∧
  ovalues (sp_results sp') = ovalues (sp_results sp) ++ List.filter isToolResult span ∧
  Forall (λ i, is_Some (oget names i)) (okeys (sp_results sp')).
Proof.
  intros E -> Hspan Hrest Hch. revert sp E. induction span as [|m span IH]; intros sp E Hn Hk.
  - cbn [app] in E. destruct rest as [|m rest']; cbn [scanSpan] in E.
    + simplify_eq. by rewrite !app_nil_r.
    + assert (is_object m = true) as Ho by (unfold isAssistant in Hrest; by destruct (is_object m)).
      rewrite Ho, Hrest in E. cbn [negb] in E. simplify_eq. by rewrite !app_nil_r.
  - apply Forall_cons in Hspan as [Ha Hspan]. cbn [app scanSpan] in E. change (m :: span) with ([m] ++ span).
    rewrite allResultIds_app, List.filter_app, !app_assoc.
    change (m :: span) with ([m] ++ span) in Hn. rewrite allResultIds_app, app_assoc in Hn.
    assert (isToolResult m = false → allResultIds [m] = [] ∧ List.filter isToolResult [m] = []) as Hnot.
    { intros Et. unfold allResultIds. cbn. by rewrite Et. }
    rewrite Ha in E. destruct (is_object m) eqn:Eo; cbn [negb] in E.
    2:{ destruct Hnot as [E1 E2]; [unfold isToolResult; by rewrite Eo|]. rewrite E1, E2, !app_nil_r in *.
        by apply (IH Hspan) in E. }
    destruct (isToolResult m) eqn:Et; cbn [negb] in E.
    2:{ destruct Hnot as [E1 E2]; [done|]. rewrite E1, E2, !app_nil_r in *. by apply (IH Hspan) in E. }
    assert (List.filter isToolResult [m] = [m]) as E2 by (cbn; by rewrite Et). rewrite E2.
    assert (∀ i, extractToolResultId m = Some i → allResultIds [m] = [i]) as E1.
    { intros i Hi. unfold allResultIds. rewrite E2. unfold filter_map. cbn. by rewrite Hi. }
    destruct (extractToolResultId m) as [i|] eqn:Ei.
    2:{ apply (IH Hspan) in E as (Hc & _); [done|cbn [sp_results]|done].
        rewrite <- app_assoc in Hn. apply NoDup_app in Hn as (? & ? & Hn). apply NoDup_app in Hn as (_ & _ & Hn).
        apply NoDup_app. split; [done|]. split; [|done]. set_solver. }
    rewrite (E1 i eq_refl) in *.
    assert (i ∉ okeys (sp_results sp)) as Hi.
    { apply NoDup_app in Hn as (Hn & _ & _). apply NoDup_app in Hn as (_ & Hd & _). intros H. apply (Hd i H). by left. }
    assert (NoDup (okeys (sp_results sp) ++ allResultIds span)) as Hn'.
    { rewrite <- app_assoc in Hn. apply NoDup_app in Hn as (? & ? & Hn). apply NoDup_app in Hn as (_ & _ & Hn).
      apply NoDup_app. split; [done|]. split; [|done]. set_solver. }
    destruct (oget names i) as [name|] eqn:En; [|by apply (IH Hspan) in E as (Hc & _)].
    destruct (bool_decide (i ∈ seen)); [by apply (IH Hspan) in E as (Hc & _)|].
    destruct (normalizeToolResultName m name) as [normalized isNew] eqn:Enorm.
    assert (oget (sp_results sp) i = None) as Hnone by (apply oget_None; by rewrite <- list_elem_of_In).
    assert (ohas (sp_results sp) i = false) as Hhas by (unfold ohas; by rewrite Hnone). rewrite Hhas in E.
    rewrite (oset_absent _ _ _ Hnone) in E.
    apply (IH Hspan) in E as (Hc & G1 & G2 & G3); cbn [sp_results] in *.
    + cbn [sp_changed] in Hc. apply orb_false_iff in Hc as [Hc ->]. split; [done|].
      unfold okeys in G1 at 2. rewrite fmap_app in G1. unfold ovalues in G2 at 2. rewrite fmap_app in G2.
      split; [exact G1|]. split; [|exact G3]. rewrite G2. pose proof (normalize_same m name) as Hs. rewrite Enorm in Hs. cbn in Hs. by rewrite Hs.
    + unfold okeys. rewrite fmap_app. exact Hn.
    + unfold okeys. rewrite fmap_app. apply Forall_app. split; [exact Hk|]. repeat constructor. cbn. rewrite En. by eexists.
Qed.

Lemma results_perm calls (results : omap string js) (rs : list js) :
  NoDup (map call_id calls) → owf results → Forall (λ i, i ∈ map call_id calls) (okeys results) →
  Forall2 (λ c r, oget results (call_id c) = Some r) calls rs → rs ≡ₚ ovalues results.
Proof.
  intros Hn Hw Hk Hf. set (g i := oget results i ?? JUndefined).
  assert (rs = map g (map call_id calls) ∧ ∀ i, i ∈ map call_id calls → i ∈ okeys results) as [-> Hin].
  { clear Hn Hk. induction Hf as [|c r calls rs Hc _ [IH1 IH2]]; [split; [done|set_solver]|]. split.
    - cbn [map]. unfold g at 1. rewrite Hc. cbn. by rewrite <- IH1.
    - intros i [->|Hi]%elem_of_cons; [|by apply IH2]. apply oget_key in Hc. by apply list_elem_of_In. }
  rewrite (ovalues_okeys JUndefined results Hw). apply Permutation_map, NoDup_Permutation; [done|done|].
  intros i. split; [apply Hin|]. rewrite Forall_forall in Hk. apply Hk.
Qed.

Lemma names_of_calls calls i : is_Some (oget (toolCallNamesById calls) i) → i ∈ map call_id calls.
Proof.
  unfold toolCallNamesById. intros H.
  assert (∀ l m, is_Some (oget (fold_left (λ m c, oset m (call_id c) (call_name c)) l m) i) →
    is_Some (oget m i) ∨ i ∈ map call_id l) as Hg.
  { intros l. induction l as [|c l IH]; intros m Hm; [by left|]. cbn [fold_left map] in *.
    destruct (IH _ Hm) as [Hi|Hi]; [|right; by right]. rewrite oget_oset in Hi. case_decide as E; [right|by left].
    subst i. by left. }
  by destruct (Hg calls [] H) as [[? ?]|Hi].
Qed.

Lemma turn_unchanged policy now st m calls sp :
  isErrored m = false → calls ≠ [] → results_ok (sp_results sp) → NoDup (map call_id calls) →
  Forall (λ c, call_id c ≠ EmptyString ∧ call_id c ∉ rs_seen st) calls →
  rs_changed (repairTurn policy now st m calls sp) = false →
  sp_changed sp = false ∧ sp_remainder sp = [] ∧
  ∃ rs, Forall2 answers calls rs ∧ Forall2 (λ c r, oget (sp_results sp) (call_id c) = Some r) calls rs.
Proof.
  intros He Hne Hok Hn Hf. unfold repairTurn. rewrite He. set (displaced := _ && _).
  destruct (push_calls now (sp_results sp) calls (flag (push (addSpan st sp) [m]) displaced displaced) Hok Hn Hf)
    as (rs & _ & Ha & _ & _ & Hc).
  cbn [push rs_changed]. intros Hch. destruct (Hc Hch) as [Hc1 Hrs]. cbn in Hc1.
  apply orb_false_iff in Hc1 as [Hc1 Hd]. apply orb_false_iff in Hc1 as [_ Hc1]. split; [done|]. split; [|by exists rs].
  destruct calls as [|c calls]; [done|]. apply Forall2_cons_inv_l in Hrs as (r & rs' & Hr & _ & ->).
  unfold displaced in Hd. destruct (sp_results sp); [done|]. by destruct (sp_remainder sp).
Qed.

Definition failedTurn (m : js) : bool :=
  isAssistant m && isErrored m && negb (bool_decide (callIdsOf m = [])).

Lemma repairLoop_unchanged policy now fuel messages st st' :
  repairLoop policy now fuel messages st = Some st' → rs_changed st' = false →
  NoDup (allCallIds messages) → (∀ i, i ∈ rs_seen st → i ∉ allCallIds messages) →
  NoDup (allResultIds messages) → Forall (λ m, failedTurn m = false) messages → well_paired false messages.
Proof.
  revert messages st. induction fuel as [|fuel IH]; intros [|m rest] st E Hch Hn Hs Hr Hf; cbn [repairLoop] in E;
    simplify_eq; [apply well_paired_nil..|].
  apply Forall_cons in Hf as [Hm Hf]. change (m :: rest) with ([m] ++ rest) in Hr |- *.
  assert (isAssistant m = false ∨ extractToolCallsFromAssistant m = [] → callIdsOf m = []) as Hnone.
  { unfold callIdsOf. intros [->| ->]; [done|by destruct (isAssistant m)]. }
  assert (NoDup (allResultIds rest)) as Hr' by (rewrite allResultIds_app in Hr; by apply NoDup_app in Hr as (_ & _ & Hr)).
  destruct (isAssistant m) eqn:Ea; cbn [negb] in E.
  - destruct (extractToolCallsFromAssistant m) as [|c cs] eqn:Ec.
    + unfold allCallIds in Hn, Hs. cbn [flat_map] in Hn, Hs. rewrite Hnone in Hn, Hs by auto.
      apply well_paired_app; [by apply well_paired_block, block_plain|]. by apply (IH _ _ E).
    + destruct (turn_calls_ok st m rest (c :: cs) Ec Ea Hn Hs) as (H1 & H2 & H3 & H4).
      assert (isErrored m = false) as He.
      { unfold failedTurn, callIdsOf in Hm. rewrite Ea, Ec in Hm. by destruct (isErrored m). }
      destruct (scanSpan _ _ rest noSpan) as [sp rest'] eqn:Esp. pose proof Esp as Espec.
      apply scanSpan_spec in Espec as (span & -> & Hspan & Hrem & Hok & Hrest); [|by intros i r].
      cbn [noSpan sp_remainder app] in Hrem.
      destruct (repairLoop_flags _ _ _ _ _ _ E) as [Hfl _].
      destruct (turn_unchanged policy now st m (c :: cs) sp) as (Hspc & Hempty & rs & Hans & Hlook); try done.
      { apply not_true_is_false. intros Ht. rewrite (Hfl Ht) in Hch. done. }
      rewrite allResultIds_app in Hr'. apply NoDup_app in Hr' as (Hr1 & _ & Hr2).
      apply (scanSpan_unchanged _ _ _ _ _ _ span) in Esp as (_ & Hkeys & Hvals & Hknown); [|done..|by cbn|constructor].
      cbn [noSpan sp_results okeys ovalues fmap list_fmap app] in Hkeys, Hvals.
      rewrite app_assoc. apply well_paired_app.
      * apply well_paired_block. apply (block_turn _ m span rs); [done|done|by rewrite Ec|].
        assert (List.filter isToolResult span = span) as <-.
        { pose proof (filter_partition isToolResult span) as Hp. rewrite <- Hrem, Hempty in Hp. cbn [app] in Hp.
          apply Permutation_length in Hp. rewrite Hempty in Hrem. symmetry in Hrem. clear - Hrem.
          induction span as [|x l IHl]; [done|]. cbn [List.filter] in *. destruct (isToolResult x); [|done]. f_equal. by apply IHl. }
        rewrite <- Hvals. apply (results_perm (c :: cs)); [done| | |done].
        -- unfold owf. by rewrite Hkeys.
        -- apply (Forall_impl _ _ _ Hknown). intros i. apply names_of_calls.
      * unfold allCallIds in H3, H4. rewrite flat_map_app in H3, H4. fold (allCallIds span) in H3, H4.
        rewrite (allCallIds_span span Hspan) in H3, H4. cbn [app] in H3, H4. apply Forall_app in Hf as [_ Hf].
        apply (IH _ _ E); [done|done| |done|done]. intros i Hi.
        destruct (repairTurn_spec policy now st m (c :: cs) sp Ea Ec Hok) as (l & _ & _ & _ & G4); [|done|done|].
        { rewrite Hrem. by apply others_of_span. }
        destruct (G4 i Hi) as [Hi'|Hi']; [|by apply H4].
        intros Hin. apply (Hs i Hi'). unfold allCallIds. cbn [flat_map]. rewrite flat_map_app, !elem_of_app. auto.
  - unfold allCallIds in Hn, Hs. cbn [flat_map] in Hn, Hs. rewrite Hnone in Hn, Hs by auto.
    destruct (isToolResult m) eqn:Et.
    + destruct (repairLoop_flags _ _ _ _ _ _ E) as [Hfl _]. rewrite (Hfl eq_refl) in Hch. done.
    + apply well_paired_app; [|by apply (IH _ _ E)]. apply well_paired_block, block_other. unfold isOther. by rewrite Ea, Et.
Qed.

(** ** Tool call blocks after the repair *)

Lemma redactAttachment_idem item : redactAttachment (redactAttachment item) = redactAttachment item.
Proof.
  unfold redactAttachment. destruct item as [| | | | | |m]; try done. cbn [is_object negb has_prop].
  destruct (ohas m "content") eqn:E; cbn [negb]; [|cbn [is_object negb has_prop]; by rewrite E].
  cbn [without_prop with_prop is_object negb has_prop]. unfold ohas. rewrite oget_oset_eq. cbn [negb].
  cbn [without_prop with_prop]. rewrite odel_oset. f_equal. by rewrite odel_twice.
Qed.

Lemma redactArgs_idem v :
  let r := (redactSessionsSpawnAttachmentsArgs v).1 in (redactSessionsSpawnAttachmentsArgs r).1 = r.
Proof.
  unfold redactSessionsSpawnAttachmentsArgs. destruct (is_object v) eqn:Eo; cbn [negb fst]; [|by rewrite Eo].
  destruct (prop v "attachments") as [| | | | |raw|] eqn:Ea; cbn [fst]; rewrite ?Eo, ?Ea; try done.
  rewrite is_object_with_prop. cbn [negb]. rewrite prop_with_prop_eq. cbn [fst]. rewrite with_prop_twice. do 2 f_equal.
  rewrite map_map. apply map_ext. apply redactAttachment_idem.
Qed.

Lemma redactArgs_same v :
  (redactSessionsSpawnAttachmentsArgs v).2 = false → (redactSessionsSpawnAttachmentsArgs v).1 = v.
Proof. unfold redactSessionsSpawnAttachmentsArgs. repeat case_match; done. Qed.

Lemma redactArgs_defined v : defined (redactSessionsSpawnAttachmentsArgs v).1 = defined v.
Proof.
  unfold redactSessionsSpawnAttachmentsArgs. destruct v; try done. cbn [is_object negb].
  by destruct (prop _ _).
Qed.

Lemma redactArgs_new v : (redactSessionsSpawnAttachmentsArgs v).2 = true → defined v = true.
Proof. by destruct v. Qed.

(** The name of a block that is kept. *)
Lemma kept_name allowed b :
  hasToolCallName b allowed = true →
  ∃ raw, prop b "name" = JStr raw ∧ trim raw ≠ EmptyString ∧
    (∀ b', prop b' "name" = JStr (trim raw) → hasToolCallName b' allowed = true).
Proof.
  unfold hasToolCallName. destruct (prop b "name") as [| | | |raw| |]; try done. intros H. exists raw. split; [done|].
  split; [by intros E; rewrite E in H|]. intros b' ->. by rewrite trim_idemp.
Qed.

Definition validBlock (allowed : option (list string)) (b : js) : Prop :=
  hasToolCallInput b = true ∧ hasToolCallId b = true ∧ hasToolCallName b allowed = true ∧
  ∃ name, prop b "name" = JStr name ∧ trim name = name.

(** Setting a property to a value it has, or that is not there to set. *)
Lemma reset_prop b k v (isNew : bool) :
  prop b k = v → (isNew = true → defined v = true) →
  (if isNew || has_prop b k then with_prop b k v else b) = b.
Proof.
  intros E Hn. destruct (has_prop b k) eqn:Eh.
  - rewrite orb_true_r, <- E. by apply with_prop_same.
  - destruct isNew; [|done]. rewrite has_prop_defined in Eh; [done|]. rewrite E. by apply Hn.
Qed.

Lemma set_prop_spec b k v (isNew : bool) :
  (isNew = false → prop b k = v) →
  prop (if isNew || has_prop b k then with_prop b k v else b) k = v ∧
  (∀ k', k' ≠ k → prop (if isNew || has_prop b k then with_prop b k v else b) k' = prop b k') ∧
  (is_object b = true → is_object (if isNew || has_prop b k then with_prop b k v else b) = true).
Proof.
  intros Hv. destruct (isNew || has_prop b k) eqn:E.
  - split; [apply prop_with_prop_eq|]. split; [intros; by rewrite prop_with_prop_ne|by rewrite is_object_with_prop].
  - apply orb_false_iff in E as [-> _]. auto.
Qed.

(** A spawn block whose name is trimmed and whose arguments are redacted stays. *)
Lemma sanitize_fixed b t :
  prop b "name" = JStr t → t ≠ EmptyString → trim t = t → isSessionsSpawn (Some t) = true →
  (redactSessionsSpawnAttachmentsArgs (prop b "arguments")).1 = prop b "arguments" →
  (redactSessionsSpawnAttachmentsArgs (prop b "input")).1 = prop b "input" →
  (sanitizeToolCallBlock b).1 = b.
Proof.
  intros Hn Hne Ht Hs Ha Hi. unfold sanitizeToolCallBlock. rewrite Hn. cbn [str_value fmap option_fmap option_map].
  rewrite Ht. destruct t as [|c t']; [done|]. set (t := String c t') in *. rewrite Hs, bool_decide_true by done. cbn [negb].
  pose proof (redactArgs_new (prop b "arguments")) as Na. pose proof (redactArgs_new (prop b "input")) as Ni.
  destruct (redactSessionsSpawnAttachmentsArgs (prop b "arguments")) as [a an].
  destruct (redactSessionsSpawnAttachmentsArgs (prop b "input")) as [i inn]. cbn [fst snd] in *. subst a i.
  destruct (negb an && negb inn && true); [done|]. cbn [fst].
  rewrite (reset_prop b "arguments" _ an) by done. by rewrite (reset_prop b "input" _ inn).
Qed.

(** What the repair of a kept block changes: its name, and the arguments of a spawn. *)
Lemma repairBlock_props b raw :
  isRawToolCallBlock b = true → prop b "name" = JStr raw → trim raw ≠ EmptyString →
  let b' := (repairBlock b).1 in
  prop b' "name" = JStr (trim raw) ∧ prop b' "id" = prop b "id" ∧ isRawToolCallBlock b' = true ∧
  defined (prop b' "input") = defined (prop b "input") ∧ defined (prop b' "arguments") = defined (prop b "arguments") ∧
  (repairBlock b').1 = b'.
Proof.
  intros Hraw Hn Hne. set (t := trim raw) in *. assert (trim t = t) as Ht by apply trim_idemp.
  apply andb_true_iff in Hraw as Hraw'. destruct Hraw' as [Ho Hty].
  assert (∀ x, prop x "name" = JStr t → isRawToolCallBlock x = true → (repairBlock x).1 =
    if isSessionsSpawn (Some t) then (sanitizeToolCallBlock x).1 else x) as Hagain.
  { intros x Hx Hr. unfold repairBlock. rewrite Hr, Hx. cbn [negb str_value fmap option_fmap option_map]. rewrite Ht.
    destruct (isSessionsSpawn (Some t)); [done|]. by rewrite String.eqb_refl. }
  set (b' := (repairBlock b).1). cbn zeta.
  assert (str_truthy t = true) as Hst by (by destruct t).
  assert (b' = if isSessionsSpawn (Some t) then (sanitizeToolCallBlock b).1
               else if negb (String.eqb raw t) then with_prop b "name" (JStr t) else b) as Eb.
  { unfold b', repairBlock. rewrite Hraw, Hn. cbn [negb str_value fmap option_fmap option_map]. fold t.
    rewrite Hst, andb_true_r. destruct (isSessionsSpawn (Some t)); [done|]. by destruct (String.eqb raw t). }
  assert (∀ x, prop x "type" = prop b "type" → is_object x = true → isRawToolCallBlock x = true) as Hisraw.
  { intros x Hx Hxo. unfold isRawToolCallBlock. by rewrite Hxo, Hx, Hty. }
  destruct (isSessionsSpawn (Some t)) eqn:Es.
  - assert (prop b' "name" = JStr t ∧ prop b' "id" = prop b "id" ∧ prop b' "type" = prop b "type" ∧ is_object b' = true ∧
      prop b' "arguments" = (redactSessionsSpawnAttachmentsArgs (prop b "arguments")).1 ∧
      prop b' "input" = (redactSessionsSpawnAttachmentsArgs (prop b "input")).1) as (P1 & P2 & P3 & P4 & P5 & P6).
    { rewrite Eb. unfold sanitizeToolCallBlock. rewrite Hn. cbn [str_value fmap option_fmap option_map]. fold t.
      assert (∀ u, u ≠ EmptyString → match u with EmptyString => None | String _ _ => Some u end = Some u) as Hu by (by intros []).
      rewrite (Hu t Hne), Es. cbn [negb].
      pose proof (redactArgs_same (prop b "arguments")) as Sa. pose proof (redactArgs_same (prop b "input")) as Si.
      destruct (redactSessionsSpawnAttachmentsArgs (prop b "arguments")) as [a an].
      destruct (redactSessionsSpawnAttachmentsArgs (prop b "input")) as [i inn]. cbn [fst snd] in *.
      set (changed := negb (bool_decide (Some raw = Some t))).
      set (n1 := if changed then with_prop b "name" (JStr t) else b).
      assert (prop n1 "name" = JStr t ∧ is_object n1 = true ∧ (∀ k, k ≠ "name" → prop n1 k = prop b k) ∧
              (∀ k, k ≠ "name" → has_prop n1 k = has_prop b k)) as (N1 & N2 & N3 & N4).
      { unfold n1, changed. case_bool_decide as Ec; cbn [negb].
        - injection Ec as Ec. by rewrite Hn, Ec.
        - split; [apply prop_with_prop_eq|]. split; [by apply is_object_with_prop|].
          split; intros k Hk; [by rewrite prop_with_prop_ne|]. destruct b; try done. cbn. unfold ohas.
          by rewrite oget_oset_ne. }
      destruct (negb an && negb inn && negb changed) eqn:Eall.
      { apply andb_true_iff in Eall as [Eall Ec]. apply andb_true_iff in Eall as [Ea Ei].
        apply negb_true_iff in Ea, Ei, Ec. cbn [fst]. rewrite (Sa Ea), (Si Ei). unfold changed in Ec.
        apply negb_false_iff, bool_decide_eq_true in Ec. injection Ec as Ec. by rewrite Hn, Ec. }
      cbn [fst]. rewrite <- (N4 "arguments") by done.
      destruct (set_prop_spec n1 "arguments" a an) as (A1 & A2 & A3).
      { intros Ea. rewrite N3 by done. by rewrite Sa. }
      set (n2 := if an || has_prop n1 "arguments" then _ else n1) in *.
      assert (has_prop b "input" = has_prop n2 "input") as ->.
      { rewrite <- (N4 "input") by done. unfold n2. destruct (an || _); [|done].
        destruct n1; try done. cbn. unfold ohas. by rewrite oget_oset_ne. }
      destruct (set_prop_spec n2 "input" i inn) as (B1 & B2 & B3).
      { intros Ei. rewrite A2, N3 by done. by rewrite Si. }
      rewrite B1, !B2, A1, !A2, N1, !N3 by done. auto 10. }
    split; [done|]. split; [done|]. split; [by apply Hisraw|]. rewrite P5, P6, !redactArgs_defined. split; [done|].
    split; [done|]. rewrite Hagain by (done || by apply Hisraw). apply (sanitize_fixed b' t); try done.
    + rewrite P5. apply redactArgs_idem.
    + rewrite P6. apply redactArgs_idem.
  - assert (prop b' "name" = JStr t ∧ is_object b' = true ∧ ∀ k, k ≠ "name" → prop b' k = prop b k) as (P1 & P2 & P3).
    { rewrite Eb. destruct (String.eqb_spec raw t) as [E|E]; cbn [negb].
      - rewrite Hn, E. done.
      - split; [apply prop_with_prop_eq|]. split; [by apply is_object_with_prop|]. intros k Hk. by rewrite prop_with_prop_ne. }
    rewrite (P3 "id"), (P3 "input"), (P3 "arguments") by done. split; [done|]. split; [done|]. split; [apply Hisraw; [by apply P3|done]|]. split; [done|].
    split; [done|]. apply Hagain; [done|]. apply Hisraw; [by apply P3|done].
Qed.

Lemma repairBlock_same b : (repairBlock b).2 = false → (repairBlock b).1 = b.
Proof.
  unfold repairBlock. destruct (negb (isRawToolCallBlock b)); [done|].
  destruct (isSessionsSpawn _).
  - unfold sanitizeToolCallBlock. set (rawName := str_value _).
    destruct (trim <$> rawName) as [[|c t]|]; cbn [negb fst snd].
    all: try (set (nc := negb (bool_decide _)); destruct nc eqn:En); destruct (negb (isSessionsSpawn _)); try done;
      destruct (redactSessionsSpawnAttachmentsArgs (prop b "arguments")) as [a an];
      destruct (redactSessionsSpawnAttachmentsArgs (prop b "input")) as [i inn];
      by destruct (negb an && negb inn && _).
  - destruct (prop b "name"); try done. by destruct (_ && _).
Qed.

(** A block that is not dropped comes out valid, and a second repair keeps it. *)
Lemma repairBlock_kept allowed b :
  dropsBlock allowed b = false →
  let b' := (repairBlock b).1 in
  (isRawToolCallBlock b' = true → validBlock allowed b') ∧ dropsBlock allowed b' = false ∧ (repairBlock b').1 = b'.
Proof.
  intros Hd. cbn zeta. destruct (isRawToolCallBlock b) eqn:Er.
  - unfold dropsBlock in Hd. rewrite Er in Hd. cbn [andb] in Hd.
    apply orb_false_iff in Hd as [Hd Hn]. apply orb_false_iff in Hd as [Hi Hid].
    apply negb_false_iff in Hi, Hid, Hn. destruct (kept_name allowed b Hn) as (raw & E1 & E2 & E3).
    destruct (repairBlock_props b raw Er E1 E2) as (P1 & P2 & P3 & P4 & P5 & P6).
    set (b' := (repairBlock b).1) in *.
    assert (hasToolCallInput b' = true) as Hi' by (unfold hasToolCallInput in *; by rewrite P4, P5).
    assert (hasToolCallId b' = true) as Hid' by (unfold hasToolCallId in *; by rewrite P2).
    assert (hasToolCallName b' allowed = true) as Hn' by (by apply E3).
    split; [|split; [|done]].
    + intros _. split; [done|]. split; [done|]. split; [done|]. exists (trim raw). split; [done|apply trim_idemp].
    + unfold dropsBlock. by rewrite P3, Hi', Hid', Hn'.
  - assert ((repairBlock b).1 = b) as -> by (unfold repairBlock; by rewrite Er).
    rewrite Er. split; [done|]. split; [done|]. unfold repairBlock. by rewrite Er.
Qed.

Definition pushed (allowed : option (list string)) (msg : js) : list js := (repairMessage allowed msg).1.1.1.

Lemma repairMessage_unchanged allowed msg : (repairMessage allowed msg).2 = false → pushed allowed msg = [msg].
Proof.
  unfold pushed, repairMessage. destruct (negb (isAssistant msg)); [done|]. destruct (prop msg "content"); try done.
  destruct (0 <? _)%nat; [by destruct (repairContent allowed l)|]. by destruct (contentChanged allowed l).
Qed.

Lemma repairToolCallInputs_eq messages names :
  sanitizeToolCallInputs messages names = flat_map (pushed (normalizeAllowedToolNames names)) messages.
Proof.
  unfold sanitizeToolCallInputs, repairToolCallInputs. set (allowed := normalizeAllowedToolNames names).
  assert (∀ l out c m ch,
    let '(out', _, _, ch') := fold_left (λ '(out, calls, msgs, changed) msg,
        let '(pushed, c, m, ch) := repairMessage allowed msg in
        (out ++ pushed, (calls + c)%nat, (msgs + m)%nat, changed || ch)) l (out, c, m, ch) in
    out' = out ++ flat_map (pushed allowed) l ∧ (ch' = false → flat_map (pushed allowed) l = l)) as H.
  { intros l. induction l as [|x l IH]; intros out c m ch; cbn [fold_left flat_map]; [by rewrite app_nil_r|].
    pose proof (repairMessage_unchanged allowed x) as Hx. unfold pushed in *.
    destruct (repairMessage allowed x) as [[[p c'] m'] ch'] eqn:Ex. cbn [fst snd] in *.
    specialize (IH (out ++ p) (c + c')%nat (m + m')%nat (ch || ch')).
    destruct (fold_left _ l (out ++ p, _, _, _)) as [[[out' c2] m2] ch2] eqn:Ef. destruct IH as [I1 I2].
    rewrite I1, <- app_assoc. split; [done|]. intros Hch. rewrite (I2 Hch).
    assert (ch || ch' = false) as Hc.
    { clear - Ef Hch. revert Ef. generalize (out ++ p), (c + c')%nat, (m + m')%nat. destruct (ch || ch'); [|done].
      induction l as [|y l IH]; intros o a b E; cbn [fold_left] in E; [by simplify_eq|].
      destruct (repairMessage allowed y) as [[[p' c3] m3] ch3]. by apply IH in E. }
    apply orb_false_iff in Hc as [_ Hc]. by rewrite (Hx Hc). }
  specialize (H messages [] 0%nat 0%nat false). destruct (fold_left _ messages _) as [[[out c] m] ch].
  destruct H as [-> H2]. cbn [app ir_messages]. destruct ch; [done|]. by rewrite H2.
Qed.

Lemma repairContent_fixed allowed content :
  let nc := repairContent allowed content in
  repairContent allowed nc = nc ∧ droppedInContent allowed nc = 0%nat ∧
  ∀ b, b ∈ nc → isRawToolCallBlock b = true → validBlock allowed b.
Proof.
  cbn zeta. unfold repairContent, droppedInContent. induction content as [|b l (I1 & I2 & I3)]; [split; [done|]; split; [done|]; by intros b ?%elem_of_nil|].
  cbn [List.filter]. destruct (dropsBlock allowed b) eqn:Ed; cbn [negb map]; [done|].
  destruct (repairBlock_kept allowed b Ed) as (K1 & K2 & K3). cbn [List.filter]. rewrite K2. cbn [negb map].
  rewrite K3, I1. split; [done|]. split; [done|]. intros x [->|Hx]%elem_of_cons; [done|by apply I3].
Qed.

Lemma nothing_dropped allowed content :
  droppedInContent allowed content = 0%nat → contentChanged allowed content = false → repairContent allowed content = content.
Proof.
  unfold droppedInContent, contentChanged, repairContent. induction content as [|b l IH]; [done|].
  cbn [List.filter existsb]. destruct (dropsBlock allowed b); [done|]. cbn [negb map orb]. intros Hd Hc.
  apply orb_false_iff in Hc as [Hb Hc]. by rewrite (repairBlock_same b Hb), IH.
Qed.

(** What a message becomes. *)
Lemma pushed_cases allowed msg :
  pushed allowed msg = [] ∨
  (pushed allowed msg = [msg] ∧ ∀ content, isAssistant msg = true → prop msg "content" ≠ JArr content) ∨
  ∃ content, isAssistant msg = true ∧ prop msg "content" = JArr content ∧
    pushed allowed msg = [with_prop msg "content" (JArr (repairContent allowed content))].
Proof.
  unfold pushed, repairMessage. destruct (isAssistant msg) eqn:Ea; cbn [negb]; [|right; left; split; [done|done]].
  destruct (prop msg "content") as [| | | | |content|] eqn:Ec; try (right; left; split; [done|]; intros content _; discriminate).
  destruct (Nat.ltb_spec 0 (droppedInContent allowed content)) as [Hd|Hd].
  - destruct (repairContent allowed content) eqn:Er; [by left|]. right. right. exists content. by rewrite Er.
  - right. right. exists content. split; [done|]. split; [done|].
    destruct (contentChanged allowed content) eqn:Ech; [done|]. cbn [fst].
    rewrite nothing_dropped by (done || lia). rewrite <- Ec, with_prop_same; [done|]. apply has_prop_defined. by rewrite Ec.
Qed.

Lemma isAssistant_with_content msg x : isAssistant msg = true → isAssistant (with_prop msg "content" x) = true.
Proof.
  unfold isAssistant, role. intros [Ho Hr]%andb_true_iff. rewrite is_object_with_prop, prop_with_prop_ne by done. done.
Qed.

(** A repaired message comes out of a second repair as it is. *)
Lemma pushed_fixed allowed msg m : m ∈ pushed allowed msg → pushed allowed m = [m].
Proof.
  destruct (pushed_cases allowed msg) as [E|[[E H]|(content & Ha & Hc & E)]]; rewrite E.
  - by intros ?%elem_of_nil.
  - intros ->%list_elem_of_singleton. done.
  - intros ->%list_elem_of_singleton. set (m := with_prop msg "content" _).
    destruct (repairContent_fixed allowed content) as (F1 & F2 & _).
    unfold pushed, repairMessage. assert (isAssistant m = true) as -> by (by apply isAssistant_with_content).
    assert (prop m "content" = JArr (repairContent allowed content)) as -> by apply prop_with_prop_eq. cbn [negb].
    rewrite F2. cbn [Nat.ltb Nat.leb]. rewrite F1. destruct (contentChanged _ _); [|done]. cbn [fst]. unfold m.
    by rewrite with_prop_twice.
Qed.

(** ** Properties *)

Lemma repair_pairs messages policy now :
  NoDup (allCallIds messages) →
  ∃ r, repairToolUseResultPairing messages policy now = Some r ∧
    (ur_moved r = true → well_paired true (ur_messages r)) ∧
    (ur_moved r = false → ur_messages r = messages ∧
       (NoDup (allResultIds messages) → Forall (λ m, failedTurn m = false) messages → well_paired false messages)).
Proof.
  intros Hn. unfold repairToolUseResultPairing.
  destruct (repairLoop_total policy now (length messages) messages startRepair) as [st E]; [done|]. rewrite E.
  exists (report messages st). split; [done|]. unfold report. cbn [ur_moved ur_messages].
  destruct (rs_changed st || rs_moved st) eqn:Ec; (split; [|try done]).
  - intros _. apply (repairLoop_paired _ _ _ _ _ _ E Hn); [|apply well_paired_nil]. by intros i Hi%elem_of_nil.
  - done.
  - intros _. split; [done|]. intros Hr Hf. apply orb_false_iff in Ec as [Ec _].
    apply (repairLoop_unchanged _ _ _ _ _ _ E); try done. by intros i Hi%elem_of_nil.
Qed.

(** C31. A repaired transcript is paired. When no two calls share an id, the repair ends,
    and the list it returns when something was changed consists of turns that are
    followed at once by one result for each of their calls, in the order of the calls, and
    no result stands elsewhere; only a failed turn may lack results of some calls. When it
    changed nothing the list is the transcript itself, of which the same holds up to the
    order of the results of a turn, provided no result occurs twice and no turn with calls
    failed. *)
Theorem repaired_transcript_is_paired messages policy now :
  NoDup (allCallIds messages) →
  ∃ r, repairToolUseResultPairing messages policy now = Some r ∧
    (ur_moved r = true → well_paired true (ur_messages r)) ∧
    (ur_moved r = false → ur_messages r = messages ∧
       (NoDup (allResultIds messages) → Forall (λ m, failedTurn m = false) messages → well_paired false messages)).
Proof. apply repair_pairs. Qed.

Definition turn (i stop : string) : js :=
  JObj [("role", JStr "assistant"); ("stopReason", JStr stop);
        ("content", JArr [JObj [("type", JStr "toolCall"); ("id", JStr i); ("name", JStr "read"); ("arguments", JObj [])]])].
Definition result (i text : string) : js :=
  JObj [("role", JStr "toolResult"); ("toolCallId", JStr i); ("toolName", JStr "read"); ("text", JStr text)].
Definition user (text : string) : js := JObj [("role", JStr "user"); ("content", JStr text)].

Definition displacedTranscript : list js :=
  [user "hi"; turn "a" "toolUse"; user "wait"; result "a" "1"; turn "b" "toolUse"; result "x" "2"].

Lemma repaired_transcript_is_paired_witness :
  ∃ r, repairToolUseResultPairing displacedTranscript None 7 = Some r ∧
    ur_messages r = [user "hi"; turn "a" "toolUse"; result "a" "1"; user "wait"; turn "b" "toolUse";
                     makeMissingToolResult "b" (Some "read") 7] ∧ well_paired true (ur_messages r).
Proof.
  destruct (repaired_transcript_is_paired displacedTranscript None 7) as (r & E & Hw & _).
  { vm_compute. repeat constructor; rewrite ?list_elem_of_In; cbn; intuition discriminate. }
  exists r. split; [exact E|]. vm_compute in E. injection E as <-. split; [reflexivity|]. apply Hw. reflexivity.
Defined.

(** C32. The repair keeps the conversation: it ends, the messages that are no tool
    results stay in their order, a list that it changed has at most one result for an id,
    and when it changed nothing it returns the transcript as it is. *)
Theorem repair_keeps_conversation messages policy now :
  ∃ r, repairToolUseResultPairing messages policy now = Some r ∧
    conversation (ur_messages r) = conversation messages ∧
    (ur_moved r = true → NoDup (allResultIds (ur_messages r))) ∧ (ur_moved r = false → ur_messages r = messages).
Proof.
  unfold repairToolUseResultPairing.
  destruct (repairLoop_total policy now (length messages) messages startRepair) as [st E]; [done|]. rewrite E.
  exists (report messages st). split; [done|]. unfold report. cbn [ur_moved ur_messages].
  assert (tidy [] startRepair) as H0 by (split; [done|done|apply NoDup_nil_2]).
  destruct (repairLoop_tidy _ _ _ _ _ _ _ E H0) as [H1 H2 H3].
  destruct (rs_changed st || rs_moved st); [|done]. split; [done|]. split; [|done]. intros _. by rewrite H2.
Qed.

(** C33. Tool calls are sanitized: every tool call block that is left in an assistant
    message has an input, an id and an allowed, trimmed name; and sanitizing again
    changes nothing. *)
Theorem sanitized_tool_calls_valid messages names :
  let allowed := normalizeAllowedToolNames names in
  let out := sanitizeToolCallInputs messages names in
  Forall (λ m, ∀ content, isAssistant m = true → prop m "content" = JArr content →
    Forall (λ b, isRawToolCallBlock b = true → validBlock allowed b) content) out ∧
  sanitizeToolCallInputs out names = out.
Proof.
  intros allowed out. unfold out. rewrite !repairToolCallInputs_eq. fold allowed. split.
  - rewrite Forall_forall. intros m Hm content Ha Hc.
    apply list_elem_of_In, in_flat_map in Hm as (msg & _ & Hm). apply list_elem_of_In in Hm.
    pose proof (pushed_fixed allowed msg m Hm) as Hfix.
    destruct (pushed_cases allowed m) as [E|[[_ H]|(content' & _ & Hc' & E)]].
    + by rewrite E in Hfix.
    + by destruct (H content Ha).
    + rewrite Hc in Hc'. injection Hc' as <-. rewrite E in Hfix. injection Hfix as Hfix.
      assert (content = repairContent allowed content) as Hrc.
      { assert (prop (with_prop m "content" (JArr (repairContent allowed content))) "content" = prop m "content") as Hp
          by (by rewrite Hfix). rewrite prop_with_prop_eq, Hc in Hp. by injection Hp. }
      rewrite Hrc. rewrite Forall_forall. intros b Hb. by apply (repairContent_fixed allowed content).
  - induction messages as [|msg l IH]; [done|]. cbn [flat_map]. rewrite flat_map_app, IH. f_equal.
    pose proof (pushed_fixed allowed msg) as Hfix. induction (pushed allowed msg) as [|m p IHp]; [done|].
    cbn [flat_map]. rewrite (Hfix m) by (by left). cbn [app]. f_equal. apply IHp. intros x Hx. apply Hfix. by right.
Qed.

(** ** Where the contract does not hold *)

(** A result that occurs twice in the last turn stays: the second one is skipped
    without noting a change, and the given list is returned. *)
Lemma duplicate_result_kept :
  let messages := [turn "a" "toolUse"; result "a" "1"; result "a" "2"] in
  ∃ r, repairToolUseResultPairing messages None 7 = Some r ∧ ur_moved r = false ∧
    allResultIds (ur_messages r) = ["a"; "a"].
Proof. eexists. split; [reflexivity|]. split; reflexivity. Qed.

(** The displaced result of a failed turn stays where it is. *)
Lemma failed_turn_stays_displaced :
  let messages := [turn "a" "aborted"; user "wait"; result "a" "1"] in
  ∃ r, repairToolUseResultPairing messages None 7 = Some r ∧ ur_messages r = messages.
Proof. eexists. split; reflexivity. Qed.

(** When two turns use one id, the second call is left without a result: its own is
    dropped as a duplicate and so is the synthetic one. *)
Lemma reused_id_left_without_result :
  let messages := [turn "a" "toolUse"; result "a" "1"; user "again"; turn "a" "toolUse"; result "a" "2"] in
  ∃ r, repairToolUseResultPairing messages None 7 = Some r ∧
    ur_messages r = [turn "a" "toolUse"; result "a" "1"; user "again"; turn "a" "toolUse"] ∧
    ur_added r = [makeMissingToolResult "a" (Some "read") 7].
Proof. eexists. split; [reflexivity|]. split; reflexivity. Qed.

End TranscriptRepair.
