(* ===== verification/ToolCallId.v ===== *)
(** * Rewriting the ids of tool calls: src/agents/tool-call-id.ts

    Providers accept ids of letters and digits, some of a fixed length. Every call
    of a transcript gets such an id, a repeated raw id a new one each time, and the
    results take the ids of their calls in the order in which they are met. The
    readers of calls and results are those of [TranscriptRepair]. SHA-256 is an
    argument; so is the clock, which an allocation reads by its number. Where the
    code compares references to see whether something changed, the model returns a
    flag. *)

From Stdlib Require Import Ascii.
From S2P Require Import Prelude OMap JsValue TranscriptRepair.

Module ToolCallId.
Import StringCoerce JsValue TranscriptRepair.

Inductive ToolCallIdMode := Strict | Strict9.
#[export] Instance ToolCallIdMode_eq_dec : EqDecision ToolCallIdMode.
Proof. solve_decision. Defined.

Definition STRICT9_LEN : nat := 9.
Definition MAX_LEN : nat := 40.

(** [id.replace(/[^a-zA-Z0-9]/g, "")] *)
Fixpoint alphanumericOnly (s : string) : string :=
  match s with
  | EmptyString => EmptyString
  | String c s' => if alnum c then String c (alphanumericOnly s') else alphanumericOnly s'
  end.

(** /^toolu_[A-Za-z0-9_]+$/ *)
Definition isNativeAnthropicToolUseId (i : string) : bool :=
  starts_with i "toolu_" &&
  match str_drop 6 i with
  | EmptyString => false
  | rest => str_all (λ c, alnum c || in_range c 95 95) rest
  end.

Definition isValidCloudCodeAssistToolId (i : string) (mode : ToolCallIdMode) : bool :=
  str_truthy i &&
  match mode with
  | Strict9 => (String.length i =? STRICT9_LEN)%nat && str_all alnum i
  | Strict => str_all alnum i
  end.

(** The first of [n] candidates from the [i]th that no call uses. *)
Fixpoint firstFree (used : list string) (candidate : nat → string) (n i : nat) : option string :=
  match n with
  | O => None
  | S n' => if set_has used (candidate i) then firstFree used candidate n' (S i) else Some (candidate i)
  end.

Definition add_used (used : list string) (i : string) : list string :=
  if set_has used i then used else used ++ [i].

Section Rewriting.
Context (sha256_hex : string → string).

Definition shortHash (text : string) (length : nat) : string := str_take length (sha256_hex text).

Definition sanitizeToolCallId (i : string) (mode : ToolCallIdMode) : string :=
  match i, mode with
  | EmptyString, Strict9 => "defaultid"
  | EmptyString, Strict => "defaulttoolid"
  | _, Strict9 =>
      let kept := alphanumericOnly i in
      if (STRICT9_LEN <=? String.length kept)%nat then str_take STRICT9_LEN kept
      else if str_truthy kept then shortHash kept STRICT9_LEN
      else shortHash "sanitized" STRICT9_LEN
  | _, Strict =>
      let kept := alphanumericOnly i in
      if str_truthy kept then kept else "sanitizedtoolid"
  end.

Definition hashedCandidate (i : string) (k : nat) : string := shortHash (i +:+ ":" +:+ pretty k) STRICT9_LEN.

Definition makeUniqueToolId9 (i : string) (used : list string) (now : Z) : string :=
  let base := sanitizeToolCallId i Strict9 in
  let candidate := if (STRICT9_LEN <=? String.length base)%nat then str_take STRICT9_LEN base else EmptyString in
  if str_truthy candidate && negb (set_has used candidate) then candidate
  else match firstFree used (hashedCandidate i) 1000 0 with
       | Some hashed => hashed
       | None => shortHash (i +:+ ":" +:+ pretty now) STRICT9_LEN
       end.

(** The suffix takes the place of the last characters. *)
Definition with_suffix (candidate suffix : string) : string :=
  str_take (MAX_LEN - String.length suffix) candidate +:+ suffix.

Definition numberedCandidate (candidate : string) (k : nat) : string := with_suffix candidate ("x" +:+ pretty k).

(** The separator is empty: this branch is reached in the mode "strict" only. *)
Definition makeUniqueToolIdStrict (i : string) (used : list string) (now : Z) : string :=
  let base := str_take MAX_LEN (sanitizeToolCallId i Strict) in
  if negb (set_has used base) then base
  else
    let hash := shortHash i 8 in
    let candidate := str_take (MAX_LEN - String.length hash) base +:+ hash in
    if negb (set_has used candidate) then candidate
    else match firstFree used (numberedCandidate candidate) 998 2 with
         | Some next => next
         | None => with_suffix candidate ("t" +:+ pretty now)
         end.

Definition makeUniqueToolId (i : string) (used : list string) (mode : ToolCallIdMode) (now : Z) : string :=
  match mode with
  | Strict9 => makeUniqueToolId9 i used now
  | Strict => makeUniqueToolIdStrict i used now
  end.

(** ** createOccurrenceAwareResolver *)

Record Resolver := mkResolver {
  rv_used : list string;
  rv_assistantOccurrences : omap string nat;
  rv_orphanToolResultOccurrences : omap string nat;
  rv_pendingByRawId : omap string (list string);
  rv_allocations : nat;
}.
Definition newResolver : Resolver := mkResolver [] [] [] [] 0.

Definition with_used (st : Resolver) (i : string) : Resolver :=
  mkResolver (add_used (rv_used st) i) (rv_assistantOccurrences st) (rv_orphanToolResultOccurrences st)
    (rv_pendingByRawId st) (S (rv_allocations st)).
Definition with_pending (st : Resolver) (pending : omap string (list string)) : Resolver :=
  mkResolver (rv_used st) (rv_assistantOccurrences st) (rv_orphanToolResultOccurrences st) pending (rv_allocations st).

Context (mode : ToolCallIdMode) (preserveNative : bool) (clock : nat → Z).

Definition allocate (st : Resolver) (seed : string) : string * Resolver :=
  let next := makeUniqueToolId seed (rv_used st) mode (clock (rv_allocations st)) in
  (next, with_used st next).

Definition keepsNative (st : Resolver) (i : string) (occurrence : nat) : bool :=
  preserveNative && isNativeAnthropicToolUseId i && (occurrence =? 1)%nat && negb (set_has (rv_used st) i).

Definition allocatePreservingNativeAnthropicId (st : Resolver) (i : string) (occurrence : nat) : string * Resolver :=
  if keepsNative st i occurrence then (i, with_used st i)
  else allocate st (if (occurrence =? 1)%nat then i else i +:+ ":" +:+ pretty occurrence).

Definition resolveAssistantId (st : Resolver) (i : string) : string * Resolver :=
  let occurrence := S (oget (rv_assistantOccurrences st) i ?? O) in
  let st1 := mkResolver (rv_used st) (oset (rv_assistantOccurrences st) i occurrence)
               (rv_orphanToolResultOccurrences st) (rv_pendingByRawId st) (rv_allocations st) in
  let '(next, st2) := allocatePreservingNativeAnthropicId st1 i occurrence in
  let pending := match oget (rv_pendingByRawId st2) i with Some pending => pending ++ [next] | None => [next] end in
  (next, with_pending st2 (oset (rv_pendingByRawId st2) i pending)).

Definition resolveToolResultId (st : Resolver) (i : string) : string * Resolver :=
  match oget (rv_pendingByRawId st) i with
  | Some (next :: rest) =>
      (next, with_pending st (match rest with
                              | [] => odel (rv_pendingByRawId st) i
                              | _ => oset (rv_pendingByRawId st) i rest
                              end))
  | _ =>
      let occurrence := S (oget (rv_orphanToolResultOccurrences st) i ?? O) in
      let st1 := mkResolver (rv_used st) (rv_assistantOccurrences st)
                   (oset (rv_orphanToolResultOccurrences st) i occurrence) (rv_pendingByRawId st) (rv_allocations st) in
      if keepsNative st1 i occurrence then (i, with_used st1 i)
      else allocate st1 (i +:+ ":tool_result:" +:+ pretty occurrence)
  end.

(** ** Rewriting messages *)

(** The block, and whether it is a new one. *)
Definition rewriteBlock (st : Resolver) (block : js) : (js * bool) * Resolver :=
  if negb (is_object block) then ((block, false), st)
  else if negb (isToolCallType (prop block "type")) then ((block, false), st)
  else match nonempty_str (prop block "id") with
       | None => ((block, false), st)
       | Some i =>
           let '(nextId, st') := resolveAssistantId st i in
           if String.eqb nextId i then ((block, false), st')
           else ((with_prop block "id" (JStr nextId), true), st')
       end.

Definition rewriteAssistantToolCallIds (st : Resolver) (message : js) : (js * bool) * Resolver :=
  match prop message "content" with
  | JArr content =>
      let '(next, st') := callAll rewriteBlock st content in
      if existsb snd next then ((with_prop message "content" (JArr (map fst next)), true), st')
      else ((message, false), st')
  | _ => ((message, false), st)
  end.

Definition resolveOptional (st : Resolver) (i : option string) : option string * Resolver :=
  match i with
  | Some i => let '(next, st') := resolveToolResultId st i in (Some next, st')
  | None => (None, st)
  end.

(** [{ ...message, ...(id && { k: id }) }] *)
Definition with_id (message : js) (k : string) (i : option string) : js :=
  match i with Some (String _ _ as s) => with_prop message k (JStr s) | _ => message end.

Definition rewriteToolResultIds (st : Resolver) (message : js) : (js * bool) * Resolver :=
  let toolCallId := nonempty_str (prop message "toolCallId") in
  let toolUseId := nonempty_str (prop message "toolUseId") in
  let sharedRawId := if bool_decide (toolCallId = toolUseId) then toolCallId else None in
  let '(sharedResolvedId, st1) := resolveOptional st sharedRawId in
  let '(nextToolCallId, st2) :=
    match sharedResolvedId with Some _ => (sharedResolvedId, st1) | None => resolveOptional st1 toolCallId end in
  let '(nextToolUseId, st3) :=
    match sharedResolvedId with Some _ => (sharedResolvedId, st2) | None => resolveOptional st2 toolUseId end in
  if bool_decide (nextToolCallId = toolCallId) && bool_decide (nextToolUseId = toolUseId) then ((message, false), st3)
  else ((with_id (with_id message "toolCallId" nextToolCallId) "toolUseId" nextToolUseId, true), st3).

Definition rewriteMessage (st : Resolver) (msg : js) : (js * bool) * Resolver :=
  if isAssistant msg then rewriteAssistantToolCallIds st msg
  else if isToolResult msg then rewriteToolResultIds st msg
  else ((msg, false), st).

Definition sanitizeToolCallIdsForCloudCodeAssist (messages : list js) : list js :=
  let '(out, _) := callAll rewriteMessage newResolver messages in
  if existsb snd out then map fst out else messages.

End Rewriting.

(** ** What the rewriting keeps: calls and results as events *)

(** A transcript read as the raw ids of its calls and results, in order. *)
Inductive ToolEvent := CallEvent (i : string) | ResultEvent (i : string).
#[export] Instance ToolEvent_eq_dec : EqDecision ToolEvent.
Proof. solve_decision. Defined.

Definition event_id (e : ToolEvent) : string := match e with CallEvent i | ResultEvent i => i end.

Definition message_events (msg : js) : list ToolEvent :=
  if isAssistant msg then map (λ c, CallEvent (call_id c)) (extractToolCallsFromAssistant msg)
  else if isToolResult msg then match extractToolResultId msg with Some i => [ResultEvent i] | None => [] end
  else [].
Definition transcript_events (messages : list js) : list ToolEvent := flat_map message_events messages.

Definition relabel (e : ToolEvent) (x : string) : ToolEvent :=
  match e with CallEvent _ => CallEvent x | ResultEvent _ => ResultEvent x end.

(** A result names its call once, or twice by the same id. *)
Definition one_result_id (msg : js) : bool :=
  match nonempty_str (prop msg "toolCallId"), nonempty_str (prop msg "toolUseId") with
  | Some a, Some b => String.eqb a b
  | _, _ => true
  end.

(** A message with other ids of its calls, or of the call it answers. *)
Inductive block_rewritten : js → js → Prop :=
| block_kept b : block_rewritten b b
| block_renamed b c x : toolCallOf b = Some c → block_rewritten b (with_prop b "id" (JStr x)).
Inductive rewritten : js → js → Prop :=
| msg_kept m : rewritten m m
| msg_turn m content next :
    isAssistant m = true → prop m "content" = JArr content → Forall2 block_rewritten content next →
    rewritten m (with_prop m "content" (JArr next))
| msg_result m i j :
    isToolResult m = true → (i ≠ None → nonempty_str (prop m "toolCallId") ≠ None) →
    (j ≠ None → nonempty_str (prop m "toolUseId") ≠ None) →
    rewritten m (with_id (with_id m "toolCallId" i) "toolUseId" j).

(** The calls that no result has taken: raw id and position. *)
Fixpoint take_open (opens : list (string * nat)) (i : string) : option (nat * list (string * nat)) :=
  match opens with
  | [] => None
  | (raw, p) :: rest =>
      if String.eqb raw i then Some (p, rest)
      else match take_open rest i with Some (q, rest') => Some (q, (raw, p) :: rest') | None => None end
  end.

(** The position of the call every event belongs to: a call and a result without a
    call are their own, any other result belongs to the oldest open call with its raw
    id. *)
Definition owner_step (n : nat) (opens : list (string * nat)) (e : ToolEvent) : nat * list (string * nat) :=
  match e with
  | CallEvent i => (n, opens ++ [(i, n)])
  | ResultEvent i => take_open opens i ?? (n, opens)
  end.
Fixpoint owners (n : nat) (opens : list (string * nat)) (events : list ToolEvent) : list nat :=
  match events with
  | [] => []
  | e :: rest => let '(p, opens') := owner_step n opens e in p :: owners (S n) opens' rest
  end.

(** ** Ids are new while few are used *)

Lemma firstFree_fresh used f n i x :
  firstFree used f n i = Some x → x ∉ used ∧ ∃ k, (i <= k < i + n)%nat ∧ x = f k.
Proof.
  revert i. induction n as [|n IH]; intros i; cbn; [done|].
  destruct (set_has used (f i)) eqn:E.
  - intros (? & k & ? & ->)%IH. split; [done|]. exists k. split; [lia|done].
  - intros [= <-]. split; [by apply set_has_false|]. exists i. split; [lia|done].
Qed.

Lemma firstFree_none used f n i : firstFree used f n i = None → Forall (λ k, f k ∈ used) (seq i n).
Proof.
  revert i. induction n as [|n IH]; intros i; cbn; [constructor|].
  destruct (set_has used (f i)) eqn:E; [|done]. intros H. constructor; [by apply set_has_iff|by apply IH].
Qed.

(** Different candidates that are all used need as many used ids. *)
Lemma firstFree_finds used f n i :
  NoDup (map f (seq i n)) → (length used < n)%nat → ∃ x, firstFree used f n i = Some x.
Proof.
  intros Hd Hl. destruct (firstFree used f n i) as [x|] eqn:E; [by exists x|]. exfalso.
  apply firstFree_none in E.
  assert (map f (seq i n) ⊆+ used) as H%submseteq_length.
  { apply NoDup_submseteq; [done|]. intros x Hx. apply list_elem_of_In, in_map_iff in Hx as (k & <- & Hk).
    rewrite Forall_forall in E. by apply E, list_elem_of_In. }
  rewrite length_map, length_seq in H. lia.
Qed.

Lemma pretty_N_go_all (f : Ascii.ascii → bool) (x : N) s :
  (∀ d, f (pretty_N_char d) = true) → str_all f s = true → str_all f (pretty_N_go x s) = true.
Proof.
  intros Hf. revert s. induction (N.lt_wf_0 x) as [x _ IH]; intros s Hs.
  destruct (decide (0 < x)%N).
  - rewrite pretty_N_go_step by done. apply IH; [apply N.div_lt; lia|]. cbn. by rewrite Hf, Hs.
  - assert (x = 0)%N as -> by lia. by rewrite pretty_N_go_0.
Qed.

Lemma pretty_nat_all (f : Ascii.ascii → bool) (n : nat) : (∀ d, f (pretty_N_char d) = true) → str_all f (pretty n) = true.
Proof.
  intros Hf. unfold pretty, pretty_nat, pretty, pretty_N. case_decide.
  - specialize (Hf 0%N). cbn in *. by rewrite Hf.
  - by apply pretty_N_go_all.
Qed.

(** What follows the last x is the number. *)
#[export] Instance numberedCandidate_inj candidate : Inj (=) (=) (numberedCandidate candidate).
Proof.
  intros k k'.
  assert (∀ a (n : nat), last (split_on "x"%char (a +:+ ("x" +:+ pretty n))) = Some (pretty n)) as Hlast.
  { intros a n. change ("x" +:+ pretty n) with (String "x"%char (pretty n)). rewrite split_on_append, (split_on_free _ (pretty n)).
    - apply last_snoc.
    - apply pretty_nat_all. intros d. unfold pretty_N_char. by repeat case_match. }
  unfold numberedCandidate, with_suffix. intros H.
  apply (f_equal (λ s, last (split_on "x"%char s))) in H. rewrite !Hlast in H. injection H as H. by apply (inj pretty) in H.
Qed.

Lemma makeUniqueToolIdStrict_fresh sha i used now :
  (length used < 998)%nat → makeUniqueToolIdStrict sha i used now ∉ used.
Proof.
  intros Hl. unfold makeUniqueToolIdStrict.
  destruct (negb (set_has used (str_take MAX_LEN _))) eqn:E1; [by apply negb_true_iff, set_has_false in E1|].
  destruct (negb (set_has used (_ +:+ _))) eqn:E2; [by apply negb_true_iff, set_has_false in E2|].
  set (candidate := str_take _ (str_take _ _) +:+ _).
  destruct (firstFree_finds used (numberedCandidate candidate) 998 2) as [x Hx]; [|done|].
  - apply (NoDup_fmap_2 (numberedCandidate _)), NoDup_seq.
  - rewrite Hx. by apply firstFree_fresh in Hx as [? _].
Qed.

(** In the mode "strict9" the candidates are hashes: the id is new unless the hashes of
    the raw id collide or all of them are used. *)
Lemma makeUniqueToolId9_fresh sha i used now :
  NoDup (map (hashedCandidate sha i) (seq 0 1000)) → (length used < 1000)%nat →
  makeUniqueToolId9 sha i used now ∉ used.
Proof.
  intros Hd Hl. unfold makeUniqueToolId9.
  destruct (str_truthy _ && negb (set_has used _)) eqn:E.
  - apply andb_true_iff in E as [_ E%negb_true_iff]. by apply set_has_false.
  - destruct (firstFree_finds used (hashedCandidate sha i) 1000 0 Hd Hl) as [x Hx]. rewrite Hx.
    by apply firstFree_fresh in Hx as [? _].
Qed.

(** ** Ids are valid *)

Lemma alphanumericOnly_all s : str_all alnum (alphanumericOnly s) = true.
Proof. induction s as [|c s IH]; cbn; [done|]. destruct (alnum c) eqn:E; [|done]. cbn. by rewrite E. Qed.

Lemma str_truthy_take n s : (0 < n)%nat → str_truthy (str_take n s) = str_truthy s.
Proof. destruct n, s; done || lia. Qed.

Lemma str_truthy_append a b : str_truthy (a +:+ b) = str_truthy a || str_truthy b.
Proof. by destruct a. Qed.

Lemma with_suffix_length candidate suffix :
  (String.length suffix <= MAX_LEN)%nat → (String.length (with_suffix candidate suffix) <= MAX_LEN)%nat.
Proof.
  intros H. unfold with_suffix. rewrite append_length.
  pose proof (str_take_length (MAX_LEN - String.length suffix) candidate). lia.
Qed.

Lemma makeUniqueToolIdStrict_length sha i used now :
  (length used < 998)%nat → (String.length (makeUniqueToolIdStrict sha i used now) <= MAX_LEN)%nat.
Proof.
  intros Hl. unfold makeUniqueToolIdStrict.
  destruct (negb (set_has used (str_take MAX_LEN _))); [apply str_take_length|].
  destruct (negb (set_has used (_ +:+ _))).
  { rewrite append_length. match goal with |- (String.length (str_take ?n ?s) + _ <= _)%nat =>
      pose proof (str_take_length n s) end.
    pose proof (str_take_length 8 (sha i)). unfold shortHash, MAX_LEN in *. lia. }
  set (candidate := str_take _ (str_take _ _) +:+ _).
  destruct (firstFree_finds used (numberedCandidate candidate) 998 2) as [x Hx]; [|done|].
  - apply (NoDup_fmap_2 (numberedCandidate _)), NoDup_seq.
  - rewrite Hx. apply firstFree_fresh in Hx as (_ & k & Hk & ->). apply with_suffix_length.
    assert (Forall (λ k, (String.length ("x" +:+ pretty k) <= MAX_LEN)%nat) (seq 2 998)) as Hf.
    { apply (bool_decide_unpack _). vm_compute. exact I. }
    rewrite Forall_forall in Hf. by apply Hf, elem_of_seq.
Qed.

Section Validity.
Context (sha256_hex : string → string) (digest_alnum : ∀ s, str_all alnum (sha256_hex s) = true).

Lemma shortHash_all s n : str_all alnum (shortHash sha256_hex s n) = true.
Proof. by apply str_all_take. Qed.

Lemma sanitizeToolCallId_strict_valid i : isValidCloudCodeAssistToolId (sanitizeToolCallId sha256_hex i Strict) Strict = true.
Proof.
  unfold sanitizeToolCallId, isValidCloudCodeAssistToolId. destruct i as [|c i]; [done|].
  destruct (str_truthy (alphanumericOnly (String c i))) eqn:E; [|done]. by rewrite E, alphanumericOnly_all.
Qed.

Lemma with_suffix_valid candidate suffix :
  str_all alnum candidate = true → str_all alnum suffix = true → str_truthy suffix = true →
  isValidCloudCodeAssistToolId (with_suffix candidate suffix) Strict = true.
Proof.
  intros Hc Hs Ht. unfold isValidCloudCodeAssistToolId, with_suffix.
  by rewrite str_truthy_append, Ht, orb_true_r, str_all_append, Hs, str_all_take.
Qed.

Lemma makeUniqueToolIdStrict_valid i used now :
  0 <= now → isValidCloudCodeAssistToolId (makeUniqueToolIdStrict sha256_hex i used now) Strict = true.
Proof.
  intros Hn. pose proof (sanitizeToolCallId_strict_valid i) as Hb. apply andb_true_iff in Hb as [Ht Ha].
  assert (∀ d, alnum (pretty_N_char d) = true) as Hd by (intros d; unfold pretty_N_char; by repeat case_match).
  unfold makeUniqueToolIdStrict. set (base := sanitizeToolCallId sha256_hex i Strict) in *.
  destruct (negb (set_has used (str_take MAX_LEN base))).
  { unfold isValidCloudCodeAssistToolId. rewrite str_truthy_take by (unfold MAX_LEN; lia). by rewrite Ht, str_all_take. }
  set (candidate := str_take (MAX_LEN - _) (str_take MAX_LEN base) +:+ _).
  assert (str_all alnum candidate = true) as Hc.
  { unfold candidate. rewrite str_all_append, shortHash_all, andb_true_r. by do 2 apply str_all_take. }
  assert (str_truthy candidate = true) as Hct.
  { unfold candidate. rewrite str_truthy_append, !str_truthy_take, Ht; [done|unfold MAX_LEN; lia|].
    pose proof (str_take_length 8 (sha256_hex i)). unfold shortHash, MAX_LEN. lia. }
  destruct (negb (set_has used candidate)).
  { unfold isValidCloudCodeAssistToolId. by rewrite Hct, Hc. }
  destruct (firstFree _ _ _ _) as [x|] eqn:E.
  - apply firstFree_fresh in E as (_ & k & _ & ->). apply with_suffix_valid; [done| |done].
    cbn. by apply pretty_nat_all.
  - apply with_suffix_valid; [done| |done]. cbn. unfold pretty, pretty_Z. destruct now as [|p|p]; [done| |lia].
    apply (pretty_nat_all alnum (Pos.to_nat p)) in Hd. unfold pretty, pretty_nat in Hd. by rewrite positive_nat_N in Hd.
Qed.

(** In the mode "strict9" ids have nine characters, when the digest is that long. *)
Context (digest_long : ∀ s, (STRICT9_LEN <= String.length (sha256_hex s))%nat).

Lemma take9_valid s : str_all alnum s = true → (STRICT9_LEN <= String.length s)%nat →
  isValidCloudCodeAssistToolId (str_take STRICT9_LEN s) Strict9 = true.
Proof using Type.
  intros Ha Hl. assert (String.length (str_take STRICT9_LEN s) = STRICT9_LEN) as Hlen.
  { clear Ha. revert s Hl. generalize STRICT9_LEN as n. induction n as [|n IH]; intros [|c s]; cbn; try lia.
    intros ?. rewrite IH; lia. }
  unfold isValidCloudCodeAssistToolId. rewrite Hlen, (str_all_take _ _ _ Ha). by destruct (str_take STRICT9_LEN s).
Qed.

Lemma makeUniqueToolId9_valid i used now :
  isValidCloudCodeAssistToolId (makeUniqueToolId9 sha256_hex i used now) Strict9 = true.
Proof.
  assert (∀ s, isValidCloudCodeAssistToolId (shortHash sha256_hex s STRICT9_LEN) Strict9 = true) as Hhash.
  { intros s. by apply take9_valid. }
  unfold makeUniqueToolId9. destruct (STRICT9_LEN <=? _)%nat eqn:El; cbn [str_truthy andb].
  - destruct (str_truthy _ && _) eqn:E.
    + apply Nat.leb_le in El. apply take9_valid; [|done]. clear E El. unfold sanitizeToolCallId. destruct i as [|c i]; [done|].
      destruct (_ <=? _)%nat; [apply str_all_take, alphanumericOnly_all|].
      by destruct (str_truthy (alphanumericOnly _)); apply str_all_take.
    + destruct (firstFree _ _ _ _) eqn:Ef; [|apply Hhash]. apply firstFree_fresh in Ef as (_ & k & _ & ->). apply Hhash.
  - destruct (firstFree _ _ _ _) eqn:Ef; [|apply Hhash]. apply firstFree_fresh in Ef as (_ & k & _ & ->). apply Hhash.
Qed.

End Validity.

(** ** The resolver follows the owners *)

Definition opens_of (i : string) (opens : list (string * nat)) : list nat :=
  filter_map (λ e, if String.eqb e.1 i then Some e.2 else None) opens.

Lemma opens_of_app i a b : opens_of i (a ++ b) = opens_of i a ++ opens_of i b.
Proof. unfold opens_of, filter_map. apply flat_map_app. Qed.

Lemma opens_of_cons i raw p opens :
  opens_of i ((raw, p) :: opens) = if String.eqb raw i then p :: opens_of i opens else opens_of i opens.
Proof. unfold opens_of, filter_map. cbn. by destruct (String.eqb raw i). Qed.

Lemma opens_of_elem i opens p : p ∈ opens_of i opens → p ∈ opens.*2.
Proof.
  unfold opens_of, filter_map. rewrite !list_elem_of_In, in_flat_map. intros ([raw q] & Hq & Hp). cbn in Hp.
  destruct (String.eqb raw i); [|done]. destruct Hp as [<-|[]]. by apply (in_map snd) in Hq.
Qed.

Lemma take_open_spec opens i :
  match take_open opens i with
  | Some (p, opens') =>
      opens_of i opens = p :: opens_of i opens' ∧ (∀ j, j ≠ i → opens_of j opens' = opens_of j opens) ∧
      p ∈ opens.*2 ∧ (∀ q, q ∈ opens'.*2 → q ∈ opens.*2)
  | None => opens_of i opens = []
  end.
Proof.
  induction opens as [|[raw p] opens IH]; [done|]. cbn [take_open fmap list_fmap]. rewrite opens_of_cons.
  destruct (String.eqb_spec raw i) as [->|Hne].
  - split_and!; [done| |by left|by right]. intros j Hj.
    by rewrite opens_of_cons, (proj2 (String.eqb_neq i j)) by congruence.
  - destruct (take_open opens i) as [[q opens']|]; [|done].
    destruct IH as (H1 & H2 & H3 & H4). split_and!.
    + by rewrite opens_of_cons, (proj2 (String.eqb_neq raw i)).
    + intros j Hj. by rewrite !opens_of_cons, H2.
    + by right.
    + intros r [->|Hr]%elem_of_cons; [by left|]. right. by apply H4.
Qed.

(** New ids are names of owners: different owners have different names, which are
    used, and the pending ids of a raw id are the names of its open calls. *)
Record tracks (st : Resolver) (own : list nat) (opens : list (string * nat)) (name : nat → string) : Prop := {
  tr_used : ∀ p, p ∈ own → name p ∈ rv_used st;
  tr_size : (length (rv_used st) <= length own)%nat;
  tr_lt : ∀ p, p ∈ own → (p < length own)%nat;
  tr_inj : ∀ p q, p ∈ own → q ∈ own → name p = name q → p = q;
  tr_pending : ∀ i, oget (rv_pendingByRawId st) i ?? [] = map name (opens_of i opens);
  tr_open : ∀ p, p ∈ opens.*2 → p ∈ own;
}.

Lemma tracks_new : tracks newResolver [] [] (λ _, EmptyString).
Proof. split; try done; intros; by apply not_elem_of_nil in H. Qed.

(** Something new is allocated: it is the name of the position at the end. *)
Definition extend (name : nat → string) (n : nat) (x : string) : nat → string :=
  λ p, if (p =? n)%nat then x else name p.

Lemma extend_eq name n x : extend name n x n = x.
Proof. unfold extend. by rewrite Nat.eqb_refl. Qed.
Lemma extend_lt name n x p : (p < n)%nat → extend name n x p = name p.
Proof. intros H. unfold extend. destruct (Nat.eqb_spec p n); [lia|done]. Qed.

Lemma tracks_alloc st st' own opens name opens' x :
  tracks st own opens name → x ∉ rv_used st → rv_used st' = rv_used st ++ [x] →
  (∀ i, oget (rv_pendingByRawId st') i ?? [] = map (extend name (length own) x) (opens_of i opens')) →
  (∀ p, p ∈ opens'.*2 → p ∈ own ++ [length own]) →
  tracks st' (own ++ [length own]) opens' (extend name (length own) x).
Proof.
  intros [Hu Hs Hl Hi Hp Ho] Hx Eu Hp' Ho'. set (n := length own) in *.
  assert (∀ p, p ∈ own → extend name n x p = name p) as Hold by (intros p Hin; apply extend_lt; by apply Hl).
  assert (∀ p, p ∈ own → name p ≠ x) as Hne by (intros p Hin E; apply Hx; rewrite <- E; by apply Hu).
  split; rewrite ?Eu, ?length_app.
  - intros p [Hin| ->%list_elem_of_singleton]%elem_of_app; rewrite ?extend_eq, ?Hold by done; set_solver.
  - cbn. lia.
  - intros p [Hin%Hl| ->%list_elem_of_singleton]%elem_of_app; cbn; lia.
  - intros p q [Hin| ->%list_elem_of_singleton]%elem_of_app [Hin'| ->%list_elem_of_singleton]%elem_of_app;
      rewrite ?extend_eq, ?Hold by done; [by apply Hi| | |done]; intros E; exfalso; [by apply (Hne p)|by apply (Hne q)].
  - done.
  - done.
Qed.

Section Resolving.
Context (sha256_hex : string → string) (mode : ToolCallIdMode) (preserveNative : bool) (clock : nat → Z).
Context (limit : nat).
Context (ids_fresh : ∀ i used now, (length used < limit)%nat → makeUniqueToolId sha256_hex i used mode now ∉ used).

Definition resolveEvent (st : Resolver) (e : ToolEvent) : string * Resolver :=
  match e with
  | CallEvent i => resolveAssistantId sha256_hex mode preserveNative clock st i
  | ResultEvent i => resolveToolResultId sha256_hex mode preserveNative clock st i
  end.

Lemma add_used_fresh used x : x ∉ used → add_used used x = used ++ [x].
Proof. intros H. unfold add_used. by apply set_has_false in H as ->. Qed.

Lemma allocate_fresh st seed :
  (length (rv_used st) < limit)%nat →
  let '(x, st') := allocate sha256_hex mode clock st seed in
  x ∉ rv_used st ∧ rv_used st' = rv_used st ++ [x] ∧ rv_pendingByRawId st' = rv_pendingByRawId st.
Proof.
  intros Hl. unfold allocate. cbn. set (x := makeUniqueToolId _ _ _ _ _).
  assert (x ∉ rv_used st) as Hx by by apply ids_fresh. split_and!; [done|by apply add_used_fresh|done].
Qed.

Lemma native_fresh st i occurrence :
  keepsNative preserveNative st i occurrence = true → i ∉ rv_used st ∧ rv_used (with_used st i) = rv_used st ++ [i].
Proof.
  unfold keepsNative. intros [_ H%negb_true_iff%set_has_false]%andb_true_iff. split; [done|by apply add_used_fresh].
Qed.

Lemma preserving_fresh st i occurrence :
  (length (rv_used st) < limit)%nat →
  let '(x, st') := allocatePreservingNativeAnthropicId sha256_hex mode preserveNative clock st i occurrence in
  x ∉ rv_used st ∧ rv_used st' = rv_used st ++ [x] ∧ rv_pendingByRawId st' = rv_pendingByRawId st.
Proof.
  intros Hl. unfold allocatePreservingNativeAnthropicId. destruct (keepsNative _ _ _ _) eqn:E.
  - apply native_fresh in E as [? ?]. done.
  - by apply allocate_fresh.
Qed.

Lemma resolve_call st own opens name i :
  tracks st own opens name → (length own < limit)%nat →
  let '(x, st') := resolveEvent st (CallEvent i) in
  tracks st' (own ++ [length own]) (opens ++ [(i, length own)]) (extend name (length own) x).
Proof.
  intros Ht Hl. pose proof (tr_size _ _ _ _ Ht) as Hs. unfold resolveEvent, resolveAssistantId.
  set (st1 := mkResolver _ _ _ _ _).
  pose proof (preserving_fresh st1 i (S (oget (rv_assistantOccurrences st) i ?? O))) as Hf.
  destruct (allocatePreservingNativeAnthropicId _ _ _ _ _ _) as [x st2].
  destruct Hf as (Hx & Hu & Hp); [cbn; lia|]. cbn in Hx, Hu, Hp.
  apply (tracks_alloc st _ own opens); try done.
  - intros j. cbn. rewrite Hp, oget_oset, opens_of_app, map_app.
    assert (map (extend name (length own) x) (opens_of j opens) = map name (opens_of j opens)) as Hold.
    { apply map_ext_in. intros p Hin%list_elem_of_In%opens_of_elem. apply extend_lt, (tr_lt _ _ _ _ Ht), (tr_open _ _ _ _ Ht), Hin. }
    rewrite Hold, <- (tr_pending _ _ _ _ Ht). unfold opens_of, filter_map. cbn.
    case_decide as E.
    + subst j. rewrite String.eqb_refl. cbn. rewrite extend_eq. by destruct (oget (rv_pendingByRawId st) i).
    + rewrite (proj2 (String.eqb_neq i j)) by congruence. cbn. by rewrite app_nil_r.
  - intros p. rewrite fmap_app. cbn. intros [Hin%(tr_open _ _ _ _ Ht)| ->%list_elem_of_singleton]%elem_of_app; set_solver.
Qed.

(** A position that has a name already can be given again. *)
Lemma tracks_again st st' own opens name opens' p :
  tracks st own opens name → p ∈ own → rv_used st' = rv_used st →
  (∀ i, oget (rv_pendingByRawId st') i ?? [] = map name (opens_of i opens')) →
  (∀ q, q ∈ opens'.*2 → q ∈ opens.*2) →
  tracks st' (own ++ [p]) opens' name.
Proof.
  intros [Hu Hs Hl Hi Hp Ho] Hin Eu Hp' Ho'.
  assert (∀ q, q ∈ own ++ [p] → q ∈ own) as Hback by set_solver.
  split; rewrite ?Eu, ?length_app; try done.
  - intros q Hq%Hback. by apply Hu.
  - cbn. lia.
  - intros q Hq%Hback%Hl. cbn. lia.
  - intros q r Hq%Hback Hr%Hback. by apply Hi.
  - intros q Hq%Ho'%Ho. set_solver.
Qed.

Lemma resolve_matched st own opens name i p opens' :
  tracks st own opens name → take_open opens i = Some (p, opens') →
  let '(x, st') := resolveEvent st (ResultEvent i) in x = name p ∧ tracks st' (own ++ [p]) opens' name.
Proof.
  intros Ht E. pose proof (take_open_spec opens i) as Hsp. rewrite E in Hsp. destruct Hsp as (H1 & H2 & H3 & H4).
  pose proof (tr_pending _ _ _ _ Ht i) as Hp. rewrite H1 in Hp. cbn [map] in Hp.
  unfold resolveEvent, resolveToolResultId. destruct (oget (rv_pendingByRawId st) i) as [[|y rest]|] eqn:Eg; try done.
  cbn in Hp. injection Hp as -> Hrest. split; [done|].
  apply (tracks_again st _ _ opens); [done|by apply (tr_open _ _ _ _ Ht)|done| |done].
  intros j. cbn. destruct (decide (j = i)) as [->|Hj].
  - rewrite <- Hrest. destruct rest; [by rewrite oget_odel_eq|by rewrite oget_oset_eq].
  - rewrite H2, <- (tr_pending _ _ _ _ Ht) by done. destruct rest; [by rewrite oget_odel_ne|by rewrite oget_oset_ne].
Qed.

Lemma resolve_orphan st own opens name i :
  tracks st own opens name → (length own < limit)%nat → take_open opens i = None →
  let '(x, st') := resolveEvent st (ResultEvent i) in
  tracks st' (own ++ [length own]) opens (extend name (length own) x).
Proof.
  intros Ht Hl E. pose proof (tr_size _ _ _ _ Ht) as Hs.
  pose proof (take_open_spec opens i) as Hsp. rewrite E in Hsp.
  pose proof (tr_pending _ _ _ _ Ht i) as Hp. rewrite Hsp in Hp.
  assert (∀ x st1 st', rv_used st1 = rv_used st → rv_pendingByRawId st1 = rv_pendingByRawId st →
     x ∉ rv_used st1 → rv_used st' = rv_used st1 ++ [x] → rv_pendingByRawId st' = rv_pendingByRawId st1 →
     tracks st' (own ++ [length own]) opens (extend name (length own) x)) as Hnew.
  { intros x st1 st' E1 E2 Hx Hu Hp'. rewrite E1 in Hx, Hu. rewrite E2 in Hp'.
    apply (tracks_alloc st _ own opens); try done.
    - intros j. rewrite Hp', (tr_pending _ _ _ _ Ht). apply map_ext_in. intros p Hin%list_elem_of_In%opens_of_elem.
      symmetry. apply extend_lt, (tr_lt _ _ _ _ Ht), (tr_open _ _ _ _ Ht), Hin.
    - intros p Hin%(tr_open _ _ _ _ Ht). set_solver. }
  assert (∀ st1 occurrence seed, rv_used st1 = rv_used st → rv_pendingByRawId st1 = rv_pendingByRawId st →
     let '(x, st') := if keepsNative preserveNative st1 i occurrence then (i, with_used st1 i)
                      else allocate sha256_hex mode clock st1 seed in
     tracks st' (own ++ [length own]) opens (extend name (length own) x)) as Hany.
  { intros st1 occurrence seed E1 E2. destruct (keepsNative preserveNative st1 i occurrence) eqn:En.
    - apply native_fresh in En as [? ?]. by apply (Hnew i st1).
    - pose proof (allocate_fresh st1 seed) as Hf. destruct (allocate _ _ _ st1 seed) as [x st2].
      destruct Hf as (? & ? & ?); [rewrite E1; lia|by apply (Hnew x st1)]. }
  unfold resolveEvent, resolveToolResultId.
  destruct (oget (rv_pendingByRawId st) i) as [[|y rest]|] eqn:Eg; [by apply Hany|done|by apply Hany].
Qed.

Lemma resolve_step st own opens name e :
  tracks st own opens name → (length own < limit)%nat →
  let '(x, st') := resolveEvent st e in let '(p, opens') := owner_step (length own) opens e in
  ∃ name', (∀ q, q ∈ own → name' q = name q) ∧ x = name' p ∧ tracks st' (own ++ [p]) opens' name'.
Proof.
  intros Ht Hl.
  assert (∀ x q, q ∈ own → extend name (length own) x q = name q) as Hold.
  { intros x q Hq. by apply extend_lt, (tr_lt _ _ _ _ Ht). }
  destruct e as [i|i].
  - pose proof (resolve_call st own opens name i Ht Hl) as H. destruct (resolveEvent _ _) as [x st'].
    exists (extend name (length own) x). split_and!; [by apply Hold|by rewrite extend_eq|done].
  - unfold owner_step. destruct (take_open opens i) as [[p opens']|] eqn:E; cbn.
    + pose proof (resolve_matched st own opens name i p opens' Ht E) as H.
      unfold resolveEvent in H. destruct (resolveToolResultId _ _ _ _ _ _) as [x st']. destruct H as [-> H]. by exists name.
    + pose proof (resolve_orphan st own opens name i Ht Hl E) as H.
      unfold resolveEvent in H. destruct (resolveToolResultId _ _ _ _ _ _) as [x st'].
      exists (extend name (length own) x). split_and!; [by apply Hold|by rewrite extend_eq|done].
Qed.

(** The new ids of a run are the names of the owners. *)
Lemma resolve_all events st own opens name :
  tracks st own opens name → (length own + length events <= limit)%nat →
  ∃ name' opens', (∀ q, q ∈ own → name' q = name q) ∧
    (callAll resolveEvent st events).1 = map name' (owners (length own) opens events) ∧
    tracks (callAll resolveEvent st events).2 (own ++ owners (length own) opens events) opens' name'.
Proof.
  revert st own opens name. induction events as [|e events IH]; intros st own opens name Ht Hl; cbn in Hl |- *.
  { exists name, opens. by rewrite app_nil_r. }
  pose proof (resolve_step st own opens name e Ht ltac:(lia)) as H.
  destruct (resolveEvent st e) as [x st1]. destruct (owner_step (length own) opens e) as [p opens1].
  destruct H as (name1 & Hold & -> & Ht1).
  assert (length (own ++ [p]) = S (length own)) as Hlen by (rewrite length_app; cbn; lia).
  destruct (IH st1 (own ++ [p]) opens1 name1 Ht1) as (name2 & opens2 & Hold2 & Hrun & Ht2); [lia|].
  rewrite Hlen in Hrun, Ht2. destruct (callAll resolveEvent st1 events) as [xs st2]. cbn in Hrun, Ht2 |- *.
  exists name2, opens2. split_and!.
  - intros q Hq. rewrite Hold2 by set_solver. by apply Hold.
  - rewrite Hrun, Hold2 by set_solver. done.
  - by rewrite <- app_assoc in Ht2.
Qed.

(** What every allocated id satisfies, all used ids do. *)
Section Allocated.
Context (ok : string → Prop).
Context (ids_ok : ∀ i used k, (length used < limit)%nat → ok (makeUniqueToolId sha256_hex i used mode (clock k))).
Context (native_ok : ∀ i, preserveNative = true → isNativeAnthropicToolUseId i = true → ok i).

Lemma add_used_ok used x : ok x → Forall ok used → Forall ok (add_used used x).
Proof. intros Hx Hu. unfold add_used. destruct (set_has used x); [done|]. apply Forall_app. by repeat constructor. Qed.

Lemma allocate_ok st seed :
  (length (rv_used st) < limit)%nat → Forall ok (rv_used st) →
  Forall ok (rv_used (allocate sha256_hex mode clock st seed).2).
Proof. intros Hl Hu. apply add_used_ok; [by apply ids_ok|done]. Qed.

Lemma native_used_ok st i occurrence :
  keepsNative preserveNative st i occurrence = true → Forall ok (rv_used st) → Forall ok (rv_used (with_used st i)).
Proof.
  unfold keepsNative. intros [[[Hp Hn]%andb_true_iff _]%andb_true_iff _]%andb_true_iff Hu. apply add_used_ok; [by apply native_ok|done].
Qed.

Lemma resolveEvent_ok st e :
  (length (rv_used st) < limit)%nat → Forall ok (rv_used st) → Forall ok (rv_used (resolveEvent st e).2).
Proof.
  intros Hl Hu. destruct e as [i|i]; cbn [resolveEvent].
  - unfold resolveAssistantId, allocatePreservingNativeAnthropicId. set (st1 := mkResolver _ _ _ _ _).
    destruct (keepsNative preserveNative st1 i _) eqn:En; [by apply native_used_ok in En|]. by apply allocate_ok.
  - unfold resolveToolResultId. destruct (oget (rv_pendingByRawId st) i) as [[|y rest]|]; [|done|].
    all: destruct (keepsNative preserveNative _ i _) eqn:En; [by apply native_used_ok in En|by apply allocate_ok].
Qed.

Lemma resolve_all_ok events st own opens name :
  tracks st own opens name → (length own + length events <= limit)%nat → Forall ok (rv_used st) →
  Forall ok (rv_used (callAll resolveEvent st events).2).
Proof.
  revert st own opens name. induction events as [|e events IH]; intros st own opens name Ht Hl Hu; cbn in Hl |- *; [done|].
  pose proof (resolve_step st own opens name e Ht ltac:(lia)) as H. pose proof (tr_size _ _ _ _ Ht).
  pose proof (resolveEvent_ok st e ltac:(lia) Hu) as Hu1.
  destruct (resolveEvent st e) as [x st1]. destruct (owner_step (length own) opens e) as [p opens1].
  destruct H as (name1 & _ & _ & Ht1).
  assert (Forall ok (rv_used (callAll resolveEvent st1 events).2)) as Hend.
  { apply (IH st1 _ _ _ Ht1); [rewrite length_app; cbn; lia|done]. }
  by destruct (callAll resolveEvent st1 events).
Qed.

Lemma resolved_ids_ok events :
  (length events <= limit)%nat → Forall ok (callAll resolveEvent newResolver events).1.
Proof.
  intros Hl. destruct (resolve_all events _ _ _ _ tracks_new) as (name & opens & _ & Hids & Ht); [cbn; lia|].
  pose proof (resolve_all_ok events _ _ _ _ tracks_new ltac:(cbn; lia) ltac:(constructor)) as Hu.
  cbn in Hids, Ht. rewrite Hids. apply Forall_map, Forall_forall. intros p Hp. rewrite Forall_forall in Hu.
  by apply Hu, (tr_used _ _ _ _ Ht).
Qed.

End Allocated.

(** Two events have the same new id exactly when they belong to the same call. *)
Lemma resolved_ids_tell_calls_apart events :
  (length events <= limit)%nat →
  let ids := (callAll resolveEvent newResolver events).1 in
  ∀ p q a b, ids !! p = Some a → ids !! q = Some b →
    (a = b ↔ owners 0 [] events !! p = owners 0 [] events !! q).
Proof.
  intros Hl ids p q a b. destruct (resolve_all events _ _ _ _ tracks_new) as (name & opens & _ & Hids & Ht); [cbn; lia|].
  cbn in Hids, Ht. subst ids. rewrite Hids. intros Ha Hb.
  apply list_lookup_fmap_Some in Ha as (o & -> & Hp), Hb as (o' & -> & Hq).
  rewrite Hp, Hq. split; [|by intros [= ->]]. intros E. f_equal.
  apply (tr_inj _ _ _ _ Ht); [by eapply list_elem_of_lookup_2|by eapply list_elem_of_lookup_2|done].
Qed.

(** ** Messages are rewritten as their events are resolved *)

Let rewriteBlock' := rewriteBlock sha256_hex mode preserveNative clock.
Let rewriteMessage' := rewriteMessage sha256_hex mode preserveNative clock.

Lemma rewriteBlock_spec st block :
  match toolCallOf block with
  | None => rewriteBlock' st block = ((block, false), st)
  | Some c =>
      let '(x, st') := resolveEvent st (CallEvent (call_id c)) in
      ∃ ch, rewriteBlock' st block = ((with_prop block "id" (JStr x), ch), st') ∧
        (ch = false → with_prop block "id" (JStr x) = block) ∧
        (x ≠ EmptyString → toolCallOf (with_prop block "id" (JStr x)) = Some (mkCall x (call_name c)))
  end.
Proof.
  unfold toolCallOf at 1, rewriteBlock', rewriteBlock. destruct (negb (is_object block)) eqn:Eo; [done|].
  destruct (nonempty_str (prop block "id")) as [i|] eqn:Ei; [|by destruct (negb (isToolCallType _))].
  destruct (isToolCallType (prop block "type")) eqn:Et; [|done]. cbn [negb call_id call_name resolveEvent].
  destruct (resolveAssistantId _ _ _ _ _ _) as [x st'].
  assert (prop block "id" = JStr i) as Hid.
  { unfold nonempty_str in Ei. destruct (prop block "id") as [| | | |[|c s]| |]; try done. by injection Ei as <-. }
  assert (x ≠ EmptyString → toolCallOf (with_prop block "id" (JStr x)) = Some (mkCall x (str_value (prop block "name")))) as Hread.
  { intros Hx. unfold toolCallOf. rewrite is_object_with_prop, prop_with_prop_eq, !prop_with_prop_ne, Et by done.
    by destruct x. }
  destruct (String.eqb_spec x i) as [->|Hne].
  - assert (with_prop block "id" (JStr i) = block) as Hsame.
    { rewrite <- Hid. apply with_prop_same, has_prop_defined. by rewrite Hid. }
    exists false. by rewrite Hsame in *.
  - by exists true.
Qed.

Lemma rewriteContent_spec st content :
  let next := callAll rewriteBlock' st content in
  let ids := callAll resolveEvent st (map (λ c, CallEvent (call_id c)) (filter_map toolCallOf content)) in
  next.2 = ids.2 ∧
  (Forall (λ x, x ≠ EmptyString) ids.1 → map call_id (filter_map toolCallOf (map fst next.1)) = ids.1) ∧
  (existsb snd next.1 = false → map fst next.1 = content).
Proof.
  cbn zeta. revert st. induction content as [|block content IH]; intros st; cbn; [done|].
  pose proof (rewriteBlock_spec st block) as Hb.
  destruct (toolCallOf block) as [c|] eqn:Ec; cbn [app map callAll].
  - destruct (resolveEvent st (CallEvent (call_id c))) as [x st1]. destruct Hb as (ch & -> & Hch & Hread).
    destruct (IH st1) as (H1 & H2 & H3). unfold filter_map in *. destruct (callAll rewriteBlock' st1 content) as [next st2].
    destruct (callAll resolveEvent st1 _) as [ids st3]. cbn in *. split_and!; [done| |].
    + intros [Hx Hxs]%Forall_cons. rewrite Hread by done. cbn. by rewrite H2.
    + intros [-> ?]%orb_false_iff. by rewrite Hch, H3.
  - rewrite Hb. destruct (IH st) as (H1 & H2 & H3). unfold filter_map in *. destruct (callAll rewriteBlock' st content) as [next st2].
    destruct (callAll resolveEvent st _) as [ids st3]. cbn in *. rewrite Ec. split_and!; [done|done|]. intros ?. by rewrite H3.
Qed.

Lemma nonempty_str_value v i : nonempty_str v = Some i → v = JStr i ∧ i ≠ EmptyString.
Proof. unfold nonempty_str. destruct v as [| | | |[|c s]| |]; try done. by intros [= <-]. Qed.

Lemma is_role_with_prop msg k x r : k ≠ "role" → is_object msg = true →
  is_object (with_prop msg k x) && is_str (role (with_prop msg k x)) r = is_object msg && is_str (role msg) r.
Proof. intros Hk Ho. unfold role. by rewrite is_object_with_prop, Ho, prop_with_prop_ne. Qed.

Lemma isToolResult_with_id msg k i : k ≠ "role" → isToolResult msg = true → isToolResult (with_id msg k i) = true.
Proof.
  intros Hk Hm. pose proof Hm as [Ho _]%andb_true_iff. unfold with_id. destruct i as [[|c s]|]; [done| |done].
  unfold isToolResult in *. by rewrite is_role_with_prop.
Qed.

Lemma prop_with_id_ne msg k i k' : k ≠ k' → prop (with_id msg k i) k' = prop msg k'.
Proof. intros H. unfold with_id. destruct i as [[|c s]|]; [done|by apply prop_with_prop_ne|done]. Qed.

Lemma prop_with_id_eq msg k x : x ≠ EmptyString → prop (with_id msg k (Some x)) k = JStr x.
Proof. intros H. destruct x as [|c x]; [done|]. apply prop_with_prop_eq. Qed.

Lemma result_events msg i : isToolResult msg = true → extractToolResultId msg = Some i → message_events msg = [ResultEvent i].
Proof.
  intros Hm Hi. unfold message_events. rewrite Hm, Hi. unfold isToolResult, isAssistant in *.
  apply andb_true_iff in Hm as [_ Hm]. unfold is_str in *. destruct (role msg); try done.
  apply String.eqb_eq in Hm as ->. by rewrite andb_false_r.
Qed.

Lemma rewriteToolResultIds_spec st msg :
  isToolResult msg = true → one_result_id msg = true →
  match extractToolResultId msg with
  | None => rewriteToolResultIds sha256_hex mode preserveNative clock st msg = ((msg, false), st)
  | Some i =>
      let '(x, st') := resolveEvent st (ResultEvent i) in
      ∃ msg' ch, rewriteToolResultIds sha256_hex mode preserveNative clock st msg = ((msg', ch), st') ∧
        (ch = false → msg' = msg) ∧
        (x ≠ EmptyString → isToolResult msg' = true ∧ extractToolResultId msg' = Some x)
  end.
Proof.
  intros Hm Ho. unfold extractToolResultId at 1. unfold rewriteToolResultIds. unfold one_result_id in Ho.
  cbn [resolveEvent].
  destruct (nonempty_str (prop msg "toolCallId")) as [a|] eqn:Ea;
    destruct (nonempty_str (prop msg "toolUseId")) as [b|] eqn:Eb; cbn [resolveOptional]; try done.
  - apply String.eqb_eq in Ho as <-. rewrite bool_decide_true by done. cbn [resolveOptional].
    destruct (resolveToolResultId _ _ _ _ st a) as [x st'].
    destruct (bool_decide_reflect (Some x = Some a)) as [[= ->]|Hne]; cbn [andb].
    + exists msg, false. split_and!; [done|done|]. intros _. split; [done|]. unfold extractToolResultId. by rewrite Ea.
    + eexists _, true. split_and!; [done|done|]. intros Hx. split; [by repeat apply isToolResult_with_id|].
      unfold extractToolResultId. rewrite prop_with_id_ne, prop_with_id_eq by done. by destruct x.
  - rewrite bool_decide_false by done. cbn [resolveOptional].
    destruct (resolveToolResultId _ _ _ _ st a) as [x st']. rewrite (bool_decide_true (None = None)), andb_true_r by done.
    destruct (bool_decide_reflect (Some x = Some a)) as [[= ->]|Hne].
    + exists msg, false. split_and!; [done|done|]. intros _. split; [done|]. unfold extractToolResultId. by rewrite Ea.
    + eexists _, true. split_and!; [done|done|]. intros Hx.
      change (with_id (with_id msg "toolCallId" (Some x)) "toolUseId" None) with (with_id msg "toolCallId" (Some x)).
      split; [by apply isToolResult_with_id|].
      unfold extractToolResultId. rewrite prop_with_id_eq by done. by destruct x.
  - rewrite bool_decide_false by done. cbn [resolveOptional].
    destruct (resolveToolResultId _ _ _ _ st b) as [x st']. rewrite (bool_decide_true (None = None)) by done. cbn [andb].
    destruct (bool_decide_reflect (Some x = Some b)) as [[= ->]|Hne].
    + exists msg, false. split_and!; [done|done|]. intros _. split; [done|]. unfold extractToolResultId. by rewrite Ea, Eb.
    + eexists _, true. split_and!; [done|done|]. intros Hx.
      change (with_id msg "toolCallId" None) with msg. split; [by apply isToolResult_with_id|].
      unfold extractToolResultId. rewrite prop_with_id_ne, prop_with_id_eq, Ea by done. by destruct x.
Qed.

Lemma relabel_calls (cs : list ToolCallLike) ids :
  length ids = length cs → zip_with relabel (map (λ c, CallEvent (call_id c)) cs) ids = map CallEvent ids.
Proof.
  revert ids. induction cs as [|c cs IH]; intros [|x ids]; cbn; try done. intros [= H]. by rewrite IH.
Qed.

Lemma assistant_events msg content :
  isAssistant msg = true → prop msg "content" = JArr content →
  message_events msg = map CallEvent (map call_id (filter_map toolCallOf content)).
Proof.
  intros Ha Hc. unfold message_events, extractToolCallsFromAssistant. by rewrite Ha, Hc, map_map.
Qed.

(** What a rewriting of one message does to its events. *)
Definition rewrites (st : Resolver) (msg : js) : Prop :=
  let ids := callAll resolveEvent st (message_events msg) in
  ∃ msg' ch, rewriteMessage' st msg = ((msg', ch), ids.2) ∧ (ch = false → msg' = msg) ∧
    (Forall (λ x, x ≠ EmptyString) ids.1 → message_events msg' = zip_with relabel (message_events msg) ids.1).

Lemma rewrites_nothing st msg :
  message_events msg = [] → rewriteMessage' st msg = ((msg, false), st) → rewrites st msg.
Proof. intros He Hr. unfold rewrites. rewrite He. by exists msg, false. Qed.

Lemma rewriteMessage_turn st msg : isAssistant msg = true → rewrites st msg.
Proof.
  intros Ha. destruct (prop msg "content") as [| | | | |content|] eqn:Ec;
    try (apply rewrites_nothing; [unfold message_events, extractToolCallsFromAssistant; by rewrite Ha, Ec|
         unfold rewriteMessage', rewriteMessage, rewriteAssistantToolCallIds; by rewrite Ha, Ec]).
  pose proof (assistant_events msg content Ha Ec) as He. rewrite map_map in He.
  unfold rewrites, rewriteMessage', rewriteMessage, rewriteAssistantToolCallIds. rewrite Ha, Ec, He.
  pose proof (rewriteContent_spec st content) as Hc. cbn zeta in Hc. fold rewriteBlock'.
  pose proof (callAll_length resolveEvent st (map (λ c, CallEvent (call_id c)) (filter_map toolCallOf content))) as Hlen.
  destruct (callAll rewriteBlock' st content) as [next st1]. destruct (callAll resolveEvent st _) as [ids st2].
  cbn [fst snd] in *. destruct Hc as (-> & Hids & Hsame). rewrite length_map in Hlen.
  destruct (existsb snd next) eqn:Ech.
  - eexists _, true. split_and!; [done|done|]. intros Hne. rewrite relabel_calls by done.
    rewrite (assistant_events _ (map fst next)); [by rewrite Hids| |apply prop_with_prop_eq].
    unfold isAssistant in *. apply andb_true_iff in Ha as Hab. destruct Hab as [Ho _]. by rewrite is_role_with_prop.
  - exists msg, false. split_and!; [done|done|]. intros Hne. rewrite relabel_calls, He by done.
    rewrite <- (Hids Hne), Hsame, map_map by done. done.
Qed.

Lemma rewriteMessage_result st msg :
  isAssistant msg = false → isToolResult msg = true → one_result_id msg = true → rewrites st msg.
Proof.
  intros Ha Hr Ho. pose proof (rewriteToolResultIds_spec st msg Hr Ho) as Hs.
  destruct (extractToolResultId msg) as [i|] eqn:Ei.
  - unfold rewrites. rewrite (result_events msg i), callAll_one by done.
    destruct (resolveEvent st (ResultEvent i)) as [x st']. destruct Hs as (msg' & ch & Hs & Hch & Hread).
    exists msg', ch. unfold rewriteMessage', rewriteMessage. rewrite Ha, Hr. split_and!; [done|done|].
    intros [Hx _]%Forall_cons. destruct (Hread Hx). by apply result_events.
  - apply rewrites_nothing; [unfold message_events; by rewrite Ha, Hr, Ei|].
    unfold rewriteMessage', rewriteMessage. by rewrite Ha, Hr.
Qed.

Lemma rewriteMessage_spec st msg : (isToolResult msg = true → one_result_id msg = true) → rewrites st msg.
Proof.
  intros Ho. destruct (isAssistant msg) eqn:Ea; [by apply rewriteMessage_turn|].
  destruct (isToolResult msg) eqn:Er; [apply rewriteMessage_result; auto|].
  apply rewrites_nothing; [unfold message_events; by rewrite Ea, Er|].
  unfold rewriteMessage', rewriteMessage. by rewrite Ea, Er.
Qed.

Lemma rewriteMessages_spec messages st :
  Forall (λ m, isToolResult m = true → one_result_id m = true) messages →
  let ids := callAll resolveEvent st (transcript_events messages) in
  let out := callAll rewriteMessage' st messages in
  out.2 = ids.2 ∧ (existsb snd out.1 = false → map fst out.1 = messages) ∧
  (Forall (λ x, x ≠ EmptyString) ids.1 →
   transcript_events (map fst out.1) = zip_with relabel (transcript_events messages) ids.1).
Proof.
  cbn zeta. intros H. revert st. induction H as [|msg messages Hm _ IH]; intros st; [done|].
  unfold transcript_events. cbn [flat_map callAll]. fold (transcript_events messages). rewrite callAll_app.
  destruct (rewriteMessage_spec st msg Hm) as (msg' & ch & -> & Hch & Hread).
  pose proof (callAll_length resolveEvent st (message_events msg)) as Hlen.
  destruct (callAll resolveEvent st (message_events msg)) as [ids1 st1]. cbn [fst snd] in *.
  destruct (IH st1) as (H1 & H2 & H3). destruct (callAll rewriteMessage' st1 messages) as [out st2].
  destruct (callAll resolveEvent st1 (transcript_events messages)) as [ids2 st3]. cbn [fst snd map existsb flat_map] in *.
  split_and!; [done| |].
  - intros [-> ?]%orb_false_iff. by rewrite Hch, H2.
  - intros [Hx1 Hx2]%Forall_app. fold (transcript_events (map fst out)). rewrite Hread, H3 by done.
    by rewrite zip_with_app by done.
Qed.

Lemma sanitized_events messages :
  Forall (λ m, isToolResult m = true → one_result_id m = true) messages →
  let ids := (callAll resolveEvent newResolver (transcript_events messages)).1 in
  Forall (λ x, x ≠ EmptyString) ids →
  transcript_events (sanitizeToolCallIdsForCloudCodeAssist sha256_hex mode preserveNative clock messages) =
  zip_with relabel (transcript_events messages) ids.
Proof.
  intros Hm. cbn zeta. intros Hx. unfold sanitizeToolCallIdsForCloudCodeAssist. fold rewriteMessage'.
  destruct (rewriteMessages_spec messages newResolver Hm) as (_ & H2 & H3).
  destruct (callAll rewriteMessage' newResolver messages) as [out st]. cbn [fst snd] in *.
  destruct (existsb snd out) eqn:E; [by apply H3|]. rewrite <- (H3 Hx). by rewrite H2.
Qed.

(** ** Nothing but ids changes *)

Lemma rewriteContent_only_ids st content :
  Forall2 block_rewritten content (map fst (callAll rewriteBlock' st content).1).
Proof.
  revert st. induction content as [|block content IH]; intros st; cbn; [constructor|].
  pose proof (rewriteBlock_spec st block) as Hb.
  destruct (toolCallOf block) as [c|] eqn:Ec.
  - destruct (resolveEvent st (CallEvent (call_id c))) as [x st1]. destruct Hb as (ch & -> & _).
    specialize (IH st1). destruct (callAll rewriteBlock' st1 content). constructor; [by eapply block_renamed|done].
  - rewrite Hb. specialize (IH st). destruct (callAll rewriteBlock' st content). constructor; [constructor|done].
Qed.

Lemma resolveOptional_some st i :
  (resolveOptional sha256_hex mode preserveNative clock st i).1 ≠ None → i ≠ None.
Proof. by destruct i. Qed.

Lemma rewriteMessage_only_ids st msg : rewritten msg (rewriteMessage' st msg).1.1.
Proof.
  unfold rewriteMessage', rewriteMessage. destruct (isAssistant msg) eqn:Ea; [|destruct (isToolResult msg) eqn:Er; [|constructor]].
  - unfold rewriteAssistantToolCallIds. destruct (prop msg "content") as [| | | | |content|] eqn:Ec; try constructor.
    fold rewriteBlock'. pose proof (rewriteContent_only_ids st content) as H.
    destruct (callAll rewriteBlock' st content) as [next st1]. destruct (existsb snd next); [|constructor].
    by eapply msg_turn.
  - unfold rewriteToolResultIds.
    set (a := nonempty_str (prop msg "toolCallId")). set (b := nonempty_str (prop msg "toolUseId")).
    destruct (bool_decide_reflect (a = b)) as [Hab|Hab].
    + pose proof (resolveOptional_some st a) as Ha. destruct (resolveOptional _ _ _ _ st a) as [[x|] st1].
      * destruct (_ && _); [constructor|]. apply msg_result; [done|by intros _; apply Ha|]. intros _. fold b. rewrite <- Hab. by apply Ha.
      * pose proof (resolveOptional_some st1 a) as Ha1. destruct (resolveOptional _ _ _ _ st1 a) as [i st2].
        pose proof (resolveOptional_some st2 b) as Hb. destruct (resolveOptional _ _ _ _ st2 b) as [j st3].
        destruct (_ && _); [constructor|by apply msg_result].
    + cbn [resolveOptional]. pose proof (resolveOptional_some st a) as Ha. destruct (resolveOptional _ _ _ _ st a) as [i st2].
      pose proof (resolveOptional_some st2 b) as Hb. destruct (resolveOptional _ _ _ _ st2 b) as [j st3].
      destruct (_ && _); [constructor|by apply msg_result].
Qed.

Lemma sanitized_only_ids messages :
  Forall2 rewritten messages (sanitizeToolCallIdsForCloudCodeAssist sha256_hex mode preserveNative clock messages).
Proof.
  unfold sanitizeToolCallIdsForCloudCodeAssist. fold rewriteMessage'.
  assert (∀ st, Forall2 rewritten messages (map fst (callAll rewriteMessage' st messages).1)) as H.
  { induction messages as [|msg messages IH]; intros st; cbn; [constructor|].
    pose proof (rewriteMessage_only_ids st msg) as Hm. destruct (rewriteMessage' st msg) as [[m' ch] st1].
    specialize (IH st1). destruct (callAll rewriteMessage' st1 messages). by constructor. }
  specialize (H newResolver). destruct (callAll rewriteMessage' newResolver messages) as [out st].
  destruct (existsb snd out); [done|]. clear. induction messages; repeat constructor. done.
Qed.

(** ** Calls have different ids, and so have results *)

Definition is_call (e : ToolEvent) : bool := match e with CallEvent _ => true | ResultEvent _ => false end.

(** What stands at the calls, or at the results. *)
Definition at_events {A} (f : ToolEvent → bool) (events : list ToolEvent) (l : list A) : list A :=
  map snd (List.filter (λ ex, f ex.1) (zip events l)).

Lemma at_events_cons {A} f e events (x : A) l :
  at_events f (e :: events) (x :: l) = if f e then x :: at_events f events l else at_events f events l.
Proof. unfold at_events. cbn. by destruct (f e). Qed.

Lemma at_events_map {A B} (g : A → B) f events l : at_events f events (map g l) = map g (at_events f events l).
Proof.
  revert l. induction events as [|e events IH]; intros [|x l]; try done. cbn [map]. rewrite !at_events_cons, IH.
  by destruct (f e).
Qed.

Lemma at_events_elem {A} f events (l : list A) x : x ∈ at_events f events l → x ∈ l.
Proof.
  revert l. induction events as [|e events IH]; intros [|y l]; try by intros H%not_elem_of_nil.
  rewrite at_events_cons. destruct (f e); [|set_solver]. rewrite !elem_of_cons. intros [->|H]; auto.
Qed.

Lemma owner_step_bounds n opens e p opens' :
  owner_step n opens e = (p, opens') → Forall (λ q, q < n)%nat (opens.*2) → NoDup (opens.*2) →
  Forall (λ q, q < S n)%nat (opens'.*2) ∧ NoDup (opens'.*2) ∧
  (if is_call e then p = n else (p = n ∨ p ∈ opens.*2) ∧ p ∉ opens'.*2 ∧ ∀ q, q ∈ opens'.*2 → q ∈ opens.*2).
Proof.
  intros E Hlt Hd.
  assert (∀ l, (∀ q, q ∈ l → q ∈ opens.*2) → Forall (λ q, q < S n)%nat l) as Hle.
  { intros l Hl. apply Forall_forall. intros q Hq%Hl. rewrite Forall_forall in Hlt. specialize (Hlt q Hq). lia. }
  assert (n ∉ opens.*2) as Hn.
  { intros H. rewrite Forall_forall in Hlt. specialize (Hlt n H). lia. }
  destruct e as [i|i]; cbn in E |- *.
  - injection E as <- <-. rewrite fmap_app. split_and!; [apply Forall_app; split; [by apply Hle|repeat constructor; lia]| |done].
    apply NoDup_app. split_and!; [done| |by apply NoDup_singleton]. intros q Hq Hq'. cbn in Hq'. apply list_elem_of_singleton in Hq' as ->. done.
  - assert (∀ os p os', take_open os i = Some (p, os') → os.*2 ≡ₚ p :: os'.*2) as Hperm.
    { clear. induction os as [|[raw q] os IH]; intros p os'; cbn; [done|]. destruct (String.eqb raw i); [by intros [= -> ->]|].
      destruct (take_open os i) as [[r rest]|] eqn:E; [|done]. intros [= -> <-]. cbn. rewrite (IH _ _ eq_refl). constructor. }
    destruct (take_open opens i) as [[q rest]|] eqn:Et; cbn in E; injection E as <- <-; [|by split_and!; [by apply Hle|done|by left|done|done]].
    apply Hperm in Et. assert (∀ r, r ∈ rest.*2 → r ∈ opens.*2) as Hsub by (intros r Hr; rewrite Et; by right).
    rewrite Et in Hd. apply NoDup_cons in Hd as [Hq Hd]. split_and!; [by apply Hle|done| |done|done].
    right. rewrite Et. by left.
Qed.

(** Calls own their positions; no two results have the same owner. *)
Lemma owners_differ events n opens :
  Forall (λ q, q < n)%nat (opens.*2) → NoDup (opens.*2) →
  (NoDup (at_events is_call events (owners n opens events)) ∧
   Forall (λ p, n <= p)%nat (at_events is_call events (owners n opens events))) ∧
  (NoDup (at_events (λ e, negb (is_call e)) events (owners n opens events)) ∧
   Forall (λ p, n <= p ∨ p ∈ opens.*2)%nat (at_events (λ e, negb (is_call e)) events (owners n opens events))).
Proof.
  revert n opens. induction events as [|e events IH]; intros n opens Hlt Hd; cbn [owners].
  { split; split; constructor. }
  destruct (owner_step n opens e) as [p opens'] eqn:E. rewrite !at_events_cons.
  destruct (owner_step_bounds _ _ _ _ _ E Hlt Hd) as (Hlt' & Hd' & Hp).
  destruct (IH (S n) opens' Hlt' Hd') as [[H1 H2] [H3 H4]]. rewrite Forall_forall in H2, H4, Hlt.
  destruct e as [i|i]; cbn [is_call negb] in Hp |- *; split; split.
  - apply NoDup_cons. split; [|done]. subst p. intros Hn%H2. lia.
  - apply Forall_cons. split; [lia|]. apply Forall_forall. intros q Hq%H2. lia.
  - done.
  - apply Forall_forall. injection E as <- <-. intros q [Hq|Hq]%H4; [left; lia|].
    rewrite fmap_app in Hq. apply elem_of_app in Hq as [Hq| ->%list_elem_of_singleton]; [by right|by left].
  - done.
  - apply Forall_forall. intros q Hq%H2. lia.
  - destruct Hp as (Hp & Hnot & Hsub). apply NoDup_cons. split; [|done]. intros [Hle|Hin]%H4; [|done].
    destruct Hp as [->|Hp%Hlt]; lia.
  - destruct Hp as (Hp & Hnot & Hsub). apply Forall_cons. split; [destruct Hp; [left; lia|by right]|].
    apply Forall_forall. intros q [Hq|Hq%Hsub]%H4; [left; lia|by right].
Qed.

(** The new ids of calls differ, and so do those of results. *)
Lemma resolved_ids_differ events :
  (length events <= limit)%nat →
  let ids := (callAll resolveEvent newResolver events).1 in
  NoDup (at_events is_call events ids) ∧ NoDup (at_events (λ e, negb (is_call e)) events ids).
Proof.
  intros Hl. destruct (resolve_all events _ _ _ _ tracks_new) as (name & opens & _ & Hids & Ht); [cbn; lia|].
  cbn in Hids, Ht |- *. rewrite Hids, !at_events_map.
  destruct (owners_differ events 0 []) as [[Hc _] [Hr _]]; [constructor|constructor|].
  assert (∀ f, NoDup (at_events f events (owners 0 [] events)) →
     NoDup (map name (at_events f events (owners 0 [] events)))) as Hmap.
  { intros f Hd. apply (NoDup_fmap_2_strong name); [|done]. intros p q Hp%at_events_elem Hq%at_events_elem.
    by apply (tr_inj _ _ _ _ Ht). }
  split; by apply Hmap.
Qed.

End Resolving.

(** Reading the calls and the results of a transcript reads its events. *)
Lemma at_events_self (f : ToolEvent → bool) events :
  at_events f events (map event_id events) = map event_id (List.filter f events).
Proof.
  induction events as [|e events IH]; [done|]. cbn [map]. rewrite at_events_cons, IH. cbn. by destruct (f e).
Qed.

Lemma at_events_relabel (f : ToolEvent → bool) events ids :
  (∀ e x, f (relabel e x) = f e) → length ids = length events →
  map event_id (List.filter f (zip_with relabel events ids)) = at_events f events ids.
Proof.
  intros Hf. revert ids. induction events as [|e events IH]; intros [|x ids]; try done. intros [= H].
  rewrite at_events_cons. cbn [zip_with List.filter]. rewrite Hf. destruct (f e); cbn [map]; rewrite IH by done; [|done].
  by destruct e.
Qed.

Lemma call_events messages : allCallIds messages = map event_id (List.filter is_call (transcript_events messages)).
Proof.
  induction messages as [|msg messages IH]; [done|]. unfold allCallIds, transcript_events in *. cbn [flat_map].
  rewrite IH, List.filter_app, map_app. f_equal. unfold callIdsOf, message_events.
  destruct (isAssistant msg).
  - induction (extractToolCallsFromAssistant msg) as [|c cs IHc]; cbn; [done|]. by rewrite IHc.
  - destruct (isToolResult msg); [|done]. by destruct (extractToolResultId msg).
Qed.

Lemma result_ids messages :
  allResultIds messages = map event_id (List.filter (λ e, negb (is_call e)) (transcript_events messages)).
Proof.
  induction messages as [|msg messages IH]; [done|]. unfold allResultIds, transcript_events, filter_map in *.
  cbn [flat_map List.filter]. rewrite List.filter_app, map_app, <- IH. unfold message_events.
  destruct (isAssistant msg) eqn:Ea.
  - assert (isToolResult msg = false) as ->.
    { unfold isAssistant, isToolResult, is_str in *. apply andb_true_iff in Ea as [_ Ea]. destruct (role msg); rewrite ?andb_false_r; try done.
      apply String.eqb_eq in Ea as ->. by rewrite andb_false_r. }
    assert (∀ cs : list ToolCallLike, List.filter (λ e, negb (is_call e)) (map (λ c, CallEvent (call_id c)) cs) = []) as ->; [|done].
    intros cs. by induction cs.
  - destruct (isToolResult msg); [|done]. cbn [flat_map]. by destruct (extractToolResultId msg).
Qed.

(** ** The ids a provider is sent *)

Definition provider_id (preserveNative : bool) (i : string) : Prop :=
  (preserveNative = true ∧ isNativeAnthropicToolUseId i = true) ∨
  (isValidCloudCodeAssistToolId i Strict = true ∧ (String.length i <= MAX_LEN)%nat).

Lemma provider_id_nonempty preserveNative i : provider_id preserveNative i → i ≠ EmptyString.
Proof. intros [[_ H]|[H _]] ->; done. Qed.

Section StrictMode.
Context (sha256_hex : string → string) (digest_alnum : ∀ s, str_all alnum (sha256_hex s) = true).
Context (preserveNative : bool) (clock : nat → Z) (clock_positive : ∀ k, 0 <= clock k).
Context (messages : list js).
Context (one_id : Forall (λ m, isToolResult m = true → one_result_id m = true) messages).
Context (few : (length (transcript_events messages) <= 998)%nat).

Let resolve := resolveEvent sha256_hex Strict preserveNative clock.
Let events := transcript_events messages.
Let ids := (callAll resolve newResolver events).1.

Lemma strict_ids_fresh i used now : (length used < 998)%nat → makeUniqueToolId sha256_hex i used Strict now ∉ used.
Proof using Type. apply makeUniqueToolIdStrict_fresh. Qed.

Lemma strict_ids_ok : Forall (provider_id preserveNative) ids.
Proof using digest_alnum clock_positive few.
  apply (resolved_ids_ok _ _ _ _ 998 strict_ids_fresh); [| |done].
  - intros i used k Hl. right. split; [by apply makeUniqueToolIdStrict_valid|by apply makeUniqueToolIdStrict_length].
  - intros i Hp Hn. by left.
Qed.

Lemma strict_events :
  transcript_events (sanitizeToolCallIdsForCloudCodeAssist sha256_hex Strict preserveNative clock messages) =
  zip_with relabel events ids.
Proof using digest_alnum clock_positive one_id few.
  apply (sanitized_events _ _ _ _); [done|].
  eapply Forall_impl; [apply strict_ids_ok|]. intros x. apply provider_id_nonempty.
Qed.

Lemma strict_ids_length : length ids = length events.
Proof using Type. apply callAll_length. Qed.

Lemma strict_ids :
  map event_id (transcript_events (sanitizeToolCallIdsForCloudCodeAssist sha256_hex Strict preserveNative clock messages)) = ids.
Proof using digest_alnum clock_positive one_id few.
  rewrite strict_events. pose proof strict_ids_length as H. clearbody ids events. revert H. revert ids.
  induction events as [|e l IH]; intros [|x xs]; cbn; try done. intros [= H]. rewrite IH by done. by destruct e.
Qed.

(** The hypotheses of the repair hold of a transcript whose ids were rewritten. *)
Lemma strict_repairable :
  NoDup (allCallIds (sanitizeToolCallIdsForCloudCodeAssist sha256_hex Strict preserveNative clock messages)) ∧
  NoDup (allResultIds (sanitizeToolCallIdsForCloudCodeAssist sha256_hex Strict preserveNative clock messages)).
Proof using digest_alnum clock_positive one_id few.
  rewrite call_events, result_ids, strict_events, !at_events_relabel by (apply strict_ids_length || by intros []).
  apply (resolved_ids_differ _ _ _ _ 998 strict_ids_fresh); done.
Qed.

End StrictMode.

(** C34. The ids a provider is sent tell the calls apart. In the mode "strict", for a
    transcript of at most 998 calls and results: nothing but ids changes; calls stay
    calls and results stay results; every id is alphanumeric and at most 40 characters
    long, or an id of Anthropic's own that was to be kept; and two of them are equal
    exactly when they belong to one call, where a result belongs to the oldest call
    with its raw id that has no result yet, or is its own. *)
Theorem rewritten_ids_tell_calls_apart sha256_hex preserveNative clock messages :
  (∀ s, str_all alnum (sha256_hex s) = true) → (∀ k, 0 <= clock k) →
  Forall (λ m, isToolResult m = true → one_result_id m = true) messages →
  let events := transcript_events messages in
  (length events <= 998)%nat →
  let out := sanitizeToolCallIdsForCloudCodeAssist sha256_hex Strict preserveNative clock messages in
  let ids := map event_id (transcript_events out) in
  Forall2 rewritten messages out ∧
  length ids = length events ∧ transcript_events out = zip_with relabel events ids ∧
  Forall (provider_id preserveNative) ids ∧
  ∀ p q a b, ids !! p = Some a → ids !! q = Some b → (a = b ↔ owners 0 [] events !! p = owners 0 [] events !! q).
Proof.
  intros Hd Hc Ho events Hl out ids.
  pose proof (strict_ids sha256_hex Hd preserveNative clock Hc messages Ho Hl) as E. fold out ids in E.
  rewrite E. split_and!.
  - apply sanitized_only_ids.
  - apply callAll_length.
  - by apply strict_events.
  - by apply strict_ids_ok.
  - apply (resolved_ids_tell_calls_apart _ _ _ _ 998); [intros; by apply strict_ids_fresh|done].
Qed.

(** A call that is repeated, its results, one result too many and an Anthropic id. *)
Definition repeatedCalls : list js :=
  [turn "call_1" "toolUse"; result "call_1" "x"; turn "call_1" "toolUse"; turn "toolu_01" "toolUse";
   result "call_1" "y"; result "call_1" "z"; result "toolu_01" "w"].
Definition plainDigest (s : string) : string := "a1b2c3d4e5".

Lemma rewritten_ids_tell_calls_apart_witness :
  let out := sanitizeToolCallIdsForCloudCodeAssist plainDigest Strict true (λ _, 7) repeatedCalls in
  map event_id (transcript_events out) =
    ["call1"; "call1"; "call12"; "toolu_01"; "call12"; "call1toolresult1"; "toolu_01"] ∧
  owners 0 [] (transcript_events repeatedCalls) = [0; 0; 2; 3; 2; 5; 3]%nat ∧
  Forall (provider_id true) (map event_id (transcript_events out)).
Proof.
  cbn zeta. destruct (rewritten_ids_tell_calls_apart plainDigest true (λ _, 7) repeatedCalls) as (_ & _ & _ & H & _).
  - intros s. reflexivity.
  - intros k. lia.
  - repeat constructor.
  - vm_compute. lia.
  - split; [reflexivity|]. split; [reflexivity|exact H].
Defined.

(** A transcript whose ids were rewritten can be repaired whatever its raw ids
    were: the repair ends; when it reports a change every turn is followed by one result per
    call, in order, and no result stands elsewhere, and when it reports none and no turn
    failed the same holds up to the order of the results. *)
Lemma rewritten_transcripts_are_paired sha256_hex preserveNative clock messages policy now :
  (∀ s, str_all alnum (sha256_hex s) = true) → (∀ k, 0 <= clock k) →
  Forall (λ m, isToolResult m = true → one_result_id m = true) messages →
  (length (transcript_events messages) <= 998)%nat →
  let out := sanitizeToolCallIdsForCloudCodeAssist sha256_hex Strict preserveNative clock messages in
  ∃ r, repairToolUseResultPairing out policy now = Some r ∧
    (ur_moved r = true → well_paired true (ur_messages r)) ∧
    (Forall (λ m, failedTurn m = false) out → ur_moved r = false → well_paired false (ur_messages r)).
Proof.
  intros Hd Hc Ho Hl out.
  destruct (strict_repairable sha256_hex Hd preserveNative clock Hc messages Ho Hl) as [Hcalls Hresults].
  destruct (repair_pairs out policy now Hcalls) as (r & E & Hm & Hu). exists r. split; [done|]. split; [done|].
  intros Hf Hr. destruct (Hu Hr) as [-> Hw]. by apply Hw.
Qed.

Lemma rewritten_transcripts_are_paired_witness :
  let out := sanitizeToolCallIdsForCloudCodeAssist plainDigest Strict false (λ _, 7) repeatedCalls in
  ∃ r, repairToolUseResultPairing out None 7 = Some r ∧
    ur_messages r = [turn "call1" "toolUse"; result "call1" "x"; turn "call12" "toolUse";
                     makeMissingToolResult "call12" (Some "read") 7; turn "toolu01" "toolUse"; result "toolu01" "w"] ∧
    well_paired true (ur_messages r).
Proof.
  cbn zeta. destruct (rewritten_transcripts_are_paired plainDigest false (λ _, 7) repeatedCalls None 7) as (r & E & H & _).
  - intros s. reflexivity.
  - intros k. lia.
  - repeat constructor.
  - vm_compute. lia.
  - exists r. split; [exact E|]. vm_compute in E. injection E as <-. split; [reflexivity|]. apply H. reflexivity.
Defined.

(** A call without a result takes the result of a later call with the same raw id, and
    the repair then answers the later call with an error: the result is lost. *)
Lemma unanswered_call_takes_later_result :
  let messages := [turn "call_1" "error"; user "again"; turn "call_1" "toolUse"; result "call_1" "done"] in
  let out := sanitizeToolCallIdsForCloudCodeAssist plainDigest Strict false (λ _, 7) messages in
  transcript_events out = [CallEvent "call1"; CallEvent "call12"; ResultEvent "call1"] ∧
  ur_messages <$> repairToolUseResultPairing out None 7 =
    Some [turn "call1" "error"; user "again"; turn "call12" "toolUse"; makeMissingToolResult "call12" (Some "read") 7].
Proof. split; vm_compute; reflexivity. Qed.

End ToolCallId.
