(* ===== verification/AuthUsage.v ===== *)
(** * Usage and cool-downs of auth profiles: src/agents/auth-profiles/usage.ts

    With the data of types.ts and the provider identifiers of
    src/agents/provider-id.ts. Clock readings, recorded times and configured
    durations are whole numbers. A store is a record; the copy in memory and the
    one on disk are different values, and the lock on the file may fail. *)

From S2P Require Import Prelude OMap.

Module AuthUsage.
Import StringCoerce.

(** ** src/agents/provider-id.ts *)

Definition normalizeProviderId (provider : string) : string :=
  let normalized := normalizeLowercaseStringOrEmpty (Some provider) in
  let eqs x := String.eqb normalized x in
  if eqs "modelstudio" || eqs "qwencloud" then "qwen"
  else if eqs "z.ai" || eqs "z-ai" then "zai"
  else if eqs "opencode-zen" then "opencode"
  else if eqs "opencode-go-auth" then "opencode-go"
  else if eqs "kimi" || eqs "kimi-code" || eqs "kimi-coding" then "kimi"
  else if eqs "bedrock" || eqs "aws-bedrock" then "amazon-bedrock"
  else if eqs "bytedance" || eqs "doubao" then "volcengine"
  else normalized.

Definition findNormalizedProviderValue {T} (entries : option (omap string T)) (provider : string) : option T :=
  match entries with
  | None => None
  | Some m =>
      let providerKey := normalizeProviderId provider in
      snd <$> find (λ e, String.eqb (normalizeProviderId e.1) providerKey) m
  end.

Definition findNormalizedProviderKey {T} (entries : option (omap string T)) (provider : string) : option string :=
  match entries with
  | None => None
  | Some m =>
      let providerKey := normalizeProviderId provider in
      find (λ key, String.eqb (normalizeProviderId key) providerKey) (okeys m)
  end.

(** ** types.ts *)

Inductive SecretRefSource := SourceEnv | SourceFile | SourceExec.
Record SecretRef := mkSecretRef {
  sr_source : SecretRefSource;
  sr_provider : option string;
  sr_id : string;
}.

Inductive AuthProfileCredential :=
| ApiKeyCredential (provider : string) (key : option string) (keyRef : option SecretRef)
| TokenCredential (provider : string) (token : option string) (tokenRef : option SecretRef) (expires : option Z)
| OAuthCredential (provider : string) (access refresh : option string) (expires : option Z).

Definition cred_provider (c : AuthProfileCredential) : string :=
  match c with
  | ApiKeyCredential p _ _ => p
  | TokenCredential p _ _ _ => p
  | OAuthCredential p _ _ _ => p
  end.

Inductive AuthProfileFailureReason :=
| ReasonAuth | ReasonAuthPermanent | ReasonFormat | ReasonOverloaded | ReasonRateLimit
| ReasonBilling | ReasonTimeout | ReasonModelNotFound | ReasonSessionExpired | ReasonUnknown.
#[export] Instance AuthProfileFailureReason_eq_dec : EqDecision AuthProfileFailureReason.
Proof. solve_decision. Defined.

Record ProfileUsageStats := mkStats {
  lastUsed : option Z;
  cooldownUntil : option Z;
  cooldownReason : option AuthProfileFailureReason;
  cooldownModel : option string;
  disabledUntil : option Z;
  disabledReason : option AuthProfileFailureReason;
  errorCount : option Z;
  failureCounts : option (omap AuthProfileFailureReason Z);
  lastFailureAt : option Z;
}.
Definition noStats : ProfileUsageStats := mkStats None None None None None None None None None.

Record AuthProfileStore := mkStore {
  profiles : omap string AuthProfileCredential;
  order : option (omap string (list string));
  lastGood : option (omap string string);
  usageStats : option (omap string ProfileUsageStats);
}.

Definition set_usageStats (s : AuthProfileStore) (u : option (omap string ProfileUsageStats)) : AuthProfileStore :=
  mkStore (profiles s) (order s) (lastGood s) u.

Definition statsOf (s : AuthProfileStore) (profileId : string) : option ProfileUsageStats :=
  match usageStats s with None => None | Some m => oget m profileId end.

(** ** Windows *)

Definition FAILURE_REASON_PRIORITY : list AuthProfileFailureReason :=
  [ReasonAuthPermanent; ReasonAuth; ReasonBilling; ReasonFormat; ReasonModelNotFound;
   ReasonOverloaded; ReasonTimeout; ReasonRateLimit; ReasonUnknown].

Definition FAILURE_REASON_SET (r : AuthProfileFailureReason) : bool := bool_decide (r ∈ FAILURE_REASON_PRIORITY).

Definition isAuthCooldownBypassedForProvider (provider : option string) : bool :=
  let normalized := normalizeProviderId (provider ?? EmptyString) in
  String.eqb normalized "openrouter" || String.eqb normalized "kilocode".

Definition resolveProfileUnusableUntil (stats : ProfileUsageStats) : option Z :=
  let values := List.filter (λ v, 0 <? v) (filter_map id [cooldownUntil stats; disabledUntil stats]) in
  match values with
  | [] => None
  | v :: rest => Some (fold_left Z.max rest v)
  end.

Definition isActiveUnusableWindow (until : option Z) (now : Z) : bool :=
  match until with Some u => (0 <? u) && (now <? u) | None => false end.

Definition shouldBypassModelScopedCooldown (stats : ProfileUsageStats) (now : Z) (forModel : option string) : bool :=
  ostr_truthy forModel &&
  bool_decide (cooldownReason stats = Some ReasonRateLimit) &&
  ostr_truthy (cooldownModel stats) &&
  negb (bool_decide (cooldownModel stats = forModel)) &&
  negb (isActiveUnusableWindow (disabledUntil stats) now).

Definition providerOf (s : AuthProfileStore) (profileId : string) : option string :=
  cred_provider <$> oget (profiles s) profileId.

(** What [isProfileInCooldown] says of the statistics of a profile. *)
Definition statsInCooldown (stats : ProfileUsageStats) (ts : Z) (forModel : option string) : bool :=
  if shouldBypassModelScopedCooldown stats ts forModel then false
  else match resolveProfileUnusableUntil stats with
       | Some u => ts <? u
       | None => false
       end.

Definition isProfileInCooldown (s : AuthProfileStore) (profileId : string) (ts : Z) (forModel : option string) : bool :=
  if isAuthCooldownBypassedForProvider (providerOf s profileId) then false
  else match statsOf s profileId with
       | None => false
       | Some stats => statsInCooldown stats ts forModel
       end.

Definition resolveProfileUnusableUntilForDisplay (s : AuthProfileStore) (profileId : string) : option Z :=
  if isAuthCooldownBypassedForProvider (providerOf s profileId) then None
  else match statsOf s profileId with
       | None => None
       | Some stats => resolveProfileUnusableUntil stats
       end.

(** ** Why all candidates are unavailable *)

Definition addScore (scores : omap AuthProfileFailureReason Z) (reason : AuthProfileFailureReason) (value : Z)
    : omap AuthProfileFailureReason Z :=
  if negb (FAILURE_REASON_SET reason) || (value <=? 0) then scores
  else oset scores reason ((oget scores reason ?? 0) + value).

Definition scoreCooldown (scores : omap AuthProfileFailureReason Z) (stats : ProfileUsageStats) (now : Z)
    : omap AuthProfileFailureReason Z :=
  if negb (isActiveUnusableWindow (cooldownUntil stats) now) then scores
  else
    match List.filter (λ e, FAILURE_REASON_SET e.1 && (0 <? e.2)) (failureCounts stats ?? []) with
    | [] => addScore scores ReasonUnknown 1
    | recorded => fold_left (λ sc e, addScore sc e.1 e.2) recorded scores
    end.

Definition scoreProfile (now : Z) (scores : omap AuthProfileFailureReason Z) (stats : option ProfileUsageStats)
    : omap AuthProfileFailureReason Z :=
  match stats with
  | None => scores
  | Some st =>
      match (if isActiveUnusableWindow (disabledUntil st) now then disabledReason st else None) with
      | Some r => if FAILURE_REASON_SET r then addScore scores r 1000 else scoreCooldown scores st now
      | None => scoreCooldown scores st now
      end
  end.

(** The loop over [FAILURE_REASON_PRIORITY]; [priority] is the index of [reason]. *)
Fixpoint bestReason (scores : omap AuthProfileFailureReason Z) (reasons : list AuthProfileFailureReason)
    (priority : Z) (best : option AuthProfileFailureReason) (bestScore bestPriority : Z)
    : option AuthProfileFailureReason :=
  match reasons with
  | [] => best
  | reason :: rest =>
      match oget scores reason with
      | None => bestReason scores rest (priority + 1) best bestScore bestPriority
      | Some score =>
          if (bestScore <? score) || ((score =? bestScore) && (priority <? bestPriority))
          then bestReason scores rest (priority + 1) (Some reason) score priority
          else bestReason scores rest (priority + 1) best bestScore bestPriority
      end
  end.

Definition unavailableScores (s : AuthProfileStore) (profileIds : list string) (now : Z)
    : omap AuthProfileFailureReason Z :=
  fold_left (λ sc profileId, scoreProfile now sc (statsOf s profileId)) profileIds [].

Definition MAX_SAFE_INTEGER : Z := 2 ^ 53 - 1.

Definition resolveProfilesUnavailableReason (s : AuthProfileStore) (profileIds : list string) (now : Z)
    : option AuthProfileFailureReason :=
  bestReason (unavailableScores s profileIds now) FAILURE_REASON_PRIORITY 0 None (-1) MAX_SAFE_INTEGER.

(** ** The soonest expiry *)

Definition matchingModelScopedCooldown (stats : ProfileUsageStats) (ts : Z) (forModel : option string) : bool :=
  ostr_truthy forModel && bool_decide (cooldownReason stats = Some ReasonRateLimit) &&
  bool_decide (cooldownModel stats = forModel) && negb (isActiveUnusableWindow (disabledUntil stats) ts).

Definition soonestStep (s : AuthProfileStore) (ts : Z) (forModel : option string)
    (acc : option Z * option Z) (id : string) : option Z * option Z :=
  let '(soonest, latest) := acc in
  match statsOf s id with
  | None => acc
  | Some stats =>
      if shouldBypassModelScopedCooldown stats ts forModel then acc
      else match resolveProfileUnusableUntil stats with
           | None => acc
           | Some until =>
               if until <=? 0 then acc
               else if matchingModelScopedCooldown stats ts forModel then
                 (soonest, Some (match latest with None => until | Some l => Z.max l until end))
               else match soonest with
                    | None => (Some until, latest)
                    | Some x => if until <? x then (Some until, latest) else acc
                    end
           end
  end.

Definition getSoonestCooldownExpiry (s : AuthProfileStore) (profileIds : list string) (ts : Z)
    (forModel : option string) : option Z :=
  match fold_left (soonestStep s ts forModel) profileIds (None, None) with
  | (None, latest) => latest
  | (Some soonest, None) => Some soonest
  | (Some soonest, Some latest) => Some (Z.min soonest latest)
  end.

(** ** Clearing expired windows *)

Definition windowPassed (ts : Z) (until : option Z) : bool :=
  match until with Some v => (0 <? v) && (v <=? ts) | None => false end.

Definition clearStats (ts : Z) (stats : ProfileUsageStats) : ProfileUsageStats * bool :=
  let cooldownExpired := windowPassed ts (cooldownUntil stats) in
  let disabledExpired := windowPassed ts (disabledUntil stats) in
  let st1 := if cooldownExpired
             then mkStats (lastUsed stats) None None None (disabledUntil stats) (disabledReason stats)
                    (errorCount stats) (failureCounts stats) (lastFailureAt stats)
             else stats in
  let st2 := if disabledExpired
             then mkStats (lastUsed st1) (cooldownUntil st1) (cooldownReason st1) (cooldownModel st1) None None
                    (errorCount st1) (failureCounts st1) (lastFailureAt st1)
             else st1 in
  let profileMutated := cooldownExpired || disabledExpired in
  let st3 := match resolveProfileUnusableUntil st2 with
             | None => if profileMutated
                       then mkStats (lastUsed st2) (cooldownUntil st2) (cooldownReason st2) (cooldownModel st2)
                              (disabledUntil st2) (disabledReason st2) (Some 0) None (lastFailureAt st2)
                       else st2
             | Some _ => st2
             end in
  (st3, profileMutated).

Definition clearExpiredCooldowns (s : AuthProfileStore) (ts : Z) : AuthProfileStore * bool :=
  match usageStats s with
  | None => (s, false)
  | Some m =>
      (set_usageStats s (Some (omap_values (λ st, (clearStats ts st).1) m)),
       existsb (λ e, (clearStats ts e.2).2) m)
  end.

(** ** Configuration and back-off *)

Record AuthCooldowns := mkCooldowns {
  billingBackoffHours : option Z;
  billingBackoffHoursByProvider : option (omap string Z);
  billingMaxHours : option Z;
  authPermanentBackoffMinutes : option Z;
  authPermanentMaxMinutes : option Z;
  failureWindowHours : option Z;
}.
Definition noCooldowns : AuthCooldowns := mkCooldowns None None None None None None.

Record ResolvedAuthCooldownConfig := mkResolved {
  billingBackoffMs : Z;
  billingMaxMs : Z;
  authPermanentBackoffMs : Z;
  authPermanentMaxMs : Z;
  failureWindowMs : Z;
}.

Definition resolvePositiveNumber (value : option Z) (fallback : Z) : Z :=
  match value with Some v => if 0 <? v then v else fallback | None => fallback end.

Definition resolveAuthCooldownConfig (cfg : option AuthCooldowns) (providerId : string) : ResolvedAuthCooldownConfig :=
  let cooldowns := cfg ?? noCooldowns in
  let billingOverride :=
    match billingBackoffHoursByProvider cooldowns with
    | None => None
    | Some m => snd <$> find (λ e, String.eqb (normalizeProviderId e.1) providerId) m
    end in
  let overridden := match billingOverride with Some _ => billingOverride | None => billingBackoffHours cooldowns end in
  mkResolved
    (resolvePositiveNumber overridden 5 * 60 * 60 * 1000)
    (resolvePositiveNumber (billingMaxHours cooldowns) 24 * 60 * 60 * 1000)
    (resolvePositiveNumber (authPermanentBackoffMinutes cooldowns) 10 * 60 * 1000)
    (resolvePositiveNumber (authPermanentMaxMinutes cooldowns) 60 * 60 * 1000)
    (resolvePositiveNumber (failureWindowHours cooldowns) 24 * 60 * 60 * 1000).

Definition calculateAuthProfileCooldownMs (errorCount : Z) : Z :=
  let normalized := Z.max 1 errorCount in
  if normalized <=? 1 then 30000 else if normalized <=? 2 then 60000 else 5 * 60000.

Definition calculateDisabledLaneBackoffMs (errorCount base max : Z) : Z :=
  let normalized := Z.max 1 errorCount in
  let baseMs := Z.max 60000 base in
  let maxMs := Z.max baseMs max in
  let exponent := Z.min (normalized - 1) 10 in
  let raw := baseMs * 2 ^ exponent in
  Z.min maxMs raw.

(** [DISABLED_FAILURE_BACKOFF_POLICIES]: the base and the maximum of a lane. *)
Inductive DisabledFailureReason := DisabledBilling | DisabledAuthPermanent.

Definition policyBaseMs (r : DisabledFailureReason) (c : ResolvedAuthCooldownConfig) : Z :=
  match r with DisabledBilling => billingBackoffMs c | DisabledAuthPermanent => authPermanentBackoffMs c end.
Definition policyMaxMs (r : DisabledFailureReason) (c : ResolvedAuthCooldownConfig) : Z :=
  match r with DisabledBilling => billingMaxMs c | DisabledAuthPermanent => authPermanentMaxMs c end.

Definition resolveDisabledFailureBackoffMs (r : DisabledFailureReason) (errorCount : Z)
    (c : ResolvedAuthCooldownConfig) : Z :=
  calculateDisabledLaneBackoffMs errorCount (policyBaseMs r c) (policyMaxMs r c).

Definition disabledLane (reason : AuthProfileFailureReason) : option DisabledFailureReason :=
  match reason with
  | ReasonBilling => Some DisabledBilling
  | ReasonAuthPermanent => Some DisabledAuthPermanent
  | _ => None
  end.

(** ** The statistics after a failure *)

Definition keepActiveWindowOrRecompute (existingUntil : option Z) (now recomputedUntil : Z) : Z :=
  match existingUntil with
  | Some u => if now <? u then u else recomputedUntil
  | None => recomputedUntil
  end.

(** The counters start afresh when the last failure is too old or every window
    has passed. *)
Definition shouldResetCounters (existing : ProfileUsageStats) (now windowMs : Z) : bool :=
  let windowExpired :=
    match lastFailureAt existing with Some t => (0 <? t) && (windowMs <? now - t) | None => false end in
  let previousCooldownExpired :=
    match resolveProfileUnusableUntil existing with Some u => u <=? now | None => false end in
  windowExpired || previousCooldownExpired.

(** The model a cool-down is scoped to after a failure of [modelId]. *)
Definition nextCooldownModel (existing : ProfileUsageStats) (now : Z) (reason : AuthProfileFailureReason)
    (modelId : option string) : option string :=
  let existingCooldownActive := match cooldownUntil existing with Some u => now <? u | None => false end in
  let rateLimit := bool_decide (reason = ReasonRateLimit) in
  if existingCooldownActive then
    if ostr_truthy (cooldownModel existing) && ostr_truthy modelId &&
       negb (bool_decide (cooldownModel existing = modelId)) then None
    else if rateLimit && negb (ostr_truthy modelId) && ostr_truthy (cooldownModel existing) then None
    else if negb rateLimit then None
    else cooldownModel existing
  else if rateLimit then modelId else None.

Definition computeNextProfileUsageStats (existing : ProfileUsageStats) (now : Z) (reason : AuthProfileFailureReason)
    (cfgResolved : ResolvedAuthCooldownConfig) (modelId : option string) : ProfileUsageStats :=
  let reset := shouldResetCounters existing now (failureWindowMs cfgResolved) in
  let baseErrorCount := if reset then 0 else errorCount existing ?? 0 in
  let nextErrorCount := baseErrorCount + 1 in
  let counts0 := if reset then [] else failureCounts existing ?? [] in
  let counts := oset counts0 reason ((oget counts0 reason ?? 0) + 1) in
  match disabledLane reason with
  | Some lane =>
      let disableCount := oget counts reason ?? 1 in
      let backoffMs := resolveDisabledFailureBackoffMs lane disableCount cfgResolved in
      mkStats (lastUsed existing) (cooldownUntil existing) (cooldownReason existing) (cooldownModel existing)
        (Some (keepActiveWindowOrRecompute (disabledUntil existing) now (now + backoffMs)))
        (Some reason) (Some nextErrorCount) (Some counts) (Some now)
  | None =>
      let backoffMs := calculateAuthProfileCooldownMs nextErrorCount in
      mkStats (lastUsed existing)
        (Some (keepActiveWindowOrRecompute (cooldownUntil existing) now (now + backoffMs)))
        (Some reason) (nextCooldownModel existing now reason modelId)
        (disabledUntil existing) (disabledReason existing) (Some nextErrorCount) (Some counts) (Some now)
  end.

(** ** The usage probe of openai-codex profiles

    The response of the service is an argument: the status of a refused request,
    the limits of an answer, or a failure of the request. *)

Record WhamUsageWindow := mkWindow {
  used_percent : option Z;
  reset_at : option Z;
  reset_after_seconds : option Z;
}.
Record WhamRateLimit := mkRateLimit {
  limit_reached : option bool;
  primary_window : option WhamUsageWindow;
  secondary_window : option WhamUsageWindow;
}.
Inductive WhamResponse :=
| WhamRefused (status : Z)
| WhamAnswer (rate_limit : option WhamRateLimit)
| WhamFailed.

Record WhamCooldownProbeResult := mkProbe { cooldownMs : Z; probeReason : string }.

Definition WHAM_BURST_COOLDOWN_MS : Z := 15000.
Definition WHAM_PROBE_FAILURE_COOLDOWN_MS : Z := 30000.
Definition WHAM_HTTP_ERROR_COOLDOWN_MS : Z := 5 * 60 * 1000.
Definition WHAM_TOKEN_EXPIRED_COOLDOWN_MS : Z := 12 * 60 * 60 * 1000.
Definition WHAM_DEAD_ACCOUNT_COOLDOWN_MS : Z := 24 * 60 * 60 * 1000.
Definition WHAM_TEAM_ROLLING_MAX_COOLDOWN_MS : Z := 2 * 60 * 60 * 1000.
Definition WHAM_PERSONAL_MAX_COOLDOWN_MS : Z := 4 * 60 * 60 * 1000.
Definition WHAM_TEAM_WEEKLY_MAX_COOLDOWN_MS : Z := 4 * 60 * 60 * 1000.

Definition shouldProbeWhamForFailure (provider : option string) (reason : AuthProfileFailureReason) : bool :=
  String.eqb (normalizeProviderId (provider ?? EmptyString)) "openai-codex" &&
  (bool_decide (reason = ReasonRateLimit) || bool_decide (reason = ReasonUnknown)).

Definition positive (o : option Z) : option Z :=
  match o with Some v => if 0 <? v then Some v else None | None => None end.

Definition resolveWhamResetMs (window : option WhamUsageWindow) (now : Z) : option Z :=
  match window with
  | None => None
  | Some w =>
      match positive (reset_after_seconds w) with
      | Some v => Some (v * 1000)
      | None =>
          match positive (reset_at w) with
          | Some v => Some (Z.max 0 (v * 1000 - now))
          | None => None
          end
      end
  end.

Definition isWhamWindowExhausted (window : option WhamUsageWindow) : bool :=
  match window with
  | Some w => match used_percent w with Some p => 100 <=? p | None => false end
  | None => false
  end.

Definition probeFailed : WhamCooldownProbeResult := mkProbe WHAM_PROBE_FAILURE_COOLDOWN_MS "wham_probe_failed".

(** Half of the time to the reset, at most [limit]. *)
Definition halfReset (resetMs : option Z) (limit : Z) (reason : string) : WhamCooldownProbeResult :=
  match resetMs with
  | None => probeFailed
  | Some ms => mkProbe (Z.min (ms / 2) limit) reason
  end.

Definition probeWhamForCooldown (profile : option AuthProfileCredential) (res : WhamResponse) (now : Z)
    : option WhamCooldownProbeResult :=
  match profile with
  | Some (OAuthCredential _ access _ _) =>
      if negb (ostr_truthy access) then None
      else Some
        match res with
        | WhamRefused status =>
            if status =? 401 then mkProbe WHAM_TOKEN_EXPIRED_COOLDOWN_MS "wham_token_expired"
            else if status =? 403 then mkProbe WHAM_DEAD_ACCOUNT_COOLDOWN_MS "wham_account_dead"
            else mkProbe WHAM_HTTP_ERROR_COOLDOWN_MS "wham_http_error"
        | WhamFailed | WhamAnswer None => probeFailed
        | WhamAnswer (Some l) =>
            if bool_decide (limit_reached l = Some false) then mkProbe WHAM_BURST_COOLDOWN_MS "wham_burst_contention"
            else
              let primaryResetMs := resolveWhamResetMs (primary_window l) now in
              let secondaryResetMs := resolveWhamResetMs (secondary_window l) now in
              match secondary_window l with
              | None => halfReset primaryResetMs WHAM_PERSONAL_MAX_COOLDOWN_MS "wham_personal_rolling"
              | Some _ =>
                  if isWhamWindowExhausted (secondary_window l)
                  then halfReset secondaryResetMs WHAM_TEAM_WEEKLY_MAX_COOLDOWN_MS "wham_team_weekly"
                  else if isWhamWindowExhausted (primary_window l)
                  then halfReset primaryResetMs WHAM_TEAM_ROLLING_MAX_COOLDOWN_MS "wham_team_rolling"
                  else probeFailed
              end
        end
  | _ => None
  end.

Definition applyWhamCooldownResult (existing computed : ProfileUsageStats) (now : Z)
    (whamResult : WhamCooldownProbeResult) : ProfileUsageStats :=
  let existingActiveCooldownUntil :=
    match cooldownUntil existing with Some u => if now <? u then u else 0 | None => 0 end in
  mkStats (lastUsed computed) (Some (Z.max existingActiveCooldownUntil (now + cooldownMs whamResult)))
    (cooldownReason computed) (cooldownModel computed) (disabledUntil computed) (disabledReason computed)
    (errorCount computed) (failureCounts computed) (lastFailureAt computed).

(** ** The operations on stores

    [fresh] is the store read from disk under the lock, [None] when the lock or
    the reading fails. An operation returns the store of the caller and what it
    writes to disk. *)

Definition updateAuthProfileStoreWithLock (fresh : option AuthProfileStore)
    (updater : AuthProfileStore → AuthProfileStore * bool) : option AuthProfileStore * option AuthProfileStore :=
  match fresh with
  | None => (None, None)
  | Some f => let '(f', shouldSave) := updater f in (Some f', if shouldSave then Some f' else None)
  end.

Definition updateUsageStatsEntry (s : AuthProfileStore) (profileId : string)
    (updater : option ProfileUsageStats → ProfileUsageStats) : AuthProfileStore :=
  let m := usageStats s ?? [] in
  set_usageStats s (Some (oset m profileId (updater (oget m profileId)))).

Definition resetUsageStats (existing : option ProfileUsageStats) (used : option Z) : ProfileUsageStats :=
  let e := existing ?? noStats in
  mkStats (match used with Some _ => used | None => lastUsed e end) None None None None None (Some 0) None
    (lastFailureAt e).

Definition markAuthProfileUsed (fresh : option AuthProfileStore) (s : AuthProfileStore) (profileId : string)
    (now : Z) : AuthProfileStore * option AuthProfileStore :=
  let used f := updateUsageStatsEntry f profileId (λ existing, resetUsageStats existing (Some now)) in
  let '(updated, saved) :=
    updateAuthProfileStoreWithLock fresh (λ f, if ohas (profiles f) profileId then (used f, true) else (f, false)) in
  match updated with
  | Some f => (set_usageStats s (usageStats f), saved)
  | None => if negb (ohas (profiles s) profileId) then (s, None) else (used s, Some (used s))
  end.

(** The statistics [markAuthProfileFailure] records for a profile of [provider]. *)
Definition failureStats (cfg : option AuthCooldowns) (provider : string) (whamResult : option WhamCooldownProbeResult)
    (reason : AuthProfileFailureReason) (modelId : option string) (now : Z) (previous : option ProfileUsageStats)
    : ProfileUsageStats :=
  let cfgResolved := resolveAuthCooldownConfig cfg (normalizeProviderId provider) in
  let existing := previous ?? noStats in
  let computed := computeNextProfileUsageStats existing now reason cfgResolved modelId in
  match whamResult with
  | Some w => if shouldProbeWhamForFailure (Some provider) reason
              then applyWhamCooldownResult existing computed now w else computed
  | None => computed
  end.

Definition markAuthProfileFailure (cfg : option AuthCooldowns) (fresh : option AuthProfileStore) (s : AuthProfileStore)
    (profileId : string) (reason : AuthProfileFailureReason) (modelId : option string) (res : WhamResponse)
    (probedAt now : Z) : AuthProfileStore * option AuthProfileStore :=
  match oget (profiles s) profileId with
  | None => (s, None)
  | Some profile =>
      if isAuthCooldownBypassedForProvider (Some (cred_provider profile)) then (s, None)
      else
        let whamResult := if shouldProbeWhamForFailure (Some (cred_provider profile)) reason
                          then probeWhamForCooldown (Some profile) res probedAt else None in
        let record f provider :=
          updateUsageStatsEntry f profileId (failureStats cfg provider whamResult reason modelId now) in
        let '(updated, saved) :=
          updateAuthProfileStoreWithLock fresh (λ f,
            match oget (profiles f) profileId with
            | None => (f, false)
            | Some p => if isAuthCooldownBypassedForProvider (Some (cred_provider p)) then (f, false)
                        else (record f (cred_provider p), true)
            end) in
        match updated with
        | Some f => (set_usageStats s (usageStats f), saved)
        | None => let s' := record s (cred_provider profile) in (s', Some s')
        end
  end.

Definition markAuthProfileCooldown (fresh : option AuthProfileStore) (s : AuthProfileStore) (profileId : string)
    (res : WhamResponse) (probedAt now : Z) : AuthProfileStore * option AuthProfileStore :=
  markAuthProfileFailure None fresh s profileId ReasonUnknown None res probedAt now.

Definition clearAuthProfileCooldown (fresh : option AuthProfileStore) (s : AuthProfileStore) (profileId : string)
    : AuthProfileStore * option AuthProfileStore :=
  let has f := match statsOf f profileId with Some _ => true | None => false end in
  let reset f := updateUsageStatsEntry f profileId (λ existing, resetUsageStats existing None) in
  let '(updated, saved) :=
    updateAuthProfileStoreWithLock fresh (λ f, if has f then (reset f, true) else (f, false)) in
  match updated with
  | Some f => (set_usageStats s (usageStats f), saved)
  | None => if negb (has s) then (s, None) else (reset s, Some (reset s))
  end.

(** ** Lemmas on windows *)

Lemma unusable_spec stats :
  match resolveProfileUnusableUntil stats with
  | Some u => 0 < u ∧ (cooldownUntil stats = Some u ∨ disabledUntil stats = Some u) ∧
              (∀ v, cooldownUntil stats = Some v ∨ disabledUntil stats = Some v → v <= u)
  | None => ∀ v, cooldownUntil stats = Some v ∨ disabledUntil stats = Some v → v <= 0
  end.
Proof.
  unfold resolveProfileUnusableUntil.
  destruct (cooldownUntil stats) as [c|], (disabledUntil stats) as [d|]; cbn [filter_map flat_map app id List.filter];
    repeat match goal with |- context [0 <? ?v] => destruct (Z.ltb_spec 0 v) end; cbn [fold_left];
    try (destruct (Z.max_spec c d) as [[Hcd Em]|[Hcd Em]]; rewrite Em);
    repeat split; try lia; try (by left); try (by right); intros v [E|E]; simplify_eq; lia.
Qed.

Lemma disabledBackoff_bounds n base max :
  let b := calculateDisabledLaneBackoffMs n base max in
  60000 <= b <= Z.max (Z.max 60000 base) max.
Proof.
  unfold calculateDisabledLaneBackoffMs. cbn zeta.
  assert (1 <= 2 ^ Z.min (Z.max 1 n - 1) 10) by (apply (Z.pow_le_mono_r 2 0); lia). nia.
Qed.

Lemma cooldownBackoff_bounds n : 30000 <= calculateAuthProfileCooldownMs n <= 300000.
Proof. unfold calculateAuthProfileCooldownMs. by_cases_lia. Qed.

Lemma halfReset_bounds resetMs limit reason :
  30000 <= limit <= WHAM_DEAD_ACCOUNT_COOLDOWN_MS → (∀ ms, resetMs = Some ms → 0 <= ms) →
  0 <= cooldownMs (halfReset resetMs limit reason) <= WHAM_DEAD_ACCOUNT_COOLDOWN_MS.
Proof.
  unfold WHAM_DEAD_ACCOUNT_COOLDOWN_MS. intros Hl Hr. destruct resetMs as [ms|]; cbn; [|unfold WHAM_PROBE_FAILURE_COOLDOWN_MS; lia].
  specialize (Hr ms eq_refl). assert (0 <= ms / 2) by (apply Z.div_pos; lia). lia.
Qed.

Lemma positive_pos o v : positive o = Some v → 0 < v.
Proof. destruct o as [x|]; [|done]. cbn. destruct (Z.ltb_spec 0 x); [|done]. by intros [= <-]. Qed.

Lemma resolveWhamResetMs_nonneg w now ms : resolveWhamResetMs w now = Some ms → 0 <= ms.
Proof.
  unfold resolveWhamResetMs. destruct w as [w|]; [|done].
  destruct (positive (reset_after_seconds w)) as [a|] eqn:Ea; [apply positive_pos in Ea; intros [= <-]; lia|].
  destruct (positive (reset_at w)) as [b|] eqn:Eb; [intros [= <-]; lia|done].
Qed.

Ltac const_bound :=
  cbn [cooldownMs probeFailed];
  unfold WHAM_BURST_COOLDOWN_MS, WHAM_PROBE_FAILURE_COOLDOWN_MS, WHAM_HTTP_ERROR_COOLDOWN_MS,
    WHAM_TOKEN_EXPIRED_COOLDOWN_MS, WHAM_DEAD_ACCOUNT_COOLDOWN_MS, WHAM_TEAM_ROLLING_MAX_COOLDOWN_MS,
    WHAM_PERSONAL_MAX_COOLDOWN_MS, WHAM_TEAM_WEEKLY_MAX_COOLDOWN_MS; lia.

(** A probe never asks for more than a day. *)
Lemma probe_bounds profile res now w :
  probeWhamForCooldown profile res now = Some w → 0 <= cooldownMs w <= WHAM_DEAD_ACCOUNT_COOLDOWN_MS.
Proof.
  unfold probeWhamForCooldown. destruct profile as [[| |p a r e]|]; try done.
  destruct (negb (ostr_truthy a)); [done|]. intros [= <-].
  destruct res as [status|[l|]|]; [|..|by const_bound]; [| |by const_bound].
  - destruct (_ =? 401); [|destruct (_ =? 403)]; by const_bound.
  - destruct (bool_decide _); [by const_bound|].
    destruct (secondary_window l) as [w2|].
    + destruct (isWhamWindowExhausted (Some w2)); [|destruct (isWhamWindowExhausted _); [|by const_bound]];
        (apply halfReset_bounds; [by const_bound|intros ms; apply resolveWhamResetMs_nonneg]).
    + apply halfReset_bounds; [by const_bound|intros ms; apply resolveWhamResetMs_nonneg].
Qed.

(** ** The history of a profile *)

Inductive UsageOp :=
| OpFail (profile : option AuthProfileCredential) (res : WhamResponse) (reason : AuthProfileFailureReason)
    (modelId : option string)
| OpClearExpired
| OpUsed
| OpReset.

Definition usageStep (cfg : option AuthCooldowns) (provider : string) (stats : ProfileUsageStats)
    (op : Z * UsageOp) : ProfileUsageStats :=
  let now := op.1 in
  match op.2 with
  | OpFail profile res reason modelId =>
      let whamResult := if shouldProbeWhamForFailure (Some provider) reason
                        then probeWhamForCooldown profile res now else None in
      failureStats cfg provider whamResult reason modelId now (Some stats)
  | OpClearExpired => (clearStats now stats).1
  | OpUsed => resetUsageStats (Some stats) (Some now)
  | OpReset => resetUsageStats (Some stats) None
  end.

Definition usageRun (cfg : option AuthCooldowns) (provider : string) (stats : ProfileUsageStats)
    (ops : list (Z * UsageOp)) : ProfileUsageStats := fold_left (usageStep cfg provider) ops stats.

Fixpoint clocked (t : Z) (ops : list (Z * UsageOp)) : Prop :=
  match ops with
  | [] => True
  | op :: rest => t <= op.1 ∧ clocked op.1 rest
  end.

Lemma usageRun_snoc cfg provider stats ops op :
  usageRun cfg provider stats (ops ++ [op]) = usageStep cfg provider (usageRun cfg provider stats ops) op.
Proof. unfold usageRun. by rewrite fold_left_app. Qed.

(** Rule of invariants that move with the clock. *)
Lemma usageRun_ind cfg provider (P : Z → ProfileUsageStats → Prop) t stats ops now :
  (∀ t stats op, P t stats → t <= op.1 → op ∈ ops → P op.1 (usageStep cfg provider stats op)) →
  (∀ t t' stats, P t stats → t <= t' → P t' stats) →
  P t stats → clocked t ops → Forall (λ op, op.1 <= now) ops → t <= now → P now (usageRun cfg provider stats ops).
Proof.
  intros Hstep Hmono. revert t stats. induction ops as [|op ops IH]; intros t stats HP Hc Hf Ht.
  - by apply (Hmono t).
  - destruct Hc as [Hle Hc]. apply Forall_cons in Hf as [Hop Hf].
    apply (IH) with (t := op.1); [|apply Hstep with (t := t); [done|done|left]|done..].
    intros t' st o HP' Hle' Hin. apply Hstep with (t := t'); [done|done|by right].
Qed.

(** The longest window a failure opens. *)
Definition laneLimit (r : DisabledFailureReason) (c : ResolvedAuthCooldownConfig) : Z :=
  Z.max (Z.max 60000 (policyBaseMs r c)) (policyMaxMs r c).
Definition unusableLimit (cfg : option AuthCooldowns) (provider : string) : Z :=
  let c := resolveAuthCooldownConfig cfg (normalizeProviderId provider) in
  Z.max WHAM_DEAD_ACCOUNT_COOLDOWN_MS (Z.max (laneLimit DisabledBilling c) (laneLimit DisabledAuthPermanent c)).

Definition windowsWithin (limit t : Z) (stats : ProfileUsageStats) : Prop :=
  ∀ u, cooldownUntil stats = Some u ∨ disabledUntil stats = Some u → u <= t + limit.

(** Clearing removes exactly the windows that have passed, and resets the counters
    when that leaves no window. *)
Definition unexpired (ts : Z) (until : option Z) : option Z := if windowPassed ts until then None else until.
Definition noWindow (until : option Z) : bool := match until with Some v => v <=? 0 | None => true end.
Definition allPassed (ts : Z) (stats : ProfileUsageStats) : bool :=
  (windowPassed ts (cooldownUntil stats) || windowPassed ts (disabledUntil stats)) &&
  (noWindow (unexpired ts (cooldownUntil stats)) && noWindow (unexpired ts (disabledUntil stats))).

Lemma unusable_None stats :
  resolveProfileUnusableUntil stats = None ↔ noWindow (cooldownUntil stats) && noWindow (disabledUntil stats) = true.
Proof.
  unfold resolveProfileUnusableUntil.
  destruct (cooldownUntil stats) as [c|], (disabledUntil stats) as [d|]; cbn [filter_map flat_map app id List.filter noWindow];
    repeat match goal with |- context [0 <? ?v] => destruct (Z.ltb_spec 0 v) end; split; intros H1; try done; lia.
Qed.

Lemma clearStats_eq ts stats :
  let c := windowPassed ts (cooldownUntil stats) in
  let d := windowPassed ts (disabledUntil stats) in
  let all := allPassed ts stats in
  (clearStats ts stats).1 =
  mkStats (lastUsed stats) (unexpired ts (cooldownUntil stats)) (if c then None else cooldownReason stats)
    (if c then None else cooldownModel stats) (unexpired ts (disabledUntil stats))
    (if d then None else disabledReason stats) (if all then Some 0 else errorCount stats)
    (if all then None else failureCounts stats) (lastFailureAt stats).
Proof.
  intros c d all. unfold clearStats. cbn zeta. fold c d.
  set (st2 := if d then _ else _). cbn [fst].
  assert (st2 = mkStats (lastUsed stats) (unexpired ts (cooldownUntil stats)) (if c then None else cooldownReason stats)
    (if c then None else cooldownModel stats) (unexpired ts (disabledUntil stats))
    (if d then None else disabledReason stats) (errorCount stats) (failureCounts stats) (lastFailureAt stats)) as E2.
  { unfold st2, unexpired. fold c d. destruct c, d; destruct stats; done. }
  clearbody st2. rewrite E2.
  assert (all = (c || d) && match resolveProfileUnusableUntil st2 with None => true | Some _ => false end) as ->.
  { unfold all, allPassed. fold c d. f_equal. rewrite E2. pose proof (unusable_None st2) as Hn. rewrite E2 in Hn.
    cbn [cooldownUntil disabledUntil] in Hn. destruct (resolveProfileUnusableUntil _).
    - apply not_true_is_false. intros E. by apply Hn in E.
    - by apply Hn. }
  rewrite E2. destruct (resolveProfileUnusableUntil _), (c || d); done.
Qed.

Lemma clearStats_windows ts stats :
  cooldownUntil (clearStats ts stats).1 = unexpired ts (cooldownUntil stats) ∧
  disabledUntil (clearStats ts stats).1 = unexpired ts (disabledUntil stats).
Proof. by rewrite clearStats_eq. Qed.

Lemma unexpired_Some ts until u : unexpired ts until = Some u → until = Some u.
Proof. unfold unexpired. by destruct (windowPassed _ _). Qed.

Lemma computeNext_windows existing now reason c modelId :
  let st := computeNextProfileUsageStats existing now reason c modelId in
  match disabledLane reason with
  | Some lane =>
      cooldownUntil st = cooldownUntil existing ∧
      ∃ n, disabledUntil st = Some (keepActiveWindowOrRecompute (disabledUntil existing) now
                                      (now + resolveDisabledFailureBackoffMs lane n c))
  | None =>
      disabledUntil st = disabledUntil existing ∧
      ∃ n, cooldownUntil st = Some (keepActiveWindowOrRecompute (cooldownUntil existing) now
                                      (now + calculateAuthProfileCooldownMs n))
  end.
Proof. unfold computeNextProfileUsageStats. destruct (disabledLane reason); (split; [done|]; by eexists). Qed.

Lemma keepActive_le until now recomputed bound :
  (∀ u, until = Some u → u <= bound) → recomputed <= bound → keepActiveWindowOrRecompute until now recomputed <= bound.
Proof. intros Hu Hr. destruct until as [u|]; cbn; [|done]. destruct (_ <? _); [by apply Hu|done]. Qed.

Lemma disabledBackoff_lane r n c : resolveDisabledFailureBackoffMs r n c <= laneLimit r c.
Proof.
  unfold resolveDisabledFailureBackoffMs, laneLimit.
  pose proof (disabledBackoff_bounds n (policyBaseMs r c) (policyMaxMs r c)) as H. cbn zeta in H. lia.
Qed.

Lemma windowsWithin_mono limit t t' stats : windowsWithin limit t stats → t <= t' → windowsWithin limit t' stats.
Proof. intros H Hle u Hu. specialize (H u Hu). lia. Qed.

Lemma windowsWithin_compute limit cfg existing now reason modelId :
  300000 <= limit → laneLimit DisabledBilling cfg <= limit → laneLimit DisabledAuthPermanent cfg <= limit →
  windowsWithin limit now existing →
  windowsWithin limit now (computeNextProfileUsageStats existing now reason cfg modelId).
Proof.
  intros H1 H2 H3 Hw u Hu. pose proof (computeNext_windows existing now reason cfg modelId) as Hc. cbn zeta in Hc.
  destruct (disabledLane reason) as [lane|]; destruct Hc as (E1 & n & E2); rewrite E1, E2 in Hu;
    destruct Hu as [Hu|Hu]; try (by apply Hw; auto); simplify_eq;
    apply keepActive_le; try (intros v Hv; apply Hw; by auto).
  - pose proof (disabledBackoff_lane lane n cfg). destruct lane; lia.
  - pose proof (cooldownBackoff_bounds n). lia.
Qed.

Lemma unusableLimit_bounds cfg provider :
  let c := resolveAuthCooldownConfig cfg (normalizeProviderId provider) in
  let limit := unusableLimit cfg provider in
  300000 <= limit ∧ WHAM_DEAD_ACCOUNT_COOLDOWN_MS <= limit ∧
  laneLimit DisabledBilling c <= limit ∧ laneLimit DisabledAuthPermanent c <= limit.
Proof. unfold unusableLimit. cbn zeta. unfold WHAM_DEAD_ACCOUNT_COOLDOWN_MS. lia. Qed.

Lemma windowsWithin_step cfg provider t stats op :
  0 <= t → windowsWithin (unusableLimit cfg provider) t stats → t <= op.1 →
  windowsWithin (unusableLimit cfg provider) op.1 (usageStep cfg provider stats op).
Proof.
  intros Ht Hw Hle. apply (windowsWithin_mono _ _ op.1) in Hw; [|done].
  destruct (unusableLimit_bounds cfg provider) as (H1 & H2 & H3 & H4).
  destruct op as [now [profile res reason modelId| | |]]; cbn [usageStep fst snd] in *.
  - unfold failureStats. cbn [default id].
    pose proof (windowsWithin_compute (unusableLimit cfg provider) _ stats now reason modelId H1 H3 H4 Hw) as Hc.
    destruct (shouldProbeWhamForFailure _ _); [|done].
    destruct (probeWhamForCooldown profile res now) as [w|] eqn:Ew; [|done]. apply probe_bounds in Ew.
    intros u [Hu|Hu]; [|by apply Hc; right]. cbn [applyWhamCooldownResult cooldownUntil] in Hu. simplify_eq.
    unfold id. destruct (cooldownUntil stats) as [c|] eqn:Ec; [|lia].
    specialize (Hw c (or_introl Ec)). destruct (now <? c); lia.
  - intros u Hu. destruct (clearStats_windows now stats) as [E1 E2]. rewrite E1, E2 in Hu.
    apply Hw. destruct Hu as [Hu|Hu]; apply unexpired_Some in Hu; auto.
  - intros u [Hu|Hu]; done.
  - intros u [Hu|Hu]; done.
Qed.

(** A profile whose windows have all passed is not in a cool-down. *)
Lemma statsInCooldown_until stats ts forModel :
  statsInCooldown stats ts forModel = true → ∃ u, resolveProfileUnusableUntil stats = Some u ∧ ts < u.
Proof.
  unfold statsInCooldown. destruct (shouldBypassModelScopedCooldown _ _ _); [done|].
  destruct (resolveProfileUnusableUntil stats) as [u|]; [|done]. intros H. exists u. split; [done|lia].
Qed.

(** ** A model that failed stays blocked *)

Definition scopeCovers (m : string) (stats : ProfileUsageStats) : Prop :=
  ostr_truthy (cooldownModel stats) = true → cooldownModel stats = Some m.

Definition blockedUntil (m : string) (u : Z) (stats : ProfileUsageStats) : Prop :=
  scopeCovers m stats ∧ ∃ u', cooldownUntil stats = Some u' ∧ u <= u'.

Lemma nextCooldownModel_covers existing now reason m :
  m ≠ EmptyString → ostr_truthy (nextCooldownModel existing now reason (Some m)) = true →
  nextCooldownModel existing now reason (Some m) = Some m.
Proof.
  intros Hm. unfold nextCooldownModel.
  assert (ostr_truthy (Some m) = true) as Et by (by destruct m). rewrite Et.
  cbn [negb]. rewrite !andb_true_r, andb_false_r. cbn [andb].
  set (active := match cooldownUntil existing with Some u => now <? u | None => false end).
  destruct active; [|by destruct (bool_decide (reason = ReasonRateLimit))].
  destruct (ostr_truthy (cooldownModel existing)) eqn:Ee; cbn [andb].
  - destruct (bool_decide (cooldownModel existing = Some m)) eqn:Em; cbn [negb]; [|done].
    apply bool_decide_eq_true in Em. by destruct (negb _).
  - destruct (negb _); [done|]. by rewrite Ee.
Qed.

(** In an active window the scope is kept or widened to all models. *)
Lemma nextCooldownModel_active existing now reason modelId u :
  cooldownUntil existing = Some u → now < u →
  nextCooldownModel existing now reason modelId = None ∨
  nextCooldownModel existing now reason modelId = cooldownModel existing.
Proof.
  intros E Hu. unfold nextCooldownModel. rewrite E. apply Z.ltb_lt in Hu. rewrite Hu.
  repeat (destruct (_ && _) || destruct (negb _)); auto.
Qed.

(** What a failure outside the disabled lanes records. *)
Lemma failureStats_cooldown cfg provider w reason modelId now stats :
  disabledLane reason = None →
  let st := failureStats cfg provider w reason modelId now (Some stats) in
  cooldownModel st = nextCooldownModel stats now reason modelId ∧
  (∀ u, cooldownUntil stats = Some u → now < u → ∃ u', cooldownUntil st = Some u' ∧ u <= u').
Proof.
  intros Hl st.
  assert (∀ u, cooldownUntil stats = Some u → now < u → ∀ x, keepActiveWindowOrRecompute (cooldownUntil stats) now x = u) as Hk.
  { intros u E Hu x. rewrite E. cbn. apply Z.ltb_lt in Hu. by rewrite Hu. }
  assert (cooldownModel st = nextCooldownModel stats now reason modelId) as Em.
  { unfold st, failureStats. cbn [default id].
    destruct w; [destruct (shouldProbeWhamForFailure _ _)|]; cbn [applyWhamCooldownResult cooldownModel];
      unfold computeNextProfileUsageStats; by rewrite Hl. }
  split; [done|]. intros u E Hu. specialize (Hk u E Hu). unfold st, failureStats. cbn [default id].
  assert (∀ c, cooldownUntil (computeNextProfileUsageStats stats now reason c modelId) = Some u) as Ec.
  { intros c. unfold computeNextProfileUsageStats. rewrite Hl. cbn. by rewrite Hk. }
  destruct w; [destruct (shouldProbeWhamForFailure _ _)|]; [|by exists u..].
  eexists. split; [done|]. rewrite E. apply Z.ltb_lt in Hu. rewrite Hu. lia.
Qed.

Lemma windowPassed_active ts u : ts < u → windowPassed ts (Some u) = false.
Proof. intros H. cbn. replace (u <=? ts) with false by lia. apply andb_false_r. Qed.

Lemma clearStats_scope ts stats u :
  cooldownUntil stats = Some u → ts < u → cooldownModel (clearStats ts stats).1 = cooldownModel stats.
Proof. intros E Hu. rewrite clearStats_eq. cbn. by rewrite E, windowPassed_active. Qed.

Definition failOrClear (op : Z * UsageOp) : bool :=
  match op.2 with OpFail _ _ _ _ | OpClearExpired => true | _ => false end.

Lemma blockedUntil_step cfg provider m u stats op :
  blockedUntil m u stats → op.1 < u → failOrClear op = true → blockedUntil m u (usageStep cfg provider stats op).
Proof.
  intros [Hs (u' & E & Hu)] Hlt Hop.
  destruct op as [now [profile res reason modelId| | |]]; try done; cbn [usageStep fst snd] in *.
  - destruct (disabledLane reason) as [lane|] eqn:El.
    + assert (shouldProbeWhamForFailure (Some provider) reason = false) as Ep.
      { unfold shouldProbeWhamForFailure. destruct reason; cbn in El; try done; apply andb_false_r. }
      rewrite Ep. unfold blockedUntil, scopeCovers, failureStats, computeNextProfileUsageStats. rewrite El.
      cbn [default id cooldownModel cooldownUntil]. split; [done|]. by exists u'.
    + destruct (failureStats_cooldown cfg provider (if shouldProbeWhamForFailure (Some provider) reason
        then probeWhamForCooldown profile res now else None) reason modelId now stats El) as [Em Ec].
      destruct (Ec u' E) as (u2 & E2 & Hu2); [lia|]. split; [|exists u2; split; [done|lia]].
      unfold scopeCovers. rewrite Em.
      destruct (nextCooldownModel_active stats now reason modelId u' E) as [->| ->]; [lia|done|done].
  - split; [unfold scopeCovers; rewrite (clearStats_scope now stats u') by (done || lia); done|].
    exists u'. split; [|done]. destruct (clearStats_windows now stats) as [-> _].
    unfold unexpired. rewrite E, windowPassed_active; [done|lia].
Qed.

Lemma blockedUntil_run cfg provider m u stats ops :
  blockedUntil m u stats → Forall (λ op, op.1 < u ∧ failOrClear op = true) ops →
  blockedUntil m u (usageRun cfg provider stats ops).
Proof.
  revert stats. induction ops as [|op ops IH]; intros stats Hb Hf; [done|].
  apply Forall_cons in Hf as [[H1 H2] Hf]. apply IH; [by apply blockedUntil_step|done].
Qed.

Lemma blockedUntil_in_cooldown m u stats ts :
  blockedUntil m u stats → 0 <= ts < u → statsInCooldown stats ts (Some m) = true.
Proof.
  intros [Hs (u' & E & Hu)] Ht. unfold statsInCooldown.
  assert (shouldBypassModelScopedCooldown stats ts (Some m) = false) as ->.
  { unfold shouldBypassModelScopedCooldown. destruct (ostr_truthy (cooldownModel stats)) eqn:Et.
    - rewrite (Hs Et), (bool_decide_true (Some m = Some m)) by done. cbn [negb]. by rewrite !andb_false_r.
    - by rewrite !andb_false_r. }
  pose proof (unusable_spec stats) as Hsp. destruct (resolveProfileUnusableUntil stats) as [v|].
  - destruct Hsp as (_ & _ & Hmax). specialize (Hmax u' (or_introl E)). lia.
  - specialize (Hsp u' (or_introl E)). lia.
Qed.

(** ** Expired windows *)

Lemma shouldReset_eq stats now w :
  shouldResetCounters stats now w =
  (match lastFailureAt stats with Some t => (0 <? t) && (w <? now - t) | None => false end) || allPassed now stats.
Proof.
  unfold shouldResetCounters. f_equal. unfold allPassed, unexpired, windowPassed, resolveProfileUnusableUntil.
  destruct (cooldownUntil stats) as [c|], (disabledUntil stats) as [d|]; cbn [filter_map flat_map app id List.filter noWindow];
    repeat match goal with |- context [0 <? ?v] => destruct (Z.ltb_spec 0 v) end; cbn [fold_left andb orb];
    repeat match goal with |- context [?v <=? now] => destruct (Z.leb_spec v now) end; cbn; try done; lia.
Qed.

Lemma unexpired_idemp ts until : windowPassed ts (unexpired ts until) = false.
Proof. unfold unexpired. by destruct (windowPassed ts until) eqn:E. Qed.

Lemma keepActive_unexpired until now x :
  0 <= now → keepActiveWindowOrRecompute (unexpired now until) now x = keepActiveWindowOrRecompute until now x.
Proof.
  intros Hn. destruct until as [u|]; [|done]. unfold unexpired, windowPassed.
  destruct (Z.ltb_spec 0 u), (Z.leb_spec u now); cbn; try done; destruct (Z.ltb_spec now u); try done; lia.
Qed.

Lemma active_unexpired until now :
  match unexpired now until with Some u => now <? u | None => false end =
  match until with Some u => now <? u | None => false end.
Proof.
  destruct until as [u|]; [|done]. unfold unexpired, windowPassed.
  destruct (Z.ltb_spec 0 u), (Z.leb_spec u now); cbn; try done; lia.
Qed.

(** The window of a failure lies in the future. *)
Lemma keepActive_new until now x :
  0 <= now → now < x →
  let w := Some (keepActiveWindowOrRecompute until now x) in
  windowPassed now w = false ∧ unexpired now w = w ∧ noWindow w = false.
Proof.
  intros Hn Hx w. assert (now < keepActiveWindowOrRecompute until now x) as Hw.
  { destruct until as [u|]; cbn; [|done]. destruct (Z.ltb_spec now u); lia. }
  assert (windowPassed now w = false) as E by (by apply windowPassed_active).
  split; [done|]. split; [unfold unexpired; by rewrite E|]. cbn. lia.
Qed.

(** The counters a failure starts from are those of the cleared statistics. *)
Lemma cleared_counters now stats w :
  let st := (clearStats now stats).1 in
  (if shouldResetCounters st now w then 0 else errorCount st ?? 0) =
  (if shouldResetCounters stats now w then 0 else errorCount stats ?? 0) ∧
  (if shouldResetCounters st now w then [] else failureCounts st ?? []) =
  (if shouldResetCounters stats now w then [] else failureCounts stats ?? []).
Proof.
  intros st. rewrite !shouldReset_eq.
  assert (allPassed now st = false) as Ea.
  { unfold allPassed, st. destruct (clearStats_windows now stats) as [-> ->]. by rewrite !unexpired_idemp. }
  rewrite Ea, orb_false_r. unfold st. rewrite clearStats_eq. cbn [lastFailureAt errorCount failureCounts].
  destruct (match lastFailureAt stats with Some t => _ | None => false end); [done|].
  by destruct (allPassed now stats).
Qed.

Lemma nextCooldownModel_cleared now stats reason modelId :
  nextCooldownModel (clearStats now stats).1 now reason modelId = nextCooldownModel stats now reason modelId.
Proof.
  unfold nextCooldownModel. rewrite clearStats_eq. cbn [cooldownUntil cooldownModel]. rewrite active_unexpired.
  destruct (match cooldownUntil stats with Some u => now <? u | None => false end) eqn:Ea; [|done].
  assert (windowPassed now (cooldownUntil stats) = false) as ->; [|done].
  destruct (cooldownUntil stats) as [u|]; [|done]. apply windowPassed_active. lia.
Qed.

(** ** Back-off of a single lane *)

Definition laneWindow (lane : option DisabledFailureReason) (stats : ProfileUsageStats) : option Z :=
  match lane with None => cooldownUntil stats | Some _ => disabledUntil stats end.
Definition otherWindow (lane : option DisabledFailureReason) (stats : ProfileUsageStats) : option Z :=
  match lane with None => disabledUntil stats | Some _ => cooldownUntil stats end.

Definition firstBackoffMs (cfg : option AuthCooldowns) (provider : string) (lane : option DisabledFailureReason) : Z :=
  match lane with
  | None => 30000
  | Some r => Z.max 60000 (policyBaseMs r (resolveAuthCooldownConfig cfg (normalizeProviderId provider)))
  end.

(** The failures of an operation, by lane. *)
Definition inLane (lane : option DisabledFailureReason) (op : Z * UsageOp) : Prop :=
  match op.2 with OpFail _ _ reason _ => disabledLane reason = lane | _ => True end.
Definition isFailureAt (ops : list (Z * UsageOp)) (t : Z) : Prop :=
  ∃ profile res reason modelId, (t, OpFail profile res reason modelId) ∈ ops.

Record singleLane (cfg : option AuthCooldowns) (provider : string) (lane : option DisabledFailureReason)
    (ops : list (Z * UsageOp)) (stats : ProfileUsageStats) : Prop := {
  sl_other : otherWindow lane stats = None;
  sl_window u : laneWindow lane stats = Some u → 0 < u ∧ ∃ t, isFailureAt ops t ∧ u = t + firstBackoffMs cfg provider lane;
  sl_counters : laneWindow lane stats = None → errorCount stats ?? 0 = 0 ∧ failureCounts stats ?? [] = [];
}.

Lemma allPassed_single lane stats now :
  otherWindow lane stats = None → allPassed now stats = windowPassed now (laneWindow lane stats).
Proof.
  unfold allPassed, unexpired. destruct lane; cbn [otherWindow laneWindow]; intros ->; cbn [windowPassed noWindow].
  - destruct (windowPassed now (disabledUntil stats)); done.
  - rewrite orb_false_r. destruct (windowPassed now (cooldownUntil stats)); done.
Qed.

(** When its window is not active, the lane starts over. *)
Lemma single_counters cfg provider lane ops stats now w :
  singleLane cfg provider lane ops stats →
  (∀ u, laneWindow lane stats = Some u → u <= now) →
  (if shouldResetCounters stats now w then 0 else errorCount stats ?? 0) = 0 ∧
  (if shouldResetCounters stats now w then [] else failureCounts stats ?? []) = [].
Proof.
  intros [Ho Hw Hc] Hn. rewrite shouldReset_eq, (allPassed_single lane) by done.
  destruct (laneWindow lane stats) as [u|] eqn:El.
  - destruct (Hw u eq_refl) as [Hu _]. specialize (Hn u eq_refl). cbn [windowPassed].
    replace (0 <? u) with true by lia. replace (u <=? now) with true by lia. by rewrite orb_true_r.
  - destruct (Hc eq_refl) as [-> ->]. by destruct (_ || _).
Qed.

Lemma keepActive_cases until now x :
  (∃ u, until = Some u ∧ now < u ∧ keepActiveWindowOrRecompute until now x = u) ∨
  ((∀ u, until = Some u → u <= now) ∧ keepActiveWindowOrRecompute until now x = x).
Proof.
  destruct until as [u|]; cbn; [|by right]. destruct (Z.ltb_spec now u); [left; by exists u|right].
  split; [|done]. intros v [= <-]. lia.
Qed.

Lemma first_disabled_backoff r cfg provider :
  resolveDisabledFailureBackoffMs r 1 (resolveAuthCooldownConfig cfg (normalizeProviderId provider)) =
  firstBackoffMs cfg provider (Some r).
Proof. unfold resolveDisabledFailureBackoffMs, calculateDisabledLaneBackoffMs. cbn [firstBackoffMs].
  change (2 ^ Z.min (Z.max 1 1 - 1) 10) with 1. lia.
Qed.

(** A failure keeps the active window of its lane or opens one of the first length. *)
Lemma single_failure cfg provider lane ops stats now reason modelId :
  singleLane cfg provider lane ops stats → disabledLane reason = lane →
  let st := computeNextProfileUsageStats stats now reason (resolveAuthCooldownConfig cfg (normalizeProviderId provider)) modelId in
  otherWindow lane st = None ∧
  laneWindow lane st = Some (keepActiveWindowOrRecompute (laneWindow lane stats) now
                               (now + firstBackoffMs cfg provider lane)).
Proof.
  intros Hs Hl st. split.
  { pose proof (sl_other _ _ _ _ _ Hs) as Ho. unfold st, computeNextProfileUsageStats. rewrite Hl.
    by destruct lane. }
  set (c := resolveAuthCooldownConfig cfg (normalizeProviderId provider)) in *.
  destruct (keepActive_cases (laneWindow lane stats) now (now + firstBackoffMs cfg provider lane))
    as [(u & E & Hu & ->)|[Hn ->]].
  - unfold st, computeNextProfileUsageStats. rewrite Hl. apply Z.ltb_lt in Hu.
    destruct lane; cbn [laneWindow] in *; cbn; rewrite E; cbn; by rewrite Hu.
  - destruct (single_counters cfg provider lane ops stats now (failureWindowMs c) Hs Hn) as [E1 E2].
    unfold st, computeNextProfileUsageStats. rewrite Hl. rewrite E1, E2.
    assert (∀ x, keepActiveWindowOrRecompute (laneWindow lane stats) now x = x) as Hk.
    { intros x. destruct (keepActive_cases (laneWindow lane stats) now x) as [(u & E & Hu & _)|[_ Hk]]; [|done].
      specialize (Hn u E). lia. }
    destruct lane as [r|]; cbn [laneWindow] in *; cbn [cooldownUntil disabledUntil]; rewrite Hk; [|done].
    cbn [oget oset default id]. rewrite decide_True by done. cbn [default id]. unfold c. by rewrite <- first_disabled_backoff.
Qed.

Lemma isFailureAt_app ops ops' t : isFailureAt ops t → isFailureAt (ops ++ ops') t.
Proof. intros (p & r & re & m & H). exists p, r, re, m. apply elem_of_app. by left. Qed.

Lemma singleLane_step cfg provider lane ops stats op :
  singleLane cfg provider lane ops stats → 0 <= op.1 → inLane lane op →
  normalizeProviderId provider ≠ "openai-codex" →
  singleLane cfg provider lane (ops ++ [op]) (usageStep cfg provider stats op).
Proof.
  intros Hs Ht Hl Hp. destruct op as [now [profile res reason modelId| | |]]; cbn [usageStep fst snd inLane] in *.
  - assert (shouldProbeWhamForFailure (Some provider) reason = false) as ->.
    { unfold shouldProbeWhamForFailure. cbn [default id]. by destruct (String.eqb_spec (normalizeProviderId provider) "openai-codex"). }
    unfold failureStats. cbn [default id].
    destruct (single_failure cfg provider lane ops stats now reason modelId Hs Hl) as [Ho Hw].
    assert (0 < firstBackoffMs cfg provider lane) as Hf by (destruct lane; cbn; lia).
    split; [done| |by rewrite Hw]. intros u Hu. rewrite Hw in Hu.
    destruct (keepActive_cases (laneWindow lane stats) now (now + firstBackoffMs cfg provider lane))
      as [(v & E & Hv & Ek)|[Hn Ek]]; rewrite Ek in Hu; injection Hu as <-.
    + destruct (sl_window _ _ _ _ _ Hs v E) as (Hpos & t & Hin & ->). split; [lia|].
      exists t. split; [by apply isFailureAt_app|done].
    + split; [lia|]. exists now. split; [|done]. exists profile, res, reason, modelId. apply elem_of_app. right. by left.
  - destruct (clearStats_windows now stats) as [E1 E2].
    assert (laneWindow lane (clearStats now stats).1 = unexpired now (laneWindow lane stats)) as El by (by destruct lane).
    pose proof Hs as [Ho Hw Hc]. split.
    + destruct lane; cbn [otherWindow] in *; rewrite ?E1, ?E2, Ho; done.
    + intros u Hu. rewrite El in Hu. apply unexpired_Some in Hu. destruct (Hw u Hu) as (Hpos & t & Hin & ->).
      split; [done|]. exists t. split; [by apply isFailureAt_app|done].
    + rewrite El, clearStats_eq, (allPassed_single lane) by done. cbn [errorCount failureCounts].
      unfold unexpired. destruct (windowPassed now (laneWindow lane stats)); [done|apply Hc].
  - by destruct lane; split.
  - by destruct lane; split.
Qed.

Lemma singleLane_run cfg provider lane ops0 stats ops :
  singleLane cfg provider lane ops0 stats → Forall (λ op, 0 <= op.1 ∧ inLane lane op) ops →
  normalizeProviderId provider ≠ "openai-codex" →
  singleLane cfg provider lane (ops0 ++ ops) (usageRun cfg provider stats ops).
Proof.
  intros Hs Hf Hp. revert ops0 stats Hs. induction ops as [|op ops IH]; intros ops0 stats Hs.
  - by rewrite app_nil_r.
  - apply Forall_cons in Hf as [[H1 H2] Hf]. rewrite cons_middle, app_assoc. apply IH; [done|].
    by apply singleLane_step.
Qed.

(** ** The operations on stores perform these steps *)

Lemma statsOf_update s profileId updater other :
  statsOf (updateUsageStatsEntry s profileId updater) other =
  if decide (profileId = other) then Some (updater (statsOf s profileId)) else statsOf s other.
Proof.
  unfold statsOf, updateUsageStatsEntry. cbn [set_usageStats usageStats].
  destruct (usageStats s) as [m|]; cbn [default id]; rewrite oget_oset; by case_decide.
Qed.

(** A failure is recorded, under the lock, in the store read from disk, for this
    profile alone, and the caller takes over the statistics of that store. *)
Lemma markAuthProfileFailure_locked cfg f s profileId reason modelId res now p :
  oget (profiles s) profileId = Some p → oget (profiles f) profileId = Some p →
  isAuthCooldownBypassedForProvider (Some (cred_provider p)) = false →
  let '(s', saved) := markAuthProfileFailure cfg (Some f) s profileId reason modelId res now now in
  ∃ f', saved = Some f' ∧ usageStats s' = usageStats f' ∧ profiles f' = profiles f ∧ profiles s' = profiles s ∧
    statsOf f' profileId = Some (usageStep cfg (cred_provider p) (statsOf f profileId ?? noStats)
                                   (now, OpFail (Some p) res reason modelId)) ∧
    (∀ id, id ≠ profileId → statsOf f' id = statsOf f id).
Proof.
  intros Hs Hf Hb. unfold markAuthProfileFailure. rewrite Hs, Hb. cbn [updateAuthProfileStoreWithLock].
  rewrite Hf, Hb. eexists. split; [done|]. split; [done|]. split; [done|]. split; [done|]. split.
  - rewrite statsOf_update, decide_True by done. done.
  - intros id Hne. rewrite statsOf_update, decide_False by done. done.
Qed.

(** Without the lock it is recorded in the caller's store, which is written. *)
Lemma markAuthProfileFailure_unlocked cfg s profileId reason modelId res now p :
  oget (profiles s) profileId = Some p →
  isAuthCooldownBypassedForProvider (Some (cred_provider p)) = false →
  let '(s', saved) := markAuthProfileFailure cfg None s profileId reason modelId res now now in
  saved = Some s' ∧
  statsOf s' profileId = Some (usageStep cfg (cred_provider p) (statsOf s profileId ?? noStats)
                                 (now, OpFail (Some p) res reason modelId)) ∧
  (∀ id, id ≠ profileId → statsOf s' id = statsOf s id).
Proof.
  intros Hs Hb. unfold markAuthProfileFailure. rewrite Hs, Hb. cbn [updateAuthProfileStoreWithLock].
  split; [done|]. split.
  - rewrite statsOf_update, decide_True by done. done.
  - intros id Hne. rewrite statsOf_update, decide_False by done. done.
Qed.

(** Clearing the expired windows of a store clears those of every profile. *)
Lemma clearExpiredCooldowns_stats s ts id :
  statsOf (clearExpiredCooldowns s ts).1 id = (λ st, (clearStats ts st).1) <$> statsOf s id.
Proof.
  unfold clearExpiredCooldowns, statsOf. destruct (usageStats s) as [m|] eqn:E; cbn; [|by rewrite E].
  by rewrite oget_omap_values.
Qed.

(** ** Properties *)

(** A failing profile recovers. However often a profile fails and is cleared,
    its windows end within a fixed time of the last operation: a day, or the
    configured maximum of a disabled lane when that is longer; from then on it is
    usable for every model. *)
Lemma failing_profile_recovers cfg provider ops now ts forModel :
  clocked 0 ops → Forall (λ op, op.1 <= now) ops → 0 <= now →
  now + unusableLimit cfg provider <= ts →
  statsInCooldown (usageRun cfg provider noStats ops) ts forModel = false.
Proof.
  intros Hc Hf Hn Hts.
  assert (0 <= now ∧ windowsWithin (unusableLimit cfg provider) now (usageRun cfg provider noStats ops)) as [_ Hw].
  { apply (usageRun_ind cfg provider (λ t st, 0 <= t ∧ windowsWithin (unusableLimit cfg provider) t st) 0 noStats ops now);
      [| |split; [lia|by intros u [Hu|Hu]]|done|done|done].
    - intros t st op [Ht Hw] Hle _. split; [lia|by apply (windowsWithin_step cfg provider t)].
    - intros t t' st [Ht Hw] Hle. split; [lia|by apply (windowsWithin_mono _ t)]. }
  destruct (statsInCooldown _ ts forModel) eqn:E; [|done]. apply statsInCooldown_until in E as (u & Eu & Hu).
  pose proof (unusable_spec (usageRun cfg provider noStats ops)) as Hsp. rewrite Eu in Hsp.
  destruct Hsp as (_ & Hor & _). specialize (Hw u Hor). lia.
Qed.

Definition failedTwice : list (Z * UsageOp) :=
  [(1000, OpFail None WhamFailed ReasonRateLimit (Some "opus")); (2000, OpClearExpired);
   (5000, OpFail None WhamFailed ReasonBilling None)].

Lemma failing_profile_recovers_witness :
  statsInCooldown (usageRun None "anthropic" noStats failedTwice) 18000000 None = true ∧
  statsInCooldown (usageRun None "anthropic" noStats failedTwice) (5000 + 86400000) None = false.
Proof.
  split; [reflexivity|].
  apply (failing_profile_recovers None "anthropic" failedTwice 5000); [cbn; lia| |lia|vm_compute; discriminate].
  repeat constructor; cbn; lia.
Defined.

(** A model that failed stays blocked. After a transient failure of a model
    the profile is in a cool-down for that model until the window ends, whatever
    other failures, of this or other models, and clearings happen meanwhile. *)
Lemma failed_model_stays_blocked cfg provider stats t profile res reason m u ops ts :
  disabledLane reason = None → m ≠ EmptyString →
  let failed := usageStep cfg provider stats (t, OpFail profile res reason (Some m)) in
  cooldownUntil failed = Some u →
  Forall (λ op, op.1 < u ∧ failOrClear op = true) ops → 0 <= ts < u →
  statsInCooldown (usageRun cfg provider failed ops) ts (Some m) = true.
Proof.
  intros Hl Hm failed Hu Hops Hts. apply (blockedUntil_in_cooldown m u); [|done].
  apply blockedUntil_run; [|done]. split; [|by exists u].
  unfold scopeCovers, failed. cbn [usageStep fst snd].
  destruct (failureStats_cooldown cfg provider (if shouldProbeWhamForFailure (Some provider) reason
    then probeWhamForCooldown profile res t else None) reason (Some m) t stats Hl) as [-> _].
  by apply nextCooldownModel_covers.
Qed.

Lemma failed_model_stays_blocked_witness :
  let failed := usageStep None "anthropic" noStats (1000, OpFail None WhamFailed ReasonRateLimit (Some "opus")) in
  let ops := [(2000, OpFail None WhamFailed ReasonTimeout (Some "sonnet")); (3000, OpClearExpired)] in
  statsInCooldown failed 2000 (Some "sonnet") = false ∧
  statsInCooldown (usageRun None "anthropic" failed ops) 30999 (Some "opus") = true.
Proof.
  intros failed ops. split; [reflexivity|].
  apply (failed_model_stays_blocked None "anthropic" noStats 1000 None WhamFailed ReasonRateLimit "opus" 31000 ops);
    [reflexivity|discriminate|reflexivity| |lia].
  repeat constructor; cbn; lia.
Defined.

(** The statistics on disk and those cleared in memory agree: clearing the
    expired windows before a failure is recorded gives the same statistics as
    clearing them afterwards, so a stale file never lengthens the back-off. *)
Lemma clearing_commutes_with_failure existing now reason c modelId :
  0 <= now →
  (clearStats now (computeNextProfileUsageStats existing now reason c modelId)).1 =
  computeNextProfileUsageStats (clearStats now existing).1 now reason c modelId.
Proof.
  intros Hn.
  destruct (cleared_counters now existing (failureWindowMs c)) as [E1 E2]. cbn zeta in E1, E2.
  pose proof (nextCooldownModel_cleared now existing reason modelId) as E3.
  destruct (clearStats_windows now existing) as [W1 W2].
  unfold computeNextProfileUsageStats at 2. rewrite E1, E2, E3, W1, W2, !clearStats_eq.
  unfold computeNextProfileUsageStats, allPassed.
  destruct (disabledLane reason) as [lane|];
    cbn [lastUsed cooldownUntil cooldownReason cooldownModel disabledUntil disabledReason errorCount failureCounts lastFailureAt];
    rewrite !keepActive_unexpired by done.
  - set (n := oget _ reason ?? 1).
    pose proof (disabledBackoff_bounds n (policyBaseMs lane c) (policyMaxMs lane c)) as Hb. cbn zeta in Hb.
    destruct (keepActive_new (disabledUntil existing) now (now + resolveDisabledFailureBackoffMs lane n c)) as (-> & -> & ->);
      [done|unfold resolveDisabledFailureBackoffMs; lia|].
    by rewrite !andb_false_r.
  - set (n := calculateAuthProfileCooldownMs _).
    assert (30000 <= n) by apply cooldownBackoff_bounds.
    destruct (keepActive_new (cooldownUntil existing) now (now + n)) as (-> & -> & ->); [done|lia|].
    by rewrite !andb_false_r.
Qed.

Lemma clearing_commutes_with_failure_witness :
  let stale := mkStats None (Some 1000) (Some ReasonRateLimit) (Some "opus") None None (Some 4)
                 (Some [(ReasonRateLimit, 4)]) (Some 500) in
  let c := resolveAuthCooldownConfig None "anthropic" in
  let next := computeNextProfileUsageStats stale 2000 ReasonTimeout c None in
  cooldownUntil next = Some 32000 ∧ (clearStats 2000 next).1 =
    computeNextProfileUsageStats (clearStats 2000 stale).1 2000 ReasonTimeout c None.
Proof.
  intros stale c next. split; [reflexivity|].
  apply (clearing_commutes_with_failure stale 2000 ReasonTimeout c None). lia.
Defined.

(** The back-off never escalates. A profile that only sees failures of one
    lane (transient ones, or one kind of disabling failure), starting without
    statistics, always has a window of the first length: 30 seconds, or the base
    of the lane. The longer steps of [calculateAuthProfileCooldownMs] and the
    doubling of the disabled lanes are never reached, because the counters are
    reset whenever the previous window has passed. *)
Lemma backoff_never_escalates cfg provider lane ops u :
  Forall (λ op, 0 <= op.1 ∧ inLane lane op) ops → normalizeProviderId provider ≠ "openai-codex" →
  resolveProfileUnusableUntil (usageRun cfg provider noStats ops) = Some u →
  ∃ t, isFailureAt ops t ∧ u = t + firstBackoffMs cfg provider lane.
Proof.
  intros Hf Hp Hu.
  assert (singleLane cfg provider lane [] noStats) as H0 by (by destruct lane; split).
  pose proof (singleLane_run cfg provider lane [] noStats ops H0 Hf Hp) as [Ho Hw _]. cbn [app] in Hw.
  pose proof (unusable_spec (usageRun cfg provider noStats ops)) as Hsp. rewrite Hu in Hsp.
  destruct Hsp as (_ & Hor & _). apply Hw.
  destruct lane; cbn [otherWindow laneWindow] in *; destruct Hor as [E|E]; congruence.
Qed.

(** Three failures in a row, each after the previous window. *)
Definition failedInARow : list (Z * UsageOp) :=
  let fail t := (t, OpFail None WhamFailed ReasonOverloaded None) in
  [fail 1000; fail 2000; fail 40000; fail 80000].

Lemma backoff_never_escalates_witness :
  ∃ t, isFailureAt failedInARow t ∧ 110000 = t + 30000.
Proof.
  apply (backoff_never_escalates None "anthropic" None failedInARow 110000);
    [|vm_compute; discriminate|reflexivity].
  repeat constructor; cbn; lia.
Defined.

End AuthUsage.
