(* ===== verification/AuthOrder.v ===== *)
(** * The order of auth profiles: src/agents/auth-profiles/order.ts

    With credential-state.ts, profiles.ts, the aliases of
    src/agents/provider-auth-aliases.ts and the secret references of
    src/config/types.secrets.ts. The manifests of the plugins are read from files:
    the registry is an argument, each plugin with its aliases in the order the
    code sorts them. *)

From S2P Require Import Prelude OMap AuthUsage.

Module AuthOrder.
Import StringCoerce AuthUsage.

(** ** Aliases of providers *)

Inductive PluginOrigin := OriginConfig | OriginBundled | OriginGlobal | OriginWorkspace.
#[export] Instance PluginOrigin_eq_dec : EqDecision PluginOrigin.
Proof. solve_decision. Defined.

Record PluginManifestRecord := mkPlugin {
  pl_id : string;
  pl_origin : option PluginOrigin;
  pl_aliases : list (string * string);
}.

(** The part of the configuration that trusts workspace plugins. *)
Record PluginsConfig := mkPluginsConfig {
  pc_enabled : option bool;
  pc_deny : list string;
  pc_allow : list string;
  pc_entries : list (string * option bool);
  pc_contextEngine : option string;
}.

Definition resolveProviderAuthAliasOriginPriority (origin : option PluginOrigin) : Z :=
  match origin with
  | None => MAX_SAFE_INTEGER
  | Some OriginConfig => 0
  | Some OriginBundled => 1
  | Some OriginGlobal => 2
  | Some OriginWorkspace => 3
  end.

Definition normalizePluginConfigId (pluginId : option string) : string :=
  normalizeOptionalLowercaseString pluginId ?? EmptyString.

Definition hasPluginId (l : list string) (pluginId : string) : bool :=
  existsb (λ entry, String.eqb (normalizePluginConfigId (Some entry)) pluginId) l.

Definition findPluginEntry (entries : list (string * option bool)) (pluginId : string) : option (option bool) :=
  snd <$> find (λ e, String.eqb (normalizePluginConfigId (Some e.1)) pluginId) entries.

Definition isWorkspacePluginTrustedForAuthAliases (plugin : PluginManifestRecord) (config : option PluginsConfig) : bool :=
  let c := config ?? mkPluginsConfig None [] [] [] None in
  if bool_decide (pc_enabled c = Some false) then false
  else
    let pluginId := normalizePluginConfigId (Some (pl_id plugin)) in
    if negb (str_truthy pluginId) || hasPluginId (pc_deny c) pluginId then false
    else
      let enabled := match findPluginEntry (pc_entries c) pluginId with Some e => e | None => None end in
      if bool_decide (enabled = Some false) then false
      else if bool_decide (enabled = Some true) || hasPluginId (pc_allow c) pluginId then true
      else String.eqb (normalizePluginConfigId (pc_contextEngine c)) pluginId.

Definition shouldUsePluginAuthAliases (includeUntrusted : bool) (config : option PluginsConfig)
    (plugin : PluginManifestRecord) : bool :=
  if negb (bool_decide (pl_origin plugin = Some OriginWorkspace)) || includeUntrusted then true
  else isWorkspacePluginTrustedForAuthAliases plugin config.

Definition AliasCandidate := (option PluginOrigin * string)%type.

Definition addAlias (origin : option PluginOrigin) (m : omap string AliasCandidate) (e : string * string)
    : omap string AliasCandidate :=
  let normalizedAlias := normalizeProviderId e.1 in
  let normalizedTarget := normalizeProviderId e.2 in
  if str_truthy normalizedAlias && str_truthy normalizedTarget then
    match oget m normalizedAlias with
    | None => oset m normalizedAlias (origin, normalizedTarget)
    | Some existing =>
        if resolveProviderAuthAliasOriginPriority origin <? resolveProviderAuthAliasOriginPriority existing.1
        then oset m normalizedAlias (origin, normalizedTarget) else m
    end
  else m.

Definition resolveProviderAuthAliasMap (includeUntrusted : bool) (config : option PluginsConfig)
    (registry : list PluginManifestRecord) : omap string string :=
  let preferred := fold_left (λ m plugin,
      if shouldUsePluginAuthAliases includeUntrusted config plugin
      then fold_left (addAlias (pl_origin plugin)) (pl_aliases plugin) m else m) registry [] in
  map (λ e, (e.1, e.2.2)) preferred.

(** [aliases] is the alias map of the configuration at hand. *)
Definition resolveProviderIdForAuth (aliases : omap string string) (provider : string) : string :=
  let normalized := normalizeProviderId provider in
  if negb (str_truthy normalized) then normalized else oget aliases normalized ?? normalized.

(** ** Credentials *)

Definition coerceSecretRef (value : option SecretRef) : option SecretRef :=
  match value with
  | None => None
  | Some r =>
      match sr_provider r with
      | Some p => if str_truthy (trim p) && str_truthy (trim (sr_id r)) then Some r else None
      | None => if str_truthy (trim (sr_id r))
                then Some (mkSecretRef (sr_source r) (Some "default") (sr_id r)) else None
      end
  end.

Definition normalizeSecretInputString (value : option string) : option string :=
  match value with
  | None => None
  | Some v => let trimmed := trim v in if str_truthy trimmed then Some trimmed else None
  end.

Definition hasConfiguredSecretRef (value : option SecretRef) : bool :=
  match coerceSecretRef value with Some _ => true | None => false end.
Definition hasConfiguredSecretString (value : option string) : bool :=
  match normalizeSecretInputString value with Some _ => true | None => false end.

Inductive TokenExpiryState := ExpiryMissing | ExpiryValid | ExpiryExpired | ExpiryInvalid.

Definition resolveTokenExpiryState (expires : option Z) (now : Z) : TokenExpiryState :=
  match expires with
  | None => ExpiryMissing
  | Some e => if e <=? 0 then ExpiryInvalid else if e <=? now then ExpiryExpired else ExpiryValid
  end.

Inductive EligibilityReasonCode :=
| CodeOk | CodeMissingCredential | CodeInvalidExpires | CodeExpired | CodeUnresolvedRef
| CodeProfileMissing | CodeProviderMismatch | CodeModeMismatch.
#[export] Instance EligibilityReasonCode_eq_dec : EqDecision EligibilityReasonCode.
Proof. solve_decision. Defined.

Record AuthProfileEligibility := mkEligibility { eligible : bool; reasonCode : EligibilityReasonCode }.

Definition evaluateStoredCredentialEligibility (credential : AuthProfileCredential) (now : Z) : AuthProfileEligibility :=
  match credential with
  | ApiKeyCredential _ key keyRef =>
      if negb (hasConfiguredSecretString key) && negb (hasConfiguredSecretRef keyRef)
      then mkEligibility false CodeMissingCredential else mkEligibility true CodeOk
  | TokenCredential _ token tokenRef expires =>
      if negb (hasConfiguredSecretString token) && negb (hasConfiguredSecretRef tokenRef)
      then mkEligibility false CodeMissingCredential
      else match resolveTokenExpiryState expires now with
           | ExpiryInvalid => mkEligibility false CodeInvalidExpires
           | ExpiryExpired => mkEligibility false CodeExpired
           | _ => mkEligibility true CodeOk
           end
  | OAuthCredential _ access refresh _ =>
      if negb (hasConfiguredSecretString access) && negb (hasConfiguredSecretString refresh)
      then mkEligibility false CodeMissingCredential else mkEligibility true CodeOk
  end.

(** ** Profiles *)

Inductive CredentialType := TypeApiKey | TypeToken | TypeOAuth.
#[export] Instance CredentialType_eq_dec : EqDecision CredentialType.
Proof. solve_decision. Defined.

Definition cred_type (c : AuthProfileCredential) : CredentialType :=
  match c with
  | ApiKeyCredential _ _ _ => TypeApiKey
  | TokenCredential _ _ _ _ => TypeToken
  | OAuthCredential _ _ _ _ => TypeOAuth
  end.

Record AuthProfileConfig := mkProfileConfig { ap_provider : string; ap_mode : CredentialType }.

(** The [auth] section of the configuration. *)
Record AuthConfig := mkAuthConfig {
  ac_profiles : option (omap string AuthProfileConfig);
  ac_order : option (omap string (list string));
}.

Definition dedupeProfileIds (profileIds : list string) : list string :=
  fold_left (λ acc p, if bool_decide (p ∈ acc) then acc else acc ++ [p]) profileIds [].

Definition listProfilesForProvider (aliases : omap string string) (s : AuthProfileStore) (provider : string)
    : list string :=
  let providerKey := resolveProviderIdForAuth aliases provider in
  map fst (List.filter (λ e, String.eqb (resolveProviderIdForAuth aliases (cred_provider e.2)) providerKey) (profiles s)).

Definition normalizeStringEntries (l : list string) : list string :=
  List.filter str_truthy (map (λ e, normalizeOptionalString (Some e) ?? EmptyString) l).

Definition set_order (s : AuthProfileStore) (o : option (omap string (list string))) : AuthProfileStore :=
  mkStore (profiles s) o (lastGood s) (usageStats s).

(** The updater of [setAuthProfileOrder]. *)
Definition setOrder (provider : string) (newOrder : option (list string)) (s : AuthProfileStore)
    : AuthProfileStore * bool :=
  let providerKey := normalizeProviderId provider in
  let deduped := dedupeProfileIds (normalizeStringEntries (newOrder ?? [])) in
  let m := order s ?? [] in
  match deduped with
  | [] =>
      if negb (ohas m providerKey) then (set_order s (Some m), false)
      else let m' := odel m providerKey in
           (set_order s (match m' with [] => None | _ => Some m' end), true)
  | _ => (set_order s (Some (oset m providerKey deduped)), true)
  end.

Definition setAuthProfileOrder (fresh : option AuthProfileStore) (provider : string) (newOrder : option (list string))
    : option AuthProfileStore * option AuthProfileStore :=
  updateAuthProfileStoreWithLock fresh (setOrder provider newOrder).

Definition upsertAuthProfileWithLock (fresh : option AuthProfileStore) (profileId : string)
    (credential : AuthProfileCredential) : option AuthProfileStore * option AuthProfileStore :=
  updateAuthProfileStoreWithLock fresh (λ s,
    (mkStore (oset (profiles s) profileId credential) (order s) (lastGood s) (usageStats s), true)).

Definition set_lastGood (s : AuthProfileStore) (m : option (omap string string)) : AuthProfileStore :=
  mkStore (profiles s) (order s) m (usageStats s).

Definition markAuthProfileGood (aliases : omap string string) (fresh : option AuthProfileStore) (s : AuthProfileStore)
    (provider profileId : string) : AuthProfileStore * option AuthProfileStore :=
  let providerKey := resolveProviderIdForAuth aliases provider in
  let belongs f := match oget (profiles f) profileId with
                   | Some p => String.eqb (resolveProviderIdForAuth aliases (cred_provider p)) providerKey
                   | None => false
                   end in
  let good f := set_lastGood f (Some (oset (lastGood f ?? []) providerKey profileId)) in
  let '(updated, saved) :=
    updateAuthProfileStoreWithLock fresh (λ f, if belongs f then (good f, true) else (f, false)) in
  match updated with
  | Some f => (set_lastGood s (lastGood f), saved)
  | None => if negb (belongs s) then (s, None) else (good s, Some (good s))
  end.

(** ** Eligibility and order

    [aliases] is the alias map with the configuration, [plainAliases] the one
    without, which [listProfilesForProvider] looks up. *)
Section order.
Context (aliases plainAliases : omap string string) (cfg : option AuthConfig).

Definition resolveAuthProfileEligibility (s : AuthProfileStore) (provider profileId : string) (now : Z)
    : AuthProfileEligibility :=
  let providerAuthKey := resolveProviderIdForAuth aliases provider in
  match oget (profiles s) profileId with
  | None => mkEligibility false CodeProfileMissing
  | Some cred =>
      if negb (String.eqb (resolveProviderIdForAuth aliases (cred_provider cred)) providerAuthKey)
      then mkEligibility false CodeProviderMismatch
      else
        let profileConfig :=
          match cfg with
          | Some c => match ac_profiles c with Some m => oget m profileId | None => None end
          | None => None
          end in
        let credentialEligibility := evaluateStoredCredentialEligibility cred now in
        match profileConfig with
        | None => credentialEligibility
        | Some pc =>
            if negb (String.eqb (resolveProviderIdForAuth aliases (ap_provider pc)) providerAuthKey)
            then mkEligibility false CodeProviderMismatch
            else if bool_decide (ap_mode pc = cred_type cred) then credentialEligibility
            else if bool_decide (ap_mode pc = TypeOAuth) && bool_decide (cred_type cred = TypeToken)
            then credentialEligibility
            else mkEligibility false CodeModeMismatch
        end
  end.

Definition cooldownEnd (s : AuthProfileStore) (now : Z) (profileId : string) : Z :=
  resolveProfileUnusableUntil (statsOf s profileId ?? noStats) ?? now.

(** The profiles in a cool-down, the one that ends first in front. *)
Definition cooldownSorted (s : AuthProfileStore) (now : Z) (l : list string) : list string :=
  toSorted (λ a b, cooldownEnd s now a <=? cooldownEnd s now b) l.

Definition typeScore (s : AuthProfileStore) (profileId : string) : Z :=
  match oget (profiles s) profileId with
  | Some (OAuthCredential _ _ _ _) => 0
  | Some (TokenCredential _ _ _ _) => 1
  | Some (ApiKeyCredential _ _ _) => 2
  | None => 3
  end.

Definition lastUsedOf (s : AuthProfileStore) (profileId : string) : Z :=
  match statsOf s profileId with Some st => lastUsed st ?? 0 | None => 0 end.

Definition roundRobinLe (s : AuthProfileStore) (a b : string) : bool :=
  if negb (typeScore s a =? typeScore s b) then typeScore s a <=? typeScore s b
  else lastUsedOf s a <=? lastUsedOf s b.

Definition profileInCooldown (s : AuthProfileStore) (now : Z) (profileId : string) : bool :=
  isProfileInCooldown s profileId now None.

Definition orderProfilesByMode (s : AuthProfileStore) (now : Z) (l : list string) : list string :=
  let available := List.filter (λ p, negb (profileInCooldown s now p)) l in
  let cooling := List.filter (profileInCooldown s now) l in
  toSorted (roundRobinLe s) available ++ cooldownSorted s now cooling.

Definition preferredFirst (preferredProfile : option string) (ordered : list string) : list string :=
  match preferredProfile with
  | Some (String _ _ as p) =>
      if bool_decide (p ∈ ordered) then p :: List.filter (λ e, negb (String.eqb e p)) ordered else ordered
  | _ => ordered
  end.

Definition explicitProfiles (provider : string) : list string :=
  match cfg with
  | Some c =>
      match ac_profiles c with
      | Some m => map fst (List.filter (λ e, String.eqb (resolveProviderIdForAuth aliases (ap_provider e.2))
                                              (resolveProviderIdForAuth aliases provider)) m)
      | None => []
      end
  | None => []
  end.

Definition explicitOrder (s : AuthProfileStore) (provider : string) : option (list string) :=
  let providerKey := normalizeProviderId provider in
  match findNormalizedProviderValue (order s) providerKey with
  | Some o => Some o
  | None => match cfg with Some c => findNormalizedProviderValue (ac_order c) providerKey | None => None end
  end.

Definition baseOrder (s : AuthProfileStore) (provider : string) : list string :=
  match explicitOrder s provider with
  | Some o => o
  | None => match explicitProfiles provider with
            | [] => listProfilesForProvider plainAliases s provider
            | l => l
            end
  end.

Definition isValidProfile (s : AuthProfileStore) (provider : string) (now : Z) (profileId : string) : bool :=
  eligible (resolveAuthProfileEligibility s provider profileId now).

(** The valid candidates; when every configured profile is gone, those stored. *)
Definition candidates (s : AuthProfileStore) (provider : string) (now : Z) : list string :=
  let base := baseOrder s provider in
  let filtered := List.filter (isValidProfile s provider now) base in
  let allBaseProfilesMissing := forallb (λ p, negb (ohas (profiles s) p)) base in
  match filtered, explicitProfiles provider with
  | [], _ :: _ =>
      if allBaseProfilesMissing
      then List.filter (isValidProfile s provider now) (listProfilesForProvider plainAliases s provider)
      else filtered
  | _, _ => filtered
  end.

(** The store is returned too: its expired windows are cleared. The clock is read
    once per call of the code; one reading stands for them all. *)
Definition resolveAuthProfileOrder (s0 : AuthProfileStore) (provider : string) (preferredProfile : option string)
    (now : Z) : AuthProfileStore * list string :=
  let s := (clearExpiredCooldowns s0 now).1 in
  match baseOrder s provider with
  | [] => (s, [])
  | _ =>
      let deduped := dedupeProfileIds (candidates s provider now) in
      match explicitOrder s provider with
      | Some (_ :: _) =>
          let available := List.filter (λ p, negb (profileInCooldown s now p)) deduped in
          let cooling := List.filter (profileInCooldown s now) deduped in
          (s, preferredFirst preferredProfile (available ++ cooldownSorted s now cooling))
      | _ => (s, preferredFirst preferredProfile (orderProfilesByMode s now deduped))
      end
  end.

(** ** Lemmas *)

Lemma dedupe_from acc l :
  NoDup acc →
  let r := fold_left (λ acc p, if bool_decide (p ∈ acc) then acc else acc ++ [p]) l acc in
  NoDup r ∧ ∀ p : string, p ∈ r ↔ p ∈ acc ∨ p ∈ l.
Proof.
  revert acc. induction l as [|x l IH]; intros acc Hn; cbn [fold_left].
  - split; [done|]. set_solver.
  - case_bool_decide as Hx.
    + destruct (IH acc Hn) as [H1 H2]. split; [done|]. intros p. rewrite H2. set_solver.
    + assert (NoDup (acc ++ [x])) as Hn'.
      { apply NoDup_app. split; [done|]. split; [|apply NoDup_singleton]. set_solver. }
      destruct (IH (acc ++ [x]) Hn') as [H1 H2]. split; [done|]. intros p. rewrite H2. set_solver.
Qed.

Lemma dedupe_NoDup l : NoDup (dedupeProfileIds l).
Proof. apply (dedupe_from [] l), NoDup_nil_2. Qed.

Lemma dedupe_elem l p : p ∈ dedupeProfileIds l ↔ p ∈ l.
Proof. destruct (dedupe_from [] l) as [_ H]; [apply NoDup_nil_2|]. unfold dedupeProfileIds. rewrite H. set_solver. Qed.

Lemma candidates_valid s provider now p : p ∈ candidates s provider now → isValidProfile s provider now p = true.
Proof.
  unfold candidates. destruct (List.filter _ _) as [|c l] eqn:E.
  - destruct (explicitProfiles provider); [set_solver|]. destruct (forallb _ _); [|set_solver].
    intros Hp. by apply filter_elem in Hp as [Hp _].
  - rewrite <- E. assert (p ∈ List.filter (isValidProfile s provider now) (baseOrder s provider) →
      isValidProfile s provider now p = true) as H by (intros Hp; by apply filter_elem in Hp as [Hp _]).
    by destruct (explicitProfiles provider).
Qed.

Lemma cooldownSorted_sorted s now l :
  StronglySorted (λ a b, cooldownEnd s now a <= cooldownEnd s now b) (cooldownSorted s now l).
Proof. apply toSorted_sorted; [intros a b; lia|intros a b; lia|intros a b c; lia]. Qed.

(** Least recently used within the best type. *)
Definition roundRobin (s : AuthProfileStore) (a b : string) : Prop :=
  typeScore s a < typeScore s b ∨ (typeScore s a = typeScore s b ∧ lastUsedOf s a <= lastUsedOf s b).

Lemma roundRobin_sorted s l : StronglySorted (roundRobin s) (toSorted (roundRobinLe s) l).
Proof.
  unfold roundRobin, roundRobinLe. apply toSorted_sorted.
  - intros a b. destruct (Z.eqb_spec (typeScore s a) (typeScore s b)); cbn; lia.
  - intros a b. destruct (Z.eqb_spec (typeScore s a) (typeScore s b)); cbn; lia.
  - intros a b c. lia.
Qed.

Definition isExplicit (s : AuthProfileStore) (provider : string) : bool :=
  match explicitOrder s provider with Some (_ :: _) => true | _ => false end.

(** [a] may come before [b]: available profiles come first, in the order given or
    by round robin, and then those in a cool-down by its end. *)
Definition better (s : AuthProfileStore) (now : Z) (explicit : bool) (a b : string) : Prop :=
  match profileInCooldown s now a, profileInCooldown s now b with
  | false, true => True
  | true, true => cooldownEnd s now a <= cooldownEnd s now b
  | false, false => explicit = true ∨ roundRobin s a b
  | true, false => False
  end.

Definition orderedProfiles (s : AuthProfileStore) (now : Z) (explicit : bool) (deduped : list string) : list string :=
  let available := List.filter (λ p, negb (profileInCooldown s now p)) deduped in
  let cooling := List.filter (profileInCooldown s now) deduped in
  (if explicit then available else toSorted (roundRobinLe s) available) ++ cooldownSorted s now cooling.

Lemma resolveAuthProfileOrder_eq s0 provider preferredProfile now :
  let s := (clearExpiredCooldowns s0 now).1 in
  resolveAuthProfileOrder s0 provider preferredProfile now =
  (s, match baseOrder s provider with
      | [] => []
      | _ => preferredFirst preferredProfile
               (orderedProfiles s now (isExplicit s provider) (dedupeProfileIds (candidates s provider now)))
      end).
Proof.
  cbn zeta. unfold resolveAuthProfileOrder, isExplicit, orderedProfiles, orderProfilesByMode. cbn zeta.
  destruct (baseOrder _ _); [done|]. by destruct (explicitOrder _ _) as [[|]|].
Qed.

Lemma orderedProfiles_perm s now explicit d : orderedProfiles s now explicit d ≡ₚ d.
Proof.
  rewrite <- (filter_partition (profileInCooldown s now) d) at 2. unfold orderedProfiles.
  apply Permutation_app; [|apply toSorted_perm]. destruct explicit; [done|apply toSorted_perm].
Qed.

Lemma orderedProfiles_sorted s now explicit d :
  StronglySorted (better s now explicit) (orderedProfiles s now explicit d).
Proof.
  unfold orderedProfiles. apply StronglySorted_app.
  assert (∀ p, p ∈ cooldownSorted s now (List.filter (profileInCooldown s now) d) → profileInCooldown s now p = true) as Hc.
  { intros p Hp. apply toSorted_elem, filter_elem in Hp. tauto. }
  assert (∀ p, p ∈ (if explicit then List.filter (λ p, negb (profileInCooldown s now p)) d
           else toSorted (roundRobinLe s) (List.filter (λ p, negb (profileInCooldown s now p)) d)) →
           profileInCooldown s now p = false) as Ha.
  { intros p Hp. assert (p ∈ List.filter (λ p, negb (profileInCooldown s now p)) d) as Hp'
      by (destruct explicit; [done|by apply toSorted_elem in Hp]).
    apply filter_elem in Hp' as [Hp' _]. by destruct (profileInCooldown s now p). }
  split; [|split].
  - intros a b Hp Hq. unfold better. by rewrite (Ha a Hp), (Hc b Hq).
  - destruct explicit.
    + apply StronglySorted_total. intros a b Hp Hq. unfold better. rewrite (Ha a Hp), (Ha b Hq). by left.
    + apply (StronglySorted_weaken (roundRobin s)); [|apply roundRobin_sorted].
      intros a b Hp Hq Hr. unfold better. rewrite (Ha a Hp), (Ha b Hq). by right.
  - apply (StronglySorted_weaken (λ a b, cooldownEnd s now a <= cooldownEnd s now b)); [|apply cooldownSorted_sorted].
    intros a b Hp Hq Hr. unfold better. by rewrite (Hc a Hp), (Hc b Hq).
Qed.

(** The preferred profile moves to the front, and nothing else changes. *)
Definition isPreferred (preferredProfile : option string) (p : string) : bool :=
  bool_decide (preferredProfile = Some p) && str_truthy p.

Lemma filter_remove_perm (p : string) l :
  NoDup l → p ∈ l → p :: List.filter (λ e, negb (String.eqb e p)) l ≡ₚ l.
Proof.
  intros Hn Hp. apply NoDup_Permutation; [|done|].
  - constructor; [|by apply filter_NoDup]. rewrite filter_elem. intros [H _]. by rewrite String.eqb_refl in H.
  - intros x. rewrite elem_of_cons, filter_elem. destruct (String.eqb_spec x p) as [->|]; naive_solver.
Qed.

Lemma preferredFirst_spec preferredProfile l :
  NoDup l →
  preferredFirst preferredProfile l ≡ₚ l ∧
  (∀ p, preferredProfile = Some p → p ≠ EmptyString → p ∈ l → head (preferredFirst preferredProfile l) = Some p) ∧
  List.filter (λ p, negb (isPreferred preferredProfile p)) (preferredFirst preferredProfile l) =
  List.filter (λ p, negb (isPreferred preferredProfile p)) l.
Proof.
  intros Hn. unfold preferredFirst. destruct preferredProfile as [[|c p]|]; try (split; [done|]; split; [congruence|done]).
  set (q := String c p). case_bool_decide as Hq; [|split; [done|]; split; [congruence|done]].
  split; [by apply filter_remove_perm|]. split; [by intros ? [= <-]|].
  assert (∀ x, negb (isPreferred (Some q) x) = negb (String.eqb x q)) as He.
  { intros x. unfold isPreferred. destruct (String.eqb_spec x q) as [->|Hne].
    - by rewrite bool_decide_true.
    - rewrite bool_decide_false; [done|congruence]. }
  cbn [List.filter]. rewrite He, String.eqb_refl. cbn [negb].
  rewrite !(List.filter_ext _ _ He). apply filter_twice.
Qed.

(** In an explicit order the available profiles keep their places. *)
Lemma orderedProfiles_explicit s now d :
  let available p := negb (profileInCooldown s now p) in
  List.filter available (orderedProfiles s now true d) = List.filter available d.
Proof.
  intros available. unfold orderedProfiles. rewrite List.filter_app, filter_twice.
  rewrite (filter_none available (cooldownSorted _ _ _)); [apply app_nil_r|].
  intros p Hp. apply toSorted_elem, filter_elem in Hp as [Hp _]. unfold available. by rewrite Hp.
Qed.

(** ** Round robin *)

(** One pick: the first of the order is used and recorded on disk. *)
Definition pick (s0 : AuthProfileStore) (provider : string) (t : Z) : option (string * AuthProfileStore) :=
  let '(s, l) := resolveAuthProfileOrder s0 provider None t in
  match l with
  | [] => None
  | p :: _ => Some (p, (markAuthProfileUsed (Some s) s p t).1)
  end.

Fixpoint picks (s : AuthProfileStore) (provider : string) (times : list Z) : list string :=
  match times with
  | [] => []
  | t :: rest =>
      match pick s provider t with
      | None => []
      | Some (p, s') => p :: picks s' provider rest
      end
  end.

Lemma clearExpired_lastUsed s t p : lastUsedOf (clearExpiredCooldowns s t).1 p = lastUsedOf s p.
Proof.
  unfold lastUsedOf. rewrite clearExpiredCooldowns_stats. destruct (statsOf s p) as [st|]; [|done].
  cbn [fmap option_fmap option_map]. by rewrite clearStats_eq.
Qed.

Lemma clearExpired_profiles s t :
  profiles (clearExpiredCooldowns s t).1 = profiles s ∧ order (clearExpiredCooldowns s t).1 = order s.
Proof. unfold clearExpiredCooldowns. by destruct (usageStats s). Qed.

(** A window that is left after clearing was there before. *)
Lemma cleared_not_cooling st t t' :
  statsInCooldown st t' None = false → statsInCooldown (clearStats t st).1 t' None = false.
Proof.
  unfold statsInCooldown. cbn [shouldBypassModelScopedCooldown ostr_truthy andb].
  pose proof (unusable_spec st) as H1. pose proof (unusable_spec (clearStats t st).1) as H2.
  destruct (clearStats_windows t st) as [E1 E2]. rewrite E1, E2 in H2.
  destruct (resolveProfileUnusableUntil (clearStats t st).1) as [u|]; [|done].
  destruct H2 as (Hpos & Hor & _).
  assert (cooldownUntil st = Some u ∨ disabledUntil st = Some u) as Hor'
    by (destruct Hor as [E|E]; apply unexpired_Some in E; auto).
  destruct (resolveProfileUnusableUntil st) as [v|].
  - destruct H1 as (_ & _ & Hmax). specialize (Hmax u Hor'). lia.
  - specialize (H1 u Hor'). lia.
Qed.

Lemma clearExpired_not_cooling s t t' p :
  profileInCooldown s t' p = false → profileInCooldown (clearExpiredCooldowns s t).1 t' p = false.
Proof.
  unfold profileInCooldown, isProfileInCooldown, providerOf. rewrite clearExpiredCooldowns_stats.
  destruct (clearExpired_profiles s t) as [-> _]. destruct (isAuthCooldownBypassedForProvider _); [done|].
  destruct (statsOf s p) as [st|]; [|done]. apply cleared_not_cooling.
Qed.

(** Candidates and types do not depend on the statistics. *)
Lemma candidates_ext s s' provider now :
  profiles s' = profiles s → order s' = order s →
  candidates s' provider now = candidates s provider now ∧ baseOrder s' provider = baseOrder s provider ∧
  explicitOrder s' provider = explicitOrder s provider ∧ ∀ p, typeScore s' p = typeScore s p.
Proof. destruct s as [a b c d], s' as [a' b' c' d']. cbn. intros -> ->. done. Qed.

Lemma markUsed_spec s p t :
  ohas (profiles s) p = true →
  let s' := (markAuthProfileUsed (Some s) s p t).1 in
  profiles s' = profiles s ∧ order s' = order s ∧ statsOf s' p = Some (resetUsageStats (statsOf s p) (Some t)) ∧
  ∀ q, q ≠ p → statsOf s' q = statsOf s q.
Proof.
  intros Hp s'. unfold s', markAuthProfileUsed. cbn [updateAuthProfileStoreWithLock]. rewrite Hp.
  split; [done|]. split; [done|].
  assert (∀ q, statsOf (set_usageStats s (usageStats (updateUsageStatsEntry s p (λ e, resetUsageStats e (Some t))))) q =
    statsOf (updateUsageStatsEntry s p (λ e, resetUsageStats e (Some t))) q) as E by done.
  cbn [fst]. split.
  - rewrite E, statsOf_update. by rewrite decide_True.
  - intros q Hq. rewrite E, statsOf_update. by rewrite decide_False.
Qed.

Lemma valid_profile_known s provider now p : isValidProfile s provider now p = true → ohas (profiles s) p = true.
Proof. unfold isValidProfile, resolveAuthProfileEligibility, ohas. by destruct (oget (profiles s) p). Qed.

(** The state of a round: [rest] of the profiles [d] have not been used since [t0]. *)
Record round (s : AuthProfileStore) (provider : string) (k t0 : Z) (d rest : list string) (times : list Z) : Prop := {
  r_order : explicitOrder s provider = None;
  r_base : baseOrder s provider ≠ [];
  r_candidates t : t ∈ times → dedupeProfileIds (candidates s provider t) = d;
  r_valid t p : t ∈ times → p ∈ d → ohas (profiles s) p = true;
  r_type p : p ∈ d → typeScore s p = k;
  r_available p t : p ∈ d → t ∈ times → profileInCooldown s t p = false;
  r_unused p : p ∈ rest → p ∈ d ∧ lastUsedOf s p < t0;
  r_used p : p ∈ d → p ∉ rest → t0 <= lastUsedOf s p;
  r_times t : t ∈ times → t0 <= t;
  r_nodup : NoDup rest;
}.

(** The first of the order has not been used in this round. *)
Lemma round_pick s provider k t0 d rest t times :
  round s provider k t0 d rest (t :: times) → rest ≠ [] →
  ∃ p, p ∈ rest ∧ pick s provider t = Some (p, (markAuthProfileUsed (Some (clearExpiredCooldowns s t).1)
                                                  (clearExpiredCooldowns s t).1 p t).1).
Proof.
  intros H Hne. unfold pick. rewrite resolveAuthProfileOrder_eq. set (s1 := (clearExpiredCooldowns s t).1).
  destruct (clearExpired_profiles s t) as [Ep Eo]. fold s1 in Ep, Eo.
  destruct (candidates_ext s s1 provider t Ep Eo) as (Ec & Eb & Ee & Et).
  unfold isExplicit. rewrite Ec, Eb, Ee, (r_order _ _ _ _ _ _ _ H), (r_candidates _ _ _ _ _ _ _ H t) by (by left).
  destruct (baseOrder s provider) as [|b0 bs] eqn:Ebase; [by destruct (r_base _ _ _ _ _ _ _ H)|].
  cbn [preferredFirst].
  pose proof (orderedProfiles_perm s1 t false d) as Hperm.
  pose proof (orderedProfiles_sorted s1 t false d) as Hsort.
  destruct rest as [|r rest']; [done|]. destruct (r_unused _ _ _ _ _ _ _ H r) as [Hrd Hrt]; [by left|].
  destruct (orderedProfiles s1 t false d) as [|p l].
  { apply Permutation_nil_l in Hperm. subst d. by apply elem_of_nil in Hrd. }
  exists p. split; [|done]. destruct (decide (p ∈ r :: rest')) as [Hp|Hp]; [done|exfalso].
  assert (p ∈ d) as Hpd by (rewrite <- Hperm; by left).
  assert (r ∈ l) as Hrl.
  { rewrite <- Hperm in Hrd. apply elem_of_cons in Hrd as [->|Hrd]; [|done]. destruct Hp. by left. }
  pose proof (r_used _ _ _ _ _ _ _ H p Hpd Hp) as Hlast.
  apply StronglySorted_inv in Hsort as [_ Hall]. rewrite Forall_forall in Hall. specialize (Hall r Hrl).
  unfold better, roundRobin in Hall. rewrite !Et in Hall. unfold s1 in Hall.
  rewrite !clearExpired_not_cooling, !clearExpired_lastUsed in Hall
    by (apply (r_available _ _ _ _ _ _ _ H); [done|by left]).
  destruct Hall as [Hall|Hall]; [done|].
  rewrite (r_type _ _ _ _ _ _ _ H p Hpd), (r_type _ _ _ _ _ _ _ H r Hrd) in Hall. lia.
Qed.

Lemma round_next s provider k t0 d rest t times p :
  round s provider k t0 d rest (t :: times) → p ∈ rest →
  let s1 := (clearExpiredCooldowns s t).1 in
  round (markAuthProfileUsed (Some s1) s1 p t).1 provider k t0 d (List.filter (λ e, negb (String.eqb e p)) rest) times.
Proof.
  intros H Hp s1. destruct (r_unused _ _ _ _ _ _ _ H p Hp) as [Hpd _].
  destruct (clearExpired_profiles s t) as [Ep Eo]. fold s1 in Ep, Eo.
  assert (ohas (profiles s1) p = true) as Hhas by (rewrite Ep; apply (r_valid _ _ _ _ _ _ _ H t); [by left|done]).
  destruct (markUsed_spec s1 p t Hhas) as (Fp & Fo & Fs & Fq).
  set (s' := (markAuthProfileUsed (Some s1) s1 p t).1) in *.
  assert (profiles s' = profiles s ∧ order s' = order s) as [Gp Go] by (split; congruence).
  destruct (candidates_ext s s' provider t Gp Go) as (_ & Eb & Ee & Et).
  assert (∀ q, q ≠ p → lastUsedOf s' q = lastUsedOf s q) as Hlast.
  { intros q Hq. rewrite <- (clearExpired_lastUsed s t q). unfold lastUsedOf. by rewrite Fq. }
  split.
  - rewrite Ee. apply H.
  - rewrite Eb. apply H.
  - intros t' Ht'. destruct (candidates_ext s s' provider t' Gp Go) as (-> & _). apply (r_candidates _ _ _ _ _ _ _ H). by right.
  - intros t' q Ht' Hq. rewrite Gp. apply (r_valid _ _ _ _ _ _ _ H t'); [by right|done].
  - intros q Hq. rewrite Et. by apply (r_type _ _ _ _ _ _ _ H).
  - intros q t' Hq Ht'. unfold profileInCooldown, isProfileInCooldown, providerOf. rewrite Gp.
    destruct (decide (q = p)) as [->|Hne].
    + rewrite Fs. by destruct (isAuthCooldownBypassedForProvider _).
    + rewrite Fq by done. rewrite <- Ep. apply clearExpired_not_cooling. apply (r_available _ _ _ _ _ _ _ H); [done|by right].
  - intros q Hq. apply filter_elem in Hq as [Hne Hq]. destruct (String.eqb_spec q p) as [|Hne']; [done|].
    rewrite Hlast by done. by apply (r_unused _ _ _ _ _ _ _ H).
  - intros q Hq Hn. destruct (decide (q = p)) as [->|Hne].
    + unfold lastUsedOf. rewrite Fs. cbn. apply (r_times _ _ _ _ _ _ _ H). by left.
    + rewrite Hlast by done. apply (r_used _ _ _ _ _ _ _ H); [done|]. intros Hq'. apply Hn, filter_elem.
      split; [|done]. by destruct (String.eqb_spec q p).
  - intros t' Ht'. apply (r_times _ _ _ _ _ _ _ H). by right.
  - apply filter_NoDup, H.
Qed.

Lemma round_picks s provider k t0 d rest times :
  round s provider k t0 d rest times → length times = length rest → picks s provider times ≡ₚ rest.
Proof.
  revert s rest. induction times as [|t times IH]; intros s rest H Hlen.
  - by destruct rest.
  - destruct (round_pick s provider k t0 d rest t times H) as (p & Hp & E); [by destruct rest|].
    cbn [picks]. rewrite E.
    pose proof (filter_remove_perm p rest (r_nodup _ _ _ _ _ _ _ H) Hp) as Hperm.
    rewrite IH with (rest := List.filter (λ e, negb (String.eqb e p)) rest); [done|by apply (round_next s provider k t0 d rest t times p)|].
    apply Permutation_length in Hperm. cbn in Hperm, Hlen. lia.
Qed.

(** ** Properties *)

(** The order of the profiles of a provider. Every eligible candidate is listed
    exactly once and nothing else is; a preferred profile among them comes first;
    the rest is ranked: available profiles before those in a cool-down, these by
    the end of the cool-down, and the available ones in the configured order, or
    least recently used first within the best type of credential. *)
Lemma profile_order_ranked s0 provider preferredProfile now :
  let '(s, l) := resolveAuthProfileOrder s0 provider preferredProfile now in
  let rest := List.filter (λ p, negb (isPreferred preferredProfile p)) in
  let available := List.filter (λ p, negb (profileInCooldown s now p)) in
  NoDup l ∧
  (∀ p, p ∈ l ↔ baseOrder s provider ≠ [] ∧ p ∈ candidates s provider now) ∧
  (∀ p, p ∈ l → isValidProfile s provider now p = true) ∧
  (∀ p, preferredProfile = Some p → p ≠ EmptyString → p ∈ l → head l = Some p) ∧
  StronglySorted (better s now (isExplicit s provider)) (rest l) ∧
  (isExplicit s provider = true →
   available (rest l) = available (rest (dedupeProfileIds (candidates s provider now)))).
Proof.
  rewrite resolveAuthProfileOrder_eq. set (s := (clearExpiredCooldowns s0 now).1). cbn zeta.
  destruct (baseOrder s provider) as [|b0 bs] eqn:Eb.
  { split; [apply NoDup_nil_2|]. split; [set_solver|]. split; [set_solver|]. split; [set_solver|]. split; [constructor|].
    unfold isExplicit. unfold baseOrder in Eb. by destruct (explicitOrder s provider) as [[|]|]. }
  set (d := dedupeProfileIds (candidates s provider now)). set (o := orderedProfiles s now (isExplicit s provider) d).
  pose proof (orderedProfiles_perm s now (isExplicit s provider) d) as Hperm. fold o in Hperm.
  assert (NoDup o) as Hno by (rewrite Hperm; apply dedupe_NoDup).
  destruct (preferredFirst_spec preferredProfile o Hno) as (H1 & H2 & H3).
  assert (∀ p, p ∈ preferredFirst preferredProfile o ↔ p ∈ candidates s provider now) as Hin.
  { intros p. rewrite H1, Hperm. apply dedupe_elem. }
  split; [by rewrite H1|]. split; [intros p; rewrite Hin; naive_solver|].
  split; [intros p Hp; apply candidates_valid; by apply Hin|].
  split; [intros p E Hne Hp; apply H2; [done|done|]; by rewrite <- H1|].
  rewrite H3. split; [apply StronglySorted_filter, orderedProfiles_sorted|].
  intros He. unfold o. rewrite He, !(filter_swap (λ p, negb (profileInCooldown s now p))). f_equal.
  apply orderedProfiles_explicit.
Qed.

(** Round robin. Without an explicit order, when the candidates [d] of a
    provider have one type, none is in a cool-down and all were last used before
    [t0], as many picks as there are candidates use each of them exactly once. *)
Lemma profiles_used_round_robin s provider k t0 d times :
  explicitOrder s provider = None → baseOrder s provider ≠ [] →
  (∀ t, t ∈ times → t0 <= t ∧ dedupeProfileIds (candidates s provider t) = d) →
  (∀ p, p ∈ d → typeScore s p = k ∧ lastUsedOf s p < t0 ∧ ∀ t, t ∈ times → profileInCooldown s t p = false) →
  length times = length d →
  picks s provider times ≡ₚ d.
Proof.
  intros Ho Hb Ht Hd Hlen. apply (round_picks s provider k t0 d d times); [|done]. split; try done.
  - intros t Hin. by apply Ht.
  - intros t p Hin Hp. destruct (Ht t Hin) as [_ <-]. apply dedupe_elem, candidates_valid in Hp.
    by apply valid_profile_known in Hp.
  - intros p Hp. by apply Hd.
  - intros p t Hp. by apply Hd.
  - intros p Hp. split; [done|]. by apply Hd.
  - intros t Hin. by apply Ht.
  - destruct times as [|t times]; [destruct d; [apply NoDup_nil_2|done]|].
    destruct (Ht t) as [_ <-]; [by left|]. apply dedupe_NoDup.
Qed.

End order.

Definition demoStore : AuthProfileStore :=
  mkStore [("a:1", ApiKeyCredential "anthropic" (Some "k1") None); ("a:2", ApiKeyCredential "Anthropic" (Some "k2") None);
           ("a:3", ApiKeyCredential "anthropic" (Some "k3") None); ("o:1", ApiKeyCredential "openai" (Some "k4") None)]
    None None (Some [("a:1", resetUsageStats None (Some 50)); ("a:2", resetUsageStats None (Some 10))]).

Lemma profiles_used_round_robin_witness :
  picks [] [] None demoStore "anthropic" [100; 100; 200] = ["a:3"; "a:2"; "a:1"] ∧
  picks [] [] None demoStore "anthropic" [100; 100; 200] ≡ₚ ["a:1"; "a:2"; "a:3"].
Proof.
  split; [reflexivity|].
  apply (profiles_used_round_robin [] [] None demoStore "anthropic" 2 100 ["a:1"; "a:2"; "a:3"] [100; 100; 200]);
    [reflexivity|discriminate| | |reflexivity].
  - intros t Ht. repeat (apply elem_of_cons in Ht as [->|Ht]; [split; [lia|reflexivity]|]). by apply elem_of_nil in Ht.
  - intros p Hp. repeat (apply elem_of_cons in Hp as [->|Hp];
      [split; [reflexivity|split; [reflexivity|intros t Ht;
         repeat (apply elem_of_cons in Ht as [->|Ht]; [reflexivity|]); by apply elem_of_nil in Ht]]|]).
    by apply elem_of_nil in Hp.
Defined.

End AuthOrder.
