(* ===== verification/GatewayLimits.v ===== *)
(** * Rate limits of the gateway: src/gateway/auth-rate-limit.ts,
      control-plane-rate-limit.ts, server/ws-connection/unauthorized-flood-guard.ts

    Failed authentications are counted per client and scope in a sliding window
    that ends in a lockout; writes of the control plane are counted per client in
    fixed windows, in a table of bounded size; a connection that keeps sending
    unauthorized requests is closed. *)

From S2P Require Import Prelude OMap.

Module GatewayLimits.

(** ** Authentication: auth-rate-limit.ts *)

Record RateLimitEntry := mkEntry {
  attempts : list Z;
  lockedUntil : option Z;
}.

Record RateLimitCheckResult := mkCheck {
  allowed : bool;
  remaining : Z;
  retryAfterMs : Z;
}.

(** [RateLimitConfig] with its defaults resolved. *)
Record RateLimits := mkLimits {
  maxAttempts : Z;
  windowMs : Z;
  lockoutMs : Z;
  exemptLoopback : bool;
}.

Definition resolveLimits (maxA window lockout : option Z) (exempt : option bool) : RateLimits :=
  mkLimits (maxA ?? 10) (window ?? 60000) (lockout ?? 300000) (exempt ?? true).

Definition AUTH_RATE_LIMIT_SCOPE_DEFAULT : string := "default".
Definition BROWSER_ORIGIN_RATE_LIMIT_KEY_PREFIX : string := "browser-origin:".

Section auth.

(** The resolution of client addresses is src/gateway/net.ts. *)
Context (resolveClientIp : option string → option string) (isLoopbackAddress : string → bool).
Context (cfg : RateLimits).

Definition normalizeRateLimitClientIp (ip : option string) : string :=
  match ip with
  | Some raw =>
      if starts_with raw BROWSER_ORIGIN_RATE_LIMIT_KEY_PREFIX then raw
      else resolveClientIp ip ?? "unknown"%string
  | None => resolveClientIp ip ?? "unknown"%string
  end.

Definition normalizeScope (scope : option string) : string :=
  str_or (trim (scope ?? AUTH_RATE_LIMIT_SCOPE_DEFAULT)) AUTH_RATE_LIMIT_SCOPE_DEFAULT.

(** The key and the address. *)
Definition resolveKey (rawIp rawScope : option string) : string * string :=
  let ip := normalizeRateLimitClientIp rawIp in
  (normalizeScope rawScope +:+ ":" +:+ ip, ip).

Definition isExempt (ip : string) : bool := exemptLoopback cfg && isLoopbackAddress ip.

Definition slideWindow (entry : RateLimitEntry) (now : Z) : RateLimitEntry :=
  let cutoff := now - windowMs cfg in
  mkEntry (List.filter (λ ts, cutoff <? ts) (attempts entry)) (lockedUntil entry).

(** [entry.lockedUntil && now < entry.lockedUntil]; a lock at 0 is falsy. *)
Definition lockTruthy (entry : RateLimitEntry) : bool :=
  match lockedUntil entry with Some l => negb (l =? 0) | None => false end.
Definition isLocked (entry : RateLimitEntry) (now : Z) : bool :=
  lockTruthy entry && (now <? lockedUntil entry ?? 0).

Definition Entries := omap string RateLimitEntry.

Definition freshAllowance : RateLimitCheckResult := mkCheck true (maxAttempts cfg) 0.

Definition check (entries : Entries) (rawIp rawScope : option string) (now : Z)
    : Entries * RateLimitCheckResult :=
  let '(key, ip) := resolveKey rawIp rawScope in
  if isExempt ip then (entries, freshAllowance)
  else match oget entries key with
       | None => (entries, freshAllowance)
       | Some entry =>
           if isLocked entry now
           then (entries, mkCheck false 0 (lockedUntil entry ?? 0 - now))
           else
             let entry1 := if lockTruthy entry then mkEntry [] None else entry in
             let entry2 := slideWindow entry1 now in
             let left := Z.max 0 (maxAttempts cfg - Z.of_nat (length (attempts entry2))) in
             (oset entries key entry2, mkCheck (0 <? left) left 0)
       end.

Definition recordFailure (entries : Entries) (rawIp rawScope : option string) (now : Z) : Entries :=
  let '(key, ip) := resolveKey rawIp rawScope in
  if isExempt ip then entries
  else
    let entry := oget entries key ?? mkEntry [] None in
    let entries1 := oset entries key entry in
    if isLocked entry now then entries1
    else
      let slid := slideWindow entry now in
      let pushed := attempts slid ++ [now] in
      let lock :=
        if maxAttempts cfg <=? Z.of_nat (length pushed) then Some (now + lockoutMs cfg)
        else lockedUntil slid in
      oset entries1 key (mkEntry pushed lock).

Definition reset (entries : Entries) (rawIp rawScope : option string) : Entries :=
  odel entries (resolveKey rawIp rawScope).1.

(** One iteration of [prune]: what becomes of an entry. *)
Definition pruneEntry (now : Z) (entry : RateLimitEntry) : option RateLimitEntry :=
  if isLocked entry now then Some entry
  else let slid := slideWindow entry now in
       match attempts slid with [] => None | _ => Some slid end.

Definition prune (entries : Entries) (now : Z) : Entries :=
  filter_map (λ e, (λ x, (e.1, x)) <$> pruneEntry now e.2) entries.

(** *** Brute force *)

(** What clients do (auth.ts, ws-connection/auth-context.ts): an attempt to log in is
    checked, and when it is allowed its credentials are verified and it is rejected,
    accepted, or found to have none; other clients act in between, and the maintenance timer
    prunes. *)
Inductive LimiterOp :=
| Attempt (ip scope : option string)          (* [check] *)
| Rejected (ip scope : option string)         (* [recordFailure] *)
| NoCredentials (ip scope : option string)    (* neither recorded nor reset *)
| Accepted (ip scope : option string)         (* [reset] *)
| PruneTick.

(** The entries, and the keys of the attempts that were let through and have not ended. *)
Record Limiter := mkLimiter { lm_entries : Entries; lm_pending : list string }.

Fixpoint drop_key (key : string) (pending : list string) : list string :=
  match pending with
  | [] => []
  | k :: rest => if decide (k = key) then rest else k :: drop_key key rest
  end.

(** The end of an attempt; there is nothing to end when none is pending. *)
Definition endAttempt (st : Limiter) (key : string) (f : Entries → Entries) : Limiter :=
  if set_has (lm_pending st) key then mkLimiter (f (lm_entries st)) (drop_key key (lm_pending st)) else st.

Definition limiterStep (st : Limiter) (op : Z * LimiterOp) : Limiter :=
  match op with
  | (now, Attempt ip scope) =>
      let '(entries, r) := check (lm_entries st) ip scope now in
      mkLimiter entries (if allowed r then (resolveKey ip scope).1 :: lm_pending st else lm_pending st)
  | (now, Rejected ip scope) => endAttempt st (resolveKey ip scope).1 (λ m, recordFailure m ip scope now)
  | (_, NoCredentials ip scope) => endAttempt st (resolveKey ip scope).1 id
  | (_, Accepted ip scope) => endAttempt st (resolveKey ip scope).1 (λ m, reset m ip scope)
  | (now, PruneTick) => mkLimiter (prune (lm_entries st) now) (lm_pending st)
  end.

(** Whether the operation rejects an attempt of [key] that was let through. *)
Definition rejects (key : string) (st : Limiter) (op : LimiterOp) : bool :=
  match op with
  | Rejected ip scope => bool_decide ((resolveKey ip scope).1 = key) && set_has (lm_pending st) key
  | _ => false
  end.

(** The times at which attempts of [key] were rejected. *)
Fixpoint failures (key : string) (st : Limiter) (ops : list (Z * LimiterOp)) : list Z :=
  match ops with
  | [] => []
  | op :: rest => (if rejects key st op.2 then [op.1] else []) ++ failures key (limiterStep st op) rest
  end.

(** *** The invariant of one key *)

Context (lockout_pos : 0 < lockoutMs cfg) (attempts_pos : 0 < maxAttempts cfg).

(** The time that [maxAttempts] failures take at least. *)
Definition spacing : Z := Z.min (windowMs cfg) (lockoutMs cfg).

(** [old T H]: the attempts of [H] no longer count at time [T]. *)
Definition old (T : Z) (H : list Z) : Prop := Forall (λ h, h + spacing <= T) H.

Definition lock_ok (o : option Z) (H A : list Z) : Prop :=
  match o with
  | None => Z.of_nat (length A) < maxAttempts cfg
  | Some L => 0 < L ∧ Forall (λ h, h + lockoutMs cfg <= L) H
  end.

(** [H] are the failures let through so far: the entry holds the recent ones. *)
Definition entry_inv (T : Z) (o : option RateLimitEntry) (H : list Z) : Prop :=
  match o with
  | None => old T H
  | Some e => ∃ H1, H = H1 ++ attempts e ∧ old T H1 ∧ lock_ok (lockedUntil e) H (attempts e)
  end.

Lemma old_mono T T' H : T <= T' → old T H → old T' H.
Proof. intros Hle Ho. eapply Forall_impl; [exact Ho|]. intros h Hh. cbn in *. lia. Qed.

Lemma entry_inv_mono T T' o H : T <= T' → entry_inv T o H → entry_inv T' o H.
Proof.
  intros Hle. destruct o as [e|]; [|by apply old_mono].
  intros (H1 & -> & Ho & Hl). exists H1. split; [done|]. split; [by eapply old_mono|done].
Qed.

Lemma filter_sorted_suffix c (l : list Z) :
  StronglySorted Z.le l → ∃ l1, l = l1 ++ List.filter (λ ts, c <? ts) l ∧ Forall (λ h, h <= c) l1.
Proof.
  induction 1 as [|x l Hl (l1 & Heq & Hall) Hx]; [by exists []|]. simpl.
  destruct (Z.ltb_spec c x).
  - exists []. simpl. split; [|done]. f_equal.
    clear Heq Hall. induction Hx as [|y l Hy Hl' IH]; [done|]. simpl.
    destruct (Z.ltb_spec c y); [|lia]. f_equal. apply IH. by inversion Hl.
  - exists (x :: l1). simpl. split; [by f_equal|]. constructor; [lia|done].
Qed.

Lemma sorted_app_r (l1 l2 : list Z) : StronglySorted Z.le (l1 ++ l2) → StronglySorted Z.le l2.
Proof. induction l1 as [|x l1 IH]; [done|]. simpl. intros Hs. apply IH. by inversion Hs. Qed.

Lemma lock_ok_shrink o H A A' :
  (length A' <= length A)%nat → lock_ok o H A → lock_ok o H A'.
Proof. destruct o; simpl; [done|lia]. Qed.

Lemma slide_inv now e H :
  StronglySorted Z.le H → entry_inv now (Some e) H → entry_inv now (Some (slideWindow e now)) H.
Proof.
  intros Hs (H1 & -> & Ho & Hl).
  destruct (filter_sorted_suffix (now - windowMs cfg) (attempts e)) as (l1 & Heq & Hall);
    [by eapply sorted_app_r|].
  exists (H1 ++ l1). unfold slideWindow. cbn [attempts lockedUntil].
  split; [by rewrite <- app_assoc, <- Heq|]. split.
  - apply Forall_app. split; [done|]. eapply Forall_impl; [exact Hall|].
    intros h Hh. cbn in *. unfold spacing. lia.
  - eapply lock_ok_shrink; [|exact Hl]. apply filter_length_le.
Qed.

(** An entry that is not locked, its expired lock cleared. *)
Lemma unlock_inv now e H :
  Forall (λ h, h <= now) H → isLocked e now = false → entry_inv now (Some e) H →
  entry_inv now (Some (if lockTruthy e then mkEntry [] None else e)) H ∧
  lockedUntil (if lockTruthy e then mkEntry [] None else e) = None.
Proof.
  intros Hp Hl (H1 & -> & Ho & Hk). unfold isLocked, lockTruthy in *.
  destruct (lockedUntil e) as [L|] eqn:El; simpl in Hk.
  - destruct Hk as [HL Hall]. destruct (Z.eqb_spec L 0); [lia|]. cbn [negb andb default id] in *.
    split; [|done]. exists (H1 ++ attempts e). rewrite app_nil_r. split; [done|]. split; [|simpl; lia].
    apply Z.ltb_ge in Hl. eapply Forall_impl; [exact Hall|].
    intros h Hh. cbn in *. unfold spacing. lia.
  - split; [|done]. exists H1. split; [done|]. split; [done|]. by rewrite El.
Qed.

(** The spacing of the failures let through. *)
Definition spaced (H : list Z) : Prop :=
  ∀ i a b, H !! i = Some a → H !! (i + Z.to_nat (maxAttempts cfg))%nat = Some b → a + spacing <= b.

Lemma spaced_snoc now H H1 A :
  spaced H → H = H1 ++ A → old now H1 → Z.of_nat (length A) < maxAttempts cfg → spaced (H ++ [now]).
Proof.
  intros Hs -> Ho Hl i a b Ha Hb.
  set (n := Z.to_nat (maxAttempts cfg)) in *.
  assert (length A < n)%nat as Hn by lia. clear Hl.
  destruct (decide (i + n < length (H1 ++ A))%nat) as [Hlt|Hge].
  - rewrite lookup_app_l in Ha by lia. rewrite lookup_app_l in Hb by lia. by eapply Hs.
  - assert (i + n = length (H1 ++ A))%nat as Heq.
    { apply lookup_lt_Some in Hb. rewrite length_app in Hb. simpl in Hb. lia. }
    rewrite Heq in Hb. rewrite lookup_app_r, Nat.sub_diag in Hb by lia. injection Hb as <-.
    rewrite length_app in Heq. rewrite <- app_assoc, lookup_app_l in Ha by lia.
    unfold old in Ho. rewrite Forall_lookup in Ho. by apply (Ho i a).
Qed.

Definition keyOf (ip scope : option string) : string :=
  (resolveKey ip scope).1.
Definition exempt (ip : option string) : bool :=
  isExempt (normalizeRateLimitClientIp ip).

Record limit_inv (key : string) (T : Z) (entries : Entries) (H : list Z) : Prop := {
  li_wf : owf entries;
  li_past : Forall (λ h, h <= T) H;
  li_sorted : StronglySorted Z.le H;
  li_spaced : spaced H;
  li_entry : entry_inv T (oget entries key) H;
}.

Lemma limit_inv_mono key T T' entries H :
  T <= T' → limit_inv key T entries H → limit_inv key T' entries H.
Proof.
  intros Hle [H1 H2 H3 H4 H5]. split; try done; [|by eapply entry_inv_mono].
  eapply Forall_impl; [exact H2|]. intros h Hh. cbn in *. lia.
Qed.

(** Touching another key. *)
Lemma limit_inv_other key T entries entries' H :
  oget entries' key = oget entries key → owf entries' →
  limit_inv key T entries H → limit_inv key T entries' H.
Proof. intros He Hwf [H1 H2 H3 H4 H5]. split; try done. by rewrite He. Qed.

Lemma check_keeps entries ip scope now key :
  let entries' := (check entries ip scope now).1 in
  (owf entries → owf entries') ∧ (keyOf ip scope ≠ key → oget entries' key = oget entries key).
Proof.
  unfold check, keyOf. destruct (resolveKey ip scope) as [k a]. cbn [fst].
  destruct (isExempt _); [done|]. destruct (oget entries k) as [e|]; [|done].
  destruct (isLocked e now); [done|]. cbn [fst]. split; [by apply owf_oset|].
  intros Hne. by apply oget_oset_ne.
Qed.

Lemma recordFailure_keeps entries ip scope now key :
  let entries' := recordFailure entries ip scope now in
  (owf entries → owf entries') ∧ (keyOf ip scope ≠ key → oget entries' key = oget entries key).
Proof.
  unfold recordFailure, keyOf. destruct (resolveKey ip scope) as [k a]. cbn [fst].
  destruct (isExempt _); [done|].
  destruct (isLocked _ now); (split; [auto using owf_oset|]); intros Hne; by rewrite ?oget_oset_ne.
Qed.

Lemma check_inv key now entries H ip scope :
  limit_inv key now entries H → keyOf ip scope = key → exempt ip = false →
  let r := check entries ip scope now in
  limit_inv key now r.1 H ∧
  (allowed r.2 = true → match oget r.1 key with None => True | Some e => lockedUntil e = None end).
Proof.
  intros Hinv Hk Hex r. pose proof (check_keeps entries ip scope now key) as [Hwf _].
  destruct Hinv as [H1 H2 H3 H4 H5]. subst r. fold (keyOf ip scope) in Hk.
  unfold check in *. unfold exempt in Hex. unfold keyOf in Hk.
  assert (resolveKey ip scope = (key, normalizeRateLimitClientIp ip)) as Hr.
  { rewrite <- Hk. unfold resolveKey. done. }
  rewrite Hr in *. rewrite Hex in *.
  destruct (oget entries key) as [e|] eqn:Ee; [|split; [|cbn [fst snd]; intros _; by rewrite Ee]; split; try done; cbn [fst]; by rewrite Ee].
  destruct (isLocked e now) eqn:El; [split; [split; try done; cbn [fst]; by rewrite Ee|done]|].
  destruct (unlock_inv now e H H2 El H5) as [Hu Hn]. cbn [fst snd allowed] in *.
  apply slide_inv in Hu; [|done]. split.
  - split; try done; [by apply Hwf|]. by rewrite oget_oset_eq.
  - intros _. by rewrite oget_oset_eq.
Qed.

Lemma recordFailure_inv key now entries H ip scope :
  limit_inv key now entries H → keyOf ip scope = key → exempt ip = false → 0 <= now →
  match oget entries key with None => True | Some e => lockedUntil e = None end →
  limit_inv key now (recordFailure entries ip scope now) (H ++ [now]).
Proof.
  intros Hinv Hk Hex Hnow Hun.
  pose proof (recordFailure_keeps entries ip scope now key) as [Hwf _].
  destruct Hinv as [H1 H2 H3 H4 H5]. unfold recordFailure in *. unfold exempt in Hex. unfold keyOf in Hk.
  assert (resolveKey ip scope = (key, normalizeRateLimitClientIp ip)) as Hr.
  { rewrite <- Hk. unfold resolveKey. done. }
  rewrite Hr in *. rewrite Hex in *. set (e := oget entries key ?? mkEntry [] None) in *.
  assert (lockedUntil e = None ∧ entry_inv now (Some e) H) as [Hn He].
  { subst e. destruct (oget entries key) as [e|]; [done|]. split; [done|].
    exists H. rewrite app_nil_r. cbn. split; [done|]. split; [exact H5|lia]. }
  assert (isLocked e now = false) as Hl by (unfold isLocked, lockTruthy; by rewrite Hn).
  rewrite Hl in *. destruct (slide_inv now e H H3 He) as (Hold & Heq & Ho & Hlk).
  assert (lockedUntil (slideWindow e now) = None) as Hsn by done. rewrite Hsn in *. cbn [lock_ok] in Hlk.
  split.
  - by apply Hwf.
  - apply Forall_app. split; [done|]. constructor; [lia|done].
  - clear -H2 H3. induction H3 as [|x l Hl IH Hx]; simpl; [repeat constructor|].
    inversion H2; subst. constructor; [by apply IH|]. apply Forall_app. split; [done|].
    constructor; [done|constructor].
  - by eapply spaced_snoc.
  - rewrite oget_oset_eq. exists Hold. cbn [attempts lockedUntil].
    split; [by rewrite app_assoc, <- Heq|]. split; [done|].
    destruct (Z.leb_spec (maxAttempts cfg) (Z.of_nat (length (attempts (slideWindow e now) ++ [now])))).
    + simpl. split; [lia|]. apply Forall_app. split.
      * eapply Forall_impl; [exact H2|]. intros h Hh. cbn in *. lia.
      * constructor; [lia|constructor].
    + unfold lock_ok. lia.
Qed.

Lemma oget_prune entries now key :
  owf entries → owf (prune entries now) ∧
  oget (prune entries now) key = oget entries key ≫= pruneEntry now.
Proof.
  intros Hwf.
  assert (∀ k, In k (okeys (prune entries now)) → In k (okeys entries)) as Hin.
  { clear Hwf. intros k. induction entries as [|[k' e] m IH]; [done|].
    unfold prune, filter_map in *. simpl. destruct (pruneEntry now e); simpl; naive_solver. }
  induction entries as [|[k' e] m IH]; [split; [constructor|done]|].
  pose proof Hwf as Hwf0. apply NoDup_cons in Hwf0 as [Hni Hnd].
  destruct IH as [IH1 IH2]; [done| |].
  { intros k. clear. induction m as [|[k' e] m IH]; [done|].
    unfold prune, filter_map in *. simpl. destruct (pruneEntry now e); simpl; naive_solver. }
  assert (∀ k, In k (okeys (prune m now)) → In k (okeys m)) as Hin'.
  { intros k. clear. induction m as [|[k' e] m IH]; [done|].
    unfold prune, filter_map in *. simpl. destruct (pruneEntry now e); simpl; naive_solver. }
  change (prune ((k', e) :: m) now)
    with ((match (λ x, (k', x)) <$> pruneEntry now e with Some b => [b] | None => [] end)
            ++ prune m now).
  destruct (pruneEntry now e) as [e'|] eqn:Ep; simpl.
  - split.
    + apply NoDup_cons. split; [|exact IH1]. intros Hx. apply Hni.
      apply list_elem_of_In. apply Hin'. by apply list_elem_of_In.
    + case_decide; [by rewrite <- Ep|done].
  - split; [exact IH1|]. case_decide as Hd; [|done]. subst. simpl. rewrite Ep.
    apply oget_None. intros Hx. apply Hni. apply list_elem_of_In. by apply Hin'.
Qed.

Lemma prune_inv key now entries H :
  limit_inv key now entries H → limit_inv key now (prune entries now) H.
Proof.
  intros [H1 H2 H3 H4 H5]. destruct (oget_prune entries now key H1) as [Hwf Hg].
  split; try done. rewrite Hg. destruct (oget entries key) as [e|]; [|done]. simpl.
  unfold pruneEntry. destruct (isLocked e now); [done|].
  apply slide_inv in H5; [|done].
  destruct (attempts (slideWindow e now)) as [|x l] eqn:Ea; [|done].
  destruct H5 as (Ho & -> & Hold & _). rewrite Ea, app_nil_r. exact Hold.
Qed.

(** The attempts of [key] come one at a time, from addresses that are not exempt, and none
    is accepted. *)
Definition op_ok (key : string) (st : Limiter) (op : LimiterOp) : Prop :=
  match op with
  | Attempt ip scope => keyOf ip scope = key → exempt ip = false ∧ key ∉ lm_pending st
  | Rejected ip scope => keyOf ip scope = key → exempt ip = false
  | Accepted ip scope => keyOf ip scope ≠ key
  | NoCredentials _ _ | PruneTick => True
  end.

Fixpoint serialized (key : string) (st : Limiter) (ops : list (Z * LimiterOp)) : Prop :=
  match ops with
  | [] => True
  | op :: rest => op_ok key st op.2 ∧ serialized key (limiterStep st op) rest
  end.

(** While an attempt of [key] is pending its entry has no lock. *)
Definition unlocked (key : string) (entries : Entries) : Prop :=
  match oget entries key with None => True | Some e => lockedUntil e = None end.

Record limiter_inv (key : string) (T : Z) (st : Limiter) (H : list Z) : Prop := {
  lv_limit : limit_inv key T (lm_entries st) H;
  lv_once : (key ∉ drop_key key (lm_pending st));
  lv_pending : key ∈ lm_pending st → unlocked key (lm_entries st);
}.

Lemma drop_key_other key k pending : k ≠ key → key ∈ drop_key k pending ↔ key ∈ pending.
Proof.
  intros Hne. induction pending as [|x pending IH]; [done|]. simpl. case_decide; rewrite !elem_of_cons; [naive_solver|].
  by rewrite IH.
Qed.

Lemma drop_key_sub key k pending : key ∈ drop_key k pending → key ∈ pending.
Proof. induction pending as [|x pending IH]; [done|]. simpl. case_decide; set_solver. Qed.

Lemma drop_key_twice key k pending : key ∉ drop_key key pending → key ∉ drop_key key (drop_key k pending).
Proof.
  induction pending as [|x pending IH]; [done|]. simpl. intros Hn. destruct (decide (x = k)) as [->|Hx].
  - case_decide; [|set_solver]. intros Hin. by apply Hn, (drop_key_sub _ key).
  - simpl. case_decide; [|set_solver]. intros Hin. by apply Hn, (drop_key_sub _ k).
Qed.

Lemma prune_unlocked key entries now : owf entries → unlocked key entries → unlocked key (prune entries now).
Proof.
  intros Hwf. unfold unlocked. rewrite (proj2 (oget_prune entries now key Hwf)).
  destruct (oget entries key) as [e|]; [|done]. simpl. unfold pruneEntry. intros Hl.
  destruct (isLocked e now); [done|]. by destruct (attempts (slideWindow e now)).
Qed.

(** The end of an attempt of another key. *)
Lemma end_other key k T st H f :
  limiter_inv key T st H → k ≠ key → owf (f (lm_entries st)) → oget (f (lm_entries st)) key = oget (lm_entries st) key →
  limiter_inv key T (endAttempt st k f) H.
Proof.
  intros [Hl Ho Hp] Hne Hwf Hf. unfold endAttempt. destruct (set_has _ _); [|done]. split; simpl.
  - by eapply limit_inv_other.
  - by apply drop_key_twice.
  - rewrite drop_key_other by done. unfold unlocked. by rewrite Hf.
Qed.

Lemma limiterStep_inv key now st H op :
  limiter_inv key now st H → 0 <= now → op_ok key st op →
  limiter_inv key now (limiterStep st (now, op)) (H ++ if rejects key st op then [now] else []).
Proof.
  intros Hinv Hnow Hop. pose proof Hinv as [Hl Ho Hp]. pose proof (li_wf _ _ _ _ Hl) as Hw.
  destruct op as [ip scope|ip scope|ip scope|ip scope|]; cbn [limiterStep rejects]; rewrite ?app_nil_r;
    try fold (keyOf ip scope).
  - destruct (decide (keyOf ip scope = key)) as [Hk|Hk].
    + destruct (Hop Hk) as [Hex Hn]. destruct (check_inv key now _ H ip scope Hl Hk Hex) as [Hc Hu].
      destruct (check _ ip scope now) as [m r]. cbn [fst snd] in Hc, Hu. rewrite Hk.
      destruct (allowed r); split; simpl; try done; rewrite ?decide_True by done; auto.
      intros _. by apply Hu.
    + destruct (check_keeps (lm_entries st) ip scope now key) as [Hwf Hg].
      destruct (check _ ip scope now) as [m r]. cbn [fst] in Hwf, Hg. specialize (Hg Hk).
      split; simpl; [by apply (limit_inv_other key now (lm_entries st)); auto| |].
      * destruct (allowed r); simpl; [|done]. rewrite decide_False by done. set_solver.
      * unfold unlocked. rewrite Hg. destruct (allowed r); [|done]. rewrite elem_of_cons. naive_solver.
  - destruct (decide (keyOf ip scope = key)) as [Hk|Hk].
    + rewrite Hk, bool_decide_eq_true_2 by done. unfold endAttempt. cbn [andb].
      destruct (set_has (lm_pending st) key) eqn:Hs; [|by rewrite app_nil_r]. apply set_has_iff in Hs.
      split; simpl; [by apply recordFailure_inv; auto; apply Hp|by apply drop_key_twice|done].
    + rewrite bool_decide_eq_false_2 by done. cbn [andb]. rewrite app_nil_r.
      destruct (recordFailure_keeps (lm_entries st) ip scope now key) as [Hwf Hg]. apply end_other; auto.
  - destruct (decide (keyOf ip scope = key)) as [Hk|Hk]; [|by apply end_other].
    rewrite Hk. unfold endAttempt. destruct (set_has _ _); [|done].
    split; simpl; [done|by apply drop_key_twice|done].
  - apply end_other; [done|done|by apply owf_odel|]. unfold reset. by apply oget_odel_ne.
  - split; simpl; [by apply prune_inv|done|]. intros Hin. by apply prune_unlocked, Hp.
Qed.

Lemma failures_spaced key T st H ops :
  limiter_inv key T st H → 0 <= T → StronglySorted Z.le (T :: map fst ops) →
  serialized key st ops → spaced (H ++ failures key st ops).
Proof.
  revert T st H. induction ops as [|[now op] ops IH]; intros T st H [Hl Ho Hp] HT Hs Hops.
  { simpl. rewrite app_nil_r. by apply Hl. }
  destruct Hops as [Hop Hops]. inversion Hs as [|? ? Hs' Hall]; subst.
  inversion Hall as [|? ? Hle _]; subst. cbn [fst snd map] in *.
  cbn [failures fst snd]. rewrite app_assoc. apply (IH now); [|lia|done|done].
  apply limiterStep_inv; [|lia|done]. split; [by eapply limit_inv_mono|done|done].
Qed.

End auth.

(** C24. Brute force is bounded. Take a client and scope whose attempts come one at a time
    (on one surface auth.ts makes them so, with no await between [check] and
    [recordFailure] or by withSerializedRateLimitAttempt; auth-context.ts does not for
    device tokens), from
    addresses that are not exempt, none of which is accepted, and a positive limit and
    lockout. Then, whatever happens between the check and the rejection of an attempt and
    whatever other clients and prunes do, the rejected attempts are spread out: between one
    and the [maxAttempts]-th after it at least the window or the lockout elapses, whichever
    is shorter. *)
Theorem brute_force_bounded (resolveClientIp : option string → option string)
    (isLoopbackAddress : string → bool) (cfg : RateLimits) (key : string)
    (ops : list (Z * LimiterOp)) :
  0 < lockoutMs cfg → 0 < maxAttempts cfg →
  StronglySorted Z.le (0 :: map fst ops) →
  serialized resolveClientIp isLoopbackAddress cfg key (mkLimiter [] []) ops →
  ∀ i a b, let times := failures resolveClientIp isLoopbackAddress cfg key (mkLimiter [] []) ops in
    times !! i = Some a → times !! (i + Z.to_nat (maxAttempts cfg))%nat = Some b →
    a + Z.min (windowMs cfg) (lockoutMs cfg) <= b.
Proof.
  intros Hl Ha Hs Hops.
  apply (failures_spaced resolveClientIp isLoopbackAddress cfg Hl Ha key 0 (mkLimiter [] []) [] ops); [|done|done|done].
  split; [|by apply not_elem_of_nil|done]. split; cbn; [apply owf_nil|constructor|constructor| |constructor].
  intros i a b Hi. by rewrite lookup_nil in Hi.
Qed.

Definition loopback6 (ip : string) : bool := String.eqb ip "::1".
Definition checked (now : Z) (ip : string) : Z * LimiterOp := (now, Attempt (Some ip) None).
Definition rejected (now : Z) (ip : string) : Z * LimiterOp := (now, Rejected (Some ip) None).
Definition twoAttempts : RateLimits := resolveLimits (Some 2) (Some 1000) (Some 5000) None.

(** A client fails twice and is refused until its lockout ends; another one attempts, and
    entries are pruned, between its checks and its failures. *)
Definition demoAttempts : list (Z * LimiterOp) :=
  [checked 10 "a"; checked 11 "b"; rejected 12 "a"; checked 20 "a"; (21, PruneTick); rejected 22 "a";
   checked 30 "a"; rejected 31 "a"; rejected 40 "b"; checked 5100 "a"; rejected 5101 "a"].

Lemma brute_force_bounded_witness :
  failures id loopback6 twoAttempts "default:a" (mkLimiter [] []) demoAttempts = [12; 22; 5101] ∧ 12 + 1000 <= 5101.
Proof.
  split; [reflexivity|].
  refine (brute_force_bounded id loopback6 twoAttempts "default:a" demoAttempts
    eq_refl eq_refl _ _ 0%nat 12 5101 eq_refl eq_refl).
  - repeat constructor; vm_compute; discriminate.
  - vm_compute. repeat split; try discriminate; set_solver.
Defined.

(** Attempts of one client that are verified in parallel all pass the check before a
    failure is recorded. *)
Lemma parallel_attempts_all_pass :
  failures id loopback6 twoAttempts "default:a" (mkLimiter [] [])
    [checked 10 "a"; checked 10 "a"; checked 10 "a"; checked 10 "a";
     rejected 20 "a"; rejected 20 "a"; rejected 20 "a"; rejected 20 "a"] = [20; 20; 20; 20].
Proof. reflexivity. Qed.

(** ** Control plane writes: control-plane-rate-limit.ts *)

Definition CONTROL_PLANE_RATE_LIMIT_MAX_REQUESTS : Z := 3.
Definition CONTROL_PLANE_RATE_LIMIT_WINDOW_MS : Z := 60000.
Definition CONTROL_PLANE_BUCKET_MAX_STALE_MS : Z := 5 * 60000.
Definition CONTROL_PLANE_BUCKET_MAX_ENTRIES : nat := Z.to_nat 10000.

Record Bucket := mkBucket { count : Z; windowStartMs : Z }.

(** The identity of a client; a field that is not a string is [None]. *)
Record GatewayClient := mkClient {
  deviceId : option string;
  clientIp : option string;
  connId : option string;
}.

Definition normalizePart (value : option string) (fallback : string) : string :=
  match value with
  | None => fallback
  | Some v => str_or (trim v) fallback
  end.

Definition resolveControlPlaneRateLimitKey (client : option GatewayClient) : string :=
  let device := normalizePart (client ≫= deviceId) "unknown-device" in
  let ip := normalizePart (client ≫= clientIp) "unknown-ip" in
  let conn := normalizePart (client ≫= connId) EmptyString in
  if String.eqb device "unknown-device" && String.eqb ip "unknown-ip" && str_truthy conn
  then device +:+ "|" +:+ ip +:+ "|conn=" +:+ conn
  else device +:+ "|" +:+ ip.

Record Budget := mkBudget {
  b_allowed : bool;
  b_retryAfterMs : Z;
  b_remaining : Z;
  b_key : string;
}.

Definition Buckets := omap string Bucket.

(** [consumeControlPlaneWriteBudget] for the key of its client. *)
Definition consumeKey (buckets : Buckets) (key : string) (nowMs : Z) : Buckets * Budget :=
  let fresh :=
    let buckets1 :=
      if negb (ohas buckets key) && (CONTROL_PLANE_BUCKET_MAX_ENTRIES <=? osize buckets)%nat
      then match okeys buckets with [] => buckets | oldest :: _ => odel buckets oldest end
      else buckets in
    (oset buckets1 key (mkBucket 1 nowMs),
     mkBudget true 0 (CONTROL_PLANE_RATE_LIMIT_MAX_REQUESTS - 1) key) in
  match oget buckets key with
  | None => fresh
  | Some bucket =>
      if CONTROL_PLANE_RATE_LIMIT_WINDOW_MS <=? nowMs - windowStartMs bucket then fresh
      else if CONTROL_PLANE_RATE_LIMIT_MAX_REQUESTS <=? count bucket then
        (buckets,
         mkBudget false
           (Z.max 0 (windowStartMs bucket + CONTROL_PLANE_RATE_LIMIT_WINDOW_MS - nowMs)) 0 key)
      else
        let n := count bucket + 1 in
        (oset buckets key (mkBucket n (windowStartMs bucket)),
         mkBudget true 0 (Z.max 0 (CONTROL_PLANE_RATE_LIMIT_MAX_REQUESTS - n)) key)
  end.

Definition consumeControlPlaneWriteBudget (buckets : Buckets) (client : option GatewayClient)
    (nowMs : Z) : Buckets * Budget :=
  consumeKey buckets (resolveControlPlaneRateLimitKey client) nowMs.

(** The table and the number of buckets removed. *)
Definition pruneStaleControlPlaneBuckets (buckets : Buckets) (nowMs : Z) : Buckets * nat :=
  let stale b := CONTROL_PLANE_BUCKET_MAX_STALE_MS <? nowMs - windowStartMs b in
  let kept := List.filter (λ e, negb (stale e.2)) buckets in
  (kept, (osize buckets - osize kept)%nat).

Inductive ControlPlaneOp := Consume (client : option GatewayClient) | PruneStale.

Fixpoint controlPlane (buckets : Buckets) (ops : list (Z * ControlPlaneOp)) : Buckets :=
  match ops with
  | [] => buckets
  | (now, Consume client) :: rest =>
      controlPlane (consumeControlPlaneWriteBudget buckets client now).1 rest
  | (now, PruneStale) :: rest => controlPlane (pruneStaleControlPlaneBuckets buckets now).1 rest
  end.

Definition bucket_ok (b : Bucket) : Prop := 1 <= count b <= CONTROL_PLANE_RATE_LIMIT_MAX_REQUESTS.

Definition buckets_ok (m : Buckets) : Prop :=
  owf m ∧ (osize m <= CONTROL_PLANE_BUCKET_MAX_ENTRIES)%nat ∧
  ∀ k b, oget m k = Some b → bucket_ok b.

Lemma buckets_ok_set m k b :
  owf m → (osize (oset m k b) <= CONTROL_PLANE_BUCKET_MAX_ENTRIES)%nat → bucket_ok b →
  (∀ k b, oget m k = Some b → bucket_ok b) → buckets_ok (oset m k b).
Proof.
  intros Hwf Hs Hb Hall. split; [by apply owf_oset|]. split; [done|].
  intros k' b'. rewrite oget_oset. case_decide; [by intros [= <-]|apply Hall].
Qed.

Lemma consume_ok m key now : buckets_ok m → buckets_ok (consumeKey m key now).1.
Proof.
  intros (Hwf & Hs & Hall).
  assert (bucket_ok (mkBucket 1 now)) as Hone by (unfold bucket_ok, CONTROL_PLANE_RATE_LIMIT_MAX_REQUESTS; cbn; lia).
  assert (buckets_ok (oset (if negb (ohas m key) && (CONTROL_PLANE_BUCKET_MAX_ENTRIES <=? osize m)%nat
      then match okeys m with [] => m | oldest :: _ => odel m oldest end else m) key (mkBucket 1 now)))
    as Hfresh.
  { unfold ohas. destruct (oget m key) as [b|] eqn:E; cbn [negb andb].
    { apply buckets_ok_set; try done. by erewrite osize_oset_present. }
    destruct (Nat.leb_spec CONTROL_PLANE_BUCKET_MAX_ENTRIES (osize m)) as [Hfull|Hroom].
    - destruct m as [|[k0 b0] m].
      { unfold CONTROL_PLANE_BUCKET_MAX_ENTRIES, osize in Hfull. simpl length in Hfull. lia. }
      cbn [okeys fmap list_fmap fst].
      rewrite odel_head by done. apply owf_tail in Hwf as Hwf'.
      assert (∀ k b, oget m k = Some b → bucket_ok b) as Hall'.
      { intros k b Hk. apply (Hall k b). simpl. case_decide as Hd; [|done]. subst.
        apply oget_key in Hk. apply NoDup_cons in Hwf as [Hni _].
        destruct Hni. by apply list_elem_of_In. }
      assert (oget m key = None) as Hnone by (simpl in E; by case_decide).
      apply buckets_ok_set; try done. rewrite osize_oset_absent by done. exact Hs.
    - apply buckets_ok_set; try done. rewrite osize_oset_absent by done. lia. }
  unfold consumeKey.
  destruct (oget m key) as [b|] eqn:E; [|exact Hfresh].
  destruct (_ <=? now - _); [exact Hfresh|].
  destruct (Z.leb_spec CONTROL_PLANE_RATE_LIMIT_MAX_REQUESTS (count b)); [done|].
  cbn [fst]. apply buckets_ok_set; try done; [by erewrite osize_oset_present|].
  specialize (Hall _ _ E). unfold bucket_ok in *. cbn. lia.
Qed.

Lemma pruneStale_ok m now : buckets_ok m → buckets_ok (pruneStaleControlPlaneBuckets m now).1.
Proof.
  intros (Hwf & Hs & Hall). unfold pruneStaleControlPlaneBuckets. cbn [fst].
  split; [by apply owf_filter|]. split.
  - etransitivity; [|exact Hs]. apply filter_length_le.
  - intros k b. rewrite oget_filter by done. destruct (oget m k) as [b'|] eqn:E; [|done].
    case_match; [|done]. intros [= <-]. by eapply Hall.
Qed.

(** The control plane budget: however many clients write, the table never
    exceeds its cap and no window counts more than its maximum; a request that is
    refused is told how long to wait, which is positive and at most the window,
    and after exactly that time it is let through. *)
Lemma control_plane_budget (ops : list (Z * ControlPlaneOp)) (client : option GatewayClient)
    (now : Z) :
  let m := controlPlane [] ops in
  (osize m <= CONTROL_PLANE_BUCKET_MAX_ENTRIES)%nat ∧
  (∀ k b, oget m k = Some b → count b <= CONTROL_PLANE_RATE_LIMIT_MAX_REQUESTS) ∧
  let '(m1, r) := consumeControlPlaneWriteBudget m client now in
  b_allowed r = false → ∀ b, oget m (b_key r) = Some b → windowStartMs b <= now →
    0 < b_retryAfterMs r <= CONTROL_PLANE_RATE_LIMIT_WINDOW_MS ∧
    b_allowed (consumeControlPlaneWriteBudget m1 client (now + b_retryAfterMs r)).2 = true.
Proof.
  intros m. assert (buckets_ok m) as (Hwf & Hs & Hall).
  { subst m. assert (buckets_ok []) as Hnil.
    { split; [apply owf_nil|]. split; [unfold osize; simpl length; lia|done]. }
    revert Hnil. generalize (@nil (string * Bucket)).
    induction ops as [|[t [k|]] ops IH]; intros m Hm; [done| |]; simpl; apply IH.
    - by apply consume_ok.
    - by apply pruneStale_ok. }
  split; [done|]. split; [intros k b Hk; apply (Hall k b Hk)|].
  unfold consumeControlPlaneWriteBudget. generalize (resolveControlPlaneRateLimitKey client).
  intros key. unfold consumeKey at 1.
  destruct (oget m key) as [b|] eqn:E; [|done].
  destruct (Z.leb_spec CONTROL_PLANE_RATE_LIMIT_WINDOW_MS (now - windowStartMs b)); [done|].
  destruct (Z.leb_spec CONTROL_PLANE_RATE_LIMIT_MAX_REQUESTS (count b)); [|done].
  cbn [b_allowed b_key b_retryAfterMs]. rewrite E. intros _ b' [= <-] Hstart. split; [lia|].
  unfold consumeKey. rewrite E.
  destruct (Z.leb_spec CONTROL_PLANE_RATE_LIMIT_WINDOW_MS
    (now + Z.max 0 (windowStartMs b + CONTROL_PLANE_RATE_LIMIT_WINDOW_MS - now) - windowStartMs b));
    [done|lia].
Qed.

(** ** Unauthorized requests: unauthorized-flood-guard.ts *)

Record FloodGuard := mkGuard {
  closeAfter : Z;
  logEvery : Z;
  fg_count : Z;
  suppressed : Z;
}.

Record FloodDecision := mkDecision {
  shouldClose : bool;
  shouldLog : bool;
  fd_count : Z;
  suppressedSinceLastLog : Z;
}.

Definition newFloodGuard (close log : option Q) : FloodGuard :=
  mkGuard (Z.max 1 (floorQ (close ?? 10%Q))) (Z.max 1 (floorQ (log ?? 100%Q))) 0 0.

Definition registerUnauthorized (g : FloodGuard) : FloodGuard * FloodDecision :=
  let n := fg_count g + 1 in
  let close := closeAfter g <? n in
  let log := (n =? 1) || (n mod logEvery g =? 0) || close in
  if negb log then
    (mkGuard (closeAfter g) (logEvery g) n (suppressed g + 1), mkDecision close false n 0)
  else (mkGuard (closeAfter g) (logEvery g) n 0, mkDecision close true n (suppressed g)).

Definition resetGuard (g : FloodGuard) : FloodGuard := mkGuard (closeAfter g) (logEvery g) 0 0.

Fixpoint decisions (n : nat) (g : FloodGuard) : list FloodDecision :=
  match n with
  | O => []
  | S n' => let '(g', d) := registerUnauthorized g in d :: decisions n' g'
  end.

(** The [k]-th request asks to close exactly when it exceeds [closeAfter], and
    every close is logged. *)
Lemma decisions_close n g k d :
  decisions n g !! k = Some d →
  fd_count d = fg_count g + Z.of_nat k + 1 ∧
  shouldClose d = (closeAfter g <? fg_count g + Z.of_nat k + 1) ∧
  (shouldClose d = true → shouldLog d = true).
Proof.
  revert g k. induction n as [|n IH]; intros g k Hk; [done|]. cbn [decisions] in Hk.
  assert (let '(g', d) := registerUnauthorized g in
    fd_count d = fg_count g + 1 ∧ shouldClose d = (closeAfter g <? fg_count g + 1) ∧
    (shouldClose d = true → shouldLog d = true) ∧
    fg_count g' = fg_count g + 1 ∧ closeAfter g' = closeAfter g) as Hr.
  { unfold registerUnauthorized. destruct (_ || _ || _) eqn:E; cbn; [done|].
    apply orb_false_iff in E as [_ E]. by rewrite E. }
  destruct (registerUnauthorized g) as [g' d']. destruct Hr as (H1 & H2 & H3 & H4 & H5).
  destruct k as [|k].
  - injection Hk as <-. replace (fg_count g + Z.of_nat 0 + 1) with (fg_count g + 1) by lia. auto.
  - destruct (IH g' k Hk) as (I1 & I2 & I3). rewrite H4, H5 in *.
    replace (fg_count g + Z.of_nat (S k) + 1) with (fg_count g + 1 + Z.of_nat k + 1) by lia. done.
Qed.

End GatewayLimits.
