(* ===== verification/ExecApprovals.v ===== *)
(** * Approvals of commands: src/gateway/exec-approval-manager.ts

    A command that needs approval is registered under an id and waits for a
    decision; it is decided by an operator or expires. The manager is a
    transition system: its map of entries, the timers it has started, and a log
    of what its callers observe. An entry carries a serial number, which stands
    for the identity of the object and of its promise. *)

From S2P Require Import Prelude OMap ExecPolicy.

Module ExecApprovals.

Import ExecPolicy(ExecApprovalDecision, AllowOnce, AllowAlways, DenyOnce, ExecApprovalDecision_eq).
#[export] Existing Instance ExecPolicy.ExecApprovalDecision_eq.
Import StringCoerce.


Definition RESOLVED_ENTRY_GRACE_MS : Z := 15000.

Section manager.
Context {TPayload : Type}.

Record ExecApprovalRecord := mkRecord {
  rec_id : string;
  rec_request : TPayload;
  rec_createdAtMs : Z;
  rec_expiresAtMs : Z;
  rec_requestedByConnId : option string;
  rec_requestedByDeviceId : option string;
  rec_requestedByClientId : option string;
  rec_resolvedAtMs : option Z;
  rec_decision : option ExecApprovalDecision;
  rec_resolvedBy : option string;
}.

(** The promise of an entry is named by its serial number. *)
Record PendingEntry := mkEntry {
  serial : nat;
  record : ExecApprovalRecord;
}.

(** What callers observe: the promise of an entry is resolved ([None] for an
    expiry), an allow-once decision is consumed. *)
Inductive Observation :=
| Settled (n : nat) (decision : option ExecApprovalDecision)
| Consumed (n : nat).

Record Manager := mkManager {
  pending : omap string PendingEntry;
  nextSerial : nat;
  expiryTimers : list (string * nat);   (* the id the closure expires *)
  graceTimers : list (string * nat);    (* the entry the closure deletes *)
  log : list Observation;
}.

Definition emptyManager : Manager := mkManager [] 0 [] [] [].

(** [create]; [uuid] is a random UUID. *)
Definition create (request : TPayload) (timeoutMs now : Z) (id : option string) (uuid : string)
    : ExecApprovalRecord :=
  mkRecord
    (match id with Some s => str_or (trim s) uuid | None => uuid end)
    request now (now + timeoutMs) None None None None None None.

Definition isOpen (e : PendingEntry) : bool :=
  match rec_resolvedAtMs (record e) with None => true | Some _ => false end.

(** [register]: the promise of the entry. *)
Definition register (m : Manager) (r : ExecApprovalRecord) : Manager * result nat :=
  match oget (pending m) (rec_id r) with
  | Some existing =>
      if isOpen existing then (m, Ok (serial existing))
      else (m, Throw ("Error: approval id '" +:+ rec_id r +:+ "' already resolved"))
  | None =>
      let n := nextSerial m in
      (mkManager (oset (pending m) (rec_id r) (mkEntry n r)) (S n)
         ((rec_id r, n) :: expiryTimers m) (graceTimers m) (log m), Ok n)
  end.

Definition settleRecord (r : ExecApprovalRecord) (now : Z) (decision : option ExecApprovalDecision)
    (resolvedBy : option string) : ExecApprovalRecord :=
  mkRecord (rec_id r) (rec_request r) (rec_createdAtMs r) (rec_expiresAtMs r)
    (rec_requestedByConnId r) (rec_requestedByDeviceId r) (rec_requestedByClientId r)
    (Some now) decision resolvedBy.

(** The common part of [resolve] and [expire]. *)
Definition settle (m : Manager) (recordId : string) (now : Z)
    (decision : option ExecApprovalDecision) (resolvedBy : option string) : Manager * bool :=
  match oget (pending m) recordId with
  | None => (m, false)
  | Some e =>
      if negb (isOpen e) then (m, false)
      else
        (mkManager
           (oset (pending m) recordId (mkEntry (serial e) (settleRecord (record e) now decision resolvedBy)))
           (nextSerial m)
           (List.filter (λ t, negb (t.2 =? serial e)%nat) (expiryTimers m))
           ((recordId, serial e) :: graceTimers m)
           (log m ++ [Settled (serial e) decision]), true)
  end.

Definition resolve (m : Manager) (recordId : string) (decision : ExecApprovalDecision) (now : Z)
    (resolvedBy : option string) : Manager * bool :=
  settle m recordId now (Some decision) resolvedBy.

Definition expire (m : Manager) (recordId : string) (now : Z) (resolvedBy : option string)
    : Manager * bool :=
  settle m recordId now None resolvedBy.

(** The deletion after the grace period: only if the entry was not replaced. *)
Definition graceElapsed (m : Manager) (recordId : string) (n : nat) : Manager :=
  let keep := List.filter (λ t, negb (t.2 =? n)%nat) (graceTimers m) in
  let pending' :=
    match oget (pending m) recordId with
    | Some e => if (serial e =? n)%nat then odel (pending m) recordId else pending m
    | None => pending m
    end in
  mkManager pending' (nextSerial m) (expiryTimers m) keep (log m).

Definition getSnapshot (m : Manager) (recordId : string) : option ExecApprovalRecord :=
  record <$> oget (pending m) recordId.

Definition listPendingRecords (m : Manager) : list ExecApprovalRecord :=
  List.filter (λ r, match rec_resolvedAtMs r with None => true | Some _ => false end)
    (map record (ovalues (pending m))).

Definition consumeAllowOnce (m : Manager) (recordId : string) : Manager * bool :=
  match oget (pending m) recordId with
  | None => (m, false)
  | Some e =>
      let r := record e in
      if negb (bool_decide (rec_decision r = Some AllowOnce)) then (m, false)
      else
        (mkManager
           (oset (pending m) recordId
              (mkEntry (serial e)
                 (mkRecord (rec_id r) (rec_request r) (rec_createdAtMs r) (rec_expiresAtMs r)
                    (rec_requestedByConnId r) (rec_requestedByDeviceId r)
                    (rec_requestedByClientId r) (rec_resolvedAtMs r) None (rec_resolvedBy r))))
           (nextSerial m) (expiryTimers m) (graceTimers m) (log m ++ [Consumed (serial e)]), true)
  end.

Definition awaitDecision (m : Manager) (recordId : string) : option nat :=
  serial <$> oget (pending m) recordId.

Inductive ExecApprovalIdLookupResult :=
| LookupExact (id : string)
| LookupPrefix (id : string)
| LookupAmbiguous (ids : list string)
| LookupNone.

Definition lookupPendingId (m : Manager) (input : string) : ExecApprovalIdLookupResult :=
  let normalized := trim input in
  if negb (str_truthy normalized) then LookupNone
  else match oget (pending m) normalized with
       | Some exact => if isOpen exact then LookupExact normalized else LookupNone
       | None =>
           let lowerPrefix := normalizeLowercaseStringOrEmpty (Some normalized) in
           let matches :=
             okeys (List.filter (λ e, isOpen e.2 &&
                      starts_with (normalizeLowercaseStringOrEmpty (Some e.1)) lowerPrefix)
                      (pending m)) in
           match matches with
           | [] => LookupNone
           | [id] => LookupPrefix id
           | _ => LookupAmbiguous matches
           end
       end.

(** ** The step relation: calls, and timers that fire *)

Inductive step (m : Manager) : Manager → Prop :=
| step_register r m' p : rec_resolvedAtMs r = None → rec_decision r = None →
    register m r = (m', p) → step m m'
| step_resolve id d now by_ m' b : resolve m id d now by_ = (m', b) → step m m'
| step_expire id now by_ m' b : expire m id now by_ = (m', b) → step m m'
| step_expiryTimer id n now m' b :
    (id, n) ∈ expiryTimers m →
    expire (mkManager (pending m) (nextSerial m)
              (List.filter (λ t, negb (t.2 =? n)%nat) (expiryTimers m)) (graceTimers m) (log m))
      id now None = (m', b) → step m m'
| step_graceTimer id n : (id, n) ∈ graceTimers m → step m (graceElapsed m id n)
| step_consume id m' b : consumeAllowOnce m id = (m', b) → step m m'.

Inductive reachable : Manager → Prop :=
| reach_init : reachable emptyManager
| reach_step m m' : reachable m → step m m' → reachable m'.

(** ** The invariant *)

Definition settledSerials (l : list Observation) : list nat :=
  filter_map (λ o, match o with Settled n _ => Some n | Consumed _ => None end) l.
Definition consumedSerials (l : list Observation) : list nat :=
  filter_map (λ o, match o with Consumed n => Some n | Settled _ _ => None end) l.

Record manager_ok (m : Manager) : Prop := {
  ok_wf : owf (pending m);
  ok_fresh id e : oget (pending m) id = Some e → (serial e < nextSerial m)%nat;
  ok_serial id id' e e' : oget (pending m) id = Some e → oget (pending m) id' = Some e' →
    serial e = serial e' → id = id';
  ok_timer id e : oget (pending m) id = Some e → isOpen e = true →
    (id, serial e) ∈ expiryTimers m;
  ok_expiry id n : (id, n) ∈ expiryTimers m →
    ∃ e, oget (pending m) id = Some e ∧ serial e = n ∧ isOpen e = true;
  ok_grace id n : (id, n) ∈ graceTimers m → (n < nextSerial m)%nat ∧
    ∀ e, oget (pending m) id = Some e → serial e = n → isOpen e = false;
  ok_once : NoDup (settledSerials (log m));
  ok_settled n : n ∈ settledSerials (log m) → (n < nextSerial m)%nat ∧
    ∀ id e, oget (pending m) id = Some e → serial e = n → isOpen e = false;
  ok_total n : (n < nextSerial m)%nat → n ∈ settledSerials (log m) ∨
    ∃ id e, oget (pending m) id = Some e ∧ serial e = n ∧ isOpen e = true;
  ok_consumed_once : NoDup (consumedSerials (log m));
  ok_consumed n : n ∈ consumedSerials (log m) → (n < nextSerial m)%nat ∧
    Settled n (Some AllowOnce) ∈ log m;
  ok_decision id e : oget (pending m) id = Some e → rec_decision (record e) = Some AllowOnce →
    isOpen e = false ∧ ¬ (serial e ∈ consumedSerials (log m)) ∧ Settled (serial e) (Some AllowOnce) ∈ log m;
}.

Lemma empty_ok : manager_ok emptyManager.
Proof.
  split; cbn; try done; try (intros; lia); try apply owf_nil; try constructor;
    intros; try (by apply elem_of_nil in H); by destruct (not_elem_of_nil _ H).
Qed.

Lemma log_settled_app l o : settledSerials (l ++ [o]) =
  settledSerials l ++ match o with Settled n _ => [n] | Consumed _ => [] end.
Proof. unfold settledSerials, filter_map. rewrite flat_map_app. by destruct o. Qed.

Lemma log_consumed_app l o : consumedSerials (l ++ [o]) =
  consumedSerials l ++ match o with Consumed n => [n] | Settled _ _ => [] end.
Proof. unfold consumedSerials, filter_map. rewrite flat_map_app. by destruct o. Qed.

Lemma register_ok m r :
  manager_ok m → rec_resolvedAtMs r = None → rec_decision r = None → manager_ok (register m r).1.
Proof.
  intros [H1 H2 H3 H4 H5 HG H6 H7 H8 H9 H10 H11] Hr Hd. unfold register.
  destruct (oget (pending m) (rec_id r)) as [e0|] eqn:E; [by destruct (isOpen e0)|].
  assert (isOpen (mkEntry (nextSerial m) r) = true) as Ho by (unfold isOpen; cbn; by rewrite Hr).
  assert (∀ id1 e1, oget (oset (pending m) (rec_id r) (mkEntry (nextSerial m) r)) id1 = Some e1 →
    (id1 = rec_id r ∧ e1 = mkEntry (nextSerial m) r) ∨ (id1 ≠ rec_id r ∧ oget (pending m) id1 = Some e1))
    as Hget.
  { intros id1 e1. rewrite oget_oset. case_decide; [intros [= <-]; by left|by right]. }
  split; cbn [fst pending nextSerial expiryTimers graceTimers log]; try done.
  - by apply owf_oset.
  - intros id e. rewrite oget_oset. case_decide; [intros [= <-]; cbn; lia|].
    intros He. specialize (H2 id e He). lia.
  - intros id id' e e' [[-> ->]|[? He]]%Hget [[-> ->]|[? He']]%Hget Hs; cbn in Hs; [done| | |by eapply H3].
    + specialize (H2 _ _ He'). lia.
    + specialize (H2 _ _ He). lia.
  - intros id e. rewrite oget_oset. case_decide as Hid.
    + intros [= <-] _. subst. by left.
    + intros He Hop. right. by apply H4.
  - intros id n [[= -> ->]|Hin]%elem_of_cons.
    + exists (mkEntry (nextSerial m) r). by rewrite oget_oset_eq.
    + destruct (H5 id n Hin) as (e & He & Hn & Hop). exists e. rewrite oget_oset_ne; [done|congruence].
  - intros id n Hin. destruct (HG id n Hin) as [Hlt Hc]. split; [lia|].
    intros e [[-> ->]|[_ He]]%Hget Hs; [cbn in Hs; lia|by apply Hc].
  - intros n Hn. destruct (H7 n Hn) as [Hlt Hc]. split; [lia|].
    intros id e. rewrite oget_oset. case_decide; [intros [= <-]; cbn; lia|]. apply Hc.
  - intros n Hn. destruct (decide (n = nextSerial m)) as [->|Hne].
    + right. exists (rec_id r), (mkEntry (nextSerial m) r). by rewrite oget_oset_eq.
    + destruct (H8 n) as [Hs|(id & e & He & Hs & Hop)]; [lia|by left|right].
      exists id, e. rewrite oget_oset_ne; [done|congruence].
  - intros n Hn. destruct (H10 n Hn). split; [lia|done].
  - intros id e. rewrite oget_oset. case_decide; [intros [= <-]; cbn; congruence|]. apply H11.
Qed.

Lemma settle_ok m id now d by_ : manager_ok m → manager_ok (settle m id now d by_).1.
Proof.
  intros [H1 H2 H3 H4 H5 HG H6 H7 H8 H9 H10 H11]. unfold settle.
  destruct (oget (pending m) id) as [e|] eqn:E; [|done].
  destruct (isOpen e) eqn:Eo; cbn [negb]; [|done].
  set (e' := mkEntry (serial e) _).
  assert (isOpen e' = false) as Hc' by done.
  assert (¬ (serial e ∈ settledSerials (log m))) as Hns.
  { intros Hs. destruct (H7 _ Hs) as [_ Hc]. specialize (Hc id e E eq_refl). congruence. }
  assert (∀ id1 e1, oget (oset (pending m) id e') id1 = Some e1 →
    (id1 = id ∧ e1 = e') ∨ (id1 ≠ id ∧ oget (pending m) id1 = Some e1)) as Hget.
  { intros id1 e1. rewrite oget_oset. case_decide; [intros [= <-]; by left|by right]. }
  split; cbn [fst pending nextSerial expiryTimers graceTimers log]; try done.
  - by apply owf_oset.
  - intros id1 e1 [[-> ->]|[_ He]]%Hget; [exact (H2 id e E)|by eapply H2].
  - intros id1 id2 e1 e2 [[-> ->]|[_ He1]]%Hget [[-> ->]|[_ He2]]%Hget Hs; [done| | |by eapply H3].
    + exact (H3 id id2 e e2 E He2 Hs).
    + exact (H3 id1 id e1 e He1 E Hs).
  - intros id1 e1 [[-> ->]|[Hne He]]%Hget Hop; [congruence|].
    apply list_elem_of_In, filter_In. split; [apply list_elem_of_In; by apply H4|].
    apply negb_true_iff, Nat.eqb_neq. cbn. intros Hs. apply Hne. by apply (H3 id1 id e1 e).
  - intros id1 n Hin. apply list_elem_of_In, filter_In in Hin as [Hin Hn].
    apply negb_true_iff, Nat.eqb_neq in Hn. cbn in Hn. apply list_elem_of_In in Hin.
    destruct (H5 id1 n Hin) as (e1 & He1 & Hs & Hop). exists e1.
    rewrite oget_oset_ne; [done|]. intros ->. congruence.
  - intros id1 n [[= -> ->]|Hin]%elem_of_cons.
    + split; [by eapply H2|]. intros e1 [[_ ->]|[Hne _]]%Hget _; done.
    + destruct (HG id1 n Hin) as [Hlt Hc]. split; [done|].
      intros e1 [[-> ->]|[_ He]]%Hget Hs; [done|by apply Hc].
  - rewrite log_settled_app. apply NoDup_app. split; [done|]. split; [|apply NoDup_singleton].
    intros n Hn ->%list_elem_of_singleton. done.
  - intros n. rewrite log_settled_app, elem_of_app. intros [Hn| ->%list_elem_of_singleton].
    + destruct (H7 n Hn) as [Hlt Hc]. split; [done|].
      intros id1 e1 [[-> ->]|[_ He]]%Hget Hs; [done|by eapply Hc].
    + split; [by eapply H2|]. intros id1 e1 [[-> ->]|[Hne He]]%Hget Hs; [done|].
      destruct Hne. by apply (H3 id1 id e1 e).
  - intros n Hn. rewrite log_settled_app, elem_of_app.
    destruct (decide (n = serial e)) as [->|Hne]; [left; right; by apply list_elem_of_singleton|].
    destruct (H8 n Hn) as [Hs|(id1 & e1 & He1 & Hs & Hop)]; [by left; left|right].
    exists id1, e1. rewrite oget_oset_ne; [done|]. intros ->. congruence.
  - by rewrite log_consumed_app, app_nil_r.
  - intros n. rewrite log_consumed_app, app_nil_r. intros Hn. destruct (H10 n Hn).
    split; [done|]. apply elem_of_app. by left.
  - intros id1 e1 Hg Hdec. rewrite log_consumed_app, app_nil_r. apply Hget in Hg as [[-> ->]|[_ He]].
    + split; [done|]. subst e'. cbn in *. subst d. split.
      * intros Hc. destruct (H10 _ Hc) as [_ Hs]. apply Hns.
        unfold settledSerials, filter_map. apply list_elem_of_In, in_flat_map.
        exists (Settled (serial e) (Some AllowOnce)). split; [by apply list_elem_of_In|by left].
      * apply elem_of_app. right. by apply list_elem_of_singleton.
    + destruct (H11 id1 e1 He Hdec) as (Ha & Hb & Hc). split; [done|]. split; [done|].
      apply elem_of_app. by left.
Qed.

Lemma consumeAllowOnce_ok m id : manager_ok m → manager_ok (consumeAllowOnce m id).1.
Proof.
  intros [H1 H2 H3 H4 H5 HG H6 H7 H8 H9 H10 H11]. unfold consumeAllowOnce.
  destruct (oget (pending m) id) as [e|] eqn:E; [|done].
  case_bool_decide as Hd; cbn [negb]; [|done].
  destruct (H11 id e E Hd) as (Hclosed & Hnc & Hset).
  set (e' := mkEntry (serial e) _).
  assert (isOpen e' = false) as Hc' by exact Hclosed.
  assert (∀ id1 e1, oget (oset (pending m) id e') id1 = Some e1 →
    (id1 = id ∧ e1 = e') ∨ (id1 ≠ id ∧ oget (pending m) id1 = Some e1)) as Hget.
  { intros id1 e1. rewrite oget_oset. case_decide; [intros [= <-]; by left|by right]. }
  split; cbn [fst pending nextSerial expiryTimers graceTimers log]; try done.
  - by apply owf_oset.
  - intros id1 e1 [[-> ->]|[_ He]]%Hget; [exact (H2 id e E)|by eapply H2].
  - intros id1 id2 e1 e2 [[-> ->]|[_ He1]]%Hget [[-> ->]|[_ He2]]%Hget Hs; [done| | |by eapply H3].
    + exact (H3 id id2 e e2 E He2 Hs).
    + exact (H3 id1 id e1 e He1 E Hs).
  - intros id1 e1 [[-> ->]|[Hne He]]%Hget Hop; [congruence|by apply H4].
  - intros id1 n Hin. destruct (H5 id1 n Hin) as (e1 & He1 & Hs & Hop). exists e1.
    rewrite oget_oset_ne; [done|]. intros ->. congruence.
  - intros id1 n Hin. destruct (HG id1 n Hin) as [Hlt Hc]. split; [done|].
    intros e1 [[-> ->]|[_ He]]%Hget Hs; [done|by apply Hc].
  - by rewrite log_settled_app, app_nil_r.
  - intros n. rewrite log_settled_app, app_nil_r. intros Hn. destruct (H7 n Hn) as [Hlt Hc].
    split; [done|]. intros id1 e1 [[-> ->]|[_ He]]%Hget Hs; [done|by eapply Hc].
  - intros n Hn. rewrite log_settled_app, app_nil_r.
    destruct (H8 n Hn) as [Hs|(id1 & e1 & He1 & Hs & Hop)]; [by left|right].
    exists id1, e1. rewrite oget_oset_ne; [done|]. intros ->. congruence.
  - rewrite log_consumed_app. apply NoDup_app. split; [done|]. split; [|apply NoDup_singleton].
    intros n Hn ->%list_elem_of_singleton. done.
  - intros n. rewrite log_consumed_app, elem_of_app. intros [Hn| ->%list_elem_of_singleton].
    + destruct (H10 n Hn). split; [done|]. apply elem_of_app. by left.
    + split; [by eapply H2|]. apply elem_of_app. by left.
  - intros id1 e1 Hg Hdec. apply Hget in Hg as [[-> ->]|[Hne He]]; [done|].
    destruct (H11 id1 e1 He Hdec) as (Ha & Hb & Hc). split; [done|]. rewrite log_consumed_app. split.
    + intros [?|Hs%list_elem_of_singleton]%elem_of_app; [done|]. apply Hne. by apply (H3 id1 id e1 e).
    + apply elem_of_app. by left.
Qed.

Lemma grace_ok m id n :
  manager_ok m → (id, n) ∈ graceTimers m → manager_ok (graceElapsed m id n).
Proof.
  intros [H1 H2 H3 H4 H5 HG H6 H7 H8 H9 H10 H11] Hg. destruct (HG id n Hg) as [_ Hclosed]. unfold graceElapsed.
  set (p' := match oget (pending m) id with Some _ => _ | None => _ end).
  assert (owf p' ∧ (∀ id1 e1, oget p' id1 = Some e1 → oget (pending m) id1 = Some e1) ∧
    ∀ id1 e1, oget (pending m) id1 = Some e1 → isOpen e1 = true → oget p' id1 = Some e1) as (Hwf & Hsub & Hopen).
  { subst p'. destruct (oget (pending m) id) as [e|] eqn:E; [|done].
    destruct (Nat.eqb_spec (serial e) n) as [Hn|]; [|done].
    split; [by apply owf_odel|]. split.
    - intros id1 e1. rewrite oget_odel. by case_decide.
    - intros id1 e1 He Hop. rewrite oget_odel_ne; [done|]. intros <-.
      rewrite E in He. simplify_eq. rewrite (Hclosed e1 eq_refl eq_refl) in Hop. done. }
  split; cbn [pending nextSerial expiryTimers graceTimers log]; try done.
  - intros id1 e1 He. by eapply H2, Hsub.
  - intros id1 id2 e1 e2 He1 He2. eapply H3; by apply Hsub.
  - intros id1 e1 He. by apply H4, Hsub.
  - intros id1 k Hin. destruct (H5 id1 k Hin) as (e & He & Hs & Hop). exists e. eauto.
  - intros id1 k Hk. apply list_elem_of_In, filter_In in Hk as [Hk _]. apply list_elem_of_In in Hk.
    destruct (HG id1 k Hk) as [Hlt Hc]. split; [done|]. intros e He. by apply Hc, Hsub.
  - intros k Hk. destruct (H7 k Hk) as [Hlt Hc]. split; [done|]. intros id1 e1 He. by eapply Hc, Hsub.
  - intros k Hk. destruct (H8 k Hk) as [Hs|(id1 & e1 & He & Hs & Hop)]; [by left|right; eauto 6].
  - intros id1 e1 He. apply (H11 id1 e1). by apply Hsub.
Qed.

Lemma filter_idem {A} (f : A → bool) l : List.filter f (List.filter f l) = List.filter f l.
Proof. induction l as [|x l IH]; cbn; [done|]. destruct (f x) eqn:Ex; cbn; [rewrite Ex; by f_equal|done]. Qed.

Lemma step_ok m m' : manager_ok m → step m m' → manager_ok m'.
Proof.
  intros Hok [r m1 p Hr Hd Hs|id d now by_ m1 b Hs|id now by_ m1 b Hs|id n now m1 b Hin Hs|id n Hin|id m1 b Hs].
  - replace m1 with (register m r).1 by (by rewrite Hs). by apply register_ok.
  - replace m1 with (resolve m id d now by_).1 by (by rewrite Hs). by apply settle_ok.
  - replace m1 with (expire m id now by_).1 by (by rewrite Hs). by apply settle_ok.
  - replace m1 with (expire m id now None).1; [by apply settle_ok|].
    destruct (ok_expiry m Hok id n Hin) as (e & He & Hn & Hop).
    revert Hs. unfold expire, settle. cbn [pending nextSerial expiryTimers graceTimers log].
    rewrite He, Hop. cbn [negb]. intros [= <- _]. cbn [fst]. f_equal. subst n.
    by rewrite filter_idem.
  - by apply grace_ok.
  - replace m1 with (consumeAllowOnce m id).1 by (by rewrite Hs). by apply consumeAllowOnce_ok.
Qed.

Lemma reachable_ok m : reachable m → manager_ok m.
Proof. induction 1; [apply empty_ok|by eapply step_ok]. Qed.

(** C25. Every registered approval is settled exactly once. In every reachable
    state, whatever the interleaving of registrations, decisions, expiries,
    consumptions and grace timers, no promise has been resolved twice, and each
    promise handed out so far was either resolved or belongs to an open entry
    whose expiry timer is still armed, so it is never forgotten: the firing of
    that timer resolves it with null. *)
Theorem every_approval_settles_once m :
  reachable m →
  NoDup (settledSerials (log m)) ∧
  ∀ n, (n < nextSerial m)%nat →
    n ∈ settledSerials (log m) ∨
    ∃ id e, oget (pending m) id = Some e ∧ serial e = n ∧ isOpen e = true ∧
      (id, n) ∈ expiryTimers m ∧
      ∀ now, ∃ m', expire m id now None = (m', true) ∧ log m' = log m ++ [Settled n None].
Proof.
  intros Hr%reachable_ok. split; [apply Hr|]. intros n Hn.
  destruct (ok_total m Hr n Hn) as [?|(id & e & He & Hs & Hop)]; [by left|right].
  exists id, e. repeat split; try done; [subst n; by apply (ok_timer m Hr)|].
  intros now. unfold expire, settle. rewrite He, Hop. cbn [negb]. rewrite Hs. eauto.
Qed.

(** An allow-once decision cannot be replayed. In every reachable state no
    approval has been consumed twice, and an approval was consumed only if its
    promise was resolved with allow-once. *)
Lemma allow_once_consumed_once m :
  reachable m →
  NoDup (consumedSerials (log m)) ∧
  ∀ n, n ∈ consumedSerials (log m) → Settled n (Some AllowOnce) ∈ log m.
Proof. intros Hr%reachable_ok. split; [apply Hr|]. intros n Hn. by apply (ok_consumed m Hr). Qed.

End manager.

(** ** A run: an approval is allowed once, consumed, and a second one pends *)

Definition run : Manager :=
  let r1 := create tt 1000 0 (Some " a ") "uuid" in
  let r2 := create tt 1000 0 None "uuid" in
  let m := (register emptyManager r1).1 in
  let m := (resolve m "a" AllowOnce 10 (Some "operator")).1 in
  let m := (consumeAllowOnce m "a").1 in
  (register m r2).1.

Example run_log : log run = [Settled 0 (Some AllowOnce); Consumed 0].
Proof. reflexivity. Qed.

Example run_no_replay : (consumeAllowOnce run "a").2 = false.
Proof. reflexivity. Qed.

Example run_lookup : lookupPendingId run "UU" = LookupPrefix "uuid".
Proof. reflexivity. Qed.

Lemma run_reachable : reachable run.
Proof.
  unfold run. eapply reach_step; [|eapply step_register; [| |apply surjective_pairing]; reflexivity].
  eapply reach_step; [|eapply step_consume, surjective_pairing].
  eapply reach_step; [|eapply step_resolve, surjective_pairing].
  eapply reach_step; [|eapply step_register; [| |apply surjective_pairing]; reflexivity].
  apply reach_init.
Qed.

Lemma every_approval_settles_once_witness :
  1%nat ∈ settledSerials (log run) ∨
  ∃ id e, oget (pending run) id = Some e ∧ serial e = 1%nat ∧ isOpen e = true ∧
    (id, 1%nat) ∈ expiryTimers run ∧
    ∀ now, ∃ m', expire run id now None = (m', true) ∧ log m' = log run ++ [Settled 1 None].
Proof. apply (every_approval_settles_once run run_reachable). by apply Nat.ltb_lt. Defined.

Lemma allow_once_consumed_once_witness : Settled 0 (Some AllowOnce) ∈ log run.
Proof. apply (allow_once_consumed_once run run_reachable). rewrite run_log. left. Defined.

End ExecApprovals.
