(* ===== verification/DeviceScopes.v ===== *)
(** * Roles and scopes of devices

    src/shared/device-auth.ts, operator-scope-compat.ts and
    device-bootstrap-profile.ts: how lists of scopes are normalized and when the
    scopes a role asks for are covered by those it has. *)

From S2P Require Import Prelude OMap.

Module DeviceScopes.

(** ** A [Set] of strings, in insertion order *)

Definition set_add (s : list string) (x : string) : list string := if set_has s x then s else s ++ [x].

(** [const trimmed = x.trim(); if (trimmed) { set.add(trimmed) }], for every x *)
Definition addTrimmed (s : list string) (xs : list string) : list string :=
  fold_left (λ s x, if str_truthy (trim x) then set_add s (trim x) else s) xs s.

Definition sort_strings : list string → list string := toSorted String.leb.

(** ** device-auth.ts *)

Definition normalizeDeviceAuthRole (role : string) : string := trim role.

Definition normalizeDeviceAuthScopes (scopes : option (list string)) : list string :=
  match scopes with
  | None => []
  | Some scopes =>
      let out := addTrimmed [] scopes in
      let out :=
        if set_has out "operator.admin" then set_add (set_add out "operator.read") "operator.write"
        else if set_has out "operator.write" then set_add out "operator.read"
        else out in
      sort_strings out
  end.

(** ** operator-scope-compat.ts *)

Definition OPERATOR_ROLE : string := "operator".
Definition OPERATOR_ADMIN_SCOPE : string := "operator.admin".
Definition OPERATOR_READ_SCOPE : string := "operator.read".
Definition OPERATOR_WRITE_SCOPE : string := "operator.write".
Definition OPERATOR_SCOPE_PREFIX : string := "operator.".

Definition normalizeScopeList (scopes : list string) : list string := addTrimmed [] scopes.

Definition operatorScopeSatisfied (requestedScope : string) (granted : list string) : bool :=
  if negb (starts_with requestedScope OPERATOR_SCOPE_PREFIX) then false
  else if set_has granted OPERATOR_ADMIN_SCOPE then true
  else if String.eqb requestedScope OPERATOR_READ_SCOPE
  then set_has granted OPERATOR_READ_SCOPE || set_has granted OPERATOR_WRITE_SCOPE
  else if String.eqb requestedScope OPERATOR_WRITE_SCOPE then set_has granted OPERATOR_WRITE_SCOPE
  else set_has granted requestedScope.

Definition roleScopesAllow (role : string) (requestedScopes allowedScopes : list string) : bool :=
  let requested := normalizeScopeList requestedScopes in
  match requested with
  | [] => true
  | _ =>
      let allowed := normalizeScopeList allowedScopes in
      match allowed with
      | [] => false
      | _ =>
          if negb (String.eqb (trim role) OPERATOR_ROLE)
          then forallb (λ scope, starts_with scope (trim role +:+ ".") && set_has allowed scope) requested
          else forallb (λ scope, operatorScopeSatisfied scope allowed) requested
      end
  end.

Definition resolveMissingRequestedScope (role : string) (requestedScopes allowedScopes : list string) : option string :=
  List.find (λ scope, negb (roleScopesAllow role [scope] allowedScopes)) requestedScopes.

Definition resolveScopeOutsideRequestedRoles (requestedRoles requestedScopes : list string) : option string :=
  List.find (λ scope, negb (existsb (λ role, roleScopesAllow role [scope] [scope]) requestedRoles)) requestedScopes.

(** ** device-bootstrap-profile.ts *)

Record DeviceBootstrapProfile := mkProfile { bp_roles : list string; bp_scopes : list string }.

Definition BOOTSTRAP_HANDOFF_OPERATOR_SCOPES : list string :=
  ["operator.approvals"; "operator.read"; "operator.talk.secrets"; "operator.write"].

Definition resolveBootstrapProfileScopesForRole (role : string) (scopes : list string) : list string :=
  let normalizedScopes := normalizeDeviceAuthScopes (Some scopes) in
  if String.eqb (normalizeDeviceAuthRole role) "operator"
  then List.filter (set_has BOOTSTRAP_HANDOFF_OPERATOR_SCOPES) normalizedScopes
  else [].

Definition normalizeBootstrapRoles (roles : option (list string)) : list string :=
  match roles with None => [] | Some l => sort_strings (addTrimmed [] l) end.

Definition normalizeDeviceBootstrapProfile (roles scopes : option (list string)) : DeviceBootstrapProfile :=
  mkProfile (normalizeBootstrapRoles roles) (normalizeDeviceAuthScopes (Some (scopes ?? []))).

(** ** Elements *)

Lemma elem_set_add s x y : y ∈ set_add s x ↔ y ∈ s ∨ y = x.
Proof.
  unfold set_add. destruct (set_has s x) eqn:E; [apply set_has_iff in E|]; [naive_solver|].
  rewrite elem_of_app, list_elem_of_singleton. done.
Qed.

Lemma NoDup_set_add s x : NoDup s → NoDup (set_add s x).
Proof.
  unfold set_add. destruct (set_has s x) eqn:E; [done|]. apply set_has_false in E. intros H. apply NoDup_app. split; [done|].
  split; [|apply NoDup_singleton]. by intros y Hy ->%list_elem_of_singleton.
Qed.

(** [x] is one of the strings of [xs], trimmed, and not blank. *)
Definition trimmed_in (xs : list string) (x : string) : Prop := str_truthy x = true ∧ ∃ y, y ∈ xs ∧ x = trim y.

Lemma elem_addTrimmed s xs x : x ∈ addTrimmed s xs ↔ x ∈ s ∨ trimmed_in xs x.
Proof.
  unfold addTrimmed, trimmed_in. revert s. induction xs as [|y xs IH]; intros s; cbn [fold_left].
  - split; [by left|]. intros [?|(_ & z & ?%elem_of_nil & _)]; done.
  - rewrite IH. setoid_rewrite elem_of_cons. destruct (str_truthy (trim y)) eqn:E.
    + rewrite elem_set_add. split; [intros [[?| ->]|(? & z & ? & ?)]|intros [?|(? & z & [->|?] & ->)]]; eauto 8.
    + split; [intros [?|(? & z & ? & ?)]|intros [?|(? & z & [->|?] & ->)]]; eauto 8. congruence.
Qed.

Lemma NoDup_addTrimmed s xs : NoDup s → NoDup (addTrimmed s xs).
Proof.
  unfold addTrimmed. revert s. induction xs as [|y xs IH]; intros s Hs; cbn [fold_left]; [done|].
  apply IH. case_match; [by apply NoDup_set_add|done].
Qed.

Lemma trimmed_in_trim xs x : trimmed_in xs x → trim x = x.
Proof. intros (_ & y & _ & ->). apply trim_idemp. Qed.

(** Trimmed, non-blank strings are their own trimmed list. *)
Definition clean (xs : list string) : Prop := Forall (λ x, str_truthy x = true ∧ trim x = x) xs.

Lemma clean_trimmed xs x : clean xs → (trimmed_in xs x ↔ x ∈ xs).
Proof.
  unfold clean. rewrite Forall_forall. intros H. split.
  - intros (_ & y & Hy & ->). by destruct (H y Hy) as [_ ->].
  - intros Hx. destruct (H x Hx) as [? ?]. split; [done|]. by exists x.
Qed.

Lemma elem_normalizeScopeList xs x : x ∈ normalizeScopeList xs ↔ trimmed_in xs x.
Proof. unfold normalizeScopeList. rewrite elem_addTrimmed, elem_of_nil. tauto. Qed.

(** What normalizing adds to the scopes: reading and writing, where a stronger
    scope implies them. *)
Lemma elem_normalizeDeviceAuthScopes xs x :
  x ∈ normalizeDeviceAuthScopes (Some xs) ↔
  trimmed_in xs x ∨
  (x = "operator.read" ∧ (trimmed_in xs "operator.admin" ∨ trimmed_in xs "operator.write")) ∨
  (x = "operator.write" ∧ trimmed_in xs "operator.admin").
Proof.
  unfold normalizeDeviceAuthScopes, sort_strings. rewrite toSorted_elem.
  assert (∀ y, set_has (addTrimmed [] xs) y = true ↔ trimmed_in xs y) as Hset.
  { intros y. rewrite set_has_iff, elem_addTrimmed, elem_of_nil. tauto. }
  assert (∀ y, y ∈ addTrimmed [] xs ↔ trimmed_in xs y) as Hin by (intros y; rewrite <- Hset; symmetry; apply set_has_iff).
  destruct (set_has _ "operator.admin") eqn:Ea; [|destruct (set_has _ "operator.write") eqn:Ew].
  - apply Hset in Ea. rewrite !elem_set_add, Hin. naive_solver.
  - apply Hset in Ew. rewrite elem_set_add, Hin. rewrite <- not_true_iff_false, Hset in Ea. naive_solver.
  - rewrite Hin. rewrite <- not_true_iff_false, Hset in Ea. rewrite <- not_true_iff_false, Hset in Ew. naive_solver.
Qed.

Lemma normalizeDeviceAuthScopes_clean xs : clean (normalizeDeviceAuthScopes xs).
Proof.
  unfold clean. rewrite Forall_forall. destruct xs as [xs|]; [|by intros x ?%elem_of_nil].
  intros x [H|[[-> _]|[-> _]]]%elem_normalizeDeviceAuthScopes; [|done..].
  split; [apply H|by apply trimmed_in_trim with xs].
Qed.

(** ** Coverage of scopes *)

Lemma satisfied_prefix x g : operatorScopeSatisfied x g = true → starts_with x OPERATOR_SCOPE_PREFIX = true.
Proof. unfold operatorScopeSatisfied. by destruct (starts_with x _). Qed.

(** The scope that covers another one. *)
Lemma satisfied_by x g :
  operatorScopeSatisfied x g = true →
  ∃ y, y ∈ g ∧ starts_with y OPERATOR_SCOPE_PREFIX = true ∧ operatorScopeSatisfied x [y] = true.
Proof.
  unfold operatorScopeSatisfied. destruct (starts_with x _) eqn:Ep; cbn [negb]; [|done].
  destruct (set_has g OPERATOR_ADMIN_SCOPE) eqn:Ea; [apply set_has_iff in Ea; by exists OPERATOR_ADMIN_SCOPE|].
  destruct (String.eqb_spec x OPERATOR_READ_SCOPE) as [->|Hr].
  { intros [H|H]%orb_true_iff; apply set_has_iff in H; [by exists OPERATOR_READ_SCOPE|by exists OPERATOR_WRITE_SCOPE]. }
  destruct (String.eqb_spec x OPERATOR_WRITE_SCOPE) as [->|Hw].
  { intros H%set_has_iff. by exists OPERATOR_WRITE_SCOPE. }
  intros H%set_has_iff. exists x. split; [done|]. split; [done|].
  destruct (set_has [x] OPERATOR_ADMIN_SCOPE); [done|]. apply set_has_iff. by left.
Qed.

Lemma satisfied_mono x g g' : (∀ y, y ∈ g → y ∈ g') → operatorScopeSatisfied x g = true → operatorScopeSatisfied x g' = true.
Proof.
  intros Hg. assert (∀ y, set_has g y = true → set_has g' y = true) as H by (intros y; rewrite !set_has_iff; apply Hg).
  unfold operatorScopeSatisfied. destruct (negb _); [done|].
  destruct (set_has g OPERATOR_ADMIN_SCOPE) eqn:Ea; [by rewrite (H _ Ea)|]. destruct (set_has g' OPERATOR_ADMIN_SCOPE); [done|].
  destruct (String.eqb _ _); [rewrite !orb_true_iff; naive_solver|]. destruct (String.eqb _ _); auto.
Qed.

(** Coverage composes. *)
Lemma satisfied_trans x y g :
  operatorScopeSatisfied x [y] = true → operatorScopeSatisfied y g = true → operatorScopeSatisfied x g = true.
Proof.
  unfold operatorScopeSatisfied. destruct (starts_with x _); cbn [negb]; [|done]. destruct (starts_with y _); cbn [negb]; [|done].
  destruct (set_has g OPERATOR_ADMIN_SCOPE) eqn:Eg; [done|].
  assert (∀ z, set_has [y] z = true → z = y) as Hy by (intros z ?%set_has_iff; by apply list_elem_of_singleton).
  destruct (set_has [y] OPERATOR_ADMIN_SCOPE) eqn:Ea; [apply Hy in Ea as <-; intros _; cbn; by rewrite Eg|].
  destruct (String.eqb_spec x OPERATOR_READ_SCOPE) as [->|Hr].
  { intros [H|H]%orb_true_iff; apply Hy in H as <-; [done|].
    change (String.eqb OPERATOR_WRITE_SCOPE OPERATOR_READ_SCOPE) with false. rewrite String.eqb_refl. intros ->. apply orb_true_r. }
  destruct (String.eqb_spec x OPERATOR_WRITE_SCOPE) as [->|Hw]; intros H; apply Hy in H as <-.
  - done.
  - destruct (String.eqb_spec x OPERATOR_READ_SCOPE); [done|]. by destruct (String.eqb_spec x OPERATOR_WRITE_SCOPE).
Qed.

Lemma satisfied_refl x : starts_with x OPERATOR_SCOPE_PREFIX = true → operatorScopeSatisfied x [x] = true.
Proof.
  unfold operatorScopeSatisfied. intros ->. cbn [negb]. destruct (set_has [x] OPERATOR_ADMIN_SCOPE); [done|].
  assert (set_has [x] x = true) as Hx by (apply set_has_iff; by left).
  destruct (String.eqb_spec x OPERATOR_READ_SCOPE) as [<-|]; [by rewrite Hx|].
  destruct (String.eqb_spec x OPERATOR_WRITE_SCOPE) as [<-|]; done.
Qed.

(** What a role may ask for, scope by scope. *)
Definition covers (role scope : string) (allowed : list string) : Prop :=
  if String.eqb (trim role) OPERATOR_ROLE then operatorScopeSatisfied scope (normalizeScopeList allowed) = true
  else starts_with scope (trim role +:+ ".") = true ∧ trimmed_in allowed scope.

Lemma covers_some role scope allowed : covers role scope allowed → normalizeScopeList allowed ≠ [].
Proof.
  unfold covers. destruct (String.eqb _ _); intros H E.
  - rewrite E in H. apply satisfied_by in H as (y & H & _). by apply elem_of_nil in H.
  - destruct H as [_ H]. apply elem_normalizeScopeList in H. rewrite E in H. by apply elem_of_nil in H.
Qed.

Lemma roleScopesAllow_iff role requested allowed :
  roleScopesAllow role requested allowed = true ↔ ∀ scope, trimmed_in requested scope → covers role scope allowed.
Proof.
  assert ((∀ scope, trimmed_in requested scope → covers role scope allowed) ↔
          ∀ scope, scope ∈ normalizeScopeList requested → covers role scope allowed) as ->.
  { split; intros H scope Hs; apply H; by apply elem_normalizeScopeList. }
  unfold roleScopesAllow. destruct (normalizeScopeList requested) as [|x r].
  { split; [|done]. by intros _ scope ?%elem_of_nil. }
  destruct (normalizeScopeList allowed) as [|a l] eqn:Ea.
  { split; [done|]. intros H. by destruct (covers_some role x allowed); [apply H; left|]. }
  unfold covers. rewrite <- Ea. destruct (String.eqb (trim role) OPERATOR_ROLE); cbn [negb].
  - rewrite forallb_forall. setoid_rewrite list_elem_of_In. done.
  - rewrite forallb_forall. setoid_rewrite list_elem_of_In. split; intros H scope Hs; specialize (H scope Hs).
    + apply andb_true_iff in H as [H1 H2]. split; [done|]. by apply elem_normalizeScopeList, set_has_iff.
    + destruct H as [H1 H2]. rewrite H1. by apply set_has_iff, elem_normalizeScopeList.
Qed.

Lemma roleScopesAllow_one role scope allowed :
  clean [scope] → roleScopesAllow role [scope] allowed = true ↔ covers role scope allowed.
Proof.
  intros Hc. rewrite roleScopesAllow_iff. split.
  - intros H. apply H. apply clean_trimmed; [done|by left].
  - intros H s Hs. apply clean_trimmed in Hs; [|done]. by apply list_elem_of_singleton in Hs as ->.
Qed.

Lemma resolveMissingRequestedScope_none role requested allowed :
  clean requested → resolveMissingRequestedScope role requested allowed = None →
  ∀ scope, scope ∈ requested → covers role scope allowed.
Proof.
  intros Hc H scope Hs. unfold resolveMissingRequestedScope in H.
  pose proof (find_none _ _ H scope (proj1 (list_elem_of_In _ _) Hs)) as Hn. apply negb_false_iff in Hn.
  apply roleScopesAllow_one in Hn; [done|]. unfold clean in *. rewrite Forall_forall in Hc. constructor; [by apply Hc|constructor].
Qed.

End DeviceScopes.
