(* ===== verification/DevicePairing.v ===== *)
(** * Pairing of devices: src/infra/device-pairing.ts

    With the parts of pairing-files.ts, pairing-pending.ts and pairing-token.ts it
    uses. The state is what the two files hold; every operation that changes it
    runs under one lock and is one function on the state. The request ids, the new
    tokens and the readings of the clock that an operation makes are its arguments;
    so is the digest by which tokens are compared. The objects used as maps are
    insertion-ordered maps, without the names that every object inherits. *)

From S2P Require Import Prelude OMap DeviceScopes.

Module DevicePairing.
Import DeviceScopes.

(** ** Data *)

(** What the owner sees of a device. *)
Record Metadata := mkMeta {
  displayName : option string;
  platform : option string;
  deviceFamily : option string;
  clientId : option string;
  clientMode : option string;
  remoteIp : option string;
}.

(** [Omit<DevicePairingPendingRequest, "requestId" | "ts" | "isRepair">] *)
Record PairingRequest := mkRequest {
  req_deviceId : string;
  publicKey : string;
  req_meta : Metadata;
  req_role : option string;
  req_roles : option (list string);
  req_scopes : option (list string);
  silent : option bool;
}.

Record DevicePairingPendingRequest := mkPending {
  requestId : string;
  request : PairingRequest;
  isRepair : option bool;
  ts : Z;
}.

Record DeviceAuthToken := mkToken {
  token : string;
  tok_role : string;
  tok_scopes : list string;
  tok_createdAtMs : Z;
  rotatedAtMs : option Z;
  revokedAtMs : option Z;
  lastUsedAtMs : option Z;
}.

Record PairedDevice := mkDevice {
  deviceId : string;
  dev_publicKey : string;
  dev_meta : Metadata;
  role : option string;
  roles : option (list string);
  scopes : option (list string);
  approvedScopes : option (list string);
  tokens : option (omap string DeviceAuthToken);
  createdAtMs : Z;
  approvedAtMs : Z;
}.

Inductive RotateDeviceTokenDenyReason :=
| UnknownDeviceOrRole | MissingApprovedScopeBaseline | ScopeOutsideApprovedBaseline.

Inductive DevicePairingForbiddenReason :=
| CallerScopesRequired | CallerMissingScope | ScopeOutsideRequestedRoles
| BootstrapRoleNotAllowed | BootstrapScopeNotAllowed.

Record DevicePairingForbiddenResult := mkForbidden {
  reason : DevicePairingForbiddenReason;
  forbidden_scope : option string;
  forbidden_role : option string;
}.

(** [ApproveDevicePairingResult] without its [null]. *)
Inductive ApproveDevicePairingResult :=
| Approved (requestId : string) (device : PairedDevice)
| Forbidden (result : DevicePairingForbiddenResult).

Record DevicePairingStateFile := mkState {
  pendingById : omap string DevicePairingPendingRequest;
  pairedByDeviceId : omap string PairedDevice;
}.

Definition PENDING_TTL_MS : Z := 5 * 60 * 1000.

Definition formatDevicePairingForbiddenMessage (result : DevicePairingForbiddenResult) : string :=
  match reason result with
  | CallerScopesRequired => "missing scope: " +:+ (forbidden_scope result ?? "callerScopes-required")
  | CallerMissingScope => "missing scope: " +:+ (forbidden_scope result ?? "unknown")
  | ScopeOutsideRequestedRoles => "invalid scope for requested roles: " +:+ (forbidden_scope result ?? "unknown")
  | BootstrapRoleNotAllowed => "bootstrap profile does not allow role: " +:+ (forbidden_role result ?? "unknown")
  | BootstrapScopeNotAllowed => "bootstrap profile does not allow scope: " +:+ (forbidden_scope result ?? "unknown")
  end.

(** ** Loading *)

Definition pruneExpiredPending (pending : omap string DevicePairingPendingRequest) (nowMs ttlMs : Z)
    : omap string DevicePairingPendingRequest :=
  List.filter (λ e, negb (ttlMs <? nowMs - ts e.2)) pending.

Definition loadState (file : DevicePairingStateFile) (now : Z) : DevicePairingStateFile :=
  mkState (pruneExpiredPending (pendingById file) now PENDING_TTL_MS) (pairedByDeviceId file).

Definition with_pending (s : DevicePairingStateFile) (p : omap string DevicePairingPendingRequest) :=
  mkState p (pairedByDeviceId s).
Definition with_paired (s : DevicePairingStateFile) (p : omap string PairedDevice) := mkState (pendingById s) p.

Definition normalizeDeviceId (d : string) : string := trim d.

Definition normalizeRole (r : option string) : option string :=
  match trim <$> r with Some (String _ _ as t) => Some t | _ => None end.

(** ** Roles and scopes *)

(** An item of the list is a role, a list of roles or absent. *)
Inductive RoleItem := OneRole (r : option string) | RoleList (l : option (list string)).

Definition addRoleItem (acc : list string) (item : RoleItem) : list string :=
  match item with
  | OneRole (Some r) => addTrimmed acc [r]
  | RoleList (Some l) => addTrimmed acc l
  | _ => acc
  end.

Definition mergeRoles (items : list RoleItem) : option (list string) :=
  match fold_left addRoleItem items [] with [] => None | l => Some l end.

Definition mergeScopes (items : list (option (list string))) : option (list string) :=
  let merged := fold_left (λ acc item, match item with Some l => addTrimmed acc l | None => acc end) items [] in
  let sawExplicitScopeList := existsb (λ item, match item with Some _ => true | None => false end) items in
  match merged with
  | [] => if sawExplicitScopeList then Some [] else None
  | l => Some l
  end.

Definition isRevoked (entry : DeviceAuthToken) : bool :=
  match revokedAtMs entry with Some t => negb (t =? 0) | None => false end.

Definition listActiveTokenRoles (toks : option (omap string DeviceAuthToken)) : option (list string) :=
  match toks with
  | None => None
  | Some m => mergeRoles [RoleList (Some (map tok_role (List.filter (λ e, negb (isRevoked e)) (ovalues m))))]
  end.

Definition listApprovedPairedDeviceRoles (device : PairedDevice) : list string :=
  mergeRoles [RoleList (roles device); OneRole (role device)] ?? [].

Definition listEffectivePairedDeviceRoles (device : PairedDevice) : list string :=
  match listActiveTokenRoles (tokens device) with
  | Some ((_ :: _) as activeTokenRoles) =>
      List.filter (set_has (listApprovedPairedDeviceRoles device)) activeTokenRoles
  | _ => []
  end.

Definition hasEffectivePairedDeviceRole (device : PairedDevice) (r : string) : bool :=
  match normalizeRole (Some r) with
  | None => false
  | Some normalized => bool_decide (normalized ∈ listEffectivePairedDeviceRoles device)
  end.

Definition sameStringSet (left right : list string) : bool :=
  (length left =? length right)%nat && forallb (set_has right) left.

Definition resolveRequestedRoles (r : PairingRequest) : list string :=
  mergeRoles [RoleList (req_roles r); OneRole (req_role r)] ?? [].
Definition resolveRequestedScopes (r : PairingRequest) : list string := normalizeDeviceAuthScopes (req_scopes r).

(** ** Requests *)

Definition samePendingApprovalSnapshot (existing : DevicePairingPendingRequest) (incoming : PairingRequest) : bool :=
  let old := request existing in
  if negb (String.eqb (publicKey old) (publicKey incoming)) then false
  else if negb (bool_decide (normalizeRole (req_role old) = normalizeRole (req_role incoming))) then false
  else sameStringSet (resolveRequestedRoles old) (resolveRequestedRoles incoming) &&
       sameStringSet (resolveRequestedScopes old) (resolveRequestedScopes incoming).

(** [incoming.x ?? existing.x] *)
Definition orElse {A} (a b : option A) : option A := match a with Some _ => a | None => b end.
Definition mergeMeta (incoming existing : Metadata) : Metadata :=
  mkMeta (orElse (displayName incoming) (displayName existing)) (orElse (platform incoming) (platform existing))
    (orElse (deviceFamily incoming) (deviceFamily existing)) (orElse (clientId incoming) (clientId existing))
    (orElse (clientMode incoming) (clientMode existing)) (orElse (remoteIp incoming) (remoteIp existing)).

Definition truthy (b : option bool) : bool := b ?? false.

Definition refreshPendingDevicePairingRequest (existing : DevicePairingPendingRequest) (incoming : PairingRequest)
    (repair : bool) : DevicePairingPendingRequest :=
  let old := request existing in
  mkPending (requestId existing)
    (mkRequest (req_deviceId old) (publicKey incoming) (mergeMeta (req_meta incoming) (req_meta old))
       (req_role old) (req_roles old) (req_scopes old) (Some (truthy (silent old) && truthy (silent incoming))))
    (Some (truthy (isRepair existing) || repair)) (ts existing).

Definition resolveSupersededPendingSilent (existing : list DevicePairingPendingRequest) (incomingSilent : option bool)
    : bool :=
  truthy incomingSilent && forallb (λ p, bool_decide (silent (request p) = Some true)) existing.

Definition buildPendingDevicePairingRequest (uuid dev : string) (repair : bool) (req : PairingRequest) (now : Z)
    : DevicePairingPendingRequest :=
  let r := normalizeRole (req_role req) in
  mkPending uuid
    (mkRequest dev (publicKey req) (req_meta req) r (mergeRoles [RoleList (req_roles req); OneRole r])
       (mergeScopes [req_scopes req]) (silent req)) (Some repair) now.

Definition deletePending (pending : omap string DevicePairingPendingRequest) (l : list DevicePairingPendingRequest) :=
  fold_left (λ m p, odel m (requestId p)) l pending.

(** [buildReplacement] of [requestDevicePairing]. *)
Definition buildReplacement (uuid dev : string) (repair : bool) (existing : list DevicePairingPendingRequest)
    (incoming : PairingRequest) (now : Z) : DevicePairingPendingRequest :=
  let latestPending := head existing in
  let mergedRoles := mergeRoles (flat_map (λ p, [RoleList (req_roles (request p)); OneRole (req_role (request p))]) existing
                                 ++ [RoleList (req_roles incoming); OneRole (req_role incoming)]) in
  let mergedScopes := mergeScopes (map (λ p, req_scopes (request p)) existing ++ [req_scopes incoming]) in
  buildPendingDevicePairingRequest uuid dev repair
    (mkRequest (req_deviceId incoming) (publicKey incoming) (req_meta incoming)
       (orElse (normalizeRole (req_role incoming)) (latestPending ≫= λ p, req_role (request p)))
       mergedRoles mergedScopes (Some (resolveSupersededPendingSilent existing (silent incoming)))) now.

(** [reconcilePendingPairingRequests]: the request, whether it was created, and the
    requests that are pending then. *)
Definition reconcilePendingPairingRequests (pending : omap string DevicePairingPendingRequest)
    (existing : list DevicePairingPendingRequest) (incoming : PairingRequest) (uuid dev : string) (repair : bool) (now : Z)
    : DevicePairingPendingRequest * bool * omap string DevicePairingPendingRequest :=
  let replace :=
    let req := buildReplacement uuid dev repair existing incoming now in
    (req, true, oset (deletePending pending existing) (requestId req) req) in
  match existing with
  | [single] =>
      if samePendingApprovalSnapshot single incoming then
        let refreshed := refreshPendingDevicePairingRequest single incoming repair in
        (refreshed, false, oset pending (requestId refreshed) refreshed)
      else replace
  | _ => replace
  end.

(** What an operation reads from outside. [clock n] is its n-th reading of the
    clock; the first is made by [loadState]. *)
Record Inputs := mkInputs { clock : nat → Z; newToken : nat → string; uuid : string }.

Definition pendingForDevice (s : DevicePairingStateFile) (dev : string) : list DevicePairingPendingRequest :=
  toSorted (λ left right, ts right <=? ts left)
    (List.filter (λ p, String.eqb (req_deviceId (request p)) dev) (ovalues (pendingById s))).

Definition requestDevicePairing (i : Inputs) (file : DevicePairingStateFile) (req : PairingRequest)
    : DevicePairingStateFile * result (DevicePairingPendingRequest * bool) :=
  let s := loadState file (clock i 0) in
  let dev := normalizeDeviceId (req_deviceId req) in
  if negb (str_truthy dev) then (file, Throw "deviceId required")
  else
    let repair := ohas (pairedByDeviceId s) dev in
    let '(r, created, pending) :=
      reconcilePendingPairingRequests (pendingById s) (pendingForDevice s dev) req (uuid i) dev repair (clock i 1) in
    (with_pending s pending, Ok (r, created)).

(** ** Tokens *)

Definition buildDeviceAuthToken (tok r : string) (scs : list string) (existing : option DeviceAuthToken) (now : Z)
    (rotated : option Z) : DeviceAuthToken :=
  mkToken tok r scs ((tok_createdAtMs <$> existing) ?? now) rotated None (existing ≫= lastUsedAtMs).

Definition resolveRoleScopedDeviceTokenScopes (r : string) (scs : option (list string)) : list string :=
  let normalized := normalizeDeviceAuthScopes scs in
  if String.eqb r "operator" then List.filter (λ s, starts_with s OPERATOR_SCOPE_PREFIX) normalized
  else List.filter (λ s, negb (starts_with s OPERATOR_SCOPE_PREFIX)) normalized.

Definition resolveApprovedTokenScopes (r : string) (pending : DevicePairingPendingRequest)
    (existingToken : option DeviceAuthToken) (approved : option (list string)) (existing : option PairedDevice)
    : list string :=
  match resolveRoleScopedDeviceTokenScopes r (req_scopes (request pending)) with
  | (_ :: _) as requestedScopes => requestedScopes
  | [] =>
      resolveRoleScopedDeviceTokenScopes r
        (orElse (tok_scopes <$> existingToken)
           (orElse approved (orElse (existing ≫= approvedScopes) (existing ≫= scopes))))
  end.

Definition resolveApprovedDeviceScopeBaseline (device : PairedDevice) : option (list string) :=
  match orElse (approvedScopes device) (scopes device) with
  | None => None
  | Some baseline => Some (normalizeDeviceAuthScopes (Some baseline))
  end.

Definition scopesWithinApprovedDeviceBaseline (r : string) (scs : list string) (approved : option (list string)) : bool :=
  match approved with None => false | Some a => roleScopesAllow r scs a end.

Definition deviceTokens (device : option PairedDevice) : omap string DeviceAuthToken :=
  match device ≫= tokens with Some m => m | None => [] end.

(** The device that an approval of the request leaves. *)
Definition approvedDevice (pending : DevicePairingPendingRequest) (existing : option PairedDevice)
    (newRoles newScopes : option (list string)) (toks : omap string DeviceAuthToken) (now : Z) : PairedDevice :=
  let req := request pending in
  mkDevice (req_deviceId req) (publicKey req) (req_meta req) (req_role req) newRoles newScopes newScopes (Some toks)
    ((createdAtMs <$> existing) ?? now) now.

Definition commitApproval (s : DevicePairingStateFile) (id : string) (device : PairedDevice) : DevicePairingStateFile :=
  mkState (odel (pendingById s) id) (oset (pairedByDeviceId s) (deviceId device) device).

(** The tokens of [approveDevicePairing], one for every requested role; each reads
    the clock for itself. *)
Fixpoint issueApproved (i : Inputs) (n : nat) (pending : DevicePairingPendingRequest) (approved : option (list string))
    (existing : option PairedDevice) (rs : list string) (toks : omap string DeviceAuthToken)
    : omap string DeviceAuthToken :=
  match rs with
  | [] => toks
  | r :: rest =>
      let existingToken := oget toks r in
      let nextScopes := resolveApprovedTokenScopes r pending existingToken approved existing in
      let now := clock i (2 + n) in
      let tok := buildDeviceAuthToken (newToken i n) r nextScopes existingToken now
                   (match existingToken with Some _ => Some now | None => None end) in
      issueApproved i (S n) pending approved existing rest (oset toks r tok)
  end.

(** The checks of [approveDevicePairing] on the scopes of the request. *)
Definition approvalRefused (pending : DevicePairingPendingRequest) (callerScopes : option (list string))
    : option DevicePairingForbiddenResult :=
  let requestedRoles := resolveRequestedRoles (request pending) in
  let requestedScopes := resolveRequestedScopes (request pending) in
  let requestedOperatorScopes := List.filter (λ s, starts_with s OPERATOR_SCOPE_PREFIX) requestedScopes in
  let roleMismatchScope := resolveScopeOutsideRequestedRoles requestedRoles requestedScopes in
  if ostr_truthy roleMismatchScope then Some (mkForbidden ScopeOutsideRequestedRoles roleMismatchScope None)
  else
    match requestedOperatorScopes with
    | [] => None
    | first :: _ =>
        match callerScopes with
        | None => Some (mkForbidden CallerScopesRequired (Some first) None)
        | Some caller =>
            let missingScope := resolveMissingRequestedScope OPERATOR_ROLE requestedOperatorScopes caller in
            if ostr_truthy missingScope then Some (mkForbidden CallerMissingScope missingScope None) else None
        end
    end.

Definition approveDevicePairing (i : Inputs) (file : DevicePairingStateFile) (id : string)
    (callerScopes : option (list string)) : DevicePairingStateFile * option ApproveDevicePairingResult :=
  let s := loadState file (clock i 0) in
  match oget (pendingById s) id with
  | None => (file, None)
  | Some pending =>
      match approvalRefused pending callerScopes with
      | Some refused => (file, Some (Forbidden refused))
      | None =>
          let req := request pending in
          let existing := oget (pairedByDeviceId s) (req_deviceId req) in
          let newRoles := mergeRoles [RoleList (existing ≫= roles); OneRole (existing ≫= role);
                                      RoleList (req_roles req); OneRole (req_role req)] in
          let newScopes := mergeScopes [orElse (existing ≫= approvedScopes) (existing ≫= scopes); req_scopes req] in
          let toks := issueApproved i 0 pending newScopes existing (resolveRequestedRoles req) (deviceTokens existing) in
          let device := approvedDevice pending existing newRoles newScopes toks (clock i 1) in
          (commitApproval s id device, Some (Approved id device))
      end
  end.

(** The tokens of [approveBootstrapDevicePairing], one for every role of the profile. *)
Fixpoint issueBootstrap (i : Inputs) (n : nat) (profileScopes : list string) (now : Z) (rs : list string)
    (toks : omap string DeviceAuthToken) : omap string DeviceAuthToken :=
  match rs with
  | [] => toks
  | r :: rest =>
      let existingToken := oget toks r in
      let tokenScopes := if String.eqb r OPERATOR_ROLE then resolveBootstrapProfileScopesForRole r profileScopes else [] in
      let tok := buildDeviceAuthToken (newToken i n) r tokenScopes existingToken now
                   (match existingToken with Some _ => Some now | None => None end) in
      issueBootstrap i (S n) profileScopes now rest (oset toks r tok)
  end.

Definition bootstrapRefused (pending : DevicePairingPendingRequest) (profileRoles profileScopes : list string)
    : option DevicePairingForbiddenResult :=
  let requestedRoles := resolveRequestedRoles (request pending) in
  let missingRole := List.find (λ r, negb (set_has profileRoles r)) requestedRoles in
  if ostr_truthy missingRole then Some (mkForbidden BootstrapRoleNotAllowed None missingRole)
  else
    let requestedOperatorScopes :=
      List.filter (λ s, starts_with s OPERATOR_SCOPE_PREFIX) (resolveRequestedScopes (request pending)) in
    let missingScope := resolveMissingRequestedScope OPERATOR_ROLE requestedOperatorScopes profileScopes in
    if ostr_truthy missingScope then Some (mkForbidden BootstrapScopeNotAllowed missingScope None) else None.

Definition approveBootstrapDevicePairing (i : Inputs) (file : DevicePairingStateFile) (id : string)
    (profile : DeviceBootstrapProfile) : DevicePairingStateFile * option ApproveDevicePairingResult :=
  let profileRoles := mergeRoles [RoleList (Some (bp_roles profile))] ?? [] in
  let profileScopes := normalizeDeviceAuthScopes (Some (bp_scopes profile)) in
  let s := loadState file (clock i 0) in
  match oget (pendingById s) id with
  | None => (file, None)
  | Some pending =>
      match bootstrapRefused pending profileRoles profileScopes with
      | Some refused => (file, Some (Forbidden refused))
      | None =>
          let req := request pending in
          let now := clock i 1 in
          let existing := oget (pairedByDeviceId s) (req_deviceId req) in
          let newRoles := mergeRoles [RoleList (existing ≫= roles); OneRole (existing ≫= role);
                                      RoleList (req_roles req); OneRole (req_role req); RoleList (Some profileRoles)] in
          let newScopes := mergeScopes [orElse (existing ≫= approvedScopes) (existing ≫= scopes); req_scopes req;
                                        Some profileScopes] in
          let toks := issueBootstrap i 0 profileScopes now profileRoles (deviceTokens existing) in
          let device := approvedDevice pending existing newRoles newScopes toks now in
          (commitApproval s id device, Some (Approved id device))
      end
  end.

(** [rejectPendingPairingRequest] *)
Definition rejectDevicePairing (i : Inputs) (file : DevicePairingStateFile) (id : string)
    : DevicePairingStateFile * option (string * string) :=
  let s := loadState file (clock i 0) in
  match oget (pendingById s) id with
  | None => (file, None)
  | Some pending => (with_pending s (odel (pendingById s) id), Some (id, req_deviceId (request pending)))
  end.

Definition removePairedDevice (i : Inputs) (file : DevicePairingStateFile) (dev : string)
    : DevicePairingStateFile * option string :=
  let s := loadState file (clock i 0) in
  let normalized := normalizeDeviceId dev in
  if negb (str_truthy normalized) || negb (ohas (pairedByDeviceId s) normalized) then (file, None)
  else (with_paired s (odel (pairedByDeviceId s) normalized), Some normalized).

Definition clearDevicePairing (i : Inputs) (file : DevicePairingStateFile) (dev : string) : DevicePairingStateFile * bool :=
  let s := loadState file (clock i 0) in
  let normalized := normalizeDeviceId dev in
  if negb (ohas (pairedByDeviceId s) normalized) then (file, false)
  else (with_paired s (odel (pairedByDeviceId s) normalized), true).

(** A patch: a field is absent, or present with a value that may be undefined. *)
Record MetadataPatch := mkPatch {
  p_displayName : option (option string);
  p_clientId : option (option string);
  p_clientMode : option (option string);
  p_remoteIp : option (option string);
}.

Definition set_meta (d : PairedDevice) (m : Metadata) : PairedDevice :=
  mkDevice (deviceId d) (dev_publicKey d) m (role d) (roles d) (scopes d) (approvedScopes d) (tokens d)
    (createdAtMs d) (approvedAtMs d).
Definition set_tokens (d : PairedDevice) (t : omap string DeviceAuthToken) : PairedDevice :=
  mkDevice (deviceId d) (dev_publicKey d) (dev_meta d) (role d) (roles d) (scopes d) (approvedScopes d) (Some t)
    (createdAtMs d) (approvedAtMs d).

Definition updatePairedDeviceMetadata (i : Inputs) (file : DevicePairingStateFile) (dev : string) (patch : MetadataPatch)
    : DevicePairingStateFile :=
  let s := loadState file (clock i 0) in
  let normalized := normalizeDeviceId dev in
  match oget (pairedByDeviceId s) normalized with
  | None => file
  | Some existing =>
      let m := dev_meta existing in
      let m' := mkMeta (p_displayName patch ?? displayName m) (platform m) (deviceFamily m) (p_clientId patch ?? clientId m)
                  (p_clientMode patch ?? clientMode m) (p_remoteIp patch ?? remoteIp m) in
      with_paired s (oset (pairedByDeviceId s) normalized (set_meta existing m'))
  end.

Definition putDevice (s : DevicePairingStateFile) (device : PairedDevice) : DevicePairingStateFile :=
  with_paired s (oset (pairedByDeviceId s) (deviceId device) device).

Definition getPairedDeviceFromState (s : DevicePairingStateFile) (dev : string) : option PairedDevice :=
  oget (pairedByDeviceId s) (normalizeDeviceId dev).

(** ** Reading *)

Definition listDevicePairing (i : Inputs) (file : DevicePairingStateFile)
    : list DevicePairingPendingRequest * list PairedDevice :=
  let s := loadState file (clock i 0) in
  (toSorted (λ a b, ts b <=? ts a) (ovalues (pendingById s)),
   toSorted (λ a b, approvedAtMs b <=? approvedAtMs a) (ovalues (pairedByDeviceId s))).

Definition getPairedDevice (i : Inputs) (file : DevicePairingStateFile) (dev : string) : option PairedDevice :=
  getPairedDeviceFromState (loadState file (clock i 0)) dev.

Definition getPendingDevicePairing (i : Inputs) (file : DevicePairingStateFile) (id : string)
    : option DevicePairingPendingRequest :=
  oget (pendingById (loadState file (clock i 0))) id.

(** ** Using tokens *)

(** SHA-256, by which secrets are compared. *)
Section digest.
Context (digest : string → string).

Definition safeEqualSecret (provided expected : string) : bool := String.eqb (digest provided) (digest expected).

Definition verifyPairingToken (provided expected : string) : bool :=
  if (String.length (trim provided) =? 0)%nat || (String.length (trim expected) =? 0)%nat then false
  else safeEqualSecret provided expected.

Definition touchToken (e : DeviceAuthToken) (now : Z) : DeviceAuthToken :=
  mkToken (token e) (tok_role e) (tok_scopes e) (tok_createdAtMs e) (rotatedAtMs e) (revokedAtMs e) (Some now).

(** [None] is [{ ok: true }], [Some reason] a refusal. *)
Definition verifyDeviceToken (i : Inputs) (file : DevicePairingStateFile) (dev provided r : string) (scs : list string)
    : DevicePairingStateFile * option string :=
  let s := loadState file (clock i 0) in
  match getPairedDeviceFromState s dev with
  | None => (file, Some "device-not-paired")
  | Some device =>
      match normalizeRole (Some r) with
      | None => (file, Some "role-missing")
      | Some rl =>
          match oget (deviceTokens (Some device)) rl with
          | None => (file, Some "token-missing")
          | Some entry =>
              if isRevoked entry then (file, Some "token-revoked")
              else if negb (verifyPairingToken provided (token entry)) then (file, Some "token-mismatch")
              else
                let approved := resolveApprovedDeviceScopeBaseline device in
                if negb (scopesWithinApprovedDeviceBaseline rl (tok_scopes entry) approved)
                then (file, Some "scope-mismatch")
                else if negb (roleScopesAllow rl (normalizeDeviceAuthScopes (Some scs)) (tok_scopes entry))
                then (file, Some "scope-mismatch")
                else
                  let entry' := touchToken entry (clock i 1) in
                  (putDevice s (set_tokens device (oset (deviceTokens (Some device)) rl entry')), None)
          end
      end
  end.

End digest.

(** The device, the role, its tokens and the one of the role. *)
Definition resolveDeviceTokenUpdateContext (s : DevicePairingStateFile) (dev r : string)
    : option (PairedDevice * string * omap string DeviceAuthToken * option DeviceAuthToken) :=
  match getPairedDeviceFromState s dev with
  | None => None
  | Some device =>
      match normalizeRole (Some r) with
      | None => None
      | Some rl =>
          if negb (bool_decide (rl ∈ listApprovedPairedDeviceRoles device)) then None
          else let toks := deviceTokens (Some device) in Some (device, rl, toks, oget toks rl)
      end
  end.

Definition ensureDeviceToken (i : Inputs) (file : DevicePairingStateFile) (dev r : string) (scs : list string)
    : DevicePairingStateFile * option DeviceAuthToken :=
  let s := loadState file (clock i 0) in
  let requestedScopes := normalizeDeviceAuthScopes (Some scs) in
  match resolveDeviceTokenUpdateContext s dev r with
  | None => (file, None)
  | Some (device, rl, toks, existing) =>
      let approved := resolveApprovedDeviceScopeBaseline device in
      if negb (scopesWithinApprovedDeviceBaseline rl requestedScopes approved) then (file, None)
      else
        let reusable e :=
          negb (isRevoked e) && scopesWithinApprovedDeviceBaseline rl (tok_scopes e) approved &&
          roleScopesAllow rl requestedScopes (tok_scopes e) in
        let issue :=
          let now := clock i 1 in
          let next := buildDeviceAuthToken (newToken i 0) rl requestedScopes existing now
                        (match existing with Some _ => Some now | None => None end) in
          (putDevice s (set_tokens device (oset toks rl next)), Some next) in
        match existing with
        | Some e => if reusable e then (file, Some e) else issue
        | None => issue
        end
  end.

Definition rotateDeviceToken (i : Inputs) (file : DevicePairingStateFile) (dev r : string) (scs : option (list string))
    : DevicePairingStateFile * (DeviceAuthToken + RotateDeviceTokenDenyReason) :=
  let s := loadState file (clock i 0) in
  match resolveDeviceTokenUpdateContext s dev r with
  | None => (file, inr UnknownDeviceOrRole)
  | Some (device, rl, toks, existing) =>
      let requestedScopes := normalizeDeviceAuthScopes (orElse scs (orElse (tok_scopes <$> existing) (scopes device))) in
      match resolveApprovedDeviceScopeBaseline device with
      | None => (file, inr MissingApprovedScopeBaseline)
      | Some approved =>
          if negb (scopesWithinApprovedDeviceBaseline rl requestedScopes (Some approved))
          then (file, inr ScopeOutsideApprovedBaseline)
          else
            let now := clock i 1 in
            let next := buildDeviceAuthToken (newToken i 0) rl requestedScopes existing now (Some now) in
            (putDevice s (set_tokens device (oset toks rl next)), inl next)
      end
  end.

Definition revokeDeviceToken (i : Inputs) (file : DevicePairingStateFile) (dev r : string)
    : DevicePairingStateFile * option DeviceAuthToken :=
  let s := loadState file (clock i 0) in
  match getPairedDeviceFromState s dev with
  | None => (file, None)
  | Some device =>
      match normalizeRole (Some r) with
      | None => (file, None)
      | Some rl =>
          let toks := deviceTokens (Some device) in
          match oget toks rl with
          | None => (file, None)
          | Some e =>
              let entry := mkToken (token e) (tok_role e) (tok_scopes e) (tok_createdAtMs e) (rotatedAtMs e)
                             (Some (clock i 1)) (lastUsedAtMs e) in
              (putDevice s (set_tokens device (oset toks rl entry)), Some entry)
          end
      end
  end.

(** ** Histories

    What an observer notes of the operations: approvals with the authority behind
    them, tokens handed out, revocations and removals. *)

(** An approval: the roles and scopes asked for, and the scopes of the one who
    approved it, or of the bootstrap profile. *)
Record Grant := mkGrant { g_roles : list string; g_scopes : list string; g_authority : list string }.

Inductive Event :=
| EvGranted (dev : string) (g : Grant)
| EvIssued (dev r tok : string)
| EvRevoked (dev r : string)
| EvRemoved (dev : string).

Inductive Op :=
| Request (req : PairingRequest)
| Approve (id : string) (callerScopes : option (list string))
| ApproveBootstrap (id : string) (profile : DeviceBootstrapProfile)
| Reject (id : string)
| Remove (dev : string)
| Clear (dev : string)
| UpdateMetadata (dev : string) (patch : MetadataPatch)
| Verify (dev provided r : string) (scs : list string)
| Ensure (dev r : string) (scs : list string)
| Rotate (dev r : string) (scs : option (list string))
| Revoke (dev r : string).

Definition issued (dev : string) (toks : omap string DeviceAuthToken) (rs : list string) : list Event :=
  flat_map (λ r, match oget toks r with Some e => [EvIssued dev r (token e)] | None => [] end) rs.

(** The events of an approval of the pending request [id]. *)
Definition granted (i : Inputs) (file : DevicePairingStateFile) (id : string) (res : option ApproveDevicePairingResult)
    (grant : PairingRequest → Grant) : list Event :=
  match res, getPendingDevicePairing i file id with
  | Some (Approved _ device), Some pending =>
      let g := grant (request pending) in
      EvGranted (deviceId device) g :: issued (deviceId device) (deviceTokens (Some device)) (g_roles g)
  | _, _ => []
  end.

Section histories.
Context (digest : string → string).

Definition step (file : DevicePairingStateFile) (i : Inputs) (op : Op) : DevicePairingStateFile * list Event :=
  match op with
  | Request req => ((requestDevicePairing i file req).1, [])
  | Approve id caller =>
      let '(s, res) := approveDevicePairing i file id caller in
      (s, granted i file id res (λ req, mkGrant (resolveRequestedRoles req) (resolveRequestedScopes req) (caller ?? [])))
  | ApproveBootstrap id profile =>
      let '(s, res) := approveBootstrapDevicePairing i file id profile in
      let profileScopes := normalizeDeviceAuthScopes (Some (bp_scopes profile)) in
      (s, granted i file id res (λ req, mkGrant (mergeRoles [RoleList (Some (bp_roles profile))] ?? [])
                                          (resolveRequestedScopes req ++ profileScopes) profileScopes))
  | Reject id => ((rejectDevicePairing i file id).1, [])
  | Remove dev =>
      let '(s, res) := removePairedDevice i file dev in
      (s, match res with Some d => [EvRemoved d] | None => [] end)
  | Clear dev =>
      let '(s, res) := clearDevicePairing i file dev in
      (s, if res then [EvRemoved (normalizeDeviceId dev)] else [])
  | UpdateMetadata dev patch => (updatePairedDeviceMetadata i file dev patch, [])
  | Verify dev provided r scs => ((verifyDeviceToken digest i file dev provided r scs).1, [])
  | Ensure dev r scs =>
      let '(s, res) := ensureDeviceToken i file dev r scs in
      (s, match res with Some e => [EvIssued (normalizeDeviceId dev) (trim r) (token e)] | None => [] end)
  | Rotate dev r scs =>
      let '(s, res) := rotateDeviceToken i file dev r scs in
      (s, match res with inl e => [EvIssued (normalizeDeviceId dev) (trim r) (token e)] | inr _ => [] end)
  | Revoke dev r =>
      let '(s, res) := revokeDeviceToken i file dev r in
      (s, match res with Some _ => [EvRevoked (normalizeDeviceId dev) (trim r)] | None => [] end)
  end.

Definition runFrom (start : DevicePairingStateFile * list Event) (trace : list (Inputs * Op))
    : DevicePairingStateFile * list Event :=
  fold_left (λ '(file, log) '(i, op), let '(file', evs) := step file i op in (file', log ++ evs)) trace start.
Definition run (trace : list (Inputs * Op)) : DevicePairingStateFile * list Event := runFrom (mkState [] [], []) trace.

End histories.

(** The approvals of a device since it was last removed. *)
Definition noteGrant (dev : string) (gs : list Grant) (ev : Event) : list Grant :=
  match ev with
  | EvGranted d g => if String.eqb d dev then gs ++ [g] else gs
  | EvRemoved d => if String.eqb d dev then [] else gs
  | _ => gs
  end.
Definition grantsOf (log : list Event) (dev : string) : list Grant := fold_left (noteGrant dev) log [].

(** The token handed out last for a device and role, unless it was revoked since. *)
Definition noteToken (dev r : string) (t : option string) (ev : Event) : option string :=
  match ev with
  | EvIssued d r' tok => if String.eqb d dev && String.eqb r' r then Some tok else t
  | EvRevoked d r' => if String.eqb d dev && String.eqb r' r then None else t
  | EvRemoved d => if String.eqb d dev then None else t
  | EvGranted _ _ => t
  end.
Definition activeToken (log : list Event) (dev r : string) : option string := fold_left (noteToken dev r) log None.

(** The approval permits the scope: for an operator, whoever approved had it. *)
Definition permits (g : Grant) (r scope : string) : Prop :=
  if String.eqb r OPERATOR_ROLE then operatorScopeSatisfied scope (normalizeScopeList (g_authority g)) = true
  else starts_with scope (r +:+ ".") = true ∧ scope ∈ g_scopes g.

(** ** Roles and scopes of a device *)

Definition item_has (item : RoleItem) (x : string) : Prop :=
  match item with
  | OneRole (Some r) => trimmed_in [r] x
  | RoleList (Some l) => trimmed_in l x
  | _ => False
  end.

Lemma elem_mergeRoles items x : x ∈ (mergeRoles items ?? []) ↔ ∃ item, item ∈ items ∧ item_has item x.
Proof.
  assert (mergeRoles items ?? [] = fold_left addRoleItem items []) as ->.
  { unfold mergeRoles. by destruct (fold_left addRoleItem items []). }
  assert (∀ acc, x ∈ fold_left addRoleItem items acc ↔ x ∈ acc ∨ ∃ item, item ∈ items ∧ item_has item x) as H.
  { induction items as [|item items IH]; intros acc; cbn [fold_left].
    - split; [by left|]. intros [?|(? & ?%elem_of_nil & _)]; done.
    - rewrite IH. setoid_rewrite elem_of_cons.
      assert (x ∈ addRoleItem acc item ↔ x ∈ acc ∨ item_has item x) as ->.
      { destruct item as [[r|]|[l|]]; unfold addRoleItem, item_has; rewrite ?elem_addTrimmed; tauto. }
      naive_solver. }
  rewrite H, elem_of_nil. tauto.
Qed.

Lemma elem_mergeScopes items x : x ∈ (mergeScopes items ?? []) ↔ ∃ l, Some l ∈ items ∧ trimmed_in l x.
Proof.
  unfold mergeScopes. set (f := λ acc item, match item with Some l => addTrimmed acc l | None => acc end).
  assert (∀ acc, x ∈ fold_left f items acc ↔ x ∈ acc ∨ ∃ l, Some l ∈ items ∧ trimmed_in l x) as H.
  { induction items as [|item items IH]; intros acc; cbn [fold_left].
    - split; [by left|]. intros [?|(? & ?%elem_of_nil & _)]; done.
    - rewrite IH. setoid_rewrite elem_of_cons. destruct item as [l|]; cbn; rewrite ?elem_addTrimmed; naive_solver. }
  specialize (H []). rewrite elem_of_nil in H.
  destruct (fold_left f items []) as [|y l]; [|cbn [default id]; rewrite H; tauto].
  rewrite elem_of_nil in H. destruct (existsb _ items); cbn; rewrite ?elem_of_nil; tauto.
Qed.

Lemma mergeScopes_some items l : Some l ∈ items → ∃ m, mergeScopes items = Some m.
Proof.
  intros H. unfold mergeScopes. destruct (fold_left _ items []); [|eauto].
  assert (existsb (λ item, match item with Some _ => true | None => false end) items = true) as ->; [|eauto].
  apply existsb_exists. exists (Some l). split; [by apply list_elem_of_In|done].
Qed.

Lemma item_has_trim item x : item_has item x → str_truthy x = true ∧ trim x = x.
Proof.
  destruct item as [[r|]|[l|]]; cbn; try done; intros H; (split; [apply H|by eapply trimmed_in_trim]).
Qed.

(** Merged lists are merged again without a change. *)
Lemma item_has_merged items x : item_has (RoleList (mergeRoles items)) x ↔ x ∈ (mergeRoles items ?? []).
Proof.
  destruct (mergeRoles items) as [l|] eqn:E; cbn; [|by rewrite elem_of_nil].
  assert (clean l) as Hc; [|by apply clean_trimmed].
  unfold clean. rewrite Forall_forall. intros y Hy. change l with (Some l ?? []) in Hy. rewrite <- E in Hy.
  apply elem_mergeRoles in Hy as (item & _ & Hy). by eapply item_has_trim.
Qed.

(** ** What the operations keep *)

(** The scope was asked for in one of the approvals, and for an operator covered by
    the authority behind it. *)
Definition backed (gs : list Grant) (x : string) : Prop :=
  ∃ g, g ∈ gs ∧ x ∈ g_scopes g ∧
    (starts_with x OPERATOR_SCOPE_PREFIX = true → operatorScopeSatisfied x (normalizeScopeList (g_authority g)) = true).

(** With a scope the list has those it implies. *)
Definition closed (l : list string) : Prop :=
  ("operator.admin" ∈ l → "operator.read" ∈ l ∧ "operator.write" ∈ l) ∧ ("operator.write" ∈ l → "operator.read" ∈ l).

Record device_ok (log : list Event) (d : string) (dev : PairedDevice) : Prop := mkDeviceOk {
  ok_id : deviceId dev = d;
  ok_same : approvedScopes dev = scopes dev;
  ok_roles r : r ∈ listApprovedPairedDeviceRoles dev → ∃ g, g ∈ grantsOf log d ∧ r ∈ g_roles g;
  ok_scopes x : x ∈ (approvedScopes dev ?? []) → backed (grantsOf log d) x ∧ str_truthy x = true ∧ trim x = x;
  ok_tokens r e : oget (deviceTokens (Some dev)) r = Some e →
    r ∈ listApprovedPairedDeviceRoles dev ∧ (isRevoked e = false → activeToken log d r = Some (token e));
}.

Record good (file : DevicePairingStateFile) (log : list Event) : Prop := mkGood {
  good_devices d dev : oget (pairedByDeviceId file) d = Some dev → device_ok log d dev;
  good_closed d g : g ∈ grantsOf log d → closed (g_scopes g);
}.

Definition event_device (ev : Event) : string :=
  match ev with EvGranted d _ | EvIssued d _ _ | EvRevoked d _ | EvRemoved d => d end.

Lemma grantsOf_app log evs d : grantsOf (log ++ evs) d = fold_left (noteGrant d) evs (grantsOf log d).
Proof. apply fold_left_app. Qed.
Lemma activeToken_app log evs d r : activeToken (log ++ evs) d r = fold_left (noteToken d r) evs (activeToken log d r).
Proof. apply fold_left_app. Qed.

Lemma other_device log evs d d' :
  Forall (λ ev, event_device ev = d) evs → d' ≠ d →
  grantsOf (log ++ evs) d' = grantsOf log d' ∧ ∀ r, activeToken (log ++ evs) d' r = activeToken log d' r.
Proof.
  intros Hevs Hne. rewrite grantsOf_app. setoid_rewrite activeToken_app. revert Hevs.
  generalize (grantsOf log d') (activeToken log d'). induction evs as [|ev evs IH]; intros gs t Hevs; [done|].
  apply Forall_cons in Hevs as [He Hevs]. cbn [fold_left].
  assert (String.eqb (event_device ev) d' = false) as Hb by (rewrite He; by apply String.eqb_neq).
  destruct ev; cbn [noteGrant noteToken event_device] in *; rewrite Hb; apply (IH gs t Hevs).
Qed.

Lemma device_ok_frame log log' d dev :
  grantsOf log' d = grantsOf log d → (∀ r, activeToken log' d r = activeToken log d r) →
  device_ok log d dev → device_ok log' d dev.
Proof. intros Hg Ht [H1 H2 H3 H4 H5]. split; try done; rewrite ?Hg; try done. setoid_rewrite Ht. done. Qed.

Lemma grants_unchanged log evs d :
  Forall (λ ev, match ev with EvGranted _ _ | EvRemoved _ => False | _ => True end) evs →
  grantsOf (log ++ evs) d = grantsOf log d.
Proof.
  intros H. rewrite grantsOf_app. generalize (grantsOf log d). induction H as [|ev evs He _ IH]; intros gs; [done|].
  cbn [fold_left]. destruct ev; try done; apply IH.
Qed.

(** A device is stored, with events that concern only it. *)
Lemma good_put file log evs dev p :
  good file log → Forall (λ ev, event_device ev = deviceId dev) evs →
  device_ok (log ++ evs) (deviceId dev) dev → (∀ g, g ∈ grantsOf (log ++ evs) (deviceId dev) → closed (g_scopes g)) →
  good (mkState p (oset (pairedByDeviceId file) (deviceId dev) dev)) (log ++ evs).
Proof.
  intros [Hd Hc] Hevs Hok Hcl. split; cbn [pairedByDeviceId].
  - intros d x. rewrite oget_oset. case_decide as E; [intros [= <-]; by rewrite <- E|]. intros H.
    destruct (other_device log evs (deviceId dev) d Hevs) as [H1 H2]; [done|].
    apply (device_ok_frame log); auto.
  - intros d g. destruct (decide (d = deviceId dev)) as [->|Hne]; [apply Hcl|].
    destruct (other_device log evs (deviceId dev) d Hevs Hne) as [-> _]. apply Hc.
Qed.

Lemma good_load file log now : good file log → good (loadState file now) log.
Proof. by intros [H1 H2]. Qed.

Lemma good_pending file log p : good file log → good (with_pending file p) log.
Proof. by intros [H1 H2]. Qed.

Lemma good_remove file log d :
  good file log → good (with_paired file (odel (pairedByDeviceId file) d)) (log ++ [EvRemoved d]).
Proof.
  intros [Hd Hc]. assert (Forall (λ ev, event_device ev = d) [EvRemoved d]) as Hevs by (by repeat constructor). split; cbn.
  - intros d' x. rewrite oget_odel. case_decide as E; [done|]. intros H.
    destruct (other_device log _ d d' Hevs) as [H1 H2]; [done|]. apply (device_ok_frame log); auto.
  - intros d' g. destruct (decide (d' = d)) as [->|Hne].
    + rewrite grantsOf_app. cbn [fold_left noteGrant]. rewrite String.eqb_refl. by intros ?%elem_of_nil.
    + destruct (other_device log _ d d' Hevs Hne) as [-> _]. apply Hc.
Qed.

(** The token of one role is replaced. *)
Lemma good_token file log dev r e evs :
  good file log → oget (pairedByDeviceId file) (deviceId dev) = Some dev →
  r ∈ listApprovedPairedDeviceRoles dev →
  Forall (λ ev, match ev with EvIssued d r' _ | EvRevoked d r' => d = deviceId dev ∧ r' = r | _ => False end) evs →
  (isRevoked e = false → activeToken (log ++ evs) (deviceId dev) r = Some (token e)) →
  good (putDevice file (set_tokens dev (oset (deviceTokens (Some dev)) r e))) (log ++ evs).
Proof.
  intros Hgood Hdev Hr Hevs Ha. destruct (good_devices _ _ Hgood _ _ Hdev) as [H1 H2 H3 H4 H5].
  assert (grantsOf (log ++ evs) (deviceId dev) = grantsOf log (deviceId dev)) as Hg.
  { apply grants_unchanged. apply (Forall_impl _ _ _ Hevs). by intros []. }
  apply (good_put file log evs (set_tokens dev _)); [done| | |].
  - apply (Forall_impl _ _ _ Hevs). intros []; cbn; naive_solver.
  - split; cbn [deviceId set_tokens approvedScopes scopes]; try done; rewrite ?Hg; try done.
    intros r' e'. unfold deviceTokens at 1. cbn [mbind option_bind tokens set_tokens]. rewrite oget_oset.
    case_decide as E; [intros [= <-]; by subst r'|]. intros H. destruct (H5 _ _ H) as [H6 H7]. split; [done|].
    intros Hrev. rewrite <- H7 by done. rewrite activeToken_app. clear Ha. revert Hevs E.
    generalize (activeToken log (deviceId dev) r'). clear. intros t Hevs E. revert t.
    induction Hevs as [|ev evs He _ IH]; intros t; [done|]. cbn [fold_left].
    assert (noteToken (deviceId dev) r' t ev = t) as ->; [|apply IH].
    destruct ev; cbn; try done; destruct He as [_ ->]; rewrite (proj2 (String.eqb_neq r r') E); by rewrite andb_false_r.
  - cbn [deviceId set_tokens]. rewrite Hg. apply (good_closed _ _ Hgood).
Qed.

(** ** Approvals *)

Lemma issued_device dev toks rs : Forall (λ ev, event_device ev = dev) (issued dev toks rs).
Proof.
  unfold issued. induction rs as [|r rs IH]; cbn; [constructor|]. apply Forall_app. split; [|done].
  destruct (oget toks r); repeat constructor.
Qed.

Lemma issued_grants dev toks rs gs d : fold_left (noteGrant d) (issued dev toks rs) gs = gs.
Proof.
  unfold issued. induction rs as [|r rs IH]; cbn; [done|]. rewrite fold_left_app. by destruct (oget toks r).
Qed.

Lemma issued_active dev toks rs r t :
  fold_left (noteToken dev r) (issued dev toks rs) t =
  match oget toks r with Some e => if set_has rs r then Some (token e) else t | None => t end.
Proof.
  unfold issued. revert t. induction rs as [|r' rs IH]; intros t; cbn [flat_map fold_left]; [by destruct (oget toks r)|].
  rewrite fold_left_app, IH, !set_has_decide. destruct (decide (r' = r)) as [->|Hne].
  - rewrite (bool_decide_eq_true_2 (r ∈ r :: rs)) by (by left). destruct (oget toks r); [|done]. cbn.
    rewrite !String.eqb_refl. cbn. by case_bool_decide.
  - assert (bool_decide (r ∈ r' :: rs) = bool_decide (r ∈ rs)) as ->.
    { apply bool_decide_ext. rewrite elem_of_cons. naive_solver. }
    destruct (oget toks r') as [e'|]; [|done]. cbn [fold_left noteToken].
    rewrite (proj2 (String.eqb_neq r' r) Hne), andb_false_r. done.
Qed.

(** What an approval needs to keep the invariant. *)
Lemma good_approval file log id pending existing newRoles newScopes toks now g :
  let req := request pending in
  let device := approvedDevice pending existing newRoles newScopes toks now in
  good file log → existing = oget (pairedByDeviceId file) (req_deviceId req) →
  (∀ r, r ∈ listApprovedPairedDeviceRoles device →
     (∃ dev, existing = Some dev ∧ r ∈ listApprovedPairedDeviceRoles dev) ∨ r ∈ g_roles g) →
  (∀ r dev, existing = Some dev → r ∈ listApprovedPairedDeviceRoles dev → r ∈ listApprovedPairedDeviceRoles device) →
  (∀ r, r ∈ g_roles g → r ∈ listApprovedPairedDeviceRoles device) →
  (∀ x, x ∈ (newScopes ?? []) → (str_truthy x = true ∧ trim x = x) ∧
     ((∃ dev, existing = Some dev ∧ x ∈ (approvedScopes dev ?? [])) ∨
      x ∈ g_scopes g ∧ (starts_with x OPERATOR_SCOPE_PREFIX = true →
        operatorScopeSatisfied x (normalizeScopeList (g_authority g)) = true))) →
  (∀ r e, oget toks r = Some e → r ∈ g_roles g ∨ oget (deviceTokens existing) r = Some e) →
  closed (g_scopes g) →
  good (commitApproval file id device) (log ++ EvGranted (req_deviceId req) g :: issued (req_deviceId req) toks (g_roles g)).
Proof.
  intros req device Hgood Hex HR1 HR2 HR3 HS HT HC. set (d := req_deviceId req) in *.
  set (evs := EvGranted d g :: issued d toks (g_roles g)).
  assert (grantsOf (log ++ evs) d = grantsOf log d ++ [g]) as Hg.
  { rewrite grantsOf_app. unfold evs. cbn [fold_left noteGrant]. by rewrite String.eqb_refl, issued_grants. }
  assert (∀ dev, existing = Some dev → device_ok log d dev) as Hdev.
  { intros dev E. apply (good_devices _ _ Hgood). by rewrite <- E. }
  apply (good_put file log evs device); [done| | |].
  - change (deviceId device) with d. constructor; [done|]. apply issued_device.
  - change (deviceId device) with d. split; try done; rewrite ?Hg.
    + intros r [(dev & E & Hr)|Hr]%HR1; [|exists g; split; [apply elem_of_app; right; by left|done]].
      destruct (ok_roles _ _ _ (Hdev dev E) r Hr) as (g' & ? & ?). exists g'. split; [apply elem_of_app; by left|done].
    + change (approvedScopes device) with newScopes. intros x Hx. destruct (HS x Hx) as [Hc Hx']. split; [|done].
      destruct Hx' as [(dev & E & Hd)|[H1 H2]].
      * destruct (ok_scopes _ _ _ (Hdev dev E) x Hd) as [(g' & ? & ?) _]. exists g'. split; [apply elem_of_app; by left|done].
      * exists g. split; [apply elem_of_app; right; by left|done].
    + intros r e. change (deviceTokens (Some device)) with toks. intros He. rewrite activeToken_app. unfold evs.
      cbn [fold_left noteToken]. rewrite issued_active, He, set_has_decide. case_bool_decide as Hr.
      * split; [by apply HR3|done].
      * destruct (HT r e He) as [?|Hold]; [done|]. destruct existing as [dev|]; [|done].
        destruct (ok_tokens _ _ _ (Hdev dev eq_refl) r e Hold) as [Ha Hb]. split; [by apply (HR2 r dev)|done].
  - change (deviceId device) with d. rewrite Hg. intros g' [H|H]%elem_of_app; [by apply (good_closed _ _ Hgood d)|].
    by apply list_elem_of_singleton in H as ->.
Qed.

Lemma issueApproved_get i n pending approved existing rs toks r e :
  oget (issueApproved i n pending approved existing rs toks) r = Some e → r ∈ rs ∨ oget toks r = Some e.
Proof.
  revert n toks. induction rs as [|r' rs IH]; intros n toks; cbn [issueApproved]; [by right|].
  intros [H|H]%IH; [left; by right|]. rewrite oget_oset in H. case_decide as E; [subst r'; left; by left|by right].
Qed.

Lemma issueBootstrap_get i n profileScopes now rs toks r e :
  oget (issueBootstrap i n profileScopes now rs toks) r = Some e → r ∈ rs ∨ oget toks r = Some e.
Proof.
  revert n toks. induction rs as [|r' rs IH]; intros n toks; cbn [issueBootstrap]; [by right|].
  intros [H|H]%IH; [left; by right|]. rewrite oget_oset in H. case_decide as E; [subst r'; left; by left|by right].
Qed.

Lemma ostr_truthy_find {f : string → bool} l : clean l → ostr_truthy (List.find f l) = false → List.find f l = None.
Proof.
  intros Hc. destruct (List.find f l) as [x|] eqn:E; [|done]. apply find_some in E as [Hx _].
  apply list_elem_of_In in Hx. unfold clean in Hc. rewrite Forall_forall in Hc. destruct (Hc x Hx) as [Ht _]. by destruct x.
Qed.

Lemma clean_filter f l : clean l → clean (List.filter f l).
Proof. unfold clean. rewrite !Forall_forall. intros H x [_ Hx]%filter_elem. by apply H. Qed.

(** The operator scopes of a request are covered, by the caller or by the profile. *)
Lemma missing_none l allowed x :
  clean l → ostr_truthy (resolveMissingRequestedScope OPERATOR_ROLE (List.filter (λ s, starts_with s OPERATOR_SCOPE_PREFIX) l) allowed) = false →
  x ∈ l → starts_with x OPERATOR_SCOPE_PREFIX = true → operatorScopeSatisfied x (normalizeScopeList allowed) = true.
Proof.
  intros Hc Hm Hx Hp. pose proof (clean_filter (λ s, starts_with s OPERATOR_SCOPE_PREFIX) l Hc) as Hcf.
  unfold resolveMissingRequestedScope in Hm. apply ostr_truthy_find in Hm; [|done].
  pose proof (resolveMissingRequestedScope_none _ _ _ Hcf Hm x) as H. apply H. apply filter_elem. done.
Qed.

Lemma approvalRefused_none pending caller x :
  approvalRefused pending caller = None → x ∈ resolveRequestedScopes (request pending) →
  starts_with x OPERATOR_SCOPE_PREFIX = true → operatorScopeSatisfied x (normalizeScopeList (caller ?? [])) = true.
Proof.
  intros H Hx Hp. unfold approvalRefused in H. destruct (ostr_truthy (resolveScopeOutsideRequestedRoles _ _)); [done|].
  set (l := List.filter _ _) in H. assert (x ∈ l) as Hl by (apply filter_elem; done).
  destruct l as [|first rest] eqn:El; [by apply elem_of_nil in Hl|]. destruct caller as [c|]; [|done]. rewrite <- El in H. unfold l in H.
  destruct (ostr_truthy _) eqn:Em; [done|]. eapply missing_none; try done. apply normalizeDeviceAuthScopes_clean.
Qed.

Lemma requestedRoles_clean req : clean (resolveRequestedRoles req).
Proof. apply Forall_forall. intros y (it & _ & Hy)%elem_mergeRoles. by eapply item_has_trim. Qed.

Lemma bootstrapRefused_none pending profileRoles profileScopes :
  bootstrapRefused pending profileRoles profileScopes = None →
  (∀ r, r ∈ resolveRequestedRoles (request pending) → r ∈ profileRoles) ∧
  ∀ x, x ∈ resolveRequestedScopes (request pending) → starts_with x OPERATOR_SCOPE_PREFIX = true →
    operatorScopeSatisfied x (normalizeScopeList profileScopes) = true.
Proof.
  unfold bootstrapRefused. intros H. case_match eqn:Erole; [done|]. case_match eqn:Escope; [done|]. clear H. split.
  - apply ostr_truthy_find in Erole; [|apply requestedRoles_clean]. intros r Hr.
    pose proof (find_none _ _ Erole r (proj1 (list_elem_of_In _ _) Hr)) as Hn. apply negb_false_iff in Hn. by apply set_has_iff.
  - intros x Hx Hp. eapply missing_none; try done. apply normalizeDeviceAuthScopes_clean.
Qed.

Lemma closed_normalized l : closed (normalizeDeviceAuthScopes l).
Proof.
  destruct l as [l|]; [|split; by intros ?%elem_of_nil]. split; rewrite !elem_normalizeDeviceAuthScopes; naive_solver.
Qed.

Lemma trimmed_normalized l x : trimmed_in l x → x ∈ normalizeDeviceAuthScopes (Some l).
Proof. rewrite elem_normalizeDeviceAuthScopes. by left. Qed.

Lemma approvedRoles_iff dev r :
  r ∈ listApprovedPairedDeviceRoles dev ↔ item_has (RoleList (roles dev)) r ∨ item_has (OneRole (role dev)) r.
Proof. unfold listApprovedPairedDeviceRoles. rewrite elem_mergeRoles. set_solver. Qed.

Lemma requestedRoles_iff req r :
  r ∈ resolveRequestedRoles req ↔ item_has (RoleList (req_roles req)) r ∨ item_has (OneRole (req_role req)) r.
Proof. unfold resolveRequestedRoles. rewrite elem_mergeRoles. set_solver. Qed.

(** The roles of the device an approval leaves. *)
Lemma approvedDevice_roles pending existing items newScopes toks now r :
  let device := approvedDevice pending existing
    (mergeRoles (RoleList (existing ≫= roles) :: OneRole (existing ≫= role) ::
                 RoleList (req_roles (request pending)) :: OneRole (req_role (request pending)) :: items))
    newScopes toks now in
  r ∈ listApprovedPairedDeviceRoles device ↔
  (∃ dev, existing = Some dev ∧ r ∈ listApprovedPairedDeviceRoles dev) ∨
  r ∈ resolveRequestedRoles (request pending) ∨ ∃ item, item ∈ items ∧ item_has item r.
Proof.
  cbn zeta. rewrite approvedRoles_iff, requestedRoles_iff. setoid_rewrite approvedRoles_iff.
  cbn [roles role approvedDevice]. rewrite item_has_merged, elem_mergeRoles. repeat setoid_rewrite elem_of_cons.
  destruct existing as [dev|]; cbn [mbind option_bind]; split.
  - intros [(item & [->|[->|[->|[->|Hi]]]] & Hr)|Hr]; eauto 10.
  - intros [(dev' & [= <-] & [H|H])|[[H|H]|(item & Hi & H)]]; [left; eexists; split; [|exact H]; tauto..|by right|].
    left. exists item. split; [tauto|done].
  - intros [(item & [->|[->|[->|[->|Hi]]]] & Hr)|Hr]; try done; right; eauto.
  - intros [(dev' & Hd & H)|[[H|H]|(item & Hi & H)]]; [done|left; eexists; split; [|exact H]; tauto|by right|].
    left. exists item. split; [tauto|done].
Qed.

(** The scopes of the device an approval leaves. *)
Lemma newScopes_cases existing items x :
  (∀ dev, existing = Some dev → approvedScopes dev = scopes dev ∧ clean (approvedScopes dev ?? [])) →
  x ∈ (mergeScopes (orElse (existing ≫= approvedScopes) (existing ≫= scopes) :: items) ?? []) →
  (∃ dev, existing = Some dev ∧ x ∈ (approvedScopes dev ?? [])) ∨ ∃ l, Some l ∈ items ∧ trimmed_in l x.
Proof.
  intros Hex (l & [Hl|Hl]%elem_of_cons & Hx)%elem_mergeScopes; [|right; eauto]. left.
  destruct existing as [dev|]; [|done]. destruct (Hex dev eq_refl) as [H1 H2]. exists dev. split; [done|].
  cbn [mbind option_bind] in Hl. rewrite <- H1 in Hl. destruct (approvedScopes dev) as [a|]; [|done].
  cbn [orElse default id] in *. injection Hl as ->. by apply clean_trimmed.
Qed.

Lemma device_ok_clean log d dev :
  device_ok log d dev → approvedScopes dev = scopes dev ∧ clean (approvedScopes dev ?? []).
Proof. intros [H1 H2 H3 H4 H5]. split; [done|]. apply Forall_forall. intros x Hx. by apply H4. Qed.

Lemma good_approve i file log id caller :
  good file log → good (step (λ s, s) file i (Approve id caller)).1 (log ++ (step (λ s, s) file i (Approve id caller)).2).
Proof.
  intros Hgood. cbn [step]. unfold approveDevicePairing, granted, getPendingDevicePairing.
  pose proof (good_load file log (clock i 0) Hgood) as Hload. set (s := loadState file (clock i 0)) in *.
  destruct (oget (pendingById s) id) as [pending|] eqn:Ep; [|cbn; by rewrite app_nil_r].
  destruct (approvalRefused pending caller) as [res|] eqn:Er.
  { cbn [fst snd]. by rewrite app_nil_r. }
  cbn [fst snd]. set (existing := oget (pairedByDeviceId s) (req_deviceId (request pending))).
  apply (good_approval s log id pending existing); try done.
  - intros r [?|[?|(? & ?%elem_of_nil & _)]]%approvedDevice_roles; [by left|by right|done].
  - intros r dev E Hr. apply approvedDevice_roles. left. eauto.
  - intros r Hr. apply approvedDevice_roles. right. by left.
  - intros x Hx. assert (str_truthy x = true ∧ trim x = x) as Hc.
    { apply elem_mergeScopes in Hx as (l & _ & Hx). split; [apply Hx|by eapply trimmed_in_trim]. }
    split; [done|]. apply newScopes_cases in Hx as [?|(l & Hl & Hx)]; [by left| |].
    + apply list_elem_of_singleton in Hl. right. assert (x ∈ resolveRequestedScopes (request pending)) as Hx'.
      { unfold resolveRequestedScopes. rewrite <- Hl. by apply trimmed_normalized. }
      split; [done|]. by apply approvalRefused_none with pending.
    + intros dev E. eapply device_ok_clean, (good_devices _ _ Hload). by rewrite <- E.
  - intros r e. apply issueApproved_get.
  - apply closed_normalized.
Qed.

Lemma good_bootstrap i file log id profile :
  good file log →
  good (step (λ s, s) file i (ApproveBootstrap id profile)).1 (log ++ (step (λ s, s) file i (ApproveBootstrap id profile)).2).
Proof.
  intros Hgood. cbn [step]. unfold approveBootstrapDevicePairing, granted, getPendingDevicePairing.
  pose proof (good_load file log (clock i 0) Hgood) as Hload. set (s := loadState file (clock i 0)) in *.
  destruct (oget (pendingById s) id) as [pending|] eqn:Ep; [|cbn; by rewrite app_nil_r].
  set (profileRoles := mergeRoles [RoleList (Some (bp_roles profile))] ?? []).
  set (profileScopes := normalizeDeviceAuthScopes (Some (bp_scopes profile))).
  destruct (bootstrapRefused pending profileRoles profileScopes) as [res|] eqn:Er.
  { cbn [fst snd]. by rewrite app_nil_r. }
  cbn [fst snd]. set (existing := oget (pairedByDeviceId s) (req_deviceId (request pending))).
  assert (clean profileRoles) as Hcr.
  { apply Forall_forall. intros x (item & _ & Hx)%elem_mergeRoles. by eapply item_has_trim. }
  assert (clean profileScopes) as Hcs by apply normalizeDeviceAuthScopes_clean.
  apply bootstrapRefused_none in Er as [Erole Escope].
  apply (good_approval s log id pending existing); try done.
  - intros r [?|[Hr|(item & ->%list_elem_of_singleton & Hr)]]%approvedDevice_roles; [by left|right|right; by apply clean_trimmed].
    by apply Erole.
  - intros r dev E Hr. apply approvedDevice_roles. left. eauto.
  - intros r Hr. apply approvedDevice_roles. right. right. exists (RoleList (Some profileRoles)). split; [by left|by apply clean_trimmed].
  - intros x Hx. assert (str_truthy x = true ∧ trim x = x) as Hc.
    { apply elem_mergeScopes in Hx as (l & _ & Hx). split; [apply Hx|by eapply trimmed_in_trim]. }
    split; [done|]. apply newScopes_cases in Hx as [?|(l & Hl & Hx)]; [by left| |].
    + right. cbn [g_scopes g_authority]. rewrite elem_of_app. apply elem_of_cons in Hl as [Hl|Hl].
      * assert (x ∈ resolveRequestedScopes (request pending)) as Hx'.
        { unfold resolveRequestedScopes. rewrite <- Hl. by apply trimmed_normalized. }
        split; [by left|]. intros Hp. by apply Escope.
      * apply list_elem_of_singleton in Hl as [= ->]. apply clean_trimmed in Hx; [|done]. split; [by right|].
        intros Hp. apply (satisfied_mono x [x]); [|by apply satisfied_refl].
        intros y ->%list_elem_of_singleton. by apply elem_normalizeScopeList, clean_trimmed.
    + intros dev E. eapply device_ok_clean, (good_devices _ _ Hload). by rewrite <- E.
  - intros r e. apply issueBootstrap_get.
  - cbn [g_scopes]. destruct (closed_normalized (req_scopes (request pending))) as [C1 C2].
    destruct (closed_normalized (Some (bp_scopes profile))) as [C3 C4].
    split; rewrite !elem_of_app; unfold resolveRequestedScopes, profileScopes; naive_solver.
Qed.

(** ** Histories keep the invariant *)

Lemma normalizeRole_some r rl : normalizeRole (Some r) = Some rl → rl = trim r ∧ str_truthy rl = true.
Proof. unfold normalizeRole. cbn. destruct (trim r); [done|]. by intros [= <-]. Qed.

Lemma resolveContext_some s dev r device rl toks existing :
  resolveDeviceTokenUpdateContext s dev r = Some (device, rl, toks, existing) →
  oget (pairedByDeviceId s) (normalizeDeviceId dev) = Some device ∧ normalizeRole (Some r) = Some rl ∧
  rl ∈ listApprovedPairedDeviceRoles device ∧ toks = deviceTokens (Some device) ∧ existing = oget toks rl.
Proof.
  unfold resolveDeviceTokenUpdateContext, getPairedDeviceFromState. destruct (oget _ _) as [dv|]; [|done].
  destruct (normalizeRole (Some r)) as [rl'|]; [|done]. case_bool_decide; cbn [negb]; [|done]. intros [= <- <- <- <-]. done.
Qed.

Lemma issued_now log d r tok : activeToken (log ++ [EvIssued d r tok]) d r = Some tok.
Proof. rewrite activeToken_app. cbn. by rewrite !String.eqb_refl. Qed.

Lemma reissued log d r tok f :
  activeToken log d r = Some tok → good f log → good f (log ++ [EvIssued d r tok]).
Proof.
  intros Ha [H1 H2].
  assert (∀ d', grantsOf (log ++ [EvIssued d r tok]) d' = grantsOf log d') as Hg.
  { intros d'. apply grants_unchanged. by repeat constructor. }
  assert (∀ d' r', activeToken (log ++ [EvIssued d r tok]) d' r' = activeToken log d' r') as Ht.
  { intros d' r'. rewrite activeToken_app. cbn. destruct (String.eqb_spec d d') as [<-|], (String.eqb_spec r r') as [<-|]; done. }
  split; [|intros d' g; rewrite Hg; apply H2]. intros d' dev Hd. apply (device_ok_frame log); auto.
Qed.

Lemma verifyDeviceToken_refused digest i file dev provided r scs file' why :
  verifyDeviceToken digest i file dev provided r scs = (file', Some why) → file' = file.
Proof. unfold verifyDeviceToken. intros H. by case_matches. Qed.

Lemma verifyDeviceToken_ok digest i file dev provided r scs file' :
  verifyDeviceToken digest i file dev provided r scs = (file', None) ↔
  ∃ device rl e,
    getPairedDeviceFromState file dev = Some device ∧ normalizeRole (Some r) = Some rl ∧
    oget (deviceTokens (Some device)) rl = Some e ∧ isRevoked e = false ∧
    verifyPairingToken digest provided (token e) = true ∧
    scopesWithinApprovedDeviceBaseline rl (tok_scopes e) (resolveApprovedDeviceScopeBaseline device) = true ∧
    roleScopesAllow rl (normalizeDeviceAuthScopes (Some scs)) (tok_scopes e) = true ∧
    file' = putDevice (loadState file (clock i 0))
              (set_tokens device (oset (deviceTokens (Some device)) rl (touchToken e (clock i 1)))).
Proof.
  unfold verifyDeviceToken. change (getPairedDeviceFromState (loadState file (clock i 0)) dev) with (getPairedDeviceFromState file dev).
  split.
  - intros H. destruct (getPairedDeviceFromState file dev) as [device|] eqn:E1; [|done].
    destruct (normalizeRole (Some r)) as [rl|] eqn:E2; [|done].
    destruct (oget (deviceTokens (Some device)) rl) as [e|] eqn:E3; [|done].
    destruct (isRevoked e) eqn:E4; [done|]. destruct (verifyPairingToken _ _ _) eqn:E5; cbn [negb] in H; [|done].
    destruct (scopesWithinApprovedDeviceBaseline _ _ _) eqn:E6; cbn [negb] in H; [|done].
    destruct (roleScopesAllow _ _ _) eqn:E7; cbn [negb] in H; [|done]. injection H as <-. by exists device, rl, e.
  - intros (device & rl & e & -> & -> & -> & -> & -> & -> & -> & ->). done.
Qed.

Lemma good_after_step digest i file op log :
  good file log → (∀ n, 0 < clock i n) → good (step digest file i op).1 (log ++ (step digest file i op).2).
Proof.
  intros Hg Hclock. pose proof (good_load file log (clock i 0) Hg) as Hl.
  destruct op as [req|id caller|id profile|id|dev|dev|dev patch|dev provided r scs|dev r scs|dev r scs|dev r].
  - cbn [step fst snd]. rewrite app_nil_r. unfold requestDevicePairing. destruct (negb _); [done|].
    destruct (reconcilePendingPairingRequests _ _ _ _ _ _ _) as [[q c] p]. by apply good_pending.
  - by apply good_approve.
  - by apply good_bootstrap.
  - cbn [step fst snd]. rewrite app_nil_r. unfold rejectDevicePairing. destruct (oget _ _); [by apply good_pending|done].
  - cbn [step]. unfold removePairedDevice. destruct (_ || _); cbn [fst snd]; [by rewrite app_nil_r|by apply good_remove].
  - cbn [step]. unfold clearDevicePairing. destruct (negb _); cbn [fst snd]; [by rewrite app_nil_r|by apply good_remove].
  - cbn [step fst snd]. rewrite app_nil_r. unfold updatePairedDeviceMetadata.
    destruct (oget _ _) as [dv|] eqn:Ed; [|done]. destruct (good_devices _ _ Hl _ _ Ed) as [H1 H2 H3 H4 H5].
    rewrite <- (app_nil_r log). rewrite <- H1. apply (good_put _ log [] (set_meta dv _)); [done|constructor| |].
    + rewrite app_nil_r. cbn [deviceId set_meta]. rewrite H1. by split.
    + rewrite app_nil_r. apply (good_closed _ _ Hl).
  - cbn [step fst snd]. rewrite app_nil_r. destruct (verifyDeviceToken _ _ _ _ _ _ _) as [f' [why|]] eqn:E.
    { by apply verifyDeviceToken_refused in E as ->. }
    apply verifyDeviceToken_ok in E as (device & rl & e & E1 & E2 & E3 & E4 & E5 & E6 & E7 & ->). cbn [fst].
    destruct (good_devices _ _ Hl _ _ E1) as [H1 H2 H3 H4 H5]. rewrite <- (app_nil_r log).
    apply good_token; [done|by rewrite H1|by destruct (H5 _ _ E3)|constructor|].
    intros _. rewrite app_nil_r, H1. destruct (H5 _ _ E3) as [_ H]. by apply H.
  - cbn [step]. unfold ensureDeviceToken. destruct (resolveDeviceTokenUpdateContext _ _ _) as [[[[device rl] toks] existing]|] eqn:E;
      [|cbn; by rewrite app_nil_r].
    apply resolveContext_some in E as (E1 & [-> _]%normalizeRole_some & E3 & -> & ->).
    destruct (negb _); [cbn; by rewrite app_nil_r|].
    destruct (good_devices _ _ Hl _ _ E1) as [H1 H2 H3 H4 H5]. rewrite <- H1.
    assert (∀ e, good (putDevice (loadState file (clock i 0)) (set_tokens device (oset (deviceTokens (Some device)) (trim r) e)))
                   (log ++ [EvIssued (deviceId device) (trim r) (token e)])) as Hput.
    { intros e. apply good_token; [done|by rewrite H1|done|by repeat constructor|]. intros _. apply issued_now. }
    destruct (oget (deviceTokens (Some device)) (trim r)) as [e|] eqn:Ee; [|apply Hput].
    destruct (negb (isRevoked e) && _ && _) eqn:Er; [|apply Hput]. cbn [fst snd]. apply reissued; [|done].
    destruct (isRevoked e) eqn:Erev; [done|]. rewrite H1. by apply (H5 _ _ Ee).
  - cbn [step]. unfold rotateDeviceToken. destruct (resolveDeviceTokenUpdateContext _ _ _) as [[[[device rl] toks] existing]|] eqn:E;
      [|cbn; by rewrite app_nil_r].
    apply resolveContext_some in E as (E1 & [-> _]%normalizeRole_some & E3 & -> & ->).
    destruct (resolveApprovedDeviceScopeBaseline device); [|cbn; by rewrite app_nil_r].
    destruct (negb _); [cbn; by rewrite app_nil_r|].
    destruct (good_devices _ _ Hl _ _ E1) as [H1 H2 H3 H4 H5]. rewrite <- H1. cbn [fst snd].
    apply good_token; [done|by rewrite H1|done|by repeat constructor|]. intros _. apply issued_now.
  - cbn [step]. unfold revokeDeviceToken. destruct (getPairedDeviceFromState _ _) as [device|] eqn:E1; [|cbn; by rewrite app_nil_r].
    destruct (normalizeRole _) as [rl|] eqn:E2; [|cbn; by rewrite app_nil_r]. apply normalizeRole_some in E2 as [-> _].
    destruct (oget _ _) as [e|] eqn:Ee; [|cbn; by rewrite app_nil_r]. cbn [fst snd].
    destruct (good_devices _ _ Hl _ _ E1) as [H1 H2 H3 H4 H5]. rewrite <- H1.
    apply good_token; [done|by rewrite H1|by destruct (H5 _ _ Ee)|by repeat constructor|].
    unfold isRevoked. cbn [revokedAtMs]. pose proof (Hclock 1%nat). intros Hz%negb_false_iff%Z.eqb_eq. lia.
Qed.

Definition clock_runs (trace : list (Inputs * Op)) : Prop := Forall (λ x, ∀ n, 0 < clock x.1 n) trace.

Lemma good_run digest start trace :
  good start.1 start.2 → clock_runs trace → good (runFrom digest start trace).1 (runFrom digest start trace).2.
Proof.
  unfold runFrom. intros Hg Hc. revert start Hg. induction Hc as [|[i op] trace Hi _ IH]; intros [file log] Hg; [done|].
  cbn [fold_left]. pose proof (good_after_step digest i file op log Hg Hi) as H. destruct (step digest file i op) as [f' evs].
  by apply IH.
Qed.

Lemma good_start : good (mkState [] []) [].
Proof. split; [done|]. by intros d g ?%elem_of_nil. Qed.

(** ** Which scopes a device may use *)

(** Normalizing adds only what is implied. *)
Lemma normalized_source l x :
  x ∈ normalizeDeviceAuthScopes (Some l) → starts_with x OPERATOR_SCOPE_PREFIX = true →
  ∃ y, trimmed_in l y ∧ starts_with y OPERATOR_SCOPE_PREFIX = true ∧ operatorScopeSatisfied x [y] = true.
Proof.
  intros [H|[[-> [H|H]]|[-> H]]]%elem_normalizeDeviceAuthScopes Hp; [|by eexists..].
  exists x. split; [done|]. split; [done|]. by apply satisfied_refl.
Qed.

Lemma covers_operator x l : covers OPERATOR_ROLE x l ↔ operatorScopeSatisfied x (normalizeScopeList l) = true.
Proof. done. Qed.

(** What the token of a device may be used for is permitted by an approval. *)
Lemma covered_permitted log d dev rl e x :
  device_ok log d dev → (∀ g, g ∈ grantsOf log d → closed (g_scopes g)) → trim rl = rl →
  scopesWithinApprovedDeviceBaseline rl (tok_scopes e) (resolveApprovedDeviceScopeBaseline dev) = true →
  covers rl x (tok_scopes e) → ∃ g, g ∈ grantsOf log d ∧ permits g rl x.
Proof.
  intros [H1 H2 H3 H4 H5] Hcl Hrl Hw Hx. unfold resolveApprovedDeviceScopeBaseline in Hw. rewrite <- H2 in Hw.
  destruct (approvedScopes dev) as [base|]; [|done]. cbn [orElse scopesWithinApprovedDeviceBaseline default id] in *.
  rewrite roleScopesAllow_iff in Hw. unfold permits, covers in *. rewrite Hrl in *. destruct (String.eqb rl OPERATOR_ROLE).
  - apply satisfied_by in Hx as (y & Hy & _ & Hxy). apply elem_normalizeScopeList in Hy.
    specialize (Hw y Hy). apply satisfied_by in Hw as (z & Hz & Hzp & Hyz).
    apply elem_normalizeScopeList, clean_trimmed in Hz; [|apply normalizeDeviceAuthScopes_clean].
    apply normalized_source in Hz as (w & Hw & Hwp & Hzw); [|done].
    assert (w ∈ base) as Hb.
    { assert (clean base) as Hc by (apply Forall_forall; intros q Hq; by apply H4). by apply clean_trimmed in Hw. }
    destruct (H4 w Hb) as [(g & Hg & _ & Hga) _]. exists g. split; [done|]. specialize (Hga Hwp).
    eapply satisfied_trans; [exact Hxy|]. eapply satisfied_trans; [exact Hyz|]. by eapply satisfied_trans.
  - destruct Hx as [Hxp Hx]. destruct (Hw x Hx) as [_ Hb].
    apply clean_trimmed in Hb; [|apply normalizeDeviceAuthScopes_clean].
    assert (∀ y, trimmed_in base y → backed (grantsOf log d) y) as Hback.
    { intros y Hy. apply H4. assert (clean base) as Hc by (apply Forall_forall; intros q Hq; by apply H4).
      by apply clean_trimmed in Hy. }
    apply elem_normalizeDeviceAuthScopes in Hb as [Hb|[[-> [Hb|Hb]]|[-> Hb]]];
      destruct (Hback _ Hb) as (g & Hg & Hgs & _); exists g; (split; [done|]; split; [done|]); [done|..];
      destruct (Hcl g Hg) as [C1 C2]; [by apply C1|by apply C2|by apply C1].
Qed.

(** ** Pending requests *)

Record pending_ok (file : DevicePairingStateFile) : Prop := mkPendingOk {
  po_wf : owf (pendingById file);
  po_id id p : oget (pendingById file) id = Some p → requestId p = id ∧ trim (req_deviceId (request p)) = req_deviceId (request p);
}.

(** The request [p'] is [p] as it was shown, possibly with fresher metadata. *)
Record same_request (p p' : DevicePairingPendingRequest) : Prop := mkSame {
  sr_id : requestId p' = requestId p;
  sr_ts : ts p' = ts p;
  sr_device : req_deviceId (request p') = req_deviceId (request p);
  sr_key : publicKey (request p') = publicKey (request p);
  sr_role : req_role (request p') = req_role (request p);
  sr_roles : req_roles (request p') = req_roles (request p);
  sr_scopes : req_scopes (request p') = req_scopes (request p);
  sr_silent : truthy (silent (request p')) = true → truthy (silent (request p)) = true;
}.

Lemma same_request_refl p : same_request p p.
Proof. by split. Qed.

Lemma same_request_trans p q r : same_request p q → same_request q r → same_request p r.
Proof. intros [] []. split; congruence || auto. Qed.

Lemma same_request_roles p p' : same_request p p' → resolveRequestedRoles (request p') = resolveRequestedRoles (request p).
Proof. intros []. unfold resolveRequestedRoles. congruence. Qed.

Lemma load_pending file now id p :
  owf (pendingById file) → oget (pendingById (loadState file now)) id = Some p →
  oget (pendingById file) id = Some p ∧ now - ts p <= PENDING_TTL_MS.
Proof.
  intros Hw. cbn [loadState pendingById]. unfold pruneExpiredPending. rewrite oget_filter by done.
  destruct (oget (pendingById file) id) as [q|]; [|done]. cbn [snd].
  destruct (Z.ltb_spec PENDING_TTL_MS (now - ts q)); cbn [negb]; [done|]. intros [= ->]. done.
Qed.

Lemma pending_ok_load file now : pending_ok file → pending_ok (loadState file now).
Proof.
  intros [H1 H2]. split; [by apply owf_filter|]. intros id p Hp. by apply load_pending in Hp as [Hp _]; [apply H2|].
Qed.

Lemma deletePending_get m l id p :
  oget (deletePending m l) id = Some p → oget m id = Some p ∧ ∀ q, q ∈ l → requestId q ≠ id.
Proof.
  unfold deletePending. revert m. induction l as [|q l IH]; intros m; cbn [fold_left].
  - intros H. split; [done|]. by intros q ?%elem_of_nil.
  - intros [H1 H2]%IH. rewrite oget_odel in H1. case_decide as E; [done|]. split; [done|].
    intros q' [->|H]%elem_of_cons; [done|by apply H2].
Qed.

Lemma deletePending_wf m l : owf m → owf (deletePending m l).
Proof. unfold deletePending. revert m. induction l as [|q l IH]; intros m H; cbn; [done|]. by apply IH, owf_odel. Qed.

Lemma pendingForDevice_elem s dev p :
  pending_ok s → p ∈ pendingForDevice s dev → oget (pendingById s) (requestId p) = Some p ∧ req_deviceId (request p) = dev.
Proof.
  intros [H1 H2]. unfold pendingForDevice. rewrite toSorted_elem, filter_elem. intros [E%String.eqb_eq Hp]. split; [|done].
  apply list_elem_of_fmap in Hp as ([id q] & -> & Hin). apply list_elem_of_In, oget_In_wf in Hin; [|done]. cbn [snd].
  by destruct (H2 _ _ Hin) as [-> _].
Qed.

(** A request is refreshed only by one for the same key, roles and scopes. *)
Lemma refreshed_same single incoming repair :
  samePendingApprovalSnapshot single incoming = true →
  same_request single (refreshPendingDevicePairingRequest single incoming repair).
Proof.
  unfold samePendingApprovalSnapshot. destruct (String.eqb_spec (publicKey (request single)) (publicKey incoming)) as [E|]; [|done].
  intros _. split; cbn; try done. by intros [? _]%andb_true_iff.
Qed.

(** A request changes the pending ones as the code's comments say: it refreshes the
    one there is, or replaces those of its device by one. *)
Lemma request_pending i file req file' res :
  pending_ok file → requestDevicePairing i file req = (file', res) →
  pending_ok file' ∧
  ∀ id p', oget (pendingById file') id = Some p' →
    id = uuid i ∨ ∃ p, oget (pendingById file) id = Some p ∧ same_request p p'.
Proof.
  intros Hf. unfold requestDevicePairing. set (s := loadState file (clock i 0)). set (dev := normalizeDeviceId _).
  pose proof (pending_ok_load file (clock i 0) Hf) as Hs. fold s in Hs.
  assert (∀ id p, oget (pendingById s) id = Some p → oget (pendingById file) id = Some p) as Hload.
  { intros id p Hp. by apply (load_pending file (clock i 0)) in Hp as [Hp _]; [|apply Hf]. }
  destruct (negb (str_truthy dev)).
  { intros [= <- <-]. split; [done|]. intros id p' H. right. exists p'. split; [done|apply same_request_refl]. }
  unfold reconcilePendingPairingRequests. set (existing := pendingForDevice s dev).
  set (req' := buildReplacement _ _ _ _ _ _). set (m := deletePending (pendingById s) existing).
  assert (pending_ok (with_pending s (oset m (requestId req') req')) ∧
    ∀ id p', oget (oset m (requestId req') req') id = Some p' →
      id = uuid i ∨ ∃ p, oget (pendingById file) id = Some p ∧ same_request p p') as Hrep.
  { split.
    - split; cbn [pendingById with_pending]; [apply owf_oset, deletePending_wf, Hs|].
      intros id p. rewrite oget_oset. case_decide as E; [intros [= <-]; split; [done|]; cbn; apply trim_idemp|].
      intros [H _]%deletePending_get. by apply (po_id _ Hs).
    - intros id p'. rewrite oget_oset. case_decide as E; [intros [= <-]; left; by rewrite <- E|].
      intros [H _]%deletePending_get. right. exists p'. split; [by apply Hload|apply same_request_refl]. }
  destruct existing as [|single [|q l]] eqn:Ex; try (intros [= <- <-]; exact Hrep).
  destruct (samePendingApprovalSnapshot single req) eqn:Esame; [|intros [= <- <-]; exact Hrep]. intros [= <- <-].
  destruct (pendingForDevice_elem s dev single Hs) as [Hsin Hdev]; [fold existing; rewrite Ex; by left|].
  pose proof (refreshed_same single req (ohas (pairedByDeviceId s) dev) Esame) as Hsame.
  set (ref := refreshPendingDevicePairingRequest _ _ _) in *. split.
  - split; cbn [pendingById with_pending]; [apply owf_oset, Hs|]. intros id p. rewrite oget_oset.
    case_decide as E; [|apply (po_id _ Hs)]. intros [= <-]. split; [done|]. rewrite (sr_device _ _ Hsame). by apply (po_id _ Hs) in Hsin as [_ ?].
  - intros id p'. cbn [pendingById with_pending]. rewrite oget_oset. case_decide as E.
    + intros [= <-]. right. exists single. split; [|done]. apply Hload. rewrite <- E. exact Hsin.
    + intros H. right. exists p'. split; [by apply Hload|apply same_request_refl].
Qed.

(** The other operations only remove requests. *)
Lemma step_pending_kept digest i file op :
  match op with Request _ => False | _ => True end →
  pendingById (step digest file i op).1 = pendingById file ∨
  ∃ id, pendingById (step digest file i op).1 = odel (pendingById (loadState file (clock i 0))) id ∨
        pendingById (step digest file i op).1 = pendingById (loadState file (clock i 0)).
Proof.
  destruct op; intros H; try done; cbn [step].
  - unfold approveDevicePairing. destruct (oget _ _); [|by left]. destruct (approvalRefused _ _); [by left|].
    right. exists id. by left.
  - unfold approveBootstrapDevicePairing. destruct (oget _ _); [|by left]. destruct (bootstrapRefused _ _ _); [by left|].
    right. exists id. by left.
  - unfold rejectDevicePairing. destruct (oget _ _); [right; exists id; by left|by left].
  - unfold removePairedDevice. destruct (_ || _); [by left|right; exists ""; by right].
  - unfold clearDevicePairing. destruct (negb _); [by left|right; exists ""; by right].
  - unfold updatePairedDeviceMetadata. destruct (oget _ _); [right; exists ""; by right|by left].
  - destruct (verifyDeviceToken _ _ _ _ _ _ _) as [f' [why|]] eqn:E.
    { apply verifyDeviceToken_refused in E as ->. by left. }
    apply verifyDeviceToken_ok in E as (device & rl & e & _ & _ & _ & _ & _ & _ & _ & ->). right. exists "". by right.
  - unfold ensureDeviceToken. destruct (resolveDeviceTokenUpdateContext _ _ _) as [[[[device rl] toks] existing]|]; [|by left].
    destruct (negb _); [by left|]. destruct existing as [e|]; [|right; exists ""; by right].
    destruct (negb (isRevoked e) && _ && _); [by left|right; exists ""; by right].
  - unfold rotateDeviceToken. destruct (resolveDeviceTokenUpdateContext _ _ _) as [[[[device rl] toks] existing]|]; [|by left].
    destruct (resolveApprovedDeviceScopeBaseline device); [|by left]. destruct (negb _); [by left|right; exists ""; by right].
  - unfold revokeDeviceToken. destruct (getPairedDeviceFromState _ _) as [device|]; [|by left].
    destruct (normalizeRole _); [|by left]. destruct (oget _ _); [right; exists ""; by right|by left].
Qed.

Lemma step_pending digest i file op :
  pending_ok file →
  pending_ok (step digest file i op).1 ∧
  ∀ id p', oget (pendingById (step digest file i op).1) id = Some p' →
    (∃ req, op = Request req ∧ id = uuid i) ∨ ∃ p, oget (pendingById file) id = Some p ∧ same_request p p'.
Proof.
  intros Hf. destruct (match op with Request _ => true | _ => false end) eqn:Eop.
  - destruct op as [req| | | | | | | | | |]; try done. cbn [step fst]. destruct (requestDevicePairing i file req) as [file' res] eqn:E.
    destruct (request_pending i file req file' res Hf E) as [H1 H2]. split; [done|]. intros id p' H. destruct (H2 id p' H); eauto.
  - assert (match op with Request _ => False | _ => True end) as Hop by (by destruct op).
    pose proof (pending_ok_load file (clock i 0) Hf) as Hl.
    assert (∀ id p, oget (pendingById (loadState file (clock i 0))) id = Some p → oget (pendingById file) id = Some p) as Hload.
    { intros id p Hp. by apply load_pending in Hp as [Hp _]; [|apply Hf]. }
    assert (∀ m, (m = pendingById file ∨ ∃ id, m = odel (pendingById (loadState file (clock i 0))) id ∨ m = pendingById (loadState file (clock i 0))) →
      owf m ∧ ∀ id p, oget m id = Some p → oget (pendingById file) id = Some p) as H.
    { intros m [->|(id & [->| ->])]; (split; [|]); try done; try apply Hf; try apply Hl; try apply owf_odel, Hl.
      intros id' p. rewrite oget_odel. case_decide; [done|apply Hload]. }
    destruct (H _ (step_pending_kept digest i file op Hop)) as [H1 H2]. split.
    + split; [done|]. intros id p Hp. by apply (po_id _ Hf), H2.
    + intros id p' Hp. right. exists p'. split; [by apply H2|apply same_request_refl].
Qed.

(** Requests whose ids are not used again stay what they were. *)
Definition not_reused (id : string) (trace : list (Inputs * Op)) : Prop :=
  Forall (λ x, match x.2 with Request _ => uuid x.1 ≠ id | _ => True end) trace.

Lemma run_pending digest trace start :
  pending_ok start.1 →
  pending_ok (runFrom digest start trace).1 ∧
  ∀ id p', not_reused id trace → oget (pendingById (runFrom digest start trace).1) id = Some p' →
    ∃ p, oget (pendingById start.1) id = Some p ∧ same_request p p'.
Proof.
  unfold runFrom. revert start. induction trace as [|[i op] trace IH]; intros [file log] Hf; cbn [fold_left fst].
  - split; [done|]. intros id p' _ H. exists p'. split; [done|apply same_request_refl].
  - destruct (step_pending digest i file op Hf) as [H1 H2]. destruct (step digest file i op) as [f' evs].
    destruct (IH (f', log ++ evs) H1) as [H3 H4]. split; [done|]. intros id p' [Hn Hns]%Forall_cons Hp.
    destruct (H4 id p' Hns Hp) as (q & Hq & Hqp). destruct (H2 id q Hq) as [(req & -> & ->)|(p & Hp0 & Hpq)]; [done|].
    exists p. split; [done|by eapply same_request_trans].
Qed.

Lemma pending_ok_start : pending_ok (mkState [] []).
Proof. split; [apply owf_nil|done]. Qed.

(** ** Tokens can be used *)

(** The operator scopes among [xs] are covered by the approved ones. *)
Definition within (xs : list string) (base : list string) : Prop :=
  ∀ x, trimmed_in xs x → starts_with x OPERATOR_SCOPE_PREFIX = true →
    ∃ y, trimmed_in base y ∧ operatorScopeSatisfied x [y] = true.

Record usable (dev : PairedDevice) : Prop := mkUsable {
  us_id : trim (deviceId dev) = deviceId dev;
  us_same : approvedScopes dev = scopes dev;
  us_token r e : oget (deviceTokens (Some dev)) r = Some e → trim (token e) ≠ "";
  us_operator e : oget (deviceTokens (Some dev)) OPERATOR_ROLE = Some e → within (tok_scopes e) (approvedScopes dev ?? []);
}.

Definition all_usable (file : DevicePairingStateFile) : Prop :=
  ∀ d dev, oget (pairedByDeviceId file) d = Some dev → deviceId dev = d ∧ usable dev.

Lemma within_mono xs base base' : (∀ y, trimmed_in base y → trimmed_in base' y) → within xs base → within xs base'.
Proof. intros H Hw x Hx Hp. destruct (Hw x Hx Hp) as (y & Hy & ?). exists y. split; [by apply H|done]. Qed.

Lemma within_refl xs : within xs xs.
Proof. intros x Hx Hp. exists x. split; [done|by apply satisfied_refl]. Qed.

(** Normalizing and selecting scopes keeps them within. *)
Lemma within_normalized xs base : within xs base → within (normalizeDeviceAuthScopes (Some xs)) base.
Proof.
  intros Hw x Hx Hp. apply clean_trimmed in Hx; [|apply normalizeDeviceAuthScopes_clean].
  apply normalized_source in Hx as (z & Hz & Hzp & Hxz); [|done]. destruct (Hw z Hz Hzp) as (y & Hy & Hzy).
  exists y. split; [done|by eapply satisfied_trans].
Qed.

Lemma within_sub xs ys base : (∀ x, x ∈ ys → x ∈ xs) → within xs base → within ys base.
Proof.
  intros H Hw x (Ht & z & Hz & ->) Hp. apply Hw; [|done]. split; [done|]. exists z. split; [by apply H|done].
Qed.

Lemma within_nil base : within [] base.
Proof. intros x (_ & y & ?%elem_of_nil & _). done. Qed.

Lemma allowed_within xs base :
  roleScopesAllow OPERATOR_ROLE xs (normalizeDeviceAuthScopes (Some base)) = true → within xs base.
Proof.
  intros H x Hx Hp. rewrite roleScopesAllow_iff in H. specialize (H x Hx). apply covers_operator, satisfied_by in H as (z & Hz & Hzp & Hxz).
  apply elem_normalizeScopeList, clean_trimmed in Hz; [|apply normalizeDeviceAuthScopes_clean].
  apply normalized_source in Hz as (y & Hy & _ & Hzy); [|done]. exists y. split; [done|by eapply satisfied_trans].
Qed.

Lemma within_allowed xs base :
  Forall (λ x, starts_with x OPERATOR_SCOPE_PREFIX = true) xs → clean xs → within xs base →
  roleScopesAllow OPERATOR_ROLE xs (normalizeDeviceAuthScopes (Some base)) = true.
Proof.
  intros Hp Hc Hw. apply roleScopesAllow_iff. intros x Hx. apply covers_operator. pose proof Hx as Hin.
  apply clean_trimmed in Hin; [|done]. rewrite Forall_forall in Hp. destruct (Hw x Hx (Hp x Hin)) as (y & Hy & Hxy).
  apply (satisfied_mono x [y]); [|done]. intros z ->%list_elem_of_singleton.
  apply elem_normalizeScopeList, clean_trimmed; [apply normalizeDeviceAuthScopes_clean|by apply trimmed_normalized].
Qed.

Lemma usable_put file d dev p :
  all_usable file → usable dev → deviceId dev = d → all_usable (mkState p (oset (pairedByDeviceId file) d dev)).
Proof.
  intros Hf Hd E d' x. cbn [pairedByDeviceId]. rewrite oget_oset. case_decide as Ed; [|apply Hf]. intros [= <-]. by subst.
Qed.

Lemma usable_token dev r e :
  usable dev → trim (token e) ≠ "" → (r = OPERATOR_ROLE → within (tok_scopes e) (approvedScopes dev ?? [])) →
  usable (set_tokens dev (oset (deviceTokens (Some dev)) r e)).
Proof.
  intros [H1 H2 H3 H4] Ht Hw. split; [done|done| |].
  - intros r' e'. change (deviceTokens (Some (set_tokens dev ?m))) with m. rewrite oget_oset. case_decide; [by intros [= <-]|apply H3].
  - intros e'. change (deviceTokens (Some (set_tokens dev ?m))) with m. rewrite oget_oset. case_decide; [intros [= <-]; by apply Hw|apply H4].
Qed.

(** Tokens of an approval. *)
Definition tokens_fine (base : list string) (toks : omap string DeviceAuthToken) : Prop :=
  (∀ r e, oget toks r = Some e → trim (token e) ≠ "") ∧ ∀ e, oget toks OPERATOR_ROLE = Some e → within (tok_scopes e) base.

Lemma tokens_fine_set base toks r e :
  tokens_fine base toks → trim (token e) ≠ "" → (r = OPERATOR_ROLE → within (tok_scopes e) base) → tokens_fine base (oset toks r e).
Proof.
  intros [H1 H2] Ht Hw. split.
  - intros r' e'. rewrite oget_oset. case_decide; [by intros [= <-]|apply H1].
  - intros e'. rewrite oget_oset. case_decide; [intros [= <-]; by apply Hw|apply H2].
Qed.

Lemma operatorScopes_within scs base :
  (∀ l, scs = Some l → within l base) → within (resolveRoleScopedDeviceTokenScopes OPERATOR_ROLE scs) base.
Proof.
  intros H. unfold resolveRoleScopedDeviceTokenScopes. change (String.eqb OPERATOR_ROLE "operator") with true. cbn match.
  apply (within_sub (normalizeDeviceAuthScopes scs)); [by intros x [_ Hx]%filter_elem|].
  destruct scs as [l|]; [|apply within_nil]. apply within_normalized. by apply H.
Qed.

Lemma approvedToken_within pending existingToken approved existing :
  let base := approved ?? [] in
  (∀ l, req_scopes (request pending) = Some l → within l base) →
  (∀ e, existingToken = Some e → within (tok_scopes e) base) →
  (∀ l, orElse (existing ≫= approvedScopes) (existing ≫= scopes) = Some l → within l base) →
  within (resolveApprovedTokenScopes OPERATOR_ROLE pending existingToken approved existing) base.
Proof.
  intros base Hp Ht He. unfold resolveApprovedTokenScopes. pose proof (operatorScopes_within _ _ Hp) as Hreq. revert Hreq.
  destruct (resolveRoleScopedDeviceTokenScopes _ _); [intros _|done]. apply operatorScopes_within.
  destruct existingToken as [e|]; cbn [fmap option_fmap option_map orElse].
  - intros l [= <-]. by apply Ht.
  - destruct approved as [a|]; cbn [orElse]; [|done]. intros l [= <-]. apply within_refl.
Qed.

Lemma issueApproved_fine i pending approved existing rs :
  let base := approved ?? [] in
  (∀ n, trim (newToken i n) ≠ "") →
  (∀ l, req_scopes (request pending) = Some l → within l base) →
  (∀ l, orElse (existing ≫= approvedScopes) (existing ≫= scopes) = Some l → within l base) →
  ∀ n toks, tokens_fine base toks → tokens_fine base (issueApproved i n pending approved existing rs toks).
Proof.
  intros base Hi Hp He. induction rs as [|r rs IH]; intros n toks Hf; [done|]. cbn [issueApproved].
  apply IH, tokens_fine_set; [done|apply Hi|]. intros ->. apply approvedToken_within; [done| |done].
  intros e E. by apply (proj2 Hf).
Qed.

Lemma issueBootstrap_fine i profileScopes base now rs :
  (∀ n, trim (newToken i n) ≠ "") → within profileScopes base →
  ∀ n toks, tokens_fine base toks → tokens_fine base (issueBootstrap i n profileScopes now rs toks).
Proof.
  intros Hi Hp. induction rs as [|r rs IH]; intros n toks Hf; [done|]. cbn [issueBootstrap].
  apply IH, tokens_fine_set; [done|apply Hi|]. intros ->. cbn [tok_scopes buildDeviceAuthToken].
  change (String.eqb OPERATOR_ROLE OPERATOR_ROLE) with true. cbn match. unfold resolveBootstrapProfileScopesForRole.
  destruct (String.eqb _ _); [|apply within_nil].
  apply (within_sub (normalizeDeviceAuthScopes (Some profileScopes))); [by intros x [_ Hx]%filter_elem|by apply within_normalized].
Qed.

Lemma all_usable_load file now : all_usable file → all_usable (loadState file now).
Proof. done. Qed.

Lemma baseline_within dev base :
  approvedScopes dev = scopes dev → resolveApprovedDeviceScopeBaseline dev = Some base →
  ∃ l, approvedScopes dev = Some l ∧ base = normalizeDeviceAuthScopes (Some l).
Proof.
  unfold resolveApprovedDeviceScopeBaseline. intros H. rewrite <- H. destruct (approvedScopes dev) as [l|]; cbn; [|done].
  intros [= <-]. eauto.
Qed.

(** What an approval needs to leave a usable device. *)
Lemma usable_approval file id pending existing items newRoles toks now :
  let req := request pending in
  let newScopes := mergeScopes (orElse (existing ≫= approvedScopes) (existing ≫= scopes) :: req_scopes req :: items) in
  all_usable file → existing = oget (pairedByDeviceId file) (req_deviceId req) →
  (trim (req_deviceId req) = req_deviceId req) →
  (tokens_fine (newScopes ?? []) (deviceTokens existing) →
   (∀ l, req_scopes req = Some l → within l (newScopes ?? [])) →
   (∀ l, orElse (existing ≫= approvedScopes) (existing ≫= scopes) = Some l → within l (newScopes ?? [])) →
   tokens_fine (newScopes ?? []) toks) →
  all_usable (commitApproval file id (approvedDevice pending existing newRoles newScopes toks now)).
Proof.
  intros req newScopes Hf He Ht Htoks.
  assert (∀ l, Some l ∈ orElse (existing ≫= approvedScopes) (existing ≫= scopes) :: req_scopes req :: items →
    ∀ y, trimmed_in l y → trimmed_in (newScopes ?? []) y) as Hsub.
  { intros l Hl y Hy. split; [apply Hy|]. exists y. split; [apply elem_mergeScopes; eauto|]. symmetry. by eapply trimmed_in_trim. }
  assert (∀ l, Some l ∈ orElse (existing ≫= approvedScopes) (existing ≫= scopes) :: req_scopes req :: items →
    within l (newScopes ?? [])) as Hw.
  { intros l Hl. eapply within_mono; [by apply Hsub|apply within_refl]. }
  destruct Htoks as [HT1 HT2].
  - destruct existing as [dev|]; [|done]. symmetry in He. destruct (Hf _ _ He) as [_ [U1 U2 U3 U4]].
    split; [done|]. intros e Hoe. specialize (U4 e Hoe). destruct (approvedScopes dev) as [l|] eqn:El.
    + eapply within_mono; [|exact U4]. apply Hsub. cbn [mbind option_bind]. rewrite El. by left.
    + intros x Hx Hp. destruct (U4 x Hx Hp) as (y & (_ & z & Hz%elem_of_nil & _) & _). done.
  - intros l E. apply Hw. rewrite E. right. by left.
  - intros l E. apply Hw. rewrite E. by left.
  - apply usable_put; [done| |done]. split; [done|done|done|done].
Qed.

Definition tokens_named (x : Inputs * Op) : Prop := ∀ n, trim (newToken x.1 n) ≠ "".

Lemma touch_same e now : token (touchToken e now) = token e ∧ tok_scopes (touchToken e now) = tok_scopes e.
Proof. done. Qed.

Lemma usable_step digest i file op :
  all_usable file → pending_ok file → tokens_named (i, op) → all_usable (step digest file i op).1.
Proof.
  intros Hf Hpend Hi. pose proof (all_usable_load file (clock i 0) Hf) as Hl. pose proof (pending_ok_load file (clock i 0) Hpend) as Hpl.
  assert (∀ dev base, usable dev → resolveApprovedDeviceScopeBaseline dev = Some base →
    ∀ xs, roleScopesAllow OPERATOR_ROLE xs base = true → within xs (approvedScopes dev ?? [])) as Hallow.
  { intros dev base Hu Hb xs Hxs. apply baseline_within in Hb as (l & -> & ->); [|by apply us_same]. by apply allowed_within. }
  destruct op as [req|id caller|id profile|id|dev|dev|dev patch|dev provided r scs|dev r scs|dev r scs|dev r]; cbn [step].
  - cbn [fst]. unfold requestDevicePairing. destruct (negb _); [done|].
    by destruct (reconcilePendingPairingRequests _ _ _ _ _ _ _) as [[q c] p].
  - unfold approveDevicePairing. destruct (oget (pendingById _) id) as [pending|] eqn:Ep; [|done]. destruct (approvalRefused _ _); [done|].
    cbn [fst]. apply (usable_approval _ id pending _ []); try done; [apply (po_id _ Hpl _ _ Ep)|].
    intros. by apply issueApproved_fine.
  - unfold approveBootstrapDevicePairing. destruct (oget (pendingById _) id) as [pending|] eqn:Ep; [|done]. destruct (bootstrapRefused _ _ _); [done|].
    cbn [fst]. apply (usable_approval _ id pending _ [Some _]); try done; [apply (po_id _ Hpl _ _ Ep)|].
    intros. apply issueBootstrap_fine; [done| |done]. eapply within_mono; [|apply within_refl].
    intros y Hy. split; [apply Hy|]. exists y. split; [apply elem_mergeScopes; eexists; split; [do 2 right; by left|done]|].
    symmetry. by eapply trimmed_in_trim.
  - cbn [fst]. unfold rejectDevicePairing. by destruct (oget _ _).
  - unfold removePairedDevice. destruct (_ || _); [done|]. cbn [fst]. intros d x. cbn [pairedByDeviceId with_paired loadState]. rewrite oget_odel. case_decide; [done|apply Hf].
  - unfold clearDevicePairing. destruct (negb _); [done|]. cbn [fst]. intros d x. cbn [pairedByDeviceId with_paired loadState]. rewrite oget_odel. case_decide; [done|apply Hf].
  - cbn [fst]. unfold updatePairedDeviceMetadata. destruct (oget _ _) as [dv|] eqn:Ed; [|done]. destruct (Hl _ _ Ed) as [Hid [U1 U2 U3 U4]].
    apply usable_put; [done| |done]. constructor; [exact U1|exact U2|exact U3|exact U4].
  - cbn [fst]. destruct (verifyDeviceToken _ _ _ _ _ _ _) as [f' [why|]] eqn:E.
    { by apply verifyDeviceToken_refused in E as ->. }
    apply verifyDeviceToken_ok in E as (device & rl & e & E1 & E2 & E3 & E4 & E5 & E6 & E7 & ->). cbn [fst].
    destruct (Hl _ _ E1) as [Hid Hu]. apply usable_put; [done| |done]. apply usable_token; [done|by apply (us_token _ Hu rl e)|].
    intros ->. exact (us_operator _ Hu e E3).
  - unfold ensureDeviceToken. destruct (resolveDeviceTokenUpdateContext _ _ _) as [[[[device rl] toks] existing]|] eqn:E; [|done].
    apply resolveContext_some in E as (E1 & _ & E3 & -> & ->). destruct (negb _) eqn:Ew; [done|]. apply negb_false_iff in Ew.
    destruct (Hl _ _ E1) as [Hid Hu].
    assert (all_usable (putDevice (loadState file (clock i 0)) (set_tokens device (oset (deviceTokens (Some device)) rl
      (buildDeviceAuthToken (newToken i 0) rl (normalizeDeviceAuthScopes (Some scs)) (oget (deviceTokens (Some device)) rl) (clock i 1)
        (match oget (deviceTokens (Some device)) rl with Some _ => Some (clock i 1) | None => None end)))))) as Hput.
    { apply usable_put; [done| |done]. apply usable_token; [done|apply Hi|]. intros ->. cbn [tok_scopes buildDeviceAuthToken].
      destruct (resolveApprovedDeviceScopeBaseline device) eqn:Eb; [|done]. by eapply Hallow. }
    destruct (oget (deviceTokens (Some device)) rl) as [e|]; [|exact Hput]. destruct (negb (isRevoked e) && _ && _); [done|exact Hput].
  - unfold rotateDeviceToken. destruct (resolveDeviceTokenUpdateContext _ _ _) as [[[[device rl] toks] existing]|] eqn:E; [|done].
    apply resolveContext_some in E as (E1 & _ & E3 & -> & ->).
    destruct (resolveApprovedDeviceScopeBaseline device) eqn:Eb; [|done]. destruct (negb _) eqn:Ew; [done|]. apply negb_false_iff in Ew.
    destruct (Hl _ _ E1) as [Hid Hu]. cbn [fst]. apply usable_put; [done| |done]. apply usable_token; [done|apply Hi|].
    intros ->. by eapply Hallow.
  - unfold revokeDeviceToken. destruct (getPairedDeviceFromState _ _) as [device|] eqn:E1; [|done].
    destruct (normalizeRole _) as [rl|]; [|done]. destruct (oget _ _) as [e|] eqn:Ee; [|done]. destruct (Hl _ _ E1) as [Hid Hu].
    cbn [fst]. apply usable_put; [done| |done]. apply usable_token; [done|by apply (us_token _ Hu rl e)|]. intros ->. exact (us_operator _ Hu e Ee).
Qed.

Lemma usable_run digest trace start :
  all_usable start.1 → pending_ok start.1 → Forall tokens_named trace →
  all_usable (runFrom digest start trace).1.
Proof.
  unfold runFrom. intros Hu Hp Ht. revert start Hu Hp. induction Ht as [|[i op] trace Hi _ IH]; intros [file log] Hu Hp; [done|].
  cbn [fold_left]. pose proof (usable_step digest i file op Hu Hp Hi) as H1. pose proof (step_pending digest i file op Hp) as [H2 _].
  destruct (step digest file i op) as [f' evs]. by apply IH.
Qed.

(** ** Verifying what was issued *)

Lemma closed_same xs x : clean xs → closed xs → x ∈ normalizeDeviceAuthScopes (Some xs) ↔ x ∈ xs.
Proof.
  intros Hc [C1 C2]. rewrite elem_normalizeDeviceAuthScopes, !clean_trimmed by done. naive_solver.
Qed.

Lemma allow_refl rl xs base : roleScopesAllow rl xs base = true → roleScopesAllow rl xs xs = true.
Proof.
  rewrite !roleScopesAllow_iff. intros H x Hx. specialize (H x Hx). revert H. unfold covers. destruct (String.eqb _ _); [|by intros [? _]].
  intros H%satisfied_prefix. apply (satisfied_mono x [x]); [|by apply satisfied_refl].
  intros y ->%list_elem_of_singleton. by apply elem_normalizeScopeList.
Qed.

Lemma allow_self rl xs base :
  clean xs → closed xs → roleScopesAllow rl xs base = true →
  roleScopesAllow rl (normalizeDeviceAuthScopes (Some xs)) xs = true.
Proof.
  intros Hc Hcl H%allow_refl. rewrite roleScopesAllow_iff in *. intros x Hx. apply H.
  apply clean_trimmed in Hx; [|apply normalizeDeviceAuthScopes_clean]. apply clean_trimmed; [done|]. by apply closed_same.
Qed.

Lemma own_token digest e : trim (token e) ≠ "" → verifyPairingToken digest (token e) (token e) = true.
Proof.
  unfold verifyPairingToken, safeEqualSecret. intros H. rewrite String.eqb_refl. by destruct (trim (token e)).
Qed.

(** A token of a device is accepted for what it covers. *)
Lemma verify_stored digest j file dev r scs device rl e :
  getPairedDeviceFromState file dev = Some device → normalizeRole (Some r) = Some rl →
  oget (deviceTokens (Some device)) rl = Some e → isRevoked e = false → trim (token e) ≠ "" →
  scopesWithinApprovedDeviceBaseline rl (tok_scopes e) (resolveApprovedDeviceScopeBaseline device) = true →
  roleScopesAllow rl (normalizeDeviceAuthScopes (Some scs)) (tok_scopes e) = true →
  (verifyDeviceToken digest j file dev (token e) r scs).2 = None.
Proof.
  intros H1 H2 H3 H4 H5 H6 H7. destruct (verifyDeviceToken _ _ _ _ _ _ _) as [file' res] eqn:E.
  assert (∃ f, verifyDeviceToken digest j file dev (token e) r scs = (f, None)) as (f & Ef).
  { eexists. apply verifyDeviceToken_ok. exists device, rl, e. repeat split; try done. by apply own_token. }
  cbn [snd]. congruence.
Qed.

(** The same after the token was stored under its role. *)
Lemma verify_put digest j file dev r scs device rl e :
  deviceId device = normalizeDeviceId dev → normalizeRole (Some r) = Some rl → isRevoked e = false → trim (token e) ≠ "" →
  scopesWithinApprovedDeviceBaseline rl (tok_scopes e) (resolveApprovedDeviceScopeBaseline device) = true →
  roleScopesAllow rl (normalizeDeviceAuthScopes (Some scs)) (tok_scopes e) = true →
  (verifyDeviceToken digest j (putDevice file (set_tokens device (oset (deviceTokens (Some device)) rl e))) dev (token e) r scs).2
  = None.
Proof.
  intros Hid Hr H4 H5 H6 H7.
  apply (verify_stored _ _ _ _ _ _ (set_tokens device (oset (deviceTokens (Some device)) rl e)) rl); try done.
  - unfold getPairedDeviceFromState, putDevice. cbn [pairedByDeviceId with_paired deviceId set_tokens]. by rewrite Hid, oget_oset_eq.
  - apply oget_oset_eq.
Qed.

Lemma ensured_accepted digest i j file dev r scs file' e :
  all_usable file → (∀ n, trim (newToken i n) ≠ "") → ensureDeviceToken i file dev r scs = (file', Some e) →
  (verifyDeviceToken digest j file' dev (token e) r scs).2 = None.
Proof.
  intros Hu Hi. unfold ensureDeviceToken.
  destruct (resolveDeviceTokenUpdateContext _ _ _) as [[[[device rl] toks] existing]|] eqn:E; [|done].
  apply resolveContext_some in E as (E1 & Hr & E3 & -> & ->). destruct (negb _) eqn:Ew; [done|]. apply negb_false_iff in Ew.
  destruct (Hu _ _ E1) as [Hid Hus].
  set (next := buildDeviceAuthToken _ _ _ _ _ _).
  assert ((verifyDeviceToken digest j (putDevice (loadState file (clock i 0)) (set_tokens device (oset (deviceTokens (Some device)) rl next)))
    dev (token next) r scs).2 = None) as Hnew.
  { apply verify_put; try done; [apply Hi|]. destruct (resolveApprovedDeviceScopeBaseline device); [|done]. by eapply allow_refl. }
  destruct (oget (deviceTokens (Some device)) rl) as [x|] eqn:Ex; [|by intros [= <- <-]].
  destruct (negb (isRevoked x) && _ && _) eqn:Er; [|by intros [= <- <-]]. intros [= <- <-].
  apply andb_true_iff in Er as [[Er1 Er2]%andb_true_iff Er3]. apply negb_true_iff in Er1.
  apply (verify_stored _ _ _ _ _ _ device rl); try done. by apply (us_token _ Hus rl).
Qed.

Lemma rotated_accepted digest i j file dev r scs file' e :
  all_usable file → (∀ n, trim (newToken i n) ≠ "") → rotateDeviceToken i file dev r scs = (file', inl e) →
  (verifyDeviceToken digest j file' dev (token e) r (tok_scopes e)).2 = None.
Proof.
  intros Hu Hi. unfold rotateDeviceToken.
  destruct (resolveDeviceTokenUpdateContext _ _ _) as [[[[device rl] toks] existing]|] eqn:E; [|done].
  apply resolveContext_some in E as (E1 & Hr & E3 & -> & ->).
  destruct (resolveApprovedDeviceScopeBaseline device) as [base|] eqn:Eb; [|done].
  destruct (negb _) eqn:Ew; [done|]. apply negb_false_iff in Ew. destruct (Hu _ _ E1) as [Hid Hus]. intros [= <- <-].
  apply verify_put; try done; [apply Hi|by rewrite Eb|]. cbn [tok_scopes buildDeviceAuthToken].
  eapply allow_self; [apply normalizeDeviceAuthScopes_clean|apply closed_normalized|exact Ew].
Qed.

Lemma issueApproved_other i pending approved existing rs r :
  r ∉ rs → ∀ n toks, oget (issueApproved i n pending approved existing rs toks) r = oget toks r.
Proof.
  induction rs as [|r' rs IH]; intros Hr n toks; [done|]. apply not_elem_of_cons in Hr as [Hne Hr]. cbn [issueApproved].
  rewrite IH, oget_oset by done. by case_decide.
Qed.

Lemma issueApproved_new i pending approved existing rs r :
  r ∈ rs → ∀ n toks, ∃ e ex, oget (issueApproved i n pending approved existing rs toks) r = Some e ∧
    isRevoked e = false ∧ tok_scopes e = resolveApprovedTokenScopes r pending ex approved existing.
Proof.
  induction rs as [|r' rs IH]; [by intros ?%elem_of_nil|]. intros Hr n toks. cbn [issueApproved].
  destruct (decide (r ∈ rs)) as [Hin|Hni]; [by apply IH|].
  apply elem_of_cons in Hr as [<-|]; [|done]. rewrite issueApproved_other, oget_oset_eq by done. eauto.
Qed.

Lemma operatorScopes_shape scs :
  let l := resolveRoleScopedDeviceTokenScopes OPERATOR_ROLE scs in
  Forall (λ x, starts_with x OPERATOR_SCOPE_PREFIX = true) l ∧ clean l ∧ closed l.
Proof.
  cbn zeta. unfold resolveRoleScopedDeviceTokenScopes. change (String.eqb OPERATOR_ROLE "operator") with true. cbn match.
  split; [apply Forall_forall; by intros x [? _]%filter_elem|]. split; [apply clean_filter, normalizeDeviceAuthScopes_clean|].
  destruct (closed_normalized scs) as [C1 C2]. split; rewrite !filter_elem; naive_solver.
Qed.

Lemma approvedToken_shape pending ex approved existing :
  let l := resolveApprovedTokenScopes OPERATOR_ROLE pending ex approved existing in
  Forall (λ x, starts_with x OPERATOR_SCOPE_PREFIX = true) l ∧ clean l ∧ closed l.
Proof.
  cbn zeta. unfold resolveApprovedTokenScopes. pose proof (operatorScopes_shape (req_scopes (request pending))) as H. revert H.
  cbn zeta. destruct (resolveRoleScopedDeviceTokenScopes _ _); [|done]. intros _. apply operatorScopes_shape.
Qed.

Lemma approved_accepted digest i j file id pending caller file' id' device :
  all_usable file → pending_ok file → (∀ n, trim (newToken i n) ≠ "") →
  approveDevicePairing i file id caller = (file', Some (Approved id' device)) →
  oget (pendingById file) id = Some pending → OPERATOR_ROLE ∈ resolveRequestedRoles (request pending) →
  approvedScopes device ≠ None →
  ∃ e, oget (deviceTokens (Some device)) OPERATOR_ROLE = Some e ∧
    (verifyDeviceToken digest j file' (deviceId device) (token e) OPERATOR_ROLE (tok_scopes e)).2 = None.
Proof.
  intros Hu Hp Hi Happ Hpend Hr Hs.
  pose proof (usable_step digest i file (Approve id caller) Hu Hp Hi) as Hu'. cbn [step] in Hu'. rewrite Happ in Hu'. cbn [fst] in Hu'.
  revert Happ. unfold approveDevicePairing. pose proof (pending_ok_load file (clock i 0) Hp) as Hpl.
  destruct (oget (pendingById (loadState _ _)) id) as [q|] eqn:Ep; [|done].
  assert (q = pending) as -> by (apply load_pending in Ep as [Ep _]; [congruence|apply Hp]). destruct (approvalRefused _ _); [done|].
  intros Heq. injection Heq as Hf' _ Hdev. rewrite Hdev in Hf'.
  assert (oget (pairedByDeviceId file') (deviceId device) = Some device) as Hget.
  { rewrite <- Hf'. cbn [commitApproval pairedByDeviceId]. apply oget_oset_eq. }
  destruct (Hu' _ _ Hget) as [_ Hus].
  set (ex := oget (pairedByDeviceId (loadState file (clock i 0))) (req_deviceId (request pending))) in *.
  destruct (issueApproved_new i pending (approvedScopes device) ex _ OPERATOR_ROLE Hr 0%nat (deviceTokens ex)) as (e & ex' & He & Hrev & Hsc).
  assert (oget (deviceTokens (Some device)) OPERATOR_ROLE = Some e) as Htok by (rewrite <- He, <- Hdev; done).
  exists e. split; [done|]. destruct (approvedToken_shape pending ex' (approvedScopes device) ex) as (S1 & S2 & S3). rewrite <- Hsc in S1, S2, S3.
  pose proof (us_operator _ Hus e Htok) as Hw.
  assert (resolveApprovedDeviceScopeBaseline device = Some (normalizeDeviceAuthScopes (Some (approvedScopes device ?? [])))) as Hb.
  { unfold resolveApprovedDeviceScopeBaseline. destruct (approvedScopes device); done. }
  pose proof (within_allowed _ _ S1 S2 Hw) as Hall.
  apply (verify_stored _ _ _ _ _ _ device OPERATOR_ROLE); try done.
  - unfold getPairedDeviceFromState, normalizeDeviceId. by rewrite (us_id _ Hus).
  - by apply (us_token _ Hus OPERATOR_ROLE).
  - by rewrite Hb.
  - by eapply allow_self.
Qed.

(** ** Properties *)

(** C26. No access without approval. Whatever operations came before, a token that is
    accepted for a device and a role has the digest of the one handed out last for
    them, which was not revoked and whose device was not removed since; the role was
    asked for in an approval of the device since it was last removed; and each scope
    is permitted by such an approval: an operator scope was covered by the scopes of
    whoever approved, or by the bootstrap profile. *)
Theorem accepted_token_was_approved digest trace i dev provided r scs file' :
  clock_runs trace →
  let '(file, log) := run digest trace in
  verifyDeviceToken digest i file dev provided r scs = (file', None) →
  let d := normalizeDeviceId dev in
  (∃ tok, activeToken log d (trim r) = Some tok ∧ digest provided = digest tok) ∧
  (∃ g, g ∈ grantsOf log d ∧ trim r ∈ g_roles g) ∧
  ∀ x, x ∈ normalizeDeviceAuthScopes (Some scs) → ∃ g, g ∈ grantsOf log d ∧ permits g (trim r) x.
Proof.
  intros Hc. pose proof (good_run digest (mkState [] [], []) trace good_start Hc) as Hg. unfold run.
  destruct (runFrom digest _ trace) as [file log]. cbn [fst snd] in Hg.
  intros (device & rl & e & E1 & E2 & E3 & E4 & E5 & E6 & E7 & _)%verifyDeviceToken_ok.
  apply normalizeRole_some in E2 as [-> _]. pose proof (good_devices _ _ Hg _ _ E1) as Hok.
  destruct (ok_tokens _ _ _ Hok _ _ E3) as [Hr Ha]. split; [|split].
  - exists (token e). split; [by apply Ha|]. unfold verifyPairingToken in E5. destruct (_ || _); [done|]. by apply String.eqb_eq.
  - by apply (ok_roles _ _ _ Hok).
  - intros x Hx. apply (covered_permitted log _ device (trim r) e); try done; [by apply (good_closed _ _ Hg)|apply trim_idemp|].
    rewrite roleScopesAllow_iff in E7. apply E7. by apply clean_trimmed; [apply normalizeDeviceAuthScopes_clean|].
Qed.

Definition noMeta : Metadata := mkMeta None None None None None None.
Definition demoRequest (r : string) (scs : list string) : PairingRequest :=
  mkRequest " phone " "key" noMeta (Some r) None (Some scs) None.
Definition at_time (t : Z) (tok u : string) : Inputs := mkInputs (λ n, t + Z.of_nat n) (λ _, tok) u.
(** A phone asks to write, an administrator approves, the token is rotated. *)
Definition demoTrace : list (Inputs * Op) :=
  [(at_time 1000 "a" "q1", Request (demoRequest "operator" ["operator.write"]));
   (at_time 2000 "t1" "", Approve "q1" (Some ["operator.admin"]));
   (at_time 3000 "t2" "", Rotate "phone" "operator" (Some ["operator.read"]))].

Lemma demo_clock : clock_runs demoTrace.
Proof. repeat constructor; intros n; cbn; lia. Qed.

Lemma accepted_token_was_approved_witness :
  let '(file, log) := run (λ s, s) demoTrace in
  (verifyDeviceToken (λ s, s) (at_time 4000 "" "") file "phone" "t1" "operator" ["operator.read"]).2 = Some "token-mismatch" ∧
  activeToken log "phone" "operator" = Some "t2" ∧
  ∃ g, g ∈ grantsOf log "phone" ∧ permits g "operator" "operator.read".
Proof.
  pose proof (accepted_token_was_approved (λ s, s) demoTrace (at_time 4000 "" "") "phone" "t2" "operator" ["operator.read"]
    (verifyDeviceToken (λ s, s) (at_time 4000 "" "") (run (λ s, s) demoTrace).1 "phone" "t2" "operator" ["operator.read"]).1
    demo_clock) as H.
  destruct H as (Htok & _ & H); [reflexivity|]. split; [reflexivity|]. split.
  - destruct Htok as (tok & E & Ed). change (normalizeDeviceId "phone") with "phone" in E. change (trim "operator") with "operator" in E.
    etransitivity; [exact E|]. by rewrite <- Ed.
  - apply (H "operator.read"). by left.
Defined.

(** Membership in one of two lists that may be absent. *)
Lemma trimmed_in_two (a b : option (list string)) x :
  (∃ l, (Some l = a ∨ Some l = b) ∧ trimmed_in l x) ↔ trimmed_in (a ?? []) x ∨ trimmed_in (b ?? []) x.
Proof.
  assert (∀ o : option (list string), trimmed_in (o ?? []) x → ∃ l, Some l = o ∧ trimmed_in l x) as Ho.
  { intros [l|]; [eauto|]. intros (_ & y & Hy & _). by apply elem_of_nil in Hy. }
  split; [intros (l & [<-|<-] & Hl); auto|]. intros [(l & ? & ?)%Ho|(l & ? & ?)%Ho]; eauto.
Qed.

(** C27. An approval approves what was shown. Let a request be pending under an id
    that no later request is given. If it is approved (not through a bootstrap profile,
    which adds the roles and scopes of the profile) after any further operations, however
    the request was refreshed by them, then the device it leaves has the key that was shown;
    its roles and its scopes are exactly those it had before and those that were shown; it
    has an unrevoked token for every role that was shown; and the request was made at most
    five minutes before. It is then no longer pending. *)
Theorem approval_grants_what_was_shown digest t1 t2 id p i caller file' id' device :
  not_reused id t2 →
  let start := run digest t1 in
  let file := (runFrom digest start t2).1 in
  oget (pendingById start.1) id = Some p →
  approveDevicePairing i file id caller = (file', Some (Approved id' device)) →
  let existing := oget (pairedByDeviceId file) (req_deviceId (request p)) in
  deviceId device = req_deviceId (request p) ∧ dev_publicKey device = publicKey (request p) ∧
  (∀ r, r ∈ listApprovedPairedDeviceRoles device ↔
     (∃ dev, existing = Some dev ∧ r ∈ listApprovedPairedDeviceRoles dev) ∨ r ∈ resolveRequestedRoles (request p)) ∧
  (∀ x, x ∈ (approvedScopes device ?? []) ↔
     trimmed_in (orElse (existing ≫= approvedScopes) (existing ≫= scopes) ?? []) x ∨
     trimmed_in (req_scopes (request p) ?? []) x) ∧
  (∀ r, r ∈ resolveRequestedRoles (request p) →
     ∃ e, oget (deviceTokens (Some device)) r = Some e ∧ isRevoked e = false) ∧
  clock i 0 - ts p <= PENDING_TTL_MS ∧ oget (pendingById file') id = None.
Proof.
  intros Hn start file Hp Happ existing.
  assert (pending_ok start.1) as Hs by (apply (run_pending digest t1 (mkState [] [], [])), pending_ok_start).
  destruct (run_pending digest t2 start Hs) as [Hf Hback]. fold file in Hf, Hback. revert Happ. unfold approveDevicePairing.
  destruct (oget (pendingById (loadState file _)) id) as [q|] eqn:Eq; [|done].
  apply load_pending in Eq as [Eq Httl]; [|apply Hf]. destruct (Hback id q Hn Eq) as (p' & Hp' & Hsame).
  assert (p' = p) as -> by congruence. destruct (approvalRefused q caller); [done|]. intros [= <- _ <-].
  pose proof (same_request_roles _ _ Hsame) as Hroles.
  split; [apply (sr_device _ _ Hsame)|]. split; [apply (sr_key _ _ Hsame)|]. split_and!.
  - intros r. rewrite approvedDevice_roles, Hroles. unfold existing. rewrite <- (sr_device _ _ Hsame). set_solver.
  - intros x. unfold existing. rewrite <- (sr_device _ _ Hsame), <- (sr_scopes _ _ Hsame).
    cbn [approvedDevice approvedScopes]. rewrite elem_mergeScopes. setoid_rewrite elem_of_cons.
    setoid_rewrite list_elem_of_singleton. cbn [loadState pairedByDeviceId]. apply trimmed_in_two.
  - intros r Hr. rewrite <- Hroles in Hr. cbn [approvedDevice deviceTokens].
    edestruct (issueApproved_new i q) as (e & ex & He & Hrev & _); [exact Hr|]. exists e. split; [exact He|exact Hrev].
  - by rewrite <- (sr_ts _ _ Hsame).
  - cbn [commitApproval pendingById]. apply oget_odel_eq.
Qed.

Lemma approval_grants_what_was_shown_witness :
  let t1 := [(at_time 1000 "" "q1", Request (demoRequest "operator" ["operator.write"]))] in
  let t2 := [(at_time 1500 "" "q2", Request (demoRequest "operator" ["operator.write"]))] in
  let file := (runFrom (λ s, s) (run (λ s, s) t1) t2).1 in
  ∃ device, (approveDevicePairing (at_time 2000 "t" "") file "q1" (Some ["operator.admin"])).2 = Some (Approved "q1" device) ∧
    dev_publicKey device = "key" ∧ listApprovedPairedDeviceRoles device = ["operator"].
Proof.
  intros t1 t2 file. eexists. split; [reflexivity|]. split; [|reflexivity].
  pose proof (approval_grants_what_was_shown (λ s, s) t1 t2 "q1"
    (mkPending "q1" (mkRequest "phone" "key" noMeta (Some "operator") (Some ["operator"]) (Some ["operator.write"]) (Some false)) (Some false) 1001)
    (at_time 2000 "t" "") (Some ["operator.admin"]) (approveDevicePairing (at_time 2000 "t" "") file "q1" (Some ["operator.admin"])).1 "q1") as H.
  edestruct H as (_ & Hkey & _); [by repeat constructor|reflexivity|reflexivity|exact Hkey].
Defined.

(** What is issued is accepted. In every state that operations lead to, a token
    handed out by [ensureDeviceToken] is accepted for the scopes it was asked for, one
    from [rotateDeviceToken] for its own, and the operator token of an approval for
    its own too, provided any scopes were ever listed. *)
Lemma issued_token_is_accepted digest trace i j :
  Forall tokens_named trace → (∀ n, trim (newToken i n) ≠ "") →
  let file := (run digest trace).1 in
  (∀ dev r scs file' e, ensureDeviceToken i file dev r scs = (file', Some e) →
     (verifyDeviceToken digest j file' dev (token e) r scs).2 = None) ∧
  (∀ dev r scs file' e, rotateDeviceToken i file dev r scs = (file', inl e) →
     (verifyDeviceToken digest j file' dev (token e) r (tok_scopes e)).2 = None) ∧
  (∀ id pending caller file' id' device, approveDevicePairing i file id caller = (file', Some (Approved id' device)) →
     oget (pendingById file) id = Some pending → OPERATOR_ROLE ∈ resolveRequestedRoles (request pending) →
     approvedScopes device ≠ None →
     ∃ e, oget (deviceTokens (Some device)) OPERATOR_ROLE = Some e ∧
       (verifyDeviceToken digest j file' (deviceId device) (token e) OPERATOR_ROLE (tok_scopes e)).2 = None).
Proof.
  intros Ht Hi file. assert (all_usable file ∧ pending_ok file) as [Hu Hp].
  { split; [by apply (usable_run digest trace (mkState [] [], [])); [|apply pending_ok_start|]|].
    apply (run_pending digest trace (mkState [] [], [])), pending_ok_start. }
  split; [|split].
  - intros. by eapply ensured_accepted.
  - intros. by eapply rotated_accepted.
  - intros. by eapply approved_accepted.
Qed.

Lemma issued_token_is_accepted_witness :
  let file := (run (λ s, s) demoTrace).1 in
  ∃ file' e, ensureDeviceToken (at_time 4000 "t3" "") file "phone" "operator" ["operator.write"] = (file', Some e) ∧
    token e = "t3" ∧
    (verifyDeviceToken (λ s, s) (at_time 5000 "" "") file' "phone" (token e) "operator" ["operator.write"]).2 = None.
Proof.
  intros file.
  destruct (issued_token_is_accepted (λ s, s) demoTrace (at_time 4000 "t3" "") (at_time 5000 "" "")) as (H & _).
  { repeat constructor; intros n; discriminate. }
  { intros n. discriminate. }
  do 2 eexists. split; [reflexivity|]. split; [reflexivity|]. apply (H "phone" "operator" ["operator.write"]). reflexivity.
Defined.

(** ** Where that fails *)

(** A device that asks for two roles other than operator, with scopes of both: each
    token is given the scopes of both roles, and none is ever accepted. *)
Lemma multi_role_tokens_refused :
  let trace :=
    [(at_time 1000 "" "q1",
      Request (mkRequest "phone" "key" noMeta None (Some ["node"; "camera"]) (Some ["node.run"; "camera.snap"]) None));
     (at_time 2000 "t1" "", Approve "q1" None)] in
  let file := (run (λ s, s) trace).1 in
  (∃ device e, oget (pairedByDeviceId file) "phone" = Some device ∧ oget (deviceTokens (Some device)) "node" = Some e ∧
     tok_scopes e = ["camera.snap"; "node.run"]) ∧
  ∀ j scs, (verifyDeviceToken (λ s, s) j file "phone" "t1" "node" scs).2 = Some "scope-mismatch".
Proof. split; [do 2 eexists; split; [reflexivity|]; split; reflexivity|]. intros j scs. reflexivity. Qed.

(** A device whose requests list no scopes gets tokens, and none is ever accepted. *)
Lemma scopeless_tokens_refused :
  let trace := [(at_time 1000 "" "q1", Request (mkRequest "phone" "key" noMeta (Some "node") None None None));
                (at_time 2000 "t1" "", Approve "q1" None)] in
  ∀ j scs, (verifyDeviceToken (λ s, s) j (run (λ s, s) trace).1 "phone" "t1" "node" scs).2 = Some "scope-mismatch".
Proof. intros trace j scs. reflexivity. Qed.

(** A bootstrap token is bounded by the scopes of the hand-off, but the profile's
    other scopes become approved, and a rotation of the token obtains them. *)
Lemma bootstrap_rotation_exceeds_handoff :
  let trace :=
    [(at_time 1000 "" "q1", Request (demoRequest "operator" []));
     (at_time 2000 "t1" "", ApproveBootstrap "q1" (mkProfile ["operator"] ["operator.admin"]));
     (at_time 3000 "t2" "", Rotate "phone" "operator" (Some ["operator.admin"]))] in
  let file := (run (λ s, s) trace).1 in
  ∀ j, (verifyDeviceToken (λ s, s) j file "phone" "t2" "operator" ["operator.admin"]).2 = None.
Proof. intros trace file j. reflexivity. Qed.

End DevicePairing.
