(* ===== verification/Effects.v ===== *)
(** * Asynchronous programs

    An [async] function is a tree of the operations it awaits: [Do o k] performs [o]
    and continues with its answer, so that between two operations anything else may
    run. A function whose loops go over lists is a finite tree. Exceptions are
    answers of the tree; [try], [catch], [finally] and [Promise.allSettled] are
    combinators.

    Interleaved programs are reasoned about one at a time: an operation has a
    precondition and tells a fact, both about a part of the world that only grows. *)

From S2P Require Import Prelude.

Inductive outcome (Err A : Type) : Type := Value (a : A) | Raise (e : Err).
Arguments Value {Err A} _.
Arguments Raise {Err A} _.

Section prog.
Context {E : Type → Type} {Err : Type}.

Inductive prog (A : Type) : Type :=
| Ret (r : outcome Err A)
| Do {X : Type} (o : E X) (k : X → prog A).
Arguments Ret {A} _.
Arguments Do {A X} _ _.

Definition ret {A} (a : A) : prog A := Ret (Value a).
Definition raise {A} (e : Err) : prog A := Ret (Raise e).
(** An operation that cannot fail. *)
Definition perform {X} (o : E X) : prog X := Do o ret.
(** An operation that answers with a value or an error. *)
Definition attempt {X} (o : E (outcome Err X)) : prog X := Do o Ret.

(** The program, then one for each of its two ways to end. *)
Fixpoint handle {A B} (p : prog A) (ok : A → prog B) (err : Err → prog B) : prog B :=
  match p with
  | Ret (Value a) => ok a
  | Ret (Raise e) => err e
  | Do o k => Do o (λ x, handle (k x) ok err)
  end.

Definition bind {A B} (p : prog A) (k : A → prog B) : prog B := handle p k raise.
(** [try { p } catch (e) { h(e) }] *)
Definition catch {A} (p : prog A) (h : Err → prog A) : prog A := handle p ret h.
(** [try { p } finally { q }] *)
Definition finally {A} (p : prog A) (q : prog unit) : prog A :=
  handle p (λ a, handle q (λ _, ret a) raise) (λ e, handle q (λ _, raise e) raise).
(** [p.catch(() => {})] *)
Definition ignore {A} (p : prog A) : prog unit := handle p (λ _, ret tt) (λ _, ret tt).

Fixpoint forEach {A} (l : list A) (f : A → prog unit) : prog unit :=
  match l with [] => ret tt | a :: l' => bind (f a) (λ _, forEach l' f) end.

(** Two programs that run at the same time; [choose] decides whose turn it is. *)
Section par.
Context (choose : E bool).
Fixpoint both (p q : prog unit) {struct p} : prog unit :=
  match p with
  | Ret _ => q
  | Do o k =>
      (fix both_q (q : prog unit) : prog unit :=
         match q with
         | Ret _ => p
         | Do o' k' => Do choose (λ b : bool, if b then Do o (λ x, both (k x) q) else Do o' (λ x, both_q (k' x)))
         end) q
  end.
(** [await Promise.allSettled(l)] *)
Definition allSettled {A} (l : list (prog A)) : prog unit := foldr (λ p q, both (ignore p) q) (ret tt) l.
End par.

End prog.
Arguments prog E Err A : clear implicits.
Arguments Ret {E Err A} _.
Arguments Do {E Err A X} _ _.

Notation "'let*' x := p 'in' k" := (bind p (λ x, k))
  (at level 10, x pattern, p at level 100, k at level 200) : js_scope.
Notation "p ';;*' k" := (bind p (λ _, k)) (at level 100, right associativity) : js_scope.

(** ** Running programs *)

Section run.
Context {E : Type → Type} {Err World : Type}.
Context (exec : ∀ X, E X → World → X → World → Prop).

(** One operation of a program. *)
Definition pstep {A} (p : prog E Err A) (w : World) (p' : prog E Err A) (w' : World) : Prop :=
  match p with
  | Ret _ => False
  | @Do _ _ _ X o k => ∃ x, exec X o w x w' ∧ p' = k x
  end.

End run.

(** ** Preconditions and what operations tell *)

(** What is known never becomes false: [G] is the part of the world that grows. *)
Class Facts (E : Type → Type) (G : Type) := {
  grows : G → G → Prop;
  pre : ∀ {X}, E X → G → Prop;
  post : ∀ {X}, E X → X → G → Prop;
  grows_refl g : grows g g;
  grows_trans g1 g2 g3 : grows g1 g2 → grows g2 g3 → grows g1 g3;
  pre_grows {X} (o : E X) g g' : grows g g' → pre o g → pre o g';
}.
Arguments grows {E G _} _ _.
Arguments pre {E G _ X} _ _.
Arguments post {E G _ X} _ _ _.

Section logic.
Context {E : Type → Type} {Err G : Type} `{!Facts E G}.

(** Every operation the program performs has its precondition, whatever happened
    before, and the program ends with [Q]. *)
Fixpoint safe {A} (g : G) (p : prog E Err A) (Q : G → outcome Err A → Prop) : Prop :=
  match p with
  | Ret r => Q g r
  | Do o k => pre o g ∧ ∀ g' x, grows g g' → post o x g' → safe g' (k x) Q
  end.

Lemma safe_grows {A} (p : prog E Err A) g g' Q :
  grows g g' → (∀ g1 g2 r, grows g1 g2 → Q g1 r → Q g2 r) → safe g p Q → safe g' p Q.
Proof.
  intros Hg HQ. destruct p as [r|X o k]; cbn [safe]; [by apply HQ|]. intros [H1 H2].
  split; [by eapply pre_grows|]. intros g2 x Hg2 Hx. apply H2; [|done]. by eapply grows_trans.
Qed.

Lemma safe_impl {A} (p : prog E Err A) g (Q R : G → outcome Err A → Prop) :
  (∀ g' r, grows g g' → Q g' r → R g' r) → safe g p Q → safe g p R.
Proof.
  revert g. induction p as [r|X o k IH]; intros g H; cbn [safe]; [apply H, grows_refl|]. intros [H1 H2]. split; [done|].
  intros g' x Hg Hx. apply IH; [|by apply H2]. intros g2 r Hg2. apply H. by eapply grows_trans.
Qed.

Lemma safe_handle {A B} (p : prog E Err A) (ok : A → prog E Err B) (err : Err → prog E Err B) g Q R :
  safe g p Q →
  (∀ g' a, grows g g' → Q g' (Value a) → safe g' (ok a) R) →
  (∀ g' e, grows g g' → Q g' (Raise e) → safe g' (err e) R) →
  safe g (handle p ok err) R.
Proof.
  revert g. induction p as [[a|e]|X o k IH]; intros g Hp Hok Herr; cbn [handle safe] in *.
  - apply Hok; [apply grows_refl|done].
  - apply Herr; [apply grows_refl|done].
  - destruct Hp as [H1 H2]. split; [done|]. intros g' x Hg Hx. apply IH; [by apply H2| |].
    + intros g2 a Hg2. apply Hok. by eapply grows_trans.
    + intros g2 e Hg2. apply Herr. by eapply grows_trans.
Qed.

Lemma safe_bind {A B} (p : prog E Err A) (k : A → prog E Err B) g Q R :
  safe g p Q → (∀ g' a, grows g g' → Q g' (Value a) → safe g' (k a) R) → (∀ g' e, R g' (Raise e)) →
  safe g (bind p k) R.
Proof. intros Hp Hk HR. eapply safe_handle; [exact Hp|done|]. intros g' e _ _. apply HR. Qed.

Lemma safe_attempt {X} (o : E (outcome Err X)) g Q :
  pre o g → (∀ g' x, grows g g' → post o x g' → Q g' x) → safe g (attempt o) Q.
Proof. intros H1 H2. split; [done|]. intros g' x Hg Hx. by apply H2. Qed.

Lemma safe_perform {X} (o : E X) g (Q : G → outcome Err X → Prop) :
  pre o g → (∀ g' x, grows g g' → post o x g' → Q g' (Value x)) → safe g (perform o) Q.
Proof. intros H1 H2. split; [done|]. intros g' x Hg Hx. by apply H2. Qed.

Definition anyway {A} (g : G) (r : outcome Err A) : Prop := True.

Lemma safe_ignore {A} (p : prog E Err A) g Q : safe g p Q → safe g (ignore p) anyway.
Proof. intros H. by eapply safe_handle. Qed.

Lemma safe_finally {A} (p : prog E Err A) q g :
  safe g p anyway → (∀ g', grows g g' → safe g' q anyway) → safe g (finally p q) anyway.
Proof.
  intros Hp Hq. eapply safe_handle; [exact Hp| |]; intros g' x Hg _; (eapply safe_handle; [by apply Hq|done|done]).
Qed.

Lemma safe_forEach {A} (l : list A) (f : A → prog E Err unit) g :
  (∀ g' a, grows g g' → a ∈ l → safe g' (f a) anyway) → safe g (forEach l f) anyway.
Proof.
  revert g. induction l as [|a l IH]; intros g H; [done|]. cbn [forEach]. eapply safe_bind.
  - apply H; [apply grows_refl|by left].
  - intros g' u Hg _. apply IH. intros g2 b Hg2 Hb. apply H; [by eapply grows_trans|by right].
  - done.
Qed.

Lemma safe_both (choose : E bool) (p q : prog E Err unit) g :
  (∀ g, pre choose g) → safe g p anyway → safe g q anyway → safe g (both choose p q) anyway.
Proof.
  intros Hc. revert q g. induction p as [r|X o k IHp]; intros q g Hp Hq; [done|].
  induction q as [r|Y o' k' IHq] in g, Hp, Hq |- *; [done|]. cbn [both safe]. split; [apply Hc|].
  intros g' b Hg _. destruct Hp as [Hp1 Hp2], Hq as [Hq1 Hq2]. destruct b; cbn [safe].
  - split; [by eapply pre_grows|]. intros g2 x Hg2 Hx. apply IHp; [apply Hp2; [by eapply grows_trans|done]|].
    split; [eapply pre_grows; [|exact Hq1]; by eapply grows_trans|]. intros g3 y Hg3. apply Hq2.
    eapply grows_trans; [exact Hg|]. by eapply grows_trans.
  - split; [by eapply pre_grows|]. intros g2 x Hg2 Hx. apply IHq; [|apply Hq2; [by eapply grows_trans|done]].
    split; [eapply pre_grows; [|exact Hp1]; by eapply grows_trans|]. intros g3 y Hg3. apply Hp2.
    eapply grows_trans; [exact Hg|]. by eapply grows_trans.
Qed.

Lemma safe_allSettled (choose : E bool) {A} (l : list (prog E Err A)) g :
  (∀ g, pre choose g) → Forall (λ p, safe g p anyway) l → safe g (allSettled choose l) anyway.
Proof.
  intros Hc. induction 1 as [|p l Hp _ IH]; [done|]. cbn [allSettled foldr]. apply safe_both; [done| |done].
  by eapply safe_ignore.
Qed.

End logic.

(** What operations keep and tell, programs that respect the preconditions keep. *)
Section soundness.
Context {E : Type → Type} {Err G World : Type} `{!Facts E G}.
Context (exec : ∀ X, E X → World → X → World → Prop) (known : World → G) (Inv : World → Prop).
Hypothesis exec_sound : ∀ X (o : E X) w x w',
  Inv w → pre o (known w) → exec X o w x w' → Inv w' ∧ grows (known w) (known w') ∧ post o x (known w').

Lemma pstep_sound {A} (p : prog E Err A) Q w p' w' :
  Inv w → safe (known w) p Q → pstep exec p w p' w' →
  Inv w' ∧ grows (known w) (known w') ∧ safe (known w') p' Q.
Proof.
  destruct p as [r|X o k]; [done|]. intros Hi [Hpre Hk] (x & Hx & ->).
  destruct (exec_sound _ _ _ _ _ Hi Hpre Hx) as (H1 & H2 & H3). split; [done|]. split; [done|]. by apply Hk.
Qed.

End soundness.

(** ** What a program owns

    Some facts hold only as long as a program owns them (a lock, the entry it
    locked). A view lists what one program owns; operations need parts of it, tell
    something about their answer, and change it. *)

Class Views (E : Type → Type) (V : Type) := {
  vpre : ∀ {X}, E X → V → Prop;
  vpost : ∀ {X}, E X → X → V → Prop;
  vnext : ∀ {X}, E X → X → V → V;
}.
Arguments vpre {E V _ X} _ _.
Arguments vpost {E V _ X} _ _ _.
Arguments vnext {E V _ X} _ _ _.

Section views.
Context {E : Type → Type} {Err V : Type} `{!Views E V}.

Fixpoint owns {A} (v : V) (p : prog E Err A) (Q : V → outcome Err A → Prop) : Prop :=
  match p with
  | Ret r => Q v r
  | Do o k => vpre o v ∧ ∀ x, vpost o x v → owns (vnext o x v) (k x) Q
  end.

Lemma owns_impl {A} (p : prog E Err A) v (Q R : V → outcome Err A → Prop) :
  (∀ v' r, Q v' r → R v' r) → owns v p Q → owns v p R.
Proof.
  intros H. revert v. induction p as [r|X o k IH]; intros v; cbn [owns]; [apply H|]. intros [H1 H2]. split; [done|].
  intros x Hx. by apply IH, H2.
Qed.

Lemma owns_handle {A B} (p : prog E Err A) (ok : A → prog E Err B) (err : Err → prog E Err B) v Q R :
  owns v p Q →
  (∀ v' a, Q v' (Value a) → owns v' (ok a) R) → (∀ v' e, Q v' (Raise e) → owns v' (err e) R) →
  owns v (handle p ok err) R.
Proof.
  intros Hp Hok Herr. revert v Hp. induction p as [[a|e]|X o k IH]; intros v Hp; cbn [handle owns] in *; [by apply Hok|by apply Herr|].
  destruct Hp as [H1 H2]. split; [done|]. intros x Hx. by apply IH, H2.
Qed.

Lemma owns_bind {A B} (p : prog E Err A) (k : A → prog E Err B) v Q R :
  owns v p Q → (∀ v' a, Q v' (Value a) → owns v' (k a) R) → (∀ v' e, Q v' (Raise e) → R v' (Raise e)) →
  owns v (bind p k) R.
Proof. intros Hp Hk HR. by eapply owns_handle. Qed.

Lemma owns_attempt {X} (o : E (outcome Err X)) v Q :
  vpre o v → (∀ x, vpost o x v → Q (vnext o x v) x) → owns v (attempt o) Q.
Proof. intros H1 H2. by split. Qed.

Lemma owns_perform {X} (o : E X) v (Q : V → outcome Err X → Prop) :
  vpre o v → (∀ x, vpost o x v → Q (vnext o x v) (Value x)) → owns v (perform o) Q.
Proof. intros H1 H2. by split. Qed.

(** A loop whose body gives back what it took. *)
Lemma owns_forEach {A} (l : list A) (f : A → prog E Err unit) (P : V → Prop) v :
  (∀ v a, P v → a ∈ l → owns v (f a) (λ v' _, P v')) → P v → owns v (forEach l f) (λ v' _, P v').
Proof.
  revert v. induction l as [|a l IH]; intros v H Hv; [done|]. cbn [forEach]. eapply owns_bind.
  - apply H; [done|by left].
  - intros v' u Hv'. apply IH; [|done]. intros v2 b Hv2 Hb. apply H; [done|by right].
  - done.
Qed.

End views.
