(* ===== verification/DeliveryQueue.v ===== *)
(** * The write-ahead queue of outbound deliveries

    src/infra/outbound/delivery-queue-storage.ts, delivery-queue-recovery.ts and the
    queue's client [deliverOutboundPayloads] of deliver.ts, as programs over a disk.
    Every awaited call of the file system, of the channel and of the clock is one
    operation, which may fail; between two of them other programs run, and the
    process may crash, which ends all programs and leaves the disk.

    A directory is two maps, for the files [id.json] and [id.delivered]; a file holds
    what was written to it, and an entry is read back as it was written. Log calls
    are left out. *)

From S2P Require Import Prelude OMap JsValue Effects.

Module DeliveryQueue.
Import JsValue.

(** ** Data *)

(** Parts the queue only carries are JSON values. *)
Record QueuedDeliveryPayload := mkPayload {
  channel : string;
  to : string;
  accountId : option string;
  payloads : list js;
  threadId : js;
  replyToId : js;
  bestEffort : option bool;
  gifPlayback : option bool;
  forceDocument : option bool;
  silent : option bool;
  mirror : js;
  gatewayClientScopes : option (list string);
}.

Record QueuedDelivery := mkEntry {
  entry_id : string;
  enqueuedAt : Z;
  payload : QueuedDeliveryPayload;
  retryCount : Z;
  lastAttemptAt : option Z;
  lastError : option string;
}.

(** An error: whether its code is ENOENT, whether it is an abort, its formatted
    message. *)
Record error := mkError { enoent : bool; aborted : bool; message : string }.
Abbreviation fallible := (outcome error).

(** ** The operations *)

Inductive io : Type → Type :=
| Mkdir : io (fallible unit)
| WriteTmp (id : string) (e : QueuedDelivery) : io (fallible unit)
| RenameTmp (id : string) : io (fallible unit)
| ReadJson (id : string) : io (fallible QueuedDelivery)
| StatJson (id : string) : io (fallible bool)
| RenameDelivered (id : string) : io (fallible unit)
| UnlinkDelivered (id : string) : io (fallible unit)
| RenameFailed (id : string) : io (fallible unit)
(** the ids of the files that end in .json and in .delivered *)
| Readdir : io (fallible (list string * list string))
(** a new random id, for the given payload *)
| RandomId (p : QueuedDeliveryPayload) : io string
| DateNow : io Z
(** [deliverOutboundPayloadsCore], for a queued entry or for none, with [onError] or
    without; the answer tells whether [onError] was called *)
| SendCore (id : option string) (hasOnError : bool) (p : QueuedDeliveryPayload) : io (fallible bool)
| Claim (id : string) : io bool
| Release (id : string) : io unit
| AcquireDrain (key : string) : io bool
| ReleaseDrain (key : string) : io unit
(** which of two concurrent programs goes on *)
| Choose : io bool.

Abbreviation task := (prog io error).

(** ** Storage: delivery-queue-storage.ts *)

Definition unlinkBestEffort (id : string) : task unit := ignore (attempt (UnlinkDelivered id)).

Definition writeQueueEntry (id : string) (entry : QueuedDelivery) : task unit :=
  attempt (WriteTmp id entry) ;;*
  attempt (RenameTmp id).

Definition readQueueEntry (id : string) : task QueuedDelivery := attempt (ReadJson id).

Definition with_attempt (e : QueuedDelivery) (t : Z) : QueuedDelivery :=
  mkEntry (entry_id e) (enqueuedAt e) (payload e) (retryCount e) (Some t) (lastError e).

Definition hasAttemptTimestamp (e : QueuedDelivery) : bool :=
  match lastAttemptAt e with Some t => 0 <? t | None => false end.

(** The entry, and whether it was migrated. *)
Definition normalizeLegacyQueuedDeliveryEntry (entry : QueuedDelivery) : QueuedDelivery * bool :=
  if hasAttemptTimestamp entry || (retryCount entry <=? 0) then (entry, false)
  else if negb (0 <? enqueuedAt entry) then (entry, false)
  else (with_attempt entry (enqueuedAt entry), true).

Definition ensureQueueDir : task unit := attempt Mkdir ;;* attempt Mkdir.

Definition enqueueDelivery (params : QueuedDeliveryPayload) : task string :=
  ensureQueueDir ;;*
  let* id := perform (RandomId params) in
  let* now := perform DateNow in
  writeQueueEntry id (mkEntry id now params 0 None None) ;;*
  ret id.

Definition ackDelivery (id : string) : task unit :=
  handle (attempt (RenameDelivered id))
    (λ _, unlinkBestEffort id)
    (λ err, if enoent err then unlinkBestEffort id else raise err).

Definition failDelivery (id err : string) : task unit :=
  let* entry := readQueueEntry id in
  let* now := perform DateNow in
  writeQueueEntry id (mkEntry (entry_id entry) (enqueuedAt entry) (payload entry) (retryCount entry + 1) (Some now) (Some err)).

(** Reads an entry, and writes it back if it was migrated. *)
Definition loadEntry (id : string) : task QueuedDelivery :=
  let* raw := readQueueEntry id in
  let '(entry, migrated) := normalizeLegacyQueuedDeliveryEntry raw in
  (if migrated then writeQueueEntry id entry else ret tt) ;;*
  ret entry.

Definition loadPendingDelivery (id : string) : task (option QueuedDelivery) :=
  catch
    (let* isFile := attempt (StatJson id) in
     if negb isFile then ret None
     else let* entry := loadEntry id in ret (Some entry))
    (λ err, if enoent err then ret None else raise err).

Fixpoint loadEntries (ids : list string) : task (list QueuedDelivery) :=
  match ids with
  | [] => ret []
  | id :: rest =>
      let* found :=
        catch
          (let* isFile := attempt (StatJson id) in
           if negb isFile then ret None else let* entry := loadEntry id in ret (Some entry))
          (λ _, ret None) in
      let* entries := loadEntries rest in
      ret (match found with Some e => e :: entries | None => entries end)
  end.

Definition loadPendingDeliveries : task (list QueuedDelivery) :=
  handle (attempt Readdir)
    (λ '(jsons, markers),
      forEach markers unlinkBestEffort ;;*
      loadEntries jsons)
    (λ err, if enoent err then ret [] else raise err).

Definition moveToFailed (id : string) : task unit :=
  attempt Mkdir ;;*
  attempt (RenameFailed id).

(** ** Retries: delivery-queue-recovery.ts *)

Record RecoverySummary := mkSummary {
  recovered : nat;
  failed : nat;
  skippedMaxRetries : nat;
  deferredBackoff : nat;
}.
Definition createEmptyRecoverySummary : RecoverySummary := mkSummary 0 0 0 0.

Definition MAX_RETRIES : Z := 5.
Definition BACKOFF_MS : list Z := [5000; 25000; 120000; 600000].

(** [a.*b.*c] without regard to case: the pieces follow each other on one line. *)
Fixpoint after (s p : string) : option string :=
  if starts_with s p then Some (str_drop (String.length p) s)
  else match s with EmptyString => None | String _ s' => after s' p end.
Fixpoint pieces_in (s : string) (pieces : list string) : bool :=
  match pieces with
  | [] => true
  | p :: rest => match after s p with Some s' => pieces_in s' rest | None => false end
  end.
Definition line_break : Ascii.ascii := Ascii.ascii_of_nat 10.
Definition carriage_return : Ascii.ascii := Ascii.ascii_of_nat 13.
Definition matches (pieces : list string) (s : string) : bool :=
  existsb (λ line, pieces_in line pieces) (flat_map (split_on carriage_return) (split_on line_break (lower s))).

Definition PERMANENT_ERROR_PATTERNS : list (list string) :=
  [["no conversation reference found"]; ["chat not found"]; ["user not found"]; ["bot"; "not"; "member"];
   ["bot was blocked by the user"]; ["forbidden: bot was kicked"]; ["chat_id is empty"];
   ["recipient is not a valid"]; ["outbound not configured for channel"]; ["ambiguous "; " recipient"];
   ["user "; " not in room"]].

Definition isPermanentDeliveryError (err : string) : bool := existsb (λ re, matches re err) PERMANENT_ERROR_PATTERNS.

Definition computeBackoffMs (count : Z) : Z :=
  if count <=? 0 then 0
  else nth (Z.to_nat (Z.min (count - 1) (Z.of_nat (length BACKOFF_MS) - 1))) BACKOFF_MS 0.

(** [None] when eligible, otherwise the time left. *)
Definition isEntryEligibleForRecoveryRetry (entry : QueuedDelivery) (now : Z) : option Z :=
  let backoff := computeBackoffMs (retryCount entry + 1) in
  if backoff <=? 0 then None
  else if (retryCount entry =? 0) && match lastAttemptAt entry with None => true | Some _ => false end then None
  else
    let baseAttemptAt := if hasAttemptTimestamp entry then lastAttemptAt entry ?? enqueuedAt entry else enqueuedAt entry in
    let nextEligibleAt := baseAttemptAt + backoff in
    if nextEligibleAt <=? now then None else Some (nextEligibleAt - now).

Inductive DrainResult := Recovered | Failed | MovedToFailed | AlreadyGone.

(** [onRecovered] and [onFailed] are the summary the result is counted in. *)
Definition drainQueuedEntry (entry : QueuedDelivery) : task DrainResult :=
  handle
    (attempt (SendCore (Some (entry_id entry)) false (payload entry)) ;;* ackDelivery (entry_id entry))
    (λ _, ret Recovered)
    (λ err,
      if isPermanentDeliveryError (message err) then
        handle (moveToFailed (entry_id entry)) (λ _, ret MovedToFailed)
          (λ e, ret (if enoent e then AlreadyGone else Failed))
      else
        handle (failDelivery (entry_id entry) (message err)) (λ _, ret Failed)
          (λ e, ret (if enoent e then AlreadyGone else Failed))).

Definition by_age : list QueuedDelivery → list QueuedDelivery :=
  toSorted (λ a b, enqueuedAt a <=? enqueuedAt b).

Record PendingDeliveryDrainDecision := mkDecision { match_ : bool; bypassBackoff : option bool }.

(** One matching entry of [drainPendingDeliveries]. *)
Definition drainEntry (entry : QueuedDelivery) (bypass : bool) : task unit :=
  let* claimed := perform (Claim (entry_id entry)) in
  if negb claimed then ret tt
  else
    finally
      (let* current := loadPendingDelivery (entry_id entry) in
       match current with
       | None => ret tt
       | Some currentEntry =>
           if MAX_RETRIES <=? retryCount currentEntry then
             handle (moveToFailed (entry_id currentEntry)) ret (λ err, if enoent err then ret tt else raise err)
           else
             let go := let* _ := drainQueuedEntry currentEntry in ret tt in
             if negb bypass then
               let* now := perform DateNow in
               match isEntryEligibleForRecoveryRetry currentEntry now with
               | Some _ => ret tt
               | None => go
               end
             else go
       end)
      (perform (Release (entry_id entry))).

Definition drainPendingDeliveries (drainKey : string)
    (selectEntry : QueuedDelivery → Z → PendingDeliveryDrainDecision) : task unit :=
  let* acquired := perform (AcquireDrain drainKey) in
  if negb acquired then ret tt
  else
    finally
      (let* now := perform DateNow in
       let* entries := loadPendingDeliveries in
       let matchingEntries := by_age (List.filter (λ e, match_ (selectEntry e now)) entries) in
       forEach matchingEntries (λ e, drainEntry e (bypassBackoff (selectEntry e now) ?? false)))
      (perform (ReleaseDrain drainKey)).

Definition deferRemainingEntriesForBudget (entries : list QueuedDelivery) : task unit :=
  allSettled Choose (map (λ e, failDelivery (entry_id e) "recovery time budget exceeded") entries).

Definition count (s : RecoverySummary) (r : DrainResult) : RecoverySummary :=
  match r with
  | Recovered => mkSummary (S (recovered s)) (failed s) (skippedMaxRetries s) (deferredBackoff s)
  | _ => mkSummary (recovered s) (S (failed s)) (skippedMaxRetries s) (deferredBackoff s)
  end.

(** A claimed entry of [recoverPendingDeliveries]. *)
Definition recoverEntry (entry : QueuedDelivery) (summary : RecoverySummary) : task RecoverySummary :=
  let* current := loadPendingDelivery (entry_id entry) in
  match current with
  | None => ret summary
  | Some currentEntry =>
      if MAX_RETRIES <=? retryCount currentEntry then
        ignore (moveToFailed (entry_id currentEntry)) ;;*
        ret (mkSummary (recovered summary) (failed summary) (S (skippedMaxRetries summary)) (deferredBackoff summary))
      else
        let* now := perform DateNow in
        match isEntryEligibleForRecoveryRetry currentEntry now with
        | Some _ =>
            ret (mkSummary (recovered summary) (failed summary) (skippedMaxRetries summary) (S (deferredBackoff summary)))
        | None => let* r := drainQueuedEntry currentEntry in ret (count summary r)
        end
  end.

Fixpoint recoverEntries (deadline : Z) (pending : list QueuedDelivery) (summary : RecoverySummary) : task RecoverySummary :=
  match pending with
  | [] => ret summary
  | entry :: rest =>
      let* now := perform DateNow in
      if deadline <=? now then deferRemainingEntriesForBudget pending ;;* ret summary
      else
        let* claimed := perform (Claim (entry_id entry)) in
        if negb claimed then recoverEntries deadline rest summary
        else
          let* next := finally (recoverEntry entry summary) (perform (Release (entry_id entry))) in
          recoverEntries deadline rest next
  end.

Definition recoverPendingDeliveries (maxRecoveryMs : option Z) : task RecoverySummary :=
  let* pending := loadPendingDeliveries in
  match pending with
  | [] => ret createEmptyRecoverySummary
  | _ =>
      let* now := perform DateNow in
      recoverEntries (now + (maxRecoveryMs ?? 60000)) (by_age pending) createEmptyRecoverySummary
  end.

(** ** The sender: [deliverOutboundPayloads] of deliver.ts *)

(** What happens to one payload of [deliverOutboundPayloadsCore]: it was handled, or
    an error was caught in the loop. *)
Inductive PayloadOutcome := Handled | Caught (err : error).

(** The loop over the payloads: it throws at the first error unless the delivery is
    best effort; then the answer tells whether [onError] was told of an error. *)
Fixpoint deliverLoop (best_effort hasOnError : bool) (outcomes : list PayloadOutcome) (partial : bool) : fallible bool :=
  match outcomes with
  | [] => Value partial
  | Handled :: rest => deliverLoop best_effort hasOnError rest partial
  | Caught err :: rest =>
      if negb best_effort then Raise err else deliverLoop best_effort hasOnError rest (partial || hasOnError)
  end.

Definition deliverOutboundPayloads (params : QueuedDeliveryPayload) (hasOnError skipQueue : bool) : task unit :=
  let* queueId :=
    (if skipQueue then ret None
     else catch (let* id := enqueueDelivery params in ret (Some id)) (λ _, ret None) : task (option string)) in
  handle (attempt (SendCore queueId hasOnError params))
    (λ hadPartialFailure : bool,
      match queueId with
      | None => ret tt
      | Some id =>
          if hadPartialFailure then ignore (failDelivery id "partial delivery failure (bestEffort)")
          else ignore (ackDelivery id)
      end)
    (λ err,
      match queueId with
      | None => raise err
      | Some id =>
          (if aborted err then ignore (ackDelivery id) else ignore (failDelivery id (message err))) ;;*
          raise err
      end).

(** ** The world *)

Inductive Event :=
| EvStored (id : string)
| EvAcked (id : string)
(** the payloads of a delivery were gone through *)
| EvSend (id : option string) (p : QueuedDeliveryPayload) (outcomes : list PayloadOutcome)
| EvAborted (id : string).

(** The disk, the memory of the process, and what an observer knows: the payload
    each id was drawn for and what happened. *)
Record World := mkWorld {
  json : gmap string QueuedDelivery;
  tmp : gmap string QueuedDelivery;
  markers : gset string;
  failedDir : gmap string QueuedDelivery;
  claims : gset string;
  drains : gset string;
  origins : gmap string QueuedDeliveryPayload;
  log : list Event;
}.
Definition emptyWorld : World := mkWorld ∅ ∅ ∅ ∅ ∅ ∅ ∅ [].

Definition set_json w x := mkWorld x (tmp w) (markers w) (failedDir w) (claims w) (drains w) (origins w) (log w).
Definition set_tmp w x := mkWorld (json w) x (markers w) (failedDir w) (claims w) (drains w) (origins w) (log w).
Definition set_markers w x := mkWorld (json w) (tmp w) x (failedDir w) (claims w) (drains w) (origins w) (log w).
Definition set_failedDir w x := mkWorld (json w) (tmp w) (markers w) x (claims w) (drains w) (origins w) (log w).
Definition set_claims w x := mkWorld (json w) (tmp w) (markers w) (failedDir w) x (drains w) (origins w) (log w).
Definition set_drains w x := mkWorld (json w) (tmp w) (markers w) (failedDir w) (claims w) x (origins w) (log w).
Definition set_origins w x := mkWorld (json w) (tmp w) (markers w) (failedDir w) (claims w) (drains w) x (log w).
Definition note w evs := mkWorld (json w) (tmp w) (markers w) (failedDir w) (claims w) (drains w) (origins w) (log w ++ evs).

Definition fails {A} (x : fallible A) : Prop := ∃ err, x = Raise err.
Definition abortEvents (id : option string) (err : error) : list Event :=
  match id with Some i => if aborted err then [EvAborted i] else [] | None => [] end.
Definition best_effort (p : QueuedDeliveryPayload) : bool := bestEffort p ?? false.

(** What an operation may answer and leave. Any operation of the file system may
    fail; a rename or a read succeeds only when the file is there. *)
Definition exec (X : Type) (o : io X) : World → X → World → Prop :=
  match o in io X return World → X → World → Prop with
  | Mkdir => λ w x w', w' = w
  | WriteTmp id e => λ w x w', (fails x ∧ w' = w) ∨ (x = Value tt ∧ w' = set_tmp w (<[id := e]> (tmp w)))
  | RenameTmp id => λ w x w', (fails x ∧ w' = w) ∨
      ∃ e, tmp w !! id = Some e ∧ x = Value tt ∧
        w' = note (set_json (set_tmp w (delete id (tmp w))) (<[id := e]> (json w))) [EvStored id]
  | ReadJson id => λ w x w', w' = w ∧ (fails x ∨ ∃ e, json w !! id = Some e ∧ x = Value e)
  | StatJson id => λ w x w', w' = w ∧ (fails x ∨ (is_Some (json w !! id) ∧ x = Value true))
  | RenameDelivered id => λ w x w', (fails x ∧ w' = w) ∨
      (is_Some (json w !! id) ∧ x = Value tt ∧
       w' = note (set_json (set_markers w ({[id]} ∪ markers w)) (delete id (json w))) [EvAcked id])
  | UnlinkDelivered id => λ w x w', (fails x ∧ w' = w) ∨ (id ∈ markers w ∧ x = Value tt ∧ w' = set_markers w (markers w ∖ {[id]}))
  | RenameFailed id => λ w x w', (fails x ∧ w' = w) ∨
      ∃ e, json w !! id = Some e ∧ x = Value tt ∧
        w' = set_json (set_failedDir w (<[id := e]> (failedDir w))) (delete id (json w))
  | Readdir => λ w x w', w' = w ∧ (fails x ∨ ∃ l m, x = Value (l, m) ∧ NoDup l ∧ NoDup m ∧
      (∀ id, id ∈ l ↔ is_Some (json w !! id)) ∧ ∀ id, id ∈ m ↔ id ∈ markers w)
  | RandomId p => λ w id w', origins w !! id = None ∧ w' = set_origins w (<[id := p]> (origins w))
  | DateNow => λ w t w', w' = w ∧ 0 < t
  | SendCore id hasOnError p => λ w x w',
      (∃ outcomes, x = deliverLoop (best_effort p) hasOnError outcomes false ∧
         w' = note w (EvSend id p outcomes :: match x with Raise err => abortEvents id err | Value _ => [] end)) ∨
      (∃ err, x = Raise err ∧ w' = note w (abortEvents id err))
  | Claim id => λ w b w', b = bool_decide (id ∉ claims w) ∧ w' = set_claims w ({[id]} ∪ claims w)
  | Release id => λ w _ w', w' = set_claims w (claims w ∖ {[id]})
  | AcquireDrain key => λ w b w', b = bool_decide (key ∉ drains w) ∧ w' = set_drains w ({[key]} ∪ drains w)
  | ReleaseDrain key => λ w _ w', w' = set_drains w (drains w ∖ {[key]})
  | Choose => λ w _ w', w' = w
  end.

(** Who uses the queue: senders, reconnecting channels, the start of the gateway. *)
Inductive client : task unit → Prop :=
| client_sender params hasOnError skipQueue : client (ignore (deliverOutboundPayloads params hasOnError skipQueue))
| client_drain key selectEntry : client (ignore (drainPendingDeliveries key selectEntry))
| client_recovery maxRecoveryMs : client (ignore (recoverPendingDeliveries maxRecoveryMs)).

Record Sys := mkSys { world : World; tasks : list (task unit) }.

(** A crash ends the tasks and empties the memory; the next process has another pid,
    so that the temporary files of the last one are never renamed. *)
Definition crashed (w : World) : World := mkWorld (json w) ∅ (markers w) (failedDir w) ∅ ∅ (origins w) (log w).

Inductive sstep (starts : task unit → Prop) : Sys → Sys → Prop :=
| step_start w ts p : starts p → sstep starts (mkSys w ts) (mkSys w (ts ++ [p]))
| step_task w ts i p p' w' : ts !! i = Some p → pstep exec p w p' w' → sstep starts (mkSys w ts) (mkSys w' (<[i := p']> ts))
| step_crash w ts : sstep starts (mkSys w ts) (mkSys (crashed w) []).

Definition reachable (starts : task unit → Prop) : Sys → Prop := rtc (sstep starts) (mkSys emptyWorld []).

(** ** Playing schedules

    A schedule tells who goes on and what the outside answers; it is executed. *)

Inductive answer := Good | Bad (err : error) | At (t : Z) | Named (id : string) | Outcomes (l : list PayloadOutcome) | First (b : bool).

Definition or_bad {A} (a : answer) (w : World) (good : option (fallible A * World)) : option (fallible A * World) :=
  match a with Bad err => Some (Raise err, w) | _ => good end.

Definition respond {X} (o : io X) (a : answer) (w : World) : option (X * World) :=
  match o in io X return option (X * World) with
  | Mkdir => or_bad a w (Some (Value tt, w))
  | WriteTmp id e => or_bad a w (Some (Value tt, set_tmp w (<[id := e]> (tmp w))))
  | RenameTmp id => or_bad a w
      (match tmp w !! id with
       | Some e => Some (Value tt, note (set_json (set_tmp w (delete id (tmp w))) (<[id := e]> (json w))) [EvStored id])
       | None => None
       end)
  | ReadJson id => or_bad a w (match json w !! id with Some e => Some (Value e, w) | None => None end)
  | StatJson id => or_bad a w (match json w !! id with Some _ => Some (Value true, w) | None => None end)
  | RenameDelivered id => or_bad a w
      (match json w !! id with
       | Some _ => Some (Value tt, note (set_json (set_markers w ({[id]} ∪ markers w)) (delete id (json w))) [EvAcked id])
       | None => None
       end)
  | UnlinkDelivered id => or_bad a w
      (if decide (id ∈ markers w) then Some (Value tt, set_markers w (markers w ∖ {[id]})) else None)
  | RenameFailed id => or_bad a w
      (match json w !! id with
       | Some e => Some (Value tt, set_json (set_failedDir w (<[id := e]> (failedDir w))) (delete id (json w)))
       | None => None
       end)
  | Readdir => or_bad a w (Some (Value (map fst (map_to_list (json w)), elements (markers w)), w))
  | RandomId p =>
      match a with
      | Named id => if decide (origins w !! id = None) then Some (id, set_origins w (<[id := p]> (origins w))) else None
      | _ => None
      end
  | DateNow => match a with At t => if 0 <? t then Some (t, w) else None | _ => None end
  | SendCore id hasOnError p =>
      match a with
      | Outcomes outcomes =>
          let x := deliverLoop (best_effort p) hasOnError outcomes false in
          Some (x, note w (EvSend id p outcomes :: match x with Raise err => abortEvents id err | Value _ => [] end))
      | Bad err => Some (Raise err, note w (abortEvents id err))
      | _ => None
      end
  | Claim id => Some (bool_decide (id ∉ claims w), set_claims w ({[id]} ∪ claims w))
  | Release id => Some (tt, set_claims w (claims w ∖ {[id]}))
  | AcquireDrain key => Some (bool_decide (key ∉ drains w), set_drains w ({[key]} ∪ drains w))
  | ReleaseDrain key => Some (tt, set_drains w (drains w ∖ {[key]}))
  | Choose => match a with First b => Some (b, w) | _ => Some (true, w) end
  end.

Inductive move := Start (p : task unit) | Turn (i : nat) (a : answer) | Crash.

Definition playMove (s : Sys) (m : move) : option Sys :=
  match m with
  | Start p => Some (mkSys (world s) (tasks s ++ [p]))
  | Turn i a =>
      match tasks s !! i with
      | Some (Do o k) =>
          match respond o a (world s) with
          | Some (x, w') => Some (mkSys w' (<[i := k x]> (tasks s)))
          | None => None
          end
      | _ => None
      end
  | Crash => Some (mkSys (crashed (world s)) [])
  end.

Fixpoint play (s : Sys) (moves : list move) : option Sys :=
  match moves with
  | [] => Some s
  | m :: rest => match playMove s m with Some s' => play s' rest | None => None end
  end.

Lemma respond_exec X (o : io X) a w x w' : respond o a w = Some (x, w') → exec X o w x w'.
Proof.
  assert (∀ A (good : option (fallible A * World)) (y : fallible A) v, or_bad a w good = Some (y, v) →
    (fails y ∧ v = w) ∨ good = Some (y, v)) as Hbad.
  { intros A good y v. unfold or_bad. destruct a; try (by right). intros [= <- <-]. left. split; [by eexists|done]. }
  destruct o; cbn [respond exec]; intros H.
  - apply Hbad in H as [[_ ->]|H]; [done|]. by injection H as _ <-.
  - apply Hbad in H as [?|H]; [by left|right]. by injection H as <- <-.
  - apply Hbad in H as [?|H]; [by left|right]. destruct (tmp w !! id) as [e|]; [|done]. injection H as <- <-. by exists e.
  - apply Hbad in H as [[? ->]|H]; [auto|]. destruct (json w !! id) as [e|]; [|done]. injection H as <- <-. split; [done|]. right. by exists e.
  - apply Hbad in H as [[? ->]|H]; [auto|]. destruct (json w !! id) as [e|]; [|done]. injection H as <- <-. split; [done|]. right. by eauto.
  - apply Hbad in H as [?|H]; [by left|right]. destruct (json w !! id) as [e|]; [|done]. injection H as <- <-. by eauto.
  - apply Hbad in H as [?|H]; [by left|right]. case_decide; [|done]. by injection H as <- <-.
  - apply Hbad in H as [?|H]; [by left|right]. destruct (json w !! id) as [e|]; [|done]. injection H as <- <-. by exists e.
  - apply Hbad in H as [[? ->]|H]; [auto|]. injection H as <- <-. split; [done|]. right. do 2 eexists. split; [done|].
    split; [apply NoDup_fst_map_to_list|]. split; [apply NoDup_elements|]. split; intros id; [|apply elem_of_elements].
    rewrite list_elem_of_fmap. split.
    + intros ([id' e] & -> & Hin%elem_of_map_to_list). by exists e.
    + intros [e He]. exists (id, e). split; [done|]. by apply elem_of_map_to_list.
  - destruct a; try done. case_decide; [|done]. by injection H as <- <-.
  - destruct a; try done. destruct (Z.ltb_spec 0 t); [|done]. by injection H as <- <-.
  - destruct a; try done; [right|left]; injection H as <- <-; by eexists.
  - by injection H as <- <-.
  - by injection H as <- <-.
  - by injection H as <- <-.
  - by injection H as <- <-.
  - destruct a; by injection H as _ <-.
Qed.

Lemma play_steps starts moves s s' :
  Forall (λ m, match m with Start p => starts p | _ => True end) moves →
  play s moves = Some s' → rtc (sstep starts) s s'.
Proof.
  intros Hm. revert s. induction Hm as [|m moves Hs _ IH]; intros s H; [by injection H as <-|]. cbn [play] in H.
  destruct (playMove s m) as [s1|] eqn:E; [|done]. apply rtc_l with s1; [|by apply IH]. destruct s as [w ts].
  destruct m as [p|i a|]; cbn [playMove world tasks] in E.
  - injection E as <-. by constructor.
  - destruct (ts !! i) as [[r|X o k]|] eqn:Ei; [done| |done]. destruct (respond o a w) as [[x w']|] eqn:Er; [|done]. injection E as <-.
    eapply step_task; [exact Ei|]. exists x. split; [by eapply respond_exec|done].
  - injection E as <-. constructor.
Qed.

Definition startState : Sys := mkSys emptyWorld [].
Definition playable (moves : list move) : bool := match play startState moves with Some _ => true | None => false end.
Definition stateAfter (moves : list move) : Sys := play startState moves ?? startState.

(** A schedule that can be played leads to a reachable state. *)
Lemma play_reachable starts moves :
  Forall (λ m, match m with Start p => starts p | _ => True end) moves → playable moves = true →
  reachable starts (stateAfter moves).
Proof.
  unfold playable, stateAfter. intros H. destruct (play startState moves) as [s|] eqn:E; [|done]. intros _. by eapply play_steps.
Qed.

(** ** What programs rely on *)

(** A delivery of the entry went through: all its payloads were handled, or it is
    best effort; or it was aborted by the caller. *)
Definition settled (l : list Event) (id : string) : Prop :=
  (∃ p outcomes, EvSend (Some id) p outcomes ∈ l ∧ (Forall (λ o, o = Handled) outcomes ∨ best_effort p = true)) ∨
  EvAborted id ∈ l.

Definition Known : Type := gmap string QueuedDeliveryPayload * list Event.
Definition known_of (w : World) : Known := (origins w, log w).

Definition io_pre {X} (o : io X) (g : Known) : Prop :=
  match o with
  | WriteTmp id e => entry_id e = id ∧ g.1 !! id = Some (payload e)
  | RenameDelivered id => settled g.2 id
  | SendCore (Some id) _ p => g.1 !! id = Some p
  | _ => True
  end.

Definition io_post {X} (o : io X) : X → Known → Prop :=
  match o in io X return X → Known → Prop with
  | ReadJson id => λ x g, ∀ e, x = Value e → entry_id e = id ∧ g.1 !! id = Some (payload e)
  | RandomId p => λ id g, g.1 !! id = Some p
  | SendCore (Some id) hasOnError p => λ x g,
      match x with
      | Value b => ∃ outcomes, EvSend (Some id) p outcomes ∈ g.2 ∧
          deliverLoop (best_effort p) hasOnError outcomes false = Value b
      | Raise err => aborted err = true → EvAborted id ∈ g.2
      end
  | _ => λ _ _, True
  end.

Lemma settled_grows l l' id : (∀ ev, ev ∈ l → ev ∈ l') → settled l id → settled l' id.
Proof. intros H [(p & outs & H1 & H2)|H1]; [left; exists p, outs; auto|right; auto]. Qed.

#[export] Instance delivery_facts : Facts io Known.
Proof.
  refine {| grows g g' := g.1 ⊆ g'.1 ∧ ∀ ev, ev ∈ g.2 → ev ∈ g'.2; pre := @io_pre; post := @io_post |}.
  - done.
  - intros g1 g2 g3 [H1 H2] [H3 H4]. split; [by etrans|auto].
  - intros X o g g' [H1 H2]. destruct o as [| | | | | | | | | | |[id|]| | | | |]; cbn; try done.
    + intros [? ?]. split; [done|]. by eapply lookup_weaken.
    + by apply settled_grows.
    + intros H. by eapply lookup_weaken.
Defined.

(** The entry is as its id was drawn for. *)
Definition genuine (g : Known) (e : QueuedDelivery) : Prop := g.1 !! entry_id e = Some (payload e).

Lemma genuine_grows g g' e : grows g g' → genuine g e → genuine g' e.
Proof. intros [H _] He. by eapply lookup_weaken. Qed.

Lemma safe_write g id e : entry_id e = id → genuine g e → safe g (writeQueueEntry id e) anyway.
Proof.
  intros <- He. eapply safe_bind; [eapply (safe_attempt _ _ anyway); done| |done].
  intros g' u Hg _. by eapply safe_attempt.
Qed.

Lemma safe_read g id : safe g (readQueueEntry id) (λ g' r, ∀ e, r = Value e → entry_id e = id ∧ genuine g' e).
Proof. apply safe_attempt; [done|]. intros g' x Hg Hx e E. destruct (Hx e E) as [<- H]. done. Qed.

Lemma safe_load g id : safe g (loadEntry id) (λ g' r, ∀ e, r = Value e → entry_id e = id ∧ genuine g' e).
Proof.
  eapply safe_bind; [apply safe_read| |by intros]. intros g' raw Hg Hraw. destruct (Hraw raw eq_refl) as [Hid Hgen].
  assert (∀ e m, normalizeLegacyQueuedDeliveryEntry raw = (e, m) → entry_id e = id ∧ genuine g' e) as H.
  { intros e m. unfold normalizeLegacyQueuedDeliveryEntry. by repeat case_match; intros [= <- <-]. }
  destruct (normalizeLegacyQueuedDeliveryEntry raw) as [e m]. destruct (H e m eq_refl) as [He Heg].
  eapply (safe_bind _ _ _ anyway); [destruct m; [by apply safe_write|done]| |by intros].
  intros g2 u Hg2 _ e' [= <-]. split; [done|by eapply genuine_grows].
Qed.

(** [stat], then read and migrate, with some treatment of errors. *)
Lemma safe_stat_load g id (h : error → task (option QueuedDelivery)) :
  (∀ g e, safe g (h e) (λ g' r, ∀ x, r = Value (Some x) → entry_id x = id ∧ genuine g' x)) →
  safe g (catch (let* isFile := attempt (StatJson id) in
                 if negb isFile then ret None else let* entry := loadEntry id in ret (Some entry)) h)
    (λ g' r, ∀ x, r = Value (Some x) → entry_id x = id ∧ genuine g' x).
Proof.
  intros Hh. eapply (safe_handle _ _ _ _ (λ g' r, ∀ x, r = Value (Some x) → entry_id x = id ∧ genuine g' x)).
  - eapply (safe_bind _ _ _ anyway); [by eapply safe_attempt| |by intros]. intros g' isFile Hg _. destruct (negb isFile); [by intros x|].
    eapply safe_bind; [apply safe_load| |by intros]. intros g2 e Hg2 He. intros x [= <-]. by apply He.
  - intros g' a Hg Ha x [= ->]. by apply Ha.
  - intros g' e Hg _. apply Hh.
Qed.

Lemma safe_loadPendingDelivery g id :
  safe g (loadPendingDelivery id) (λ g' r, ∀ x, r = Value (Some x) → entry_id x = id ∧ genuine g' x).
Proof. apply safe_stat_load. intros g' err. destruct (enoent err); by intros x. Qed.

Lemma safe_loadEntries g ids : safe g (loadEntries ids) (λ g' r, ∀ l, r = Value l → Forall (genuine g') l).
Proof.
  revert g. induction ids as [|id ids IH]; intros g; cbn [loadEntries]; [intros l [= <-]; constructor|].
  eapply safe_bind; [apply safe_stat_load; by intros g' e x| |by intros]. intros g' found Hg Hfound.
  eapply safe_bind; [apply IH| |by intros]. intros g2 l Hg2 Hl l' [= <-]. destruct found as [e|]; [|by apply Hl].
  constructor; [|by apply Hl]. destruct (Hfound e eq_refl) as [_ He]. by eapply genuine_grows.
Qed.

Lemma safe_unlink g id : safe g (unlinkBestEffort id) anyway.
Proof. eapply safe_ignore. by apply (safe_attempt _ _ anyway). Qed.

Lemma safe_loadPendingDeliveries g : safe g loadPendingDeliveries (λ g' r, ∀ l, r = Value l → Forall (genuine g') l).
Proof.
  eapply (safe_handle _ _ _ _ anyway); [by apply safe_attempt| |].
  - intros g' [l m] Hg _. eapply safe_bind; [apply safe_forEach; intros; apply safe_unlink| |by intros].
    intros g2 u Hg2 _. apply safe_loadEntries.
  - intros g' err Hg _. destruct (enoent err); intros l; [intros [= <-]; constructor|done].
Qed.

Lemma safe_ack g id : settled g.2 id → safe g (ackDelivery id) anyway.
Proof.
  intros H. eapply (safe_handle _ _ _ _ anyway); [by apply safe_attempt| |].
  - intros. apply safe_unlink.
  - intros g' err Hg _. destruct (enoent err); [apply safe_unlink|done].
Qed.

Lemma safe_fail g id err : safe g (failDelivery id err) anyway.
Proof.
  eapply safe_bind; [apply safe_read| |done]. intros g' e Hg He. destruct (He e eq_refl) as [<- Hgen].
  eapply (safe_bind _ _ _ anyway); [by apply safe_perform| |done]. intros g2 now Hg2 _. apply safe_write; [done|].
  by eapply (genuine_grows g').
Qed.

Lemma safe_moveToFailed g id : safe g (moveToFailed id) anyway.
Proof. eapply (safe_bind _ _ _ anyway); [by apply safe_attempt| |done]. intros. by apply safe_attempt. Qed.

(** A loop that ends well has handled every payload, or is best effort. *)
Lemma deliverLoop_value be onErr outs b p :
  deliverLoop be onErr outs p = Value b → Forall (λ o, o = Handled) outs ∨ be = true.
Proof.
  revert p. induction outs as [|[|err] outs IH]; intros p; cbn [deliverLoop]; [by left; constructor| |].
  - intros [H|H]%IH; [left; by constructor|by right].
  - destruct be; [by right|done].
Qed.

Lemma safe_drainQueuedEntry g e : genuine g e → safe g (drainQueuedEntry e) anyway.
Proof.
  intros He. eapply (safe_handle _ _ _ _ anyway).
  - eapply safe_bind; [apply safe_attempt; [exact He|intros g' x Hg Hx; exact Hx]| |done].
    intros g' b Hg (outs & Hin & Hl). apply safe_ack. left. exists (payload e), outs. split; [done|]. by eapply deliverLoop_value.
  - done.
  - intros g' err Hg _. destruct (isPermanentDeliveryError _).
    + eapply (safe_handle _ _ _ _ anyway); [apply safe_moveToFailed|done|done].
    + eapply (safe_handle _ _ _ _ anyway); [apply safe_fail|done|done].
Qed.

Lemma safe_claimed g id (p : task unit) :
  (∀ g', safe g' p anyway) → safe g (finally p (perform (Release id))) anyway.
Proof. intros H. eapply safe_finally; [apply H|]. intros. by apply (safe_perform _ _ anyway). Qed.

Lemma safe_drainEntry g e bypass : safe g (drainEntry e bypass) anyway.
Proof.
  eapply (safe_bind _ _ _ anyway); [by apply safe_perform| |done]. intros g' claimed Hg _. destruct (negb claimed); [done|].
  apply safe_claimed. clear g g' Hg. intros g. eapply safe_bind; [apply safe_loadPendingDelivery| |done].
  intros g' [cur|] Hg Hcur; [|done]. destruct (Hcur cur eq_refl) as [_ Hgen]. destruct (MAX_RETRIES <=? _).
  - eapply (safe_handle _ _ _ _ anyway); [apply safe_moveToFailed|done|]. intros g2 err _ _. by destruct (enoent err).
  - assert (∀ g2, grows g' g2 → safe g2 (let* _ := drainQueuedEntry cur in ret tt) anyway) as Hgo.
    { intros g2 Hg2. eapply safe_bind; [apply safe_drainQueuedEntry; by eapply (genuine_grows g')|done|done]. }
    destruct (negb bypass); [|apply Hgo, grows_refl].
    eapply (safe_bind _ _ _ anyway); [by apply safe_perform| |done]. intros g2 now Hg2 _.
    destruct (isEntryEligibleForRecoveryRetry cur now); [done|by apply Hgo].
Qed.

Lemma safe_drain g key sel : safe g (drainPendingDeliveries key sel) anyway.
Proof.
  eapply (safe_bind _ _ _ anyway); [by apply safe_perform| |done]. intros g' acquired Hg _. destruct (negb acquired); [done|].
  eapply safe_finally; [|intros; by apply (safe_perform _ _ anyway)].
  eapply (safe_bind _ _ _ anyway); [by apply safe_perform| |done]. intros g2 now _ _.
  eapply safe_bind; [apply safe_loadPendingDeliveries| |done]. intros g3 entries _ _.
  apply safe_forEach. intros. apply safe_drainEntry.
Qed.

Lemma safe_recoverEntry g e sum : safe g (recoverEntry e sum) anyway.
Proof.
  eapply safe_bind; [apply safe_loadPendingDelivery| |done]. intros g' [cur|] Hg Hcur; [|done].
  destruct (Hcur cur eq_refl) as [_ Hgen]. destruct (MAX_RETRIES <=? _).
  - eapply (safe_bind _ _ _ anyway); [eapply safe_ignore, safe_moveToFailed|done|done].
  - eapply (safe_bind _ _ _ anyway); [by apply safe_perform| |done]. intros g2 now Hg2 _.
    destruct (isEntryEligibleForRecoveryRetry cur now); [done|].
    eapply (safe_bind _ _ _ anyway); [apply safe_drainQueuedEntry; by eapply (genuine_grows g')|done|done].
Qed.

Lemma safe_recoverEntries g deadline l sum : safe g (recoverEntries deadline l sum) anyway.
Proof.
  revert g sum. induction l as [|e l IH]; intros g sum; [done|]. cbn [recoverEntries].
  eapply (safe_bind _ _ _ anyway); [by apply safe_perform| |done]. intros g' now Hg _. destruct (deadline <=? now).
  - eapply (safe_bind _ _ _ anyway); [|done|done]. apply safe_allSettled; [done|].
    rewrite Forall_forall. intros p (x & -> & _)%list_elem_of_fmap. apply safe_fail.
  - eapply (safe_bind _ _ _ anyway); [by apply safe_perform| |done]. intros g2 claimed Hg2 _. destruct (negb claimed); [apply IH|].
    eapply (safe_bind _ _ _ anyway); [|intros; apply IH|done]. eapply safe_finally; [apply safe_recoverEntry|].
    intros. by apply (safe_perform _ _ anyway).
Qed.

Lemma safe_recover g maxMs : safe g (recoverPendingDeliveries maxMs) anyway.
Proof.
  eapply safe_bind; [apply safe_loadPendingDeliveries| |done]. intros g' [|e l] Hg Hl; [done|].
  eapply (safe_bind _ _ _ anyway); [by apply safe_perform|intros; apply safe_recoverEntries|done].
Qed.

Lemma safe_enqueue g p : safe g (enqueueDelivery p) (λ g' r, ∀ id, r = Value id → g'.1 !! id = Some p).
Proof.
  eapply (safe_bind _ _ _ anyway); [|intros g' u Hg _|by intros].
  { eapply (safe_bind _ _ _ anyway); [by apply safe_attempt|intros; by apply safe_attempt|done]. }
  eapply safe_bind; [apply (safe_perform _ _ (λ g r, ∀ id, r = Value id → g.1 !! id = Some p))| |by intros]; [done| |].
  { intros g2 id _ Hid id' [= <-]. exact Hid. }
  intros g2 id Hg2 Hid. eapply (safe_bind _ _ _ anyway); [by apply safe_perform| |by intros]. intros g3 now Hg3 _.
  assert (g3.1 !! id = Some p) as H3 by (eapply lookup_weaken; [by apply Hid|apply Hg3]).
  eapply safe_bind; [by apply safe_write| |by intros]. intros g4 u4 Hg4 _ id' [= <-]. eapply lookup_weaken; [exact H3|apply Hg4].
Qed.

Lemma safe_sender g p onErr skip : safe g (deliverOutboundPayloads p onErr skip) anyway.
Proof.
  eapply (safe_bind _ _ _ (λ g' r, ∀ id, r = Value (Some id) → g'.1 !! id = Some p)); [|intros g' q Hg Hq|done].
  { destruct skip; [by intros id|]. eapply (safe_handle _ _ _ _ (λ g' r, ∀ id, r = Value (Some id) → g'.1 !! id = Some p)).
    - eapply safe_bind; [apply safe_enqueue| |by intros]. intros g' id Hg Hid id' [= <-]. by apply Hid.
    - intros g' a Hg Ha id [= ->]. by apply Ha.
    - by intros g' e Hg _ id. }
  eapply (safe_handle _ _ _ _ (λ g' x, ∀ id, q = Some id → io_post (SendCore (Some id) onErr p) x g')).
  - split; [destruct q as [id|]; [by apply Hq|done]|]. intros g2 x Hg2 Hx id ->. exact Hx.
  - intros g2 b Hg2 Hb. destruct q as [id|]; [|done]. destruct (Hb id eq_refl) as (outs & Hin & Hl).
    destruct b; eapply safe_ignore; [apply safe_fail|]. apply safe_ack. left. exists p, outs. split; [done|]. by eapply deliverLoop_value.
  - intros g2 err Hg2 Herr. destruct q as [id|]; [|done]. eapply (safe_bind _ _ _ anyway); [|done|done].
    destruct (aborted err) eqn:Ea; eapply safe_ignore; [|apply safe_fail]. apply safe_ack. right. by apply (Herr id eq_refl).
Qed.

(** ** What the operations keep *)

(** The files of an id hold what it was drawn for. *)
Definition genuine_files (w : World) (m : gmap string QueuedDelivery) : Prop :=
  ∀ id e, m !! id = Some e → entry_id e = id ∧ origins w !! id = Some (payload e).

Record queue_ok (w : World) : Prop := mkQueueOk {
  ok_json : genuine_files w (json w);
  ok_tmp : genuine_files w (tmp w);
  ok_failed : genuine_files w (failedDir w);
  ok_kept id : EvStored id ∈ log w → is_Some (json w !! id) ∨ is_Some (failedDir w !! id) ∨ settled (log w) id;
  ok_sent id p outs : EvSend (Some id) p outs ∈ log w → origins w !! id = Some p;
}.

Lemma genuine_insert w m id e :
  genuine_files w m → entry_id e = id → origins w !! id = Some (payload e) → genuine_files w (<[id := e]> m).
Proof. intros Hm <- He id' e' [[<- <-]|[_ H]]%lookup_insert_Some; [done|by apply Hm]. Qed.

Lemma genuine_delete w m id : genuine_files w m → genuine_files w (delete id m).
Proof. intros Hm id' e' [_ H]%lookup_delete_Some. by apply Hm. Qed.

Lemma genuine_origins w m id p :
  origins w !! id = None → genuine_files w m → genuine_files (set_origins w (<[id := p]> (origins w))) m.
Proof.
  intros Hid Hm id' e He. destruct (Hm _ _ He) as [H1 H2]. split; [done|]. cbn [origins set_origins].
  rewrite lookup_insert_ne; [done|]. intros ->. congruence.
Qed.

(** Only what is known grows. *)
Lemma queue_ok_note w evs :
  queue_ok w → (∀ id, EvStored id ∉ evs) → (∀ id p outs, EvSend (Some id) p outs ∈ evs → origins w !! id = Some p) →
  queue_ok (note w evs).
Proof.
  intros [H1 H2 H3 H4 H5] Hs He. split; try done; cbn [log note json failedDir origins].
  - intros id [H|H]%elem_of_app; [|by apply Hs in H]. destruct (H4 id H) as [?|[?|?]]; [by left|by right; left|right; right].
    eapply settled_grows; [|done]. intros ev ?. apply elem_of_app. by left.
  - intros id p outs [H|H]%elem_of_app; [by eapply H5|by eapply He].
Qed.

Lemma grows_note w evs : grows (known_of w) (known_of (note w evs)).
Proof. split; [done|]. intros ev H. cbn. apply elem_of_app. by left. Qed.

Lemma abortEvents_elem oid err ev : ev ∈ abortEvents oid err → ∃ i, ev = EvAborted i.
Proof.
  unfold abortEvents. destruct oid as [i|]; [|by intros ?%elem_of_nil].
  destruct (aborted err); [intros ->%list_elem_of_singleton; by exists i|by intros ?%elem_of_nil].
Qed.

Lemma exec_sound X (o : io X) w x w' :
  queue_ok w → pre o (known_of w) → exec X o w x w' →
  queue_ok w' ∧ grows (known_of w) (known_of w') ∧ post o x (known_of w').
Proof.
  change (pre o (known_of w)) with (io_pre o (known_of w)). change (post o x (known_of w')) with (io_post o x (known_of w')).
  intros Hok Hpre Hx. pose proof (grows_refl (known_of w)) as Hrefl. pose proof Hok as [H1 H2 H3 H4 H5].
  destruct o as [|id e|id|id|id|id|id|id| |p| |oid onErr p|id|id|key|key|]; cbn [exec io_pre io_post known_of fst snd] in *.
  - by subst.
  - destruct Hx as [[_ ->]|[_ ->]]; [done|]. split; [|done]. split; try done. destruct Hpre as [? ?]. by apply genuine_insert.
  - destruct Hx as [[_ ->]|(e & He & _ & ->)]; [done|]. destruct (H2 _ _ He) as [Hid Ho]. split; [|split; [apply (grows_note w)|done]].
    split; cbn [json tmp failedDir log origins note set_json set_tmp]; try done.
    + by apply genuine_insert.
    + by apply genuine_delete.
    + intros id'. rewrite elem_of_app, list_elem_of_singleton. intros H. destruct (decide (id' = id)) as [->|Hne]; [left; by rewrite lookup_insert_eq|].
      rewrite lookup_insert_ne by done. destruct H as [H|[= ->]]; [|done].
      destruct (H4 id' H) as [?|[?|?]]; [by left|by right; left|right; right]. eapply settled_grows; [|done]. intros; apply elem_of_app; by left.
    + intros id' p outs. rewrite elem_of_app, list_elem_of_singleton. intros [H|H]; [by eapply H5|done].
  - destruct Hx as [-> [[err ->]|(e & He & ->)]]; (split; [done|]; split; [done|]); [done|]. intros e' [= <-]. by apply H1.
  - by destruct Hx as [-> _].
  - destruct Hx as [[_ ->]|(_ & _ & ->)]; [done|]. split; [|split; [apply (grows_note w)|done]].
    split; cbn [json tmp failedDir log origins note set_json set_markers]; try done.
    + by apply genuine_delete.
    + intros id'. rewrite elem_of_app, list_elem_of_singleton. intros [H|H]; [|done].
      assert (settled (log w) id' → settled (log w ++ [EvAcked id]) id') as Hmon
        by (apply settled_grows; intros; apply elem_of_app; by left).
      destruct (decide (id' = id)) as [->|Hne]; [right; right; by apply Hmon|]. rewrite lookup_delete_ne by done.
      destruct (H4 id' H) as [?|[?|?]]; auto.
    + intros id' p outs. rewrite elem_of_app, list_elem_of_singleton. intros [H|H]; [by eapply H5|done].
  - destruct Hx as [[_ ->]|(_ & _ & ->)]; [done|]. by split.
  - destruct Hx as [[_ ->]|(e & He & _ & ->)]; [done|]. split; [|done].
    split; cbn [json tmp failedDir log origins set_json set_failedDir]; try done.
    + by apply genuine_delete.
    + by apply genuine_insert; [|apply H1..].
    + intros id' H. destruct (decide (id' = id)) as [->|Hne]; [right; left; by rewrite lookup_insert_eq|].
      rewrite lookup_delete_ne, lookup_insert_ne by done. by apply H4.
  - by destruct Hx as [-> _].
  - destruct Hx as [Hid ->]. split; [|split; [split; [exact (insert_subseteq _ _ _ Hid)|done]|by apply lookup_insert_eq]].
    split; [by apply genuine_origins..|exact H4|]. intros id' p' outs H. cbn. rewrite lookup_insert_ne; [by eapply H5|].
    intros <-. specialize (H5 _ _ _ H). congruence.
  - by destruct Hx as [-> _].
  - destruct Hx as [(outs & -> & ->)|(err & -> & ->)]; (split; [|split; [apply grows_note|]]).
    + assert (∀ ev, ev ∈ match deliverLoop (best_effort p) onErr outs false with Raise err => abortEvents oid err | Value _ => [] end →
        ∃ i, ev = EvAborted i) as Hab.
      { intros ev. destruct (deliverLoop _ _ _ _); [by intros ?%elem_of_nil|apply abortEvents_elem]. }
      apply queue_ok_note; [done| |]; intros *.
      * by intros [H|(? & H)%Hab]%elem_of_cons.
      * intros [H|(? & H)%Hab]%elem_of_cons; [|done]. by injection H as <- <- <-.
    + destruct oid as [id|]; [|done]. cbn [log note]. destruct (deliverLoop (best_effort p) onErr outs false) as [b|err] eqn:El.
      * exists outs. split; [|done]. apply elem_of_app. right. by left.
      * intros Ha. unfold abortEvents. rewrite Ha. apply elem_of_app. right. right. by left.
    + apply queue_ok_note; [done| |]; intros *; by intros (? & ?)%abortEvents_elem.
    + destruct oid as [id|]; [|done]. intros Ha. cbn [log note]. unfold abortEvents. rewrite Ha. apply elem_of_app. right. by left.
  - destruct Hx as [_ ->]. by split.
  - subst. by split.
  - destruct Hx as [_ ->]. by split.
  - subst. by split.
  - by subst.
Qed.

Definition sys_ok (s : Sys) : Prop :=
  queue_ok (world s) ∧ Forall (λ p, safe (known_of (world s)) p anyway) (tasks s).

Lemma sstep_ok starts s s' :
  (∀ p g, starts p → safe g p anyway) → sys_ok s → sstep starts s s' → sys_ok s'.
Proof.
  intros Hstarts [Hw Hts] Hstep. destruct Hstep as [w ts p Hp|w ts i p p' w' Hi Hstep|w ts]; cbn [world tasks] in *.
  - split; [done|]. apply Forall_app. split; [done|]. constructor; [by apply Hstarts|constructor].
  - rewrite Forall_forall in Hts. pose proof (Hts p (list_elem_of_lookup_2 _ _ _ Hi)) as Hp.
    destruct (pstep_sound exec known_of queue_ok exec_sound p anyway w p' w' Hw Hp Hstep) as (H1 & H2 & H3).
    split; [done|]. cbn [tasks world]. apply Forall_insert; [|done]. apply Forall_forall. intros q Hq.
    eapply safe_grows; [exact H2|done|by apply Hts].
  - split; [|constructor]. by destruct Hw.
Qed.

Lemma client_safe p g : client p → safe g p anyway.
Proof.
  intros []; eapply safe_ignore; [apply safe_sender|apply safe_drain|apply safe_recover].
Qed.

Lemma queue_empty_ok : sys_ok (mkSys emptyWorld []).
Proof. split; [|constructor]. split; try done; intros *; by intros ?%elem_of_nil. Qed.

Lemma queue_reachable_ok s : reachable client s → sys_ok s.
Proof.
  intros H. unfold reachable in H. pose proof queue_empty_ok as H0. revert H0. generalize (mkSys emptyWorld []), H. clear H. intros s0 H.
  induction H as [s|s1 s2 s3 H12 _ IH]; [done|]. intros H1. apply IH. eapply sstep_ok; [|exact H1|exact H12]. intros. by apply client_safe.
Qed.

(** ** Properties *)

(** C28. No accepted message is lost. However senders, reconnections and start-ups
    interleave, whatever fails and whenever the process crashes: once the entry of a
    message is stored, it is in the queue or among the failed, with the message as it
    was given; or a delivery of that message went through all its payloads, or it is
    best effort, or its caller aborted it. Nothing else is ever sent for the entry. *)
Theorem accepted_messages_are_kept s id p :
  reachable client s → origins (world s) !! id = Some p → EvStored id ∈ log (world s) →
  ((∃ e, (json (world s) !! id = Some e ∨ failedDir (world s) !! id = Some e) ∧ payload e = p) ∨
   (∃ outcomes, EvSend (Some id) p outcomes ∈ log (world s) ∧ (Forall (λ o, o = Handled) outcomes ∨ best_effort p = true)) ∨
   EvAborted id ∈ log (world s)) ∧
  ∀ p' outcomes, EvSend (Some id) p' outcomes ∈ log (world s) → p' = p.
Proof.
  intros [Hok _]%queue_reachable_ok Hp Hs. destruct Hok as [H1 H2 H3 H4 H5]. split.
  - destruct (H4 id Hs) as [[e He]|[[e He]|[(p' & outs & Hin & Ho)|Ha]]].
    + left. exists e. split; [by left|]. destruct (H1 _ _ He) as [_ H]. congruence.
    + left. exists e. split; [by right|]. destruct (H3 _ _ He) as [_ H]. congruence.
    + right. left. exists outs. specialize (H5 _ _ _ Hin). assert (p' = p) as -> by congruence. done.
    + by do 2 right.
  - intros p' outs Hin. specialize (H5 _ _ _ Hin). congruence.
Qed.

Definition hello (be : option bool) : QueuedDeliveryPayload :=
  mkPayload "whatsapp" "+1" None [JStr "hello"] JUndefined JUndefined be None None None JUndefined None.
Definition timeout : error := mkError false false "timeout".
Definition turns (i : nat) (l : list answer) : list move := map (Turn i) l.

(** A sender stores its message; the process crashes; the next one recovers it. *)
Definition crashSchedule : list move :=
  [Start (ignore (deliverOutboundPayloads (hello None) false false))] ++
  turns 0 [Good; Good; Named "m1"; At 1000; Good; Good] ++ [Crash; Start (ignore (recoverPendingDeliveries None))] ++
  turns 0 [Good; Good; Good; At 2000; At 2000; Good; Good; Good; At 2001; Outcomes [Handled]].

Lemma crashSchedule_reachable : reachable client (stateAfter crashSchedule).
Proof. apply play_reachable; [repeat constructor|vm_compute; reflexivity]. Qed.

Lemma crashSchedule_log : log (world (stateAfter crashSchedule)) = [EvStored "m1"; EvSend (Some "m1") (hello None) [Handled]].
Proof. vm_compute. reflexivity. Qed.

Lemma accepted_messages_are_kept_witness :
  let s := stateAfter crashSchedule in
  is_Some (json (world s) !! "m1") ∧ log (world s) = [EvStored "m1"; EvSend (Some "m1") (hello None) [Handled]] ∧
  ∀ p' outcomes, EvSend (Some "m1") p' outcomes ∈ log (world s) → p' = hello None.
Proof.
  intros s. split; [vm_compute; by eexists|]. split; [apply crashSchedule_log|].
  apply (accepted_messages_are_kept s "m1" (hello None) crashSchedule_reachable); [vm_compute; reflexivity|].
  unfold s. rewrite crashSchedule_log. by left.
Defined.

(** ** Where a message is sent twice or never *)

Definition everything : QueuedDelivery → Z → PendingDeliveryDrainDecision := λ _ _, mkDecision true None.
Definition storing : list answer := [Good; Good; Named "m1"; At 1000; Good; Good].

(** A channel that reconnects while the sender of a message still sends it takes the
    entry of that message too: nothing claims it. When the second delivery fails
    after the first one went through, the entry comes back into the queue. *)
Definition reconnectSchedule : list move :=
  [Start (ignore (deliverOutboundPayloads (hello None) false false))] ++ turns 0 storing ++
  [Start (ignore (drainPendingDeliveries "whatsapp" everything))] ++
  turns 1 [Good; At 2000; Good; Good; Good; Good; Good; Good; At 2001; Bad timeout; Good] ++
  turns 0 [Outcomes [Handled]; Good; Good] ++ turns 1 [At 2002; Good; Good].

Lemma delivered_message_returns :
  let s := stateAfter reconnectSchedule in
  reachable client s ∧
  log (world s) = [EvStored "m1"; EvSend (Some "m1") (hello None) [Handled]; EvAcked "m1"; EvStored "m1"] ∧
  is_Some (json (world s) !! "m1").
Proof.
  split; [apply play_reachable; [repeat constructor|vm_compute; reflexivity]|]. split; vm_compute; [reflexivity|by eexists].
Qed.

(** So it does when the recovery of the start-up runs out of time: it puts the
    entries that are left off without claiming them. *)
Definition deferralSchedule : list move :=
  [Start (ignore (deliverOutboundPayloads (hello None) false false))] ++ turns 0 storing ++
  [Crash; Start (ignore (recoverPendingDeliveries (Some 0))); Start (ignore (drainPendingDeliveries "whatsapp" everything))] ++
  turns 1 [Good; At 2000; Good; Good; Good; Good; Good; Good; At 2001] ++
  turns 0 [Good; Good; Good; At 2001; At 2001; Good] ++
  turns 1 [Outcomes [Handled]; Good; Good; Good; Good] ++ turns 0 [At 2002; Good; Good].

Lemma deferred_message_returns :
  let s := stateAfter deferralSchedule in
  reachable client s ∧
  log (world s) = [EvStored "m1"; EvSend (Some "m1") (hello None) [Handled]; EvAcked "m1"; EvStored "m1"] ∧
  is_Some (json (world s) !! "m1").
Proof.
  split; [apply play_reachable; [repeat constructor|vm_compute; reflexivity]|]. split; vm_compute; [reflexivity|by eexists].
Qed.

(** A best-effort delivery that is recovered has no [onError]: when all its payloads
    fail, its entry is removed as delivered. *)
Definition bestEffortSchedule : list move :=
  [Start (ignore (deliverOutboundPayloads (hello (Some true)) true false))] ++ turns 0 storing ++
  [Crash; Start (ignore (recoverPendingDeliveries None))] ++
  turns 0 [Good; Good; Good; At 2000; At 2000; Good; Good; Good; At 2001; Outcomes [Caught timeout]; Good; Good].

Lemma failed_best_effort_is_removed :
  let s := stateAfter bestEffortSchedule in
  reachable client s ∧
  log (world s) = [EvStored "m1"; EvSend (Some "m1") (hello (Some true)) [Caught timeout]; EvAcked "m1"] ∧
  json (world s) !! "m1" = None ∧ failedDir (world s) !! "m1" = None.
Proof.
  split; [apply play_reachable; [repeat constructor|vm_compute; reflexivity]|]. split; [|split]; vm_compute; reflexivity.
Qed.

(** ** Retries *)

(** An entry that failed once waits 25 seconds; the first step of the table, of five
    seconds, is the wait of no entry. *)
Lemma first_retry_waits_longer e t now :
  retryCount e = 1 → lastAttemptAt e = Some t → 0 < t →
  isEntryEligibleForRecoveryRetry e now = None ↔ t + 25000 <= now.
Proof.
  intros H1 H2 H3. unfold isEntryEligibleForRecoveryRetry, hasAttemptTimestamp. rewrite H1, H2, (proj2 (Z.ltb_lt 0 t) H3).
  change (computeBackoffMs (1 + 1)) with 25000. cbn [Z.leb Z.compare Z.eqb andb default id].
  destruct (Z.leb_spec (t + 25000) now); split; intros; try done; lia.
Qed.

End DeliveryQueue.
