(* ===== verification/DeliveryClaims.v ===== *)
(** * Claims on queued deliveries

    The drains of src/infra/outbound/delivery-queue-recovery.ts claim an entry before
    they read it again and send it. With drains and senders that only store entries
    (whose process crashes before they send), this file proves what the claims are
    for: no two drains send one entry at once, and none sends an entry that was
    acknowledged. *)

From S2P Require Import Prelude OMap JsValue Effects DeliveryQueue.

Module DeliveryClaims.
Import DeliveryQueue.

Inductive drainer : task unit → Prop :=
| drainer_store params : drainer (ignore (enqueueDelivery params))
| drainer_drain key selectEntry : drainer (ignore (drainPendingDeliveries key selectEntry)).

(** What a program owns: the entries it claimed, with whether it knows that they are
    in the queue, and ids it drew whose entry it has not stored yet. *)
Record View := mkView { held : gmap string bool; fresh : gset string }.
Definition nothing : View := mkView ∅ ∅.

Definition hold (v : View) (id : string) (b : bool) : View := mkView (<[id := b]> (held v)) (fresh v).
Definition may_write (v : View) (id : string) : Prop := held v !! id = Some true ∨ id ∈ fresh v.

(** The entry carries its id, and the time of its last attempt if there was one. *)
Definition modern (id : string) (e : QueuedDelivery) : Prop :=
  entry_id e = id ∧ (retryCount e <= 0 ∨ hasAttemptTimestamp e = true).

Definition claim_pre {X} (o : io X) (v : View) : Prop :=
  match o with
  | WriteTmp id e => may_write v id ∧ modern id e
  | RenameTmp id => may_write v id
  | RenameDelivered id | RenameFailed id => held v !! id = Some true
  | SendCore (Some id) _ _ => held v !! id = Some true
  | Release id => is_Some (held v !! id)
  | _ => True
  end.

Definition claim_post {X} (o : io X) : X → View → Prop :=
  match o in io X return X → View → Prop with
  | ReadJson id => λ x _, ∀ e, x = Value e → modern id e
  | DateNow => λ t _, 0 < t
  | _ => λ _ _, True
  end.

Definition claim_next {X} (o : io X) : X → View → View :=
  match o in io X return X → View → View with
  | Claim id => λ b v, if b then hold v id false else v
  | Release id => λ _ v, mkView (delete id (held v)) (fresh v)
  | ReadJson id => λ x v, match x, held v !! id with Value _, Some _ => hold v id true | _, _ => v end
  | RenameTmp id => λ x v, match x with Value _ => mkView (held v) (fresh v ∖ {[id]}) | Raise _ => v end
  | RenameDelivered id => λ x v, match x with Value _ => hold v id false | Raise _ => v end
  | RenameFailed id => λ x v, match x with Value _ => hold v id false | Raise _ => v end
  | RandomId _ => λ id v, mkView (held v) ({[id]} ∪ fresh v)
  | _ => λ _ v, v
  end.

#[export] Instance claim_views : Views io View :=
  {| vpre := @claim_pre; vpost := @claim_post; vnext := @claim_next |}.

(** ** The programs keep to it *)

Lemma modern_normalize id e : modern id e → normalizeLegacyQueuedDeliveryEntry e = (e, false).
Proof.
  intros [_ H]. unfold normalizeLegacyQueuedDeliveryEntry.
  assert (hasAttemptTimestamp e || (retryCount e <=? 0) = true) as ->; [|done].
  destruct H as [H| ->]; [|done]. apply orb_true_iff. right. by apply Z.leb_le.
Qed.

(** Operations that change no view. *)
Definition quiet (v : View) {A} (v' : View) (r : outcome error A) : Prop := v' = v.

Lemma owns_quiet {X} (o : io (outcome error X)) v :
  claim_pre o v → (∀ x, claim_next o x v = v) → owns v (attempt o) (quiet v).
Proof. intros H1 H2. apply owns_attempt; [done|]. intros x _. apply H2. Qed.

Lemma owns_unlink v id : owns v (unlinkBestEffort id) (λ v' r, v' = v ∧ r = Value tt).
Proof. eapply owns_handle; [by apply owns_quiet|by intros ? ? ->|by intros ? ? ->]. Qed.

(** A read of an entry that is not claimed, and one of an entry that is. *)
Lemma owns_read v id :
  held v !! id = None →
  owns v (readQueueEntry id) (λ v' r, v' = v ∧ ∀ e, r = Value e → modern id e).
Proof. intros H. apply owns_attempt; [done|]. intros x Hx. split; [cbn; rewrite H; by destruct x|done]. Qed.

Lemma owns_read_held v id b :
  held v !! id = Some b →
  owns v (readQueueEntry id) (λ v' r, match r with Value e => v' = hold v id true ∧ modern id e | Raise _ => v' = v end).
Proof. intros H. apply owns_attempt; [done|]. intros [e|err] Hx; cbn; rewrite ?H; [|done]. split; [done|by apply Hx]. Qed.

Lemma owns_load v id Q :
  owns v (readQueueEntry id) (λ v' r, Q v' r ∧ ∀ e, r = Value e → modern id e) → owns v (loadEntry id) Q.
Proof.
  intros H. eapply owns_bind; [exact H| |by intros v' e [? _]]. intros v' e [HQ Hm].
  rewrite (modern_normalize id e) by (by apply Hm). exact HQ.
Qed.

(** A claimed entry is loaded: then it is known to be in the queue. *)
Lemma owns_loadPending v id b :
  held v !! id = Some b →
  owns v (loadPendingDelivery id)
    (λ v' r, match r with
             | Value (Some e) => v' = hold v id true ∧ modern id e
             | _ => v' = v ∨ v' = hold v id true
             end).
Proof.
  intros Hid. eapply (owns_handle _ _ _ _ (λ v' (r : outcome error (option QueuedDelivery)), match r with
             | Value (Some e) => v' = hold v id true ∧ modern id e
             | _ => v' = v ∨ v' = hold v id true
             end)).
  - eapply owns_bind; [by apply owns_quiet| |by intros v' e ->; left]. intros v' isFile ->. destruct (negb isFile); [by left|].
    eapply owns_bind.
    + apply (owns_load _ _ (λ v' r, match r with Value e => v' = hold v id true ∧ modern id e | Raise _ => v' = v end)).
      eapply owns_impl; [|by eapply owns_read_held]. intros v' [e|err] H; (split; [done|]); [intros e' [= <-]; by destruct H|done].
    + intros v' e [-> Hm]. done.
    + intros v' e ->. by left.
  - done.
  - intros v' err H. destruct (enoent err); exact H.
Qed.

Lemma owns_loadEntries v ids : held v = ∅ → owns v (loadEntries ids) (quiet v).
Proof.
  intros Hv. induction ids as [|id ids IH]; [done|]. cbn [loadEntries].
  eapply (owns_bind _ _ _ (quiet v)); [|intros v' found ->|by intros ? ? ->].
  - eapply (owns_handle _ _ _ _ (quiet v)); [|by intros ? ? ->|by intros ? ? ->].
    eapply owns_bind; [by apply owns_quiet| |by intros ? ? ->]. intros v' isFile ->. destruct (negb isFile); [done|].
    eapply (owns_bind _ _ _ (quiet v)); [|by intros ? ? ->|by intros ? ? ->]. apply owns_load.
    eapply owns_impl; [|apply owns_read; by rewrite Hv]. intros v' r [-> H]. done.
  - eapply owns_bind; [exact IH|by intros ? ? ->|by intros ? ? ->].
Qed.

Lemma owns_loadPendingDeliveries v : held v = ∅ → owns v loadPendingDeliveries (quiet v).
Proof.
  intros Hv. eapply (owns_handle _ _ _ _ (quiet v)); [by apply owns_quiet| |].
  - intros v' [l m] ->. eapply owns_bind; [apply (owns_forEach _ _ (λ v', v' = v)); [|done]| |done].
    + intros v' id -> _. eapply owns_impl; [|apply owns_unlink]. by intros v' r [-> _].
    + intros v' u ->. by apply owns_loadEntries.
  - intros v' err ->. by destruct (enoent err).
Qed.

Lemma hold_hold v id b b' : hold (hold v id b) id b' = hold v id b'.
Proof. unfold hold. cbn. by rewrite insert_insert_eq. Qed.

Lemma held_hold v id b : held (hold v id b) !! id = Some b.
Proof. apply lookup_insert_eq. Qed.

(** After an entry is acknowledged or moved it is not known to be in the queue; when
    that fails, it still is. *)
Definition settles (v : View) (id : string) {A} (v' : View) (r : outcome error A) : Prop :=
  match r with Value _ => ∃ b, v' = hold v id b | Raise _ => v' = hold v id true end.

Lemma owns_ack v id : owns (hold v id true) (ackDelivery id) (settles v id).
Proof.
  eapply (owns_handle _ _ _ _ (λ v' r, match r with Value _ => v' = hold v id false | Raise _ => v' = hold v id true end)).
  - apply owns_attempt; [apply held_hold|]. intros [u|err] _; cbn; [apply hold_hold|done].
  - intros v' u ->. eapply owns_impl; [|apply owns_unlink]. intros v' r [-> ->]. by exists false.
  - intros v' err ->. destruct (enoent err); [|done]. eapply owns_impl; [|apply owns_unlink]. intros v' r [-> ->]. by exists true.
Qed.

Lemma owns_moveToFailed v id : owns (hold v id true) (moveToFailed id) (settles v id).
Proof.
  eapply (owns_bind _ _ _ (quiet (hold v id true))); [by apply owns_quiet| |by intros ? ? ->]. intros v' u ->.
  apply owns_attempt; [apply held_hold|]. intros [u'|err] _; cbn; [exists false; apply hold_hold|done].
Qed.

Lemma owns_write v id e :
  may_write v id → modern id e → (∀ x : fallible unit, claim_next (RenameTmp id) x v = v) →
  owns v (writeQueueEntry id e) (quiet v).
Proof.
  intros H1 H2 H3. eapply (owns_bind _ _ _ (quiet v)); [by apply owns_quiet| |by intros ? ? ->].
  intros v' u ->. by apply owns_quiet.
Qed.

Lemma fresh_hold v id b : fresh (hold v id b) = fresh v.
Proof. done. Qed.

Lemma owns_fail v id err : id ∉ fresh v → owns (hold v id true) (failDelivery id err) (quiet (hold v id true)).
Proof.
  intros Hf. eapply owns_bind; [eapply owns_read_held, held_hold| |by intros ? ? ->].
  intros v' e [-> Hm]. rewrite hold_hold.
  eapply (owns_bind _ _ _ (λ v' r, v' = hold v id true ∧ ∀ t, r = Value t → 0 < t)); [|intros v' now [-> Hnow]|by intros ? ? [-> _]].
  { apply owns_perform; [done|]. intros t Ht. split; [done|]. by intros t' [= <-]. }
  apply owns_write.
  - left. apply held_hold.
  - destruct Hm as [Hid _]. split; [done|]. right. apply Z.ltb_lt. by apply Hnow.
  - intros [u|e']; [|done]. cbn. unfold hold. cbn. f_equal. set_solver.
Qed.

(** A claimed entry that is in the queue is sent and settled. *)
Lemma owns_drainQueuedEntry v e id :
  id ∉ fresh v → modern id e → owns (hold v id true) (drainQueuedEntry e) (λ v' _, ∃ b, v' = hold v id b).
Proof.
  intros Hf [<- _]. eapply (owns_handle _ _ _ _ (settles v (entry_id e))).
  - eapply (owns_bind _ _ _ (quiet (hold v (entry_id e) true))); [|intros v' b ->; apply owns_ack|by intros ? ? ->].
    apply owns_quiet; [apply held_hold|done].
  - intros v' u [b ->]. by exists b.
  - intros v' err ->. destruct (isPermanentDeliveryError _).
    + eapply owns_handle; [apply owns_moveToFailed|intros v' u H; exact H|intros v' e' ->; by exists true].
    + eapply owns_handle; [by apply owns_fail|intros v' u ->; by exists true|intros v' e' ->; by exists true].
Qed.

Definition held_only (v : View) (id : string) (v' : View) : Prop := ∃ b, v' = hold v id b.

Lemma owns_claimed v bypass id b :
  id ∉ fresh v →
  owns (hold v id b)
    (let* current := loadPendingDelivery id in
     match current with
     | None => ret tt
     | Some currentEntry =>
         if MAX_RETRIES <=? retryCount currentEntry then
           handle (moveToFailed (entry_id currentEntry)) ret (λ err, if enoent err then ret tt else raise err)
         else
           let go := let* _ := drainQueuedEntry currentEntry in ret tt in
           if negb bypass then
             let* now := perform DateNow in
             match isEntryEligibleForRecoveryRetry currentEntry now with Some _ => ret tt | None => go end
           else go
     end) (λ v' _, held_only v id v').
Proof.
  intros Hf. eapply owns_bind; [eapply owns_loadPending, held_hold| |].
  - intros v' [cur|].
    + intros [-> Hm]. rewrite hold_hold. destruct (MAX_RETRIES <=? _).
      * destruct Hm as [-> _]. eapply owns_handle; [apply owns_moveToFailed|intros v' u [b' ->]; by exists b'|].
        intros v' err ->. destruct (enoent err); by exists true.
      * assert (owns (hold v id true) (let* _ := drainQueuedEntry cur in ret tt) (λ v' _, held_only v id v')) as Hgo.
        { eapply owns_bind; [by apply owns_drainQueuedEntry|intros v' r H; exact H|intros v' r H; exact H]. }
        destruct (negb bypass); [|exact Hgo]. eapply (owns_bind _ _ _ (quiet (hold v id true))); [by apply owns_perform| |by intros ? ? ->; exists true].
        intros v' now ->. destruct (isEntryEligibleForRecoveryRetry cur now); [by exists true|exact Hgo].
    + intros [->| ->]; [by exists b|rewrite hold_hold; by exists true].
  - intros v' err [->| ->]; [by exists b|rewrite hold_hold; by exists true].
Qed.

Lemma released id v : held_only nothing id v → vnext (Release id) tt v = nothing ∧ is_Some (held v !! id).
Proof.
  intros [b ->]. rewrite held_hold. split; [|by eexists]. cbn. unfold hold, nothing. cbn. f_equal. by apply delete_insert_id.
Qed.

Lemma owns_drainEntry e bypass : owns nothing (drainEntry e bypass) (λ v' _, v' = nothing).
Proof.
  eapply (owns_bind _ _ _ (λ v' r, ∃ b : bool, r = Value b ∧ v' = if b then hold nothing (entry_id e) false else nothing)).
  - apply owns_perform; [done|]. intros b _. exists b. split; [done|]. by destruct b.
  - intros v' claimed (b & [= ->] & ->). destruct b; cbn [negb]; [|done].
    eapply owns_handle; [by apply (owns_claimed nothing bypass (entry_id e) false)| |]; intros v' r [H1 H2]%released;
      (split; [exact H2|]); intros [] _; exact H1.
  - by intros v' err (b & ? & _).
Qed.

Lemma owns_drain key sel : owns nothing (drainPendingDeliveries key sel) (λ v' _, v' = nothing).
Proof.
  eapply (owns_bind _ _ _ (quiet nothing)); [by apply owns_perform| |by intros ? ? ->]. intros v' acquired ->.
  destruct (negb acquired); [done|].
  eapply (owns_handle _ _ _ _ (λ v' _, v' = nothing)).
  - eapply (owns_bind _ _ _ (quiet nothing)); [by apply owns_perform| |by intros ? ? ->]. intros v' now ->.
    eapply owns_bind; [by apply owns_loadPendingDeliveries| |by intros ? ? ->]. intros v' entries ->.
    apply (owns_forEach _ _ (λ v', v' = nothing)); [|done]. intros v' e -> _. apply owns_drainEntry.
  - intros v' u ->. by split.
  - intros v' err ->. by split.
Qed.

Lemma owns_store p : owns nothing (enqueueDelivery p) (λ _ _, True).
Proof.
  eapply (owns_bind _ _ _ (quiet nothing)); [|intros v' u ->|done].
  { eapply (owns_bind _ _ _ (quiet nothing)); [by apply owns_quiet|intros v' u ->; by apply owns_quiet|by intros ? ? ->]. }
  eapply (owns_bind _ _ _ (λ v' r, ∃ id, r = Value id ∧ v' = mkView ∅ {[id]})); [|intros v' id' (id & [= ->] & ->)|done].
  { apply owns_perform; [done|]. intros id _. exists id. split; [done|]. cbn. unfold nothing. cbn. f_equal. set_solver. }
  set (v1 := mkView ∅ {[id]}).
  eapply (owns_bind _ _ _ (quiet v1)); [by apply owns_perform| |done]. intros v' now ->.
  eapply (owns_bind _ _ _ (λ _ _, True)); [|done|done].
  eapply (owns_bind _ _ _ (quiet v1)); [|intros v' u2 ->|done].
  - apply owns_quiet; [|done]. split; [right; cbn; set_solver|]. split; [done|by left].
  - apply owns_attempt; [right; cbn; set_solver|done].
Qed.

Lemma drainer_owns p : drainer p → owns nothing p (λ _ _, True).
Proof.
  intros []; (eapply owns_handle; [|done|done]); [apply owns_store|].
  eapply owns_impl; [|apply owns_drain]. done.
Qed.

(** ** The claims of all tasks *)

(** The views of the tasks agree with the world. *)
Record claims_ok (w : World) (vs : list View) : Prop := mkClaimsOk {
  co_json id e : json w !! id = Some e → modern id e;
  co_tmp id e : tmp w !! id = Some e → modern id e;
  co_acked id : EvAcked id ∈ log w → json w !! id = None;
  co_origin id : is_Some (json w !! id) ∨ EvAcked id ∈ log w → is_Some (origins w !! id);
  co_claims id : id ∈ claims w ↔ ∃ i v, vs !! i = Some v ∧ is_Some (held v !! id);
  co_unique id i j v v' : vs !! i = Some v → vs !! j = Some v' → is_Some (held v !! id) → is_Some (held v' !! id) → i = j;
  co_held id i v : vs !! i = Some v → held v !! id = Some true → is_Some (json w !! id);
  co_fresh id i v : vs !! i = Some v → id ∈ fresh v → is_Some (origins w !! id) ∧ json w !! id = None ∧ EvAcked id ∉ log w;
  co_fresh_unique id i j v v' : vs !! i = Some v → vs !! j = Some v' → id ∈ fresh v → id ∈ fresh v' → i = j;
}.

(** A look into the views after one of them changed. *)
Lemma view_cases (vs : list View) i (v v' : View) j u :
  vs !! i = Some v → <[i := v']> vs !! j = Some u → (j = i ∧ u = v') ∨ (j ≠ i ∧ vs !! j = Some u).
Proof.
  intros Hi. destruct (decide (j = i)) as [->|Hne].
  - rewrite list_lookup_insert_eq by (by eapply lookup_lt_Some). intros [= <-]. by left.
  - rewrite list_lookup_insert_ne by done. by right.
Qed.

Lemma view_self (vs : list View) i (v v' : View) : vs !! i = Some v → <[i := v']> vs !! i = Some v'.
Proof. intros Hi. rewrite list_lookup_insert_eq; [done|by eapply lookup_lt_Some]. Qed.

(** The parts of the world that the claims speak of did not change. *)
Lemma claims_frame w w' vs :
  json w' = json w → tmp w' = tmp w → claims w' = claims w → origins w' = origins w →
  (∀ id, EvAcked id ∈ log w' ↔ EvAcked id ∈ log w) → claims_ok w vs → claims_ok w' vs.
Proof. intros H1 H2 H3 H4 H5 []. split; rewrite ?H1, ?H2, ?H3, ?H4; first [done|setoid_rewrite H5; done]. Qed.

Lemma acked_note w evs id : (∀ i, EvAcked i ∉ evs) → EvAcked id ∈ log (note w evs) ↔ EvAcked id ∈ log w.
Proof. intros H. cbn. rewrite elem_of_app. specialize (H id). tauto. Qed.

(** A task learns that an entry it claimed is in the queue, or forgets it. *)
Lemma claims_hold w vs i v id b :
  claims_ok w vs → vs !! i = Some v → is_Some (held v !! id) → (b = true → is_Some (json w !! id)) →
  claims_ok w (<[i := hold v id b]> vs).
Proof.
  intros [] Hi Hid Hb. assert (∀ id', is_Some (held (hold v id b) !! id') ↔ is_Some (held v !! id')) as Hd.
  { intros id'. cbn. rewrite lookup_insert_is_Some'. naive_solver. }
  split; try done.
  - intros id'. rewrite co_claims0. split.
    + intros (j & u & Hj & Hu). destruct (decide (j = i)) as [->|Hne].
      * exists i, (hold v id b). split; [by eapply view_self|]. apply Hd. by simplify_eq.
      * exists j, u. by rewrite list_lookup_insert_ne.
    + intros (j & u & [[-> ->]|[Hne Hj]]%(view_cases _ _ _ _ _ _ Hi) & Hu); [|by eauto]. exists i, v. split; [done|by apply Hd].
  - intros id' j k u u' [[-> ->]|[Hne Hj]]%(view_cases _ _ _ _ _ _ Hi) [[-> ->]|[Hne' Hk]]%(view_cases _ _ _ _ _ _ Hi); rewrite ?Hd; eauto.
  - intros id' j u [[-> ->]|[Hne Hj]]%(view_cases _ _ _ _ _ _ Hi) Hu; [|by eauto]. cbn in Hu.
    apply lookup_insert_Some in Hu as [[<- Hbt]|[_ Hu]]; [by apply Hb|by eauto].
  - intros id' j u [[-> ->]|[Hne Hj]]%(view_cases _ _ _ _ _ _ Hi) Hu; eauto.
  - intros id' j k u u' [[-> ->]|[Hne Hj]]%(view_cases _ _ _ _ _ _ Hi) [[-> ->]|[Hne' Hk]]%(view_cases _ _ _ _ _ _ Hi); eauto.
Qed.

Lemma claims_same w vs i v : claims_ok w vs → vs !! i = Some v → claims_ok w (<[i := v]> vs).
Proof. intros H Hi. by rewrite list_insert_id. Qed.

(** A claimed entry leaves the queue, acknowledged or not. *)
Lemma claims_leave w w' vs i v id :
  claims_ok w vs → vs !! i = Some v → held v !! id = Some true →
  json w' = delete id (json w) → tmp w' = tmp w → claims w' = claims w → origins w' = origins w →
  (∀ i, EvAcked i ∈ log w' → i = id ∨ EvAcked i ∈ log w) →
  claims_ok w' (<[i := hold v id false]> vs).
Proof.
  intros Hok Hi Hid Hj Ht Hc Ho Hl. pose proof (co_held _ _ Hok _ _ _ Hi Hid) as Hjid.
  assert (claims_ok w (<[i := hold v id false]> vs)) as Hok2 by (by apply claims_hold; [..|by eexists|]).
  assert (∀ j u, vs !! j = Some u → id ∉ fresh u) as Hnf.
  { intros j u Hju Hf. destruct (co_fresh _ _ Hok _ _ _ Hju Hf) as (_ & H & _). destruct Hjid as [? ?]. congruence. }
  assert (∀ j u, <[i := hold v id false]> vs !! j = Some u → held u !! id ≠ Some true) as Hnh.
  { intros j u Hju. destruct (view_cases _ _ v _ _ _ Hi Hju) as [[-> ->]|[Hne Hj']]; [by rewrite held_hold|]. intros Hu.
    apply Hne. apply (co_unique _ _ Hok id j i u v Hj' Hi); by eexists. }
  destruct Hok2. split; rewrite ?Hj, ?Ht, ?Hc, ?Ho; try done.
  - intros id' e [_ He]%lookup_delete_Some. by apply co_json0.
  - intros id' [->|H]%Hl; [apply lookup_delete_eq|]. rewrite lookup_delete_None. right. by apply co_acked0.
  - intros id' [[e [_ He]%lookup_delete_Some]|[->|H]%Hl]; [by apply co_origin0; left; eexists|by apply co_origin0; left|by apply co_origin0; right].
  - intros id' j u Hju Hu. destruct (decide (id' = id)) as [->|Hne]; [by destruct (Hnh j u Hju)|].
    rewrite lookup_delete_ne by done. by eapply co_held0.
  - intros id' j u Hju Hu. destruct (co_fresh0 _ _ _ Hju Hu) as (H1 & H2 & H3). split; [done|].
    assert (id' ≠ id) as Hne.
    { intros ->. destruct (view_cases _ _ v _ _ _ Hi Hju) as [[-> ->]|[_ Hj']]; [by apply (Hnf i v)|by apply (Hnf j u)]. }
    rewrite lookup_delete_ne by done. split; [done|]. by intros [?|?]%Hl.
Qed.

(** An entry is stored by a task that claimed it or drew its id. *)
Lemma claims_store w w' vs i v id e :
  claims_ok w vs → vs !! i = Some v → may_write v id → tmp w !! id = Some e →
  json w' = <[id := e]> (json w) → tmp w' = delete id (tmp w) → claims w' = claims w → origins w' = origins w →
  (∀ i, EvAcked i ∈ log w' ↔ EvAcked i ∈ log w) →
  claims_ok w' (<[i := mkView (held v) (fresh v ∖ {[id]})]> vs).
Proof.
  intros Hok Hi Hw He Hj Ht Hc Ho Hl. set (v' := mkView _ _). pose proof Hok as [].
  assert (EvAcked id ∉ log w) as Hna.
  { destruct Hw as [Hw|Hw]; [|by destruct (co_fresh0 _ _ _ Hi Hw) as (_ & _ & ?)]. intros Ha%co_acked0.
    destruct (co_held0 _ _ _ Hi Hw) as [? ?]. congruence. }
  assert (is_Some (origins w !! id)) as Hor.
  { destruct Hw as [Hw|Hw]; [apply co_origin0; left; by eapply co_held0|by destruct (co_fresh0 _ _ _ Hi Hw)]. }
  assert (∀ j u, <[i := v']> vs !! j = Some u → id ∉ fresh u) as Hnf.
  { intros j u Hju. destruct (view_cases _ _ v _ _ _ Hi Hju) as [[-> ->]|[Hne Hju']]; [cbn; set_solver|]. intros Hf. destruct Hw as [Hw|Hw].
    - destruct (co_fresh0 _ _ _ Hju' Hf) as (_ & H & _). destruct (co_held0 _ _ _ Hi Hw) as [? ?]. congruence.
    - apply Hne. by eapply (co_fresh_unique0 id). }
  split; rewrite ?Hj, ?Ht, ?Hc, ?Ho.
  - intros id' e' [[<- <-]|[_ H]]%lookup_insert_Some; [by apply co_tmp0|by apply co_json0].
  - intros id' e' [_ H]%lookup_delete_Some. by apply co_tmp0.
  - intros id' Ha%Hl. rewrite lookup_insert_ne; [by apply co_acked0|]. by intros <-.
  - intros id' [[e' [[<- _]|[_ H]]%lookup_insert_Some]|H%Hl]; [done|by apply co_origin0; left; eexists|by apply co_origin0; right].
  - intros id'. rewrite co_claims0. split.
    + intros (j & u & Hju & Hu). destruct (decide (j = i)) as [->|Hne].
      * exists i, v'. split; [by eapply view_self|]. by simplify_eq.
      * exists j, u. by rewrite list_lookup_insert_ne.
    + intros (j & u & [[-> ->]|[Hne Hju]]%(view_cases _ _ _ _ _ _ Hi) & Hu); [by exists i, v|by eauto].
  - intros id' j k u u' [[-> ->]|[Hne Hju]]%(view_cases _ _ _ _ _ _ Hi) [[-> ->]|[Hne' Hk]]%(view_cases _ _ _ _ _ _ Hi); eauto.
  - intros id' j u Hju Hu. rewrite lookup_insert_is_Some'. right.
    apply (view_cases _ _ _ _ _ _ Hi) in Hju as [[-> ->]|[Hne Hju]]; by eapply co_held0.
  - intros id' j u Hju Hu. assert (id' ≠ id) as Hne by (intros ->; by eapply Hnf). rewrite lookup_insert_ne, Hl by done.
    apply (view_cases _ _ _ _ _ _ Hi) in Hju as [[-> ->]|[_ Hju]]; [|by eauto]. apply (co_fresh0 _ _ _ Hi). cbn in Hu. set_solver.
  - intros id' j k u u' [[-> ->]|[Hne Hju]]%(view_cases _ _ _ _ _ _ Hi) [[-> ->]|[Hne' Hk]]%(view_cases _ _ _ _ _ _ Hi); cbn; try done; intros;
      eapply (co_fresh_unique0 id'); eauto; set_solver.
Qed.

(** A free entry is claimed, and a claim is given back. *)
Lemma claims_take w w' vs i v id :
  claims_ok w vs → vs !! i = Some v → id ∉ claims w →
  json w' = json w → tmp w' = tmp w → claims w' = {[id]} ∪ claims w → origins w' = origins w → log w' = log w →
  claims_ok w' (<[i := hold v id false]> vs).
Proof.
  intros Hok Hi Hid Hj Ht Hc Ho Hl. pose proof Hok as [].
  assert (∀ j u, vs !! j = Some u → held u !! id = None) as Hfree.
  { intros j u Hju. apply eq_None_not_Some. intros H. apply Hid, co_claims0. eauto. }
  split; rewrite ?Hj, ?Ht, ?Hc, ?Ho, ?Hl; try done.
  - intros id'. rewrite elem_of_union, elem_of_singleton, co_claims0. split.
    + intros [->|(j & u & Hju & Hu)].
      * exists i, (hold v id false). split; [by eapply view_self|]. rewrite held_hold. by eexists.
      * destruct (decide (j = i)) as [->|Hne]; [|exists j, u; by rewrite list_lookup_insert_ne].
        exists i, (hold v id false). split; [by eapply view_self|]. simplify_eq. cbn. rewrite lookup_insert_is_Some'. by right.
    + intros (j & u & [[-> ->]|[Hne Hju]]%(view_cases _ _ _ _ _ _ Hi) & Hu); [|eauto 6].
      cbn in Hu. apply lookup_insert_is_Some' in Hu as [<-|Hu]; [by left|eauto 6].
  - intros id' j k u u' [[-> ->]|[Hne Hju]]%(view_cases _ _ _ _ _ _ Hi) [[-> ->]|[Hne' Hk]]%(view_cases _ _ _ _ _ _ Hi); cbn; rewrite ?lookup_insert_is_Some'; eauto.
    + intros [<-|H] H'; [|eauto]. rewrite (Hfree _ _ Hk) in H'. by destruct H'.
    + intros H' [<-|H]; [|eauto]. rewrite (Hfree _ _ Hju) in H'. by destruct H'.
  - intros id' j u [[-> ->]|[Hne Hju]]%(view_cases _ _ _ _ _ _ Hi) Hu; [|by eauto]. cbn in Hu.
    apply lookup_insert_Some in Hu as [[_ ?]|[_ Hu]]; [done|by eauto].
  - intros id' j u [[-> ->]|[Hne Hju]]%(view_cases _ _ _ _ _ _ Hi) Hu; eauto.
  - intros id' j k u u' [[-> ->]|[Hne Hju]]%(view_cases _ _ _ _ _ _ Hi) [[-> ->]|[Hne' Hk]]%(view_cases _ _ _ _ _ _ Hi); eauto.
Qed.

Lemma claims_give w w' vs i v id :
  claims_ok w vs → vs !! i = Some v → is_Some (held v !! id) →
  json w' = json w → tmp w' = tmp w → claims w' = claims w ∖ {[id]} → origins w' = origins w → log w' = log w →
  claims_ok w' (<[i := mkView (delete id (held v)) (fresh v)]> vs).
Proof.
  intros Hok Hi Hid Hj Ht Hc Ho Hl. pose proof Hok as []. set (v' := mkView _ _).
  assert (∀ j u id', <[i := v']> vs !! j = Some u → is_Some (held u !! id') →
    id' ≠ id ∧ ∃ u', vs !! j = Some u' ∧ is_Some (held u' !! id')) as Hback.
  { intros j u id' [[-> ->]|[Hne Hju]]%(view_cases _ _ _ _ _ _ Hi) Hu.
    - cbn in Hu. apply lookup_delete_is_Some in Hu as [Hne Hu]. split; [done|]. eauto.
    - split; [|eauto]. intros ->. apply Hne. by eapply (co_unique0 id j i u v). }
  split; rewrite ?Hj, ?Ht, ?Hc, ?Ho, ?Hl; try done.
  - intros id'. rewrite elem_of_difference, elem_of_singleton, co_claims0. split.
    + intros [(j & u & Hju & Hu) Hne]. destruct (decide (j = i)) as [->|Hne']; [|exists j, u; by rewrite list_lookup_insert_ne].
      exists i, v'. split; [by eapply view_self|]. simplify_eq. cbn. apply lookup_delete_is_Some. done.
    + intros (j & u & Hju & Hu). destruct (Hback j u id' Hju Hu) as (Hne & u' & ? & ?). split; [eauto|done].
  - intros id' j k u u' Hju Hk Hu Hu'. destruct (Hback j u id' Hju Hu) as (_ & x & Hx & Hxs), (Hback k u' id' Hk Hu') as (_ & y & Hy & Hys). eauto.
  - intros id' j u [[-> ->]|[Hne Hju]]%(view_cases _ _ _ _ _ _ Hi) Hu; [|by eauto]. cbn in Hu.
    apply lookup_delete_Some in Hu as [_ Hu]. eauto.
  - intros id' j u [[-> ->]|[Hne Hju]]%(view_cases _ _ _ _ _ _ Hi) Hu; eauto.
  - intros id' j k u u' [[-> ->]|[Hne Hju]]%(view_cases _ _ _ _ _ _ Hi) [[-> ->]|[Hne' Hk]]%(view_cases _ _ _ _ _ _ Hi); eauto.
Qed.

(** A new id belongs to the task that drew it. *)
Lemma claims_draw w w' vs i v id p :
  claims_ok w vs → vs !! i = Some v → origins w !! id = None →
  json w' = json w → tmp w' = tmp w → claims w' = claims w → origins w' = <[id := p]> (origins w) → log w' = log w →
  claims_ok w' (<[i := mkView (held v) ({[id]} ∪ fresh v)]> vs).
Proof.
  intros Hok Hi Hid Hj Ht Hc Ho Hl. pose proof Hok as []. set (v' := mkView _ _).
  assert (∀ x, is_Some (origins w !! x) → is_Some (<[id := p]> (origins w) !! x)) as Hmono.
  { intros x H. apply lookup_insert_is_Some'. by right. }
  assert (∀ j u, vs !! j = Some u → id ∉ fresh u) as Hnf.
  { intros j u Hju Hf. destruct (co_fresh0 _ _ _ Hju Hf) as [[? ?] _]. congruence. }
  split; rewrite ?Hj, ?Ht, ?Hc, ?Ho, ?Hl; try done.
  - intros id' H. by apply Hmono, co_origin0.
  - intros id'. rewrite co_claims0. split.
    + intros (j & u & Hju & Hu). destruct (decide (j = i)) as [->|Hne]; [|exists j, u; by rewrite list_lookup_insert_ne].
      exists i, v'. split; [by eapply view_self|]. by simplify_eq.
    + intros (j & u & [[-> ->]|[Hne Hju]]%(view_cases _ _ _ _ _ _ Hi) & Hu); eauto.
  - intros id' j k u u' [[-> ->]|[Hne Hju]]%(view_cases _ _ _ _ _ _ Hi) [[-> ->]|[Hne' Hk]]%(view_cases _ _ _ _ _ _ Hi); eauto.
  - intros id' j u [[-> ->]|[Hne Hju]]%(view_cases _ _ _ _ _ _ Hi) Hu; eauto.
  - intros id' j u [[-> ->]|[Hne Hju]]%(view_cases _ _ _ _ _ _ Hi) Hu.
    + cbn in Hu. apply elem_of_union in Hu as [->%elem_of_singleton|Hu].
      * split; [apply lookup_insert_is_Some'; by left|]. split; [apply eq_None_not_Some; intros H|intros H];
          (destruct (co_origin0 id) as [? ?]; [by auto|congruence]).
      * destruct (co_fresh0 _ _ _ Hi Hu) as (? & ? & ?). auto.
    + destruct (co_fresh0 _ _ _ Hju Hu) as (? & ? & ?). auto.
  - intros id' j k u u' [[-> ->]|[Hne Hju]]%(view_cases _ _ _ _ _ _ Hi) [[-> ->]|[Hne' Hk]]%(view_cases _ _ _ _ _ _ Hi); cbn; try done; eauto.
    + intros [->%elem_of_singleton|H]%elem_of_union H'; [by destruct (Hnf _ _ Hk)|eauto].
    + intros H' [->%elem_of_singleton|H]%elem_of_union; [by destruct (Hnf _ _ Hju)|eauto].
Qed.

Lemma exec_claims X (o : io X) w x w' vs i v :
  claims_ok w vs → vs !! i = Some v → claim_pre o v → exec X o w x w' →
  claim_post o x v ∧ claims_ok w' (<[i := claim_next o x v]> vs).
Proof.
  intros Hok Hi Hpre Hx. pose proof (claims_same _ _ _ _ Hok Hi) as Hsame.
  destruct o as [|id e|id|id|id|id|id|id| |p| |oid onErr p|id|id|key|key|]; cbn [exec claim_pre claim_post claim_next] in *.
  - split; [done|]. by subst.
  - split; [done|]. destruct Hx as [[_ ->]|[_ ->]]; [done|]. destruct Hpre as [_ Hm]. destruct Hsame. split; try done.
    intros id' e'. cbn [tmp set_tmp]. intros [[<- <-]|[_ H]]%lookup_insert_Some; [done|by apply co_tmp0].
  - split; [done|]. destruct Hx as [[[err ->] ->]|(e & He & -> & ->)]; [done|].
    eapply claims_store; try done. intros id'. cbn. rewrite elem_of_app, list_elem_of_singleton. naive_solver.
  - destruct Hx as [-> [[err ->]|(e & He & ->)]]; [split; [done|]; by destruct (held v !! id)|].
    split; [intros e' [= <-]; by eapply co_json|]. destruct (held v !! id) as [b|] eqn:Eh; [|done].
    eapply claims_hold; [done|done|by eexists|]. intros _. by eexists.
  - destruct Hx as [-> _]. done.
  - split; [done|]. destruct Hx as [[[err ->] ->]|(_ & -> & ->)]; [done|]. eapply claims_leave; try done.
    intros id'. cbn. rewrite elem_of_app, list_elem_of_singleton. naive_solver.
  - split; [done|]. destruct Hx as [[_ ->]|(_ & _ & ->)]; [done|]. by apply (claims_frame w).
  - split; [done|]. destruct Hx as [[[err ->] ->]|(e & He & -> & ->)]; [done|]. eapply claims_leave; try done. by right.
  - by destruct Hx as [-> _].
  - split; [done|]. destruct Hx as [Hid ->]. by eapply claims_draw.
  - by destruct Hx as [-> ?].
  - split; [done|]. destruct Hx as [(outs & -> & ->)|(err & -> & ->)]; (eapply claims_frame; [..|exact Hsame]); try done;
      intros id'; apply acked_note; intros i'.
    + intros [H|H]%elem_of_cons; [done|]. destruct (deliverLoop _ _ _ _); [by apply elem_of_nil in H|]. by apply abortEvents_elem in H as [? ?].
    + by intros [? ?]%abortEvents_elem.
  - split; [done|]. destruct Hx as [-> ->]. case_bool_decide as Hin; [by eapply claims_take|].
    assert ({[id]} ∪ claims w = claims w) as Hc by set_solver. by apply (claims_frame w).
  - split; [done|]. subst w'. by eapply claims_give.
  - split; [done|]. destruct Hx as [_ ->]. by apply (claims_frame w).
  - split; [done|]. subst w'. by apply (claims_frame w).
  - split; [done|]. by subst.
Qed.

(** ** All interleavings *)

Definition sys_claims (s : Sys) : Prop :=
  ∃ vs, claims_ok (world s) vs ∧ Forall2 (λ v p, owns v p (λ _ _, True)) vs (tasks s).

Lemma claims_start w vs : claims_ok w vs → claims_ok w (vs ++ [nothing]).
Proof.
  assert (∀ j u, (vs ++ [nothing]) !! j = Some u → vs !! j = Some u ∨ u = nothing) as H.
  { intros j u [H|[_ H]]%lookup_app_Some; [by left|]. right. by apply list_lookup_singleton_Some in H as [_ <-]. }
  intros []. split; try done.
  - intros id. rewrite co_claims0. split; [intros (j & u & Hj & Hu); exists j, u; split; [by apply lookup_app_l_Some|done]|].
    intros (j & u & [Hj| ->]%H & Hu); [eauto|by destruct Hu].
  - intros id j k u u' [Hj| ->]%H [Hk| ->]%H; try (by intros _ []); try (by intros []); eauto.
  - intros id j u [Hj| ->]%H; [eauto|done].
  - intros id j u [Hj| ->]%H; [eauto|cbn; set_solver].
  - intros id j k u u' [Hj| ->]%H [Hk| ->]%H; cbn; try set_solver; eauto.
Qed.

Lemma claims_crash w vs : claims_ok w vs → claims_ok (crashed w) [].
Proof.
  intros []. split; try done.
  intros id. split; [cbn; set_solver|]. by intros (j & u & H & _).
Qed.

Lemma sstep_claims s s' : sys_claims s → sstep drainer s s' → sys_claims s'.
Proof.
  intros (vs & Hok & Hown) Hstep. destruct Hstep as [w ts p Hp|w ts i p p' w' Hi Hstep|w ts]; cbn [world tasks] in *.
  - exists (vs ++ [nothing]). split; [by apply claims_start|]. apply Forall2_app; [done|]. constructor; [by apply drainer_owns|constructor].
  - destruct (Forall2_lookup_r _ _ _ _ _ Hown Hi) as (v & Hv & Hp). destruct p as [r|X o k]; [done|].
    destruct Hstep as (x & Hx & ->). destruct Hp as [Hpre Hk].
    destruct (exec_claims X o w x w' vs i v Hok Hv Hpre Hx) as [Hpost Hok'].
    exists (<[i := vnext o x v]> vs). split; [exact Hok'|]. apply Forall2_insert; [done|]. by apply Hk.
  - exists []. split; [by eapply claims_crash|constructor].
Qed.

Lemma reachable_claims s : reachable drainer s → sys_claims s.
Proof.
  intros H. unfold reachable in H. assert (sys_claims (mkSys emptyWorld [])) as H0.
  { exists []. split; [|constructor]. split; try done; cbn; try set_solver.
    by intros id [[? ?]|?%elem_of_nil]. }
  revert H0. generalize (mkSys emptyWorld []), H. clear H. intros s0 H.
  induction H as [s|s1 s2 s3 H12 _ IH]; [done|]. intros H1. by apply IH, (sstep_claims s1).
Qed.

(** The queued entry whose delivery is the next operation of a program. *)
Definition sending (p : task unit) : option string :=
  match p with
  | Ret _ => None
  | Do o _ => match o with SendCore (Some id) _ _ => Some id | _ => None end
  end.

(** C29. Claims exclude. While entries are only stored and drained, whatever the
    drains, failures and crashes: when a drain is about to send an entry, the entry
    is in the queue, it was never acknowledged before, and no other drain is about to
    send it. *)
Theorem claimed_delivery_is_exclusive s i p id :
  reachable drainer s → tasks s !! i = Some p → sending p = Some id →
  is_Some (json (world s) !! id) ∧ (EvAcked id ∉ log (world s)) ∧
  ∀ j q, tasks s !! j = Some q → sending q = Some id → j = i.
Proof.
  intros (vs & Hok & Hown)%reachable_claims Hi Hs.
  assert (∀ j q, tasks s !! j = Some q → sending q = Some id → ∃ v, vs !! j = Some v ∧ held v !! id = Some true) as Hheld.
  { intros j q Hj Hq. destruct (Forall2_lookup_r _ _ _ _ _ Hown Hj) as (v & Hv & Hp). exists v. split; [done|].
    destruct q as [r|X o k]; [done|]. destruct Hp as [Hpre _]. destruct o; try done. destruct id0 as [id'|]; [|done].
    injection Hq as ->. exact Hpre. }
  destruct (Hheld i p Hi Hs) as (v & Hv & Hh). pose proof (co_held _ _ Hok _ _ _ Hv Hh) as Hj. split; [done|]. split.
  - intros Ha%(co_acked _ _ Hok). destruct Hj as [? ?]. congruence.
  - intros j q Hq Hsq. destruct (Hheld j q Hq Hsq) as (v' & Hv' & Hh'). by apply (co_unique _ _ Hok id j i v' v); [..|eexists|eexists].
Qed.

(** Two channels reconnect after a crash; one of them sends. *)
Definition twoDrains : list move :=
  [Start (ignore (enqueueDelivery (hello None)))] ++ turns 0 storing ++
  [Crash; Start (ignore (drainPendingDeliveries "a" everything)); Start (ignore (drainPendingDeliveries "b" everything))] ++
  turns 0 [Good; At 2000; Good; Good; Good] ++ turns 1 [Good; At 2000; Good; Good; Good] ++
  turns 0 [Good; Good; Good; At 2001] ++ turns 1 [Good].

Lemma claimed_delivery_is_exclusive_witness :
  let s := stateAfter twoDrains in
  (∃ p, tasks s !! 0%nat = Some p ∧ sending p = Some "m1" ∧ EvAcked "m1" ∉ log (world s)) ∧ length (tasks s) = 2%nat.
Proof.
  intros s. split; [|vm_compute; reflexivity].
  assert (match tasks s !! 0%nat with Some p => sending p | None => None end = Some "m1") as H by (vm_compute; reflexivity).
  destruct (tasks s !! 0%nat) as [p|] eqn:Ep; [|discriminate]. exists p. split; [done|]. split; [done|].
  assert (reachable drainer s) as Hr by (apply play_reachable; [repeat constructor|vm_compute; reflexivity]).
  apply (claimed_delivery_is_exclusive s 0 p "m1" Hr Ep H).
Defined.

End DeliveryClaims.
